(* ===== verification/_CoqProject ===== *)
-Q . S2P
Prelude.v
Deps.v
Search.v
Cache.v
DbAccess.v
Encode.v
Tx.v
Hashing.v
Header.v
Merkle.v
Address.v
Script.v
ScriptVm.v
ScriptSafe.v
ScriptBuild.v
ScriptSpend.v
Alt.v
Da.v
Svm.v
Mass.v
TxIsolation.v
TxUtxo.v
Utxo.v
Muhash.v
Uint.v
Target.v
Dag.v
Chain.v
Parents.v
Ghostdag.v
Relations.v
Difficulty.v
BlockDepth.v
PickParents.v
Params.v
Coinbase.v
BlockBody.v
Window.v
UtxoState.v
Virtual.v
SinkSearch.v
Interval.v
Reachability.v
ReachTree.v
Reindex.v
ReachOps.v
ReachHint.v
ReachService.v
HeaderProc.v
HeaderInv.v
BodyProc.v
HeaderRun.v
Pipeline.v
