(* ===== verification/Prelude.v ===== *)
(** * Sophis node: verification library

    A shallow embedding of the consensus code of the Sophis node, a proof of
    work block-DAG node written in Rust, with the theorems that make it correct.
    Definitions keep the names of the source; paths below are relative to
    [src/].

    ** The program and its model

    A block passes through four stages.  Its header is hashed and checked; its
    body is checked on its own and against its header; the DAG protocols place
    it (GHOSTDAG order and colour, windows, depths, reachability); and the
    virtual processor applies the transactions of the selected chain to the
    UTXO set.  The files follow these parts, each requiring the ones it calls.

    - Foundations.  This file: outcomes of Rust code, machine integers, the
      error and state monads, tactics and generic lemmas.  [Search]: the binary
      searches of the standard library.  [Uint]: the wide integers of
      [math/src/uint.rs], limb by limb.  [Target]: compact targets and work.
    - Storage.  [Cache]: the bounded cache of [database/src/cache.rs].
      [DbAccess]: keys, writers, cached access and cached items of
      [database/src], over RocksDB and bincode as interfaces.
    - Encodings and hashes.  [Encode] (byte writers, keyed hashers), [Tx]
      (transaction data), [Hashing] (transaction ids and signature hashes),
      [Header] (headers with compressed parents), [Merkle], [Muhash],
      [Address], [Alt] (address lookup tables), [Da] (data-availability
      carriers), [Svm] (contract and token data, bytecode checks).
    - Scripts, [crypto/txscript/src].  [Script] (numbers, stacks, opcode
      parsing), [ScriptVm] (every opcode and the engine), [ScriptSafe] (a Hoare
      logic for it), [ScriptBuild] (builder, script classes), [ScriptSpend]
      (what the engine decides for standard outputs).
    - Transactions and bodies.  [Mass], [TxIsolation], [TxUtxo]: the validator
      of [consensus/src/processes/transaction_validator].  [Params], [Coinbase].
      [BlockBody]: the body checks of [consensus/src/pipeline/body_processor].
    - The DAG.  [Dag] and [Chain] define the data of a block, the interfaces
      [ReachabilityService] and [ChainService] with their laws, and the
      traversals.  [Ghostdag], [Difficulty], [Window], [BlockDepth],
      [PickParents] are proved against the interfaces; [Interval],
      [Reachability], [ReachTree], [Reindex], [ReachOps], [ReachHint] model and
      verify the interval index of [consensus/src/processes/reachability], and
      [ReachService] shows that it implements the interfaces.  [Parents]: the
      parents of a block at every level.  [Relations]: the parents and children
      of blocks, their insertion and deletion.
    - The header processor, [consensus/src/pipeline/header_processor].
      [HeaderProc]: every check of a header and its commit to the stores.
      [HeaderInv]: the invariant of the stores, which composes the results on
      relations, reachability and GHOSTDAG.  [HeaderRun]: the start from
      genesis, and the promotion of headers to selected tip.
    - The UTXO state.  [Utxo]: the diff algebra of [consensus/core/src/utxo].
      [UtxoState]: the state a mergeset leads to and the checks of a chain
      block.  [Virtual]: moving the state along the selected chain.
      [SinkSearch]: the choice of the sink.

    ** Conventions

    A function that returns [Result] or may panic returns [res]; a handler that
    mutates a store is a state computation [stm], which keeps the store also
    when it fails.  Primitive arithmetic panics on overflow, since the release
    profile sets [overflow-checks]; [debug_assert!] is compiled out.  A store
    is the map it holds; reading a missing key is the error that the callers
    [unwrap].  A [HashMap] or [HashSet] that is iterated gets its order from a
    parameter ([HashIter], [SetIter]): the theorems hold for every order.  Work
    done on a thread pool takes the schedule as a parameter ([Schedule]).

    Code outside the repository is a parameter: hash functions ([Blake2b],
    [Sha3]), signature verification ([ScriptCrypto]), the WebAssembly parser
    and executor, RocksDB, bincode, random choices ([Rand], [EvictChoice],
    [CacheRandom]).  Their documented behaviour is the only hypothesis made of
    them, and every theorem that has one is instantiated with a concrete
    function in its witness.

    Loops that are not structural take fuel.  The bounds are: the number of
    blocks of a store for walks over the DAG and queues; the height of a block
    for walks along a chain; the length of the input for parsers.  [NoFuel] is
    an outcome of its own, and the theorems show that the bound is enough: a
    result is always stated as such, never only if the loop returns.

    ** What is shown

    - Reachability: adding a block keeps the intervals nested and disjoint and
      the future covering sets exact ([ReachOps]); following the selected tip
      keeps room along its chain, so that both operations keep succeeding
      ([ReachHint]); queries answer for the DAG, and so the index implements
      the interfaces of the protocols ([ReachService]).
    - Headers: a header that validates is committed without a panic and keeps
      all stores consistent, from genesis on; a rejected header changes nothing
      but its own status, and that only after its proof of work was checked
      ([HeaderInv], [HeaderRun]).  The parents computed for a level are exactly
      the maximal candidates ([Parents]); deleting a block from the relations
      keeps the topology of the others ([Relations]).
    - GHOSTDAG: blue sets stay k-clusters, mergesets are exact and their order
      is a linear extension; windows are the top of the samples whatever the
      caches hold; depth points computed step by step are those computed from
      scratch; the traversal and the choice of virtual parents terminate within
      the limits.
    - UTXO: diffs compose, invert and subtract as the views they stand for; the
      state of a mergeset is that of the extended ledger, to which the multiset
      hash commits; walking the virtual chain never panics and ends at the
      target or below a disqualified block; the sink search always finds a sink.
    - Transactions: what the isolation and UTXO checks accept; conservation of
      coins and of tokens; maturity and locks; the validator never panics.
    - Scripts: the engine is safe on every input; spending conditions of the
      standard outputs; the builder and the parser agree.
    - Commitments: hashes of transactions, headers and Merkle trees bind what
      they cover, up to an explicit collision; caches of hash parts do not
      change the result.
    - Storage: a cached access behaves as a map, and the cache respects its
      policy.
    - Error behaviour: inputs on which the code panics or accepts what it
      documents as impossible are theorems too ([fallthrough_versions_unchecked],
      [floor_refuses_extension], [events_order_dependent], [sig_cache_prefix],
      [mainnet_emission_exceeds_cap] and others).

    ** Not modelled

    Network and service code (P2P flows, RPC, notifications, explorers, wallets,
    the Stratum bridge, the miner): asynchronous input and output with little
    logic of its own.  RandomX, ML-DSA, Blake2b, SHA3 and the WebAssembly
    runtime: dependencies.  The rollup crates: built on a zero-knowledge
    prover.  The consensus instance and the pipeline workers: channels, locks
    and threads around the modelled operations; headers are processed one after
    the other in the model, as the dependency manager and the lock on the
    reachability store order them where they interact.  Pruning and pruning proofs,
    the mempool: large components whose invariants span the stores, left for
    later; the deletion of blocks from the reachability index is defined but
    not verified, and neither is the reclaiming of interval space outside the
    subtree of the reindex root, which [ReachHint] takes as a hypothesis not to
    be needed.  Serde, Borsh and wasm bindings of the data types. *)

From stdpp Require Export base option list gmap sorting.
From stdpp Require Import strings.
From Stdlib Require Export ZArith Lia.
From Stdlib Require Import ZifyBool.

#[global] Open Scope Z_scope.
#[global] Set Default Goal Selector "!".
#[global] Set Warnings "-clear-no-such-hyp".

(** ** Outcomes of Rust code

    [Ok]/[Err] are Rust's [Result]; [Panic] is an aborting panic: a failed
    [assert!] or [unwrap], an index out of range, or an overflow of primitive
    integer arithmetic ([Cargo.toml] sets [overflow-checks = true] for release
    builds, so overflow panics in every profile).  [NoFuel] is returned by a
    fuelled loop of the model that was given too little fuel; it stands for no
    behaviour of the program, and the theorems on such loops rule it out. *)
Inductive res (E A : Type) : Type :=
| Ok (a : A)
| Err (e : E)
| Panic
| NoFuel.
Arguments Ok {E A} a.
Arguments Err {E A} e.
Arguments Panic {E A}.
Arguments NoFuel {E A}.

#[export] Instance res_ret {E} : MRet (res E) := fun A a => Ok a.
#[export] Instance res_bind {E} : MBind (res E) := fun A B k r =>
  match r with
  | Ok a => k a
  | Err e => Err e
  | Panic => Panic
  | NoFuel => NoFuel
  end.
#[export] Instance res_fmap {E} : FMap (res E) := fun A B f r =>
  match r with
  | Ok a => Ok (f a)
  | Err e => Err e
  | Panic => Panic
  | NoFuel => NoFuel
  end.

#[export] Instance Ok_inj {E A} : Inj eq eq (@Ok E A).
Proof. by intros a b [= ->]. Qed.

(** [Option::unwrap] and [Option::ok_or]. *)
Definition unwrap {E A} (o : option A) : res E A :=
  match o with Some a => Ok a | None => Panic end.
Definition ok_or {E A} (o : option A) (e : E) : res E A :=
  match o with Some a => Ok a | None => Err e end.
(** [assert!]. *)
Definition rassert {E} (b : bool) : res E unit := if b then Ok tt else Panic.
(** An early [return Err(e)] guarded by [b]. *)
Definition fail_if {E} (b : bool) (e : E) : res E unit := if b then Err e else Ok tt.

(** [&mut self] methods returning a [Result]: the state after the call is
    observable also when the call fails. *)
Definition stm (S E A : Type) : Type := S -> res E A * S.
#[export] Instance stm_ret {S E} : MRet (stm S E) := fun A a s => (Ok a, s).
#[export] Instance stm_bind {S E} : MBind (stm S E) := fun A B k m s =>
  match m s with
  | (Ok a, s') => k a s'
  | (Err e, s') => (Err e, s')
  | (Panic, s') => (Panic, s')
  | (NoFuel, s') => (NoFuel, s')
  end.

(** [for x in l { f(x)?; }] on a mutable state. *)
Fixpoint stm_for {S E X} (f : X -> stm S E unit) (l : list X) : stm S E unit :=
  match l with
  | [] => mret tt
  | x :: l => _ ← f x; stm_for f l
  end.

(** A loop that also carries an accumulator. *)
Fixpoint stm_foldl {S E A B} (f : B -> A -> stm S E B) (b : B) (l : list A) : stm S E B :=
  match l with
  | [] => mret b
  | x :: l => b' ← f b x; stm_foldl f b' l
  end.

Lemma stm_for_seq {S E X} (f : nat -> stm S E unit) (g : X -> stm S E unit) l k s :
  (forall i x, l !! i = Some x -> forall s, f (k + i)%nat s = g x s) ->
  stm_for f (seq k (length l)) s = stm_for g l s.
Proof.
  revert k s. induction l as [|x l IH]; intros k s Hfg; [done|]. simpl.
  unfold mbind, stm_bind. rewrite <- (Hfg 0%nat x eq_refl s), Nat.add_0_r.
  destruct (f k s) as [[] s']; try done. apply IH. intros i y Hi s''.
  rewrite <- (Hfg (Datatypes.S i) y Hi). f_equal. lia.
Qed.

(** [l.iter().map(f).collect::<Result<Vec<_>, _>>()], also with a fold-like
    accumulation of panics. *)
Fixpoint res_mapM {E A B} (f : A -> res E B) (l : list A) : res E (list B) :=
  match l with
  | [] => Ok []
  | x :: l => y ← f x; ys ← res_mapM f l; Ok (y :: ys)
  end.
Fixpoint res_foldl {E A B} (f : B -> A -> res E B) (b : B) (l : list A) : res E B :=
  match l with
  | [] => Ok b
  | x :: l => b' ← f b x; res_foldl f b' l
  end.

(** ** Machine integers

    A [w]-bit unsigned integer is a [Z] in [[0, 2^w)]. *)
Definition inW (w x : Z) : Prop := 0 <= x < 2 ^ w.
Definition inWb (w x : Z) : bool := (0 <=? x) && (x <? 2 ^ w).
Definition wrap (w x : Z) : Z := x mod 2 ^ w.
(** A primitive arithmetic result at width [w]: the value, or a panic. *)
Definition chk {E} (w x : Z) : res E Z := if inWb w x then Ok x else Panic.
Definition u64_add {E} (x y : Z) : res E Z := chk 64 (x + y).
Definition u64_sub {E} (x y : Z) : res E Z := chk 64 (x - y).
Definition u64_mul {E} (x y : Z) : res E Z := chk 64 (x * y).
(** Unsigned division panics on a zero divisor. *)
Definition udiv {E} (x y : Z) : res E Z := if y =? 0 then Panic else Ok (x / y).
(** [Iterator::sum::<u64>]. *)
Definition u64_sum {E} (l : list Z) : res E Z := res_foldl u64_add 0 l.
(** [u64::div_ceil]. *)
Definition div_ceil (x y : Z) : Z := (x + y - 1) / y.

Abbreviation u8 := Z (only parsing).
Abbreviation u16 := Z (only parsing).
Abbreviation u32 := Z (only parsing).
Abbreviation u64 := Z (only parsing).
Abbreviation usize := Z (only parsing).
Abbreviation bytes := (list Z) (only parsing).
(** A 32-byte hash, as the integer its bytes denote in big-endian order; the
    derived lexicographic [Ord] of the byte array is then [Z]'s order. *)
Abbreviation Hash := Z (only parsing).

(** Length as an integer ([usize]). *)
Definition zlen {A} (l : list A) : Z := Z.of_nat (length l).

Lemma zlen_nonneg {A} (l : list A) : 0 <= zlen l.
Proof. unfold zlen. lia. Qed.
Lemma zlen_nil {A} : zlen (@nil A) = 0.
Proof. done. Qed.
Lemma zlen_cons {A} (x : A) l : zlen (x :: l) = zlen l + 1.
Proof. unfold zlen. simpl. lia. Qed.
Lemma zlen_app {A} (l k : list A) : zlen (l ++ k) = zlen l + zlen k.
Proof. unfold zlen. rewrite length_app. lia. Qed.

(** ** Automation *)
Create HintDb width.
Create Rewrite HintDb res.
Create Rewrite HintDb zlen.

Lemma chk_ok {E} w x : inW w x -> chk (E:=E) w x = Ok x.
Proof. unfold chk, inW, inWb. intros H. by replace ((0 <=? x) && (x <? 2 ^ w)) with true by lia. Qed.
Lemma chk_panic {E} w x : ~ inW w x -> chk (E:=E) w x = Panic.
Proof. unfold chk, inW, inWb. intros H. by replace ((0 <=? x) && (x <? 2 ^ w)) with false by lia. Qed.
Lemma chk_inv {E} w x y : chk (E:=E) w x = Ok y -> y = x /\ inW w x.
Proof.
  unfold chk, inW, inWb. destruct ((0 <=? x) && (x <? 2 ^ w)) eqn:Hb; [|done].
  intros [= ->]. lia.
Qed.
Lemma u64_add_ok {E} x y : inW 64 (x + y) -> u64_add (E:=E) x y = Ok (x + y).
Proof. apply chk_ok. Qed.
Lemma u64_sub_ok {E} x y : inW 64 (x - y) -> u64_sub (E:=E) x y = Ok (x - y).
Proof. apply chk_ok. Qed.
Lemma udiv_ok {E} x y : y <> 0 -> udiv (E:=E) x y = Ok (x / y).
Proof. unfold udiv. intros H. by replace (y =? 0) with false by lia. Qed.
Lemma bind_ok {E A B} (k : A -> res E B) r b :
  (a ← r; k a) = Ok b -> exists a, r = Ok a /\ k a = Ok b.
Proof. destruct r; simpl; [|done..]. eauto. Qed.
Lemma unwrap_ok {E A} (o : option A) a : unwrap (E:=E) o = Ok a -> o = Some a.
Proof. by destruct o as [x|]; intros [=->]. Qed.
Lemma fail_if_ok {E} b (e : E) u : fail_if b e = Ok u -> b = false.
Proof. by destruct b. Qed.

Lemma wrap_small w x : inW w x -> wrap w x = x.
Proof. unfold wrap, inW. intros. by rewrite Z.mod_small. Qed.
Lemma wrap_range w x : 0 <= w -> inW w (wrap w x).
Proof. intros. apply Z.mod_pos_bound. lia. Qed.

(** Runs one step of a successful monadic computation in hypothesis [H]. *)
Ltac bind_inv H :=
  let a := fresh "a" in let Ha := fresh "Ha" in
  apply bind_ok in H as (a & Ha & H).

(** Runs the guards at the head of a successful computation. *)
Ltac guards H :=
  repeat (let Hg := fresh "Hg" in let u := fresh in
          apply bind_ok in H as (u & Hg & H); apply fail_if_ok in Hg; clear u).

(** Case analysis on the scrutinee of the first match or if of the goal. *)
Ltac case_step :=
  match goal with
  | |- context [match ?x with _ => _ end] => destruct x eqn:?
  | |- context [if ?x then _ else _] => destruct x eqn:?
  end.

Lemma sublist_map {A B} (f : A -> B) l k : l `sublist_of` k -> map f l `sublist_of` map f k.
Proof. induction 1; simpl; [constructor|by constructor|by apply sublist_cons]. Qed.

Lemma elem_of_concat_map {A B} (f : A -> list B) l x : x ∈ concat (map f l) <-> exists y, y ∈ l /\ x ∈ f y.
Proof.
  rewrite list_elem_of_In, in_concat. split.
  - intros (k & (y & <- & Hy)%in_map_iff & Hx). exists y. by rewrite !list_elem_of_In.
  - intros (y & Hy & Hx). exists (f y). rewrite in_map_iff, <- list_elem_of_In. split; [|done]. exists y.
    by rewrite <- list_elem_of_In.
Qed.

(** Traversals whose steps all succeed. *)
Lemma res_mapM_ok {E A B} (f : A -> res E B) (g : A -> B) l :
  (forall x, x ∈ l -> f x = Ok (g x)) -> res_mapM f l = Ok (map g l).
Proof.
  induction l as [|x l IH]; intros Hf; [done|]. simpl. rewrite Hf by left. cbn [mbind res_bind].
  rewrite IH; [done|]. intros y Hy. apply Hf. by right.
Qed.

Lemma res_foldl_app {E A B} (f : B -> A -> res E B) b l k :
  res_foldl f b (l ++ k) = (b' ← res_foldl f b l; res_foldl f b' k).
Proof. revert b. induction l as [|x l IH]; intros b; [done|]. simpl. destruct (f b x); [apply IH|done..]. Qed.
(** A loop keeps what each of its steps keeps. *)
Lemma res_foldl_ind {E A B} (f : B -> A -> res E B) (P : list A -> B -> Prop) b l :
  P [] b ->
  (forall done_ x rest b, l = done_ ++ x :: rest -> P done_ b -> exists b', f b x = Ok b' /\ P (done_ ++ [x]) b') ->
  exists b', res_foldl f b l = Ok b' /\ P l b'.
Proof.
  intros H0 Hstep. enough (forall k done_, l = done_ ++ k -> forall b, P done_ b -> exists b', res_foldl f b k = Ok b' /\ P l b') as Hk.
  { by apply (Hk l []). }
  induction k as [|x k IH]; intros d Hd b' Hb'; simpl.
  { exists b'. split; [done|]. by rewrite Hd, app_nil_r. }
  destruct (Hstep d x k b' Hd Hb') as (b'' & -> & Hb''). cbn [mbind res_bind].
  apply (IH (d ++ [x])); [|done]. by rewrite Hd, <- app_assoc.
Qed.

(** [Vec::swap_remove]. *)
Definition swap_remove {A} (l : list A) (i : nat) : list A :=
  match last l with
  | Some x => take (length l - 1) (<[i := x]> l)
  | None => l
  end.
Lemma delete_insert_same {A} (l : list A) i x : delete i (<[i := x]> l) = delete i l.
Proof.
  apply list_eq. intros j. destruct (decide (j < i)%nat) as [Hj|Hj].
  - rewrite !list_lookup_delete_lt, list_lookup_insert_ne by lia. done.
  - rewrite !list_lookup_delete_ge, list_lookup_insert_ne by lia. done.
Qed.
Lemma swap_remove_perm {A} (l : list A) i x : l !! i = Some x -> x :: swap_remove l i ≡ₚ l.
Proof.
  intros Hi. unfold swap_remove. destruct l as [|y l _] using rev_ind; [done|].
  rewrite last_snoc, length_app. simpl. replace (length l + 1 - 1)%nat with (length l) by lia.
  destruct (decide (i < length l)%nat) as [Hlt|Hge].
  - rewrite insert_app_l, take_app_le, take_ge by (rewrite ?length_insert; lia).
    rewrite lookup_app_l in Hi by done. rewrite (delete_Permutation (<[i:=y]> l) i y) by (by apply list_lookup_insert_eq).
    rewrite delete_insert_same. rewrite (delete_Permutation l i x Hi) at 2. rewrite Permutation_app_comm. apply Permutation_swap.
  - assert (i = length l) as -> by (apply lookup_lt_Some in Hi; rewrite length_app in Hi; simpl in Hi; lia).
    rewrite lookup_app_r, Nat.sub_diag in Hi by lia. injection Hi as ->.
    rewrite insert_app_r_alt by lia. rewrite take_app_length. by rewrite Permutation_app_comm.
Qed.

(** ** Hash maps

    Rust's [HashMap] is a [gmap]; the order in which it is iterated is
    unspecified, and is an argument of the definitions that iterate: any
    enumeration of the entries. *)
Class HashIter K V `{Countable K} := {
  hash_iter : gmap K V -> list (K * V);
  hash_iter_perm m : hash_iter m ≡ₚ map_to_list m;
}.

(** One enumeration, used to run the definitions on concrete inputs. *)
Definition map_to_list_iter K V `{Countable K} : HashIter K V :=
  {| hash_iter := map_to_list; hash_iter_perm m := Permutation_refl _ |}.

Section hash_iter.
Context `{Countable K} {V : Type} `{!HashIter K V}.
Implicit Types m acc : gmap K V.

Lemma elem_of_hash_iter m k v : (k, v) ∈ hash_iter m <-> m !! k = Some v.
Proof. rewrite hash_iter_perm. apply elem_of_map_to_list. Qed.

Lemma hash_iter_nodup m : NoDup (hash_iter m).*1.
Proof. rewrite hash_iter_perm. apply NoDup_fst_map_to_list. Qed.

(** [for (k, v) in m.iter() { if p(k, v) { acc.insert(k, v) } }] *)
Definition insert_where (p : K -> V -> bool) (acc : gmap K V) (l : list (K * V)) : gmap K V :=
  foldl (fun acc kv => if p kv.1 kv.2 then <[kv.1 := kv.2]> acc else acc) acc l.

Lemma insert_where_list p acc (l : list (K * V)) k :
  NoDup l.*1 ->
  (forall v, (k, v) ∈ l -> insert_where p acc l !! k = if p k v then Some v else acc !! k) /\
  ((forall v, (k, v) ∉ l) -> insert_where p acc l !! k = acc !! k).
Proof.
  revert acc. induction l as [|[k' v'] l IH]; intros acc Hnd; simpl in *.
  { split; [|done]. intros v Hin. by apply elem_of_nil in Hin. }
  apply NoDup_cons in Hnd as [Hk' Hnd].
  destruct (IH (if p k' v' then <[k':=v']> acc else acc) Hnd) as [IH1 IH2]. split.
  - intros v Hin. apply elem_of_cons in Hin as [[= <- <-]|Hin].
    + rewrite IH2.
      * case_match; [by rewrite lookup_insert_eq|done].
      * intros w Hw. apply Hk'. apply list_elem_of_fmap. by exists (k, w).
    + assert (k <> k') as Hne.
      { intros ->. apply Hk'. apply list_elem_of_fmap. by exists (k', v). }
      rewrite (IH1 v Hin). destruct (p k' v'); [|done]. by rewrite lookup_insert_ne.
  - intros Hnot. rewrite IH2.
    + case_match; [|done]. rewrite lookup_insert_ne; [done|].
      intros ->. apply (Hnot v'). left.
    + intros v Hv. apply (Hnot v). by right.
Qed.

Lemma lookup_insert_where p acc m k :
  insert_where p acc (hash_iter m) !! k =
    match m !! k with
    | Some v => if p k v then Some v else acc !! k
    | None => acc !! k
    end.
Proof.
  destruct (insert_where_list p acc (hash_iter m) k (hash_iter_nodup m)) as [H1 H2].
  destruct (m !! k) as [v|] eqn:Hk.
  - apply H1. by apply elem_of_hash_iter.
  - apply H2. intros v Hv. apply elem_of_hash_iter in Hv. congruence.
Qed.
End hash_iter.

(** The iteration order of a [HashSet] is left open in the same way. *)
Class SetIter K `{Countable K} := {
  set_iter : gset K -> list K;
  set_iter_perm X : set_iter X ≡ₚ elements X;
}.
Definition elements_iter K `{Countable K} : SetIter K :=
  {| set_iter := elements; set_iter_perm X := Permutation_refl _ |}.

(** ** Sums *)
Definition sum_of {A} (f : A -> Z) (l : list A) : Z := foldr (fun x s => f x + s) 0 l.
Lemma sum_of_cons {A} (f : A -> Z) x l : sum_of f (x :: l) = f x + sum_of f l.
Proof. done. Qed.
Lemma sum_of_nonneg {A} (f : A -> Z) l : Forall (fun x => 0 <= f x) l -> 0 <= sum_of f l.
Proof. induction 1; simpl; lia. Qed.
Lemma sum_of_bound {A} (f : A -> Z) k l : Forall (fun x => f x <= k) l -> sum_of f l <= k * zlen l.
Proof. induction 1 as [|x l Hx Hl IH]; [rewrite (zlen_nil (A:=A)); simpl; lia|]. rewrite sum_of_cons, zlen_cons. lia. Qed.
Lemma sum_of_lower {A} (f : A -> Z) k l : Forall (fun x => k <= f x) l -> k * zlen l <= sum_of f l.
Proof. induction 1 as [|x l Hx Hl IH]; [rewrite (zlen_nil (A:=A)); simpl; lia|]. rewrite sum_of_cons, zlen_cons. lia. Qed.
Lemma sum_of_map {A B} (f : B -> Z) (g : A -> B) l : sum_of f (map g l) = sum_of (fun x => f (g x)) l.
Proof. induction l; simpl; congruence. Qed.
Lemma sum_of_filter {A} (f : A -> Z) (P : A -> Prop) `{!forall x, Decision (P x)} l : (forall x, 0 <= f x) ->
  sum_of f (filter P l) <= sum_of f l.
Proof.
  intros Hf. induction l as [|x l IH]; [done|]. rewrite filter_cons, sum_of_cons. specialize (Hf x).
  case_decide; [rewrite sum_of_cons|]; lia.
Qed.
Lemma sum_of_app {A} (f : A -> Z) l k : sum_of f (l ++ k) = sum_of f l + sum_of f k.
Proof. induction l as [|x l IH]; [done|]. rewrite <- app_comm_cons, !sum_of_cons, IH. lia. Qed.
Lemma sum_of_perm {A} (f : A -> Z) l k : l ≡ₚ k -> sum_of f l = sum_of f k.
Proof. induction 1; rewrite ?sum_of_cons; lia. Qed.
Lemma sum_of_ext {A} (f g : A -> Z) l : (forall x, x ∈ l -> f x = g x) -> sum_of f l = sum_of g l.
Proof.
  induction l as [|x l IH]; intros Hfg; [done|]. rewrite !sum_of_cons, IH, Hfg; [done|left|]. intros y Hy. apply Hfg. by right.
Qed.
Lemma sum_of_opp {A} (f : A -> Z) l : sum_of (fun x => - f x) l = - sum_of f l.
Proof. induction l as [|x l IH]; [done|]. rewrite !sum_of_cons, IH. lia. Qed.
Lemma sum_of_add {A} (f g : A -> Z) l : sum_of (fun x => f x + g x) l = sum_of f l + sum_of g l.
Proof. induction l as [|x l IH]; [done|]. rewrite !sum_of_cons, IH. lia. Qed.

(** The sum over the entries of a map. *)
Section msum.
Context `{Countable K} {V : Type}.
Implicit Types (m : gmap K V) (f : K -> V -> Z).
Definition msum f m : Z := sum_of (fun kv => f kv.1 kv.2) (map_to_list m).
Lemma msum_empty f : msum f ∅ = 0.
Proof. unfold msum. by rewrite map_to_list_empty. Qed.
Lemma msum_insert f m k v : m !! k = None -> msum f (<[k := v]> m) = f k v + msum f m.
Proof. intros Hk. unfold msum. by rewrite (sum_of_perm _ _ _ (map_to_list_insert m k v Hk)). Qed.
Lemma msum_delete f m k v : m !! k = Some v -> msum f (delete k m) = msum f m - f k v.
Proof.
  intros Hk. rewrite <- (insert_delete_id m k v Hk) at 2. rewrite msum_insert by apply lookup_delete_eq. lia.
Qed.
Lemma msum_nonneg f m : (forall k v, m !! k = Some v -> 0 <= f k v) -> 0 <= msum f m.
Proof.
  intros Hf. apply sum_of_nonneg, Forall_forall. intros [k v] Hkv. apply Hf. by apply elem_of_map_to_list in Hkv.
Qed.
Lemma msum_ext f g m : (forall k v, m !! k = Some v -> f k v = g k v) -> msum f m = msum g m.
Proof. intros Hfg. apply sum_of_ext. intros [k v] Hkv. apply Hfg. by apply elem_of_map_to_list in Hkv. Qed.
End msum.

(** ** Positional notation

    The little-endian digits of an integer in base [B]: bytes with [B = 256],
    the limbs of the big integers with [B = 2^64]. *)
Fixpoint digits (B : Z) (n : nat) (z : Z) : list Z :=
  match n with
  | O => []
  | S n => z mod B :: digits B n (z / B)
  end.
Fixpoint undigits (B : Z) (l : list Z) : Z :=
  match l with
  | [] => 0
  | d :: l => d + B * undigits B l
  end.
Definition is_digit (B d : Z) : Prop := 0 <= d < B.

Section digits.
Context (B : Z) (HB : 1 < B).

Lemma length_digits n z : length (digits B n z) = n.
Proof. revert z. induction n; intros; simpl; auto. Qed.

Lemma digits_range n z : Forall (is_digit B) (digits B n z).
Proof.
  revert z. induction n as [|n IH]; intros z; simpl; [constructor|].
  constructor; [|apply IH]. apply Z.mod_pos_bound. lia.
Qed.

Lemma undigits_range l : Forall (is_digit B) l -> 0 <= undigits B l < B ^ zlen l.
Proof.
  induction 1 as [|d l [Hd1 Hd2] Hl IH]; cbn [undigits app]; [change (zlen []) with 0; lia|].
  rewrite zlen_cons, Z.pow_add_r, Z.pow_1_r by (pose proof (zlen_nonneg l); lia). nia.
Qed.

Lemma undigits_nonneg l : Forall (is_digit B) l -> 0 <= undigits B l.
Proof. intros H. apply undigits_range in H. lia. Qed.

Lemma undigits_digits n z : undigits B (digits B n z) = z mod B ^ Z.of_nat n.
Proof.
  revert z. induction n as [|n IH]; intros z; simpl digits.
  - simpl. by rewrite Z.mod_1_r.
  - cbn [undigits]. rewrite IH.
    rewrite Nat2Z.inj_succ, Z.pow_succ_r by lia.
    rewrite (Z.rem_mul_r z B (B ^ Z.of_nat n)) by (try lia; apply Z.pow_nonzero; lia). lia.
Qed.

Lemma digits_undigits l : Forall (is_digit B) l -> digits B (length l) (undigits B l) = l.
Proof.
  induction 1 as [|d l [Hd1 Hd2] Hl IH]; simpl; [done|].
  rewrite (Z.mul_comm B), Z.mod_add, Z.mod_small by lia.
  rewrite Z.div_add, Z.div_small by lia. by rewrite Z.add_0_l, IH.
Qed.

Lemma undigits_inj l k : length l = length k ->
  Forall (is_digit B) l -> Forall (is_digit B) k -> undigits B l = undigits B k -> l = k.
Proof.
  intros Hlen Hl Hk Heq. rewrite <- (digits_undigits l), <- (digits_undigits k) by done.
  by rewrite Hlen, Heq.
Qed.

Lemma undigits_app l k : undigits B (l ++ k) = undigits B l + B ^ zlen l * undigits B k.
Proof.
  induction l as [|d l IH]; cbn [undigits app]; [change (zlen []) with 0; lia|].
  rewrite IH, zlen_cons, Z.pow_add_r, Z.pow_1_r by (pose proof (zlen_nonneg l); lia). ring.
Qed.

Lemma digits_snoc n z : digits B (S n) z = digits B n z ++ [z / B ^ Z.of_nat n mod B].
Proof.
  revert z. induction n as [|n IH]; intros z; [cbn; by rewrite Z.div_1_r|].
  change (digits B (S (S n)) z) with (z mod B :: digits B (S n) (z / B)). rewrite IH. cbn [digits app]. do 3 f_equal.
  rewrite Z.div_div, <- Z.pow_succ_r by (try apply Z.pow_pos_nonneg; lia). by rewrite Nat2Z.inj_succ.
Qed.

Lemma undigits_zeros n : undigits B (repeat 0 n) = 0.
Proof. induction n; simpl; lia. Qed.

Lemma zeros_digit n : Forall (is_digit B) (repeat 0 n).
Proof. induction n; simpl; constructor; [unfold is_digit; lia|done]. Qed.
End digits.

Lemma zlen_digits B n z : zlen (digits B n z) = Z.of_nat n.
Proof. unfold zlen. by rewrite length_digits. Qed.
Lemma zlen_drop {A} n (l : list A) : 0 <= n <= zlen l -> zlen (drop (Z.to_nat n) l) = zlen l - n.
Proof. unfold zlen. rewrite length_drop. lia. Qed.
Lemma undigits_digits_small n z : inW (8 * Z.of_nat n) z -> undigits 256 (digits 256 n z) = z.
Proof.
  intros Hz. rewrite undigits_digits by done. apply Z.mod_small. unfold inW in Hz.
  change 256 with (2 ^ 8). by rewrite <- Z.pow_mul_r by lia.
Qed.
Lemma digits_undigits_len n l : Forall (is_digit 256) l -> zlen l = Z.of_nat n -> digits 256 n (undigits 256 l) = l.
Proof. intros Hl Hn. replace n with (length l) by (unfold zlen in Hn; lia). by apply digits_undigits. Qed.

(** Disjoint bits. *)
Lemma land_pow2_low x y k : 0 <= k -> 0 <= y < 2 ^ k -> Z.land (Z.shiftl x k) y = 0.
Proof.
  intros Hk Hy. apply Z.bits_inj'. intros j Hj. rewrite Z.land_spec, Z.bits_0, Z.shiftl_spec by done.
  destruct (Z.lt_ge_cases j k); [by rewrite Z.testbit_neg_r by lia|].
  rewrite <- (Z.mod_small y (2 ^ k)), Z.mod_pow2_bits_high by lia. apply andb_false_r.
Qed.
Lemma lor_pow2_add x y k : 0 <= k -> 0 <= y < 2 ^ k -> Z.lor (Z.shiftl x k) y = x * 2 ^ k + y.
Proof.
  intros Hk Hy. pose proof (Z.add_lor_land (Z.shiftl x k) y) as H.
  rewrite land_pow2_low in H by done. rewrite <- Z.shiftl_mul_pow2 by done. lia.
Qed.

(** ** Indexing and slicing

    [l[i]] and [l[a..b]], which panic out of range; the indices are [usize]. *)
Definition at_ {E A} (l : list A) (i : usize) : res E A := unwrap (l !! Z.to_nat i).
Definition slice {E A} (l : list A) (a b : usize) : res E (list A) :=
  if (a <=? b) && (b <=? zlen l) then Ok (take (Z.to_nat (b - a)) (drop (Z.to_nat a) l)) else Panic.

Lemma at_ok {E A} (l p r : list A) i x : l = p ++ x :: r -> zlen p = i -> at_ (E:=E) l i = Ok x.
Proof.
  intros -> <-. unfold at_, zlen. rewrite Nat2Z.id, lookup_app_r, Nat.sub_diag by lia. done.
Qed.
Lemma slice_ok {E A} (l p q r : list A) a b :
  l = p ++ q ++ r -> zlen p = a -> zlen q = b - a -> slice (E:=E) l a b = Ok q.
Proof.
  intros -> Hp Hq. unfold slice. rewrite !zlen_app.
  replace ((a <=? b) && (b <=? zlen p + (zlen q + zlen r))) with true
    by (pose proof (zlen_nonneg q); pose proof (zlen_nonneg r); lia).
  rewrite <- Hq, <- Hp. unfold zlen. by rewrite !Nat2Z.id, drop_app_length, take_app_length.
Qed.

(** Cutting a list at a position. *)
Lemma cut_at {A} (l : list A) n : 0 <= n <= zlen l -> exists p r, l = p ++ r /\ zlen p = n.
Proof.
  intros Hn. exists (take (Z.to_nat n) l), (drop (Z.to_nat n) l). split; [by rewrite take_drop|].
  unfold zlen in *. rewrite length_take. lia.
Qed.
Lemma zlen_repeat {A} (x : A) n : zlen (repeat x n) = Z.of_nat n.
Proof. unfold zlen. by rewrite repeat_length. Qed.
Lemma zlen_0 {A} (l : list A) : zlen l = 0 -> l = [].
Proof. destruct l; [done|]. rewrite zlen_cons. pose proof (zlen_nonneg l). lia. Qed.
Lemma zlen_1 {A} (l : list A) : zlen l = 1 -> exists x, l = [x].
Proof. destruct l as [|x l]; [done|]. rewrite zlen_cons. intros H. exists x. by rewrite (zlen_0 l) by lia. Qed.
Lemma zlen_2 {A} (l : list A) : zlen l = 2 -> exists x y, l = [x; y].
Proof. destruct l as [|x l]; [done|]. rewrite zlen_cons. intros H. destruct (zlen_1 l) as [y ->]; [lia|]. by exists x, y. Qed.

(** Positions inside a list built from pieces of known length. *)
#[export] Hint Rewrite @zlen_nil @zlen_cons @zlen_app @zlen_digits : zlen.
Ltac position :=
  subst; cbn [app]; rewrite ?app_nil_r, <- ?app_assoc; cbn [app]; rewrite <- ?app_assoc;
  first [done | autorewrite with zlen; simpl Z.of_nat in *; lia].

(** Computations that end in a value or an error. *)
Definition is_result {E A} (r : res E A) : Prop := match r with Ok _ | Err _ => True | _ => False end.
Lemma is_result_fail_if {E A} b e (r : res E A) : is_result r -> is_result (_ ← fail_if b e; r).
Proof. by destruct b. Qed.

Lemma is_result_bind {E A B} (r : res E A) (k : A -> res E B) :
  is_result r -> (forall a, r = Ok a -> is_result (k a)) -> is_result (a ← r; k a).
Proof. intros Hr Hk. destruct r; [by apply Hk|done..]. Qed.

(** ** Hoare triples for stateful code

    From a state satisfying [P], [m] ends in a value with [Q] or in an error:
    no panic, no exhausted fuel. *)
Definition hoare {S E A} (P : S -> Prop) (m : stm S E A) (Q : A -> S -> Prop) : Prop :=
  forall s, P s -> match m s with (Ok a, s') => Q a s' | (Err _, _) => True | _ => False end.
Lemma hoare_bind {S E A B} (P : S -> Prop) (m : stm S E A) (k : A -> stm S E B) R Q :
  hoare P m R -> (forall a, hoare (R a) (k a) Q) -> hoare P (a ← m; k a) Q.
Proof.
  intros Hm Hk s Hs. specialize (Hm s Hs). unfold mbind, stm_bind. destruct (m s) as [[a| | |] s']; [|done..].
  by apply Hk.
Qed.
Lemma hoare_for {S E X} (P : S -> Prop) (f : X -> stm S E unit) l :
  (forall x, x ∈ l -> hoare P (f x) (fun _ => P)) -> hoare P (stm_for f l) (fun _ => P).
Proof.
  induction l as [|x l IH]; intros Hf; [by intros s Hs|]. cbn [stm_for].
  eapply hoare_bind; [apply Hf; left|]. intros u. apply IH. intros y Hy. apply Hf. by right.
Qed.
