(* ===== verification/Deps.v ===== *)
(** * The queue of dependent block tasks

    [consensus/src/pipeline/deps_manager.rs], and the way the workers of the
    header and body processors use it ([worker] and [queue_block] of
    [header_processor/processor.rs] and [body_processor/processor.rs]).

    The receiving thread registers the tasks; each registered block is spawned
    on a thread pool, where a job begins the task, waits behind a pending parent
    when there is one, processes the block and ends the task.  The manager locks
    its map for each call, so the calls of the threads interleave as atomic
    steps of a transition system.  A task is generic: only its block's hash and
    direct parents are used here. *)
From S2P Require Import Prelude.

Section manager.
Context {BlockTask Sender : Type} (task_hash : BlockTask -> Hash) (direct_parents : BlockTask -> list Hash).
Abbreviation TaskId := Hash.

Record BlockTaskInternal := mkInternal {
  task : option BlockTask;
  block_result_transmitter : Sender;
  virtual_state_result_transmitter : Sender;
}.
Inductive TaskQueue := QEmpty | QSingle (t : BlockTaskInternal) | QMany (q : list BlockTaskInternal).
Record BlockTaskGroup := mkGroup { tasks : TaskQueue; dependent_tasks : list TaskId }.
Abbreviation Pending := (gmap Hash BlockTaskGroup).

(** ** Task queues *)
Definition queue_push_back (q : TaskQueue) (t : BlockTaskInternal) : TaskQueue :=
  match q with QEmpty => QSingle t | QSingle t0 => QMany [t0; t] | QMany q => QMany (q ++ [t]) end.
Definition queue_front (q : TaskQueue) : option BlockTaskInternal :=
  match q with QEmpty => None | QSingle t => Some t | QMany q => head q end.
Definition queue_pop_front (q : TaskQueue) : option BlockTaskInternal * TaskQueue :=
  match q with QEmpty => (None, QEmpty) | QSingle t => (Some t, QEmpty) | QMany q => (head q, QMany (tail q)) end.
Definition queue_is_empty (q : TaskQueue) : bool :=
  match q with QEmpty => true | QSingle _ => false | QMany q => bool_decide (length q = 0%nat) end.
(** [front_mut().unwrap().task.take()] *)
Definition queue_take_front (q : TaskQueue) : option BlockTask * TaskQueue :=
  let taken t := mkInternal None (block_result_transmitter t) (virtual_state_result_transmitter t) in
  match q with
  | QSingle t => (task t, QSingle (taken t))
  | QMany (t :: q) => (task t, QMany (taken t :: q))
  | _ => (None, q)
  end.

(** ** The dependency manager *)
Definition register (pending : Pending) (t : BlockTask) (s1 s2 : Sender) : Pending * option TaskId :=
  let internal := mkInternal (Some t) s1 s2 in
  match pending !! task_hash t with
  | None => (<[task_hash t := mkGroup (QSingle internal) []]> pending, Some (task_hash t))
  | Some g => (<[task_hash t := mkGroup (queue_push_back (tasks g) internal) (dependent_tasks g)]> pending, None)
  end.
Definition try_begin {E} (pending : Pending) (task_id : TaskId) : res E (Pending * option BlockTask) :=
  group ← unwrap (pending !! task_id);
  internal_task ← unwrap (queue_front (tasks group));
  t ← unwrap (task internal_task);
  match list_find (fun p => is_Some (pending !! p)) (direct_parents t) with
  | Some (_, parent) =>
      g ← unwrap (pending !! parent);
      Ok (<[parent := mkGroup (tasks g) (dependent_tasks g ++ [task_id])]> pending, None)
  | None =>
      let '(o, q) := queue_take_front (tasks group) in
      t ← unwrap o;
      Ok (<[task_id := mkGroup q (dependent_tasks group)]> pending, Some t)
  end.
(** The new map, the senders given to the callback and the tasks to requeue. *)
Definition end_task {E} (pending : Pending) (t : BlockTask) : res E (Pending * (Sender * Sender) * list TaskId) :=
  entry ← unwrap (pending !! task_hash t);
  let '(o, q) := queue_pop_front (tasks entry) in
  internal_task ← unwrap o;
  let '(pending, next_tasks) :=
    if queue_is_empty q then (delete (task_hash t) pending, dependent_tasks entry)
    else (<[task_hash t := mkGroup q (dependent_tasks entry)]> pending, [task_hash t]) in
  match task internal_task with
  | Some _ => Panic
  | None => Ok (pending, (block_result_transmitter internal_task, virtual_state_result_transmitter internal_task), next_tasks)
  end.

(** ** The workers

    [pool] holds the jobs spawned on the thread pool, [running] the tasks being
    processed, [requests] and [results] the tasks registered and the results
    sent so far, in order. *)
Record System := mkSystem {
  pending : Pending;
  pool : list TaskId;
  running : list BlockTask;
  requests : list (Hash * (Sender * Sender));
  results : list (Hash * (Sender * Sender));
}.
Definition idle : System := mkSystem ∅ [] [] [] [].
(** A step of some thread; [None] is a panic.  [admitted] is what is known of
    every task that is registered. *)
Inductive step (admitted : BlockTask -> Prop) : System -> option System -> Prop :=
| step_register s t s1 s2 p o : admitted t -> register (pending s) t s1 s2 = (p, o) ->
    step admitted s (Some (mkSystem p (pool s ++ option_list o) (running s) (requests s ++ [(task_hash t, (s1, s2))]) (results s)))
| step_begin s p1 id p2 p o : pool s = p1 ++ id :: p2 -> try_begin (E:=Empty_set) (pending s) id = Ok (p, o) ->
    step admitted s (Some (mkSystem p (p1 ++ p2) (running s ++ option_list o) (requests s) (results s)))
| step_begin_panic s id : id ∈ pool s -> try_begin (E:=Empty_set) (pending s) id = Panic -> step admitted s None
| step_end s r1 t r2 p ss next : running s = r1 ++ t :: r2 -> end_task (E:=Empty_set) (pending s) t = Ok (p, ss, next) ->
    step admitted s (Some (mkSystem p (pool s ++ next) (r1 ++ r2) (requests s) (results s ++ [(task_hash t, ss)])))
| step_end_panic s t : t ∈ running s -> end_task (E:=Empty_set) (pending s) t = Panic -> step admitted s None.
(** What the threads can reach from the idle system. *)
Inductive reached (admitted : BlockTask -> Prop) : System -> Prop :=
| reached_idle : reached admitted idle
| reached_step s s' : reached admitted s -> step admitted s (Some s') -> reached admitted s'.
(** A step of a worker: any step that registers no task. *)
Definition work_step (s s' : System) : Prop := step (fun _ => False) s (Some s').

(** ** Queues are lists *)
Definition queue_list (q : TaskQueue) : list BlockTaskInternal :=
  match q with QEmpty => [] | QSingle t => [t] | QMany q => q end.
Lemma queue_push_list q t : queue_list (queue_push_back q t) = queue_list q ++ [t].
Proof. by destruct q. Qed.
Lemma queue_front_list q : queue_front q = head (queue_list q).
Proof. by destruct q. Qed.
Lemma queue_pop_list q : queue_pop_front q = (head (queue_list q), snd (queue_pop_front q)) /\ queue_list (snd (queue_pop_front q)) = tail (queue_list q).
Proof. by destruct q. Qed.
Lemma queue_empty_list q : queue_is_empty q = bool_decide (queue_list q = []).
Proof. destruct q as [| |[]]; done. Qed.
Definition taken (t : BlockTaskInternal) : BlockTaskInternal :=
  mkInternal None (block_result_transmitter t) (virtual_state_result_transmitter t).
Lemma queue_take_list q i l : queue_list q = i :: l -> fst (queue_take_front q) = task i /\ queue_list (snd (queue_take_front q)) = taken i :: l.
Proof. destruct q as [| |[]]; intros; by simplify_eq/=. Qed.

(** ** Where the pending blocks are *)
Definition keys (p : Pending) : list Hash := (map_to_list p).*1.
Definition deps (p : Pending) : list Hash := concat ((dependent_tasks ∘ snd) <$> map_to_list p).
Lemma keys_put p k g : keys (<[k := g]> p) ≡ₚ k :: keys (delete k p).
Proof. unfold keys. by rewrite <- insert_delete_eq, map_to_list_insert by apply lookup_delete_eq. Qed.
Lemma deps_put p k g : deps (<[k := g]> p) ≡ₚ dependent_tasks g ++ deps (delete k p).
Proof. unfold deps. by rewrite <- insert_delete_eq, map_to_list_insert by apply lookup_delete_eq. Qed.
Lemma keys_take p k g : p !! k = Some g -> keys p ≡ₚ k :: keys (delete k p).
Proof. intros H. rewrite <- (insert_id p k g H) at 1. apply keys_put. Qed.
Lemma deps_take p k g : p !! k = Some g -> deps p ≡ₚ dependent_tasks g ++ deps (delete k p).
Proof. intros H. rewrite <- (insert_id p k g H) at 1. apply deps_put. Qed.
Lemma elem_of_keys p k : k ∈ keys p <-> is_Some (p !! k).
Proof.
  unfold keys. rewrite list_elem_of_fmap. split.
  - intros ([k' g] & -> & H%elem_of_map_to_list). by exists g.
  - intros [g H]. exists (k, g). by rewrite elem_of_map_to_list.
Qed.
Lemma elem_of_deps p k : k ∈ deps p <-> exists q g, p !! q = Some g /\ k ∈ dependent_tasks g.
Proof.
  unfold deps. rewrite list_elem_of_In, in_concat. setoid_rewrite <- list_elem_of_In. split.
  - intros (l & ([q g] & -> & H%elem_of_map_to_list)%list_elem_of_fmap & Hk). by exists q, g.
  - intros (q & g & H & Hk). exists (dependent_tasks g). split; [|done].
    apply list_elem_of_fmap. exists (q, g). by rewrite elem_of_map_to_list.
Qed.
Lemma NoDup_keys p : NoDup (keys p).
Proof. apply NoDup_fst_map_to_list. Qed.

(** ** The invariant *)
Definition owned (admitted : BlockTask -> Prop) (id : TaskId) (i : BlockTaskInternal) : Prop :=
  exists t, task i = Some t /\ task_hash t = id /\ admitted t.
Definition group_wf (admitted : BlockTask -> Prop) (id : TaskId) (busy : Prop) (g : BlockTaskGroup) : Prop :=
  exists i l, queue_list (tasks g) = i :: l /\ (busy /\ task i = None \/ ~ busy /\ owned admitted id i) /\ Forall (owned admitted id) l.
(** The task that the next job of block [id] begins. *)
Definition front_task (p : Pending) (id : TaskId) : option BlockTask :=
  match p !! id with Some g => head (queue_list (tasks g)) ≫= task | None => None end.
Definition senders (i : BlockTaskInternal) : Sender * Sender := (block_result_transmitter i, virtual_state_result_transmitter i).
Definition replies (h : Hash) (l : list (Hash * (Sender * Sender))) : list (Sender * Sender) :=
  (filter (fun x => x.1 = h) l).*2.
Definition queued (p : Pending) (h : Hash) : list (Sender * Sender) :=
  match p !! h with Some g => senders <$> queue_list (tasks g) | None => [] end.
Record deps_inv (admitted : BlockTask -> Prop) (s : System) : Prop := {
  di_places : (task_hash <$> running s) ++ pool s ++ deps (pending s) ≡ₚ keys (pending s);
  di_groups : forall id g, pending s !! id = Some g -> group_wf admitted id (id ∈ task_hash <$> running s) g;
  di_waits : forall p g id, pending s !! p = Some g -> id ∈ dependent_tasks g ->
    exists t, front_task (pending s) id = Some t /\ p ∈ direct_parents t;
  di_order : forall h, replies h (requests s) = replies h (results s) ++ queued (pending s) h;
}.

(** ** The operations on every branch *)
Lemma try_begin_cases {E} p id g i l t :
  p !! id = Some g -> queue_list (tasks g) = i :: l -> task i = Some t ->
  (exists q gq, q ∈ direct_parents t /\ p !! q = Some gq /\
     try_begin (E:=E) p id = Ok (<[q := mkGroup (tasks gq) (dependent_tasks gq ++ [id])]> p, None)) \/
  (exists q, Forall (fun h => p !! h = None) (direct_parents t) /\ queue_list q = taken i :: l /\
     try_begin (E:=E) p id = Ok (<[id := mkGroup q (dependent_tasks g)]> p, Some t)).
Proof.
  intros Hg Hq Ht. unfold try_begin. rewrite Hg. cbn. rewrite queue_front_list, Hq. cbn. rewrite Ht. cbn.
  destruct (list_find _ _) as [[n q]|] eqn:Hf.
  - left. apply list_find_Some in Hf as (Hl & [gq Hgq] & _). exists q, gq. rewrite Hgq.
    split; [by eapply list_elem_of_lookup_2|done].
  - right. apply list_find_None in Hf. destruct (queue_take_list _ _ _ Hq) as [Ho Hq'].
    destruct (queue_take_front (tasks g)) as [o q]. cbn in *. subst o. rewrite Ht. exists q. split_and!; [|done|done].
    eapply Forall_impl; [exact Hf|]. intros h Hh. by apply eq_None_not_Some.
Qed.
Lemma end_task_cases {E} p t g i l :
  p !! task_hash t = Some g -> queue_list (tasks g) = i :: l -> task i = None ->
  (l = [] /\ end_task (E:=E) p t = Ok (delete (task_hash t) p, senders i, dependent_tasks g)) \/
  (exists q, l <> [] /\ queue_list q = l /\
     end_task (E:=E) p t = Ok (<[task_hash t := mkGroup q (dependent_tasks g)]> p, senders i, [task_hash t])).
Proof.
  intros Hg Hq Hi. unfold end_task. rewrite Hg. cbn. destruct (queue_pop_list (tasks g)) as [-> Hl].
  rewrite Hq in *. cbn in *. rewrite queue_empty_list, Hl, Hi. case_bool_decide as He; [by left|right; eauto].
Qed.

(** ** Places of the blocks *)
Section places.
Context (admitted : BlockTask -> Prop) (s : System) (I : deps_inv admitted s).
Lemma places_nodup : NoDup ((task_hash <$> running s) ++ pool s ++ deps (pending s)).
Proof using I. rewrite (di_places _ _ I). apply NoDup_keys. Qed.
Lemma pool_pending id : id ∈ pool s -> is_Some (pending s !! id) /\ id ∉ task_hash <$> running s.
Proof using I.
  intros H. split.
  - apply elem_of_keys. rewrite <- (di_places _ _ I), !elem_of_app. tauto.
  - intros Hr. pose proof places_nodup as Hn. rewrite NoDup_app in Hn. destruct Hn as (_ & Hn & _).
    apply (Hn id Hr), elem_of_app. by left.
Qed.
Lemma running_pending t : t ∈ running s -> is_Some (pending s !! task_hash t).
Proof using I.
  intros H. apply elem_of_keys. rewrite <- (di_places _ _ I), !elem_of_app. left. by apply list_elem_of_fmap_2.
Qed.
Lemma running_unique r1 t r2 : running s = r1 ++ t :: r2 -> task_hash t ∉ task_hash <$> (r1 ++ r2).
Proof using I.
  intros H. pose proof places_nodup as Hn. rewrite H, NoDup_app in Hn. destruct Hn as [Hn _].
  rewrite fmap_app in *. cbn in Hn. rewrite <- Permutation_middle, NoDup_cons in Hn. apply Hn.
Qed.
(** A spawned job finds the first task of its group. *)
Lemma pool_front id : id ∈ pool s -> exists g i l t,
  pending s !! id = Some g /\ queue_list (tasks g) = i :: l /\ task i = Some t /\ task_hash t = id /\ admitted t /\ Forall (owned admitted id) l.
Proof using I.
  intros H. destruct (pool_pending _ H) as [[g Hg] Hr].
  destruct (di_groups _ _ I _ _ Hg) as (i & l & Hq & [[] | [_ (t & Ht & Hh & Ha)]] & Hl); [done|].
  by exists g, i, l, t.
Qed.
(** A running task finds its group, with its own entry taken at the front. *)
Lemma running_front t : t ∈ running s -> exists g i l,
  pending s !! task_hash t = Some g /\ queue_list (tasks g) = i :: l /\ task i = None /\ Forall (owned admitted (task_hash t)) l.
Proof using I.
  intros H. destruct (running_pending _ H) as [g Hg].
  destruct (di_groups _ _ I _ _ Hg) as (i & l & Hq & [[_ Hi] | [[] _]] & Hl).
  - by exists g, i, l.
  - by apply list_elem_of_fmap_2.
Qed.
Lemma no_panic : ~ step admitted s None.
Proof using I.
  inversion 1; subst.
  - destruct (pool_front id) as (g & i & l & t & Hg & Hq & Ht & _); [done|].
    destruct (try_begin_cases (E:=Empty_set) _ _ _ _ _ _ Hg Hq Ht) as [(? & ? & _ & _ & ?)|(? & _ & _ & ?)]; congruence.
  - destruct (running_front t) as (g & i & l & Hg & Hq & Hi & _); [done|].
    destruct (end_task_cases (E:=Empty_set) _ _ _ _ _ Hg Hq Hi) as [(_ & ?)|(? & _ & _ & ?)]; congruence.
Qed.
End places.

(** ** Preservation *)
Lemma elem_of_middle {A} (x : A) l l1 l2 : l = l1 ++ x :: l2 -> x ∈ l.
Proof. intros ->. rewrite elem_of_app, elem_of_cons. tauto. Qed.
Lemma replies_snoc h k ss l : replies h (l ++ [(k, ss)]) = replies h l ++ (if decide (k = h) then [ss] else []).
Proof. unfold replies. rewrite filter_app, fmap_app, filter_cons. cbn. by destruct (decide (k = h)). Qed.
Lemma queued_insert p k g h : queued (<[k := g]> p) h = if decide (k = h) then senders <$> queue_list (tasks g) else queued p h.
Proof. unfold queued. destruct (decide (k = h)) as [->|]; by simplify_map_eq. Qed.
Lemma queued_delete p k h : queued (delete k p) h = if decide (k = h) then [] else queued p h.
Proof. unfold queued. destruct (decide (k = h)) as [->|]; by simplify_map_eq. Qed.
Lemma queued_lookup p k g : p !! k = Some g -> queued p k = senders <$> queue_list (tasks g).
Proof. unfold queued. by intros ->. Qed.
Lemma front_task_lookup p k g i l : p !! k = Some g -> queue_list (tasks g) = i :: l -> front_task p k = task i.
Proof. unfold front_task. by intros -> ->. Qed.
Lemma front_task_insert_ne p k g id : id <> k -> front_task (<[k := g]> p) id = front_task p id.
Proof. intros. unfold front_task. by rewrite lookup_insert_ne. Qed.
Lemma front_task_delete_ne p k id : id <> k -> front_task (delete k p) id = front_task p id.
Proof. intros. unfold front_task. by rewrite lookup_delete_ne. Qed.
Lemma group_wf_iff admitted id (P Q : Prop) g : (P <-> Q) -> group_wf admitted id P g -> group_wf admitted id Q g.
Proof. intros H (i & l & Hq & Hi & Hl). exists i, l. split_and!; [done| |done]. tauto. Qed.
Section preservation.
Context (admitted : BlockTask -> Prop) (s : System) (I : deps_inv admitted s).
(** Waiting survives a change that keeps the first task of every waiting block. *)
Lemma waits_update p' :
  (forall id, id ∈ deps (pending s) -> front_task p' id = front_task (pending s) id) ->
  (forall q g id, p' !! q = Some g -> id ∈ dependent_tasks g ->
     (exists g0, pending s !! q = Some g0 /\ id ∈ dependent_tasks g0) \/ exists t, front_task p' id = Some t /\ q ∈ direct_parents t) ->
  forall q g id, p' !! q = Some g -> id ∈ dependent_tasks g -> exists t, front_task p' id = Some t /\ q ∈ direct_parents t.
Proof using I.
  intros Hf Hd q g id Hg Hid. destruct (Hd q g id Hg Hid) as [(g0 & Hg0 & Hi)|]; [|done].
  rewrite Hf; [by apply (di_waits _ _ I) with g0|]. apply elem_of_deps. by exists q, g0.
Qed.
Lemma register_inv t s1 s2 p o : admitted t -> register (pending s) t s1 s2 = (p, o) ->
  deps_inv admitted (mkSystem p (pool s ++ option_list o) (running s) (requests s ++ [(task_hash t, (s1, s2))]) (results s)).
Proof using I.
  unfold register. intros Ha Hr. destruct (pending s !! task_hash t) as [g|] eqn:Hg; injection Hr as <- <-.
  - destruct (di_groups _ _ I _ _ Hg) as (i & l & Hq & Hi & Hl). split; cbn -[deps keys replies queued front_task].
    + rewrite app_nil_r, deps_put, keys_put. cbn. rewrite <- (deps_take _ _ _ Hg), <- (keys_take _ _ _ Hg). apply I.
    + intros id g'. rewrite lookup_insert_Some. intros [[<- <-]|[_ H]]; [|by apply (di_groups _ _ I)].
      exists i, (l ++ [mkInternal (Some t) s1 s2]). cbn. rewrite queue_push_list, Hq. split_and!; [done|done|].
      apply Forall_app. split; [done|]. apply Forall_singleton. by exists t.
    + apply waits_update.
      * intros id _. destruct (decide (id = task_hash t)) as [->|]; [|by apply front_task_insert_ne].
        erewrite front_task_lookup; [|by rewrite lookup_insert_eq|cbn; by rewrite queue_push_list, Hq].
        by erewrite front_task_lookup.
      * intros q g' id. rewrite lookup_insert_Some. intros [[<- <-]|[_ H]] Hid; left; by eexists.
    + intros h. rewrite replies_snoc, (di_order _ _ I), queued_insert, <- app_assoc. f_equal.
      destruct (decide _) as [<-|]; [|by rewrite app_nil_r]. rewrite (queued_lookup _ _ _ Hg). cbn. by rewrite queue_push_list, fmap_app.
  - split; cbn -[deps keys replies queued front_task].
    + rewrite deps_put, keys_put, delete_id by done. cbn. rewrite <- (di_places _ _ I). by solve_Permutation.
    + intros id g'. rewrite lookup_insert_Some. intros [[<- <-]|[_ H]]; [|by apply (di_groups _ _ I)].
      eexists _, []. split_and!; [done| |done]. right. split; [|by exists t].
      intros (t' & Heq & Ht')%list_elem_of_fmap. destruct (running_pending _ _ I _ Ht') as [? ?]. congruence.
    + apply waits_update.
      * intros id Hid. apply front_task_insert_ne. intros ->.
        assert (is_Some (pending s !! task_hash t)) as [? ?]; [|congruence].
        apply elem_of_keys. rewrite <- (di_places _ _ I), !elem_of_app. tauto.
      * intros q g' id. rewrite lookup_insert_Some. intros [[<- <-]|[_ H]] Hid; [by apply elem_of_nil in Hid|]. left. by eexists.
    + intros h. rewrite replies_snoc, (di_order _ _ I), queued_insert, <- app_assoc. f_equal.
      unfold queued. destruct (decide _) as [<-|]; [by rewrite Hg|by rewrite app_nil_r].
Qed.
Lemma begin_inv p1 id p2 p o : pool s = p1 ++ id :: p2 -> try_begin (E:=Empty_set) (pending s) id = Ok (p, o) ->
  deps_inv admitted (mkSystem p (p1 ++ p2) (running s ++ option_list o) (requests s) (results s)).
Proof using I.
  intros Hp Hb. pose proof (elem_of_middle _ _ _ _ Hp) as Hid.
  destruct (pool_front _ _ I _ Hid) as (g & i & l & t & Hg & Hq & Ht & <- & Ha & Hl).
  destruct (try_begin_cases (E:=Empty_set) _ _ _ _ _ _ Hg Hq Ht) as [(q & gq & Hpar & Hgq & Hb')|(q & _ & Hq' & Hb')];
    rewrite Hb' in Hb; injection Hb as <- <-; split; cbn -[deps keys replies queued front_task].
  - rewrite app_nil_r, deps_put, keys_put, <- (keys_take _ _ _ Hgq), <- (di_places _ _ I), Hp, (deps_take _ _ _ Hgq). cbn. by solve_Permutation.
  - intros id' g'. rewrite app_nil_r, lookup_insert_Some. intros [[<- <-]|[_ H]]; [|by apply (di_groups _ _ I)].
    exact (di_groups _ _ I _ _ Hgq).
  - assert (forall h, front_task (<[q := mkGroup (tasks gq) (dependent_tasks gq ++ [task_hash t])]> (pending s)) h = front_task (pending s) h) as Hf.
    { intros h. unfold front_task. destruct (decide (h = q)) as [->|]; [|by rewrite lookup_insert_ne]. by rewrite lookup_insert_eq, Hgq. }
    apply waits_update; [by intros|]. intros q' g' id'. rewrite lookup_insert_Some.
    intros [[<- <-]|[_ H]] Hin; [|left; by eexists]. cbn in Hin. apply elem_of_app in Hin as [Hin|Hin%list_elem_of_singleton]; [left; by eexists|].
    right. exists t. split; [|done]. by rewrite Hf, Hin, (front_task_lookup _ _ _ _ _ Hg Hq).
  - intros h. rewrite (di_order _ _ I), queued_insert. f_equal. destruct (decide _) as [<-|]; [|done]. exact (queued_lookup _ _ _ Hgq).
  - rewrite deps_put, keys_put, <- (keys_take _ _ _ Hg), <- (di_places _ _ I), Hp, fmap_app, (deps_take _ _ _ Hg). cbn. by solve_Permutation.
  - intros id' g'. rewrite lookup_insert_Some, fmap_app. cbn. intros [[<- <-]|[Hne H]].
    + exists (taken i), l. split_and!; [done| |done]. left. split; [|done]. rewrite elem_of_app. right. by apply list_elem_of_singleton.
    + eapply group_wf_iff; [|by apply (di_groups _ _ I)]. rewrite elem_of_app, list_elem_of_singleton. naive_solver.
  - apply waits_update.
    + intros h Hh. apply front_task_insert_ne. intros ->. pose proof (places_nodup _ _ I) as Hn.
      rewrite !NoDup_app in Hn. by apply Hn in Hh.
    + intros q' g' id'. rewrite lookup_insert_Some. intros [[<- <-]|[_ H]] Hin; left; by eexists.
  - intros h. rewrite (di_order _ _ I), queued_insert. f_equal. destruct (decide _) as [<-|]; [|done].
    rewrite (queued_lookup _ _ _ Hg). cbn. by rewrite Hq, Hq'.
Qed.
Lemma end_inv r1 t r2 p ss next : running s = r1 ++ t :: r2 -> end_task (E:=Empty_set) (pending s) t = Ok (p, ss, next) ->
  deps_inv admitted (mkSystem p (pool s ++ next) (r1 ++ r2) (requests s) (results s ++ [(task_hash t, ss)])).
Proof using I.
  intros Hr He. pose proof (elem_of_middle _ _ _ _ Hr) as Hin.
  pose proof (running_unique _ _ I _ _ _ Hr) as Hu.
  assert (task_hash t ∉ deps (pending s)) as Hnd.
  { intros Hd. pose proof (places_nodup _ _ I) as Hn. rewrite NoDup_app in Hn.
    apply (proj1 (proj2 Hn) (task_hash t)); [by apply list_elem_of_fmap_2|]. rewrite elem_of_app. tauto. }
  assert (forall id, id <> task_hash t -> (id ∈ task_hash <$> running s) <-> (id ∈ task_hash <$> (r1 ++ r2))) as Hbusy.
  { intros id Hne. rewrite Hr, !fmap_app, !elem_of_app, fmap_cons, elem_of_cons. tauto. }
  destruct (running_front _ _ I _ Hin) as (g & i & l & Hg & Hq & Hi & Hl).
  destruct (end_task_cases (E:=Empty_set) _ _ _ _ _ Hg Hq Hi) as [(-> & He')|(q & Hne & Hq' & He')];
    rewrite He' in He; injection He as <- <- <-; split; cbn -[deps keys replies queued front_task].
  - apply (Permutation_cons_inv (a:=task_hash t)). rewrite <- (keys_take _ _ _ Hg), <- (di_places _ _ I), Hr, (deps_take _ _ _ Hg), !fmap_app. cbn. by solve_Permutation.
  - intros id g'. rewrite lookup_delete_Some. intros [Hne H]. eapply group_wf_iff; [by apply Hbusy|]. by apply (di_groups _ _ I).
  - apply waits_update.
    + intros h Hh. apply front_task_delete_ne. by intros ->.
    + intros q' g' id'. rewrite lookup_delete_Some. intros [_ H] Hd. left. by eexists.
  - intros h. rewrite replies_snoc, (di_order _ _ I), queued_delete, <- app_assoc. f_equal.
    destruct (decide _) as [<-|]; [|done]. by rewrite (queued_lookup _ _ _ Hg), Hq.
  - rewrite deps_put, keys_put, <- (keys_take _ _ _ Hg), <- (di_places _ _ I), Hr, !fmap_app, (deps_take _ _ _ Hg). cbn. by solve_Permutation.
  - intros id g'. rewrite lookup_insert_Some. intros [[<- <-]|[Hid H]].
    + destruct Hl as [|j l' Hj Hl']; [done|]. exists j, l'. split_and!; [done| |done]. by right.
    + eapply group_wf_iff; [by apply Hbusy|]. by apply (di_groups _ _ I).
  - apply waits_update.
    + intros h Hh. apply front_task_insert_ne. by intros ->.
    + intros q' g' id'. rewrite lookup_insert_Some. intros [[<- <-]|[_ H]] Hd; left; by eexists.
  - intros h. rewrite replies_snoc, (di_order _ _ I), queued_insert, <- app_assoc. f_equal.
    destruct (decide _) as [<-|]; [|done]. rewrite (queued_lookup _ _ _ Hg). cbn. by rewrite Hq, Hq'.
Qed.
End preservation.
Lemma step_inv admitted s s' : deps_inv admitted s -> step admitted s (Some s') -> deps_inv admitted s'.
Proof. intros I. inversion 1; subst; eauto using register_inv, begin_inv, end_inv. Qed.
Lemma idle_inv admitted : deps_inv admitted idle.
Proof. split; [done| | |done]; intros *; unfold idle; cbn; rewrite lookup_empty; discriminate. Qed.
Lemma reached_inv admitted s : reached admitted s -> deps_inv admitted s.
Proof. induction 1; eauto using idle_inv, step_inv. Qed.
Lemma replied_unless_pending admitted s h : deps_inv admitted s -> pending s !! h = None -> replies h (results s) = replies h (requests s).
Proof. intros I H. rewrite (di_order _ _ I). unfold queued. by rewrite H, app_nil_r. Qed.

(** C0. Safety and order, in every interleaving of the receiving thread and the
    workers: no call of the manager panics (each spawned job finds its group
    and an untaken task, each ended task finds its entry taken), no two tasks of
    one block are processed at once, the requests for a block are answered in
    the order they came, and when a job begins a block every request made so far
    for each of its parents has been answered. *)
Theorem deps_safe admitted s : reached admitted s ->
  ~ step admitted s None /\
  NoDup (task_hash <$> running s) /\
  (forall h, replies h (results s) `prefix_of` replies h (requests s)) /\
  (forall id p t, id ∈ pool s -> try_begin (E:=Empty_set) (pending s) id = Ok (p, Some t) ->
     task_hash t = id /\ forall q, q ∈ direct_parents t -> replies q (results s) = replies q (requests s)).
Proof.
  intros I%reached_inv. split_and!.
  - by apply no_panic.
  - pose proof (places_nodup _ _ I) as Hn. rewrite NoDup_app in Hn. apply Hn.
  - intros h. eexists. by rewrite (di_order _ _ I).
  - intros id p t Hid Hb. destruct (pool_front _ _ I _ Hid) as (g & i & l & t' & Hg & Hq & Ht & Hh & _).
    destruct (try_begin_cases (E:=Empty_set) _ _ _ _ _ _ Hg Hq Ht) as [(? & ? & _ & _ & ?)|(? & Hf & _ & ?)]; [congruence|].
    assert (t' = t) as -> by congruence. split; [done|]. intros q Hin. eapply replied_unless_pending; [exact I|].
    rewrite Forall_forall in Hf. by apply Hf.
Qed.

(** ** The workers drain the queue *)
Lemma work_admitted admitted s s' : work_step s s' -> step admitted s (Some s').
Proof. inversion 1; subst; [done| |]; econstructor; eauto. Qed.
Lemma work_inv admitted s s' : deps_inv admitted s -> work_step s s' -> deps_inv admitted s' /\ requests s' = requests s.
Proof. intros I H. split; [by eapply step_inv, work_admitted|]. by inversion H. Qed.
Definition load (p : Pending) : nat := sum_list ((length ∘ queue_list ∘ tasks ∘ snd) <$> map_to_list p).
Lemma load_put p k g : load (<[k := g]> p) = (length (queue_list (tasks g)) + load (delete k p))%nat.
Proof. unfold load. by rewrite <- insert_delete_eq, map_to_list_insert by apply lookup_delete_eq. Qed.
Lemma load_take p k g : p !! k = Some g -> load p = (length (queue_list (tasks g)) + load (delete k p))%nat.
Proof. intros H. rewrite <- (insert_id p k g H) at 1. apply load_put. Qed.
Lemma pool_bound admitted s : deps_inv admitted s -> (length (pool s) <= size (pending s))%nat.
Proof.
  intros I. pose proof (Permutation_length (di_places _ _ I)) as H. unfold keys in H.
  rewrite !length_app, !length_fmap, length_map_to_list in H. lia.
Qed.
Lemma work_load admitted s s' : deps_inv admitted s -> work_step s s' ->
  (size (pending s') <= size (pending s))%nat /\
  (load (pending s') = load (pending s) /\ S (length (pool s')) = length (pool s) \/ S (load (pending s')) = load (pending s)).
Proof.
  intros I H. inversion H; subst; cbn [pending pool]; [done| |].
  - destruct (pool_front _ _ I id) as (g & i & l & t & Hg & Hq & Ht & _); [by eapply elem_of_middle|].
    match goal with Hp : pool s = _ |- _ => rewrite Hp, !length_app end. cbn [length].
    destruct (try_begin_cases (E:=Empty_set) _ _ _ _ _ _ Hg Hq Ht) as [(q & gq & _ & Hgq & Hb)|(q & _ & Hq' & Hb)];
      match goal with Hb' : try_begin _ _ = _ |- _ => rewrite Hb in Hb'; injection Hb' as <- <- end.
    + rewrite map_size_insert_Some, load_put by done. cbn. rewrite <- (load_take _ _ _ Hgq). lia.
    + rewrite map_size_insert_Some, load_put, (load_take _ _ _ Hg), Hq by done. cbn. rewrite Hq'. cbn. lia.
  - destruct (running_front _ _ I t) as (g & i & l & Hg & Hq & Hi & _); [by eapply elem_of_middle|]. rewrite (load_take _ _ _ Hg), Hq.
    destruct (end_task_cases (E:=Empty_set) _ _ _ _ _ Hg Hq Hi) as [(-> & He)|(q & _ & Hq' & He)];
      match goal with He' : end_task _ _ = _ |- _ => rewrite He in He'; injection He' as <- <- <- end.
    + rewrite map_size_delete, Hg. cbn. lia.
    + rewrite map_size_insert_Some, load_put by done. cbn. rewrite Hq'. lia.
Qed.
Lemma work_terminates admitted s : deps_inv admitted s -> Acc (flip work_step) s.
Proof.
  intros I. assert (size (pending s) <= size (pending s))%nat as Hk by done. revert Hk I. generalize (size (pending s)) at 2. intros k.
  remember (load (pending s) * (k + 2) + length (pool s))%nat as m eqn:Hm. revert s Hm.
  induction (lt_wf m) as [m _ IH]. intros s -> Hk I. constructor. intros s' H.
  destruct (work_load _ _ _ I H) as [Hs Hl]. destruct (work_inv _ _ _ I H) as [I' _].
  pose proof (pool_bound _ _ I'). eapply IH; [|done|lia|done]. nia.
Qed.
Section drain.
Context (admitted : BlockTask -> Prop) (rank : Hash -> nat).
Hypothesis causal : forall t p, admitted t -> p ∈ direct_parents t -> (rank p < rank (task_hash t))%nat.
Lemma someone_works s : deps_inv admitted s -> pool s = [] -> running s = [] -> pending s = ∅.
Proof using causal.
  intros I Hp Hr. pose proof (di_places _ _ I) as Hpl. rewrite Hp, Hr in Hpl. cbn in Hpl.
  apply map_empty. intros id. apply eq_None_not_Some. remember (rank id) as n eqn:Hn. revert id Hn.
  induction (lt_wf n) as [n _ IH]. intros id -> Hid. pose proof Hid as [g Hg].
  apply elem_of_keys in Hid. rewrite <- Hpl in Hid. apply elem_of_deps in Hid as (q & gq & Hgq & Hin).
  destruct (di_waits _ _ I _ _ _ Hgq Hin) as (t & Ht & Hpar).
  destruct (di_groups _ _ I _ _ Hg) as (i & l & Hq & [[Hb _] | [_ (t' & Hi & Hh & Ha)]] & _).
  { rewrite Hr in Hb. by apply elem_of_nil in Hb. }
  rewrite (front_task_lookup _ _ _ _ _ Hg Hq) in Ht. assert (t' = t) as -> by congruence. subst id.
  eapply (IH (rank q)); [|done|by exists gq]. by apply causal.
Qed.
Lemma work_progress s : deps_inv admitted s -> pending s <> ∅ -> exists s', work_step s s'.
Proof using causal.
  intros I Hne. destruct (pool s) as [|id p2] eqn:Hp; [destruct (running s) as [|t r2] eqn:Hr|].
  - by destruct Hne; apply someone_works.
  - destruct (running_front _ _ I t) as (g & i & l & Hg & Hq & Hi & _); [rewrite Hr; left|].
    destruct (end_task_cases (E:=Empty_set) _ _ _ _ _ Hg Hq Hi) as [(_ & ?)|(q & _ & _ & ?)];
      eexists; by eapply (step_end _ _ []).
  - destruct (pool_front _ _ I id) as (g & i & l & t & Hg & Hq & Ht & _); [rewrite Hp; left|].
    destruct (try_begin_cases (E:=Empty_set) _ _ _ _ _ _ Hg Hq Ht) as [(q & gq & _ & _ & ?)|(q & _ & _ & ?)];
      eexists; by eapply (step_begin _ _ []).
Qed.
Lemma work_rtc s s' : deps_inv admitted s -> rtc work_step s s' -> deps_inv admitted s' /\ requests s' = requests s.
Proof using. intros I. induction 1 as [|? ? ? H _ IH]; [done|]. apply (work_inv _ _ _ I) in H as [I' <-]. by apply IH. Qed.

(** C0. The workers drain the queue: when the parents of every task come before
    it in some ranking of the hashes (block hashes commit to their parents),
    then from every reachable state the worker steps end whatever their order,
    and where they end nothing is pending and every request has been answered,
    in the order of the requests for each block.  In particular no pending task
    is ever lost behind a parent that has completed, which [wait_for_idle]
    relies on. *)
Theorem deps_drain s : reached admitted s ->
  Acc (flip work_step) s /\
  forall s', rtc work_step s s' -> (forall s'', ~ work_step s' s'') ->
    pending s' = ∅ /\ pool s' = [] /\ running s' = [] /\ forall h, replies h (results s') = replies h (requests s).
Proof using causal.
  intros I%reached_inv. split; [by eapply work_terminates|]. intros s' Hr Hstuck.
  destruct (work_rtc _ _ I Hr) as [I' Hq].
  assert (pending s' = ∅) as He.
  { destruct (map_choose_or_empty (pending s')) as [(h & g & Hg)|]; [|done]. exfalso.
    destruct (work_progress _ I') as [s'' H]; [|by apply Hstuck in H]. intros He. by rewrite He in Hg. }
  pose proof (di_places _ _ I') as Hp. rewrite He in Hp. apply Permutation_nil_r, app_eq_nil in Hp as [Hrun [Hpool _]%app_eq_nil].
  split_and!; [done|done|by apply fmap_nil_inv in Hrun|]. intros h. rewrite <- Hq. eapply replied_unless_pending; [exact I'|]. by rewrite He.
Qed.
End drain.
End manager.

(** ** A run: a child waits behind its parent and is requested twice *)
Module Waiting.
Definition hash_of (t : Hash * list Hash) : Hash := t.1.
Definition parents_of (t : Hash * list Hash) : list Hash := t.2.
Definition causal (t : Hash * list Hash) : Prop := forall p, p ∈ parents_of t -> (Z.to_nat p < Z.to_nat (hash_of t))%nat.
Abbreviation started s := (reached hash_of parents_of causal s).
Definition parent_task : Hash * list Hash := (1, []).
Definition child_task : Hash * list Hash := (2, [1]).
Definition registered (s : System) (t : Hash * list Hash) (s1 s2 : nat) : System :=
  let '(p, o) := register hash_of (pending s) t s1 s2 in
  mkSystem p (pool s ++ option_list o) (running s) (requests s ++ [(hash_of t, (s1, s2))]) (results s).
Definition three_requests : @System (Hash * list Hash) nat :=
  (registered (registered (registered idle parent_task 10 11) child_task 20 21) child_task 30 31)%nat.
Definition waiting : @System (Hash * list Hash) nat :=
  mkSystem
    (<[1 := mkGroup (QSingle (mkInternal (Some parent_task) 10%nat 11%nat)) [2]]> (pending three_requests))
    [1] [] (requests three_requests) [].
Lemma registered_started s t s1 s2 : causal t -> started s -> started (registered s t s1 s2).
Proof.
  intros Hc Hs. unfold registered. destruct (register _ _ _ _ _) as [p o] eqn:H.
  eapply reached_step; [exact Hs|]. by apply step_register.
Qed.
Lemma waiting_started : started waiting.
Proof.
  apply reached_step with three_requests.
  - unfold three_requests. repeat apply registered_started; [| | |constructor]; intros p Hp;
      cbn in Hp; rewrite ?elem_of_nil, ?list_elem_of_singleton in Hp; try done; subst p; cbn; lia.
  - by apply (step_begin _ _ _ three_requests [1] 2 [] (pending waiting) None).
Qed.
Lemma deps_safe_witness : started waiting /\ ~ step hash_of parents_of causal waiting None.
Proof. split; [exact waiting_started|]. apply (deps_safe hash_of parents_of causal waiting waiting_started). Defined.
Lemma deps_drain_witness : started waiting /\ Acc (flip (work_step hash_of parents_of)) waiting.
Proof.
  split; [exact waiting_started|].
  apply (deps_drain hash_of parents_of causal Z.to_nat (fun t p Ht Hp => Ht p Hp) waiting waiting_started).
Defined.
End Waiting.
