(* ===== verification/Search.v ===== *)
(** * Binary search on slices

    The searches of the standard library the sources use:
    [slice::binary_search_by_key] and [slice::partition_point], probing the
    same elements as the library, since a probe may fail or panic. *)
From S2P Require Import Prelude.

(** [slice::binary_search_by_key]: the key of a probed element is computed by
    [key] and may fail.  The loop halves the range as the standard library does. *)
Fixpoint bsearch_loop {E A} (key : A -> res E Z) (l : list A) (point : Z) (base sz : nat) (fuel : nat) : res E nat :=
  match fuel with
  | O => NoFuel
  | S fuel =>
      if (sz <=? 1)%nat then Ok base else
      let half := (sz / 2)%nat in
      let mid := (base + half)%nat in
      x ← unwrap (l !! mid); k ← key x;
      bsearch_loop key l point (if point <? k then base else mid) (sz - half) fuel
  end.
Definition binary_search_by_key {E A} (key : A -> res E Z) (l : list A) (point : Z) : res E (nat + nat) :=
  match l with
  | [] => Ok (inr 0%nat)
  | _ =>
      base ← bsearch_loop key l point 0 (length l) (length l);
      x ← unwrap (l !! base); k ← key x;
      Ok (if k =? point then inl base else inr (if k <? point then S base else base))
  end.

(** [slice::partition_point]: the index of the first element that fails
    [pred], on a slice partitioned by it. *)
Definition partition_point {E A} (pred : A -> res E bool) (l : list A) : res E nat :=
  r ← binary_search_by_key (fun x => b ← pred x; Ok (if b : bool then 0 else 2)) l 1;
  Ok (match r with inl i => i | inr i => i end).

(** ** Binary search *)
Lemma binary_search_nil {E A} (key : A -> res E Z) l point : l = [] -> binary_search_by_key key l point = Ok (inr 0%nat).
Proof. by intros ->. Qed.
Lemma binary_search_cons {E A} (key : A -> res E Z) l point : length l <> 0%nat ->
  binary_search_by_key key l point =
    (base ← bsearch_loop key l point 0 (length l) (length l);
     x ← unwrap (l !! base); k ← key x;
     Ok (if k =? point then inl base else inr (if k <? point then S base else base))).
Proof. by destruct l. Qed.
Section bsearch.
Context {E A : Type} (key : A -> res E Z) (l : list A) (k : nat -> Z) (point : Z).
Context (Hkey : forall i (x : A), l !! i = Some x -> key x = Ok (k i)).
Context (Hmono : forall i j, (i < j < length l)%nat -> k i <= k j).

(** [base] is the last probe not above the point, or 0. *)
Definition at_base (base : nat) : Prop :=
  (base < length l)%nat /\ (base = 0%nat \/ k base <= point) /\ (forall j, (base < j < length l)%nat -> point < k j).

Lemma bsearch_loop_ok fuel : forall base sz, (0 < sz <= fuel)%nat -> (base + sz <= length l)%nat ->
  (base = 0%nat \/ k base <= point) -> (forall j, (base + sz <= j < length l)%nat -> point < k j) ->
  exists b : nat, bsearch_loop key l point base sz fuel = Ok b /\ at_base b.
Proof.
  induction fuel as [|fuel IH]; intros base sz Hsz Hb Hlo Hhi; [lia|]. cbn [bsearch_loop].
  destruct (sz <=? 1)%nat eqn:H1.
  { apply Nat.leb_le in H1. exists base. split; [done|]. split; [lia|]. split; [done|]. intros j Hj. apply Hhi. lia. }
  apply Nat.leb_gt in H1. cbv zeta.
  assert (0 < sz / 2 < sz)%nat as Hhalf by (split; [apply Nat.div_str_pos; lia|apply Nat.div_lt; lia]).
  pose proof (Nat.Div0.mul_div_le sz 2) as H2.
  destruct (lookup_lt_is_Some_2 l (base + sz / 2)) as [x Hx]; [lia|].
  rewrite Hx. cbn [unwrap mbind res_bind]. rewrite (Hkey _ _ Hx). cbn [mbind res_bind].
  destruct (point <? k (base + sz / 2)%nat) eqn:Hc.
  - apply IH; [lia|lia|done|]. intros j Hj.
    destruct (decide (j = base + sz / 2)%nat) as [->|Hne]; [lia|].
    destruct (decide (base + sz <= j)%nat); [apply Hhi; lia|].
    pose proof (Hmono (base + sz / 2) j). lia.
  - apply IH; [lia|lia|right; lia|]. intros j Hj. apply Hhi. lia.
Qed.

Lemma binary_search_ok : exists out, binary_search_by_key key l point = Ok out /\
  match out with
  | inl i => (i < length l)%nat /\ k i = point
  | inr i => (i <= length l)%nat /\ (forall j, (j < i)%nat -> k j < point) /\ (forall j, (i <= j < length l)%nat -> point < k j)
  end.
Proof.
  destruct (decide (length l = 0)%nat) as [H0|H0].
  { exists (inr 0%nat). rewrite binary_search_nil by (by apply length_zero_iff_nil). split; [done|].
    split; [lia|]. split; intros; lia. }
  rewrite binary_search_cons by done.
  destruct (bsearch_loop_ok (length l) 0 (length l)) as (b & -> & Hb & Hlo & Hhi); [lia|lia|by left|intros; lia|].
  cbn [mbind res_bind]. destruct (lookup_lt_is_Some_2 l b Hb) as [x Hx]. rewrite Hx. cbn [unwrap mbind res_bind].
  rewrite (Hkey _ _ Hx). cbn [mbind res_bind]. eexists. split; [done|].
  destruct (k b =? point) eqn:He; [lia|]. destruct (k b <? point) eqn:Hlt.
  - split; [lia|]. split; [|intros j Hj; apply Hhi; lia]. intros j Hj.
    destruct (decide (j = b)) as [->|]; [lia|]. pose proof (Hmono j b). lia.
  - destruct Hlo as [->|]; [|lia]. split; [lia|]. split; [intros; lia|]. intros j Hj.
    destruct (decide (j = 0%nat)) as [->|]; [lia|]. apply Hhi. lia.
Qed.
End bsearch.

(** On a partitioned slice the result separates the two parts. *)
Lemma partition_point_ok {E A} (pred : A -> res E bool) (l : list A) (b : nat -> bool) :
  (forall i x, l !! i = Some x -> pred x = Ok (b i)) ->
  (forall i j, (i < j < length l)%nat -> b j = true -> b i = true) ->
  exists n, partition_point pred l = Ok n /\ (n <= length l)%nat /\
    (forall j, (j < n)%nat -> b j = true) /\ (forall j, (n <= j < length l)%nat -> b j = false).
Proof.
  intros Hp Hm. unfold partition_point.
  destruct (binary_search_ok (E:=E) (fun x => b ← pred x; Ok (if b : bool then 0 else 2)) l
    (fun i => if b i then 0 else 2) 1) as (out & -> & Hout).
  - intros i x Hx. by rewrite (Hp i x Hx).
  - intros i j Hij. pose proof (Hm i j Hij). destruct (b i), (b j); lia || (specialize (H eq_refl); done).
  - cbn [mbind res_bind]. destruct out as [i|i]; [destruct Hout as [_ H]; by destruct (b i)|].
    destruct Hout as (H1 & H2 & H3). exists i. split; [done|]. split; [done|]. split; intros j Hj.
    + specialize (H2 j Hj). by destruct (b j).
    + specialize (H3 j Hj). by destruct (b j).
Qed.
