(* ===== verification/Cache.v ===== *)
(** * The bounded cache of the database layer

    [database/src/cache.rs]: a map of bounded size, by count or by tracked
    size, that evicts random entries; and the size estimates of
    [utils/src/mem_size.rs] it tracks.

    An [IndexMap] is the list of its entries: inserting a new key appends, and
    removal swaps the last entry into the gap.  The index that
    [rng().random_range(0..len)] returns is an argument, any function of the
    entries that returns an index in range. *)
From S2P Require Import Prelude.

(** ** Ordered maps *)
Section index_map.
Context {K V : Type} `{!EqDecision K}.
Abbreviation IndexMap := (list (K * V)).

Fixpoint im_get (m : IndexMap) (k : K) : option V :=
  match m with [] => None | (k', v) :: m => if decide (k' = k) then Some v else im_get m k end.
Fixpoint im_position (m : IndexMap) (k : K) : option nat :=
  match m with [] => None | (k', _) :: m => if decide (k' = k) then Some O else S <$> im_position m k end.
(** [insert]: the entry, in place when the key is present, and the value it replaces. *)
Definition im_insert (m : IndexMap) (k : K) (v : V) : IndexMap * option V :=
  match im_position m k with
  | Some i => (<[i := (k, v)]> m, im_get m k)
  | None => (m ++ [(k, v)], None)
  end.
Definition im_swap_remove_index (m : IndexMap) (i : nat) : IndexMap * option (K * V) :=
  match m !! i with Some e => (swap_remove m i, Some e) | None => (m, None) end.
Definition im_swap_remove (m : IndexMap) (k : K) : IndexMap * option V :=
  match im_position m k with
  | Some i => let '(m, e) := im_swap_remove_index m i in (m, snd <$> e)
  | None => (m, None)
  end.
End index_map.

Class EvictChoice (K V : Type) := {
  evict_index : list (K * V) -> nat;
  evict_index_in m : m <> [] -> (evict_index m < length m)%nat;
}.

(** ** Size estimates *)
Inductive MemMode := Bytes | Units | Undefined.
(** A method that the type does not implement panics. *)
Class MemSizeEstimator (V : Type) := {
  estimate_mem_bytes : V -> option usize;
  estimate_mem_units : V -> option usize;
}.
Definition estimate_size {E V} `{MemSizeEstimator V} (mode : MemMode) (v : V) : res E usize :=
  match mode with
  | Bytes => unwrap (estimate_mem_bytes v)
  | Units => unwrap (estimate_mem_units v)
  | Undefined => Panic
  end.

(** ** Policies *)
Inductive CachePolicy :=
| Empty
| Count (max_size : usize)
| Tracked (max_size min_items : usize) (mem_mode : MemMode).
Record CachePolicyInner := mkPolicy { tracked : bool; max_size : usize; min_items : usize; mem_mode : MemMode }.
Definition policy_from (p : CachePolicy) : CachePolicyInner :=
  match p with
  | Empty => mkPolicy false 0 0 Undefined
  | Count max_size => mkPolicy false max_size 0 Undefined
  | Tracked max_size min_items mem_mode => mkPolicy true max_size min_items mem_mode
  end.

(** ** The cache *)
Record Inner (K V : Type) := mkInner { im : list (K * V); tracked_size : usize }.
Arguments mkInner {K V} im tracked_size.
Arguments im {K V} _.
Arguments tracked_size {K V} _.
Record DbCache (K V : Type) := mkDbCache { inner : Inner K V; policy : CachePolicyInner }.
Arguments mkDbCache {K V} inner policy.
Arguments inner {K V} _.
Arguments policy {K V} _.

Section cache.
Context {E K V : Type} `{!EqDecision K} `{EC : !EvictChoice K V} `{MS : !MemSizeEstimator V}.
Implicit Types (s : Inner K V) (c : DbCache K V) (p : CachePolicyInner).

(** One more than the number of entries is enough fuel. *)
Fixpoint tracked_evict (fuel : nat) p s : res E (Inner K V) :=
  match fuel with
  | O => NoFuel
  | S fuel =>
      if (max_size p <? tracked_size s) && (min_items p <? zlen (im s)) then
        match im_swap_remove_index (im s) (evict_index (im s)) with
        | (m, Some (_, v)) =>
            n ← estimate_size (mem_mode p) v;
            size ← chk 64 (tracked_size s - n);
            tracked_evict fuel p (mkInner m size)
        | (m, None) => tracked_evict fuel p (mkInner m (tracked_size s))
        end
      else Ok s
  end.
Definition evict p s : res E (Inner K V) := tracked_evict (S (length (im s))) p s.
Definition inner_insert p s (key : K) (data : V) : res E (Inner K V) :=
  if tracked p then
    new_data_size ← estimate_size (mem_mode p) data;
    size ← chk 64 (tracked_size s + new_data_size);
    let '(m, removed) := im_insert (im s) key data in
    size ← match removed with
           | Some removed => n ← estimate_size (mem_mode p) removed; chk 64 (size - n)
           | None => Ok size
           end;
    evict p (mkInner m size)
  else
    let m := if zlen (im s) =? max_size p then (im_swap_remove_index (im s) (evict_index (im s))).1 else im s in
    Ok (mkInner (im_insert m key data).1 (tracked_size s)).
Definition inner_update_if_entry_exists p s (key : K) (op : V -> V) : res E (Inner K V) :=
  match im_position (im s) key, im_get (im s) key with
  | Some i, Some data =>
      if tracked p then
        n ← estimate_size (mem_mode p) data;
        size ← chk 64 (tracked_size s - n);
        n ← estimate_size (mem_mode p) (op data);
        size ← chk 64 (size + n);
        evict p (mkInner (<[i := (key, op data)]> (im s)) size)
      else Ok (mkInner (<[i := (key, op data)]> (im s)) (tracked_size s))
  | _, _ => Ok s
  end.
Definition inner_remove p s (key : K) : res E (Inner K V * option V) :=
  match im_swap_remove (im s) key with
  | (m, Some data) =>
      size ← if tracked p then n ← estimate_size (mem_mode p) data; chk 64 (tracked_size s - n) else Ok (tracked_size s);
      Ok (mkInner m size, Some data)
  | (m, None) => Ok (mkInner m (tracked_size s), None)
  end.

Definition db_cache_new (p : CachePolicy) : DbCache K V := mkDbCache (mkInner [] 0) (policy_from p).
Definition db_cache_get c (key : K) : option V := im_get (im (inner c)) key.
Definition db_cache_contains_key c (key : K) : bool := bool_decide (is_Some (im_get (im (inner c)) key)).
(** [if self.policy.max_size == 0 { return; }] *)
Definition unless_empty c (f : Inner K V -> res E (Inner K V)) : res E (DbCache K V) :=
  if max_size (policy c) =? 0 then Ok c else s ← f (inner c); Ok (mkDbCache s (policy c)).
Definition db_cache_insert c (key : K) (data : V) : res E (DbCache K V) :=
  unless_empty c (fun s => inner_insert (policy c) s key data).
Definition db_cache_insert_many c (iter : list (K * V)) : res E (DbCache K V) :=
  unless_empty c (fun s => res_foldl (fun s kv => inner_insert (policy c) s kv.1 kv.2) s iter).
Definition db_cache_update_if_entry_exists c (key : K) (op : V -> V) : res E (DbCache K V) :=
  unless_empty c (fun s => inner_update_if_entry_exists (policy c) s key op).
Definition db_cache_remove c (key : K) : res E (DbCache K V * option V) :=
  if max_size (policy c) =? 0 then Ok (c, None) else
  '(s, o) ← inner_remove (policy c) (inner c) key; Ok (mkDbCache s (policy c), o).
Definition db_cache_remove_many c (keys : list K) : res E (DbCache K V) :=
  unless_empty c (fun s => res_foldl (fun s k => r ← inner_remove (policy c) s k; Ok r.1) s keys).
Definition db_cache_remove_all c : res E (DbCache K V) :=
  unless_empty c (fun s => Ok (mkInner [] (if tracked (policy c) then 0 else tracked_size s))).
End cache.

(** ** Entries *)
Section entries.
Context {K V : Type} `{!EqDecision K}.
Implicit Types m : list (K * V).

Lemma im_get_spec m k v : NoDup m.*1 -> im_get m k = Some v <-> (k, v) ∈ m.
Proof.
  induction m as [|[k' v'] m IH]; cbn [im_get fmap list_fmap fst].
  { intros _. split; [done|]. by intros ?%elem_of_nil. }
  intros [Hk Hn]%NoDup_cons. rewrite elem_of_cons, <- (IH Hn). case_decide as Hd.
  - subst. split; [intros [= ->]; by left|]. intros [[= ->]|Hg]; [done|]. apply IH in Hg; [|done].
    destruct Hk. by apply (list_elem_of_fmap_2' fst m (k, v) k).
  - split; [by right|]. by intros [[= -> ->]|Hg].
Qed.
Lemma im_get_none m k : im_get m k = None <-> k ∉ m.*1.
Proof.
  induction m as [|[k' v'] m IH]; cbn [im_get fmap list_fmap fst].
  { split; [intros _ ?%elem_of_nil|]; done. }
  rewrite elem_of_cons. case_decide as Hd; [subst; split; [done|tauto]|]. rewrite IH. naive_solver.
Qed.
Lemma im_position_spec m k i : im_position m k = Some i -> exists v, m !! i = Some (k, v) /\ im_get m k = Some v.
Proof.
  revert i. induction m as [|[k' v'] m IH]; intros i; cbn [im_position im_get]; [done|]. case_decide as Hd.
  - intros [= <-]. subst. by exists v'.
  - intros (j & Hj & ->)%fmap_Some. destruct (IH j Hj) as (v & Hv & Hg). by exists v.
Qed.
Lemma im_position_none m k : im_position m k = None <-> im_get m k = None.
Proof.
  induction m as [|[k' v'] m IH]; cbn [im_position im_get]; [done|]. case_decide; [done|]. rewrite <- IH. apply fmap_None.
Qed.

(** The entries of [m] are those of [rest] and the one for [k], if any. *)
Definition splits m (k : K) (o : option V) (rest : list (K * V)) : Prop :=
  m ≡ₚ match o with Some v => (k, v) :: rest | None => rest end /\ k ∉ rest.*1.
Lemma splits_nodup m k o rest : splits m k o rest -> NoDup m.*1 <-> NoDup rest.*1.
Proof. intros [Hp Hk]. rewrite Hp. destruct o; [|done]. cbn. rewrite NoDup_cons. tauto. Qed.
Lemma splits_get m k o rest x : NoDup m.*1 -> splits m k o rest -> im_get m x = if decide (x = k) then o else im_get rest x.
Proof.
  intros Hn Hs. pose proof (proj1 (splits_nodup _ _ _ _ Hs) Hn) as Hr. destruct Hs as [Hp Hk]. apply option_eq. intros v.
  rewrite (im_get_spec m x v Hn), Hp. case_decide as Hd.
  - subst. destruct o as [v'|].
    + rewrite elem_of_cons. split; [intros [[= ->]|Hv]; [done|]|intros [= ->]; by left]. destruct Hk. by apply (list_elem_of_fmap_2' fst rest (k, v) k).
    + split; [|done]. intros Hv. destruct Hk. by apply (list_elem_of_fmap_2' fst rest (k, v) k).
  - rewrite (im_get_spec rest x v Hr). destruct o as [v'|]; [|done]. rewrite elem_of_cons. split; [by intros [[= -> ->]|?]|by right].
Qed.
Lemma splits_insert m i k v v' : NoDup m.*1 -> m !! i = Some (k, v) ->
  exists rest, splits m k (Some v) rest /\ splits (<[i := (k, v')]> m) k (Some v') rest.
Proof.
  intros Hn Hi. exists (delete i m). pose proof (delete_Permutation m i (k, v) Hi) as Hp.
  assert (k ∉ (delete i m).*1) as Hk by (rewrite Hp in Hn; by apply NoDup_cons in Hn as [Hk _]).
  split; [done|]. split; [|done]. rewrite <- (delete_insert_same m i (k, v')). apply delete_Permutation.
  apply list_lookup_insert_eq. by eapply lookup_lt_Some.
Qed.
Lemma im_insert_spec m k v : NoDup m.*1 ->
  exists rest, (im_insert m k v).2 = im_get m k /\ splits m k (im_get m k) rest /\ splits (im_insert m k v).1 k (Some v) rest.
Proof.
  intros Hn. unfold im_insert. destruct (im_position m k) as [i|] eqn:Hi.
  - apply im_position_spec in Hi as (v0 & Hi & Hg). destruct (splits_insert m i k v0 v Hn Hi) as (rest & H1 & H2).
    exists rest. by rewrite Hg.
  - apply im_position_none in Hi as Hg. exists m. rewrite Hg. apply im_get_none in Hg. split; [done|]. split; [done|].
    split; [|done]. cbn. by rewrite Permutation_app_comm.
Qed.
Lemma im_swap_remove_spec m k : NoDup m.*1 ->
  exists rest, (im_swap_remove m k).1 ≡ₚ rest /\ (im_swap_remove m k).2 = im_get m k /\ splits m k (im_get m k) rest.
Proof.
  intros Hn. unfold im_swap_remove, im_swap_remove_index. destruct (im_position m k) as [i|] eqn:Hi.
  - apply im_position_spec in Hi as (v0 & Hi & Hg). rewrite Hi, Hg. exists (swap_remove m i). split; [done|]. split; [done|].
    pose proof (swap_remove_perm m i _ Hi) as Hp. rewrite <- Hp in Hn. apply NoDup_cons in Hn as [Hk _]. by split.
  - apply im_position_none in Hi as Hg. exists m. rewrite Hg. split; [done|]. split; [done|]. split; [done|]. by apply im_get_none.
Qed.
End entries.

(** ** The cache keeps within its policy *)
Section bounded.
Context {E K V : Type} `{!EqDecision K} `{EC : !EvictChoice K V} `{MS : !MemSizeEstimator V}.
Context (G : V -> Prop) (p : CachePolicyInner) (B : Z).
Implicit Types s : Inner K V.

Definition size_of (v : V) : Z :=
  match mem_mode p with
  | Bytes => from_option id 0 (estimate_mem_bytes v)
  | Units => from_option id 0 (estimate_mem_units v)
  | Undefined => 0
  end.
(** A tracked cache knows the size of every value of [G], at most [B], and the
    largest total that its limits admit fits a [usize]. *)
Record policy_fits : Prop := {
  pf_bounds : 0 <= max_size p /\ 0 <= min_items p;
  pf_size : tracked p = true -> forall v, G v -> estimate_size (E:=E) (mem_mode p) v = Ok (size_of v) /\ 0 <= size_of v <= B;
  pf_fit : max_size p + B < 2 ^ 64 /\ (min_items p + 1) * B < 2 ^ 64;
}.
Definition within s : Prop :=
  if tracked p then tracked_size s <= max_size p \/ zlen (im s) <= min_items p else zlen (im s) <= max_size p.
Record counted s : Prop := {
  co_nodup : NoDup (im s).*1;
  co_good : Forall (fun kv => G kv.2) (im s);
  co_size : tracked p = true -> tracked_size s = sum_of (fun kv => size_of kv.2) (im s);
}.
Record cache_ok s : Prop := { ck_counted : counted s; ck_within : within s }.

Context (Hp : policy_fits).
Lemma sizes_bounded (m : list (K * V)) : tracked p = true -> Forall (fun kv => G kv.2) m -> Forall (fun kv => 0 <= size_of kv.2 <= B) m.
Proof using Hp. intros Ht Hg. eapply Forall_impl; [exact Hg|]. intros kv Hkv. by apply (pf_size Hp Ht). Qed.
Lemma tracked_nonneg (m : list (K * V)) : tracked p = true -> Forall (fun kv => G kv.2) m -> 0 <= sum_of (fun kv => size_of kv.2) m.
Proof using Hp. intros Ht Hg. apply sum_of_nonneg. eapply Forall_impl; [by apply sizes_bounded|]. cbn. lia. Qed.
Lemma sizes_bound s : tracked p = true -> cache_ok s -> 0 <= tracked_size s /\ tracked_size s + B < 2 ^ 64.
Proof using Hp.
  intros Ht [[_ Hg Hc] Hw]. rewrite (Hc Ht). pose proof (tracked_nonneg (im s) Ht Hg). split; [done|].
  unfold within in Hw. rewrite Ht, (Hc Ht) in Hw. destruct (pf_fit Hp) as [H1 H2]. pose proof (pf_bounds Hp). destruct Hw as [Hw|Hw]; [lia|].
  assert (sum_of (fun kv => size_of kv.2) (im s) <= B * zlen (im s)).
  { apply sum_of_bound. eapply Forall_impl; [by apply sizes_bounded|]. cbn. lia. }
  pose proof (zlen_nonneg (im s)). destruct (im s) as [|[k v] m] eqn:Em; [cbn in *; lia|].
  apply Forall_cons in Hg as [Hv _]. destruct (pf_size Hp Ht v Hv) as [_ Hv']. nia.
Qed.

(** Eviction only removes entries, until the policy holds. *)
Lemma tracked_evict_ok : forall fuel s, tracked p = true -> counted s -> tracked_size s < 2 ^ 64 -> (length (im s) < fuel)%nat ->
  exists s' gone, tracked_evict (E:=E) fuel p s = Ok s' /\ cache_ok s' /\ im s' ++ gone ≡ₚ im s.
Proof using Hp.
  induction fuel as [|fuel IH]; intros s Ht Hc Hs Hf; [lia|]. cbn [tracked_evict].
  destruct ((max_size p <? tracked_size s) && (min_items p <? zlen (im s))) eqn:Hb.
  - assert (im s <> []) as Hne by (intros E0; rewrite E0 in Hb; rewrite zlen_nil in Hb; pose proof (pf_bounds Hp); lia).
    pose proof (evict_index_in (im s) Hne) as Hi. apply lookup_lt_is_Some in Hi as [[k v] Hi].
    unfold im_swap_remove_index. rewrite Hi. pose proof (swap_remove_perm _ _ _ Hi) as Hperm.
    destruct Hc as [Hn Hg Hc]. specialize (Hc Ht). rewrite <- Hperm in Hg. apply Forall_cons in Hg as [Hv Hg]. cbn [snd] in Hv.
    destruct (pf_size Hp Ht v Hv) as [-> Hv']. cbn [mbind res_bind]. pose proof (sum_of_perm (fun kv => size_of kv.2) _ _ Hperm) as Hsum. rewrite sum_of_cons in Hsum. cbn [snd] in Hsum.
    pose proof (tracked_nonneg _ Ht Hg).
    rewrite chk_ok by (unfold inW; lia). cbn [mbind res_bind].
    destruct (IH (mkInner (swap_remove (im s) (evict_index (im s))) (tracked_size s - size_of v))) as (s' & gone & Hs' & Hok & Hgone).
    + done.
    + split; cbn [im tracked_size]; [|done|intros _; lia]. rewrite <- Hperm in Hn. by apply NoDup_cons in Hn as [_ Hn].
    + cbn. lia.
    + cbn. apply Permutation_length in Hperm. cbn in Hperm. lia.
    + exists s', ((k, v) :: gone). split; [done|]. split; [done|]. cbn in Hgone. rewrite <- Hperm, <- Hgone. by rewrite Permutation_middle.
  - exists s, []. rewrite app_nil_r. split; [done|]. split; [|done]. split; [done|]. unfold within. rewrite Ht. lia.
Qed.
Lemma evict_ok s : tracked p = true -> counted s -> tracked_size s < 2 ^ 64 ->
  exists s' gone, evict (E:=E) p s = Ok s' /\ cache_ok s' /\ im s' ++ gone ≡ₚ im s.
Proof using Hp. intros Ht Hc Hs. apply tracked_evict_ok; [done..|lia]. Qed.

(** What a cache holds after a change that is followed by an eviction. *)
Definition holds_only s (f : K -> option V) : Prop := forall k v, im_get (im s) k = Some v -> f k = Some v.
Definition upd (f : K -> option V) (k : K) (o : option V) : K -> option V := fun x => if decide (x = k) then o else f x.
Lemma splits_good (m : list (K * V)) k o rest : splits m k o rest ->
  Forall (fun kv => G kv.2) m <-> (forall v, o = Some v -> G v) /\ Forall (fun kv => G kv.2) rest.
Proof.
  intros [Hm _]. rewrite Hm. destruct o as [v|]; [rewrite Forall_cons|]; cbn [snd]; [|naive_solver].
  split; [intros [H1 H2]; split; [by intros ? [= <-]|done]|intros [H1 H2]; split; [by apply H1|done]].
Qed.
(** The tracked size after the value of [k] is replaced. *)
Lemma replace_size s m k o v rest : G v -> tracked p = true -> cache_ok s -> splits (im s) k o rest -> splits m k (Some v) rest ->
  exists size, match o with
    | Some removed => n ← estimate_size (mem_mode p) removed; chk 64 (tracked_size s + size_of v - n)
    | None => Ok (tracked_size s + size_of v)
    end = Ok (E:=E) size /\ counted (mkInner m size) /\ size < 2 ^ 64.
Proof using Hp.
  intros Gv Ht Hok Hs1 Hs2. destruct (sizes_bound s Ht Hok) as [H0 H1]. pose proof Hok as [[Hn Hg Hc] _]. specialize (Hc Ht).
  apply (splits_good _ _ _ _ Hs1) in Hg as [Go Hg]. assert (Forall (fun kv => G kv.2) m) as Hgm by (apply (splits_good _ _ _ _ Hs2); split; [by intros ? [= <-]|done]).
  destruct (pf_size Hp Ht v Gv) as [_ Hv]. pose proof (proj2 (splits_nodup _ _ _ _ Hs2) (proj1 (splits_nodup _ _ _ _ Hs1) Hn)) as Hn'.
  pose proof (sum_of_perm (fun kv => size_of kv.2) _ _ (proj1 Hs1)) as E1. pose proof (sum_of_perm (fun kv => size_of kv.2) _ _ (proj1 Hs2)) as E2.
  pose proof (tracked_nonneg rest Ht Hg) as Hr. rewrite sum_of_cons in E2. cbn [snd] in E2. destruct o as [v0|].
  - destruct (pf_size Hp Ht v0 (Go v0 eq_refl)) as [-> Hv0]. rewrite sum_of_cons in E1. cbn [snd] in E1. cbn [mbind res_bind].
    rewrite chk_ok by (unfold inW; lia). eexists. split; [done|]. split; [split; cbn [im tracked_size]; [done..|intros _; lia]|lia].
  - eexists. split; [done|]. split; [split; cbn [im tracked_size]; [done..|intros _; lia]|lia].
Qed.
(** A full untracked cache drops one entry. *)
Lemma make_room s : tracked p = false -> max_size p <> 0 -> cache_ok s ->
  exists gone, let m := if zlen (im s) =? max_size p then (im_swap_remove_index (im s) (evict_index (im s))).1 else im s in
    m ++ gone ≡ₚ im s /\ zlen m < max_size p.
Proof using Hp.
  intros Ht Hz [_ Hw]. unfold within in Hw. rewrite Ht in Hw. pose proof (pf_bounds Hp).
  destruct (Z.eqb_spec (zlen (im s)) (max_size p)) as [El|Hl]; [|exists []; cbv zeta; rewrite app_nil_r; split; [done|lia]].
  assert (im s <> []) as Hne by (intros E0; rewrite E0 in El; rewrite zlen_nil in El; lia).
  pose proof (evict_index_in (im s) Hne) as Hi. apply lookup_lt_is_Some in Hi as [e Hi]. unfold im_swap_remove_index. rewrite Hi. cbn [fst].
  pose proof (swap_remove_perm _ _ _ Hi) as Hperm. exists [e]. split; [by rewrite Permutation_app_comm|]. apply Permutation_length in Hperm. cbn in Hperm. unfold zlen in *. lia.
Qed.
Lemma subset_get (m m' gone : list (K * V)) k v : NoDup m'.*1 -> m ++ gone ≡ₚ m' -> im_get m k = Some v -> im_get m' k = Some v.
Proof.
  intros Hn Hg Hk. assert (NoDup m.*1) as Hm by (rewrite <- Hg, fmap_app in Hn; by apply NoDup_app in Hn as [Hn _]).
  apply im_get_spec in Hk; [|done]. apply im_get_spec; [done|]. rewrite <- Hg. apply elem_of_app. by left.
Qed.
Lemma splits_upd (m m' : list (K * V)) k o v rest x y : NoDup m.*1 -> splits m k o rest -> splits m' k (Some v) rest ->
  im_get m' x = Some y -> upd (im_get m) k (Some v) x = Some y.
Proof.
  intros Hn Hs1 Hs2 Hx. pose proof (proj2 (splits_nodup _ _ _ _ Hs2) (proj1 (splits_nodup _ _ _ _ Hs1) Hn)) as Hn'.
  rewrite (splits_get _ _ _ _ x Hn' Hs2) in Hx. unfold upd. case_decide as Hd; [done|].
  rewrite (splits_get _ _ _ _ x Hn Hs1), decide_False by done. done.
Qed.
Lemma inner_insert_ok s k v : G v -> max_size p <> 0 -> cache_ok s ->
  exists s', inner_insert (E:=E) p s k v = Ok s' /\ cache_ok s' /\ holds_only s' (upd (im_get (im s)) k (Some v)) /\
    (tracked p = false -> im_get (im s') k = Some v).
Proof using Hp.
  intros Gv Hz Hok. pose proof (co_nodup _ (ck_counted _ Hok)) as Hn. unfold inner_insert. destruct (tracked p) eqn:Ht.
  - destruct (pf_size Hp Ht v Gv) as [-> Hv]. destruct (sizes_bound s Ht Hok) as [H0 H1].
    cbn [mbind res_bind]. rewrite chk_ok by (unfold inW; lia). cbn [mbind res_bind].
    destruct (im_insert_spec (im s) k v Hn) as (rest & Ho & Hs1 & Hs2). destruct (im_insert (im s) k v) as [m o]. cbn [fst snd] in *. subst o.
    destruct (replace_size s m k _ v rest Gv Ht Hok Hs1 Hs2) as (size & -> & Hc & Hlt). cbn [mbind res_bind].
    destruct (evict_ok (mkInner m size)) as (s' & gone & -> & Hok' & Hg); [done..|].
    exists s'. split; [done|]. split; [done|]. split; [|done]. intros x y Hx.
    apply (subset_get _ _ gone x y (co_nodup _ Hc) Hg) in Hx. by eapply splits_upd.
  - destruct (make_room s Ht Hz Hok) as [gone Hroom]. cbv zeta in Hroom. destruct Hroom as [Hm0 Hl0].
    set (m0 := if zlen (im s) =? max_size p then _ else _) in *.
    assert (NoDup m0.*1) as Hn0 by (rewrite <- Hm0, fmap_app in Hn; by apply NoDup_app in Hn as [Hn _]).
    destruct (im_insert_spec m0 k v Hn0) as (rest & _ & Hs1 & Hs2).
    pose proof (proj2 (splits_nodup _ _ _ _ Hs2) (proj1 (splits_nodup _ _ _ _ Hs1) Hn0)) as Hn'.
    eexists. split; [done|]. split; [|split].
    + assert (Forall (fun kv => G kv.2) m0) as Hg0 by (pose proof (co_good _ (ck_counted _ Hok)) as Hg; rewrite <- Hm0 in Hg; by apply Forall_app in Hg as [Hg _]).
      split; [split; cbn; [done| |congruence]|].
      { apply (splits_good _ _ _ _ Hs2). split; [by intros ? [= <-]|]. by apply (splits_good _ _ _ _ Hs1). }
      unfold within. rewrite Ht. cbn [im].
      pose proof (Permutation_length (proj1 Hs2)) as L2. pose proof (Permutation_length (proj1 Hs1)) as L1.
      unfold zlen in *. cbn in L2. destruct (im_get m0 k); cbn in L1; lia.
    + intros x y Hx. pose proof (splits_upd _ _ _ _ _ _ x y Hn0 Hs1 Hs2 Hx) as Hu. unfold upd in *. case_decide; [done|].
      by apply (subset_get m0 _ gone).
    + intros _. cbn [im]. rewrite (splits_get _ _ _ _ k Hn' Hs2), decide_True; done.
Qed.
Lemma inner_update_ok s k op : (forall v, G v -> G (op v)) -> cache_ok s ->
  exists s', inner_update_if_entry_exists (E:=E) p s k op = Ok s' /\ cache_ok s' /\
    holds_only s' (upd (im_get (im s)) k (op <$> im_get (im s) k)).
Proof using Hp.
  intros Gop Hok. pose proof (co_nodup _ (ck_counted _ Hok)) as Hn. unfold inner_update_if_entry_exists.
  destruct (im_position (im s) k) as [i|] eqn:Hi.
  - apply im_position_spec in Hi as (v & Hi & ->). destruct (splits_insert (im s) i k v (op v) Hn Hi) as (rest & Hs1 & Hs2).
    set (m := <[i := (k, op v)]> (im s)) in *. pose proof (co_good _ (ck_counted _ Hok)) as Hg.
    apply (splits_good _ _ _ _ Hs1) in Hg as [Gv Hg]. specialize (Gv v eq_refl). pose proof (Gop v Gv) as Gov. cbn [fmap option_fmap option_map]. destruct (tracked p) eqn:Ht.
    + destruct (replace_size s m k (Some v) (op v) rest Gov Ht Hok Hs1 Hs2) as (size & Hsz & Hc & Hlt).
      destruct (pf_size Hp Ht v Gv) as [Ev Hv]. destruct (pf_size Hp Ht (op v) Gov) as [Eo Ho]. rewrite Ev, Eo in *. cbn [mbind res_bind] in *.
      pose proof (sum_of_perm (fun kv => size_of kv.2) _ _ (proj1 Hs1)) as E1. rewrite sum_of_cons in E1. cbn [snd] in E1.
      pose proof (tracked_nonneg rest Ht Hg) as Hr. pose proof (co_size _ (ck_counted _ Hok) Ht) as Es.
      destruct (sizes_bound s Ht Hok) as [H0 H1]. apply chk_inv in Hsz as [-> Hsz].
      rewrite chk_ok by (unfold inW; lia). cbn [mbind res_bind]. rewrite chk_ok by (unfold inW in *; lia). cbn [mbind res_bind].
      replace (tracked_size s - size_of v + size_of (op v)) with (tracked_size s + size_of (op v) - size_of v) by lia.
      destruct (evict_ok (mkInner m (tracked_size s + size_of (op v) - size_of v))) as (s' & gone & -> & Hok' & Hgone); [done..|].
      exists s'. split; [done|]. split; [done|]. intros x y Hx. apply (subset_get _ _ gone x y (co_nodup _ Hc) Hgone) in Hx. by eapply splits_upd.
    + eexists. split; [done|]. split.
      * split; [split; cbn [im]; [| |congruence]|].
        -- by apply (splits_nodup _ _ _ _ Hs2), (splits_nodup _ _ _ _ Hs1).
        -- apply (splits_good _ _ _ _ Hs2). split; [by intros ? [= <-]|done].
        -- pose proof (ck_within _ Hok) as Hw. unfold within in *. rewrite Ht in *. cbn [im]. unfold m, zlen in *. by rewrite length_insert.
      * intros x y Hx. by eapply splits_upd.
  - apply im_position_none in Hi as Hg. exists s. split; [by destruct (im_get (im s) k)|]. split; [done|]. rewrite Hg. intros x y Hx.
    unfold upd. case_decide; [congruence|done].
Qed.
Lemma inner_remove_ok s k : cache_ok s ->
  exists s', inner_remove (E:=E) p s k = Ok (s', im_get (im s) k) /\ cache_ok s' /\ forall x, im_get (im s') x = upd (im_get (im s)) k None x.
Proof using Hp.
  intros Hok. pose proof (co_nodup _ (ck_counted _ Hok)) as Hn. unfold inner_remove.
  destruct (im_swap_remove_spec (im s) k Hn) as (rest & Hr & Ho & Hs). destruct (im_swap_remove (im s) k) as [m o]. cbn [fst snd] in *. subst o.
  assert (splits m k None rest) as Hm by (split; [done|apply Hs]).
  assert (NoDup m.*1) as Hn' by (by apply (splits_nodup _ _ _ _ Hm), (splits_nodup _ _ _ _ Hs)).
  assert (forall x, im_get m x = upd (im_get (im s)) k None x) as Hg.
  { intros x. rewrite (splits_get _ _ _ _ x Hn' Hm). unfold upd. case_decide; [done|]. rewrite (splits_get _ _ _ _ x Hn Hs), decide_False by done. done. }
  pose proof (sum_of_perm (fun kv => size_of kv.2) _ _ (proj1 Hs)) as E1. pose proof (sum_of_perm (fun kv => size_of kv.2) _ _ Hr) as E2.
  pose proof (Permutation_length (proj1 Hs)) as L1. pose proof (Permutation_length Hr) as L2. destruct Hok as [[_ Hgood Hc] Hw]. unfold within in Hw.
  pose proof (proj1 (splits_good _ _ _ _ Hs) Hgood) as [Go Gr].
  assert (exists size, (if tracked p then match im_get (im s) k with Some v => tracked_size s - size_of v | None => tracked_size s end else tracked_size s) = size /\
     cache_ok (mkInner m size)) as (size & Es & Hok').
  { eexists. split; [done|]. split; [split; cbn [im tracked_size]; [done|by rewrite Hr|]|]; unfold within; cbn [im tracked_size]; destruct (tracked p) eqn:Ht; try done.
    - intros _. rewrite (Hc eq_refl), E2, E1. destruct (im_get (im s) k); rewrite ?sum_of_cons; cbn [snd]; lia.
    - unfold zlen in *. destruct (im_get (im s) k) as [v|]; cbn in L1; [destruct (pf_size Hp Ht v (Go v eq_refl)) as [_ Hv]|]; destruct Hw; lia.
    - unfold zlen in *. destruct (im_get (im s) k); cbn in L1; lia. }
  exists (mkInner m size). split; [|done]. destruct (im_get (im s) k) as [v|] eqn:Ek; [|by destruct (tracked p); subst].
  destruct (tracked p) eqn:Ht; [|by subst]. destruct (pf_size Hp Ht v (Go v eq_refl)) as [-> Hv]. cbn [mbind res_bind].
  pose proof (tracked_nonneg rest Ht Gr) as Hr0. rewrite sum_of_cons in E1. cbn [snd] in E1. specialize (Hc eq_refl).
  assert (cache_ok s) as Hok by (split; [split; [done|done|by intros _]|unfold within; by rewrite Ht]).
  destruct (sizes_bound s Ht Hok) as [H0 H1]. rewrite chk_ok by (unfold inW; lia). cbn [mbind res_bind]. by subst.
Qed.
End bounded.

(** ** Sequences of operations *)
Inductive CacheOp (K V : Type) :=
| OpInsert (k : K) (v : V)
| OpInsertMany (l : list (K * V))
| OpUpdate (k : K) (op : V -> V)
| OpRemove (k : K)
| OpRemoveMany (ks : list K)
| OpRemoveAll.
Arguments OpInsert {K V} k v.
Arguments OpInsertMany {K V} l.
Arguments OpUpdate {K V} k op.
Arguments OpRemove {K V} k.
Arguments OpRemoveMany {K V} ks.
Arguments OpRemoveAll {K V}.

Section operations.
Context {E K V : Type} `{!EqDecision K} `{EC : !EvictChoice K V} `{MS : !MemSizeEstimator V}.
Context (G : V -> Prop) (B : Z).
Implicit Types (c : DbCache K V) (f : K -> option V).

Definition run_cache_op c (o : CacheOp K V) : res E (DbCache K V) :=
  match o with
  | OpInsert k v => db_cache_insert c k v
  | OpInsertMany l => db_cache_insert_many c l
  | OpUpdate k op => db_cache_update_if_entry_exists c k op
  | OpRemove k => r ← db_cache_remove c k; Ok r.1
  | OpRemoveMany ks => db_cache_remove_many c ks
  | OpRemoveAll => db_cache_remove_all c
  end.
(** The map that an unbounded cache would hold. *)
Definition unbounded f (o : CacheOp K V) : K -> option V :=
  match o with
  | OpInsert k v => upd f k (Some v)
  | OpInsertMany l => foldl (fun f kv => upd f kv.1 (Some kv.2)) f l
  | OpUpdate k op => upd f k (op <$> f k)
  | OpRemove k => upd f k None
  | OpRemoveMany ks => foldl (fun f k => upd f k None) f ks
  | OpRemoveAll => fun _ => None
  end.

Record db_cache_ok c f : Prop := {
  dc_fits : policy_fits (E:=E) G (policy c) B;
  dc_inner : cache_ok G (policy c) (inner c);
  dc_empty : max_size (policy c) = 0 -> im (inner c) = [];
  dc_holds : holds_only (inner c) f;
}.
Lemma upd_mono f g k o o' : (forall x v, f x = Some v -> g x = Some v) -> (forall v, o = Some v -> o' = Some v) ->
  forall x v, upd f k o x = Some v -> upd g k o' x = Some v.
Proof. intros Hfg Ho x v. unfold upd. case_decide; eauto. Qed.
Lemma db_cache_new_ok p : policy_fits (E:=E) G (policy_from p) B -> db_cache_ok (db_cache_new p) (fun _ => None).
Proof.
  intros Hp. split; [done| |done|by intros k v Hk]. cbn [db_cache_new policy inner]. split; [by split; cbn; [constructor..|]|]. unfold within. cbn [im tracked_size].
  change (zlen (@nil (K * V))) with 0. pose proof (pf_bounds _ _ _ Hp). destruct (tracked (policy_from p)); [left|]; lia.
Qed.
Lemma get_in c f k v : db_cache_ok c f -> db_cache_get c k = Some v -> f k = Some v.
Proof. intros Hc. apply (dc_holds _ _ Hc). Qed.
(** An operation on the entries, skipped by a cache of size zero. *)
Lemma unless_empty_ok c f (g : Inner K V -> res E (Inner K V)) f' : db_cache_ok c f ->
  (max_size (policy c) <> 0 -> exists s', g (inner c) = Ok s' /\ cache_ok G (policy c) s' /\ holds_only s' f') ->
  exists c', unless_empty c g = Ok c' /\ db_cache_ok c' f' /\ policy c' = policy c.
Proof.
  intros Hc Hg. unfold unless_empty. destruct (Z.eqb_spec (max_size (policy c)) 0) as [Hz|Hz].
  - exists c. split; [done|]. split; [|done]. destruct Hc as [H1 H2 H3 H4]. split; [done..|]. intros k v Hk. by rewrite (H3 Hz) in Hk.
  - destruct (Hg Hz) as (s' & -> & Hok & Hh). eexists. split; [done|]. split; [|done]. split; [apply Hc|done|done|done].
Qed.
Lemma insert_ok c f k v : G v -> db_cache_ok c f ->
  exists c', db_cache_insert (E:=E) c k v = Ok c' /\ db_cache_ok c' (upd f k (Some v)) /\ policy c' = policy c.
Proof.
  intros Gv Hc. apply (unless_empty_ok c f); [done|]. intros Hz.
  destruct (inner_insert_ok _ _ _ (dc_fits _ _ Hc) (inner c) k v Gv Hz (dc_inner _ _ Hc)) as (s' & Hs & Hok & Hh & _).
  exists s'. split; [done|]. split; [done|]. intros x y Hx. apply Hh in Hx. revert Hx. apply upd_mono; [apply Hc|done].
Qed.
Lemma insert_many_ok c f l : Forall (fun kv => G kv.2) l -> db_cache_ok c f ->
  exists c', db_cache_insert_many (E:=E) c l = Ok c' /\ db_cache_ok c' (foldl (fun f kv => upd f kv.1 (Some kv.2)) f l) /\ policy c' = policy c.
Proof.
  intros Hl Hc. apply (unless_empty_ok c f); [done|]. intros Hz. destruct Hc as [Hf Hok _ Hh]. revert f Hh. generalize (inner c), Hok. clear Hok.
  induction Hl as [|[k v] l Gv Hl IH]; intros s Hok f Hh; [by exists s|]. cbn [snd] in Gv. cbn [res_foldl foldl fst snd].
  destruct (inner_insert_ok _ _ _ Hf s k v Gv Hz Hok) as (s' & -> & Hok' & Hh' & _). cbn [mbind res_bind].
  apply IH; [done|]. intros x y Hx. apply Hh' in Hx. revert Hx. apply upd_mono; [apply Hh|done].
Qed.
Lemma update_ok c f k op : (forall v, G v -> G (op v)) -> db_cache_ok c f ->
  exists c', db_cache_update_if_entry_exists (E:=E) c k op = Ok c' /\ db_cache_ok c' (upd f k (op <$> f k)) /\ policy c' = policy c.
Proof.
  intros Gop Hc. apply (unless_empty_ok c f); [done|]. intros Hz.
  destruct (inner_update_ok _ _ _ (dc_fits _ _ Hc) (inner c) k op Gop (dc_inner _ _ Hc)) as (s' & Hs & Hok & Hh).
  exists s'. split; [done|]. split; [done|]. intros x y Hx. apply Hh in Hx. revert Hx. apply upd_mono; [apply Hc|].
  intros v (w & Hw & ->)%fmap_Some. by rewrite (dc_holds _ _ Hc k w Hw).
Qed.
Lemma remove_ok c f k : db_cache_ok c f ->
  exists c' o, db_cache_remove (E:=E) c k = Ok (c', o) /\ db_cache_ok c' (upd f k None) /\ policy c' = policy c.
Proof.
  intros Hc. unfold db_cache_remove. destruct (Z.eqb_spec (max_size (policy c)) 0) as [Hz|Hz].
  - exists c, None. split; [done|]. split; [|done]. destruct Hc as [H1 H2 H3 H4]. split; [done..|]. intros x v Hx. by rewrite (H3 Hz) in Hx.
  - destruct (inner_remove_ok _ _ _ (dc_fits _ _ Hc) (inner c) k (dc_inner _ _ Hc)) as (s' & -> & Hok & Hg). cbn [mbind res_bind].
    do 2 eexists. split; [done|]. split; [|done]. split; [apply Hc|done|done|]. intros x v Hx. cbn [inner] in Hx. rewrite Hg in Hx.
    revert Hx. apply upd_mono; [apply Hc|done].
Qed.
Lemma remove_many_ok c f ks : db_cache_ok c f ->
  exists c', db_cache_remove_many (E:=E) c ks = Ok c' /\ db_cache_ok c' (foldl (fun f k => upd f k None) f ks) /\ policy c' = policy c.
Proof.
  intros Hc. apply (unless_empty_ok c f); [done|]. intros Hz. destruct Hc as [Hf Hok _ Hh]. revert f Hh. generalize (inner c), Hok. clear Hok.
  induction ks as [|k ks IH]; intros s Hok f Hh; [by exists s|]. cbn [res_foldl foldl].
  destruct (inner_remove_ok _ _ _ Hf s k Hok) as (s' & -> & Hok' & Hg). cbn [mbind res_bind fst].
  apply IH; [done|]. intros x y Hx. rewrite Hg in Hx. revert Hx. apply upd_mono; [apply Hh|done].
Qed.
Lemma remove_all_ok c f : db_cache_ok c f ->
  exists c', db_cache_remove_all (E:=E) c = Ok c' /\ db_cache_ok c' (fun _ => None) /\ policy c' = policy c.
Proof.
  intros Hc. apply (unless_empty_ok c f); [done|]. intros Hz. eexists. split; [done|]. split; [|by intros k v Hk].
  pose proof (pf_bounds _ _ _ (dc_fits _ _ Hc)). split; [split; cbn [im tracked_size]; [constructor..|by intros ->]|].
  unfold within. cbn [im tracked_size]. change (zlen (@nil (K * V))) with 0. destruct (tracked (policy c)); [left|]; lia.
Qed.
Create HintDb cache.
#[local] Hint Resolve insert_ok insert_many_ok update_ok remove_many_ok remove_all_ok : cache.
Definition good_op (o : CacheOp K V) : Prop :=
  match o with
  | OpInsert _ v => G v
  | OpInsertMany l => Forall (fun kv => G kv.2) l
  | OpUpdate _ op => forall v, G v -> G (op v)
  | _ => True
  end.
Lemma run_cache_op_ok c f o : good_op o -> db_cache_ok c f ->
  exists c', run_cache_op c o = Ok c' /\ db_cache_ok c' (unbounded f o) /\ policy c' = policy c.
Proof.
  intros Ho Hc. destruct o; cbn [run_cache_op unbounded]; eauto with cache.
  destruct (remove_ok c f k Hc) as (c' & o & -> & H). by exists c'.
Qed.

(** Any sequence of operations on a new cache succeeds, leaves the cache within
    the bounds of its policy, and leaves in it only entries that an unbounded
    map would hold: a stale value is never returned.  An untracked cache of
    nonzero size always keeps the entry inserted last. *)
Theorem cache_within_policy p ops (Hp : policy_fits (E:=E) G (policy_from p) B) (Hops : Forall good_op ops) :
  exists c, res_foldl run_cache_op (db_cache_new p) ops = Ok c /\ within (policy_from p) (inner c) /\
    (forall k v, db_cache_get c k = Some v -> foldl unbounded (fun _ => None) ops k = Some v) /\
    (tracked (policy_from p) = false -> max_size (policy_from p) <> 0 -> forall k v, G v ->
       exists c', db_cache_insert (E:=E) c k v = Ok c' /\ db_cache_get c' k = Some v).
Proof.
  enough (forall c0 f0, db_cache_ok c0 f0 -> exists c, res_foldl run_cache_op c0 ops = Ok c /\ db_cache_ok c (foldl unbounded f0 ops) /\ policy c = policy c0) as H.
  { destruct (H _ _ (db_cache_new_ok p Hp)) as (c & Hr & Hc & Ep). cbn in Ep. exists c. split; [done|]. split; [rewrite <- Ep; apply Hc|].
    split; [intros k v; by apply get_in|]. intros Ht Hz k v Gv. rewrite <- Ep in Ht, Hz. unfold db_cache_insert, unless_empty.
    destruct (Z.eqb_spec (max_size (policy c)) 0); [done|].
    destruct (inner_insert_ok _ _ _ (dc_fits _ _ Hc) (inner c) k v Gv Hz (dc_inner _ _ Hc)) as (s' & -> & _ & _ & Hg).
    eexists. split; [done|]. by apply Hg. }
  induction Hops as [|o ops Ho Hops IH]; intros c0 f0 H0; [by exists c0|]. cbn [res_foldl foldl].
  destruct (run_cache_op_ok c0 f0 o Ho H0) as (c1 & -> & H1 & E1). cbn [mbind res_bind].
  destruct (IH c1 _ H1) as (c & Hr & Hc & Ep). exists c. split; [done|]. split; [done|congruence].
Qed.
End operations.

(** ** Samples *)
(** [Vec<T>] counts its items. *)
#[export] Instance vec_size {A} : MemSizeEstimator (list A) :=
  {| estimate_mem_bytes _ := None; estimate_mem_units v := Some (zlen v) |}.
#[export] Program Instance first_entry {K V} : EvictChoice K V := {| evict_index _ := O |}.
Next Obligation. intros K V [|x m] Hm; [done|]. cbn. lia. Qed.

Definition sample_ops : list (CacheOp Z (list Z)) :=
  [OpInsert 1 [7; 8; 9]; OpInsert 2 [5; 6]; OpInsert 3 [4]; OpUpdate 2 (fun _ => [1]); OpRemove 3].
Lemma cache_within_policy_witness :
  exists c, res_foldl (E:=unit) run_cache_op (db_cache_new (Tracked 4 1 Units)) sample_ops = Ok c /\
    within (policy_from (Tracked 4 1 Units)) (inner c) /\ db_cache_get c 1 = None /\ db_cache_get c 2 = Some [1].
Proof.
  destruct (cache_within_policy (E:=unit) (fun v : list Z => zlen v <= 3) 3 (Tracked 4 1 Units) sample_ops) as (c & Hr & Hw & _).
  - split; cbn [policy_from max_size min_items]; [lia| |lia]. intros _ v Hv. split; [done|]. unfold size_of. cbn.
    pose proof (zlen_nonneg v). lia.
  - repeat constructor; cbn; try (unfold zlen; cbn; lia).
  - exists c. split; [done|]. split; [done|]. vm_compute in Hr. injection Hr as <-. done.
Defined.
