(* ===== verification/DbAccess.v ===== *)
(** * Cached database access

    [database/src]: keys ([key.rs]), writers ([writer.rs]), typed access with a
    cache ([access.rs], [CachedDbAccess]) and single cached items ([item.rs],
    [CachedDbItem]).

    RocksDB and bincode are dependencies.  RocksDB is a class of operations that
    may fail, with laws that describe a successful call by the map from byte
    strings to byte strings that the database holds; bincode is a class of
    partial codecs whose decoder inverts the encoder.  A write batch is the list
    of its operations; [db.write] applies it as a whole.

    The theorem: a cached access behaves as a map, for any policy of the cache
    and any evictions, as long as no key is read from the database, or written
    to it directly, while a batch that changes it is pending.  A sample shows
    that the condition is needed. *)
From S2P Require Import Prelude Cache.

(** ** Keys *)
Record DbKey := mkDbKey { path : bytes; prefix_len : usize }.
Definition db_key_new (prefix key : bytes) : DbKey := mkDbKey (prefix ++ key) (zlen prefix).
Definition prefix_only (prefix : bytes) : DbKey := db_key_new prefix [].
Definition add_bucket (k : DbKey) (bucket : bytes) : DbKey := mkDbKey (path k ++ bucket) (prefix_len k + zlen bucket).
Definition add_key (k : DbKey) (key : bytes) : DbKey := mkDbKey (path k ++ key) (prefix_len k + zlen key).
Definition new_with_bucket (prefix bucket key : bytes) : DbKey := add_key (add_bucket (prefix_only prefix) bucket) key.

Inductive StoreError :=
| KeyNotFound (key : bytes)
| KeyAlreadyExists (key : bytes)
| HashAlreadyExists (hash : Hash)
| DataInconsistency
| DbError
| DeserializationError.
Definition is_key_not_found (e : StoreError) : bool := match e with KeyNotFound _ => true | _ => false end.
Definition is_already_exists (e : StoreError) : bool := match e with KeyAlreadyExists _ | HashAlreadyExists _ => true | _ => false end.
Definition optional {A} (r : res StoreError A) : res StoreError (option A) :=
  match r with
  | Ok a => Ok (Some a)
  | Err e => if is_key_not_found e then Ok None else Err e
  | Panic => Panic
  | NoFuel => NoFuel
  end.
Definition idempotent (r : res StoreError unit) : res StoreError unit :=
  match r with Err e => if is_already_exists e then Ok tt else Err e | _ => r end.

(** ** RocksDB and bincode *)
Inductive BatchOp := PutOp (key value : bytes) | DeleteOp (key : bytes) | DeleteRangeOp (from to : bytes).
Fixpoint lex_lt (a b : bytes) : bool :=
  match a, b with
  | _, [] => false
  | [], _ => true
  | x :: a, y :: b => (x <? y) || ((x =? y) && lex_lt a b)
  end.
Definition in_range (from to k : bytes) : bool := negb (lex_lt k from) && lex_lt k to.

Class RocksDb := {
  DB : Type;
  get_pinned : DB -> bytes -> option (option bytes);
  db_put : DB -> bytes -> bytes -> option DB;
  db_delete : DB -> bytes -> option DB;
  db_write : DB -> list BatchOp -> option DB;
  (** [PrefixRange(prefix).into_bounds()] *)
  into_bounds : bytes -> option bytes * option bytes;
}.
(** An operation of a batch, at one key. *)
Definition op_at (k : bytes) (o : option bytes) (op : BatchOp) : option bytes :=
  match op with
  | PutOp k' v => if decide (k' = k) then Some v else o
  | DeleteOp k' => if decide (k' = k) then None else o
  | DeleteRangeOp from to => if in_range from to k then None else o
  end.
Class RocksDbLaws `{RocksDb} := {
  contents : DB -> bytes -> option bytes;
  get_pinned_ok d k o : get_pinned d k = Some o -> o = contents d k;
  db_put_ok d k v d' : db_put d k v = Some d' -> forall x, contents d' x = op_at x (contents d x) (PutOp k v);
  db_delete_ok d k d' : db_delete d k = Some d' -> forall x, contents d' x = op_at x (contents d x) (DeleteOp k);
  db_write_ok d b d' : db_write d b = Some d' -> forall x, contents d' x = foldl (op_at x) (contents d x) b;
  into_bounds_ok p from to : into_bounds p = (Some from, Some to) -> forall k, in_range from to k = true <-> p `prefix_of` k;
}.

Class Bincode (T : Type) := {
  serialize : T -> option bytes;
  deserialize : bytes -> option T;
  serialize_inv v b : serialize v = Some b -> deserialize b = Some v;
}.
Definition bincode_err {A} (o : option A) : res StoreError A := ok_or o DeserializationError.
Definition db_err {A} (o : option A) : res StoreError A := ok_or o DbError.

(** ** Writers *)
Inductive DbWriter := DirectDbWriter | BatchDbWriter | MemoryWriter.
Section writers.
Context `{RD : RocksDb}.
(** The database and the batch under construction. *)
Record Dbs := mkDbs { db : DB; batch : list BatchOp }.
Definition on_db (f : DB -> option DB) : stm Dbs StoreError unit := fun s =>
  match f (db s) with Some d => (Ok tt, mkDbs d (batch s)) | None => (Err DbError, s) end.
Definition on_batch (op : BatchOp) : stm Dbs StoreError unit := fun s => (Ok tt, mkDbs (db s) (batch s ++ [op])).
Definition writer_put (w : DbWriter) (key value : bytes) : stm Dbs StoreError unit :=
  match w with
  | DirectDbWriter => on_db (fun d => db_put d key value)
  | BatchDbWriter => on_batch (PutOp key value)
  | MemoryWriter => mret tt
  end.
Definition writer_delete (w : DbWriter) (key : bytes) : stm Dbs StoreError unit :=
  match w with
  | DirectDbWriter => on_db (fun d => db_delete d key)
  | BatchDbWriter => on_batch (DeleteOp key)
  | MemoryWriter => mret tt
  end.
Definition writer_delete_range (w : DbWriter) (from to : bytes) : stm Dbs StoreError unit :=
  match w with
  | DirectDbWriter => on_db (fun d => db_write d [DeleteRangeOp from to])
  | BatchDbWriter => on_batch (DeleteRangeOp from to)
  | MemoryWriter => mret tt
  end.
(** [db.write(batch)] *)
Definition commit : stm Dbs StoreError unit := fun s =>
  match db_write (db s) (batch s) with Some d => (Ok tt, mkDbs d []) | None => (Err DbError, s) end.
End writers.

(** ** Typed access *)
Section access.
Context `{RD : RocksDb} {K V : Type} `{!EqDecision K} `{BC : !Bincode V} `{EC : !EvictChoice K V} `{MS : !MemSizeEstimator V}.
Context (as_ref : K -> bytes) (prefix : bytes).
Record Store := mkStore { st_dbs : Dbs; st_cache : DbCache K V }.
Abbreviation M := (stm Store StoreError).
Definition key_of (k : K) : DbKey := db_key_new prefix (as_ref k).

Definition get_db (k : DbKey) : M (option bytes) := fun s => (db_err (get_pinned (db (st_dbs s)) (path k)), s).
Definition on_dbs {A} (m : stm Dbs StoreError A) : M A := fun s =>
  let '(r, d) := m (st_dbs s) in (r, mkStore d (st_cache s)).
Definition on_cache (f : DbCache K V -> res StoreError (DbCache K V)) : M unit := fun s =>
  match f (st_cache s) with
  | Ok c => (Ok tt, mkStore (st_dbs s) c)
  | Err e => (Err e, s)
  | Panic => (Panic, s)
  | NoFuel => (NoFuel, s)
  end.
Definition lift {A} (r : res StoreError A) : M A := fun s => (r, s).

Definition read_from_cache (key : K) : M (option V) := fun s => (Ok (db_cache_get (st_cache s) key), s).
Definition access_has (key : K) : M bool := fun s =>
  if db_cache_contains_key (st_cache s) key then (Ok true, s)
  else (o ← get_db (key_of key); mret (bool_decide (is_Some o))) s.
Definition access_read (key : K) : M V := fun s =>
  match db_cache_get (st_cache s) key with
  | Some data => (Ok data, s)
  | None =>
      (o ← get_db (key_of key);
       match o with
       | Some slice =>
           data ← lift (bincode_err (deserialize slice));
           _ ← on_cache (fun c => db_cache_insert c key data);
           mret data
       | None => lift (Err (KeyNotFound (path (key_of key))))
       end) s
  end.
Definition has_with_fallback (fallback_prefix : bytes) (key : K) : M bool := fun s =>
  if db_cache_contains_key (st_cache s) key then (Ok true, s)
  else (o ← get_db (key_of key);
        match o with
        | Some _ => mret true
        | None => o ← get_db (db_key_new fallback_prefix (as_ref key)); mret (bool_decide (is_Some o))
        end) s.
Definition read_with_fallback {F} `{!Bincode F} (into : F -> V) (fallback_prefix : bytes) (key : K) : M V := fun s =>
  match db_cache_get (st_cache s) key with
  | Some data => (Ok data, s)
  | None =>
      (o ← get_db (key_of key);
       match o with
       | Some slice =>
           data ← lift (bincode_err (deserialize slice));
           _ ← on_cache (fun c => db_cache_insert c key data);
           mret data
       | None =>
           let db_key := db_key_new fallback_prefix (as_ref key) in
           o ← get_db db_key;
           match o with
           | Some slice =>
               data ← lift (bincode_err (deserialize (T:=F) slice));
               _ ← on_cache (fun c => db_cache_insert c key (into data));
               mret (into data)
           | None => lift (Err (KeyNotFound (path db_key)))
           end
       end) s
  end.
Definition access_write (w : DbWriter) (key : K) (data : V) : M unit :=
  bin_data ← lift (bincode_err (serialize data));
  _ ← on_cache (fun c => db_cache_insert c key data);
  on_dbs (writer_put w (path (key_of key)) bin_data).
Definition put_data (w : DbWriter) (kv : K * V) : M unit :=
  bin_data ← lift (bincode_err (serialize kv.2)); on_dbs (writer_put w (path (key_of kv.1)) bin_data).
Definition write_many (w : DbWriter) (iter : list (K * V)) : M unit :=
  _ ← on_cache (fun c => db_cache_insert_many c iter); stm_for (put_data w) iter.
Definition write_many_without_cache (w : DbWriter) (iter : list (K * V)) : M unit :=
  _ ← stm_for (put_data w) iter; on_cache db_cache_remove_all.
Definition access_delete (w : DbWriter) (key : K) : M unit :=
  _ ← on_cache (fun c => r ← db_cache_remove c key; Ok r.1);
  on_dbs (writer_delete w (path (key_of key))).
Definition delete_many (w : DbWriter) (keys : list K) : M unit :=
  _ ← on_cache (fun c => db_cache_remove_many c keys);
  stm_for (fun key => on_dbs (writer_delete w (path (key_of key)))) keys.
Definition delete_all (w : DbWriter) : M unit :=
  _ ← on_cache db_cache_remove_all;
  let '(from, to) := into_bounds (path (prefix_only prefix)) in
  from ← lift (unwrap from); to ← lift (unwrap to);
  on_dbs (writer_delete_range w from to).
End access.

(** ** Sequences of operations *)
Inductive AccessOp (K V : Type) :=
| ReadOp (k : K)
| HasOp (k : K)
| WriteOp (w : DbWriter) (k : K) (v : V)
| WriteManyOp (w : DbWriter) (l : list (K * V))
| WriteManyWithoutCacheOp (w : DbWriter) (l : list (K * V))
| RemoveOp (w : DbWriter) (k : K)
| RemoveManyOp (w : DbWriter) (ks : list K)
| RemoveAllOp (w : DbWriter)
| CommitOp.
Arguments ReadOp {K V} k.
Arguments HasOp {K V} k.
Arguments WriteOp {K V} w k v.
Arguments WriteManyOp {K V} w l.
Arguments WriteManyWithoutCacheOp {K V} w l.
Arguments RemoveOp {K V} w k.
Arguments RemoveManyOp {K V} w ks.
Arguments RemoveAllOp {K V} w.
Arguments CommitOp {K V}.
(** What an operation returns. *)
Inductive Answer (V : Type) := Data (o : option V) | Flag (b : bool) | Done.
Arguments Data {V} o.
Arguments Flag {V} b.
Arguments Done {V}.

Section run.
Context `{RD : RocksDb} {K V : Type} `{!EqDecision K} `{BC : !Bincode V} `{EC : !EvictChoice K V} `{MS : !MemSizeEstimator V}.
Context (as_ref : K -> bytes) (prefix : bytes).
Definition finish (m : stm (Store (K:=K) (V:=V)) StoreError unit) : stm (Store (K:=K) (V:=V)) StoreError (Answer V) := _ ← m; mret Done.
Definition access_step (o : AccessOp K V) : stm (Store (K:=K) (V:=V)) StoreError (Answer V) :=
  match o with
  | ReadOp k => fun s => let '(r, s) := access_read as_ref prefix k s in (Data <$> optional r, s)
  | HasOp k => b ← access_has as_ref prefix k; mret (Flag b)
  | WriteOp w k v => finish (access_write as_ref prefix w k v)
  | WriteManyOp w l => finish (write_many as_ref prefix w l)
  | WriteManyWithoutCacheOp w l => finish (write_many_without_cache as_ref prefix w l)
  | RemoveOp w k => finish (access_delete as_ref prefix w k)
  | RemoveManyOp w ks => finish (delete_many as_ref prefix w ks)
  | RemoveAllOp w => finish (delete_all prefix w)
  | CommitOp => finish (on_dbs commit)
  end.
Fixpoint access_run (ops : list (AccessOp K V)) : stm (Store (K:=K) (V:=V)) StoreError (list (Answer V)) :=
  match ops with
  | [] => mret []
  | o :: ops => a ← access_step o; l ← access_run ops; mret (a :: l)
  end.

(** The same operations on a map. *)
Definition spec_step (m : K -> option V) (o : AccessOp K V) : Answer V * (K -> option V) :=
  match o with
  | ReadOp k => (Data (m k), m)
  | HasOp k => (Flag (bool_decide (is_Some (m k))), m)
  | WriteOp _ k v => (Done, upd m k (Some v))
  | WriteManyOp _ l | WriteManyWithoutCacheOp _ l => (Done, foldl (fun f kv => upd f kv.1 (Some kv.2)) m l)
  | RemoveOp _ k => (Done, upd m k None)
  | RemoveManyOp _ ks => (Done, foldl (fun f k => upd f k None) m ks)
  | RemoveAllOp _ => (Done, fun _ => None)
  | CommitOp => (Done, m)
  end.
Fixpoint spec_run (m : K -> option V) (ops : list (AccessOp K V)) : list (Answer V) * (K -> option V) :=
  match ops with
  | [] => ([], m)
  | o :: ops => let '(a, m) := spec_step m o in let '(l, m) := spec_run m ops in (a :: l, m)
  end.

(** No pending operation of the batch changes [k]. *)
Definition touches (k : bytes) (op : BatchOp) : bool :=
  match op with
  | PutOp k' _ | DeleteOp k' => bool_decide (k' = k)
  | DeleteRangeOp from to => in_range from to k
  end.
Definition settled (s : Store (K:=K) (V:=V)) (k : K) : Prop :=
  Forall (fun op => touches (path (key_of as_ref prefix k)) op = false) (batch (st_dbs s)).
Definition writes (s : Store (K:=K) (V:=V)) (w : DbWriter) (k : K) : Prop :=
  match w with DirectDbWriter => settled s k | BatchDbWriter => True | MemoryWriter => False end.
Context (G : V -> Prop).
Definition legal_op (s : Store (K:=K) (V:=V)) (o : AccessOp K V) : Prop :=
  match o with
  | ReadOp k | HasOp k => is_Some (db_cache_get (st_cache s) k) \/ settled s k
  | WriteOp w k v => writes s w k /\ G v
  | WriteManyOp w l | WriteManyWithoutCacheOp w l => forall k v, (k, v) ∈ l -> writes s w k /\ G v
  | RemoveOp w k => writes s w k
  | RemoveManyOp w ks => forall k, k ∈ ks -> writes s w k
  | RemoveAllOp w => w <> MemoryWriter /\ forall k, writes s w k
  | CommitOp => True
  end.
Fixpoint legal (s : Store (K:=K) (V:=V)) (ops : list (AccessOp K V)) : Prop :=
  match ops with
  | [] => True
  | o :: ops => legal_op s o /\ legal (access_step o s).2 ops
  end.
End run.

(** ** Pending and direct changes *)
Section views.
Context `{RD : RocksDb} `{RL : !RocksDbLaws}.
(** The database with the pending batch applied. *)
Definition view (d : Dbs) (k : bytes) : option bytes := foldl (op_at k) (contents (db d) k) (batch d).
Lemma untouched k op o : touches k op = false -> op_at k o op = o.
Proof. destruct op; cbn; [intros H%bool_decide_eq_false; by rewrite decide_False..|by intros ->]. Qed.
Lemma untouched_all k l o : Forall (fun op => touches k op = false) l -> foldl (op_at k) o l = o.
Proof. intros Hl. revert o. induction Hl as [|op l Hop Hl IH]; intros o; cbn [foldl]; [done|]. by rewrite untouched. Qed.
(** A direct change and a pending batch do not interfere. *)
Lemma direct_view k o op l : (touches k op = true -> Forall (fun op => touches k op = false) l) ->
  foldl (op_at k) (op_at k o op) l = op_at k (foldl (op_at k) o l) op.
Proof.
  intros Hs. destruct (touches k op) eqn:Ht; [by rewrite !untouched_all by auto|]. by rewrite !untouched.
Qed.
Lemma foldl_snoc {A C} (f : A -> C -> A) a l x : foldl f a (l ++ [x]) = f (foldl f a l) x.
Proof. by rewrite foldl_app. Qed.

Definition writer_apply (w : DbWriter) (op : BatchOp) : stm Dbs StoreError unit :=
  match op with
  | PutOp k v => writer_put w k v
  | DeleteOp k => writer_delete w k
  | DeleteRangeOp from to => writer_delete_range w from to
  end.
Lemma writer_apply_ok w op d : w <> MemoryWriter -> let '(r, d') := writer_apply w op d in
  r = Err DbError \/ (r = Ok tt /\
    (forall k, (w = DirectDbWriter -> touches k op = true -> Forall (fun o => touches k o = false) (batch d)) -> view d' k = op_at k (view d k) op) /\
    (w = DirectDbWriter -> batch d' = batch d)).
Proof.
  intros Hm. assert (forall e, (forall x, contents e x = op_at x (contents (db d) x) op) -> forall k,
    (touches k op = true -> Forall (fun o => touches k o = false) (batch d)) -> view (mkDbs e (batch d)) k = op_at k (view d k) op) as Hd.
  { intros e Ee k Hk. unfold view. cbn [db batch]. by rewrite Ee, direct_view. }
  destruct w; [| |done].
  - destruct op as [k v|k|from to]; cbn [writer_apply writer_put writer_delete writer_delete_range]; unfold on_db.
    + destruct (db_put _ k v) as [e|] eqn:Ed; [|by left]. right. split_and!; [done| |done]. intros x Hx. apply Hd; [by apply db_put_ok|by apply Hx].
    + destruct (db_delete _ k) as [e|] eqn:Ed; [|by left]. right. split_and!; [done| |done]. intros x Hx. apply Hd; [by apply db_delete_ok|by apply Hx].
    + destruct (db_write _ _) as [e|] eqn:Ed; [|by left]. right. split_and!; [done| |done]. intros x Hx. apply Hd; [|by apply Hx]. intros y. by rewrite (db_write_ok _ _ _ Ed).
  - destruct op; cbn; right; (split_and!; [done| |done]); intros x _; unfold view; cbn [db batch]; by rewrite foldl_snoc.
Qed.
End views.

(** ** A cached access is a map *)
Section refinement.
Context `{RD : RocksDb} `{RL : !RocksDbLaws} {K V : Type} `{!EqDecision K} `{BC : !Bincode V} `{EC : !EvictChoice K V} `{MS : !MemSizeEstimator V}.
Context (as_ref : K -> bytes) `{!Inj (=) (=) as_ref} (prefix : bytes) (G : V -> Prop) (B : Z).
Abbreviation St := (Store (K:=K) (V:=V)).
Abbreviation pk k := (path (key_of as_ref prefix k)).
Implicit Types (s : St) (m : K -> option V).

Definition viewed s m : Prop := forall k,
  match view (st_dbs s) (pk k) with None => m k = None | Some b => exists v, deserialize b = Some v /\ m k = Some v end.
Record rel s m : Prop := {
  rl_cache : db_cache_ok (E:=StoreError) G B (st_cache s) m;
  rl_view : viewed s m;
  rl_good k v : m k = Some v -> G v;
}.
Lemma pk_inj k k' : pk k = pk k' -> k = k'.
Proof. cbn. intros H. by apply app_inv_head, (inj as_ref) in H. Qed.

(** An operation through a writer changes the map as the operation says. *)
Definition step_ok s m (w : DbWriter) (r : res StoreError unit * St) m' : Prop :=
  r.1 = Err DbError \/ r.1 = Err DeserializationError \/
  (r.1 = Ok tt /\ st_cache r.2 = st_cache s /\ viewed r.2 m' /\ forall x, writes as_ref prefix s w x -> writes as_ref prefix r.2 w x).
Lemma apply_op_ok s m m' w op : viewed s m -> (forall k, touches (pk k) op = true -> writes as_ref prefix s w k) -> w <> MemoryWriter ->
  (forall k, match op_at (pk k) (view (st_dbs s) (pk k)) op with None => m' k = None | Some b => exists v, deserialize b = Some v /\ m' k = Some v end) ->
  step_ok s m w (on_dbs (writer_apply w op) s) m'.
Proof.
  intros Hv Hw Hm Hop. pose proof (writer_apply_ok w op (st_dbs s) Hm) as Ha. unfold step_ok, on_dbs.
  destruct (writer_apply w op (st_dbs s)) as [r d]. cbn [fst snd] in *. destruct Ha as [->|(-> & Hd & Hb)]; [by left|]. right; right.
  split_and!; [done..| |].
  - intros k. cbn [st_dbs]. rewrite Hd; [apply Hop|]. intros -> Ht. by apply (Hw k Ht).
  - intros x Hx. destruct w; [|done|done]. unfold writes, settled in *. cbn [st_dbs]. by rewrite Hb.
Qed.
Lemma put_ok s m w k v b : viewed s m -> serialize v = Some b -> writes as_ref prefix s w k ->
  step_ok s m w (on_dbs (writer_put w (pk k) b) s) (upd m k (Some v)).
Proof.
  intros Hv Hb Hw. apply (apply_op_ok s m _ w (PutOp (pk k) b)); [done| |by intros ->|].
  - cbn [touches]. by intros x ->%bool_decide_eq_true%pk_inj.
  - intros x. cbn [op_at]. unfold upd. case_decide as Hx; [apply pk_inj in Hx as ->|].
    + exists v. rewrite decide_True by done. split; [by apply serialize_inv|done].
    + rewrite decide_False by (by intros ->). apply Hv.
Qed.
Lemma delete_ok s m w k : viewed s m -> writes as_ref prefix s w k -> step_ok s m w (on_dbs (writer_delete w (pk k)) s) (upd m k None).
Proof.
  intros Hv Hw. apply (apply_op_ok s m _ w (DeleteOp (pk k))); [done| |by intros ->|].
  - cbn [touches]. by intros x ->%bool_decide_eq_true%pk_inj.
  - intros x. cbn [op_at]. unfold upd. case_decide as Hx; [apply pk_inj in Hx as ->; by rewrite decide_True|].
    rewrite decide_False by (by intros ->). apply Hv.
Qed.
Lemma delete_range_ok s m w from to : viewed s m -> into_bounds prefix = (Some from, Some to) -> w <> MemoryWriter ->
  (forall k, writes as_ref prefix s w k) -> step_ok s m w (on_dbs (writer_delete_range w from to) s) (fun _ => None).
Proof.
  intros Hv Hb Hm Hw. apply (apply_op_ok s m _ w (DeleteRangeOp from to)); [done|by intros|done|].
  intros k. cbn [op_at]. replace (in_range from to (pk k)) with true; [done|]. symmetry. apply (into_bounds_ok prefix _ _ Hb). by exists (as_ref k).
Qed.
Lemma loop_ok {X} (f : X -> stm St StoreError unit) (key : X -> K) (g : (K -> option V) -> X -> (K -> option V)) w l :
  (forall x s m, x ∈ l -> viewed s m -> writes as_ref prefix s w (key x) -> step_ok s m w (f x s) (g m x)) ->
  forall s m, viewed s m -> (forall x, x ∈ l -> writes as_ref prefix s w (key x)) -> step_ok s m w (stm_for f l s) (foldl g m l).
Proof.
  induction l as [|x l IH]; intros Hf s m Hv Hw; cbn [stm_for foldl].
  { right; right. split_and!; done. }
  pose proof (Hf x s m ltac:(left) Hv (Hw x ltac:(left))) as Hx. unfold mbind, stm_bind. destruct (f x s) as [r s1]. unfold step_ok in Hx at 1. cbn [fst snd] in Hx.
  destruct Hx as [->|[->|(-> & Hc & Hv1 & Hw1)]]; [by left|by right; left|].
  destruct (IH (fun y s m Hy => Hf y s m ltac:(by right)) s1 (g m x) Hv1) as [H|[H|(H1 & H2 & H3 & H4)]].
  { intros y Hy. apply Hw1, Hw. by right. }
  - by left.
  - by right; left.
  - right; right. split_and!; [done|congruence|done|auto].
Qed.
Lemma puts_ok w l s m : viewed s m -> (forall k v, (k, v) ∈ l -> writes as_ref prefix s w k) ->
  step_ok s m w (stm_for (put_data as_ref prefix w) l s) (foldl (fun f kv => upd f kv.1 (Some kv.2)) m l).
Proof.
  intros Hv Hw. apply (loop_ok _ fst); [|done|by intros [k v]; apply Hw]. intros [k v] s' m' _ Hv' Hw'. unfold put_data, bincode_err, lift. cbn [fst snd].
  unfold mbind, stm_bind. destruct (serialize v) as [b|] eqn:Eb; cbn [ok_or]; [by apply put_ok|by right; left].
Qed.
Lemma deletes_ok w ks s m : viewed s m -> (forall k, k ∈ ks -> writes as_ref prefix s w k) ->
  step_ok s m w (stm_for (fun k => on_dbs (writer_delete w (pk k))) ks s) (foldl (fun f k => upd f k None) m ks).
Proof. intros Hv Hw. apply (loop_ok _ id); [|done|done]. intros k s' m' _ Hv' Hw'. by apply delete_ok. Qed.

Lemma db_cache_ok_ext (c : DbCache K V) f g : (forall k, f k = g k) -> db_cache_ok (E:=StoreError) G B c f -> db_cache_ok (E:=StoreError) G B c g.
Proof. intros Hfg [H1 H2 H3 H4]. split; [done..|]. intros k v Hk. rewrite <- Hfg. by apply H4. Qed.
Lemma upd_same m k o x : m k = o -> upd m k o x = m x.
Proof. intros <-. unfold upd. by case_decide; subst. Qed.

(** The outcome of an operation: a failure of the database or of bincode, or
    the answer of the map and a related state. *)
Definition outcome_ok {A} (r : res StoreError A * St) (a : A) m' : Prop :=
  r.1 = Err DbError \/ r.1 = Err DeserializationError \/ (r.1 = Ok a /\ rel r.2 m').
(** The cache is changed first, then the database. *)
Lemma cached_change s m m' w (f : DbCache K V -> res StoreError (DbCache K V)) (g : stm St StoreError unit) :
  rel s m -> (forall k v, m' k = Some v -> G v) ->
  (exists c, f (st_cache s) = Ok c /\ db_cache_ok (E:=StoreError) G B c m') ->
  (forall s', st_dbs s' = st_dbs s -> step_ok s' m w (g s') m') ->
  outcome_ok ((_ ← on_cache f; g) s) tt m'.
Proof.
  intros Hr Hg (c & Hc & Hok) Hstep. unfold mbind, stm_bind, on_cache. rewrite Hc. specialize (Hstep (mkStore (st_dbs s) c) eq_refl).
  destruct (g _) as [r s']. unfold step_ok, outcome_ok in *. cbn [fst snd] in *.
  destruct Hstep as [->|[->|(-> & Ec & Hv & _)]]; [by left|by right; left|]. right; right. split; [done|]. split; [by rewrite Ec|done|done].
Qed.
Lemma read_ok s m k : rel s m -> is_Some (db_cache_get (st_cache s) k) \/ settled as_ref prefix s k ->
  let '(r, s') := access_read as_ref prefix k s in outcome_ok (optional r, s') (m k) m.
Proof.
  intros Hr Hk. unfold access_read. destruct (db_cache_get (st_cache s) k) as [v|] eqn:Ec.
  { right; right. split; [|done]. cbn. by rewrite (get_in _ _ _ _ k v (rl_cache _ _ Hr) Ec). }
  destruct Hk as [[v Hv]|Hk]; [done|]. pose proof (rl_view _ _ Hr k) as Hv. unfold view in Hv. rewrite untouched_all in Hv by done.
  unfold mbind, stm_bind, get_db, db_err. destruct (get_pinned _ _) as [o|] eqn:Eg; cbn [ok_or]; [|by left].
  apply get_pinned_ok in Eg. rewrite <- Eg in Hv. clear Eg. destruct o as [b|]; [|right; right; split; [|done]; cbn; by rewrite Hv].
  destruct Hv as (v & Ed & Em). unfold lift, bincode_err. rewrite Ed. cbn [ok_or]. unfold on_cache.
  destruct (insert_ok G B (st_cache s) m k v (rl_good _ _ Hr k v Em) (rl_cache _ _ Hr)) as (c' & -> & Hc & _).
  right; right. split; [cbn; by rewrite Em|]. split; [|apply Hr..]. eapply db_cache_ok_ext; [|exact Hc]. intros x. by apply upd_same.
Qed.
Lemma has_ok s m k : rel s m -> is_Some (db_cache_get (st_cache s) k) \/ settled as_ref prefix s k ->
  outcome_ok (access_has as_ref prefix k s) (bool_decide (is_Some (m k))) m.
Proof.
  intros Hr Hk. unfold access_has, db_cache_contains_key. fold (db_cache_get (st_cache s) k).
  destruct (db_cache_get (st_cache s) k) as [v|] eqn:Ec.
  { rewrite bool_decide_true by done. right; right. split; [|done]. cbn. by rewrite (get_in _ _ _ _ k v (rl_cache _ _ Hr) Ec). }
  destruct Hk as [[v Hv]|Hk]; [done|]. rewrite bool_decide_false by (by intros [? ?]). pose proof (rl_view _ _ Hr k) as Hv. unfold view in Hv. rewrite untouched_all in Hv by done.
  unfold mbind, stm_bind, get_db, db_err. destruct (get_pinned _ _) as [o|] eqn:Eg; cbn [ok_or]; [|by left].
  apply get_pinned_ok in Eg. rewrite <- Eg in Hv. clear Eg. right; right. split; [|done]. cbn. do 2 f_equal. destruct o as [b|]; [|by rewrite Hv].
  destruct Hv as (v & _ & ->). by rewrite !bool_decide_true by done.
Qed.
Lemma good_upd m k o : (forall x v, m x = Some v -> G v) -> (forall v, o = Some v -> G v) -> forall x v, upd m k o x = Some v -> G v.
Proof. intros Hm Ho x v. unfold upd. case_decide; eauto. Qed.
Lemma good_puts l m : (forall x v, m x = Some v -> G v) -> (forall k v, (k, v) ∈ l -> G v) -> forall x v, foldl (fun f kv => upd f kv.1 (Some kv.2)) m l x = Some v -> G v.
Proof.
  revert m. induction l as [|[k v] l IH]; intros m Hm Hl; [done|]. cbn [foldl fst snd]. apply IH; [|intros; eapply Hl; by right].
  apply good_upd; [done|]. intros ? [= <-]. eapply Hl. left.
Qed.
Lemma good_deletes ks m : (forall x v, m x = Some v -> G v) -> forall x v, foldl (fun f k => upd f k None) m ks x = Some v -> G v.
Proof. revert m. induction ks as [|k ks IH]; intros m Hm; [done|]. cbn [foldl]. apply IH. by apply good_upd. Qed.
Lemma finish_ok (r : stm St StoreError unit) s m' : outcome_ok (r s) tt m' -> outcome_ok (finish r s) Done m'.
Proof.
  unfold outcome_ok, finish, mbind, stm_bind. destruct (r s) as [x s']. cbn [fst snd]. intros [->|[->|(-> & H)]]; [by left|by right; left|by right; right].
Qed.
Lemma commit_ok s m : rel s m -> outcome_ok (on_dbs commit s) tt m.
Proof.
  intros Hr. unfold on_dbs, commit. destruct (db_write _ _) as [d|] eqn:Ed; [|by left]. right; right. split; [done|].
  split; [apply Hr| |apply Hr]. intros k. unfold view. cbn. rewrite (db_write_ok _ _ _ Ed). apply (rl_view _ _ Hr k).
Qed.
Lemma writes_same s s' w k : st_dbs s' = st_dbs s -> writes as_ref prefix s w k -> writes as_ref prefix s' w k.
Proof. intros E. unfold writes, settled. by rewrite E. Qed.
Lemma viewed_same s s' m : st_dbs s' = st_dbs s -> viewed s m -> viewed s' m.
Proof. intros E. unfold viewed. by rewrite E. Qed.

Context (Hbounds : exists from to, into_bounds prefix = (Some from, Some to)).
Lemma access_step_ok s m o : rel s m -> legal_op as_ref prefix G s o ->
  outcome_ok (access_step as_ref prefix o s) (spec_step m o).1 (spec_step m o).2.
Proof.
  intros Hr Hl. pose proof (rl_cache _ _ Hr) as Hc. pose proof (rl_view _ _ Hr) as Hv. pose proof (rl_good _ _ Hr) as Hg.
  assert (forall s' w k, st_dbs s' = st_dbs s -> writes as_ref prefix s w k -> writes as_ref prefix s' w k) as Hws by (intros; by eapply writes_same).
  destruct o as [k|k|w k v|w l|w l|w k|w ks|w|]; cbn [access_step spec_step fst snd legal_op] in *.
  - pose proof (read_ok s m k Hr Hl) as H. destruct (access_read as_ref prefix k s) as [r s']. revert H. unfold outcome_ok. cbn [fst snd].
    intros [->|[->|(-> & H)]]; [by left|by right; left|by right; right].
  - pose proof (has_ok s m k Hr Hl) as H. unfold mbind, stm_bind. destruct (access_has as_ref prefix k s) as [r s']. revert H. unfold outcome_ok. cbn [fst snd].
    intros [->|[->|(-> & H)]]; [by left|by right; left|by right; right].
  - apply finish_ok. unfold access_write, bincode_err. destruct (serialize v) as [b|] eqn:Eb; [|by right; left]. destruct Hl as [Hw Gv].
    apply (cached_change s m _ w); [done|by apply good_upd; [|intros ? [= <-]]| |].
    + destruct (insert_ok G B (st_cache s) m k v Gv Hc) as (c' & H1 & H2 & _). by exists c'.
    + intros s' E. apply put_ok; [by eapply viewed_same|done|by apply Hws].
  - apply finish_ok. unfold write_many. apply (cached_change s m _ w); [done|apply good_puts; [done|by intros k v []%Hl]| |].
    + destruct (insert_many_ok (E:=StoreError) G B (st_cache s) m l) as (c' & H1 & H2 & _); [apply Forall_forall; by intros [k v] []%Hl|done|]. by exists c'.
    + intros s' E. apply puts_ok; [by eapply viewed_same|]. intros k v [H _]%Hl. by apply Hws.
  - apply finish_ok. unfold write_many_without_cache, mbind, stm_bind.
    destruct (puts_ok w l s m Hv) as [H|[H|(H1 & H2 & H3 & _)]]; [by intros k v []%Hl|..];
      destruct (stm_for (put_data as_ref prefix w) l s) as [r s']; cbn [fst snd] in *; subst r; [by left|by right; left|].
    unfold on_cache. rewrite H2. destruct (remove_all_ok G B (st_cache s) m Hc) as (c' & -> & H4 & _). right; right. split; [done|].
    split; [|done|apply good_puts; [done|by intros k v []%Hl]]. destruct H4 as [P1 P2 P3 P4]. split; [done..|]. by intros k v ?%P4.
  - apply finish_ok. unfold access_delete. apply (cached_change s m _ w); [done|by apply good_upd| |].
    + destruct (remove_ok G B (st_cache s) m k Hc) as (c' & o & H1 & H2 & _). exists c'. by rewrite H1.
    + intros s' E. apply delete_ok; [by eapply viewed_same|by apply Hws].
  - apply finish_ok. unfold delete_many. apply (cached_change s m _ w); [done|by apply good_deletes| |].
    + destruct (remove_many_ok G B (st_cache s) m ks Hc) as (c' & H1 & H2 & _). by exists c'.
    + intros s' E. apply deletes_ok; [by eapply viewed_same|]. intros k H%Hl. by apply Hws.
  - apply finish_ok. unfold delete_all. destruct Hbounds as (from & to & Eb).
    assert (path (prefix_only prefix) = prefix) as -> by (cbn; apply app_nil_r). rewrite Eb.
    apply (cached_change s m _ w); [done|done| |].
    + destruct (remove_all_ok G B (st_cache s) m Hc) as (c' & H1 & H2 & _). by exists c'.
    + intros s' E. apply delete_range_ok; [by eapply viewed_same|done|apply Hl|]. intros k. by apply Hws, Hl.
  - apply finish_ok. by apply commit_ok.
Qed.

End refinement.

(** ** Cached items *)
Section items.
Context `{RD : RocksDb} {T : Type} `{BC : !Bincode T} (key : bytes).
Record Item := mkItem { it_dbs : Dbs; cached_item : option T }.
Abbreviation M := (stm Item StoreError).
Definition put_item (o : option T) : M unit := fun s => (Ok tt, mkItem (it_dbs s) o).
Definition item_dbs {A} (m : stm Dbs StoreError A) : M A := fun s => let '(r, d) := m (it_dbs s) in (r, mkItem d (cached_item s)).
Definition item_from_db : M T := fun s =>
  match get_pinned (db (it_dbs s)) key with
  | None => (Err DbError, s)
  | Some None => (Err (KeyNotFound (path (prefix_only key))), s)
  | Some (Some slice) => (bincode_err (deserialize slice), s)
  end.
Definition item_read : M T := fun s =>
  match cached_item s with
  | Some item => (Ok item, s)
  | None => (item ← item_from_db; _ ← put_item (Some item); mret item) s
  end.
Definition item_write (w : DbWriter) (item : T) : M unit :=
  _ ← put_item (Some item);
  bin_data ← (fun s => (bincode_err (serialize item), s));
  item_dbs (writer_put w key bin_data).
Definition item_remove (w : DbWriter) : M unit :=
  _ ← put_item None; item_dbs (writer_delete w key).
(** [guard.take()] empties the cache before the database is read. *)
Definition item_update (w : DbWriter) (op : T -> T) : M T := fun s =>
  (item ← match cached_item s with
          | Some item => _ ← put_item None; mret item
          | None => item_from_db
          end;
   _ ← put_item (Some (op item));
   bin_data ← (fun s => (bincode_err (serialize (op item)), s));
   _ ← item_dbs (writer_put w key bin_data);
   mret (op item)) s.
End items.

Inductive ItemOp (T : Type) := ReadItem | WriteItem (w : DbWriter) (x : T) | RemoveItem (w : DbWriter) | UpdateItem (w : DbWriter) (op : T -> T) | CommitItem.
Arguments ReadItem {T}.
Arguments WriteItem {T} w x.
Arguments RemoveItem {T} w.
Arguments UpdateItem {T} w op.
Arguments CommitItem {T}.
Section item_refinement.
Context `{RD : RocksDb} `{RL : !RocksDbLaws} {T : Type} `{BC : !Bincode T} (key : bytes).
Abbreviation St := (Item (T:=T)).
Implicit Types s : St.
(** [None] when the item is missing. *)
Definition item_step (o : ItemOp T) : stm St StoreError (option T) :=
  match o with
  | ReadItem => fun s => let '(r, s) := item_read key s in (optional r, s)
  | WriteItem w x => _ ← item_write key w x; mret None
  | RemoveItem w => _ ← item_remove key w; mret None
  | UpdateItem w op => fun s => let '(r, s) := item_update key w op s in (optional r, s)
  | CommitItem => _ ← item_dbs commit; mret None
  end.
Definition cell_step (m : option T) (o : ItemOp T) : option T * option T :=
  match o with
  | ReadItem => (m, m)
  | WriteItem _ x => (None, Some x)
  | RemoveItem _ => (None, None)
  | UpdateItem _ op => (op <$> m, op <$> m)
  | CommitItem => (None, m)
  end.
Definition item_settled s : Prop := Forall (fun op => touches key op = false) (batch (it_dbs s)).
Definition item_writes s (w : DbWriter) : Prop :=
  match w with DirectDbWriter => item_settled s | BatchDbWriter => True | MemoryWriter => False end.
Definition legal_item s (o : ItemOp T) : Prop :=
  match o with
  | ReadItem => is_Some (cached_item s) \/ item_settled s
  | WriteItem w _ | RemoveItem w => item_writes s w
  | UpdateItem w _ => item_writes s w /\ (is_Some (cached_item s) \/ item_settled s)
  | CommitItem => True
  end.
Record item_rel s (m : option T) : Prop := {
  ir_cache x : cached_item s = Some x -> m = Some x;
  ir_view : match view (it_dbs s) key with None => m = None | Some b => exists x, deserialize b = Some x /\ m = Some x end;
}.
Lemma item_apply_ok s w op c m : item_writes s w -> touches key op = true -> (forall x, c = Some x -> m = Some x) ->
  match op_at key (view (it_dbs s) key) op with None => m = None | Some b => exists x, deserialize b = Some x /\ m = Some x end ->
  let '(r, s') := item_dbs (writer_apply w op) (mkItem (it_dbs s) c) in r = Err DbError \/ (r = Ok tt /\ item_rel s' m).
Proof.
  intros Hw Ht Hc Hop. assert (w <> MemoryWriter) as Hm by (by intros ->). pose proof (writer_apply_ok w op (it_dbs s) Hm) as Ha. unfold item_dbs.
  cbn [it_dbs cached_item]. destruct (writer_apply w op (it_dbs s)) as [r d]. destruct Ha as [->|(-> & Hd & _)]; [by left|]. right. split; [done|].
  split; [done|]. cbn [it_dbs]. rewrite Hd; [done|]. by intros -> _.
Qed.
Lemma item_from_db_ok s m : item_rel s m -> item_settled s ->
  (item_from_db key s).1 = Err DbError \/ item_from_db key s = (match m with Some x => Ok x | None => Err (KeyNotFound (path (prefix_only key))) end, s).
Proof.
  intros [_ Hv] Hs. unfold view in Hv. rewrite untouched_all in Hv by done. unfold item_from_db. destruct (get_pinned _ _) as [o|] eqn:Eg; [|by left].
  apply get_pinned_ok in Eg. rewrite <- Eg in Hv. right. destruct o as [b|]; [|by rewrite Hv]. destruct Hv as (x & Hx & ->). unfold bincode_err. by rewrite Hx.
Qed.
Lemma item_put_ok s w x c : item_writes s w -> (forall y, c = Some y -> y = x) ->
  let '(r, s') := (bin_data ← (fun s => (bincode_err (serialize x), s)); item_dbs (writer_put w key bin_data)) (mkItem (it_dbs s) c) in
  r = Err DbError \/ r = Err DeserializationError \/ (r = Ok tt /\ item_rel s' (Some x)).
Proof.
  intros Hw Hc. unfold mbind, stm_bind. unfold bincode_err. destruct (serialize x) as [b|] eqn:Eb; cbn [ok_or]; [|by right; left].
  pose proof (item_apply_ok s w (PutOp key b) c (Some x) Hw ltac:(by apply bool_decide_true) ltac:(by intros y ->%Hc)) as H. cbn [op_at] in H. rewrite decide_True in H by done.
  specialize (H ltac:(exists x; split; [by apply serialize_inv|done])). change (writer_apply w (PutOp key b)) with (writer_put w key b) in H.
  destruct (item_dbs _ _) as [r s']. destruct H as [->|(-> & H)]; [by left|by right; right].
Qed.
Ltac same_run :=
  match goal with |- (let '(_, _) := ?a in _) -> (let '(_, _) := (let '(_, _) := ?b in _) in _) => change b with a; by destruct a end.
(** A cached item behaves as a cell that may be empty, under the same condition
    on pending batches. *)
Theorem item_refines_cell s m o : item_rel s m -> legal_item s o -> let '(r, s') := item_step o s in
  r = Err DbError \/ r = Err DeserializationError \/ (r = Ok (cell_step m o).1 /\ item_rel s' (cell_step m o).2).
Proof using All.
  intros Hr Hl. pose proof (ir_cache _ _ Hr) as Hc. destruct o as [|w x|w|w op|]; cbn [item_step cell_step legal_item fst snd] in *.
  - unfold item_read. destruct (cached_item s) as [x|] eqn:Ec; [right; right; split; [|done]; cbn; by rewrite (Hc x eq_refl)|].
    destruct Hl as [[x Hx]|Hl]; [done|]. unfold mbind, stm_bind. destruct (item_from_db_ok s m Hr Hl) as [H| ->].
    + destruct (item_from_db key s) as [r s']. cbn in H. subst. by left.
    + destruct m as [x|]; [|by right; right]. right; right. split; [done|]. split; [by intros y [= <-]|apply Hr].
  - pose proof (item_put_ok s w x (Some x) Hl ltac:(by intros y [= <-])) as H. unfold item_write, put_item. unfold mbind, stm_bind in *.
    destruct (bincode_err (serialize x)); [destruct (item_dbs _ _) as [[[]| | |] s']|..]; naive_solver.
  - pose proof (item_apply_ok s w (DeleteOp key) None None Hl ltac:(by apply bool_decide_true) ltac:(done)) as H. cbn [op_at] in H. rewrite decide_True in H by done.
    specialize (H eq_refl). unfold item_remove, put_item, mbind, stm_bind. change (writer_apply w (DeleteOp key)) with (writer_delete w key) in H.
    destruct (item_dbs _ _) as [[[]| | |] s']; naive_solver.
  - destruct Hl as [Hw Hl]. unfold item_update, put_item.
    assert (forall s0 x, it_dbs s0 = it_dbs s -> m = Some x -> let '(r, s') := (_ ← (fun s => (Ok tt, mkItem (it_dbs s) (Some (op x))));
       bin_data ← (fun s => (bincode_err (serialize (op x)), s)); _ ← item_dbs (writer_put w key bin_data); mret (op x)) s0 in
       optional r = Err DbError \/ optional r = Err DeserializationError \/ (optional r = Ok (op <$> m) /\ item_rel s' (op <$> m))) as Hput.
    { intros s0 x E0 ->. pose proof (item_put_ok s w (op x) (Some (op x)) Hw ltac:(by intros y [= <-])) as H. unfold mbind, stm_bind in *. rewrite E0.
      destruct (bincode_err (serialize (op x))); [destruct (item_dbs _ _) as [[[]| | |] s']|..]; cbn; naive_solver. }
    destruct (cached_item s) as [x|] eqn:Ec.
    { specialize (Hput (mkItem (it_dbs s) None) x eq_refl (Hc x eq_refl)). revert Hput.
      same_run. }
    destruct Hl as [[x Hx]|Hl]; [done|].
    destruct (item_from_db_ok s m Hr Hl) as [H|H]; unfold mbind at 1, stm_bind at 1.
    + destruct (item_from_db key s) as [r s']. cbn in H. subst. by left.
    + rewrite H. destruct m as [x|]; [|by right; right]. specialize (Hput s x eq_refl eq_refl). revert Hput.
      same_run.
  - unfold mbind, stm_bind, item_dbs, commit. destruct (db_write _ _) as [d|] eqn:Ed; [|by left]. right; right. split; [done|].
    split; [done|]. unfold view. cbn. rewrite (db_write_ok _ _ _ Ed). apply (ir_view _ _ Hr).
Qed.
End item_refinement.

(** ** Samples *)
(** A database in memory that never fails. *)
Fixpoint next_prefix (p : bytes) : option bytes :=
  match p with [] => None | [x] => Some [x + 1] | x :: p => cons x <$> next_prefix p end.
#[export] Instance memory_db : RocksDb := {|
  DB := gmap bytes bytes;
  get_pinned d k := Some (d !! k);
  db_put d k v := Some (<[k := v]> d);
  db_delete d k := Some (delete k d);
  db_write d b := Some (foldl (fun d op => match op with
    | PutOp k v => <[k := v]> d
    | DeleteOp k => delete k d
    | DeleteRangeOp from to => filter (fun kv => in_range from to kv.1 = false) d
    end) d b);
  into_bounds p := (Some p, next_prefix p);
|}.
Lemma next_prefix_ok p q : next_prefix p = Some q -> forall k, in_range p q k = true <-> p `prefix_of` k.
Proof.
  revert q. induction p as [|x p IH]; intros q Hq k; [done|]. unfold in_range in *. destruct k as [|y k].
  { cbn. split; [done|]. by intros [? ?]. }
  assert (x :: p `prefix_of` y :: k <-> x = y /\ p `prefix_of` k) as -> by (split; [intros H; split; [by eapply prefix_cons_inv_1|by eapply prefix_cons_inv_2]|intros [-> H]; by apply prefix_cons]).
  destruct p as [|z p].
  - injection Hq as <-. cbn. assert (lex_lt k [] = false) as -> by (by destruct k). split; [intros H; split; [lia|by exists k]|intros [-> _]; lia].
  - apply fmap_Some in Hq as (q' & Hq' & ->). specialize (IH q' Hq' k). cbn [lex_lt]. destruct (Z.compare_spec x y) as [->|Hxy|Hxy].
    + rewrite !Z.eqb_refl, !Z.ltb_irrefl. cbn [orb andb]. rewrite IH. tauto.
    + rewrite (proj2 (Z.ltb_ge y x)), (proj2 (Z.eqb_neq y x)) by lia. cbn. split; [done|lia].
    + rewrite (proj2 (Z.ltb_lt y x)) by lia. cbn. split; [done|lia].
Qed.
#[export] Program Instance memory_db_laws : RocksDbLaws := {| contents d k := d !! k |}.
Next Obligation. by intros d k o [= <-]. Qed.
Next Obligation. intros d k v d' [= <-] x. cbn. rewrite lookup_insert. by case_decide. Qed.
Next Obligation. intros d k d' [= <-] x. cbn. rewrite lookup_delete. by case_decide. Qed.
Next Obligation.
  intros d b d' [= <-] x. cbn [DB memory_db] in d. revert d. induction b as [|op b IH]; intros d; [done|]. cbn [foldl]. rewrite IH. f_equal.
  destruct op as [k v|k|from to]; cbn.
  - rewrite lookup_insert. by case_decide.
  - rewrite lookup_delete. by case_decide.
  - destruct (in_range from to x) eqn:E.
    + apply map_lookup_filter_None. right. intros v _. cbn. by rewrite E.
    + destruct (d !! x) as [v|] eqn:Ed; [by apply map_lookup_filter_Some|apply map_lookup_filter_None; by left].
Qed.
Next Obligation. intros p from to [= <- Hq]. by apply next_prefix_ok. Qed.
Definition one_word (b : bytes) : option Z := match b with [x] => Some x | _ => None end.
#[export] Program Instance word_bincode : Bincode Z := {| serialize x := Some [x]; deserialize := one_word |}.
Next Obligation. by intros v b [= <-]. Qed.
#[export] Instance word_size : MemSizeEstimator Z := {| estimate_mem_bytes _ := None; estimate_mem_units _ := None |}.

Definition byte_key (k : Z) : bytes := [k].
#[export] Instance byte_key_inj : Inj (=) (=) byte_key.
Proof. by intros a b [= ->]. Qed.
Definition empty_store (p : CachePolicy) : Store (K:=Z) (V:=Z) := mkStore (mkDbs (∅ : gmap bytes bytes) []) (db_cache_new p).
Lemma count_fits n : 0 <= n < 2 ^ 64 -> policy_fits (E:=StoreError) (V:=Z) (fun _ => True) (policy_from (Count n)) 0.
Proof. intros Hn. split; cbn [policy_from max_size min_items tracked]; [lia|done|lia]. Qed.
Lemma empty_store_rel n : 0 <= n < 2 ^ 64 -> rel byte_key [9] (fun _ => True) 0 (empty_store (Count n)) (fun _ => None).
Proof. intros Hn. split; [by apply db_cache_new_ok, count_fits|by intros k|done]. Qed.

Definition sample_access : list (AccessOp Z Z) :=
  [WriteOp BatchDbWriter 1 10; WriteOp BatchDbWriter 2 20; CommitOp; ReadOp 1; WriteOp DirectDbWriter 3 30; RemoveOp BatchDbWriter 1;
   CommitOp; ReadOp 1; HasOp 2; RemoveAllOp DirectDbWriter; ReadOp 3].

(** Reading a key from the database while its deletion is pending puts the old
    value back into the cache, where it outlives the commit: the condition on
    pending batches cannot be dropped. *)
Theorem stale_read_after_commit :
  let ops := [WriteOp DirectDbWriter 1 10; RemoveOp BatchDbWriter 1; ReadOp 1; CommitOp; ReadOp 1] in
  (access_run byte_key [9] ops (empty_store (Count 8))).1 = Ok [Done; Done; Data (Some 10); Done; Data (Some 10)] /\
  (spec_run (fun _ => None) ops).1 = [Done; Done; Data None; Done; Data None].
Proof. split; vm_compute; reflexivity. Qed.
