(* ===== verification/Encode.v ===== *)
(** * Byte encodings and hashing

    The writer methods of [consensus/core/src/hashing/mod.rs] and the keyed
    Blake2b hashers of [crypto/hashes/src/hashers.rs].

    A hasher is the sequence of bytes fed to it so far: a write is the list of
    bytes it feeds, and a chain of writes is the concatenation.  [blake2b_simd]
    is a dependency; its function is the argument [blake2b] of the class
    [Blake2b], of which only the documented length of the output is used.

    The theorems on encodings are about unambiguity: an encoder is
    [self_delimiting] when what it wrote can be read back whatever follows, so
    that equal streams come from equal values.  Hash commitments are then
    stated without assuming injectivity of the hash: two values with the same
    hash are equal, or the two byte strings are a [collision]. *)
From stdpp Require Import strings.
From S2P Require Import Prelude.

(** ** Byte strings *)
Definition bytes_of_string (s : string) : bytes :=
  map (fun a => Z.of_N (Ascii.N_of_ascii a)) (String.list_ascii_of_string s).
Definition is_bytes (b : bytes) : Prop := Forall (is_digit 256) b.
Lemma is_bytes_compute b : forallb (inWb 8) b = true -> is_bytes b.
Proof.
  rewrite forallb_forall. intros Hb. apply Forall_forall. intros x Hx. unfold is_digit.
  apply list_elem_of_In, Hb in Hx. unfold inWb in Hx. change (2 ^ 8) with 256 in Hx. lia.
Qed.

(** [Hash::as_bytes] and [Hash::from_bytes]. *)
Definition as_bytes (h : Hash) : bytes := rev (digits 256 32 h).
Definition from_bytes (b : bytes) : Hash := undigits 256 (rev b).
Definition ZERO_HASH : Hash := 0.
(** A [MerkleHash] has 48 bytes. *)
Abbreviation MerkleHash := Z (only parsing).
Definition merkle_as_bytes (h : MerkleHash) : bytes := rev (digits 256 48 h).
Definition ZERO_MERKLE_HASH : MerkleHash := 0.

(** ** [HasherExtensions] *)
Definition write_len (len : usize) : bytes := digits 256 8 len.
Definition write_bool (element : bool) : bytes := if element then [1] else [0].
Definition write_u8 (element : u8) : bytes := digits 256 1 element.
Definition write_u16 (element : u16) : bytes := digits 256 2 element.
Definition write_u32 (element : u32) : bytes := digits 256 4 element.
Definition write_u64 (element : u64) : bytes := digits 256 8 element.
Definition write_var_bytes (b : bytes) : bytes := write_len (zlen b) ++ b.
Definition write_var_array (arr : list bytes) : bytes := write_len (zlen arr) ++ concat arr.
(** The big-endian bytes of a 192-bit integer, from the first non-zero one. *)
Fixpoint skip_zeros (b : bytes) : bytes :=
  match b with
  | 0 :: b => skip_zeros b
  | b => b
  end.
Definition write_blue_work (work : Z) : bytes := write_var_bytes (skip_zeros (rev (digits 256 24 work))).

(** ** Hashers *)
Class Blake2b := {
  (** output length, key, message *)
  blake2b : nat -> bytes -> bytes -> bytes;
  blake2b_length n key m : length (blake2b n key m) = n;
  blake2b_is_bytes n key m : is_bytes (blake2b n key m);
}.
Definition TransactionHash : bytes := bytes_of_string "TransactionHash".
Definition TransactionID : bytes := bytes_of_string "TransactionID".
Definition TransactionSigningHash : bytes := bytes_of_string "TransactionSigningHash".
Definition BlockHash : bytes := bytes_of_string "BlockHash".
Definition MerkleBranchHash : bytes := bytes_of_string "MerkleBranchHash".
(** [new().update(m).finalize()] of the hasher of domain [domain]. *)
Definition finalize `{Blake2b} (domain m : bytes) : Hash := from_bytes (blake2b 32 domain m).

(** Two messages with one digest; a message with the all-zero digest. *)
Definition collision `{Blake2b} (n : nat) (domain : bytes) : Prop :=
  exists m m', m <> m' /\ blake2b n domain m = blake2b n domain m'.
Definition zero_digest `{Blake2b} (n : nat) (domain : bytes) : Prop :=
  exists m, blake2b n domain m = repeat 0 n.

(** A length-preserving stand-in that runs the definitions on concrete inputs:
    the message read as a number, with its length and the key mixed in. *)
Definition toy_blake2b : Blake2b := {|
  blake2b n key m := digits 256 n (undigits 257 (map (Z.add 1) (m ++ key)));
  blake2b_length n key m := length_digits 256 n _;
  blake2b_is_bytes n key m := digits_range 256 ltac:(lia) n _;
|}.

(** [Sha3_384] of the crate [sha3], in the same way. *)
Class Sha3 := {
  sha3_384 : bytes -> bytes;
  sha3_384_length m : length (sha3_384 m) = 48%nat;
  sha3_384_is_bytes m : is_bytes (sha3_384 m);
}.
Definition sha3_collision `{Sha3} : Prop := exists m m', m <> m' /\ sha3_384 m = sha3_384 m'.
Definition toy_sha3 : Sha3 := {|
  sha3_384 m := digits 256 48 (undigits 257 (map (Z.add 1) m));
  sha3_384_length m := length_digits 256 48 _;
  sha3_384_is_bytes m := digits_range 256 ltac:(lia) 48 _;
|}.

(** ** Self-delimiting encoders *)
Definition self_delimiting {A} (P : A -> Prop) (enc : A -> bytes) : Prop :=
  forall x y r s, P x -> P y -> enc x ++ r = enc y ++ s -> x = y /\ r = s.

Lemma sd_eq {A} (P : A -> Prop) enc x y :
  self_delimiting P enc -> P x -> P y -> enc x = enc y -> x = y.
Proof. intros He Hx Hy H. apply (He x y [] []); [done..|]. by rewrite !app_nil_r. Qed.

(** Fixed-length codes only need to be injective. *)
Lemma sd_fixed {A} (P : A -> Prop) enc n :
  (forall x, P x -> length (enc x) = n) -> (forall x y, P x -> P y -> enc x = enc y -> x = y) ->
  self_delimiting P enc.
Proof.
  intros Hlen Hinj x y r s Hx Hy H.
  apply app_inj_1 in H as [H ->]; [|by rewrite !Hlen]. split; [by apply Hinj|done].
Qed.

Lemma digits_inj n x y : inW (8 * Z.of_nat n) x -> inW (8 * Z.of_nat n) y ->
  digits 256 n x = digits 256 n y -> x = y.
Proof.
  intros Hx Hy H. rewrite <- (undigits_digits_small n x), <- (undigits_digits_small n y) by done.
  by rewrite H.
Qed.
Lemma sd_digits n w : w = 8 * Z.of_nat n -> self_delimiting (inW w) (digits 256 n).
Proof.
  intros ->. apply (sd_fixed _ _ n); [intros; apply length_digits|apply digits_inj].
Qed.
Lemma sd_rev_digits n w : w = 8 * Z.of_nat n -> self_delimiting (inW w) (fun x => rev (digits 256 n x)).
Proof.
  intros ->. apply (sd_fixed _ _ n).
  - intros. by rewrite length_rev, length_digits.
  - intros x y Hx Hy H. apply (digits_inj n); [done..|]. rewrite <- (rev_involutive (digits 256 n x)), H.
    apply rev_involutive.
Qed.

Lemma sd_write_var_bytes : self_delimiting (fun b : bytes => inW 64 (zlen b)) write_var_bytes.
Proof.
  intros x y r s Hx Hy H. unfold write_var_bytes, write_len in H. rewrite <- !app_assoc in H.
  apply (sd_digits 8 64 eq_refl) in H as [Hl H]; [|done..].
  apply app_inj_1 in H; [done|]. unfold zlen in Hl. lia.
Qed.

(** Sequences: of a known length, and preceded by their length. *)
Section lists.
Context {A} (P : A -> Prop) (enc : A -> bytes) (Henc : self_delimiting P enc).
Implicit Types l k : list A.

Lemma sd_concat l k r s : length l = length k -> Forall P l -> Forall P k ->
  concat (map enc l) ++ r = concat (map enc k) ++ s -> l = k /\ r = s.
Proof using Henc.
  revert k. induction l as [|x l IH]; intros [|y k] Hlen Hl Hk H; try done.
  apply Forall_cons in Hl as [Hx Hl]. apply Forall_cons in Hk as [Hy Hk].
  cbn [concat map] in H. rewrite <- !app_assoc in H. apply Henc in H as [<- H]; [|done..].
  injection Hlen as Hlen. destruct (IH k Hlen Hl Hk H) as [<- <-]. done.
Qed.

Lemma sd_vec : self_delimiting (fun l => inW 64 (zlen l) /\ Forall P l)
  (fun l => write_len (zlen l) ++ concat (map enc l)).
Proof using Henc.
  intros l k r s [Hl HlP] [Hk HkP] H. rewrite <- !app_assoc in H.
  apply (sd_digits 8 64 eq_refl) in H as [Hlen H]; [|done..].
  apply sd_concat in H; [done|unfold zlen in Hlen; lia|done..].
Qed.

(** The same in the right-nested form of the writers. *)
Lemma sd_vec_app l k r s : inW 64 (zlen l) -> inW 64 (zlen k) -> Forall P l -> Forall P k ->
  write_len (zlen l) ++ concat (map enc l) ++ r = write_len (zlen k) ++ concat (map enc k) ++ s -> l = k /\ r = s.
Proof using Henc.
  intros Hl Hk HlP HkP H. rewrite !app_assoc in H. by apply sd_vec in H.
Qed.

(** Without a length, at the end of a stream, when no element is empty. *)
Lemma sd_concat_end l k : (forall x, P x -> enc x <> []) -> Forall P l -> Forall P k ->
  concat (map enc l) = concat (map enc k) -> l = k.
Proof using Henc.
  intros Hne. revert k. induction l as [|x l IH]; intros [|y k] Hl Hk H; try done.
  - apply Forall_cons in Hk as [Hy _]. cbn [concat map] in H. symmetry in H.
    apply app_nil in H as [H _]. by destruct (Hne y Hy).
  - apply Forall_cons in Hl as [Hx _]. cbn [concat map] in H.
    apply app_nil in H as [H _]. by destruct (Hne x Hx).
  - apply Forall_cons in Hl as [Hx Hl]. apply Forall_cons in Hk as [Hy Hk]. cbn [concat map] in H.
    apply Henc in H as [<- H]; [|done..]. by rewrite (IH k Hl Hk H).
Qed.
End lists.

(** Fields of fixed width, as they appear in the writers. *)
Lemma sd_write_u8 : self_delimiting (inW 8) write_u8.
Proof. by apply (sd_digits 1). Qed.
Lemma sd_write_u16 : self_delimiting (inW 16) write_u16.
Proof. by apply (sd_digits 2). Qed.
Lemma sd_write_u32 : self_delimiting (inW 32) write_u32.
Proof. by apply (sd_digits 4). Qed.
Lemma sd_write_u64 : self_delimiting (inW 64) write_u64.
Proof. by apply (sd_digits 8). Qed.
Lemma sd_as_bytes : self_delimiting (inW 256) as_bytes.
Proof. by apply (sd_rev_digits 32). Qed.
Lemma sd_merkle_as_bytes : self_delimiting (inW 384) merkle_as_bytes.
Proof. by apply (sd_rev_digits 48). Qed.


(** Reads one field off two equal streams, leaving an equation between the
    fields and the rest of the streams in [H]. *)
Ltac peel_with H lem :=
  let H' := fresh "Heq" in apply lem in H; [destruct H as [H' H]|done..].
Ltac peel H :=
  lazymatch type of H with
  | write_u8 _ ++ _ = _ => peel_with H sd_write_u8
  | write_u16 _ ++ _ = _ => peel_with H sd_write_u16
  | write_u32 _ ++ _ = _ => peel_with H sd_write_u32
  | write_u64 _ ++ _ = _ => peel_with H sd_write_u64
  | as_bytes _ ++ _ = _ => peel_with H sd_as_bytes
  | merkle_as_bytes _ ++ _ = _ => peel_with H sd_merkle_as_bytes
  | write_var_bytes _ ++ _ = _ => peel_with H sd_write_var_bytes
  end.

(** ** Digests *)
Section digests.
Context `{HB : Blake2b}.

Lemma from_bytes_inj b b' : is_bytes b -> is_bytes b' -> length b = length b' ->
  from_bytes b = from_bytes b' -> b = b'.
Proof.
  intros Hb Hb' Hlen H. unfold from_bytes in H.
  apply undigits_inj in H; [|done|by rewrite !length_rev|by apply Forall_rev..].
  by rewrite <- (rev_involutive b), H, rev_involutive.
Qed.

Lemma finalize_eq domain m m' : finalize domain m = finalize domain m' -> m = m' \/ collision 32 domain.
Proof.
  intros H. apply from_bytes_inj in H; [|apply blake2b_is_bytes..|by rewrite !blake2b_length].
  destruct (decide (m = m')) as [|Hne]; [by left|right]. by exists m, m'.
Qed.

Lemma finalize_zero domain m : finalize domain m = ZERO_HASH -> zero_digest 32 domain.
Proof.
  intros H. exists m. apply from_bytes_inj; [apply blake2b_is_bytes| |by rewrite blake2b_length|].
  - apply zeros_digit. lia.
  - unfold finalize in H. rewrite H. unfold from_bytes. by rewrite rev_repeat, undigits_zeros.
Qed.

Lemma finalize_range domain m : inW 256 (finalize domain m).
Proof.
  unfold finalize, from_bytes. pose proof (undigits_range 256 ltac:(lia) (rev (blake2b 32 domain m))) as H.
  unfold zlen in H. rewrite length_rev, blake2b_length in H. apply H, Forall_rev, blake2b_is_bytes.
Qed.
End digests.
