(* ===== verification/Tx.v ===== *)
(** * Transactions

    The data types of [consensus/core/src/tx.rs],
    [consensus/core/src/tx/script_public_key.rs] and
    [consensus/core/src/subnets.rs], shared by the UTXO algebra, the coinbase
    manager, the mass calculator and the transaction validator.

    The serialization attributes are left out.  A transaction id is the field
    [id] of the record, the value the code caches at construction. *)
From S2P Require Import Prelude.

(** ** Script public keys *)
Record ScriptPublicKey := {
  spk_version : u16;
  spk_script : bytes;
}.
#[export] Instance ScriptPublicKey_eq_dec : EqDecision ScriptPublicKey.
Proof. solve_decision. Defined.

(** ** Outpoints and entries *)
Record TransactionOutpoint := {
  transaction_id : Hash;
  index : u32;
}.
#[export] Instance TransactionOutpoint_eq_dec : EqDecision TransactionOutpoint.
Proof. solve_decision. Defined.
#[export] Program Instance TransactionOutpoint_countable : Countable TransactionOutpoint :=
  inj_countable' (fun o => (transaction_id o, index o))
                 (fun p => {| transaction_id := p.1; index := p.2 |}) _.
Next Obligation. by intros []. Qed.

Record UtxoEntry := {
  amount : u64;
  script_public_key : ScriptPublicKey;
  block_daa_score : u64;
  is_coinbase_entry : bool;
}.
#[export] Instance UtxoEntry_eq_dec : EqDecision UtxoEntry.
Proof. solve_decision. Defined.

(** ** Transactions *)
Definition SubnetworkId : Type := bytes.
Definition from_byte (b : u8) : SubnetworkId := b :: repeat 0 19.
Definition SUBNETWORK_ID_NATIVE : SubnetworkId := from_byte 0.
Definition SUBNETWORK_ID_COINBASE : SubnetworkId := from_byte 1.
Definition SUBNETWORK_ID_REGISTRY : SubnetworkId := from_byte 2.

Record TransactionInput := {
  previous_outpoint : TransactionOutpoint;
  signature_script : bytes;
  sequence : u64;
  sig_op_count : u8;
}.

Record TransactionOutput := {
  value : u64;
  out_script_public_key : ScriptPublicKey;
}.

Record Transaction := {
  version : u16;
  inputs : list TransactionInput;
  outputs : list TransactionOutput;
  lock_time : u64;
  subnetwork_id : SubnetworkId;
  gas : u64;
  payload : bytes;
  mass : u64;
  id : Hash;
}.

Definition is_coinbase (tx : Transaction) : bool :=
  bool_decide (subnetwork_id tx = SUBNETWORK_ID_COINBASE).

(** A transaction with its populated UTXO entries ([PopulatedTransaction] and
    [ValidatedTransaction] read their entries in the same way). *)
Record PopulatedTransaction := {
  ptx : Transaction;
  entries : list UtxoEntry;
}.

(** [PopulatedTransaction::new] asserts one entry per input. *)
Definition PopulatedTransaction_new {E} (tx : Transaction) (es : list UtxoEntry)
    : res E PopulatedTransaction :=
  _ ← rassert (length (inputs tx) =? length es)%nat;
  Ok {| ptx := tx; entries := es |}.

(** [populated_input]: both slices are indexed, so a missing entry panics. *)
Definition populated_input {E} (t : PopulatedTransaction) (i : nat)
    : res E (TransactionInput * UtxoEntry) :=
  inp ← unwrap (inputs (ptx t) !! i);
  ent ← unwrap (entries t !! i);
  Ok (inp, ent).

Lemma populated_input_ok {E} t i inp ent :
  inputs (ptx t) !! i = Some inp -> entries t !! i = Some ent ->
  populated_input (E:=E) t i = Ok (inp, ent).
Proof. intros H1 H2. unfold populated_input. by rewrite H1, H2. Qed.
