(* ===== verification/Hashing.v ===== *)
(** * Transaction hashes, ids and signature hashes

    [consensus/core/src/hashing/tx.rs], [sighash.rs] and [sighash_type.rs].

    - [tx_hash] commits to every field of a transaction and [calc_id] to all
      but the signature scripts, the signature-operation counts and the mass;
    - the values [SigHashReusedValues] caches between the inputs of one
      transaction do not change the signature hash;
    - the signature hash commits to exactly the fields its type selects. *)
From S2P Require Import Prelude Tx Encode.

(** ** Transaction encoding *)

(** [TxEncodingFlags] *)
Definition FULL : u8 := 0.
Definition EXCLUDE_SIGNATURE_SCRIPT : u8 := Z.shiftl 1 0.
Definition EXCLUDE_MASS_COMMIT : u8 := Z.shiftl 1 1.
Definition flags_contain (flags flag : u8) : bool := Z.land flags flag =? flag.

Definition write_outpoint (o : TransactionOutpoint) : bytes :=
  as_bytes (transaction_id o) ++ write_u32 (index o).
Definition write_input (encoding_flags : u8) (i : TransactionInput) : bytes :=
  write_outpoint (previous_outpoint i) ++
  (if negb (flags_contain encoding_flags EXCLUDE_SIGNATURE_SCRIPT)
   then write_var_bytes (signature_script i) ++ [sig_op_count i]
   else write_var_bytes []) ++
  write_u64 (sequence i).
Definition write_output (o : TransactionOutput) : bytes :=
  write_u64 (value o) ++ write_u16 (spk_version (out_script_public_key o)) ++
  write_var_bytes (spk_script (out_script_public_key o)).
Definition write_transaction (tx : Transaction) (encoding_flags : u8) : bytes :=
  write_u16 (version tx) ++ write_len (zlen (inputs tx)) ++
  concat (map (write_input encoding_flags) (inputs tx)) ++
  write_len (zlen (outputs tx)) ++ concat (map write_output (outputs tx)) ++
  write_u64 (lock_time tx) ++ subnetwork_id tx ++ write_u64 (gas tx) ++ write_var_bytes (payload tx) ++
  (if negb (flags_contain encoding_flags EXCLUDE_MASS_COMMIT)
   then if 0 <? mass tx then write_u64 (mass tx) else []
   else []).

Section hashes.
Context `{HB : Blake2b}.

Definition tx_hash (tx : Transaction) : Hash := finalize TransactionHash (write_transaction tx FULL).
Definition hash_pre_crescendo (tx : Transaction) : Hash :=
  finalize TransactionHash (write_transaction tx EXCLUDE_MASS_COMMIT).
Definition id_flags (tx : Transaction) : u8 :=
  if is_coinbase tx then FULL else Z.lor EXCLUDE_SIGNATURE_SCRIPT EXCLUDE_MASS_COMMIT.
Definition calc_id (tx : Transaction) : Hash :=
  finalize TransactionID (write_transaction tx (id_flags tx)).
End hashes.

(** ** Signature hash types *)
Definition SIG_HASH_ALL : u8 := 0x01.
Definition SIG_HASH_NONE : u8 := 0x02.
Definition SIG_HASH_SINGLE : u8 := 0x04.
Definition SIG_HASH_ANY_ONE_CAN_PAY : u8 := 0x80.
Definition SIG_HASH_MASK : u8 := 0x07.
Definition ALLOWED_SIG_HASH_TYPES_VALUES : list u8 :=
  [SIG_HASH_ALL; SIG_HASH_NONE; SIG_HASH_SINGLE;
   Z.lor SIG_HASH_ALL SIG_HASH_ANY_ONE_CAN_PAY; Z.lor SIG_HASH_NONE SIG_HASH_ANY_ONE_CAN_PAY;
   Z.lor SIG_HASH_SINGLE SIG_HASH_ANY_ONE_CAN_PAY].
Definition is_sighash_all (t : u8) : bool := Z.land t SIG_HASH_MASK =? SIG_HASH_ALL.
Definition is_sighash_none (t : u8) : bool := Z.land t SIG_HASH_MASK =? SIG_HASH_NONE.
Definition is_sighash_single (t : u8) : bool := Z.land t SIG_HASH_MASK =? SIG_HASH_SINGLE.
Definition is_sighash_anyone_can_pay (t : u8) : bool :=
  Z.land t SIG_HASH_ANY_ONE_CAN_PAY =? SIG_HASH_ANY_ONE_CAN_PAY.
Definition sighash_from_u8 (val : u8) : res unit u8 :=
  if negb (bool_decide (val ∈ ALLOWED_SIG_HASH_TYPES_VALUES)) then Err tt else Ok val.

(** ** Signature hash *)

(** [SigHashReusedValuesUnsync]: the cells are filled on first use.  The
    [Sync] variant does the same with atomic pointers. *)
Record SigHashReusedValues := mkReused {
  r_previous_outputs_hash : option Hash;
  r_sequences_hash : option Hash;
  r_sig_op_counts_hash : option Hash;
  r_outputs_hash : option Hash;
  r_payload_hash : option Hash;
}.
Definition reused_default : SigHashReusedValues := mkReused None None None None None.
(** [cell.get().unwrap_or_else(|| { let hash = set(); cell.set(Some(hash)); hash })] *)
Definition cell_get (cell : option Hash) (set : Hash) : Hash :=
  match cell with Some h => h | None => set end.
Definition reuse_previous_outputs (v : SigHashReusedValues) (set : Hash) : Hash * SigHashReusedValues :=
  let h := cell_get (r_previous_outputs_hash v) set in
  (h, mkReused (Some h) (r_sequences_hash v) (r_sig_op_counts_hash v) (r_outputs_hash v) (r_payload_hash v)).
Definition reuse_sequences (v : SigHashReusedValues) (set : Hash) : Hash * SigHashReusedValues :=
  let h := cell_get (r_sequences_hash v) set in
  (h, mkReused (r_previous_outputs_hash v) (Some h) (r_sig_op_counts_hash v) (r_outputs_hash v) (r_payload_hash v)).
Definition reuse_sig_op_counts (v : SigHashReusedValues) (set : Hash) : Hash * SigHashReusedValues :=
  let h := cell_get (r_sig_op_counts_hash v) set in
  (h, mkReused (r_previous_outputs_hash v) (r_sequences_hash v) (Some h) (r_outputs_hash v) (r_payload_hash v)).
Definition reuse_outputs (v : SigHashReusedValues) (set : Hash) : Hash * SigHashReusedValues :=
  let h := cell_get (r_outputs_hash v) set in
  (h, mkReused (r_previous_outputs_hash v) (r_sequences_hash v) (r_sig_op_counts_hash v) (Some h) (r_payload_hash v)).
Definition reuse_payload (v : SigHashReusedValues) (set : Hash) : Hash * SigHashReusedValues :=
  let h := cell_get (r_payload_hash v) set in
  (h, mkReused (r_previous_outputs_hash v) (r_sequences_hash v) (r_sig_op_counts_hash v) (r_outputs_hash v) (Some h)).

Definition hash_script_public_key (spk : ScriptPublicKey) : bytes :=
  write_u16 (spk_version spk) ++ write_var_bytes (spk_script spk).
Definition hash_outpoint (o : TransactionOutpoint) : bytes := as_bytes (transaction_id o) ++ write_u32 (index o).
Definition hash_output (o : TransactionOutput) : bytes :=
  write_u64 (value o) ++ hash_script_public_key (out_script_public_key o).
Definition is_native (sid : SubnetworkId) : bool := bool_decide (sid = SUBNETWORK_ID_NATIVE).

Section sighash.
Context `{HB : Blake2b}.
Implicit Types (tx : Transaction) (t : u8) (v : SigHashReusedValues).

Definition previous_outputs_hash tx t v : Hash * SigHashReusedValues :=
  if is_sighash_anyone_can_pay t then (ZERO_HASH, v) else
  reuse_previous_outputs v
    (finalize TransactionSigningHash (concat (map (fun i => hash_outpoint (previous_outpoint i)) (inputs tx)))).
Definition sequences_hash tx t v : Hash * SigHashReusedValues :=
  if is_sighash_single t || is_sighash_anyone_can_pay t || is_sighash_none t then (ZERO_HASH, v) else
  reuse_sequences v (finalize TransactionSigningHash (concat (map (fun i => write_u64 (sequence i)) (inputs tx)))).
Definition sig_op_counts_hash tx t v : Hash * SigHashReusedValues :=
  if is_sighash_anyone_can_pay t then (ZERO_HASH, v) else
  reuse_sig_op_counts v (finalize TransactionSigningHash (concat (map (fun i => write_u8 (sig_op_count i)) (inputs tx)))).
Definition payload_hash tx v : Hash * SigHashReusedValues :=
  if is_native (subnetwork_id tx) && bool_decide (payload tx = []) then (ZERO_HASH, v) else
  reuse_payload v (finalize TransactionSigningHash (write_var_bytes (payload tx))).
Definition outputs_hash tx t v (input_index : nat) : Hash * SigHashReusedValues :=
  if is_sighash_none t then (ZERO_HASH, v) else
  if is_sighash_single t then
    match outputs tx !! input_index with
    | None => (ZERO_HASH, v)
    | Some o => (finalize TransactionSigningHash (hash_output o), v)
    end
  else reuse_outputs v (finalize TransactionSigningHash (concat (map hash_output (outputs tx)))).

Definition calc_signature_hash {E} (verifiable_tx : PopulatedTransaction) (input_index : nat) t v :
    res E (Hash * SigHashReusedValues) :=
  '(inp, ent) ← populated_input verifiable_tx input_index;
  let tx := ptx verifiable_tx in
  let '(h_prev, v) := previous_outputs_hash tx t v in
  let '(h_seq, v) := sequences_hash tx t v in
  let '(h_ops, v) := sig_op_counts_hash tx t v in
  let '(h_out, v) := outputs_hash tx t v input_index in
  let '(h_pay, v) := payload_hash tx v in
  Ok (finalize TransactionSigningHash
        (write_u16 (version tx) ++ as_bytes h_prev ++ as_bytes h_seq ++ as_bytes h_ops ++
         hash_outpoint (previous_outpoint inp) ++ hash_script_public_key (script_public_key ent) ++
         write_u64 (amount ent) ++ write_u64 (sequence inp) ++ write_u8 (sig_op_count inp) ++
         as_bytes h_out ++ write_u64 (lock_time tx) ++ subnetwork_id tx ++ write_u64 (gas tx) ++
         as_bytes h_pay ++ write_u8 t), v).
End sighash.

(** ** Transaction encodings are unambiguous *)

(** The ranges the field types guarantee. *)
Definition outpoint_wf (o : TransactionOutpoint) : Prop := inW 256 (transaction_id o) /\ inW 32 (index o).
Definition input_wf (i : TransactionInput) : Prop :=
  outpoint_wf (previous_outpoint i) /\ inW 64 (zlen (signature_script i)) /\ inW 64 (sequence i) /\ inW 8 (sig_op_count i).
Definition spk_wf (s : ScriptPublicKey) : Prop := inW 16 (spk_version s) /\ inW 64 (zlen (spk_script s)).
Definition output_wf (o : TransactionOutput) : Prop := inW 64 (value o) /\ spk_wf (out_script_public_key o).
Record tx_wf (tx : Transaction) : Prop := {
  wf_version : inW 16 (version tx);
  wf_inputs : inW 64 (zlen (inputs tx));
  wf_input : Forall input_wf (inputs tx);
  wf_outputs : inW 64 (zlen (outputs tx));
  wf_output : Forall output_wf (outputs tx);
  wf_lock_time : inW 64 (lock_time tx);
  wf_subnetwork : length (subnetwork_id tx) = 20%nat;
  wf_gas : inW 64 (gas tx);
  wf_payload : inW 64 (zlen (payload tx));
  wf_mass : inW 64 (mass tx);
}.

(** Projections of explicit records. *)
Ltac fields := cbn [transaction_id index spk_version spk_script value out_script_public_key
  previous_outpoint signature_script sequence sig_op_count fst snd] in *.
Lemma sd_write_outpoint : self_delimiting outpoint_wf write_outpoint.
Proof.
  intros [xt xi] [yt yi] r s [??] [??] Hs. unfold write_outpoint in Hs. fields. rewrite <- !app_assoc in Hs.
  peel Hs. peel Hs. split; congruence.
Qed.
Lemma sd_spk : self_delimiting spk_wf hash_script_public_key.
Proof.
  intros [xv xs] [yv ys] r s [??] [??] Hs. unfold hash_script_public_key in Hs. fields. rewrite <- !app_assoc in Hs.
  peel Hs. peel Hs. split; congruence.
Qed.
Lemma sd_write_output : self_delimiting output_wf write_output.
Proof.
  intros [xv xs] [yv ys] r s [??] [??] Hs. fields.
  change (write_output _) with (write_u64 xv ++ hash_script_public_key xs) in Hs at 1.
  change (write_output _) with (write_u64 yv ++ hash_script_public_key ys) in Hs.
  rewrite <- !app_assoc in Hs. peel Hs. apply sd_spk in Hs as [<- <-]; [|done..]. split; congruence.
Qed.
Lemma write_input_full i : write_input FULL i =
  write_outpoint (previous_outpoint i) ++ write_var_bytes (signature_script i) ++ [sig_op_count i] ++ write_u64 (sequence i).
Proof. unfold write_input. change (flags_contain FULL EXCLUDE_SIGNATURE_SCRIPT) with false. cbn [negb]. by rewrite <- app_assoc. Qed.
Lemma sd_write_input_full : self_delimiting input_wf (write_input FULL).
Proof.
  intros [xo xs xq xc] [yo ys yq yc] r s (?&?&?&?) (?&?&?&?) Hs. fields.
  rewrite !write_input_full in Hs. fields. rewrite <- !app_assoc in Hs.
  apply sd_write_outpoint in Hs as [-> Hs]; [|done..]. peel Hs. apply app_inj_1 in Hs as [Hc Hs]; [injection Hc as ->|done]. peel Hs. split; congruence.
Qed.

(** What the encoding for ids keeps of an input. *)
Definition EXCLUDE_BOTH : u8 := Z.lor EXCLUDE_SIGNATURE_SCRIPT EXCLUDE_MASS_COMMIT.
Definition input_core (i : TransactionInput) : TransactionOutpoint * u64 := (previous_outpoint i, sequence i).
Definition write_core (c : TransactionOutpoint * u64) : bytes :=
  write_outpoint c.1 ++ write_var_bytes [] ++ write_u64 c.2.
Lemma sd_write_core : self_delimiting (fun c => outpoint_wf c.1 /\ inW 64 c.2) write_core.
Proof.
  intros [xo xq] [yo yq] r s [??] [??] Hs. unfold write_core in Hs. fields. rewrite <- !app_assoc in Hs.
  apply sd_write_outpoint in Hs as [-> Hs]; [|done..]. apply app_inv_head in Hs. peel Hs. split; congruence.
Qed.

(** The fields from the outputs on, which every flag keeps. *)
Definition write_tail (tx : Transaction) (rest : bytes) : bytes :=
  write_len (zlen (outputs tx)) ++ concat (map write_output (outputs tx)) ++
  write_u64 (lock_time tx) ++ subnetwork_id tx ++ write_u64 (gas tx) ++ write_var_bytes (payload tx) ++ rest.
Definition tx_tail (tx : Transaction) := (outputs tx, lock_time tx, subnetwork_id tx, gas tx, payload tx).
Lemma write_tail_inj x y r s : tx_wf x -> tx_wf y -> write_tail x r = write_tail y s -> tx_tail x = tx_tail y /\ r = s.
Proof.
  intros [] [] Hs. unfold write_tail, tx_tail in *.
  apply (sd_vec_app _ _ sd_write_output) in Hs as [-> Hs]; [|done..]. peel Hs.
  apply app_inj_1 in Hs as [-> Hs]; [|congruence]. peel Hs. peel Hs. split; [congruence|done].
Qed.

Lemma mass_inj x y : inW 64 x -> inW 64 y ->
  (if 0 <? x then write_u64 x else []) = (if 0 <? y then write_u64 y else []) -> x = y.
Proof.
  intros Hx Hy. pose proof (length_digits 256 8) as Hl. unfold inW in *.
  destruct (Z.ltb_spec 0 x), (Z.ltb_spec 0 y); intros Hs'; [|by apply (f_equal length) in Hs'; rewrite Hl in Hs'..|lia].
  eapply (sd_eq (inW 64)); [apply sd_write_u64|done..].
Qed.

Lemma write_transaction_split tx f : write_transaction tx f =
  write_u16 (version tx) ++ (write_len (zlen (inputs tx)) ++ concat (map (write_input f) (inputs tx)) ++
  write_tail tx (if negb (flags_contain f EXCLUDE_MASS_COMMIT) then if 0 <? mass tx then write_u64 (mass tx) else [] else [])).
Proof. reflexivity. Qed.

(** Every field but the cached id. *)
Definition tx_fields (tx : Transaction) := (version tx, inputs tx, tx_tail tx, mass tx).
(** The fields an id covers. *)
Definition tx_core (tx : Transaction) := (version tx, map input_core (inputs tx), tx_tail tx).

Lemma write_full_inj x y : tx_wf x -> tx_wf y -> write_transaction x FULL = write_transaction y FULL ->
  tx_fields x = tx_fields y.
Proof.
  intros Hx Hy Hs. rewrite !write_transaction_split in Hs. destruct Hx as [], Hy as []. peel Hs.
  apply (sd_vec_app _ _ sd_write_input_full) in Hs as [Hi Hs]; [|done..].
  apply write_tail_inj in Hs as [Ht Hs]; [|by constructor..].
  apply mass_inj in Hs; [|done..]. unfold tx_fields. congruence.
Qed.

Lemma write_excluded_inputs l : concat (map (write_input EXCLUDE_BOTH) l) = concat (map write_core (map input_core l)).
Proof. induction l as [|i l IH]; [done|]. cbn [map concat]. by rewrite IH. Qed.
Lemma input_core_wf l : Forall input_wf l ->
  Forall (fun c : TransactionOutpoint * u64 => outpoint_wf c.1 /\ inW 64 c.2) (map input_core l).
Proof. intros Hs. apply Forall_fmap. eapply Forall_impl; [exact Hs|]. intros i (?&?&?&?). done. Qed.

Lemma write_excluded_inj x y : tx_wf x -> tx_wf y ->
  write_transaction x EXCLUDE_BOTH = write_transaction y EXCLUDE_BOTH -> tx_core x = tx_core y.
Proof.
  intros Hx Hy Hs. rewrite !write_transaction_split, !write_excluded_inputs in Hs.
  pose proof (input_core_wf _ (wf_input _ Hx)). pose proof (input_core_wf _ (wf_input _ Hy)).
  destruct Hx as [], Hy as []. peel Hs.
  assert (forall t : Transaction, zlen (inputs t) = zlen (map input_core (inputs t))) as Hz
    by (intros; unfold zlen; by rewrite length_map).
  rewrite (Hz x), (Hz y) in Hs.
  apply (sd_vec_app _ _ sd_write_core) in Hs as [Hi Hs]; [|by rewrite <- Hz..|done|done].
  apply write_tail_inj in Hs as [Ht _]; [|by constructor..]. unfold tx_core. congruence.
Qed.

(** An id cannot be shared by a coinbase without inputs and a transaction of
    another kind: the encodings part at the number of inputs or, when neither
    has inputs, at the subnetwork. *)
Lemma write_mixed_neq x y : tx_wf x -> tx_wf y -> inputs x = [] ->
  subnetwork_id x <> subnetwork_id y -> write_transaction x FULL <> write_transaction y EXCLUDE_BOTH.
Proof.
  intros Hx Hy Hin Hsub Hs. rewrite !write_transaction_split, write_excluded_inputs in Hs.
  pose proof Hx as []. pose proof Hy as []. peel Hs. rewrite Hin in Hs. cbn [map concat] in Hs.
  apply (sd_digits 8 64 eq_refl) in Hs as [Hl Hs]; [|done..].
  assert (inputs y = []) as Hiny by (destruct (inputs y); [done|unfold zlen in Hl; simpl in Hl; lia]).
  rewrite Hiny in Hs. cbn [map concat] in Hs. rewrite !app_nil_l in Hs.
  apply write_tail_inj in Hs as [Ht _]; [|done..]. unfold tx_tail in Ht. congruence.
Qed.

Section commitments.
Context `{HB : Blake2b}.

(** Transaction hashes and ids are commitments.  Two transactions with the
    same [hash] agree in every field, the mass included; two transactions with
    the same [id] agree in every field but the signature scripts, the
    signature-operation counts and the mass, provided coinbase transactions
    have no inputs; otherwise a collision of the keyed Blake2b hash is at
    hand. *)
Theorem tx_commitments x y : tx_wf x -> tx_wf y ->
  (tx_hash x = tx_hash y -> tx_fields x = tx_fields y \/ collision 32 TransactionHash) /\
  ((is_coinbase x = true -> inputs x = []) -> (is_coinbase y = true -> inputs y = []) ->
   calc_id x = calc_id y -> tx_core x = tx_core y \/ collision 32 TransactionID).
Proof using Type*.
  intros Hx Hy. split.
  - intros [Hs|Hc]%finalize_eq; [left; by apply write_full_inj|by right].
  - intros Hcx Hcy [Hs|Hc]%finalize_eq; [left|by right]. unfold id_flags in Hs.
    change (Z.lor _ _) with EXCLUDE_BOTH in Hs. unfold is_coinbase in *.
    case_bool_decide as H1; case_bool_decide as H2.
    + apply write_full_inj in Hs; [|done..]. unfold tx_fields, tx_core in *. congruence.
    + exfalso. apply (write_mixed_neq x y); [done..|by apply Hcx|congruence|done].
    + exfalso. apply (write_mixed_neq y x); [done..|by apply Hcy|congruence|done].
    + by apply write_excluded_inj.
Qed.
End commitments.

(** Two transactions that differ in the mass only. *)
Definition sample_tx (m : u64) : Transaction := {|
  version := 0;
  inputs := [{| previous_outpoint := {| transaction_id := 7; index := 1 |};
                signature_script := [1; 2]; sequence := 5; sig_op_count := 1 |}];
  outputs := [{| value := 1564; out_script_public_key := {| spk_version := 0; spk_script := [3; 4; 5] |} |}];
  lock_time := 0; subnetwork_id := SUBNETWORK_ID_NATIVE; gas := 0; payload := []; mass := m; id := 0 |}.
Lemma sample_tx_wf m : inW 64 m -> tx_wf (sample_tx m).
Proof.
  intros Hm. constructor; try done; try (unfold inW, zlen; simpl; lia);
    repeat constructor; unfold outpoint_wf, input_wf, spk_wf, inW, zlen; simpl; lia.
Qed.
Lemma sample_same_id : calc_id (HB:=toy_blake2b) (sample_tx 0) = calc_id (HB:=toy_blake2b) (sample_tx 9).
Proof. unfold calc_id. f_equal. Qed.
Lemma tx_commitments_witness :
  tx_core (sample_tx 0) = tx_core (sample_tx 9) \/ collision (H:=toy_blake2b) 32 TransactionID.
Proof.
  assert (inW 64 0 /\ inW 64 9) as [H0 H9] by (unfold inW; lia).
  refine (proj2 (tx_commitments (HB:=toy_blake2b) (sample_tx 0) (sample_tx 9)
    (sample_tx_wf 0 H0) (sample_tx_wf 9 H9)) _ _ sample_same_id); intros Hc; discriminate Hc.
Defined.

(** ** Reused values *)
Section reused.
Context `{HB : Blake2b}.
Implicit Types (tx : Transaction) (v : SigHashReusedValues) (t : u8).

(** The digests the cells hold for a transaction. *)
Definition prev_digest tx : Hash :=
  finalize TransactionSigningHash (concat (map (fun i => hash_outpoint (previous_outpoint i)) (inputs tx))).
Definition seq_digest tx : Hash :=
  finalize TransactionSigningHash (concat (map (fun i => write_u64 (sequence i)) (inputs tx))).
Definition ops_digest tx : Hash :=
  finalize TransactionSigningHash (concat (map (fun i => write_u8 (sig_op_count i)) (inputs tx))).
Definition out_digest tx : Hash := finalize TransactionSigningHash (concat (map hash_output (outputs tx))).
Definition pay_digest tx : Hash := finalize TransactionSigningHash (write_var_bytes (payload tx)).

Definition holds (cell : option Hash) (h : Hash) : Prop := cell = None \/ cell = Some h.
Record reused_ok tx v : Prop := {
  ok_prev : holds (r_previous_outputs_hash v) (prev_digest tx);
  ok_seq : holds (r_sequences_hash v) (seq_digest tx);
  ok_ops : holds (r_sig_op_counts_hash v) (ops_digest tx);
  ok_out : holds (r_outputs_hash v) (out_digest tx);
  ok_pay : holds (r_payload_hash v) (pay_digest tx);
}.
Lemma reused_default_ok tx : reused_ok tx reused_default.
Proof. constructor; by left. Qed.

Lemma cell_get_holds c h : holds c h -> cell_get c h = h.
Proof. by intros [-> | ->]. Qed.

(** Each field of the signature hash as a function of the transaction alone. *)
Definition prev_field tx t : Hash := if is_sighash_anyone_can_pay t then ZERO_HASH else prev_digest tx.
Definition seq_field tx t : Hash :=
  if is_sighash_single t || is_sighash_anyone_can_pay t || is_sighash_none t then ZERO_HASH else seq_digest tx.
Definition ops_field tx t : Hash := if is_sighash_anyone_can_pay t then ZERO_HASH else ops_digest tx.
Definition pay_field tx : Hash :=
  if is_native (subnetwork_id tx) && bool_decide (payload tx = []) then ZERO_HASH else pay_digest tx.
Definition out_field tx t (i : nat) : Hash :=
  if is_sighash_none t then ZERO_HASH else
  if is_sighash_single t then
    match outputs tx !! i with None => ZERO_HASH | Some o => finalize TransactionSigningHash (hash_output o) end
  else out_digest tx.

Lemma previous_outputs_hash_ok tx t v : reused_ok tx v ->
  exists v', previous_outputs_hash tx t v = (prev_field tx t, v') /\ reused_ok tx v'.
Proof.
  intros Hv. unfold previous_outputs_hash, prev_field. destruct (is_sighash_anyone_can_pay t); [by eexists|].
  unfold reuse_previous_outputs. fold (prev_digest tx). destruct Hv. rewrite cell_get_holds by done.
  eexists. split; [done|]. constructor; [by right|done..].
Qed.
Lemma sequences_hash_ok tx t v : reused_ok tx v ->
  exists v', sequences_hash tx t v = (seq_field tx t, v') /\ reused_ok tx v'.
Proof.
  intros Hv. unfold sequences_hash, seq_field. destruct (_ || _ || _); [by eexists|].
  unfold reuse_sequences. fold (seq_digest tx). destruct Hv. rewrite cell_get_holds by done.
  eexists. split; [done|]. constructor; [done|by right|done..].
Qed.
Lemma sig_op_counts_hash_ok tx t v : reused_ok tx v ->
  exists v', sig_op_counts_hash tx t v = (ops_field tx t, v') /\ reused_ok tx v'.
Proof.
  intros Hv. unfold sig_op_counts_hash, ops_field. destruct (is_sighash_anyone_can_pay t); [by eexists|].
  unfold reuse_sig_op_counts. fold (ops_digest tx). destruct Hv. rewrite cell_get_holds by done.
  eexists. split; [done|]. constructor; [done|done|by right|done..].
Qed.
Lemma outputs_hash_ok tx t v i : reused_ok tx v ->
  exists v', outputs_hash tx t v i = (out_field tx t i, v') /\ reused_ok tx v'.
Proof.
  intros Hv. unfold outputs_hash, out_field. destruct (is_sighash_none t); [by eexists|].
  destruct (is_sighash_single t); [destruct (outputs tx !! i); by eexists|].
  unfold reuse_outputs. fold (out_digest tx). destruct Hv. rewrite cell_get_holds by done.
  eexists. split; [done|]. constructor; [done..|by right|done].
Qed.
Lemma payload_hash_ok tx v : reused_ok tx v ->
  exists v', payload_hash tx v = (pay_field tx, v') /\ reused_ok tx v'.
Proof.
  intros Hv. unfold payload_hash, pay_field. destruct (_ && _); [by eexists|].
  unfold reuse_payload. fold (pay_digest tx). destruct Hv. rewrite cell_get_holds by done.
  eexists. split; [done|]. constructor; [done..|by right].
Qed.

(** The bytes that are signed. *)
Definition sighash_message tx inp ent t (i : nat) : bytes :=
  write_u16 (version tx) ++ as_bytes (prev_field tx t) ++ as_bytes (seq_field tx t) ++ as_bytes (ops_field tx t) ++
  hash_outpoint (previous_outpoint inp) ++ hash_script_public_key (script_public_key ent) ++
  write_u64 (amount ent) ++ write_u64 (sequence inp) ++ write_u8 (sig_op_count inp) ++
  as_bytes (out_field tx t i) ++ write_u64 (lock_time tx) ++ subnetwork_id tx ++ write_u64 (gas tx) ++
  as_bytes (pay_field tx) ++ write_u8 t.

Lemma calc_signature_hash_ok {E} p i t v inp ent :
  reused_ok (ptx p) v -> inputs (ptx p) !! i = Some inp -> entries p !! i = Some ent ->
  exists v', calc_signature_hash (E:=E) p i t v =
    Ok (finalize TransactionSigningHash (sighash_message (ptx p) inp ent t i), v') /\ reused_ok (ptx p) v'.
Proof.
  intros Hv Hi He. unfold calc_signature_hash. rewrite (populated_input_ok _ _ inp ent) by done.
  cbn [mbind res_bind].
  destruct (previous_outputs_hash_ok (ptx p) t v Hv) as (v1 & -> & H1).
  destruct (sequences_hash_ok (ptx p) t v1 H1) as (v2 & -> & H2).
  destruct (sig_op_counts_hash_ok (ptx p) t v2 H2) as (v3 & -> & H3).
  destruct (outputs_hash_ok (ptx p) t v3 i H3) as (v4 & -> & H4).
  destruct (payload_hash_ok (ptx p) v4 H4) as (v5 & -> & H5).
  exists v5. done.
Qed.

(** Signing hashes for a list of (input, type) queries on one transaction,
    sharing the reused values as the script engines of its inputs do. *)
Fixpoint sighash_all {E} (p : PopulatedTransaction) (queries : list (nat * u8)) v : res E (list Hash) :=
  match queries with
  | [] => Ok []
  | (i, t) :: qs =>
      '(h, v) ← calc_signature_hash p i t v;
      hs ← sighash_all p qs v;
      Ok (h :: hs)
  end.

(** C32. Reusing the intermediate hashes between the inputs of a transaction
    does not change any signature hash: a sequence of calls that shares the
    reused values, in any order and with any mix of hash types, returns for
    each input and type what a call with empty reused values returns. *)
Theorem sighash_reuse_equiv p qs :
  length (entries p) = length (inputs (ptx p)) ->
  Forall (fun q : nat * u8 => (q.1 < length (inputs (ptx p)))%nat) qs ->
  exists hs, sighash_all (E:=unit) p qs reused_default = Ok hs /\
    Forall2 (fun q h => exists v, calc_signature_hash (E:=unit) p q.1 q.2 reused_default = Ok (h, v)) qs hs.
Proof using Type*.
  intros Hlen. pose proof (reused_default_ok (ptx p)) as Hd. revert Hd. generalize reused_default at 1 2 as v.
  induction qs as [|[i t] qs IH]; intros v Hv Hqs; [by exists []|].
  apply Forall_cons in Hqs as [Hi Hqs]. simpl in Hi.
  destruct (lookup_lt_is_Some_2 (inputs (ptx p)) i Hi) as [inp Hinp].
  destruct (lookup_lt_is_Some_2 (entries p) i) as [ent Hent]; [by rewrite Hlen|].
  destruct (calc_signature_hash_ok (E:=unit) p i t v inp ent Hv Hinp Hent) as (v' & Hc & Hv').
  destruct (IH v' Hv' Hqs) as (hs & Hall & Hhs). simpl. rewrite Hc. cbn [mbind res_bind]. rewrite Hall.
  eexists. split; [reflexivity|]. constructor; [|done]. simpl.
  destruct (calc_signature_hash_ok (E:=unit) p i t reused_default inp ent) as (v'' & Hc' & _);
    [apply reused_default_ok|done..|]. by exists v''.
Qed.
End reused.

(** ** What a signature commits to *)
Section sighash_commits.
Context `{HB : Blake2b}.
Implicit Types (tx : Transaction) (t : u8).

Definition entry_wf (e : UtxoEntry) : Prop := inW 64 (amount e) /\ spk_wf (script_public_key e).
Definition broken : Prop := collision 32 TransactionSigningHash \/ zero_digest 32 TransactionSigningHash.

(** The parts selected by the hash type. *)
Definition signed_outpoints tx t : option (list TransactionOutpoint) :=
  if is_sighash_anyone_can_pay t then None else Some (map previous_outpoint (inputs tx)).
Definition signed_sequences tx t : option (list u64) :=
  if is_sighash_single t || is_sighash_anyone_can_pay t || is_sighash_none t then None else Some (map sequence (inputs tx)).
Definition signed_sig_ops tx t : option (list u8) :=
  if is_sighash_anyone_can_pay t then None else Some (map sig_op_count (inputs tx)).
Definition signed_outputs tx t (i : nat) : option (list TransactionOutput) :=
  if is_sighash_none t then None else
  if is_sighash_single t then Some (option_list (outputs tx !! i)) else Some (outputs tx).
Definition committed tx inp ent t (i : nat) :=
  (t, version tx, signed_outpoints tx t, signed_sequences tx t, signed_sig_ops tx t,
   previous_outpoint inp, script_public_key ent, amount ent, sequence inp, sig_op_count inp,
   signed_outputs tx t i, lock_time tx, subnetwork_id tx, gas tx, payload tx).

Lemma sd_hash_output : self_delimiting output_wf hash_output.
Proof. exact sd_write_output. Qed.
Lemma digits_ne n z : (0 < n)%nat -> digits 256 n z <> [].
Proof. intros Hn H'. apply (f_equal length) in H'. rewrite length_digits in H'. simpl in H'. lia. Qed.
Lemma hash_outpoint_ne o : hash_outpoint o <> [].
Proof.
  unfold hash_outpoint. intros [H' _]%app_nil. unfold as_bytes in H'. apply (f_equal length) in H'.
  rewrite length_rev, length_digits in H'. done.
Qed.
Lemma hash_output_ne o : hash_output o <> [].
Proof. unfold hash_output. intros [H' _]%app_nil. by apply digits_ne in H'; [|lia]. Qed.

(** A list whose concatenated codes are hashed is determined by the digest. *)
Lemma digest_list {A} (P : A -> Prop) (enc : A -> bytes) l k :
  self_delimiting P enc -> (forall x, P x -> enc x <> []) -> Forall P l -> Forall P k ->
  finalize TransactionSigningHash (concat (map enc l)) = finalize TransactionSigningHash (concat (map enc k)) ->
  l = k \/ broken.
Proof.
  intros Hsd Hne Hl Hk [Hc|Hc]%finalize_eq; [left|right; by left]. by eapply sd_concat_end.
Qed.

Lemma map_map_concat {A B} (f : B -> bytes) (g : A -> B) l :
  concat (map (fun x => f (g x)) l) = concat (map f (map g l)).
Proof. by rewrite map_map. Qed.

Lemma inputs_fields_wf tx : tx_wf tx -> Forall outpoint_wf (map previous_outpoint (inputs tx)) /\
  Forall (inW 64) (map sequence (inputs tx)) /\ Forall (inW 8) (map sig_op_count (inputs tx)).
Proof.
  intros [_ _ H _ _ _ _ _ _ _]. split_and!; apply Forall_fmap; eapply Forall_impl;
    try exact H; by intros i (?&?&?&?).
Qed.

Lemma signed_outpoints_eq x y t : tx_wf x -> tx_wf y -> prev_field x t = prev_field y t ->
  signed_outpoints x t = signed_outpoints y t \/ broken.
Proof.
  intros (Hx & _ & _)%inputs_fields_wf (Hy & _ & _)%inputs_fields_wf. unfold prev_field, signed_outpoints.
  destruct (is_sighash_anyone_can_pay t); [by left|]. unfold prev_digest. rewrite !(map_map_concat hash_outpoint previous_outpoint). intros Hd.
  apply (digest_list outpoint_wf) in Hd as [-> |]; [by left|by right|exact sd_write_outpoint| |done..].
  intros. apply hash_outpoint_ne.
Qed.
Lemma signed_sequences_eq x y t : tx_wf x -> tx_wf y -> seq_field x t = seq_field y t ->
  signed_sequences x t = signed_sequences y t \/ broken.
Proof.
  intros (_ & Hx & _)%inputs_fields_wf (_ & Hy & _)%inputs_fields_wf. unfold seq_field, signed_sequences.
  destruct (_ || _ || _); [by left|]. unfold seq_digest. rewrite !(map_map_concat write_u64 sequence). intros Hd.
  apply (digest_list (inW 64)) in Hd as [-> |]; [by left|by right|exact sd_write_u64| |done..].
  intros. apply digits_ne. lia.
Qed.
Lemma signed_sig_ops_eq x y t : tx_wf x -> tx_wf y -> ops_field x t = ops_field y t ->
  signed_sig_ops x t = signed_sig_ops y t \/ broken.
Proof.
  intros (_ & _ & Hx)%inputs_fields_wf (_ & _ & Hy)%inputs_fields_wf. unfold ops_field, signed_sig_ops.
  destruct (is_sighash_anyone_can_pay t); [by left|]. unfold ops_digest. rewrite !(map_map_concat write_u8 sig_op_count). intros Hd.
  apply (digest_list (inW 8)) in Hd as [-> |]; [by left|by right|exact sd_write_u8| |done..].
  intros. apply digits_ne. lia.
Qed.
Lemma signed_outputs_eq x y t i j : tx_wf x -> tx_wf y -> out_field x t i = out_field y t j ->
  signed_outputs x t i = signed_outputs y t j \/ broken.
Proof.
  intros Hx%wf_output Hy%wf_output. unfold out_field, signed_outputs.
  destruct (is_sighash_none t); [by left|]. destruct (is_sighash_single t); simpl.
  - destruct (outputs x !! i) as [o|] eqn:Ho, (outputs y !! j) as [o'|] eqn:Ho'; simpl; [| | |by left].
    + intros [Hd|Hd]%finalize_eq; [left|right; by left].
      apply (sd_eq _ _ _ _ sd_hash_output) in Hd as ->; [done|exact (Forall_lookup_1 _ _ _ _ Hx Ho)|exact (Forall_lookup_1 _ _ _ _ Hy Ho')].
    + intros Hd%finalize_zero. right. by right.
    + intros Hd%symmetry%finalize_zero. right. by right.
  - intros Hd. apply (digest_list output_wf) in Hd as [-> |]; [by left|by right|exact sd_hash_output| |done..].
    intros. apply hash_output_ne.
Qed.
Lemma signed_payload_eq x y : tx_wf x -> tx_wf y -> subnetwork_id x = subnetwork_id y ->
  pay_field x = pay_field y -> payload x = payload y \/ broken.
Proof.
  intros Hx%wf_payload Hy%wf_payload Hsub. unfold pay_field. rewrite Hsub.
  destruct (is_native (subnetwork_id y)); simpl; [repeat case_bool_decide|].
  - left. congruence.
  - intros Hd%symmetry%finalize_zero. right. by right.
  - intros Hd%finalize_zero. right. by right.
  - intros [Hd|Hd]%finalize_eq; [left; by apply (sd_eq _ _ _ _ sd_write_var_bytes) in Hd|right; by left].
  - intros [Hd|Hd]%finalize_eq; [left; by apply (sd_eq _ _ _ _ sd_write_var_bytes) in Hd|right; by left].
Qed.

Lemma zero_hash_range : inW 256 ZERO_HASH.
Proof. unfold inW, ZERO_HASH. lia. Qed.
Lemma fields_range tx t i : inW 256 (prev_field tx t) /\ inW 256 (seq_field tx t) /\ inW 256 (ops_field tx t) /\
  inW 256 (out_field tx t i) /\ inW 256 (pay_field tx).
Proof.
  unfold prev_field, seq_field, ops_field, out_field, pay_field. split_and!; repeat case_match;
    first [exact zero_hash_range | apply finalize_range].
Qed.

Lemma sighash_message_inj x y inp inp' ent ent' t t' i j :
  tx_wf x -> tx_wf y -> input_wf inp -> input_wf inp' -> entry_wf ent -> entry_wf ent' -> inW 8 t -> inW 8 t' ->
  sighash_message x inp ent t i = sighash_message y inp' ent' t' j ->
  (t, version x, prev_field x t, seq_field x t, ops_field x t, previous_outpoint inp, script_public_key ent,
   amount ent, sequence inp, sig_op_count inp, out_field x t i, lock_time x, subnetwork_id x, gas x, pay_field x) =
  (t', version y, prev_field y t', seq_field y t', ops_field y t', previous_outpoint inp', script_public_key ent',
   amount ent', sequence inp', sig_op_count inp', out_field y t' j, lock_time y, subnetwork_id y, gas y, pay_field y).
Proof.
  intros [] [] (?&?&?&?) (?&?&?&?) [] [] Ht Ht' Hs. unfold sighash_message in Hs.
  destruct (fields_range x t i) as (?&?&?&?&?), (fields_range y t' j) as (?&?&?&?&?).
  rewrite <- (app_nil_r (write_u8 t)), <- (app_nil_r (write_u8 t')) in Hs.
  do 4 peel Hs. apply sd_write_outpoint in Hs as [Ho Hs]; [|done..]. apply sd_spk in Hs as [Hspk Hs]; [|done..].
  do 5 peel Hs. apply app_inj_1 in Hs as [Hsub Hs]; [|congruence]. do 3 peel Hs. congruence.
Qed.

End sighash_commits.

Definition sample_entry : UtxoEntry := {|
  amount := 2000; script_public_key := {| spk_version := 0; spk_script := [1] |};
  block_daa_score := 3; is_coinbase_entry := false |}.
Definition sample_populated (m : u64) : PopulatedTransaction := {| ptx := sample_tx m; entries := [sample_entry] |}.
Definition sample_input : TransactionInput := {|
  previous_outpoint := {| transaction_id := 7; index := 1 |};
  signature_script := [1; 2]; sequence := 5; sig_op_count := 1 |}.
Lemma sighash_reuse_equiv_witness :
  exists hs, sighash_all (HB:=toy_blake2b) (E:=unit) (sample_populated 0) [(0%nat, SIG_HASH_ALL); (0%nat, SIG_HASH_SINGLE)]
      reused_default = Ok hs /\
    Forall2 (fun q h => exists v, calc_signature_hash (HB:=toy_blake2b) (E:=unit) (sample_populated 0) q.1 q.2 reused_default = Ok (h, v))
      [(0%nat, SIG_HASH_ALL); (0%nat, SIG_HASH_SINGLE)] hs.
Proof.
  apply (sighash_reuse_equiv (HB:=toy_blake2b) (sample_populated 0)); [exact eq_refl|].
  repeat constructor; simpl; lia.
Defined.
Definition sample_digest `{HB : Blake2b} : Hash :=
  finalize TransactionSigningHash (sighash_message (sample_tx 0) sample_input sample_entry SIG_HASH_ALL 0).
Lemma sample_sighash `{HB : Blake2b} m :
  fst <$> calc_signature_hash (E:=unit) (sample_populated m) 0 SIG_HASH_ALL reused_default = Ok sample_digest.
Proof.
  destruct (calc_signature_hash_ok (E:=unit) (sample_populated m) 0 SIG_HASH_ALL reused_default
    sample_input sample_entry (reused_default_ok _) eq_refl eq_refl) as (v & -> & _). reflexivity.
Qed.
