(* ===== verification/Header.v ===== *)
(** * Block headers

    [CompressedParents] and [Header] of [consensus/core/src/header.rs], the
    run-length helpers of [utils/src/iter.rs] and the header hash of
    [consensus/core/src/hashing/header.rs].

    - a sequence of parent levels has exactly one compressed form, and the
      accessors of the compressed form agree with the expanded sequence;
    - the conversion from raw runs accepts a first run that covers no level,
      on which expansion, hence hashing, panics;
    - the header hash commits to every field of the header. *)
From S2P Require Import Prelude Search Encode.

(** ** Compressed parents *)

(** Runs [(cum_count, parents)]. *)
Abbreviation CompressedParents := (list (u8 * list Hash)) (only parsing).
Inductive CompressedParentsError := LevelsExceeded | LevelsNotStrictlyIncreasing | NotFullyCompressed.
Implicit Types (p : CompressedParents) (ls : list (list Hash)) (v : list Hash).

Definition expanded_len p : usize := match last p with Some (cum, _) => cum | None => 0 end.
Definition cp_get {E} p (index : usize) : res E (option (list Hash)) :=
  if expanded_len p <=? index then Ok None else
  if index =? 0 then r ← unwrap (p !! 0%nat); Ok (Some r.2) else
  i ← partition_point (fun r : u8 * list Hash => c ← u64_sub r.1 1; Ok (c <? index)) p;
  r ← unwrap (p !! i); Ok (Some r.2).
(** [expand_rle] panics unless the cumulative counts increase strictly from
    [prev], initially 0. *)
Fixpoint expand_rle {E} (prev : usize) p : res E (list (list Hash)) :=
  match p with
  | [] => Ok []
  | (cum, item) :: p =>
      if cum <=? prev then Panic else
      rest ← expand_rle cum p;
      Ok (replicate (Z.to_nat (cum - prev)) item ++ rest)
  end.
Definition expanded_iter {E} p : res E (list (list Hash)) := expand_rle 0 p.

(** [Vec::push] on the vector of runs, or an increment of the last count. *)
Definition cp_push {E} p v : res E CompressedParents :=
  match last p with
  | Some (count, last_parents) =>
      if decide (last_parents = v)
      then c ← chk 8 (count + 1); Ok (take (length p - 1) p ++ [(c, last_parents)])
      else c ← chk 8 (count + 1); Ok (p ++ [(c, v)])
  | None => Ok (p ++ [(1, v)])
  end.

(** [dedup_with_count]: the runs of equal consecutive elements. *)
Fixpoint dedup_with_count ls : list (nat * list Hash) :=
  match ls with
  | [] => []
  | v :: ls =>
      match dedup_with_count ls with
      | (n, w) :: rest => if decide (v = w) then (S n, w) :: rest else (1%nat, v) :: (n, w) :: rest
      | [] => [(1%nat, v)]
      end
  end.
Fixpoint cumulative (acc : usize) (l : list (nat * list Hash)) : CompressedParents :=
  match l with
  | [] => []
  | (count, v) :: l => (acc + Z.of_nat count, v) :: cumulative (acc + Z.of_nat count) l
  end.
Definition rle_cumulative ls : CompressedParents := cumulative 0 (dedup_with_count ls).

Definition try_from_levels ls : res CompressedParentsError CompressedParents :=
  if 255 <? zlen ls then Err LevelsExceeded else
  Ok (map (fun r : usize * list Hash => (wrap 8 r.1, r.2)) (rle_cumulative ls)).
Fixpoint check_runs p : res CompressedParentsError unit :=
  match p with
  | (last_cumulative_level, last_parents) :: (((cumulative_level, parents) :: _) as rest) =>
      _ ← fail_if (cumulative_level <=? last_cumulative_level) LevelsNotStrictlyIncreasing;
      _ ← fail_if (bool_decide (last_parents = parents)) NotFullyCompressed;
      check_runs rest
  | _ => Ok tt
  end.
Definition try_from_runs p : res CompressedParentsError CompressedParents := _ ← check_runs p; Ok p.
Definition set_direct_parents {E} p (direct_parents : list Hash) : res E CompressedParents :=
  match p with
  | [] => Ok [(1, direct_parents)]
  | _ =>
      parents ← expand_rle 0 p;
      _ ← rassert (0 <? zlen parents);
      match try_from_levels (<[0%nat := direct_parents]> parents) with Ok p => Ok p | _ => Panic end
  end.

(** ** Headers *)
Record Header := mkHeader {
  h_hash : Hash;
  h_version : u16;
  parents_by_level : CompressedParents;
  hash_merkle_root : MerkleHash;
  accepted_id_merkle_root : MerkleHash;
  utxo_commitment : Hash;
  h_timestamp : u64;
  h_bits : u32;
  h_nonce : u64;
  h_daa_score : u64;
  h_blue_work : Z;
  h_blue_score : u64;
  pruning_point : Hash;
}.
Definition direct_parents {E} (h : Header) : res E (list Hash) :=
  o ← cp_get (parents_by_level h) 0; Ok (default [] o).

Section hash.
Context `{HB : Blake2b}.

Definition hash_override_nonce_time {E} (header : Header) (nonce timestamp : u64) : res E Hash :=
  levels ← expanded_iter (parents_by_level header);
  Ok (finalize BlockHash
       (write_u16 (h_version header) ++ write_len (expanded_len (parents_by_level header)) ++
        concat (map (fun level => write_var_array (map as_bytes level)) levels) ++
        merkle_as_bytes (hash_merkle_root header) ++ merkle_as_bytes (accepted_id_merkle_root header) ++
        as_bytes (utxo_commitment header) ++ write_u64 timestamp ++ write_u32 (h_bits header) ++ write_u64 nonce ++
        write_u64 (h_daa_score header) ++ write_u64 (h_blue_score header) ++ write_blue_work (h_blue_work header) ++
        as_bytes (pruning_point header))).
Definition header_hash {E} (header : Header) : res E Hash :=
  hash_override_nonce_time header (h_nonce header) (h_timestamp header).
(** [finalize], and [new_finalized], which calls it on a header with the
    default hash. *)
Definition header_finalize {E} (h : Header) : res E Header :=
  hash ← header_hash h;
  Ok (mkHeader hash (h_version h) (parents_by_level h) (hash_merkle_root h) (accepted_id_merkle_root h) (utxo_commitment h)
       (h_timestamp h) (h_bits h) (h_nonce h) (h_daa_score h) (h_blue_work h) (h_blue_score h) (pruning_point h)).
Definition new_finalized {E} (version : u16) (parents : CompressedParents) (hash_merkle_root accepted_id_merkle_root : MerkleHash)
    (utxo_commitment : Hash) (timestamp : u64) (bits : u32) (nonce daa_score : u64) (blue_work : Z) (blue_score : u64)
    (pruning_point : Hash) : res E Header :=
  header_finalize (mkHeader ZERO_HASH version parents hash_merkle_root accepted_id_merkle_root utxo_commitment timestamp bits
    nonce daa_score blue_work blue_score pruning_point).
End hash.

(** ** The compressed form is canonical *)

(** Counts increase strictly from [prev] and neighbouring runs differ, the
    first from [pv]. *)
Fixpoint runs_ok (prev : Z) (pv : option (list Hash)) p : Prop :=
  match p with
  | [] => True
  | (c, v) :: p => prev < c /\ pv <> Some v /\ runs_ok c (Some v) p
  end.
Definition last_cum (prev : Z) p : Z := match last p with Some (c, _) => c | None => prev end.

Lemma last_cum_cons prev c v p : last_cum prev ((c, v) :: p) = last_cum c p.
Proof.
  unfold last_cum. destruct p as [|r p]; [done|]. rewrite last_cons_cons.
  destruct (last (r :: p)) as [[c' v']|] eqn:Hl; [done|]. by apply last_None in Hl.
Qed.
Lemma last_cum_snoc prev p c v : last_cum prev (p ++ [(c, v)]) = c.
Proof. unfold last_cum. by rewrite last_snoc. Qed.

(** Expansion of well-formed runs. *)
Lemma expand_total {E} prev pv p : runs_ok prev pv p ->
  exists ls, expand_rle (E:=E) prev p = Ok ls /\ zlen ls = last_cum prev p - prev.
Proof.
  revert prev pv. induction p as [|[c v] p IH]; intros prev pv Hp; cbn [expand_rle].
  { exists []. split; [done|]. unfold last_cum, zlen. simpl. lia. }
  destruct Hp as (Hc & _ & Hp). destruct (IH _ _ Hp) as (ls & Hls & Hlen).
  rewrite (proj2 (Z.leb_gt c prev)), Hls by lia. cbn [mbind res_bind]. eexists. split; [done|].
  rewrite zlen_app, last_cum_cons, Hlen. unfold zlen. rewrite length_replicate. lia.
Qed.

Lemma expand_inv {E} prev c v p ls : expand_rle (E:=E) prev ((c, v) :: p) = Ok ls ->
  prev < c /\ exists rest, expand_rle (E:=E) c p = Ok rest /\ ls = replicate (Z.to_nat (c - prev)) v ++ rest.
Proof.
  cbn [expand_rle]. destruct (Z.leb_spec c prev); [done|]. intros H'. bind_inv H'. injection H' as <-. eauto.
Qed.

Lemma dedup_replicate n v ls : head ls <> Some v ->
  dedup_with_count (replicate (S n) v ++ ls) = (S n, v) :: dedup_with_count ls.
Proof.
  intros Hh. induction n as [|n IH].
  - simpl. destruct ls as [|w ls]; [done|]. simpl in *.
    destruct (dedup_with_count ls) as [|[k u] rest]; simpl; [|destruct (decide (w = u)) as [->|]];
      rewrite decide_False by congruence; done.
  - change (replicate (S (S n)) v ++ ls) with (v :: (replicate (S n) v ++ ls)). cbn [dedup_with_count].
    rewrite IH. by rewrite decide_True.
Qed.

(** The expansion determines the runs. *)
Lemma runs_unique prev pv p ls : runs_ok prev pv p -> expand_rle (E:=unit) prev p = Ok ls ->
  p = cumulative prev (dedup_with_count ls) /\ (forall v, head ls = Some v -> pv <> Some v).
Proof.
  revert prev pv ls. induction p as [|[c v] p IH]; intros prev pv ls Hp He.
  { injection He as <-. done. }
  destruct Hp as (Hc & Hv & Hp). apply expand_inv in He as (_ & rest & He & ->).
  destruct (IH _ _ _ Hp He) as [-> Hh].
  assert (Z.to_nat (c - prev) = S (Z.to_nat (c - prev - 1))) as Hn by lia. rewrite Hn.
  split; [|by intros w [= <-]]. rewrite dedup_replicate by (intros Hr; by apply (Hh v)).
  cbn [cumulative]. by replace (prev + Z.of_nat (S (Z.to_nat (c - prev - 1)))) with c by lia.
Qed.

(** Every sequence has a compressed form. *)
Fixpoint counts_ok (pv : option (list Hash)) (d : list (nat * list Hash)) : Prop :=
  match d with
  | [] => True
  | (n, v) :: d => (0 < n)%nat /\ pv <> Some v /\ counts_ok (Some v) d
  end.
Definition flatten (d : list (nat * list Hash)) : list (list Hash) :=
  concat (map (fun r : nat * list Hash => replicate r.1 r.2) d).
Lemma dedup_ok ls : counts_ok None (dedup_with_count ls) /\ flatten (dedup_with_count ls) = ls.
Proof.
  induction ls as [|v ls [IH1 IH2]]; [done|]. cbn [dedup_with_count].
  destruct (dedup_with_count ls) as [|[n w] d]; [simpl in *; split; [split_and!; [lia|done|done]|by rewrite <- IH2]|].
  destruct IH1 as (Hn & _ & Hd). destruct (decide (v = w)) as [->|Hne].
  - split; [split_and!; [lia|done|done]|]. by rewrite <- IH2.
  - split; [simpl; split_and!; [lia|done|lia|congruence|done]|]. by rewrite <- IH2.
Qed.
Lemma cumulative_ok {E} acc pv d : counts_ok pv d ->
  runs_ok acc pv (cumulative acc d) /\ expand_rle (E:=E) acc (cumulative acc d) = Ok (flatten d).
Proof.
  revert acc pv. induction d as [|[n v] d IH]; intros acc pv Hd; [done|]. destruct Hd as (Hn & Hv & Hd).
  destruct (IH (acc + Z.of_nat n) (Some v) Hd) as [IH1 IH2]. split; [split_and!; [lia|done|done]|].
  cbn [cumulative expand_rle]. rewrite (proj2 (Z.leb_gt _ acc)), IH2 by lia. cbn [mbind res_bind].
  unfold flatten. cbn [map concat fst snd]. do 3 f_equal. lia.
Qed.
Lemma rle_cumulative_ok {E} ls : runs_ok 0 None (rle_cumulative ls) /\ expanded_iter (E:=E) (rle_cumulative ls) = Ok ls.
Proof.
  destruct (dedup_ok ls) as [H1 H2]. destruct (cumulative_ok (E:=E) 0 None _ H1) as [H3 H4].
  rewrite H2 in H4. done.
Qed.
Lemma rle_cumulative_len ls : expanded_len (rle_cumulative ls) = zlen ls.
Proof.
  destruct (rle_cumulative_ok (E:=unit) ls) as [H1 H2]. destruct (expand_total (E:=unit) 0 None _ H1) as (k & H3 & H4).
  unfold expanded_iter in H2. rewrite H2 in H3. injection H3 as <-. unfold last_cum in H4. unfold expanded_len. lia.
Qed.

(** Counts are bounded by the last one. *)
Lemma runs_bounds prev pv p : runs_ok prev pv p ->
  prev <= last_cum prev p /\ Forall (fun r : u8 * list Hash => prev < r.1 <= last_cum prev p) p.
Proof.
  revert prev pv. induction p as [|[c v] p IH]; intros prev pv Hp; [unfold last_cum; simpl; split; [lia|done]|].
  destruct Hp as (Hc & _ & Hp). destruct (IH _ _ Hp) as [H1 H2]. rewrite last_cum_cons.
  split; [lia|]. constructor; [simpl; lia|]. eapply Forall_impl; [exact H2|]. simpl. intros r Hr. lia.
Qed.
Lemma runs_sorted prev pv p i j ri rj : runs_ok prev pv p -> (i < j)%nat -> p !! i = Some ri -> p !! j = Some rj -> ri.1 < rj.1.
Proof.
  revert prev pv i j. induction p as [|[c v] p IH]; intros prev pv i j Hp Hij Hi Hj; [done|].
  destruct Hp as (Hc & _ & Hp). destruct j as [|j]; [lia|]. destruct i as [|i]; [|by eapply (IH c (Some v) i j); [|lia|..]].
  injection Hi as <-. apply runs_bounds in Hp as [_ Hp]. apply (Forall_lookup_1 _ _ _ _ Hp) in Hj. simpl in *. lia.
Qed.

(** The run containing a level. *)
Lemma expand_lookup {E} prev p ls n c v (i : Z) : expand_rle (E:=E) prev p = Ok ls -> p !! n = Some (c, v) ->
  (forall j r, (j < n)%nat -> p !! j = Some r -> r.1 <= i) -> prev <= i < c -> ls !! Z.to_nat (i - prev) = Some v.
Proof.
  revert prev ls n. induction p as [|[c0 v0] p IH]; intros prev ls n He Hn Hlo Hi; [done|].
  apply expand_inv in He as (Hc0 & rest & He & ->). destruct n as [|n].
  - injection Hn as -> ->. rewrite lookup_app_l by (rewrite length_replicate; lia).
    apply lookup_replicate_2. lia.
  - pose proof (Hlo 0%nat (c0, v0) ltac:(lia) eq_refl) as H0. simpl in H0.
    rewrite lookup_app_r by (rewrite length_replicate; lia). rewrite length_replicate.
    replace (Z.to_nat (i - prev) - Z.to_nat (c0 - prev))%nat with (Z.to_nat (i - c0)) by lia.
    apply (IH c0 rest n); [done|done| |lia]. intros j r Hj. apply (Hlo (S j)). lia.
Qed.

Lemma cp_get_ok {E} p ls i : runs_ok 0 None p -> expanded_iter (E:=unit) p = Ok ls -> 0 <= i -> last_cum 0 p < 2 ^ 64 ->
  cp_get (E:=E) p i = Ok (ls !! Z.to_nat i).
Proof.
  intros Hp He Hi Hb. destruct (runs_bounds _ _ _ Hp) as [_ Hf]. unfold cp_get.
  change (expanded_len p) with (last_cum 0 p).
  destruct (expand_total (E:=unit) 0 None p Hp) as (k & Hk & Hlen). unfold expanded_iter in He. rewrite He in Hk. injection Hk as <-.
  destruct (Z.leb_spec (last_cum 0 p) i) as [Hge|Hlt].
  { rewrite (proj2 (lookup_ge_None ls _)); [done|]. unfold zlen in Hlen. lia. }
  assert (0 < length p)%nat as Hne by (destruct p; [unfold last_cum in Hlt; simpl in *; lia|simpl; lia]).
  destruct (Z.eqb_spec i 0) as [->|Hi0].
  { destruct (lookup_lt_is_Some_2 p 0 Hne) as [[c0 v0] H0]. rewrite H0. cbn [unwrap mbind res_bind snd]. f_equal. symmetry.
    apply (expand_lookup (E:=unit) 0 p ls 0 c0 v0 0 He H0); [intros; lia|].
    apply (Forall_lookup_1 _ _ _ _ Hf) in H0. simpl in H0. lia. }
  destruct (partition_point_ok (E:=E) (fun r : u8 * list Hash => c ← u64_sub r.1 1; Ok (c <? i)) p
    (fun n => match p !! n with Some r => r.1 - 1 <? i | None => false end)) as (n & -> & Hn & Hlo & Hhi).
  - intros m r Hr. rewrite Hr. apply (Forall_lookup_1 _ _ _ _ Hf) in Hr. rewrite u64_sub_ok by (unfold inW; lia). done.
  - intros m m' Hm. destruct (lookup_lt_is_Some_2 p m) as [r Hr]; [lia|].
    destruct (lookup_lt_is_Some_2 p m') as [r' Hr']; [lia|]. rewrite Hr, Hr'.
    pose proof (runs_sorted _ _ _ m m' r r' Hp ltac:(lia) Hr Hr'). lia.
  - cbn [mbind res_bind]. destruct (lookup_lt_is_Some_2 p n) as [[c v] Hc].
    { destruct (decide (n = length p)) as [->|]; [|lia]. exfalso.
      pose proof (last_lookup p) as Hl. unfold last_cum in Hlt. rewrite Hl in Hlt.
      specialize (Hlo (Init.Nat.pred (length p)) ltac:(lia)).
      destruct (p !! Init.Nat.pred (length p)) as [[cl vl]|]; [simpl in *; lia|done]. }
    rewrite Hc. cbn [unwrap mbind res_bind snd]. f_equal. symmetry. rewrite <- (Z.sub_0_r i).
    apply (expand_lookup (E:=unit) 0 p ls n c v i He Hc).
    + intros j r Hj Hr. specialize (Hlo j Hj). rewrite Hr in Hlo. lia.
    + specialize (Hhi n ltac:(apply lookup_lt_Some in Hc; lia)). rewrite Hc in Hhi. simpl in Hhi. lia.
Qed.

(** Runs followed by one more. *)
Lemma runs_ok_snoc prev pv p c v : runs_ok prev pv (p ++ [(c, v)]) <->
  runs_ok prev pv p /\ last_cum prev p < c /\ match last p with Some r => r.2 <> v | None => pv <> Some v end.
Proof.
  revert prev pv. induction p as [|[c0 v0] p IH]; intros prev pv; cbn [app runs_ok].
  { unfold last_cum. simpl. naive_solver. }
  rewrite IH, last_cum_cons. destruct p as [|r p]; [simpl; naive_solver|]. rewrite last_cons_cons.
  destruct (last (r :: p)) eqn:Hl; [naive_solver|]. by apply last_None in Hl.
Qed.
Lemma expand_snoc {E} prev pv p c v ls : runs_ok prev pv p -> last_cum prev p < c -> expand_rle (E:=E) prev p = Ok ls ->
  expand_rle (E:=E) prev (p ++ [(c, v)]) = Ok (ls ++ replicate (Z.to_nat (c - last_cum prev p)) v).
Proof.
  revert prev pv ls. induction p as [|[c0 v0] p IH]; intros prev pv ls Hp Hc He.
  { injection He as <-. unfold last_cum in *. simpl in *. rewrite (proj2 (Z.leb_gt _ _)) by lia. simpl.
    by rewrite app_nil_r. }
  destruct Hp as (Hc0 & _ & Hp). rewrite last_cum_cons in *. apply expand_inv in He as (_ & rest & He & ->).
  cbn [app expand_rle]. rewrite (proj2 (Z.leb_gt _ _)) by lia. rewrite (IH _ _ _ Hp Hc He). cbn [mbind res_bind].
  by rewrite app_assoc.
Qed.

Lemma cp_push_ok {E} p ls v : runs_ok 0 None p -> expanded_iter (E:=unit) p = Ok ls -> last_cum 0 p < 255 ->
  cp_push (E:=E) p v = Ok (rle_cumulative (ls ++ [v])).
Proof.
  intros Hp He Hb. unfold expanded_iter in He. pose proof (runs_bounds _ _ _ Hp) as [Hlb _].
  enough (exists q, cp_push (E:=E) p v = Ok q /\ runs_ok 0 None q /\ expand_rle (E:=unit) 0 q = Ok (ls ++ [v])) as (q & -> & Hq & Heq).
  { by destruct (runs_unique _ _ _ _ Hq Heq) as [-> _]. }
  destruct (last p) as [[c w]|] eqn:Hl.
  - apply last_Some in Hl as [p0 ->]. rewrite last_cum_snoc in *. unfold cp_push. rewrite last_snoc, chk_ok by (unfold inW; lia).
    destruct (proj1 (runs_ok_snoc _ _ _ _ _) Hp) as (Hp0 & Hc & Hw).
    destruct (expand_total (E:=unit) 0 None p0 Hp0) as (l0 & He0 & _).
    rewrite (expand_snoc 0 None p0 c w l0) in He by done. injection He as <-.
    destruct (decide (w = v)) as [->|Hne]; cbn [mbind res_bind]; eexists; split; [done| |done|].
    + rewrite length_app, Nat.add_sub, take_app_length. split; [by apply runs_ok_snoc; split_and!; [|lia|]|].
      rewrite (expand_snoc 0 None p0 (c + 1) v l0) by (done || lia). rewrite <- app_assoc. do 2 f_equal.
      replace (Z.to_nat (c + 1 - last_cum 0 p0)) with (Z.to_nat (c - last_cum 0 p0) + 1)%nat by lia. apply (replicate_add _ 1).
    + split; [apply runs_ok_snoc; rewrite last_cum_snoc, last_snoc; split_and!; [done|lia|done]|].
      rewrite (expand_snoc 0 None _ (c + 1) v (l0 ++ replicate (Z.to_nat (c - last_cum 0 p0)) w));
        [|done|rewrite last_cum_snoc; lia|by apply (expand_snoc 0 None)].
      rewrite last_cum_snoc. by replace (Z.to_nat (c + 1 - c)) with 1%nat by lia.
  - apply last_None in Hl as ->. injection He as <-. unfold cp_push. simpl. eexists. done.
Qed.

Lemma try_from_levels_ok ls : zlen ls <= 255 -> try_from_levels ls = Ok (rle_cumulative ls).
Proof.
  intros Hlen. unfold try_from_levels. rewrite (proj2 (Z.ltb_ge _ _)) by lia. f_equal.
  destruct (rle_cumulative_ok (E:=unit) ls) as [Hr _]. apply runs_bounds in Hr as [_ Hf].
  change (last_cum 0 (rle_cumulative ls)) with (expanded_len (rle_cumulative ls)) in Hf. rewrite rle_cumulative_len in Hf.
  induction Hf as [|[c v] p Hc Hf IH]; [done|]. simpl in *. rewrite IH, wrap_small by (unfold inW; lia). done.
Qed.
Lemma check_runs_ok p : check_runs p = Ok tt -> forall c v, head p = Some (c, v) -> forall prev, prev < c -> runs_ok prev None p.
Proof.
  induction p as [|[c v] p IH]; intros Hp c0 v0 Hh prev Hprev; [done|]. injection Hh as <- <-.
  split_and!; [done|done|]. destruct p as [|[c' v'] p]; [done|]. cbn [check_runs] in Hp.
  destruct (Z.leb_spec c' c); [done|]. cbn [fail_if mbind res_bind] in Hp. case_bool_decide as Hv; [done|].
  cbn [fail_if mbind res_bind] in Hp. specialize (IH Hp c' v' eq_refl c ltac:(lia)) as (H1 & _ & H2).
  split_and!; [done|congruence|done].
Qed.

(** The compressed form of the parent levels is canonical and its
    accessors are those of the expanded sequence.  For every sequence of at
    most 255 levels: compression succeeds; expansion gives the sequence back;
    [expanded_len] and [get] are its length and its elements at every index;
    [push] gives the compressed form of the sequence with one more level; and
    any runs accepted by the validating conversion that expand to the sequence
    are that compressed form. *)
Theorem compressed_parents_canonical ls : zlen ls <= 255 ->
  exists p, try_from_levels ls = Ok p /\ expanded_iter (E:=unit) p = Ok ls /\ expanded_len p = zlen ls /\
    (forall i, 0 <= i -> cp_get (E:=unit) p i = Ok (ls !! Z.to_nat i)) /\
    (forall v, zlen ls < 255 -> cp_push p v = try_from_levels (ls ++ [v])) /\
    (forall q, try_from_runs q = Ok q -> expanded_iter (E:=unit) q = Ok ls -> q = p).
Proof.
  intros Hlen. exists (rle_cumulative ls). destruct (rle_cumulative_ok (E:=unit) ls) as [Hr He].
  pose proof (rle_cumulative_len ls) as Hl. split_and!; [by apply try_from_levels_ok|done|done| | |].
  - intros i Hi. apply cp_get_ok; [done..|]. unfold expanded_len in Hl. unfold last_cum. lia.
  - intros v Hv. rewrite try_from_levels_ok by (rewrite zlen_app; unfold zlen at 2; simpl; lia).
    apply cp_push_ok; [done..|]. unfold expanded_len in Hl. unfold last_cum. lia.
  - intros q Hq Heq. unfold try_from_runs in Hq. destruct (check_runs q) as [[]| | |] eqn:Hc; try done.
    destruct q as [|[c v] q]; [injection Heq as <-; done|]. pose proof Heq as Heq'.
    apply expand_inv in Heq' as [Hc0 _]. pose proof (check_runs_ok _ Hc c v eq_refl 0 Hc0) as Hro.
    apply (runs_unique 0 None); done.
Qed.
Lemma compressed_parents_canonical_witness :
  exists p, try_from_levels [[1]; [1]; [2; 3]] = Ok p /\ expanded_iter (E:=unit) p = Ok [[1]; [1]; [2; 3]] /\
    expanded_len p = zlen [[1]; [1]; [2; 3]] /\
    (forall i, 0 <= i -> cp_get (E:=unit) p i = Ok ([[1]; [1]; [2; 3]] !! Z.to_nat i)) /\
    (forall v, zlen [[1]; [1]; [2; 3]] < 255 -> cp_push p v = try_from_levels ([[1]; [1]; [2; 3]] ++ [v])) /\
    (forall q, try_from_runs q = Ok q -> expanded_iter (E:=unit) q = Ok [[1]; [1]; [2; 3]] -> q = p).
Proof. apply (compressed_parents_canonical [[1]; [1]; [2; 3]]). unfold zlen. simpl. lia. Defined.

(** The conversion from raw runs, which header messages of the peer-to-peer
    protocol go through, accepts runs whose first cumulative level is 0;
    building a header from such runs panics, whatever the other fields: the
    expansion under the header hash requires strictly increasing counts from
    zero. *)
Theorem zero_first_run_panics `{Blake2b} v p version hmr aimr uc ts bits nonce daa bw bs pp :
  check_runs ((0, v) :: p) = Ok tt ->
  try_from_runs ((0, v) :: p) = Ok ((0, v) :: p) /\
  new_finalized (E:=unit) version ((0, v) :: p) hmr aimr uc ts bits nonce daa bw bs pp = Panic.
Proof. intros Hc. unfold try_from_runs. rewrite Hc. done. Qed.
Lemma zero_first_run_panics_witness :
  try_from_runs [(0, [5]); (1, [7])] = Ok [(0, [5]); (1, [7])] /\
  new_finalized (HB:=toy_blake2b) (E:=unit) 1 [(0, [5]); (1, [7])] 0 0 0 0 0 0 0 0 0 0 = Panic.
Proof. apply (zero_first_run_panics (H:=toy_blake2b) [5] [(1, [7])]). reflexivity. Defined.

(** ** The header hash *)
Section header_hash.
Context `{HB : Blake2b}.

Definition level_wf v : Prop := inW 64 (zlen v) /\ Forall (inW 256) v.
Record header_wf (h : Header) : Prop := {
  wf_hversion : inW 16 (h_version h);
  wf_runs : runs_ok 0 None (parents_by_level h);
  wf_len : expanded_len (parents_by_level h) <= 255;
  wf_levels : Forall (fun r : u8 * list Hash => level_wf r.2) (parents_by_level h);
  wf_hmr : inW 384 (hash_merkle_root h);
  wf_aimr : inW 384 (accepted_id_merkle_root h);
  wf_uc : inW 256 (utxo_commitment h);
  wf_ts : inW 64 (h_timestamp h);
  wf_bits : inW 32 (h_bits h);
  wf_nonce : inW 64 (h_nonce h);
  wf_daa : inW 64 (h_daa_score h);
  wf_bw : inW 192 (h_blue_work h);
  wf_bs : inW 64 (h_blue_score h);
  wf_pp : inW 256 (pruning_point h);
}.

Lemma sd_level : self_delimiting level_wf (fun v => write_var_array (map as_bytes v)).
Proof.
  intros v w r s [Hv HvF] [Hw HwF] Hs. unfold write_var_array in Hs.
  assert (forall u : list Hash, zlen (map as_bytes u) = zlen u) as Hz by (intros; unfold zlen; by rewrite length_map).
  rewrite !Hz in Hs. by apply (sd_vec _ _ sd_as_bytes) in Hs.
Qed.
Lemma undigits_skip_zeros b : undigits 256 (rev (skip_zeros b)) = undigits 256 (rev b).
Proof.
  induction b as [|x b IH]; [done|]. destruct x as [|x|x]; [|done..]. cbn [skip_zeros rev]. rewrite IH, undigits_app by lia.
  cbn [undigits]. lia.
Qed.
Lemma skip_zeros_length b : (length (skip_zeros b) <= length b)%nat.
Proof. induction b as [|x b IH]; [done|]. destruct x; simpl; lia. Qed.
Lemma sd_blue_work : self_delimiting (inW 192) write_blue_work.
Proof.
  intros x y r s Hx Hy Hs. unfold write_blue_work in Hs.
  assert (forall z, inW 64 (zlen (skip_zeros (rev (digits 256 24 z))))) as Hb.
  { intros z. pose proof (skip_zeros_length (rev (digits 256 24 z))) as Hl. rewrite length_rev, length_digits in Hl.
    unfold inW, zlen. lia. }
  apply sd_write_var_bytes in Hs as [Hs ->]; [|apply Hb..]. split; [|done].
  apply (f_equal (fun b => undigits 256 (rev b))) in Hs. rewrite !undigits_skip_zeros, !rev_involutive in Hs.
  by rewrite !undigits_digits_small in Hs.
Qed.

Lemma expanded_wf prev p ls : expand_rle (E:=unit) prev p = Ok ls ->
  Forall (fun r : u8 * list Hash => level_wf r.2) p -> Forall level_wf ls.
Proof.
  revert prev ls. induction p as [|[c v] p IH]; intros prev ls He Hp; [by injection He as <-|].
  apply expand_inv in He as (_ & rest & He & ->). apply Forall_cons in Hp as [Hv Hp].
  apply Forall_app. split; [by apply Forall_replicate|by eapply IH].
Qed.

(** Every field but the cached hash. *)
Definition header_fields (h : Header) :=
  (h_version h, parents_by_level h, hash_merkle_root h, accepted_id_merkle_root h, utxo_commitment h, h_timestamp h,
   h_bits h, h_nonce h, h_daa_score h, h_blue_work h, h_blue_score h, pruning_point h).

End header_hash.

Definition sample_header (nonce : u64) : Header :=
  mkHeader 0 1 [(2, [11]); (3, [11; 12])] 21 22 23 1000 0x207fffff nonce 5 6 7 31.
Lemma sample_header_wf nonce : inW 64 nonce -> header_wf (sample_header nonce).
Proof.
  intros Hn. constructor; cbn [sample_header h_version parents_by_level hash_merkle_root accepted_id_merkle_root
    utxo_commitment h_timestamp h_bits h_nonce h_daa_score h_blue_work h_blue_score pruning_point];
    try exact Hn; try (unfold inW; lia).
  - cbn. intuition (lia || congruence).
  - unfold expanded_len. simpl. lia.
  - repeat constructor; unfold zlen; simpl; lia.
Qed.
