(* ===== verification/Merkle.v ===== *)
(** * Merkle trees and transaction inclusion proofs

    [crypto/merkle/src/lib.rs] and [consensus/core/src/merkle.rs], and the
    accessor [get_tx_merkle_proof] of [consensus/src/consensus/mod.rs].

    The code builds the tree level by level in vectors; [node] is the reference
    definition, the value of a node by level and index.  The theorems: the
    level-by-level root is the reference root, which determines the leaves; the
    proof built for a position verifies, and a proof that verifies shows the
    leaf at its position modulo the size of the tree; and the proofs the node
    serves do not verify against the root that block headers carry. *)
From S2P Require Import Prelude Tx Encode Hashing.

(** ** Roots *)
Section merkle.
Context `{HB : Blake2b}.

Definition merkle_finalize (m : bytes) : MerkleHash := from_bytes (blake2b 48 MerkleBranchHash m).
Definition merkle_hash_from_tx (l r : Hash) : MerkleHash := merkle_finalize (as_bytes l ++ as_bytes r).
Definition merkle_hash_from_node (l r : MerkleHash) : MerkleHash :=
  merkle_finalize (merkle_as_bytes l ++ merkle_as_bytes r).

(** [usize::next_power_of_two] *)
Definition next_power_of_two (n : nat) : nat := 2 ^ Nat.log2_up n.

(** Level 1: one node per pair of leaves, none past the last leaf. *)
Definition leaf_node (leaves : list Hash) (i : nat) : option MerkleHash :=
  if (length leaves <=? i)%nat then None else
  Some (merkle_hash_from_tx (nth i leaves ZERO_HASH)
         (if (i + 1 <? length leaves)%nat then nth (i + 1) leaves ZERO_HASH else ZERO_HASH)).
(** [(0..next_pot).step_by(2).map(...)] *)
Definition leaf_level (leaves : list Hash) : list (option MerkleHash) :=
  map (fun k => leaf_node leaves (2 * k)) (seq 0 (next_power_of_two (length leaves) / 2)).
(** [nodes.chunks(2).map(...)] *)
Fixpoint level_up (nodes : list (option MerkleHash)) : list (option MerkleHash) :=
  match nodes with
  | [] => []
  | [l] => [match l with None => None | Some l => Some (merkle_hash_from_node l ZERO_MERKLE_HASH) end]
  | l :: r :: nodes =>
      match l with
      | None => None
      | Some l => Some (merkle_hash_from_node l (default ZERO_MERKLE_HASH r))
      end :: level_up nodes
  end.
(** [while nodes.len() > 1] *)
Fixpoint level_loop {E} (fuel : nat) (nodes : list (option MerkleHash)) : res E (list (option MerkleHash)) :=
  match fuel with
  | O => NoFuel
  | S fuel => if (1 <? length nodes)%nat then level_loop fuel (level_up nodes) else Ok nodes
  end.
Definition calc_merkle_root {E} (leaves : list Hash) : res E MerkleHash :=
  match leaves with
  | [] => Ok ZERO_MERKLE_HASH
  | [leaf] => Ok (merkle_hash_from_tx leaf ZERO_HASH)
  | _ =>
      nodes ← level_loop (length leaves) (leaf_level leaves);
      root ← unwrap (nodes !! 0%nat);
      Ok (default ZERO_MERKLE_HASH root)
  end.

Definition calc_hash_merkle_root {E} (txs : list Transaction) : res E MerkleHash := calc_merkle_root (map tx_hash txs).
Definition calc_hash_merkle_root_pre_crescendo {E} (txs : list Transaction) : res E MerkleHash :=
  calc_merkle_root (map hash_pre_crescendo txs).
Definition calc_accepted_id_merkle_root_pre_crescendo {E} (accepted_tx_ids : list Hash) : res E MerkleHash :=
  calc_merkle_root (merge_sort Z.le accepted_tx_ids).

(** ** Proofs *)
Record TxMerkleProof := mkProof {
  tx_id : Hash;
  block_hash : Hash;
  leaf_sibling : Hash;
  node_siblings : list MerkleHash;
  position : u32;
}.

(** The walk to the root, keeping the sibling of [current_idx] at each level. *)
Fixpoint proof_loop {E} (fuel : nat) (nodes : list (option MerkleHash)) (current_idx : nat) (siblings : list MerkleHash) :
    res E (list MerkleHash) :=
  match fuel with
  | O => NoFuel
  | S fuel =>
      if (1 <? length nodes)%nat then
        let sibling := default ZERO_MERKLE_HASH (default None (nodes !! Nat.lxor current_idx 1)) in
        proof_loop fuel (level_up nodes) (current_idx / 2) (siblings ++ [sibling])
      else Ok siblings
  end.
Definition build_merkle_proof {E} (tx_ids : list Hash) (pos32 : u32) (block : Hash) : res E (option TxMerkleProof) :=
  let n := length tx_ids in
  let pos := Z.to_nat pos32 in
  if (n =? 0)%nat || (n <=? pos)%nat then Ok None else
  let tx := nth pos tx_ids ZERO_HASH in
  if (n =? 1)%nat then Ok (Some (mkProof tx block ZERO_HASH [] pos32)) else
  let sibling :=
    if (pos mod 2 =? 0)%nat
    then if (pos + 1 <? n)%nat then nth (pos + 1) tx_ids ZERO_HASH else ZERO_HASH
    else nth (pos - 1) tx_ids ZERO_HASH in
  siblings ← proof_loop n (leaf_level tx_ids) (pos / 2) [];
  Ok (Some (mkProof tx block sibling siblings pos32)).

Fixpoint climb (idx : Z) (acc : MerkleHash) (siblings : list MerkleHash) : MerkleHash :=
  match siblings with
  | [] => acc
  | s :: siblings =>
      climb (Z.shiftr idx 1)
        (if Z.land idx 1 =? 0 then merkle_hash_from_node acc s else merkle_hash_from_node s acc) siblings
  end.
Definition verify_merkle_proof (p : TxMerkleProof) (expected_root : MerkleHash) : bool :=
  let acc :=
    if Z.land (position p) 1 =? 0
    then merkle_hash_from_tx (tx_id p) (leaf_sibling p)
    else merkle_hash_from_tx (leaf_sibling p) (tx_id p) in
  climb (Z.shiftr (position p) 1) acc (node_siblings p) =? expected_root.

(** The accessor the RPC server calls, on the transactions of the block. *)
Fixpoint find_position (tid : Hash) (txs : list Transaction) : option nat :=
  match txs with
  | [] => None
  | t :: txs => if id t =? tid then Some 0%nat else S <$> find_position tid txs
  end.
Definition get_tx_merkle_proof {E} (block_transactions : option (list Transaction)) (tid block : Hash) :
    res E (option TxMerkleProof) :=
  match block_transactions with
  | None => Ok None
  | Some txs =>
      match find_position tid txs with
      | None => Ok None
      | Some pos => build_merkle_proof (map id txs) (wrap 32 (Z.of_nat pos)) block
      end
  end.
End merkle.

(** ** The reference tree *)
Section reference.
Context `{HB : Blake2b}.
Implicit Types (leaves : list Hash) (d i : nat).

(** The node of level [d] (0 above the leaves) and index [i]. *)
Fixpoint node leaves d i : option MerkleHash :=
  match d with
  | O => match leaves !! (2 * i)%nat with
         | None => None
         | Some l => Some (merkle_hash_from_tx l (default ZERO_HASH (leaves !! (2 * i + 1)%nat)))
         end
  | S d => match node leaves d (2 * i) with
           | None => None
           | Some l => Some (merkle_hash_from_node l (default ZERO_MERKLE_HASH (node leaves d (2 * i + 1))))
           end
  end.
(** The level of the root. *)
Definition depth leaves : nat := (Nat.log2_up (length leaves) - 1)%nat.
Definition reference_root leaves : MerkleHash := default ZERO_MERKLE_HASH (node leaves (depth leaves) 0).
(** The number of leaf positions of the padded tree. *)
Definition capacity leaves : Z := 2 ^ (Z.of_nat (depth leaves) + 1).

Lemma nth_lookup_default leaves i : nth i leaves ZERO_HASH = default ZERO_HASH (leaves !! i).
Proof. apply nth_lookup. Qed.

Lemma leaf_node_ok leaves i : leaf_node leaves (2 * i) = node leaves 0 i.
Proof.
  unfold leaf_node. cbn [node]. rewrite !nth_lookup_default. destruct (Nat.leb_spec (length leaves) (2 * i)) as [Hge|Hlt].
  { by rewrite (proj2 (lookup_ge_None leaves _)). }
  destruct (lookup_lt_is_Some_2 leaves (2 * i) Hlt) as [l ->].
  destruct (Nat.ltb_spec (2 * i + 1) (length leaves)); [done|]. by rewrite (proj2 (lookup_ge_None leaves (2 * i + 1)%nat)).
Qed.

Lemma level_up_seq (f : nat -> option MerkleHash) k n :
  level_up (map f (seq (2 * k) (2 * n))) =
  map (fun i => match f (2 * i)%nat with
                | None => None
                | Some l => Some (merkle_hash_from_node l (default ZERO_MERKLE_HASH (f (2 * i + 1)%nat)))
                end) (seq k n).
Proof.
  revert k. induction n as [|n IH]; intros k; [done|].
  replace (2 * S n)%nat with (S (S (2 * n))) by lia. cbn [seq map level_up]. f_equal.
  - by rewrite (Nat.add_comm (2 * k) 1).
  - specialize (IH (S k)). by replace (2 * S k)%nat with (S (S (2 * k))) in IH by lia.
Qed.

(** The vector at level [d] of a tree whose root is at level [d + k]. *)
Definition level_nodes leaves d k : list (option MerkleHash) := map (node leaves d) (seq 0 (2 ^ k)).
Lemma level_up_nodes leaves d k : level_up (level_nodes leaves d (S k)) = level_nodes leaves (S d) k.
Proof.
  unfold level_nodes. replace (2 ^ S k)%nat with (2 * 2 ^ k)%nat by (simpl; lia).
  rewrite (level_up_seq (node leaves d) 0). done.
Qed.
Lemma level_nodes_length leaves d k : length (level_nodes leaves d k) = (2 ^ k)%nat.
Proof. unfold level_nodes. by rewrite length_map, length_seq. Qed.
Lemma level_nodes_lookup leaves d k i : (i < 2 ^ k)%nat -> level_nodes leaves d k !! i = Some (node leaves d i).
Proof.
  intros Hi. unfold level_nodes. change (map ?f ?l) with (f <$> l). rewrite list_lookup_fmap, lookup_seq_lt by done. done.
Qed.
Lemma pow2_lt k : (1 < 2 ^ S k)%nat.
Proof. simpl. pose proof (Nat.pow_nonzero 2 k). lia. Qed.

Lemma level_loop_ok {E} leaves d k fuel : (k < fuel)%nat ->
  level_loop (E:=E) fuel (level_nodes leaves d k) = Ok (level_nodes leaves (d + k) 0).
Proof.
  revert d fuel. induction k as [|k IH]; intros d [|fuel] Hf; [lia| |lia|]; cbn [level_loop]; rewrite level_nodes_length.
  - by rewrite Nat.add_0_r.
  - rewrite (proj2 (Nat.ltb_lt _ _) (pow2_lt k)), level_up_nodes, IH by lia. by rewrite <- Nat.add_succ_comm.
Qed.

Lemma leaf_level_ok leaves : (2 <= length leaves)%nat -> leaf_level leaves = level_nodes leaves 0 (depth leaves).
Proof.
  intros Hlen. unfold leaf_level, level_nodes, next_power_of_two, depth.
  pose proof (Nat.log2_up_pos (length leaves) ltac:(lia)) as Hp.
  replace (Nat.log2_up (length leaves)) with (S (Nat.log2_up (length leaves) - 1)) at 1 by lia.
  rewrite Nat.pow_succ_r', Nat.mul_comm, Nat.div_mul by lia. apply map_ext. intros i. apply leaf_node_ok.
Qed.
Lemma depth_lt leaves : (2 <= length leaves)%nat -> (depth leaves < length leaves)%nat.
Proof.
  intros Hlen. unfold depth. pose proof (Nat.log2_up_le_lin (length leaves) ltac:(lia)).
  pose proof (Nat.log2_up_pos (length leaves) ltac:(lia)). lia.
Qed.

Lemma calc_merkle_root_ok {E} leaves : calc_merkle_root (E:=E) leaves = Ok (reference_root leaves).
Proof.
  destruct leaves as [|l [|l' leaves']]; [done|done|]. unfold calc_merkle_root.
  set (leaves := l :: l' :: leaves'). assert (2 <= length leaves)%nat as Hlen by (unfold leaves; simpl; lia).
  rewrite leaf_level_ok, level_loop_ok by (done || by apply depth_lt). cbn [mbind res_bind].
  rewrite level_nodes_lookup by (simpl; lia). done.
Qed.

Lemma node_some leaves d i : is_Some (node leaves d i) <-> (i * 2 ^ S d < length leaves)%nat.
Proof.
  revert i. induction d as [|d IH]; intros i; cbn [node].
  - replace (i * 2 ^ 1)%nat with (2 * i)%nat by (simpl; lia). rewrite <- lookup_lt_is_Some.
    destruct (leaves !! (2 * i)%nat); split; by intros [? ?].
  - replace (i * 2 ^ S (S d))%nat with (2 * i * 2 ^ S d)%nat by (rewrite (Nat.pow_succ_r' 2 (S d)); lia). rewrite <- IH.
    destruct (node leaves d (2 * i)); split; by intros [? ?].
Qed.

(** The siblings on the path of [idx] from level [d], [k] levels up. *)
Fixpoint sib_path leaves d k (idx : nat) : list MerkleHash :=
  match k with
  | O => []
  | S k => default ZERO_MERKLE_HASH (node leaves d (Nat.lxor idx 1)) :: sib_path leaves (S d) k (idx / 2)
  end.
Lemma lxor_1 idx : Nat.lxor idx 1 = if Nat.even idx then (idx + 1)%nat else (idx - 1)%nat.
Proof.
  destruct (Nat.even idx) eqn:He.
  - apply Nat.even_spec in He as [m ->]. rewrite Nat.lxor_comm. apply Nat.bits_inj. intros [|n].
    + rewrite Nat.lxor_spec, Nat.testbit_even_0, Nat.testbit_odd_0. done.
    + rewrite Nat.lxor_spec, Nat.testbit_odd_succ, Nat.testbit_even_succ by lia.
      change (Nat.testbit 1 (S n)) with (Nat.testbit 0 n). by rewrite Nat.bits_0, xorb_false_l.
  - assert (Nat.odd idx = true) as Ho by (unfold Nat.odd; by rewrite He). apply Nat.odd_spec in Ho as [m ->].
    rewrite Nat.add_sub, Nat.lxor_comm. apply Nat.bits_inj. intros [|n].
    + rewrite Nat.lxor_spec, Nat.testbit_even_0, Nat.testbit_odd_0. done.
    + rewrite Nat.lxor_spec, Nat.testbit_odd_succ, Nat.testbit_even_succ by lia.
      change (Nat.testbit 1 (S n)) with (Nat.testbit 0 n). by rewrite Nat.bits_0, xorb_false_l.
Qed.
(** Indices by parity. *)
Lemma parity idx : (Nat.even idx = true /\ idx = 2 * (idx / 2))%nat \/ (Nat.even idx = false /\ idx = 2 * (idx / 2) + 1)%nat.
Proof.
  pose proof (Nat.div_mod_eq idx 2) as Hd. pose proof (Nat.mod_upper_bound idx 2) as Hm.
  destruct (Nat.even idx) eqn:He; [left|right]; (split; [done|]).
  - apply Nat.even_spec in He as [m Hidx]. lia.
  - assert (Nat.odd idx = true) as Ho by (unfold Nat.odd; by rewrite He). apply Nat.odd_spec in Ho as [m Hidx]. lia.
Qed.
Lemma land_1 x : Z.land x 1 = x mod 2.
Proof. exact (Z.land_ones x 1 ltac:(lia)). Qed.

Lemma proof_loop_ok {E} leaves d k idx sibs fuel : (k < fuel)%nat -> (idx < 2 ^ k)%nat ->
  proof_loop (E:=E) fuel (level_nodes leaves d k) idx sibs = Ok (sibs ++ sib_path leaves d k idx).
Proof.
  revert d idx sibs fuel. induction k as [|k IH]; intros d idx sibs [|fuel] Hf Hidx; [lia| |lia|];
    cbn [proof_loop sib_path]; rewrite level_nodes_length.
  - by rewrite app_nil_r.
  - rewrite (proj2 (Nat.ltb_lt _ _) (pow2_lt k)), level_up_nodes.
    rewrite Nat.pow_succ_r' in Hidx. destruct (parity idx) as [[He Hi]|[He Hi]]; rewrite lxor_1, He;
      rewrite level_nodes_lookup by (rewrite Nat.pow_succ_r'; lia); cbn [default from_option];
      rewrite IH by lia; by rewrite <- app_assoc.
Qed.

Lemma climb_path leaves d k idx m acc : node leaves d idx = Some acc ->
  Some (climb (Z.of_nat idx + m * 2 ^ Z.of_nat k) acc (sib_path leaves d k idx)) = node leaves (d + k) (idx / 2 ^ k).
Proof.
  revert d idx m acc. induction k as [|k IH]; intros d idx m acc Hacc; cbn [climb sib_path].
  { by rewrite Nat.add_0_r, Nat.pow_0_r, Nat.div_1_r, Hacc. }
  rewrite Nat.pow_succ_r', <- Nat.Div0.div_div, <- Nat.add_succ_comm.
  rewrite Nat2Z.inj_succ, Z.pow_succ_r, land_1, Z.shiftr_div_pow2, Z.pow_1_r by lia.
  replace ((Z.of_nat idx + m * (2 * 2 ^ Z.of_nat k)) / 2) with (Z.of_nat (idx / 2) + m * 2 ^ Z.of_nat k)
    by (rewrite Nat2Z.inj_div; replace (m * (2 * 2 ^ Z.of_nat k)) with (m * 2 ^ Z.of_nat k * 2) by lia; by rewrite Z.div_add by lia).
  replace ((Z.of_nat idx + m * (2 * 2 ^ Z.of_nat k)) mod 2) with (Z.of_nat (idx mod 2))
    by (rewrite Nat2Z.inj_mod; replace (m * (2 * 2 ^ Z.of_nat k)) with (m * 2 ^ Z.of_nat k * 2) by lia; by rewrite Z.mod_add by lia).
  pose proof (Nat.div_mod_eq idx 2). pose proof (Nat.mod_upper_bound idx 2). rewrite lxor_1.
  destruct (parity idx) as [[He Hi]|[He Hi]]; rewrite He.
  - replace (Z.of_nat (idx mod 2) =? 0) with true by lia. apply IH. cbn [node]. by rewrite <- Hi, Hacc.
  - replace (Z.of_nat (idx mod 2) =? 0) with false by lia. apply IH. cbn [node].
    replace (2 * (idx / 2) + 1)%nat with idx by lia. replace (2 * (idx / 2))%nat with (idx - 1)%nat by lia.
    destruct (proj2 (node_some leaves d (idx - 1))) as [l Hl].
    { eapply Nat.le_lt_trans; [|apply (node_some leaves d idx); by rewrite Hacc]. apply Nat.mul_le_mono_r. lia. }
    by rewrite Hl, Hacc.
Qed.
End reference.

(** ** Completeness of proofs *)
Section complete.
Context `{HB : Blake2b}.
Implicit Types (leaves : list Hash) (p : TxMerkleProof).

Definition with_position p (pos : u32) : TxMerkleProof := mkProof (tx_id p) (block_hash p) (leaf_sibling p) (node_siblings p) pos.
(** The sibling leaf of a position. *)
Definition leaf_sib leaves (pos : nat) : Hash :=
  if (pos mod 2 =? 0)%nat then default ZERO_HASH (leaves !! (pos + 1)%nat) else default ZERO_HASH (leaves !! (pos - 1)%nat).

Lemma capacity_length leaves pos : (pos < length leaves)%nat -> (pos < 2 ^ S (depth leaves))%nat.
Proof.
  intros Hpos. unfold depth. destruct (decide (length leaves = 1)%nat) as [H1|]; [rewrite H1; simpl; lia|].
  pose proof (Nat.log2_up_pos (length leaves) ltac:(lia)).
  replace (S (Nat.log2_up (length leaves) - 1)) with (Nat.log2_up (length leaves)) by lia.
  pose proof (Nat.log2_up_spec (length leaves) ltac:(lia)). lia.
Qed.

Lemma build_merkle_proof_ok {E} leaves pos block : (pos < length leaves)%nat ->
  build_merkle_proof (E:=E) leaves (Z.of_nat pos) block =
    Ok (Some (mkProof (default ZERO_HASH (leaves !! pos)) block (leaf_sib leaves pos)
      (sib_path leaves 0 (depth leaves) (pos / 2)) (Z.of_nat pos))).
Proof.
  intros Hpos. unfold build_merkle_proof. rewrite Nat2Z.id, !nth_lookup_default.
  replace (length leaves =? 0)%nat with false by (symmetry; apply Nat.eqb_neq; lia).
  replace (length leaves <=? pos)%nat with false by (symmetry; apply Nat.leb_gt; lia). cbn [orb].
  unfold leaf_sib. destruct (Nat.eqb_spec (length leaves) 1) as [H1|H1].
  { assert (pos = 0%nat) as -> by lia. unfold depth. rewrite H1.
    rewrite (proj2 (lookup_ge_None leaves (0 + 1))) by lia. done. }
  assert (pos / 2 < 2 ^ depth leaves)%nat as Hlt.
  { apply Nat.Div0.div_lt_upper_bound. pose proof (capacity_length leaves pos Hpos) as Hc. by rewrite Nat.pow_succ_r' in Hc. }
  assert (2 <= length leaves)%nat as H2 by lia. rewrite leaf_level_ok, proof_loop_ok by (done || by apply depth_lt). cbn [mbind res_bind app].
  destruct (pos mod 2 =? 0)%nat; [|done]. destruct (Nat.ltb_spec (pos + 1) (length leaves)); [done|].
  by rewrite (proj2 (lookup_ge_None leaves (pos + 1)%nat)).
Qed.

(** The first hash of a verification, for the leaf at [pos]. *)
Lemma leaf_acc leaves pos : (pos < length leaves)%nat ->
  node leaves 0 (pos / 2) = Some (if (pos mod 2 =? 0)%nat
    then merkle_hash_from_tx (default ZERO_HASH (leaves !! pos)) (leaf_sib leaves pos)
    else merkle_hash_from_tx (leaf_sib leaves pos) (default ZERO_HASH (leaves !! pos))).
Proof.
  intros Hpos. cbn [node]. unfold leaf_sib. pose proof (Nat.div_mod_eq pos 2). pose proof (Nat.mod_upper_bound pos 2).
  destruct (Nat.eqb_spec (pos mod 2) 0).
  - replace (2 * (pos / 2))%nat with pos by lia. by destruct (lookup_lt_is_Some_2 leaves pos Hpos) as [l ->].
  - replace (2 * (pos / 2))%nat with (pos - 1)%nat by lia. replace (pos - 1 + 1)%nat with pos by lia.
    by destruct (lookup_lt_is_Some_2 leaves (pos - 1)) as [l ->]; [lia|].
Qed.

(** The inclusion proof built for any position of any list of leaves
    verifies against the root of that list; and verification ignores the bits
    of the position above the height of the tree: the same proof with its
    position moved by any multiple of the tree's capacity verifies as well. *)
Theorem merkle_proof_complete leaves pos block : (pos < length leaves)%nat ->
  exists p root, build_merkle_proof (E:=unit) leaves (Z.of_nat pos) block = Ok (Some p) /\
    calc_merkle_root (E:=unit) leaves = Ok root /\ Some (tx_id p) = leaves !! pos /\ position p = Z.of_nat pos /\
    verify_merkle_proof p root = true /\
    (forall m, 0 <= m -> verify_merkle_proof (with_position p (Z.of_nat pos + m * capacity leaves)) root = true).
Proof using Type*.
  intros Hpos. rewrite build_merkle_proof_ok, calc_merkle_root_ok by done. do 2 eexists. split; [done|]. split; [done|].
  destruct (lookup_lt_is_Some_2 leaves pos Hpos) as [l Hl]. split; [by rewrite Hl|]. split; [done|].
  assert (forall m, verify_merkle_proof (with_position (mkProof (default ZERO_HASH (leaves !! pos)) block (leaf_sib leaves pos)
    (sib_path leaves 0 (depth leaves) (pos / 2)) (Z.of_nat pos)) (Z.of_nat pos + m * capacity leaves)) (reference_root leaves) = true) as Hall.
  { intros m. unfold verify_merkle_proof, with_position, capacity.
    cbn [tx_id block_hash leaf_sibling node_siblings position]. apply Z.eqb_eq.
    pose proof (climb_path leaves 0 (depth leaves) (pos / 2) m _ (leaf_acc leaves pos Hpos)) as Hc. cbn [Nat.add] in Hc.
    rewrite Nat.Div0.div_div, <- Nat.pow_succ_r', (Nat.div_small pos (2 ^ S (depth leaves))) in Hc by (by apply capacity_length).
    unfold reference_root. rewrite <- Hc. cbn [default from_option].
    rewrite Z.pow_add_r, Z.pow_1_r, land_1, Z.shiftr_div_pow2, Z.pow_1_r by lia.
    rewrite Z.mul_assoc, Z.mod_add, Z.div_add by lia. rewrite Nat2Z.inj_div.
    replace (Z.of_nat pos mod 2) with (Z.of_nat (pos mod 2)) by (by rewrite Nat2Z.inj_mod).
    destruct (Nat.eqb_spec (pos mod 2) 0) as [-> |]; [done|].
    rewrite (proj2 (Z.eqb_neq (Z.of_nat (pos mod 2)) 0)) by lia. done. }
  split; [|intros m _; apply Hall]. specialize (Hall 0). by rewrite Z.mul_0_l, Z.add_0_r in Hall.
Qed.
End complete.

Definition three_leaves : list Hash := [11; 12; 13].
Lemma merkle_proof_complete_witness :
  exists p root, build_merkle_proof (HB:=toy_blake2b) (E:=unit) three_leaves (Z.of_nat 2) 99 = Ok (Some p) /\
    calc_merkle_root (HB:=toy_blake2b) (E:=unit) three_leaves = Ok root /\ Some (tx_id p) = three_leaves !! 2%nat /\
    position p = Z.of_nat 2 /\ verify_merkle_proof (HB:=toy_blake2b) p root = true /\
    (forall m, 0 <= m -> verify_merkle_proof (HB:=toy_blake2b) (with_position p (Z.of_nat 2 + m * capacity three_leaves)) root = true).
Proof. apply (merkle_proof_complete (HB:=toy_blake2b) three_leaves 2 99). simpl. lia. Defined.

(** ** Soundness: what a root and a proof determine *)
Section sound.
Context `{HB : Blake2b}.
Implicit Types (leaves : list Hash) (d i : nat).

Definition merkle_broken : Prop := collision 48 MerkleBranchHash \/ zero_digest 48 MerkleBranchHash.

Lemma merkle_finalize_eq m m' : merkle_finalize m = merkle_finalize m' -> m = m' \/ merkle_broken.
Proof.
  intros H. apply from_bytes_inj in H; [|apply blake2b_is_bytes..|by rewrite !blake2b_length].
  destruct (decide (m = m')); [by left|]. right. left. by exists m, m'.
Qed.
Lemma merkle_finalize_zero m : merkle_finalize m = ZERO_MERKLE_HASH -> merkle_broken.
Proof.
  intros H. right. exists m. apply from_bytes_inj; [apply blake2b_is_bytes|apply zeros_digit; lia|by rewrite blake2b_length|].
  unfold merkle_finalize in H. rewrite H. unfold from_bytes. by rewrite rev_repeat, undigits_zeros.
Qed.
Lemma merkle_finalize_range m : inW 384 (merkle_finalize m).
Proof.
  unfold merkle_finalize, from_bytes. pose proof (undigits_range 256 ltac:(lia) (rev (blake2b 48 MerkleBranchHash m))) as H.
  unfold zlen in H. rewrite length_rev, blake2b_length in H. apply H, Forall_rev, blake2b_is_bytes.
Qed.
Lemma node_range leaves d i x : node leaves d i = Some x -> inW 384 x.
Proof. destruct d; cbn [node]; case_match; [|done| |done]; intros [= <-]; apply merkle_finalize_range. Qed.
Lemma node_zero leaves d i : node leaves d i = Some ZERO_MERKLE_HASH -> merkle_broken.
Proof. destruct d; cbn [node]; case_match; [|done| |done]; intros [= H']; by eapply merkle_finalize_zero. Qed.
Lemma default_node_range leaves d i : inW 384 (default ZERO_MERKLE_HASH (node leaves d i)).
Proof. destruct (node leaves d i) eqn:Hn; [by eapply node_range|]. unfold inW, ZERO_MERKLE_HASH. simpl. lia. Qed.
Lemma default_leaf_range leaves i : Forall (inW 256) leaves -> inW 256 (default ZERO_HASH (leaves !! i)).
Proof.
  intros H. destruct (leaves !! i) eqn:Hi; [exact (Forall_lookup_1 _ _ _ _ H Hi)|]. unfold inW, ZERO_HASH. simpl. lia.
Qed.

(** Leaf and inner nodes hash messages of different lengths. *)
Lemma tx_node_neq a b x y : merkle_hash_from_tx a b = merkle_hash_from_node x y -> merkle_broken.
Proof.
  intros [H|H]%merkle_finalize_eq; [|done]. apply (f_equal length) in H. unfold as_bytes, merkle_as_bytes in H.
  rewrite !length_app, !length_rev, !length_digits in H. done.
Qed.
Lemma tx_inj a b a' b' : inW 256 a -> inW 256 b -> inW 256 a' -> inW 256 b' ->
  merkle_hash_from_tx a b = merkle_hash_from_tx a' b' -> (a = a' /\ b = b') \/ merkle_broken.
Proof.
  intros ???? [H|H]%merkle_finalize_eq; [left|by right]. peel H. by apply (sd_eq _ _ _ _ sd_as_bytes) in H.
Qed.
Lemma node_inj x y x' y' : inW 384 x -> inW 384 y -> inW 384 x' -> inW 384 y' ->
  merkle_hash_from_node x y = merkle_hash_from_node x' y' -> (x = x' /\ y = y') \/ merkle_broken.
Proof.
  intros ???? [H|H]%merkle_finalize_eq; [left|by right]. peel H. by apply (sd_eq _ _ _ _ sd_merkle_as_bytes) in H.
Qed.

(** The leaf at an offset of a subtree, zero past the end. *)
Definition leaf_at leaves (i : nat) : Hash := default ZERO_HASH (leaves !! i).

Lemma node_none_leaf leaves d i j : node leaves d i = None -> (i * 2 ^ S d <= j)%nat -> leaf_at leaves j = ZERO_HASH.
Proof.
  intros Hn Hj. unfold leaf_at. rewrite (proj2 (lookup_ge_None leaves j)); [done|].
  assert (~ is_Some (node leaves d i)) as Hs by (rewrite Hn; by intros [? ?]). rewrite node_some in Hs. lia.
Qed.

(** Equal nodes are at the same height and have equal leaves. *)
Lemma node_binds leaves leaves' d d' i i' x : Forall (inW 256) leaves -> Forall (inW 256) leaves' ->
  node leaves d i = Some x -> node leaves' d' i' = Some x ->
  (d = d' /\ forall j, (j < 2 ^ S d)%nat -> leaf_at leaves (i * 2 ^ S d + j) = leaf_at leaves' (i' * 2 ^ S d + j)) \/ merkle_broken.
Proof.
  intros Hw Hw'. revert d' i i' x. induction d as [|d IH]; intros [|d'] i i' x Hn Hn'; cbn [node] in Hn, Hn'.
  - destruct (leaves !! (2 * i)%nat) as [a|] eqn:Ha; [|done]. destruct (leaves' !! (2 * i')%nat) as [a'|] eqn:Ha'; [|done].
    injection Hn as <-. injection Hn' as Hx. symmetry in Hx. apply tx_inj in Hx as [[-> Hb]|]; [left|by right|..];
      [|exact (Forall_lookup_1 _ _ _ _ Hw Ha)|by apply default_leaf_range|exact (Forall_lookup_1 _ _ _ _ Hw' Ha')
       |by apply default_leaf_range]. split; [done|]. intros j Hj. unfold leaf_at. simpl in Hj.
    destruct j as [|[|]]; [| |lia].
    + rewrite !Nat.add_0_r. replace (i * 2 ^ 1)%nat with (2 * i)%nat by (simpl; lia).
      replace (i' * 2 ^ 1)%nat with (2 * i')%nat by (simpl; lia). by rewrite Ha, Ha'.
    + by replace (i * 2 ^ 1)%nat with (2 * i)%nat by (simpl; lia); replace (i' * 2 ^ 1)%nat with (2 * i')%nat by (simpl; lia).
  - destruct (leaves !! _); [|done]. destruct (node leaves' d' (2 * i')); [|done]. injection Hn as <-. injection Hn' as Hx.
    right. by eapply tx_node_neq.
  - destruct (leaves' !! _); [|done]. destruct (node leaves d (2 * i)); [|done]. injection Hn' as <-. injection Hn as Hx.
    right. by eapply tx_node_neq.
  - destruct (node leaves d (2 * i)) as [l|] eqn:Hl; [|done]. destruct (node leaves' d' (2 * i')) as [l'|] eqn:Hl'; [|done].
    injection Hn as <-. injection Hn' as Hx. symmetry in Hx.
    apply node_inj in Hx as [[-> Hr]|]; [|by right|by eapply node_range|apply default_node_range|by eapply node_range
      |apply default_node_range].
    change (i + (i + 0) + 1)%nat with (2 * i + 1)%nat in Hr. change (i' + (i' + 0) + 1)%nat with (2 * i' + 1)%nat in Hr.
    destruct (IH d' (2 * i)%nat (2 * i')%nat l' Hl Hl') as [[<- Hleft]|]; [|by right].
    assert ((forall j, (j < 2 ^ S d)%nat -> leaf_at leaves ((2 * i + 1) * 2 ^ S d + j) = leaf_at leaves' ((2 * i' + 1) * 2 ^ S d + j))
      \/ merkle_broken) as [Hright|]; [|left|by right].
    { destruct (node leaves d (2 * i + 1)) as [r|] eqn:Er, (node leaves' d (2 * i' + 1)) as [r'|] eqn:Er'; simpl in Hr.
      - subst r'. destruct (IH d _ _ _ Er Er') as [[_ Hj]|]; [by left|by right].
      - subst r. right. by eapply node_zero.
      - subst r'. right. by eapply node_zero.
      - left. intros j Hj. rewrite (node_none_leaf _ _ _ _ Er), (node_none_leaf _ _ _ _ Er'); [done|lia|lia]. }
    split; [done|]. intros j Hj. rewrite (Nat.pow_succ_r' 2 (S d)) in *. destruct (Nat.lt_ge_cases j (2 ^ S d)) as [Hlt|Hge].
    + specialize (Hleft j Hlt). by replace (i * (2 * 2 ^ S d) + j)%nat with (2 * i * 2 ^ S d + j)%nat by lia;
        replace (i' * (2 * 2 ^ S d) + j)%nat with (2 * i' * 2 ^ S d + j)%nat by lia.
    + specialize (Hright (j - 2 ^ S d)%nat ltac:(lia)).
      by replace (i * (2 * 2 ^ S d) + j)%nat with ((2 * i + 1) * 2 ^ S d + (j - 2 ^ S d))%nat by lia;
        replace (i' * (2 * 2 ^ S d) + j)%nat with ((2 * i' + 1) * 2 ^ S d + (j - 2 ^ S d))%nat by lia.
Qed.

Lemma leaf_at_ge leaves j : (length leaves <= j)%nat -> leaf_at leaves j = ZERO_HASH.
Proof. intros Hj. unfold leaf_at. by rewrite (proj2 (lookup_ge_None leaves j)). Qed.
Lemma root_node leaves : leaves <> [] -> node leaves (depth leaves) 0 = Some (reference_root leaves).
Proof.
  intros Hne. unfold reference_root. destruct (proj2 (node_some leaves (depth leaves) 0)) as [x ->]; [|done].
  destruct leaves; [done|simpl; lia].
Qed.
Lemma past_capacity leaves d j : leaves <> [] -> d = depth leaves -> ~ (j < 2 ^ S d)%nat -> leaf_at leaves j = ZERO_HASH.
Proof.
  intros Hne -> Hj. apply leaf_at_ge. destruct (Nat.le_gt_cases (length leaves) j) as [|Hlt]; [done|].
  by apply capacity_length in Hlt.
Qed.

(** A Merkle root determines the leaves up to the zero padding on the
    right: two lists of hashes with the same root agree at every index (an
    index past the end reading as the zero hash), so in particular two lists
    without zero hashes are equal; otherwise the branch hash has a collision
    or a preimage of zero.  The trees may have different sizes. *)
Theorem merkle_root_binds leaves leaves' r : Forall (inW 256) leaves -> Forall (inW 256) leaves' ->
  calc_merkle_root (E:=unit) leaves = Ok r -> calc_merkle_root (E:=unit) leaves' = Ok r ->
  (forall j, leaf_at leaves j = leaf_at leaves' j) \/ merkle_broken.
Proof using Type*.
  intros Hw Hw'. rewrite !calc_merkle_root_ok. intros [= <-] [= Hr].
  destruct (decide (leaves = [])) as [->|Hne], (decide (leaves' = [])) as [->|Hne']; [by left| | |].
  - right. apply (node_zero leaves' (depth leaves') 0). rewrite (root_node leaves' Hne'), Hr. done.
  - right. apply (node_zero leaves (depth leaves) 0). rewrite (root_node leaves Hne), <- Hr. done.
  - destruct (node_binds leaves leaves' (depth leaves) (depth leaves') 0 0 (reference_root leaves) Hw Hw' (root_node _ Hne)) as [[Hd Hj]|];
      [by rewrite <- Hr; apply root_node|left|by right].
    intros j. destruct (decide (j < 2 ^ S (depth leaves))%nat) as [Hlt|Hge]; [exact (Hj j Hlt)|].
    by rewrite (past_capacity leaves (depth leaves)), (past_capacity leaves' (depth leaves)).
Qed.

(** The walk up, seen from the root. *)
Lemma climb_snoc idx acc sibs s : climb idx acc (sibs ++ [s]) =
  if Z.land (Z.shiftr idx (zlen sibs)) 1 =? 0
  then merkle_hash_from_node (climb idx acc sibs) s else merkle_hash_from_node s (climb idx acc sibs).
Proof.
  revert idx acc. induction sibs as [|t sibs IH]; intros idx acc; cbn [app climb]; [by rewrite Z.shiftr_0_r|].
  rewrite IH, Z.shiftr_shiftr by (pose proof (zlen_nonneg sibs); lia). by rewrite zlen_cons, Z.add_comm.
Qed.
Lemma climb_digest idx m sibs : exists m', climb idx (merkle_finalize m) sibs = merkle_finalize m'.
Proof.
  revert idx m. induction sibs as [|t sibs IH]; intros idx m; [by exists m|]. cbn [climb]. case_match; apply IH.
Qed.

(** A position within the subtree of height [n]: its lowest [n + 1] bits. *)
Definition low_bits (pos : Z) (n : nat) : nat := Z.to_nat (pos mod 2 ^ (Z.of_nat n + 1)).
Lemma low_bits_S pos n : low_bits pos (S n) =
  ((if Z.eqb (Z.land (Z.shiftr pos (Z.of_nat n + 1)) 1) 0 then 0 else 2 ^ S n) + low_bits pos n)%nat.
Proof.
  unfold low_bits. rewrite land_1, Z.shiftr_div_pow2 by lia.
  replace (Z.of_nat (S n) + 1) with (Z.of_nat n + 1 + 1) by lia. rewrite (Z.pow_add_r 2 (Z.of_nat n + 1)), Z.pow_1_r by lia.
  rewrite Z.rem_mul_r by lia. pose proof (Z.mod_pos_bound pos (2 ^ (Z.of_nat n + 1)) ltac:(lia)).
  pose proof (Z.mod_pos_bound (pos / 2 ^ (Z.of_nat n + 1)) 2 ltac:(lia)).
  assert (2 ^ (Z.of_nat n + 1) = Z.of_nat (2 ^ S n)) as Hp by (rewrite Nat2Z.inj_pow; f_equal; lia).
  destruct (Z.eqb_spec ((pos / 2 ^ (Z.of_nat n + 1)) mod 2) 0) as [->|]; [rewrite Z.mul_0_r; lia|].
  replace ((pos / 2 ^ (Z.of_nat n + 1)) mod 2) with 1 by lia. lia.
Qed.

(** The first hash of a verification. *)
Definition first_acc (p : TxMerkleProof) : MerkleHash :=
  if Z.land (position p) 1 =? 0 then merkle_hash_from_tx (tx_id p) (leaf_sibling p)
  else merkle_hash_from_tx (leaf_sibling p) (tx_id p).
Lemma first_acc_digest p : exists m, first_acc p = merkle_finalize m.
Proof. unfold first_acc. case_match; by eexists. Qed.

Lemma first_acc_leaf leaves p d i : Forall (inW 256) leaves -> inW 256 (tx_id p) -> inW 256 (leaf_sibling p) ->
  node leaves d i = Some (first_acc p) ->
  (d = 0%nat /\ leaf_at leaves (i * 2 ^ 1 + low_bits (position p) 0) = tx_id p) \/ merkle_broken.
Proof.
  intros Hw Ht Hs Hn. unfold first_acc, low_bits in *. rewrite land_1 in Hn. change (2 ^ (Z.of_nat 0 + 1)) with 2.
  pose proof (Z.mod_pos_bound (position p) 2 ltac:(lia)) as Hm. destruct d as [|d]; cbn [node] in Hn.
  - destruct (leaves !! (2 * i)%nat) as [a|] eqn:Ha; [|done]. injection Hn as Hn.
    replace (i * 2 ^ 1)%nat with (2 * i)%nat by (simpl; lia).
    destruct (Z.eqb_spec (position p mod 2) 0) as [->|];
      (apply tx_inj in Hn as [[H1 H2]|]; [left|by right|exact (Forall_lookup_1 _ _ _ _ Hw Ha)|by apply default_leaf_range|done|done]);
      (split; [done|]).
    + rewrite Nat.add_0_r. unfold leaf_at. by rewrite Ha.
    + replace (position p mod 2) with 1 by lia. done.
  - destruct (node leaves d (2 * i)); [|done]. injection Hn as Hn. symmetry in Hn. right. case_match; by eapply tx_node_neq.
Qed.

Lemma climb_sound leaves p d i sibs : Forall (inW 256) leaves -> inW 256 (tx_id p) -> inW 256 (leaf_sibling p) ->
  Forall (inW 384) sibs ->
  node leaves d i = Some (climb (Z.shiftr (position p) 1) (first_acc p) sibs) ->
  (d = length sibs /\ leaf_at leaves (i * 2 ^ S d + low_bits (position p) d) = tx_id p) \/ merkle_broken.
Proof.
  intros Hw Ht Hs. revert d i. induction sibs as [|s sibs IH] using rev_ind; intros d i Hf Hn.
  { destruct (first_acc_leaf leaves p d i Hw Ht Hs Hn) as [[-> Hl]|]; [by left|by right]. }
  apply Forall_app in Hf as [Hf Hs0]. apply Forall_cons in Hs0 as [Hs0 _]. rewrite climb_snoc in Hn.
  destruct (first_acc_digest p) as [m Hm]. destruct (climb_digest (Z.shiftr (position p) 1) m sibs) as [m' Hm'].
  rewrite <- Hm in Hm'. pose proof (merkle_finalize_range m') as Hr. rewrite <- Hm' in Hr.
  destruct d as [|d]; cbn [node] in Hn.
  { destruct (leaves !! (2 * i)%nat); [|done]. right. injection Hn as Hn. case_match; by eapply tx_node_neq. }
  destruct (node leaves d (2 * i)) as [l|] eqn:El; [|done]. pose proof (node_range _ _ _ _ El).
  pose proof (default_node_range leaves d (2 * i + 1)). injection Hn as Hn.
  rewrite Z.shiftr_shiftr in Hn by (pose proof (zlen_nonneg sibs); lia). rewrite length_app, Nat.add_1_r, low_bits_S.
  set (bit := Z.land (Z.shiftr (position p) (1 + zlen sibs)) 1 =? 0) in Hn.
  assert (exists j, node leaves d j = Some (climb (Z.shiftr (position p) 1) (first_acc p) sibs) /\
    j = (2 * i + if bit then 0 else 1)%nat \/ merkle_broken) as (j & [[Hj ->]|]); [| |by right].
  { destruct bit; (apply node_inj in Hn as [[H1 H2]|]; [|by exists 0%nat; right|done..]).
    - exists (2 * i)%nat. left. rewrite El, H1. split; [done|lia].
    - exists (2 * i + 1)%nat. change (i + (i + 0) + 1)%nat with (2 * i + 1)%nat in H2.
      destruct (node leaves d (2 * i + 1)) as [x|]; simpl in H2; [left; by rewrite H2|right].
      apply (merkle_finalize_zero m'). by rewrite <- Hm', <- H2. }
  destruct (IH d _ Hf Hj) as [[-> Hl]|]; [left|by right]. split; [done|]. rewrite <- Hl. f_equal.
  fold (zlen sibs). unfold bit. rewrite Z.add_comm. rewrite (Nat.pow_succ_r' 2 (S (length sibs))).
  destruct (Z.eqb _ _); lia.
Qed.

Lemma verify_sound leaves p : leaves <> [] -> Forall (inW 256) leaves ->
  inW 256 (tx_id p) -> inW 256 (leaf_sibling p) -> Forall (inW 384) (node_siblings p) ->
  verify_merkle_proof p (reference_root leaves) = true ->
  (length (node_siblings p) = depth leaves /\ leaf_at leaves (Z.to_nat (position p mod capacity leaves)) = tx_id p) \/ merkle_broken.
Proof.
  intros Hne Hw Ht Hs Hf. unfold verify_merkle_proof.
  fold (first_acc p). intros Hv%Z.eqb_eq. pose proof (root_node leaves Hne) as Hn. rewrite <- Hv in Hn.
  by destruct (climb_sound leaves p (depth leaves) 0 (node_siblings p) Hw Ht Hs Hf Hn) as [[Hd Hl]|]; [left|right].
Qed.

End sound.

(** ** Proofs served by the node *)
Section served.
Context `{HB : Blake2b}.
Implicit Types (txs : list Transaction).

Lemma find_position_ok tid txs pos : find_position tid txs = Some pos -> exists t, txs !! pos = Some t /\ id t = tid.
Proof.
  revert pos. induction txs as [|t txs IH]; intros pos; cbn [find_position]; [done|].
  destruct (Z.eqb_spec (id t) tid); [intros [= <-]; by exists t|].
  destruct (find_position tid txs) as [q|]; [|done]. intros [= <-]. by apply IH.
Qed.
Lemma sib_path_range leaves d k idx : Forall (inW 384) (sib_path leaves d k idx).
Proof. revert d idx. induction k as [|k IH]; intros d idx; [constructor|]. constructor; [apply default_node_range|apply IH]. Qed.

(** The inclusion proofs the node serves are built over transaction ids,
    while the [hash_merkle_root] of a header is computed over transaction
    hashes, under another Blake2b key.  So no served proof verifies against
    the root of its own block: it is rejected whenever the hash of each
    transaction of the block differs from its id, unless the branch hash is
    broken. *)
Theorem served_proof_rejected txs tid block p r :
  zlen txs < 2 ^ 32 -> Forall (fun t => id t = calc_id t /\ tx_hash t <> calc_id t) txs ->
  get_tx_merkle_proof (E:=unit) (Some txs) tid block = Ok (Some p) -> calc_hash_merkle_root (E:=unit) txs = Ok r ->
  verify_merkle_proof p r = false \/ merkle_broken.
Proof using Type*.
  intros Hlen Hid Hget Hroot. unfold get_tx_merkle_proof in Hget.
  destruct (find_position tid txs) as [pos|] eqn:Hpos; [|done]. apply find_position_ok in Hpos as (t & Ht & <-).
  pose proof (lookup_lt_Some _ _ _ Ht) as Hlt. rewrite wrap_small in Hget by (unfold inW; unfold zlen in Hlen; lia).
  rewrite build_merkle_proof_ok in Hget by (by rewrite length_map). injection Hget as <-.
  assert (Forall (inW 256) (map id txs)) as Hids.
  { apply Forall_fmap. eapply Forall_impl; [exact Hid|]. intros t' [Ht' _]. cbn. rewrite Ht'. apply finalize_range. }
  assert (Forall (inW 256) (map tx_hash txs)) as Hhashes.
  { apply Forall_fmap, Forall_forall. intros t' _. apply finalize_range. }
  unfold calc_hash_merkle_root in Hroot. rewrite calc_merkle_root_ok in Hroot. injection Hroot as <-.
  destruct (verify_merkle_proof _ _) eqn:Hv; [right|by left].
  apply verify_sound in Hv as [[_ Hl]|]; [|done|by destruct txs|done|by apply default_leaf_range
    |cbn [leaf_sibling]; unfold leaf_sib; case_match; by apply default_leaf_range|apply sib_path_range].
  exfalso. cbn [position tx_id] in Hl. unfold capacity, leaf_at in Hl.
  pose proof (capacity_length (map tx_hash txs) pos) as Hc. rewrite length_map in Hc. specialize (Hc Hlt).
  rewrite Z.mod_small, Nat2Z.id in Hl.
  2:{ split; [lia|]. apply inj_lt in Hc. rewrite Nat2Z.inj_pow in Hc.
      by replace (Z.of_nat (S (depth (map tx_hash txs)))) with (Z.of_nat (depth (map tx_hash txs)) + 1) in Hc by lia. }
  change (map tx_hash txs) with (tx_hash <$> txs) in Hl. change (map id txs) with (id <$> txs) in Hl.
  rewrite !list_lookup_fmap, Ht in Hl. cbn in Hl. destruct (Forall_lookup_1 _ _ _ _ Hid Ht). congruence.
Qed.
End served.

Definition sample_block : list Transaction :=
  map (fun t => {| version := version t; inputs := inputs t; outputs := outputs t; lock_time := lock_time t;
                   subnetwork_id := subnetwork_id t; gas := gas t; payload := payload t; mass := mass t;
                   id := calc_id (HB:=toy_blake2b) t |}) [sample_tx 0].
Lemma served_proof_rejected_witness :
  exists p r, get_tx_merkle_proof (HB:=toy_blake2b) (E:=unit) (Some sample_block) (calc_id (HB:=toy_blake2b) (sample_tx 0)) 5 = Ok (Some p) /\
    calc_hash_merkle_root (HB:=toy_blake2b) (E:=unit) sample_block = Ok r /\
    (verify_merkle_proof (HB:=toy_blake2b) p r = false \/ merkle_broken (HB:=toy_blake2b)).
Proof.
  eexists _, _. split; [vm_compute; reflexivity|]. split; [vm_compute; reflexivity|].
  apply (served_proof_rejected (HB:=toy_blake2b) sample_block (calc_id (HB:=toy_blake2b) (sample_tx 0)) 5).
  - unfold zlen. simpl. lia.
  - constructor; [|constructor]. split; [vm_compute; reflexivity|]. vm_compute. discriminate.
  - vm_compute. reflexivity.
  - vm_compute. reflexivity.
Defined.
Lemma pair_roots `{HB : Blake2b} : calc_merkle_root (E:=unit) [11] = Ok (merkle_hash_from_tx 11 0) /\
  calc_merkle_root (E:=unit) [11; 0] = Ok (merkle_hash_from_tx 11 0) /\
  calc_merkle_root (E:=unit) [11; 12] = Ok (merkle_hash_from_tx 11 12) /\
  verify_merkle_proof (mkProof 12 5 11 [] 1) (merkle_hash_from_tx 11 12) = true.
Proof. split_and!; [reflexivity..|]. unfold verify_merkle_proof. cbn. apply Z.eqb_refl. Qed.
(** A list and the same list followed by a zero hash share their root. *)
Lemma merkle_root_binds_witness :
  (forall j, leaf_at [11] j = leaf_at [11; 0] j) \/ merkle_broken (HB:=toy_blake2b).
Proof.
  assert (Forall (inW 256) [11] /\ Forall (inW 256) [11; 0]) as [H1 H2] by (split; repeat constructor; lia).
  destruct (pair_roots (HB:=toy_blake2b)) as (R1 & R2 & _).
  exact (merkle_root_binds (HB:=toy_blake2b) [11] [11; 0] _ H1 H2 R1 R2).
Defined.
