(* ===== verification/Address.v ===== *)
(** * Addresses

    [crypto/addresses/src/lib.rs] and [bech32.rs]: an address is printed as the
    prefix, a colon, and the version and payload in groups of five bits followed
    by a 40-bit checksum.  Strings are lists of bytes.  The prefixes and
    versions are those of a release build. *)
From stdpp Require Import strings.
From S2P Require Import Prelude Encode.

Inductive Prefix := Mainnet | Testnet | Simnet | Devnet.
#[export] Instance Prefix_eq_dec : EqDecision Prefix.
Proof. solve_decision. Defined.
Module Version.
Inductive t := PubKeyDilithium | ScriptHash.
End Version.
#[export] Instance Version_eq_dec : EqDecision Version.t.
Proof. solve_decision. Defined.
Inductive AddressError :=
| InvalidPrefix (s : bytes)
| MissingPrefix
| InvalidVersion (v : u8)
| DecodingError (c : u8)
| BadChecksumSize
| BadChecksum
| BadPayload.

Definition prefix_as_str (p : Prefix) : bytes :=
  bytes_of_string match p with Mainnet => "sophis" | Testnet => "sophistest" | Simnet => "sophissim" | Devnet => "sophisdev" end.
Definition prefix_try_from (s : bytes) : res AddressError Prefix :=
  if bool_decide (s = bytes_of_string "sophis") then Ok Mainnet else
  if bool_decide (s = bytes_of_string "sophistest") then Ok Testnet else
  if bool_decide (s = bytes_of_string "sophissim") then Ok Simnet else
  if bool_decide (s = bytes_of_string "sophisdev") then Ok Devnet else Err (InvalidPrefix s).
Definition version_as_u8 (v : Version.t) : u8 := match v with Version.PubKeyDilithium => 2 | Version.ScriptHash => 8 end.
Definition version_try_from (value : u8) : res AddressError Version.t :=
  if value =? 2 then Ok Version.PubKeyDilithium else if value =? 8 then Ok Version.ScriptHash else Err (InvalidVersion value).
Definition public_key_len (v : Version.t) : usize := match v with Version.PubKeyDilithium => 32 | Version.ScriptHash => 32 end.

Record Address := mkAddress { addr_prefix : Prefix; addr_version : Version.t; addr_payload : bytes }.
Definition address_new {E} (p : Prefix) (v : Version.t) (b : bytes) : res E Address :=
  _ ← rassert (zlen b =? public_key_len v); Ok (mkAddress p v b).

(** ** [bech32.rs] *)
Definition CHARSET : bytes := bytes_of_string "qpzry9x8gf2tvdw0s3jn54khce6mua7l".
Definition REV_CHARSET : list u8 :=
  [100; 100; 100; 100; 100; 100; 100; 100; 100; 100; 100; 100; 100; 100; 100; 100; 100; 100; 100; 100; 100; 100; 100; 100; 100; 100;
   100; 100; 100; 100; 100; 100; 100; 100; 100; 100; 100; 100; 100; 100; 100; 100; 100; 100; 100; 100; 100; 100; 15; 100; 10; 17; 21;
   20; 26; 30; 7; 5; 100; 100; 100; 100; 100; 100; 100; 100; 100; 100; 100; 100; 100; 100; 100; 100; 100; 100; 100; 100; 100; 100;
   100; 100; 100; 100; 100; 100; 100; 100; 100; 100; 100; 100; 100; 100; 100; 100; 100; 29; 100; 24; 13; 25; 9; 8; 23; 100; 18; 22;
   31; 27; 19; 100; 1; 0; 3; 16; 11; 28; 12; 14; 6; 4; 2].

Definition xor_if (c0 bit gen c : Z) : Z := if Z.land c0 bit =? 0 then c else Z.lxor c gen.
Definition polymod_step (c : u64) (d : u8) : u64 :=
  let c0 := Z.shiftr c 35 in
  let c := Z.lxor (Z.shiftl (Z.land c 0x07ffffffff) 5) d in
  xor_if c0 0x10 0x1e4f43e470 (xor_if c0 0x08 0xae2eabe2a8 (xor_if c0 0x04 0xf33e5fb3c4
    (xor_if c0 0x02 0x79b76d99e2 (xor_if c0 0x01 0x98f2bc8e61 c)))).
Definition polymod (values : bytes) : u64 := Z.lxor (fold_left polymod_step values 1) 1.
Definition checksum (payload prefix : bytes) : u64 := polymod (prefix ++ [0] ++ payload ++ repeat 0 8).

(** [v[idx] = x] *)
Definition vec_write {E} (v : bytes) (idx : nat) (x : u8) : res E bytes :=
  if (idx <? length v)%nat then Ok (<[idx := x]> v) else Panic.
(** The inner [while bits >= to] loop; at most 12 bits are pending, so three
    rounds are enough for both widths. *)
Fixpoint drain {E} (to : Z) (fuel : nat) (v : bytes) (idx : nat) (buff : u16) (bits : Z) : res E (bytes * nat * u16 * Z) :=
  match fuel with
  | O => NoFuel
  | S fuel =>
      if bits <? to then Ok (v, idx, buff, bits) else
      let bits := bits - to in
      v ← vec_write v idx (wrap 8 (Z.shiftr buff bits));
      drain to fuel v (S idx) (Z.land buff (Z.shiftl 1 bits - 1)) bits
  end.
Fixpoint conv_loop {E} (from to : Z) (payload v : bytes) (idx : nat) (buff : u16) (bits : Z) : res E (bytes * nat * u16 * Z) :=
  match payload with
  | [] => Ok (v, idx, buff, bits)
  | c :: payload =>
      '(v, idx, buff, bits) ← drain to 3 v idx (Z.lor (wrap 16 (Z.shiftl buff from)) c) (bits + from);
      conv_loop from to payload v idx buff bits
  end.
Definition conv8to5 {E} (payload : bytes) : res E bytes :=
  let padding := if (length payload mod 5 =? 0)%nat then 0%nat else 1%nat in
  '(five_bit, current_idx, buff, bits) ← conv_loop 8 5 payload (repeat 0 (length payload * 8 / 5 + padding)) 0 0 0;
  if 0 <? bits then vec_write five_bit current_idx (wrap 8 (wrap 16 (Z.shiftl buff (5 - bits)))) else Ok five_bit.
Definition conv5to8 {E} (payload : bytes) : res E bytes :=
  '(eight_bit, _, _, _) ← conv_loop 5 8 payload (repeat 0 (length payload * 5 / 8)) 0 0 0;
  Ok eight_bit.

Definition fivebit_prefix (p : Prefix) : bytes := map (fun c => Z.land c 0x1f) (prefix_as_str p).
Definition encode_payload {E} (self : Address) : res E bytes :=
  fivebit_payload ← conv8to5 (version_as_u8 (addr_version self) :: addr_payload self);
  check ← conv8to5 (drop 3 (rev (digits 256 8 (checksum fivebit_payload (fivebit_prefix (addr_prefix self))))));
  res_mapM (fun c => unwrap (CHARSET !! Z.to_nat c)) (fivebit_payload ++ check).

(** The [scan]: the symbols up to the first invalid character, which is the
    error returned. *)
Definition rev_char (b : u8) : u8 := default 100 (REV_CHARSET !! Z.to_nat b).
Definition to_u5 (b : u8) : res AddressError u8 := if rev_char b =? 100 then Err (DecodingError b) else Ok (rev_char b).
Definition decode_payload (p : Prefix) (address : bytes) : res AddressError Address :=
  address_u5 ← res_mapM to_u5 address;
  if zlen address <? 8 then Err BadPayload else
  let payload_u5 := take (length address - 8) address_u5 in
  let checksum_u5 := drop (length address - 8) address_u5 in
  check ← conv5to8 checksum_u5;
  if negb (3 + zlen check =? 8) then Err BadChecksumSize else
  let checksum_ := undigits 256 (rev (repeat 0 3 ++ check)) in
  if negb (checksum payload_u5 (fivebit_prefix p) =? checksum_) then Err BadChecksum else
  payload_u8 ← conv5to8 payload_u5;
  match payload_u8 with
  | [] => Err BadPayload
  | v :: rest => v ← version_try_from v; address_new p v rest
  end.

(** ** Strings *)
Definition colon : u8 := 58.
Definition address_to_string {E} (a : Address) : res E bytes :=
  s ← encode_payload a; Ok (prefix_as_str (addr_prefix a) ++ colon :: s).
Fixpoint split_once (sep : u8) (s : bytes) : option (bytes * bytes) :=
  match s with
  | [] => None
  | b :: s => if b =? sep then Some ([], s) else prod_map (cons b) id <$> split_once sep s
  end.
Definition address_try_from (value : bytes) : res AddressError Address :=
  match split_once colon value with
  | Some (p, s) => p ← prefix_try_from p; decode_payload p s
  | None => Err MissingPrefix
  end.

(** ** Regrouping bits *)

(** The number a list of [w]-bit digits denotes, most significant first. *)
Definition be (w : Z) (l : bytes) : Z := undigits (2 ^ w) (rev l).
Lemma be_snoc w l x : be w (l ++ [x]) = be w l * 2 ^ w + x.
Proof. unfold be. rewrite rev_app_distr. cbn [rev app undigits]. lia. Qed.
Lemma be_inj w l k : 0 < w -> length l = length k -> Forall (is_digit (2 ^ w)) l -> Forall (is_digit (2 ^ w)) k ->
  be w l = be w k -> l = k.
Proof.
  intros Hw Hlen Hl Hk Heq. rewrite <- (rev_involutive l), <- (rev_involutive k). f_equal.
  apply (undigits_inj (2 ^ w)); [|by rewrite !length_rev|by apply Forall_rev|by apply Forall_rev|done].
  apply Z.pow_gt_1; lia.
Qed.

Lemma split_buff buff bits to : 0 <= to <= bits -> 0 <= buff < 2 ^ bits ->
  buff = Z.shiftr buff (bits - to) * 2 ^ (bits - to) + Z.land buff (Z.shiftl 1 (bits - to) - 1) /\
  0 <= Z.shiftr buff (bits - to) < 2 ^ to /\ 0 <= Z.land buff (Z.shiftl 1 (bits - to) - 1) < 2 ^ (bits - to).
Proof.
  intros Hto Hb. rewrite Z.shiftl_1_l, Z.sub_1_r, <- Z.ones_equiv, Z.land_ones by lia.
  rewrite Z.shiftr_div_pow2 by lia. assert (0 < 2 ^ (bits - to)) as Hp by (apply Z.pow_pos_nonneg; lia).
  pose proof (Z.div_mod buff (2 ^ (bits - to))). pose proof (Z.mod_pos_bound buff _ Hp).
  split_and!; try lia; [apply Z.div_pos; lia|]. apply Z.div_lt_upper_bound; [done|].
  rewrite <- Z.pow_add_r by lia. replace (bits - to + to) with bits by lia. lia.
Qed.

Lemma write_next {E} o m x : vec_write (E:=E) (o ++ repeat 0 (S m)) (length o) x = Ok ((o ++ [x]) ++ repeat 0 m).
Proof.
  unfold vec_write. rewrite (proj2 (Nat.ltb_lt _ _)) by (rewrite length_app; simpl; lia).
  f_equal. rewrite <- (Nat.add_0_r (length o)), insert_app_r, <- app_assoc. done.
Qed.

(** The vector holds [o] and [m] zeros; [drain] moves whole digits to [o]. *)
Lemma drain_ok {E} to fuel : 0 < to <= 8 -> forall o m buff bits,
  0 <= bits < to * Z.of_nat fuel -> 0 <= buff < 2 ^ bits -> bits < to * (Z.of_nat m + 1) ->
  exists d buff' bits', drain (E:=E) to fuel (o ++ repeat 0 m) (length o) buff bits =
      Ok ((o ++ d) ++ repeat 0 (m - length d), (length o + length d)%nat, buff', bits') /\
    (length d <= m)%nat /\ bits = to * zlen d + bits' /\ 0 <= bits' < to /\ 0 <= buff' < 2 ^ bits' /\
    Forall (is_digit (2 ^ to)) d /\ be to (o ++ d) * 2 ^ bits' + buff' = be to o * 2 ^ bits + buff.
Proof.
  intros Hto. induction fuel as [|fuel IH]; intros o m buff bits Hbits Hbuff Hroom; [lia|].
  cbn [drain]. destruct (Z.ltb_spec bits to) as [Hlt|Hge].
  { exists [], buff, bits. rewrite app_nil_r, Nat.add_0_r, Nat.sub_0_r. split_and!; try done; try (unfold zlen; simpl; lia). }
  destruct m as [|m]; [lia|]. destruct (split_buff buff bits to ltac:(lia) Hbuff) as (Hsplit & Hhi & Hlo).
  assert (2 ^ to <= 2 ^ 8) as Hp by (apply Z.pow_le_mono_r; lia). cbv zeta.
  rewrite wrap_small by (unfold inW; lia). rewrite write_next. cbn [mbind res_bind].
  destruct (IH (o ++ [Z.shiftr buff (bits - to)]) m (Z.land buff (Z.shiftl 1 (bits - to) - 1)) (bits - to))
    as (d & buff' & bits' & Hd & Hlen & Hb & Hr1 & Hr2 & Hf & Hv); [lia|done|lia|].
  rewrite length_app in Hd. cbn [length] in Hd. rewrite Nat.add_1_r in Hd.
  exists (Z.shiftr buff (bits - to) :: d), buff', bits'. split_and!; try done; try (rewrite ?zlen_cons; simpl; lia).
  - rewrite Hd. f_equal. cbn [length]. rewrite Nat.sub_succ, <- !app_assoc, Nat.add_succ_r. done.
  - by constructor.
  - rewrite <- app_assoc in Hv. cbn [app] in Hv. rewrite Hv, be_snoc. rewrite Hsplit at 3.
    rewrite Z.mul_add_distr_r, <- Z.mul_assoc, <- Z.pow_add_r by lia. replace (to + (bits - to)) with bits by lia. lia.
Qed.

Lemma be_cons w x l : 0 <= w -> be w (x :: l) = x * 2 ^ (w * zlen l) + be w l.
Proof.
  intros Hw. unfold be. cbn [rev]. rewrite undigits_app. cbn [undigits]. unfold zlen. rewrite length_rev.
  rewrite Z.pow_mul_r by lia. ring.
Qed.
Lemma be_range w l : 0 < w -> Forall (is_digit (2 ^ w)) l -> 0 <= be w l < 2 ^ (w * zlen l).
Proof.
  intros Hw Hl. unfold be. rewrite Z.pow_mul_r by (unfold zlen; lia).
  replace (zlen l) with (zlen (rev l)) by (unfold zlen; by rewrite length_rev).
  apply undigits_range; [apply Z.pow_gt_1; lia|by apply Forall_rev].
Qed.

Lemma conv_loop_ok {E} from to l : 0 < to <= 8 -> 0 < from <= 8 -> from <= 2 * to ->
  Forall (is_digit (2 ^ from)) l -> forall o m buff bits,
  0 <= bits < to -> 0 <= buff < 2 ^ bits -> bits + from * zlen l < to * (Z.of_nat m + 1) ->
  exists d buff' bits', conv_loop (E:=E) from to l (o ++ repeat 0 m) (length o) buff bits =
      Ok ((o ++ d) ++ repeat 0 (m - length d), (length o + length d)%nat, buff', bits') /\
    (length d <= m)%nat /\ bits + from * zlen l = to * zlen d + bits' /\ 0 <= bits' < to /\ 0 <= buff' < 2 ^ bits' /\
    Forall (is_digit (2 ^ to)) d /\
    be to (o ++ d) * 2 ^ bits' + buff' = (be to o * 2 ^ bits + buff) * 2 ^ (from * zlen l) + be from l.
Proof.
  intros Hto Hfrom Hft. induction 1 as [|c l Hc Hl IH]; intros o m buff bits Hbits Hbuff Hroom.
  { exists [], buff, bits. cbn [length conv_loop]. rewrite app_nil_r, Nat.add_0_r, Nat.sub_0_r.
    change (be from []) with 0. change (zlen (@nil Z)) with 0. rewrite !Z.mul_0_r. split_and!; try done; lia. }
  cbn [conv_loop]. rewrite zlen_cons in *. pose proof (zlen_nonneg l) as Hl0.
  assert (2 ^ bits <= 2 ^ 8) as Hp1 by (apply Z.pow_le_mono_r; lia).
  assert (2 ^ from <= 2 ^ 8) as Hp2 by (apply Z.pow_le_mono_r; lia).
  assert (0 < 2 ^ from) as Hp3 by (apply Z.pow_pos_nonneg; lia).
  unfold is_digit in Hc. rewrite wrap_small by (unfold inW; rewrite Z.shiftl_mul_pow2 by lia; nia).
  rewrite lor_pow2_add by lia.
  assert (0 <= buff * 2 ^ from + c < 2 ^ (bits + from)) as Hnew by (rewrite Z.pow_add_r by lia; nia).
  destruct (drain_ok (E:=E) to 3 Hto o m (buff * 2 ^ from + c) (bits + from))
    as (d1 & buff1 & bits1 & -> & Hlen1 & Hb1 & Hr1 & Hv1 & Hf1 & Heq1); [lia|done|nia|].
  cbn [mbind res_bind].
  destruct (IH (o ++ d1) (m - length d1)%nat buff1 bits1) as (d2 & buff2 & bits2 & Hd2 & Hlen2 & Hb2 & Hr2 & Hv2 & Hf2 & Heq2);
    [done|done|unfold zlen in *; nia|].
  exists (d1 ++ d2), buff2, bits2. rewrite length_app in Hd2. rewrite Hd2, zlen_app, length_app, app_assoc.
  split_and!; try done; try lia.
  - by rewrite Nat.sub_add_distr, Nat.add_assoc.
  - by apply Forall_app.
  - rewrite Heq2, Heq1, be_cons by lia. rewrite Z.mul_add_distr_l, Z.mul_1_r. rewrite !Z.pow_add_r by lia. ring.
Qed.

Lemma conv8to5_ok {E} p : is_bytes p -> exists q k, conv8to5 (E:=E) p = Ok q /\
  5 * zlen q = 8 * zlen p + k /\ 0 <= k < 5 /\ Forall (is_digit (2 ^ 5)) q /\ be 5 q = be 8 p * 2 ^ k.
Proof.
  intros Hp. unfold conv8to5. set (m := (length p * 8 / 5 + _)%nat).
  assert (8 * zlen p = 5 * Z.of_nat (length p * 8 / 5) + (8 * zlen p) mod 5 /\
    Z.of_nat m = Z.of_nat (length p * 8 / 5) + (if (8 * zlen p) mod 5 =? 0 then 0 else 1)) as [Hq Hm].
  { subst m. unfold zlen. pose proof (Nat.div_mod_eq (length p) 5). pose proof (Nat.mod_upper_bound (length p) 5).
    rewrite Nat2Z.inj_add, Nat2Z.inj_div, Nat2Z.inj_mul.
    destruct (Nat.eqb_spec (length p mod 5) 0), (Z.eqb_spec ((8 * Z.of_nat (length p)) mod 5) 0); split;
      Z.div_mod_to_equations; lia. }
  clearbody m. pose proof (Z.mod_pos_bound (8 * zlen p) 5 ltac:(lia)) as Hmod.
  destruct (conv_loop_ok (E:=E) 8 5 p ltac:(lia) ltac:(lia) ltac:(lia) Hp [] m 0 0)
    as (d & buff & bits & Hd & Hlen & Hb & Hr & Hv & Hf & Heq); [lia|done|destruct (_ =? 0); lia|].
  cbn [app length Nat.add] in Hd. rewrite Hd. cbn [mbind res_bind]. cbn [app] in Heq. change (be 5 []) with 0 in Heq.
  assert (zlen d = Z.of_nat (length p * 8 / 5) /\ bits = (8 * zlen p) mod 5) as [Hdl Hbits] by lia.
  destruct (Z.ltb_spec 0 bits) as [Hpos|Hzero].
  - rewrite (proj2 (Z.eqb_neq _ _)) in Hm by lia. assert (m - length d = 1)%nat as Hone by (unfold zlen in *; lia). rewrite Hone.
    rewrite write_next. rewrite app_nil_r. exists (d ++ [buff * 2 ^ (5 - bits)]), (5 - bits).
    assert (2 ^ bits * 2 ^ (5 - bits) = 32) as Hp32 by (rewrite <- Z.pow_add_r by lia; by replace (bits + (5 - bits)) with 5 by lia).
    assert (0 < 2 ^ (5 - bits)) by (apply Z.pow_pos_nonneg; lia).
    assert (0 <= buff * 2 ^ (5 - bits) < 32) as Hlast by nia. rewrite Z.shiftl_mul_pow2 by lia.
    rewrite (wrap_small 16), (wrap_small 8) by (unfold inW; lia). split_and!; try done; try lia.
    + rewrite zlen_app. change (zlen [_]) with 1. lia.
    + apply Forall_app. split; [done|]. repeat constructor; unfold is_digit; lia.
    + rewrite be_snoc. change (2 ^ 5) with 32. rewrite <- Hp32. nia.
  - rewrite (proj2 (Z.eqb_eq _ _)) in Hm by lia. assert (m - length d = 0)%nat as -> by (unfold zlen in *; lia).
    exists d, 0. rewrite app_nil_r. split_and!; try done; try lia.
    replace bits with 0 in * by lia. change (2 ^ 0) with 1 in *. lia.
Qed.
Lemma conv5to8_ok {E} q : Forall (is_digit (2 ^ 5)) q -> exists p k x, conv5to8 (E:=E) q = Ok p /\
  8 * zlen p + k = 5 * zlen q /\ 0 <= k < 8 /\ 0 <= x < 2 ^ k /\ is_bytes p /\ be 8 p * 2 ^ k + x = be 5 q.
Proof.
  intros Hq. unfold conv5to8.
  assert (5 * zlen q = 8 * Z.of_nat (length q * 5 / 8) + (5 * zlen q) mod 8) as Hm by
    (unfold zlen; rewrite Nat2Z.inj_div, Nat2Z.inj_mul; Z.div_mod_to_equations; lia).
  pose proof (Z.mod_pos_bound (5 * zlen q) 8 ltac:(lia)) as Hmod.
  destruct (conv_loop_ok (E:=E) 5 8 q ltac:(lia) ltac:(lia) ltac:(lia) Hq [] (length q * 5 / 8) 0 0)
    as (d & buff & bits & Hd & Hlen & Hb & Hr & Hv & Hf & Heq); [lia|done|lia|].
  cbn [app length Nat.add] in Hd. rewrite Hd. cbn [mbind res_bind]. cbn [app] in Heq. change (be 8 []) with 0 in Heq.
  assert (length q * 5 / 8 - length d = 0)%nat as -> by (unfold zlen in *; lia). rewrite app_nil_r.
  exists d, bits, buff. split_and!; try done; lia.
Qed.
Lemma conv_roundtrip {E} p q : is_bytes p -> conv8to5 (E:=E) p = Ok q -> conv5to8 (E:=E) q = Ok p.
Proof.
  intros Hp Hq. destruct (conv8to5_ok (E:=E) p Hp) as (q' & k & Hq' & Hl & Hk & Hf & Hv). rewrite Hq in Hq'. injection Hq' as <-.
  destruct (conv5to8_ok (E:=E) q Hf) as (r & k' & x & -> & Hl' & Hk' & Hx & Hr & Hv'). f_equal.
  assert (k' = k) as -> by lia. apply (be_inj 8); [lia|unfold zlen in *; lia|done|done|].
  assert (0 < 2 ^ k) by (apply Z.pow_pos_nonneg; lia). nia.
Qed.

(** ** The checksum *)
Definition generator (c0 : Z) : Z :=
  xor_if c0 0x10 0x1e4f43e470 (xor_if c0 0x08 0xae2eabe2a8 (xor_if c0 0x04 0xf33e5fb3c4
    (xor_if c0 0x02 0x79b76d99e2 (xor_if c0 0x01 0x98f2bc8e61 0)))).

Lemma xor_if_lxor c0 b g c x : xor_if c0 b g (Z.lxor c x) = Z.lxor c (xor_if c0 b g x).
Proof. unfold xor_if. destruct (_ =? 0); [done|]. by rewrite Z.lxor_assoc. Qed.
Lemma polymod_step_generator c d :
  polymod_step c d = Z.lxor (Z.lxor (Z.shiftl (Z.land c (2 ^ 35 - 1)) 5) d) (generator (Z.shiftr c 35)).
Proof.
  unfold polymod_step, generator. change 0x07ffffffff with (2 ^ 35 - 1). set (x := Z.lxor _ d).
  rewrite <- (Z.lxor_0_r x) at 1. by rewrite !xor_if_lxor.
Qed.
Lemma lxor_range w a b : 0 <= w -> inW w a -> inW w b -> inW w (Z.lxor a b).
Proof.
  intros Hw Ha Hb. unfold inW in *. assert (Z.lxor a b mod 2 ^ w = Z.lxor a b) as <-; [|by apply Z.mod_pos_bound, Z.pow_pos_nonneg].
  rewrite <- (Z.mod_small a (2 ^ w)), <- (Z.mod_small b (2 ^ w)) by done. apply Z.bits_inj'. intros j Hj.
  destruct (Z.lt_ge_cases j w); [by rewrite Z.mod_pow2_bits_low|].
  rewrite Z.mod_pow2_bits_high, Z.lxor_spec, !Z.mod_pow2_bits_high by lia. done.
Qed.
Lemma generator_table : forallb (fun i => inWb 40 (generator (Z.of_nat i)) &&
    forallb (fun j => (i =? j)%nat || negb (generator (Z.of_nat i) mod 32 =? generator (Z.of_nat j) mod 32)) (seq 0 32)) (seq 0 32) = true.
Proof. vm_compute. reflexivity. Qed.
Lemma generator_range i : 0 <= i < 32 -> inW 40 (generator i).
Proof.
  intros Hi. pose proof (proj1 (forallb_forall _ _) generator_table (Z.to_nat i)) as Ht. rewrite in_seq, Z2Nat.id in Ht by lia.
  specialize (Ht ltac:(lia)). apply andb_prop in Ht as [Ht _]. unfold inWb, inW in *. lia.
Qed.
Lemma generator_inj i j : 0 <= i < 32 -> 0 <= j < 32 -> generator i mod 32 = generator j mod 32 -> i = j.
Proof.
  intros Hi Hj Heq. pose proof (proj1 (forallb_forall _ _) generator_table (Z.to_nat i)) as Ht. rewrite in_seq, Z2Nat.id in Ht by lia.
  specialize (Ht ltac:(lia)). apply andb_prop in Ht as [_ Ht].
  apply (proj1 (forallb_forall _ _)) with (x := Z.to_nat j) in Ht; [|apply in_seq; lia].
  rewrite (Z2Nat.id j), Heq, Z.eqb_refl, orb_false_r in Ht by lia. apply Nat.eqb_eq in Ht. lia.
Qed.
Lemma polymod_split c : inW 40 c -> 0 <= Z.shiftr c 35 < 32 /\ 0 <= Z.land c (2 ^ 35 - 1) < 2 ^ 35 /\
  c = Z.shiftr c 35 * 2 ^ 35 + Z.land c (2 ^ 35 - 1).
Proof.
  intros Hc. destruct (split_buff c 40 5 ltac:(lia) Hc) as (H1 & H2 & H3).
  change (40 - 5) with 35 in *. change (Z.shiftl 1 35 - 1) with (2 ^ 35 - 1) in *. change (2 ^ 5) with 32 in H2. lia.
Qed.
Lemma polymod_step_range c d : inW 40 c -> is_digit 32 d -> inW 40 (polymod_step c d).
Proof.
  intros Hc Hd. rewrite polymod_step_generator. destruct (polymod_split c Hc) as (Hhi & Hlo & _).
  apply lxor_range; [lia| |by apply generator_range]. apply lxor_range; [lia| |unfold inW, is_digit in *; lia].
  unfold inW. rewrite Z.shiftl_mul_pow2 by lia. lia.
Qed.
Lemma lxor_cancel_r a b x : Z.lxor a x = Z.lxor b x -> a = b.
Proof. intros H. apply (f_equal (fun z => Z.lxor z x)) in H. by rewrite !Z.lxor_assoc, !Z.lxor_nilpotent, !Z.lxor_0_r in H. Qed.
Lemma polymod_step_inj c c' d : inW 40 c -> inW 40 c' -> polymod_step c d = polymod_step c' d -> c = c'.
Proof.
  intros Hc Hc'. rewrite !polymod_step_generator.
  destruct (polymod_split c Hc) as (Hhi & Hlo & Heq). destruct (polymod_split c' Hc') as (Hhi' & Hlo' & Heq').
  intros Hx. rewrite Heq, Heq'.
  assert (Z.shiftr c 35 = Z.shiftr c' 35) as Hs.
  { apply generator_inj; [done|done|]. change 32 with (2 ^ 5). apply Z.bits_inj'. intros j Hj.
    destruct (Z.lt_ge_cases j 5); [|by rewrite !Z.mod_pow2_bits_high by lia]. rewrite !Z.mod_pow2_bits_low by lia.
    apply (f_equal (fun z => Z.testbit z j)) in Hx. rewrite !Z.lxor_spec, !Z.shiftl_spec, !(Z.testbit_neg_r _ (j - 5)) in Hx by lia.
    by destruct (Z.testbit d j), (Z.testbit (generator _) j), (Z.testbit (generator _) j). }
  rewrite Hs in *. apply lxor_cancel_r, lxor_cancel_r in Hx. rewrite !Z.shiftl_mul_pow2 in Hx by lia. lia.
Qed.
Abbreviation symbols := (Forall (is_digit 32)) (only parsing).
Lemma polymod_fold_range l c : symbols l -> inW 40 c -> inW 40 (fold_left polymod_step l c).
Proof. intros Hl. revert c. induction Hl as [|d l Hd Hl IH]; intros c Hc; [done|]. by apply IH, polymod_step_range. Qed.
Lemma polymod_fold_inj l c c' : symbols l -> inW 40 c -> inW 40 c' ->
  fold_left polymod_step l c = fold_left polymod_step l c' -> c = c'.
Proof.
  intros Hl. revert c c'. induction Hl as [|d l Hd Hl IH]; intros c c' Hc Hc' Heq; [done|].
  apply (polymod_step_inj c c' d); [done..|]. by apply IH; [apply polymod_step_range..|].
Qed.
Lemma symbols_app l k : symbols l -> symbols k -> symbols (l ++ k).
Proof. intros. by apply Forall_app. Qed.
Lemma symbols_zeros n : symbols (repeat 0 n).
Proof. by apply zeros_digit. Qed.
Lemma fivebit_prefix_symbols p : symbols (fivebit_prefix p).
Proof. destruct p; vm_compute; repeat constructor; done. Qed.
Create HintDb bech32.
#[export] Hint Resolve symbols_app symbols_zeros fivebit_prefix_symbols polymod_fold_range polymod_step_range : bech32.
Lemma zero_symbol : symbols [0].
Proof. by repeat constructor. Qed.
Lemma zero_digit : is_digit 32 0.
Proof. done. Qed.
Lemma one_range : inW 40 1.
Proof. by unfold inW. Qed.
#[export] Hint Resolve zero_symbol zero_digit one_range : bech32.
Lemma checksum_range l p : symbols l -> inW 40 (checksum l (fivebit_prefix p)).
Proof. intros Hl. apply lxor_range; [lia|auto 8 with bech32|done]. Qed.
(** Changing one symbol changes the checksum. *)
Lemma checksum_change l x y k p : symbols l -> symbols k -> is_digit 32 x -> is_digit 32 y -> x <> y ->
  checksum (l ++ x :: k) (fivebit_prefix p) <> checksum (l ++ y :: k) (fivebit_prefix p).
Proof.
  intros Hl Hk Hx Hy Hne Heq. apply Hne. unfold checksum, polymod in Heq. apply lxor_cancel_r in Heq. revert Heq.
  rewrite <- !app_assoc, !fold_left_app. cbn [app fold_left]. intros Heq.
  set (c := fold_left polymod_step l _) in Heq. assert (inW 40 c) as Hc by (apply polymod_fold_range; auto 8 with bech32).
  apply polymod_fold_inj in Heq; [|auto with bech32..]. apply polymod_fold_inj in Heq; [|auto with bech32..].
  rewrite !polymod_step_generator in Heq. apply lxor_cancel_r in Heq. rewrite !(Z.lxor_comm (Z.shiftl _ 5)) in Heq.
  by apply lxor_cancel_r in Heq.
Qed.

(** ** Characters *)
Lemma charset_table : forallb (fun i => match CHARSET !! i with Some c => rev_char c =? Z.of_nat i | None => false end) (seq 0 32) = true.
Proof. reflexivity. Qed.
Lemma rev_charset_table : forallb (fun b => (rev_char b =? 100) ||
  ((0 <=? rev_char b) && (rev_char b <? 32) && bool_decide (CHARSET !! Z.to_nat (rev_char b) = Some b))) (map Z.of_nat (seq 0 123)) = true.
Proof. reflexivity. Qed.
Lemma char_of_symbol x : is_digit 32 x -> exists c, CHARSET !! Z.to_nat x = Some c /\ to_u5 c = Ok x.
Proof.
  intros Hx. unfold is_digit in Hx. pose proof (proj1 (forallb_forall _ _) charset_table (Z.to_nat x)) as Ht.
  rewrite in_seq in Ht. specialize (Ht ltac:(lia)). destruct (CHARSET !! Z.to_nat x) as [c|]; [|done].
  exists c. split; [done|]. unfold to_u5. rewrite Z2Nat.id in Ht by lia. apply Z.eqb_eq in Ht. rewrite Ht.
  by rewrite (proj2 (Z.eqb_neq _ _)) by lia.
Qed.
Lemma symbol_of_char b x : is_digit 256 b -> to_u5 b = Ok x -> is_digit 32 x /\ CHARSET !! Z.to_nat x = Some b.
Proof.
  intros Hb. unfold to_u5. destruct (Z.eqb_spec (rev_char b) 100) as [|Hne]; [done|]. intros [= <-].
  assert (b < 123) as Hlt.
  { destruct (Z.lt_ge_cases b 123); [done|]. exfalso. apply Hne. unfold rev_char.
    by rewrite lookup_ge_None_2 by (unfold is_digit in Hb; cbn [length REV_CHARSET]; lia). }
  pose proof (proj1 (forallb_forall _ _) rev_charset_table b) as Ht. rewrite in_map_iff in Ht. unfold is_digit in Hb.
  specialize (Ht ltac:(exists (Z.to_nat b); rewrite in_seq; lia)). rewrite (proj2 (Z.eqb_neq _ _)) in Ht by done. cbn [orb] in Ht.
  apply andb_prop in Ht as [Ht Hc]. apply bool_decide_eq_true in Hc. unfold is_digit. split; [lia|done].
Qed.
Lemma encode_symbols {E} l : symbols l -> exists s, res_mapM (E:=E) (fun c => unwrap (CHARSET !! Z.to_nat c)) l = Ok s /\
  res_mapM to_u5 s = Ok l /\ length s = length l.
Proof.
  induction 1 as [|x l Hx Hl (s & Hs & Hu & Hlen)]; [by exists []|]. destruct (char_of_symbol x Hx) as (c & Hc & Hx').
  exists (c :: s). cbn [res_mapM]. rewrite Hc, Hs. cbn [unwrap mbind res_bind]. rewrite Hx', Hu. cbn [mbind res_bind length].
  by rewrite Hlen.
Qed.

(** ** Decoding *)
Definition decode_rest (p : Prefix) (payload_u5 : bytes) : res AddressError Address :=
  payload_u8 ← conv5to8 payload_u5;
  match payload_u8 with
  | [] => Err BadPayload
  | v :: rest => v ← version_try_from v; address_new p v rest
  end.
Lemma check_value {E} q : symbols q -> length q = 8%nat -> exists ck, conv5to8 (E:=E) q = Ok ck /\ zlen ck = 5 /\
  undigits 256 (rev (repeat 0 3 ++ ck)) = be 5 q.
Proof.
  intros Hq Hlen. destruct (conv5to8_ok (E:=E) q Hq) as (ck & k & x & -> & Hl & Hk & Hx & Hb & Hv). exists ck.
  unfold zlen in Hl. rewrite Hlen in Hl. assert (k = 0) as -> by lia. change (2 ^ 0) with 1 in *. split_and!; [done|unfold zlen; lia|].
  rewrite rev_app_distr, undigits_app, rev_repeat, undigits_zeros, <- Hv. unfold be. change (2 ^ 8) with 256. lia.
Qed.
(** What decoding checks, once the characters are read as symbols. *)
Lemma decode_symbols p s u : res_mapM to_u5 s = Ok u -> symbols u -> length s = length u ->
  decode_payload p s = if zlen s <? 8 then Err BadPayload else
    if checksum (take (length s - 8) u) (fivebit_prefix p) =? be 5 (drop (length s - 8) u)
    then decode_rest p (take (length s - 8) u) else Err BadChecksum.
Proof.
  intros Hu Hsym Hlen. unfold decode_payload. rewrite Hu. cbn [mbind res_bind].
  destruct (Z.ltb_spec (zlen s) 8) as [|Hge]; [done|]. unfold zlen in Hge.
  destruct (check_value (E:=AddressError) (drop (length s - 8) u)) as (ck & -> & Hck & Hval).
  { by apply Forall_drop. }
  { rewrite length_drop. lia. }
  cbn [mbind res_bind]. rewrite Hck, Hval. change (negb (3 + 5 =? 8)) with false. cbv iota. by destruct (checksum _ _ =? _).
Qed.
Lemma digits_high c : inW 40 c -> digits 256 8 c = digits 256 5 c ++ repeat 0 3.
Proof.
  intros Hc. apply (undigits_inj 256); [done|by rewrite length_app, !length_digits| | |].
  - by apply digits_range.
  - apply Forall_app. split; [by apply digits_range|by apply zeros_digit].
  - rewrite undigits_app, undigits_zeros, !undigits_digits_small by (unfold inW in *; cbn; lia). lia.
Qed.
Lemma encode_decode p v b : is_bytes b -> exists s, encode_payload (E:=AddressError) (mkAddress p v b) = Ok s /\
  decode_payload p s = address_new p v b.
Proof.
  intros Hb. unfold encode_payload. cbn [addr_prefix addr_version addr_payload].
  assert (is_bytes (version_as_u8 v :: b)) as Hvb by (constructor; [destruct v; done|done]).
  destruct (conv8to5_ok (E:=AddressError) _ Hvb) as (five & k & Hfive & Hl & Hk & Hsym & _). rewrite Hfive. cbn [mbind res_bind].
  set (cs := checksum five (fivebit_prefix p)). assert (inW 40 cs) as Hcs by by apply checksum_range.
  rewrite digits_high, rev_app_distr, rev_repeat by done. change (drop 3 (repeat 0 3 ++ ?x)) with x.
  assert (is_bytes (rev (digits 256 5 cs))) as Hcb by by apply Forall_rev, digits_range.
  destruct (conv8to5_ok (E:=AddressError) _ Hcb) as (check & k' & -> & Hl' & Hk' & Hsym' & Hv'). cbn [mbind res_bind].
  unfold zlen in Hl'. rewrite length_rev, length_digits in Hl'. assert (k' = 0) as -> by lia. rewrite Z.mul_1_r in Hv'.
  destruct (encode_symbols (E:=AddressError) (five ++ check)) as (s & Hs & Hu & Hlen); [by apply symbols_app|].
  exists s. split; [done|]. rewrite (decode_symbols p s (five ++ check)); [|done|by apply symbols_app|done].
  rewrite length_app in Hlen. rewrite (proj2 (Z.ltb_ge _ _)) by (unfold zlen; lia).
  rewrite take_app_length', drop_app_length' by lia. rewrite Hv'. unfold be. rewrite rev_involutive.
  rewrite undigits_digits_small by done. rewrite Z.eqb_refl. unfold decode_rest.
  rewrite (conv_roundtrip (version_as_u8 v :: b)); [|done|].
  - cbn [mbind res_bind]. by destruct v.
  - done.
Qed.

Lemma mapM_app {E A B} (f : A -> res E B) l k :
  res_mapM f (l ++ k) = (x ← res_mapM f l; y ← res_mapM f k; Ok (x ++ y)).
Proof.
  induction l as [|a l IH]; [cbn; by destruct (res_mapM f k)|]. cbn [app res_mapM]. rewrite IH.
  destruct (f a); try done. cbn [mbind res_bind]. destruct (res_mapM f l); try done. cbn [mbind res_bind].
  by destruct (res_mapM f k).
Qed.
Lemma mapM_symbols s u : is_bytes s -> res_mapM to_u5 s = Ok u -> symbols u /\ length s = length u.
Proof.
  intros Hs. revert u. induction Hs as [|b s Hb Hs IH]; intros u Hu; [by injection Hu as <-|].
  cbn [res_mapM] in Hu. bind_inv Hu. bind_inv Hu. injection Hu as <-.
  destruct (IH _ Ha0) as [H1 H2]. split; [|simpl; by rewrite H2]. constructor; [|done]. by apply (symbol_of_char b).
Qed.

(** Decoding a body in which one symbol was replaced. *)
Lemma decode_changed p l x y k s s' : symbols l -> symbols k -> is_digit 32 x -> is_digit 32 y -> x <> y ->
  res_mapM to_u5 s = Ok (l ++ x :: k) -> length s = length (l ++ x :: k) ->
  res_mapM to_u5 s' = Ok (l ++ y :: k) -> length s' = length (l ++ y :: k) ->
  (exists a, decode_payload p s = Ok a) -> decode_payload p s' = Err BadChecksum.
Proof.
  intros Hl Hk Hx Hy Hne Hs Hlen Hs' Hlen' [a Ha].
  rewrite (decode_symbols p s _ Hs) in Ha; [|by apply symbols_app; [|constructor]|done].
  rewrite (decode_symbols p s' _ Hs'); [|by apply symbols_app; [|constructor]|done].
  assert (length s = length s') as Hss by (rewrite Hlen, Hlen', !length_app; done).
  unfold zlen in *. rewrite Hss in Ha. destruct (_ <? 8); [done|]. set (n := (length s' - 8)%nat) in *.
  destruct (Z.eqb_spec (checksum (take n (l ++ x :: k)) (fivebit_prefix p)) (be 5 (drop n (l ++ x :: k)))) as [Heq|]; [|done].
  rewrite (proj2 (Z.eqb_neq _ _)); [done|]. intros Heq'. destruct (le_lt_dec n (length l)) as [Hn|Hn].
  - rewrite !take_app_le in Heq, Heq' by done. rewrite !drop_app_le in Heq, Heq' by done. rewrite Heq in Heq'.
    apply (be_inj 5) in Heq'; [|lia|by rewrite !length_app|..]; [by apply app_inv_head in Heq' as [= ?]|..].
    all: apply Forall_app; split; [by apply Forall_drop|by constructor].
  - rewrite !take_app_ge in Heq, Heq' by lia. rewrite !drop_app_ge in Heq, Heq' by lia.
    destruct (n - length l)%nat as [|j] eqn:Hj; [lia|]. cbn [firstn skipn] in Heq, Heq'. rewrite <- Heq in Heq'.
    symmetry in Heq'. revert Heq'. apply checksum_change; try done. by apply Forall_take.
Qed.

Lemma split_prefix p s : split_once colon (prefix_as_str p ++ colon :: s) = Some (prefix_as_str p, s).
Proof. by destruct p. Qed.
Lemma prefix_roundtrip p : prefix_try_from (prefix_as_str p) = Ok p.
Proof. by destruct p. Qed.
Lemma try_from_encoded p v b : is_bytes b -> exists s, address_to_string (E:=AddressError) (mkAddress p v b) = Ok s /\
  address_try_from s = address_new p v b.
Proof.
  intros Hb. destruct (encode_decode p v b Hb) as (s & Hs & Hd). unfold address_to_string. rewrite Hs. eexists. split; [done|].
  unfold address_try_from. cbn [addr_prefix]. rewrite split_prefix, prefix_roundtrip. done.
Qed.

(** Addresses are printed and read back: the string of every address with a 32-byte payload is read as that address. *)
Theorem address_roundtrip a : is_bytes (addr_payload a) -> zlen (addr_payload a) = 32 ->
  exists s, address_to_string (E:=AddressError) a = Ok s /\ address_try_from s = Ok a.
Proof.
  destruct a as [p v b]. cbn [addr_payload]. intros Hb Hlen. destruct (try_from_encoded p v b Hb) as (s & Hs & Hd).
  exists s. split; [done|]. rewrite Hd. unfold address_new. rewrite Hlen. by destruct v.
Qed.
Definition sample_address (n : nat) : Address := mkAddress Mainnet Version.PubKeyDilithium (repeat 7 n).
Lemma address_roundtrip_witness : exists s, address_to_string (E:=AddressError) (sample_address 32) = Ok s /\
  address_try_from s = Ok (sample_address 32).
Proof. apply address_roundtrip; [repeat constructor; unfold is_digit; lia|reflexivity]. Defined.

(** The checksum detects every error in a single character: when the body of an address is accepted, replacing
    any one of its bytes by any other, in the payload or in the checksum itself, gives a body that is refused. *)
Theorem address_error_detected p l b c k : is_bytes (l ++ b :: k) -> is_digit 256 c -> b <> c ->
  (exists a, decode_payload p (l ++ b :: k) = Ok a) ->
  decode_payload p (l ++ c :: k) = Err (DecodingError c) \/ decode_payload p (l ++ c :: k) = Err BadChecksum.
Proof.
  intros Hb Hc Hne [a Ha]. apply Forall_app in Hb as [Hl [Hb Hk]%Forall_cons]. pose proof Ha as Hd. unfold decode_payload in Hd.
  apply bind_ok in Hd as (u & Hu & _). pose proof Hu as Hmap. rewrite mapM_app in Hu.
  apply bind_ok in Hu as (ul & Hul & Hu). apply bind_ok in Hu as (uk' & Huk & [= <-]). cbn [res_mapM] in Huk.
  apply bind_ok in Huk as (x & Hxb & Huk). apply bind_ok in Huk as (uk & Huk & [= <-]).
  destruct (mapM_symbols _ _ Hl Hul) as [Hsl Hll]. destruct (mapM_symbols _ _ Hk Huk) as [Hsk Hlk].
  destruct (symbol_of_char b _ Hb Hxb) as [Hx Hxc]. destruct (to_u5 c) as [y|e| |] eqn:Hy.
  - right. destruct (symbol_of_char c _ Hc Hy) as [Hyr Hyc].
    eapply (decode_changed p ul x y uk (l ++ b :: k)); try done; [congruence|simpl; rewrite !length_app; simpl; lia| | |by eexists].
    + rewrite mapM_app, Hul. cbn [mbind res_bind res_mapM]. rewrite Hy. cbn [mbind res_bind]. by rewrite Huk.
    + simpl. rewrite !length_app. simpl. lia.
  - left. unfold decode_payload. rewrite mapM_app, Hul. cbn [mbind res_bind res_mapM]. rewrite Hy.
    unfold to_u5 in Hy. destruct (_ =? _); [|done]. injection Hy as <-. done.
  - unfold to_u5 in Hy. by destruct (_ =? _).
  - unfold to_u5 in Hy. by destruct (_ =? _).
Qed.

Lemma address_error_detected_witness :
  let l := bytes_of_string "qgrswpc8qu" in
  let k := bytes_of_string "swpc8qurswpc8qurswpc8qurswpc8qurswpc8qursw956rma6e" in
  decode_payload Mainnet (l ++ 115 :: k) = Err (DecodingError 115) \/ decode_payload Mainnet (l ++ 115 :: k) = Err BadChecksum.
Proof.
  apply (address_error_detected Mainnet _ 114 115); [repeat constructor; unfold is_digit; lia|unfold is_digit; lia|done|].
  exists (sample_address 32). vm_compute. reflexivity.
Defined.

(** Reading an address whose payload does not have 32 bytes panics: for any other payload, the string with the
    right checksum for it reaches the length assertion of [Address::new]
    instead of being refused with an error. *)
Theorem address_length_panics p v b : is_bytes b -> zlen b <> 32 ->
  exists s, address_to_string (E:=AddressError) (mkAddress p v b) = Ok s /\ address_try_from s = Panic.
Proof.
  intros Hb Hlen. destruct (try_from_encoded p v b Hb) as (s & Hs & Hd). exists s. split; [done|]. rewrite Hd.
  unfold address_new. rewrite (proj2 (Z.eqb_neq _ _)); [done|]. by destruct v.
Qed.
Lemma address_length_panics_witness : exists s, address_to_string (E:=AddressError) (sample_address 3) = Ok s /\
  address_try_from s = Panic.
Proof. apply address_length_panics; [repeat constructor; unfold is_digit; lia|done]. Defined.
