(* ===== verification/Script.v ===== *)
(** * Script data: numbers, stacks, opcodes

    [crypto/txscript/src/data_stack.rs] (script numbers, booleans and the
    operations on the data stack), the error type of
    [crypto/txscript/errors/src/lib.rs] and the parsing of opcodes of
    [crypto/txscript/src/opcodes/macros.rs].

    The text carried by some errors is left out.  A stack is a vector of byte
    strings with its top at the end, as in the code. *)
From S2P Require Import Prelude Encode.

(** ** Errors *)
Inductive SerializationError := NumberTooLong (n : Z).
Inductive TxScriptError :=
| MalformedPushSize (b : bytes)
| MalformedPush (required available : usize)
| InvalidInputIndex (i : Z) (n : usize)
| StackSizeExceeded (n limit : usize)
| InvalidOpcode
| OpcodeReserved
| OpcodeDisabled
| EmptyStack
| CleanStack (n : usize)
| EvalFalse
| EarlyReturn
| VerifyError
| InvalidState
| SigcacheSignatureInvalid
| TooManyOperations (n : Z)
| NotATransactionInput
| ElementTooBig (n limit : usize)
| NotMinimalData
| InvalidSource
| UnsatisfiedLockTime
| NumberTooBig
| NullFail
| InvalidSignatureCount
| InvalidPubKeyCount
| InvalidSigHashType (t : u8)
| PubKeyFormat
| SigLength (n : usize)
| NoScripts
| SignatureScriptNotPushOnly
| ErrUnbalancedConditional
| InvalidStackOperation (required available : usize)
| ScriptSize (n limit : usize)
| InvalidOutputIndex (i : Z) (n : usize)
| Serialization (e : SerializationError)
| ExceededSigOpLimit (limit : u8).
Abbreviation result A := (res TxScriptError A) (only parsing).

(** ** Signed 64-bit integers *)
Abbreviation i64 := Z (only parsing).
Abbreviation i32 := Z (only parsing).
Definition in_i64 (x : Z) : Prop := - 2 ^ 63 <= x < 2 ^ 63.
Definition in_i64b (x : Z) : bool := (- 2 ^ 63 <=? x) && (x <? 2 ^ 63).
Definition in_i32b (x : Z) : bool := (- 2 ^ 31 <=? x) && (x <? 2 ^ 31).
(** [checked_*] operations, and the panicking ones. *)
Definition checked_i64 (x : Z) : option i64 := if in_i64b x then Some x else None.
Definition i64_op {E} (x : Z) : res E i64 := if in_i64b x then Ok x else Panic.
(** [<<] discards the bits shifted out. *)
Definition i64_shl (x n : Z) : i64 := (Z.shiftl x n + 2 ^ 63) mod 2 ^ 64 - 2 ^ 63.

(** ** Script numbers *)
Definition check_minimal_data_encoding (v : bytes) : result unit :=
  match last v with
  | None => Ok tt
  | Some msb =>
      if Z.land msb 0x7f =? 0 then
        if (zlen v =? 1) || (Z.land (default 0 (v !! (length v - 2)%nat)) 0x80 =? 0)
        then Err NotMinimalData else Ok tt
      else Ok tt
  end.

(** The bytes produced by the [from_fn] closure, whose state is [positive] and
    [last_saturated]. *)
Fixpoint number_vec {E} (fuel : nat) (positive : u64) (last_saturated : bool) : res E bytes :=
  match fuel with
  | O => NoFuel
  | S fuel =>
      if positive =? 0 then
        if last_saturated then rest ← number_vec fuel positive false; Ok (0 :: rest) else Ok []
      else
        let value := Z.land positive 0xff in
        rest ← number_vec fuel (Z.shiftr positive 8) (negb (Z.land value 0x80 =? 0));
        Ok (value :: rest)
  end.
(** [*last_mut() |= 0x80] *)
Definition set_sign (v : bytes) : option bytes :=
  match last v with
  | Some num => Some (take (length v - 1) v ++ [Z.lor num 0x80])
  | None => None
  end.
Definition serialize_i64 {E} (from : i64) : res E bytes :=
  v ← number_vec 10 (Z.abs from) false;
  if Z.sgn from =? -1 then unwrap (set_sign v) else Ok v.

Fixpoint fold_number {E} (acc : i64) (items : bytes) : res E i64 :=
  match items with
  | [] => Ok acc
  | item :: items => acc ← i64_op (i64_shl acc 8 + item); fold_number acc items
  end.
Definition deserialize_i64 (v : bytes) : result i64 :=
  if 8 <? zlen v then Err NotMinimalData else
  match last v with
  | None => Ok 0
  | Some msb =>
      _ ← check_minimal_data_encoding v;
      let sign := 1 - 2 * Z.shiftr msb 7 in
      let first_byte := Z.land msb 0x7f in
      n ← fold_number first_byte (rev (take (length v - 1) v));
      i64_op (n * sign)
  end.

(** [OpcodeData<T>] *)
Record OpcodeData (T : Type) := {
  deserialize : bytes -> result T;
  serialize : T -> res SerializationError bytes;
}.
Arguments deserialize {T} _ _.
Arguments serialize {T} _ _.
Definition SizedEncodeInt (LEN : Z) : OpcodeData i64 := {|
  deserialize v := if LEN <? zlen v then Err NumberTooBig else deserialize_i64 v;
  serialize from :=
    b ← serialize_i64 from;
    if LEN <? zlen b then Err (NumberTooLong from) else Ok b;
|}.
Definition i64_data : OpcodeData i64 := SizedEncodeInt 8.
Definition i32_data : OpcodeData i32 := {|
  deserialize v := n ← deserialize (SizedEncodeInt 4) v; if in_i32b n then Ok n else Panic;
  serialize := serialize (SizedEncodeInt 4);
|}.
Definition bool_data : OpcodeData bool := {|
  deserialize v :=
    match last v with
    | None => Ok false
    | Some l => Ok (negb (Z.land l 0x7f =? 0) || existsb (fun b => negb (b =? 0)) (take (length v - 1) v))
    end;
  serialize from := Ok (if from then [1] else []);
|}.

(** ** The data stack *)
Abbreviation Stack := (list bytes) (only parsing).
Section stack.
Context {T : Type} (D : OpcodeData T).
Implicit Types s : list bytes.

(** [&mut self] methods: the stack after the call is returned in every case. *)
Definition pop_raw (n : nat) : stm Stack TxScriptError (list bytes) := fun s =>
  if (length s <? n)%nat then (Err (InvalidStackOperation (Z.of_nat n) (zlen s)), s)
  else (Ok (drop (length s - n) s), take (length s - n) s).
Definition peek_raw (n : nat) : stm Stack TxScriptError (list bytes) := fun s =>
  (if (length s <? n)%nat then Err (InvalidStackOperation (Z.of_nat n) (zlen s)) else Ok (drop (length s - n) s), s).
Definition pop_items (n : nat) : stm Stack TxScriptError (list T) := fun s =>
  if (length s <? n)%nat then (Err (InvalidStackOperation (Z.of_nat n) (zlen s)), s)
  else (res_mapM (deserialize D) (drop (length s - n) s), take (length s - n) s).
Definition push_item (item : T) : stm Stack TxScriptError unit := fun s =>
  match serialize D item with
  | Ok v => (Ok tt, s ++ [v])
  | Err e => (Err (Serialization e), s)
  | Panic => (Panic, s)
  | NoFuel => (NoFuel, s)
  end.
Definition drop_items (n : nat) : stm Stack TxScriptError unit := fun s =>
  if (n <=? length s)%nat then (Ok tt, take (length s - n) s)
  else (Err (InvalidStackOperation (Z.of_nat n) (zlen s)), s).
Definition dup_items (n : nat) : stm Stack TxScriptError unit := fun s =>
  if (n <=? length s)%nat then (Ok tt, s ++ drop (length s - n) s)
  else (Err (InvalidStackOperation (Z.of_nat n) (zlen s)), s).
Definition over_items (n : nat) : stm Stack TxScriptError unit := fun s =>
  if (2 * n <=? length s)%nat then (Ok tt, s ++ take n (drop (length s - 2 * n) s))
  else (Err (InvalidStackOperation (Z.of_nat (2 * n)) (zlen s)), s).
(** [drain(a..b)] removes the elements from [a] up to [b]. *)
Definition rot_items (n : nat) : stm Stack TxScriptError unit := fun s =>
  if (3 * n <=? length s)%nat
  then (Ok tt, (take (length s - 3 * n) s ++ drop (length s - 2 * n) s) ++ take n (drop (length s - 3 * n) s))
  else (Err (InvalidStackOperation (Z.of_nat (3 * n)) (zlen s)), s).
Definition swap_items (n : nat) : stm Stack TxScriptError unit := fun s =>
  if (2 * n <=? length s)%nat
  then (Ok tt, (take (length s - 2 * n) s ++ drop (length s - n) s) ++ take n (drop (length s - 2 * n) s))
  else (Err (InvalidStackOperation (Z.of_nat (2 * n)) (zlen s)), s).
End stack.

(** ** Bytes, exhaustively *)
Lemma byte_forall (P : Z -> bool) : forallb P (map Z.of_nat (seq 0 256)) = true -> forall b, is_digit 256 b -> P b = true.
Proof.
  intros H b [Hb1 Hb2]. rewrite forallb_forall in H. apply H. apply in_map_iff. exists (Z.to_nat b).
  split; [lia|]. apply in_seq. lia.
Qed.
Lemma byte_bits b : is_digit 256 b ->
  Z.land b 0x7f = b mod 128 /\ Z.shiftr b 7 = b / 128 /\ (Z.land b 0x80 =? 0) = (b <? 128) /\ Z.lor (b mod 128) 0x80 = b mod 128 + 128.
Proof.
  intros Hb. pose proof (byte_forall (fun b => (Z.land b 0x7f =? b mod 128) && (Z.shiftr b 7 =? b / 128) &&
    Bool.eqb (Z.land b 0x80 =? 0) (b <? 128) && (Z.lor (b mod 128) 0x80 =? b mod 128 + 128)) eq_refl b Hb) as H.
  rewrite !andb_true_iff, eqb_true_iff in H. lia.
Qed.

Lemma is_bytes_snoc l b : is_bytes (l ++ [b]) <-> is_bytes l /\ is_digit 256 b.
Proof. unfold is_bytes. rewrite Forall_app, Forall_singleton. done. Qed.

(** ** Canonical magnitudes

    Little-endian bytes whose top bit is free for the sign and whose last byte
    is needed: it is not zero, or the byte before uses its top bit ([sat] for
    an empty prefix). *)
Fixpoint canon (sat : bool) (l : bytes) : Prop :=
  match l with
  | [] => sat = false
  | [m] => m < 128 /\ (m <> 0 \/ sat = true)
  | m :: l => canon (128 <=? m) l
  end.
Lemma canon_cons sat m l : l <> [] -> canon sat (m :: l) <-> canon (128 <=? m) l.
Proof. by destruct l. Qed.
Lemma canon_snoc sat l m : canon sat (l ++ [m]) <->
  m < 128 /\ (m <> 0 \/ match last l with Some p => 128 <= p | None => sat = true end).
Proof.
  revert sat. induction l as [|x l IH]; intros sat; [done|]. cbn [app]. rewrite canon_cons by (by destruct l).
  rewrite IH. destruct l as [|y l]; [simpl; rewrite Z.leb_le; done|]. rewrite last_cons_cons.
  destruct (last (y :: l)) eqn:Hl; [done|]. by apply last_None in Hl.
Qed.

Lemma zlen_snoc {A} (l : list A) x : zlen (l ++ [x]) = zlen l + 1.
Proof. rewrite zlen_app. done. Qed.
Lemma canon_bounds l : is_bytes l -> l <> [] -> canon false l ->
  256 ^ (zlen l - 1) <= 2 * undigits 256 l < 256 ^ zlen l.
Proof.
  intros Hb Hne Hc. destruct l as [|m l _] using rev_ind; [done|]. apply is_bytes_snoc in Hb as [Hl Hm]. unfold is_digit in Hm. apply canon_snoc in Hc as [Hlt Hc].
  rewrite zlen_snoc, undigits_app, Z.add_simpl_r, Z.pow_add_r, Z.pow_1_r by (try lia; apply zlen_nonneg). cbn [undigits].
  pose proof (undigits_range 256 ltac:(lia) l Hl) as Hr. pose proof (Z.pow_pos_nonneg 256 (zlen l) ltac:(lia) (zlen_nonneg l)).
  split; [|nia]. destruct Hc as [Hc|Hc]; [nia|]. destruct l as [|p l _] using rev_ind; [done|].
  rewrite last_snoc in Hc. apply Forall_app in Hl as [Hl Hp]. rewrite undigits_app, zlen_snoc in * by lia. cbn [undigits] in *.
  rewrite Z.pow_add_r, Z.pow_1_r in * by (try lia; apply zlen_nonneg).
  pose proof (undigits_nonneg 256 ltac:(lia) l Hl). pose proof (Z.pow_pos_nonneg 256 (zlen l) ltac:(lia) (zlen_nonneg l)). nia.
Qed.
Lemma canon_unique l k : is_bytes l -> is_bytes k -> canon false l -> canon false k -> undigits 256 l = undigits 256 k -> l = k.
Proof.
  assert (forall l k, is_bytes l -> is_bytes k -> canon false l -> canon false k ->
    undigits 256 l = undigits 256 k -> ~ (length l < length k)%nat) as Hlen.
  { intros l' k' Hl Hk Hcl Hck Heq Hlt. pose proof (canon_bounds k' Hk ltac:(by destruct k'; simpl in *; [lia|]) Hck) as Hbk.
    assert (2 * undigits 256 l' < 256 ^ zlen l') as Hbl.
    { destruct l' as [|x l']; [simpl; change (256 ^ zlen []) with 1; lia|]. by apply canon_bounds. }
    assert (256 ^ zlen l' <= 256 ^ (zlen k' - 1)); [|lia]. apply Z.pow_le_mono_r; unfold zlen; lia. }
  intros Hl Hk Hcl Hck Heq. apply (undigits_inj 256); try done.
  pose proof (Hlen l k Hl Hk Hcl Hck Heq). pose proof (Hlen k l Hk Hl Hck Hcl (eq_sym Heq)). lia.
Qed.

(** ** Number encoding *)
Lemma number_vec_zero {E} fuel sat : (2 <= fuel)%nat -> exists l, number_vec (E:=E) fuel 0 sat = Ok l /\ is_bytes l /\
  undigits 256 l = 0 /\ canon sat l /\ (length l <= 1)%nat.
Proof.
  intros Hf. destruct fuel as [|[|fuel]]; [lia..|]. exists (if sat then [0] else []).
  destruct sat; (split; [done|]); (split; [by repeat constructor|]); (split; [done|]); simpl;
    (split; [|lia]); [|done]. split; [lia|by right].
Qed.
Lemma number_vec_ok {E} k : forall fuel p sat, 0 <= p < 256 ^ Z.of_nat k -> (k + 2 <= fuel)%nat ->
  exists l, number_vec (E:=E) fuel p sat = Ok l /\ is_bytes l /\ undigits 256 l = p /\ canon sat l /\ (length l <= k + 1)%nat.
Proof.
  induction k as [|k IH]; intros [|fuel] p sat Hp Hf; [lia| |lia|]; cbn [number_vec].
  - change (256 ^ Z.of_nat 0) with 1 in Hp. replace p with 0 by lia.
    destruct (number_vec_zero (E:=E) (S fuel) sat) as (l & Hl & H); [lia|]. exists l. simpl Nat.add. done.
  - destruct (Z.eqb_spec p 0) as [->|Hne].
    { destruct (number_vec_zero (E:=E) (S fuel) sat) as (l & Hl & H1 & H2 & H3 & H4); [lia|]. exists l.
      split_and!; [done..|lia]. }
    change 0xff with (Z.ones 8). rewrite Z.land_ones, Z.shiftr_div_pow2 by lia. change (2 ^ 8) with 256.
    pose proof (Z.mod_pos_bound p 256 ltac:(lia)) as Hv. destruct (byte_bits (p mod 256) Hv) as (_ & _ & -> & _).
    rewrite Nat2Z.inj_succ, Z.pow_succ_r in Hp by lia.
    destruct (IH fuel (p / 256) (negb (p mod 256 <? 128))) as (l & -> & Hl & Hu & Hc & Hlen);
      [split; [apply Z.div_pos; lia|apply Z.div_lt_upper_bound; lia]|lia|].
    exists (p mod 256 :: l). pose proof (Z.div_mod p 256). split_and!; [done|by constructor|cbn [undigits]; lia| |simpl; lia].
    destruct l as [|y l]; [simpl in *; split; [lia|left; lia]|].
    apply canon_cons; [done|]. by replace (128 <=? p mod 256) with (negb (p mod 256 <? 128)) by lia.
Qed.

(** A nonempty byte string read as a number. *)
Definition magnitude (init : bytes) (msb : Z) : Z := undigits 256 (init ++ [msb mod 128]).
Lemma fold_number_ok {E} items acc : is_bytes items -> 0 <= acc -> (acc + 1) * 256 ^ zlen items <= 2 ^ 63 ->
  fold_number (E:=E) acc items = Ok (acc * 256 ^ zlen items + undigits 256 (rev items)).
Proof.
  intros Hb. revert acc. induction Hb as [|x l Hx Hl IH]; intros acc Ha Hm; cbn [fold_number].
  { change (zlen []) with 0. rewrite Z.pow_0_r. simpl. f_equal. lia. }
  rewrite zlen_cons, Z.pow_add_r, Z.pow_1_r in * by (try lia; apply zlen_nonneg).
  pose proof (Z.pow_pos_nonneg 256 (zlen l) ltac:(lia) (zlen_nonneg l)). unfold is_digit in Hx.
  assert (i64_shl acc 8 = acc * 256) as Hshl.
  { unfold i64_shl. rewrite Z.shiftl_mul_pow2, Z.mod_small by (change (2 ^ 8) with 256; nia). lia. }
  rewrite Hshl. unfold i64_op, in_i64b. rewrite (proj2 (Z.leb_le _ _)), (proj2 (Z.ltb_lt _ _)) by nia. cbn [andb mbind res_bind].
  rewrite IH by nia. cbn [rev]. rewrite undigits_app by lia. cbn [undigits]. f_equal.
  replace (zlen (rev l)) with (zlen l) by (unfold zlen; by rewrite length_rev). ring.
Qed.

Lemma deserialize_snoc init msb : is_bytes init -> is_digit 256 msb -> zlen init <= 7 ->
  deserialize_i64 (init ++ [msb]) =
    (_ ← check_minimal_data_encoding (init ++ [msb]); Ok (magnitude init msb * (1 - 2 * (msb / 128)))).
Proof.
  intros Hi Hm Hlen. unfold deserialize_i64. rewrite zlen_snoc, (proj2 (Z.ltb_ge _ _)), last_snoc by lia.
  destruct (check_minimal_data_encoding _) as [[]| | |]; try done. cbn [mbind res_bind].
  rewrite length_app, Nat.add_sub, take_app_length. destruct (byte_bits msb Hm) as (-> & -> & _ & _).
  pose proof (Z.mod_pos_bound msb 128 ltac:(lia)). unfold is_digit in Hm.
  assert (256 ^ zlen (rev init) <= 256 ^ 7) as Hp
    by (apply Z.pow_le_mono_r; [lia|]; unfold zlen in *; rewrite length_rev; lia).
  rewrite fold_number_ok by (try lia; try (by apply Forall_rev); change (256 ^ 7) with 72057594037927936 in Hp; nia).
  cbn [mbind res_bind]. rewrite rev_involutive. unfold magnitude. rewrite undigits_app by lia. cbn [undigits].
  replace (zlen (rev init)) with (zlen init) in * by (unfold zlen; by rewrite length_rev).
  pose proof (undigits_range 256 ltac:(lia) init Hi) as Hr. change (256 ^ 7) with 72057594037927936 in Hp.
  assert (msb / 128 = 0 \/ msb / 128 = 1) as Hs by (pose proof (Z.div_mod msb 128); pose proof (Z.mod_pos_bound msb 128); lia).
  unfold i64_op, in_i64b. rewrite (proj2 (Z.leb_le _ _)), (proj2 (Z.ltb_lt _ _)) by (destruct Hs as [-> | ->]; nia).
  f_equal. ring.
Qed.

Lemma check_minimal_snoc init msb : is_bytes init -> is_digit 256 msb ->
  check_minimal_data_encoding (init ++ [msb]) = Ok tt <-> canon false (init ++ [msb mod 128]).
Proof.
  intros Hi Hm. unfold check_minimal_data_encoding. rewrite last_snoc, canon_snoc, zlen_snoc.
  destruct (byte_bits msb Hm) as (-> & _). pose proof (Z.mod_pos_bound msb 128 ltac:(lia)) as Hb.
  destruct (Z.eqb_spec (msb mod 128) 0) as [->|Hne]; [|split; [intros _; split; [lia|by left]|done]].
  rewrite length_app. cbn [length]. destruct init as [|p l _] using rev_ind.
  { simpl. split; [done|]. intros [_ [?|?]]; done. }
  apply is_bytes_snoc in Hi as [_ Hp].
  replace (length (l ++ [p]) + 1 - 2)%nat with (length l) by (rewrite length_app; simpl; lia).
  rewrite <- app_assoc, lookup_app_r, Nat.sub_diag, last_snoc by lia.
  change (default 0 (([p] ++ [msb]) !! 0%nat)) with p.
  destruct (byte_bits p Hp) as (_ & _ & -> & _). rewrite zlen_snoc. pose proof (zlen_nonneg l).
  replace (zlen l + 1 + 1 =? 1) with false by lia. cbn [orb]. destruct (Z.ltb_spec p 128); split; try done.
  - intros [_ [?|?]]; [done|lia].
  - intros _. split; [lia|right; lia].
Qed.

Lemma magnitude_sign msb : is_digit 256 msb ->
  (msb / 128 = 0 /\ msb mod 128 = msb) \/ (msb / 128 = 1 /\ Z.lor (msb mod 128) 0x80 = msb).
Proof.
  intros Hm. destruct (byte_bits msb Hm) as (_ & _ & _ & ->). unfold is_digit in Hm.
  pose proof (Z.div_mod msb 128). pose proof (Z.mod_pos_bound msb 128). lia.
Qed.

(** The encoding of a nonzero number: the canonical magnitude with its sign. *)
Lemma serialize_i64_ok {E} x : - 2 ^ 63 <= x < 2 ^ 63 -> exists v, serialize_i64 (E:=E) x = Ok v /\ is_bytes v /\
  ((x = 0 /\ v = []) \/
   exists init msb, v = init ++ [msb] /\ canon false (init ++ [msb mod 128]) /\ magnitude init msb = Z.abs x /\
     msb / 128 = (if x <? 0 then 1 else 0)) .
Proof.
  intros Hx. unfold serialize_i64.
  destruct (number_vec_ok (E:=E) 8 10 (Z.abs x) false) as (l & -> & Hl & Hu & Hc & _); [|lia|].
  { change (256 ^ Z.of_nat 8) with (2 ^ 64). lia. }
  cbn [mbind res_bind]. destruct l as [|m l _] using rev_ind.
  { simpl in Hu. replace x with 0 by lia. exists []. split_and!; [done|done|by left]. }
  apply is_bytes_snoc in Hl as [Hl Hm]. pose proof (proj1 (canon_snoc _ _ _) Hc) as [Hlt _].
  unfold is_digit in Hm. assert (m mod 128 = m) as Hmod by (apply Z.mod_small; lia).
  assert (x <> 0) as Hne.
  { intros ->. pose proof (canon_bounds (l ++ [m])) as Hb. rewrite Hu in Hb. assert (256 ^ (zlen (l ++ [m]) - 1) <= 2 * Z.abs 0); [|].
    - apply Hb; [by apply is_bytes_snoc|by destruct l|done].
    - pose proof (Z.pow_pos_nonneg 256 (zlen (l ++ [m]) - 1)). rewrite zlen_snoc in *. pose proof (zlen_nonneg l). lia. }
  destruct (Z.ltb_spec x 0) as [Hneg|Hpos].
  - rewrite Z.sgn_neg by lia. cbn [Z.eqb Pos.eqb]. unfold set_sign. rewrite last_snoc, length_app, Nat.add_sub, take_app_length.
    cbn [unwrap]. destruct (byte_bits m) as (_ & _ & _ & Hlor); [unfold is_digit; lia|]. rewrite Hmod in Hlor. rewrite Hlor.
    eexists. split; [done|]. split; [apply is_bytes_snoc; split; [done|unfold is_digit; lia]|]. right.
    exists l, (m + 128). unfold magnitude. replace ((m + 128) mod 128) with m by (rewrite <- (Z.mul_1_l 128) at 1; rewrite Z.mod_add; lia).
    split_and!; [done|done|done|]. symmetry. apply (Z.div_unique_pos _ _ _ m); lia.
  - rewrite Z.sgn_pos by lia. cbn [Z.eqb]. eexists. split; [done|].
    split; [by apply is_bytes_snoc|]. right. exists l, m. unfold magnitude. rewrite Hmod.
    split_and!; [done..|apply Z.div_small; lia].
Qed.

Lemma magnitude_bound init msb : is_bytes init -> is_digit 256 msb -> canon false (init ++ [msb mod 128]) ->
  256 ^ zlen init <= 2 * magnitude init msb < 256 ^ (zlen init + 1).
Proof.
  intros Hi Hm Hc. pose proof (Z.mod_pos_bound msb 128 ltac:(lia)).
  pose proof (canon_bounds (init ++ [msb mod 128])) as Hb. rewrite zlen_snoc, Z.add_simpl_r in Hb. apply Hb; [|by destruct init|done].
  apply is_bytes_snoc. split; [done|]. unfold is_digit. lia.
Qed.

Lemma encoded_value init msb : is_bytes init -> is_digit 256 msb -> canon false (init ++ [msb mod 128]) ->
  let x := magnitude init msb * (1 - 2 * (msb / 128)) in
  Z.abs x = magnitude init msb /\ x <> 0 /\ msb / 128 = (if x <? 0 then 1 else 0).
Proof.
  intros Hi Hb Hc x. pose proof (magnitude_bound init msb Hi Hb Hc) as Hm.
  pose proof (Z.pow_pos_nonneg 256 (zlen init) ltac:(lia) (zlen_nonneg init)).
  assert (msb / 128 = 0 \/ msb / 128 = 1) as [Hs|Hs] by (destruct (magnitude_sign msb Hb); lia);
    subst x; rewrite Hs; case_match eqn:Hx; lia.
Qed.
Lemma serialize_encoded {E} init msb : is_bytes init -> is_digit 256 msb -> zlen init <= 7 -> canon false (init ++ [msb mod 128]) ->
  serialize_i64 (E:=E) (magnitude init msb * (1 - 2 * (msb / 128))) = Ok (init ++ [msb]).
Proof.
  intros Hi Hb Hlen Hc. pose proof (encoded_value init msb Hi Hb Hc) as (Habs & Hne & Hs). cbv zeta in *.
  set (x := magnitude init msb * (1 - 2 * (msb / 128))) in *. pose proof (magnitude_bound init msb Hi Hb Hc) as Hm.
  assert (256 ^ (zlen init + 1) <= 256 ^ 8) as Hp by (apply Z.pow_le_mono_r; lia). change (256 ^ 8) with (2 ^ 64) in Hp.
  destruct (serialize_i64_ok (E:=E) x) as (v & -> & Hv & [[Hz _]|(init' & msb' & -> & Hc' & Hm' & Hs')]); [lia|done|].
  apply is_bytes_snoc in Hv as [Hi' Hb'].
  pose proof (Z.mod_pos_bound msb 128 ltac:(lia)). pose proof (Z.mod_pos_bound msb' 128 ltac:(lia)).
  assert (init' ++ [msb' mod 128] = init ++ [msb mod 128]) as Heq.
  { apply canon_unique; [apply is_bytes_snoc; split; [done|unfold is_digit; lia]..|done|done|].
    change (magnitude init' msb' = magnitude init msb). congruence. }
  apply app_inj_tail in Heq as [-> Hmod]. pose proof (Z.div_mod msb 128). pose proof (Z.div_mod msb' 128).
  by replace msb' with msb by lia.
Qed.
Lemma deserialize_canonical v x : is_bytes v -> deserialize_i64 v = Ok x ->
  (v = [] /\ x = 0) \/ exists init msb, v = init ++ [msb] /\ is_bytes init /\ is_digit 256 msb /\ zlen init <= 7 /\
    canon false (init ++ [msb mod 128]) /\ x = magnitude init msb * (1 - 2 * (msb / 128)).
Proof.
  intros Hv Hd. destruct v as [|msb init _] using rev_ind; [by injection Hd as <-; left|right].
  apply is_bytes_snoc in Hv as [Hi Hb].
  assert (zlen init <= 7) as Hlen.
  { unfold deserialize_i64 in Hd. rewrite zlen_snoc in Hd. destruct (Z.ltb_spec 8 (zlen init + 1)); [done|lia]. }
  rewrite deserialize_snoc in Hd by done. destruct (check_minimal_data_encoding _) as [[]| | |] eqn:Hck; try done.
  apply check_minimal_snoc in Hck as Hc; [|done..]. injection Hd as <-. by exists init, msb.
Qed.

Lemma i64_data_roundtrip x : - 2 ^ 63 < x < 2 ^ 63 ->
  exists v, serialize i64_data x = Ok v /\ is_bytes v /\ zlen v <= 8 /\ deserialize i64_data v = Ok x.
Proof.
  intros Hx. cbn [serialize deserialize i64_data SizedEncodeInt].
  destruct (serialize_i64_ok (E:=SerializationError) x) as (v & -> & Hv & [[-> ->]|(init & msb & -> & Hc & Hm & Hs)]); [lia|by exists []|].
  apply is_bytes_snoc in Hv as [Hi Hb]. cbn [mbind res_bind]. rewrite zlen_snoc.
  pose proof (magnitude_bound init msb Hi Hb Hc) as Hmb.
  assert (zlen init <= 7) as Hlen.
  { destruct (Z.le_gt_cases (zlen init) 7); [done|]. assert (256 ^ 8 <= 256 ^ zlen init) by (apply Z.pow_le_mono_r; lia).
    change (256 ^ 8) with (2 ^ 64) in *. lia. }
  rewrite !(proj2 (Z.ltb_ge _ _)) by lia. eexists. split; [done|].
  split; [by apply is_bytes_snoc|]. rewrite zlen_snoc. split; [lia|].
  rewrite (proj2 (Z.ltb_ge _ _)) by lia. rewrite deserialize_snoc, (proj2 (check_minimal_snoc _ _ Hi Hb) Hc) by done.
  cbn [mbind res_bind]. rewrite Hm, Hs. f_equal. destruct (Z.ltb_spec x 0); lia.
Qed.

(** Script numbers have exactly one encoding.  Every 64-bit number except
    the least one is serialized in at most 8 bytes and deserialized back; the
    least one, whose encoding has 9 bytes, is refused; and a byte string that
    deserializes at all is the serialization of the number it denotes, so no
    non-minimal encoding is accepted. *)
Theorem script_number_canonical :
  (forall x, - 2 ^ 63 < x < 2 ^ 63 -> exists v, serialize i64_data x = Ok v /\ is_bytes v /\ zlen v <= 8 /\ deserialize i64_data v = Ok x) /\
  serialize i64_data (- 2 ^ 63) = Err (NumberTooLong (- 2 ^ 63)) /\
  (forall v x, is_bytes v -> deserialize i64_data v = Ok x -> serialize i64_data x = Ok v).
Proof.
  split_and!; [apply i64_data_roundtrip|done|].
  intros v x Hv. cbn [serialize deserialize i64_data SizedEncodeInt]. destruct (Z.ltb_spec 8 (zlen v)) as [|Hlen]; [done|].
    intros [[-> ->]|(init & msb & -> & Hi & Hb & Hl & Hc & ->)]%deserialize_canonical; [done| |done].
    rewrite serialize_encoded by done. cbn [mbind res_bind]. by rewrite (proj2 (Z.ltb_ge _ _)) by lia.
Qed.

(** ** Reading numbers never panics *)
Definition safe {E A} (r : res E A) : Prop := match r with Ok _ | Err _ => True | Panic | NoFuel => False end.
Lemma deserialize_i64_safe v : is_bytes v -> safe (deserialize_i64 v).
Proof.
  intros Hv. destruct v as [|msb init _] using rev_ind; [done|]. apply is_bytes_snoc in Hv as [Hi Hb].
  destruct (Z.le_gt_cases (zlen init) 7) as [Hle|Hgt].
  - rewrite deserialize_snoc by done. unfold check_minimal_data_encoding. by repeat case_match.
  - unfold deserialize_i64. rewrite zlen_snoc, (proj2 (Z.ltb_lt _ _)) by lia. done.
Qed.
Lemma i64_data_safe v : is_bytes v -> safe (deserialize i64_data v).
Proof. intros Hv. cbn [deserialize i64_data SizedEncodeInt]. case_match; [done|by apply deserialize_i64_safe]. Qed.
Lemma bool_data_safe v : safe (deserialize bool_data v).
Proof. cbn [deserialize bool_data]. by case_match. Qed.
Lemma i64_data_range v x : is_bytes v -> deserialize i64_data v = Ok x -> - 2 ^ 63 < x < 2 ^ 63.
Proof.
  intros Hv. cbn [deserialize i64_data SizedEncodeInt]. case_match; [done|].
  intros [[-> ->]|(init & msb & -> & Hi & Hb & Hl & Hc & ->)]%deserialize_canonical; [lia| |done].
  pose proof (magnitude_bound init msb Hi Hb Hc) as Hm.
  assert (256 ^ (zlen init + 1) <= 256 ^ 8) as Hp by (apply Z.pow_le_mono_r; lia). change (256 ^ 8) with (2 ^ 64) in Hp.
  pose proof (encoded_value init msb Hi Hb Hc) as (Habs & _). cbv zeta in Habs. lia.
Qed.
Lemma i32_data_safe v : is_bytes v -> safe (deserialize i32_data v).
Proof.
  intros Hv. cbn [deserialize i32_data SizedEncodeInt]. destruct (Z.ltb_spec 4 (zlen v)) as [|Hlen]; [done|].
  destruct (deserialize_i64 v) as [x| | |] eqn:Hd; [|done|
    pose proof (deserialize_i64_safe v Hv) as Hs; rewrite Hd in Hs; exact Hs..].
  cbn [mbind res_bind].
  apply deserialize_canonical in Hd as [[-> ->]|(init & msb & -> & Hi & Hb & Hl & Hc & ->)]; [done| |done].
  pose proof (magnitude_bound init msb Hi Hb Hc) as Hm. rewrite zlen_snoc in Hlen.
  assert (256 ^ (zlen init + 1) <= 256 ^ 4) as Hp by (apply Z.pow_le_mono_r; lia). change (256 ^ 4) with (2 ^ 32) in Hp.
  pose proof (encoded_value init msb Hi Hb Hc) as (Habs & _). cbv zeta in Habs.
  unfold in_i32b. by rewrite (proj2 (Z.leb_le _ _)), (proj2 (Z.ltb_lt _ _)) by lia.
Qed.
Lemma i32_data_range v x : deserialize i32_data v = Ok x -> - 2 ^ 31 <= x < 2 ^ 31.
Proof.
  cbn [deserialize i32_data]. intros H. bind_inv H. unfold in_i32b in H. destruct (_ && _) eqn:Hb; [|done].
  injection H as <-. lia.
Qed.
Lemma i64_serialize_ok x : - 2 ^ 63 <= x < 2 ^ 63 ->
  match serialize i64_data x with Ok v => is_bytes v | Err _ => True | _ => False end.
Proof.
  intros Hx. cbn [serialize i64_data SizedEncodeInt].
  destruct (serialize_i64_ok (E:=SerializationError) x Hx) as (v & -> & Hv & _). cbn [mbind res_bind]. by destruct (8 <? zlen v).
Qed.
