(* ===== verification/ScriptVm.v ===== *)
(** * The script engine

    [crypto/txscript/src/lib.rs], [opcodes/mod.rs], [runtime_sig_op_counter.rs],
    [caches.rs] and the recognition of pay-to-script-hash of [script_class.rs].

    One definition per opcode, in the state monad of the engine [VM]; the table
    [opcode_list] has the entries of the [opcode_list!] macro in its order.
    What the engine reads from outside is the argument of the definitions: the
    hash functions and the signature verification of the class [ScriptCrypto],
    and the entry evicted when the signature cache is full. *)
From S2P Require Import Prelude Tx Encode Hashing Script.

Class ScriptCrypto := {
  script_blake2b :: Blake2b;
  sha256 : bytes -> bytes;
  sha256_length m : length (sha256 m) = 32%nat;
  sha256_is_bytes m : is_bytes (sha256 m);
  (** [ml_dsa_44::verify(vk, message, context, signature).is_ok()] *)
  ml_dsa_44_verify : bytes -> bytes -> bytes -> bytes -> bool;
}.

(** ** Constants *)
Definition MAX_SCRIPT_PUBLIC_KEY_VERSION : u16 := 0.
Definition MAX_STACK_SIZE : usize := 244.
Definition MAX_SCRIPTS_SIZE : usize := 10000.
Definition MAX_SCRIPT_ELEMENT_SIZE : usize := 4096.
Definition MAX_OPS_PER_SCRIPT : i32 := 201.
Definition MAX_TX_IN_SEQUENCE_NUM : u64 := 2 ^ 64 - 1.
Definition SEQUENCE_LOCK_TIME_DISABLED : u64 := Z.shiftl 1 63.
Definition SEQUENCE_LOCK_TIME_MASK : u64 := 0x00000000ffffffff.
Definition LOCK_TIME_THRESHOLD : u64 := 500000000000.
Definition MAX_PUB_KEYS_PER_MUTLTISIG : i32 := 20.
Definition NO_COST_OPCODE : u8 := 0x60.
Definition DILITHIUM2_VK_SIZE : usize := 1312.
Definition DILITHIUM2_SIG_SIZE : usize := 2420.
Definition OP_SMALL_INT_MIN_VAL : u8 := 1.
Definition OP_SMALL_INT_MAX_VAL : u8 := 16.
Definition OP_DATA_MIN_VAL : u8 := 0x01.
Definition OP_DATA_MAX_VAL : u8 := 0x4b.
Definition OP_1_NEGATE_VAL : u8 := 0x81.

(** ** Signature operation counter *)
Record RuntimeSigOpCounter := mkCounter { sig_op_limit : u8; sig_op_remaining : u8 }.
Definition counter_new (limit : u8) : RuntimeSigOpCounter := mkCounter limit limit.
Definition consume_sig_op (c : RuntimeSigOpCounter) : result RuntimeSigOpCounter :=
  if sig_op_remaining c <? 1 then Err (ExceededSigOpLimit (sig_op_limit c))
  else Ok (mkCounter (sig_op_limit c) (sig_op_remaining c - 1)).
Definition counter_used {E} (c : RuntimeSigOpCounter) : res E u8 := chk 8 (sig_op_limit c - sig_op_remaining c).

(** ** Signature cache

    The key holds the first 32 bytes of the signature and of the public key,
    and the message.  [cache_evict] removes the entry picked at random. *)
Record SigCacheKey := mkSigCacheKey { signature : bytes; pub_key : bytes; message : bytes }.
#[export] Instance SigCacheKey_eq_dec : EqDecision SigCacheKey.
Proof. solve_decision. Defined.
#[export] Program Instance SigCacheKey_countable : Countable SigCacheKey :=
  inj_countable' (fun k => (signature k, pub_key k, message k)) (fun t => mkSigCacheKey t.1.1 t.1.2 t.2) _.
Next Obligation. by intros []. Qed.
Class CacheRandom := {
  cache_evict : gmap SigCacheKey bool -> gmap SigCacheKey bool;
  cache_evict_spec m : m <> ∅ -> exists k, is_Some (m !! k) /\ cache_evict m = delete k m;
}.
Record Cache := mkCache { cache_map : gmap SigCacheKey bool; cache_size : nat }.
Definition cache_get (c : Cache) (k : SigCacheKey) : option bool := cache_map c !! k.
Definition cache_insert `{CacheRandom} (c : Cache) (k : SigCacheKey) (data : bool) : Cache :=
  if (cache_size c =? 0)%nat then c else
  let m := if (size (cache_map c) =? cache_size c)%nat then cache_evict (cache_map c) else cache_map c in
  mkCache (<[k := data]> m) (cache_size c).

(** ** The engine *)
Inductive OpCond := CondFalse | CondTrue | CondSkip.
#[export] Instance OpCond_eq_dec : EqDecision OpCond.
Proof. solve_decision. Defined.
Definition negate (c : OpCond) : OpCond :=
  match c with CondTrue => CondFalse | CondFalse => CondTrue | CondSkip => CondSkip end.

Inductive ScriptSource :=
| TxInput (tx : PopulatedTransaction) (input : TransactionInput) (idx : nat) (utxo_entry : UtxoEntry) (is_p2sh : bool)
| StandAloneScripts (scripts : list bytes).

Record VM := mkVM {
  dstack : Stack;
  astack : Stack;
  sig_cache : Cache;
  reused_values : SigHashReusedValues;
  cond_stack : list OpCond;
  num_ops : i32;
  runtime_sig_op_counter : RuntimeSigOpCounter;
}.
Abbreviation M A := (stm VM TxScriptError A) (only parsing).

Definition fail {A} (e : TxScriptError) : M A := fun vm => (Err e, vm).
Definition lift {A} (r : result A) : M A := fun vm => (r, vm).
Definition modify (f : VM -> VM) : M unit := fun vm => (Ok tt, f vm).
Definition gets {A} (f : VM -> A) : M A := fun vm => (Ok (f vm), vm).
Definition with_dstack (vm : VM) (s : Stack) : VM :=
  mkVM s (astack vm) (sig_cache vm) (reused_values vm) (cond_stack vm) (num_ops vm) (runtime_sig_op_counter vm).
Definition with_astack (vm : VM) (s : Stack) : VM :=
  mkVM (dstack vm) s (sig_cache vm) (reused_values vm) (cond_stack vm) (num_ops vm) (runtime_sig_op_counter vm).
Definition with_cond (vm : VM) (c : list OpCond) : VM :=
  mkVM (dstack vm) (astack vm) (sig_cache vm) (reused_values vm) c (num_ops vm) (runtime_sig_op_counter vm).
Definition with_num_ops (vm : VM) (n : i32) : VM :=
  mkVM (dstack vm) (astack vm) (sig_cache vm) (reused_values vm) (cond_stack vm) n (runtime_sig_op_counter vm).
Definition with_sig_state (vm : VM) (c : Cache) (r : SigHashReusedValues) : VM :=
  mkVM (dstack vm) (astack vm) c r (cond_stack vm) (num_ops vm) (runtime_sig_op_counter vm).
Definition with_counter (vm : VM) (c : RuntimeSigOpCounter) : VM :=
  mkVM (dstack vm) (astack vm) (sig_cache vm) (reused_values vm) (cond_stack vm) (num_ops vm) c.
(** An operation on the data stack. *)
Definition on_dstack {A} (op : stm Stack TxScriptError A) : M A := fun vm =>
  let '(r, s) := op (dstack vm) in (r, with_dstack vm s).
Definition push (v : bytes) : M unit := fun vm => (Ok tt, with_dstack vm (dstack vm ++ [v])).
(** [let [a]: [T; 1] = vm.dstack.pop_items()?] and so on. *)
Definition pop1 {T} (D : OpcodeData T) : M T :=
  l ← on_dstack (pop_items D 1); match l with [a] => mret a | _ => lift Panic end.
Definition pop2 {T} (D : OpcodeData T) : M (T * T) :=
  l ← on_dstack (pop_items D 2); match l with [a; b] => mret (a, b) | _ => lift Panic end.
Definition pop3 {T} (D : OpcodeData T) : M (T * T * T) :=
  l ← on_dstack (pop_items D 3); match l with [a; b; c] => mret (a, b, c) | _ => lift Panic end.
Definition pop_raw1 : M bytes := l ← on_dstack (pop_raw 1); match l with [a] => mret a | _ => lift Panic end.
Definition pop_raw2 : M (bytes * bytes) := l ← on_dstack (pop_raw 2); match l with [a; b] => mret (a, b) | _ => lift Panic end.
Definition push_number (n : i64) : M unit := on_dstack (push_item i64_data n).
Definition push_bool (b : bool) : M unit := on_dstack (push_item bool_data b).

Definition is_executing (vm : VM) : bool :=
  match last (cond_stack vm) with None => true | Some c => bool_decide (c = CondTrue) end.

(** ** Opcodes

    The argument is the data of the opcode ([self.data]). *)
Section opcodes.
Context `{SC : ScriptCrypto} `{CR : CacheRandom}.
Context (script_source : ScriptSource).
Implicit Types data : bytes.

Definition push_data data : M unit := push data.
Definition OpFalse data : M unit := push [].
Definition OpPushNumber (n : i64) data : M unit := push_number n.
Definition Op1Negate data : M unit := push_number (-1).
Definition op_reserved data : M unit := fail OpcodeReserved.
Definition op_disabled data : M unit := fail OpcodeDisabled.
Definition op_invalid data : M unit := fail InvalidOpcode.
Definition OpNop data : M unit := mret tt.

(** [vm.dstack.pop()] *)
Definition dstack_pop : M (option bytes) := fun vm =>
  match last (dstack vm) with
  | Some v => (Ok (Some v), with_dstack vm (take (length (dstack vm) - 1) (dstack vm)))
  | None => (Ok None, vm)
  end.
Definition push_cond (c : OpCond) : M unit := fun vm => (Ok tt, with_cond vm (cond_stack vm ++ [c])).
Definition OpIf data : M unit :=
  executing ← gets is_executing;
  cond ← (if executing : bool then
    o ← dstack_pop;
    match o with
    | Some cond_buf =>
        if 1 <? zlen cond_buf then fail InvalidState else
        match last cond_buf with
        | Some stack_cond => if stack_cond =? 1 then mret CondTrue else fail InvalidState
        | None => mret CondFalse
        end
    | None => fail EmptyStack
    end
  else mret CondSkip);
  push_cond cond.
Definition OpNotIf data : M unit :=
  executing ← gets is_executing;
  cond ← (if executing : bool then
    o ← dstack_pop;
    match o with
    | Some cond_buf =>
        if 1 <? zlen cond_buf then fail InvalidState else
        match last cond_buf with
        | Some stack_cond => if stack_cond =? 1 then mret CondFalse else fail InvalidState
        | None => mret CondTrue
        end
    | None => fail EmptyStack
    end
  else mret CondSkip);
  push_cond cond.
Definition OpElse data : M unit := fun vm =>
  match last (cond_stack vm) with
  | Some cond => (Ok tt, with_cond vm (take (length (cond_stack vm) - 1) (cond_stack vm) ++ [negate cond]))
  | None => (Err InvalidState, vm)
  end.
Definition OpEndIf data : M unit := fun vm =>
  match last (cond_stack vm) with
  | Some _ => (Ok tt, with_cond vm (take (length (cond_stack vm) - 1) (cond_stack vm)))
  | None => (Err InvalidState, vm)
  end.
Definition OpVerify data : M unit :=
  result ← pop1 bool_data; if result : bool then mret tt else fail VerifyError.
Definition OpReturn data : M unit := fail EarlyReturn.

(** Stack opcodes. *)
Definition OpToAltStack data : M unit :=
  item ← pop_raw1; modify (fun vm => with_astack vm (astack vm ++ [item])).
Definition OpFromAltStack data : M unit := fun vm =>
  match last (astack vm) with
  | Some l => push l (with_astack vm (take (length (astack vm) - 1) (astack vm)))
  | None => (Err EmptyStack, vm)
  end.
Definition Op2Drop data : M unit := on_dstack (drop_items 2).
Definition Op2Dup data : M unit := on_dstack (dup_items 2).
Definition Op3Dup data : M unit := on_dstack (dup_items 3).
Definition Op2Over data : M unit := on_dstack (over_items 2).
Definition Op2Rot data : M unit := on_dstack (rot_items 2).
Definition Op2Swap data : M unit := on_dstack (swap_items 2).
Definition OpIfDup data : M unit :=
  l ← on_dstack (peek_raw 1);
  match l with
  | [r] => b ← lift (deserialize bool_data r); if b : bool then push r else mret tt
  | _ => lift Panic
  end.
Definition OpDepth data : M unit := n ← gets (fun vm => zlen (dstack vm)); push_number n.
Definition OpDrop data : M unit := on_dstack (drop_items 1).
Definition OpDup data : M unit := on_dstack (dup_items 1).
(** [Vec::remove] and [Vec::insert]; the guards keep the index in range. *)
Definition vec_remove (i : nat) (s : Stack) : Stack := take i s ++ drop (S i) s.
Definition OpNip data : M unit := fun vm =>
  let s := dstack vm in
  if (2 <=? length s)%nat then (Ok tt, with_dstack vm (vec_remove (length s - 2) s))
  else (Err (InvalidStackOperation 2 (zlen s)), vm).
Definition OpOver data : M unit := on_dstack (over_items 1).
Definition OpPick data : M unit :=
  loc ← pop1 i32_data;
  s ← gets dstack;
  if (loc <? 0) || (zlen s <=? loc) then fail InvalidState else
  item ← lift (unwrap (s !! (length s - Z.to_nat loc - 1)%nat));
  push item.
Definition OpRoll data : M unit :=
  loc ← pop1 i32_data;
  s ← gets dstack;
  if (loc <? 0) || (zlen s <=? loc) then fail InvalidState else
  item ← lift (unwrap (s !! (length s - Z.to_nat loc - 1)%nat));
  modify (fun vm => with_dstack vm (vec_remove (length s - Z.to_nat loc - 1) s ++ [item])).
Definition OpRot data : M unit := on_dstack (rot_items 1).
Definition OpSwap data : M unit := on_dstack (swap_items 1).
Definition OpTuck data : M unit := fun vm =>
  let s := dstack vm in
  if (2 <=? length s)%nat then
    match last s with
    | Some l => (Ok tt, with_dstack vm (take (length s - 2) s ++ [l] ++ drop (length s - 2) s))
    | None => (Panic, vm)
    end
  else (Err (InvalidStackOperation 2 (zlen s)), vm).
Definition OpSize data : M unit :=
  s ← gets dstack;
  match last s with
  | Some l => n ← lift (ok_or (checked_i64 (zlen l)) NumberTooBig); push_number n
  | None => fail (InvalidStackOperation 1 0)
  end.
Definition OpEqual data : M unit := fun vm =>
  let s := dstack vm in
  if (2 <=? length s)%nat then
    match drop (length s - 2) s with
    | [a; b] => push (if bool_decide (a = b) then [1] else []) (with_dstack vm (take (length s - 2) s))
    | _ => (Panic, vm)
    end
  else (Err (InvalidStackOperation 2 (zlen s)), vm).
Definition OpEqualVerify data : M unit := fun vm =>
  let s := dstack vm in
  if (2 <=? length s)%nat then
    match drop (length s - 2) s with
    | [a; b] => (if bool_decide (a = b) then Ok tt else Err VerifyError, with_dstack vm (take (length s - 2) s))
    | _ => (Panic, vm)
    end
  else (Err (InvalidStackOperation 2 (zlen s)), vm).

(** Numeric opcodes. *)
Definition checked (x : Z) : M i64 := lift (ok_or (checked_i64 x) NumberTooBig).
Definition b2z (b : bool) : i64 := if b then 1 else 0.
Definition Op1Add data : M unit := value ← pop1 i64_data; r ← checked (value + 1); push_number r.
Definition Op1Sub data : M unit := value ← pop1 i64_data; r ← checked (value - 1); push_number r.
Definition OpNegate data : M unit := value ← pop1 i64_data; r ← checked (- value); push_number r.
Definition OpAbs data : M unit := value ← pop1 i64_data; r ← checked (Z.abs value); push_number r.
Definition OpNot data : M unit := m ← pop1 i64_data; push_number (b2z (m =? 0)).
Definition Op0NotEqual data : M unit := m ← pop1 i64_data; push_number (b2z (negb (m =? 0))).
Definition OpAdd data : M unit := '(a, b) ← pop2 i64_data; r ← checked (a + b); push_number r.
Definition OpSub data : M unit := '(a, b) ← pop2 i64_data; r ← checked (a - b); push_number r.
Definition OpBoolAnd data : M unit := '(a, b) ← pop2 i64_data; push_number (b2z (negb (a =? 0) && negb (b =? 0))).
Definition OpBoolOr data : M unit := '(a, b) ← pop2 i64_data; push_number (b2z (negb (a =? 0) || negb (b =? 0))).
Definition OpNumEqual data : M unit := '(a, b) ← pop2 i64_data; push_number (b2z (a =? b)).
Definition OpNumEqualVerify data : M unit := '(a, b) ← pop2 i64_data; if a =? b then mret tt else fail VerifyError.
Definition OpNumNotEqual data : M unit := '(a, b) ← pop2 i64_data; push_number (b2z (negb (a =? b))).
Definition OpLessThan data : M unit := '(a, b) ← pop2 i64_data; push_number (b2z (a <? b)).
Definition OpGreaterThan data : M unit := '(a, b) ← pop2 i64_data; push_number (b2z (b <? a)).
Definition OpLessThanOrEqual data : M unit := '(a, b) ← pop2 i64_data; push_number (b2z (a <=? b)).
Definition OpGreaterThanOrEqual data : M unit := '(a, b) ← pop2 i64_data; push_number (b2z (b <=? a)).
Definition OpMin data : M unit := '(a, b) ← pop2 i64_data; push_number (Z.min a b).
Definition OpMax data : M unit := '(a, b) ← pop2 i64_data; push_number (Z.max a b).
Definition OpWithin data : M unit := '(x, l, u) ← pop3 i64_data; push_number (b2z ((l <=? x) && (x <? u))).

(** Crypto opcodes. *)
Definition OpSHA256 data : M unit := l ← pop_raw1; push (sha256 l).
Definition OpBlake2b data : M unit := l ← pop_raw1; push (blake2b 32 [] l).
Definition op_check_multisig_disabled : M unit := fail OpcodeDisabled.
Definition OpCheckMultiSig data : M unit := op_check_multisig_disabled.
Definition OpCheckMultiSigVerify data : M unit :=
  _ ← OpCheckMultiSig data; valid ← pop1 bool_data; if valid : bool then mret tt else fail VerifyError.

(** [bytes.resize(8, 0)] and [u64::from_le_bytes] *)
Definition padded_u64 (b : bytes) : u64 := undigits 256 (b ++ repeat 0 (8 - length b)).
Definition OpCheckLockTimeVerify data : M unit :=
  match script_source with
  | TxInput tx input _ _ _ =>
      lock_time_bytes ← pop_raw1;
      if 8 <? zlen lock_time_bytes then fail NumberTooBig else
      let stack_lock_time := padded_u64 lock_time_bytes in
      let tx_lock_time := lock_time (ptx tx) in
      if negb (((tx_lock_time <? LOCK_TIME_THRESHOLD) && (stack_lock_time <? LOCK_TIME_THRESHOLD)) ||
               ((LOCK_TIME_THRESHOLD <=? tx_lock_time) && (LOCK_TIME_THRESHOLD <=? stack_lock_time)))
      then fail UnsatisfiedLockTime else
      if tx_lock_time <? stack_lock_time then fail UnsatisfiedLockTime else
      if sequence input =? MAX_TX_IN_SEQUENCE_NUM then fail UnsatisfiedLockTime else mret tt
  | _ => fail InvalidSource
  end.
Definition OpCheckSequenceVerify data : M unit :=
  match script_source with
  | TxInput tx input _ _ _ =>
      sequence_bytes ← pop_raw1;
      if 8 <? zlen sequence_bytes then fail NumberTooBig else
      let stack_sequence := padded_u64 sequence_bytes in
      if negb (Z.land stack_sequence SEQUENCE_LOCK_TIME_DISABLED =? 0) then mret tt else
      if negb (Z.land (sequence input) SEQUENCE_LOCK_TIME_DISABLED =? 0) then fail UnsatisfiedLockTime else
      if Z.land (sequence input) SEQUENCE_LOCK_TIME_MASK <? Z.land stack_sequence SEQUENCE_LOCK_TIME_MASK
      then fail UnsatisfiedLockTime else mret tt
  | _ => fail InvalidSource
  end.

(** Introspection opcodes.  [usize as i64] does not change lengths, which are
    below [2^63]. *)
Definition OpTxInputCount data : M unit :=
  match script_source with
  | TxInput tx _ _ _ _ => push_number (zlen (inputs (ptx tx)))
  | _ => fail InvalidSource
  end.
Definition OpTxOutputCount data : M unit :=
  match script_source with
  | TxInput tx _ _ _ _ => push_number (zlen (outputs (ptx tx)))
  | _ => fail InvalidSource
  end.
Definition OpTxInputIndex data : M unit :=
  match script_source with
  | TxInput _ _ idx _ _ => push_number (Z.of_nat idx)
  | _ => fail InvalidSource
  end.
(** [usize::try_from(idx).ok().and_then(|idx| l.get(idx))] *)
Definition get_i32 {A} (l : list A) (idx : i32) : option A := if idx <? 0 then None else l !! Z.to_nat idx.
Definition to_bytes (spk : ScriptPublicKey) : bytes := rev (digits 256 2 (spk_version spk)) ++ spk_script spk.
Definition OpTxInputAmount data : M unit :=
  match script_source with
  | TxInput tx _ _ _ _ =>
      idx ← pop1 i32_data;
      utxo ← lift (ok_or (get_i32 (entries tx) idx) (InvalidInputIndex idx (zlen (inputs (ptx tx)))));
      n ← checked (amount utxo); push_number n
  | _ => fail InvalidSource
  end.
Definition OpTxInputSpk data : M unit :=
  match script_source with
  | TxInput tx _ _ _ _ =>
      idx ← pop1 i32_data;
      utxo ← lift (ok_or (get_i32 (entries tx) idx) (InvalidInputIndex idx (zlen (inputs (ptx tx)))));
      push (to_bytes (script_public_key utxo))
  | _ => fail InvalidSource
  end.
Definition OpTxOutputAmount data : M unit :=
  match script_source with
  | TxInput tx _ _ _ _ =>
      idx ← pop1 i32_data;
      output ← lift (ok_or (get_i32 (outputs (ptx tx)) idx) (InvalidOutputIndex idx (zlen (inputs (ptx tx)))));
      n ← checked (value output); push_number n
  | _ => fail InvalidSource
  end.
Definition OpTxOutputSpk data : M unit :=
  match script_source with
  | TxInput tx _ _ _ _ =>
      idx ← pop1 i32_data;
      output ← lift (ok_or (get_i32 (outputs (ptx tx)) idx) (InvalidOutputIndex idx (zlen (inputs (ptx tx)))));
      push (to_bytes (out_script_public_key output))
  | _ => fail InvalidSource
  end.

(** Signature verification. *)
Definition check_dilithium_signature (hash_type : u8) (key sig : bytes) : M bool := fun vm =>
  match consume_sig_op (runtime_sig_op_counter vm) with
  | Ok counter =>
      let vm := with_counter vm counter in
      match script_source with
      | TxInput tx _ idx _ _ =>
          if negb (zlen sig =? DILITHIUM2_SIG_SIZE) then (Err (SigLength (zlen sig)), vm) else
          if negb (zlen key =? DILITHIUM2_VK_SIZE) then (Err PubKeyFormat, vm) else
          match calc_signature_hash tx idx hash_type (reused_values vm) with
          | Ok (sig_hash, reused) =>
              let vm := with_sig_state vm (sig_cache vm) reused in
              let msg := as_bytes sig_hash in
              let cache_key := mkSigCacheKey (take 32 sig) (take 32 key) msg in
              match cache_get (sig_cache vm) cache_key with
              | Some cached => (Ok cached, vm)
              | None =>
                  let valid := ml_dsa_44_verify key msg [] sig in
                  (Ok valid, with_sig_state vm (cache_insert (sig_cache vm) cache_key valid) reused)
              end
          | Err e => (Err e, vm)
          | Panic => (Panic, vm)
          | NoFuel => (NoFuel, vm)
          end
      | StandAloneScripts _ => (Err NotATransactionInput, vm)
      end
  | Err e => (Err e, vm)
  | Panic => (Panic, vm)
  | NoFuel => (NoFuel, vm)
  end.
Definition OpCheckSigDilithium data : M unit :=
  '(sig, key) ← pop_raw2;
  match last sig with
  | Some typ =>
      match sighash_from_u8 typ with
      | Ok hash_type => valid ← check_dilithium_signature hash_type key (take (length sig - 1) sig); push_bool valid
      | _ => fail (InvalidSigHashType typ)
      end
  | None => push_bool false
  end.
(** The [opcode_list!] table: opcode numbers and bodies.  [OpData1] to
    [OpData75], the small integers [OpTrue] to [Op16] and the undefined opcodes
    from 0xc5 on are generated. *)
Definition data_opcodes : list (u8 * (bytes -> M unit)) := map (fun n => (Z.of_nat n, push_data)) (seq 1 75).
Definition number_opcodes : list (u8 * (bytes -> M unit)) :=
  map (fun n => (0x50 + Z.of_nat n, OpPushNumber (Z.of_nat n))) (seq 1 16).
Definition control_opcodes : list (u8 * (bytes -> M unit)) :=
  [(0x61, OpNop); (0x62, op_reserved); (0x63, OpIf); (0x64, OpNotIf); (0x65, op_reserved); (0x66, op_reserved);
   (0x67, OpElse); (0x68, OpEndIf); (0x69, OpVerify); (0x6a, OpReturn)].
Definition stack_opcodes : list (u8 * (bytes -> M unit)) :=
  [(0x6b, OpToAltStack); (0x6c, OpFromAltStack); (0x6d, Op2Drop); (0x6e, Op2Dup); (0x6f, Op3Dup);
   (0x70, Op2Over); (0x71, Op2Rot); (0x72, Op2Swap); (0x73, OpIfDup); (0x74, OpDepth); (0x75, OpDrop);
   (0x76, OpDup); (0x77, OpNip); (0x78, OpOver); (0x79, OpPick); (0x7a, OpRoll); (0x7b, OpRot); (0x7c, OpSwap);
   (0x7d, OpTuck); (0x7e, op_disabled); (0x7f, op_disabled); (0x80, op_disabled); (0x81, op_disabled);
   (0x82, OpSize); (0x83, op_disabled); (0x84, op_disabled); (0x85, op_disabled); (0x86, op_disabled);
   (0x87, OpEqual); (0x88, OpEqualVerify); (0x89, op_reserved); (0x8a, op_reserved)].
Definition numeric_opcodes : list (u8 * (bytes -> M unit)) :=
  [(0x8b, Op1Add); (0x8c, Op1Sub); (0x8d, op_disabled); (0x8e, op_disabled); (0x8f, OpNegate); (0x90, OpAbs);
   (0x91, OpNot); (0x92, Op0NotEqual); (0x93, OpAdd); (0x94, OpSub); (0x95, op_disabled); (0x96, op_disabled);
   (0x97, op_disabled); (0x98, op_disabled); (0x99, op_disabled); (0x9a, OpBoolAnd); (0x9b, OpBoolOr);
   (0x9c, OpNumEqual); (0x9d, OpNumEqualVerify); (0x9e, OpNumNotEqual); (0x9f, OpLessThan);
   (0xa0, OpGreaterThan); (0xa1, OpLessThanOrEqual); (0xa2, OpGreaterThanOrEqual); (0xa3, OpMin);
   (0xa4, OpMax); (0xa5, OpWithin); (0xa6, op_invalid); (0xa7, op_invalid)].
Definition crypto_opcodes : list (u8 * (bytes -> M unit)) :=
  [(0xa8, OpSHA256); (0xa9, OpCheckMultiSig); (0xaa, OpBlake2b); (0xab, op_disabled); (0xac, op_disabled);
   (0xad, op_disabled); (0xae, OpCheckMultiSig); (0xaf, OpCheckMultiSigVerify); (0xb0, OpCheckLockTimeVerify);
   (0xb1, OpCheckSequenceVerify)].
Definition introspection_opcodes : list (u8 * (bytes -> M unit)) :=
  [(0xb2, op_reserved); (0xb3, OpTxInputCount); (0xb4, OpTxOutputCount); (0xb5, op_reserved);
   (0xb6, op_reserved); (0xb7, op_reserved); (0xb8, op_reserved); (0xb9, OpTxInputIndex); (0xba, op_reserved);
   (0xbb, op_reserved); (0xbc, op_reserved); (0xbd, op_reserved); (0xbe, OpTxInputAmount);
   (0xbf, OpTxInputSpk); (0xc0, op_reserved); (0xc1, op_reserved); (0xc2, OpTxOutputAmount);
   (0xc3, OpTxOutputSpk); (0xc4, OpCheckSigDilithium)].
Definition undefined_opcodes : list (u8 * (bytes -> M unit)) := map (fun n => (Z.of_nat n, op_invalid)) (seq 0xc5 59).
Definition opcode_list : list (u8 * (bytes -> M unit)) :=
  [(0x00, OpFalse)] ++ data_opcodes ++
  [(0x4c, push_data); (0x4d, push_data); (0x4e, push_data); (0x4f, Op1Negate); (0x50, op_reserved)] ++
  number_opcodes ++ control_opcodes ++ stack_opcodes ++ numeric_opcodes ++ crypto_opcodes ++ introspection_opcodes ++
  undefined_opcodes.

(** [execute] of the opcode with a given number. *)
Definition execute_op (code : u8) data : M unit :=
  match find (fun e => e.1 =? code) opcode_list with Some e => e.2 data | None => lift Panic end.
End opcodes.

(** ** Parsing *)
Record OpCode := mkOp { op_value : u8; op_data : bytes }.

(** The length parameter of an entry of the table: a fixed total length, or
    the width in bytes of the length field. *)
Inductive OpLength := Fixed (length : nat) | Var (width : nat).
Definition op_length (code : u8) : OpLength :=
  if (0x01 <=? code) && (code <=? 0x4b) then Fixed (Z.to_nat code + 1) else
  if code =? 0x4c then Var 1 else if code =? 0x4d then Var 2 else if code =? 0x4e then Var 4 else Fixed 1.

(** [deserialize] of [opcode_serde!]: the opcode, and the bytes left. *)
Definition op_deserialize (code : u8) (it : bytes) : result OpCode * bytes :=
  match op_length code with
  | Fixed len =>
      let data := take (len - 1) it in
      (if negb (length data =? len - 1)%nat then Err (MalformedPush (Z.of_nat (len - 1)) (zlen data)) else Ok (mkOp code data),
       drop (len - 1) it)
  | Var width =>
      let size_bytes := take width it in
      if negb (length size_bytes =? width)%nat then (Err (MalformedPushSize size_bytes), drop width it) else
      let len := undigits 256 size_bytes in
      let it := drop width it in
      let data := take (Z.to_nat len) it in
      (if negb (zlen data =? len) then Err (MalformedPush len (zlen data)) else Ok (mkOp code data), drop (Z.to_nat len) it)
  end.
Definition op_serialize (op : OpCode) : bytes :=
  match op_length (op_value op) with
  | Fixed _ => op_value op :: op_data op
  | Var width => op_value op :: digits 256 width (zlen (op_data op)) ++ op_data op
  end.
(** [parse_script]: every step consumes the opcode byte, so the length of the
    script is enough fuel. *)
Fixpoint parse_loop (fuel : nat) (it : bytes) : list (result OpCode) :=
  match it, fuel with
  | [], _ => []
  | _, O => [NoFuel]
  | code :: it, S fuel => let '(op, it) := op_deserialize code it in op :: parse_loop fuel it
  end.
Definition parse_script (script : bytes) : list (result OpCode) := parse_loop (length script) script.

(** ** Opcode metadata *)
Definition is_disabled (op : OpCode) : bool :=
  bool_decide (op_value op ∈ [0x7e; 0x7f; 0x80; 0x81; 0x83; 0x84; 0x85; 0x86; 0x8d; 0x8e; 0x95; 0x96; 0x97; 0x98; 0x99]).
Definition always_illegal (op : OpCode) : bool := bool_decide (op_value op ∈ [0x65; 0x66]).
Definition is_push_opcode (op : OpCode) : bool := op_value op <=? NO_COST_OPCODE.
Definition is_conditional (op : OpCode) : bool := (0x63 <=? op_value op) && (op_value op <=? 0x68).
Definition check_minimal_data_push (op : OpCode) : result unit :=
  let data_len := zlen (op_data op) in
  let opcode := op_value op in
  let d0 := default 0 (op_data op !! 0%nat) in
  if data_len =? 0 then fail_if (negb (opcode =? 0x00)) NotMinimalData
  else if (data_len =? 1) && (OP_SMALL_INT_MIN_VAL <=? d0) && (d0 <=? OP_SMALL_INT_MAX_VAL) then
    fail_if (negb (opcode =? 0x51 + d0 - 1)) NotMinimalData
  else if (data_len =? 1) && (d0 =? OP_1_NEGATE_VAL) then fail_if (negb (opcode =? 0x4f)) NotMinimalData
  else if data_len <=? OP_DATA_MAX_VAL then fail_if (negb (opcode =? data_len)) NotMinimalData
  else if data_len <=? 255 then fail_if (negb (opcode =? 0x4c)) NotMinimalData
  else fail_if ((data_len <? 65535) && negb (opcode =? 0x4d)) NotMinimalData.

(** [to_small_int] asserts a range that leaves out [Op16]. *)
Definition to_small_int {E} (op : OpCode) : res E u8 :=
  if op_value op =? 0x00 then Ok 0 else
  _ ← rassert ((0x51 <=? op_value op) && (op_value op <? 0x60));
  Ok (op_value op - (0x51 - 1)).

(** ** Execution *)
Definition is_pay_to_script_hash (spk : bytes) : bool :=
  (zlen spk =? 35) && (default 0 (spk !! 0%nat) =? 0xaa) && (default 0 (spk !! 1%nat) =? 0x20) &&
  (default 0 (spk !! 34%nat) =? 0x87).

Section engine.
Context `{SC : ScriptCrypto} `{CR : CacheRandom}.
Context (script_source : ScriptSource).

Definition execute_opcode (opcode : OpCode) : M unit :=
  _ ← (if negb (is_push_opcode opcode) then
         n ← gets num_ops;
         n ← lift (if (- 2 ^ 31 <=? n + 1) && (n + 1 <? 2 ^ 31) then Ok (n + 1) else Panic);
         _ ← modify (fun vm => with_num_ops vm n);
         if MAX_OPS_PER_SCRIPT <? n then fail (TooManyOperations MAX_OPS_PER_SCRIPT) else mret tt
       else if MAX_SCRIPT_ELEMENT_SIZE <? zlen (op_data opcode)
       then fail (ElementTooBig (zlen (op_data opcode)) MAX_SCRIPT_ELEMENT_SIZE)
       else mret tt);
  executing ← gets is_executing;
  if executing || is_conditional opcode then
    _ ← (if (0 <? op_value opcode) && (op_value opcode <=? 0x4e) then lift (check_minimal_data_push opcode) else mret tt);
    execute_op script_source (op_value opcode) (op_data opcode)
  else mret tt.

(** One iteration of [try_for_each]. *)
Definition script_step (verify_only_push : bool) (opcode : result OpCode) : M unit :=
  opcode ← lift opcode;
  if is_disabled opcode then fail OpcodeDisabled else
  if always_illegal opcode then fail OpcodeReserved else
  if verify_only_push && negb (is_push_opcode opcode) then fail SignatureScriptNotPushOnly else
  _ ← execute_opcode opcode;
  combined_size ← gets (fun vm => zlen (astack vm) + zlen (dstack vm));
  if MAX_STACK_SIZE <? combined_size then fail (StackSizeExceeded combined_size MAX_STACK_SIZE) else mret tt.
Definition execute_script (script : bytes) (verify_only_push : bool) : M unit := fun vm =>
  let '(script_result, vm) := stm_for (script_step verify_only_push) (parse_script script) vm in
  match script_result, cond_stack vm with
  | Ok _, _ :: _ => (Err ErrUnbalancedConditional, vm)
  | _, _ => (script_result, with_num_ops (with_astack vm []) 0)
  end.

Definition check_error_condition (final_script : bool) : M unit :=
  s ← gets dstack;
  _ ← (if final_script then
         if 1 <? zlen s then fail (CleanStack (zlen s - 1)) else
         if zlen s =? 0 then fail EmptyStack else mret tt
       else mret tt);
  v ← pop1 bool_data;
  if v : bool then mret tt else fail EvalFalse.

(** The scripts that are run, each with its index, skipping empty ones; the
    stack is saved before the second one for P2SH. *)
Fixpoint run_scripts (is_p2sh is_tx_input : bool) (idx : nat) (scripts : list bytes) (saved_stack : option Stack) : M (option Stack) :=
  match scripts with
  | [] => mret saved_stack
  | s :: scripts =>
      if bool_decide (s = []) then run_scripts is_p2sh is_tx_input (S idx) scripts saved_stack else
      st ← gets dstack;
      let saved_stack := if is_p2sh && (idx =? 1)%nat then Some st else saved_stack in
      _ ← execute_script s ((idx =? 0)%nat && is_tx_input);
      run_scripts is_p2sh is_tx_input (S idx) scripts saved_stack
  end.
Definition run (scripts : list bytes) (is_p2sh is_tx_input : bool) : M unit :=
  if bool_decide (scripts = []) then fail NoScripts else
  if forallb (fun e => bool_decide (e = [])) scripts then fail EvalFalse else
  match find (fun e => MAX_SCRIPTS_SIZE <? zlen e) scripts with
  | Some s => fail (ScriptSize (zlen s) MAX_SCRIPTS_SIZE)
  | None =>
      saved_stack ← run_scripts is_p2sh is_tx_input 0 scripts None;
      _ ← (if is_p2sh then
             _ ← check_error_condition false;
             st ← lift (ok_or saved_stack EmptyStack);
             _ ← modify (fun vm => with_dstack vm st);
             o ← dstack_pop;
             script ← lift (ok_or o EmptyStack);
             execute_script script false
           else mret tt);
      check_error_condition true
  end.
Definition execute : M unit :=
  match script_source with
  | TxInput _ input _ utxo_entry is_p2sh =>
      if MAX_SCRIPT_PUBLIC_KEY_VERSION <? spk_version (script_public_key utxo_entry) then mret tt
      else run [signature_script input; spk_script (script_public_key utxo_entry)] is_p2sh true
  | StandAloneScripts scripts => run scripts false false
  end.
End engine.

(** [TxScriptEngine::from_transaction_input] and [from_script]. *)
Definition fresh_vm (cache : Cache) (reused : SigHashReusedValues) (sig_op_limit : u8) : VM :=
  mkVM [] [] cache reused [] 0 (counter_new sig_op_limit).
Definition from_transaction_input {E} (tx : PopulatedTransaction) (input : TransactionInput) (input_idx : nat) (utxo_entry : UtxoEntry)
    (reused : SigHashReusedValues) (cache : Cache) : res E (ScriptSource * VM) :=
  let is_p2sh := is_pay_to_script_hash (spk_script (script_public_key utxo_entry)) in
  _ ← rassert (input_idx <? length (inputs (ptx tx)))%nat;
  Ok (TxInput tx input input_idx utxo_entry is_p2sh, fresh_vm cache reused (sig_op_count input)).
Definition from_script (script : bytes) (reused : SigHashReusedValues) (cache : Cache) : ScriptSource * VM :=
  (StandAloneScripts [script], fresh_vm cache reused 255).

(** ** Signature operation counts *)
Definition get_sig_op_count `{ScriptCrypto} `{CacheRandom} (tx : PopulatedTransaction) (input_idx : nat) : result u8 :=
  input ← unwrap (inputs (ptx tx) !! input_idx);
  utxo ← ok_or (entries tx !! input_idx) (InvalidInputIndex (Z.of_nat input_idx) (zlen (inputs (ptx tx))));
  '(source, vm) ← from_transaction_input tx input input_idx utxo reused_default (mkCache ∅ 0);
  let '(r, vm) := execute source vm in
  _ ← r; counter_used (runtime_sig_op_counter vm).
Fixpoint sig_ops_loop {E} (prev : option OpCode) (num_sigs : u64) (opcodes : list (result OpCode)) : res E u64 :=
  match opcodes with
  | [] => Ok num_sigs
  | Ok op :: opcodes =>
      n ← (if bool_decide (op_value op ∈ [0xac; 0xad; 0xab]) then u64_add num_sigs 1
           else if bool_decide (op_value op ∈ [0xae; 0xaf; 0xa9]) then
             match prev with
             | None => u64_add num_sigs MAX_PUB_KEYS_PER_MUTLTISIG
             | Some p =>
                 if (0x51 <=? op_value p) && (op_value p <=? 0x60)
                 then k ← to_small_int p; u64_add num_sigs k
                 else u64_add num_sigs MAX_PUB_KEYS_PER_MUTLTISIG
             end
           else Ok num_sigs);
      sig_ops_loop (Some op) n opcodes
  | _ :: _ => Ok num_sigs
  end.
Definition get_sig_op_count_by_opcodes {E} (opcodes : list (result OpCode)) : res E u64 := sig_ops_loop None 0 opcodes.
Definition push_only (op : result OpCode) : bool := match op with Ok op => is_push_opcode op | _ => false end.
Definition get_sig_op_count_upper_bound {E} (signature_script : bytes) (prev_script_public_key : ScriptPublicKey) : res E u64 :=
  let script_pub_key_ops := parse_script (spk_script prev_script_public_key) in
  if negb (is_pay_to_script_hash (spk_script prev_script_public_key)) then get_sig_op_count_by_opcodes script_pub_key_ops else
  let signature_script_ops := parse_script signature_script in
  if negb (forallb push_only signature_script_ops) then Ok 0 else
  match last signature_script_ops with
  | Some (Ok op) => get_sig_op_count_by_opcodes (parse_script (op_data op))
  | _ => Ok 0
  end.
Definition is_unspendable (script : bytes) : bool :=
  match parse_script script with
  | [] => false
  | first :: ops =>
      match first with Ok op => op_value op =? 0x6a | _ => true end || negb (forallb (fun o => match o with Ok _ => true | _ => false end) ops)
  end.
