(* ===== verification/ScriptSafe.v ===== *)
(** * Safety of the script engine

    A small Hoare logic over the state monad of the engine: a [triple] says
    that a computation started in a good state does not panic (nor run out of
    fuel), and what holds when it succeeds.  The invariant [vm_ok] is a typing
    of the state: stack elements are byte strings, the counters are in range.
    Every opcode preserves it, hence so do scripts and the whole engine. *)
From S2P Require Import Prelude Tx Encode Hashing Script ScriptVm.

Create HintDb vm.

(** The truth value of a stack element, and popping one. *)
Definition truthy (v : bytes) : bool :=
  match last v with
  | None => false
  | Some l => negb (Z.land l 0x7f =? 0) || existsb (fun b => negb (b =? 0)) (take (length v - 1) v)
  end.
Lemma deserialize_truthy v : deserialize bool_data v = Ok (truthy v).
Proof. cbn [deserialize bool_data]. unfold truthy. by destruct (last v). Qed.
Lemma with_dstack_same vm : with_dstack vm (dstack vm) = vm.
Proof. by destruct vm. Qed.
Lemma pop1_snoc {T} (D : OpcodeData T) vm s v a : dstack vm = s ++ [v] -> deserialize D v = Ok a ->
  pop1 D vm = (Ok a, with_dstack vm s).
Proof.
  intros Hs Hd. unfold pop1, on_dstack, pop_items, mbind, stm_bind. rewrite Hs, length_app. simpl length.
  rewrite (proj2 (Nat.ltb_ge _ _)) by lia. rewrite Nat.add_sub. rewrite take_app_length, drop_app_length. cbn [res_mapM].
  by rewrite Hd.
Qed.
Lemma pop1_empty {T} (D : OpcodeData T) vm : dstack vm = [] -> pop1 D vm = (Err (InvalidStackOperation 1 0), vm).
Proof. intros Hs. unfold pop1, on_dstack, mbind, stm_bind. rewrite Hs. cbn. f_equal. rewrite <- Hs. apply with_dstack_same. Qed.

(** What [check_error_condition] computes. *)
Lemma check_error_final vm : check_error_condition true vm =
  match dstack vm with
  | [] => (Err EmptyStack, vm)
  | [v] => (if truthy v then Ok tt else Err EvalFalse, with_dstack vm [])
  | _ => (Err (CleanStack (zlen (dstack vm) - 1)), vm)
  end.
Proof.
  unfold check_error_condition, gets, mbind, stm_bind, mret, stm_ret. destruct (dstack vm) as [|v [|w s]] eqn:Hs; [done| |].
  - change (zlen [v]) with 1. cbn -[pop1]. rewrite (pop1_snoc _ vm [] v (truthy v) Hs (deserialize_truthy v)). by destruct (truthy v).
  - rewrite (proj2 (Z.ltb_lt _ _)) by (unfold zlen; simpl; lia). done.
Qed.
Lemma check_error_middle vm s v : dstack vm = s ++ [v] ->
  check_error_condition false vm = (if truthy v then Ok tt else Err EvalFalse, with_dstack vm s).
Proof.
  intros Hs. unfold check_error_condition, gets, mbind, stm_bind, mret, stm_ret.
  rewrite (pop1_snoc _ vm s v (truthy v) Hs (deserialize_truthy v)). by destruct (truthy v).
Qed.
Lemma check_error_middle_empty vm : dstack vm = [] ->
  check_error_condition false vm = (Err (InvalidStackOperation 1 0), vm).
Proof.
  intros Hs. unfold check_error_condition, gets, mbind, stm_bind, mret, stm_ret. by rewrite (pop1_empty _ vm Hs).
Qed.

Definition triple {A} (P : VM -> Prop) (m : stm VM TxScriptError A) (Q : A -> VM -> Prop) : Prop :=
  forall vm, P vm -> match m vm with (Ok a, vm') => Q a vm' | (Err _, _) => True | _ => False end.

Section rules.
Context {A B : Type}.
Implicit Types (P : VM -> Prop).

Lemma triple_ret P (a : A) (Q : A -> VM -> Prop) : (forall vm, P vm -> Q a vm) -> triple P (mret a) Q.
Proof. intros H vm Hvm. exact (H vm Hvm). Qed.
Lemma triple_fail P e (Q : A -> VM -> Prop) : triple P (fail e) Q.
Proof. done. Qed.
Lemma triple_bind P (m : stm VM TxScriptError A) (k : A -> stm VM TxScriptError B) R Q :
  triple P m R -> (forall a, triple (R a) (k a) Q) -> triple P (a ← m; k a) Q.
Proof.
  intros Hm Hk vm Hvm. specialize (Hm vm Hvm). unfold mbind, stm_bind.
  destruct (m vm) as [[a| | |] vm']; try done. by apply Hk.
Qed.
Lemma triple_weaken P (m : stm VM TxScriptError A) (Q Q' : A -> VM -> Prop) :
  triple P m Q -> (forall a vm, Q a vm -> Q' a vm) -> triple P m Q'.
Proof. intros Hm HQ vm Hvm. specialize (Hm vm Hvm). destruct (m vm) as [[a| | |] vm']; try done. by apply HQ. Qed.
Lemma triple_lift P (r : res TxScriptError A) (Q : A -> VM -> Prop) :
  safe r -> (forall a vm, r = Ok a -> P vm -> Q a vm) -> triple P (lift r) Q.
Proof. intros Hr HQ vm Hvm. unfold lift. destruct r; try done. by apply HQ. Qed.
Lemma triple_gets P (f : VM -> A) (Q : A -> VM -> Prop) : (forall vm, P vm -> Q (f vm) vm) -> triple P (gets f) Q.
Proof. intros H vm Hvm. exact (H vm Hvm). Qed.
End rules.
Lemma triple_modify P f (Q : unit -> VM -> Prop) : (forall vm, P vm -> Q tt (f vm)) -> triple P (modify f) Q.
Proof. intros H vm Hvm. exact (H vm Hvm). Qed.

(** ** The invariant *)
Definition spk_bytes (s : ScriptPublicKey) : Prop := is_bytes (spk_script s).
(** What is required of the source: byte strings, and an input that exists and
    whose entry is populated. *)
Definition source_ok (src : ScriptSource) : Prop :=
  match src with
  | TxInput tx input idx e _ =>
      length (entries tx) = length (inputs (ptx tx)) /\ (idx < length (inputs (ptx tx)))%nat /\
      zlen (inputs (ptx tx)) < 2 ^ 63 /\ zlen (outputs (ptx tx)) < 2 ^ 63 /\
      is_bytes (signature_script input) /\ spk_bytes (script_public_key e) /\
      Forall (fun e => spk_bytes (script_public_key e)) (entries tx) /\
      Forall (fun o => spk_bytes (out_script_public_key o)) (outputs (ptx tx))
  | StandAloneScripts scripts => Forall is_bytes scripts
  end.

(** The signature cache holds at most its capacity. *)
Definition within_capacity (c : Cache) : Prop := (size (cache_map c) <= cache_size c)%nat.

Section typing.
Context `{SC : ScriptCrypto} `{CR : CacheRandom}.
(** [capped]: the signature cache was within its capacity at the start. *)
Context (capped : Prop) (src : ScriptSource).

Record vm_ok (vm : VM) : Prop := {
  ok_dstack : Forall is_bytes (dstack vm);
  ok_astack : Forall is_bytes (astack vm);
  ok_num_ops : 0 <= num_ops vm <= MAX_OPS_PER_SCRIPT;
  ok_counter : 0 <= sig_op_remaining (runtime_sig_op_counter vm) <= sig_op_limit (runtime_sig_op_counter vm);
  ok_limit : sig_op_limit (runtime_sig_op_counter vm) < 256;
  ok_cache : capped -> within_capacity (sig_cache vm);
  ok_reused : match src with TxInput tx _ _ _ _ => reused_ok (ptx tx) (reused_values vm) | _ => True end;
}.
(** Between opcodes the stacks are within the limit. *)
Definition vm_small (vm : VM) : Prop := vm_ok vm /\ zlen (astack vm) + zlen (dstack vm) <= MAX_STACK_SIZE.

Lemma with_dstack_ok vm s : vm_ok vm -> Forall is_bytes s -> vm_ok (with_dstack vm s).
Proof. by intros [] Hs. Qed.
Lemma with_astack_ok vm s : vm_ok vm -> Forall is_bytes s -> vm_ok (with_astack vm s).
Proof. by intros [] Hs. Qed.
Lemma with_cond_ok vm c : vm_ok vm -> vm_ok (with_cond vm c).
Proof. by intros []. Qed.

(** [typed m R]: [m] keeps the invariant and returns values of type [R]. *)
Definition typed {A} (m : stm VM TxScriptError A) (R : A -> Prop) : Prop := triple vm_ok m (fun a vm => vm_ok vm /\ R a).
Definition any {A} (a : A) : Prop := True.

Lemma typed_bind {A B} (m : stm VM TxScriptError A) (k : A -> stm VM TxScriptError B) R Q :
  typed m R -> (forall a, R a -> typed (k a) Q) -> typed (a ← m; k a) Q.
Proof. intros Hm Hk. eapply triple_bind; [exact Hm|]. intros a vm [Hvm Ha]. by apply Hk. Qed.
Lemma typed_ret {A} (a : A) (R : A -> Prop) : R a -> typed (mret a) R.
Proof. intros Ha vm Hvm. done. Qed.
Lemma typed_fail {A} e (R : A -> Prop) : typed (fail e) R.
Proof. done. Qed.
Lemma typed_lift {A} (r : result A) (R : A -> Prop) : safe r -> (forall a, r = Ok a -> R a) -> typed (lift r) R.
Proof. intros Hr HR vm Hvm. unfold lift. destruct r; try done. split; [done|by apply HR]. Qed.
Lemma typed_gets {A} (f : VM -> A) (R : A -> Prop) : (forall vm, vm_ok vm -> R (f vm)) -> typed (gets f) R.
Proof. intros HR vm Hvm. split; [done|by apply HR]. Qed.
Lemma typed_modify f : (forall vm, vm_ok vm -> vm_ok (f vm)) -> typed (modify f) any.
Proof. intros Hf vm Hvm. split; [by apply Hf|done]. Qed.

Lemma stack_snoc (s : Stack) v : Forall is_bytes s -> is_bytes v -> Forall is_bytes (s ++ [v]).
Proof. intros Hs Hv. apply Forall_app. by split; [|constructor]. Qed.
Lemma stack_take (s : Stack) n : Forall is_bytes s -> Forall is_bytes (take n s).
Proof. apply Forall_take. Qed.
Lemma stack_drop (s : Stack) n : Forall is_bytes s -> Forall is_bytes (drop n s).
Proof. apply Forall_drop. Qed.
Lemma stack_app (s t : Stack) : Forall is_bytes s -> Forall is_bytes t -> Forall is_bytes (s ++ t).
Proof. intros. by apply Forall_app. Qed.
Lemma stack_last (s : Stack) v : Forall is_bytes s -> last s = Some v -> is_bytes v.
Proof. intros Hs [l ->]%last_Some. apply Forall_app in Hs as [_ Hs]. by apply Forall_cons in Hs as [Hs _]. Qed.
Lemma stack_lookup (s : Stack) i v : Forall is_bytes s -> s !! i = Some v -> is_bytes v.
Proof. apply Forall_lookup_1. Qed.
#[local] Hint Resolve stack_snoc stack_take stack_drop stack_app with_dstack_ok with_astack_ok with_cond_ok ok_dstack ok_astack : vm.

(** Operations on the data stack. *)
Lemma typed_on_dstack {A} (op : stm Stack TxScriptError A) (R : A -> Prop) :
  (forall s, Forall is_bytes s -> match op s with (Ok a, s') => R a /\ Forall is_bytes s' | (Err _, _) => True | _ => False end) ->
  typed (on_dstack op) R.
Proof.
  intros Hop vm Hvm. unfold on_dstack. specialize (Hop (dstack vm) (ok_dstack _ Hvm)).
  destruct (op (dstack vm)) as [[a| | |] s']; try done. destruct Hop. split; [by apply with_dstack_ok|done].
Qed.
Ltac stack_op := intros; apply typed_on_dstack with (R := any); intros s Hs;
  unfold drop_items, dup_items, over_items, rot_items, swap_items;
  match goal with |- context [if ?b then _ else _] => destruct b end; [split; [done|auto 8 with vm]|done].
Lemma typed_drop n : typed (on_dstack (drop_items n)) any.
Proof. stack_op. Qed.
Lemma typed_dup n : typed (on_dstack (dup_items n)) any.
Proof. stack_op. Qed.
Lemma typed_over n : typed (on_dstack (over_items n)) any.
Proof. stack_op. Qed.
Lemma typed_rot n : typed (on_dstack (rot_items n)) any.
Proof. stack_op. Qed.
Lemma typed_swap n : typed (on_dstack (swap_items n)) any.
Proof. stack_op. Qed.

Lemma typed_push v : is_bytes v -> typed (push v) any.
Proof. intros Hv vm Hvm. unfold push. pose proof (ok_dstack _ Hvm). split; [auto with vm|done]. Qed.
Lemma typed_push_number n : - 2 ^ 63 <= n < 2 ^ 63 -> typed (push_number n) any.
Proof.
  intros Hn vm Hvm. unfold push_number, on_dstack, push_item. pose proof (i64_serialize_ok n Hn) as Hs.
  destruct (serialize i64_data n); try done. pose proof (ok_dstack _ Hvm). split; [simpl; auto with vm|done].
Qed.
Lemma typed_push_bool b : typed (push_bool b) any.
Proof.
  intros vm Hvm. pose proof (ok_dstack _ Hvm). split; [|done]. simpl. apply with_dstack_ok; [done|]. apply stack_snoc; [done|].
  destruct b; repeat constructor; unfold is_digit; lia.
Qed.

(** Pops: the values are decoded from byte strings. *)
Definition data_ok {T} (D : OpcodeData T) (R : T -> Prop) : Prop :=
  forall v, is_bytes v -> match deserialize D v with Ok a => R a | Err _ => True | _ => False end.
Definition num_range (x : Z) : Prop := - 2 ^ 63 < x < 2 ^ 63.
Definition i32_range (x : Z) : Prop := - 2 ^ 31 <= x < 2 ^ 31.
Lemma i64_data_ok : data_ok i64_data num_range.
Proof.
  intros v Hv. pose proof (i64_data_safe v Hv). destruct (deserialize i64_data v) eqn:Hd; try done. by eapply i64_data_range.
Qed.
Lemma i32_data_ok : data_ok i32_data i32_range.
Proof.
  intros v Hv. pose proof (i32_data_safe v Hv). destruct (deserialize i32_data v) eqn:Hd; try done. by eapply i32_data_range.
Qed.
Lemma bool_data_ok : data_ok bool_data (fun _ => True).
Proof. intros v Hv. pose proof (bool_data_safe v). by destruct (deserialize bool_data v). Qed.

Lemma mapM_data_ok {T} (D : OpcodeData T) R l : data_ok D R -> Forall is_bytes l ->
  match res_mapM (deserialize D) l with Ok k => length k = length l /\ Forall R k | Err _ => True | _ => False end.
Proof.
  intros HD Hl. induction Hl as [|v l Hv Hl IH]; [done|]. cbn [res_mapM]. specialize (HD v Hv).
  destruct (deserialize D v); try done. cbn [mbind res_bind]. destruct (res_mapM (deserialize D) l); try done.
  destruct IH as [IH1 IH2]. split; [simpl; lia|by constructor].
Qed.
Lemma typed_pop_items {T} (D : OpcodeData T) R n : data_ok D R ->
  typed (on_dstack (pop_items D n)) (fun k => (length k = n /\ Forall R k)).
Proof.
  intros HD. apply typed_on_dstack. intros s Hs. unfold pop_items. destruct (Nat.ltb_spec (length s) n); [done|].
  pose proof (mapM_data_ok D R (drop (length s - n) s) HD ltac:(auto with vm)) as Hm.
  destruct (res_mapM _ _); try done. destruct Hm as [Hm1 Hm2]. rewrite length_drop in Hm1. split; [split; [lia|done]|auto with vm].
Qed.
Lemma typed_pop1 {T} (D : OpcodeData T) R : data_ok D R -> typed (pop1 D) R.
Proof.
  intros HD. eapply triple_bind; [by apply typed_pop_items|]. intros k vm [Hvm [Hlen Hk]].
  destruct k as [|a [|]]; try done. apply Forall_cons in Hk as [Ha _]. done.
Qed.
Lemma typed_pop2 {T} (D : OpcodeData T) R : data_ok D R -> typed (pop2 D) (fun p => R p.1 /\ R p.2).
Proof.
  intros HD. eapply triple_bind; [by apply typed_pop_items|]. intros k vm [Hvm [Hlen Hk]].
  destruct k as [|a [|b [|]]]; try done. apply Forall_cons in Hk as [Ha Hk]. by apply Forall_cons in Hk as [Hb _].
Qed.
Lemma typed_pop3 {T} (D : OpcodeData T) R : data_ok D R -> typed (pop3 D) (fun p => R p.1.1 /\ R p.1.2 /\ R p.2).
Proof.
  intros HD. eapply triple_bind; [by apply typed_pop_items|]. intros k vm [Hvm [Hlen Hk]].
  destruct k as [|a [|b [|c [|]]]]; try done. apply Forall_cons in Hk as [Ha Hk]. apply Forall_cons in Hk as [Hb Hk].
  by apply Forall_cons in Hk as [Hc _].
Qed.
Lemma typed_pop_raw n : typed (on_dstack (pop_raw n)) (fun k => (length k = n /\ Forall is_bytes k)).
Proof.
  apply typed_on_dstack. intros s Hs. unfold pop_raw. destruct (Nat.ltb_spec (length s) n); [done|].
  split; [split; [rewrite length_drop; lia|auto with vm]|auto with vm].
Qed.
Lemma typed_pop_raw1 : typed pop_raw1 (fun a => is_bytes a).
Proof.
  eapply triple_bind; [apply typed_pop_raw|]. intros k vm [Hvm [Hlen Hk]].
  destruct k as [|a [|]]; try done. by apply Forall_cons in Hk as [Ha _].
Qed.
Lemma typed_pop_raw2 : typed pop_raw2 (fun p => is_bytes p.1 /\ is_bytes p.2).
Proof.
  eapply triple_bind; [apply typed_pop_raw|]. intros k vm [Hvm [Hlen Hk]].
  destruct k as [|a [|b [|]]]; try done. apply Forall_cons in Hk as [Ha Hk]. by apply Forall_cons in Hk as [Hb _].
Qed.

(** ** Opcodes

    [vm_typed] applies the rules along the structure of a body. *)
#[local] Hint Resolve typed_drop typed_dup typed_over typed_rot typed_swap typed_push_bool typed_pop_raw1 typed_pop_raw2
  i64_data_ok i32_data_ok bool_data_ok typed_fail : vm.
#[local] Hint Resolve typed_pop1 typed_pop2 typed_pop3 typed_push : vm.
Ltac vm_step :=
  match goal with
  | |- typed (mbind _ _) _ => eapply typed_bind; [solve [eauto with vm]|intros ? ?]
  | |- typed (fail _) _ => apply typed_fail
  | |- typed (mret _) any => by apply typed_ret
  | |- typed (if ?b then _ else _) _ => destruct b eqn:?
  | |- typed (match ?x with _ => _ end) _ => destruct x eqn:?; simplify_eq/=; destruct_and?
  | |- typed _ _ => solve [eauto with vm]
  end.
Ltac vm_typed := intros; match goal with |- typed ?m _ => let m' := eval red in m in change m with m' end; repeat vm_step.

Lemma typed_checked x : typed (checked x) (fun r => - 2 ^ 63 <= r < 2 ^ 63).
Proof.
  unfold checked, checked_i64, in_i64b. destruct (_ && _) eqn:Hb; [|done]. apply typed_lift; [done|].
  intros a [= <-]. lia.
Qed.
Lemma typed_push_b2z b : typed (push_number (b2z b)) any.
Proof. apply typed_push_number. destruct b; simpl; lia. Qed.
#[local] Hint Resolve typed_checked typed_push_b2z typed_push_number : vm.
Lemma typed_min a b : num_range a -> num_range b -> typed (push_number (Z.min a b)) any.
Proof. unfold num_range. intros. apply typed_push_number. lia. Qed.
Lemma typed_max a b : num_range a -> num_range b -> typed (push_number (Z.max a b)) any.
Proof. unfold num_range. intros. apply typed_push_number. lia. Qed.
#[local] Hint Resolve typed_min typed_max : vm.

Definition op_ok (f : bytes -> stm VM TxScriptError unit) : Prop :=
  forall data, is_bytes data -> triple vm_small (f data) (fun _ vm => vm_ok vm).
Lemma typed_op_ok f : (forall data, is_bytes data -> typed (f data) any) -> op_ok f.
Proof.
  intros Hf data Hd vm [Hvm _]. specialize (Hf data Hd vm Hvm). destruct (f data vm) as [[]]; try done. by destruct Hf.
Qed.
Definition entries_ok (l : list (u8 * (bytes -> stm VM TxScriptError unit))) : Prop := Forall (fun e => op_ok e.2) l.

Ltac table := repeat (apply Forall_cons; split; [try solve [apply typed_op_ok; intros data Hd; cbn [snd]; first [solve [eauto with vm]|vm_typed]]|]).

Lemma numeric_opcodes_ok : entries_ok numeric_opcodes.
Proof. table. by apply Forall_nil. Qed.

Lemma typed_dstack_pop : typed dstack_pop (fun o => match o with Some v => is_bytes v | None => True end).
Proof.
  intros vm Hvm. unfold dstack_pop. pose proof (ok_dstack _ Hvm) as Hs. destruct (last (dstack vm)) eqn:Hl; [|done].
  split; [auto with vm|by eapply stack_last].
Qed.
Lemma typed_executing : typed (gets is_executing) any.
Proof. by apply typed_gets. Qed.
Lemma typed_push_cond c : typed (push_cond c) any.
Proof. intros vm Hvm. split; [by apply with_cond_ok|done]. Qed.
#[local] Hint Resolve typed_dstack_pop typed_executing typed_push_cond : vm.
Lemma typed_if_cond (b : bool) (t f : OpCond) :
  typed (if b then o ← dstack_pop;
    match o with
    | Some cond_buf =>
        if 1 <? zlen cond_buf then fail InvalidState else
        match last cond_buf with
        | Some stack_cond => if stack_cond =? 1 then mret t else fail InvalidState
        | None => mret f
        end
    | None => fail EmptyStack
    end else mret CondSkip) any.
Proof. destruct b; [|by apply typed_ret]. repeat vm_step. Qed.
#[local] Hint Resolve typed_if_cond : vm.
Lemma OpIf_ok data : typed (OpIf data) any.
Proof. vm_typed. Qed.
Lemma OpNotIf_ok data : typed (OpNotIf data) any.
Proof. vm_typed. Qed.
Lemma OpElse_ok data : typed (OpElse data) any.
Proof. intros vm Hvm. unfold OpElse. destruct (last _); [|done]. split; [by apply with_cond_ok|done]. Qed.
Lemma OpEndIf_ok data : typed (OpEndIf data) any.
Proof. intros vm Hvm. unfold OpEndIf. destruct (last _); [|done]. split; [by apply with_cond_ok|done]. Qed.
#[local] Hint Resolve OpIf_ok OpNotIf_ok OpElse_ok OpEndIf_ok : vm.
Lemma control_opcodes_ok : entries_ok control_opcodes.
Proof. table. by apply Forall_nil. Qed.

Lemma OpToAltStack_ok data : typed (OpToAltStack data) any.
Proof.
  eapply typed_bind; [apply typed_pop_raw1|]. intros v Hv. apply typed_modify. intros vm Hvm.
  pose proof (ok_astack _ Hvm). auto with vm.
Qed.
Lemma OpFromAltStack_ok data : typed (OpFromAltStack data) any.
Proof.
  intros vm Hvm. unfold OpFromAltStack. pose proof (ok_astack _ Hvm) as Ha. destruct (last (astack vm)) as [l|] eqn:Hl; [|done].
  eapply typed_push; [by eapply stack_last|auto with vm].
Qed.
Lemma OpIfDup_ok data : typed (OpIfDup data) any.
Proof.
  apply typed_bind with (R := fun k => length k = 1%nat /\ Forall is_bytes k).
  - apply typed_on_dstack. intros s Hs. unfold peek_raw. destruct (Nat.ltb_spec (length s) 1); [done|].
    split; [split; [rewrite length_drop; lia|auto with vm]|done].
  - intros k [Hk Hb]. destruct k as [|r [|]]; try done. apply Forall_cons in Hb as [Hr _].
    eapply typed_bind with (R := any); [apply typed_lift; [apply bool_data_safe|done]|]. intros b _. repeat vm_step.
Qed.
Lemma vec_remove_bytes i s : Forall is_bytes s -> Forall is_bytes (vec_remove i s).
Proof. intros. unfold vec_remove. auto with vm. Qed.
#[local] Hint Resolve vec_remove_bytes : vm.
Lemma OpNip_ok data : typed (OpNip data) any.
Proof. intros vm Hvm. unfold OpNip. destruct (_ <=? _)%nat; [|done]. split; [eauto with vm|done]. Qed.
Lemma typed_gets_dstack : typed (gets dstack) (Forall is_bytes).
Proof. apply typed_gets. apply ok_dstack. Qed.
Lemma typed_stack_item (s : Stack) loc : Forall is_bytes s -> (loc <? 0) || (zlen s <=? loc) = false ->
  typed (lift (unwrap (s !! (length s - Z.to_nat loc - 1)%nat))) is_bytes.
Proof.
  intros Hs Hloc. unfold zlen in Hloc. destruct (lookup_lt_is_Some_2 s (length s - Z.to_nat loc - 1)) as [v Hv]; [lia|].
  rewrite Hv. apply typed_lift; [done|]. intros a [= <-]. by eapply stack_lookup.
Qed.
#[local] Hint Resolve typed_gets_dstack typed_stack_item : vm.
Lemma OpPick_ok data : typed (OpPick data) any.
Proof. vm_typed. Qed.
Lemma OpRoll_ok data : typed (OpRoll data) any.
Proof. vm_typed. apply typed_modify. intros. auto with vm. Qed.
Lemma OpTuck_ok data : typed (OpTuck data) any.
Proof.
  intros vm Hvm. unfold OpTuck. destruct (Nat.leb_spec 2 (length (dstack vm))) as [Hlen|]; [|done].
  pose proof (ok_dstack _ Hvm) as Hs. destruct (last (dstack vm)) as [l|] eqn:Hl; [|apply last_None in Hl; rewrite Hl in Hlen; simpl in Hlen; lia].
  pose proof (stack_last _ _ Hs Hl). split; [|done]. apply with_dstack_ok; [done|]. rewrite app_assoc. auto with vm.
Qed.
Lemma OpSize_ok data : typed (OpSize data) any.
Proof. vm_typed. Qed.
Lemma top_two (s : Stack) : (2 <= length s)%nat -> exists a b, drop (length s - 2) s = [a; b].
Proof.
  intros Hs. assert (length (drop (length s - 2) s) = 2%nat) as Hl by (rewrite length_drop; lia).
  destruct (drop _ s) as [|a [|b [|]]]; try done. eauto.
Qed.
Lemma OpEqual_ok data : typed (OpEqual data) any.
Proof.
  intros vm Hvm. unfold OpEqual. destruct (Nat.leb_spec 2 (length (dstack vm))) as [Hlen|]; [|done].
  destruct (top_two _ Hlen) as (a & b & ->). apply typed_push; [|eauto with vm].
  case_bool_decide; repeat constructor; unfold is_digit; lia.
Qed.
Lemma OpEqualVerify_ok data : typed (OpEqualVerify data) any.
Proof.
  intros vm Hvm. unfold OpEqualVerify. destruct (Nat.leb_spec 2 (length (dstack vm))) as [Hlen|]; [|done].
  destruct (top_two _ Hlen) as (a & b & ->). case_bool_decide; [|done]. split; [eauto with vm|done].
Qed.
#[local] Hint Resolve OpToAltStack_ok OpFromAltStack_ok OpIfDup_ok OpNip_ok OpPick_ok OpRoll_ok OpTuck_ok OpSize_ok
  OpEqual_ok OpEqualVerify_ok : vm.
Lemma OpDepth_ok : op_ok OpDepth.
Proof.
  intros data Hd vm [Hvm Hsmall]. unfold MAX_STACK_SIZE in Hsmall. unfold OpDepth, gets, mbind, stm_bind.
  pose proof (typed_push_number (zlen (dstack vm)) ltac:(unfold zlen in *; lia) vm Hvm) as Hp.
  destruct (push_number _ vm) as [[]]; try done. by destruct Hp.
Qed.
Lemma stack_opcodes_ok : entries_ok stack_opcodes.
Proof. table; [apply OpDepth_ok|by apply Forall_nil]. Qed.

Context (Hsrc : source_ok src).

Lemma typed_sha256 l : typed (push (sha256 l)) any.
Proof. apply typed_push, sha256_is_bytes. Qed.
Lemma typed_blake2b l : typed (push (blake2b 32 [] l)) any.
Proof. apply typed_push, blake2b_is_bytes. Qed.
Lemma OpCheckMultiSigVerify_ok data : typed (OpCheckMultiSigVerify data) any.
Proof. eapply typed_bind with (R := any); [apply typed_fail|]. intros ? _. repeat vm_step. Qed.
#[local] Hint Resolve typed_sha256 typed_blake2b OpCheckMultiSigVerify_ok : vm.
Lemma OpCheckLockTimeVerify_ok data : typed (OpCheckLockTimeVerify src data) any.
Proof. vm_typed. Qed.
Lemma OpCheckSequenceVerify_ok data : typed (OpCheckSequenceVerify src data) any.
Proof. vm_typed. Qed.
#[local] Hint Resolve OpCheckLockTimeVerify_ok OpCheckSequenceVerify_ok : vm.
Lemma crypto_opcodes_ok : entries_ok (crypto_opcodes src).
Proof. table. by apply Forall_nil. Qed.

Lemma typed_get_i32 {A} (l : list A) (R : A -> Prop) idx e : Forall R l -> typed (lift (ok_or (get_i32 l idx) e)) R.
Proof.
  intros Hl. unfold get_i32. destruct (idx <? 0); [done|]. destruct (l !! _) eqn:Hi; [|done].
  apply typed_lift; [done|]. intros a' [= <-]. by eapply Forall_lookup_1.
Qed.
Lemma typed_get_any {A} (l : list A) idx e : typed (lift (ok_or (get_i32 l idx) e)) any.
Proof. apply typed_get_i32. by apply Forall_true. Qed.
Lemma to_bytes_bytes spk : spk_bytes spk -> is_bytes (to_bytes spk).
Proof. intros Hs. apply Forall_app. split; [|exact Hs]. apply Forall_rev, digits_range. lia. Qed.
#[local] Hint Resolve to_bytes_bytes : vm.
Lemma OpTxInputSpk_ok data : typed (OpTxInputSpk src data) any.
Proof.
  unfold OpTxInputSpk. destruct src as [tx input idx e b|]; [|done]. destruct Hsrc as (_ & _ & _ & _ & _ & _ & He & _).
  eapply typed_bind; [eauto with vm|]. intros k _. eapply typed_bind; [by apply typed_get_i32|]. intros u Hu. auto with vm.
Qed.
Lemma OpTxOutputSpk_ok data : typed (OpTxOutputSpk src data) any.
Proof.
  unfold OpTxOutputSpk. destruct src as [tx input idx e b|]; [|done]. destruct Hsrc as (_ & _ & _ & _ & _ & _ & _ & Ho).
  eapply typed_bind; [eauto with vm|]. intros k _. eapply typed_bind; [by apply typed_get_i32|]. intros u Hu. auto with vm.
Qed.
#[local] Hint Resolve typed_get_any : vm.
Lemma OpTxInputAmount_ok data : typed (OpTxInputAmount src data) any.
Proof. vm_typed. Qed.
Lemma OpTxOutputAmount_ok data : typed (OpTxOutputAmount src data) any.
Proof. vm_typed. Qed.
Lemma OpTxInputCount_ok data : typed (OpTxInputCount src data) any.
Proof. unfold OpTxInputCount. destruct src; [|done]. apply typed_push_number. unfold source_ok, zlen in *. lia. Qed.
Lemma OpTxOutputCount_ok data : typed (OpTxOutputCount src data) any.
Proof. unfold OpTxOutputCount. destruct src; [|done]. apply typed_push_number. unfold source_ok, zlen in *. lia. Qed.
Lemma OpTxInputIndex_ok data : typed (OpTxInputIndex src data) any.
Proof. unfold OpTxInputIndex. destruct src; [|done]. apply typed_push_number. unfold source_ok, zlen in *. lia. Qed.
#[local] Hint Resolve OpTxInputSpk_ok OpTxOutputSpk_ok OpTxInputAmount_ok OpTxOutputAmount_ok OpTxInputCount_ok
  OpTxOutputCount_ok OpTxInputIndex_ok : vm.

Lemma cache_insert_bounded c k b : within_capacity c -> within_capacity (cache_insert c k b).
Proof.
  unfold within_capacity. intros Hc. unfold cache_insert. destruct (Nat.eqb_spec (cache_size c) 0); [done|]. cbn [cache_map cache_size].
  enough (size (if (size (cache_map c) =? cache_size c)%nat then cache_evict (cache_map c) else cache_map c) < cache_size c)%nat.
  { rewrite map_size_insert. destruct (_ !! k); simpl; lia. }
  destruct (Nat.eqb_spec (size (cache_map c)) (cache_size c)); [|lia].
  destruct (cache_evict_spec (cache_map c)) as (k' & [v Hk] & ->); [intros H0; rewrite H0, map_size_empty in *; lia|].
  rewrite map_size_delete, Hk. lia.
Qed.
Lemma check_dilithium_ok t key sig : typed (check_dilithium_signature src t key sig) any.
Proof.
  intros vm Hvm. unfold check_dilithium_signature, consume_sig_op. destruct (Z.ltb_spec (sig_op_remaining (runtime_sig_op_counter vm)) 1) as [|Hrem]; [done|].
  destruct src as [tx input idx e b|] eqn:Es; [|done]. unfold source_ok in Hsrc. do 2 (match goal with |- context [if ?b then _ else _] => destruct b; [done|] end).
  destruct Hvm as [Hd Ha Hn Hc Hlim Hcache Hr]. rewrite Es in Hr.
  destruct (lookup_lt_is_Some_2 (inputs (ptx tx)) idx) as [inp Hinp]; [lia|].
  destruct (lookup_lt_is_Some_2 (entries tx) idx) as [ent Hent]; [lia|].
  destruct (calc_signature_hash_ok (E:=TxScriptError) tx idx t (reused_values vm) inp ent Hr Hinp Hent) as (v' & Hcalc & Hv').
  cbn [reused_values with_counter]. rewrite Hcalc. cbn [sig_cache with_sig_state with_counter].
  assert (0 <= sig_op_remaining (runtime_sig_op_counter vm) - 1 <= sig_op_limit (runtime_sig_op_counter vm)) by lia.
  destruct (cache_get _ _); (split; [|done]); constructor; try done; rewrite ?Es; try done; simpl; intros ?; auto using cache_insert_bounded.
Qed.
#[local] Hint Resolve check_dilithium_ok : vm.
Lemma OpCheckSigDilithium_ok data : typed (OpCheckSigDilithium src data) any.
Proof. vm_typed. Qed.
#[local] Hint Resolve OpCheckSigDilithium_ok : vm.
Lemma introspection_opcodes_ok : entries_ok (introspection_opcodes src).
Proof. table. by apply Forall_nil. Qed.

Lemma OpFalse_ok data : typed (OpFalse data) any.
Proof. by apply typed_push, Forall_nil. Qed.
Lemma Op1Negate_ok data : typed (Op1Negate data) any.
Proof. apply typed_push_number. lia. Qed.
#[local] Hint Resolve OpFalse_ok Op1Negate_ok : vm.
Lemma push_opcodes_ok l : entries_ok (map (fun n => (Z.of_nat n, push_data)) l).
Proof. apply Forall_map, Forall_true. intros. apply typed_op_ok. intros data Hd. by apply typed_push. Qed.
Lemma number_opcodes_ok : entries_ok number_opcodes.
Proof.
  apply Forall_map, Forall_forall. intros n Hn%elem_of_seq. apply typed_op_ok. intros data _. apply typed_push_number. lia.
Qed.
Lemma undefined_opcodes_ok : entries_ok undefined_opcodes.
Proof. apply Forall_map, Forall_true. intros n. apply typed_op_ok. intros data _. apply typed_fail. Qed.
Lemma opcode_list_ok : entries_ok (opcode_list src).
Proof.
  repeat (apply Forall_app; split);
    [|apply push_opcodes_ok| |apply number_opcodes_ok|apply control_opcodes_ok|apply stack_opcodes_ok
     |apply numeric_opcodes_ok|apply crypto_opcodes_ok|apply introspection_opcodes_ok|apply undefined_opcodes_ok].
  all: table; by apply Forall_nil.
Qed.
(** The table has one entry per byte, in order. *)
Lemma opcode_list_codes : map fst (opcode_list src) = map Z.of_nat (seq 0 256).
Proof. reflexivity. Qed.
Lemma execute_op_ok code : is_digit 256 code -> op_ok (execute_op src code).
Proof.
  intros Hc data Hd. unfold execute_op. destruct (find _ _) as [e|] eqn:Hf.
  - apply find_some in Hf as [Hin _]. apply (proj1 (Forall_forall _ _) opcode_list_ok e); [by apply list_elem_of_In|done].
  - assert (code ∈ map fst (opcode_list src)) as Hin.
    { rewrite opcode_list_codes. apply list_elem_of_fmap. unfold is_digit in Hc. exists (Z.to_nat code).
      rewrite elem_of_seq. lia. }
    apply list_elem_of_fmap in Hin as (e & -> & He). apply list_elem_of_In in He.
    pose proof (find_none _ _ Hf e He) as Hn. simpl in Hn. lia.
Qed.

(** ** Scripts *)
Definition parsed_ok (r : result OpCode) : Prop :=
  match r with Ok op => is_digit 256 (op_value op) /\ is_bytes (op_data op) | Err _ => True | _ => False end.
Lemma bytes_drop n b : is_bytes b -> is_bytes (drop n b).
Proof. apply Forall_drop. Qed.
Lemma bytes_take n b : is_bytes b -> is_bytes (take n b).
Proof. apply Forall_take. Qed.
#[local] Hint Resolve bytes_drop bytes_take : vm.
Lemma op_deserialize_ok code it : is_digit 256 code -> is_bytes it ->
  parsed_ok (op_deserialize code it).1 /\ is_bytes (op_deserialize code it).2 /\ (length (op_deserialize code it).2 <= length it)%nat.
Proof.
  intros Hc Hit. unfold op_deserialize. destruct (op_length code) as [len|width].
  - cbn [fst snd]. rewrite length_drop. split_and!; [|auto with vm|lia].
    destruct (negb _); [done|]. split; [done|by apply Forall_take].
  - destruct (negb _); cbn [fst snd]; rewrite ?length_drop; (split_and!; [|auto with vm|lia]); [done|].
    destruct (negb _); [done|]. split; [done|cbn [op_data]; auto with vm].
Qed.
Lemma parse_script_ok script : is_bytes script -> Forall parsed_ok (parse_script script).
Proof.
  unfold parse_script. cut (forall fuel, (length script <= fuel)%nat -> is_bytes script -> Forall parsed_ok (parse_loop fuel script)); [eauto|].
  intros fuel. revert script. induction fuel as [|fuel IH]; intros [|code it] Hlen Hb; try (by constructor); [simpl in Hlen; lia|].
  apply Forall_cons in Hb as [Hc Hit]. cbn [parse_loop length] in *.
  destruct (op_deserialize_ok code it Hc Hit) as (Hop & Hrest & Hle). destruct (op_deserialize code it) as [op rest].
  constructor; [done|]. apply IH; [simpl in *; lia|done].
Qed.

Lemma with_num_ops_ok vm n : vm_ok vm -> 0 <= n <= MAX_OPS_PER_SCRIPT -> vm_ok (with_num_ops vm n).
Proof. by intros [] Hn. Qed.
Lemma fail_if_safe {E} b (e : E) : safe (fail_if b e).
Proof. by destruct b. Qed.
Lemma check_minimal_safe op : safe (check_minimal_data_push op).
Proof.
  unfold check_minimal_data_push.
  repeat match goal with |- safe (if ?b then _ else _) => destruct b end; apply fail_if_safe.
Qed.
(** The opcode count and element size guards of [execute_opcode]. *)
Lemma op_guard_ok op : triple vm_small
  (if negb (is_push_opcode op) then
     n ← gets num_ops;
     n ← lift (if (- 2 ^ 31 <=? n + 1) && (n + 1 <? 2 ^ 31) then Ok (n + 1) else Panic);
     _ ← modify (fun vm => with_num_ops vm n);
     if MAX_OPS_PER_SCRIPT <? n then fail (TooManyOperations MAX_OPS_PER_SCRIPT) else mret tt
   else if MAX_SCRIPT_ELEMENT_SIZE <? zlen (op_data op)
   then fail (ElementTooBig (zlen (op_data op)) MAX_SCRIPT_ELEMENT_SIZE)
   else mret tt) (fun _ => vm_small).
Proof.
  intros vm [Hvm Hsmall]. destruct (negb _); [|by destruct (_ <? _)].
  pose proof (ok_num_ops _ Hvm) as Hn. unfold MAX_OPS_PER_SCRIPT in Hn. unfold gets, modify, lift, mbind, stm_bind.
  replace ((- 2 ^ 31 <=? num_ops vm + 1) && (num_ops vm + 1 <? 2 ^ 31)) with true by lia. cbv iota beta zeta.
  destruct (Z.ltb_spec MAX_OPS_PER_SCRIPT (num_ops vm + 1)); [done|]. split; [apply with_num_ops_ok; [done|lia]|done].
Qed.
Lemma execute_opcode_ok op : parsed_ok (Ok op) -> triple vm_small (execute_opcode src op) (fun _ => vm_ok).
Proof.
  intros [Hc Hd]. apply triple_bind with (R := fun _ => vm_small); [apply op_guard_ok|]. intros ?.
  eapply triple_bind; [by apply triple_gets with (Q := fun _ => vm_small)|]. intros executing.
  destruct (executing || _); [|by intros vm []].
  apply triple_bind with (R := fun _ => vm_small); [|by intros _; apply execute_op_ok]. destruct (_ && _); [|by apply triple_ret].
  apply triple_lift; [apply check_minimal_safe|done].
Qed.
Lemma script_step_ok only_push r : parsed_ok r -> triple vm_small (script_step src only_push r) (fun _ => vm_small).
Proof.
  intros Hr. unfold script_step.
  apply triple_bind with (R := fun op vm => vm_small vm /\ r = Ok op); [by apply triple_lift; [destruct r|]|].
  intros op vm [Hvm ->]. destruct (is_disabled op); [done|].
  destruct (always_illegal op); [done|]. destruct (only_push && _); [done|].
  revert vm Hvm. apply triple_bind with (R := fun _ => vm_ok); [by apply execute_opcode_ok|]. intros _ vm Hvm.
  unfold gets, mbind, stm_bind. destruct (Z.ltb_spec MAX_STACK_SIZE (zlen (astack vm) + zlen (dstack vm))); [done|].
  split; [done|lia].
Qed.
Lemma triple_for {X} (f : X -> stm VM TxScriptError unit) l P :
  Forall (fun x => triple P (f x) (fun _ => P)) l -> triple P (stm_for f l) (fun _ => P).
Proof.
  induction 1 as [|x l Hx Hl IH]; [by apply triple_ret|]. eapply triple_bind; [exact Hx|]. by intros ?.
Qed.
(** Between scripts the alt stack and the conditionals are empty. *)
Definition vm_clean (vm : VM) : Prop := vm_small vm /\ cond_stack vm = [] /\ astack vm = [] /\ num_ops vm = 0.
Lemma execute_script_ok script only_push : is_bytes script ->
  triple vm_small (execute_script src script only_push) (fun _ => vm_clean).
Proof.
  intros Hs vm Hvm. unfold execute_script.
  assert (triple vm_small (stm_for (script_step src only_push) (parse_script script)) (fun _ => vm_small)) as Hfor.
  { apply triple_for. eapply Forall_impl; [by apply parse_script_ok|]. intros. by apply script_step_ok. }
  specialize (Hfor vm Hvm). destruct (stm_for _ _ vm) as [[[]| | |] vm']; try done.
  destruct (cond_stack vm') eqn:Hcond; [|done]. destruct Hfor as [Hok Hsize]. split_and!; try done.
  split; [|cbn; unfold zlen in *; simpl; lia].
  apply with_num_ops_ok; [|unfold MAX_OPS_PER_SCRIPT; lia]. by apply with_astack_ok; [|apply Forall_nil].
Qed.

Lemma clean_dstack vm s : vm_clean vm -> Forall is_bytes s -> zlen s <= MAX_STACK_SIZE -> vm_clean (with_dstack vm s).
Proof.
  intros ((Hok & Hs) & Hc & Ha & Hn) Hb Hl. split_and!; try done. split; [by apply with_dstack_ok|].
  cbn [astack dstack with_dstack]. rewrite Ha. done.
Qed.
Definition saved_ok (o : option Stack) : Prop :=
  match o with Some st => Forall is_bytes st /\ zlen st <= MAX_STACK_SIZE | None => True end.
Lemma run_scripts_ok p t idx scripts saved : Forall is_bytes scripts -> saved_ok saved ->
  triple vm_clean (run_scripts src p t idx scripts saved) (fun o vm => vm_clean vm /\ saved_ok o).
Proof.
  intros Hb. revert idx saved. induction Hb as [|s scripts Hs Hb IH]; intros idx saved Hsaved; [by apply triple_ret|].
  cbn [run_scripts]. case_bool_decide; [by apply IH|].
  apply triple_bind with (R := fun st vm => vm_clean vm /\ saved_ok (Some st)).
  { apply triple_gets. intros vm Hvm. split; [done|]. destruct Hvm as ((Hok & Hl) & _). split; [by apply ok_dstack|].
    unfold zlen in *. lia. }
  intros st vm [Hvm Hst]. revert vm Hvm. apply triple_bind with (R := fun _ => vm_clean).
  { intros vm [Hvm _]. by apply execute_script_ok. }
  intros _. apply IH. by destruct (p && _).
Qed.
Lemma check_error_middle_ok : triple vm_clean (check_error_condition false) (fun _ => vm_clean).
Proof.
  intros vm Hvm. destruct (dstack vm) as [|v s _] eqn:Hs using rev_ind; [by rewrite check_error_middle_empty|].
  rewrite (check_error_middle vm s v Hs). destruct (truthy v); [|done].
  pose proof Hvm as ((Hok & Hl) & _). pose proof (ok_dstack _ Hok) as Hb. rewrite Hs in Hb, Hl.
  apply Forall_app in Hb as [Hb _]. rewrite zlen_app in Hl. apply clean_dstack; [done|done|unfold zlen in *; lia].
Qed.
Lemma run_ok scripts p t : Forall is_bytes scripts ->
  triple vm_clean (run src scripts p t) (fun _ vm => vm_clean vm /\ dstack vm = []).
Proof.
  intros Hb. unfold run. case_bool_decide; [done|]. destruct (forallb _ _); [done|]. destruct (find _ _); [done|].
  apply triple_bind with (R := fun o vm => vm_clean vm /\ saved_ok o); [by apply run_scripts_ok|].
  intros saved. apply triple_bind with (R := fun _ => vm_clean).
  - intros vm [Hvm Hsaved]. destruct p; [|done]. revert vm Hvm.
    eapply triple_bind; [apply check_error_middle_ok|]. intros ?. destruct saved as [st|]; [|done].
    apply triple_bind with (R := fun a vm => vm_clean vm /\ saved_ok (Some a)); [by apply triple_lift; [|intros ? ? [= <-]]|].
    intros st' vm [Hvm [Hst Hlen]]. unfold modify, dstack_pop, mbind, stm_bind. cbn [dstack with_dstack].
    destruct (last st') as [script|] eqn:Hl; [|done]. cbn [ok_or lift].
    apply execute_script_ok; [by eapply stack_last|]. apply (clean_dstack (with_dstack vm st')).
    + by apply clean_dstack.
    + by apply Forall_take.
    + unfold zlen in *. rewrite length_take. lia.
  - intros _ vm Hvm. rewrite check_error_final. destruct (dstack vm) as [|v [|]]; try done.
    destruct (truthy v); [|done]. split; [|done]. apply clean_dstack; [done|by apply Forall_nil|done].
Qed.
End typing.

Lemma execute_ok `{SC : ScriptCrypto} `{CR : CacheRandom} capped src : source_ok src ->
  triple (fun vm => vm_clean capped src vm /\ dstack vm = []) (execute src) (fun _ vm => vm_clean capped src vm /\ dstack vm = []).
Proof.
  intros Hsrc. pose proof (run_ok capped src Hsrc) as Hrun. unfold execute. destruct src as [tx input idx e b|scripts].
  - destruct Hsrc as (_ & _ & _ & _ & Hsig & Hspk & _). destruct (_ <? _); [by apply triple_ret|].
    intros vm [Hvm _]. revert vm Hvm. apply Hrun. repeat constructor; done.
  - intros vm [Hvm _]. revert vm Hvm. by apply Hrun.
Qed.
Lemma fresh_vm_ok `{SC : ScriptCrypto} (capped : Prop) src cache reused limit :
  inW 8 limit -> (capped -> within_capacity cache) ->
  match src with TxInput tx _ _ _ _ => reused_ok (ptx tx) reused | _ => True end ->
  vm_clean capped src (fresh_vm cache reused limit).
Proof.
  intros Hl Hc Hr. unfold inW in Hl. split_and!; try done. split; [|done].
  constructor; cbn; try done; unfold MAX_OPS_PER_SCRIPT; lia.
Qed.

(** C13. The script engine never panics and always terminates with a result:
    on any scripts, any transaction whose inputs are populated, any signature
    cache and any valid reused hashes, [execute] returns
    success or an error.  After a success both stacks and the conditional stack are empty, the
    opcode counter is reset, the signature operations used are within the limit, a cache that was
    within its capacity still is, and the reused hashes are still those of the
    transaction. *)
Theorem engine_safe `{SC : ScriptCrypto} `{CR : CacheRandom} src cache reused limit :
  source_ok src -> inW 8 limit ->
  match src with TxInput tx _ _ _ _ => reused_ok (ptx tx) reused | _ => True end ->
  match execute src (fresh_vm cache reused limit) with
  | (Ok _, vm) => vm_clean (within_capacity cache) src vm /\ dstack vm = []
  | (Err _, _) => True
  | _ => False
  end.
Proof. intros Hsrc Hl Hr. apply (execute_ok _ src Hsrc). split; [by apply fresh_vm_ok|done]. Qed.

(** ** A concrete instance *)
#[export] Program Instance toy_crypto : ScriptCrypto := {|
  script_blake2b := toy_blake2b;
  sha256 m := digits 256 32 (undigits 256 m);
  ml_dsa_44_verify key msg ctx sig := bool_decide (take 32 sig = msg);
|}.
Next Obligation. intros m. apply length_digits. Qed.
Next Obligation. intros m. apply digits_range. lia. Qed.
#[export] Program Instance first_evicted : CacheRandom := {|
  cache_evict m := match map_to_list m with [] => m | (k, _) :: _ => delete k m end;
|}.
Next Obligation.
  intros m Hm. cbn beta. destruct (map_to_list m) as [|[k b] l] eqn:Hl; [by apply map_to_list_empty_iff in Hl|].
  exists k. split; [|done]. exists b. apply elem_of_map_to_list. rewrite Hl. left.
Qed.

Definition sample_source : ScriptSource := TxInput (sample_populated 0) sample_input 0 sample_entry false.
Lemma sample_source_ok : source_ok sample_source.
Proof.
  split_and!; try (repeat constructor; done); try (vm_compute; done).
  all: repeat constructor; unfold is_digit; lia.
Qed.
Lemma engine_safe_witness :
  match execute sample_source (fresh_vm (mkCache ∅ 2) reused_default 1) with
  | (Ok _, vm) => vm_clean (within_capacity (mkCache ∅ 2)) sample_source vm /\ dstack vm = []
  | (Err _, _) => True
  | _ => False
  end.
Proof. exact (engine_safe sample_source (mkCache ∅ 2) reused_default 1 sample_source_ok ltac:(unfold inW; lia) (reused_default_ok _)). Defined.
