(* ===== verification/ScriptBuild.v ===== *)
(** * Building scripts

    [crypto/txscript/src/script_builder.rs], [script_class.rs] and
    [standard.rs]: a builder is the script built so far.  The theorems relate
    what is built to what the engine of [ScriptVm] parses and executes. *)
From S2P Require Import Prelude Tx Encode Address Hashing Script ScriptVm ScriptSafe.

(** ** The builder *)
Inductive ScriptBuilderError :=
| OpCodeRejected (opcode : u8)
| OpCodesRejected (n : usize)
| DataRejected (n : usize)
| ElementExceedsMaxSize (n : usize)
| IntegerRejected (n : i64)
| BuilderSerialization (e : SerializationError).
Abbreviation built A := (res ScriptBuilderError A) (only parsing).

Definition add_op (script : bytes) (opcode : u8) : built bytes :=
  if MAX_SCRIPTS_SIZE <=? zlen script then Err (OpCodeRejected opcode) else Ok (script ++ [opcode]).
Definition add_ops (script opcodes : bytes) : built bytes :=
  if MAX_SCRIPTS_SIZE <? zlen script + zlen opcodes then Err (OpCodesRejected (zlen opcodes)) else Ok (script ++ opcodes).
Definition canonical_data_size (data : bytes) : usize :=
  let data_len := zlen data in
  let d0 := default 0 (data !! 0%nat) in
  if (data_len =? 0) || ((data_len =? 1) && ((d0 <=? OP_SMALL_INT_MAX_VAL) || (d0 =? OP_1_NEGATE_VAL))) then 1 else
  data_len + (if data_len <=? OP_DATA_MAX_VAL then 1 else if data_len <=? 255 then 2 else if data_len <=? 65535 then 3 else 5).
(** [data_len as u8], [as u16] and [as u32] truncate. *)
Definition add_raw_data (script data : bytes) : bytes :=
  let data_len := zlen data in
  let d0 := default 0 (data !! 0%nat) in
  if data_len =? 0 then script ++ [0x00] else
  if (data_len =? 1) && (OP_SMALL_INT_MIN_VAL <=? d0) && (d0 <=? OP_SMALL_INT_MAX_VAL) then script ++ [0x51 - 1 + d0] else
  if (data_len =? 1) && (d0 =? OP_1_NEGATE_VAL) then script ++ [0x4f] else
  (if data_len <=? OP_DATA_MAX_VAL then script ++ [OP_DATA_MIN_VAL - 1 + wrap 8 data_len]
   else if data_len <=? 255 then script ++ 0x4c :: digits 256 1 data_len
   else if data_len <=? 65535 then script ++ 0x4d :: digits 256 2 data_len
   else script ++ 0x4e :: digits 256 4 data_len) ++ data.
Definition add_data (script data : bytes) : built bytes :=
  let data_size := canonical_data_size data in
  if MAX_SCRIPTS_SIZE <? zlen script + data_size then Err (DataRejected data_size) else
  if MAX_SCRIPT_ELEMENT_SIZE <? zlen data then Err (ElementExceedsMaxSize (zlen data)) else
  Ok (add_raw_data script data).
Definition from_serialization {A} (r : res SerializationError A) : built A :=
  match r with Ok a => Ok a | Err e => Err (BuilderSerialization e) | Panic => Panic | NoFuel => NoFuel end.
Definition add_i64 (script : bytes) (val : i64) : built bytes :=
  if MAX_SCRIPTS_SIZE <? zlen script + 1 then Err (IntegerRejected val) else
  if val =? 0 then Ok (script ++ [0x00]) else
  if (val =? -1) || ((1 <=? val) && (val <=? 16)) then Ok (script ++ [wrap 8 (0x51 - 1 + val)]) else
  b ← from_serialization (serialize i64_data val);
  add_data script b.
Definition add_i64_min (script : bytes) : built bytes :=
  b ← match serialize (SizedEncodeInt 9) (- 2 ^ 63) with Ok b => Ok b | NoFuel => NoFuel | _ => Panic end;
  add_data script b.
(** Position of the first non-zero byte from the end, or the length. *)
Fixpoint zeros_at_front (l : bytes) : nat :=
  match l with [] => 0 | b :: l => if b =? 0 then S (zeros_at_front l) else 0 end.
Definition add_u64 (script : bytes) (val : u64) : built bytes :=
  let buffer := digits 256 8 val in
  let trimmed_size := (8 - zeros_at_front (rev buffer))%nat in
  add_data script (take trimmed_size buffer).
Definition add_lock_time (script : bytes) (lock_time : u64) : built bytes := add_u64 script lock_time.
Definition add_sequence (script : bytes) (sequence : u64) : built bytes := add_u64 script sequence.

(** ** Classes and standard scripts *)
Inductive ScriptClass := NonStandard | ScriptHash.
Definition class_from_script (spk : ScriptPublicKey) : ScriptClass :=
  if spk_version spk =? MAX_SCRIPT_PUBLIC_KEY_VERSION then
    if is_pay_to_script_hash (spk_script spk) then ScriptHash else NonStandard
  else NonStandard.
Definition class_version (c : ScriptClass) : u16 :=
  match c with NonStandard => 0 | ScriptHash => MAX_SCRIPT_PUBLIC_KEY_VERSION end.
Definition pay_to_script_hash {E} (script_hash : bytes) : res E bytes :=
  _ ← rassert (zlen script_hash =? 32); Ok ([0xaa; 0x20] ++ script_hash ++ [0x87]).
Definition dilithium_redeem_script (verification_key : bytes) : built bytes :=
  let len := wrap 16 (zlen verification_key) in
  Ok ([0x4d; wrap 8 len; wrap 8 (Z.shiftr len 8)] ++ verification_key ++ [0xc4]).
Definition pay_to_script_hash_script `{Blake2b} {E} (redeem_script : bytes) : res E ScriptPublicKey :=
  script ← pay_to_script_hash (blake2b 32 [] redeem_script);
  Ok {| spk_version := class_version ScriptHash; spk_script := script |}.
Definition pay_to_script_hash_signature_script (redeem_script signature : bytes) : built bytes :=
  redeem_script_as_data ← add_data [] redeem_script;
  Ok (signature ++ redeem_script_as_data).
(** [ScriptClass::from(Version)] *)
Definition class_from_version (v : Version.t) : ScriptClass :=
  match v with Version.PubKeyDilithium => ScriptHash | Version.ScriptHash => ScriptHash end.
Definition pay_to_address_script {E} (address : Address) : res E ScriptPublicKey :=
  script ← match addr_version address with
           | Version.PubKeyDilithium => pay_to_script_hash (addr_payload address)
           | Version.ScriptHash => pay_to_script_hash (addr_payload address)
           end;
  Ok {| spk_version := class_version (class_from_version (addr_version address)); spk_script := script |}.
Definition dilithium_address `{Blake2b} (verification_key : bytes) (p : Prefix) : built Address :=
  redeem ← dilithium_redeem_script verification_key;
  address_new p Version.PubKeyDilithium (blake2b 32 [] redeem).
Definition extract_script_pub_key_address (spk : ScriptPublicKey) (p : Prefix) : result Address :=
  let class := class_from_script spk in
  if class_version class <? spk_version spk then Err PubKeyFormat else
  match class with
  | NonStandard => Err PubKeyFormat
  | ScriptHash => address_new p Version.ScriptHash (take 32 (drop 2 (spk_script spk)))
  end.

(** [standard/multisig.rs].  [upper] is the upper bound of the iterator's size
    hint. *)
Inductive MultisigCreateError := ErrTooManyRequiredSigs | MultisigBuilderError (e : ScriptBuilderError) | EmptyKeys | MultisigOpcodeDisabled.
Definition from_builder {A} (r : built A) : res MultisigCreateError A :=
  match r with Ok a => Ok a | Err e => Err (MultisigBuilderError e) | Panic => Panic | NoFuel => NoFuel end.
Definition multisig_redeem_script (upper : option usize) (pub_keys : list bytes) (required : usize) : res MultisigCreateError bytes :=
  if match upper with Some u => u <? required | None => false end then Err ErrTooManyRequiredSigs else
  builder ← from_builder (add_i64 [] ((required + 2 ^ 63) mod 2 ^ 64 - 2 ^ 63));
  builder ← res_foldl (fun b k => from_builder (add_data b k)) builder pub_keys;
  let count := zlen pub_keys in
  if count <? required then Err ErrTooManyRequiredSigs else
  if count =? 0 then Err EmptyKeys else Err MultisigOpcodeDisabled.

(** ** Parsing inverts serialization *)
Definition op_wf (op : OpCode) : Prop :=
  is_digit 256 (op_value op) /\ is_bytes (op_data op) /\
  match op_length (op_value op) with
  | Fixed len => length (op_data op) = (len - 1)%nat
  | Var width => inW (8 * Z.of_nat width) (zlen (op_data op))
  end.
Definition op_body (op : OpCode) : bytes :=
  match op_length (op_value op) with
  | Fixed _ => op_data op
  | Var width => digits 256 width (zlen (op_data op)) ++ op_data op
  end.
Lemma op_serialize_body op : op_serialize op = op_value op :: op_body op.
Proof. unfold op_serialize, op_body. by destruct (op_length _). Qed.

Lemma op_deserialize_body op rest : op_wf op -> op_deserialize (op_value op) (op_body op ++ rest) = (Ok op, rest).
Proof.
  intros (Hc & Hd & Hl). unfold op_deserialize, op_body. destruct op as [code data]. cbn [op_value op_data] in *.
  destruct (op_length code) as [len|width].
  - rewrite <- Hl. by rewrite take_app_length, drop_app_length, Nat.eqb_refl.
  - assert (length (digits 256 width (zlen data)) = width) as Hw by apply length_digits.
    rewrite <- app_assoc, take_app_length' by done. rewrite drop_app_length' by done. rewrite Hw, Nat.eqb_refl.
    rewrite undigits_digits_small by done. unfold zlen. rewrite Nat2Z.id. cbn [negb].
    rewrite take_app_length, drop_app_length. by rewrite Z.eqb_refl.
Qed.
Lemma op_deserialize_inv code it op rest : is_digit 256 code -> is_bytes it -> op_deserialize code it = (Ok op, rest) ->
  op_wf op /\ op_value op = code /\ it = op_body op ++ rest.
Proof.
  intros Hc Hit. unfold op_deserialize, op_wf, op_body. destruct (op_length code) as [len|width] eqn:Hlen.
  - destruct (Nat.eqb_spec (length (take (len - 1) it)) (len - 1)) as [Hl|]; cbn [negb]; [|done]. intros [= <- <-].
    cbn [op_value op_data]. rewrite Hlen. split_and!; try done; [by apply Forall_take|by rewrite take_drop].
  - destruct (Nat.eqb_spec (length (take width it)) width) as [Hw|]; cbn [negb]; [|done].
    destruct (Z.eqb_spec (zlen (take (Z.to_nat (undigits 256 (take width it))) (drop width it))) (undigits 256 (take width it)))
      as [Hl|]; cbn [negb]; [|done].
    intros [= <- <-]. cbn [op_value op_data]. rewrite Hlen, Hl.
    assert (is_bytes (take width it)) as Hb by by apply Forall_take.
    pose proof (undigits_range 256 ltac:(lia) _ Hb) as Hr. unfold zlen in Hr. rewrite Hw in Hr.
    split_and!; try done; [by apply Forall_take, Forall_drop|by unfold inW; rewrite Z.pow_mul_r by lia|].
    rewrite (digits_undigits_len width) by (done || (unfold zlen; lia)). by rewrite <- app_assoc, take_drop, take_drop.
Qed.

Lemma op_deserialize_shorter code it : (length (op_deserialize code it).2 <= length it)%nat.
Proof.
  unfold op_deserialize. destruct (op_length code); [|destruct (negb _)]; cbn [snd]; rewrite ?length_drop; lia.
Qed.
Lemma parse_loop_fuel n m it : (length it <= n)%nat -> (length it <= m)%nat -> parse_loop n it = parse_loop m it.
Proof.
  revert m it. induction n as [|n IH]; intros [|m] [|code it] Hn Hm; try done; try (simpl in *; lia).
  cbn [parse_loop length] in *. pose proof (op_deserialize_shorter code it) as Hs. destruct (op_deserialize code it) as [op rest].
  cbn [snd] in Hs. f_equal. apply IH; lia.
Qed.
Lemma parse_cons code it : parse_script (code :: it) =
  (op_deserialize code it).1 :: parse_script (op_deserialize code it).2.
Proof.
  unfold parse_script. cbn [length parse_loop]. pose proof (op_deserialize_shorter code it) as Hs.
  destruct (op_deserialize code it) as [op rest]. cbn [fst snd] in *. f_equal. by apply parse_loop_fuel.
Qed.
Lemma parse_op op rest : op_wf op -> parse_script (op_serialize op ++ rest) = Ok op :: parse_script rest.
Proof. intros Hop. rewrite op_serialize_body. cbn [app]. rewrite parse_cons. by rewrite op_deserialize_body. Qed.
Lemma parse_ops ops rest : Forall op_wf ops ->
  parse_script (concat (map op_serialize ops) ++ rest) = map Ok ops ++ parse_script rest.
Proof.
  induction 1 as [|op ops Hop Hops IH]; [done|]. cbn [map concat]. rewrite <- app_assoc, parse_op by done. by rewrite IH.
Qed.
Lemma parse_inv script ops : is_bytes script -> parse_script script = map Ok ops ->
  Forall op_wf ops /\ script = concat (map op_serialize ops).
Proof.
  revert script. induction ops as [|op ops IH]; intros [|code it] Hb; try done.
  - by rewrite parse_cons.
  - apply Forall_cons in Hb as [Hc Hit]. rewrite parse_cons. cbn [map]. intros [= Hop Hops].
    destruct (op_deserialize code it) as [r rest] eqn:Hd. cbn [fst snd] in *. subst r.
    destruct (op_deserialize_inv _ _ _ _ Hc Hit Hd) as (Hwf & <- & ->). apply Forall_app in Hit as [_ Hrest].
    destruct (IH rest Hrest Hops) as [Hws ->]. split; [by constructor|]. cbn [map concat]. by rewrite op_serialize_body.
Qed.

(** Parsing and serialization are inverse to each other: a byte string
    parses, without error, to a list of opcodes exactly when the opcodes carry
    the data length their number calls for and the string is the concatenation
    of their serializations.  So a script has one reading, and no two lists of opcodes
    serialize to the same script. *)
Theorem script_parse_roundtrip script ops : is_bytes script ->
  parse_script script = map Ok ops <-> Forall op_wf ops /\ script = concat (map op_serialize ops).
Proof.
  intros Hb. split; [by apply parse_inv|]. intros [Hops ->].
  rewrite <- (app_nil_r (concat _)), parse_ops by done. apply app_nil_r.
Qed.
Lemma script_parse_roundtrip_witness :
  parse_script [0x4c; 2; 7; 8; 0x93] = map Ok [mkOp 0x4c [7; 8]; mkOp 0x93 []] <->
  Forall op_wf [mkOp 0x4c [7; 8]; mkOp 0x93 []] /\ [0x4c; 2; 7; 8; 0x93] = concat (map op_serialize [mkOp 0x4c [7; 8]; mkOp 0x93 []]).
Proof. apply script_parse_roundtrip. repeat constructor; unfold is_digit; lia. Defined.

(** ** Built pushes *)

(** The opcode that [add_raw_data] writes. *)
Definition data_op (data : bytes) : OpCode :=
  let data_len := zlen data in
  let d0 := default 0 (data !! 0%nat) in
  if data_len =? 0 then mkOp 0x00 [] else
  if (data_len =? 1) && (OP_SMALL_INT_MIN_VAL <=? d0) && (d0 <=? OP_SMALL_INT_MAX_VAL) then mkOp (0x51 - 1 + d0) [] else
  if (data_len =? 1) && (d0 =? OP_1_NEGATE_VAL) then mkOp 0x4f [] else
  if data_len <=? OP_DATA_MAX_VAL then mkOp data_len data else
  if data_len <=? 255 then mkOp 0x4c data else if data_len <=? 65535 then mkOp 0x4d data else mkOp 0x4e data.
Inductive data_op_spec (data : bytes) : OpCode -> Prop :=
| push_empty : data = [] -> data_op_spec data (mkOp 0x00 [])
| push_small d : 1 <= d <= 16 -> data = [d] -> data_op_spec data (mkOp (0x51 - 1 + d) [])
| push_negate : data = [0x81] -> data_op_spec data (mkOp 0x4f [])
| push_short : 1 <= zlen data <= 75 -> data_op_spec data (mkOp (zlen data) data)
| push_one : 75 < zlen data < 2 ^ 8 -> data_op_spec data (mkOp 0x4c data)
| push_two : 255 < zlen data < 2 ^ 16 -> data_op_spec data (mkOp 0x4d data)
| push_four : 65535 < zlen data < 2 ^ 32 -> data_op_spec data (mkOp 0x4e data).
Lemma data_op_cases data : zlen data < 2 ^ 32 -> data_op_spec data (data_op data).
Proof.
  intros Hlen. pose proof (zlen_nonneg data) as H0. unfold data_op, OP_SMALL_INT_MIN_VAL, OP_SMALL_INT_MAX_VAL, OP_1_NEGATE_VAL, OP_DATA_MAX_VAL.
  destruct (Z.eqb_spec (zlen data) 0); [apply push_empty; apply nil_length_inv; unfold zlen in *; lia|].
  destruct (Z.eqb_spec (zlen data) 1) as [H1|]; cbn [andb].
  - destruct data as [|d [|]]; try done; [|unfold zlen in H1; simpl in H1; lia]. change (default 0 ([d] !! 0%nat)) with d. change (zlen [d]) with 1 in *.
    destruct (Z.leb_spec 1 d), (Z.leb_spec d 16); cbn [andb]; [by apply (push_small _ d)|..].
    all: destruct (Z.eqb_spec d 0x81) as [->|]; [by apply push_negate|]; by apply push_short.
  - destruct (Z.leb_spec (zlen data) 75); [apply push_short; lia|].
    destruct (Z.leb_spec (zlen data) 255); [apply push_one; lia|].
    destruct (Z.leb_spec (zlen data) 65535); [apply push_two; lia|apply push_four; lia].
Qed.
Lemma op_length_plain code : 0x4e < code -> op_length code = Fixed 1.
Proof.
  intros Hc. unfold op_length. rewrite (proj2 (Z.leb_gt code 0x4b)), andb_false_r by lia.
  by rewrite !(proj2 (Z.eqb_neq _ _)) by lia.
Qed.
Lemma op_length_data code : 1 <= code <= 0x4b -> op_length code = Fixed (Z.to_nat code + 1).
Proof. intros Hc. unfold op_length. by rewrite !(proj2 (Z.leb_le _ _)) by lia. Qed.
Lemma data_op_wf data : is_bytes data -> zlen data < 2 ^ 32 -> op_wf (data_op data).
Proof.
  intros Hb Hlen. destruct (data_op_cases data Hlen) as [|d Hd| |Hl|Hl|Hl|Hl]; unfold op_wf; cbn [op_value op_data].
  - by split_and!; [unfold is_digit; lia|apply Forall_nil|].
  - split_and!; [unfold is_digit; lia|by apply Forall_nil|].
    by rewrite op_length_plain by lia.
  - by split_and!; [unfold is_digit; lia|apply Forall_nil|].
  - split_and!; [unfold is_digit; lia|done|]. rewrite op_length_data by done. unfold zlen. lia.
  - split_and!; [unfold is_digit; lia|done|]. cbn. unfold inW. lia.
  - split_and!; [unfold is_digit; lia|done|]. cbn. unfold inW. lia.
  - split_and!; [unfold is_digit; lia|done|]. cbn. unfold inW. lia.
Qed.
Lemma add_raw_data_op script data : zlen data < 2 ^ 32 -> add_raw_data script data = script ++ op_serialize (data_op data).
Proof.
  intros Hlen. unfold add_raw_data, data_op. cbv zeta. pose proof (zlen_nonneg data) as H0.
  unfold OP_SMALL_INT_MIN_VAL, OP_SMALL_INT_MAX_VAL, OP_1_NEGATE_VAL, OP_DATA_MAX_VAL, OP_DATA_MIN_VAL, op_serialize.
  destruct (Z.eqb_spec (zlen data) 0) as [|Hne]; [done|].
  match goal with |- (if ?b then _ else _) = _ => destruct b eqn:Hs end; [cbn [op_value op_data]; by rewrite op_length_plain by lia|].
  match goal with |- (if ?b then _ else _) = _ => destruct b end; [done|].
  destruct (Z.leb_spec (zlen data) 75).
  - cbn [op_value op_data]. rewrite op_length_data by lia. rewrite wrap_small by (unfold inW; lia).
    by rewrite <- app_assoc.
  - destruct (_ <=? 255); [|destruct (_ <=? 65535)]; by rewrite <- app_assoc.
Qed.
(** ** Executing pushes *)
Section execution.
Context `{SC : ScriptCrypto} `{CR : CacheRandom} (src : ScriptSource).
Lemma execute_op_data code data : 1 <= code <= 0x4e -> execute_op src code data = push data.
Proof.
  intros Hc. assert (Forall (fun k => forall data, execute_op src k data = push data) (map Z.of_nat (seq 1 78))) as Ht.
  { repeat (apply Forall_cons; split; [reflexivity|]). by apply Forall_nil. }
  apply (proj1 (Forall_forall _ _) Ht). apply list_elem_of_fmap. exists (Z.to_nat code). rewrite elem_of_seq. lia.
Qed.
Lemma push_number_small d vm : 1 <= d <= 16 -> push_number d vm = push [d] vm.
Proof.
  intros Hc. assert (Forall (fun k => serialize i64_data k = Ok [k]) (map Z.of_nat (seq 1 16))) as Ht.
  { repeat (apply Forall_cons; split; [reflexivity|]). by apply Forall_nil. }
  unfold push_number, on_dstack, push_item, push. rewrite (proj1 (Forall_forall _ _) Ht d); [done|].
  apply list_elem_of_fmap. exists (Z.to_nat d). rewrite elem_of_seq. lia.
Qed.
Lemma execute_op_small d data : 1 <= d <= 16 -> execute_op src (0x51 - 1 + d) data = push_number d.
Proof.
  intros Hc.
  assert (Forall (fun k => forall data, execute_op src (0x51 - 1 + k) data = push_number k) (map Z.of_nat (seq 1 16))) as Ht.
  { repeat (apply Forall_cons; split; [reflexivity|]). by apply Forall_nil. }
  apply (proj1 (Forall_forall _ _) Ht). apply list_elem_of_fmap. exists (Z.to_nat d). rewrite elem_of_seq. lia.
Qed.
(** A push opcode is free: no guard but the element size and minimality. *)
Lemma execute_opcode_push op vm : is_push_opcode op = true -> zlen (op_data op) <= MAX_SCRIPT_ELEMENT_SIZE ->
  is_executing vm = true -> (0 < op_value op <= 0x4e -> check_minimal_data_push op = Ok tt) ->
  execute_opcode src op vm = execute_op src (op_value op) (op_data op) vm.
Proof.
  intros Hp Hl He Hm. unfold execute_opcode, gets, mbind, stm_bind, lift. rewrite Hp. cbn [negb].
  rewrite (proj2 (Z.ltb_ge _ _)) by done. cbn [mret stm_ret]. rewrite He. cbn [orb].
  destruct ((0 <? op_value op) && (op_value op <=? 78)) eqn:Hv; [|done]. by rewrite Hm by lia.
Qed.
Lemma data_op_minimal data : zlen data <= MAX_SCRIPT_ELEMENT_SIZE ->
  0 < op_value (data_op data) <= 0x4e -> check_minimal_data_push (data_op data) = Ok tt.
Proof.
  unfold MAX_SCRIPT_ELEMENT_SIZE. intros Hlen. pose proof (zlen_nonneg data).
  unfold check_minimal_data_push, data_op, OP_SMALL_INT_MIN_VAL, OP_SMALL_INT_MAX_VAL, OP_1_NEGATE_VAL, OP_DATA_MAX_VAL.
  destruct (Z.eqb_spec (zlen data) 0) as [|Hne]; [cbn; lia|]. 
  match goal with |- context [if ?b then _ else _] => destruct b eqn:Hs end; [cbn [op_value]; lia|].
  match goal with |- context [if ?b then _ else _] => destruct b eqn:Hn end; [cbn; lia|].
  intros _. destruct (Z.leb_spec (zlen data) 75) as [Hd|Hd]; cbn [op_value op_data].
  - rewrite (proj2 (Z.eqb_neq _ _)) by done. rewrite Hs, Hn. rewrite (proj2 (Z.leb_le _ _)) by done. by rewrite Z.eqb_refl.
  - destruct (Z.leb_spec (zlen data) 255) as [H1|H1]; cbn [op_value op_data].
    + rewrite (proj2 (Z.eqb_neq _ _)) by done. rewrite Hs, Hn. rewrite (proj2 (Z.leb_gt _ _)) by done. by rewrite (proj2 (Z.leb_le _ _)).
    + rewrite (proj2 (Z.leb_le (zlen data) 65535)) by lia. cbn [op_value op_data].
      rewrite (proj2 (Z.eqb_neq _ _)) by done. rewrite Hs, Hn. rewrite !(proj2 (Z.leb_gt _ _)) by done.
      by rewrite andb_false_r.
Qed.
Lemma execute_data_op data vm : zlen data <= MAX_SCRIPT_ELEMENT_SIZE -> is_executing vm = true ->
  execute_opcode src (data_op data) vm = (Ok tt, with_dstack vm (dstack vm ++ [data])).
Proof.
  intros Hl He. assert (zlen data < 2 ^ 32) as Hs by (unfold MAX_SCRIPT_ELEMENT_SIZE in *; lia).
  rewrite execute_opcode_push; [|..|done|by apply data_op_minimal].
  - destruct (data_op_cases data Hs) as [->|d Hd ->| ->|Hk|Hk|Hk|Hk]; cbn [op_value op_data]; try by rewrite execute_op_data by lia.
    + done.
    + rewrite execute_op_small by done. by rewrite push_number_small.
    + done.
  - destruct (data_op_cases data Hs); unfold is_push_opcode, NO_COST_OPCODE; cbn [op_value]; lia.
  - destruct (data_op_cases data Hs); cbn [op_data]; done.
Qed.
End execution.

Section pushes.
Context `{SC : ScriptCrypto} `{CR : CacheRandom}.
(** [script'] is [script] followed by one opcode that pushes [data]. *)
Definition appends_push (script data script' : bytes) : Prop :=
  exists op, script' = script ++ op_serialize op /\ is_push_opcode op = true /\
    (forall ops, parse_script script = map Ok ops -> parse_script script' = map Ok (ops ++ [op])) /\
    forall src vm, is_executing vm = true ->
      execute_opcode src op vm = (Ok tt, with_dstack vm (dstack vm ++ [data])).

Lemma appends_data_op script data : is_bytes script -> is_bytes data -> zlen data <= MAX_SCRIPT_ELEMENT_SIZE ->
  appends_push script data (script ++ op_serialize (data_op data)).
Proof.
  intros Hscript Hdata Hl. assert (zlen data < 2 ^ 32) as Hs by (unfold MAX_SCRIPT_ELEMENT_SIZE in *; lia).
  exists (data_op data). split_and!; [done| | |intros; by apply execute_data_op].
  - destruct (data_op_cases data Hs); unfold is_push_opcode, NO_COST_OPCODE; cbn [op_value]; lia.
  - intros ops [Hops ->]%parse_inv; [|done]. pose proof (data_op_wf data Hdata Hs).
    rewrite parse_ops, map_app by done. f_equal. rewrite <- (app_nil_r (op_serialize _)). by rewrite parse_op.
Qed.
Lemma add_data_inv script data script' : add_data script data = Ok script' ->
  zlen script + canonical_data_size data <= MAX_SCRIPTS_SIZE /\ zlen data <= MAX_SCRIPT_ELEMENT_SIZE /\
  script' = script ++ op_serialize (data_op data).
Proof.
  unfold add_data. destruct (Z.ltb_spec MAX_SCRIPTS_SIZE (zlen script + canonical_data_size data)); [done|].
  destruct (Z.ltb_spec MAX_SCRIPT_ELEMENT_SIZE (zlen data)) as [|Hl]; [done|]. intros [= <-].
  split_and!; [done|done|]. apply add_raw_data_op. unfold MAX_SCRIPT_ELEMENT_SIZE in *; lia.
Qed.

Lemma small_data n : n = 0 \/ n = -1 \/ 1 <= n <= 16 -> exists data, is_bytes data /\ zlen data <= 1 /\
  deserialize i64_data data = Ok n /\ op_serialize (data_op data) = [if n =? 0 then 0 else wrap 8 (0x51 - 1 + n)].
Proof.
  intros [-> |[-> |Hn]]; [exists []|exists [0x81]|]; try (split_and!; [repeat constructor; unfold is_digit; lia|done..]).
  assert (Forall (fun k => deserialize i64_data [k] = Ok k /\ op_serialize (data_op [k]) = [if k =? 0 then 0 else wrap 8 (0x51 - 1 + k)])
    (map Z.of_nat (seq 1 16))) as Ht by (repeat (apply Forall_cons; split; [split; reflexivity|]); by apply Forall_nil).
  exists [n]. split_and!; [repeat constructor; unfold is_digit; lia|done|apply (proj1 (Forall_forall _ _) Ht n)..].
  all: apply list_elem_of_fmap; exists (Z.to_nat n); rewrite elem_of_seq; lia.
Qed.
Lemma zeros_at_front_split l : l = repeat 0 (zeros_at_front l) ++ drop (zeros_at_front l) l.
Proof. induction l as [|b l IH]; [done|]. simpl. destruct (Z.eqb_spec b 0) as [->|]; [|done]. simpl. by rewrite <- IH. Qed.
Lemma trimmed_value n : inW 64 n ->
  let buffer := digits 256 8 n in
  padded_u64 (take (8 - zeros_at_front (rev buffer)) buffer) = n.
Proof.
  intros Hn buffer. assert (length buffer = 8%nat) as Hb by apply length_digits. unfold padded_u64.
  assert (exists x, buffer = x ++ repeat 0 (zeros_at_front (rev buffer))) as [x Hx].
  { pose proof (zeros_at_front_split (rev buffer)) as Hs. apply (f_equal (@rev Z)) in Hs.
    rewrite rev_involutive, rev_app_distr, rev_repeat in Hs. eauto. }
  generalize dependent (zeros_at_front (rev buffer)). intros z Hx.
  enough (take (8 - z) buffer ++ repeat 0 (8 - length (take (8 - z) buffer)) = buffer) as -> by by apply undigits_digits_small.
  clearbody buffer. subst buffer. rewrite length_app, repeat_length in Hb. rewrite take_app_length' by lia.
  do 2 f_equal. lia.
Qed.

(** What the builder adds, the engine pushes.  [add_data] appends one
    opcode that pushes exactly the data; [add_i64] one that pushes the script
    number of its argument; [add_lock_time] one that pushes at most eight
    bytes, which the lock time opcodes read back as the same number.  In each
    case the extended script parses to the opcodes of the script before and
    the new one, and the engine, in any state in which it is executing, runs it without
    error and has the value on top of an otherwise unchanged stack. *)
Theorem builder_pushes script : is_bytes script ->
  (forall data script', is_bytes data -> add_data script data = Ok script' -> appends_push script data script') /\
  (forall n script', - 2 ^ 63 <= n < 2 ^ 63 -> add_i64 script n = Ok script' ->
     exists data, deserialize i64_data data = Ok n /\ appends_push script data script') /\
  (forall n script', inW 64 n -> add_lock_time script n = Ok script' ->
     exists data, zlen data <= 8 /\ padded_u64 data = n /\ appends_push script data script').
Proof.
  intros Hs. split_and!.
  - intros data script' Hd (_ & Hl & ->)%add_data_inv. by apply appends_data_op.
  - intros n script' Hn. unfold add_i64. destruct (_ <? _); [done|].
    destruct (decide (n = 0 \/ n = -1 \/ 1 <= n <= 16)) as [Hsmall|Hlarge].
    + destruct (small_data n Hsmall) as (data & Hb & Hl & Hdata & Hop). intros Hadd. exists data. split; [done|].
      replace script' with (script ++ op_serialize (data_op data)).
      { apply appends_data_op; [done|done|unfold MAX_SCRIPT_ELEMENT_SIZE; lia]. }
      rewrite Hop. destruct (Z.eqb_spec n 0); [congruence|]. destruct (_ || _) eqn:Hr; [congruence|lia].
    + rewrite (proj2 (Z.eqb_neq n 0)) by lia. destruct (_ || _) eqn:Hr; [lia|]. intros Hadd.
      destruct (Z.eq_dec n (- 2 ^ 63)) as [->|]; [done|].
      destruct (i64_data_roundtrip n) as (v & Hv & Hvb & Hvl & Hvd); [lia|]. rewrite Hv in Hadd.
      cbn [from_serialization mbind res_bind] in Hadd. apply add_data_inv in Hadd as (_ & Hl & ->).
      exists v. split; [done|by apply appends_data_op].
  - intros n script' Hn (_ & Hl & ->)%add_data_inv. eexists. split_and!; [| |apply appends_data_op; [done| |done]].
    + unfold zlen. rewrite length_take, length_digits. lia.
    + by apply trimmed_value.
    + by apply Forall_take, digits_range.
Qed.
End pushes.
Lemma builder_pushes_witness :
  exists data, zlen data <= 8 /\ padded_u64 data = 70000 /\ appends_push (SC:=toy_crypto) [0x51] data [0x51; 3; 112; 17; 1].
Proof.
  apply (builder_pushes [0x51] ltac:(repeat constructor; unfold is_digit; lia)); [unfold inW; lia|reflexivity].
Defined.

Lemma data_op_size data : is_bytes data -> zlen data < 2 ^ 32 -> data <> [0] ->
  zlen (op_serialize (data_op data)) = canonical_data_size data.
Proof.
  intros Hb Hlen Hne. pose proof (zlen_nonneg data) as H0.
  unfold op_serialize, data_op, canonical_data_size, OP_SMALL_INT_MIN_VAL, OP_SMALL_INT_MAX_VAL, OP_1_NEGATE_VAL, OP_DATA_MAX_VAL.
  destruct (Z.eqb_spec (zlen data) 0); [done|]. destruct (Z.eqb_spec (zlen data) 1) as [H1|]; cbn [andb orb].
  - destruct data as [|d [|]]; try done; [|unfold zlen in H1; simpl in H1; lia]. apply Forall_cons in Hb as [Hd _]. unfold is_digit in Hd.
    change (default 0 ([d] !! 0%nat)) with d. change (zlen [d]) with 1. assert (d <> 0) by congruence.
    destruct (Z.leb_spec 1 d); [|lia]. destruct (Z.leb_spec d 16); cbn [andb orb op_value]; [by rewrite op_length_plain by lia|].
    by destruct (Z.eqb_spec d 0x81).
  - destruct (Z.leb_spec (zlen data) 75); cbn [op_value op_data]; [rewrite op_length_data by lia; rewrite zlen_cons; lia|].
    destruct (Z.leb_spec (zlen data) 255); [|destruct (Z.leb_spec (zlen data) 65535)]; cbn -[digits];
      rewrite zlen_cons, zlen_app, zlen_digits; lia.
Qed.

(** A built push has the size computed for it, so the script stays within
    the size the engine accepts, with one exception: the size computed for the single byte 0 is one less
    than what is written, so that [add_data] extends a script of 9999 bytes by it
    to 10001 bytes, more than the engine accepts. *)
Theorem add_data_size script :
  (forall data script', is_bytes data -> data <> [0] -> add_data script data = Ok script' ->
     zlen script' = zlen script + canonical_data_size data /\ zlen script' <= MAX_SCRIPTS_SIZE) /\
  (zlen script = MAX_SCRIPTS_SIZE - 1 ->
     exists script', add_data script [0] = Ok script' /\ zlen script' = MAX_SCRIPTS_SIZE + 1).
Proof.
  split.
  - intros data script' Hb Hne (Hsize & Hl & ->)%add_data_inv. rewrite zlen_app.
    rewrite data_op_size by (done || (unfold MAX_SCRIPT_ELEMENT_SIZE in *; lia)). done.
  - intros Hlen. unfold add_data. rewrite Hlen. exists ((script ++ [1]) ++ [0]). split; [done|]. rewrite !zlen_app, Hlen. done.
Qed.

(** ** Addresses and scripts *)
Definition p2sh_script (h : bytes) : bytes := [0xaa; 0x20] ++ h ++ [0x87].
Lemma is_p2sh_iff spk : is_pay_to_script_hash spk = true <-> exists h, zlen h = 32 /\ spk = p2sh_script h.
Proof.
  unfold is_pay_to_script_hash, p2sh_script. split.
  - intros H. assert (length spk = 35%nat) as Hlen by (unfold zlen in H; lia).
    destruct spk as [|a [|b spk]]; try done. simpl in Hlen. exists (take 32 spk). split; [unfold zlen; rewrite length_take; lia|].
    assert (exists c, drop 32 spk = [c]) as [c Hc].
    { assert (length (drop 32 spk) = 1%nat) as Hd by (rewrite length_drop; lia). destruct (drop 32 spk) as [|c [|]]; try done. eauto. }
    assert (spk !! 32%nat = Some c) as H32 by (replace 32%nat with (32 + 0)%nat by lia; rewrite <- lookup_drop, Hc; done).
    change ((a :: b :: spk) !! 34%nat) with (spk !! 32%nat) in H. rewrite H32 in H. cbn in H.
    replace a with 0xaa by lia. replace b with 0x20 by lia. cbn [app]. do 2 f_equal.
    rewrite <- (take_drop 32 spk) at 1. rewrite Hc. do 2 f_equal. lia.
  - intros (h & Hh & ->). unfold zlen in Hh. assert (length h = 32%nat) as Hl by lia.
    unfold zlen. rewrite length_app, length_app, Hl.
    assert (([0xaa; 0x20] ++ h ++ [0x87]) !! 34%nat = Some 0x87) as ->; [|done].
    rewrite lookup_app_r by (simpl; lia). rewrite lookup_app_r by (simpl; lia). by rewrite Hl.
Qed.

(** An address and the script that pays to it determine each other, but
    for the version: the script of an address with a 32-byte payload is a
    standard P2SH script from which the payload is extracted again, always as
    a script hash address, and every script an address is extracted from is the script of that address. *)
Theorem address_script_roundtrip :
  (forall a p, zlen (addr_payload a) = 32 -> exists spk, pay_to_address_script (E:=TxScriptError) a = Ok spk /\
     class_from_script spk = ScriptHash /\
     extract_script_pub_key_address spk p = Ok (mkAddress p Version.ScriptHash (addr_payload a))) /\
  (forall spk p a, extract_script_pub_key_address spk p = Ok a -> pay_to_address_script (E:=TxScriptError) a = Ok spk).
Proof.
  split.
  - intros [ap v b] p Hl. cbn [addr_payload] in *. exists {| spk_version := 0; spk_script := [0xaa; 0x20] ++ b ++ [0x87] |}.
    assert (class_from_script {| spk_version := 0; spk_script := [0xaa; 0x20] ++ b ++ [0x87] |} = ScriptHash) as Hclass.
    { unfold class_from_script. cbn [spk_version spk_script]. by rewrite (proj2 (is_p2sh_iff _)) by eauto. }
    split_and!; [|done|].
    + unfold pay_to_address_script, pay_to_script_hash. cbn [addr_version addr_payload]. rewrite Hl. by destruct v.
    + unfold extract_script_pub_key_address. rewrite Hclass. cbn [class_version spk_version spk_script].
      unfold zlen in Hl. change (drop 2 ([0xaa; 0x20] ++ b ++ [0x87])) with (b ++ [0x87]).
      rewrite take_app_length' by lia. unfold address_new, zlen. by rewrite Hl.
  - intros spk p a. unfold extract_script_pub_key_address. destruct (class_from_script spk) eqn:Hclass; [by destruct (_ <? _)|].
    unfold class_from_script in Hclass. destruct (Z.eqb_spec (spk_version spk) MAX_SCRIPT_PUBLIC_KEY_VERSION) as [Hv|]; [|done].
    destruct (is_pay_to_script_hash (spk_script spk)) eqn:Hp; [|done]. apply is_p2sh_iff in Hp as (h & Hh & Hspk).
    destruct (_ <? _); [done|]. rewrite Hspk. change (drop 2 (p2sh_script h)) with (h ++ [0x87]).
    unfold zlen in Hh. rewrite take_app_length' by lia. unfold address_new. intros Ha. bind_inv Ha. injection Ha as <-.
    unfold pay_to_address_script, pay_to_script_hash, zlen. cbn [addr_version addr_payload]. rewrite Hh. cbn.
    destruct spk. cbn in *. by subst.
Qed.
