(* ===== verification/ScriptSpend.v ===== *)
(** * Spending

    What [execute] of the script engine ([crypto/txscript/src/lib.rs]) decides
    for pay-to-script-hash outputs, and for the standard Dilithium outputs of
    [standard.rs]; the signature cache; and the static count of signature
    operations. *)
From S2P Require Import Prelude Tx Encode Hashing Script ScriptVm ScriptSafe ScriptBuild.

Section spend.
Context `{SC : ScriptCrypto} `{CR : CacheRandom}.
Implicit Types (src : ScriptSource) (vm : VM).

(** ** Stepping through a script *)
Lemma execute_script_ok_inv src script only_push vm vm' : execute_script src script only_push vm = (Ok tt, vm') ->
  cond_stack vm' = [] /\ astack vm' = [] /\ num_ops vm' = 0.
Proof.
  unfold execute_script. destruct (stm_for _ _ vm) as [[[]| | |] vm1]; try done.
  destruct (cond_stack vm1) eqn:Hc; [|done]. intros [= <-]. done.
Qed.
(** The engine between opcodes of a script without conditionals. *)
Definition idle vm : Prop := cond_stack vm = [] /\ astack vm = [].
Lemma script_step_ok_intro src only_push op vm vm' :
  is_disabled op = false -> always_illegal op = false -> only_push && negb (is_push_opcode op) = false ->
  execute_opcode src op vm = (Ok tt, vm') ->
  script_step src only_push (Ok op) vm =
    if MAX_STACK_SIZE <? zlen (astack vm') + zlen (dstack vm')
    then (Err (StackSizeExceeded (zlen (astack vm') + zlen (dstack vm')) MAX_STACK_SIZE), vm') else (Ok tt, vm').
Proof.
  intros H1 H2 H3 He. unfold script_step, lift, mbind, stm_bind. rewrite H1, H2, H3, He. unfold gets. by destruct (_ <? _).
Qed.
Lemma script_step_err_intro src only_push op vm e vm' :
  is_disabled op = false -> always_illegal op = false -> only_push && negb (is_push_opcode op) = false ->
  execute_opcode src op vm = (Err e, vm') -> script_step src only_push (Ok op) vm = (Err e, vm').
Proof. intros H1 H2 H3 He. unfold script_step, lift, mbind, stm_bind. by rewrite H1, H2, H3, He. Qed.
Lemma execute_opcode_count src op vm : is_push_opcode op = false -> is_conditional op = false -> cond_stack vm = [] ->
  0 <= num_ops vm < MAX_OPS_PER_SCRIPT ->
  execute_opcode src op vm = execute_op src (op_value op) (op_data op) (with_num_ops vm (num_ops vm + 1)).
Proof.
  intros Hp Hcond Hc Hn. unfold MAX_OPS_PER_SCRIPT in Hn. unfold execute_opcode, gets, modify, lift, mbind, stm_bind. rewrite Hp. cbn [negb].
  replace ((- 2 ^ 31 <=? num_ops vm + 1) && (num_ops vm + 1 <? 2 ^ 31)) with true by lia.
  rewrite (proj2 (Z.ltb_ge _ _)) by (unfold MAX_OPS_PER_SCRIPT; lia). cbn [mret stm_ret].
  unfold is_executing at 1. cbn [cond_stack with_num_ops]. rewrite Hc. cbn [last orb].
  unfold is_push_opcode, NO_COST_OPCODE in Hp. rewrite (proj2 (Z.leb_gt (op_value op) 0x4e)) by lia. by rewrite andb_false_r.
Qed.

(** ** Pay to script hash *)
Definition p2sh_ops (h : bytes) : list OpCode := [mkOp 0xaa []; mkOp 0x20 h; mkOp 0x87 []].
Lemma p2sh_parse h : is_bytes h -> zlen h = 32 -> parse_script (p2sh_script h) = map Ok (p2sh_ops h).
Proof.
  intros Hb Hl. unfold zlen in Hl. assert (length h = 32%nat) as Hl' by lia.
  replace (p2sh_script h) with (concat (map op_serialize (p2sh_ops h)) ++ []) by (cbn; by rewrite app_nil_r).
  rewrite parse_ops; [by rewrite app_nil_r|].
  repeat apply Forall_cons_2; try by apply Forall_nil.
  all: split_and!; cbn; [unfold is_digit; lia|try done; by apply Forall_nil|try done; lia].
Qed.

Lemma execute_blake2b src data vm st x : dstack vm = st ++ [x] ->
  execute_op src 0xaa data vm = (Ok tt, with_dstack vm (st ++ [blake2b 32 [] x])).
Proof.
  intros Hs. change (execute_op src 0xaa data) with (OpBlake2b data). unfold OpBlake2b, pop_raw1, on_dstack, pop_raw, push, mbind, stm_bind.
  rewrite Hs, length_app. simpl length. rewrite (proj2 (Nat.ltb_ge _ _)), Nat.add_sub by lia.
  by rewrite take_app_length, drop_app_length.
Qed.
Lemma execute_blake2b_empty src data vm : dstack vm = [] -> exists e vm', execute_op src 0xaa data vm = (Err e, vm').
Proof.
  intros Hs. change (execute_op src 0xaa data) with (OpBlake2b data). unfold OpBlake2b, pop_raw1, on_dstack, pop_raw, mbind, stm_bind.
  rewrite Hs. cbn. eauto.
Qed.
Lemma execute_equal src data vm st a b : dstack vm = st ++ [a; b] ->
  execute_op src 0x87 data vm = (Ok tt, with_dstack vm (st ++ [if bool_decide (a = b) then [1] else []])).
Proof.
  intros Hs. change (execute_op src 0x87 data) with (OpEqual data). unfold OpEqual. rewrite Hs, length_app. simpl length.
  rewrite (proj2 (Nat.leb_le _ _)), Nat.add_sub by lia. by rewrite take_app_length, drop_app_length.
Qed.
Lemma with_dstack_twice vm s t : with_dstack (with_dstack vm s) t = with_dstack vm t.
Proof. done. Qed.

Lemma execute_data32 src h vm : zlen h = 32 -> cond_stack vm = [] ->
  execute_opcode src (mkOp 0x20 h) vm = (Ok tt, with_dstack vm (dstack vm ++ [h])).
Proof.
  intros Hh Hc. rewrite execute_opcode_push; cbn [op_value op_data]; [by rewrite execute_op_data by lia|done|rewrite Hh; done| |].
  - unfold is_executing. by rewrite Hc.
  - intros _. unfold check_minimal_data_push. cbn [op_value op_data]. by rewrite Hh.
Qed.

(** Running a pay-to-script-hash script on a stack. *)
Lemma run_p2sh_script src h vm st redeem : is_bytes h -> zlen h = 32 ->
  cond_stack vm = [] -> astack vm = [] -> num_ops vm = 0 -> dstack vm = st ++ [redeem] -> zlen (dstack vm) <= MAX_STACK_SIZE ->
  if MAX_STACK_SIZE <? zlen st + 2 then exists e vm', execute_script src (p2sh_script h) false vm = (Err e, vm')
  else execute_script src (p2sh_script h) false vm =
    (Ok tt, with_dstack vm (st ++ [if bool_decide (blake2b 32 [] redeem = h) then [1] else []])).
Proof.
  intros Hb Hh Hc Ha Hn Hs Hsize. unfold execute_script. rewrite p2sh_parse by done. cbn [p2sh_ops map stm_for].
  unfold mbind, stm_bind.
  rewrite (script_step_ok_intro src false (mkOp 0xaa []) vm (with_dstack (with_num_ops vm 1) (st ++ [blake2b 32 [] redeem]))); [|done..|].
  2: { rewrite execute_opcode_count; [|done|done|done|rewrite Hn; done]. cbn [op_value op_data]. rewrite Hn.
       by rewrite (execute_blake2b src [] _ st redeem). }
  cbn [astack dstack with_dstack with_num_ops]. rewrite Ha. change (zlen (@nil bytes)) with 0.
  rewrite Hs in Hsize. rewrite zlen_app in *. change (zlen [_]) with 1 in *. rewrite (proj2 (Z.ltb_ge _ (0 + _))) by lia.
  rewrite (script_step_ok_intro src false (mkOp 0x20 h) _ (with_dstack (with_num_ops vm 1) (st ++ [blake2b 32 [] redeem; h]))); [|done..|].
  2: { rewrite execute_data32 by done. cbn [dstack with_dstack]. rewrite <- app_assoc. done. }
  cbn [astack dstack with_dstack with_num_ops]. rewrite Ha. change (zlen (@nil bytes)) with 0.
  rewrite zlen_app. change (zlen [_; _]) with 2. rewrite Z.add_0_l. destruct (Z.ltb_spec MAX_STACK_SIZE (zlen st + 2)) as [|Hfit]; [eauto|].
  set (eq := if bool_decide (blake2b 32 [] redeem = h) then [1] else []).
  rewrite (script_step_ok_intro src false (mkOp 0x87 []) _ (with_dstack (with_num_ops vm 2) (st ++ [eq]))); [|done..|].
  2: { rewrite execute_opcode_count; [|done|done|done|done]. cbn [op_value op_data]. by erewrite execute_equal. }
  cbn [astack dstack with_dstack with_num_ops]. rewrite Ha. change (zlen (@nil bytes)) with 0.
  rewrite zlen_app. change (zlen [_]) with 1. rewrite Z.add_0_l. rewrite (proj2 (Z.ltb_ge _ _)) by lia.
  cbn [mret stm_ret cond_stack with_dstack with_num_ops]. rewrite Hc. destruct vm. cbn in *. by subst.
Qed.
Lemma run_p2sh_empty src h vm : is_bytes h -> zlen h = 32 ->
  cond_stack vm = [] -> num_ops vm = 0 -> dstack vm = [] -> exists e vm', execute_script src (p2sh_script h) false vm = (Err e, vm').
Proof.
  intros Hb Hh Hc Hn Hs. unfold execute_script. rewrite p2sh_parse by done. cbn [p2sh_ops map stm_for].
  destruct (execute_blake2b_empty src [] (with_num_ops vm (num_ops vm + 1)) Hs) as (e & vm' & He). unfold mbind, stm_bind.
  rewrite (script_step_err_intro src false (mkOp 0xaa []) vm e vm'); [eauto|done..|].
  by rewrite execute_opcode_count by (done || (rewrite Hn; done)).
Qed.
Definition stack_size vm : Z := zlen (astack vm) + zlen (dstack vm).
Lemma script_step_size src only_push r vm vm' : script_step src only_push r vm = (Ok tt, vm') -> stack_size vm' <= MAX_STACK_SIZE.
Proof.
  unfold script_step, lift, gets, mbind, stm_bind. destruct r as [op| | |]; try done.
  destruct (is_disabled op); [done|]. destruct (always_illegal op); [done|]. destruct (only_push && _); [done|].
  destruct (execute_opcode src op vm) as [[[]| | |] vm1]; try done.
  destruct (Z.ltb_spec MAX_STACK_SIZE (zlen (astack vm1) + zlen (dstack vm1))); [done|]. intros [= <-]. done.
Qed.
Lemma execute_script_size src script only_push vm vm' : stack_size vm <= MAX_STACK_SIZE ->
  execute_script src script only_push vm = (Ok tt, vm') -> zlen (dstack vm') <= MAX_STACK_SIZE.
Proof.
  intros Hvm. unfold execute_script.
  assert (forall l vm vm', stack_size vm <= MAX_STACK_SIZE -> stm_for (script_step src only_push) l vm = (Ok tt, vm') ->
    stack_size vm' <= MAX_STACK_SIZE) as Hfor.
  { induction l as [|r l IH]; intros vm0 vm0' H0; [by intros [= <-]|]. cbn [stm_for]. unfold mbind, stm_bind.
    destruct (script_step src only_push r vm0) as [[[]| | |] vm1] eqn:Hstep; try done.
    apply IH. by eapply script_step_size. }
  destruct (stm_for _ _ vm) as [[[]| | |] vm1] eqn:Hrun; try done. apply Hfor in Hrun; [|done].
  destruct (cond_stack vm1); [|done]. intros [= <-]. unfold stack_size in Hrun. pose proof (zlen_nonneg (astack vm1)). cbn. lia.
Qed.
Lemma execute_empty_script src only_push vm : cond_stack vm = [] -> astack vm = [] -> num_ops vm = 0 ->
  execute_script src [] only_push vm = (Ok tt, vm).
Proof. intros Hc Ha Hn. unfold execute_script. cbn. rewrite Hc. destruct vm. cbn in *. by subst. Qed.

Ltac p2sh_tail :=
  destruct (check_error_condition false _) as [[[]| | |] ?]; try done; unfold modify, lift; cbn [ok_or];
  destruct (dstack_pop _) as [[[|]| | |] ?]; try done; cbn [ok_or];
  by destruct (execute_script _ _ false _) as [[[]| | |] ?].
(** [run] on a signature script and a pay-to-script-hash script. *)
Lemma run_p2sh src sig h vm : is_bytes h -> zlen h = 32 -> cond_stack vm = [] -> astack vm = [] -> num_ops vm = 0 ->
  zlen sig <= MAX_SCRIPTS_SIZE ->
  run src [sig; p2sh_script h] true true vm =
    (_ ← execute_script src sig true;
     st ← gets dstack;
     _ ← execute_script src (p2sh_script h) false;
     _ ← check_error_condition false;
     _ ← modify (fun vm => with_dstack vm st);
     o ← dstack_pop;
     script ← lift (ok_or o EmptyStack);
     _ ← execute_script src script false;
     check_error_condition true) vm.
Proof.
  intros Hb Hh Hc Ha Hn Hsig. unfold run.
  rewrite bool_decide_false by done. cbn [forallb]. rewrite (bool_decide_false (p2sh_script h = [])) by done. rewrite andb_false_r.
  cbn [find]. rewrite (proj2 (Z.ltb_ge _ (zlen sig))) by done. rewrite (proj2 (Z.ltb_ge _ (zlen (p2sh_script h)))).
  2: { unfold p2sh_script. rewrite !zlen_app, Hh. done. }
  cbn [run_scripts]. rewrite (bool_decide_false (p2sh_script h = [])) by done.
  unfold mbind, stm_bind, gets, mret, stm_ret. cbn [andb Nat.eqb].
  case_bool_decide as Hempty.
  - rewrite Hempty, execute_empty_script by done.
    destruct (execute_script src (p2sh_script h) false vm) as [[[]| | |] vm1]; try done. p2sh_tail.
  - destruct (execute_script src sig true vm) as [[[]| | |] vm1]; try done.
    destruct (execute_script src (p2sh_script h) false vm1) as [[[]| | |] vm2]; try done. p2sh_tail.
Qed.

(** A script run from a clean state that succeeds with a given stack. *)
Definition script_run src script only_push vm vm' (s : Stack) : Prop :=
  execute_script src script only_push vm = (Ok tt, vm') /\ dstack vm' = s.
Definition p2sh_spent src (sig h : bytes) vm vm' : Prop :=
  zlen sig <= MAX_SCRIPTS_SIZE /\
  exists st redeem vm1 vm2 v,
    script_run src sig true vm vm1 (st ++ [redeem]) /\ zlen st + 2 <= MAX_STACK_SIZE /\
    blake2b 32 [] redeem = h /\
    script_run src redeem false (with_dstack vm1 st) vm2 [v] /\ truthy v = true /\ vm' = with_dstack vm2 [].

Lemma run_p2sh_iff src sig h vm vm' : is_bytes h -> zlen h = 32 ->
  cond_stack vm = [] -> astack vm = [] -> num_ops vm = 0 -> dstack vm = [] -> 
  run src [sig; p2sh_script h] true true vm = (Ok tt, vm') <-> p2sh_spent src sig h vm vm'.
Proof.
  intros Hb Hh Hc Ha Hn Hd. unfold p2sh_spent, script_run.
  destruct (Z.le_gt_cases (zlen sig) MAX_SCRIPTS_SIZE) as [Hsig|Hsig].
  2: { split; [|lia]. unfold run. rewrite bool_decide_false by done. cbn [forallb]. rewrite (bool_decide_false (p2sh_script h = [])) by done.
       rewrite andb_false_r. cbn [find]. by rewrite (proj2 (Z.ltb_lt _ _)). }
  rewrite run_p2sh by done. unfold gets, mbind, stm_bind.
  destruct (execute_script src sig true vm) as [[[]| | |] vm1] eqn:Hrun; [|split; [done|intros (_ & ? & ? & ? & ? & ? & [? _] & _); done]..].
  destruct (execute_script_ok_inv _ _ _ _ _ Hrun) as (Hc1 & Ha1 & Hn1).
  assert (zlen (dstack vm1) <= MAX_STACK_SIZE) as Hsize.
  { eapply execute_script_size; [|exact Hrun]. unfold stack_size. rewrite Ha, Hd. done. }
  destruct (dstack vm1) as [|redeem st _] eqn:Hs using rev_ind.
  { destruct (run_p2sh_empty src h vm1) as (e & vm2 & ->); [done..|]. split; [done|].
    intros (_ & st & redeem & vm1' & _ & _ & [[= <-] Hst] & _). rewrite Hs in Hst. by destruct st. }
  pose proof (run_p2sh_script src h vm1 st redeem Hb Hh Hc1 Ha1 Hn1 Hs ltac:(by rewrite Hs)) as Hspk.
  destruct (Z.ltb_spec MAX_STACK_SIZE (zlen st + 2)) as [Hbig|Hfit].
  { destruct Hspk as (e & vm2 & ->). split; [done|]. intros (_ & st' & redeem' & vm1' & _ & _ & [[= <-] Hst] & Hl & _).
    rewrite Hs in Hst. apply app_inj_tail in Hst as [-> _]. lia. }
  rewrite Hspk. rewrite (check_error_middle _ st (if bool_decide (blake2b 32 [] redeem = h) then [1] else [])) by done.
  case_bool_decide as Hhash.
  2: { split; [done|]. intros (_ & st' & redeem' & vm1' & _ & _ & [[= <-] Hst] & _ & Hh' & _).
       rewrite Hs in Hst. by apply app_inj_tail in Hst as [-> ->]. }
  change (truthy [1]) with true. unfold modify, dstack_pop, lift. cbn [dstack with_dstack]. rewrite last_snoc. cbn [ok_or].
  rewrite length_app, Nat.add_sub, take_app_length. rewrite !with_dstack_twice.
  destruct (execute_script src redeem false (with_dstack vm1 st)) as [[[]| | |] vm2] eqn:Hredeem.
  2-4: split; [done|]; intros (_ & st' & redeem' & vm1' & vm2' & v & [[= <-] Hst] & _ & _ & [Hr _] & _);
    rewrite Hs in Hst; apply app_inj_tail in Hst as [-> ->]; congruence.
  rewrite check_error_final. split.
  - destruct (dstack vm2) as [|v [|]] eqn:Hv; try done. destruct (truthy v) eqn:Ht; [|done]. intros [= <-].
    split; [done|]. exists st, redeem, vm1, vm2, v. done.
  - intros (_ & st' & redeem' & vm1' & vm2' & v & [[= <-] Hst] & _ & _ & [Hr Hv] & Ht & ->).
    rewrite Hs in Hst. apply app_inj_tail in Hst as [-> ->]. rewrite Hredeem in Hr. injection Hr as <-. by rewrite Hv, Ht.
Qed.

(** C18. What spending a pay-to-script-hash output takes.  For an engine set up
    for an input whose output has version 0 and the P2SH script of [h],
    [execute] succeeds exactly when the signature script, run as pushes only,
    leaves a stack whose top element is a redeem script that hashes to [h],
    and the redeem script, run on the rest of that stack, leaves a single true
    element.  Nothing else is accepted: not a redeem script with another hash, not a stack with
    more elements. *)
Theorem p2sh_spend tx input idx e h reused cache src vm vm' :
  is_bytes h -> zlen h = 32 ->
  spk_version (script_public_key e) = 0 -> spk_script (script_public_key e) = p2sh_script h ->
  from_transaction_input (E:=TxScriptError) tx input idx e reused cache = Ok (src, vm) ->
  execute src vm = (Ok tt, vm') <-> p2sh_spent src (signature_script input) h vm vm'.
Proof.
  intros Hb Hh Hver Hspk Hfrom. unfold from_transaction_input in Hfrom. rewrite Hspk in Hfrom.
  rewrite (proj2 (is_p2sh_iff (p2sh_script h))) in Hfrom by eauto. bind_inv Hfrom. injection Hfrom as <- <-.
  unfold execute. rewrite Hver, Hspk. by apply run_p2sh_iff.
Qed.
End spend.

(** ** Standard Dilithium outputs *)
Section dilithium.
Context `{SC : ScriptCrypto} `{CR : CacheRandom}.
Implicit Types (src : ScriptSource) (vm : VM).

Lemma push_flags op : 0 <= op_value op <= 0x60 ->
  is_disabled op = false /\ always_illegal op = false /\ is_push_opcode op = true.
Proof.
  intros Hv. unfold is_disabled, always_illegal, is_push_opcode, NO_COST_OPCODE. split_and!; [..|lia].
  all: apply bool_decide_false; rewrite !not_elem_of_cons; split_and!; try lia; apply not_elem_of_nil.
Qed.
(** A script of pushes built by [add_data]. *)
Lemma run_pushes src only_push datas vm : cond_stack vm = [] -> astack vm = [] ->
  Forall (fun d => zlen d <= MAX_SCRIPT_ELEMENT_SIZE) datas -> zlen (dstack vm) + zlen datas <= MAX_STACK_SIZE ->
  stm_for (script_step src only_push) (map (fun d => Ok (data_op d)) datas) vm = (Ok tt, with_dstack vm (dstack vm ++ datas)).
Proof.
  intros Hc Ha Hd. revert vm Hc Ha. induction Hd as [|d datas Hd Hds IH]; intros vm Hc Ha Hsize.
  { cbn. by rewrite app_nil_r, with_dstack_same. }
  rewrite zlen_cons in Hsize. pose proof (zlen_nonneg datas). assert (zlen d < 2 ^ 32) as Hs by (unfold MAX_SCRIPT_ELEMENT_SIZE in *; lia).
  cbn [map stm_for]. unfold mbind, stm_bind.
  assert (is_disabled (data_op d) = false /\ always_illegal (data_op d) = false /\ is_push_opcode (data_op d) = true) as (H1 & H2 & H3).
  { apply push_flags. destruct (data_op_cases d Hs); cbn [op_value]; lia. }
  rewrite (script_step_ok_intro src only_push (data_op d) vm (with_dstack vm (dstack vm ++ [d]))); [|done|done|by rewrite H3, andb_false_r|].
  2: { apply execute_data_op; [done|]. unfold is_executing. by rewrite Hc. }
  cbn [astack dstack with_dstack]. rewrite Ha, zlen_app. change (zlen (@nil bytes)) with 0. change (zlen [d]) with 1.
  rewrite (proj2 (Z.ltb_ge _ _)) by lia. rewrite IH; cbn [dstack with_dstack astack cond_stack]; try done.
  - by rewrite <- app_assoc.
  - rewrite zlen_app. change (zlen [d]) with 1. lia.
Qed.

(** What the signature check answers: the cached answer for the prefixes of
    signature and key, or the verification. *)
Definition cache_key (key sig msg : bytes) : SigCacheKey := mkSigCacheKey (take 32 sig) (take 32 key) msg.
Definition verdict (cache : Cache) (key sig msg : bytes) : bool :=
  match cache_get cache (cache_key key sig msg) with Some b => b | None => ml_dsa_44_verify key msg [] sig end.
Definition signed_message (tx : PopulatedTransaction) (idx : nat) (inp : TransactionInput) (ent : UtxoEntry) (t : u8) : bytes :=
  as_bytes (finalize TransactionSigningHash (sighash_message (ptx tx) inp ent t idx)).
Definition sig_op_taken (c : RuntimeSigOpCounter) : RuntimeSigOpCounter := mkCounter (sig_op_limit c) (sig_op_remaining c - 1).
(** After a check the stacks are the same, one signature operation is taken
    and the reused hashes are still valid. *)
Definition after_check (tx : PopulatedTransaction) vm vm' : Prop :=
  dstack vm' = dstack vm /\ astack vm' = astack vm /\ cond_stack vm' = cond_stack vm /\ num_ops vm' = num_ops vm /\
  runtime_sig_op_counter vm' = sig_op_taken (runtime_sig_op_counter vm) /\ reused_ok (ptx tx) (reused_values vm').

Lemma cache_insert_get c k b : cache_size c <> 0%nat -> cache_get (cache_insert c k b) k = Some b.
Proof.
  intros Hc. unfold cache_get, cache_insert. rewrite (proj2 (Nat.eqb_neq _ _)) by done. cbn [cache_map]. apply lookup_insert_eq.
Qed.
Lemma check_dilithium_verdict tx input idx e b t key sig vm inp ent :
  1 <= sig_op_remaining (runtime_sig_op_counter vm) -> zlen sig = DILITHIUM2_SIG_SIZE -> zlen key = DILITHIUM2_VK_SIZE ->
  inputs (ptx tx) !! idx = Some inp -> entries tx !! idx = Some ent -> reused_ok (ptx tx) (reused_values vm) ->
  let msg := signed_message tx idx inp ent t in
  exists vm', check_dilithium_signature (TxInput tx input idx e b) t key sig vm = (Ok (verdict (sig_cache vm) key sig msg), vm') /\
    after_check tx vm vm' /\
    (cache_size (sig_cache vm) <> 0%nat -> cache_get (sig_cache vm') (cache_key key sig msg) = Some (verdict (sig_cache vm) key sig msg)).
Proof.
  intros Hrem Hsig Hkey Hinp Hent Hr msg. unfold check_dilithium_signature, consume_sig_op.
  rewrite (proj2 (Z.ltb_ge _ _)) by done. rewrite Hsig, Hkey, !Z.eqb_refl. cbn [negb reused_values with_counter].
  destruct (calc_signature_hash_ok (E:=TxScriptError) tx idx t (reused_values vm) inp ent Hr Hinp Hent) as (v' & -> & Hv').
  fold (signed_message tx idx inp ent t). fold msg. fold (cache_key key sig msg). cbn [sig_cache with_sig_state with_counter].
  unfold verdict. destruct (cache_get (sig_cache vm) (cache_key key sig msg)) as [c|] eqn:Hget; eexists; split_and!; try done.
  cbn [sig_cache with_sig_state]. intros Hc. by apply cache_insert_get.
Qed.
Lemma pop_raw2_snoc vm s a b : dstack vm = s ++ [a; b] -> pop_raw2 vm = (Ok (a, b), with_dstack vm s).
Proof.
  intros Hs. unfold pop_raw2, on_dstack, pop_raw, mbind, stm_bind. rewrite Hs, length_app. simpl length.
  rewrite (proj2 (Nat.ltb_ge _ _)), Nat.add_sub by lia. by rewrite take_app_length, drop_app_length.
Qed.
Lemma checksig_verdict tx input idx e b t key sig vm st inp ent :
  1 <= sig_op_remaining (runtime_sig_op_counter vm) -> zlen sig = DILITHIUM2_SIG_SIZE -> zlen key = DILITHIUM2_VK_SIZE ->
  inputs (ptx tx) !! idx = Some inp -> entries tx !! idx = Some ent -> reused_ok (ptx tx) (reused_values vm) ->
  t ∈ ALLOWED_SIG_HASH_TYPES_VALUES -> dstack vm = st ++ [sig ++ [t]; key] ->
  exists vm', execute_op (TxInput tx input idx e b) 0xc4 [] vm =
      (Ok tt, with_dstack vm' (st ++ [if verdict (sig_cache vm) key sig (signed_message tx idx inp ent t) then [1] else []])) /\
    after_check tx (with_dstack vm st) vm'.
Proof.
  intros Hrem Hsig Hkey Hinp Hent Hr Ht Hs.
  change (execute_op (TxInput tx input idx e b) 0xc4 []) with (OpCheckSigDilithium (TxInput tx input idx e b) []).
  unfold OpCheckSigDilithium, mbind, stm_bind. rewrite (pop_raw2_snoc vm st (sig ++ [t]) key Hs). rewrite last_snoc.
  unfold sighash_from_u8. rewrite bool_decide_true by done. cbn [negb]. rewrite length_app, Nat.add_sub, take_app_length.
  destruct (check_dilithium_verdict tx input idx e b t key sig (with_dstack vm st) inp ent) as (vm' & -> & Hsame & _); [done..|].
  exists vm'. split; [|done]. destruct Hsame as (Hd & _). unfold push_bool, on_dstack, push_item. cbn [serialize bool_data].
  rewrite Hd. cbn [dstack with_dstack sig_cache]. by destruct (verdict _ _ _ _).
Qed.

Definition quiet vm : Prop := cond_stack vm = [] /\ astack vm = [] /\ num_ops vm = 0.
Lemma quiet_reset vm : quiet vm -> with_num_ops (with_astack vm []) 0 = vm.
Proof. intros (Hc & Ha & Hn). destruct vm. cbn in *. by subst. Qed.
Lemma execute_pushes src only_push script datas vm : quiet vm ->
  parse_script script = map (fun d => Ok (data_op d)) datas -> Forall (fun d => zlen d <= MAX_SCRIPT_ELEMENT_SIZE) datas ->
  zlen (dstack vm) + zlen datas <= MAX_STACK_SIZE ->
  execute_script src script only_push vm = (Ok tt, with_dstack vm (dstack vm ++ datas)).
Proof.
  intros Hq Hp Hd Hsize. unfold execute_script. destruct Hq as (Hc & Ha & Hn). rewrite Hp, run_pushes by done.
  cbn [cond_stack with_dstack]. rewrite Hc. f_equal. by apply quiet_reset.
Qed.
Lemma key_op key : zlen key = DILITHIUM2_VK_SIZE -> data_op key = mkOp 0x4d key.
Proof. intros Hl. unfold data_op. by rewrite Hl. Qed.
Lemma key_serialized key : zlen key = DILITHIUM2_VK_SIZE -> op_serialize (data_op key) = [0x4d; 0x20; 0x05] ++ key.
Proof.
  intros Hl. rewrite key_op by done. unfold op_serialize. cbn [op_value op_data]. by rewrite Hl.
Qed.
(** The redeem script of a key: push the key, check the signature. *)
Lemma redeem_ops key : is_bytes key -> zlen key = DILITHIUM2_VK_SIZE ->
  dilithium_redeem_script key = Ok (op_serialize (data_op key) ++ [0xc4]) /\
  parse_script (op_serialize (data_op key) ++ [0xc4]) = [Ok (data_op key); Ok (mkOp 0xc4 [])].
Proof.
  intros Hb Hl. unfold DILITHIUM2_VK_SIZE in Hl. split.
  - rewrite key_serialized by done. unfold dilithium_redeem_script. by rewrite Hl.
  - rewrite parse_op; [done|]. apply data_op_wf; [done|]. lia.
Qed.
Lemma redeem_size key : zlen key = DILITHIUM2_VK_SIZE -> zlen (op_serialize (data_op key) ++ [0xc4]) = 1316.
Proof.
  intros Hl. rewrite key_serialized by done. rewrite !zlen_app, Hl. done.
Qed.
Lemma run_redeem tx input idx e b t key sig vm inp ent : quiet vm -> dstack vm = [sig ++ [t]] ->
  is_bytes key -> 1 <= sig_op_remaining (runtime_sig_op_counter vm) ->
  zlen sig = DILITHIUM2_SIG_SIZE -> zlen key = DILITHIUM2_VK_SIZE ->
  inputs (ptx tx) !! idx = Some inp -> entries tx !! idx = Some ent -> reused_ok (ptx tx) (reused_values vm) ->
  t ∈ ALLOWED_SIG_HASH_TYPES_VALUES ->
  exists vm', script_run (TxInput tx input idx e b) (op_serialize (data_op key) ++ [0xc4]) false vm vm'
    [if verdict (sig_cache vm) key sig (signed_message tx idx inp ent t) then [1] else []] /\
    runtime_sig_op_counter vm' = sig_op_taken (runtime_sig_op_counter vm).
Proof.
  intros (Hc & Ha & Hn) Hs Hb Hrem Hsig Hkey Hinp Hent Hr Ht. unfold script_run, execute_script.
  rewrite (proj2 (redeem_ops key Hb Hkey)). set (src := TxInput tx input idx e b).
  assert (stm_for (script_step src false) [Ok (data_op key)] vm = (Ok tt, with_dstack vm [sig ++ [t]; key])) as Hpush.
  { pose proof (run_pushes src false [key] vm Hc Ha) as Hrun. rewrite Hs in Hrun. apply Hrun; [|done].
    repeat constructor. rewrite Hkey. done. }
  cbn [stm_for] in Hpush |- *. unfold mbind, stm_bind in Hpush |- *.
  destruct (script_step src false (Ok (data_op key)) vm) as [[[]| | |] vm1]; try done. injection Hpush as ->.
  destruct (checksig_verdict tx input idx e b t key sig (with_num_ops (with_dstack vm [sig ++ [t]; key]) 1) [] inp ent)
    as (vm2 & Hcheck & Hd2 & Ha2 & Hc2 & Hn2 & Hs2 & _); [done..|]. cbn [sig_cache with_num_ops with_dstack] in *.
  rewrite (script_step_ok_intro src false (mkOp 0xc4 []) _ (with_dstack vm2 [if verdict (sig_cache vm) key sig (signed_message tx idx inp ent t) then [1] else []]));
    [|done..|].
  2: { rewrite execute_opcode_count; [|done|done|done|cbn; rewrite Hn; done]. cbn [op_value op_data num_ops with_dstack]. rewrite Hn.
       exact Hcheck. }
  cbn [astack dstack with_dstack with_num_ops] in *. rewrite Ha2, Ha. change (MAX_STACK_SIZE <? _) with false.
  cbn [mret stm_ret cond_stack with_dstack]. cbn in Hc2. rewrite Hc2, Hc. by eexists.
Qed.

Lemma allowed_is_byte t : t ∈ ALLOWED_SIG_HASH_TYPES_VALUES -> is_digit 256 t.
Proof.
  assert (Forall (is_digit 256) ALLOWED_SIG_HASH_TYPES_VALUES) as Hall.
  { unfold ALLOWED_SIG_HASH_TYPES_VALUES. repeat (apply Forall_cons_2; [by split; vm_compute|]). by apply Forall_nil. }
  by apply (proj1 (Forall_forall _ _) Hall).
Qed.
Lemma dilithium_spent tx input idx e b key sig t vm : quiet vm -> dstack vm = [] ->
  is_bytes key -> zlen key = DILITHIUM2_VK_SIZE -> is_bytes (sig ++ [t]) -> zlen sig = DILITHIUM2_SIG_SIZE ->
  t ∈ ALLOWED_SIG_HASH_TYPES_VALUES -> inputs (ptx tx) !! idx = Some input -> entries tx !! idx = Some e ->
  1 <= sig_op_remaining (runtime_sig_op_counter vm) -> reused_ok (ptx tx) (reused_values vm) ->
  let redeem := op_serialize (data_op key) ++ [0xc4] in
  (exists vm', p2sh_spent (TxInput tx input idx e b) (op_serialize (data_op (sig ++ [t])) ++ op_serialize (data_op redeem))
     (blake2b 32 [] redeem) vm vm') <->
  verdict (sig_cache vm) key sig (signed_message tx idx input e t) = true.
Proof.
  intros Hq Hd Hkb Hkey Hsb Hsig Ht Hinp Hent Hrem Hr redeem. set (src := TxInput tx input idx e b).
  assert (zlen redeem = 1316) as Hrl by by apply redeem_size. unfold DILITHIUM2_SIG_SIZE in Hsig.
  assert (zlen (sig ++ [t]) = 2421) as Hsl by (rewrite zlen_app, Hsig; done).
  assert (is_bytes redeem) as Hrb.
  { subst redeem. rewrite key_serialized by done. repeat apply Forall_app_2; try done; repeat constructor; unfold is_digit; lia. }
  assert (execute_script src (op_serialize (data_op (sig ++ [t])) ++ op_serialize (data_op redeem)) true vm =
    (Ok tt, with_dstack vm [sig ++ [t]; redeem])) as Hpush.
  { rewrite (execute_pushes src true _ [sig ++ [t]; redeem]); [by rewrite Hd|done| |repeat constructor; rewrite ?Hsl, ?Hrl; done|by rewrite Hd].
    rewrite parse_op by (apply data_op_wf; [done|lia]). rewrite <- (app_nil_r (op_serialize (data_op redeem))).
    rewrite parse_op by (apply data_op_wf; [done|lia]). done. }
  destruct (run_redeem tx input idx e b t key sig (with_dstack vm [sig ++ [t]]) input e) as (vm2 & [Hred Hv2] & _); [done..|].
  cbn [sig_cache with_dstack] in Hv2. unfold p2sh_spent, script_run. split.
  - intros (vm' & _ & st & redeem' & vm1 & vm2' & v & [Hrun Hst] & _ & Hh & [Hrun2 Hv] & Htrue & _).
    fold src in Hrun. rewrite Hpush in Hrun. injection Hrun as <-. cbn [dstack with_dstack] in Hst.
    apply (app_inj_tail [sig ++ [t]] st) in Hst as [<- <-]. rewrite with_dstack_twice in Hrun2.
    fold src redeem in Hred, Hrun2. rewrite Hred in Hrun2. injection Hrun2 as <-. rewrite Hv2 in Hv. injection Hv as <-.
    by destruct (verdict _ _ _ _).
  - intros Hverdict. rewrite Hverdict in Hv2. eexists. split.
    { rewrite zlen_app. rewrite !data_op_size; [..|done|lia|intros ->; done|done|lia|intros Hx; rewrite Hx in Hsl; done].
      unfold canonical_data_size. rewrite Hsl, Hrl. done. }
    exists [sig ++ [t]], redeem, (with_dstack vm [sig ++ [t]; redeem]), vm2, [1]. split_and!; try done.
Qed.

(** C19. Spending a standard Dilithium output.  Take the output that pays to
    the address of a key (the P2SH script of its redeem script), and an input
    whose signature script, built with the script builder, holds a signature of the right length with an allowed hash type
    and the redeem script.  If the input allows at least one signature operation, the engine
    accepts it exactly when the signature check answers yes for the signing
    hash of the transaction: the answer is the ML-DSA verification of the
    signature under the key, unless the cache has an answer for the prefixes of signature and key. *)
Theorem dilithium_spend tx input idx e key sig t redeem s1 reused cache src vm :
  is_bytes key -> zlen key = DILITHIUM2_VK_SIZE -> is_bytes sig -> zlen sig = DILITHIUM2_SIG_SIZE ->
  t ∈ ALLOWED_SIG_HASH_TYPES_VALUES ->
  dilithium_redeem_script key = Ok redeem ->
  pay_to_script_hash_script (E:=ScriptBuilderError) redeem = Ok (script_public_key e) ->
  add_data [] (sig ++ [t]) = Ok s1 -> pay_to_script_hash_signature_script redeem s1 = Ok (signature_script input) ->
  inputs (ptx tx) !! idx = Some input -> entries tx !! idx = Some e ->
  1 <= sig_op_count input -> reused_ok (ptx tx) reused ->
  from_transaction_input (E:=TxScriptError) tx input idx e reused cache = Ok (src, vm) ->
  (exists vm', execute src vm = (Ok tt, vm')) <->
  verdict cache key sig (signed_message tx idx input e t) = true.
Proof.
  intros Hkb Hkey Hsb Hsig Ht Hredeem Hspk Hs1 Hss Hinp Hent Hcount Hr Hfrom.
  destruct (redeem_ops key Hkb Hkey) as [Hred _]. rewrite Hred in Hredeem. injection Hredeem as <-.
  set (redeem := op_serialize (data_op key) ++ [0xc4]) in *.
  apply add_data_inv in Hs1 as (_ & Hl1 & ->). unfold pay_to_script_hash_signature_script in Hss. bind_inv Hss.
  apply add_data_inv in Ha as (_ & Hl2 & ->). injection Hss as Hss. cbn [app] in Hss.
  unfold pay_to_script_hash_script, pay_to_script_hash in Hspk. bind_inv Hspk. bind_inv Ha. injection Ha as <-. injection Hspk as Hspk.
  assert (zlen (blake2b 32 [] redeem) = 32) as Hh by (unfold zlen; by rewrite blake2b_length).
  unfold from_transaction_input in Hfrom. rewrite <- Hspk in Hfrom. cbn [spk_script] in Hfrom.
  rewrite (proj2 (is_p2sh_iff _)) in Hfrom by eauto. bind_inv Hfrom. injection Hfrom as <- <-.
  unfold execute. rewrite <- Hspk. cbn [spk_version spk_script class_version]. rewrite <- Hss.
  rewrite <- (dilithium_spent tx input idx e true key sig t (fresh_vm cache reused (sig_op_count input))); try done.
  - split; intros [vm' Hvm']; exists vm'; revert Hvm'; apply run_p2sh_iff; try done; apply blake2b_is_bytes.
  - apply Forall_app. split; [done|]. repeat constructor; apply allowed_is_byte; done.
Qed.

(** The signature cache confuses signatures.  Its key has only the first
    32 bytes of the signature and of the verification key, so once one signature
    was checked, any other signature and key that begin with the same bytes get, for the same
    message, the answer of the first check, whether or not they verify: an
    invalid signature is accepted after a valid one, and a valid one
    refused after an invalid one. *)
Theorem sig_cache_prefix tx input idx e b t key sig key' sig' vm :
  2 <= sig_op_remaining (runtime_sig_op_counter vm) -> cache_size (sig_cache vm) <> 0%nat ->
  zlen sig = DILITHIUM2_SIG_SIZE -> zlen key = DILITHIUM2_VK_SIZE ->
  zlen sig' = DILITHIUM2_SIG_SIZE -> zlen key' = DILITHIUM2_VK_SIZE ->
  take 32 sig' = take 32 sig -> take 32 key' = take 32 key ->
  inputs (ptx tx) !! idx = Some input -> entries tx !! idx = Some e -> reused_ok (ptx tx) (reused_values vm) ->
  let src := TxInput tx input idx e b in
  let msg := signed_message tx idx input e t in
  cache_get (sig_cache vm) (cache_key key sig msg) = None ->
  exists vm1 vm2, check_dilithium_signature src t key sig vm = (Ok (ml_dsa_44_verify key msg [] sig), vm1) /\
    check_dilithium_signature src t key' sig' vm1 = (Ok (ml_dsa_44_verify key msg [] sig), vm2).
Proof.
  intros Hrem Hc Hsig Hkey Hsig' Hkey' Hps Hpk Hinp Hent Hr src msg Hnone.
  destruct (check_dilithium_verdict tx input idx e b t key sig vm input e) as (vm1 & Hcheck & Hafter & Hcached); [done || lia..|].
  fold msg in Hcheck, Hcached. unfold verdict in Hcheck at 1. unfold verdict in Hcached. rewrite Hnone in Hcheck, Hcached.
  destruct Hafter as (_ & _ & _ & _ & Hcount & Hr1).
  destruct (check_dilithium_verdict tx input idx e b t key' sig' vm1 input e) as (vm2 & Hcheck' & _); try done.
  { rewrite Hcount. cbn. lia. }
  exists vm1, vm2. split; [done|]. fold src in Hcheck'. rewrite Hcheck'. fold msg. unfold verdict.
  unfold cache_key in *. rewrite Hps, Hpk. by rewrite Hcached.
Qed.

(** ** The static count of signature operations *)
(** Push the number 1; in a branch that is not taken, [Op16 OpCheckMultiSig]. *)
Definition branch_redeem : bytes := [0x51; 0x00; 0x63; 0x60; 0xae; 0x68].
Lemma branch_redeem_runs src cache reused counter :
  exists vm', script_run src branch_redeem false (mkVM [] [] cache reused [] 0 counter) vm' [[1]].
Proof. eexists. split; vm_compute; reflexivity. Qed.
Lemma count_pushed sig h redeem : is_bytes sig -> is_bytes redeem -> is_bytes h -> zlen h = 32 ->
  zlen redeem <= MAX_SCRIPT_ELEMENT_SIZE -> zlen sig <= MAX_SCRIPT_ELEMENT_SIZE -> op_data (data_op redeem) = redeem ->
  get_sig_op_count_upper_bound (E:=unit) (op_serialize (data_op sig) ++ op_serialize (data_op redeem))
    {| spk_version := 0; spk_script := p2sh_script h |} = get_sig_op_count_by_opcodes (parse_script redeem).
Proof.
  intros Hsb Hrb Hb Hh Hrl Hsl Hop. unfold MAX_SCRIPT_ELEMENT_SIZE in *. unfold get_sig_op_count_upper_bound. cbn [spk_script].
  rewrite (proj2 (is_p2sh_iff _)) by eauto. cbn [negb].
  rewrite parse_op by (apply data_op_wf; [done|lia]). rewrite <- (app_nil_r (op_serialize (data_op redeem))).
  rewrite parse_op by (apply data_op_wf; [done|lia]). change (parse_script []) with (@nil (result OpCode)).
  assert (forall d, zlen d <= 4096 -> is_push_opcode (data_op d) = true) as Hpush.
  { intros d Hd. apply push_flags. destruct (data_op_cases d); cbn [op_value]; lia. }
  cbn [forallb push_only]. rewrite !Hpush by done. cbn [andb negb last]. by rewrite Hop.
Qed.

(** [get_sig_op_count_upper_bound] is not an upper bound, and can panic.
    For the standard spend of a Dilithium output it counts no signature operation, while
    running the redeem script takes one.  And for a redeem script that has
    [Op16 OpCheckMultiSig] in a branch that is not taken it panics, although the
    script runs and can be spent. *)
Theorem sig_op_bound_faults key sig h tx input idx e b t vm :
  is_bytes key -> zlen key = DILITHIUM2_VK_SIZE -> is_bytes (sig ++ [t]) -> zlen sig = DILITHIUM2_SIG_SIZE ->
  t ∈ ALLOWED_SIG_HASH_TYPES_VALUES -> is_bytes h -> zlen h = 32 ->
  quiet vm -> dstack vm = [sig ++ [t]] -> 1 <= sig_op_remaining (runtime_sig_op_counter vm) ->
  inputs (ptx tx) !! idx = Some input -> entries tx !! idx = Some e -> reused_ok (ptx tx) (reused_values vm) ->
  let src := TxInput tx input idx e b in
  let spk := {| spk_version := 0; spk_script := p2sh_script h |} in
  let redeem := op_serialize (data_op key) ++ [0xc4] in
  (get_sig_op_count_upper_bound (E:=unit) (op_serialize (data_op (sig ++ [t])) ++ op_serialize (data_op redeem)) spk = Ok 0 /\
   exists vm' s, script_run src redeem false vm vm' s /\
     sig_op_remaining (runtime_sig_op_counter vm') = sig_op_remaining (runtime_sig_op_counter vm) - 1) /\
  (get_sig_op_count_upper_bound (E:=unit) (op_serialize (data_op (sig ++ [t])) ++ op_serialize (data_op branch_redeem)) spk = Panic /\
   exists vm', script_run src branch_redeem false (with_dstack vm []) vm' [[1]]).
Proof.
  intros Hkb Hkey Hsb Hsig Ht Hb Hh Hq Hd Hrem Hinp Hent Hr src spk redeem.
  assert (zlen (sig ++ [t]) <= MAX_SCRIPT_ELEMENT_SIZE) as Hsl by (rewrite zlen_app, Hsig; done).
  assert (zlen redeem = 1316) as Hrl by by apply redeem_size. split; split.
  - subst spk. rewrite count_pushed; [|done| |done|done|rewrite Hrl; done|done|].
    + unfold redeem. by rewrite (proj2 (redeem_ops key Hkb Hkey)), key_op.
    + subst redeem. rewrite key_serialized by done. repeat apply Forall_app_2; try done; repeat constructor; unfold is_digit; lia.
    + unfold data_op. rewrite Hrl. done.
  - destruct (run_redeem tx input idx e b t key sig vm input e) as (vm' & Hrun & Hcount); [done..|].
    eexists vm', _. split; [done|]. by rewrite Hcount.
  - subst spk. rewrite count_pushed; [vm_compute; reflexivity|done| |done|done|done|done|done].
    repeat constructor; unfold is_digit; lia.
  - destruct Hq as (Hc & Ha & Hn). destruct vm as [ds als cache reused cond n counter]. cbn in *. subst.
    apply branch_redeem_runs.
Qed.
End dilithium.

(** ** Concrete spends *)
Definition demo_key : bytes := repeat 1 1312.
Definition demo_sig (last : Z) : bytes := repeat 2 2419 ++ [last].
Definition demo_redeem : bytes := [0x4d; 0x20; 0x05] ++ demo_key ++ [0xc4].
Definition demo_hash : bytes := blake2b (Blake2b:=toy_blake2b) 32 [] demo_redeem.
Definition demo_entry : UtxoEntry := {|
  amount := 5; script_public_key := {| spk_version := 0; spk_script := p2sh_script demo_hash |};
  block_daa_score := 0; is_coinbase_entry := false |}.
Definition demo_signature_script : bytes := op_serialize (data_op (demo_sig 2 ++ [SIG_HASH_ALL])) ++ op_serialize (data_op demo_redeem).
Definition demo_input : TransactionInput := {|
  previous_outpoint := {| transaction_id := 7; index := 0 |}; signature_script := demo_signature_script; sequence := 0; sig_op_count := 2 |}.
Definition demo_tx : PopulatedTransaction := {|
  ptx := {| version := 0; inputs := [demo_input]; outputs := []; lock_time := 0; subnetwork_id := SUBNETWORK_ID_NATIVE; gas := 0;
            payload := []; mass := 0; id := 0 |};
  entries := [demo_entry] |}.
Definition demo_source : ScriptSource := TxInput demo_tx demo_input 0 demo_entry (is_pay_to_script_hash (p2sh_script demo_hash)).
Definition demo_vm : VM := fresh_vm (mkCache ∅ 1) reused_default 2.
Lemma demo_hash_length : zlen demo_hash = 32.
Proof. unfold zlen, demo_hash. by rewrite blake2b_length. Qed.
Lemma demo_hash_bytes : is_bytes demo_hash.
Proof. apply blake2b_is_bytes. Qed.
Lemma repeat_bytes x n : is_digit 256 x -> is_bytes (repeat x n).
Proof. intros. induction n; simpl; constructor; done. Qed.
Lemma demo_key_bytes : is_bytes demo_key.
Proof. apply repeat_bytes. done. Qed.
Lemma demo_sig_bytes x : is_digit 256 x -> is_bytes (demo_sig x).
Proof. intros. apply Forall_app. split; [by apply repeat_bytes|by apply Forall_singleton]. Qed.
Lemma demo_from : from_transaction_input (E:=TxScriptError) demo_tx demo_input 0 demo_entry reused_default (mkCache ∅ 1) = Ok (demo_source, demo_vm).
Proof. unfold from_transaction_input. cbn [inputs ptx demo_tx length Nat.ltb Nat.leb]. reflexivity. Qed.
Lemma demo_spk : pay_to_script_hash_script (E:=ScriptBuilderError) (H:=toy_blake2b) demo_redeem = Ok (script_public_key demo_entry).
Proof.
  unfold pay_to_script_hash_script, pay_to_script_hash. fold demo_hash. rewrite demo_hash_length. reflexivity.
Qed.

Lemma p2sh_spend_witness :
  execute demo_source demo_vm = (Ok tt, demo_vm) <-> p2sh_spent demo_source demo_signature_script demo_hash demo_vm demo_vm.
Proof.
  exact (p2sh_spend demo_tx demo_input 0 demo_entry demo_hash reused_default (mkCache ∅ 1) demo_source demo_vm demo_vm
    demo_hash_bytes demo_hash_length eq_refl eq_refl demo_from).
Defined.
Lemma dilithium_spend_witness : (exists vm', execute demo_source demo_vm = (Ok tt, vm')) <->
  verdict (mkCache ∅ 1) demo_key (demo_sig 2) (signed_message demo_tx 0 demo_input demo_entry SIG_HASH_ALL) = true.
Proof.
  refine (dilithium_spend demo_tx demo_input 0 demo_entry demo_key (demo_sig 2) SIG_HASH_ALL demo_redeem
    (op_serialize (data_op (demo_sig 2 ++ [SIG_HASH_ALL]))) reused_default (mkCache ∅ 1) demo_source demo_vm
    demo_key_bytes _ (demo_sig_bytes 2 _) _ _ _ demo_spk _ _ eq_refl eq_refl _ (reused_default_ok _) demo_from).
  all: try (vm_compute; reflexivity).
  - done.
  - left.
  - done.
Defined.
Lemma sig_cache_prefix_witness : exists vm1 vm2,
  let msg := signed_message demo_tx 0 demo_input demo_entry SIG_HASH_ALL in
  check_dilithium_signature demo_source SIG_HASH_ALL demo_key (demo_sig 2) demo_vm =
    (Ok (ml_dsa_44_verify demo_key msg [] (demo_sig 2)), vm1) /\
  check_dilithium_signature demo_source SIG_HASH_ALL demo_key (demo_sig 3) vm1 =
    (Ok (ml_dsa_44_verify demo_key msg [] (demo_sig 2)), vm2).
Proof.
  apply (sig_cache_prefix demo_tx demo_input 0 demo_entry (is_pay_to_script_hash (p2sh_script demo_hash)) SIG_HASH_ALL
    demo_key (demo_sig 2) demo_key (demo_sig 3) demo_vm); try reflexivity; try done; apply reused_default_ok.
Defined.
Lemma sig_op_bound_faults_witness :
  let spk := {| spk_version := 0; spk_script := p2sh_script demo_hash |} in
  get_sig_op_count_upper_bound (E:=unit) (op_serialize (data_op (demo_sig 2 ++ [SIG_HASH_ALL])) ++ op_serialize (data_op branch_redeem)) spk = Panic.
Proof.
  refine (proj1 (proj2 (sig_op_bound_faults demo_key (demo_sig 2) demo_hash demo_tx demo_input 0 demo_entry false SIG_HASH_ALL
    (with_dstack demo_vm [demo_sig 2 ++ [SIG_HASH_ALL]]) demo_key_bytes _ _ _ _ demo_hash_bytes demo_hash_length _ eq_refl _ eq_refl eq_refl
    (reused_default_ok _)))).
  - reflexivity.
  - apply Forall_app. split; [by apply demo_sig_bytes|by apply Forall_singleton].
  - reflexivity.
  - left.
  - done.
  - done.
Defined.
