(* ===== verification/Alt.v ===== *)
(** * Address lookup tables

    The wire format of ALT outputs, [consensus/core/src/alt/mod.rs] (the
    classifier, the two parsers and the entry iterator) and
    [consensus/core/src/alt/codec.rs] (the encoders).

    A creation script is a 22-byte header followed by length-prefixed entries;
    its handle is the first six bytes of the SHA3-384 of the entries.  The
    parser's loop over the entries is fuelled: every round consumes at least
    four bytes, so one round more than the section has bytes is enough, which
    the totality theorem confirms.  The theorems show that the parser accepts
    exactly the scripts the encoder produces, that the iterator then yields
    the encoded entries, and that no script at all makes the parser panic. *)
From stdpp Require Import strings.
From S2P Require Import Prelude Encode.

(** ** Constants *)
Definition ALT_DISCRIMINATOR_REFERENCE : u8 := 0xFD.
Definition ALT_DISCRIMINATOR_CREATION : u8 := 0xFE.
Definition ALT_MAGIC : bytes := bytes_of_string "SPHS-AL1".
Definition ALT_HEADER_LEN : usize := 22.
Definition ALT_HANDLE_LEN : usize := 6.
Definition ALT_REFERENCE_LEN : usize := 8.
Definition MAX_ALT_ENTRIES : u16 := 256.
Definition MAX_ALT_ENTRY_SCRIPT_BYTES : u16 := 4096.
Definition MAX_ALT_CREATIONS_PER_TX : usize := 4.
Definition BASE_ALT_CREATION_MASS : u64 := 100000.
Definition ALT_STORAGE_MASS_FACTOR : u64 := 1.
(** [constants::MAX_SCRIPT_PUBLIC_KEY_VERSION]; the script engine has a
    constant of the same name. *)
Definition MAX_SPK_VERSION : u16 := 5.

(** ** Data *)
Record AltCreationHeader := {
  alt_flags : u8;
  entry_count : u16;
  payload_len : u32;
  handle : bytes;
}.
Record AltReference := {
  ref_handle : bytes;
  ref_index : u8;
}.
Record AltEntryView := {
  entry_spk_version : u16;
  entry_spk_script : bytes;
}.

Inductive AltCreationError :=
| HeaderTruncated (actual : usize)
| BadMagic
| ReservedNonZero (b : u8)
| ReservedFlagBitSet (flags : u8)
| BadEntryCount (c : u16)
| LengthMismatch (actual expected : usize)
| EntriesLenMismatch (decoded : usize) (expected : u32)
| EntryBadSpkVersion (entry version : u16)
| EntryScriptTooLarge (entry len : u16)
| HandleMismatch (declared computed : bytes).
Inductive AltReferenceError :=
| BadLength (actual : usize).
Inductive AltScriptKind := Reference | Creation.
#[export] Instance AltScriptKind_eq_dec : EqDecision AltScriptKind.
Proof. solve_decision. Defined.

(** ** Encoders *)
Section codec.
Context `{Sha3}.

Definition alt_handle_of (entries_canonical_bytes : bytes) : bytes :=
  take (Z.to_nat ALT_HANDLE_LEN) (sha3_384 entries_canonical_bytes).

(** The per-entry checks, in order, and the entries section. *)
Fixpoint check_entries (idx : Z) (entries : list (Z * bytes)) : res AltCreationError unit :=
  match entries with
  | [] => Ok tt
  | (ver, body) :: entries =>
      _ ← fail_if (MAX_SPK_VERSION <? ver) (EntryBadSpkVersion (wrap 16 idx) ver);
      _ ← fail_if (MAX_ALT_ENTRY_SCRIPT_BYTES <? zlen body) (EntryScriptTooLarge (wrap 16 idx) (wrap 16 (zlen body)));
      check_entries (idx + 1) entries
  end.
Definition entry_bytes (e : Z * bytes) : bytes :=
  digits 256 2 e.1 ++ digits 256 2 (wrap 16 (zlen e.2)) ++ e.2.
Definition entries_bytes (entries : list (Z * bytes)) : bytes := concat (map entry_bytes entries).

Definition encode_alt_creation_script (entries : list (Z * bytes)) : res AltCreationError bytes :=
  _ ← fail_if ((zlen entries =? 0) || (MAX_ALT_ENTRIES <? zlen entries)) (BadEntryCount (wrap 16 (zlen entries)));
  _ ← check_entries 0 entries;
  let section := entries_bytes entries in
  let plen := wrap 32 (zlen section) in
  let raw_count := if zlen entries =? MAX_ALT_ENTRIES then 0 else wrap 8 (zlen entries) in
  Ok ([ALT_DISCRIMINATOR_CREATION] ++ ALT_MAGIC ++ [0] ++ [0] ++ [raw_count] ++ digits 256 4 plen ++
      alt_handle_of section ++ section).

Definition encode_alt_reference_script (h : bytes) (index : u8) : bytes :=
  [ALT_DISCRIMINATOR_REFERENCE] ++ h ++ [index].

(** ** Parsers *)
Definition decode_entry_count (byte : u8) : u16 := if byte =? 0 then MAX_ALT_ENTRIES else byte.

Definition hash_canonical_payload (script : bytes) : res AltCreationError bytes :=
  body ← slice script ALT_HEADER_LEN (zlen script);
  Ok (take (Z.to_nat ALT_HANDLE_LEN) (sha3_384 body)).

(** [u16::saturating_add(1)] *)
Definition sat_incr16 (n : u16) : u16 := Z.min (n + 1) (2 ^ 16 - 1).

Definition u16_at {E} (b : bytes) (i : usize) : res E u16 :=
  b0 ← at_ b i; b1 ← at_ b (i + 1); Ok (undigits 256 [b0; b1]).

(** The loop over the entries section: the final cursor and entry count. *)
Fixpoint walk_entries (fuel : nat) (section : bytes) (plen : u32) (cursor : usize) (decoded : u16)
    : res AltCreationError (Z * Z) :=
  match fuel with
  | O => NoFuel
  | S fuel =>
      if cursor <? zlen section then
        _ ← fail_if (zlen section - cursor <? 4) (EntriesLenMismatch cursor plen);
        spk_version ← u16_at section cursor;
        spk_len ← u16_at section (cursor + 2);
        _ ← fail_if (MAX_SPK_VERSION <? spk_version) (EntryBadSpkVersion decoded spk_version);
        _ ← fail_if (MAX_ALT_ENTRY_SCRIPT_BYTES <? spk_len) (EntryScriptTooLarge decoded spk_len);
        let entry_total := 4 + spk_len in
        _ ← fail_if (zlen section - cursor <? entry_total) (EntriesLenMismatch cursor plen);
        walk_entries fuel section plen (cursor + entry_total) (sat_incr16 decoded)
      else Ok (cursor, decoded)
  end.

Definition parse_alt_creation_header (script : bytes) : res AltCreationError AltCreationHeader :=
  _ ← fail_if (zlen script <? ALT_HEADER_LEN) (HeaderTruncated (zlen script));
  b0 ← at_ script 0;
  _ ← fail_if (negb (b0 =? ALT_DISCRIMINATOR_CREATION)) BadMagic;
  magic ← slice script 1 9;
  _ ← fail_if (negb (bool_decide (magic = ALT_MAGIC))) BadMagic;
  flags ← at_ script 9;
  _ ← fail_if (negb (flags =? 0)) (ReservedFlagBitSet flags);
  reserved ← at_ script 10;
  _ ← fail_if (negb (reserved =? 0)) (ReservedNonZero reserved);
  raw_count ← at_ script 11;
  let count := decode_entry_count raw_count in
  _ ← fail_if ((count =? 0) || (MAX_ALT_ENTRIES <? count)) (BadEntryCount count);
  lb ← slice script 12 16;
  let plen := undigits 256 lb in
  let expected_len := ALT_HEADER_LEN + plen in
  _ ← fail_if (negb (zlen script =? expected_len)) (LengthMismatch (zlen script) expected_len);
  h ← slice script 16 (16 + ALT_HANDLE_LEN);
  section ← slice script ALT_HEADER_LEN (zlen script);
  '(cursor, decoded) ← walk_entries (S (length section)) section plen 0 0;
  _ ← fail_if (negb (cursor =? plen) || negb (decoded =? count)) (EntriesLenMismatch cursor plen);
  computed ← hash_canonical_payload script;
  _ ← fail_if (negb (bool_decide (h = computed))) (HandleMismatch h computed);
  Ok {| alt_flags := flags; entry_count := count; payload_len := plen; handle := h |}.

(** [AltEntriesIter::next], and the iterator run to its end. *)
Definition entries_next {E} (rest : bytes) : res E (option (AltEntryView * bytes)) :=
  if zlen rest <? 4 then Ok None else
  v ← u16_at rest 0;
  l ← u16_at rest 2;
  s ← slice rest 4 (4 + l);
  rest' ← slice rest (4 + l) (zlen rest);
  Ok (Some ({| entry_spk_version := v; entry_spk_script := s |}, rest')).
Fixpoint entries_collect {E} (fuel : nat) (rest : bytes) : res E (list AltEntryView) :=
  match fuel with
  | O => NoFuel
  | S fuel =>
      n ← entries_next rest;
      match n with
      | None => Ok []
      | Some (e, rest) => es ← entries_collect fuel rest; Ok (e :: es)
      end
  end.
Definition iter_alt_entries {E} (script : bytes) : res E (list AltEntryView) :=
  section ← slice script ALT_HEADER_LEN (zlen script);
  entries_collect (S (length section)) section.
End codec.

Definition parse_alt_reference (script : bytes) : res AltReferenceError AltReference :=
  _ ← fail_if (negb (zlen script =? ALT_REFERENCE_LEN)) (BadLength (zlen script));
  h ← slice script 1 (1 + ALT_HANDLE_LEN);
  i ← at_ script (1 + ALT_HANDLE_LEN);
  Ok {| ref_handle := h; ref_index := i |}.

Definition classify_alt_script (script : bytes) : option AltScriptKind :=
  match script with
  | [] => None
  | b :: _ =>
      if b =? ALT_DISCRIMINATOR_REFERENCE then Some Reference
      else if b =? ALT_DISCRIMINATOR_CREATION then Some Creation
      else None
  end.

(** ** Lemmas *)
Definition wf_entry (e : Z * bytes) : Prop :=
  0 <= e.1 <= MAX_SPK_VERSION /\ is_bytes e.2 /\ zlen e.2 <= MAX_ALT_ENTRY_SCRIPT_BYTES.
Definition view (e : Z * bytes) : AltEntryView :=
  {| entry_spk_version := e.1; entry_spk_script := e.2 |}.

Lemma u16_at_ok {E} (b p q r : bytes) i :
  b = p ++ q ++ r -> zlen p = i -> zlen q = 2 -> u16_at (E:=E) b i = Ok (undigits 256 q).
Proof.
  intros -> Hp Hq. destruct (zlen_2 q Hq) as (x & y & ->).
  unfold u16_at. rewrite (at_ok _ p (y :: r) i x) by done. cbn [mbind res_bind].
  rewrite (at_ok _ (p ++ [x]) r (i + 1) y); [done|by rewrite <- app_assoc|].
  rewrite zlen_app. change (zlen [x]) with 1. lia.
Qed.

Lemma entry_bytes_cut e : wf_entry e ->
  entry_bytes e = digits 256 2 e.1 ++ digits 256 2 (zlen e.2) ++ e.2.
Proof.
  intros (_ & _ & Hl). unfold entry_bytes. rewrite wrap_small; [done|].
  unfold inW, MAX_ALT_ENTRY_SCRIPT_BYTES in *. pose proof (zlen_nonneg e.2). lia.
Qed.
Lemma zlen_entry_bytes e : zlen (entry_bytes e) = 4 + zlen e.2.
Proof. unfold entry_bytes. rewrite !zlen_app, !zlen_digits. lia. Qed.
Lemma entries_bytes_cons e es : entries_bytes (e :: es) = entry_bytes e ++ entries_bytes es.
Proof. done. Qed.
Lemma undigits_2 n : 0 <= n < 65536 -> undigits 256 (digits 256 2 n) = n.
Proof. intros Hn. apply (undigits_digits_small 2). exact Hn. Qed.

Lemma check_entries_ok i es : check_entries i es = Ok tt <->
  Forall (fun e => e.1 <= MAX_SPK_VERSION /\ zlen e.2 <= MAX_ALT_ENTRY_SCRIPT_BYTES) es.
Proof.
  revert i. induction es as [|[v b] es IH]; intros i; simpl; [split; [intros _; by apply Forall_nil|done]|].
  rewrite Forall_cons. simpl. unfold fail_if.
  destruct (Z.ltb_spec MAX_SPK_VERSION v); simpl; [split; [done|lia]|].
  destruct (Z.ltb_spec MAX_ALT_ENTRY_SCRIPT_BYTES (zlen b)); simpl; [split; [done|lia]|].
  rewrite IH. intuition lia.
Qed.

(** *** The walk over the entries

    One round on a section whose first [cursor] bytes are [p]. *)
Lemma walk_entries_step fuel section p q1 q2 t plen cursor decoded :
  section = p ++ q1 ++ q2 ++ t -> zlen p = cursor -> zlen q1 = 2 -> zlen q2 = 2 ->
  walk_entries (S fuel) section plen cursor decoded =
    (_ ← fail_if (MAX_SPK_VERSION <? undigits 256 q1) (EntryBadSpkVersion decoded (undigits 256 q1));
     _ ← fail_if (MAX_ALT_ENTRY_SCRIPT_BYTES <? undigits 256 q2) (EntryScriptTooLarge decoded (undigits 256 q2));
     _ ← fail_if (zlen t <? undigits 256 q2) (EntriesLenMismatch cursor plen);
     walk_entries fuel section plen (cursor + (4 + undigits 256 q2)) (sat_incr16 decoded)).
Proof.
  intros Hs Hp H1 H2. cbn [walk_entries]. pose proof (zlen_nonneg t).
  assert (zlen section = cursor + 4 + zlen t) as Hlen by (subst section; rewrite !zlen_app; lia).
  replace (cursor <? zlen section) with true by lia.
  replace (zlen section - cursor <? 4) with false by lia. cbn [fail_if mbind res_bind].
  rewrite (u16_at_ok section p q1 (q2 ++ t) cursor) by done. cbn [mbind res_bind].
  rewrite (u16_at_ok section (p ++ q1) q2 t (cursor + 2))
    by (done || by rewrite <- app_assoc || (rewrite zlen_app; lia)).
  cbn [mbind res_bind].
  by replace (zlen section - cursor <? 4 + undigits 256 q2) with (zlen t <? undigits 256 q2) by lia.
Qed.

Lemma walk_entries_end fuel section plen decoded :
  walk_entries (S fuel) section plen (zlen section) decoded = Ok (zlen section, decoded).
Proof. cbn [walk_entries]. by rewrite Z.ltb_irrefl. Qed.

Lemma walk_entries_ok fuel section p es plen cursor decoded :
  section = p ++ entries_bytes es -> zlen p = cursor -> Forall wf_entry es -> (length es < fuel)%nat ->
  decoded < 2 ^ 16 ->
  walk_entries fuel section plen cursor decoded = Ok (zlen section, Z.min (decoded + zlen es) (2 ^ 16 - 1)).
Proof.
  revert fuel p cursor decoded. induction es as [|e es IH]; intros fuel p cursor decoded Hs Hp Hwf Hf Hd;
    (destruct fuel as [|fuel]; [lia|]).
  { change (entries_bytes []) with (@nil Z) in Hs. rewrite app_nil_r in Hs. subst section cursor.
    rewrite walk_entries_end. do 2 f_equal. change (zlen (@nil (Z * bytes))) with 0. lia. }
  apply Forall_cons in Hwf as [He Hwf]. destruct (He) as ((Hv1 & Hv2) & Hb & Hl).
  pose proof (zlen_nonneg e.2). pose proof (zlen_nonneg (entries_bytes es)).
  pose proof Hs as Hs'. rewrite entries_bytes_cons, (entry_bytes_cut e He), <- !app_assoc in Hs.
  unfold MAX_SPK_VERSION, MAX_ALT_ENTRY_SCRIPT_BYTES in *.
  rewrite (walk_entries_step fuel section p (digits 256 2 e.1) (digits 256 2 (zlen e.2)) (e.2 ++ entries_bytes es))
    by done.
  rewrite !undigits_2 by lia.
  unfold MAX_SPK_VERSION, MAX_ALT_ENTRY_SCRIPT_BYTES. rewrite zlen_app.
  replace (5 <? e.1) with false by lia. replace (4096 <? zlen e.2) with false by lia.
  replace (zlen e.2 + zlen (entries_bytes es) <? zlen e.2) with false by lia. cbn [fail_if mbind res_bind].
  rewrite (IH fuel (p ++ entry_bytes e)).
  - unfold sat_incr16. rewrite zlen_cons. pose proof (zlen_nonneg es). do 2 f_equal. lia.
  - by rewrite <- app_assoc.
  - rewrite zlen_app, zlen_entry_bytes. lia.
  - done.
  - simpl in Hf. lia.
  - unfold sat_incr16. lia.
Qed.

(** Any section splits into a first entry and the rest, or is shorter. *)
Lemma section_cut (r : bytes) : 4 <= zlen r -> exists q1 q2 t, r = q1 ++ q2 ++ t /\ zlen q1 = 2 /\ zlen q2 = 2.
Proof.
  intros Hr. destruct (cut_at r 2) as (q1 & r1 & -> & H1); [lia|]. rewrite zlen_app in Hr.
  destruct (cut_at r1 2) as (q2 & t & -> & H2); [lia|]. by exists q1, q2, t.
Qed.
Lemma entry_parts q1 q2 body : zlen q1 = 2 -> zlen q2 = 2 -> is_bytes q1 -> is_bytes q2 -> is_bytes body ->
  undigits 256 q1 <= MAX_SPK_VERSION -> undigits 256 q2 <= MAX_ALT_ENTRY_SCRIPT_BYTES -> zlen body = undigits 256 q2 ->
  wf_entry (undigits 256 q1, body) /\ entry_bytes (undigits 256 q1, body) = q1 ++ q2 ++ body.
Proof.
  intros H1 H2 Hq1 Hq2 Hb Hv Hl Hlen.
  assert (wf_entry (undigits 256 q1, body)) as Hwf.
  { repeat split; [by apply undigits_nonneg|done..|]. simpl. lia. }
  split; [done|]. rewrite entry_bytes_cut by done. cbn [fst snd].
  by rewrite Hlen, !(digits_undigits_len 2) by done.
Qed.

Lemma walk_entries_inv fuel section p r plen cursor decoded c d :
  section = p ++ r -> zlen p = cursor -> is_bytes r -> decoded < 2 ^ 16 ->
  walk_entries fuel section plen cursor decoded = Ok (c, d) ->
  exists es, r = entries_bytes es /\ Forall wf_entry es /\ c = zlen section /\
    d = Z.min (decoded + zlen es) (2 ^ 16 - 1).
Proof.
  revert p r cursor decoded. induction fuel as [|fuel IH]; [done|]. intros p r cursor decoded Hs Hp Hb Hd Hw.
  assert (zlen section = cursor + zlen r) as Hlen by (subst section; rewrite zlen_app; lia).
  destruct (Z.eq_dec (zlen r) 0) as [Hr|Hr].
  { rewrite (zlen_0 r Hr) in *. exists []. rewrite app_nil_r in Hs. subst p cursor.
    rewrite walk_entries_end in Hw. injection Hw as <- <-. split_and!; [done|by apply Forall_nil|done|].
    change (zlen (@nil (Z * bytes))) with 0. lia. }
  destruct (Z.lt_ge_cases (zlen r) 4) as [Hshort|Hge].
  { cbn [walk_entries] in Hw. pose proof (zlen_nonneg r). replace (cursor <? zlen section) with true in Hw by lia.
    by replace (zlen section - cursor <? 4) with true in Hw by lia. }
  destruct (section_cut r Hge) as (q1 & q2 & t & -> & H1 & H2). clear Hge Hr.
  unfold is_bytes in Hb. rewrite !Forall_app in Hb. destruct Hb as (Hq1 & Hq2 & Ht).
  erewrite walk_entries_step in Hw by done.
  bind_inv Hw. apply fail_if_ok, Z.ltb_ge in Ha. bind_inv Hw. apply fail_if_ok, Z.ltb_ge in Ha0.
  bind_inv Hw. apply fail_if_ok, Z.ltb_ge in Ha1.
  destruct (cut_at t (undigits 256 q2)) as (body & t' & -> & Hbody); [split; [by apply undigits_nonneg|done]|].
  apply Forall_app in Ht as [Hbb Ht].
  destruct (entry_parts q1 q2 body) as [Hwf He]; [done..|].
  apply (IH (p ++ q1 ++ q2 ++ body) t') in Hw as (es & -> & Hes & -> & ->).
  - exists ((undigits 256 q1, body) :: es). rewrite entries_bytes_cons, He, <- !app_assoc.
    split_and!; [done|by constructor|done|]. rewrite zlen_cons. pose proof (zlen_nonneg es). unfold sat_incr16. lia.
  - by rewrite <- !app_assoc.
  - rewrite !zlen_app. lia.
  - done.
  - unfold sat_incr16. lia.
Qed.

(** With a round for every remaining byte the walk neither panics nor runs
    out of fuel. *)
Lemma walk_entries_total fuel section p r plen cursor decoded :
  section = p ++ r -> zlen p = cursor -> (length r < fuel)%nat -> is_bytes r ->
  is_result (walk_entries fuel section plen cursor decoded).
Proof.
  revert p r cursor decoded. induction fuel as [|fuel IH]; [lia|]. intros p r cursor decoded Hs Hp Hf Hb.
  assert (zlen section = cursor + zlen r) as Hlen by (subst section; rewrite zlen_app; lia).
  destruct (Z.lt_ge_cases (zlen r) 4) as [Hshort|Hge].
  { cbn [walk_entries]. destruct (cursor <? zlen section); [|done].
    by replace (zlen section - cursor <? 4) with true by lia. }
  destruct (section_cut r Hge) as (q1 & q2 & t & -> & H1 & H2).
  unfold is_bytes in Hb. rewrite !Forall_app in Hb. destruct Hb as (Hq1 & Hq2 & Ht).
  erewrite walk_entries_step by done. unfold fail_if.
  destruct (MAX_SPK_VERSION <? _); [done|]. destruct (MAX_ALT_ENTRY_SCRIPT_BYTES <? _); [done|].
  destruct (Z.ltb_spec (zlen t) (undigits 256 q2)); [done|]. cbn [mbind res_bind].
  destruct (cut_at t (undigits 256 q2)) as (body & t' & -> & Hbody); [split; [by apply undigits_nonneg|done]|].
  apply Forall_app in Ht as [_ Ht].
  apply (IH (p ++ q1 ++ q2 ++ body) t'); [by rewrite <- !app_assoc|rewrite !zlen_app; lia| |done].
  rewrite !length_app in Hf. unfold zlen in *. lia.
Qed.

(** *** The header *)
Lemma script_cut (script : bytes) : ALT_HEADER_LEN <= zlen script ->
  exists b0 magic f r c lb h section,
    script = b0 :: magic ++ f :: r :: c :: lb ++ h ++ section /\ zlen magic = 8 /\ zlen lb = 4 /\ zlen h = 6.
Proof.
  unfold ALT_HEADER_LEN. intros Hl. destruct script as [|b0 s]; [change (zlen (@nil Z)) with 0 in Hl; lia|].
  rewrite zlen_cons in Hl. destruct (cut_at s 8) as (magic & s1 & -> & H1); [lia|]. rewrite zlen_app in Hl.
  destruct s1 as [|f [|r [|c s1]]]; rewrite ?zlen_cons in Hl; [change (zlen (@nil Z)) with 0 in Hl; lia..|].
  destruct (cut_at s1 4) as (lb & s2 & -> & H2); [lia|]. rewrite zlen_app in Hl.
  destruct (cut_at s2 6) as (h & section & -> & H3); [lia|]. by exists b0, magic, f, r, c, lb, h, section.
Qed.

Section header.
Context `{Sha3}.

Lemma parse_header_cut b0 magic f r c lb h section script :
  script = b0 :: magic ++ f :: r :: c :: lb ++ h ++ section -> zlen magic = 8 -> zlen lb = 4 -> zlen h = 6 ->
  parse_alt_creation_header script =
    (_ ← fail_if (negb (b0 =? ALT_DISCRIMINATOR_CREATION)) BadMagic;
     _ ← fail_if (negb (bool_decide (magic = ALT_MAGIC))) BadMagic;
     _ ← fail_if (negb (f =? 0)) (ReservedFlagBitSet f);
     _ ← fail_if (negb (r =? 0)) (ReservedNonZero r);
     _ ← fail_if ((decode_entry_count c =? 0) || (MAX_ALT_ENTRIES <? decode_entry_count c)) (BadEntryCount (decode_entry_count c));
     _ ← fail_if (negb (zlen script =? ALT_HEADER_LEN + undigits 256 lb))
           (LengthMismatch (zlen script) (ALT_HEADER_LEN + undigits 256 lb));
     '(cursor, decoded) ← walk_entries (S (length section)) section (undigits 256 lb) 0 0;
     _ ← fail_if (negb (cursor =? undigits 256 lb) || negb (decoded =? decode_entry_count c))
           (EntriesLenMismatch cursor (undigits 256 lb));
     _ ← fail_if (negb (bool_decide (h = alt_handle_of section))) (HandleMismatch h (alt_handle_of section));
     Ok {| alt_flags := f; entry_count := decode_entry_count c; payload_len := undigits 256 lb; handle := h |}).
Proof.
  intros Hs Hm Hl Hh. unfold parse_alt_creation_header, hash_canonical_payload, ALT_HEADER_LEN, ALT_HANDLE_LEN.
  assert (zlen script = 22 + zlen section) as Hlen.
  { subst script. rewrite !zlen_cons, zlen_app, !zlen_cons, !zlen_app. lia. }
  pose proof (zlen_nonneg section). replace (zlen script <? 22) with false by lia. cbn [fail_if mbind res_bind].
  assert (forall p i x q, script = p ++ x :: q -> zlen p = i -> at_ (E:=AltCreationError) script i = Ok x) as Hat.
  { intros p i x q H1 H2. by apply (at_ok _ p q). }
  assert (forall p i j q t, script = p ++ q ++ t -> zlen p = i -> zlen q = j - i ->
    slice (E:=AltCreationError) script i j = Ok q) as Hsl.
  { intros p i j q t H1 H2 H3. by apply (slice_ok _ p q t). }
  rewrite (Hat [] 0 b0 _ Hs eq_refl). cbn [mbind res_bind].
  rewrite (Hsl [b0] 1 9 magic _ Hs eq_refl Hm). cbn [mbind res_bind].
  rewrite (Hat (b0 :: magic) 9 f _ Hs) by (rewrite zlen_cons; lia). cbn [mbind res_bind].
  rewrite (Hat (b0 :: magic ++ [f]) 10 r (c :: lb ++ h ++ section)) by position.
  cbn [mbind res_bind].
  rewrite (Hat (b0 :: magic ++ [f; r]) 11 c (lb ++ h ++ section)) by position.
  cbn [mbind res_bind].
  rewrite (Hsl (b0 :: magic ++ [f; r; c]) 12 16 lb (h ++ section)) by position.
  cbn [mbind res_bind].
  rewrite (Hsl (b0 :: magic ++ [f; r; c] ++ lb) 16 (16 + 6) h section) by position.
  cbn [mbind res_bind].
  rewrite (Hsl (b0 :: magic ++ [f; r; c] ++ lb ++ h) 22 (zlen script) section []) by position.
  reflexivity.
Qed.
(** *** Encoding and parsing *)
Definition typed_entry (e : Z * bytes) : Prop := inW 16 e.1 /\ is_bytes e.2.
Definition header_of (es : list (Z * bytes)) : AltCreationHeader := {|
  alt_flags := 0; entry_count := zlen es; payload_len := zlen (entries_bytes es);
  handle := alt_handle_of (entries_bytes es) |}.
Definition raw_count (n : Z) : u8 := if n =? MAX_ALT_ENTRIES then 0 else wrap 8 n.

Lemma decode_raw_count n : 1 <= n <= MAX_ALT_ENTRIES -> decode_entry_count (raw_count n) = n.
Proof.
  unfold MAX_ALT_ENTRIES, decode_entry_count, raw_count, wrap, MAX_ALT_ENTRIES. intros Hn.
  destruct (Z.eqb_spec n 256) as [->|Hne]; [done|]. rewrite Z.mod_small by (change (2 ^ 8) with 256; lia).
  by replace (n =? 0) with false by lia.
Qed.
Lemma raw_decode_count c : is_digit 256 c ->
  1 <= decode_entry_count c <= MAX_ALT_ENTRIES /\ raw_count (decode_entry_count c) = c.
Proof.
  unfold is_digit, decode_entry_count, raw_count, MAX_ALT_ENTRIES, wrap. intros Hc.
  destruct (Z.eqb_spec c 0) as [->|Hne]; [done|]. split; [lia|]. replace (c =? 256) with false by lia.
  apply Z.mod_small. change (2 ^ 8) with 256. lia.
Qed.

Lemma encode_creation_iff es script : Forall typed_entry es ->
  encode_alt_creation_script es = Ok script <->
  1 <= zlen es <= MAX_ALT_ENTRIES /\ Forall wf_entry es /\
  script = ALT_DISCRIMINATOR_CREATION :: ALT_MAGIC ++ 0 :: 0 :: raw_count (zlen es) ::
    digits 256 4 (wrap 32 (zlen (entries_bytes es))) ++ alt_handle_of (entries_bytes es) ++ entries_bytes es.
Proof.
  intros Hty. unfold encode_alt_creation_script. pose proof (zlen_nonneg es) as Hn.
  unfold fail_if. destruct ((zlen es =? 0) || (MAX_ALT_ENTRIES <? zlen es)) eqn:Hc; [split; [done|]; lia|].
  cbn [mbind res_bind]. assert (Forall wf_entry es <-> check_entries 0 es = Ok tt) as Hck.
  { rewrite check_entries_ok, !Forall_forall. rewrite Forall_forall in Hty. split.
    - intros Hw e He. destruct (Hw e He) as ([] & _ & ?). done.
    - intros Hw e He. destruct (Hw e He), (Hty e He) as [[] ?]. done. }
  destruct (check_entries 0 es) as [[]| | |] eqn:Hce; cbn [mbind res_bind].
  - split; [intros [= <-]|intros (_ & _ & ->); done]. split; [lia|]. split; [by apply Hck|done].
  - split; [done|]. intros (_ & Hw & _). apply Hck in Hw. done.
  - split; [done|]. intros (_ & Hw & _). apply Hck in Hw. done.
  - split; [done|]. intros (_ & Hw & _). apply Hck in Hw. done.
Qed.
Lemma zlen_entries_bytes es : Forall wf_entry es -> 4 * zlen es <= zlen (entries_bytes es) <= 4100 * zlen es.
Proof.
  induction 1 as [|e es (_ & _ & He) Hes IH]; [done|].
  rewrite entries_bytes_cons, zlen_app, zlen_entry_bytes, zlen_cons. unfold MAX_ALT_ENTRY_SCRIPT_BYTES in He.
  pose proof (zlen_nonneg e.2). lia.
Qed.
Lemma zlen_handle m : zlen (alt_handle_of m) = 6.
Proof. unfold alt_handle_of, zlen. rewrite length_take, sha3_384_length. done. Qed.
Lemma entries_bytes_is_bytes es : Forall wf_entry es -> is_bytes (entries_bytes es).
Proof.
  induction 1 as [|e es (_ & He & _) Hes IH]; [by apply Forall_nil|].
  rewrite entries_bytes_cons. unfold entry_bytes, is_bytes. rewrite !Forall_app.
  split_and!; [apply digits_range; lia|apply digits_range; lia|done|done].
Qed.

Lemma entries_collect_ok {E} fuel es : Forall wf_entry es -> (length es < fuel)%nat ->
  entries_collect (E:=E) fuel (entries_bytes es) = Ok (map view es).
Proof.
  revert fuel. induction es as [|e es IH]; intros fuel Hwf Hf; (destruct fuel as [|fuel]; [lia|]); [done|].
  apply Forall_cons in Hwf as [He Hwf]. destruct (He) as ((Hv1 & Hv2) & Hb & Hl).
  unfold MAX_SPK_VERSION, MAX_ALT_ENTRY_SCRIPT_BYTES in *.
  pose proof (zlen_nonneg e.2). pose proof (zlen_nonneg (entries_bytes es)).
  rewrite entries_bytes_cons, (entry_bytes_cut e He), <- !app_assoc. cbn [entries_collect]. unfold entries_next.
  rewrite !zlen_app, !zlen_digits.
  replace (Z.of_nat 2 + (Z.of_nat 2 + (zlen e.2 + zlen (entries_bytes es))) <? 4) with false by lia.
  rewrite (u16_at_ok _ [] (digits 256 2 e.1) (digits 256 2 (zlen e.2) ++ e.2 ++ entries_bytes es) 0), undigits_2 by position.
  cbn [mbind res_bind].
  rewrite (u16_at_ok _ (digits 256 2 e.1) (digits 256 2 (zlen e.2)) (e.2 ++ entries_bytes es) 2), undigits_2 by position.
  cbn [mbind res_bind].
  rewrite (slice_ok _ (digits 256 2 e.1 ++ digits 256 2 (zlen e.2)) e.2 (entries_bytes es) 4 (4 + zlen e.2)) by position.
  cbn [mbind res_bind].
  rewrite (slice_ok _ (digits 256 2 e.1 ++ digits 256 2 (zlen e.2) ++ e.2) (entries_bytes es) []) by position.
  cbn [mbind res_bind]. rewrite IH; [done|done|]. simpl in Hf. lia.
Qed.
Lemma iter_alt_entries_ok {E} hd es : Forall wf_entry es -> zlen hd = ALT_HEADER_LEN ->
  iter_alt_entries (E:=E) (hd ++ entries_bytes es) = Ok (map view es).
Proof.
  intros Hwf Hhd. unfold iter_alt_entries. rewrite (slice_ok _ hd (entries_bytes es) []) by position.
  cbn [mbind res_bind]. apply entries_collect_ok; [done|].
  pose proof (zlen_entries_bytes es Hwf). unfold zlen in *. lia.
Qed.

Lemma parse_encoded es script : Forall typed_entry es -> encode_alt_creation_script es = Ok script ->
  parse_alt_creation_header script = Ok (header_of es) /\
  (forall E, iter_alt_entries (E:=E) script = Ok (map view es)).
Proof.
  intros Hty He. apply encode_creation_iff in He as (Hn & Hwf & Hs); [|done].
  pose proof (zlen_entries_bytes es Hwf) as Hlen. pose proof (zlen_handle (entries_bytes es)) as Hh.
  unfold MAX_ALT_ENTRIES in Hn. rewrite wrap_small in Hs by (unfold inW; lia). split.
  - erewrite parse_header_cut by (done || apply zlen_digits).
    rewrite (undigits_digits_small 4) by (unfold inW; simpl; lia).
    rewrite decode_raw_count by (unfold MAX_ALT_ENTRIES; lia). unfold fail_if.
    rewrite !bool_decide_true by done. unfold MAX_ALT_ENTRIES, ALT_HEADER_LEN. cbn [mbind res_bind negb Z.eqb].
    replace ((zlen es =? 0) || (256 <? zlen es)) with false by lia. cbn [mbind res_bind].
    replace (zlen script =? 22 + zlen (entries_bytes es)) with true
      by (subst script; autorewrite with zlen; change (zlen ALT_MAGIC) with 8; lia). cbn [mbind res_bind negb].
    rewrite (walk_entries_ok _ _ [] es) by (done || (unfold zlen in *; lia)). cbn [mbind res_bind].
    replace (Z.min (0 + zlen es) (2 ^ 16 - 1)) with (zlen es) by lia. rewrite !Z.eqb_refl. done.
  - intros E. rewrite Hs.
    apply (iter_alt_entries_ok (E:=E) (ALT_DISCRIMINATOR_CREATION :: ALT_MAGIC ++ 0 :: 0 :: raw_count (zlen es) ::
      digits 256 4 (zlen (entries_bytes es)) ++ alt_handle_of (entries_bytes es))) in Hwf as Hit.
    + by rewrite <- Hit; f_equal.
    + autorewrite with zlen. change (zlen ALT_MAGIC) with 8. unfold ALT_HEADER_LEN. lia.
Qed.

Lemma parse_canonical script h : is_bytes script -> parse_alt_creation_header script = Ok h ->
  exists es, Forall typed_entry es /\ encode_alt_creation_script es = Ok script.
Proof.
  intros Hb Hp. destruct (Z.lt_ge_cases (zlen script) ALT_HEADER_LEN) as [Hs|Hs].
  { unfold parse_alt_creation_header in Hp. by replace (zlen script <? ALT_HEADER_LEN) with true in Hp by lia. }
  destruct (script_cut script Hs) as (b0 & magic & f & r & c & lb & hd & section & Heq & Hm & Hlb & Hhd).
  rewrite (parse_header_cut b0 magic f r c lb hd section script Heq Hm Hlb Hhd) in Hp.
  guards Hp. apply bind_ok in Hp as ([cursor decoded] & Hw & Hp). guards Hp.
  rewrite Heq in Hb. unfold is_bytes in Hb. rewrite ?Forall_cons, ?Forall_app, ?Forall_cons, ?Forall_app in Hb.
  destruct Hb as (_ & _ & _ & _ & Hc & Hlbb & Hhb & Hsb).
  apply (walk_entries_inv _ section [] section) in Hw as (es & -> & Hes & -> & ->); [|done..].
  exists es. assert (Forall typed_entry es) as Hty.
  { eapply Forall_impl; [exact Hes|]. intros e ((? & ?) & ? & _). split; [|done].
    unfold inW, MAX_SPK_VERSION in *. lia. }
  split; [done|]. apply encode_creation_iff; [done|].
  destruct (raw_decode_count c Hc) as [Hcr Hcc]. pose proof (zlen_nonneg es).
  unfold MAX_ALT_ENTRIES in *. apply orb_false_iff in Hg5 as [Hcur Hdec]. apply negb_false_iff, Z.eqb_eq in Hcur, Hdec.
  assert (zlen es = decode_entry_count c) as Hn by lia. rewrite Hn, Hcc.
  repeat match goal with H : negb (bool_decide _) = false |- _ =>
    apply negb_false_iff, bool_decide_eq_true in H end.
  repeat match goal with H : negb (_ =? _) = false |- _ => apply negb_false_iff, Z.eqb_eq in H end.
  subst. split_and!; [lia..|done|]. repeat f_equal.
  rewrite Hcur, wrap_small, digits_undigits_len; [done|done|lia|].
  pose proof (undigits_range 256 ltac:(lia) lb Hlbb). rewrite Hlb in *. unfold inW. lia.
Qed.
End header.

(** No byte string makes the parser panic or run out of fuel. *)
Lemma alt_parse_total_lemma `{Sha3} script : is_bytes script -> is_result (parse_alt_creation_header script).
Proof.
  intros Hb. destruct (Z.lt_ge_cases (zlen script) ALT_HEADER_LEN) as [Hs|Hs].
  { unfold parse_alt_creation_header. by replace (zlen script <? ALT_HEADER_LEN) with true by lia. }
  destruct (script_cut script Hs) as (b0 & magic & f & r & c & lb & hd & section & Heq & Hm & Hlb & Hhd).
  rewrite (parse_header_cut b0 magic f r c lb hd section script Heq Hm Hlb Hhd).
  repeat apply is_result_fail_if.
  assert (is_bytes section) as Hsb.
  { rewrite Heq in Hb. unfold is_bytes in *. rewrite ?Forall_cons, ?Forall_app, ?Forall_cons, ?Forall_app in Hb. by apply Hb. }
  pose proof (walk_entries_total (S (length section)) section [] section (undigits 256 lb) 0 0 eq_refl eq_refl
    ltac:(lia) Hsb) as Ht.
  destruct (walk_entries _ _ _ _ _) as [[cursor decoded]| | |]; [|done..]. cbn [mbind res_bind].
  by repeat apply is_result_fail_if.
Qed.

(** ** Theorems *)

(** A byte string parses as an ALT creation exactly when it is the
    encoding of some list of entries, and then the header and the entries the
    iterator yields are the encoded ones: the format has no second encoding of
    a table, and every script the encoder returns is accepted.  On any other
    byte string the parser returns an error: it never panics or loops. *)
Theorem alt_creation_exact `{Sha3} script : is_bytes script ->
  is_result (parse_alt_creation_header script) /\
  forall h, parse_alt_creation_header script = Ok h <->
  exists es, Forall typed_entry es /\ encode_alt_creation_script es = Ok script /\
    iter_alt_entries (E:=AltCreationError) script = Ok (map view es) /\ h = header_of es.
Proof.
  intros Hb. split; [by apply alt_parse_total_lemma|]. intros h. split.
  - intros Hp. destruct (parse_canonical script h Hb Hp) as (es & Hty & He). exists es.
    destruct (parse_encoded es script Hty He) as [Hp' Hit]. split_and!; [done..|]. congruence.
  - intros (es & Hty & He & _ & ->). by apply parse_encoded.
Qed.

Definition sample_entries : list (Z * bytes) := [(0, [1; 2; 3]); (5, [])].
Definition sample_script : bytes :=
  match encode_alt_creation_script (H:=toy_sha3) sample_entries with Ok s => s | _ => [] end.
Lemma alt_creation_exact_witness :
  exists h, parse_alt_creation_header (H:=toy_sha3) sample_script = Ok h /\ entry_count h = 2.
Proof.
  exists (header_of (H:=toy_sha3) sample_entries). split; [|done].
  apply (proj2 (alt_creation_exact (H:=toy_sha3) sample_script ltac:(apply is_bytes_compute; by vm_compute))).
  exists sample_entries. split; [|by vm_compute].
  by repeat constructor; simpl; try lia; apply is_bytes_compute.
Defined.

(** A reference script carries its handle and index. *)
Theorem alt_reference_roundtrip h i : zlen h = ALT_HANDLE_LEN ->
  classify_alt_script (encode_alt_reference_script h i) = Some Reference /\
  parse_alt_reference (encode_alt_reference_script h i) = Ok {| ref_handle := h; ref_index := i |}.
Proof.
  intros Hh. unfold ALT_HANDLE_LEN in Hh. split; [done|]. unfold parse_alt_reference, encode_alt_reference_script.
  autorewrite with zlen. rewrite Hh. cbn [fail_if mbind res_bind]. unfold ALT_HANDLE_LEN.
  rewrite (slice_ok _ [ALT_DISCRIMINATOR_REFERENCE] h [i]) by position. cbn [mbind res_bind].
  rewrite (at_ok _ ([ALT_DISCRIMINATOR_REFERENCE] ++ h) [] _ i) by position. done.
Qed.
