(* ===== verification/Da.v ===== *)
(** * Data-availability carriers

    The carrier format of [consensus/core/src/da/mod.rs]
    ([parse_carrier_header]) and the codec of [consensus/core/src/da/codec.rs]
    ([encode_carrier_script], [encode_single_fragment], [encode_bundle],
    [reassemble], [parse_and_reassemble]).

    A blob is split into at most 32 fragments of at most 64 KiB; each travels
    in a carrier script of a 64-byte header followed by data, and all carry
    the SHA3-384 of the blob.  The theorems show that the fragments of a blob
    reassemble to it in whatever order they arrive, that whatever reassembles
    is the blob its identifier names unless SHA3-384 collides, that the header
    parser accepts exactly the encodings with consistent flags, and that
    reassembly never panics, also on hand-built headers. *)
From stdpp Require Import strings.
From S2P Require Import Prelude Encode.

(** ** Constants *)
Definition CARRIER_MAGIC : bytes := bytes_of_string "SPHS-DA1".
Definition CARRIER_HEADER_LEN : usize := 64.
Definition CARRIER_PAYLOAD_HASH_LEN : usize := 48.
Definition MAX_FRAGMENTS : u8 := 32.
Definition MAX_DATA_PER_CARRIER : u32 := 65536.
Definition MAX_CARRIER_OUTPUTS_PER_TX : usize := 8.
Definition CARRIER_FLAG_FRAGMENTED : u8 := 0x01.
Definition CARRIER_FLAG_LAST : u8 := 0x02.
Definition CARRIER_FLAG_DOMAIN_ROLLUP : u8 := 0x10.
Definition CARRIER_FLAG_DOMAIN_ORACLE : u8 := 0x20.
Definition CARRIER_FLAG_DOMAIN_USER : u8 := 0x40.
Definition RESERVED_FLAG_MASK : u8 := 0x8c.
Definition DOMAIN_FLAG_MASK : u8 :=
  Z.lor (Z.lor CARRIER_FLAG_DOMAIN_ROLLUP CARRIER_FLAG_DOMAIN_ORACLE) CARRIER_FLAG_DOMAIN_USER.

(** ** Data *)
Record CarrierHeader := {
  flags : u8;
  fragment_count : u8;
  fragment_index : u8;
  data_len : u32;
  bundle_id : bytes;
}.
Inductive CarrierDomain := Rollup | Oracle | User.

Inductive CarrierError :=
| HeaderTruncated (actual : usize)
| BadMagic
| Reserved1NonZero (b : u8)
| ReservedFlagBitSet (flags : u8)
| MultipleDomainFlags (flags : u8)
| BadFragmentCount (c : u8)
| FragmentIndexOutOfRange (index count : u8)
| FragmentedFlagMismatch (flag_set : bool) (count : u8)
| LastFlagMismatch (flag_set : bool) (index count : u8)
| DataTooLarge (data_len : u32)
| LengthMismatch (actual expected : usize).

Inductive ReassembleError :=
| NoFragments
| FragmentCountMismatch (first found : u8)
| BundleIdMismatch
| MissingFragmentIndex (i : u8)
| DuplicateFragmentIndex (i : u8)
| ReFragmentIndexOutOfRange (index count : u8)
| FragmentDataOutOfRange (index : u8)
| BundleHashMismatch.

Definition is_fragmented (h : CarrierHeader) : bool := negb (Z.land (flags h) CARRIER_FLAG_FRAGMENTED =? 0).
Definition is_last (h : CarrierHeader) : bool := negb (Z.land (flags h) CARRIER_FLAG_LAST =? 0).
(** [domain]: the [unreachable!] arm panics. *)
Definition domain {E} (h : CarrierHeader) : res E (option CarrierDomain) :=
  let d := Z.land (flags h) DOMAIN_FLAG_MASK in
  if d =? 0 then Ok None
  else if d =? CARRIER_FLAG_DOMAIN_ROLLUP then Ok (Some Rollup)
  else if d =? CARRIER_FLAG_DOMAIN_ORACLE then Ok (Some Oracle)
  else if d =? CARRIER_FLAG_DOMAIN_USER then Ok (Some User)
  else Panic.

(** [u8::is_power_of_two] *)
Definition is_power_of_two (n : u8) : bool := negb (n =? 0) && (Z.land n (n - 1) =? 0).

(** ** The header parser *)
Definition parse_carrier_header (script : bytes) : res CarrierError CarrierHeader :=
  _ ← fail_if (zlen script <? CARRIER_HEADER_LEN) (HeaderTruncated (zlen script));
  magic ← slice script 0 8;
  _ ← fail_if (negb (bool_decide (magic = CARRIER_MAGIC))) BadMagic;
  fl ← at_ script 8;
  reserved ← at_ script 9;
  _ ← fail_if (negb (reserved =? 0)) (Reserved1NonZero reserved);
  _ ← fail_if (negb (Z.land fl RESERVED_FLAG_MASK =? 0)) (ReservedFlagBitSet fl);
  let domain_bits := Z.land fl DOMAIN_FLAG_MASK in
  _ ← fail_if (negb (domain_bits =? 0) && negb (is_power_of_two domain_bits)) (MultipleDomainFlags fl);
  count ← at_ script 10;
  index ← at_ script 11;
  _ ← fail_if ((count =? 0) || (MAX_FRAGMENTS <? count)) (BadFragmentCount count);
  _ ← fail_if (count <=? index) (FragmentIndexOutOfRange index count);
  let frag_flag_set := negb (Z.land fl CARRIER_FLAG_FRAGMENTED =? 0) in
  _ ← fail_if (negb (eqb frag_flag_set (1 <? count))) (FragmentedFlagMismatch frag_flag_set count);
  let last_flag_set := negb (Z.land fl CARRIER_FLAG_LAST =? 0) in
  last ← chk 8 (count - 1);
  _ ← fail_if (negb (eqb last_flag_set (index =? last))) (LastFlagMismatch last_flag_set index count);
  lb ← slice script 12 16;
  let dlen := undigits 256 lb in
  _ ← fail_if (MAX_DATA_PER_CARRIER <? dlen) (DataTooLarge dlen);
  let expected_len := CARRIER_HEADER_LEN + dlen in
  _ ← fail_if (negb (zlen script =? expected_len)) (LengthMismatch (zlen script) expected_len);
  bid ← slice script 16 (16 + CARRIER_PAYLOAD_HASH_LEN);
  Ok {| flags := fl; fragment_count := count; fragment_index := index; data_len := dlen; bundle_id := bid |}.

(** ** The codec *)
Section codec.
Context `{Sha3}.

Definition payload_id (script : bytes) : bytes := sha3_384 script.
Definition bundle_id_of (data_full : bytes) : bytes := sha3_384 data_full.

Definition encode_carrier_script (fl count index : u8) (data bid : bytes) : res CarrierError bytes :=
  _ ← fail_if ((count =? 0) || (MAX_FRAGMENTS <? count)) (BadFragmentCount count);
  _ ← fail_if (count <=? index) (FragmentIndexOutOfRange index count);
  _ ← fail_if (MAX_DATA_PER_CARRIER <? zlen data) (DataTooLarge (wrap 32 (zlen data)));
  Ok (CARRIER_MAGIC ++ [fl; 0; count; index] ++ digits 256 4 (wrap 32 (zlen data)) ++ bid ++ data).

Definition domain_flag (d : option CarrierDomain) : u8 :=
  match d with
  | None => 0
  | Some Rollup => CARRIER_FLAG_DOMAIN_ROLLUP
  | Some Oracle => CARRIER_FLAG_DOMAIN_ORACLE
  | Some User => CARRIER_FLAG_DOMAIN_USER
  end.

Definition encode_single_fragment (data : bytes) (d : option CarrierDomain) : res CarrierError bytes :=
  encode_carrier_script (Z.lor CARRIER_FLAG_LAST (domain_flag d)) 1 0 data (bundle_id_of data).

(** The flags and the part of fragment [i] out of [count]. *)
Definition fragment_flags (d : option CarrierDomain) (count i : Z) : u8 :=
  let fl := domain_flag d in
  let fl := if 1 <? count then Z.lor fl CARRIER_FLAG_FRAGMENTED else fl in
  if i =? count - 1 then Z.lor fl CARRIER_FLAG_LAST else fl.
Definition encode_fragment (blob bid : bytes) (d : option CarrierDomain) (count i : Z) : res CarrierError bytes :=
  let start := i * MAX_DATA_PER_CARRIER in
  let end_ := Z.min (start + MAX_DATA_PER_CARRIER) (zlen blob) in
  part ← slice blob start end_;
  encode_carrier_script (fragment_flags d count i) (wrap 8 count) (wrap 8 i) part bid.
Definition encode_bundle (blob : bytes) (d : option CarrierDomain) : res CarrierError (list bytes) :=
  let total := zlen blob in
  let count := if total =? 0 then 1 else div_ceil total MAX_DATA_PER_CARRIER in
  _ ← fail_if (MAX_FRAGMENTS <? count) (DataTooLarge (wrap 32 total));
  res_mapM (encode_fragment blob (bundle_id_of blob) d count) (map Z.of_nat (seq 0 (Z.to_nat count))).

(** ** Reassembly *)
Record ReassembleInput := {
  ri_header : CarrierHeader;
  ri_script : bytes;
}.

(** The agreement of the other inputs with the first. *)
Fixpoint check_agree (count : u8) (bid : bytes) (l : list ReassembleInput) : res ReassembleError unit :=
  match l with
  | [] => Ok tt
  | x :: l =>
      _ ← fail_if (negb (fragment_count (ri_header x) =? count)) (FragmentCountMismatch count (fragment_count (ri_header x)));
      _ ← fail_if (negb (bool_decide (bundle_id (ri_header x) = bid))) BundleIdMismatch;
      check_agree count bid l
  end.

(** One input put in its slot. *)
Definition fill_slot (count : u8) (slots : list (option bytes)) (x : ReassembleInput)
    : res ReassembleError (list (option bytes)) :=
  let idx := fragment_index (ri_header x) in
  _ ← fail_if (count <=? idx) (ReFragmentIndexOutOfRange idx count);
  slot ← at_ slots idx;
  _ ← fail_if (bool_decide (is_Some slot)) (DuplicateFragmentIndex idx);
  let data_start := CARRIER_HEADER_LEN in
  let data_end := data_start + data_len (ri_header x) in
  _ ← fail_if (zlen (ri_script x) <? data_end) (FragmentDataOutOfRange idx);
  d ← slice (ri_script x) data_start data_end;
  Ok (<[Z.to_nat idx := Some d]> slots).

(** The pass that adds up the lengths and reports the first empty slot. *)
Fixpoint total_len (i : Z) (total : usize) (slots : list (option bytes)) : res ReassembleError usize :=
  match slots with
  | [] => Ok total
  | Some d :: slots => t ← chk 64 (total + zlen d); total_len (i + 1) t slots
  | None :: _ => Err (MissingFragmentIndex (wrap 8 i))
  end.

Definition reassemble (inputs : list ReassembleInput) : res ReassembleError bytes :=
  match inputs with
  | [] => Err NoFragments
  | first :: rest =>
      let count := fragment_count (ri_header first) in
      let bid := bundle_id (ri_header first) in
      _ ← check_agree count bid rest;
      slots ← res_foldl (fill_slot count) (replicate (Z.to_nat count) None) inputs;
      _ ← total_len 0 0 slots;
      parts ← res_mapM unwrap slots;
      let out := concat parts in
      _ ← fail_if (negb (bool_decide (bundle_id_of out = bid))) BundleHashMismatch;
      Ok out
  end.

(** Every parse error is reported as [BundleHashMismatch]. *)
Definition parse_input (s : bytes) : res ReassembleError ReassembleInput :=
  match parse_carrier_header s with
  | Ok h => Ok {| ri_header := h; ri_script := s |}
  | Err _ => Err BundleHashMismatch
  | Panic => Panic
  | NoFuel => NoFuel
  end.
Definition parse_and_reassemble (scripts : list bytes) : res ReassembleError bytes :=
  inputs ← res_mapM parse_input scripts;
  reassemble inputs.
End codec.

(** ** Lemmas on reassembly *)
Definition idx (x : ReassembleInput) : nat := Z.to_nat (fragment_index (ri_header x)).
Definition fragment_data (x : ReassembleInput) : bytes :=
  take (Z.to_nat (data_len (ri_header x))) (drop (Z.to_nat CARRIER_HEADER_LEN) (ri_script x)).
(** The fields have the types of the header. *)
Definition typed_input (x : ReassembleInput) : Prop :=
  inW 8 (fragment_count (ri_header x)) /\ inW 8 (fragment_index (ri_header x)) /\ inW 32 (data_len (ri_header x)).
Definition in_range (x : ReassembleInput) : Prop :=
  CARRIER_HEADER_LEN + data_len (ri_header x) <= zlen (ri_script x).

Lemma zlen_fragment_data x : typed_input x -> in_range x -> zlen (fragment_data x) = data_len (ri_header x).
Proof.
  unfold in_range, fragment_data, CARRIER_HEADER_LEN, zlen. intros (_ & _ & Hd) Hr. unfold inW in Hd.
  rewrite length_take, length_drop. lia.
Qed.

Lemma fill_slot_cases count slots x : typed_input x -> length slots = Z.to_nat count ->
  (slots !! idx x = Some None /\ in_range x /\
   fill_slot count slots x = Ok (<[idx x := Some (fragment_data x)]> slots)) \/
  (~ (slots !! idx x = Some None /\ in_range x) /\ exists e, fill_slot count slots x = Err e).
Proof.
  intros (Hc & Hi & Hd) Hlen. unfold fill_slot, at_, in_range, inW in *. fold (idx x).
  assert (idx x = Z.to_nat (fragment_index (ri_header x))) as Hidx by done.
  destruct (Z.leb_spec count (fragment_index (ri_header x))) as [Hge|Hlt]; cbn [fail_if mbind res_bind].
  { right. split; [|by eexists]. intros [Hl _]. apply lookup_lt_Some in Hl. lia. }
  destruct (lookup_lt_is_Some_2 slots (idx x)) as [slot Hs]; [lia|]. rewrite Hs. cbn [unwrap mbind res_bind].
  destruct slot as [d|]; cbn.
  { right. split; [|by eexists]. intros [[=] _]. }
  unfold CARRIER_HEADER_LEN. destruct (Z.ltb_spec (zlen (ri_script x)) (64 + data_len (ri_header x))) as [Hs'|Hs'];
    cbn [fail_if mbind res_bind].
  { right. split; [|by eexists]. lia. }
  left. split_and!; [done|lia|]. unfold slice.
  replace ((64 <=? 64 + data_len (ri_header x)) && (64 + data_len (ri_header x) <=? zlen (ri_script x))) with true by lia.
  cbn [mbind res_bind]. by replace (64 + data_len (ri_header x) - 64) with (data_len (ri_header x)) by lia.
Qed.

(** All inputs put in their slots. *)
Definition fill (slots : list (option bytes)) (l : list ReassembleInput) : list (option bytes) :=
  foldl (fun s x => <[idx x := Some (fragment_data x)]> s) slots l.
Definition fillable (slots : list (option bytes)) (l : list ReassembleInput) : Prop :=
  NoDup (map idx l) /\ Forall (fun x => slots !! idx x = Some None /\ in_range x) l.

Lemma length_fill slots l : length (fill slots l) = length slots.
Proof. revert slots. induction l as [|x l IH]; intros slots; simpl; [done|]. by rewrite IH, length_insert. Qed.
Lemma lookup_fill_other slots l i : i ∉ map idx l -> fill slots l !! i = slots !! i.
Proof.
  revert slots. induction l as [|x l IH]; intros slots Hi; simpl in *; [done|].
  apply not_elem_of_cons in Hi as [Hne Hi]. by rewrite IH, list_lookup_insert_ne.
Qed.
Lemma lookup_fill slots l x : fillable slots l -> x ∈ l -> fill slots l !! idx x = Some (Some (fragment_data x)).
Proof.
  revert slots. induction l as [|y l IH]; intros slots [Hnd Hf] Hx; [by apply elem_of_nil in Hx|].
  apply Forall_cons in Hf as [[Hy Hr] Hf]. apply NoDup_cons in Hnd as [Hn Hnd]. simpl.
  apply elem_of_cons in Hx as [<-|Hx].
  - rewrite lookup_fill_other by done. rewrite list_lookup_insert_eq; [done|]. by apply lookup_lt_Some in Hy.
  - apply IH; [|done]. split; [done|]. rewrite Forall_forall in *. intros z Hz. split; [|by apply Hf].
    rewrite list_lookup_insert_ne; [by apply Hf|]. intros Heq. apply Hn. rewrite Heq.
    apply list_elem_of_fmap. by exists z.
Qed.

Lemma fill_slots_cases count slots l : Forall typed_input l -> length slots = Z.to_nat count ->
  (fillable slots l /\ res_foldl (fill_slot count) slots l = Ok (fill slots l)) \/
  (~ fillable slots l /\ exists e, res_foldl (fill_slot count) slots l = Err e).
Proof.
  revert slots. induction l as [|x l IH]; intros slots Hty Hlen; simpl.
  { left. split; [|done]. split; [constructor|by apply Forall_nil]. }
  apply Forall_cons in Hty as [Hx Hty].
  destruct (fill_slot_cases count slots x Hx Hlen) as [(Hs & Hr & ->)|[Hn [e ->]]]; cbn [mbind res_bind].
  2: { right. split; [|by eexists]. intros [_ Hf]. apply Forall_cons in Hf as [Hf _]. done. }
  assert (fillable slots (x :: l) <-> fillable (<[idx x := Some (fragment_data x)]> slots) l) as Hiff.
  { unfold fillable. simpl. rewrite NoDup_cons, Forall_cons, !Forall_forall. split.
    - intros ((Hn & Hnd) & _ & Hf). split; [done|]. intros z Hz. rewrite list_lookup_insert_ne; [by apply Hf|].
      intros Heq. apply Hn. rewrite Heq. apply list_elem_of_fmap. by exists z.
    - intros (Hnd & Hf). assert (idx x ∉ map idx l) as Hn.
      { intros (z & Hz & Hin)%list_elem_of_fmap. destruct (Hf z Hin) as [Hl _]. rewrite <- Hz in Hl.
        rewrite list_lookup_insert_eq in Hl; [done|]. by apply lookup_lt_Some in Hs. }
      split_and!; [done..|]. intros z Hz. destruct (Hf z Hz) as [Hl Hrz]. split; [|done].
      rewrite list_lookup_insert_ne in Hl; [done|]. intros Heq. apply Hn. rewrite Heq.
      apply list_elem_of_fmap. by exists z. }
  rewrite Hiff. apply IH; [done|]. by rewrite length_insert.
Qed.

Definition agree (count : u8) (bid : bytes) (x : ReassembleInput) : Prop :=
  fragment_count (ri_header x) = count /\ bundle_id (ri_header x) = bid.
Lemma check_agree_cases count bid l :
  (Forall (agree count bid) l /\ check_agree count bid l = Ok tt) \/
  (~ Forall (agree count bid) l /\ exists e, check_agree count bid l = Err e).
Proof.
  induction l as [|x l IH]; simpl; [left; split; [by apply Forall_nil|done]|]. unfold fail_if, agree in *.
  rewrite Forall_cons. destruct (Z.eqb_spec (fragment_count (ri_header x)) count) as [Hc|Hc]; cbn [negb mbind res_bind].
  2: { right. split; [tauto|by eexists]. }
  destruct (bool_decide_reflect (bundle_id (ri_header x) = bid)) as [Hb|Hb]; cbn [negb mbind res_bind].
  2: { right. split; [tauto|by eexists]. }
  destruct IH as [[? ->]|[? [e ->]]]; [left|right; split; [tauto|by eexists]]. done.
Qed.

Lemma total_len_cases i total slots : 0 <= total -> total + zlen slots * 2 ^ 32 < 2 ^ 64 ->
  (forall d, Some d ∈ slots -> zlen d < 2 ^ 32) ->
  (Forall is_Some slots /\ exists t, total_len i total slots = Ok t) \/
  (~ Forall is_Some slots /\ exists e, total_len i total slots = Err e).
Proof.
  revert i total. induction slots as [|[d|] slots IH]; intros i total H0 Hb Hd; cbn [total_len].
  - left. split; [by apply Forall_nil|by eexists].
  - rewrite zlen_cons in Hb. pose proof (Hd d ltac:(left)). pose proof (zlen_nonneg d). pose proof (zlen_nonneg slots).
    rewrite chk_ok by (unfold inW; lia). cbn [mbind res_bind]. rewrite Forall_cons.
    destruct (IH (i + 1) (total + zlen d)) as [[Hs Ht]|[Hs He]]; [lia|lia|intros d' Hd'; apply Hd; by right|..].
    + left. split; [|done]. split; [by eexists|done].
    + right. split; [tauto|done].
  - right. split; [|by eexists]. intros [[x [=]] _]%Forall_cons.
Qed.
Lemma unwrap_somes {E A} (l : list A) : res_mapM (E:=E) unwrap (map Some l) = Ok l.
Proof. induction l as [|x l IH]; simpl; [done|]. by rewrite IH. Qed.

(** Every slot is filled exactly when the indices are all of [0..count-1]. *)
Lemma fillable_empty n l : fillable (replicate n None) l <->
  NoDup (map idx l) /\ Forall (fun x => (idx x < n)%nat) l /\ Forall in_range l.
Proof.
  unfold fillable. rewrite !Forall_forall. split.
  - intros [Hnd Hf]. split_and!; [done|intros x Hx; destruct (Hf x Hx) as [Hl _]|intros x Hx; apply Hf, Hx].
    apply lookup_lt_Some in Hl. by rewrite length_replicate in Hl.
  - intros (Hnd & Hlt & Hr). split; [done|]. intros x Hx. split; [|by apply Hr].
    by apply lookup_replicate_2, Hlt.
Qed.
Lemma filled_iff n l : fillable (replicate n None) l ->
  (Forall is_Some (fill (replicate n None) l) <-> map idx l ≡ₚ seq 0 n).
Proof.
  intros Hf. pose proof (proj1 (fillable_empty n l) Hf) as (Hnd & Hlt & _). rewrite Forall_forall in Hlt. split.
  - intros Hall. apply NoDup_Permutation; [done|apply NoDup_seq|]. intros i. rewrite elem_of_seq. split.
    + intros (x & -> & Hx)%list_elem_of_fmap. apply Hlt in Hx. lia.
    + intros Hi. destruct (decide (i ∈ map idx l)) as [|Hn]; [done|].
      pose proof (lookup_fill_other (replicate n None) l i Hn) as Hl.
      rewrite (lookup_replicate_2 n None) in Hl by lia. rewrite Forall_lookup in Hall.
      by destruct (Hall i None Hl) as [? [=]].
  - intros Hp. rewrite Forall_lookup. intros i o Hi. assert (i ∈ map idx l) as (x & -> & Hx)%list_elem_of_fmap.
    { rewrite Hp, elem_of_seq. apply lookup_lt_Some in Hi. rewrite length_fill, length_replicate in Hi. lia. }
    rewrite (lookup_fill _ _ x) in Hi by done. injection Hi as <-. by eexists.
Qed.
Lemma filled_slots n l k : fillable (replicate n None) l -> l ≡ₚ k -> map idx k = seq 0 n ->
  fill (replicate n None) l = map Some (map fragment_data k).
Proof.
  intros Hf Hp Hk. apply list_eq. intros i. destruct (decide (i < n)%nat) as [Hi|Hi].
  - destruct (lookup_lt_is_Some_2 k i) as [x Hx].
    { rewrite <- (length_map idx), Hk, length_seq. done. }
    assert (idx x = i) as <-.
    { apply (f_equal (fun l => l !! i)) in Hk. rewrite list_lookup_fmap, Hx, lookup_seq_lt in Hk by done. by injection Hk. }
    rewrite (lookup_fill _ _ x) by (done || (rewrite Hp; by eapply list_elem_of_lookup_2)).
    by rewrite !list_lookup_fmap, Hx.
  - rewrite !lookup_ge_None_2; [done|..]; rewrite ?length_map, ?length_fill, ?length_replicate; [|lia].
    apply (f_equal length) in Hk. rewrite length_map, length_seq in Hk. lia.
Qed.

(** ** Reassembly, specified *)
Section reassembly.
Context `{Sha3}.

(** The fragments [l], in order, are those of one bundle of [count] with
    identifier [bid]. *)
Definition whole (count : u8) (bid : bytes) (l : list ReassembleInput) : Prop :=
  l <> [] /\ Forall (agree count bid) l /\ Forall in_range l /\ map idx l = seq 0 (Z.to_nat count) /\
  bundle_id_of (concat (map fragment_data l)) = bid.

Lemma fill_small count slots l : Forall typed_input l -> fillable slots l ->
  (forall d, Some d ∈ slots -> zlen d < 2 ^ 32) -> length slots = Z.to_nat count ->
  forall d, Some d ∈ fill slots l -> zlen d < 2 ^ 32.
Proof.
  revert slots. induction l as [|x l IH]; intros slots Hty Hf Hs Hlen; [done|]. simpl.
  destruct (Hf) as [Hnd Hfa]. apply Forall_cons in Hty as [Hx Hty]. apply Forall_cons in Hfa as [[Hsx Hr] Hfa].
  apply NoDup_cons in Hnd as [Hn Hnd].
  apply IH; [done| | |by rewrite length_insert].
  - split; [done|]. rewrite Forall_forall in *. intros z Hz. split; [|by apply Hfa].
    rewrite list_lookup_insert_ne; [by apply Hfa|]. intros Heq. apply Hn. rewrite Heq. apply list_elem_of_fmap. by exists z.
  - intros d (i & Hi)%list_elem_of_lookup_1. destruct (decide (i = idx x)) as [->|Hne].
    + rewrite list_lookup_insert_eq in Hi by (by apply lookup_lt_Some in Hsx). injection Hi as <-.
      rewrite zlen_fragment_data by done. destruct Hx as (_ & _ & Hd). unfold inW in Hd. lia.
    + rewrite list_lookup_insert_ne in Hi by done. apply Hs. by eapply list_elem_of_lookup_2.
Qed.

Lemma whole_facts first rest l count bid : l ≡ₚ first :: rest -> whole count bid l ->
  count = fragment_count (ri_header first) /\ bid = bundle_id (ri_header first) /\
  Forall (agree (fragment_count (ri_header first)) (bundle_id (ri_header first))) rest /\
  fillable (replicate (Z.to_nat (fragment_count (ri_header first))) None) (first :: rest) /\
  map idx (first :: rest) ≡ₚ seq 0 (Z.to_nat (fragment_count (ri_header first))).
Proof.
  intros Hp (_ & Ha & Hr & Hi & _). rewrite Hp in Ha, Hr. apply Forall_cons in Ha as [[-> ->] Ha].
  assert (map idx (first :: rest) ≡ₚ seq 0 (Z.to_nat count)) as Hpi by (rewrite <- Hp; by rewrite Hi).
  split_and!; [done..| |done]. apply fillable_empty. split_and!; [|apply Forall_forall; intros x Hx|done].
  - rewrite Hpi. apply NoDup_seq.
  - assert (idx x ∈ map idx (first :: rest)) as Hin by (apply list_elem_of_fmap; by exists x).
    rewrite Hpi, elem_of_seq in Hin. lia.
Qed.

(** The outcome of [reassemble], every branch. *)
Lemma reassemble_cases inputs : Forall typed_input inputs ->
  (exists l count bid, l ≡ₚ inputs /\ whole count bid l /\ reassemble inputs = Ok (concat (map fragment_data l))) \/
  ((forall l count bid, l ≡ₚ inputs -> ~ whole count bid l) /\ exists e, reassemble inputs = Err e).
Proof.
  intros Hty. destruct inputs as [|first rest].
  { right. split; [|by eexists]. intros l count bid Hl%Permutation_sym%Permutation_nil_l [Hne _]. done. }
  unfold reassemble. set (count := fragment_count (ri_header first)). set (bid := bundle_id (ri_header first)).
  pose proof (whole_facts first rest) as Hwhole. fold count bid in Hwhole.
  destruct (check_agree_cases count bid rest) as [[Ha ->]|[Ha [e ->]]]; cbn [mbind res_bind].
  2: { right. split; [|by eexists]. intros l c b Hp Hw. destruct (Hwhole l c b Hp Hw) as (_ & _ & ? & _). done. }
  destruct (fill_slots_cases count (replicate (Z.to_nat count) None) (first :: rest) Hty) as [[Hf ->]|[Hf [e ->]]];
    [by rewrite length_replicate| |]; cbn [mbind res_bind].
  2: { right. split; [|by eexists]. intros l c b Hp Hw. destruct (Hwhole l c b Hp Hw) as (_ & _ & _ & ? & _). done. }
  assert (inW 8 count) as Hcount by (apply Forall_cons in Hty as [[] _]; done). unfold inW in Hcount.
  destruct (total_len_cases 0 0 (fill (replicate (Z.to_nat count) None) (first :: rest))) as [[Hall [t ->]]|[Hall [e ->]]];
    [lia| | |cbn [mbind res_bind]..].
  { unfold zlen. rewrite length_fill, length_replicate. lia. }
  { eapply (fill_small count); [done..| |by rewrite length_replicate].
    intros d [[=] _]%elem_of_replicate. }
  2: { right. split; [|by eexists]. intros l c b Hp Hw. destruct (Hwhole l c b Hp Hw) as (_ & _ & _ & _ & ?).
       by apply Hall, filled_iff. }
  apply filled_iff in Hall as Hpi; [|done].
  destruct (Permutation_map_inv idx (first :: rest) (Permutation_sym Hpi)) as (k & Hk & Hpk). symmetry in Hk.
  rewrite (filled_slots _ _ k Hf Hpk Hk), unwrap_somes. cbn [mbind res_bind]. unfold fail_if.
  destruct (bool_decide_reflect (bundle_id_of (concat (map fragment_data k)) = bid)) as [Hh|Hh]; cbn [negb mbind res_bind].
  - left. exists k, count, bid. split; [by symmetry|]. split; [|done].
    apply fillable_empty in Hf as (_ & _ & Hr).
    split_and!; [|rewrite <- Hpk; by apply Forall_cons|by rewrite <- Hpk|done|done].
    intros ->. by apply Permutation_nil_r in Hpk.
  - right. split; [|by eexists]. intros l c b Hp Hw. destruct (Hwhole l c b Hp Hw) as (-> & -> & _).
    destruct Hw as (_ & _ & _ & Hi & Hb). apply Hh. rewrite <- Hb. do 2 f_equal.
    apply (inj (fmap Some)). etransitivity; [symmetry; exact (filled_slots _ _ k Hf Hpk Hk)|].
    by apply (filled_slots _ _ l Hf).
Qed.
Lemma whole_data count bid l k : l ≡ₚ k -> whole count bid l -> map idx k = seq 0 (Z.to_nat count) ->
  map fragment_data l = map fragment_data k.
Proof.
  intros Hp Hw Hk. destruct l as [|x l]; [by destruct Hw|].
  destruct (whole_facts x l (x :: l) count bid) as (-> & _ & _ & Hf & _); [done..|].
  destruct Hw as (_ & _ & _ & Hi & _). apply (inj (fmap Some)).
  etransitivity; [symmetry; by apply (filled_slots _ _ (x :: l) Hf)|]. by apply (filled_slots _ _ k Hf).
Qed.
Lemma reassemble_ok inputs l count bid : Forall typed_input inputs -> l ≡ₚ inputs -> whole count bid l ->
  reassemble inputs = Ok (concat (map fragment_data l)).
Proof.
  intros Hty Hp Hw. destruct (reassemble_cases inputs Hty) as [(k & c & b & Hk & Hwk & ->)|[Hn _]].
  2: { by destruct (Hn l count bid Hp). }
  do 2 f_equal. destruct inputs as [|x xs]; [by apply Permutation_nil_r in Hp as ->; destruct Hw|].
  destruct (whole_facts x xs l count bid) as (-> & _); [done..|].
  destruct (whole_facts x xs k c b) as (-> & _); [done..|].
  eapply whole_data; [by rewrite Hk|done|by destruct Hw as (_ & _ & _ & ? & _)].
Qed.
End reassembly.

(** ** The header *)
Definition flags_ok (fl count index : Z) : bool :=
  (Z.land fl RESERVED_FLAG_MASK =? 0) &&
  ((Z.land fl DOMAIN_FLAG_MASK =? 0) || is_power_of_two (Z.land fl DOMAIN_FLAG_MASK)) &&
  eqb (negb (Z.land fl CARRIER_FLAG_FRAGMENTED =? 0)) (1 <? count) &&
  eqb (negb (Z.land fl CARRIER_FLAG_LAST =? 0)) (index =? count - 1).

Lemma carrier_cut (script : bytes) : CARRIER_HEADER_LEN <= zlen script ->
  exists magic f r c i lb bid data,
    script = magic ++ f :: r :: c :: i :: lb ++ bid ++ data /\ zlen magic = 8 /\ zlen lb = 4 /\ zlen bid = 48.
Proof.
  unfold CARRIER_HEADER_LEN. intros Hl.
  destruct (cut_at script 8) as (magic & s1 & -> & H1); [lia|]. rewrite zlen_app in Hl.
  destruct s1 as [|f [|r [|c [|i s1]]]]; rewrite ?zlen_cons in Hl; [change (zlen (@nil Z)) with 0 in Hl; lia..|].
  destruct (cut_at s1 4) as (lb & s2 & -> & H2); [lia|]. rewrite zlen_app in Hl.
  destruct (cut_at s2 48) as (bid & data & -> & H3); [lia|]. by exists magic, f, r, c, i, lb, bid, data.
Qed.

Lemma parse_carrier_cut magic f r c i lb bid data script :
  script = magic ++ f :: r :: c :: i :: lb ++ bid ++ data -> zlen magic = 8 -> zlen lb = 4 -> zlen bid = 48 ->
  0 <= c < 256 ->
  parse_carrier_header script =
    (_ ← fail_if (negb (bool_decide (magic = CARRIER_MAGIC))) BadMagic;
     _ ← fail_if (negb (r =? 0)) (Reserved1NonZero r);
     _ ← fail_if (negb (Z.land f RESERVED_FLAG_MASK =? 0)) (ReservedFlagBitSet f);
     _ ← fail_if (negb (Z.land f DOMAIN_FLAG_MASK =? 0) && negb (is_power_of_two (Z.land f DOMAIN_FLAG_MASK))) (MultipleDomainFlags f);
     _ ← fail_if ((c =? 0) || (MAX_FRAGMENTS <? c)) (BadFragmentCount c);
     _ ← fail_if (c <=? i) (FragmentIndexOutOfRange i c);
     _ ← fail_if (negb (eqb (negb (Z.land f CARRIER_FLAG_FRAGMENTED =? 0)) (1 <? c)))
           (FragmentedFlagMismatch (negb (Z.land f CARRIER_FLAG_FRAGMENTED =? 0)) c);
     _ ← fail_if (negb (eqb (negb (Z.land f CARRIER_FLAG_LAST =? 0)) (i =? c - 1)))
           (LastFlagMismatch (negb (Z.land f CARRIER_FLAG_LAST =? 0)) i c);
     _ ← fail_if (MAX_DATA_PER_CARRIER <? undigits 256 lb) (DataTooLarge (undigits 256 lb));
     _ ← fail_if (negb (zlen script =? CARRIER_HEADER_LEN + undigits 256 lb))
           (LengthMismatch (zlen script) (CARRIER_HEADER_LEN + undigits 256 lb));
     Ok {| flags := f; fragment_count := c; fragment_index := i; data_len := undigits 256 lb; bundle_id := bid |}).
Proof.
  intros Hs Hm Hl Hb Hc. unfold parse_carrier_header, CARRIER_HEADER_LEN, CARRIER_PAYLOAD_HASH_LEN.
  assert (zlen script = 64 + zlen data) as Hlen.
  { subst script. autorewrite with zlen. lia. }
  pose proof (zlen_nonneg data). replace (zlen script <? 64) with false by lia. cbn [fail_if mbind res_bind].
  rewrite (slice_ok script [] magic (f :: r :: c :: i :: lb ++ bid ++ data) 0 8) by position. cbn [mbind res_bind].
  rewrite (at_ok script magic (r :: c :: i :: lb ++ bid ++ data) 8 f) by position. cbn [mbind res_bind].
  rewrite (at_ok script (magic ++ [f]) (c :: i :: lb ++ bid ++ data) 9 r) by position. cbn [mbind res_bind].
  rewrite (at_ok script (magic ++ [f; r]) (i :: lb ++ bid ++ data) 10 c) by position. cbn [mbind res_bind].
  rewrite (at_ok script (magic ++ [f; r; c]) (lb ++ bid ++ data) 11 i) by position. cbn [mbind res_bind].
  rewrite (slice_ok script (magic ++ [f; r; c; i]) lb (bid ++ data) 12 16) by position. cbn [mbind res_bind].
  rewrite (slice_ok script (magic ++ [f; r; c; i] ++ lb) bid data 16 (16 + 48)) by position. cbn [mbind res_bind].
  destruct (Z.eqb_spec c 0) as [->|Hc0]; [|by rewrite chk_ok by (unfold inW; lia)].
  unfold fail_if. cbn [orb].
  destruct (negb (bool_decide (magic = CARRIER_MAGIC))); [done|]. destruct (negb (r =? 0)); [done|].
  destruct (negb (Z.land f RESERVED_FLAG_MASK =? 0)); [done|].
  by destruct (negb (Z.land f DOMAIN_FLAG_MASK =? 0) && negb (is_power_of_two (Z.land f DOMAIN_FLAG_MASK))).
Qed.

Definition carrier (fl count index : Z) (data bid : bytes) : bytes :=
  CARRIER_MAGIC ++ fl :: 0 :: count :: index :: digits 256 4 (zlen data) ++ bid ++ data.
Lemma encode_carrier_iff fl count index data bid script : 0 <= count ->
  encode_carrier_script fl count index data bid = Ok script <->
  1 <= count <= MAX_FRAGMENTS /\ index < count /\ zlen data <= MAX_DATA_PER_CARRIER /\
  script = carrier fl count index data bid.
Proof.
  intros Hc. unfold encode_carrier_script, fail_if, MAX_FRAGMENTS, MAX_DATA_PER_CARRIER. pose proof (zlen_nonneg data).
  destruct ((count =? 0) || (32 <? count)) eqn:H1; [split; [done|lia]|].
  destruct (Z.leb_spec count index); cbn [mbind res_bind]; [split; [done|lia]|].
  destruct (Z.ltb_spec 65536 (zlen data)); cbn [mbind res_bind]; [split; [done|lia]|].
  rewrite wrap_small by (unfold inW; lia).
  split; [intros [= <-]; split_and!; [lia..|done]|]. by intros (_ & _ & _ & ->).
Qed.

Lemma parse_carrier_ok fl count index data bid :
  zlen bid = 48 -> 1 <= count <= MAX_FRAGMENTS -> index < count -> zlen data <= MAX_DATA_PER_CARRIER ->
  flags_ok fl count index = true ->
  parse_carrier_header (carrier fl count index data bid) =
    Ok {| flags := fl; fragment_count := count; fragment_index := index; data_len := zlen data; bundle_id := bid |}.
Proof.
  unfold MAX_FRAGMENTS, MAX_DATA_PER_CARRIER. intros Hb Hc Hi Hd Hf. pose proof (zlen_nonneg data).
  assert (zlen (carrier fl count index data bid) = 64 + zlen data) as Hlen.
  { unfold carrier. autorewrite with zlen. change (zlen CARRIER_MAGIC) with 8. simpl Z.of_nat. lia. }
  rewrite (parse_carrier_cut CARRIER_MAGIC fl 0 count index (digits 256 4 (zlen data)) bid data) by (done || lia).
  rewrite (undigits_digits_small 4) by (unfold inW; simpl; lia). rewrite bool_decide_true by done.
  unfold flags_ok in Hf. rewrite !andb_true_iff in Hf. destruct Hf as (((Hf1 & Hf2) & Hf3) & Hf4).
  unfold fail_if, MAX_FRAGMENTS, MAX_DATA_PER_CARRIER, CARRIER_HEADER_LEN. rewrite Hf1, Hf3, Hf4, Hlen, Z.eqb_refl.
  rewrite <- negb_orb, Hf2. replace ((count =? 0) || (32 <? count)) with false by lia.
  replace (count <=? index) with false by lia. by replace (65536 <? zlen data) with false by lia.
Qed.

(** ** Bundles *)
Definition blob_part (blob : bytes) (i : nat) : bytes :=
  take (Z.to_nat MAX_DATA_PER_CARRIER) (drop (i * Z.to_nat MAX_DATA_PER_CARRIER) blob).
Definition blob_count (blob : bytes) : Z :=
  if zlen blob =? 0 then 1 else div_ceil (zlen blob) MAX_DATA_PER_CARRIER.

Lemma blob_count_bounds blob : 1 <= blob_count blob /\ zlen blob <= blob_count blob * MAX_DATA_PER_CARRIER /\
  (blob_count blob - 1) * MAX_DATA_PER_CARRIER <= zlen blob.
Proof.
  unfold blob_count, div_ceil, MAX_DATA_PER_CARRIER. pose proof (zlen_nonneg blob).
  destruct (Z.eqb_spec (zlen blob) 0); [lia|]. Z.div_mod_to_equations. lia.
Qed.
Lemma concat_parts {A} c (l : list A) k n :
  concat (map (fun i => take c (drop (i * c) l)) (seq k n)) = take (n * c) (drop (k * c) l).
Proof.
  revert k. induction n as [|n IH]; intros k; [done|]. cbn [seq map concat]. rewrite IH.
  change (S n * c)%nat with (c + n * c)%nat.
  rewrite <- (take_take_drop (drop (k * c) l) c (n * c)), drop_drop. do 3 f_equal. lia.
Qed.
Lemma concat_blob blob : concat (map (blob_part blob) (seq 0 (Z.to_nat (blob_count blob)))) = blob.
Proof.
  unfold blob_part. rewrite concat_parts. simpl. apply take_ge.
  destruct (blob_count_bounds blob) as (H1 & H2 & _). unfold zlen, MAX_DATA_PER_CARRIER in *. nia.
Qed.

Lemma fragment_flags_ok d count i : 1 <= count -> 0 <= i < count -> flags_ok (fragment_flags d count i) count i = true.
Proof.
  intros Hc Hi. unfold flags_ok, fragment_flags.
  by destruct (1 <? count), (i =? count - 1), d as [[]|].
Qed.
Lemma fragment_flags_byte d count i : is_digit 256 (fragment_flags d count i).
Proof. unfold fragment_flags, is_digit. by destruct (1 <? count), (i =? count - 1), d as [[]|]. Qed.

Section bundle.
Context `{Sha3}.

(** Fragment [i] of a blob, as a parsed input. *)
Definition fragment (blob : bytes) (d : option CarrierDomain) (i : nat) : ReassembleInput :=
  let fl := fragment_flags d (blob_count blob) (Z.of_nat i) in {|
  ri_header := {| flags := fl; fragment_count := blob_count blob; fragment_index := Z.of_nat i;
                  data_len := zlen (blob_part blob i); bundle_id := bundle_id_of blob |};
  ri_script := carrier fl (blob_count blob) (Z.of_nat i) (blob_part blob i) (bundle_id_of blob) |}.

Lemma zlen_blob_part blob i : zlen (blob_part blob i) <= MAX_DATA_PER_CARRIER.
Proof. unfold blob_part, zlen, MAX_DATA_PER_CARRIER. rewrite length_take. lia. Qed.

Lemma encode_fragment_ok blob d i : (i < Z.to_nat (blob_count blob))%nat -> blob_count blob <= MAX_FRAGMENTS ->
  encode_fragment blob (bundle_id_of blob) d (blob_count blob) (Z.of_nat i) = Ok (ri_script (fragment blob d i)).
Proof.
  intros Hi Hc. destruct (blob_count_bounds blob) as (H1 & H2 & H3). unfold encode_fragment, slice.
  pose proof (zlen_blob_part blob i). unfold MAX_FRAGMENTS, MAX_DATA_PER_CARRIER in *.
  replace ((Z.of_nat i * 65536 <=? Z.min (Z.of_nat i * 65536 + 65536) (zlen blob)) &&
    (Z.min (Z.of_nat i * 65536 + 65536) (zlen blob) <=? zlen blob)) with true by nia.
  cbn [mbind res_bind]. rewrite !wrap_small by (unfold inW; lia).
  replace (take _ (drop _ blob)) with (blob_part blob i).
  { by apply encode_carrier_iff; unfold MAX_FRAGMENTS, MAX_DATA_PER_CARRIER; [lia|split_and!; [lia..|done]]. }
  unfold blob_part, MAX_DATA_PER_CARRIER. replace (Z.to_nat (Z.of_nat i * 65536)) with (i * Z.to_nat 65536)%nat by lia.
  destruct (Z.le_gt_cases (Z.of_nat i * 65536 + 65536) (zlen blob)) as [Hle|Hgt].
  - f_equal. lia.
  - unfold zlen in *. rewrite !take_ge; [done|rewrite length_drop; lia..].
Qed.
Lemma zlen_bundle_id m : zlen (bundle_id_of m) = 48.
Proof. unfold bundle_id_of, zlen. by rewrite sha3_384_length. Qed.

Lemma encode_bundle_ok blob d : zlen blob <= MAX_FRAGMENTS * MAX_DATA_PER_CARRIER ->
  encode_bundle blob d = Ok (map (fun i => ri_script (fragment blob d i)) (seq 0 (Z.to_nat (blob_count blob)))).
Proof.
  intros Hl. unfold encode_bundle. fold (blob_count blob).
  destruct (blob_count_bounds blob) as (H1 & H2 & H3). unfold MAX_DATA_PER_CARRIER in *.
  assert (blob_count blob <= MAX_FRAGMENTS) as Hc.
  { unfold blob_count, div_ceil, MAX_DATA_PER_CARRIER, MAX_FRAGMENTS in *. pose proof (zlen_nonneg blob).
    destruct (Z.eqb_spec (zlen blob) 0); [lia|]. Z.div_mod_to_equations. lia. }
  replace (MAX_FRAGMENTS <? blob_count blob) with false by lia. cbn [fail_if mbind res_bind].
  rewrite (res_mapM_ok _ (fun i => ri_script (fragment blob d (Z.to_nat i)))).
  - f_equal. rewrite map_map. apply map_ext. intros i. by rewrite Nat2Z.id.
  - intros i (k & -> & Hk)%list_elem_of_fmap. rewrite Nat2Z.id. apply elem_of_seq in Hk.
    apply encode_fragment_ok; [lia|done].
Qed.
Lemma encode_bundle_inv blob d scripts : encode_bundle blob d = Ok scripts -> blob_count blob <= MAX_FRAGMENTS.
Proof.
  unfold encode_bundle. fold (blob_count blob). intros H1. apply bind_ok in H1 as (u & H1 & _).
  apply fail_if_ok in H1. lia.
Qed.

Lemma parse_fragment blob d i : (i < Z.to_nat (blob_count blob))%nat -> blob_count blob <= MAX_FRAGMENTS ->
  parse_input (ri_script (fragment blob d i)) = Ok (fragment blob d i).
Proof.
  intros Hi Hc. destruct (blob_count_bounds blob) as (H1 & _ & _). unfold parse_input. cbn [ri_script fragment].
  rewrite parse_carrier_ok; [done|apply zlen_bundle_id|lia..|apply zlen_blob_part|apply fragment_flags_ok; lia].
Qed.

Lemma fragment_data_cut x p d : ri_script x = p ++ d -> zlen p = CARRIER_HEADER_LEN ->
  zlen d = data_len (ri_header x) -> fragment_data x = d.
Proof.
  unfold fragment_data. intros -> <- <-. unfold zlen. by rewrite !Nat2Z.id, drop_app_length, firstn_all.
Qed.
Lemma fragment_data_part blob d i : fragment_data (fragment blob d i) = blob_part blob i.
Proof.
  set (fl := fragment_flags d (blob_count blob) (Z.of_nat i)).
  apply (fragment_data_cut _ (CARRIER_MAGIC ++ fl :: 0 :: blob_count blob :: Z.of_nat i ::
    digits 256 4 (zlen (blob_part blob i)) ++ bundle_id_of blob)).
  - cbn [fragment ri_script]. unfold carrier. generalize (blob_part blob i). intros. position.
  - autorewrite with zlen. rewrite zlen_bundle_id. reflexivity.
  - cbn [fragment ri_header data_len]. reflexivity.
Qed.

Lemma fragments_whole blob d : blob_count blob <= MAX_FRAGMENTS ->
  let l := map (fragment blob d) (seq 0 (Z.to_nat (blob_count blob))) in
  Forall typed_input l /\ whole (blob_count blob) (bundle_id_of blob) l /\ concat (map fragment_data l) = blob.
Proof.
  intros Hc l. destruct (blob_count_bounds blob) as (H1 & _ & _). unfold MAX_FRAGMENTS in Hc.
  assert (concat (map fragment_data l) = blob) as Hdata.
  { unfold l. rewrite map_map, (map_ext _ (blob_part blob)) by (intros; apply fragment_data_part). apply concat_blob. }
  assert (forall x, x ∈ l -> exists i, x = fragment blob d i /\ (i < Z.to_nat (blob_count blob))%nat) as Hl.
  { intros x (i & -> & Hi)%list_elem_of_fmap. apply elem_of_seq in Hi. exists i. split; [done|lia]. }
  assert (Forall in_range l) as Hr.
  { apply Forall_forall. intros x (i & -> & Hi)%Hl. unfold in_range. cbn [fragment ri_header ri_script data_len].
    unfold carrier. autorewrite with zlen. rewrite zlen_bundle_id. change (zlen CARRIER_MAGIC) with 8.
    unfold CARRIER_HEADER_LEN. lia. }
  split_and!; [|split_and!|done].
  - apply Forall_forall. intros x (i & -> & Hi)%Hl. unfold typed_input, inW. cbn [fragment ri_header fragment_count fragment_index data_len].
    pose proof (zlen_blob_part blob i). pose proof (zlen_nonneg (blob_part blob i)). unfold MAX_DATA_PER_CARRIER in *. lia.
  - unfold l. replace (Z.to_nat (blob_count blob)) with (S (Z.to_nat (blob_count blob) - 1)) by lia. done.
  - apply Forall_forall. intros x (i & -> & Hi)%Hl. done.
  - done.
  - unfold l. rewrite map_map. rewrite (map_ext _ (fun i => i)); [apply map_id|]. intros i. unfold idx. apply Nat2Z.id.
  - by rewrite Hdata.
Qed.
End bundle.

(** ** The parser inverted *)
Lemma parse_carrier_inv script h : is_bytes script -> parse_carrier_header script = Ok h ->
  zlen (bundle_id h) = CARRIER_PAYLOAD_HASH_LEN /\ is_digit 256 (flags h) /\
  flags_ok (flags h) (fragment_count h) (fragment_index h) = true /\
  1 <= fragment_count h <= MAX_FRAGMENTS /\ fragment_index h < fragment_count h /\
  exists data, data_len h = zlen data /\ zlen data <= MAX_DATA_PER_CARRIER /\
    script = carrier (flags h) (fragment_count h) (fragment_index h) data (bundle_id h).
Proof.
  intros Hb Hp. destruct (Z.lt_ge_cases (zlen script) CARRIER_HEADER_LEN) as [Hs|Hs].
  { unfold parse_carrier_header in Hp. by replace (zlen script <? CARRIER_HEADER_LEN) with true in Hp by lia. }
  destruct (carrier_cut script Hs) as (magic & f & r & c & i & lb & bid & data & Heq & Hm & Hlb & Hbid).
  assert (zlen script = 64 + zlen data) as Hlen by (subst script; autorewrite with zlen; lia).
  rewrite Heq in Hb. unfold is_bytes in Hb. rewrite ?Forall_app, ?Forall_cons, ?Forall_app in Hb.
  destruct Hb as (_ & Hf & _ & Hc & _ & Hlbb & _). unfold is_digit in *.
  rewrite (parse_carrier_cut magic f r c i lb bid data script Heq Hm Hlb Hbid Hc) in Hp. guards Hp.
  injection Hp as <-. cbn [flags fragment_count fragment_index data_len bundle_id].
  apply negb_false_iff, bool_decide_eq_true in Hg. apply negb_false_iff, Z.eqb_eq in Hg0.
  apply negb_false_iff in Hg1, Hg5, Hg6, Hg8. apply Z.eqb_eq in Hg8. rewrite <- negb_orb in Hg2. apply negb_false_iff in Hg2.
  unfold CARRIER_HEADER_LEN, MAX_FRAGMENTS, MAX_DATA_PER_CARRIER, flags_ok in *. rewrite Hg1, Hg2, Hg5, Hg6.
  split_and!; [done|lia|lia|done|lia..|]. exists data. split_and!; [lia..|]. rewrite Heq, Hg, Hg0. unfold carrier.
  replace (zlen data) with (undigits 256 lb) by lia. by rewrite digits_undigits_len.
Qed.
Lemma parse_carrier_total script : is_bytes script -> is_result (parse_carrier_header script).
Proof.
  intros Hb. destruct (Z.lt_ge_cases (zlen script) CARRIER_HEADER_LEN) as [Hs|Hs].
  { unfold parse_carrier_header. by replace (zlen script <? CARRIER_HEADER_LEN) with true by lia. }
  destruct (carrier_cut script Hs) as (magic & f & r & c & i & lb & bid & data & Heq & Hm & Hlb & Hbid).
  rewrite Heq in Hb. unfold is_bytes in Hb. rewrite ?Forall_app, ?Forall_cons, ?Forall_app in Hb.
  destruct Hb as (_ & Hf & _ & Hc & _ & Hlbb & _).
  rewrite (parse_carrier_cut magic f r c i lb bid data script Heq Hm Hlb Hbid Hc). by repeat apply is_result_fail_if.
Qed.

(** With at most one domain bit, the tag is one of the four. *)
Lemma domain_table : forallb (fun f => let d := Z.land f DOMAIN_FLAG_MASK in
  implb ((d =? 0) || is_power_of_two d)
    ((d =? 0) || (d =? CARRIER_FLAG_DOMAIN_ROLLUP) || (d =? CARRIER_FLAG_DOMAIN_ORACLE) || (d =? CARRIER_FLAG_DOMAIN_USER)))
  (map Z.of_nat (seq 0 256)) = true.
Proof. by vm_compute. Qed.
Lemma domain_ok h count index : is_digit 256 (flags h) -> flags_ok (flags h) count index = true ->
  exists d, domain (E:=CarrierError) h = Ok d.
Proof.
  intros Hd Hf. unfold flags_ok in Hf. rewrite !andb_true_iff in Hf. destruct Hf as (((_ & Hf) & _) & _).
  pose proof (proj1 (forallb_forall _ _) domain_table (flags h)) as Ht. cbv beta zeta in Ht. rewrite Hf in Ht.
  unfold domain. destruct (_ =? 0); [by eexists|]. destruct (_ =? CARRIER_FLAG_DOMAIN_ROLLUP); [by eexists|].
  destruct (_ =? CARRIER_FLAG_DOMAIN_ORACLE); [by eexists|]. destruct (_ =? CARRIER_FLAG_DOMAIN_USER); [by eexists|].
  discriminate Ht. apply in_map_iff. exists (Z.to_nat (flags h)). unfold is_digit in Hd. split; [lia|]. apply in_seq. lia.
Qed.

(** ** Theorems *)

(** A blob of at most 2 MiB is encoded, and its carrier scripts, handed
    over in any order, parse and reassemble to that blob. *)
Theorem bundle_roundtrip `{Sha3} blob d : zlen blob <= MAX_FRAGMENTS * MAX_DATA_PER_CARRIER ->
  exists scripts, encode_bundle blob d = Ok scripts /\
    forall scripts', scripts' ≡ₚ scripts -> parse_and_reassemble scripts' = Ok blob.
Proof.
  intros Hl. pose proof (encode_bundle_ok blob d Hl) as He. eexists. split; [exact He|].
  intros scripts' Hp. pose proof (encode_bundle_inv blob d _ He) as Hc.
  rewrite <- (map_map (fragment blob d) ri_script) in Hp.
  destruct (Permutation_map_inv ri_script _ Hp) as (l & -> & Hpl).
  destruct (fragments_whole blob d Hc) as (Hty & Hw & Hdata).
  unfold parse_and_reassemble.
  assert (res_mapM parse_input (map ri_script l) = Ok l) as Hparse.
  { assert (forall x, x ∈ l -> parse_input (ri_script x) = Ok x) as Hx.
    { intros x Hx. rewrite <- Hpl in Hx. apply list_elem_of_fmap in Hx as (i & -> & Hi). apply elem_of_seq in Hi.
      apply parse_fragment; [lia|done]. }
    clear -Hx. induction l as [|x l IH]; [done|]. cbn [map res_mapM]. rewrite Hx by left. cbn [mbind res_bind].
    rewrite IH; [done|]. intros y Hy. apply Hx. by right. }
  rewrite Hparse. cbn [mbind res_bind].
  rewrite (reassemble_ok l _ _ _ ltac:(by rewrite <- Hpl) Hpl Hw). by rewrite Hdata.
Qed.
Lemma bundle_roundtrip_witness :
  exists scripts, encode_bundle (H:=toy_sha3) [1; 2; 3] (Some Oracle) = Ok scripts /\
    parse_and_reassemble (H:=toy_sha3) (rev scripts) = Ok [1; 2; 3].
Proof.
  destruct (bundle_roundtrip (H:=toy_sha3) [1; 2; 3] (Some Oracle)) as (scripts & He & Hp); [by vm_compute|].
  exists scripts. split; [exact He|]. apply Hp. symmetry. apply Permutation_rev.
Defined.

(** [reassemble] on any typed inputs, hand-built headers included: it
    neither panics nor loops, and it returns [out] exactly when the inputs are,
    in some order, all fragments [0..count-1] of one bundle whose data
    concatenates to [out] and hashes to the common identifier. *)
Theorem reassemble_exact `{Sha3} inputs : Forall typed_input inputs ->
  is_result (reassemble inputs) /\
  forall out, reassemble inputs = Ok out <->
    exists l count bid, l ≡ₚ inputs /\ whole count bid l /\ out = concat (map fragment_data l).
Proof.
  intros Hty. split.
  - by destruct (reassemble_cases inputs Hty) as [(l & count & bid & _ & _ & ->)|[_ [e ->]]].
  - intros out. split.
    + intros Hr. destruct (reassemble_cases inputs Hty) as [(l & count & bid & Hl & Hw & He)|[_ [e He]]]; [|congruence].
      exists l, count, bid. split_and!; [done..|]. congruence.
    + intros (l & count & bid & Hl & Hw & ->). by eapply reassemble_ok.
Qed.
Lemma reassemble_exact_witness :
  let x := fragment (H:=toy_sha3) [7; 8] None 0 in reassemble (H:=toy_sha3) [x] = Ok [7; 8].
Proof.
  intros x. apply (proj2 (reassemble_exact (H:=toy_sha3) [x] ltac:(by repeat constructor))).
  exists [x], 1, (bundle_id_of (H:=toy_sha3) [7; 8]). split; [done|]. split; [|by vm_compute].
  split_and!; [done|by repeat constructor|by repeat constructor|by vm_compute|by vm_compute].
Defined.

(** A bundle identifier names one blob: two successful reassemblies with
    the same identifier return the same bytes, or exhibit a SHA3-384
    collision. *)
Theorem bundle_id_binds `{Sha3} xs ys bx by_ : Forall typed_input xs -> Forall typed_input ys ->
  reassemble xs = Ok bx -> reassemble ys = Ok by_ ->
  (exists x y, x ∈ xs /\ y ∈ ys /\ bundle_id (ri_header x) = bundle_id (ri_header y)) ->
  bx = by_ \/ sha3_collision.
Proof.
  assert (forall zs b z, Forall typed_input zs -> reassemble zs = Ok b -> z ∈ zs -> sha3_384 b = bundle_id (ri_header z)) as Hid.
  { intros zs b z Hty Hz Hin. destruct (reassemble_cases zs Hty) as [(l & count & bid & Hl & Hw & He)|[_ [e He]]]; [|congruence].
    destruct Hw as (_ & Ha & _ & _ & Hh). rewrite Hl, Forall_forall in Ha. destruct (Ha z Hin) as [_ ->].
    rewrite <- Hh. unfold bundle_id_of. congruence. }
  intros Hx Hy Hrx Hry (x & y & Hxin & Hyin & Heq). destruct (decide (bx = by_)) as [|Hne]; [by left|right].
  exists bx, by_. split; [done|]. by rewrite (Hid xs bx x), (Hid ys by_ y), Heq.
Qed.
Lemma bundle_id_binds_witness :
  let x := fragment (H:=toy_sha3) [7; 8] None 0 in [7; 8] = [7; 8] \/ sha3_collision (H:=toy_sha3).
Proof.
  intros x. apply (bundle_id_binds (H:=toy_sha3) [x] [x]); [by repeat constructor|by repeat constructor|by vm_compute..|].
  exists x, x. split_and!; [left|left|done].
Defined.

(** A byte string parses as a carrier header exactly when it is the
    encoding of that header's fields and some data, with the flag byte
    consistent with the fragment position; and then the routing tag is
    well defined (the [unreachable!] arm of [domain] is not reached). *)
Theorem carrier_exact script h : is_bytes script ->
  is_result (parse_carrier_header script) /\
  (parse_carrier_header script = Ok h <->
   zlen (bundle_id h) = CARRIER_PAYLOAD_HASH_LEN /\ flags_ok (flags h) (fragment_count h) (fragment_index h) = true /\
   exists data, data_len h = zlen data /\ 1 <= fragment_count h /\
     encode_carrier_script (flags h) (fragment_count h) (fragment_index h) data (bundle_id h) = Ok script) /\
  (parse_carrier_header script = Ok h -> exists d, domain (E:=CarrierError) h = Ok d).
Proof.
  intros Hb. split_and!; [by apply parse_carrier_total|split|].
  - intros Hp. destruct (parse_carrier_inv script h Hb Hp) as (Hbid & _ & Hf & Hc & Hi & data & Hd & Hl & ->).
    split_and!; [done..|]. exists data. split_and!; [done|lia|]. by apply encode_carrier_iff; [lia|].
  - intros (Hbid & Hf & data & Hd & Hc & He). apply encode_carrier_iff in He as (Hc' & Hi & Hl & ->); [|lia].
    rewrite parse_carrier_ok by done. destruct h. simpl in *. by subst.
  - intros Hp. destruct (parse_carrier_inv script h Hb Hp) as (_ & Hd & Hf & _). by eapply domain_ok.
Qed.
Lemma carrier_exact_witness :
  let s := carrier 2 1 0 [9] (repeat 0 48) in
  parse_carrier_header s = Ok {| flags := 2; fragment_count := 1; fragment_index := 0; data_len := 1; bundle_id := repeat 0 48 |}.
Proof.
  intros s. apply (carrier_exact s {| flags := 2; fragment_count := 1; fragment_index := 0; data_len := 1; bundle_id := repeat 0 48 |}).
  - apply is_bytes_compute. by vm_compute.
  - split_and!; [done|done|]. exists [9]. by vm_compute.
Defined.
