(* ===== verification/Svm.v ===== *)
(** * Contract and token data of the sVM

    The data types of [svm/core/src] ([capability.rs], [upgrade_policy.rs],
    [manifest.rs], [utxo.rs], [token.rs], [deploy.rs], [mint_policy.rs]) with
    their Borsh encodings, and the bytecode checks of
    [svm/runtime/src/validator.rs].

    A [codec] is an encoder, a decoder that returns the unread rest, and the
    two laws between them; the codecs of the structures are composed the way
    the derive macros compose them (fields in order, a tag byte for an
    enumeration or an option, a 32-bit length for a vector).  Two results
    follow for every structure: what was encoded is decoded, and a byte string
    decodes to at most one value and only if it is that value's encoding, so
    that a contract or token output has one wire form.

    [wasmparser] is a dependency: the class [WasmParser] gives the sequence of
    payloads it yields on a byte string, and an operator is its name in that
    crate. *)
From stdpp Require Import strings.
From S2P Require Import Prelude Encode.

#[local] Unset Program Cases.

(** ** Borsh *)
Record codec (A : Type) := {
  ser : A -> bytes;
  de : bytes -> option (A * bytes);
  valid : A -> Prop;
  de_ser x r : valid x -> de (ser x ++ r) = Some (x, r);
  ser_de b x r : is_bytes b -> de b = Some (x, r) -> valid x /\ b = ser x ++ r;
}.
Arguments ser {A} c x.
Arguments de {A} c b.
Arguments valid {A} c x.

(** [BorshDeserialize::try_from_slice]: everything must be consumed. *)
Definition try_from_slice {A} (c : codec A) (b : bytes) : option A :=
  match de c b with
  | Some (x, []) => Some x
  | _ => None
  end.

(** A fixed number of bytes. *)
Definition read_n (n : nat) (b : bytes) : option (bytes * bytes) :=
  if decide (n <= length b)%nat then Some (take n b, drop n b) else None.
Lemma read_n_app n b r : length b = n -> read_n n (b ++ r) = Some (b, r).
Proof.
  intros <-. unfold read_n. rewrite decide_True by (rewrite length_app; lia).
  by rewrite take_app_length, drop_app_length.
Qed.
Lemma read_n_inv n b x r : read_n n b = Some (x, r) -> b = x ++ r /\ length x = n.
Proof.
  unfold read_n. case_decide; [|done]. intros [= <- <-]. rewrite take_drop, length_take. split; [done|lia].
Qed.

Program Definition borsh_array (n : nat) : codec bytes := {|
  ser x := x;
  de b := read_n n b;
  valid x := length x = n /\ is_bytes x;
|}.
Next Obligation. intros n x r [Hl _]. by apply read_n_app. Qed.
Next Obligation.
  intros n b x r Hb [-> Hl]%read_n_inv. apply Forall_app in Hb as [Hb _]. done.
Qed.

(** A codec transported along a bijection between values. *)
Section iso.
Context {A B : Type} (f : A -> B) (g : B -> A) (P : B -> Prop) (c : codec A).
Hypothesis (gf : forall y, P y -> f (g y) = y /\ valid c (g y)).
Hypothesis (fg : forall x, valid c x -> g (f x) = x /\ P (f x)).
Program Definition borsh_iso : codec B := {|
  ser y := ser c (g y);
  de b := '(x, r) ← de c b; Some (f x, r);
  valid := P;
|}.
Next Obligation. intros y r Hy. destruct (gf y Hy) as [He Hv]. rewrite de_ser by done. simpl. by rewrite He. Qed.
Next Obligation.
  intros b y r Hb H. cbv beta in *. destruct (de c b) as [[x r']|] eqn:Hd; [|done]. injection H as <- <-.
  apply ser_de in Hd as [Hv ->]; [|done]. destruct (fg x Hv) as [-> HP]. done.
Qed.
End iso.

(** Little-endian integers of [n] bytes, and hashes. *)
Program Definition borsh_uint (n : nat) : codec Z :=
  borsh_iso (undigits 256) (digits 256 n) (inW (8 * Z.of_nat n)) (borsh_array n) _ _.
Next Obligation.
  intros n y Hy. split; [by apply undigits_digits_small|]. split; [apply length_digits|apply digits_range; lia].
Qed.
Next Obligation.
  intros n x [Hl Hb]. split; [by apply digits_undigits_len; [|unfold zlen; lia]|].
  unfold inW. pose proof (undigits_range 256 ltac:(lia) x Hb) as Hr. unfold zlen in Hr. rewrite Hl in Hr.
  rewrite Z.pow_mul_r by lia. exact Hr.
Qed.
Definition borsh_u8 : codec Z := borsh_uint 1.
Definition borsh_u32 : codec Z := borsh_uint 4.
Definition borsh_u64 : codec Z := borsh_uint 8.
Program Definition borsh_hash : codec Hash :=
  borsh_iso from_bytes as_bytes (inW 256) (borsh_array 32) _ _.
Next Obligation.
  intros y Hy. unfold from_bytes, as_bytes. rewrite rev_involutive. split; [by apply (undigits_digits_small 32)|].
  split; [by rewrite length_rev, length_digits|]. apply Forall_rev, digits_range. lia.
Qed.
Next Obligation.
  intros x [Hl Hb]. unfold from_bytes, as_bytes. apply Forall_rev in Hb as Hr.
  assert (zlen (rev x) = 32) as Hz by (unfold zlen; by rewrite length_rev, Hl).
  split; [by rewrite (digits_undigits_len 32), rev_involutive|].
  pose proof (undigits_range 256 ltac:(lia) (rev x) Hr) as Hu. by rewrite Hz in Hu.
Qed.

(** Fields in order. *)
Program Definition borsh_pair {A B} (a : codec A) (b : codec B) : codec (A * B) := {|
  ser p := ser a p.1 ++ ser b p.2;
  de s := '(x, r) ← de a s; '(y, r) ← de b r; Some ((x, y), r);
  valid p := valid a p.1 /\ valid b p.2;
|}.
Next Obligation.
  intros A B a b [x y] r [Hx Hy]. cbn [fst snd] in *. rewrite <- app_assoc, de_ser by done. simpl. by rewrite de_ser.
Qed.
Next Obligation.
  intros A B a b s [x y] r Hb H. cbv beta in *. destruct (de a s) as [[x' r1]|] eqn:Ha; [|done]. cbn in H.
  destruct (de b r1) as [[y' r2]|] eqn:Hd; [|done]. injection H as <- <- <-.
  apply ser_de in Ha as [Hx ->]; [|done]. apply Forall_app in Hb as [_ Hb].
  apply ser_de in Hd as [Hy ->]; [|done]. cbn [fst snd]. by rewrite <- app_assoc.
Qed.

(** [Option<T>]: a tag byte 0 or 1. *)
Program Definition borsh_option {A} (c : codec A) : codec (option A) := {|
  ser o := match o with None => [0] | Some x => 1 :: ser c x end;
  de s := match s with
          | 0 :: r => Some (None, r)
          | 1 :: r => '(x, r) ← de c r; Some (Some x, r)
          | _ => None
          end;
  valid o := match o with None => True | Some x => valid c x end;
|}.
Next Obligation. intros A c [x|] r Hx; [|done]. cbn [app]. by rewrite de_ser. Qed.
Next Obligation.
  intros A c s o r Hb H. cbv beta in *. destruct s as [|t s]; [done|]. apply Forall_cons in Hb as [_ Hb].
  destruct t as [|[]|]; try done; [by injection H as <- <-|].
  destruct (de c s) as [[x r']|] eqn:Hd; [|done]. injection H as <- <-.
  apply ser_de in Hd as [Hx ->]; [|done]. done.
Qed.

(** [Vec<T>]: a 32-bit length and the elements. *)
Fixpoint de_list {A} (c : codec A) (n : nat) (s : bytes) : option (list A * bytes) :=
  match n with
  | O => Some ([], s)
  | S n => '(x, r) ← de c s; '(l, r) ← de_list c n r; Some (x :: l, r)
  end.
Lemma de_list_ok {A} (c : codec A) l r : Forall (valid c) l ->
  de_list c (length l) (concat (map (ser c) l) ++ r) = Some (l, r).
Proof.
  induction 1 as [|x l Hx Hl IH]; [done|]. cbn [length de_list map concat].
  rewrite <- app_assoc, de_ser by done. simpl. by rewrite IH.
Qed.
Lemma de_list_inv {A} (c : codec A) n s l r : is_bytes s -> de_list c n s = Some (l, r) ->
  Forall (valid c) l /\ length l = n /\ s = concat (map (ser c) l) ++ r.
Proof.
  revert s l. induction n as [|n IH]; intros s l Hb H; cbn in H.
  { injection H as <- <-. split; [by apply Forall_nil|done]. }
  destruct (de c s) as [[x r1]|] eqn:Hd; [|done]. cbn in H.
  destruct (de_list c n r1) as [[l' r2]|] eqn:Hl; [|done]. injection H as <- <-.
  apply ser_de in Hd as [Hx ->]; [|done]. apply Forall_app in Hb as [_ Hb].
  destruct (IH r1 l' Hb Hl) as (Hv & Hlen & ->). split_and!; [by constructor|simpl; lia|].
  cbn [map concat]. by rewrite <- app_assoc.
Qed.
Program Definition borsh_vec {A} (c : codec A) : codec (list A) := {|
  ser l := digits 256 4 (zlen l) ++ concat (map (ser c) l);
  de s := '(n, r) ← de borsh_u32 s; de_list c (Z.to_nat n) r;
  valid l := inW 32 (zlen l) /\ Forall (valid c) l;
|}.
Next Obligation.
  intros A c l r [Hn Hl]. rewrite <- app_assoc.
  change (digits 256 4 (zlen l)) with (ser borsh_u32 (zlen l)).
  rewrite de_ser by done. cbn [mbind option_bind]. unfold zlen. rewrite Nat2Z.id. by apply de_list_ok.
Qed.
Next Obligation.
  intros A c s l r Hb H. cbv beta in *. destruct (de borsh_u32 s) as [[n r1]|] eqn:Hn; [|done].
  apply ser_de in Hn as [Hv ->]; [|done]. apply Forall_app in Hb as [_ Hb]. cbn [mbind option_bind] in H.
  apply de_list_inv in H as (Hl & Hlen & ->); [|done]. change (inW 32 n) in Hv.
  assert (zlen l = n) as -> by (unfold zlen, inW in *; lia). by rewrite <- app_assoc.
Qed.
Definition borsh_bytes : codec bytes := borsh_vec borsh_u8.

(** Decoding a whole slice. *)
Lemma try_from_slice_ok {A} (c : codec A) x : valid c x -> try_from_slice c (ser c x) = Some x.
Proof.
  intros Hx. unfold try_from_slice. rewrite <- (app_nil_r (ser c x)), de_ser by done. done.
Qed.
Lemma try_from_slice_inv {A} (c : codec A) b x : is_bytes b -> try_from_slice c b = Some x -> valid c x /\ b = ser c x.
Proof.
  unfold try_from_slice. intros Hb H. destruct (de c b) as [[y [|]]|] eqn:Hd; [|done..]. injection H as ->.
  apply ser_de in Hd as [Hv ->]; [|done]. by rewrite app_nil_r.
Qed.

(** A record with the fields of a tuple. *)
Section record.
Context {A B : Type} (f : A -> B) (g : B -> A) (c : codec A).
Hypothesis (gf : forall y, f (g y) = y).
Hypothesis (fg : forall x, g (f x) = x).
Program Definition borsh_record : codec B := borsh_iso f g (fun y => valid c (g y)) c _ _.
Next Obligation. intros y Hy. by split. Qed.
Next Obligation. intros x Hx. cbv beta. by rewrite fg. Qed.
End record.

(** ** Capabilities *)
Inductive Capability :=
| ReadUtxo | ProduceOutput | VerifyDilithium | ReadBlockHeight | HashSha3 | VerifyRisc0Proof
| VerifyPlonky3Proof | VerifyDataAvailability | ResolveAlt | EmitEvent | VrfRandomness.
#[export] Instance Capability_eq_dec : EqDecision Capability.
Proof. solve_decision. Defined.
(** The variants in the order of declaration, which numbers them. *)
Definition capabilities : list Capability :=
  [ReadUtxo; ProduceOutput; VerifyDilithium; ReadBlockHeight; HashSha3; VerifyRisc0Proof;
   VerifyPlonky3Proof; VerifyDataAvailability; ResolveAlt; EmitEvent; VrfRandomness].
Definition capability_tag (c : Capability) : u8 :=
  match c with
  | ReadUtxo => 0 | ProduceOutput => 1 | VerifyDilithium => 2 | ReadBlockHeight => 3 | HashSha3 => 4
  | VerifyRisc0Proof => 5 | VerifyPlonky3Proof => 6 | VerifyDataAvailability => 7 | ResolveAlt => 8
  | EmitEvent => 9 | VrfRandomness => 10
  end.
Lemma capabilities_lookup n c : capabilities !! n = Some c -> capability_tag c = Z.of_nat n.
Proof. do 11 (destruct n as [|n]; [by intros [= <-]|]). done. Qed.
Program Definition borsh_capability : codec Capability := {|
  ser c := [capability_tag c];
  de s := match s with
          | t :: r => c ← capabilities !! Z.to_nat t; Some (c, r)
          | [] => None
          end;
  valid c := True;
|}.
Next Obligation. by intros [] r _. Qed.
Next Obligation.
  intros s c r Hb H. cbv beta in *. destruct s as [|t s]; [done|]. apply Forall_cons in Hb as [Ht _].
  destruct (capabilities !! Z.to_nat t) as [c'|] eqn:Hc; [|done]. injection H as <- <-. split; [done|].
  apply capabilities_lookup in Hc. unfold is_digit in Ht. rewrite Hc, Z2Nat.id by lia. done.
Qed.

(** ** Upgrade policies *)
Inductive UpgradePolicy :=
| Immutable
| OwnerTimelock (owner_pk : bytes) (min_blocks : u64)
| MultisigTimelock (threshold : u8) (keys : list bytes) (min_blocks : u64).
Definition UPGRADE_MIN_BLOCKS : u64 := 10000.
Definition MAX_MULTISIG_KEYS : usize := 16.
Definition min_blocks (p : UpgradePolicy) : option u64 :=
  match p with
  | Immutable => None
  | OwnerTimelock _ m => Some m
  | MultisigTimelock _ _ m => Some m
  end.
Definition policy_is_valid (p : UpgradePolicy) : bool :=
  match p with
  | Immutable => true
  | OwnerTimelock _ m => UPGRADE_MIN_BLOCKS <=? m
  | MultisigTimelock t keys m =>
      (UPGRADE_MIN_BLOCKS <=? m) && (0 <? t) && (0 <? zlen keys) && (zlen keys <=? MAX_MULTISIG_KEYS) && (t <=? zlen keys)
  end.

Definition borsh_owner : codec (bytes * Z) := borsh_pair (borsh_array 1312) borsh_u64.
Definition borsh_multisig : codec (Z * (list bytes * Z)) :=
  borsh_pair borsh_u8 (borsh_pair (borsh_vec (borsh_array 1312)) borsh_u64).
Program Definition borsh_policy : codec UpgradePolicy := {|
  ser p := match p with
           | Immutable => [0]
           | OwnerTimelock k m => 1 :: ser borsh_owner (k, m)
           | MultisigTimelock t ks m => 2 :: ser borsh_multisig (t, (ks, m))
           end;
  de s := match s with
          | 0 :: r => Some (Immutable, r)
          | 1 :: r => '((k, m), r) ← de borsh_owner r; Some (OwnerTimelock k m, r)
          | 2 :: r => '((t, (ks, m)), r) ← de borsh_multisig r; Some (MultisigTimelock t ks m, r)
          | _ => None
          end;
  valid p := match p with
             | Immutable => True
             | OwnerTimelock k m => valid borsh_owner (k, m)
             | MultisigTimelock t ks m => valid borsh_multisig (t, (ks, m))
             end;
|}.
Next Obligation. intros [|k m|t ks m] r Hv; [done|..]; cbn [app]; by rewrite de_ser. Qed.
Next Obligation.
  intros s p r Hb H. cbv beta in *. destruct s as [|t s]; [done|]. apply Forall_cons in Hb as [_ Hb].
  destruct t as [|[|[]|]|]; try done.
  - by injection H as <- <-.
  - destruct (de borsh_multisig s) as [[[t [ks m]] r']|] eqn:Hd; [|done]. injection H as <- <-.
    apply ser_de in Hd as [Hv ->]; done.
  - destruct (de borsh_owner s) as [[[k m] r']|] eqn:Hd; [|done]. injection H as <- <-.
    apply ser_de in Hd as [Hv ->]; done.
Qed.

(** ** Manifests, outputs and payloads *)
Record ContractManifest := {
  script_hash : Hash;
  upgrade_policy : UpgradePolicy;
  required_capabilities : list Capability;
}.
Definition has_capability (m : ContractManifest) (cap : Capability) : bool :=
  bool_decide (cap ∈ required_capabilities m).
Record ContractUtxoData := {
  contract_id : Hash;
  datum : bytes;
  manifest : ContractManifest;
}.
Record NativeTokenUtxoData := {
  token_id : Hash;
  token_amount : u64;
  lock_script : bytes;
  transfer_policy_id : option Hash;
}.
Definition MAX_TOKEN_LOCK_SCRIPT_LEN : usize := 200.
(** [ContractDeployPayload] and [MintingPolicyPayload] have one field. *)
Record WasmPayload := { wasm : bytes }.

Program Definition borsh_manifest : codec ContractManifest :=
  borsh_record (fun p => {| script_hash := p.1; upgrade_policy := p.2.1; required_capabilities := p.2.2 |})
    (fun m => (script_hash m, (upgrade_policy m, required_capabilities m)))
    (borsh_pair borsh_hash (borsh_pair borsh_policy (borsh_vec borsh_capability))) _ _.
Next Obligation. by intros []. Qed.
Next Obligation. by intros (?&?&?). Qed.
Program Definition borsh_contract : codec ContractUtxoData :=
  borsh_record (fun p => {| contract_id := p.1; datum := p.2.1; manifest := p.2.2 |})
    (fun d => (contract_id d, (datum d, manifest d)))
    (borsh_pair borsh_hash (borsh_pair borsh_bytes borsh_manifest)) _ _.
Next Obligation. by intros []. Qed.
Next Obligation. by intros (?&?&?). Qed.
Program Definition borsh_token : codec NativeTokenUtxoData :=
  borsh_record (fun p => {| token_id := p.1; token_amount := p.2.1; lock_script := p.2.2.1; transfer_policy_id := p.2.2.2 |})
    (fun d => (token_id d, (token_amount d, (lock_script d, transfer_policy_id d))))
    (borsh_pair borsh_hash (borsh_pair borsh_u64 (borsh_pair borsh_bytes (borsh_option borsh_hash)))) _ _.
Next Obligation. by intros []. Qed.
Next Obligation. by intros (?&?&?&?). Qed.
Program Definition borsh_wasm : codec WasmPayload :=
  borsh_record (fun p => {| wasm := p |}) wasm borsh_bytes _ _.
Next Obligation. by intros []. Qed.
Next Obligation. done. Qed.

(** Identifiers, separated by the key of the hash. *)
Definition hash_wasm `{Blake2b} (w : bytes) : Hash := finalize (bytes_of_string "ContractWasm") w.
Definition hash_mint_policy `{Blake2b} (w : bytes) : Hash := finalize (bytes_of_string "MintPolicy") w.

(** ** Bytecode checks

    What [wasmparser] yields on a byte string: payloads, each possibly an
    error, and inside a payload items that are possibly errors.  An operator
    is the name of its variant in the crate's [Operator]. *)
Inductive TypeRef := FuncType | MemoryType (shared : bool) | OtherType.
Record Import := { import_module : string; import_name : string; import_ty : TypeRef }.
Record MemoryDecl := { mem_shared : bool; mem_maximum : option u64 }.
Inductive Payload :=
| CodeSectionEntry (operators : option (list (option string)))
| ImportSection (imports : list (option Import))
| MemorySection (memories : list (option MemoryDecl))
| OtherPayload.
Class WasmParser := { parse_all : bytes -> list (option Payload) }.

Inductive RuntimeError :=
| FloatForbidden
| ThreadsForbidden
| MemoryTooLarge (pages limit : u64)
| MemoryUnbounded
| BytecodeTooLarge (size limit : usize)
| ValidationFailed
| UnknownHostImport (name : string)
| CapabilityNotDeclared (host_fn : string) (capability : Capability).

Definition MAX_BYTECODE_SIZE : usize := 1024 * 1024.
Definition MAX_MEMORY_PAGES : u32 := 256.

Definition f32_ops : list string :=
  ["F32Load"; "F32Store"; "F32Const"; "F32Abs"; "F32Neg"; "F32Ceil"; "F32Floor"; "F32Trunc"; "F32Nearest";
   "F32Sqrt"; "F32Add"; "F32Sub"; "F32Mul"; "F32Div"; "F32Min"; "F32Max"; "F32Copysign"; "F32Eq"; "F32Ne";
   "F32Lt"; "F32Gt"; "F32Le"; "F32Ge"; "I32TruncF32S"; "I32TruncF32U"; "I32TruncF64S"; "I32TruncF64U";
   "I64TruncF32S"; "I64TruncF32U"; "I64TruncF64S"; "I64TruncF64U"; "F32ConvertI32S"; "F32ConvertI32U";
   "F32ConvertI64S"; "F32ConvertI64U"; "F32DemoteF64"; "F64PromoteF32"; "I32ReinterpretF32";
   "F32ReinterpretI32"]%string.
Definition f64_ops : list string :=
  ["F64Load"; "F64Store"; "F64Const"; "F64Abs"; "F64Neg"; "F64Ceil"; "F64Floor"; "F64Trunc"; "F64Nearest";
   "F64Sqrt"; "F64Add"; "F64Sub"; "F64Mul"; "F64Div"; "F64Min"; "F64Max"; "F64Copysign"; "F64Eq"; "F64Ne";
   "F64Lt"; "F64Gt"; "F64Le"; "F64Ge"; "F64ConvertI32S"; "F64ConvertI32U"; "F64ConvertI64S"; "F64ConvertI64U";
   "I64ReinterpretF64"; "F64ReinterpretI64"]%string.
Definition atomic_ops : list string :=
  ["MemoryAtomicNotify"; "MemoryAtomicWait32"; "MemoryAtomicWait64"; "I32AtomicLoad"; "I64AtomicLoad";
   "I32AtomicLoad8U"; "I32AtomicLoad16U"; "I64AtomicLoad8U"; "I64AtomicLoad16U"; "I64AtomicLoad32U";
   "I32AtomicStore"; "I64AtomicStore"; "I32AtomicStore8"; "I32AtomicStore16"; "I64AtomicStore8";
   "I64AtomicStore16"; "I64AtomicStore32"; "I32AtomicRmwAdd"; "I64AtomicRmwAdd"]%string.
Definition simd_float_ops : list string :=
  ["F32x4Splat"; "F32x4ExtractLane"; "F32x4ReplaceLane"; "F32x4Eq"; "F32x4Ne"; "F32x4Lt"; "F32x4Gt";
   "F32x4Le"; "F32x4Ge"; "F32x4Abs"; "F32x4Neg"; "F32x4Sqrt"; "F32x4Ceil"; "F32x4Floor"; "F32x4Trunc";
   "F32x4Nearest"; "F32x4Add"; "F32x4Sub"; "F32x4Mul"; "F32x4Div"; "F32x4Min"; "F32x4Max"; "F32x4PMin";
   "F32x4PMax"; "F32x4ConvertI32x4S"; "F32x4ConvertI32x4U"; "F32x4DemoteF64x2Zero"; "F32x4RelaxedMadd";
   "F32x4RelaxedNmadd"; "F32x4RelaxedMin"; "F32x4RelaxedMax"; "F64x2Splat"; "F64x2ExtractLane";
   "F64x2ReplaceLane"; "F64x2Eq"; "F64x2Ne"; "F64x2Lt"; "F64x2Gt"; "F64x2Le"; "F64x2Ge"; "F64x2Abs";
   "F64x2Neg"; "F64x2Sqrt"; "F64x2Ceil"; "F64x2Floor"; "F64x2Trunc"; "F64x2Nearest"; "F64x2Add"; "F64x2Sub";
   "F64x2Mul"; "F64x2Div"; "F64x2Min"; "F64x2Max"; "F64x2PMin"; "F64x2PMax"; "F64x2ConvertLowI32x4S";
   "F64x2ConvertLowI32x4U"; "F64x2PromoteLowF32x4"; "F64x2RelaxedMadd"; "F64x2RelaxedNmadd";
   "F64x2RelaxedMin"; "F64x2RelaxedMax"; "I32x4TruncSatF32x4S"; "I32x4TruncSatF32x4U";
   "I32x4TruncSatF64x2SZero"; "I32x4TruncSatF64x2UZero"; "I32x4RelaxedTruncF32x4S"; "I32x4RelaxedTruncF32x4U";
   "I32x4RelaxedTruncF64x2SZero"; "I32x4RelaxedTruncF64x2UZero"]%string.

Definition reject_float_or_thread (op : string) : res RuntimeError unit :=
  if bool_decide (op ∈ f32_ops) then Err FloatForbidden
  else if bool_decide (op ∈ f64_ops) then Err FloatForbidden
  else if bool_decide (op ∈ atomic_ops) then Err ThreadsForbidden
  else if bool_decide (op ∈ simd_float_ops) then Err FloatForbidden
  else Ok tt.

(** [for item in reader { let item = item.map_err(..)?; f(item)?; }] *)
Fixpoint for_items {A} (f : A -> res RuntimeError unit) (l : list (option A)) : res RuntimeError unit :=
  match l with
  | [] => Ok tt
  | o :: l => x ← ok_or o ValidationFailed; _ ← f x; for_items f l
  end.

Definition check_import (i : Import) : res RuntimeError unit :=
  match import_ty i with
  | MemoryType true => Err ThreadsForbidden
  | _ => Ok tt
  end.
Definition check_memory (m : MemoryDecl) : res RuntimeError unit :=
  _ ← fail_if (mem_shared m) ThreadsForbidden;
  max_pages ← ok_or (mem_maximum m) MemoryUnbounded;
  fail_if (MAX_MEMORY_PAGES <? max_pages) (MemoryTooLarge max_pages MAX_MEMORY_PAGES).
Definition check_payload (p : Payload) : res RuntimeError unit :=
  match p with
  | CodeSectionEntry ops => l ← ok_or ops ValidationFailed; for_items reject_float_or_thread l
  | ImportSection imps => for_items check_import imps
  | MemorySection ms => for_items check_memory ms
  | OtherPayload => Ok tt
  end.
Definition validate_bytecode `{WasmParser} (w : bytes) (max_size : usize) : res RuntimeError unit :=
  _ ← fail_if (max_size <? zlen w) (BytecodeTooLarge (zlen w) max_size);
  for_items check_payload (parse_all w).

Definition HOST_FN_CAPABILITY_MAP : list (string * Capability) :=
  [("get_input_utxo", ReadUtxo); ("get_output_utxo", ReadUtxo); ("get_block_height", ReadBlockHeight);
   ("verify_dilithium", VerifyDilithium); ("sha3_384", HashSha3); ("verify_risc0_proof", VerifyRisc0Proof);
   ("verify_plonky3_proof", VerifyPlonky3Proof); ("sophis_emit_event", EmitEvent);
   ("sophis_vrf_random_at", VrfRandomness); ("sophis_alt_lookup", ResolveAlt);
   ("sophis_verify_da", VerifyDataAvailability)]%string.
(** [iter().find_map(..)] on the table. *)
Fixpoint find_capability (name : string) (l : list (string * Capability)) : option Capability :=
  match l with
  | [] => None
  | (n, cap) :: l => if bool_decide (n = name) then Some cap else find_capability name l
  end.
Definition check_import_capability (required : list Capability) (i : Import) : res RuntimeError unit :=
  if negb (bool_decide (import_module i = "env"%string)) then Ok tt else
  match import_ty i with
  | FuncType =>
      needed ← ok_or (find_capability (import_name i) HOST_FN_CAPABILITY_MAP) (UnknownHostImport (import_name i));
      fail_if (negb (bool_decide (needed ∈ required))) (CapabilityNotDeclared (import_name i) needed)
  | _ => Ok tt
  end.
Definition check_imports_payload (required : list Capability) (p : Payload) : res RuntimeError unit :=
  match p with
  | ImportSection imps => for_items (check_import_capability required) imps
  | _ => Ok tt
  end.
Definition validate_imports_against_manifest `{WasmParser} (w : bytes) (required : list Capability) : res RuntimeError unit :=
  for_items (check_imports_payload required) (parse_all w).

(** ** Lemmas *)
Lemma for_items_iff {A} (f : A -> res RuntimeError unit) l :
  for_items f l = Ok tt <-> exists xs, l = map Some xs /\ Forall (fun x => f x = Ok tt) xs.
Proof.
  induction l as [|[x|] l IH]; cbn [for_items ok_or mbind res_bind].
  - split; [intros _; exists []; split; [done|by apply Forall_nil]|done].
  - destruct (f x) as [[]| | |] eqn:Hf; cbn [mbind res_bind].
    + rewrite IH. split.
      * intros (xs & -> & Hx). exists (x :: xs). split; [done|by constructor].
      * intros ([|y xs] & Heq & Hx); [done|]. injection Heq as -> ->. apply Forall_cons in Hx as [_ Hx]. by exists xs.
    + split; [done|]. intros ([|y xs] & Heq & Hx); [done|]. injection Heq as -> ->. apply Forall_cons in Hx as [Hx _]. congruence.
    + split; [done|]. intros ([|y xs] & Heq & Hx); [done|]. injection Heq as -> ->. apply Forall_cons in Hx as [Hx _]. congruence.
    + split; [done|]. intros ([|y xs] & Heq & Hx); [done|]. injection Heq as -> ->. apply Forall_cons in Hx as [Hx _]. congruence.
  - split; [done|]. by intros ([|y xs] & Heq & _).
Qed.
Lemma Forall_iff_pointwise {A} (P Q : A -> Prop) l : (forall x, P x <-> Q x) -> Forall P l <-> Forall Q l.
Proof. intros H. rewrite !Forall_forall. split; intros Hl x Hx; by apply H, Hl. Qed.

(** What an accepted payload looks like. *)
Definition forbidden_ops : list string := f32_ops ++ f64_ops ++ atomic_ops ++ simd_float_ops.
Definition memory_ok (m : MemoryDecl) : Prop :=
  mem_shared m = false /\ exists pages, mem_maximum m = Some pages /\ pages <= MAX_MEMORY_PAGES.
Definition payload_ok (p : Payload) : Prop :=
  match p with
  | CodeSectionEntry ops => exists os, ops = Some (map Some os) /\ Forall (.∉ forbidden_ops) os
  | ImportSection imps => exists is_, imps = map Some is_ /\ Forall (fun i => import_ty i <> MemoryType true) is_
  | MemorySection ms => exists ds, ms = map Some ds /\ Forall memory_ok ds
  | OtherPayload => True
  end.
Definition import_declared (required : list Capability) (i : Import) : Prop :=
  import_module i = "env"%string -> import_ty i = FuncType ->
  exists cap, find_capability (import_name i) HOST_FN_CAPABILITY_MAP = Some cap /\ cap ∈ required.

Lemma reject_iff op : reject_float_or_thread op = Ok tt <-> op ∉ forbidden_ops.
Proof.
  unfold reject_float_or_thread, forbidden_ops. rewrite !not_elem_of_app.
  destruct (bool_decide_reflect (op ∈ f32_ops)); [split; [done|tauto]|].
  destruct (bool_decide_reflect (op ∈ f64_ops)); [split; [done|tauto]|].
  destruct (bool_decide_reflect (op ∈ atomic_ops)); [split; [done|tauto]|].
  destruct (bool_decide_reflect (op ∈ simd_float_ops)); [split; [done|tauto]|]. done.
Qed.
Lemma check_payload_iff p : check_payload p = Ok tt <-> payload_ok p.
Proof.
  destruct p as [[ops|]|imps|ms|]; simpl.
  - rewrite for_items_iff. setoid_rewrite (Forall_iff_pointwise _ (.∉ forbidden_ops)); [|apply reject_iff].
    split; intros (os & H1 & H2); exists os; (split; [congruence|done]).
  - split; [done|]. by intros (os & [=] & _).
  - rewrite for_items_iff. setoid_rewrite (Forall_iff_pointwise _ (fun i => import_ty i <> MemoryType true)); [done|].
    intros [m n [|[]|]]; unfold check_import; simpl; split; congruence.
  - rewrite for_items_iff. setoid_rewrite (Forall_iff_pointwise _ memory_ok); [done|].
    intros [sh [pages|]]; unfold check_memory, memory_ok, fail_if; simpl.
    + destruct sh; simpl; [split; [done|by intros [[=] _]]|].
      destruct (Z.ltb_spec MAX_MEMORY_PAGES pages); split; [done|intros (_ & q & [= <-] & ?); lia| |done].
      intros _. split; [done|]. by exists pages.
    + destruct sh; simpl; split; [done|by intros [[=] _]|done|by intros (_ & q & [=] & _)].
  - done.
Qed.
Lemma check_import_capability_iff required i : check_import_capability required i = Ok tt <-> import_declared required i.
Proof.
  unfold check_import_capability, import_declared.
  destruct (bool_decide_reflect (import_module i = "env"%string)) as [He|He]; cbn [negb]; [|by split].
  destruct (import_ty i); [|by split..].
  destruct (find_capability _ _) as [cap|]; cbn [ok_or mbind res_bind].
  - destruct (bool_decide_reflect (cap ∈ required)); cbn [negb fail_if]; split; try done; [by exists cap|].
    intros H. destruct (H He eq_refl) as (c & [= <-] & ?). done.
  - split; [done|]. intros H. by destruct (H He eq_refl) as (c & [=] & _).
Qed.

(** ** Theorems *)

(** Contract outputs and token outputs have one wire form: a byte string
    decodes to a value exactly when it is that value's encoding. *)
Theorem utxo_data_exact b : is_bytes b ->
  (forall d, try_from_slice borsh_contract b = Some d <-> valid borsh_contract d /\ b = ser borsh_contract d) /\
  (forall d, try_from_slice borsh_token b = Some d <-> valid borsh_token d /\ b = ser borsh_token d).
Proof.
  intros Hb. split; intros d; (split; [by apply try_from_slice_inv|]); intros [Hv ->]; by apply try_from_slice_ok.
Qed.
Definition sample_token : NativeTokenUtxoData :=
  {| token_id := 2 ^ 255 + 77; token_amount := 1000; lock_script := [1; 2]; transfer_policy_id := Some 5 |}.
Lemma utxo_data_exact_witness : try_from_slice borsh_token (ser borsh_token sample_token) = Some sample_token.
Proof.
  apply (utxo_data_exact (ser borsh_token sample_token)).
  - apply is_bytes_compute. by vm_compute.
  - split; [|done]. by repeat (constructor || split || lia || (unfold inW; simpl; lia)).
Defined.

(** Bytecode is accepted exactly when it is no longer than the limit and
    every payload parses and is acceptable: no operator on the forbidden
    lists, no shared memory, every declared memory bounded by 256 pages. *)
Theorem bytecode_accepted_iff `{WasmParser} w max_size :
  validate_bytecode w max_size = Ok tt <->
  zlen w <= max_size /\ exists ps, parse_all w = map Some ps /\ Forall payload_ok ps.
Proof.
  unfold validate_bytecode, fail_if. destruct (Z.ltb_spec max_size (zlen w)); cbn [mbind res_bind]; [split; [done|lia]|].
  rewrite for_items_iff. setoid_rewrite (Forall_iff_pointwise _ payload_ok); [|apply check_payload_iff].
  intuition lia.
Qed.

(** A module passes the manifest check exactly when every payload and
    import parses and every function it imports from [env] is a registered
    host function whose capability the manifest declares. *)
Theorem imports_declared_iff `{WasmParser} w required :
  validate_imports_against_manifest w required = Ok tt <->
  exists ps, parse_all w = map Some ps /\
    Forall (fun p => match p with
                     | ImportSection imps => exists is_, imps = map Some is_ /\ Forall (import_declared required) is_
                     | _ => True
                     end) ps.
Proof.
  unfold validate_imports_against_manifest. rewrite for_items_iff.
  setoid_rewrite (Forall_iff_pointwise _ (fun p => match p with
    | ImportSection imps => exists is_, imps = map Some is_ /\ Forall (import_declared required) is_ | _ => True end)); [done|].
  intros [ops|imps|ms|]; simpl; [done| |done|done]. rewrite for_items_iff.
  by setoid_rewrite (Forall_iff_pointwise _ (import_declared required)); [|apply check_import_capability_iff].
Qed.
