(* ===== verification/Mass.v ===== *)
(** * Transaction mass

    The mass calculator of [consensus/core/src/mass/mod.rs]: the estimated
    serialized size, the compute and transient masses of a transaction, and
    its storage mass (KIP-0009, with pluralities).

    Arithmetic is as in the code: plain operators panic on overflow,
    [checked_*] return [None], [saturating_*] clamp.  The [Option] that
    [calc_storage_mass] returns is a result with the single error
    [Incomputable].  The theorems decide when the storage mass is a value,
    incomputable or a panic, relate it to the KIP-0009 formula, and bound the
    other masses. *)
From S2P Require Import Prelude Encode Tx Alt.

(** ** Constants *)
Definition SUBNETWORK_ID_SIZE : usize := 20.
Definition HASH_SIZE : usize := 32.
Definition SCRIPT_VERSION_CONTRACT : u16 := 1.
Definition SCRIPT_VERSION_TOKEN : u16 := 2.
Definition SCRIPT_VERSION_CARRIER : u16 := 5.
Definition TRANSIENT_BYTE_TO_MASS_FACTOR : u64 := 4.
Definition SOMPI_PER_SOPHIS : u64 := 100000000.
Definition STORAGE_MASS_PARAMETER : u64 := SOMPI_PER_SOPHIS * 10000.
Definition MAX_SOMPI : u64 := 210000000 * SOMPI_PER_SOPHIS.

(** ** Sizes *)
Definition outpoint_estimated_serialized_size : u64 := HASH_SIZE + 4.
Definition transaction_input_estimated_serialized_size {E} (input : TransactionInput) : res E u64 :=
  size ← u64_add 0 outpoint_estimated_serialized_size;
  size ← u64_add size 8;
  size ← u64_add size (zlen (signature_script input));
  u64_add size 8.
Definition transaction_output_estimated_serialized_size {E} (output : TransactionOutput) : res E u64 :=
  size ← u64_add 0 8;
  size ← u64_add size 2;
  size ← u64_add size 8;
  u64_add size (zlen (spk_script (out_script_public_key output))).
(** [iter().map(f).sum()] with a partial [f]: evaluated left to right. *)
Definition sum_map {E A} (f : A -> res E u64) (l : list A) : res E u64 :=
  res_foldl (fun acc x => y ← f x; u64_add acc y) 0 l.
Definition transaction_estimated_serialized_size {E} (tx : Transaction) : res E u64 :=
  size ← u64_add 0 2;
  size ← u64_add size 8;
  inputs_size ← sum_map transaction_input_estimated_serialized_size (inputs tx);
  size ← u64_add size inputs_size;
  size ← u64_add size 8;
  outputs_size ← sum_map transaction_output_estimated_serialized_size (outputs tx);
  size ← u64_add size outputs_size;
  size ← u64_add size 8;
  size ← u64_add size SUBNETWORK_ID_SIZE;
  size ← u64_add size 8;
  size ← u64_add size HASH_SIZE;
  size ← u64_add size 8;
  u64_add size (zlen (payload tx)).

(** ** Storage cells *)
Definition utxo_plurality (spk : ScriptPublicKey) : u64 :=
  div_ceil (32 + 4 + 8 + 8 + 1 + 2 + 8 + zlen (spk_script spk)) 100.
Record UtxoCell := mkCell { plurality : u64; cell_amount : u64 }.
Definition cell_of_entry (e : UtxoEntry) : UtxoCell := mkCell (utxo_plurality (script_public_key e)) (amount e).
Definition cell_of_output (o : TransactionOutput) : UtxoCell :=
  mkCell (utxo_plurality (out_script_public_key o)) (value o).

Record NonContextualMasses := mkMasses { compute_mass : u64; transient_mass : u64 }.
Definition masses_max (m : NonContextualMasses) : u64 := Z.max (compute_mass m) (transient_mass m).
Definition contextual_max (storage_mass : u64) (m : NonContextualMasses) : u64 := Z.max storage_mass (masses_max m).

(** ** The calculator *)
Record MassCalculator := mkCalc {
  mass_per_tx_byte : u64;
  mass_per_script_pub_key_byte : u64;
  mass_per_sig_op : u64;
  storage_mass_parameter : u64;
}.

Definition sat64 (x : Z) : u64 := Z.min x (2 ^ 64 - 1).

(** The surcharge of an output: nothing unless it is an ALT creation. *)
Definition alt_output_mass `{Sha3} {E} (output : TransactionOutput) : res E (option u64) :=
  let script := spk_script (out_script_public_key output) in
  if negb (bool_decide (classify_alt_script script = Some Creation)) then Ok None else
  payload_bytes ← match parse_alt_creation_header script with
                  | Ok _ => chk 64 (zlen script - ALT_HEADER_LEN)
                  | Err _ => Ok 0
                  | Panic => Panic
                  | NoFuel => NoFuel
                  end;
  m ← u64_add BASE_ALT_CREATION_MASS (sat64 (payload_bytes * ALT_STORAGE_MASS_FACTOR));
  Ok (Some m).
Definition alt_creation_mass `{Sha3} {E} (outs : list TransactionOutput) : res E u64 :=
  res_foldl (fun acc o => m ← alt_output_mass o; match m with Some m => u64_add acc m | None => Ok acc end) 0 outs.

Definition calc_non_contextual_masses `{Sha3} {E} (self : MassCalculator) (tx : Transaction) : res E NonContextualMasses :=
  if is_coinbase tx then Ok (mkMasses 0 0) else
  size ← transaction_estimated_serialized_size tx;
  compute_mass_for_size ← u64_mul size (mass_per_tx_byte self);
  total_script_public_key_size ←
    sum_map (fun o => u64_add 2 (zlen (spk_script (out_script_public_key o)))) (outputs tx);
  total_script_public_key_mass ← u64_mul total_script_public_key_size (mass_per_script_pub_key_byte self);
  total_sigops ← u64_sum (map sig_op_count (inputs tx));
  total_sigops_mass ← u64_mul total_sigops (mass_per_sig_op self);
  alt_mass ← alt_creation_mass (outputs tx);
  m ← u64_add compute_mass_for_size total_script_public_key_mass;
  m ← u64_add m total_sigops_mass;
  m ← u64_add m alt_mass;
  transient ← u64_mul size TRANSIENT_BYTE_TO_MASS_FACTOR;
  Ok (mkMasses m transient).

Definition is_zero_value_protocol_output (output : TransactionOutput) : bool :=
  if negb (value output =? 0) then false
  else if spk_version (out_script_public_key output) =? SCRIPT_VERSION_CARRIER then true
  else bool_decide (classify_alt_script (spk_script (out_script_public_key output)) = Some Creation).

(** ** Storage mass *)
Inductive Incomputable := incomputable.
Definition checked_add (x y : u64) : res Incomputable u64 := if inWb 64 (x + y) then Ok (x + y) else Err incomputable.
Definition checked_mul (x y : u64) : res Incomputable u64 := if inWb 64 (x * y) then Ok (x * y) else Err incomputable.
Definition checked_div (x y : u64) : res Incomputable u64 := if y =? 0 then Err incomputable else Ok (x / y).

Definition harmonic_term (storm_param : u64) (c : UtxoCell) : res Incomputable u64 :=
  x ← checked_mul storm_param (plurality c);
  y ← checked_mul x (plurality c);
  checked_div y (cell_amount c).

Definition fold_output (storm_param : u64) (acc : Z * Z) (c : UtxoCell) : res Incomputable (Z * Z) :=
  p ← u64_add acc.1 (plurality c);
  t ← harmonic_term storm_param c;
  h ← checked_add acc.2 t;
  Ok (p, h).
Definition fold_harmonic_in (storm_param : u64) (total : u64) (c : UtxoCell) : res Incomputable u64 :=
  t ← harmonic_term storm_param c; Ok (sat64 (total + t)).
Definition fold_input (acc : Z * Z) (c : UtxoCell) : res Incomputable (Z * Z) :=
  p ← u64_add acc.1 (plurality c);
  a ← u64_add acc.2 (cell_amount c);
  Ok (p, a).
(** [saturating_sub] *)
Definition sat_sub (x y : u64) : u64 := Z.max 0 (x - y).

Definition relaxed_formula_path (ins : list UtxoCell) (outs_plurality : u64) : res Incomputable bool :=
  if outs_plurality =? 1 then Ok true
  else if 2 <? zlen ins then Ok false
  else ins_plurality ← u64_sum (map plurality ins);
       Ok ((ins_plurality =? 1) || ((outs_plurality =? 2) && (ins_plurality =? 2))).

Definition calc_storage_mass (coinbase : bool) (ins outs : list UtxoCell) (storm_param : u64) : res Incomputable u64 :=
  if coinbase then Ok 0 else
  '(outs_plurality, harmonic_outs) ← res_foldl (fold_output storm_param) (0, 0) outs;
  relaxed ← relaxed_formula_path ins outs_plurality;
  if (relaxed : bool) then
    harmonic_ins ← res_foldl (fold_harmonic_in storm_param) 0 ins;
    Ok (sat_sub harmonic_outs harmonic_ins)
  else
    '(ins_plurality, sum_ins) ← res_foldl fold_input (0, 0) ins;
    mean_ins ← checked_div sum_ins ins_plurality;
    per_mean ← checked_div storm_param mean_ins;
    Ok (sat_sub harmonic_outs (sat64 (ins_plurality * per_mean))).

Definition calc_contextual_masses (self : MassCalculator) (tx : PopulatedTransaction) : res Incomputable u64 :=
  calc_storage_mass (is_coinbase (ptx tx)) (map cell_of_entry (entries tx))
    (map cell_of_output (filter (fun o => is_zero_value_protocol_output o = false) (outputs (ptx tx))))
    (storage_mass_parameter self).

(** ** Sums *)
(** A left fold that adds up [f] with overflow checks. *)
Lemma sum_fold_ok {E A} (g : Z -> A -> res E Z) (f : A -> Z) acc l :
  (forall acc x, x ∈ l -> 0 <= acc -> acc + f x < 2 ^ 64 -> g acc x = Ok (acc + f x)) ->
  Forall (fun x => 0 <= f x) l -> 0 <= acc -> acc + sum_of f l < 2 ^ 64 ->
  res_foldl g acc l = Ok (acc + sum_of f l).
Proof.
  revert acc. induction l as [|x l IH]; intros acc Hg Hf H0 Hs; cbn [res_foldl].
  { f_equal. simpl. lia. }
  apply Forall_cons in Hf as [Hx Hf]. pose proof (sum_of_nonneg f l Hf). rewrite sum_of_cons in *.
  rewrite Hg by (first [left | lia]). cbn [mbind res_bind].
  rewrite IH; [f_equal; lia| |done|lia|lia]. intros acc' y Hy. apply Hg. by right.
Qed.
Lemma u64_sum_of {E} l : Forall (fun x => 0 <= x) l -> sum_of (fun x => x) l < 2 ^ 64 -> u64_sum (E:=E) l = Ok (sum_of (fun x => x) l).
Proof.
  intros Hl Hs. unfold u64_sum. rewrite (sum_fold_ok u64_add (fun x => x)); [done| |done|lia|done].
  intros acc x Hx H0 H1. rewrite u64_add_ok; [done|]. unfold inW in *.
  rewrite Forall_forall in Hl. specialize (Hl x Hx). lia.
Qed.

(** ** Storage mass, branch by branch *)
Section storage.
Context (C : u64) (HC : 0 <= C).

(** [C p^2 / a], computable when [C p^2] fits and [a] is not zero. *)
Definition term (c : UtxoCell) : Z := C * plurality c * plurality c / cell_amount c.
Definition term_ok (c : UtxoCell) : Prop := C * plurality c * plurality c < 2 ^ 64 /\ cell_amount c <> 0.
Definition typed_cell (c : UtxoCell) : Prop := 1 <= plurality c /\ 0 <= cell_amount c.
#[local] Instance term_ok_dec c : Decision (term_ok c).
Proof. unfold term_ok. apply _. Defined.

Lemma term_nonneg c : typed_cell c -> 0 <= term c.
Proof using HC.
  intros [Hp Ha]. unfold term. destruct (Z.eq_dec (cell_amount c) 0) as [->|]; [by rewrite Z.div_0_r|].
  apply Z.div_pos; nia.
Qed.
Lemma harmonic_term_cases c : typed_cell c ->
  (term_ok c /\ harmonic_term C c = Ok (term c)) \/ (~ term_ok c /\ harmonic_term C c = Err incomputable).
Proof using HC.
  intros [Hp Ha]. unfold harmonic_term, checked_mul, checked_div, term_ok, term, inWb.
  destruct (Z.lt_ge_cases (C * plurality c * plurality c) (2 ^ 64)) as [Hl|Hl].
  - assert (0 <= C * plurality c <= C * plurality c * plurality c) as Hm by nia.
    replace ((0 <=? C * plurality c) && (C * plurality c <? 2 ^ 64)) with true by lia. cbn [mbind res_bind].
    replace ((0 <=? C * plurality c * plurality c) && (C * plurality c * plurality c <? 2 ^ 64)) with true by lia.
    cbn [mbind res_bind]. destruct (Z.eqb_spec (cell_amount c) 0); [right|left]; (split; [lia|done]).
  - right. split; [lia|]. destruct ((0 <=? C * plurality c) && (C * plurality c <? 2 ^ 64)); [|done]. cbn [mbind res_bind].
    by replace ((0 <=? C * plurality c * plurality c) && (C * plurality c * plurality c <? 2 ^ 64)) with false by lia.
Qed.

Lemma fold_outputs_cases P H outs : Forall typed_cell outs -> 0 <= P -> 0 <= H < 2 ^ 64 -> P + sum_of plurality outs < 2 ^ 64 ->
  (Forall term_ok outs /\ H + sum_of term outs < 2 ^ 64 /\
   res_foldl (fold_output C) (P, H) outs = Ok (P + sum_of plurality outs, H + sum_of term outs)) \/
  (~ (Forall term_ok outs /\ H + sum_of term outs < 2 ^ 64) /\ res_foldl (fold_output C) (P, H) outs = Err incomputable).
Proof using HC.
  revert P H. induction outs as [|c outs IH]; intros P H Hty HP HH Hs; cbn [res_foldl].
  { left. split_and!; [by apply Forall_nil|simpl; lia|]. simpl. by rewrite !Z.add_0_r. }
  apply Forall_cons in Hty as [Hc Hty]. rewrite !sum_of_cons, Forall_cons in *.
  assert (0 <= sum_of plurality outs) as Hpn.
  { apply sum_of_nonneg. eapply Forall_impl; [exact Hty|]. intros x [? _]. lia. }
  assert (0 <= sum_of term outs) as Htn.
  { apply sum_of_nonneg. eapply Forall_impl; [exact Hty|]. apply term_nonneg. }
  pose proof (term_nonneg c Hc). destruct (Hc) as [Hp _]. unfold fold_output at 2 4. cbn [fst snd].
  rewrite u64_add_ok by (unfold inW; lia). cbn [mbind res_bind].
  destruct (harmonic_term_cases c Hc) as [[Hok ->]|[Hok ->]]; cbn [mbind res_bind]; [|right; split; [tauto|done]].
  unfold checked_add, inWb. destruct (Z.lt_ge_cases (H + term c) (2 ^ 64)).
  2: { replace ((0 <=? H + term c) && (H + term c <? 2 ^ 64)) with false by lia. right. split; [lia|done]. }
  replace ((0 <=? H + term c) && (H + term c <? 2 ^ 64)) with true by lia. cbn [mbind res_bind].
  destruct (IH (P + plurality c) (H + term c)) as [(Ha & Hb & ->)|[Hn ->]]; [done|lia..| |].
  - left. split_and!; [done|done|lia|]. do 2 f_equal; lia.
  - right. split; [|done]. intros ([_ ?] & ?). apply Hn. split; [done|lia].
Qed.

Lemma fold_harmonic_cases total ins : Forall typed_cell ins -> 0 <= total <= 2 ^ 64 - 1 ->
  (Forall term_ok ins /\ res_foldl (fold_harmonic_in C) total ins = Ok (sat64 (total + sum_of term ins))) \/
  (~ Forall term_ok ins /\ res_foldl (fold_harmonic_in C) total ins = Err incomputable).
Proof using HC.
  revert total. induction ins as [|c ins IH]; intros total Hty Ht; cbn [res_foldl].
  { left. split; [by apply Forall_nil|]. simpl. unfold sat64. f_equal. lia. }
  apply Forall_cons in Hty as [Hc Hty]. rewrite Forall_cons, sum_of_cons. pose proof (term_nonneg c Hc).
  assert (0 <= sum_of term ins) as Htn.
  { apply sum_of_nonneg. eapply Forall_impl; [exact Hty|]. apply term_nonneg. }
  unfold fold_harmonic_in at 2 4. destruct (harmonic_term_cases c Hc) as [[Hok ->]|[Hok ->]]; cbn [mbind res_bind].
  - destruct (IH (sat64 (total + term c)) Hty) as [[Ha ->]|[Hn ->]]; [unfold sat64; lia| |right; split; [tauto|done]].
    left. split; [done|]. unfold sat64. f_equal. lia.
  - right. split; [tauto|done].
Qed.
Lemma fold_inputs_cases P A ins : Forall typed_cell ins -> 0 <= P -> 0 <= A < 2 ^ 64 -> P + sum_of plurality ins < 2 ^ 64 ->
  res_foldl fold_input (P, A) ins =
    if A + sum_of cell_amount ins <? 2 ^ 64 then Ok (P + sum_of plurality ins, A + sum_of cell_amount ins) else Panic.
Proof.
  revert P A. induction ins as [|c ins IH]; intros P A Hty HP HA Hs; cbn [res_foldl].
  { simpl. rewrite !Z.add_0_r. by replace (A <? 2 ^ 64) with true by lia. }
  apply Forall_cons in Hty as [Hc Hty]. rewrite !sum_of_cons in *. destruct (Hc) as [Hp Ha].
  assert (0 <= sum_of plurality ins) as Hpn.
  { apply sum_of_nonneg. eapply Forall_impl; [exact Hty|]. intros x [? _]. lia. }
  assert (0 <= sum_of cell_amount ins) as Han.
  { apply sum_of_nonneg. eapply Forall_impl; [exact Hty|]. by intros x [_ ?]. }
  unfold fold_input at 2. cbn [fst snd]. rewrite (u64_add_ok P) by (unfold inW; lia). cbn [mbind res_bind].
  destruct (Z.lt_ge_cases (A + cell_amount c) (2 ^ 64)).
  - rewrite (u64_add_ok A) by (unfold inW; lia). cbn [mbind res_bind]. rewrite IH by (done || lia).
    by rewrite !Z.add_assoc.
  - unfold u64_add. rewrite chk_panic by (unfold inW; lia). cbn [mbind res_bind].
    by replace (A + (cell_amount c + sum_of cell_amount ins) <? 2 ^ 64) with false by lia.
Qed.

(** The condition for the relaxed formula, as the code tests it. *)
Definition relaxed (ins outs : list UtxoCell) : bool :=
  (sum_of plurality outs =? 1) || (sum_of plurality ins =? 1) ||
  ((sum_of plurality outs =? 2) && (sum_of plurality ins =? 2)).
Lemma relaxed_path_ok ins outs : Forall typed_cell ins -> sum_of plurality ins < 2 ^ 64 ->
  relaxed_formula_path ins (sum_of plurality outs) = Ok (relaxed ins outs).
Proof.
  intros Hty Hs. unfold relaxed_formula_path, relaxed. destruct (Z.eqb_spec (sum_of plurality outs) 1); [done|].
  assert (1 * zlen ins <= sum_of plurality ins) as Hlow.
  { apply sum_of_lower. eapply Forall_impl; [exact Hty|]. by intros x [? _]. }
  destruct (Z.ltb_spec 2 (zlen ins)).
  { f_equal. replace (sum_of plurality ins =? 1) with false by lia.
    replace (sum_of plurality ins =? 2) with false by lia. by rewrite andb_false_r. }
  rewrite u64_sum_of; rewrite ?sum_of_map; [done| |done]. apply Forall_map.
  eapply Forall_impl; [exact Hty|]. intros x [? _]. simpl. lia.
Qed.

(** The pluralities, counts of bytes in memory, do not overflow. *)
Definition sized (ins outs : list UtxoCell) : Prop :=
  Forall typed_cell ins /\ Forall typed_cell outs /\
  sum_of plurality ins < 2 ^ 64 /\ sum_of plurality outs < 2 ^ 64.
Definition outs_ok (outs : list UtxoCell) : Prop := Forall term_ok outs /\ sum_of term outs < 2 ^ 64.

Lemma storage_mass_relaxed ins outs : sized ins outs -> outs_ok outs -> relaxed ins outs = true -> Forall term_ok ins ->
  calc_storage_mass false ins outs C = Ok (sat_sub (sum_of term outs) (sat64 (sum_of term ins))).
Proof using HC.
  intros (Hi & Ho & Hsi & Hso) [Ht Hb] Hr Hti. unfold calc_storage_mass.
  destruct (fold_outputs_cases 0 0 outs) as [(_ & _ & ->)|[Hn _]]; [done|lia..| |by destruct Hn].
  cbn [mbind res_bind]. rewrite !Z.add_0_l, relaxed_path_ok, Hr by done. cbn [mbind res_bind].
  destruct (fold_harmonic_cases 0 ins) as [[_ ->]|[Hn _]]; [done|lia| |done]. done.
Qed.
Lemma storage_mass_arithmetic ins outs : sized ins outs -> outs_ok outs -> relaxed ins outs = false ->
  calc_storage_mass false ins outs C =
    if 2 ^ 64 <=? sum_of cell_amount ins then Panic
    else if (zlen ins =? 0) || (sum_of cell_amount ins <? sum_of plurality ins) then Err incomputable
    else Ok (sat_sub (sum_of term outs)
               (sat64 (sum_of plurality ins * (C / (sum_of cell_amount ins / sum_of plurality ins))))).
Proof using HC.
  intros (Hi & Ho & Hsi & Hso) [Ht Hb] Hr. unfold calc_storage_mass.
  destruct (fold_outputs_cases 0 0 outs) as [(_ & _ & ->)|[Hn _]]; [done|lia..| |by destruct Hn].
  cbn [mbind res_bind]. rewrite !Z.add_0_l, relaxed_path_ok, Hr by done. cbn [mbind res_bind].
  rewrite fold_inputs_cases by (done || lia). rewrite !Z.add_0_l.
  destruct (Z.ltb_spec (sum_of cell_amount ins) (2 ^ 64)).
  2: { by replace (2 ^ 64 <=? sum_of cell_amount ins) with true by lia. }
  replace (2 ^ 64 <=? sum_of cell_amount ins) with false by lia. cbn [mbind res_bind].
  assert (1 * zlen ins <= sum_of plurality ins) as Hlow.
  { apply sum_of_lower. eapply Forall_impl; [exact Hi|]. by intros x [? _]. }
  assert (0 <= sum_of cell_amount ins) as Han.
  { apply sum_of_nonneg. eapply Forall_impl; [exact Hi|]. by intros x [_ ?]. }
  pose proof (zlen_nonneg ins). unfold checked_div. destruct (Z.eqb_spec (zlen ins) 0) as [Hz|Hz].
  { by rewrite (zlen_0 ins Hz). }
  replace (sum_of plurality ins =? 0) with false by lia. cbn [mbind res_bind orb].
  destruct (Z.ltb_spec (sum_of cell_amount ins) (sum_of plurality ins)).
  - by rewrite Z.div_small by lia.
  - assert (1 <= sum_of cell_amount ins / sum_of plurality ins) by (apply Z.div_le_lower_bound; lia).
    by replace (sum_of cell_amount ins / sum_of plurality ins =? 0) with false by lia.
Qed.

(** Short of an overflowing sum of amounts there is a result. *)
Lemma storage_mass_result cb ins outs : sized ins outs -> sum_of cell_amount ins < 2 ^ 64 ->
  is_result (calc_storage_mass cb ins outs C).
Proof using HC.
  intros Hsz Ha. destruct cb; [done|]. pose proof Hsz as (Hi & Ho & Hsi & Hso).
  destruct (fold_outputs_cases 0 0 outs) as [(Ht & Hb & _)|[_ He]]; [done|lia..| |].
  2: { unfold calc_storage_mass. by rewrite He. }
  assert (outs_ok outs) as Hok by (split; [done|lia]). destruct (relaxed ins outs) eqn:Hr.
  - destruct (fold_harmonic_cases 0 ins) as [[Hti _]|[Hti Hn]]; [done|lia| |].
    + by rewrite storage_mass_relaxed.
    + unfold calc_storage_mass. destruct (fold_outputs_cases 0 0 outs) as [(_ & _ & ->)|[Hno _]]; [done|lia..| |done].
      cbn [mbind res_bind]. rewrite !Z.add_0_l, relaxed_path_ok, Hr by done. cbn [mbind res_bind]. by rewrite Hn.
  - rewrite storage_mass_arithmetic by done. replace (2 ^ 64 <=? sum_of cell_amount ins) with false by lia.
    by destruct (_ || _).
Qed.
End storage.

(** ** Non-contextual masses in closed form *)
Definition input_size (i : TransactionInput) : Z := 52 + zlen (signature_script i).
Definition output_script_len (o : TransactionOutput) : Z := zlen (spk_script (out_script_public_key o)).
Definition output_size (o : TransactionOutput) : Z := 18 + output_script_len o.
Definition tx_size (tx : Transaction) : Z :=
  94 + sum_of input_size (inputs tx) + sum_of output_size (outputs tx) + zlen (payload tx).
Definition alt_surcharge `{Sha3} (o : TransactionOutput) : Z :=
  if bool_decide (classify_alt_script (spk_script (out_script_public_key o)) = Some Creation) then
    BASE_ALT_CREATION_MASS +
    match parse_alt_creation_header (spk_script (out_script_public_key o)) with
    | Ok _ => output_script_len o - ALT_HEADER_LEN
    | _ => 0
    end
  else 0.
Definition compute_formula `{Sha3} (self : MassCalculator) (tx : Transaction) : Z :=
  tx_size tx * mass_per_tx_byte self + sum_of (fun o => 2 + output_script_len o) (outputs tx) * mass_per_script_pub_key_byte self +
  sum_of sig_op_count (inputs tx) * mass_per_sig_op self + sum_of alt_surcharge (outputs tx).

Ltac add64 := rewrite u64_add_ok by (unfold inW; lia); cbn [mbind res_bind].

Lemma input_sizes_ok {E} l : sum_of input_size l < 2 ^ 64 ->
  sum_map (E:=E) transaction_input_estimated_serialized_size l = Ok (sum_of input_size l).
Proof.
  intros Hs. unfold sum_map. rewrite (sum_fold_ok _ input_size); [done| | |lia|done].
  - intros acc i _ H0 H1. pose proof (zlen_nonneg (signature_script i)).
    unfold transaction_input_estimated_serialized_size, input_size, outpoint_estimated_serialized_size, HASH_SIZE in *.
    do 4 add64. rewrite u64_add_ok by (unfold inW; lia). by f_equal; lia.
  - apply Forall_forall. intros i _. unfold input_size. pose proof (zlen_nonneg (signature_script i)). lia.
Qed.
Lemma output_sizes_ok {E} l : sum_of output_size l < 2 ^ 64 ->
  sum_map (E:=E) transaction_output_estimated_serialized_size l = Ok (sum_of output_size l).
Proof.
  intros Hs. unfold sum_map. rewrite (sum_fold_ok _ output_size); [done| | |lia|done].
  - intros acc o _ H0 H1. unfold output_size, output_script_len in *. pose proof (zlen_nonneg (spk_script (out_script_public_key o))).
    unfold transaction_output_estimated_serialized_size. do 4 add64. rewrite u64_add_ok by (unfold inW; lia). by f_equal; lia.
  - apply Forall_forall. intros o _. unfold output_size, output_script_len. pose proof (zlen_nonneg (spk_script (out_script_public_key o))). lia.
Qed.
Lemma sizes_nonneg tx : 0 <= sum_of input_size (inputs tx) /\ 0 <= sum_of output_size (outputs tx) /\
  0 <= sum_of (fun o => 2 + output_script_len o) (outputs tx).
Proof.
  assert (forall o, 0 <= output_script_len o) as Ho by (intros; apply zlen_nonneg).
  split_and!; apply sum_of_nonneg, Forall_forall; intros x _; unfold input_size, output_size.
  - pose proof (zlen_nonneg (signature_script x)). lia.
  - specialize (Ho x). lia.
  - specialize (Ho x). lia.
Qed.
Lemma tx_size_ok {E} tx : tx_size tx < 2 ^ 64 -> transaction_estimated_serialized_size (E:=E) tx = Ok (tx_size tx).
Proof.
  unfold tx_size. intros Hs. destruct (sizes_nonneg tx) as (Hi & Ho & _). pose proof (zlen_nonneg (payload tx)).
  unfold transaction_estimated_serialized_size, SUBNETWORK_ID_SIZE, HASH_SIZE. do 2 add64.
  rewrite input_sizes_ok by lia. cbn [mbind res_bind]. do 2 add64.
  rewrite output_sizes_ok by lia. cbn [mbind res_bind]. do 6 add64. rewrite u64_add_ok by (unfold inW; lia). by f_equal; lia.
Qed.

Section masses.
Context `{Sha3}.

Lemma alt_surcharge_nonneg o : 0 <= alt_surcharge o.
Proof.
  unfold alt_surcharge, BASE_ALT_CREATION_MASS, ALT_HEADER_LEN, output_script_len. case_bool_decide; [|lia].
  destruct (parse_alt_creation_header _) eqn:Hp; try lia. unfold parse_alt_creation_header, ALT_HEADER_LEN in Hp.
  apply bind_ok in Hp as (u & Hp & _). apply fail_if_ok in Hp. lia.
Qed.
Lemma alt_mass_ok {E} l : Forall (fun o => is_bytes (spk_script (out_script_public_key o))) l ->
  sum_of alt_surcharge l < 2 ^ 64 -> alt_creation_mass (E:=E) l = Ok (sum_of alt_surcharge l).
Proof.
  intros Hb Hs. unfold alt_creation_mass. rewrite (sum_fold_ok _ alt_surcharge); [done| | |lia|done].
  2: { apply Forall_forall. intros o _. apply alt_surcharge_nonneg. }
  intros acc o Ho H0 H1. rewrite Forall_forall in Hb. specialize (Hb o Ho).
  pose proof (alt_parse_total_lemma _ Hb) as Ht. pose proof (alt_surcharge_nonneg o) as Hn.
  unfold alt_output_mass. unfold alt_surcharge, output_script_len, ALT_STORAGE_MASS_FACTOR, sat64 in *.
  case_bool_decide; cbn [negb mbind res_bind]; [|by rewrite Z.add_0_r].
  destruct (parse_alt_creation_header _) as [h|e| |] eqn:Hp; [| |done..].
  - unfold parse_alt_creation_header in Hp. apply bind_ok in Hp as (u & Hp & _). apply fail_if_ok in Hp.
    unfold BASE_ALT_CREATION_MASS, ALT_HEADER_LEN in *. rewrite chk_ok by (unfold inW; lia). cbn [mbind res_bind].
    rewrite Z.mul_1_r, Z.min_l by lia. add64. rewrite u64_add_ok by (unfold inW; lia). done.
  - unfold BASE_ALT_CREATION_MASS in *. cbn [mbind res_bind Z.mul]. rewrite Z.min_l by lia. add64.
    rewrite u64_add_ok by (unfold inW; lia). by f_equal.
Qed.
Lemma masses_ok {E} self tx :
  Forall (fun o => is_bytes (spk_script (out_script_public_key o))) (outputs tx) ->
  Forall (fun i => 0 <= sig_op_count i) (inputs tx) ->
  0 <= mass_per_tx_byte self -> 0 <= mass_per_script_pub_key_byte self -> 0 <= mass_per_sig_op self ->
  tx_size tx * TRANSIENT_BYTE_TO_MASS_FACTOR < 2 ^ 64 -> sum_of (fun o => 2 + output_script_len o) (outputs tx) < 2 ^ 64 ->
  sum_of sig_op_count (inputs tx) < 2 ^ 64 -> compute_formula self tx < 2 ^ 64 -> is_coinbase tx = false ->
  calc_non_contextual_masses (E:=E) self tx =
    Ok (mkMasses (compute_formula self tx) (tx_size tx * TRANSIENT_BYTE_TO_MASS_FACTOR)).
Proof.
  unfold TRANSIENT_BYTE_TO_MASS_FACTOR. intros Hb Hsig H1 H2 H3 Ht Hscripts Hsigops Hc Hcb.
  unfold calc_non_contextual_masses. rewrite Hcb.
  destruct (sizes_nonneg tx) as (Hi & Ho & Hs). pose proof (zlen_nonneg (payload tx)) as Hpl.
  assert (0 <= tx_size tx) as Hsz by (unfold tx_size; lia).
  assert (0 <= sum_of sig_op_count (inputs tx)) as Hso by (by apply sum_of_nonneg).
  assert (0 <= sum_of alt_surcharge (outputs tx)) as Ha.
  { apply sum_of_nonneg, Forall_forall. intros o _. apply alt_surcharge_nonneg. }
  unfold compute_formula in *.
  pose proof (Z.mul_nonneg_nonneg _ _ Hsz H1). pose proof (Z.mul_nonneg_nonneg _ _ Hs H2).
  pose proof (Z.mul_nonneg_nonneg _ _ Hso H3).
  rewrite tx_size_ok by lia. cbn [mbind res_bind]. unfold u64_mul, TRANSIENT_BYTE_TO_MASS_FACTOR.
  rewrite (chk_ok 64 (tx_size tx * mass_per_tx_byte self)) by (unfold inW; lia). cbn [mbind res_bind].
  replace (sum_map _ (outputs tx)) with (@Ok E _ (sum_of (fun o => 2 + output_script_len o) (outputs tx))).
  2: { unfold sum_map. symmetry. rewrite (sum_fold_ok _ (fun o => 2 + output_script_len o)); [done| | |lia|done].
       - intros acc o _ Hacc Hlt. unfold output_script_len in *. pose proof (zlen_nonneg (spk_script (out_script_public_key o))).
         do 2 (rewrite u64_add_ok by (unfold inW; lia); cbn [mbind res_bind]). done.
       - apply Forall_forall. intros o _. pose proof (zlen_nonneg (spk_script (out_script_public_key o))).
         unfold output_script_len. lia. }
  cbn [mbind res_bind].
  rewrite (chk_ok 64 (sum_of (fun o => 2 + output_script_len o) (outputs tx) * _)) by (unfold inW; lia). cbn [mbind res_bind].
  rewrite u64_sum_of; rewrite ?sum_of_map; [|by apply Forall_map|done]. cbn [mbind res_bind].
  change (sum_of (fun x => sig_op_count x)) with (sum_of sig_op_count).
  rewrite (chk_ok 64 (sum_of sig_op_count (inputs tx) * _)) by (unfold inW; lia). cbn [mbind res_bind].
  rewrite alt_mass_ok by (done || lia). cbn [mbind res_bind].
  do 3 add64. rewrite chk_ok by (unfold inW; lia). done.
Qed.
End masses.

(** ** Theorems *)

(** The KIP-0009 formula, on unbounded integers, with the condition of the
    specification for the relaxed case. *)
Definition kip9_mass (C : Z) (ins outs : list UtxoCell) : Z :=
  let O := sum_of plurality outs in
  let I := sum_of plurality ins in
  Z.max 0 (sum_of (term C) outs -
           (if (O =? 1) || ((O <=? I) && (I <=? 2)) then sum_of (term C) ins
            else I * (C / (sum_of cell_amount ins / I)))).

Lemma sat_sub_sat64 x y : x < 2 ^ 64 -> sat_sub x (sat64 y) = Z.max 0 (x - y).
Proof. unfold sat_sub, sat64. lia. Qed.

(** On non-zero amounts and without overflow of [C p^2] the storage mass is
    the KIP-0009 value: the code's test (one output unit, or one input unit,
    or two of each) agrees with the specification's [|O| = 1 or
    |O| <= |I| <= 2] because the two means coincide on one input unit, and
    the saturations do not show. *)
Theorem storage_mass_kip9 C ins outs : 0 <= C -> sized ins outs -> ins <> [] -> outs <> [] ->
  outs_ok C outs -> Forall (term_ok C) ins -> sum_of cell_amount ins < 2 ^ 64 ->
  sum_of plurality ins <= sum_of cell_amount ins ->
  calc_storage_mass false ins outs C = Ok (kip9_mass C ins outs).
Proof.
  intros HC Hsz Hi Ho Hok Hti Ha Hpa. pose proof Hok as [_ Hlt]. destruct (Hsz) as (Hti' & Hto' & _ & _).
  assert (forall l, Forall typed_cell l -> l <> [] -> 1 <= sum_of plurality l) as Hone.
  { intros [|c l] Hl Hne; [done|]. apply Forall_cons in Hl as [[Hp _] Hl]. rewrite sum_of_cons.
    pose proof (sum_of_lower plurality 1 l ltac:(eapply Forall_impl; [exact Hl|]; by intros x [? _])).
    pose proof (zlen_nonneg l). lia. }
  pose proof (Hone ins Hti' Hi). pose proof (Hone outs Hto' Ho).
  assert (zlen ins <> 0) as Hz by (intros Hz; by apply Hi, zlen_0).
  unfold kip9_mass. destruct (relaxed ins outs) eqn:Hr.
  - rewrite (storage_mass_relaxed C HC) by done. rewrite sat_sub_sat64 by done. unfold relaxed in Hr.
    match goal with |- context [if ?b then _ else _] => destruct b eqn:Hk end; [done|].
    assert (sum_of plurality ins = 1) as H1 by lia. do 3 f_equal.
    destruct ins as [|c [|c' ins]]; [done| |].
    + simpl in H1. unfold term. simpl. replace (plurality c) with 1 by lia.
      rewrite !Z.add_0_r, Z.div_1_r, !Z.mul_1_r. destruct (C / cell_amount c); done.
    + repeat (apply Forall_cons in Hti' as [[? _] Hti']). rewrite !sum_of_cons in H1.
      pose proof (sum_of_lower plurality 1 ins ltac:(eapply Forall_impl; [exact Hti'|]; by intros x [? _])).
      pose proof (zlen_nonneg ins). lia.
  - rewrite (storage_mass_arithmetic C HC) by done.
    replace (2 ^ 64 <=? sum_of cell_amount ins) with false by lia.
    replace ((zlen ins =? 0) || (sum_of cell_amount ins <? sum_of plurality ins)) with false by lia.
    rewrite sat_sub_sat64 by done. unfold relaxed in Hr.
    by match goal with |- context [if ?b then _ else _] => replace b with false by lia end.
Qed.
Lemma storage_mass_kip9_witness :
  calc_storage_mass false [mkCell 1 1000; mkCell 1 3000] [mkCell 1 500; mkCell 1 3400] (10 ^ 12) = Ok 960784314.
Proof.
  rewrite (storage_mass_kip9 (10 ^ 12) [mkCell 1 1000; mkCell 1 3000] [mkCell 1 500; mkCell 1 3400]);
    [by vm_compute|lia| |done|done| | |done|done].
  - by repeat (constructor || split || lia).
  - split; [|done]. by repeat constructor.
  - by repeat constructor.
Defined.

(** The function is not total, and zero amounts are not always
    incomputable, against its documentation: with three or more inputs and
    other than one output unit it panics when the input amounts add up to
    [2^64], and returns a mass, zero amounts among the inputs or not, whenever
    they add up to less and to at least the input units. *)
Theorem storage_mass_not_total C ins outs : 0 <= C -> sized ins outs -> outs_ok C outs ->
  2 < zlen ins -> sum_of plurality outs <> 1 ->
  (2 ^ 64 <= sum_of cell_amount ins -> calc_storage_mass false ins outs C = Panic) /\
  (sum_of plurality ins <= sum_of cell_amount ins < 2 ^ 64 -> exists m, calc_storage_mass false ins outs C = Ok m).
Proof.
  intros HC Hsz Hok Hlen Ho. destruct (Hsz) as (Hti & _).
  assert (1 * zlen ins <= sum_of plurality ins) as Hlow.
  { apply sum_of_lower. eapply Forall_impl; [exact Hti|]. by intros x [? _]. }
  rewrite (storage_mass_arithmetic C HC) by (done || (unfold relaxed; lia)). split.
  - intros Ha. by replace (2 ^ 64 <=? sum_of cell_amount ins) with true by lia.
  - intros Ha. replace (2 ^ 64 <=? sum_of cell_amount ins) with false by lia.
    replace ((zlen ins =? 0) || (sum_of cell_amount ins <? sum_of plurality ins)) with false by lia. by eexists.
Qed.
Lemma storage_mass_not_total_witness :
  calc_storage_mass false (repeat (mkCell 1 (2 ^ 63)) 3) [mkCell 1 5; mkCell 1 5] 100 = Panic /\
  exists m, calc_storage_mass false [mkCell 1 0; mkCell 1 50; mkCell 1 50] [mkCell 1 5; mkCell 1 5] 100 = Ok m.
Proof.
  assert (outs_ok 100 [mkCell 1 5; mkCell 1 5]) as Hok by (split; [by repeat constructor|done]).
  split.
  - refine (proj1 (storage_mass_not_total 100 (repeat (mkCell 1 (2 ^ 63)) 3) [mkCell 1 5; mkCell 1 5] _ _ Hok _ _) _);
      try done. by repeat (constructor || split || lia).
  - refine (proj2 (storage_mass_not_total 100 [mkCell 1 0; mkCell 1 50; mkCell 1 50] [mkCell 1 5; mkCell 1 5] _ _ Hok _ _) _);
      try done. by repeat (constructor || split || lia).
Defined.
