(* ===== verification/TxIsolation.v ===== *)
(** * Transaction validation in isolation and in header context

    [consensus/src/processes/transaction_validator/tx_validation_in_isolation.rs]
    and [tx_validation_in_header_context.rs], with the errors of
    [consensus/core/src/errors/tx.rs] (without their diagnostic strings).

    Every check is a definition of its own, composed in the code's order.  The
    main theorem characterises what [validate_tx_in_isolation] accepts by a
    declarative predicate; another shows an output class it can never accept,
    the contract and token outputs whose identifier starts with an ALT
    discriminator byte. *)
From S2P Require Import Prelude Encode Script Tx Hashing Alt Da Svm Mass.

(** ** Errors *)
Inductive TxRuleError :=
| NoTxInputs
| TxDuplicateInputs
| TxHasGas
| UnknownTxVersion (v : u16)
| TooManyInputs (n max : usize)
| TooManyOutputs (n max : usize)
| TooBigSignatureScript (i max : usize)
| TooBigScriptPublicKey (i max : usize)
| NotFinalized (i : usize)
| CoinbaseHasInputs (n : usize)
| CoinbaseTooManyOutputs (n : usize) (max : u64)
| CoinbaseScriptPublicKeyTooLong (i : usize)
| CoinbaseNonZeroMassCommitment
| ImmatureCoinbaseSpend (i : usize) (outpoint : TransactionOutpoint) (block_daa pov_daa maturity : u64)
| InputAmountOverflow
| InputAmountTooHigh
| TxOutZero (i : usize)
| TxOutTooHigh (i : usize)
| OutputsValueOverflow
| TotalTxOutTooHigh
| SpendTooHigh (total_out total_in : u64)
| SequenceLockConditionsAreNotMet
| SignatureInvalid (e : TxScriptError)
| SignatureEmpty (e : TxScriptError)
| MissingTxOutpoints
| MassIncomputable
| WrongMass (calculated committed : u64)
| SubnetworksDisabled (id : SubnetworkId)
| FeerateTooLow
| ContractNotDeployed
| SvmValidationFailed
| TokenUtxoMalformed (i : usize)
| MintingPolicyNotDeployed
| MintingPolicyRejected
| TransferPolicyNotDeployed
| TransferPolicyRejected
| CarrierMalformed (i : usize)
| CarrierNonZeroValue (i : usize) (value : u64)
| TooManyCarrierOutputs (n max : usize)
| CarrierInCoinbase (i : usize)
| AltCreationMalformed (i : usize)
| AltCreationNonZeroValue (i : usize) (value : u64)
| AltReferenceMalformed (i : usize)
| TooManyAltCreations (n max : usize)
| AltOutputInLegacyTx (i : usize)
| AltInCoinbase (i : usize)
| AltReferenceDanglingHandle (i : usize) (handle : bytes)
| AltReferenceIndexOutOfRange (i : usize) (index : u8) (count : u16).
Abbreviation TxResult A := (res TxRuleError A) (only parsing).

(** [r.map_err(|_| e)] *)
Definition map_err {E F A} (e : F) (r : res E A) : res F A :=
  match r with Ok a => Ok a | Err _ => Err e | Panic => Panic | NoFuel => NoFuel end.

(** [for (i, x) in l.iter().enumerate() { f(i, x)?; }] *)
Fixpoint for_enum {E A} (f : Z -> A -> res E unit) (i : Z) (l : list A) : res E unit :=
  match l with
  | [] => Ok tt
  | x :: l => _ ← f i x; for_enum f (i + 1) l
  end.
(** [l.iter().position(p)] *)
Fixpoint position {A} (p : A -> bool) (i : Z) (l : list A) : option Z :=
  match l with
  | [] => None
  | x :: l => if p x then Some i else position p (i + 1) l
  end.

Definition MAX_TX_VERSION : u16 := 1.
Record TransactionValidator := {
  max_tx_inputs : usize;
  max_tx_outputs : usize;
  max_signature_script_len : usize;
  max_script_public_key_len : usize;
  coinbase_payload_script_public_key_max_len : u8;
  coinbase_maturity : u64;
  ghostdag_k : u16;
  mass_calculator : MassCalculator;
}.
Definition out_version (o : TransactionOutput) : u16 := spk_version (out_script_public_key o).
Definition out_script (o : TransactionOutput) : bytes := spk_script (out_script_public_key o).

(** ** Counts and lengths *)
Section limits.
Context (self : TransactionValidator).

Definition check_transaction_inputs_count (tx : Transaction) : TxResult unit :=
  _ ← fail_if (negb (is_coinbase tx) && bool_decide (inputs tx = [])) NoTxInputs;
  fail_if (max_tx_inputs self <? zlen (inputs tx)) (TooManyInputs (zlen (inputs tx)) (max_tx_inputs self)).
Definition check_transaction_signature_scripts (tx : Transaction) : TxResult unit :=
  match position (fun i => max_signature_script_len self <? zlen (signature_script i)) 0 (inputs tx) with
  | Some i => Err (TooBigSignatureScript i (max_signature_script_len self))
  | None => Ok tt
  end.
Definition check_transaction_inputs_in_isolation (tx : Transaction) : TxResult unit :=
  _ ← check_transaction_inputs_count tx;
  check_transaction_signature_scripts tx.

(** The error carries the limit on inputs. *)
Definition check_transaction_outputs_count (tx : Transaction) : TxResult unit :=
  if is_coinbase tx then Ok tt else
  fail_if (max_tx_outputs self <? zlen (outputs tx)) (TooManyOutputs (zlen (outputs tx)) (max_tx_inputs self)).
Definition too_big_spk (o : TransactionOutput) : bool :=
  negb (out_version o =? SCRIPT_VERSION_CONTRACT) && negb (out_version o =? SCRIPT_VERSION_TOKEN) &&
  negb (out_version o =? SCRIPT_VERSION_CARRIER) && bool_decide (classify_alt_script (out_script o) = None) &&
  (max_script_public_key_len self <? zlen (out_script o)).
Definition check_transaction_script_public_keys (tx : Transaction) : TxResult unit :=
  match position too_big_spk 0 (outputs tx) with
  | Some i => Err (TooBigScriptPublicKey i (max_script_public_key_len self))
  | None => Ok tt
  end.
Definition check_transaction_outputs_in_isolation (tx : Transaction) : TxResult unit :=
  _ ← check_transaction_outputs_count tx;
  check_transaction_script_public_keys tx.

Definition check_coinbase_output (i : Z) (o : TransactionOutput) : TxResult unit :=
  _ ← fail_if (out_version o =? SCRIPT_VERSION_CARRIER) (CarrierInCoinbase i);
  _ ← fail_if (bool_decide (is_Some (classify_alt_script (out_script o)))) (AltInCoinbase i);
  fail_if (coinbase_payload_script_public_key_max_len self <? zlen (out_script o)) (CoinbaseScriptPublicKeyTooLong i).
Definition check_coinbase_in_isolation (tx : Transaction) : TxResult unit :=
  if negb (is_coinbase tx) then Ok tt else
  _ ← fail_if (negb (bool_decide (inputs tx = []))) (CoinbaseHasInputs (zlen (inputs tx)));
  _ ← fail_if (0 <? mass tx) CoinbaseNonZeroMassCommitment;
  outputs_limit ← u64_add (ghostdag_k self) 2;
  _ ← fail_if (outputs_limit <? zlen (outputs tx)) (CoinbaseTooManyOutputs (zlen (outputs tx)) outputs_limit);
  for_enum check_coinbase_output 0 (outputs tx).
End limits.

(** ** Values, duplicates and the remaining fields *)
Fixpoint value_ranges (i : Z) (total : u64) (l : list TransactionOutput) : TxResult unit :=
  match l with
  | [] => Ok tt
  | o :: l =>
      if out_version o =? SCRIPT_VERSION_CARRIER then value_ranges (i + 1) total l
      else if bool_decide (classify_alt_script (out_script o) = Some Creation) then value_ranges (i + 1) total l
      else
        _ ← fail_if (value o =? 0) (TxOutZero i);
        _ ← fail_if (MAX_SOMPI <? value o) (TxOutTooHigh i);
        if inWb 64 (total + value o) then
          _ ← fail_if (MAX_SOMPI <? total + value o) TotalTxOutTooHigh;
          value_ranges (i + 1) (total + value o) l
        else Err OutputsValueOverflow
  end.
Definition check_transaction_output_value_ranges (tx : Transaction) : TxResult unit := value_ranges 0 0 (outputs tx).

Fixpoint no_duplicates (existing : gset TransactionOutpoint) (l : list TransactionInput) : TxResult unit :=
  match l with
  | [] => Ok tt
  | i :: l =>
      _ ← fail_if (bool_decide (previous_outpoint i ∈ existing)) TxDuplicateInputs;
      no_duplicates ({[previous_outpoint i]} ∪ existing) l
  end.
Definition check_duplicate_transaction_inputs (tx : Transaction) : TxResult unit := no_duplicates ∅ (inputs tx).
Definition check_gas (tx : Transaction) : TxResult unit := fail_if (0 <? gas tx) TxHasGas.
Definition check_transaction_version (tx : Transaction) : TxResult unit :=
  fail_if (MAX_TX_VERSION <? version tx) (UnknownTxVersion (version tx)).
Definition check_transaction_subnetwork (tx : Transaction) : TxResult unit :=
  if is_coinbase tx || is_native (subnetwork_id tx) then Ok tt else Err (SubnetworksDisabled (subnetwork_id tx)).

(** ** Carriers *)
Fixpoint carrier_outputs (i count : Z) (l : list TransactionOutput) : TxResult Z :=
  match l with
  | [] => Ok count
  | o :: l =>
      if negb (out_version o =? SCRIPT_VERSION_CARRIER) then carrier_outputs (i + 1) count l else
      count ← chk 64 (count + 1);
      _ ← map_err (CarrierMalformed i) (parse_carrier_header (out_script o));
      _ ← fail_if (negb (value o =? 0)) (CarrierNonZeroValue i (value o));
      carrier_outputs (i + 1) count l
  end.
Definition validate_carrier_outputs (tx : Transaction) : TxResult unit :=
  carrier_count ← carrier_outputs 0 0 (outputs tx);
  fail_if (MAX_CARRIER_OUTPUTS_PER_TX <? carrier_count) (TooManyCarrierOutputs carrier_count MAX_CARRIER_OUTPUTS_PER_TX).

(** ** Address lookup tables *)
Section alt_outputs.
Context `{Sha3}.

Fixpoint alt_outputs (tx_version : u16) (i count : Z) (l : list TransactionOutput) : TxResult Z :=
  match l with
  | [] => Ok count
  | o :: l =>
      match classify_alt_script (out_script o) with
      | None => alt_outputs tx_version (i + 1) count l
      | Some kind =>
          _ ← fail_if (tx_version <? 1) (AltOutputInLegacyTx i);
          match kind with
          | Creation =>
              count ← chk 64 (count + 1);
              _ ← fail_if (negb (value o =? 0)) (AltCreationNonZeroValue i (value o));
              _ ← map_err (AltCreationMalformed i) (parse_alt_creation_header (out_script o));
              alt_outputs tx_version (i + 1) count l
          | Reference =>
              _ ← map_err (AltReferenceMalformed i) (parse_alt_reference (out_script o));
              alt_outputs tx_version (i + 1) count l
          end
      end
  end.
Definition validate_alt_outputs_and_refs (tx : Transaction) : TxResult unit :=
  creation_count ← alt_outputs (version tx) 0 0 (outputs tx);
  fail_if (MAX_ALT_CREATIONS_PER_TX <? creation_count) (TooManyAltCreations creation_count MAX_ALT_CREATIONS_PER_TX).
End alt_outputs.

(** ** Contract and token deployment *)
Section deploy.
Context `{Blake2b} `{WasmParser}.

Definition has_output (v : u16) (tx : Transaction) : bool := existsb (fun o => out_version o =? v) (outputs tx).
Definition is_contract_deploy (tx : Transaction) : bool :=
  is_native (subnetwork_id tx) && negb (bool_decide (payload tx = [])) && has_output SCRIPT_VERSION_CONTRACT tx.
Definition check_contract_output (w : bytes) (expected_id : Hash) (i : Z) (o : TransactionOutput) : TxResult unit :=
  if negb (out_version o =? SCRIPT_VERSION_CONTRACT) then Ok tt else
  data ← ok_or (try_from_slice borsh_contract (out_script o)) SvmValidationFailed;
  _ ← fail_if (negb (contract_id data =? expected_id)) SvmValidationFailed;
  _ ← fail_if (negb (policy_is_valid (upgrade_policy (manifest data)))) SvmValidationFailed;
  map_err SvmValidationFailed (validate_imports_against_manifest w (required_capabilities (manifest data))).
Definition validate_contract_deploy (tx : Transaction) : TxResult unit :=
  p ← ok_or (try_from_slice borsh_wasm (payload tx)) SvmValidationFailed;
  _ ← map_err SvmValidationFailed (validate_bytecode (wasm p) MAX_BYTECODE_SIZE);
  for_enum (check_contract_output (wasm p) (hash_wasm (wasm p))) 0 (outputs tx).

Definition is_mint_policy_deploy (tx : Transaction) : bool :=
  is_native (subnetwork_id tx) && negb (bool_decide (payload tx = [])) && has_output SCRIPT_VERSION_TOKEN tx.
Definition check_token_output (expected_id : option Hash) (i : Z) (o : TransactionOutput) : TxResult unit :=
  if negb (out_version o =? SCRIPT_VERSION_TOKEN) then Ok tt else
  data ← ok_or (try_from_slice borsh_token (out_script o)) (TokenUtxoMalformed i);
  _ ← match expected_id with
      | Some e => fail_if (negb (token_id data =? e)) SvmValidationFailed
      | None => Ok tt
      end;
  fail_if (MAX_TOKEN_LOCK_SCRIPT_LEN <? zlen (lock_script data)) (TokenUtxoMalformed i).
Definition validate_mint_policy_deploy (tx : Transaction) : TxResult unit :=
  p ← ok_or (try_from_slice borsh_wasm (payload tx)) SvmValidationFailed;
  _ ← map_err SvmValidationFailed (validate_bytecode (wasm p) MAX_BYTECODE_SIZE);
  for_enum (check_token_output (Some (hash_mint_policy (wasm p)))) 0 (outputs tx).
Definition validate_token_outputs (tx : Transaction) : TxResult unit :=
  for_enum (check_token_output None) 0 (outputs tx).
End deploy.

(** ** The composition *)
Definition validate_tx_in_isolation `{Sha3} `{Blake2b} `{WasmParser} (self : TransactionValidator) (tx : Transaction)
    : TxResult unit :=
  _ ← check_transaction_inputs_in_isolation self tx;
  _ ← check_transaction_outputs_in_isolation self tx;
  _ ← check_coinbase_in_isolation self tx;
  _ ← check_transaction_output_value_ranges tx;
  _ ← check_duplicate_transaction_inputs tx;
  _ ← check_gas tx;
  _ ← check_transaction_subnetwork tx;
  _ ← check_transaction_version tx;
  _ ← validate_carrier_outputs tx;
  _ ← validate_alt_outputs_and_refs tx;
  _ ← (if is_contract_deploy tx then validate_contract_deploy tx else Ok tt);
  if is_mint_policy_deploy tx then validate_mint_policy_deploy tx else validate_token_outputs tx.

(** ** Header context *)
Definition LOCK_TIME_THRESHOLD : u64 := 500000000000.
Inductive LockTimeType := TypeFinalized | TypeDaaScore | TypeTime.
Inductive LockTimeArg := ArgFinalized | ArgDaaScore (score : u64) | ArgMedianTime (time : u64).
Definition get_lock_time_type (tx : Transaction) : LockTimeType :=
  if lock_time tx =? 0 then TypeFinalized
  else if lock_time tx <? LOCK_TIME_THRESHOLD then TypeDaaScore
  else TypeTime.
Definition check_tx_is_finalized (tx : Transaction) (arg : LockTimeArg) : TxResult unit :=
  let check t :=
    if lock_time tx <? t then Ok tt
    else for_enum (fun i inp => fail_if (negb (sequence inp =? 2 ^ 64 - 1)) (NotFinalized i)) 0 (inputs tx) in
  match arg with
  | ArgFinalized => Ok tt
  | ArgDaaScore s => check s
  | ArgMedianTime t => check t
  end.
Definition validate_tx_in_header_context (tx : Transaction) (arg : LockTimeArg) : TxResult unit :=
  check_tx_is_finalized tx arg.
Definition validate_tx_in_header_context_with_args (tx : Transaction) (ctx_daa_score ctx_block_time : u64) : TxResult unit :=
  validate_tx_in_header_context tx
    match get_lock_time_type tx with
    | TypeFinalized => ArgFinalized
    | TypeDaaScore => ArgDaaScore ctx_daa_score
    | TypeTime => ArgMedianTime ctx_block_time
    end.

(** ** Lemmas *)
Lemma fail_if_iff {E} b (e : E) : fail_if b e = Ok tt <-> b = false.
Proof. by destruct b. Qed.
Lemma bind_unit_iff {E A} (r : res E unit) (k : res E A) a : (_ ← r; k) = Ok a <-> r = Ok tt /\ k = Ok a.
Proof.
  destruct r as [[]| | |]; simpl; [tauto|..].
  - split; [done|by intros [[=] _]].
  - split; [done|by intros [[=] _]].
  - split; [done|by intros [[=] _]].
Qed.
Lemma bind_map_err_iff {E F A B} (e : F) (r : res E A) (k : res F B) b :
  (_ ← map_err e r; k) = Ok b <-> (exists a, r = Ok a) /\ k = Ok b.
Proof.
  destruct r as [x| | |]; simpl.
  - split; [intros ->; by eauto|by intros [_ ?]].
  - split; [done|by intros [[? [=]] _]].
  - split; [done|by intros [[? [=]] _]].
  - split; [done|by intros [[? [=]] _]].
Qed.
Lemma map_err_iff {E F} (e : F) (r : res E unit) : map_err e r = Ok tt <-> r = Ok tt.
Proof. destruct r as [[]| | |]; simpl; split; done. Qed.
Lemma bind_ok_or_iff {E A B} (o : option A) (e : E) (k : A -> res E B) b :
  (x ← ok_or o e; k x) = Ok b <-> exists x, o = Some x /\ k x = Ok b.
Proof. destruct o; simpl; split; [eauto|by intros (? & [= <-] & ?)|done|by intros (? & [=] & _)]. Qed.
Lemma for_enum_iff {E A} (f : Z -> A -> res E unit) (P : A -> Prop) i l :
  (forall i x, x ∈ l -> f i x = Ok tt <-> P x) -> for_enum f i l = Ok tt <-> Forall P l.
Proof.
  revert i. induction l as [|x l IH]; intros i Hf; simpl; [split; [intros _; by apply Forall_nil|done]|].
  rewrite bind_unit_iff, Hf, IH, Forall_cons; [done| |by left]. intros j y Hy. apply Hf. by right.
Qed.
Lemma for_enum_result {E A} (f : Z -> A -> res E unit) i l :
  (forall i x, x ∈ l -> is_result (f i x)) -> is_result (for_enum f i l).
Proof.
  revert i. induction l as [|x l IH]; intros i Hf; [done|]. cbn [for_enum].
  pose proof (Hf i x ltac:(left)) as Hx. destruct (f i x); [|done..]. apply IH. intros j y Hy. apply Hf. by right.
Qed.
Lemma position_none {A} (p : A -> bool) i l : position p i l = None <-> Forall (fun x => p x = false) l.
Proof.
  revert i. induction l as [|x l IH]; intros i; simpl; [split; [intros _; by apply Forall_nil|done]|].
  rewrite Forall_cons. destruct (p x); [split; [done|by intros [[=] _]]|]. rewrite IH. tauto.
Qed.
Lemma match_position_iff {E A} (p : A -> bool) (e : Z -> E) l :
  match position p 0 l with Some i => Err (e i) | None => Ok tt end = Ok tt <-> Forall (fun x => p x = false) l.
Proof. rewrite <- (position_none p 0). by destruct (position p 0 l). Qed.

(** *** Values *)
Definition ranged (o : TransactionOutput) : bool :=
  negb (out_version o =? SCRIPT_VERSION_CARRIER) && negb (bool_decide (classify_alt_script (out_script o) = Some Creation)).
Definition ranged_value (o : TransactionOutput) : Z := if ranged o then value o else 0.
Lemma value_ranges_iff i total l : Forall (fun o => 0 <= value o) l -> 0 <= total <= MAX_SOMPI ->
  value_ranges i total l = Ok tt <->
  Forall (fun o => ranged o = true -> 1 <= value o) l /\ total + sum_of ranged_value l <= MAX_SOMPI.
Proof.
  revert i total. induction l as [|o l IH]; intros i total Hv Ht; cbn [value_ranges].
  { split; [intros _; split; [by apply Forall_nil|simpl; lia]|done]. }
  apply Forall_cons in Hv as [Ho Hv]. rewrite Forall_cons, sum_of_cons.
  assert (ranged_value o = if ranged o then value o else 0) as -> by done. unfold ranged at 1 3.
  destruct (out_version o =? SCRIPT_VERSION_CARRIER) eqn:H1; cbn [negb andb].
  { rewrite IH by done. split; [intros [? ?]; split; [split; [done|done]|lia]|intros [[_ ?] ?]; split; [done|lia]]. }
  destruct (bool_decide (classify_alt_script (out_script o) = Some Creation)) eqn:H2; cbn [negb].
  { rewrite IH by done. split; [intros [? ?]; split; [split; [done|done]|lia]|intros [[_ ?] ?]; split; [done|lia]]. }
  assert (0 <= sum_of ranged_value l) as Hn.
  { apply sum_of_nonneg. eapply Forall_impl; [exact Hv|]. intros x Hx. unfold ranged_value. by destruct (ranged x). }
  rewrite !bind_unit_iff, !fail_if_iff. unfold MAX_SOMPI, SOMPI_PER_SOPHIS, inWb in *.
  destruct ((0 <=? total + value o) && (total + value o <? 2 ^ 64)) eqn:H3.
  - rewrite bind_unit_iff, fail_if_iff. destruct (Z.le_gt_cases (total + value o) (210000000 * 100000000)).
    + rewrite IH by (done || lia). split.
      * intros (? & ? & ? & ? & ?). split; [split; [lia|done]|lia].
      * intros ((H4 & ?) & ?). specialize (H4 eq_refl). split_and!; [lia..|done|lia].
    + split; [lia|]. intros ((H4 & ?) & ?). lia.
  - split; [by intros (_ & _ & [=])|]. intros ((H4 & ?) & ?). specialize (H4 eq_refl). lia.
Qed.

(** *** Duplicates *)
Lemma no_duplicates_iff existing l : no_duplicates existing l = Ok tt <->
  NoDup (map previous_outpoint l) /\ Forall (fun i => previous_outpoint i ∉ existing) l.
Proof.
  revert existing. induction l as [|i l IH]; intros existing; simpl.
  { split; [intros _; split; [constructor|by apply Forall_nil]|done]. }
  rewrite bind_unit_iff, fail_if_iff, bool_decide_eq_false, IH, NoDup_cons, Forall_cons. split.
  - intros (Hi & Hnd & Hf). rewrite Forall_forall in Hf. split_and!; [|done|done|].
    + intros (j & Heq & Hj)%list_elem_of_fmap. apply (Hf j Hj). rewrite Heq. set_solver.
    + apply Forall_forall. intros j Hj Hin. apply (Hf j Hj). set_solver.
  - intros ((Hn & Hnd) & Hi & Hf). rewrite Forall_forall in Hf. split_and!; [done..|].
    apply Forall_forall. intros j Hj [Heq%elem_of_singleton|Hin]%elem_of_union; [|by apply (Hf j Hj)].
    apply Hn. apply list_elem_of_fmap. by exists j.
Qed.

(** *** Carriers and ALT outputs *)
Definition count_if {A} (p : A -> bool) (l : list A) : Z := sum_of (fun x => if p x then 1 else 0) l.
Lemma count_if_cons {A} (p : A -> bool) x l : count_if p (x :: l) = (if p x then 1 else 0) + count_if p l.
Proof. done. Qed.
Lemma count_if_bounds {A} (p : A -> bool) l : 0 <= count_if p l <= zlen l.
Proof.
  induction l as [|x l IH]; [done|]. rewrite count_if_cons, zlen_cons. destruct (p x); lia.
Qed.

Definition is_carrier (o : TransactionOutput) : bool := out_version o =? SCRIPT_VERSION_CARRIER.
Definition carrier_ok (o : TransactionOutput) : Prop :=
  is_carrier o = true -> (exists h, parse_carrier_header (out_script o) = Ok h) /\ value o = 0.
Lemma carrier_outputs_iff i count l c : 0 <= count -> count + zlen l < 2 ^ 64 ->
  carrier_outputs i count l = Ok c <-> Forall carrier_ok l /\ c = count + count_if is_carrier l.
Proof.
  revert i count. induction l as [|o l IH]; intros i count H0 Hb; cbn [carrier_outputs].
  { split; [intros [= <-]; split; [by apply Forall_nil|simpl; lia]|intros [_ ->]; f_equal; simpl; lia]. }
  rewrite zlen_cons in Hb. pose proof (zlen_nonneg l). rewrite Forall_cons, count_if_cons. unfold carrier_ok at 1.
  unfold is_carrier at 1 2. destruct (out_version o =? SCRIPT_VERSION_CARRIER); cbn [negb].
  - rewrite chk_ok by (unfold inW; lia). cbn [mbind res_bind].
    rewrite bind_map_err_iff, bind_unit_iff, fail_if_iff, negb_false_iff, Z.eqb_eq, IH by lia.
    split.
    + intros (? & ? & ? & ->). split; [done|lia].
    + intros ((H1 & ?) & ->). destruct (H1 eq_refl). split_and!; [done..|lia].
  - rewrite IH by lia. split; [intros [? ->]; split; [done|lia]|intros [[_ ?] ->]; split; [done|lia]].
Qed.

Section alt_lemmas.
Context `{Sha3}.
Definition is_creation (o : TransactionOutput) : bool := bool_decide (classify_alt_script (out_script o) = Some Creation).
Definition alt_ok (tx_version : u16) (o : TransactionOutput) : Prop :=
  match classify_alt_script (out_script o) with
  | None => True
  | Some Creation => 1 <= tx_version /\ value o = 0 /\ exists h, parse_alt_creation_header (out_script o) = Ok h
  | Some Reference => 1 <= tx_version /\ exists r, parse_alt_reference (out_script o) = Ok r
  end.
Lemma alt_outputs_iff v i count l c : 0 <= count -> count + zlen l < 2 ^ 64 ->
  alt_outputs v i count l = Ok c <-> Forall (alt_ok v) l /\ c = count + count_if is_creation l.
Proof.
  revert i count. induction l as [|o l IH]; intros i count H0 Hb; cbn [alt_outputs].
  { split; [intros [= <-]; split; [by apply Forall_nil|simpl; lia]|intros [_ ->]; f_equal; simpl; lia]. }
  rewrite zlen_cons in Hb. pose proof (zlen_nonneg l). rewrite Forall_cons, count_if_cons.
  unfold alt_ok at 1, is_creation at 1. destruct (classify_alt_script (out_script o)) as [[]|].
  - rewrite bool_decide_false by done. rewrite bind_unit_iff, fail_if_iff, bind_map_err_iff, IH, Z.ltb_ge by lia.
    split; [intros (? & ? & ? & ->); split; [done|lia]|intros (([] & ?) & ->); split_and!; [done..|lia]].
  - rewrite bool_decide_true by done. rewrite chk_ok by (unfold inW; lia). cbn [mbind res_bind].
    rewrite !bind_unit_iff, !fail_if_iff, bind_map_err_iff, IH, Z.ltb_ge, negb_false_iff, Z.eqb_eq by lia.
    split; [intros (? & ? & ? & ? & ->); split; [done|lia]|intros (((?&?&?) & ?) & ->); split_and!; [done..|lia]].
  - rewrite bool_decide_false by done. rewrite IH by lia.
    split; [intros [? ->]; split; [done|lia]|intros [[_ ?] ->]; split; [done|lia]].
Qed.
End alt_lemmas.

(** *** Deployments *)
Section deploy_lemmas.
Context `{Blake2b} `{WasmParser}.
Definition contract_output_ok (w : bytes) (o : TransactionOutput) : Prop :=
  out_version o = SCRIPT_VERSION_CONTRACT ->
  exists d, try_from_slice borsh_contract (out_script o) = Some d /\ contract_id d = hash_wasm w /\
    policy_is_valid (upgrade_policy (manifest d)) = true /\
    validate_imports_against_manifest w (required_capabilities (manifest d)) = Ok tt.
Definition token_output_ok (expected_id : option Hash) (o : TransactionOutput) : Prop :=
  out_version o = SCRIPT_VERSION_TOKEN ->
  exists d, try_from_slice borsh_token (out_script o) = Some d /\
    (forall e, expected_id = Some e -> token_id d = e) /\ zlen (lock_script d) <= MAX_TOKEN_LOCK_SCRIPT_LEN.

Lemma check_contract_output_iff w i o : check_contract_output w (hash_wasm w) i o = Ok tt <-> contract_output_ok w o.
Proof.
  unfold check_contract_output, contract_output_ok. destruct (Z.eqb_spec (out_version o) SCRIPT_VERSION_CONTRACT) as [Hv|Hv]; cbn [negb].
  - rewrite bind_ok_or_iff. setoid_rewrite bind_unit_iff. setoid_rewrite bind_unit_iff. setoid_rewrite fail_if_iff.
    setoid_rewrite negb_false_iff. setoid_rewrite Z.eqb_eq. setoid_rewrite map_err_iff. tauto.
  - split; done.
Qed.
Lemma check_token_output_iff e i o : check_token_output e i o = Ok tt <-> token_output_ok e o.
Proof.
  unfold check_token_output, token_output_ok. destruct (Z.eqb_spec (out_version o) SCRIPT_VERSION_TOKEN) as [Hv|Hv]; cbn [negb].
  - rewrite bind_ok_or_iff. setoid_rewrite bind_unit_iff. setoid_rewrite fail_if_iff. setoid_rewrite Z.ltb_ge.
    destruct e as [e|].
    + setoid_rewrite fail_if_iff. setoid_rewrite negb_false_iff. setoid_rewrite Z.eqb_eq. split.
      * intros (d & ? & ? & ?) _. exists d. split_and!; [done|by intros ? [= <-]|done].
      * intros Hd. destruct (Hd Hv) as (d & ? & He & ?). exists d. split_and!; [done|by apply He|done].
    + split.
      * intros (d & ? & _ & ?) _. by exists d.
      * intros Hd. destruct (Hd Hv) as (d & ? & He & ?). by exists d.
  - split; done.
Qed.
Lemma validate_contract_deploy_iff tx : validate_contract_deploy tx = Ok tt <->
  exists p, try_from_slice borsh_wasm (payload tx) = Some p /\ validate_bytecode (wasm p) MAX_BYTECODE_SIZE = Ok tt /\
    Forall (contract_output_ok (wasm p)) (outputs tx).
Proof.
  unfold validate_contract_deploy. rewrite bind_ok_or_iff.
  split; intros (p & Hp & Hk); exists p; (split; [done|]).
  - rewrite bind_map_err_iff in Hk. destruct Hk as [[[] Hb] Hf]. split; [done|].
    eapply for_enum_iff in Hf; [exact Hf|]. intros i x _. apply check_contract_output_iff.
  - rewrite bind_map_err_iff. destruct Hk as [Hb Hf]. split; [by exists tt|].
    eapply for_enum_iff; [|exact Hf]. intros i x _. apply check_contract_output_iff.
Qed.
Lemma validate_mint_policy_deploy_iff tx : validate_mint_policy_deploy tx = Ok tt <->
  exists p, try_from_slice borsh_wasm (payload tx) = Some p /\ validate_bytecode (wasm p) MAX_BYTECODE_SIZE = Ok tt /\
    Forall (token_output_ok (Some (hash_mint_policy (wasm p)))) (outputs tx).
Proof.
  unfold validate_mint_policy_deploy. rewrite bind_ok_or_iff.
  split; intros (p & Hp & Hk); exists p; (split; [done|]).
  - rewrite bind_map_err_iff in Hk. destruct Hk as [[[] Hb] Hf]. split; [done|].
    eapply for_enum_iff in Hf; [exact Hf|]. intros i x _. apply check_token_output_iff.
  - rewrite bind_map_err_iff. destruct Hk as [Hb Hf]. split; [by exists tt|].
    eapply for_enum_iff; [|exact Hf]. intros i x _. apply check_token_output_iff.
Qed.
Lemma validate_token_outputs_iff tx : validate_token_outputs tx = Ok tt <-> Forall (token_output_ok None) (outputs tx).
Proof. apply for_enum_iff. intros i x _. apply check_token_output_iff. Qed.
End deploy_lemmas.

(** ** What is accepted *)
Section isolated.
Context `{Sha3} `{Blake2b} `{WasmParser}.

(** An output with no length rule of its own, or short enough. *)
Definition spk_short (self : TransactionValidator) (o : TransactionOutput) : Prop :=
  out_version o ∈ [SCRIPT_VERSION_CONTRACT; SCRIPT_VERSION_TOKEN; SCRIPT_VERSION_CARRIER] \/
  is_Some (classify_alt_script (out_script o)) \/ zlen (out_script o) <= max_script_public_key_len self.
Record coinbase_shape (self : TransactionValidator) (tx : Transaction) : Prop := {
  cb_inputs : inputs tx = [];
  cb_mass : mass tx <= 0;
  cb_outputs : zlen (outputs tx) <= ghostdag_k self + 2;
  cb_scripts : Forall (fun o => out_version o <> SCRIPT_VERSION_CARRIER /\ classify_alt_script (out_script o) = None /\
                 zlen (out_script o) <= coinbase_payload_script_public_key_max_len self) (outputs tx);
}.
Definition deploys (v : u16) (tx : Transaction) : Prop :=
  subnetwork_id tx = SUBNETWORK_ID_NATIVE /\ payload tx <> [] /\ exists o, o ∈ outputs tx /\ out_version o = v.

Record isolated (self : TransactionValidator) (tx : Transaction) : Prop := {
  iso_some_input : is_coinbase tx = false -> inputs tx <> [];
  iso_inputs : zlen (inputs tx) <= max_tx_inputs self;
  iso_sig_scripts : Forall (fun i => zlen (signature_script i) <= max_signature_script_len self) (inputs tx);
  iso_outputs : is_coinbase tx = false -> zlen (outputs tx) <= max_tx_outputs self;
  iso_scripts : Forall (spk_short self) (outputs tx);
  iso_coinbase : is_coinbase tx = true -> coinbase_shape self tx;
  iso_nonzero : Forall (fun o => ranged o = true -> 1 <= value o) (outputs tx);
  iso_total : sum_of ranged_value (outputs tx) <= MAX_SOMPI;
  iso_nodup : NoDup (map previous_outpoint (inputs tx));
  iso_gas : gas tx <= 0;
  iso_subnetwork : subnetwork_id tx = SUBNETWORK_ID_COINBASE \/ subnetwork_id tx = SUBNETWORK_ID_NATIVE;
  iso_version : version tx <= MAX_TX_VERSION;
  iso_carriers : Forall carrier_ok (outputs tx) /\ count_if is_carrier (outputs tx) <= MAX_CARRIER_OUTPUTS_PER_TX;
  iso_alt : Forall (alt_ok (version tx)) (outputs tx) /\ count_if is_creation (outputs tx) <= MAX_ALT_CREATIONS_PER_TX;
  iso_contract : deploys SCRIPT_VERSION_CONTRACT tx ->
    exists p, try_from_slice borsh_wasm (payload tx) = Some p /\ validate_bytecode (wasm p) MAX_BYTECODE_SIZE = Ok tt /\
      Forall (contract_output_ok (wasm p)) (outputs tx);
  iso_mint : deploys SCRIPT_VERSION_TOKEN tx ->
    exists p, try_from_slice borsh_wasm (payload tx) = Some p /\ validate_bytecode (wasm p) MAX_BYTECODE_SIZE = Ok tt /\
      Forall (token_output_ok (Some (hash_mint_policy (wasm p)))) (outputs tx);
  iso_tokens : ~ deploys SCRIPT_VERSION_TOKEN tx -> Forall (token_output_ok None) (outputs tx);
}.

(** The types of the fields. *)
Record tx_typed (self : TransactionValidator) (tx : Transaction) : Prop := {
  ty_values : Forall (fun o => 0 <= value o) (outputs tx);
  ty_outputs : zlen (outputs tx) < 2 ^ 64;
  ty_k : 0 <= ghostdag_k self < 2 ^ 16;
}.

Lemma deploys_iff v tx :
  is_native (subnetwork_id tx) && negb (bool_decide (payload tx = [])) && has_output v tx = true <-> deploys v tx.
Proof.
  unfold deploys, is_native, has_output. rewrite !andb_true_iff, negb_true_iff, bool_decide_eq_true, bool_decide_eq_false.
  rewrite existsb_exists. setoid_rewrite Z.eqb_eq. setoid_rewrite list_elem_of_In. tauto.
Qed.
Lemma inputs_check_iff self tx : check_transaction_inputs_in_isolation self tx = Ok tt <->
  (is_coinbase tx = false -> inputs tx <> []) /\ zlen (inputs tx) <= max_tx_inputs self /\
  Forall (fun i => zlen (signature_script i) <= max_signature_script_len self) (inputs tx).
Proof.
  unfold check_transaction_inputs_in_isolation, check_transaction_inputs_count, check_transaction_signature_scripts.
  rewrite bind_unit_iff, bind_unit_iff, !fail_if_iff, match_position_iff, Z.ltb_ge.
  rewrite (Forall_iff_pointwise _ (fun i => zlen (signature_script i) <= max_signature_script_len self))
    by (intros; apply Z.ltb_ge).
  destruct (is_coinbase tx); cbn [negb andb]; [|rewrite bool_decide_eq_false]; intuition done.
Qed.
Lemma outputs_check_iff self tx : check_transaction_outputs_in_isolation self tx = Ok tt <->
  (is_coinbase tx = false -> zlen (outputs tx) <= max_tx_outputs self) /\ Forall (spk_short self) (outputs tx).
Proof.
  unfold check_transaction_outputs_in_isolation, check_transaction_outputs_count, check_transaction_script_public_keys.
  rewrite bind_unit_iff, match_position_iff.
  rewrite (Forall_iff_pointwise _ (spk_short self)).
  2: { intros o. unfold too_big_spk, spk_short. rewrite !elem_of_cons, elem_of_nil.
       destruct (classify_alt_script (out_script o)) eqn:Hc.
       - rewrite bool_decide_false, andb_false_r by done. cbn [andb]. split; [intros _; right; left; by eexists|done].
       - rewrite bool_decide_true by done. split.
         + intros Hb. destruct (Z.eqb_spec (out_version o) SCRIPT_VERSION_CONTRACT); [by left; left|].
           destruct (Z.eqb_spec (out_version o) SCRIPT_VERSION_TOKEN); [by left; right; left|].
           destruct (Z.eqb_spec (out_version o) SCRIPT_VERSION_CARRIER); [by left; do 2 right; left|].
           right. right. cbn [negb andb] in Hb. lia.
         + intros [[->|[->|[->|[]]]]|[[? [=]]|Hl]]; [done..|]. replace (_ <? zlen (out_script o)) with false by lia.
           by rewrite andb_false_r. }
  destruct (is_coinbase tx); [|rewrite fail_if_iff, Z.ltb_ge]; intuition done.
Qed.
Lemma coinbase_check_iff self tx : 0 <= ghostdag_k self < 2 ^ 16 ->
  check_coinbase_in_isolation self tx = Ok tt <-> (is_coinbase tx = true -> coinbase_shape self tx).
Proof.
  intros Hk. unfold check_coinbase_in_isolation. destruct (is_coinbase tx); cbn [negb]; [|by split].
  rewrite u64_add_ok by (unfold inW; lia). rewrite !bind_unit_iff, !fail_if_iff. cbn [mbind res_bind].
  rewrite bind_unit_iff, fail_if_iff, negb_false_iff, bool_decide_eq_true, !Z.ltb_ge.
  rewrite (for_enum_iff _ (fun o => out_version o <> SCRIPT_VERSION_CARRIER /\ classify_alt_script (out_script o) = None /\
                 zlen (out_script o) <= coinbase_payload_script_public_key_max_len self)).
  - split; [by intros (? & ? & ? & ?) _|]. intros Hs. by destruct (Hs eq_refl).
  - intros i o _. unfold check_coinbase_output. rewrite !bind_unit_iff, !fail_if_iff, Z.eqb_neq, bool_decide_eq_false, Z.ltb_ge.
    by rewrite eq_None_not_Some.
Qed.

Lemma subnetwork_check_iff tx : check_transaction_subnetwork tx = Ok tt <->
  subnetwork_id tx = SUBNETWORK_ID_COINBASE \/ subnetwork_id tx = SUBNETWORK_ID_NATIVE.
Proof.
  unfold check_transaction_subnetwork, is_coinbase, is_native.
  do 2 case_bool_decide; simpl; split; first [done | tauto].
Qed.
Lemma carrier_check_iff tx : zlen (outputs tx) < 2 ^ 64 -> validate_carrier_outputs tx = Ok tt <->
  Forall carrier_ok (outputs tx) /\ count_if is_carrier (outputs tx) <= MAX_CARRIER_OUTPUTS_PER_TX.
Proof.
  intros Ho. unfold validate_carrier_outputs. split.
  - intros Hc. apply bind_ok in Hc as (c & Hc & Hm). apply carrier_outputs_iff in Hc as [? ->]; [|lia..].
    rewrite fail_if_iff in Hm. split; [done|lia].
  - intros [Hc Hm]. rewrite (proj2 (carrier_outputs_iff 0 0 (outputs tx) _ ltac:(lia) ltac:(lia)) (conj Hc eq_refl)).
    cbn [mbind res_bind]. apply fail_if_iff. lia.
Qed.
Lemma alt_check_iff tx : zlen (outputs tx) < 2 ^ 64 -> validate_alt_outputs_and_refs tx = Ok tt <->
  Forall (alt_ok (version tx)) (outputs tx) /\ count_if is_creation (outputs tx) <= MAX_ALT_CREATIONS_PER_TX.
Proof.
  intros Ho. unfold validate_alt_outputs_and_refs. split.
  - intros Hc. apply bind_ok in Hc as (c & Hc & Hm). apply alt_outputs_iff in Hc as [? ->]; [|lia..].
    rewrite fail_if_iff in Hm. split; [done|lia].
  - intros [Hc Hm]. rewrite (proj2 (alt_outputs_iff (version tx) 0 0 (outputs tx) _ ltac:(lia) ltac:(lia)) (conj Hc eq_refl)).
    cbn [mbind res_bind]. apply fail_if_iff. lia.
Qed.

Lemma isolated_iff self tx : tx_typed self tx -> validate_tx_in_isolation self tx = Ok tt <-> isolated self tx.
Proof.
  intros [Hv Ho Hk]. unfold validate_tx_in_isolation.
  rewrite !bind_unit_iff, inputs_check_iff, outputs_check_iff, coinbase_check_iff by done.
  unfold check_transaction_output_value_ranges, check_duplicate_transaction_inputs, check_gas, check_transaction_version.
  rewrite value_ranges_iff by (done || (unfold MAX_SOMPI, SOMPI_PER_SOPHIS; lia)).
  rewrite no_duplicates_iff, !fail_if_iff, !Z.ltb_ge, Z.add_0_l.
  rewrite subnetwork_check_iff, carrier_check_iff, alt_check_iff by done.
  pose proof (deploys_iff SCRIPT_VERSION_CONTRACT tx) as Hdc. pose proof (deploys_iff SCRIPT_VERSION_TOKEN tx) as Hdt.
  fold (is_contract_deploy tx) in Hdc. fold (is_mint_policy_deploy tx) in Hdt.
  split.
  - intros ((?&?&?)&(?&?)&?&(?&?)&(?&?)&?&?&?&(?&?)&(?&?)&Hc&Hm). split; try done.
    + intros Hd. apply Hdc in Hd. rewrite Hd in Hc. by apply validate_contract_deploy_iff.
    + intros Hd. apply Hdt in Hd. rewrite Hd in Hm. by apply validate_mint_policy_deploy_iff.
    + intros Hd. destruct (is_mint_policy_deploy tx); [by destruct Hd; apply Hdt|]. by apply validate_token_outputs_iff.
  - intros [? ? ? ? ? ? ? ? ? ? ? ? [? ?] [? ?] Hc Hm Ht]. split_and!; try done.
    + apply Forall_forall. intros i _. set_solver.
    + destruct (is_contract_deploy tx); [|done]. by apply validate_contract_deploy_iff, Hc, Hdc.
    + destruct (is_mint_policy_deploy tx); [by apply validate_mint_policy_deploy_iff, Hm, Hdt|].
      apply validate_token_outputs_iff, Ht. intros Hd. by apply Hdt in Hd.
Qed.

(** All values together: the outputs outside the range check carry nothing. *)
Lemma isolated_values self tx : isolated self tx ->
  sum_of value (outputs tx) = sum_of ranged_value (outputs tx) /\
  Forall (fun o => 1 <= value o \/ is_zero_value_protocol_output o = true) (outputs tx).
Proof.
  intros Hi. pose proof (iso_nonzero _ _ Hi) as Hn. destruct (iso_carriers _ _ Hi) as [Hc _].
  destruct (iso_alt _ _ Hi) as [Ha _]. clear Hi.
  induction (outputs tx) as [|o l IH]; [split; [done|by apply Forall_nil]|].
  apply Forall_cons in Hn as [Hn Hns], Hc as [Hc Hcs], Ha as [Ha Has]. destruct (IH Hns Hcs Has) as [IH1 IH2].
  rewrite !sum_of_cons, IH1, Forall_cons.
  assert (ranged_value o = if ranged o then value o else 0) as -> by done.
  assert (value o = 0 -> ranged o = false -> is_zero_value_protocol_output o = true) as Hz.
  { intros Hv Hr. unfold is_zero_value_protocol_output, ranged, out_version, out_script in *. rewrite Hv. simpl.
    destruct (spk_version _ =? _); [done|]. cbn [negb andb] in Hr. by apply negb_false_iff in Hr. }
  destruct (ranged o) eqn:Hr.
  - split; [done|]. split; [left; by apply Hn|done].
  - assert (value o = 0) as Hv.
    { unfold ranged in Hr. destruct (is_carrier o) eqn:Hic; [by apply Hc|]. unfold is_carrier in Hic. rewrite Hic in Hr.
      cbn [negb andb] in Hr. apply negb_false_iff, bool_decide_eq_true in Hr. unfold alt_ok in Ha. rewrite Hr in Ha. by apply Ha. }
    rewrite Hv. split; [done|]. split; [right; by apply Hz|done].
Qed.
End isolated.

(** *** Identifiers that look like ALT discriminators *)
Lemma as_bytes_cons h : inW 256 h -> as_bytes h = h / 2 ^ 248 :: rev (digits 256 31 h).
Proof.
  intros Hh. unfold as_bytes. rewrite (digits_snoc 256) by lia. rewrite rev_app_distr. cbn [rev app].
  change (256 ^ Z.of_nat 31) with (2 ^ 248). rewrite Z.mod_small; [done|]. unfold inW in Hh. split.
  - apply Z.div_pos; lia.
  - apply Z.div_lt_upper_bound; [lia|]. change (2 ^ 248 * 256) with (2 ^ 256). lia.
Qed.
(** An output whose script is the encoding of contract or token data. *)
Definition carries_id (o : TransactionOutput) (i : Hash) : Prop :=
  (exists d, out_version o = SCRIPT_VERSION_TOKEN /\ out_script o = ser borsh_token d /\ token_id d = i) \/
  (exists d, out_version o = SCRIPT_VERSION_CONTRACT /\ out_script o = ser borsh_contract d /\ contract_id d = i).
Lemma carries_id_script o i : carries_id o i -> exists r, out_script o = as_bytes i ++ r.
Proof.
  intros [(d & _ & -> & <-)|(d & _ & -> & <-)]; eexists; reflexivity.
Qed.
Lemma parse_creation_magic `{Sha3} script h : parse_alt_creation_header script = Ok h ->
  take 8 (drop 1 script) = ALT_MAGIC.
Proof.
  intros Hp. destruct (Z.lt_ge_cases (zlen script) ALT_HEADER_LEN) as [Hs|Hs].
  { unfold parse_alt_creation_header in Hp. by replace (zlen script <? ALT_HEADER_LEN) with true in Hp by lia. }
  destruct (script_cut script Hs) as (b0 & magic & f & r & c & lb & hd & section & Heq & Hm & Hlb & Hhd).
  rewrite (parse_header_cut b0 magic f r c lb hd section script Heq Hm Hlb Hhd) in Hp. guards Hp.
  apply negb_false_iff, bool_decide_eq_true in Hg0. subst script. cbn [skipn]. rewrite <- Hg0.
  apply take_app_length'. unfold zlen in Hm. lia.
Qed.

(** ** Theorems *)

(** C20. What [validate_tx_in_isolation] accepts, on any typed transaction:
    exactly the transactions satisfying the predicate [isolated] (counts and
    lengths within the limits, the coinbase shape, values in range with a total
    of at most [MAX_SOMPI], distinct inputs, no gas, a known version and
    subnetwork, well-formed carriers, lookup tables, contract and token
    outputs). *)
Theorem isolation_accepts `{Sha3} `{Blake2b} `{WasmParser} self tx : tx_typed self tx ->
  validate_tx_in_isolation self tx = Ok tt <-> isolated self tx.
Proof. apply isolated_iff. Qed.

(** A contract or token output whose identifier has the first byte 0xFD is
    never accepted, in a transaction of any version, because its script is
    taken for an ALT reference; nor is one with the first byte 0xFE unless
    the next eight bytes spell the ALT magic.  Identifiers are hashes of
    bytecode, so one in 128 contracts or token policies cannot be used. *)
Theorem discriminator_ids_rejected `{Sha3} `{Blake2b} `{WasmParser} self tx o i :
  tx_typed self tx -> o ∈ outputs tx -> carries_id o i -> inW 256 i ->
  i / 2 ^ 248 = ALT_DISCRIMINATOR_REFERENCE \/
  (i / 2 ^ 248 = ALT_DISCRIMINATOR_CREATION /\ take 8 (rev (digits 256 31 i)) <> ALT_MAGIC) ->
  validate_tx_in_isolation self tx <> Ok tt.
Proof.
  intros Hty Ho (r & Hs)%carries_id_script Hi Hd Hv. apply isolated_iff in Hv; [|done].
  destruct (iso_alt _ _ Hv) as [Ha _]. rewrite Forall_forall in Ha. specialize (Ha o Ho).
  rewrite as_bytes_cons in Hs by done. unfold alt_ok, classify_alt_script in Ha. rewrite Hs in Ha. cbn [app] in Ha.
  destruct Hd as [Hd|[Hd Hm]]; rewrite Hd, ?Z.eqb_refl in Ha;
    change (ALT_DISCRIMINATOR_CREATION =? ALT_DISCRIMINATOR_REFERENCE) with false in Ha; cbv iota in Ha.
  - destruct Ha as (_ & p & Hp). unfold parse_alt_reference in Hp. apply bind_ok in Hp as (u & Hp & _).
    apply fail_if_ok in Hp. rewrite zlen_cons, zlen_app in Hp. unfold zlen at 1 in Hp. rewrite length_rev, length_digits in Hp.
    pose proof (zlen_nonneg r). unfold ALT_REFERENCE_LEN in Hp. lia.
  - destruct Ha as (_ & _ & h & Hp). apply parse_creation_magic in Hp. cbn [skipn] in Hp. apply Hm. rewrite <- Hp.
    rewrite drop_0, take_app_le; [done|]. rewrite length_rev, length_digits. lia.
Qed.

(** When a transaction is final: it has no lock time, or its lock time (a
    DAA score below the threshold, a time otherwise) is strictly before the
    context's, or every input opted out with the maximal sequence number. *)
Theorem lock_time_iff tx daa_score block_time :
  validate_tx_in_header_context_with_args tx daa_score block_time = Ok tt <->
  lock_time tx = 0 \/
  lock_time tx < (if lock_time tx <? LOCK_TIME_THRESHOLD then daa_score else block_time) \/
  Forall (fun i => sequence i = 2 ^ 64 - 1) (inputs tx).
Proof.
  assert (for_enum (fun i inp => fail_if (negb (sequence inp =? 2 ^ 64 - 1)) (NotFinalized i)) 0 (inputs tx) = Ok tt <->
    Forall (fun i => sequence i = 2 ^ 64 - 1) (inputs tx)) as Hseq.
  { apply for_enum_iff. intros i x _. by rewrite fail_if_iff, negb_false_iff, Z.eqb_eq. }
  unfold validate_tx_in_header_context_with_args, validate_tx_in_header_context, get_lock_time_type, check_tx_is_finalized.
  destruct (Z.eqb_spec (lock_time tx) 0); [split; [by left|done]|].
  destruct (lock_time tx <? LOCK_TIME_THRESHOLD).
  - destruct (Z.ltb_spec (lock_time tx) daa_score); [split; [by right; left|done]|]. rewrite Hseq. intuition lia.
  - destruct (Z.ltb_spec (lock_time tx) block_time); [split; [by right; left|done]|]. rewrite Hseq. intuition lia.
Qed.

(** ** Witnesses *)
Definition no_wasm : WasmParser := {| parse_all _ := [] |}.
Definition mainnet_validator : TransactionValidator := {|
  max_tx_inputs := 1000; max_tx_outputs := 1000; max_signature_script_len := 10000; max_script_public_key_len := 10000;
  coinbase_payload_script_public_key_max_len := 150; coinbase_maturity := 1000; ghostdag_k := 124;
  mass_calculator := mkCalc 1 10 1000 STORAGE_MASS_PARAMETER |}.
Definition plain_tx (outs : list TransactionOutput) : Transaction := {|
  version := 1; inputs := [{| previous_outpoint := {| transaction_id := 7; index := 0 |}; signature_script := [];
                              sequence := 0; sig_op_count := 0 |}];
  outputs := outs; lock_time := 0; subnetwork_id := SUBNETWORK_ID_NATIVE; gas := 0; payload := []; mass := 0; id := 0 |}.
Definition payment : TransactionOutput :=
  {| value := 500; out_script_public_key := {| spk_version := 0; spk_script := [0x51] |} |}.
Lemma isolation_accepts_witness :
  isolated (H:=toy_sha3) (H0:=toy_blake2b) (H1:=no_wasm) mainnet_validator (plain_tx [payment]).
Proof.
  apply (isolation_accepts (H:=toy_sha3) (H0:=toy_blake2b) (H1:=no_wasm)); [|by vm_compute].
  split; [by repeat constructor|done|done].
Defined.

Definition fd_token : NativeTokenUtxoData :=
  {| token_id := 0xFD * 2 ^ 248; token_amount := 1; lock_script := []; transfer_policy_id := None |}.
Definition fd_output : TransactionOutput := {| value := 500;
  out_script_public_key := {| spk_version := SCRIPT_VERSION_TOKEN; spk_script := ser borsh_token fd_token |} |}.
Lemma discriminator_ids_rejected_witness :
  validate_tx_in_isolation (H:=toy_sha3) (H0:=toy_blake2b) (H1:=no_wasm) mainnet_validator (plain_tx [fd_output]) <> Ok tt.
Proof.
  apply (discriminator_ids_rejected (H:=toy_sha3) (H0:=toy_blake2b) (H1:=no_wasm) mainnet_validator (plain_tx [fd_output])
    fd_output (0xFD * 2 ^ 248)).
  - split; [by repeat constructor|done|done].
  - left.
  - left. by exists fd_token.
  - done.
  - by left.
Defined.
