(* ===== verification/TxUtxo.v ===== *)
(** * Transaction validation in UTXO context

    [consensus/src/processes/transaction_validator/tx_validation_in_utxo_context.rs]:
    maturity, amounts, mass commitment, sequence locks, ALT references, the
    scripts of every input (by the engine of [ScriptVm.v], or by the sVM for
    contract and token outputs) and the conservation of native tokens.

    The stores and the contract executor are the fields of [SvmContext]; the
    executor runs WASM, and is a function of the contract, its bytecode and
    the execution context (the transaction's entries and outputs, the DAA
    score, the manifest and the identifier: the code passes their Borsh
    encodings).  [check_scripts] runs the inputs on a thread pool when there
    are two or more; the order in which they are checked is an argument, and
    the check of one input is taken as atomic with respect to the shared
    signature cache and events collector.  The floating-point comparison of
    the mempool's feerate rule is an argument as well. *)
From S2P Require Import Prelude Encode Script Tx Hashing ScriptVm ScriptSafe Alt Da Svm Mass TxIsolation.

(** ** Stores and executor *)
Record AltEntry := {
  alt_handle : bytes;
  alt_entries : list (Z * bytes);
  creating_block_hash : Hash;
  creating_daa_score : u64;
}.
Definition alt_entry_count (e : AltEntry) : u16 := wrap 16 (zlen (alt_entries e)).

Record BufferedEvent := { ev_contract_id : Hash; ev_topics : list Hash; ev_data : bytes }.
Record ExecutionContext := {
  ctx_entries : list UtxoEntry;
  ctx_outputs : list TransactionOutput;
  ctx_block_height : u64;
  ctx_manifest : ContractManifest;
  ctx_contract_id : Hash;
}.
Record ExecutionResult := { exec_valid : bool; exec_events : list BufferedEvent }.
Record SvmContext := {
  get_wasm : Hash -> option bytes;
  (** [None] is a [RuntimeError] *)
  executor : Hash -> bytes -> ExecutionContext -> option ExecutionResult;
  (** [get_entry]: [None] is a store error *)
  alt_store : option (bytes -> option (option AltEntry));
  (** whether [get_by_hash] finds the block *)
  selected_chain_store : option (Hash -> bool);
  pending_chain_blocks : gset Hash;
  pruning_point_store : option (option Hash);
  headers_store : option (Hash -> option u64);
}.

(** What validation writes: the signature cache and the events collector. *)
Record ValState := mkVal { val_cache : Cache; val_events : gmap Hash (list BufferedEvent) }.

(** [x as i64] *)
Definition as_i64 (x : u64) : i64 := if x <? 2 ^ 63 then x else x - 2 ^ 64.

(** [tx.populated_inputs()] *)
Definition populated_inputs (tx : PopulatedTransaction) : list (TransactionInput * UtxoEntry) :=
  zip (inputs (ptx tx)) (entries tx).

(** ** Maturity, amounts, mass and locks *)
Section amounts.
Context (self : TransactionValidator).

Definition check_maturity (pov_daa_score : u64) (i : Z) (p : TransactionInput * UtxoEntry) : TxResult unit :=
  if is_coinbase_entry p.2 then
    bound ← u64_add (block_daa_score p.2) (coinbase_maturity self);
    fail_if (pov_daa_score <? bound)
      (ImmatureCoinbaseSpend i (previous_outpoint p.1) (block_daa_score p.2) pov_daa_score (coinbase_maturity self))
  else Ok tt.
Definition check_transaction_coinbase_maturity (tx : PopulatedTransaction) (pov_daa_score : u64) : TxResult unit :=
  for_enum (check_maturity pov_daa_score) 0 (populated_inputs tx).

Definition add_amount (total : u64) (p : TransactionInput * UtxoEntry) : TxResult u64 :=
  if inWb 64 (total + amount p.2) then
    _ ← fail_if (MAX_SOMPI <? total + amount p.2) InputAmountTooHigh;
    Ok (total + amount p.2)
  else Err InputAmountOverflow.
Definition check_transaction_input_amounts (tx : PopulatedTransaction) : TxResult u64 :=
  res_foldl add_amount 0 (populated_inputs tx).
Definition check_transaction_output_values (tx : PopulatedTransaction) (total_in : u64) : TxResult u64 :=
  total_out ← u64_sum (map value (outputs (ptx tx)));
  _ ← fail_if (total_in <? total_out) (SpendTooHigh total_out total_in);
  Ok total_out.

Definition check_mass_commitment (tx : PopulatedTransaction) : TxResult unit :=
  calculated ← map_err MassIncomputable (calc_contextual_masses (mass_calculator self) tx);
  let committed := mass (ptx tx) in
  fail_if (negb (committed =? calculated)) (WrongMass calculated committed).
End amounts.

Definition SEQUENCE_DISABLED : u64 := Z.shiftl 1 63.
Definition SEQUENCE_MASK : u64 := 0xffffffff.
(** Whether the lock of one input is still closed; [any] stops at the first. *)
Definition locked (pov_daa_score : i64) (p : TransactionInput * UtxoEntry) : TxResult bool :=
  if Z.land (sequence p.1) SEQUENCE_DISABLED =? SEQUENCE_DISABLED then Ok false else
  let relative_lock := as_i64 (Z.land (sequence p.1) SEQUENCE_MASK) in
  x ← i64_op (as_i64 (block_daa_score p.2) + relative_lock);
  lock_daa_score ← i64_op (x - 1);
  Ok (pov_daa_score <=? lock_daa_score).
Fixpoint any_locked (pov_daa_score : i64) (l : list (TransactionInput * UtxoEntry)) : TxResult bool :=
  match l with
  | [] => Ok false
  | p :: l => b ← locked pov_daa_score p; if (b : bool) then Ok true else any_locked pov_daa_score l
  end.
Definition check_sequence_lock (tx : PopulatedTransaction) (pov_daa_score : u64) : TxResult unit :=
  b ← any_locked (as_i64 pov_daa_score) (populated_inputs tx);
  fail_if b SequenceLockConditionsAreNotMet.

(** The mass and the comparison [fee / mass <= threshold] in [f64]. *)
Definition check_feerate_threshold (fee : u64) (t : option (u64 * (u64 -> u64 -> bool))) : TxResult unit :=
  match t with
  | None => Ok tt
  | Some (contextual_mass, not_above) =>
      _ ← rassert (0 <? contextual_mass);
      fail_if (not_above fee contextual_mass) FeerateTooLow
  end.

(** ** ALT references *)
Section alt_refs.
Context (svm : SvmContext).

(** Whether the block that created the table is canonical, when the chain
    store is there to tell. *)
Definition below_horizon (e : AltEntry) : bool :=
  match pruning_point_store svm with
  | Some (Some pp_hash) =>
      match headers_store svm with
      | Some get => match get pp_hash with Some pp_daa => creating_daa_score e <? pp_daa | None => false end
      | None => false
      end
  | _ => false
  end.
Definition canonical (e : AltEntry) : bool :=
  match selected_chain_store svm with
  | None => true
  | Some in_chain =>
      in_chain (creating_block_hash e) ||
      (let in_current_batch := bool_decide (creating_block_hash e ∈ pending_chain_blocks svm) in
       in_current_batch || (negb in_current_batch && below_horizon e))
  end.
Definition check_alt_reference (get_entry : bytes -> option (option AltEntry)) (i : Z) (o : TransactionOutput) : TxResult unit :=
  if negb (bool_decide (classify_alt_script (out_script o) = Some Reference)) then Ok tt else
  r ← map_err (AltReferenceMalformed i) (parse_alt_reference (out_script o));
  match get_entry (ref_handle r) with
  | None => Err (AltReferenceMalformed i)
  | Some None => Err (AltReferenceDanglingHandle i (ref_handle r))
  | Some (Some entry) =>
      _ ← fail_if (negb (canonical entry)) (AltReferenceDanglingHandle i (ref_handle r));
      let count := alt_entry_count entry in
      fail_if (count <=? ref_index r) (AltReferenceIndexOutOfRange i (ref_index r) count)
  end.
End alt_refs.
Definition check_alt_references (svm : option SvmContext) (tx : PopulatedTransaction) : TxResult unit :=
  match svm with
  | None => Ok tt
  | Some c =>
      match alt_store c with
      | None => Ok tt
      | Some get_entry => for_enum (check_alt_reference c get_entry) 0 (outputs (ptx tx))
      end
  end.

(** ** Scripts *)
Section scripts.
Context `{SC : ScriptCrypto} `{CR : CacheRandom}.
Implicit Types (svm : option SvmContext) (tx : PopulatedTransaction).

Definition map_script_err {A} (input : TransactionInput) (r : res TxScriptError A) : TxResult A :=
  match r with
  | Ok a => Ok a
  | Err e => Err (if bool_decide (signature_script input = []) then SignatureEmpty e else SignatureInvalid e)
  | Panic => Panic
  | NoFuel => NoFuel
  end.

(** A run of the engine on an input: the cache and the reused hashes are
    shared with the other inputs. *)
Abbreviation V A := (stm (ValState * SigHashReusedValues) TxRuleError A) (only parsing).
Definition run_engine tx (input : TransactionInput) (idx : nat) (entry : UtxoEntry) : V unit := fun '(s, reused) =>
  match from_transaction_input tx input idx entry reused (val_cache s) with
  | Ok (source, vm) =>
      let '(r, vm) := execute source vm in
      (map_script_err input r, (mkVal (sig_cache vm) (val_events s), reused_values vm))
  | Err e => (Err e, (s, reused))
  | Panic => (Panic, (s, reused))
  | NoFuel => (NoFuel, (s, reused))
  end.
Definition vlift {A} (r : TxResult A) : V A := fun s => (r, s).
(** [events_collector.insert(tx.id(), events)], unless there are none. *)
Definition stash_events tx (events : list BufferedEvent) : V unit := fun '(s, reused) =>
  (Ok tt, (if bool_decide (events = []) then s else mkVal (val_cache s) (<[id (ptx tx) := events]> (val_events s)), reused)).

Definition execution_context tx (pov_daa_score : u64) (m : ContractManifest) (cid : Hash) : ExecutionContext :=
  {| ctx_entries := entries tx; ctx_outputs := outputs (ptx tx); ctx_block_height := pov_daa_score;
     ctx_manifest := m; ctx_contract_id := cid |}.
(** The manifest given to minting and transfer policies. *)
Definition policy_manifest (policy : Hash) : ContractManifest :=
  {| script_hash := policy; upgrade_policy := Immutable;
     required_capabilities := [ReadUtxo; ReadBlockHeight; VerifyDilithium; HashSha3] |}.

Definition check_contract_input svm tx (entry : UtxoEntry) (pov_daa_score : u64) : V unit :=
  c ← vlift (ok_or svm SvmValidationFailed);
  data ← vlift (ok_or (try_from_slice borsh_contract (spk_script (script_public_key entry))) SvmValidationFailed);
  w ← vlift (ok_or (get_wasm c (contract_id data)) ContractNotDeployed);
  let ctx := execution_context tx pov_daa_score (manifest data) (contract_id data) in
  result ← vlift (ok_or (executor c (contract_id data) w ctx) SvmValidationFailed);
  _ ← vlift (fail_if (negb (exec_valid result)) SvmValidationFailed);
  stash_events tx (exec_events result).

Definition check_token_utxo_spend svm tx (input : TransactionInput) (idx : nat) (entry : UtxoEntry) (pov_daa_score : u64) : V unit :=
  data ← vlift (ok_or (try_from_slice borsh_token (spk_script (script_public_key entry))) (TokenUtxoMalformed (Z.of_nat idx)));
  let synthetic_entry := {| amount := amount entry;
    script_public_key := {| spk_version := 0; spk_script := lock_script data |};
    block_daa_score := block_daa_score entry; is_coinbase_entry := is_coinbase_entry entry |} in
  _ ← run_engine tx input idx synthetic_entry;
  match transfer_policy_id data with
  | None => mret tt
  | Some policy_id =>
      c ← vlift (ok_or svm TransferPolicyNotDeployed);
      w ← vlift (ok_or (get_wasm c policy_id) TransferPolicyNotDeployed);
      let ctx := execution_context tx pov_daa_score (policy_manifest policy_id) policy_id in
      result ← vlift (ok_or (executor c policy_id w ctx) TransferPolicyRejected);
      _ ← vlift (fail_if (negb (exec_valid result)) TransferPolicyRejected);
      stash_events tx (exec_events result)
  end.

Definition check_input svm tx (pov_daa_score : u64) (idx : nat) : V unit :=
  '(input, entry) ← vlift (populated_input tx idx);
  let v := spk_version (script_public_key entry) in
  if v =? SCRIPT_VERSION_CONTRACT then check_contract_input svm tx entry pov_daa_score
  else if v =? SCRIPT_VERSION_TOKEN then check_token_utxo_spend svm tx input idx entry pov_daa_score
  else run_engine tx input idx entry.

(** With two inputs or more they are checked in the order [order]. *)
Definition check_scripts_with_svm (order : list nat) svm tx (pov_daa_score : u64) : stm ValState TxRuleError unit := fun s =>
  let idxs := if (1 <? length (inputs (ptx tx)))%nat then order else seq 0 (length (inputs (ptx tx))) in
  let '(r, (s, _)) := stm_for (check_input svm tx pov_daa_score) idxs (s, reused_default) in (r, s).
End scripts.

(** ** Native tokens *)
Section tokens.
Context `{SI : !SetIter Hash}.
Implicit Types (svm : option SvmContext) (tx : PopulatedTransaction).

Definition add_token (overflow : TxRuleError) (sums : gmap Hash u64) (spk : ScriptPublicKey) : TxResult (gmap Hash u64) :=
  if negb (spk_version spk =? SCRIPT_VERSION_TOKEN) then Ok sums else
  data ← ok_or (try_from_slice borsh_token (spk_script spk)) SvmValidationFailed;
  let current := default 0 (sums !! token_id data) in
  if inWb 64 (current + token_amount data)
  then Ok (<[token_id data := current + token_amount data]> sums)
  else Err overflow.
Definition token_sums (overflow : TxRuleError) (spks : list ScriptPublicKey) : TxResult (gmap Hash u64) :=
  res_foldl (add_token overflow) ∅ spks.

Definition check_token svm tx (pov_daa_score : u64) (ins outs : gmap Hash u64) (tid : Hash) : stm ValState TxRuleError unit := fun s =>
  let in_amt := default 0 (ins !! tid) in
  let out_amt := default 0 (outs !! tid) in
  if in_amt =? out_amt then (Ok tt, s) else
  match svm with
  | None => (Err MintingPolicyNotDeployed, s)
  | Some c =>
      match get_wasm c tid with
      | None => (Err MintingPolicyNotDeployed, s)
      | Some w =>
          match executor c tid w (execution_context tx pov_daa_score (policy_manifest tid) tid) with
          | None => (Err MintingPolicyRejected, s)
          | Some result =>
              if negb (exec_valid result) then (Err MintingPolicyRejected, s)
              else (Ok tt, if bool_decide (exec_events result = []) then s
                           else mkVal (val_cache s) (<[id (ptx tx) := exec_events result]> (val_events s)))
          end
      end
  end.
Definition check_token_conservation svm tx (pov_daa_score : u64) : stm ValState TxRuleError unit := fun s =>
  match token_sums InputAmountOverflow (map (fun p => script_public_key p.2) (populated_inputs tx)) with
  | Ok ins =>
      match token_sums OutputsValueOverflow (map out_script_public_key (outputs (ptx tx))) with
      | Ok outs => stm_for (check_token svm tx pov_daa_score ins outs) (set_iter (dom ins ∪ dom outs)) s
      | Err e => (Err e, s)
      | Panic => (Panic, s)
      | NoFuel => (NoFuel, s)
      end
  | Err e => (Err e, s)
  | Panic => (Panic, s)
  | NoFuel => (NoFuel, s)
  end.
End tokens.

(** ** The composition *)
Inductive TxValidationFlags := Full | SkipScriptChecks | SkipMassCheck.
#[export] Instance TxValidationFlags_eq_dec : EqDecision TxValidationFlags.
Proof. solve_decision. Defined.

Section validate.
Context `{SC : ScriptCrypto} `{CR : CacheRandom} `{SI : !SetIter Hash}.
Definition slift {S E A} (r : res E A) : stm S E A := fun s => (r, s).

(** The checks that come before the scripts. *)
Definition checks_before_scripts (self : TransactionValidator) (svm : option SvmContext) (tx : PopulatedTransaction)
    (pov_daa_score : u64) (flags : TxValidationFlags) (threshold : option (u64 * (u64 -> u64 -> bool))) : TxResult u64 :=
  _ ← check_transaction_coinbase_maturity self tx pov_daa_score;
  total_in ← check_transaction_input_amounts tx;
  total_out ← check_transaction_output_values tx total_in;
  fee ← u64_sub total_in total_out;
  _ ← (if bool_decide (flags = SkipMassCheck) then Ok tt else check_mass_commitment self tx);
  _ ← check_sequence_lock tx pov_daa_score;
  _ ← check_alt_references svm tx;
  _ ← check_feerate_threshold fee threshold;
  Ok fee.
Definition validate_populated_transaction_and_get_fee (self : TransactionValidator) (order : list nat) (svm : option SvmContext)
    (tx : PopulatedTransaction) (pov_daa_score : u64) (flags : TxValidationFlags)
    (threshold : option (u64 * (u64 -> u64 -> bool))) : stm ValState TxRuleError u64 :=
  fee ← slift (checks_before_scripts self svm tx pov_daa_score flags threshold);
  _ ← (if bool_decide (flags = SkipScriptChecks) then slift (Ok tt) else
       _ ← check_scripts_with_svm order svm tx pov_daa_score;
       check_token_conservation svm tx pov_daa_score);
  mret fee.
End validate.

(** ** Lemmas *)
Lemma stm_bind_ok {S E A B} (m : stm S E A) (k : A -> stm S E B) s b s' :
  (a ← m; k a) s = (Ok b, s') -> exists a s1, m s = (Ok a, s1) /\ k a s1 = (Ok b, s').
Proof. unfold mbind, stm_bind. destruct (m s) as [[a| | |] s1]; [|done..]. eauto. Qed.

(** *** Amounts *)
Definition total_in (tx : PopulatedTransaction) : Z := sum_of (fun p => amount p.2) (populated_inputs tx).
Definition total_out (tx : PopulatedTransaction) : Z := sum_of value (outputs (ptx tx)).

Lemma input_amounts_cases l t : Forall (fun p : TransactionInput * UtxoEntry => 0 <= amount p.2) l -> 0 <= t <= MAX_SOMPI ->
  (t + sum_of (fun p => amount p.2) l <= MAX_SOMPI /\ res_foldl add_amount t l = Ok (t + sum_of (fun p => amount p.2) l)) \/
  (MAX_SOMPI < t + sum_of (fun p => amount p.2) l /\ exists e, res_foldl add_amount t l = Err e).
Proof.
  revert t. induction l as [|p l IH]; intros t Hl Ht; cbn [res_foldl].
  { left. simpl. split; [lia|]. f_equal. lia. }
  apply Forall_cons in Hl as [Hp Hl]. rewrite sum_of_cons.
  assert (0 <= sum_of (fun p : TransactionInput * UtxoEntry => amount p.2) l) by by apply sum_of_nonneg.
  unfold add_amount at 2 4. unfold inWb, fail_if.
  destruct ((0 <=? t + amount p.2) && (t + amount p.2 <? 2 ^ 64)) eqn:Hb; cbn [mbind res_bind].
  - destruct (Z.ltb_spec MAX_SOMPI (t + amount p.2)); cbn [mbind res_bind].
    + right. split; [lia|by eexists].
    + rewrite Z.add_assoc. apply IH; [done|lia].
  - right. split; [|by eexists]. unfold MAX_SOMPI, SOMPI_PER_SOPHIS in *. lia.
Qed.
Lemma output_values_ok tx ti : Forall (fun o => 0 <= value o) (outputs (ptx tx)) -> total_out tx < 2 ^ 64 ->
  check_transaction_output_values tx ti =
    if ti <? total_out tx then Err (SpendTooHigh (total_out tx) ti) else Ok (total_out tx).
Proof.
  intros Hv Hb. unfold check_transaction_output_values, total_out in *.
  rewrite u64_sum_of; rewrite ?sum_of_map; [|by apply Forall_map|done]. cbn [mbind res_bind].
  change (sum_of (fun x => value x)) with (sum_of value). unfold fail_if. by destruct (ti <? _).
Qed.

(** *** Maturity and locks *)
Lemma maturity_iff self tx pov : 0 <= coinbase_maturity self < 2 ^ 63 ->
  Forall (fun p : TransactionInput * UtxoEntry => 0 <= block_daa_score p.2 < 2 ^ 63 \/ is_coinbase_entry p.2 = false) (populated_inputs tx) ->
  check_transaction_coinbase_maturity self tx pov = Ok tt <->
  Forall (fun p : TransactionInput * UtxoEntry => is_coinbase_entry p.2 = true -> block_daa_score p.2 + coinbase_maturity self <= pov)
    (populated_inputs tx).
Proof.
  intros Hm Hd. apply for_enum_iff. intros i p Hp. rewrite Forall_forall in Hd. destruct (Hd p Hp) as [Hs|Hs].
  - unfold check_maturity. destruct (is_coinbase_entry p.2); [|by split].
    rewrite u64_add_ok by (unfold inW; lia). cbn [mbind res_bind]. rewrite fail_if_iff, Z.ltb_ge. intuition lia.
  - unfold check_maturity. rewrite Hs. by split.
Qed.
Lemma maturity_result self tx pov : 0 <= coinbase_maturity self < 2 ^ 63 ->
  Forall (fun p : TransactionInput * UtxoEntry => 0 <= block_daa_score p.2 < 2 ^ 63 \/ is_coinbase_entry p.2 = false) (populated_inputs tx) ->
  is_result (check_transaction_coinbase_maturity self tx pov).
Proof.
  intros Hm Hd. apply for_enum_result. intros i p Hp. rewrite Forall_forall in Hd. unfold check_maturity.
  destruct (is_coinbase_entry p.2) eqn:Hc; [|done]. destruct (Hd p Hp) as [Hs|Hs]; [|congruence].
  rewrite u64_add_ok by (unfold inW; lia). cbn [mbind res_bind]. by destruct (pov <? _).
Qed.

Definition relative_lock (i : TransactionInput) : Z := Z.land (sequence i) SEQUENCE_MASK.
Definition lock_disabled (i : TransactionInput) : bool := Z.land (sequence i) SEQUENCE_DISABLED =? SEQUENCE_DISABLED.
Lemma relative_lock_range i : 0 <= sequence i -> 0 <= relative_lock i < 2 ^ 32.
Proof.
  intros Hs. unfold relative_lock, SEQUENCE_MASK. change 0xffffffff with (Z.ones 32). rewrite Z.land_ones by lia.
  apply Z.mod_pos_bound. lia.
Qed.
(** An entry of a transaction that is not accepted yet has the DAA score
    [u64::MAX], which reads as -1. *)
Definition lock_score (e : UtxoEntry) : Z := if block_daa_score e =? 2 ^ 64 - 1 then -1 else block_daa_score e.
Definition score_ok (e : UtxoEntry) : Prop := 0 <= block_daa_score e < 2 ^ 62 \/ block_daa_score e = 2 ^ 64 - 1.
Lemma locked_ok pov p : 0 <= sequence p.1 -> score_ok p.2 ->
  locked pov p = Ok (negb (lock_disabled p.1) && (pov <=? lock_score p.2 + relative_lock p.1 - 1)).
Proof.
  intros Hs Hd. pose proof (relative_lock_range p.1 Hs) as Hr. unfold locked, lock_disabled. fold (relative_lock p.1).
  destruct (Z.land (sequence p.1) SEQUENCE_DISABLED =? SEQUENCE_DISABLED); [done|]. cbn [negb andb].
  unfold as_i64, lock_score. replace (relative_lock p.1 <? 2 ^ 63) with true by lia.
  unfold i64_op, in_i64b. destruct Hd as [Hd|Hd].
  - replace (block_daa_score p.2 <? 2 ^ 63) with true by lia.
    replace (block_daa_score p.2 =? 2 ^ 64 - 1) with false by lia.
    replace ((- 2 ^ 63 <=? block_daa_score p.2 + relative_lock p.1) && (block_daa_score p.2 + relative_lock p.1 <? 2 ^ 63)) with true by lia.
    cbn [mbind res_bind].
    by replace ((- 2 ^ 63 <=? block_daa_score p.2 + relative_lock p.1 - 1) && (block_daa_score p.2 + relative_lock p.1 - 1 <? 2 ^ 63)) with true by lia.
  - rewrite Hd. change (2 ^ 64 - 1 <? 2 ^ 63) with false. change (2 ^ 64 - 1 =? 2 ^ 64 - 1) with true.
    change (2 ^ 64 - 1 - 2 ^ 64) with (-1). cbv iota.
    replace ((- 2 ^ 63 <=? -1 + relative_lock p.1) && (-1 + relative_lock p.1 <? 2 ^ 63)) with true by lia. cbn [mbind res_bind].
    by replace ((- 2 ^ 63 <=? -1 + relative_lock p.1 - 1) && (-1 + relative_lock p.1 - 1 <? 2 ^ 63)) with true by lia.
Qed.
Definition unlocked (pov : Z) (p : TransactionInput * UtxoEntry) : Prop :=
  lock_disabled p.1 = true \/ lock_score p.2 + relative_lock p.1 <= pov.
Lemma any_locked_cases pov l : Forall (fun p : TransactionInput * UtxoEntry => 0 <= sequence p.1 /\ score_ok p.2) l ->
  exists b, any_locked pov l = Ok b /\ (b = false <-> Forall (unlocked pov) l).
Proof.
  induction 1 as [|p l [Hs Hd] Hl (b & Hb & IH)]; cbn [any_locked].
  { exists false. split; [done|]. split; [intros _; by apply Forall_nil|done]. }
  rewrite locked_ok by done. cbn [mbind res_bind].
  destruct (negb (lock_disabled p.1) && (pov <=? lock_score p.2 + relative_lock p.1 - 1)) eqn:Hk.
  - exists true. split; [done|]. split; [done|]. intros [[Hx|Hx] _]%Forall_cons; [by rewrite Hx in Hk|].
    destruct (lock_disabled p.1); [done|]. cbn [negb andb] in Hk. lia.
  - exists b. split; [done|]. rewrite Forall_cons, IH. split; [|tauto]. intros Hf. split; [|done].
    unfold unlocked. destruct (lock_disabled p.1); [by left|]. cbn [negb andb] in Hk. right. lia.
Qed.
Lemma sequence_lock_cases tx pov :
  Forall (fun p : TransactionInput * UtxoEntry => 0 <= sequence p.1 /\ score_ok p.2) (populated_inputs tx) ->
  (Forall (unlocked (as_i64 pov)) (populated_inputs tx) /\ check_sequence_lock tx pov = Ok tt) \/
  (~ Forall (unlocked (as_i64 pov)) (populated_inputs tx) /\
   check_sequence_lock tx pov = Err SequenceLockConditionsAreNotMet).
Proof.
  intros Hl. destruct (any_locked_cases (as_i64 pov) _ Hl) as (b & Hb & Hiff). unfold check_sequence_lock. rewrite Hb.
  destruct b; [right|left]; (split; [|done]).
  - intros Hf. by apply Hiff in Hf.
  - by apply Hiff.
Qed.

(** *** Tokens *)
Definition token_of (tid : Hash) (spk : ScriptPublicKey) : Z :=
  if spk_version spk =? SCRIPT_VERSION_TOKEN then
    match try_from_slice borsh_token (spk_script spk) with
    | Some d => if token_id d =? tid then token_amount d else 0
    | None => 0
    end
  else 0.
(** The amount of token [tid] in a list of outputs. *)
Definition token_total (tid : Hash) (spks : list ScriptPublicKey) : Z := sum_of (token_of tid) spks.

Lemma add_token_total e sums spk sums' tid : add_token e sums spk = Ok sums' ->
  default 0 (sums' !! tid) = default 0 (sums !! tid) + token_of tid spk.
Proof.
  unfold add_token, token_of. destruct (spk_version spk =? SCRIPT_VERSION_TOKEN); cbn [negb]; [|intros [= <-]; lia].
  destruct (try_from_slice borsh_token (spk_script spk)) as [d|]; cbn [ok_or mbind res_bind]; [|done].
  destruct (inWb 64 _); [|done]. intros [= <-]. destruct (Z.eqb_spec (token_id d) tid) as [<-|Hne].
  - rewrite lookup_insert_eq. done.
  - rewrite lookup_insert_ne by done. lia.
Qed.
Lemma token_fold_total e sums spks sums' tid : res_foldl (add_token e) sums spks = Ok sums' ->
  default 0 (sums' !! tid) = default 0 (sums !! tid) + token_total tid spks.
Proof.
  revert sums. induction spks as [|spk spks IH]; intros sums Hf; cbn [res_foldl] in Hf.
  { injection Hf as <-. unfold token_total. simpl. lia. }
  apply bind_ok in Hf as (s1 & Ha & Hf). apply (add_token_total e _ _ _ tid) in Ha. rewrite (IH s1 Hf), Ha.
  unfold token_total. rewrite sum_of_cons. lia.
Qed.
Lemma token_sums_total e spks m tid : token_sums e spks = Ok m -> default 0 (m !! tid) = token_total tid spks.
Proof. intros Hm. rewrite (token_fold_total e ∅ spks m tid Hm), lookup_empty. done. Qed.
Lemma token_sums_result e spks : is_result (token_sums e spks).
Proof.
  unfold token_sums. generalize (∅ : gmap Hash Z). induction spks as [|spk spks IH]; intros m; [done|]. cbn [res_foldl].
  unfold add_token at 2. destruct (negb _); [apply IH|].
  destruct (try_from_slice borsh_token (spk_script spk)); cbn [ok_or mbind res_bind]; [|done].
  destruct (inWb 64 _); [apply IH|done].
Qed.

(** The minting policy of [tid] ran on this transaction and approved. *)
Definition policy_approves (svm : option SvmContext) (tx : PopulatedTransaction) (pov : u64) (tid : Hash) : Prop :=
  exists c w r, svm = Some c /\ get_wasm c tid = Some w /\
    executor c tid w (execution_context tx pov (policy_manifest tid) tid) = Some r /\ exec_valid r = true.
Lemma check_token_inv svm tx pov ins outs tid s s' : check_token svm tx pov ins outs tid s = (Ok tt, s') ->
  default 0 (ins !! tid) = default 0 (outs !! tid) \/ policy_approves svm tx pov tid.
Proof.
  unfold check_token. destruct (Z.eqb_spec (default 0 (ins !! tid)) (default 0 (outs !! tid))); [by left|].
  destruct svm as [c|]; [|done]. destruct (get_wasm c tid) as [w|] eqn:Hw; [|done].
  destruct (executor c tid w _) as [r|] eqn:Hr; [|done]. destruct (exec_valid r) eqn:Hv; [|done].
  intros _. right. by exists c, w, r.
Qed.
Lemma stm_for_inv {S E X} (f : X -> stm S E unit) l s s' : stm_for f l s = (Ok tt, s') ->
  forall x, x ∈ l -> exists s1 s2, f x s1 = (Ok tt, s2).
Proof.
  revert s. induction l as [|y l IH]; intros s Hf x Hx; [by apply elem_of_nil in Hx|]. cbn [stm_for] in Hf.
  apply stm_bind_ok in Hf as ([] & s1 & Hy & Hf). apply elem_of_cons in Hx as [->|Hx]; [by exists s, s1|].
  by apply (IH s1).
Qed.
Lemma token_conservation_inv `{SI : !SetIter Hash} svm tx pov s s' :
  check_token_conservation svm tx pov s = (Ok tt, s') ->
  forall tid, token_total tid (map (fun p => script_public_key p.2) (populated_inputs tx)) =
      token_total tid (map out_script_public_key (outputs (ptx tx))) \/ policy_approves svm tx pov tid.
Proof.
  unfold check_token_conservation. intros Hc tid.
  destruct (token_sums InputAmountOverflow _) as [ins| | |] eqn:Hi; [|done..].
  destruct (token_sums OutputsValueOverflow _) as [outs| | |] eqn:Ho; [|done..].
  rewrite <- (token_sums_total _ _ _ tid Hi), <- (token_sums_total _ _ _ tid Ho).
  destruct (decide (tid ∈ dom ins ∪ dom outs)) as [Hin|Hout].
  - rewrite <- elem_of_elements, <- set_iter_perm in Hin.
    apply (stm_for_inv _ _ _ _ Hc tid) in Hin as (s1 & s2 & Ht). by eapply check_token_inv.
  - left. apply not_elem_of_union in Hout as [H1 H2]. by rewrite !not_elem_of_dom_1.
Qed.

(** *** The composition *)
Lemma u64_sum_inv {E} l t : u64_sum (E:=E) l = Ok t -> t = sum_of (fun x => x) l.
Proof.
  unfold u64_sum. change (sum_of (fun x => x) l) with (0 + sum_of (fun x => x) l). generalize 0.
  induction l as [|x l IH]; intros acc Hf; cbn [res_foldl] in Hf; [injection Hf as <-; simpl; lia|].
  apply bind_ok in Hf as (a & Ha & Hf). apply chk_inv in Ha as [-> _]. rewrite (IH _ Hf), sum_of_cons. lia.
Qed.
Section inversion.
Context `{SC : ScriptCrypto} `{CR : CacheRandom} `{SI : !SetIter Hash}.

Lemma before_scripts_inv self svm tx pov flags threshold fee :
  checks_before_scripts self svm tx pov flags threshold = Ok fee ->
  check_transaction_coinbase_maturity self tx pov = Ok tt /\ check_sequence_lock tx pov = Ok tt /\
  check_alt_references svm tx = Ok tt /\ (flags <> SkipMassCheck -> check_mass_commitment self tx = Ok tt) /\
  exists ti, check_transaction_input_amounts tx = Ok ti /\ ti = total_out tx + fee /\ 0 <= fee.
Proof.
  intros H. apply bind_ok in H as ([] & Hm & H). apply bind_ok in H as (ti & Hti & H). apply bind_ok in H as (to & Hto & H).
  apply bind_ok in H as (f & Hf & H). apply bind_ok in H as ([] & Hmass & H). apply bind_ok in H as ([] & Hl & H).
  apply bind_ok in H as ([] & Ha & H). apply bind_ok in H as ([] & _ & H). injection H as <-.
  apply chk_inv in Hf as [-> [Hf _]]. unfold check_transaction_output_values in Hto.
  apply bind_ok in Hto as (t & Ht & Hto). apply bind_ok in Hto as ([] & _ & Hto). injection Hto as <-.
  apply u64_sum_inv in Ht. rewrite sum_of_map in Ht. fold (total_out tx) in Ht.
  split_and!; [done..| |].
  - intros Hflag. by rewrite bool_decide_false in Hmass.
  - exists ti. split; [done|]. subst t. unfold total_out in *. change (sum_of (fun x => value x)) with (sum_of value) in *. lia.
Qed.
Lemma validate_inv self order svm tx pov flags threshold s fee s' :
  validate_populated_transaction_and_get_fee self order svm tx pov flags threshold s = (Ok fee, s') ->
  checks_before_scripts self svm tx pov flags threshold = Ok fee /\
  (flags <> SkipScriptChecks ->
   exists s1, check_scripts_with_svm order svm tx pov s = (Ok tt, s1) /\ check_token_conservation svm tx pov s1 = (Ok tt, s')).
Proof.
  intros H. apply stm_bind_ok in H as (f & s1 & Hf & H). injection Hf as Hf <-.
  apply stm_bind_ok in H as ([] & s2 & Hs & H). injection H as <- <-. split; [done|]. intros Hflag.
  rewrite bool_decide_false in Hs by done. by apply stm_bind_ok in Hs as ([] & s1 & H1 & H2); exists s1.
Qed.

Lemma validated_fee self order svm tx pov flags threshold s fee s' :
  Forall (fun p : TransactionInput * UtxoEntry => 0 <= amount p.2) (populated_inputs tx) ->
  validate_populated_transaction_and_get_fee self order svm tx pov flags threshold s = (Ok fee, s') ->
  total_in tx = total_out tx + fee /\ 0 <= fee /\ total_in tx <= MAX_SOMPI.
Proof.
  intros Ha [H _]%validate_inv. apply before_scripts_inv in H as (_ & _ & _ & _ & ti & Hti & -> & Hf).
  unfold check_transaction_input_amounts in Hti. unfold total_in.
  destruct (input_amounts_cases (populated_inputs tx) 0 Ha) as [[Hle He]|[_ [e He]]];
    [unfold MAX_SOMPI, SOMPI_PER_SOPHIS; lia| |congruence].
  rewrite He in Hti. injection Hti as Hti. lia.
Qed.

(** ** Theorems *)

(** C15. No value is created: when validation returns a fee, the inputs' amounts
    are the outputs' values plus that fee, the fee is not negative and the
    amounts are within the supply cap. *)
Theorem fee_conservation self order svm tx pov flags threshold s fee s' :
  Forall (fun p : TransactionInput * UtxoEntry => 0 <= amount p.2) (populated_inputs tx) ->
  validate_populated_transaction_and_get_fee self order svm tx pov flags threshold s = (Ok fee, s') ->
  total_in tx = total_out tx + fee /\ 0 <= fee /\ total_in tx <= MAX_SOMPI.
Proof. apply validated_fee. Qed.

(** C16. No native token is created or destroyed without its policy: when a
    transaction is validated with its scripts, for every token identifier the
    amount in the inputs is the amount in the outputs, or the minting policy
    deployed under that identifier was run on this transaction and approved
    it. *)
Theorem token_conservation self order svm tx pov flags threshold s fee s' :
  flags <> SkipScriptChecks ->
  validate_populated_transaction_and_get_fee self order svm tx pov flags threshold s = (Ok fee, s') ->
  forall tid, token_total tid (map (fun p => script_public_key p.2) (populated_inputs tx)) =
      token_total tid (map out_script_public_key (outputs (ptx tx))) \/ policy_approves svm tx pov tid.
Proof.
  intros Hflag [_ H]%validate_inv tid. destruct (H Hflag) as (s1 & _ & Ht). by eapply token_conservation_inv.
Qed.

(** C17. What an accepted spend respects: coinbase outputs are spent only after
    the maturity period, and every input whose sequence number enables the
    relative lock is spent only when that many DAA steps have passed since
    its output was accepted (an output not accepted yet, with the score
    [u64::MAX], counting as one step before the origin). *)
Theorem accepted_spends_mature self order svm tx pov flags threshold s fee s' :
  0 <= coinbase_maturity self < 2 ^ 63 -> 0 <= pov < 2 ^ 63 ->
  Forall (fun p : TransactionInput * UtxoEntry => 0 <= sequence p.1 /\ score_ok p.2 /\
    (is_coinbase_entry p.2 = true -> 0 <= block_daa_score p.2 < 2 ^ 62)) (populated_inputs tx) ->
  validate_populated_transaction_and_get_fee self order svm tx pov flags threshold s = (Ok fee, s') ->
  Forall (fun p : TransactionInput * UtxoEntry =>
    (is_coinbase_entry p.2 = true -> block_daa_score p.2 + coinbase_maturity self <= pov) /\
    (lock_disabled p.1 = true \/ lock_score p.2 + relative_lock p.1 <= pov)) (populated_inputs tx).
Proof.
  intros Hm Hpov Hty [H _]%validate_inv. apply before_scripts_inv in H as (Hmat & Hlock & _).
  apply maturity_iff in Hmat; [|done|].
  2: { eapply Forall_impl; [exact Hty|]. intros p (_ & _ & Hc). destruct (is_coinbase_entry p.2); [left|by right].
       specialize (Hc eq_refl). lia. }
  destruct (sequence_lock_cases tx pov) as [[Hu _]|[_ He]]; [|clear Hlock|congruence].
  { eapply Forall_impl; [exact Hty|]. by intros p (? & ? & _). }
  apply Forall_and. split; [done|]. eapply Forall_impl; [exact Hu|]. intros p Hp. unfold unlocked, as_i64 in Hp.
  by replace (pov <? 2 ^ 63) with true in Hp by lia.
Qed.
End inversion.

(** ** Validation does not panic *)

(** The types of the fields of a populated transaction, and sizes that fit in
    memory. *)
Record ctx_typed (self : TransactionValidator) (tx : PopulatedTransaction) : Prop := {
  ct_entries : length (entries tx) = length (inputs (ptx tx));
  ct_inputs : zlen (inputs (ptx tx)) < 2 ^ 63;
  ct_outputs : zlen (outputs (ptx tx)) < 2 ^ 63;
  ct_input : Forall (fun i => is_bytes (signature_script i) /\ inW 8 (sig_op_count i) /\ 0 <= sequence i) (inputs (ptx tx));
  ct_entry : Forall (fun e => spk_bytes (script_public_key e) /\ 0 <= amount e /\ score_ok e /\
               (is_coinbase_entry e = true -> block_daa_score e < 2 ^ 62)) (entries tx);
  ct_output : Forall (fun o => spk_bytes (out_script_public_key o) /\ 0 <= value o) (outputs (ptx tx));
  ct_plurality : sum_of (fun e => utxo_plurality (script_public_key e)) (entries tx) < 2 ^ 64 /\
                 sum_of (fun o => utxo_plurality (out_script_public_key o)) (outputs (ptx tx)) < 2 ^ 64;
  ct_maturity : 0 <= coinbase_maturity self < 2 ^ 62;
  ct_storm : 0 <= storage_mass_parameter (mass_calculator self);
}.

Lemma plurality_pos spk : 1 <= utxo_plurality spk.
Proof.
  unfold utxo_plurality, div_ceil. pose proof (zlen_nonneg (spk_script spk)). apply Z.div_le_lower_bound; lia.
Qed.
Lemma zip_in {A B} (l : list A) (k : list B) p : p ∈ zip l k -> p.1 ∈ l /\ p.2 ∈ k.
Proof. destruct p. intros Hp. split; [by eapply elem_of_zip_l|by eapply elem_of_zip_r]. Qed.

Lemma token_lock_bytes b d : is_bytes b -> try_from_slice borsh_token b = Some d -> is_bytes (lock_script d).
Proof. intros Hb Hd. apply try_from_slice_inv in Hd as [(_ & _ & [_ Hl] & _) _]; done. Qed.

Section safety.
Context `{SC : ScriptCrypto} `{CR : CacheRandom} `{SI : !SetIter Hash}.
Context (self : TransactionValidator) (svm : option SvmContext) (tx : PopulatedTransaction) (pov : u64).
Hypothesis (Hty : ctx_typed self tx).

Lemma populated_typed p : p ∈ populated_inputs tx ->
  0 <= sequence p.1 /\ 0 <= amount p.2 /\ score_ok p.2 /\ (is_coinbase_entry p.2 = true -> block_daa_score p.2 < 2 ^ 62).
Proof using Hty.
  intros [Hi He]%zip_in. pose proof (ct_input _ _ Hty) as H1. pose proof (ct_entry _ _ Hty) as H2.
  rewrite Forall_forall in H1. rewrite Forall_forall in H2. destruct (H1 _ Hi) as (_ & _ & ?), (H2 _ He) as (_ & ? & ? & ?). done.
Qed.
Lemma total_in_entries : total_in tx = sum_of amount (entries tx).
Proof using Hty.
  unfold total_in, populated_inputs. pose proof (ct_entries _ _ Hty) as Hl. revert Hl. generalize (inputs (ptx tx)).
  induction (entries tx) as [|e es IH]; intros [|i is_] Hl; try done. injection Hl as Hl.
  cbn [zip zip_with]. rewrite !sum_of_cons, IH by done. done.
Qed.

Lemma mass_commitment_result : total_in tx <= MAX_SOMPI -> is_result (check_mass_commitment self tx).
Proof using Hty.
  intros Ht. unfold check_mass_commitment, calc_contextual_masses. rewrite total_in_entries in Ht.
  set (ins := map cell_of_entry (entries tx)).
  set (outs := map cell_of_output (filter (fun o => is_zero_value_protocol_output o = false) (outputs (ptx tx)))).
  assert (sized ins outs) as Hsz.
  { destruct (ct_plurality _ _ Hty) as [Hpe Hpo]. pose proof (ct_entry _ _ Hty) as He. pose proof (ct_output _ _ Hty) as Ho.
    rewrite Forall_forall in He. rewrite Forall_forall in Ho. unfold ins, outs. split_and!.
    - apply Forall_map, Forall_forall. intros e Hin. split; [apply plurality_pos|]. by destruct (He e Hin) as (_ & ? & _).
    - apply Forall_map, Forall_forall. intros o [_ Hin]%list_elem_of_filter. split; [apply plurality_pos|].
      by destruct (Ho o Hin).
    - by rewrite sum_of_map.
    - rewrite sum_of_map. eapply Z.le_lt_trans; [|exact Hpo]. apply sum_of_filter. intros o. cbn.
      pose proof (plurality_pos (out_script_public_key o)). lia. }
  pose proof (storage_mass_result _ (ct_storm _ _ Hty) (is_coinbase (ptx tx)) ins outs Hsz) as Hr.
  assert (sum_of cell_amount ins < 2 ^ 64) as Ha.
  { unfold ins. rewrite sum_of_map. change (sum_of (fun x => cell_amount (cell_of_entry x))) with (sum_of amount).
    unfold MAX_SOMPI, SOMPI_PER_SOPHIS in Ht. lia. }
  specialize (Hr Ha). destruct (calc_storage_mass _ _ _ _); [|done..]. cbn [map_err mbind res_bind]. by destruct (negb _).
Qed.
Lemma alt_references_result : is_result (check_alt_references svm tx).
Proof.
  unfold check_alt_references. destruct svm as [c|]; [|done]. destruct (alt_store c) as [get_entry|]; [|done].
  apply for_enum_result. intros i o _. unfold check_alt_reference. case_bool_decide; [|done]. cbn [negb].
  unfold parse_alt_reference, fail_if.
  destruct (Z.eqb_spec (zlen (out_script o)) ALT_REFERENCE_LEN) as [Hl|Hl]; cbn [negb mbind res_bind map_err]; [|done].
  unfold ALT_REFERENCE_LEN, ALT_HANDLE_LEN in *. destruct (cut_at (out_script o) 1) as (p & r1 & Heq & Hp); [lia|].
  assert (zlen r1 = 7) as Hr1 by (rewrite Heq, zlen_app in Hl; lia).
  destruct (cut_at r1 6) as (h & r2 & -> & Hh); [lia|]. rewrite zlen_app in Hr1. destruct (zlen_1 r2) as [x ->]; [lia|].
  rewrite (slice_ok _ p h [x] 1 (1 + 6)) by (done || lia). cbn [mbind res_bind].
  rewrite (at_ok _ (p ++ h) [] (1 + 6) x) by (rewrite ?Heq, ?zlen_app, <- ?app_assoc; done || lia).
  cbn [mbind res_bind map_err]. destruct (get_entry _) as [[e|]|]; [|done..].
  destruct (negb _); [done|]. cbn [mbind res_bind]. by destruct (_ <=? _).
Qed.

Lemma before_scripts_result flags threshold :
  match threshold with Some (m, _) => 0 < m | None => True end -> total_out tx < 2 ^ 64 ->
  is_result (checks_before_scripts self svm tx pov flags threshold).
Proof using Hty.
  intros Hth Hout. pose proof (ct_maturity _ _ Hty) as Hmat.
  assert (Forall (fun p : TransactionInput * UtxoEntry => 0 <= amount p.2) (populated_inputs tx)) as Hamt.
  { apply Forall_forall. intros p Hp. by apply populated_typed. }
  unfold checks_before_scripts. apply is_result_bind.
  { apply maturity_result; [lia|]. apply Forall_forall. intros p (_ & _ & Hs & Hc)%populated_typed.
    destruct (is_coinbase_entry p.2); [left|by right]. specialize (Hc eq_refl). unfold score_ok in Hs. lia. }
  intros [] _. unfold check_transaction_input_amounts.
  destruct (input_amounts_cases (populated_inputs tx) 0 Hamt) as [[Hle ->]|[_ [e ->]]];
    [unfold MAX_SOMPI, SOMPI_PER_SOPHIS; lia| |done].
  cbn [mbind res_bind]. rewrite Z.add_0_l in *. fold (total_in tx) in *.
  assert (Forall (fun o => 0 <= value o) (outputs (ptx tx))) as Hval.
  { eapply Forall_impl; [apply (ct_output _ _ Hty)|]. by intros o [_ ?]. }
  rewrite output_values_ok by done. destruct (Z.ltb_spec (total_in tx) (total_out tx)); [done|]. cbn [mbind res_bind].
  assert (0 <= total_out tx) by by apply sum_of_nonneg.
  rewrite u64_sub_ok by (unfold inW, MAX_SOMPI, SOMPI_PER_SOPHIS in *; lia). cbn [mbind res_bind]. apply is_result_bind.
  { case_bool_decide; [done|]. by apply mass_commitment_result. }
  intros [] _. apply is_result_bind.
  { destruct (sequence_lock_cases tx pov) as [[_ ->]|[_ ->]]; [|done..].
    apply Forall_forall. intros p (? & _ & ? & _)%populated_typed. done. }
  intros [] _. apply is_result_bind; [apply alt_references_result|]. intros [] _.
  destruct threshold as [[m f]|]; [|done]. unfold check_feerate_threshold.
  replace (0 <? m) with true by lia. cbn [rassert mbind res_bind]. by destruct (f _ m).
Qed.

(** The invariant of the shared state. *)
Definition shared_ok (st : ValState * SigHashReusedValues) : Prop := reused_ok (ptx tx) st.2.

Lemma run_engine_ok idx input e : inputs (ptx tx) !! idx = Some input -> spk_bytes (script_public_key e) ->
  hoare shared_ok (run_engine tx input idx e) (fun _ => shared_ok).
Proof using Hty.
  intros Hidx Hspk [s reused] Hreused. unfold run_engine, from_transaction_input.
  pose proof (lookup_lt_Some _ _ _ Hidx) as Hlt. pose proof (ct_input _ _ Hty) as Hin.
  rewrite (proj2 (Nat.ltb_lt _ _) Hlt). cbn [rassert mbind res_bind].
  destruct (Forall_lookup_1 _ _ _ _ Hin Hidx) as (Hsig & Hops & _).
  set (src := TxInput tx input idx e _).
  assert (source_ok src) as Hsrc.
  { pose proof Hty as [Hlen Hni Hno _ He Ho _ _ _]. unfold src. split_and!; try done.
    - eapply Forall_impl; [exact He|]. by intros x [? _].
    - eapply Forall_impl; [exact Ho|]. by intros x [? _]. }
  pose proof (execute_ok False src Hsrc (fresh_vm (val_cache s) reused (sig_op_count input))) as Hex.
  destruct (execute src _) as [[[]| | |] vm]; simpl.
  - destruct Hex as [((Hok & _) & _) _]; [split; [by apply fresh_vm_ok|done]|].
    apply (ok_reused _ _ _ Hok).
  - done.
  - apply Hex. split; [by apply fresh_vm_ok|done].
  - apply Hex. split; [by apply fresh_vm_ok|done].
Qed.
Lemma vlift_bind {A B} (r : res TxRuleError A) (k : A -> stm (ValState * SigHashReusedValues) TxRuleError B) Q :
  is_result r -> (forall a, r = Ok a -> hoare shared_ok (k a) Q) -> hoare shared_ok (a ← vlift r; k a) Q.
Proof. intros Hr Hk st Hst. unfold mbind, stm_bind, vlift. destruct r; [by apply Hk|done..]. Qed.
Lemma ok_or_result {E A} (o : option A) (e : E) : is_result (ok_or o e).
Proof. by destruct o. Qed.
Lemma fail_if_result {E} b (e : E) : is_result (fail_if b e).
Proof. by destruct b. Qed.
Lemma stash_events_ok events : hoare shared_ok (stash_events tx events) (fun _ => shared_ok).
Proof. intros [s reused] Hr. done. Qed.

(** Running a policy or a contract: the three lookups, the verdict, the events. *)
Ltac run_policy := repeat (apply vlift_bind; [apply ok_or_result || apply fail_if_result|intros ? _]);
  apply stash_events_ok.

Lemma check_input_ok idx : (idx < length (inputs (ptx tx)))%nat ->
  hoare shared_ok (check_input svm tx pov idx) (fun _ => shared_ok).
Proof using Hty.
  intros Hlt. destruct (lookup_lt_is_Some_2 _ _ Hlt) as [input Hidx].
  destruct (lookup_lt_is_Some_2 (entries tx) idx) as [e He]; [rewrite (ct_entries _ _ Hty); done|].
  destruct (Forall_lookup_1 _ _ _ _ (ct_entry _ _ Hty) He) as (Hspk & _).
  unfold check_input. apply vlift_bind; [by rewrite (populated_input_ok tx idx input e)|].
  rewrite (populated_input_ok tx idx input e) by done. intros a [= <-]. cbv beta iota.
  destruct (_ =? SCRIPT_VERSION_CONTRACT); [unfold check_contract_input; run_policy|].
  destruct (_ =? SCRIPT_VERSION_TOKEN); [|by apply run_engine_ok]. unfold check_token_utxo_spend.
  apply vlift_bind; [apply ok_or_result|]. intros d Hd.
  destruct (try_from_slice borsh_token _) as [d'|] eqn:Hde; [injection Hd as ->|done].
  eapply hoare_bind; [apply run_engine_ok; [done|]|].
  { by apply (token_lock_bytes (spk_script (script_public_key e))). }
  intros u. cbv beta. destruct (transfer_policy_id d); [run_policy|by intros st Hst].
Qed.

Lemma scripts_ok order : Forall (fun i => i < length (inputs (ptx tx)))%nat order ->
  hoare (fun _ => True) (check_scripts_with_svm order svm tx pov) (fun _ _ => True).
Proof using Hty.
  intros Ho s Hs. unfold check_scripts_with_svm.
  set (idxs := if (1 <? _)%nat then order else _).
  assert (forall i, i ∈ idxs -> (i < length (inputs (ptx tx)))%nat) as Hidx.
  { unfold idxs. destruct (1 <? _)%nat; [by apply Forall_forall|]. intros i Hi. apply elem_of_seq in Hi. lia. }
  pose proof (hoare_for shared_ok (check_input svm tx pov) idxs) as Hf.
  specialize (Hf (fun i Hi => check_input_ok i (Hidx i Hi)) (s, reused_default)).
  destruct (stm_for _ idxs _) as [r [s' ru]]. destruct r; try done; apply Hf; apply reused_default_ok.
Qed.

Lemma tokens_ok : hoare (fun _ => True) (check_token_conservation svm tx pov) (fun _ _ => True).
Proof.
  intros s _. unfold check_token_conservation.
  pose proof (token_sums_result InputAmountOverflow (map (fun p => script_public_key p.2) (populated_inputs tx))) as Hi.
  destruct (token_sums InputAmountOverflow _) as [ins| | |]; [|done..].
  pose proof (token_sums_result OutputsValueOverflow (map out_script_public_key (outputs (ptx tx)))) as Ho.
  destruct (token_sums OutputsValueOverflow _) as [outs| | |]; [|done..].
  apply (hoare_for (fun _ => True)); [|done]. intros tid _ s1 _. unfold check_token. destruct (_ =? _); [done|].
  destruct svm as [c|]; [|done]. destruct (get_wasm c tid) as [w|]; [|done]. destruct (executor c tid w _) as [r|]; [|done].
  by destruct (exec_valid r).
Qed.

Lemma validation_result order flags threshold s :
  Forall (fun i => i < length (inputs (ptx tx)))%nat order -> total_out tx < 2 ^ 64 ->
  match threshold with Some (m, _) => 0 < m | None => True end ->
  is_result (validate_populated_transaction_and_get_fee self order svm tx pov flags threshold s).1.
Proof using Hty.
  intros Ho Hout Hth. unfold validate_populated_transaction_and_get_fee, mbind, stm_bind, slift.
  pose proof (before_scripts_result flags threshold Hth Hout) as Hb.
  destruct (checks_before_scripts _ _ _ _ _ _); [|done..]. case_bool_decide; [done|].
  pose proof (scripts_ok order Ho s I) as Hsc. destruct (check_scripts_with_svm order svm tx pov s) as [[[]| | |] s1]; [|done..].
  pose proof (tokens_ok s1 I) as Ht. by destruct (check_token_conservation svm tx pov s1) as [[[]| | |] s2].
Qed.

(** C14. Validation always returns: a transaction whose fields have their types,
    whose outputs passed the checks in isolation (their sum is a [u64]) and
    whose scores are those of accepted entries is accepted or refused with an
    error, whatever the scripts, the contracts and the policies do and in
    whatever order the inputs are checked; no arithmetic overflows, no index
    is out of range, no assertion fails and the script engine's fuel is
    enough. *)
Theorem validation_never_panics order flags threshold s :
  Forall (fun i => i < length (inputs (ptx tx)))%nat order -> total_out tx < 2 ^ 64 ->
  match threshold with Some (m, _) => 0 < m | None => True end ->
  is_result (validate_populated_transaction_and_get_fee self order svm tx pov flags threshold s).1.
Proof using Hty. apply validation_result. Qed.
End safety.

(** ** What the script dispatch leaves open *)
Section dispatch.
Context `{SC : ScriptCrypto} `{CR : CacheRandom}.

Lemma fallthrough_input svm tx pov idx input e st :
  inputs (ptx tx) !! idx = Some input -> entries tx !! idx = Some e ->
  SCRIPT_VERSION_TOKEN < spk_version (script_public_key e) -> check_input svm tx pov idx st = (Ok tt, st).
Proof.
  intros Hi He Hv. unfold SCRIPT_VERSION_TOKEN in Hv. destruct st as [[cache events] reused].
  unfold check_input, mbind, stm_bind, vlift. rewrite (populated_input_ok tx idx input e) by done.
  unfold SCRIPT_VERSION_CONTRACT, SCRIPT_VERSION_TOKEN. replace (_ =? 1) with false by lia. replace (_ =? 2) with false by lia.
  unfold run_engine, from_transaction_input. rewrite (proj2 (Nat.ltb_lt _ _)) by by eapply lookup_lt_Some.
  cbn [rassert mbind res_bind]. unfold execute, MAX_SCRIPT_PUBLIC_KEY_VERSION. by replace (0 <? _) with true by lia.
Qed.

(** C38. Outputs of versions 3 and above are spent without any authorisation:
    when every entry a transaction spends has such a version (bridge vaults
    are version 3, bridge claims 4, carriers 5), the script checks pass
    whatever the signature scripts are, and leave the cache and the events
    alone. *)
Theorem fallthrough_versions_unchecked order svm tx pov s :
  length (entries tx) = length (inputs (ptx tx)) -> Forall (fun i => i < length (inputs (ptx tx)))%nat order ->
  Forall (fun e => SCRIPT_VERSION_TOKEN < spk_version (script_public_key e)) (entries tx) ->
  check_scripts_with_svm order svm tx pov s = (Ok tt, s).
Proof.
  intros Hl Ho Hv. unfold check_scripts_with_svm.
  set (idxs := if (1 <? _)%nat then order else _).
  assert (Forall (fun i => i < length (inputs (ptx tx)))%nat idxs) as Hidx.
  { unfold idxs. destruct (1 <? _)%nat; [done|]. apply Forall_forall. intros i Hi. apply elem_of_seq in Hi. lia. }
  clearbody idxs. assert (stm_for (check_input svm tx pov) idxs (s, reused_default) = (Ok tt, (s, reused_default))) as ->; [|done].
  induction Hidx as [|i idxs Hi _ IH]; [done|]. cbn [stm_for]. unfold mbind, stm_bind.
  destruct (lookup_lt_is_Some_2 _ _ Hi) as [input Hin].
  destruct (lookup_lt_is_Some_2 (entries tx) i) as [e He]; [by rewrite Hl|].
  pose proof (Forall_lookup_1 _ _ _ _ Hv He). rewrite (fallthrough_input svm tx pov i input e) by done. exact IH.
Qed.
End dispatch.

(** ** Witnesses *)
Definition contract_entry (cid : Hash) : UtxoEntry := {| amount := 500; block_daa_score := 10; is_coinbase_entry := false;
  script_public_key := {| spk_version := SCRIPT_VERSION_CONTRACT; spk_script := ser borsh_contract
    {| contract_id := cid; datum := []; manifest := policy_manifest cid |} |} |}.
Definition two_contracts : PopulatedTransaction := {|
  ptx := {| version := 1; lock_time := 0; subnetwork_id := SUBNETWORK_ID_NATIVE; gas := 0; payload := []; mass := 0; id := 9;
            outputs := [payment];
            inputs := map (fun n => {| previous_outpoint := {| transaction_id := 7; index := n |}; signature_script := [];
                                       sequence := 0; sig_op_count := 0 |}) [0; 1] |};
  entries := [contract_entry 1; contract_entry 2] |}.
(** A chain with two deployed contracts that accept and emit an event. *)
Definition emitting : SvmContext := {|
  get_wasm cid := if bool_decide (cid ∈ [1; 2]) then Some [] else None;
  executor cid _ _ := Some {| exec_valid := true;
    exec_events := [{| ev_contract_id := cid; ev_topics := []; ev_data := [] |}] |};
  alt_store := None; selected_chain_store := None; pending_chain_blocks := ∅;
  pruning_point_store := None; headers_store := None |}.
Definition no_state : ValState := mkVal {| cache_map := ∅; cache_size := 10 |} ∅.

(** Events are lost, and which of them depends on scheduling: a transaction
    that spends two contracts is accepted in both orders of the inputs, each
    contract emits an event, and the collector keeps only the event of the
    contract that ran last. *)
Theorem events_order_dependent :
  let run order := check_scripts_with_svm (SC:=toy_crypto) (CR:=first_evicted) order (Some emitting) two_contracts 100 no_state in
  (run [0; 1]%nat).1 = Ok tt /\ (run [1; 0]%nat).1 = Ok tt /\
  option_map (map ev_contract_id) (val_events (run [0; 1]%nat).2 !! 9) = Some [2] /\
  option_map (map ev_contract_id) (val_events (run [1; 0]%nat).2 !! 9) = Some [1].
Proof. by vm_compute. Qed.

(** A transaction that spends a mature coinbase output and a token output
    whose lock is the trivially true script. *)
Definition coin_token : ScriptPublicKey := {| spk_version := SCRIPT_VERSION_TOKEN; spk_script := ser borsh_token
  {| token_id := 5; token_amount := 70; lock_script := [0x51]; transfer_policy_id := None |} |}.
Definition mixed : PopulatedTransaction := {|
  ptx := {| version := 1; lock_time := 0; subnetwork_id := SUBNETWORK_ID_NATIVE; gas := 0; payload := []; mass := 0; id := 9;
            outputs := [{| value := 3000000000; out_script_public_key := coin_token |}];
            inputs := map (fun n => {| previous_outpoint := {| transaction_id := 7; index := n |}; signature_script := [];
                                       sequence := 20; sig_op_count := 0 |}) [0; 1] |};
  entries := [{| amount := 2000000000; script_public_key := {| spk_version := 0; spk_script := [0x51] |};
                 block_daa_score := 10; is_coinbase_entry := true |};
              {| amount := 2000000000; script_public_key := coin_token; block_daa_score := 1000; is_coinbase_entry := false |}] |}.
Definition run_mixed : res TxRuleError u64 * ValState :=
  validate_populated_transaction_and_get_fee (SC:=toy_crypto) (CR:=first_evicted) (SI:=elements_iter _)
    mainnet_validator [1; 0]%nat None mixed 1020 Full None no_state.
Lemma run_mixed_ok : run_mixed = (Ok 1000000000, no_state).
Proof. by vm_compute. Qed.
Lemma mixed_typed : ctx_typed mainnet_validator mixed.
Proof.
  assert (is_bytes (spk_script coin_token)) as Ht by (apply is_bytes_compute; by vm_compute).
  split; [by vm_compute..| | | |by vm_compute|by vm_compute|by vm_compute].
  - repeat (apply Forall_cons; split); [..|by apply Forall_nil]; (split; [by apply Forall_nil|done]).
  - repeat (apply Forall_cons; split); [..|by apply Forall_nil].
    + split; [by repeat constructor|]. split; [done|]. split; [by left|done].
    + split; [exact Ht|]. split; [done|]. split; [by left|done].
  - apply Forall_cons. split; [split; [exact Ht|done]|by apply Forall_nil].
Qed.

Lemma fee_conservation_witness : total_in mixed = total_out mixed + 1000000000 /\ 0 <= 1000000000 /\ total_in mixed <= MAX_SOMPI.
Proof.
  apply (fee_conservation (SI:=elements_iter _) mainnet_validator [1; 0]%nat None mixed 1020 Full None no_state 1000000000 no_state); [|exact run_mixed_ok].
  by repeat (apply Forall_cons; split); [..|apply Forall_nil].
Defined.
Lemma token_conservation_witness :
  token_total 5 (map (fun p => script_public_key p.2) (populated_inputs mixed)) =
    token_total 5 (map out_script_public_key (outputs (ptx mixed))) \/ policy_approves None mixed 1020 5.
Proof.
  apply (token_conservation (SI:=elements_iter _) mainnet_validator [1; 0]%nat None mixed 1020 Full None no_state 1000000000 no_state); [|exact run_mixed_ok].
  done.
Defined.
Lemma accepted_spends_mature_witness :
  Forall (fun p : TransactionInput * UtxoEntry =>
    (is_coinbase_entry p.2 = true -> block_daa_score p.2 + coinbase_maturity mainnet_validator <= 1020) /\
    (lock_disabled p.1 = true \/ lock_score p.2 + relative_lock p.1 <= 1020)) (populated_inputs mixed).
Proof.
  apply (accepted_spends_mature (SI:=elements_iter _) mainnet_validator [1; 0]%nat None mixed 1020 Full None no_state 1000000000 no_state);
    [by vm_compute|by vm_compute| |exact run_mixed_ok].
  repeat (apply Forall_cons; split); [..|by apply Forall_nil]; (split; [done|]); (split; [by left|done]).
Defined.
Lemma validation_never_panics_witness :
  is_result (validate_populated_transaction_and_get_fee (SC:=toy_crypto) (CR:=first_evicted) (SI:=elements_iter _)
    mainnet_validator [1; 0]%nat (Some emitting) mixed 1020 Full None no_state).1.
Proof.
  apply (validation_never_panics (SI:=elements_iter _) mainnet_validator (Some emitting) mixed 1020 mixed_typed);
    [repeat constructor|done..].
Defined.
Definition vault_spend : PopulatedTransaction := {|
  ptx := plain_tx [payment];
  entries := [{| amount := 1000; script_public_key := {| spk_version := 3; spk_script := [0x6a] |};
                 block_daa_score := 10; is_coinbase_entry := false |}] |}.
Lemma fallthrough_versions_unchecked_witness :
  check_scripts_with_svm (SC:=toy_crypto) (CR:=first_evicted) [] None vault_spend 100 no_state = (Ok tt, no_state).
Proof. apply fallthrough_versions_unchecked; [done|by apply Forall_nil|by repeat constructor]. Defined.
