(* ===== verification/Utxo.v ===== *)
(** * UTXO collections, views and the UTXO-diff algebra

    Models [consensus/core/src/utxo/utxo_collection.rs], [utxo_view.rs],
    [utxo_error.rs] and [utxo_diff.rs].

    A collection is a finite map from outpoints to entries.  A diff holds an
    [add] and a [remove] collection; it is read through the interface
    [ImmutableUtxoDiff], which a diff and a reversed diff implement, and is
    applied to a base view by [compose].

    The abstract specification is the view itself: a diff is [valid] on a base
    view when it removes only entries the view has and adds only where the view
    has none left, and every operation of the algebra is shown to act on
    composed views as the operation it stands for (sequential composition,
    difference, inversion, spending and creating outputs). *)
From stdpp Require Import strings.
From S2P Require Import Prelude Tx.
#[local] Open Scope Z_scope.

Abbreviation UtxoCollection := (gmap TransactionOutpoint UtxoEntry).

(** ** Errors *)
Inductive UtxoAlgebraError :=
| DuplicateRemovePoint (o : TransactionOutpoint)
| DuplicateAddPoint (o : TransactionOutpoint)
| DoubleRemoveCall (o : TransactionOutpoint)
| DoubleAddCall (o : TransactionOutpoint)
| DiffIntersectionPoint (o : TransactionOutpoint) (msg : string)
| General (msg : string).

(** ** Collections *)
Section collection.
Context `{!HashIter TransactionOutpoint UtxoEntry}.
Implicit Types (c this other result remainder : UtxoCollection).

Definition contains_with_daa_score c (outpoint : TransactionOutpoint) (daa_score : u64) : bool :=
  match c !! outpoint with
  | Some entry => block_daa_score entry =? daa_score
  | None => false
  end.

(** Removes all keys of [other]. *)
Definition remove_collection c other : UtxoCollection :=
  foldl (fun c kv => delete kv.1 c) c (hash_iter other).

Definition add_collection c other : UtxoCollection :=
  foldl (fun c kv => <[kv.1 := kv.2]> c) c (hash_iter other).

Definition contains_key c (o : TransactionOutpoint) : bool := bool_decide (is_Some (c !! o)).

Definition intersects c other : bool :=
  let '(keys, other) :=
    if (size c <=? size other)%nat then (hash_iter c, other) else (hash_iter other, c) in
  existsb (fun kv => contains_key other kv.1) keys.

(** The first key of the enumeration [l] on which [hit] holds. *)
Fixpoint first_hit (hit : TransactionOutpoint -> UtxoEntry -> bool)
    (l : list (TransactionOutpoint * UtxoEntry)) : option TransactionOutpoint :=
  match l with
  | [] => None
  | (k, v) :: l => if hit k v then Some k else first_hit hit l
  end.

Definition intersects_with_rule c other
    (rule : TransactionOutpoint -> UtxoEntry -> UtxoEntry -> bool) : option TransactionOutpoint :=
  if (size c <=? size other)%nat then
    first_hit (fun k v1 => match other !! k with Some v2 => rule k v1 v2 | None => false end)
      (hash_iter c)
  else
    first_hit (fun k v2 => match c !! k with Some v1 => rule k v1 v2 | None => false end)
      (hash_iter other).

(** The in-place set operations return their two mutable arguments. *)
Definition intersection_with_remainder_having_daa_score_in_place this other result remainder
    : UtxoCollection * UtxoCollection :=
  foldl (fun acc kv =>
    if contains_with_daa_score other kv.1 (block_daa_score kv.2)
    then (<[kv.1 := kv.2]> acc.1, acc.2)
    else (acc.1, <[kv.1 := kv.2]> acc.2)) (result, remainder) (hash_iter this).

Definition subtraction_having_daa_score_in_place this other result : UtxoCollection :=
  foldl (fun acc kv =>
    if negb (contains_with_daa_score other kv.1 (block_daa_score kv.2))
    then <[kv.1 := kv.2]> acc else acc) result (hash_iter this).

Definition subtraction_with_remainder_having_daa_score_in_place this other result remainder
    : UtxoCollection * UtxoCollection :=
  foldl (fun acc kv =>
    if negb (contains_with_daa_score other kv.1 (block_daa_score kv.2))
    then (<[kv.1 := kv.2]> acc.1, acc.2)
    else (acc.1, <[kv.1 := kv.2]> acc.2)) (result, remainder) (hash_iter this).
End collection.

(** ** Diffs *)
Record UtxoDiff := {
  add : UtxoCollection;
  remove : UtxoCollection;
}.
#[export] Instance UtxoDiff_empty : Empty UtxoDiff := {| add := ∅; remove := ∅ |}.

Class ImmutableUtxoDiff (D : Type) := {
  added : D -> UtxoCollection;
  removed : D -> UtxoCollection;
}.
#[export] Instance UtxoDiff_immutable : ImmutableUtxoDiff UtxoDiff :=
  {| added := add; removed := remove |}.

Record ReversedUtxoDiff := { inner : UtxoDiff }.
#[export] Instance ReversedUtxoDiff_immutable : ImmutableUtxoDiff ReversedUtxoDiff :=
  {| added d := remove (inner d); removed d := add (inner d) |}.
Definition as_reversed (d : UtxoDiff) : ReversedUtxoDiff := {| inner := d |}.
Definition to_reversed (d : UtxoDiff) : UtxoDiff := {| add := remove d; remove := add d |}.

Section diff.
Context `{!HashIter TransactionOutpoint UtxoEntry}.

(** Returns the new value of [self]; on an error [self] is unchanged, since
    both checks precede the first mutation. *)
Definition with_diff_in_place `{!ImmutableUtxoDiff D} (other : D)
    : stm UtxoDiff UtxoAlgebraError unit := fun self =>
  match intersects_with_rule (removed other) (remove self)
          (fun o entry_to_add _ =>
             negb (contains_with_daa_score (add self) o (block_daa_score entry_to_add))) with
  | Some offending => (Err (DuplicateRemovePoint offending), self)
  | None =>
  match intersects_with_rule (added other) (add self)
          (fun o _ existing_entry =>
             negb (contains_with_daa_score (removed other) o (block_daa_score existing_entry))) with
  | Some offending => (Err (DuplicateAddPoint offending), self)
  | None =>
    let '(intersection, rem) :=
      intersection_with_remainder_having_daa_score_in_place
        (removed other) (add self) ∅ (remove self) in
    let a := remove_collection (add self) intersection in
    let '(intersection, a) :=
      intersection_with_remainder_having_daa_score_in_place (added other) rem ∅ a in
    let rem := remove_collection rem intersection in
    (Ok tt, {| add := a; remove := rem |})
  end end.

Definition with_diff `{!ImmutableUtxoDiff D} (self : UtxoDiff) (other : D)
    : res UtxoAlgebraError UtxoDiff :=
  match with_diff_in_place other self with
  | (Ok _, clone) => Ok clone
  | (Err e, _) => Err e
  | (Panic, _) => Panic
  | (NoFuel, _) => NoFuel
  end.

Definition diff_from `{!ImmutableUtxoDiff D} (self : UtxoDiff) (other : D)
    : res UtxoAlgebraError UtxoDiff :=
  match intersects_with_rule (remove self) (added other)
          (fun o this_entry other_entry =>
             negb (negb (block_daa_score other_entry =? block_daa_score this_entry)
                   && (contains_with_daa_score (add self) o (block_daa_score other_entry)
                       || contains_with_daa_score (removed other) o (block_daa_score this_entry)))) with
  | Some offending => Err (DiffIntersectionPoint offending "both in self.add and in other.remove")
  | None =>
  match intersects_with_rule (add self) (removed other)
          (fun o this_entry other_entry =>
             negb (negb (block_daa_score other_entry =? block_daa_score this_entry)
                   && (contains_with_daa_score (remove self) o (block_daa_score other_entry)
                       || contains_with_daa_score (added other) o (block_daa_score this_entry)))) with
  | Some offending => Err (DiffIntersectionPoint offending "both in self.remove and in other.add")
  | None =>
  match intersects_with_rule (remove self) (removed other)
          (fun _ this_entry other_entry =>
             negb (block_daa_score other_entry =? block_daa_score this_entry)) with
  | Some offending => Err (DiffIntersectionPoint offending
      "both in self.remove and other.remove with different DAA scores, with no corresponding entry in self.add")
  | None =>
    let '(result_remove, in_both_to_add) :=
      subtraction_with_remainder_having_daa_score_in_place (add self) (added other) ∅ ∅ in
    if negb (Bool.eqb (intersects in_both_to_add (remove self))
                      (intersects in_both_to_add (removed other)))
    then Err (General
      "diff_from: outpoint both in self.add, other.add, and only one of self.remove and other.remove")
    else
      let result_remove :=
        subtraction_having_daa_score_in_place (removed other) (remove self) result_remove in
      let result_add := subtraction_having_daa_score_in_place (remove self) (removed other) ∅ in
      let result_add :=
        subtraction_having_daa_score_in_place (added other) (add self) result_add in
      Ok {| add := result_add; remove := result_remove |}
  end end end.

Definition remove_entry (outpoint : TransactionOutpoint) (entry : UtxoEntry)
    : stm UtxoDiff UtxoAlgebraError unit := fun self =>
  if contains_with_daa_score (add self) outpoint (block_daa_score entry) then
    (Ok tt, {| add := delete outpoint (add self); remove := remove self |})
  else match remove self !! outpoint with
  | None => (Ok tt, {| add := add self; remove := <[outpoint := entry]> (remove self) |})
  | Some _ => (Err (DoubleRemoveCall outpoint), self)
  end.

Definition add_entry (outpoint : TransactionOutpoint) (entry : UtxoEntry)
    : stm UtxoDiff UtxoAlgebraError unit := fun self =>
  if contains_with_daa_score (remove self) outpoint (block_daa_score entry) then
    (Ok tt, {| add := add self; remove := delete outpoint (remove self) |})
  else match add self !! outpoint with
  | None => (Ok tt, {| add := <[outpoint := entry]> (add self); remove := remove self |})
  | Some _ => (Err (DoubleAddCall outpoint), self)
  end.

(** The outpoint and entry the [i]-th output creates; [i as u32] truncates. *)
Definition created_entry (tx_id : Hash) (coinbase : bool) (daa : u64)
    (i : nat) (output : TransactionOutput) : TransactionOutpoint * UtxoEntry :=
  ({| transaction_id := tx_id; index := wrap 32 (Z.of_nat i) |},
   {| amount := value output; script_public_key := out_script_public_key output;
      block_daa_score := daa; is_coinbase_entry := coinbase |}).

Definition add_transaction (t : PopulatedTransaction) (daa : u64)
    : stm UtxoDiff UtxoAlgebraError unit :=
  _ ← stm_for (fun i self =>
        match populated_input t i with
        | Ok (input, entry) => remove_entry (previous_outpoint input) entry self
        | Err e => (Err e, self)
        | Panic => (Panic, self)
        | NoFuel => (NoFuel, self)
        end) (seq 0 (length (inputs (ptx t))));
  stm_for (fun oe => add_entry oe.1 oe.2)
    (imap (created_entry (id (ptx t)) (is_coinbase (ptx t)) daa) (outputs (ptx t))).
End diff.

(** ** Views *)
Class UtxoView (V : Type) := get : V -> TransactionOutpoint -> option UtxoEntry.
#[export] Instance UtxoCollection_view : UtxoView UtxoCollection := fun c o => c !! o.

Record ComposedUtxoView (V D : Type) := { base : V; cdiff : D }.
Arguments base {V D} _.
Arguments cdiff {V D} _.
#[export] Instance ComposedUtxoView_view `{!UtxoView V, !ImmutableUtxoDiff D}
    : UtxoView (ComposedUtxoView V D) := fun v o =>
  match added (cdiff v) !! o with
  | Some entry => Some entry
  | None => if contains_key (removed (cdiff v)) o then None else get (base v) o
  end.
Definition compose {V D} (v : V) (d : D) : ComposedUtxoView V D := {| base := v; cdiff := d |}.

(** ** Pointwise readings of the collection operations *)
Section pointwise.
Context `{!HashIter TransactionOutpoint UtxoEntry}.
Implicit Types (c this other result remainder : UtxoCollection).

Lemma lookup_remove_collection c other o :
  remove_collection c other !! o = match other !! o with Some _ => None | None => c !! o end.
Proof.
  unfold remove_collection.
  cut (forall l c, foldl (fun c kv => delete kv.1 c) c l !! o =
         if decide (o ∈ (l : list (TransactionOutpoint * UtxoEntry)).*1) then None else c !! o).
  { intros ->. case_decide as Hin.
    - apply list_elem_of_fmap in Hin as ([k v] & -> & Hin).
      apply elem_of_hash_iter in Hin. simpl. by rewrite Hin.
    - destruct (other !! o) eqn:Ho; [|done]. destruct Hin.
      apply list_elem_of_fmap. eexists (o, _). split; [done|]. by apply elem_of_hash_iter. }
  intros l. induction l as [|[k v] l IH]; intros c'; simpl; [done|].
  rewrite IH. destruct (decide (o = k)) as [->|Hne].
  - rewrite lookup_delete_eq. rewrite (decide_True (P := k ∈ k :: _)) by set_solver.
    by case_decide.
  - rewrite lookup_delete_ne by done. apply decide_ext. rewrite elem_of_cons. naive_solver.
Qed.

Lemma fold_pair_split (p : TransactionOutpoint -> UtxoEntry -> bool) l a b :
  foldl (fun acc kv => if p kv.1 kv.2 then (<[kv.1 := kv.2]> acc.1, acc.2)
                       else (acc.1, <[kv.1 := kv.2]> acc.2)) (a, b) l =
  (insert_where p a l, insert_where (fun k v => negb (p k v)) b l).
Proof.
  revert a b. induction l as [|[k v] l IH]; intros a b; [done|].
  simpl. destruct (p k v) eqn:Hp; simpl; rewrite IH; unfold insert_where; simpl; by rewrite ?Hp.
Qed.

Lemma first_hit_none hit l :
  first_hit hit l = None <-> forall k v, (k, v) ∈ l -> hit k v = false.
Proof.
  induction l as [|[k v] l IH]; simpl.
  - split; [|done]. intros _ k v Hin. by apply elem_of_nil in Hin.
  - destruct (hit k v) eqn:Hh.
    + split; [done|]. intros H. rewrite (H k v) in Hh by (left). done.
    + rewrite IH. split.
      * intros H k' v' [[= -> ->]|Hin]%elem_of_cons; eauto.
      * intros H k' v' Hin. apply H. by right.
Qed.

Lemma intersects_with_rule_none c other rule :
  intersects_with_rule c other rule = None <->
  forall o e1 e2, c !! o = Some e1 -> other !! o = Some e2 -> rule o e1 e2 = false.
Proof.
  unfold intersects_with_rule. case_match; rewrite first_hit_none; setoid_rewrite elem_of_hash_iter.
  - split.
    + intros H1 o e1 e2 Hc Ho. specialize (H1 o e1 Hc). by rewrite Ho in H1.
    + intros H1 o e1 Hc. case_match; eauto.
  - split.
    + intros H1 o e1 e2 Hc Ho. specialize (H1 o e2 Ho). by rewrite Hc in H1.
    + intros H1 o e2 Ho. case_match; eauto.
Qed.

Lemma first_hit_some hit l k : first_hit hit l = Some k -> exists v, (k, v) ∈ l /\ hit k v = true.
Proof.
  induction l as [|[k' v'] l IH]; simpl; [done|]. destruct (hit k' v') eqn:Hh.
  - intros [= ->]. exists v'. split; [left|done].
  - intros (v & Hin & Hv)%IH. exists v. split; [by right|done].
Qed.

Lemma intersects_with_rule_some c other rule o :
  intersects_with_rule c other rule = Some o ->
  exists e1 e2, other !! o = Some e1 /\ c !! o = Some e2 /\ rule o e2 e1 = true.
Proof.
  unfold intersects_with_rule. case_match; intros (v & Hin & Hv)%first_hit_some;
    apply elem_of_hash_iter in Hin; case_match; eauto; done.
Qed.

Lemma intersects_spec c other :
  intersects c other = true <-> exists o, is_Some (c !! o) /\ is_Some (other !! o).
Proof.
  unfold intersects. destruct (_ <=? _)%nat; rewrite existsb_exists;
    setoid_rewrite <- list_elem_of_In; unfold contains_key; setoid_rewrite bool_decide_eq_true; split.
  1, 3: intros ([k v] & Hin%elem_of_hash_iter & Hs); exists k; rewrite Hin; eauto.
  1, 2: intros (o & [e1 H1] & [e2 H2]).
  - exists (o, e1). rewrite elem_of_hash_iter. eauto.
  - exists (o, e2). rewrite elem_of_hash_iter. eauto.
Qed.

Ltac option_union :=
  repeat match goal with
  | |- _ /\ _ => split
  | |- context [?a =? ?b] => destruct (a =? b); simpl
  | |- _ = _ ∪ ?x => destruct x; reflexivity
  end.

(** Pointwise content of the in-place operations. *)
Definition common (t o : option UtxoEntry) : option UtxoEntry :=
  match t, o with
  | Some e, Some e' => if block_daa_score e' =? block_daa_score e then Some e else None
  | _, _ => None
  end.
Definition only (t o : option UtxoEntry) : option UtxoEntry :=
  match t, o with
  | Some e, Some e' => if block_daa_score e' =? block_daa_score e then None else Some e
  | t, None => t
  | None, _ => None
  end.

Lemma lookup_intersection this other result remainder o :
  let p := intersection_with_remainder_having_daa_score_in_place this other result remainder in
  p.1 !! o = common (this !! o) (other !! o) ∪ result !! o /\
  p.2 !! o = only (this !! o) (other !! o) ∪ remainder !! o.
Proof.
  cbv zeta. unfold intersection_with_remainder_having_daa_score_in_place.
  rewrite (fold_pair_split (fun k v => contains_with_daa_score other k (block_daa_score v))).
  cbn [fst snd]. rewrite !lookup_insert_where. unfold contains_with_daa_score, common, only.
  destruct (this !! o), (other !! o); simpl; option_union.
Qed.

Lemma lookup_subtraction this other result o :
  subtraction_having_daa_score_in_place this other result !! o =
    only (this !! o) (other !! o) ∪ result !! o.
Proof.
  unfold subtraction_having_daa_score_in_place.
  change (foldl _ _ _) with (insert_where (fun k v =>
    negb (contains_with_daa_score other k (block_daa_score v))) result (hash_iter this)).
  rewrite lookup_insert_where. unfold contains_with_daa_score, only.
  destruct (this !! o), (other !! o); simpl; option_union.
Qed.

Lemma lookup_subtraction_remainder this other result remainder o :
  let p := subtraction_with_remainder_having_daa_score_in_place this other result remainder in
  p.1 !! o = only (this !! o) (other !! o) ∪ result !! o /\
  p.2 !! o = common (this !! o) (other !! o) ∪ remainder !! o.
Proof.
  cbv zeta. unfold subtraction_with_remainder_having_daa_score_in_place.
  rewrite (fold_pair_split (fun k v => negb (contains_with_daa_score other k (block_daa_score v)))).
  cbn [fst snd]. rewrite !lookup_insert_where. unfold contains_with_daa_score, common, only.
  destruct (this !! o), (other !! o); simpl; option_union.
Qed.
End pointwise.

(** ** Well-formed diffs *)

(** A plain function is a view. *)
#[export] Instance fun_view : UtxoView (TransactionOutpoint -> option UtxoEntry) := fun f => f.

(** [d] is a diff of the view [v]: it removes entries that [v] holds, adds an
    entry only where [v] has none or its entry is removed, and never both adds
    and removes the same version (DAA score) of an outpoint. *)
Record valid `{!UtxoView V, !ImmutableUtxoDiff D} (v : V) (d : D) : Prop := {
  valid_remove o e : removed d !! o = Some e -> get v o = Some e;
  valid_add o e : added d !! o = Some e -> get v o = None \/ is_Some (removed d !! o);
  valid_normal o a r : added d !! o = Some a -> removed d !! o = Some r ->
    block_daa_score a <> block_daa_score r;
}.

(** An outpoint names an output of one transaction, so all entries of an
    outpoint agree on everything but the DAA score of the accepting block.
    [origin] gives the output an outpoint names. *)
Definition genuine (origin : TransactionOutpoint -> option (u64 * ScriptPublicKey * bool))
    (o : TransactionOutpoint) (e : UtxoEntry) : Prop :=
  origin o = Some (amount e, script_public_key e, is_coinbase_entry e).
Definition genuine_view `{!UtxoView V} origin (v : V) : Prop :=
  forall o e, get v o = Some e -> genuine origin o e.
Definition genuine_diff `{!ImmutableUtxoDiff D} origin (d : D) : Prop :=
  forall o e, added d !! o = Some e -> genuine origin o e.

Lemma genuine_unique origin o e e' :
  genuine origin o e -> genuine origin o e' -> block_daa_score e = block_daa_score e' -> e = e'.
Proof. unfold genuine. destruct e, e'; simpl. intros -> [= -> -> ->] ->. done. Qed.

Lemma get_compose `{!UtxoView V, !ImmutableUtxoDiff D} (v : V) (d : D) o :
  get (compose v d) o =
    match added d !! o with
    | Some e => Some e
    | None => match removed d !! o with Some _ => None | None => get v o end
    end.
Proof.
  unfold get at 1, ComposedUtxoView_view, contains_key, compose. simpl.
  destruct (added d !! o); [done|].
  destruct (removed d !! o); [by rewrite bool_decide_true by eauto|].
  rewrite bool_decide_false; [done|]. by intros [? ?].
Qed.

Lemma genuine_compose `{!UtxoView V, !ImmutableUtxoDiff D} origin (v : V) (d : D) :
  genuine_view origin v -> genuine_diff origin d -> genuine_view origin (compose v d).
Proof. intros Hv Hd o e. rewrite get_compose. repeat case_match; intros [=<-] || intros; eauto; done. Qed.

Section algebra.
Context `{!HashIter TransactionOutpoint UtxoEntry}.

Lemma contains_with_daa_score_spec c o s :
  contains_with_daa_score c o s = true <-> exists e, c !! o = Some e /\ block_daa_score e = s.
Proof.
  unfold contains_with_daa_score. destruct (c !! o) as [e|]; [|naive_solver].
  rewrite Z.eqb_eq. naive_solver.
Qed.

(** The entry at one outpoint after [with_diff], from the entries of the two
    diffs at that outpoint. *)
Definition wd_remove1 (a1 r1 r2 : option UtxoEntry) := only r2 a1 ∪ r1.
Definition wd_add1 (a1 r2 : option UtxoEntry) :=
  match common r2 a1 with Some _ => None | None => a1 end.
Definition wd_add (a1 r1 a2 r2 : option UtxoEntry) :=
  only a2 (wd_remove1 a1 r1 r2) ∪ wd_add1 a1 r2.
Definition wd_remove (a1 r1 a2 r2 : option UtxoEntry) :=
  match common a2 (wd_remove1 a1 r1 r2) with Some _ => None | None => wd_remove1 a1 r1 r2 end.

Lemma with_diff_pointwise `{!ImmutableUtxoDiff D} (d1 : UtxoDiff) (d2 : D) :
  (forall o e2 e1, removed d2 !! o = Some e2 -> remove d1 !! o = Some e1 ->
     contains_with_daa_score (add d1) o (block_daa_score e2) = true) ->
  (forall o e2 e1, added d2 !! o = Some e2 -> add d1 !! o = Some e1 ->
     contains_with_daa_score (removed d2) o (block_daa_score e1) = true) ->
  exists r, with_diff d1 d2 = Ok r /\ forall o,
    add r !! o = wd_add (add d1 !! o) (remove d1 !! o) (added d2 !! o) (removed d2 !! o) /\
    remove r !! o = wd_remove (add d1 !! o) (remove d1 !! o) (added d2 !! o) (removed d2 !! o).
Proof.
  intros Hr Ha. unfold with_diff, with_diff_in_place.
  match goal with |- context [intersects_with_rule ?a ?b ?r] =>
    replace (intersects_with_rule a b r) with (@None TransactionOutpoint)
  end.
  2:{ symmetry. apply intersects_with_rule_none. intros o e1 e2 H1 H2. by rewrite (Hr o e1 e2). }
  match goal with |- context [intersects_with_rule ?a ?b ?r] =>
    replace (intersects_with_rule a b r) with (@None TransactionOutpoint)
  end.
  2:{ symmetry. apply intersects_with_rule_none. intros o e1 e2 H1 H2. by rewrite (Ha o e1 e2). }
  destruct (intersection_with_remainder_having_daa_score_in_place (removed d2) (add d1) ∅ (remove d1))
    as [i1 rem1] eqn:E1.
  destruct (intersection_with_remainder_having_daa_score_in_place (added d2) rem1 ∅
    (remove_collection (add d1) i1)) as [i2 a2] eqn:E2.
  eexists. split; [done|]. intros o. simpl.
  pose proof (lookup_intersection (removed d2) (add d1) ∅ (remove d1) o) as [H1 H2].
  rewrite E1 in H1, H2. simpl in H1, H2.
  pose proof (lookup_intersection (added d2) rem1 ∅ (remove_collection (add d1) i1) o) as [H3 H4].
  rewrite E2 in H3, H4. simpl in H3, H4.
  rewrite lookup_empty, (right_id_L None _) in H1, H3.
  rewrite lookup_remove_collection, H4, H3, lookup_remove_collection, H1, H2. done.
Qed.

(** Validity and composition at one outpoint. *)
Definition pvalid (b a r : option UtxoEntry) : Prop :=
  (forall e, r = Some e -> b = Some e) /\
  (forall e, a = Some e -> b = None \/ is_Some r) /\
  (forall x y, a = Some x -> r = Some y -> block_daa_score x <> block_daa_score y).
Definition pget (b a r : option UtxoEntry) : option UtxoEntry :=
  match a with Some e => Some e | None => match r with Some _ => None | None => b end end.

Lemma valid_pvalid `{!UtxoView V, !ImmutableUtxoDiff D} (v : V) (d : D) :
  valid v d <-> forall o, pvalid (get v o) (added d !! o) (removed d !! o).
Proof.
  split.
  - intros [H1 H2 H3] o. split_and!; eauto.
  - intros H. split; intros o; destruct (H o) as (H1 & H2 & H3); eauto.
Qed.

(** Forward reasoning on the validity hypotheses once the entries at the
    outpoint are known. *)
Ltac fwd :=
  repeat match goal with
  | H : forall e, Some ?x = Some e -> _ |- _ => specialize (H x eq_refl)
  | H : forall e, None = Some e -> _ |- _ => clear H
  | H : forall x y, Some ?a = Some x -> Some ?b = Some y -> _ |- _ =>
      specialize (H a b eq_refl eq_refl)
  | H : forall x y, None = Some x -> _ |- _ => clear H
  | H : forall x y, _ -> None = Some y -> _ |- _ => clear H
  | H : _ \/ _ |- _ => destruct H
  | H : is_Some None |- _ => destruct H; discriminate
  | H : is_Some (Some _) |- _ => clear H
  | H : Some _ = None |- _ => discriminate
  | H : None = Some _ |- _ => discriminate
  | H : Some _ = Some _ |- _ => injection H as H; subst
  | H : block_daa_score ?x <> block_daa_score ?x |- _ => destruct (H eq_refl)
  end.
Ltac daa_cases :=
  repeat match goal with
  | H : context [block_daa_score ?a =? block_daa_score ?b] |- _ =>
      destruct (Z.eqb_spec (block_daa_score a) (block_daa_score b)); simpl in *
  | |- context [block_daa_score ?a =? block_daa_score ?b] =>
      destruct (Z.eqb_spec (block_daa_score a) (block_daa_score b)); simpl in *
  end.
Ltac merge_versions HP :=
  repeat match goal with
  | H : block_daa_score ?x = block_daa_score ?y |- _ =>
      first [ assert (x = y) by (apply HP; auto; congruence); subst y; clear H
            | assert (x = y) by (apply HP; auto; congruence); subst x; clear H ]
  end.
Ltac point_done :=
  split_and!; intros;
  repeat match goal with H : _ ∪ _ = Some _ |- _ => injection H as H end;
  simplify_eq; eauto; try congruence.

Lemma wd_point (P : UtxoEntry -> Prop) b a1 r1 a2 r2 :
  (forall x y, P x -> P y -> block_daa_score x = block_daa_score y -> x = y) ->
  (forall e, b = Some e -> P e) -> (forall e, a2 = Some e -> P e) ->
  pvalid b a1 r1 -> pvalid (pget b a1 r1) a2 r2 ->
  pvalid b (wd_add a1 r1 a2 r2) (wd_remove a1 r1 a2 r2) /\
  pget b (wd_add a1 r1 a2 r2) (wd_remove a1 r1 a2 r2) = pget (pget b a1 r1) a2 r2.
Proof.
  unfold pvalid, pget, wd_add, wd_remove, wd_remove1, wd_add1, only, common.
  intros HP Hb Ha (V1 & V2 & V3) (W1 & W2 & W3).
  destruct b, a1, r1; fwd; destruct a2, r2; simpl in *; fwd; daa_cases; fwd;
    merge_versions HP; fwd; point_done.
Qed.

Lemma canonical_point b a r a' r' :
  pvalid b a r -> pvalid b a' r' -> pget b a r = pget b a' r' -> a = a' /\ r = r'.
Proof.
  unfold pvalid, pget. intros (V1 & V2 & V3) (W1 & W2 & W3) Heq.
  destruct b, a, r; fwd; destruct a', r'; simpl in *; fwd; point_done.
Qed.

(** The entry at one outpoint of [diff_from]. *)
Definition df_remove (a1 r1 a2 r2 : option UtxoEntry) := only r2 r1 ∪ only a1 a2.
Definition df_add (a1 r1 a2 r2 : option UtxoEntry) := only a2 a1 ∪ only r1 r2.

Lemma df_point (P : UtxoEntry -> Prop) b a1 r1 a2 r2 :
  (forall x y, P x -> P y -> block_daa_score x = block_daa_score y -> x = y) ->
  (forall e, a1 = Some e -> P e) -> (forall e, a2 = Some e -> P e) ->
  pvalid b a1 r1 -> pvalid b a2 r2 ->
  pvalid (pget b a1 r1) (df_add a1 r1 a2 r2) (df_remove a1 r1 a2 r2) /\
  pget (pget b a1 r1) (df_add a1 r1 a2 r2) (df_remove a1 r1 a2 r2) = pget b a2 r2.
Proof.
  unfold pvalid, pget, df_add, df_remove, only.
  intros HP Ha1 Ha2 (V1 & V2 & V3) (W1 & W2 & W3).
  destruct b, a1, r1; fwd; destruct a2, r2; simpl in *; fwd; daa_cases; fwd;
    merge_versions HP; fwd; point_done.
Qed.

(** The conditions under which no rule of [diff_from] rejects. *)
Definition diff_from_accepts `{!ImmutableUtxoDiff D} (d1 : UtxoDiff) (d2 : D) : Prop :=
  forall o,
  (forall e1 e2, remove d1 !! o = Some e1 -> added d2 !! o = Some e2 ->
     block_daa_score e2 <> block_daa_score e1 /\ removed d2 !! o = Some e1) /\
  (forall e1 e2, add d1 !! o = Some e1 -> removed d2 !! o = Some e2 ->
     block_daa_score e2 <> block_daa_score e1 /\ remove d1 !! o = Some e2) /\
  (forall e1 e2, remove d1 !! o = Some e1 -> removed d2 !! o = Some e2 ->
     block_daa_score e2 = block_daa_score e1).

Lemma diff_from_pointwise `{!ImmutableUtxoDiff D} (d1 : UtxoDiff) (d2 : D) :
  diff_from_accepts d1 d2 ->
  (forall o, is_Some (common (add d1 !! o) (added d2 !! o)) ->
     is_Some (remove d1 !! o) <-> is_Some (removed d2 !! o)) ->
  exists r, diff_from d1 d2 = Ok r /\ forall o,
    add r !! o = df_add (add d1 !! o) (remove d1 !! o) (added d2 !! o) (removed d2 !! o) /\
    remove r !! o = df_remove (add d1 !! o) (remove d1 !! o) (added d2 !! o) (removed d2 !! o).
Proof.
  intros Hacc Hboth. unfold diff_from.
  rewrite (proj2 (intersects_with_rule_none _ _ _)).
  2:{ intros o e1 e2 H1 H2. destruct (Hacc o) as (A & _ & _). destruct (A _ _ H1 H2) as [Hne Hr].
      apply negb_false_iff, andb_true_intro. split; [lia|]. apply orb_true_iff. right.
      apply contains_with_daa_score_spec. eauto. }
  rewrite (proj2 (intersects_with_rule_none _ _ _)).
  2:{ intros o e1 e2 H1 H2. destruct (Hacc o) as (_ & A & _). destruct (A _ _ H1 H2) as [Hne Hr].
      apply negb_false_iff, andb_true_intro. split; [lia|]. apply orb_true_iff. left.
      apply contains_with_daa_score_spec. eauto. }
  rewrite (proj2 (intersects_with_rule_none _ _ _)).
  2:{ intros o e1 e2 H1 H2. destruct (Hacc o) as (_ & _ & A). specialize (A _ _ H1 H2). lia. }
  destruct (subtraction_with_remainder_having_daa_score_in_place (add d1) (added d2) ∅ ∅)
    as [rr both] eqn:E.
  assert (forall o, rr !! o = only (add d1 !! o) (added d2 !! o) /\
                    both !! o = common (add d1 !! o) (added d2 !! o)) as Hl.
  { intros o. pose proof (lookup_subtraction_remainder (add d1) (added d2) ∅ ∅ o) as [H1 H2].
    rewrite E in H1, H2. simpl in H1, H2. by rewrite lookup_empty, (right_id_L None _) in H1, H2. }
  replace (Bool.eqb _ _) with true.
  2:{ symmetry. apply Bool.eqb_true_iff, Bool.eq_iff_eq_true. rewrite !intersects_spec.
      split; intros (o & H1 & H2); exists o; (split; [done|]); apply (Hboth o); try done;
        by rewrite <- (proj2 (Hl o)). }
  simpl. eexists. split; [done|]. intros o. simpl.
  rewrite !lookup_subtraction, (proj1 (Hl o)), lookup_empty, (right_id_L None _). done.
Qed.

(** ** Spending and creating single outputs *)
Lemma remove_entry_view `{!UtxoView V} (v : V) d o e :
  valid v d -> get (compose v d) o = Some e ->
  exists d', remove_entry o e d = (Ok tt, d') /\ valid v d' /\
    forall o', get (compose v d') o' = if decide (o' = o) then None else get (compose v d) o'.
Proof.
  intros Hv Hget. pose proof (proj1 (valid_pvalid v d) Hv) as Hp. simpl in Hp.
  unfold remove_entry. rewrite get_compose in Hget. simpl in Hget.
  destruct (add d !! o) as [a|] eqn:Ha.
  - injection Hget as ->. rewrite (proj2 (contains_with_daa_score_spec _ _ _)) by eauto.
    eexists. split; [done|]. split.
    + apply valid_pvalid. intros o'. simpl. destruct (Hp o') as (V1 & V2 & V3).
      destruct (decide (o' = o)) as [->|]; [rewrite lookup_delete_eq|by rewrite lookup_delete_ne].
      unfold pvalid. split_and!; [done|discriminate..].
    + intros o'. rewrite !get_compose. simpl. case_decide as Ho.
      * subst o'. rewrite lookup_delete_eq. destruct (Hp o) as (V1 & V2 & V3).
        rewrite Ha in V2. destruct (V2 _ eq_refl) as [Hn|[r ->]]; [rewrite Hn; by case_match|done].
      * by rewrite lookup_delete_ne.
  - destruct (remove d !! o) as [r|] eqn:Hr; [done|].
    unfold contains_with_daa_score. rewrite Ha. eexists. split; [done|]. split.
    + apply valid_pvalid. intros o'. simpl. destruct (Hp o') as (V1 & V2 & V3).
      destruct (decide (o' = o)) as [->|];
        [rewrite lookup_insert_eq, Ha|by rewrite lookup_insert_ne].
      unfold pvalid. split_and!; [by intros ? [=<-]|discriminate..].
    + intros o'. rewrite !get_compose. simpl. case_decide as Ho.
      * subst o'. by rewrite lookup_insert_eq, Ha.
      * by rewrite lookup_insert_ne.
Qed.

(** [e] is what [v] holds at [o], if it holds an entry of the same DAA score. *)
Definition agrees `{!UtxoView V} (v : V) (o : TransactionOutpoint) (e : UtxoEntry) : Prop :=
  forall r, get v o = Some r -> block_daa_score r = block_daa_score e -> r = e.
Lemma genuine_agrees `{!UtxoView V} origin (v : V) o e : genuine_view origin v -> genuine origin o e -> agrees v o e.
Proof. intros Hv He r Hr Hs. eapply genuine_unique; [by apply Hv|done|done]. Qed.
Lemma add_entry_view `{!UtxoView V} (v : V) d o e :
  agrees v o e -> valid v d -> get (compose v d) o = None ->
  exists d', add_entry o e d = (Ok tt, d') /\ valid v d' /\
    forall o', get (compose v d') o' = if decide (o' = o) then Some e else get (compose v d) o'.
Proof.
  intros Hag Hv Hget. pose proof (proj1 (valid_pvalid v d) Hv) as Hp. simpl in Hp.
  unfold add_entry. rewrite get_compose in Hget. simpl in Hget.
  destruct (add d !! o) as [a|] eqn:Ha; [done|].
  destruct (contains_with_daa_score (remove d) o (block_daa_score e)) eqn:Hc.
  - apply contains_with_daa_score_spec in Hc as (r & Hr & Hdaa).
    assert (r = e) as -> by (apply Hag; [by apply (valid_remove v d Hv)|done]).
    eexists. split; [done|]. split.
    + apply valid_pvalid. intros o'. simpl. destruct (Hp o') as (V1 & V2 & V3).
      destruct (decide (o' = o)) as [->|];
        [rewrite lookup_delete_eq, Ha|by rewrite lookup_delete_ne].
      unfold pvalid. split_and!; discriminate.
    + intros o'. rewrite !get_compose. simpl. case_decide as Ho.
      * subst o'. rewrite lookup_delete_eq, Ha. by apply (valid_remove v d Hv).
      * by rewrite lookup_delete_ne.
  - eexists. split; [done|]. split.
    + apply valid_pvalid. intros o'. simpl. destruct (Hp o') as (V1 & V2 & V3).
      destruct (decide (o' = o)) as [->|]; [rewrite lookup_insert_eq|by rewrite lookup_insert_ne].
      unfold pvalid. split_and!; [done| |].
      * intros x [=<-]. destruct (remove d !! o); eauto.
      * intros x y [=<-] Hy Heq. apply not_true_iff_false in Hc. apply Hc.
        apply contains_with_daa_score_spec. eauto.
    + intros o'. rewrite !get_compose. simpl. case_decide as Ho.
      * subst o'. by rewrite lookup_insert_eq.
      * by rewrite lookup_insert_ne.
Qed.

(** ** The two loops of [add_transaction] *)
Lemma remove_loop_view `{!UtxoView V} (v : V) (l : list (TransactionOutpoint * UtxoEntry)) d :
  valid v d -> NoDup l.*1 -> (forall o e, (o, e) ∈ l -> get (compose v d) o = Some e) ->
  exists d', stm_for (fun oe => remove_entry oe.1 oe.2) l d = (Ok tt, d') /\ valid v d' /\
    forall o, get (compose v d') o = if decide (o ∈ l.*1) then None else get (compose v d) o.
Proof.
  revert d. induction l as [|[o e] l IH]; intros d Hv Hnd Hl; simpl in *.
  { by exists d. }
  apply NoDup_cons in Hnd as [Hno Hnd].
  destruct (remove_entry_view v d o e Hv) as (d1 & E1 & Hv1 & Hg1); [apply Hl; left|].
  destruct (IH d1 Hv1 Hnd) as (d2 & E2 & Hv2 & Hg2).
  { intros o' e' Hin. rewrite Hg1, decide_False; [apply Hl; by right|].
    intros ->. apply Hno, list_elem_of_fmap. by exists (o, e'). }
  exists d2. unfold mbind, stm_bind. rewrite E1. split_and!; [done..|].
  intros o'. rewrite Hg2, Hg1. destruct (decide (o' = o)) as [->|Hne].
  - rewrite (decide_True (P := o ∈ o :: _)) by left. by case_decide.
  - apply decide_ext. rewrite elem_of_cons. naive_solver.
Qed.

Lemma add_loop_view `{!UtxoView V} (v : V) (l : list (TransactionOutpoint * UtxoEntry)) d :
  (forall o e, (o, e) ∈ l -> agrees v o e) ->
  valid v d -> NoDup l.*1 -> (forall o e, (o, e) ∈ l -> get (compose v d) o = None) ->
  exists d', stm_for (fun oe => add_entry oe.1 oe.2) l d = (Ok tt, d') /\ valid v d' /\
    forall o, get (compose v d') o =
      match (list_to_map l : UtxoCollection) !! o with
      | Some e => Some e | None => get (compose v d) o end.
Proof.
  revert d. induction l as [|[o e] l IH]; intros d Hgl Hv Hnd Hl; simpl in *.
  { exists d. split_and!; [done..|]. intros o. by rewrite lookup_empty. }
  apply NoDup_cons in Hnd as [Hno Hnd].
  destruct (add_entry_view v d o e) as (d1 & E1 & Hv1 & Hg1).
  { apply Hgl; left. } { done. } { eapply Hl; left. }
  destruct (IH d1) as (d2 & E2 & Hv2 & Hg2); [intros; apply Hgl; by right|done..| |].
  { intros o' e' Hin. rewrite Hg1, decide_False; [eapply Hl; by right|].
    intros ->. apply Hno, list_elem_of_fmap. by exists (o, e'). }
  exists d2. unfold mbind, stm_bind. rewrite E1. split_and!; [done..|].
  intros o'. rewrite Hg2, Hg1. destruct (decide (o' = o)) as [->|Hne].
  - rewrite lookup_insert_eq. by rewrite not_elem_of_list_to_map_1.
  - by rewrite lookup_insert_ne.
Qed.
End algebra.

Section composition.
Context `{!HashIter TransactionOutpoint UtxoEntry}.

(** [G] holds of entries that are determined by their outpoint and DAA score. *)
Definition versioned (G : TransactionOutpoint -> UtxoEntry -> Prop) : Prop :=
  forall o x y, G o x -> G o y -> block_daa_score x = block_daa_score y -> x = y.
Lemma with_diff_versions `{!UtxoView V, !ImmutableUtxoDiff D} G (v : V) (d1 : UtxoDiff) (d2 : D) :
  versioned G -> (forall o e, get v o = Some e -> G o e) -> (forall o e, added d2 !! o = Some e -> G o e) ->
  valid v d1 -> valid (compose v d1) d2 ->
  exists r, with_diff d1 d2 = Ok r /\ valid v r /\
    forall o, get (compose v r) o = get (compose (compose v d1) d2) o.
Proof.
  intros HG Hgv Hgd Hv1 Hv2.
  destruct (with_diff_pointwise d1 d2) as (r & Hr & Hpt).
  - intros o e2 e1 H2 H1. apply contains_with_daa_score_spec.
    pose proof (valid_remove _ _ Hv2 o e2 H2) as Hg. rewrite get_compose in Hg.
    simpl in Hg. rewrite H1 in Hg. destruct (add d1 !! o); naive_solver.
  - intros o e2 e1 H2 H1. apply contains_with_daa_score_spec.
    pose proof (valid_add _ _ Hv2 o e2 H2) as [Hg|[x Hx]].
    + rewrite get_compose in Hg. simpl in Hg. by rewrite H1 in Hg.
    + pose proof (valid_remove _ _ Hv2 o x Hx) as Hg. rewrite get_compose in Hg.
      simpl in Hg. rewrite H1 in Hg. naive_solver.
  - exists r. split; [done|]. rewrite !valid_pvalid in *.
    assert (forall o, pvalid (get v o) (add r !! o) (remove r !! o) /\
      get (compose v r) o = get (compose (compose v d1) d2) o) as H.
    { intros o. specialize (Hv1 o). specialize (Hv2 o). rewrite get_compose in Hv2.
      simpl in *. rewrite !get_compose. simpl.
      destruct (Hpt o) as [-> ->].
      apply (wd_point (G o)); eauto. }
    split; intros o; apply H.
Qed.
Lemma with_diff_compose_ok `{!UtxoView V, !ImmutableUtxoDiff D} origin (v : V) (d1 : UtxoDiff) (d2 : D) :
  genuine_view origin v -> genuine_diff origin d2 ->
  valid v d1 -> valid (compose v d1) d2 ->
  exists r, with_diff d1 d2 = Ok r /\ valid v r /\
    forall o, get (compose v r) o = get (compose (compose v d1) d2) o.
Proof. intros Hv Hd. apply (with_diff_versions (genuine origin)); [|done..]. intros o x y. apply genuine_unique. Qed.

(** Two diffs of one view never trip a rule of [diff_from]. *)
Lemma valid_diff_from_accepts `{!UtxoView V} (v : V) (d1 d2 : UtxoDiff) :
  valid v d1 -> valid v d2 -> diff_from_accepts d1 d2.
Proof.
  intros Hv1 Hv2 o. pose proof (proj1 (valid_pvalid _ _) Hv1 o) as (V1 & V2 & V3).
  pose proof (proj1 (valid_pvalid _ _) Hv2 o) as (W1 & W2 & W3). simpl in *.
  split_and!; intros e1 e2 H1 H2.
  - rewrite H1 in *. rewrite H2 in *. specialize (V1 _ eq_refl). rewrite V1 in *.
    destruct (W2 _ eq_refl) as [?|[x Hx]]; [done|]. pose proof (W1 _ Hx). split; [|congruence].
    pose proof (W3 _ _ eq_refl Hx). congruence.
  - rewrite H1 in *. rewrite H2 in *. specialize (W1 _ eq_refl). rewrite W1 in *.
    destruct (V2 _ eq_refl) as [?|[x Hx]]; [done|]. pose proof (V1 _ Hx). split; [|congruence].
    pose proof (V3 _ _ eq_refl Hx). congruence.
  - specialize (V1 _ H1). specialize (W1 _ H2). congruence.
Qed.

Lemma valid_same_removed `{!UtxoView V} (v : V) (d1 d2 : UtxoDiff) o :
  valid v d1 -> valid v d2 -> is_Some (common (add d1 !! o) (add d2 !! o)) ->
  is_Some (remove d1 !! o) <-> is_Some (remove d2 !! o).
Proof.
  intros Hv1 Hv2. unfold common.
  destruct (add d1 !! o) eqn:E1, (add d2 !! o) eqn:E2; try (by intros [? ?]). intros _.
  pose proof (valid_add _ _ Hv1 o _ E1) as A1. pose proof (valid_add _ _ Hv2 o _ E2) as A2.
  pose proof (valid_remove _ _ Hv1 o) as R1. pose proof (valid_remove _ _ Hv2 o) as R2. simpl in *.
  split; intros [x Hx]; [specialize (R1 _ Hx)|specialize (R2 _ Hx)]; naive_solver.
Qed.

Lemma df_add_from a1 r1 a2 r2 e :
  df_add a1 r1 a2 r2 = Some e -> a2 = Some e \/ r1 = Some e.
Proof.
  unfold df_add, only. destruct a2, a1, r1, r2; simpl; repeat case_match; intros [=]; subst; eauto.
Qed.

(** A view has one well-formed diff leading to a given view. *)
Lemma valid_canonical `{!UtxoView V} (v : V) (d d' : UtxoDiff) :
  valid v d -> valid v d' -> (forall o, get (compose v d) o = get (compose v d') o) -> d = d'.
Proof.
  intros Hv Hv' Hg.
  assert (forall o, add d !! o = add d' !! o /\ remove d !! o = remove d' !! o) as Heq.
  { intros o. apply (canonical_point (get v o)).
    - apply (proj1 (valid_pvalid v d) Hv o).
    - apply (proj1 (valid_pvalid v d') Hv' o).
    - specialize (Hg o). by rewrite !get_compose in Hg. }
  destruct d, d'; simpl in *. f_equal; apply map_eq; intros o; apply Heq.
Qed.

Lemma valid_reversed `{!UtxoView V} (v : V) (d : UtxoDiff) :
  valid v d -> valid (compose v d) (as_reversed d) /\
  forall o, get (compose (compose v d) (as_reversed d)) o = get v o.
Proof.
  intros Hv. pose proof (proj1 (valid_pvalid _ _) Hv) as Hp. split.
  - apply valid_pvalid. intros o. destruct (Hp o) as (V1 & V2 & V3). rewrite get_compose. simpl in *.
    unfold pvalid. destruct (add d !! o), (remove d !! o); naive_solver.
  - intros o. destruct (Hp o) as (V1 & V2 & V3). rewrite !get_compose. simpl in *.
    destruct (remove d !! o), (add d !! o); naive_solver.
Qed.
End composition.

(** The outpoints a populated transaction spends, with the entries it claims
    they hold, and the outpoints it creates. *)
Definition spent (t : PopulatedTransaction) : list (TransactionOutpoint * UtxoEntry) :=
  zip (previous_outpoint <$> inputs (ptx t)) (entries t).
Definition created (t : PopulatedTransaction) (daa : u64) : list (TransactionOutpoint * UtxoEntry) :=
  imap (created_entry (id (ptx t)) (is_coinbase (ptx t)) daa) (outputs (ptx t)).

Lemma created_nodup t daa : zlen (outputs (ptx t)) <= 2 ^ 32 -> NoDup (created t daa).*1.
Proof.
  unfold created, zlen. intros Hlen. apply NoDup_alt. intros i j o.
  rewrite !list_lookup_fmap, !list_lookup_imap.
  destruct (outputs (ptx t) !! i) eqn:Hi; [|done]. destruct (outputs (ptx t) !! j) eqn:Hj; [|done].
  apply lookup_lt_Some in Hi, Hj. simpl. intros [= <-]. intros [= Heq]. unfold wrap in Heq.
  rewrite !Z.mod_small in Heq by lia. lia.
Qed.

Section theorems.
Context `{!HashIter TransactionOutpoint UtxoEntry}.

Lemma add_transaction_ok `{!UtxoView V} (v : V) d t daa :
  valid v d ->
  length (inputs (ptx t)) = length (entries t) ->
  NoDup (previous_outpoint <$> inputs (ptx t)) ->
  (forall o e, (o, e) ∈ spent t -> get (compose v d) o = Some e) ->
  zlen (outputs (ptx t)) <= 2 ^ 32 ->
  (forall o e, (o, e) ∈ created t daa -> agrees v o e /\ get (compose v d) o = None) ->
  exists d', add_transaction t daa d = (Ok tt, d') /\ valid v d' /\
    forall o, get (compose v d') o =
      match (list_to_map (created t daa) : UtxoCollection) !! o with
      | Some e => Some e
      | None => if decide (o ∈ (spent t).*1) then None else get (compose v d) o
      end.
Proof.
  intros Hv Hlen Hnd Hin Hout Hnew.
  assert ((spent t).*1 = previous_outpoint <$> inputs (ptx t)) as Hsp.
  { unfold spent. rewrite fst_zip; [done|]. rewrite length_fmap. lia. }
  destruct (remove_loop_view v (spent t) d) as (d1 & E1 & Hv1 & Hg1); [done|by rewrite Hsp|done|].
  destruct (add_loop_view v (created t daa) d1) as (d2 & E2 & Hv2 & Hg2);
    [apply Hnew|done|by apply created_nodup| |].
  { intros o e Hoe. rewrite Hg1. case_decide; [done|]. by eapply Hnew. }
  exists d2. split_and!; [|done|intros o; rewrite Hg2, Hg1; done].
  unfold add_transaction, mbind, stm_bind.
  assert (length (inputs (ptx t)) = length (spent t)) as ->.
  { unfold spent. rewrite length_zip, length_fmap. lia. }
  rewrite (stm_for_seq _ (fun oe => remove_entry oe.1 oe.2) (spent t) 0 d).
  { by rewrite E1. }
  intros i [o e] Hi s. unfold spent in Hi. apply lookup_zip_with_Some in Hi as (o' & e' & [= -> ->] & Ho & He).
  rewrite list_lookup_fmap in Ho. apply fmap_Some in Ho as (inp & Hinp & ->).
  simpl. by rewrite (populated_input_ok t i inp e').
Qed.

(** C30. Sequential composition: when [d1] is a diff of the view [v] and [d2]
    a diff of the view [v] with [d1] applied, [with_diff] reports no error,
    its result is again a well-formed diff of [v], and applying the result
    once shows every outpoint as applying [d1] and then [d2]. *)
Theorem with_diff_composes `{!UtxoView V, !ImmutableUtxoDiff D} origin (v : V) (d1 : UtxoDiff) (d2 : D) :
  genuine_view origin v -> genuine_diff origin d2 ->
  valid v d1 -> valid (compose v d1) d2 ->
  exists r, with_diff d1 d2 = Ok r /\ valid v r /\
    forall o, get (compose v r) o = get (compose (compose v d1) d2) o.
Proof. apply with_diff_compose_ok. Qed.

(** C31. Difference: for two diffs of the same view, [diff_from] reports no
    error, and its result takes the view under the first diff to the view
    under the second; composing it back with [with_diff] gives exactly the
    second diff. *)
Theorem diff_from_roundtrip `{!UtxoView V} origin (v : V) (d1 d2 : UtxoDiff) :
  genuine_view origin v -> genuine_diff origin d1 -> genuine_diff origin d2 ->
  valid v d1 -> valid v d2 ->
  exists r, diff_from d1 d2 = Ok r /\ valid (compose v d1) r /\
    (forall o, get (compose (compose v d1) r) o = get (compose v d2) o) /\
    with_diff d1 r = Ok d2.
Proof.
  intros Hgv Hg1 Hg2 Hv1 Hv2.
  destruct (diff_from_pointwise d1 d2) as (r & Hr & Hpt).
  { by apply (valid_diff_from_accepts v). }
  { intros o. by apply (valid_same_removed v). }
  assert (forall o, pvalid (get (compose v d1) o) (add r !! o) (remove r !! o) /\
    get (compose (compose v d1) r) o = get (compose v d2) o) as H.
  { intros o. pose proof (proj1 (valid_pvalid _ _) Hv1 o) as P1.
    pose proof (proj1 (valid_pvalid _ _) Hv2 o) as P2. simpl in *. rewrite !get_compose. simpl.
    destruct (Hpt o) as [-> ->].
    apply (df_point (genuine origin o)); eauto using genuine_unique. }
  assert (valid (compose v d1) r) as Hvr by (apply valid_pvalid; intros o; apply H).
  exists r. split_and!; [done..|intros o; apply H|].
  destruct (with_diff_compose_ok origin v d1 r) as (r' & -> & Hvr' & Hgr'); [done| |done..|].
  - intros o e. simpl. destruct (Hpt o) as [-> _]. intros [He|He]%df_add_from; [by apply Hg2|].
    apply Hgv, (valid_remove _ _ Hv1 o e He).
  - f_equal. apply (valid_canonical v); [done..|]. intros o. by rewrite Hgr', (proj2 (H o)).
Qed.

(** Inversion: applying a diff and then its reversal restores the view,
    and the algebra knows it: [d] composed with its reversal is the empty
    diff. *)
Theorem with_diff_reversed_empty `{!UtxoView V} origin (v : V) (d : UtxoDiff) :
  genuine_view origin v -> valid v d ->
  (forall o, get (compose (compose v d) (as_reversed d)) o = get v o) /\
  with_diff d (as_reversed d) = Ok ∅.
Proof.
  intros Hgv Hv. destruct (valid_reversed v d Hv) as [Hvr Hgr]. split; [done|].
  destruct (with_diff_compose_ok origin v d (as_reversed d)) as (r & -> & Hv' & Hg'); [done| |done..|].
  - intros o e He. apply Hgv, (valid_remove _ _ Hv o e He).
  - f_equal. apply (valid_canonical v); [done| |].
    + split; intros o; simpl; try rewrite lookup_empty; try discriminate.
    + intros o. rewrite Hg', Hgr, get_compose. simpl. by rewrite !lookup_empty.
Qed.

(** Applying a transaction: when the inputs are distinct, their populated
    entries are what the composed view holds, and the outpoints the outputs
    create are unused, [add_transaction] succeeds, keeps the diff
    well-formed, and changes the view by exactly removing the spent
    outpoints and adding the created entries. *)
Theorem add_transaction_view `{!UtxoView V} origin (v : V) d t daa :
  genuine_view origin v -> valid v d ->
  length (inputs (ptx t)) = length (entries t) ->
  NoDup (previous_outpoint <$> inputs (ptx t)) ->
  (forall o e, (o, e) ∈ spent t -> get (compose v d) o = Some e) ->
  zlen (outputs (ptx t)) <= 2 ^ 32 ->
  (forall o e, (o, e) ∈ created t daa -> genuine origin o e /\ get (compose v d) o = None) ->
  exists d', add_transaction t daa d = (Ok tt, d') /\ valid v d' /\
    forall o, get (compose v d') o =
      match (list_to_map (created t daa) : UtxoCollection) !! o with
      | Some e => Some e
      | None => if decide (o ∈ (spent t).*1) then None else get (compose v d) o
      end.
Proof.
  intros Hgv Hv Hlen Hnd Hin Hout Hnew. apply add_transaction_ok; [done..|].
  intros o e Hoe. destruct (Hnew o e Hoe). split; [by eapply genuine_agrees|done].
Qed.

(** Errors of [with_diff_in_place] are exact: the state is untouched, and
    the reported outpoint really is removed twice (without [self] having
    re-added that version) or added twice (without [other] removing the
    existing version). *)
Theorem with_diff_error_exact `{!ImmutableUtxoDiff D} (self self' : UtxoDiff) (other : D) e :
  with_diff_in_place other self = (Err e, self') ->
  self' = self /\
  match e with
  | DuplicateRemovePoint o => exists e1 e2,
      remove self !! o = Some e1 /\ removed other !! o = Some e2 /\
      contains_with_daa_score (add self) o (block_daa_score e2) = false
  | DuplicateAddPoint o => exists e1 e2,
      add self !! o = Some e1 /\ added other !! o = Some e2 /\
      contains_with_daa_score (removed other) o (block_daa_score e1) = false
  | _ => False
  end.
Proof.
  unfold with_diff_in_place.
  destruct (intersects_with_rule (removed other) _ _) as [o|] eqn:E1.
  { intros [= <- <-]. apply intersects_with_rule_some in E1 as (e1 & e2 & H1 & H2 & H3).
    apply negb_true_iff in H3. eauto 6. }
  destruct (intersects_with_rule (added other) _ _) as [o|] eqn:E2.
  { intros [= <- <-]. apply intersects_with_rule_some in E2 as (e1 & e2 & H1 & H2 & H3).
    apply negb_true_iff in H3. eauto 6. }
  by repeat case_match.
Qed.
End theorems.

(** ** Concrete instances *)
Section witnesses.
#[local] Existing Instance map_to_list_iter.

Definition w_spk : ScriptPublicKey := {| spk_version := 0; spk_script := [32; 1] |}.
Definition w_entry (daa : u64) : UtxoEntry :=
  {| amount := 10; script_public_key := w_spk; block_daa_score := daa; is_coinbase_entry := false |}.
Definition w_out (t i : Z) : TransactionOutpoint := {| transaction_id := t; index := i |}.
Definition w_origin : TransactionOutpoint -> option (u64 * ScriptPublicKey * bool) :=
  fun _ => Some (10, w_spk, false).
(** The base set holds output (1,0); [w_d1] spends it and creates (2,0);
    [w_d2] spends (2,0) and accepts (1,0) again with a later DAA score. *)
Definition w_base : UtxoCollection := {[ w_out 1 0 := w_entry 5 ]}.
Definition w_d1 : UtxoDiff := {| add := {[ w_out 2 0 := w_entry 6 ]}; remove := {[ w_out 1 0 := w_entry 5 ]} |}.
Definition w_d2 : UtxoDiff := {| add := {[ w_out 1 0 := w_entry 7 ]}; remove := {[ w_out 2 0 := w_entry 6 ]} |}.
Definition w_d3 : UtxoDiff := {| add := {[ w_out 1 0 := w_entry 7 ]}; remove := {[ w_out 1 0 := w_entry 5 ]} |}.

Ltac concrete_lookup :=
  repeat match goal with
  | H : {[ _ := _ ]} !! _ = Some _ |- _ => apply lookup_singleton_Some in H as [? ?]
  end; simplify_eq.

Lemma w_genuine_base : genuine_view w_origin w_base.
Proof. intros o e. unfold get, UtxoCollection_view, w_base. intros H. by concrete_lookup. Qed.
Lemma w_valid1 : valid w_base w_d1.
Proof. split; intros; simpl in *; concrete_lookup; try done. left. by vm_compute. Qed.
Lemma w_valid3 : valid w_base w_d3.
Proof. split; intros; simpl in *; concrete_lookup; simplify_eq; try done. right. by eexists. Qed.
Lemma w_valid2 : valid (compose w_base w_d1) w_d2.
Proof. split; intros; simpl in *; concrete_lookup; try done. left. by vm_compute. Qed.
Lemma w_genuine d : d = w_d1 \/ d = w_d2 \/ d = w_d3 -> genuine_diff w_origin d.
Proof. intros [->|[->| ->]] o e; simpl; intros H; by concrete_lookup. Qed.

Lemma with_diff_composes_witness :
  exists r, with_diff w_d1 w_d2 = Ok r /\ valid w_base r /\
    forall o, get (compose w_base r) o = get (compose (compose w_base w_d1) w_d2) o.
Proof.
  apply (with_diff_composes w_origin); [apply w_genuine_base|apply w_genuine; auto|
    apply w_valid1|apply w_valid2].
Defined.

Lemma diff_from_roundtrip_witness :
  exists r, diff_from w_d1 w_d3 = Ok r /\ valid (compose w_base w_d1) r /\
    (forall o, get (compose (compose w_base w_d1) r) o = get (compose w_base w_d3) o) /\
    with_diff w_d1 r = Ok w_d3.
Proof.
  apply (diff_from_roundtrip w_origin); [apply w_genuine_base|apply w_genuine; auto|
    apply w_genuine; auto|apply w_valid1|apply w_valid3].
Defined.

Lemma with_diff_reversed_empty_witness :
  (forall o, get (compose (compose w_base w_d3) (as_reversed w_d3)) o = get w_base o) /\
  with_diff w_d3 (as_reversed w_d3) = Ok ∅.
Proof. apply (with_diff_reversed_empty w_origin); [apply w_genuine_base|apply w_valid3]. Defined.

(** A transaction spending (2,0) of the view under [w_d1] into one output. *)
Definition w_tx : PopulatedTransaction :=
  {| ptx := {| version := 0;
               inputs := [{| previous_outpoint := w_out 2 0; signature_script := []; sequence := 0;
                             sig_op_count := 1 |}];
               outputs := [{| value := 10; out_script_public_key := w_spk |}];
               lock_time := 0; subnetwork_id := SUBNETWORK_ID_NATIVE; gas := 0; payload := [];
               mass := 0; id := 3 |};
     entries := [w_entry 6] |}.

Lemma add_transaction_view_witness :
  exists d', add_transaction w_tx 8 w_d1 = (Ok tt, d') /\ valid w_base d' /\
    forall o, get (compose w_base d') o =
      match (list_to_map (created w_tx 8) : UtxoCollection) !! o with
      | Some e => Some e
      | None => if decide (o ∈ (spent w_tx).*1) then None else get (compose w_base w_d1) o
      end.
Proof.
  apply (add_transaction_view w_origin).
  - apply w_genuine_base.
  - apply w_valid1.
  - done.
  - apply NoDup_singleton.
  - intros o e H. apply list_elem_of_singleton in H as [= -> ->]. by vm_compute.
  - by vm_compute.
  - intros o e H. apply list_elem_of_singleton in H as [= -> ->]. split; by vm_compute.
Defined.

Lemma with_diff_error_exact_witness :
  with_diff_in_place w_d1 w_d1 = (Err (DuplicateRemovePoint (w_out 1 0)), w_d1) /\
  exists e1 e2, remove w_d1 !! w_out 1 0 = Some e1 /\ removed w_d1 !! w_out 1 0 = Some e2 /\
    contains_with_daa_score (add w_d1) (w_out 1 0) (block_daa_score e2) = false.
Proof.
  assert (with_diff_in_place w_d1 w_d1 = (Err (DuplicateRemovePoint (w_out 1 0)), w_d1)) as H
    by (by vm_compute).
  split; [exact H|].
  exact (proj2 (with_diff_error_exact w_d1 w_d1 w_d1 (DuplicateRemovePoint (w_out 1 0)) H)).
Defined.
End witnesses.
