(* ===== verification/Muhash.v ===== *)
(** * The UTXO-set commitment

    [crypto/muhash/src/lib.rs], a lattice-based homomorphic set hash (LtHash)
    of 1024 lanes of 16 bits, and its use for UTXO entries in
    [consensus/core/src/muhash.rs].

    An element is expanded to one vector of lanes by a keyed Blake2b in counter
    mode, and added to or subtracted from the state lane by lane modulo
    [2^16].  The theorems read the state as the sum of the vectors of the
    elements it holds: the order of the operations does not matter, removing
    undoes adding, [combine] is the union, and the published hash binds the
    state. *)
From stdpp Require Import strings.
From S2P Require Import Prelude Encode Tx Utxo.
#[local] Open Scope Z_scope.

Definition LTHASH_LANES : nat := 1024.
Definition SERIALIZED_MUHASH_SIZE : nat := 2048.
Definition EXPANSION_BLOCKS : nat := 64.
Definition MuHashElementHash : bytes := bytes_of_string "MuHashElement".
Definition MuHashFinalizeHash : bytes := bytes_of_string "MuHashFinalize".

Record MuHash := { lanes : list u16 }.
(** [MuHash::new] *)
Definition muhash_new : MuHash := {| lanes := repeat 0 LTHASH_LANES |}.

(** ** Elements *)
Section muhash.
Context `{Blake2b} {E : Type}.
Implicit Types (adding : bool) (data : bytes).

(** [u16::from_le_bytes([bytes[2 * j], bytes[2 * j + 1]])] *)
Definition le_u16 (b : bytes) (j : nat) : res E u16 :=
  x ← unwrap (b !! (2 * j)%nat);
  y ← unwrap (b !! (2 * j + 1)%nat);
  Ok (x + 256 * y).
(** The [wrapping_add] or [wrapping_sub] of one lane. *)
Definition step_lane adding (x v : u16) : u16 := wrap 16 (if adding then x + v else x - v).
Definition set_lane adding (l : list u16) (idx : nat) (v : u16) : res E (list u16) :=
  x ← unwrap (l !! idx);
  Ok (<[idx := step_lane adding x v]> l).
Definition accumulate_block adding (blk : nat) (b : bytes) (l : list u16) : res E (list u16) :=
  res_foldl (fun l j => v ← le_u16 b j; set_lane adding l (blk * 16 + j) v) l (seq 0 16).
Definition element_block data (blk : nat) : bytes :=
  as_bytes (finalize MuHashElementHash (write_u32 (Z.of_nat blk) ++ data)).
Definition accumulate data adding (l : list u16) : res E (list u16) :=
  res_foldl (fun l blk => accumulate_block adding blk (element_block data blk) l) l (seq 0 EXPANSION_BLOCKS).

Definition add_element (h : MuHash) data : res E MuHash :=
  l ← accumulate data true (lanes h); Ok {| lanes := l |}.
Definition remove_element (h : MuHash) data : res E MuHash :=
  l ← accumulate data false (lanes h); Ok {| lanes := l |}.

(** The streaming builder; dropping it before [finalize] panics. *)
Record MuHashElementBuilder := { b_buf : bytes; b_adding : bool; b_finalized : bool }.
Definition builder_new adding : MuHashElementBuilder := {| b_buf := []; b_adding := adding; b_finalized := false |}.
Definition builder_update data (b : MuHashElementBuilder) : MuHashElementBuilder :=
  {| b_buf := b_buf b ++ data; b_adding := b_adding b; b_finalized := b_finalized b |}.
Definition builder_drop (b : MuHashElementBuilder) : res E unit := rassert (b_finalized b).
Definition builder_finalize (b : MuHashElementBuilder) (h : MuHash) : res E MuHash :=
  let b := {| b_buf := b_buf b; b_adding := b_adding b; b_finalized := true |} in
  l ← accumulate (b_buf b) (b_adding b) (lanes h);
  _ ← builder_drop b;
  Ok {| lanes := l |}.

(** ** State *)
Definition combine (self other : MuHash) : MuHash :=
  {| lanes := zip_with (fun a b => wrap 16 (a + b)) (lanes self) (lanes other) |}.
(** Lane [i] goes to the bytes [2 * i .. 2 * i + 2] of an array of the
    serialized size. *)
Definition muhash_to_bytes (h : MuHash) : bytes := concat (map (digits 256 2) (lanes h)).
Definition muhash_from_bytes (b : bytes) : res E MuHash :=
  l ← res_mapM (le_u16 b) (seq 0 LTHASH_LANES); Ok {| lanes := l |}.
Definition muhash_finalize (h : MuHash) : Hash := finalize MuHashFinalizeHash (muhash_to_bytes h).

(** ** UTXO entries *)
Definition write_utxo (entry : UtxoEntry) (outpoint : TransactionOutpoint) (b : MuHashElementBuilder) : MuHashElementBuilder :=
  foldl (fun b d => builder_update d b) b
    [as_bytes (transaction_id outpoint); digits 256 4 (index outpoint);
     digits 256 8 (block_daa_score entry); digits 256 8 (amount entry);
     write_bool (is_coinbase_entry entry);
     digits 256 2 (spk_version (script_public_key entry)); write_var_bytes (spk_script (script_public_key entry))].
Definition add_utxo (h : MuHash) (outpoint : TransactionOutpoint) (entry : UtxoEntry) : res E MuHash :=
  builder_finalize (write_utxo entry outpoint (builder_new true)) h.
Definition remove_utxo (h : MuHash) (outpoint : TransactionOutpoint) (entry : UtxoEntry) : res E MuHash :=
  builder_finalize (write_utxo entry outpoint (builder_new false)) h.
Definition muhash_add_transaction (h : MuHash) (tx : PopulatedTransaction) (daa : u64) : res E MuHash :=
  h ← res_foldl (fun h i => '(input, entry) ← populated_input tx i; remove_utxo h (previous_outpoint input) entry)
        h (seq 0 (length (inputs (ptx tx))));
  res_foldl (fun h oe => add_utxo h oe.1 oe.2) h
    (imap (created_entry (id (ptx tx)) (is_coinbase (ptx tx)) daa) (outputs (ptx tx))).
Definition from_transaction (tx : PopulatedTransaction) (daa : u64) : res E MuHash :=
  muhash_add_transaction muhash_new tx daa.
Definition from_utxo (outpoint : TransactionOutpoint) (entry : UtxoEntry) : res E MuHash :=
  add_utxo muhash_new outpoint entry.
End muhash.

(** ** The lanes of an element *)
Definition state_ok (h : MuHash) : Prop := length (lanes h) = LTHASH_LANES /\ Forall (inW 16) (lanes h).
Lemma state_ok_new : state_ok muhash_new.
Proof. split; [done|]. apply Forall_forall. intros x Hx. apply list_elem_of_In, repeat_spec in Hx as ->. by split. Qed.

Section elements.
Context `{Blake2b} {E : Type}.

(** The value an element adds to lane [k]. *)
Definition lane (data : bytes) (k : nat) : Z :=
  let b := element_block data (k / 16) in
  nth (2 * (k mod 16)) b 0 + 256 * nth (2 * (k mod 16) + 1) b 0.

Lemma element_block_length data blk : length (element_block data blk) = 32%nat.
Proof. unfold element_block, as_bytes. by rewrite length_rev, length_digits. Qed.
Lemma nth_lt (l : list Z) i : (i < length l)%nat -> l !! i = Some (nth i l 0).
Proof. intros Hi. destruct (nth_lookup_or_length l i 0); [done|lia]. Qed.
Lemma le_u16_ok b j : (2 * j + 1 < length b)%nat -> le_u16 (E:=E) b j = Ok (nth (2 * j) b 0 + 256 * nth (2 * j + 1) b 0).
Proof. intros Hj. unfold le_u16. rewrite !nth_lt by lia. done. Qed.

(** A loop that updates the lanes [p .. p + n]. *)
Lemma fold_set_lane adding (g : nat -> res E Z) w p n l :
  (forall j, (j < n)%nat -> g j = Ok (w j)) -> (p + n <= length l)%nat ->
  exists l', res_foldl (fun l j => v ← g j; set_lane adding l (p + j) v) l (seq 0 n) = Ok l' /\ length l' = length l /\
    forall k, l' !! k = if decide (p <= k < p + n)%nat then (fun x => step_lane adding x (w (k - p)%nat)) <$> l !! k else l !! k.
Proof.
  induction n as [|n IH]; intros Hg Hn.
  { exists l. split_and!; [done..|]. intros k. by rewrite decide_False by lia. }
  destruct IH as (l1 & Hf & Hlen & Hl1); [intros j Hj; apply Hg; lia|lia|].
  rewrite seq_S, res_foldl_app, Hf. cbn [mbind res_bind res_foldl plus]. rewrite Hg by lia. cbn [mbind res_bind].
  unfold set_lane. destruct (lookup_lt_is_Some_2 l (p + n)) as [x Hx]; [lia|].
  rewrite Hl1, decide_False, Hx by lia. cbn [unwrap mbind res_bind].
  eexists. split; [done|]. split; [by rewrite length_insert|]. intros k.
  destruct (decide (k = p + n)%nat) as [->|Hk].
  - rewrite list_lookup_insert_eq, decide_True, Hx by lia. simpl. do 2 f_equal. f_equal. lia.
  - rewrite list_lookup_insert_ne, Hl1 by done. apply decide_ext. lia.
Qed.

Lemma accumulate_ok data adding l : length l = LTHASH_LANES ->
  exists l', accumulate (E:=E) data adding l = Ok l' /\ length l' = LTHASH_LANES /\
    forall k x, l !! k = Some x -> l' !! k = Some (step_lane adding x (lane data k)).
Proof.
  intros Hl. unfold accumulate.
  destruct (res_foldl_ind (fun l blk => accumulate_block (E:=E) adding blk (element_block data blk) l)
    (fun ds l' => length l' = LTHASH_LANES /\
       forall k x, l !! k = Some x -> l' !! k = Some (if decide (k / 16 < length ds)%nat then step_lane adding x (lane data k) else x))
    l (seq 0 EXPANSION_BLOCKS)) as (l' & Hf & Hlen & Hl').
  - done.
  - intros ds blk rest l1 Heq [Hlen Hl1].
    assert (blk = length ds /\ (blk < 64)%nat) as [-> Hb].
    { assert (seq 0 EXPANSION_BLOCKS !! length ds = Some blk) as Hs by (rewrite Heq, lookup_app_r, Nat.sub_diag by lia; done).
      apply lookup_seq in Hs. unfold EXPANSION_BLOCKS in Hs. lia. }
    set (b := element_block data (length ds)).
    destruct (fold_set_lane adding (le_u16 (E:=E) b) (fun j => nth (2 * j) b 0 + 256 * nth (2 * j + 1) b 0) (length ds * 16) 16 l1)
      as (l2 & Hf & Hlen2 & Hl2).
    { intros j Hj. apply le_u16_ok. unfold b. rewrite element_block_length. lia. }
    { rewrite Hlen. unfold LTHASH_LANES. lia. }
    exists l2. split; [done|]. split; [lia|]. intros k x Hk. rewrite Hl2, (Hl1 k x Hk), length_app. cbn [length].
    pose proof (Nat.div_mod_eq k 16). pose proof (Nat.mod_upper_bound k 16).
    destruct (decide (length ds * 16 <= k < length ds * 16 + 16)%nat).
    + assert (k / 16 = length ds)%nat as Hdiv by lia. rewrite decide_False, decide_True by lia. simpl. unfold lane, b.
      replace (k - length ds * 16)%nat with (k mod 16)%nat by lia. by rewrite Hdiv.
    + f_equal. apply decide_ext. lia.
  - exists l'. split; [done|]. split; [done|]. intros k x Hk. rewrite (Hl' k x Hk), length_seq, decide_True; [done|].
    apply lookup_lt_Some in Hk. apply Nat.Div0.div_lt_upper_bound. unfold EXPANSION_BLOCKS, LTHASH_LANES in *. lia.
Qed.
End elements.

(** ** The state as a vector of sums

    [holds h f]: lane [k] of [h] is [f k] modulo [2^16]. *)
Record holds (h : MuHash) (f : nat -> Z) : Prop := {
  holds_length : length (lanes h) = LTHASH_LANES;
  holds_lane k : (k < LTHASH_LANES)%nat -> lanes h !! k = Some (wrap 16 (f k));
}.
Lemma holds_ok h f : holds h f -> state_ok h.
Proof.
  intros [Hl Hf]. split; [done|]. apply Forall_lookup. intros k x Hx. apply lookup_lt_Some in Hx as Hk.
  rewrite Hf in Hx by lia. injection Hx as <-. by apply wrap_range.
Qed.
Lemma holds_self h : state_ok h -> holds h (fun k => nth k (lanes h) 0).
Proof.
  intros [Hl Hw]. split; [done|]. intros k Hk. rewrite nth_lt by lia.
  rewrite wrap_small; [done|]. eapply Forall_lookup_1; [exact Hw|]. by apply nth_lt; lia.
Qed.
Lemma holds_new : holds muhash_new (fun _ => 0).
Proof.
  split; [done|]. intros k Hk. unfold muhash_new. cbn [lanes]. rewrite nth_lt by (by rewrite repeat_length).
  by rewrite nth_repeat.
Qed.
(** Equal sums modulo [2^16] mean equal states. *)
Lemma holds_eq h g f : holds h f -> holds g f -> h = g.
Proof.
  intros [Hl Hh] [Hl' Hg]. destruct h as [l], g as [l']. f_equal. apply list_eq. intros k. cbn [lanes] in *.
  destruct (decide (k < LTHASH_LANES)%nat) as [Hk|Hk]; [by rewrite Hh, Hg|].
  rewrite !lookup_ge_None_2 by lia. done.
Qed.
Lemma holds_ext h f g : holds h f -> (forall k, (k < LTHASH_LANES)%nat -> wrap 16 (f k) = wrap 16 (g k)) -> holds h g.
Proof. intros [Hl Hf] Hfg. split; [done|]. intros k Hk. by rewrite Hf, Hfg. Qed.
Lemma holds_combine h g f f' : holds h f -> holds g f' -> holds (combine h g) (fun k => f k + f' k).
Proof.
  intros [Hl Hh] [Hl' Hg]. split.
  - unfold combine. cbn [lanes]. rewrite length_zip_with. lia.
  - intros k Hk. unfold combine. cbn [lanes]. rewrite lookup_zip_with, Hh, Hg by done. cbn. f_equal.
    unfold wrap. by rewrite <- Zplus_mod.
Qed.

Section updates.
Context `{Blake2b} {E : Type}.
Implicit Types (h : MuHash) (data : bytes).

Lemma holds_accumulate data adding h f : holds h f ->
  exists l, accumulate (E:=E) data adding (lanes h) = Ok l /\
    holds {| lanes := l |} (fun k => if adding then f k + lane data k else f k - lane data k).
Proof.
  intros [Hl Hf]. destruct (accumulate_ok (E:=E) data adding (lanes h) Hl) as (l & Hacc & Hlen & Hk).
  exists l. split; [done|]. split; [done|]. intros k Hlt. cbn [lanes]. rewrite (Hk k _ (Hf k Hlt)). f_equal.
  unfold step_lane, wrap. destruct adding; [by rewrite Zplus_mod_idemp_l|by rewrite Zminus_mod_idemp_l].
Qed.
Lemma holds_add h f data : holds h f ->
  exists h', add_element (E:=E) h data = Ok h' /\ holds h' (fun k => f k + lane data k).
Proof.
  intros Hh. destruct (holds_accumulate data true h f Hh) as (l & Hl & Hf). unfold add_element. rewrite Hl. eauto.
Qed.
Lemma holds_remove h f data : holds h f ->
  exists h', remove_element (E:=E) h data = Ok h' /\ holds h' (fun k => f k - lane data k).
Proof.
  intros Hh. destruct (holds_accumulate data false h f Hh) as (l & Hl & Hf). unfold remove_element. rewrite Hl. eauto.
Qed.

(** What a UTXO entry feeds to the builder. *)
Definition utxo_bytes (o : TransactionOutpoint) (e : UtxoEntry) : bytes := b_buf (write_utxo e o (builder_new true)).
Definition utxo_lane (k : nat) (o : TransactionOutpoint) (e : UtxoEntry) : Z := lane (utxo_bytes o e) k.
Lemma holds_builder adding h f o e : holds h f ->
  exists h', builder_finalize (E:=E) (write_utxo e o (builder_new adding)) h = Ok h' /\
    holds h' (fun k => if adding then f k + utxo_lane k o e else f k - utxo_lane k o e).
Proof.
  intros Hh. destruct (holds_accumulate (utxo_bytes o e) adding h f Hh) as (l & Hl & Hf).
  exists {| lanes := l |}. split; [|done]. unfold builder_finalize. cbn [b_buf b_adding b_finalized builder_drop rassert].
  change (b_buf (write_utxo e o (builder_new adding))) with (utxo_bytes o e).
  change (b_adding (write_utxo e o (builder_new adding))) with adding. by rewrite Hl.
Qed.

(** ** Transactions *)
(** The change of a sum over the UTXO set when [t] is applied. *)
Definition tx_delta (f : TransactionOutpoint -> UtxoEntry -> Z) (t : PopulatedTransaction) (daa : u64) : Z :=
  sum_of (fun oe => f oe.1 oe.2) (created t daa) - sum_of (fun oe => f oe.1 oe.2) (spent t).

Lemma holds_adds h f l : holds h f ->
  exists h', res_foldl (fun h oe => add_utxo (E:=E) h oe.1 oe.2) h l = Ok h' /\
    holds h' (fun k => f k + sum_of (fun oe => utxo_lane k oe.1 oe.2) l).
Proof.
  revert h f. induction l as [|[o e] l IH]; intros h f Hh; cbn [res_foldl].
  { exists h. split; [done|]. eapply holds_ext; [exact Hh|]. intros k _. simpl. f_equal. lia. }
  destruct (holds_builder true h f o e Hh) as (h1 & Hf & H1). change (add_utxo h (o, e).1 (o, e).2) with (builder_finalize (E:=E) (write_utxo e o (builder_new true)) h). rewrite Hf. cbn [mbind res_bind].
  destruct (IH h1 _ H1) as (h2 & -> & H2). exists h2. split; [done|]. eapply holds_ext; [exact H2|]. intros k _.
  rewrite sum_of_cons. cbn [fst snd]. f_equal. lia.
Qed.
Lemma holds_removes h f t n : length (inputs (ptx t)) = length (entries t) -> (n <= length (entries t))%nat -> holds h f ->
  exists h', res_foldl (fun h i => '(input, entry) ← populated_input t i; remove_utxo (E:=E) h (previous_outpoint input) entry)
      h (seq 0 n) = Ok h' /\ holds h' (fun k => f k - sum_of (fun oe => utxo_lane k oe.1 oe.2) (take n (spent t))).
Proof.
  intros Hlen. induction n as [|n IH]; intros Hn Hh.
  { exists h. split; [done|]. eapply holds_ext; [exact Hh|]. intros k _. rewrite take_0. simpl. f_equal. lia. }
  destruct IH as (h1 & Hf & H1); [lia|done|]. rewrite seq_S, res_foldl_app, Hf. cbn [mbind res_bind res_foldl plus].
  destruct (lookup_lt_is_Some_2 (inputs (ptx t)) n) as [i Hi]; [lia|].
  destruct (lookup_lt_is_Some_2 (entries t) n) as [e He]; [lia|].
  rewrite (populated_input_ok t n i e) by done. cbn [mbind res_bind].
  destruct (holds_builder false h1 _ (previous_outpoint i) e H1) as (h2 & Hb & H2). unfold remove_utxo. rewrite Hb.
  exists h2. split; [done|]. eapply holds_ext; [exact H2|]. intros k _.
  assert (spent t !! n = Some (previous_outpoint i, e)) as Hs.
  { unfold spent. apply lookup_zip_with_Some. exists (previous_outpoint i), e. by rewrite list_lookup_fmap, Hi. }
  rewrite (take_S_r _ _ _ Hs), sum_of_app, sum_of_cons. cbn [fst snd sum_of foldr]. f_equal. lia.
Qed.
Lemma holds_transaction h f t daa : length (inputs (ptx t)) = length (entries t) -> holds h f ->
  exists h', muhash_add_transaction (E:=E) h t daa = Ok h' /\ holds h' (fun k => f k + tx_delta (utxo_lane k) t daa).
Proof.
  intros Hlen Hh. unfold muhash_add_transaction.
  destruct (holds_removes h f t (length (inputs (ptx t))) Hlen) as (h1 & -> & H1); [lia|done|]. cbn [mbind res_bind].
  destruct (holds_adds h1 _ (created t daa) H1) as (h2 & Hf & H2).
  exists h2. split; [done|]. eapply holds_ext; [exact H2|]. intros k _. unfold tx_delta.
  rewrite take_ge; [f_equal; lia|]. unfold spent. rewrite length_zip_with, length_fmap. lia.
Qed.

(** [h] commits to the UTXO set [U]. *)
Definition commits (h : MuHash) (U : UtxoCollection) : Prop := holds h (fun k => msum (utxo_lane k) U).
End updates.

(** ** Sequences of operations *)
#[local] Set Warnings "-register-all".
Inductive SetOp := AddOp (data : bytes) | RemoveOp (data : bytes) | CombineOp (ops : list SetOp).
Section operations.
Context `{Blake2b} {E : Type}.

(** Runs a sequence of operations on a state; [CombineOp] builds a second
    state from the empty one and combines it, as the parallel reduction does. *)
Fixpoint run_op (h : MuHash) (op : SetOp) : res E MuHash :=
  match op with
  | AddOp d => add_element h d
  | RemoveOp d => remove_element h d
  | CombineOp ops =>
      other ← (fix go h ops := match ops with [] => Ok h | op :: ops => h ← run_op h op; go h ops end) muhash_new ops;
      Ok (combine h other)
  end.
Definition run_ops (h : MuHash) (ops : list SetOp) : res E MuHash := res_foldl run_op h ops.

(** How many more times [d] is added than removed. *)
Fixpoint net1 (d : bytes) (op : SetOp) : Z :=
  match op with
  | AddOp x => if decide (x = d) then 1 else 0
  | RemoveOp x => if decide (x = d) then -1 else 0
  | CombineOp ops => (fix go ops := match ops with [] => 0 | op :: ops => net1 d op + go ops end) ops
  end.
Definition net (ops : list SetOp) (d : bytes) : Z := sum_of (net1 d) ops.

(** The operations as a flat list of signed elements. *)
Fixpoint flat1 (op : SetOp) : list (bool * bytes) :=
  match op with
  | AddOp d => [(true, d)]
  | RemoveOp d => [(false, d)]
  | CombineOp ops => (fix go ops := match ops with [] => [] | op :: ops => flat1 op ++ go ops end) ops
  end.
Definition flat (ops : list SetOp) : list (bool * bytes) := concat (map flat1 ops).
Definition signed (f : bytes -> Z) (p : bool * bytes) : Z := if p.1 then f p.2 else - f p.2.
Definition flat_net (l : list (bool * bytes)) (d : bytes) : Z := sum_of (signed (fun x => if decide (x = d) then 1 else 0)) l.

Lemma SetOp_ind' (P : SetOp -> Prop) : (forall d, P (AddOp d)) -> (forall d, P (RemoveOp d)) ->
  (forall ops, Forall P ops -> P (CombineOp ops)) -> forall op, P op.
Proof.
  intros Ha Hr Hc. fix IH 1. intros [d|d|ops]; [apply Ha|apply Hr|]. apply Hc.
  induction ops as [|op ops IHops]; constructor; [apply IH|apply IHops].
Qed.
Lemma flat1_combine ops : flat1 (CombineOp ops) = flat ops.
Proof. induction ops as [|op ops IH]; [done|]. cbn in *. by rewrite IH. Qed.
Lemma net1_combine d ops : net1 d (CombineOp ops) = net ops d.
Proof. unfold net. induction ops as [|op ops IH]; [done|]. rewrite sum_of_cons, <- IH. done. Qed.
Lemma net1_flat d op : net1 d op = flat_net (flat1 op) d.
Proof.
  induction op as [x|x|ops IH] using SetOp_ind'; [cbn; lia| |].
  { cbn. destruct (decide (x = d)); lia. }
  rewrite flat1_combine, net1_combine. unfold net, flat, flat_net in *.
  induction IH as [|op ops Hop _ IH]; [done|]. cbn [map concat]. by rewrite sum_of_app, sum_of_cons, IH, Hop.
Qed.
Lemma net_flat ops d : net ops d = flat_net (flat ops) d.
Proof.
  unfold net, flat, flat_net. induction ops as [|op ops IH]; [done|]. cbn [map concat]. rewrite sum_of_app, sum_of_cons, IH.
  by rewrite net1_flat.
Qed.
Lemma run_combine h ops : run_op h (CombineOp ops) = (other ← run_ops muhash_new ops; Ok (combine h other)).
Proof.
  cbn [run_op]. f_equal. unfold run_ops. generalize muhash_new. induction ops as [|op ops IH]; intros g; [done|]. cbn [res_foldl].
  destruct (run_op g op); [apply IH|done..].
Qed.

(** A list of signed elements, none of which is left over, sums to zero. *)
Lemma signed_cancel (f : bytes -> Z) l : (forall d, flat_net l d = 0) -> sum_of (signed f) l = 0.
Proof.
  remember (length l) as n eqn:Hn. revert l Hn. induction n as [n IH] using lt_wf_ind. intros l -> Hnet.
  destruct l as [|[s d] l]; [done|].
  assert ((negb s, d) ∈ l) as Hin.
  { destruct (decide ((negb s, d) ∈ l)) as [|Hno]; [done|]. exfalso. specialize (Hnet d). unfold flat_net in Hnet.
    rewrite sum_of_cons in Hnet. unfold signed at 1 in Hnet. cbn [fst snd] in Hnet. rewrite decide_True in Hnet by done.
    assert (forall t, t ∈ l -> if s then 0 <= signed (fun x => if decide (x = d) then 1 else 0) t
                           else signed (fun x => if decide (x = d) then 1 else 0) t <= 0) as Hsign.
    { intros [t x] Ht. unfold signed. cbn [fst snd]. destruct (decide (x = d)) as [->|]; [|by destruct s, t].
      destruct s, t; try lia; by destruct Hno. }
    destruct s.
    - assert (0 <= sum_of (signed (fun x => if decide (x = d) then 1 else 0)) l); [|lia].
      apply sum_of_nonneg, Forall_forall. intros t Ht. by apply (Hsign t).
    - assert (0 <= sum_of (fun t => - signed (fun x => if decide (x = d) then 1 else 0) t) l); [|rewrite sum_of_opp in *; lia].
      apply sum_of_nonneg, Forall_forall. intros t Ht. pose proof (Hsign t Ht). lia. }
  apply list_elem_of_split in Hin as (l1 & l2 & ->).
  assert (forall g, sum_of (signed g) ((s, d) :: l1 ++ (negb s, d) :: l2) = sum_of (signed g) (l1 ++ l2)) as Hsum.
  { intros g. rewrite sum_of_cons, !sum_of_app, sum_of_cons. unfold signed at 1 3. destruct s; cbn; lia. }
  rewrite Hsum. apply (IH (length (l1 ++ l2))); [cbn; rewrite !length_app; cbn; lia|done|].
  intros x. specialize (Hnet x). unfold flat_net in *. by rewrite Hsum in Hnet.
Qed.

Lemma holds_op op : forall h f, holds h f ->
  exists h', run_op h op = Ok h' /\ holds h' (fun k => f k + sum_of (signed (fun d => lane d k)) (flat1 op)).
Proof.
  induction op as [d|d|ops IH] using SetOp_ind'; intros h f Hh.
  - destruct (holds_add (E:=E) h f d Hh) as (h' & ? & Hf). exists h'. split; [done|]. eapply holds_ext; [exact Hf|].
    intros k _. cbn. f_equal. lia.
  - destruct (holds_remove (E:=E) h f d Hh) as (h' & ? & Hf). exists h'. split; [done|]. eapply holds_ext; [exact Hf|].
    intros k _. cbn. f_equal. lia.
  - assert (forall g f', holds g f' -> exists g', run_ops g ops = Ok g' /\
      holds g' (fun k => f' k + sum_of (signed (fun d => lane d k)) (flat ops))) as Hops.
    { induction IH as [|op ops Hop _ IHo]; intros g f' Hg.
      { exists g. split; [done|]. eapply holds_ext; [exact Hg|]. intros k _. cbn. f_equal. lia. }
      destruct (Hop g f' Hg) as (g1 & Hg1 & H1). destruct (IHo g1 _ H1) as (g2 & Hg2 & H2).
      exists g2. unfold run_ops in *. cbn [res_foldl]. rewrite Hg1. split; [done|]. eapply holds_ext; [exact H2|].
      intros k _. unfold flat. cbn [map concat]. rewrite sum_of_app. f_equal. lia. }
    destruct (Hops muhash_new _ holds_new) as (g & Hg & Hf). rewrite run_combine, Hg. eexists. split; [done|].
    eapply holds_ext; [exact (holds_combine h g f _ Hh Hf)|]. intros k _. by rewrite flat1_combine.
Qed.
Lemma holds_ops ops : forall h f, holds h f ->
  exists h', run_ops h ops = Ok h' /\ holds h' (fun k => f k + sum_of (signed (fun d => lane d k)) (flat ops)).
Proof.
  unfold run_ops, flat. induction ops as [|op ops IH]; intros h f Hh; cbn [res_foldl map concat].
  { exists h. split; [done|]. eapply holds_ext; [exact Hh|]. intros k _. cbn. f_equal. lia. }
  destruct (holds_op op h f Hh) as (h1 & -> & H1). cbn [mbind res_bind]. destruct (IH h1 _ H1) as (h2 & -> & H2).
  exists h2. split; [done|]. eapply holds_ext; [exact H2|]. intros k _. rewrite sum_of_app. f_equal. lia.
Qed.

(** ** Theorems *)

(** C28. The state depends only on the multiset it holds: two sequences of
    additions, removals and combinations (in any order and any tree of
    combinations) from the same state end in the same state whenever every
    element is added, net of its removals, equally often in both. *)
Theorem muhash_multiset h ops ops' : state_ok h -> (forall d, net ops d = net ops' d) ->
  exists h', run_ops h ops = Ok h' /\ run_ops h ops' = Ok h' /\ state_ok h'.
Proof.
  intros Hh Hnet. pose proof (holds_self h Hh) as Hs.
  destruct (holds_ops ops h _ Hs) as (h1 & -> & H1). destruct (holds_ops ops' h _ Hs) as (h2 & -> & H2).
  exists h1. split; [done|]. split; [|by apply (holds_ok _ _ H1)]. f_equal. eapply holds_eq; [exact H2|].
  eapply holds_ext; [exact H1|]. intros k _. do 2 f_equal.
  set (inv := map (fun p : bool * bytes => (negb p.1, p.2)) (flat ops')).
  assert (forall g, sum_of (signed g) inv = - sum_of (signed g) (flat ops')) as Hinv.
  { intros g. unfold inv. rewrite sum_of_map, <- sum_of_opp. apply sum_of_ext. intros [[] d] _; cbn; lia. }
  pose proof (signed_cancel (fun d => lane d k) (flat ops ++ inv)) as Hc. rewrite sum_of_app, Hinv in Hc.
  enough (sum_of (signed (fun d => lane d k)) (flat ops) + - sum_of (signed (fun d => lane d k)) (flat ops') = 0) by lia.
  apply Hc. intros d. unfold flat_net. rewrite sum_of_app, Hinv. specialize (Hnet d). rewrite !net_flat in Hnet.
  unfold flat_net in Hnet. lia.
Qed.

(** ** Serialization *)
Lemma le_u16_lanes l j x : l !! j = Some x -> inW 16 x -> le_u16 (E:=E) (concat (map (digits 256 2) l)) j = Ok x.
Proof.
  revert j. induction l as [|y l IH]; intros j Hj Hx; [done|]. destruct j as [|j].
  - injection Hj as ->. unfold le_u16. cbn. f_equal. unfold inW in Hx. change (2 ^ 16) with (256 * 256) in Hx.
    rewrite (Z.mod_small (x / 256)) by (split; [apply Z.div_pos; lia|apply Z.div_lt_upper_bound; lia]).
    rewrite (Z.div_mod x 256) at 3 by lia. lia.
  - rewrite <- (IH j Hj Hx). unfold le_u16. cbn [map concat]. replace (2 * S j)%nat with (S (S (2 * j))) by lia.
    replace (S (S (2 * j)) + 1)%nat with (S (S (2 * j + 1))) by lia. done.
Qed.
Lemma muhash_bytes_ok h : state_ok h -> muhash_from_bytes (E:=E) (muhash_to_bytes h) = Ok h.
Proof.
  destruct h as [l]. intros [Hl Hw]. cbn [lanes] in *. unfold muhash_from_bytes, muhash_to_bytes. cbn [lanes].
  rewrite (res_mapM_ok _ (fun j => nth j l 0)).
  - cbn [mbind res_bind]. do 2 f_equal. apply list_eq. intros k. destruct (decide (k < length l)%nat) as [Hk|Hk].
    + rewrite (nth_lt l k Hk). change (map (fun j => nth j l 0)) with (fmap (M:=list) (fun j => nth j l 0)).
      rewrite list_lookup_fmap, lookup_seq_lt by lia. done.
    + rewrite !lookup_ge_None_2; [done|lia|]. rewrite length_map, length_seq. lia.
  - intros j Hj. apply elem_of_seq in Hj. apply le_u16_lanes; [apply nth_lt; lia|].
    eapply Forall_lookup_1; [exact Hw|]. apply nth_lt. lia.
Qed.
End operations.

(** ** The published hash *)

(** The serialized state reads back, and the published hash binds it: two
    states with the same commitment are equal, or exhibit a collision of the
    finalizing hash. *)
Theorem muhash_binds `{Blake2b} h h' : state_ok h -> state_ok h' ->
  muhash_from_bytes (E:=unit) (muhash_to_bytes h) = Ok h /\
  (muhash_finalize h = muhash_finalize h' -> h = h' \/ collision 32 MuHashFinalizeHash).
Proof.
  intros Hh Hh'. split; [by apply muhash_bytes_ok|]. intros Hf.
  apply finalize_eq in Hf as [Heq|Hc]; [left|by right].
  apply (f_equal (muhash_from_bytes (E:=unit))) in Heq. rewrite !muhash_bytes_ok in Heq by done. by injection Heq.
Qed.

(** ** Witnesses *)
Lemma muhash_multiset_witness :
  exists h', run_ops (H:=toy_blake2b) (E:=unit) muhash_new [AddOp [1]; AddOp [2]; RemoveOp [1]; CombineOp [AddOp [3]]] = Ok h' /\
    run_ops (H:=toy_blake2b) (E:=unit) muhash_new [CombineOp [AddOp [3]; AddOp [2]]] = Ok h' /\ state_ok h'.
Proof.
  apply (muhash_multiset (H:=toy_blake2b)); [apply state_ok_new|]. intros d. unfold net, sum_of. cbn.
  repeat case_decide; subst; try done; lia.
Defined.
Lemma muhash_binds_witness :
  muhash_from_bytes (E:=unit) (muhash_to_bytes muhash_new) = Ok muhash_new /\
  (muhash_finalize (H:=toy_blake2b) muhash_new = muhash_finalize (H:=toy_blake2b) muhash_new ->
   muhash_new = muhash_new \/ collision (H:=toy_blake2b) 32 MuHashFinalizeHash).
Proof. apply (muhash_binds (H:=toy_blake2b)); apply state_ok_new. Defined.
