(* ===== verification/Uint.v ===== *)
(** * Fixed-width big integers

    Models the [construct_uint!] macro of [math/src/uint.rs], which defines
    [Uint192], [Uint256], [Uint320] and [Uint3072] as little-endian arrays of
    64-bit limbs, and the conversions between the widths of
    [math/src/lib.rs].

    A value of an [n]-limb type is a list of [n] limbs; [val] is the integer it
    denotes.  Every operation of the macro is modelled limb by limb, as the
    code computes it, and is shown to compute the arithmetic operation on
    [val] modulo [2^(64 n)].  The operators [+], [-], [*], [<<], [>>] discard
    the overflow flag (they check it only by [debug_assert!], which release
    builds compile out), so they are the wrapping operations here. *)
From S2P Require Import Prelude.
#[local] Open Scope Z_scope.

Definition B64 : Z := 2 ^ 64.
Abbreviation limbs := (list Z) (only parsing).

(** The integer denoted by an array of limbs, and well-formed arrays. *)
Definition val (l : limbs) : Z := undigits B64 l.
Definition wf (n : nat) (l : limbs) : Prop := length l = n /\ Forall (is_digit B64) l.
Definition BITS (n : nat) : Z := 64 * Z.of_nat n.

Definition ZERO (n : nat) : limbs := repeat 0 n.
Definition MAX (n : nat) : limbs := repeat (B64 - 1) n.

(** ** Conversions from and to primitive integers *)
Definition from_u64 (n : nat) (x : u64) : limbs := <[0%nat := x]> (ZERO n).
Definition from_u128 (n : nat) (x : Z) : limbs :=
  <[1%nat := wrap 64 (Z.shiftr x 64)]> (<[0%nat := wrap 64 x]> (ZERO n)).
Definition limb (l : limbs) (i : nat) : Z := nth i l 0.
Definition as_u64 (l : limbs) : u64 := limb l 0.
Definition as_u128 (l : limbs) : Z := Z.lor (limb l 0) (Z.shiftl (limb l 1) 64).
Definition is_zero (l : limbs) : bool := forallb (fun a => a =? 0) l.

(** ** Bit length *)

(** [u64::leading_zeros]. *)
Definition leading_zeros_u64 (w : u64) : Z := if w =? 0 then 64 else 63 - Z.log2 w.

(** [bits]: scans the limbs from the most significant one; [l] is reversed and
    [i] is the index of its head. *)
Fixpoint bits_from (l : limbs) : Z :=
  match l with
  | [] => 0
  | word :: l' => if negb (word =? 0) then 64 * zlen l - leading_zeros_u64 word else bits_from l'
  end.
Definition bits (l : limbs) : Z := bits_from (rev l).
Definition leading_zeros (l : limbs) : Z := 64 * zlen l - bits l.

(** ** Shifts *)
Definition shl_u64 (w s : Z) : Z := wrap 64 (Z.shiftl w s).

Definition overflowing_shl (l : limbs) (s : u32) : limbs * bool :=
  let n := length l in
  let overflows := BITS n <=? s in
  let s := s mod BITS n in
  let left_words := Z.to_nat (s / 64) in
  let left_shifts := s mod 64 in
  let ret := map (fun i =>
    if (i <? left_words)%nat then 0
    else
      let r := shl_u64 (limb l (i - left_words)) left_shifts in
      if (0 <? left_shifts) && (left_words + 1 <=? i)%nat then
        Z.lor r (Z.shiftr (limb l (i - 1 - left_words)) (64 - left_shifts))
      else r) (seq 0 n) in
  (ret, overflows).
Definition wrapping_shl (l : limbs) (s : u32) : limbs := (overflowing_shl l s).1.

Definition overflowing_shr (l : limbs) (s : u32) : limbs * bool :=
  let n := length l in
  let overflows := BITS n <=? s in
  let s := s mod BITS n in
  let left_words := Z.to_nat (s / 64) in
  let left_shifts := s mod 64 in
  let ret := map (fun i =>
    if (i + left_words <? n)%nat then
      let r := Z.shiftr (limb l (i + left_words)) left_shifts in
      if (0 <? left_shifts) && (i + left_words + 1 <? n)%nat then
        Z.lor r (shl_u64 (limb l (i + left_words + 1)) (64 - left_shifts))
      else r
    else 0) (seq 0 n) in
  (ret, overflows).

(** ** Addition and subtraction *)
Definition overflowing_add_prim (x y : u64) : u64 * bool := (wrap 64 (x + y), B64 <=? x + y).
Definition overflowing_sub_prim (x y : u64) : u64 * bool := (wrap 64 (x - y), x <? y).

Definition carrying_add_u64 (lhs rhs : u64) (carry : bool) : u64 * bool :=
  let '(a, b) := overflowing_add_prim lhs rhs in
  let '(c, d) := overflowing_add_prim a (Z.b2z carry) in
  (c, xorb b d).
Definition borrowing_sub_u64 (lhs rhs : u64) (borrow : bool) : u64 * bool :=
  let '(a, b) := overflowing_sub_prim lhs rhs in
  let '(c, d) := overflowing_sub_prim a (Z.b2z borrow) in
  (c, xorb b d).

(** The loop [for i in 0..LIMBS] over both arrays, threading the carry. *)
Fixpoint carry_loop (step : u64 -> u64 -> bool -> u64 * bool) (a b : limbs) (carry : bool)
    : limbs * bool :=
  match a, b with
  | x :: a, y :: b =>
      let '(z, carry) := step x y carry in
      let '(r, carry) := carry_loop step a b carry in
      (z :: r, carry)
  | _, _ => ([], carry)
  end.
Definition overflowing_add (a b : limbs) : limbs * bool := carry_loop carrying_add_u64 a b false.
Definition overflowing_sub (a b : limbs) : limbs * bool := carry_loop borrowing_sub_u64 a b false.

(** [for i in 1..LIMBS { if !carry { break; } ... }] *)
Fixpoint propagate_carry (a : limbs) (carry : bool) : limbs * bool :=
  match a with
  | [] => ([], carry)
  | x :: a' =>
      if negb carry then (a, carry)
      else let '(x, carry) := overflowing_add_prim x 1 in
           let '(r, carry) := propagate_carry a' carry in (x :: r, carry)
  end.
Definition overflowing_add_u64 (a : limbs) (other : u64) : limbs * bool :=
  match a with
  | [] => ([], false)
  | x :: a =>
      let '(x, carry) := overflowing_add_prim x other in
      let '(r, carry) := propagate_carry a carry in
      (x :: r, carry)
  end.

Definition saturating_sub (a b : limbs) : limbs :=
  let '(sum, carry) := overflowing_sub a b in if carry then ZERO (length a) else sum.
Definition saturating_add (a b : limbs) : limbs :=
  let '(sum, carry) := overflowing_add a b in if carry then MAX (length a) else sum.

(** ** Multiplication *)
Fixpoint carrying_mul_loop (a : limbs) (other : u64) (carry : Z) : limbs * Z :=
  match a with
  | [] => ([], carry)
  | x :: a =>
      let n := carry + other * x in
      let '(r, carry) := carrying_mul_loop a other (Z.land (Z.shiftr n 64) (B64 - 1)) in
      (wrap 64 n :: r, carry)
  end.
Definition carrying_mul_u64 (a : limbs) (other : u64) : limbs * u64 :=
  let '(r, carry) := carrying_mul_loop a other 0 in (r, wrap 64 carry).
Definition overflowing_mul_u64 (a : limbs) (other : u64) : limbs * bool :=
  let '(this, carry) := carrying_mul_u64 a other in (this, negb (carry =? 0)).

(** The inner loop for one limb [y] of [other]: [a] is [self.0[i..]], [result]
    is [result.0[i + j..]]; it ends when [i + j] reaches [LIMBS]. *)
Fixpoint mul_row (a : limbs) (y : u64) (result : limbs) (carry : u64) : limbs * u64 :=
  match result, a with
  | r :: result, x :: a =>
      let n := x * y + r + carry in
      let '(rest, carry) := mul_row a y result (wrap 64 (Z.shiftr n 64)) in
      (wrap 64 n :: rest, carry)
  | _, _ => (result, carry)
  end.
(** The outer loop from [j]: [b] is [other.0[j..]], [result] is [result.0[j..]];
    the limb [result.0[j]] is final after the row. *)
Fixpoint mul_loop (a b : limbs) (result : limbs) (carry_out : bool) : limbs * bool :=
  match b with
  | [] => (result, carry_out)
  | y :: b =>
      let '(result, carry) := mul_row a y result 0 in
      let carry_out := carry_out || negb (carry =? 0) in
      match result with
      | [] => ([], carry_out)
      | r :: result => let '(rest, carry_out) := mul_loop a b result carry_out in (r :: rest, carry_out)
      end
  end.
Definition overflowing_mul (a b : limbs) : limbs * bool := mul_loop a b (ZERO (length a)) false.

(** ** Comparison, from the most significant limb *)
Fixpoint lex_cmp (a b : limbs) : comparison :=
  match a, b with
  | [], [] => Eq
  | [], _ :: _ => Lt
  | _ :: _, [] => Gt
  | x :: a, y :: b => match x ?= y with Eq => lex_cmp a b | c => c end
  end.
Definition cmp (a b : limbs) : comparison := lex_cmp (rev a) (rev b).

(** ** Bitwise operators *)
Definition not_u64 (x : u64) : u64 := B64 - 1 - x.
Definition bitnot (a : limbs) : limbs := map not_u64 a.
Definition bitand (a b : limbs) : limbs := zip_with Z.land a b.
Definition bitor (a b : limbs) : limbs := zip_with Z.lor a b.
Definition bitxor (a b : limbs) : limbs := zip_with Z.lxor a b.

(** ** Operators: the wrapping results *)
Definition uadd (a b : limbs) : limbs := (overflowing_add a b).1.
Definition uadd_u64 (a : limbs) (b : u64) : limbs := (overflowing_add_u64 a b).1.
Definition usub (a b : limbs) : limbs := (overflowing_sub a b).1.
Definition umul_u64 (a : limbs) (b : u64) : limbs := (overflowing_mul_u64 a b).1.
Definition ushl (a : limbs) (s : u32) : limbs := (overflowing_shl a s).1.
Definition ushr (a : limbs) (s : u32) : limbs := (overflowing_shr a s).1.
(** [Iterator::sum]. *)
Definition usum (n : nat) (l : list limbs) : limbs :=
  match l with [] => ZERO n | first :: l => foldl uadd first l end.

(** ** Division *)

(** [div_rem_u64], from the most significant limb; [l] is reversed. *)
Fixpoint div_rem_u64_loop (l : limbs) (other : u64) (rem : u64) : limbs * u64 :=
  match l with
  | [] => ([], rem)
  | d :: l =>
      let n := Z.lor (Z.shiftl rem 64) d in
      let '(q, rem) := div_rem_u64_loop l other (wrap 64 (n mod other)) in
      (wrap 64 (n / other) :: q, rem)
  end.
Definition div_rem_u64 {E} (a : limbs) (other : u64) : res E (limbs * u64) :=
  if other =? 0 then Panic
  else let '(q, rem) := div_rem_u64_loop (rev a) other 0 in Ok (rev q, rem).

(** [ret[shift / 64] |= 1 << (shift % 64)] *)
Definition set_bit (ret : limbs) (shift : Z) : limbs :=
  let i := Z.to_nat (shift / 64) in
  <[i := Z.lor (limb ret i) (Z.shiftl 1 (shift mod 64))]> ret.

(** One turn of the division loop, then the decrement of [shift]. *)
Definition div_step (shift : nat) (sub_copy shift_copy ret : limbs) : limbs * limbs * limbs :=
  let '(sub_copy, ret) :=
    match cmp sub_copy shift_copy with
    | Lt => (sub_copy, ret)
    | _ => (usub sub_copy shift_copy, set_bit ret (Z.of_nat shift))
    end in
  (sub_copy, ushr shift_copy 1, ret).
Fixpoint div_loop (shift : nat) (sub_copy shift_copy ret : limbs) : limbs * limbs :=
  let '(sub_copy, shift_copy, ret) := div_step shift sub_copy shift_copy ret in
  match shift with
  | O => (ret, sub_copy)
  | S shift => div_loop shift sub_copy shift_copy ret
  end.
Definition div_rem {E} (a b : limbs) : res E (limbs * limbs) :=
  let my_bits := bits a in
  let your_bits := bits b in
  if your_bits =? 0 then Panic
  else if my_bits <? your_bits then Ok (ZERO (length a), a)
  else
    let shift := my_bits - your_bits in
    Ok (div_loop (Z.to_nat shift) a (ushl b shift) (ZERO (length a))).

(** ** Bytes *)
Definition u64_to_le_bytes (w : u64) : bytes := digits 256 8 w.
Definition u64_from_le_bytes (b : bytes) : u64 := undigits 256 b.
Definition u64_to_be_bytes (w : u64) : bytes := rev (digits 256 8 w).
Definition u64_from_be_bytes (b : bytes) : u64 := undigits 256 (rev b).

(** [slice::chunks_exact(8)] of a slice of [8 n] bytes. *)
Fixpoint chunks8 (n : nat) (b : bytes) : list bytes :=
  match n with
  | O => []
  | S n => take 8 b :: chunks8 n (drop 8 b)
  end.
Definition to_le_bytes (a : limbs) : bytes := concat (map u64_to_le_bytes a).
Definition to_be_bytes (a : limbs) : bytes := concat (map u64_to_be_bytes (rev a)).
Definition from_le_bytes (n : nat) (b : bytes) : limbs := map u64_from_le_bytes (chunks8 n b).
Definition from_be_bytes (n : nat) (b : bytes) : limbs := rev (map u64_from_be_bytes (chunks8 n b)).

(** Big-endian bytes without leading zeros, and back. *)
Fixpoint strip_zeros (b : bytes) : bytes :=
  match b with
  | x :: b' => if x =? 0 then strip_zeros b' else b
  | [] => []
  end.
Definition to_be_bytes_var (a : limbs) : bytes := strip_zeros (to_be_bytes a).
Inductive TryFromSliceError := TryFromSlice.
Definition from_be_bytes_var (n : nat) (b : bytes) : res TryFromSliceError limbs :=
  if (8 * n <? length b)%nat then Err TryFromSlice
  else Ok (from_be_bytes n (repeat 0 (8 * n - length b) ++ b)).

(** ** Conversions between widths ([math/src/lib.rs]) *)
Inductive TryFromIntError := TryFromInt.
Definition u320_from_u256 (u : limbs) : limbs := u ++ [0].
Definition u256_try_from_u320 (v : limbs) : res TryFromIntError limbs :=
  if negb (limb v 4 =? 0) then Err TryFromInt else Ok (take 4 v).
Definition u192_try_from_u256 (v : limbs) : res TryFromIntError limbs :=
  if negb (limb v 3 =? 0) then Err TryFromInt else Ok (take 3 v).

(** ** Limb arithmetic *)
Lemma B64_gt1 : 1 < B64.
Proof. done. Qed.
#[local] Hint Resolve B64_gt1 : width.
Lemma B64_pos : 0 < B64.
Proof. done. Qed.

Lemma BITS_pow n : B64 ^ Z.of_nat n = 2 ^ BITS n.
Proof. unfold B64, BITS. rewrite <- Z.pow_mul_r by lia. done. Qed.
Lemma BITS_zlen (l : limbs) : B64 ^ zlen l = 2 ^ BITS (length l).
Proof. apply BITS_pow. Qed.

Lemma val_cons x l : val (x :: l) = x + B64 * val l.
Proof. done. Qed.
Lemma val_app l k : val (l ++ k) = val l + B64 ^ zlen l * val k.
Proof. by apply undigits_app. Qed.
Lemma val_range n l : wf n l -> 0 <= val l < 2 ^ BITS n.
Proof. intros [<- Hl]. rewrite <- BITS_pow. by apply undigits_range. Qed.
Lemma val_ZERO n : val (ZERO n) = 0.
Proof. apply undigits_zeros. Qed.
Lemma wf_ZERO n : wf n (ZERO n).
Proof. split; [apply repeat_length|by apply zeros_digit]. Qed.
Lemma val_inj n a b : wf n a -> wf n b -> val a = val b -> a = b.
Proof. intros [H1 H2] [H3 H4]. apply undigits_inj; [done|congruence|done..]. Qed.
#[local] Hint Resolve wf_ZERO : width.

Lemma wf_cons n x l : wf (S n) (x :: l) <-> is_digit B64 x /\ wf n l.
Proof.
  unfold wf. simpl. rewrite Forall_cons. split.
  - intros [[= ->] [? ?]]. done.
  - intros [? [-> ?]]. done.
Qed.
Lemma wf_nil l : wf 0 l <-> l = [].
Proof. unfold wf. split; [|by intros ->]. destruct l; by intros [? ?]. Qed.
Lemma wf_inv_S n l : wf (S n) l -> exists x l', l = x :: l' /\ is_digit B64 x /\ wf n l'.
Proof. destruct l as [|x l]; [by intros [? ?]|]. rewrite wf_cons. eauto. Qed.

Lemma wrap64_digit x : is_digit B64 (wrap 64 x).
Proof. apply Z.mod_pos_bound. done. Qed.
Lemma wrap64_split x : x = wrap 64 x + B64 * (x / B64).
Proof. rewrite Z.add_comm. apply (Z.div_mod x B64). done. Qed.

Lemma carrying_add_u64_spec x y c : is_digit B64 x -> is_digit B64 y ->
  let '(z, c') := carrying_add_u64 x y c in
  is_digit B64 z /\ z + B64 * Z.b2z c' = x + y + Z.b2z c.
Proof.
  unfold is_digit, carrying_add_u64, overflowing_add_prim, wrap. fold B64. intros Hx Hy.
  assert (B64 = 18446744073709551616) as HB by done.
  destruct (Z.leb_spec B64 (x + y)).
  - assert ((x + y) mod B64 = x + y - B64) as ->.
    { symmetry. apply (Z.mod_unique_pos _ _ 1); lia. }
    destruct (Z.leb_spec B64 (x + y - B64 + Z.b2z c)); [destruct c; simpl in *; lia|].
    rewrite Z.mod_small by (destruct c; simpl in *; lia). destruct c; simpl in *; lia.
  - rewrite (Z.mod_small (x + y)) by lia.
    destruct (Z.leb_spec B64 (x + y + Z.b2z c)).
    + assert ((x + y + Z.b2z c) mod B64 = 0) as ->.
      { replace (x + y + Z.b2z c) with B64 by (destruct c; simpl in *; lia). apply Z.mod_same. lia. }
      destruct c; simpl in *; lia.
    + rewrite Z.mod_small by (destruct c; simpl in *; lia). destruct c; simpl in *; lia.
Qed.

Lemma borrowing_sub_u64_spec x y c : is_digit B64 x -> is_digit B64 y ->
  let '(z, c') := borrowing_sub_u64 x y c in
  is_digit B64 z /\ z - B64 * Z.b2z c' = x - y - Z.b2z c.
Proof.
  unfold is_digit, borrowing_sub_u64, overflowing_sub_prim, wrap. fold B64. intros Hx Hy.
  assert (B64 = 18446744073709551616) as HB by done.
  destruct (Z.ltb_spec x y).
  - assert ((x - y) mod B64 = x - y + B64) as ->.
    { symmetry. apply (Z.mod_unique_pos _ _ (-1)); lia. }
    destruct (Z.ltb_spec (x - y + B64) (Z.b2z c)); [destruct c; simpl in *; lia|].
    rewrite Z.mod_small by (destruct c; simpl in *; lia). destruct c; simpl in *; lia.
  - rewrite (Z.mod_small (x - y)) by lia.
    destruct (Z.ltb_spec (x - y) (Z.b2z c)).
    + assert ((x - y - Z.b2z c) mod B64 = B64 - 1) as ->.
      { symmetry. apply (Z.mod_unique_pos _ _ (-1)); destruct c; simpl in *; lia. }
      destruct c; simpl in *; lia.
    + rewrite Z.mod_small by (destruct c; simpl in *; lia). destruct c; simpl in *; lia.
Qed.

(** A carry loop whose step computes [f x y] up to the carry, with sign [s],
    computes the combination of the two values. *)
Lemma carry_loop_spec (s : Z) step n a b c :
  (forall x y c, is_digit B64 x -> is_digit B64 y ->
     let '(z, c') := step x y c in
     is_digit B64 z /\ z + s * B64 * Z.b2z c' = x + s * y + s * Z.b2z c) ->
  wf n a -> wf n b ->
  let '(r, c') := carry_loop step a b c in
  wf n r /\ val r + s * 2 ^ BITS n * Z.b2z c' = val a + s * val b + s * Z.b2z c.
Proof.
  intros Hstep. revert a b c. induction n as [|n IH]; intros a b c Ha Hb.
  { apply wf_nil in Ha as ->, Hb as ->. cbn [carry_loop]. split; [done|].
    change (2 ^ BITS 0) with 1. change (val []) with 0. lia. }
  apply wf_inv_S in Ha as (x & a' & -> & Hx & Ha). apply wf_inv_S in Hb as (y & b' & -> & Hy & Hb).
  simpl. specialize (Hstep x y c Hx Hy). destruct (step x y c) as [z c1].
  specialize (IH a' b' c1 Ha Hb). destruct (carry_loop step a' b' c1) as [r c2].
  destruct Hstep as [Hz Hs], IH as [Hr IH]. split; [by apply wf_cons|].
  rewrite !val_cons.
  replace (2 ^ BITS (S n)) with (B64 * 2 ^ BITS n).
  2:{ rewrite <- !BITS_pow, Nat2Z.inj_succ, Z.pow_succ_r by lia. done. }
  nia.
Qed.

Lemma overflowing_add_spec n a b : wf n a -> wf n b ->
  let '(r, c) := overflowing_add a b in
  wf n r /\ val r + 2 ^ BITS n * Z.b2z c = val a + val b.
Proof.
  intros Ha Hb. pose proof (carry_loop_spec 1 carrying_add_u64 n a b false) as H.
  unfold overflowing_add. destruct (carry_loop _ a b false) as [r c].
  destruct H as [Hr H]; [|done..|split; [done|simpl in H; lia]].
  intros x y c0 Hx Hy. pose proof (carrying_add_u64_spec x y c0 Hx Hy).
  destruct (carrying_add_u64 x y c0). rewrite !Z.mul_1_l. done.
Qed.

Lemma overflowing_sub_spec n a b : wf n a -> wf n b ->
  let '(r, c) := overflowing_sub a b in
  wf n r /\ val r - 2 ^ BITS n * Z.b2z c = val a - val b.
Proof.
  intros Ha Hb. pose proof (carry_loop_spec (-1) borrowing_sub_u64 n a b false) as H.
  unfold overflowing_sub. destruct (carry_loop _ a b false) as [r c].
  destruct H as [Hr H]; [|done..|split; [done|simpl in H; lia]].
  intros x y c0 Hx Hy. pose proof (borrowing_sub_u64_spec x y c0 Hx Hy).
  destruct (borrowing_sub_u64 x y c0) as [z c']. split; [tauto|lia].
Qed.

Lemma pow_BITS_S n : 2 ^ BITS (S n) = B64 * 2 ^ BITS n.
Proof. rewrite <- !BITS_pow, Nat2Z.inj_succ, Z.pow_succ_r by lia. done. Qed.

Lemma overflowing_add_prim_spec x y : is_digit B64 x -> is_digit B64 y ->
  let '(z, c) := overflowing_add_prim x y in
  is_digit B64 z /\ z + B64 * Z.b2z c = x + y.
Proof.
  intros Hx Hy. pose proof (carrying_add_u64_spec x y false Hx Hy) as H.
  unfold carrying_add_u64 in H. destruct (overflowing_add_prim x y) as [z c] eqn:E.
  assert (is_digit B64 z) as Hz.
  { unfold overflowing_add_prim in E. injection E as <- _. apply wrap64_digit. }
  unfold overflowing_add_prim, is_digit in *. simpl in H. rewrite Z.add_0_r in H.
  unfold wrap in H. fold B64 in H. rewrite (Z.mod_small z) in H by lia.
  replace (B64 <=? z) with false in H by lia. rewrite xorb_false_r in H. lia.
Qed.

Lemma propagate_carry_spec n a c : wf n a ->
  let '(r, c') := propagate_carry a c in
  wf n r /\ val r + 2 ^ BITS n * Z.b2z c' = val a + Z.b2z c.
Proof.
  revert a c. induction n as [|n IH]; intros a c Ha.
  { apply wf_nil in Ha as ->. cbn [propagate_carry]. split; [done|].
    change (2 ^ BITS 0) with 1. change (val []) with 0. lia. }
  apply wf_inv_S in Ha as (x & a' & -> & Hx & Ha). cbn [propagate_carry]. destruct c; simpl negb; cbv iota.
  - assert (is_digit B64 1) as H1 by done.
    pose proof (overflowing_add_prim_spec x 1 Hx H1) as Hp.
    destruct (overflowing_add_prim x 1) as [z c1].
    specialize (IH a' c1 Ha). destruct (propagate_carry a' c1) as [r c2].
    destruct Hp as [Hz Hp], IH as [Hr IH]. split; [by apply wf_cons|].
    rewrite !val_cons, pow_BITS_S. simpl Z.b2z in *. nia.
  - split; [by apply wf_cons|]. simpl. lia.
Qed.

Lemma overflowing_add_u64_spec n a x : wf (S n) a -> is_digit B64 x ->
  let '(r, c) := overflowing_add_u64 a x in
  wf (S n) r /\ val r + 2 ^ BITS (S n) * Z.b2z c = val a + x.
Proof.
  intros Ha Hx. apply wf_inv_S in Ha as (y & a' & -> & Hy & Ha). cbn [overflowing_add_u64].
  pose proof (overflowing_add_prim_spec y x Hy Hx) as Hp. destruct (overflowing_add_prim y x) as [z c].
  pose proof (propagate_carry_spec n a' c Ha) as IH. destruct (propagate_carry a' c) as [r c2].
  destruct Hp as [Hz Hp], IH as [Hr IH]. split; [by apply wf_cons|].
  rewrite !val_cons, pow_BITS_S. nia.
Qed.

(** ** Multiplication *)
Lemma shiftr64 x : Z.shiftr x 64 = x / B64.
Proof. by rewrite Z.shiftr_div_pow2. Qed.
Lemma div_B64_digit x : 0 <= x < B64 * B64 -> is_digit B64 (x / B64).
Proof.
  intros Hx. split; [apply Z.div_pos; [lia|apply B64_pos]|].
  apply Z.div_lt_upper_bound; [apply B64_pos|lia].
Qed.
Lemma wrap64_small x : is_digit B64 x -> wrap 64 x = x.
Proof. apply wrap_small. Qed.
Lemma land_mask64 x : Z.land x (B64 - 1) = wrap 64 x.
Proof. unfold wrap, B64. by rewrite <- Z.land_ones. Qed.

Lemma carrying_mul_loop_spec n a y c : wf n a -> is_digit B64 y -> is_digit B64 c ->
  let '(r, c') := carrying_mul_loop a y c in
  wf n r /\ is_digit B64 c' /\ val r + 2 ^ BITS n * c' = val a * y + c.
Proof.
  revert a c. induction n as [|n IH]; intros a c Ha Hy Hc.
  { apply wf_nil in Ha as ->. cbn [carrying_mul_loop]. split_and!; [done..|].
    change (2 ^ BITS 0) with 1. change (val []) with 0. lia. }
  apply wf_inv_S in Ha as (x & a' & -> & Hx & Ha). cbn [carrying_mul_loop].
  rewrite land_mask64, shiftr64.
  assert (is_digit B64 ((c + y * x) / B64)) as Hd.
  { apply div_B64_digit. unfold is_digit in *. nia. }
  rewrite (wrap64_small _ Hd). specialize (IH a' _ Ha Hy Hd).
  destruct (carrying_mul_loop a' y _) as [r c2]. destruct IH as (Hr & Hc2 & IH).
  split_and!; [apply wf_cons; split; [apply wrap64_digit|done]|done|].
  rewrite !val_cons, pow_BITS_S. pose proof (wrap64_split (c + y * x)). nia.
Qed.

Lemma carrying_mul_u64_spec n a y : wf n a -> is_digit B64 y ->
  let '(r, c) := carrying_mul_u64 a y in
  wf n r /\ is_digit B64 c /\ val r + 2 ^ BITS n * c = val a * y.
Proof.
  intros Ha Hy. unfold carrying_mul_u64.
  pose proof (carrying_mul_loop_spec n a y 0 Ha Hy ltac:(done)) as H.
  destruct (carrying_mul_loop a y 0) as [r c]. destruct H as (Hr & Hc & H).
  rewrite (wrap64_small _ Hc). split_and!; [done..|lia].
Qed.

Lemma mul_row_spec a y r c :
  Forall (is_digit B64) a -> Forall (is_digit B64) r -> is_digit B64 y -> is_digit B64 c ->
  (length r <= length a)%nat ->
  let '(r', c') := mul_row a y r c in
  wf (length r) r' /\ is_digit B64 c' /\
  val r' + B64 ^ zlen r * c' = val (take (length r) a) * y + val r + c.
Proof.
  revert a c. induction r as [|x r IH]; intros a c Ha Hr Hy Hc Hlen.
  { destruct a; simpl; (split_and!; [done..|]); change (B64 ^ zlen []) with 1;
      change (val []) with 0; lia. }
  destruct a as [|z a]; [simpl in Hlen; lia|]. cbn [mul_row take length].
  apply Forall_cons in Ha as [Hz Ha]. apply Forall_cons in Hr as [Hx Hr]. rewrite shiftr64.
  assert (is_digit B64 ((z * y + x + c) / B64)) as Hd.
  { apply div_B64_digit. unfold is_digit in *. nia. }
  rewrite (wrap64_small _ Hd). simpl in Hlen. specialize (IH a _ Ha Hr Hy Hd ltac:(lia)).
  destruct (mul_row a y r _) as [r' c']. destruct IH as (Hr' & Hc' & IH).
  split_and!; [apply wf_cons; split; [apply wrap64_digit|done]|done|].
  rewrite !val_cons, zlen_cons, Z.pow_add_r, Z.pow_1_r by (pose proof (zlen_nonneg r); lia).
  pose proof (wrap64_split (z * y + x + c)). nia.
Qed.

Lemma val_take_drop m (a : limbs) : (m <= length a)%nat ->
  val a = val (take m a) + B64 ^ Z.of_nat m * val (drop m a).
Proof.
  intros Hm. rewrite <- (take_drop m a) at 1. rewrite val_app. unfold zlen.
  by rewrite length_take, Nat.min_l by lia.
Qed.

Lemma val_nonneg l : Forall (is_digit B64) l -> 0 <= val l.
Proof. by apply undigits_nonneg. Qed.

Lemma mul_loop_spec a b r co :
  Forall (is_digit B64) a -> Forall (is_digit B64) b -> Forall (is_digit B64) r ->
  length r = length b -> (length b <= length a)%nat ->
  let '(r', co') := mul_loop a b r co in
  wf (length r) r' /\ exists k, 0 <= k /\ (co' = true -> co = true \/ 0 < k) /\
  val r' + B64 ^ zlen r * k = val a * val b + val r.
Proof.
  intros Ha. revert r co. induction b as [|y b IH]; intros r co Hb Hr Hlen Hle.
  { destruct r; [|done]. simpl. split; [done|]. exists 0. split_and!; [lia|tauto|].
    change (val []) with 0. lia. }
  apply Forall_cons in Hb as [Hy Hb]. cbn [mul_loop].
  pose proof (mul_row_spec a y r 0 Ha Hr Hy ltac:(done) ltac:(lia)) as Hrow.
  destruct (mul_row a y r 0) as [r1 c]. destruct Hrow as (Hr1 & Hc & Hrow).
  change (length (y :: b)) with (S (length b)) in *.
  rewrite Hlen in Hr1, Hrow. apply wf_inv_S in Hr1 as (z & rest & -> & Hz & [Hlr Hrest]).
  simpl in Hle. specialize (IH rest (co || negb (c =? 0)) Hb Hrest Hlr ltac:(lia)).
  destruct (mul_loop a b rest _) as [r' co']. destruct IH as (Hr' & k & Hk & Hco & IH).
  rewrite Hlr in Hr'. split; [rewrite Hlen; by apply wf_cons|].
  pose proof (val_take_drop (S (length b)) a ltac:(lia)) as Htd.
  pose proof (val_nonneg _ (Forall_drop _ (S (length b)) _ Ha)) as Hdn.
  unfold is_digit in *. exists (c + val (drop (S (length b)) a) * y + k). split_and!; [nia| |].
  - intros [Hc1|?]%Hco; [|right; nia]. apply orb_true_iff in Hc1 as [->|Hc1]; [by left|right]. nia.
  - unfold zlen in *. rewrite Hlr in IH. rewrite Hlen in Hrow |- *.
    rewrite Nat2Z.inj_succ, Z.pow_succ_r in * by lia. rewrite !val_cons in *.
    set (h := val (drop _ a)) in *. set (t := val (take _ a)) in *.
    set (P := B64 ^ Z.of_nat (length b)) in *.
    assert (val a * y = t * y + B64 * P * h * y) as Hay by (rewrite Htd; ring).
    assert (val r' = val a * val b + val rest - P * k) as -> by lia.
    lia.
Qed.

Lemma overflowing_mul_spec n a b : wf n a -> wf n b ->
  let '(r, co) := overflowing_mul a b in
  wf n r /\ val r = (val a * val b) mod 2 ^ BITS n /\
  (co = true -> 2 ^ BITS n <= val a * val b).
Proof.
  intros [Hla Ha] [Hlb Hb]. unfold overflowing_mul. rewrite Hla.
  destruct (wf_ZERO n) as [Hlz Hz].
  pose proof (mul_loop_spec a b (ZERO n) false Ha Hb Hz ltac:(congruence) ltac:(lia)) as H.
  destruct (mul_loop a b (ZERO n) false) as [r co]. destruct H as (Hr & k & Hk & Hco & H).
  rewrite Hlz in Hr. rewrite BITS_zlen, Hlz, val_ZERO, Z.add_0_r in H.
  pose proof (val_range n r Hr). split_and!; [done| |].
  - apply (Z.mod_unique_pos _ _ k); lia.
  - intros [?|?]%Hco; [done|]. nia.
Qed.

(** ** Comparison and bit length *)
Lemma val_rev_cons x l : val (rev (x :: l)) = val (rev l) + B64 ^ zlen l * x.
Proof.
  simpl. rewrite val_app. unfold zlen. rewrite length_rev. f_equal. f_equal.
  unfold val. simpl. lia.
Qed.
Lemma Forall_rev' {A} (P : A -> Prop) l : Forall P l -> Forall P (rev l).
Proof. rewrite !Forall_forall. intros H x Hx%list_elem_of_In%in_rev%list_elem_of_In. auto. Qed.
Lemma val_rev_range l : Forall (is_digit B64) l -> 0 <= val (rev l) < B64 ^ zlen l.
Proof.
  intros Hl. pose proof (undigits_range B64 B64_gt1 (rev l) (Forall_rev' _ _ Hl)) as H.
  unfold zlen in *. by rewrite length_rev in H.
Qed.
Lemma wf_rev n l : wf n l -> wf n (rev l).
Proof. intros [<- H]. split; [apply length_rev|by apply Forall_rev']. Qed.

Lemma lex_cmp_spec l k : length l = length k ->
  Forall (is_digit B64) l -> Forall (is_digit B64) k ->
  lex_cmp l k = (val (rev l) ?= val (rev k)).
Proof.
  revert k. induction l as [|x l IH]; intros [|y k] Hlen Hl Hk; [done..|].
  apply Forall_cons in Hl as [Hx Hl]. apply Forall_cons in Hk as [Hy Hk].
  rewrite !val_rev_cons. injection Hlen as Hlen. simpl. rewrite (IH k) by done.
  pose proof (val_rev_range l Hl). pose proof (val_rev_range k Hk).
  unfold zlen in *. rewrite Hlen in *. set (P := B64 ^ _) in *.
  destruct (Z.compare_spec x y) as [->|Hxy|Hxy].
  - destruct (Z.compare_spec (val (rev l)) (val (rev k))); symmetry;
      [apply Z.compare_eq_iff|apply Z.compare_lt_iff|apply Z.compare_gt_iff]; lia.
  - symmetry. apply Z.compare_lt_iff. nia.
  - symmetry. apply Z.compare_gt_iff. nia.
Qed.
Lemma cmp_spec n a b : wf n a -> wf n b -> cmp a b = (val a ?= val b).
Proof.
  intros [<- Ha] [Hlen Hb]. unfold cmp. rewrite lex_cmp_spec, !rev_involutive; [done|..].
  - by rewrite !length_rev.
  - by apply Forall_rev'.
  - by apply Forall_rev'.
Qed.

(** The number of bits of an integer. *)
Definition nbits (z : Z) : Z := if z =? 0 then 0 else Z.log2 z + 1.

Lemma nbits_bound z : 0 <= z -> z < 2 ^ nbits z /\ (z <> 0 -> 2 ^ (nbits z - 1) <= z).
Proof.
  intros Hz. unfold nbits. destruct (Z.eqb_spec z 0) as [->|Hne]; [done|].
  pose proof (Z.log2_spec z ltac:(lia)). rewrite <- Z.add_1_r in *.
  replace (Z.log2 z + 1 - 1) with (Z.log2 z) by lia. lia.
Qed.
Lemma nbits_unique z k : 0 < k -> 2 ^ (k - 1) <= z < 2 ^ k -> nbits z = k.
Proof.
  intros Hk Hz. unfold nbits. assert (0 < 2 ^ (k - 1)) by (apply Z.pow_pos_nonneg; lia).
  replace (z =? 0) with false by lia.
  rewrite (Z.log2_unique z (k - 1)); [lia|lia|]. by replace (Z.succ (k - 1)) with k by lia.
Qed.
Lemma nbits_nonneg z : 0 <= nbits z.
Proof. unfold nbits. pose proof (Z.log2_nonneg z). destruct (_ =? _); lia. Qed.

Lemma bits_from_spec l : Forall (is_digit B64) l -> bits_from l = nbits (val (rev l)).
Proof.
  induction 1 as [|x l Hx Hl IH]; [done|]. rewrite val_rev_cons. cbn [bits_from].
  pose proof (val_rev_range l Hl) as Hr. destruct (Z.eqb_spec x 0) as [->|Hne]; simpl negb; cbv iota.
  { rewrite IH. f_equal. lia. }
  symmetry. unfold leading_zeros_u64. replace (x =? 0) with false by lia.
  unfold is_digit in Hx. assert (0 < x) as Hx0 by lia.
  pose proof (Z.log2_spec x Hx0) as [Hlo Hhi]. pose proof (Z.log2_nonneg x) as Hl2.
  assert (B64 ^ zlen l = 2 ^ (64 * zlen l)) as HB by (rewrite BITS_zlen; done).
  rewrite HB in *. pose proof (zlen_nonneg l).
  rewrite zlen_cons. apply nbits_unique; [lia|].
  replace (64 * (zlen l + 1) - (63 - Z.log2 x) - 1) with (64 * zlen l + Z.log2 x) by lia.
  replace (64 * (zlen l + 1) - (63 - Z.log2 x)) with (64 * zlen l + Z.succ (Z.log2 x)) by lia.
  rewrite !(Z.pow_add_r 2 (64 * zlen l)) by lia. nia.
Qed.
Lemma bits_spec n a : wf n a -> bits a = nbits (val a).
Proof.
  intros [_ Ha]. unfold bits. rewrite bits_from_spec by (by apply Forall_rev').
  by rewrite rev_involutive.
Qed.

(** ** Bits of limbs *)
Lemma limb_digit n l i : wf n l -> is_digit B64 (limb l i).
Proof.
  intros [_ H]. unfold limb. destruct (nth_in_or_default i l 0) as [Hin| ->]; [|done].
  rewrite Forall_forall in H. apply H. by apply list_elem_of_In.
Qed.
Lemma limb_spec n l i : wf n l -> limb l i = (val l / B64 ^ Z.of_nat i) mod B64.
Proof.
  pose proof B64_gt1. revert l i. induction n as [|n IH]; intros l i Hl.
  { apply wf_nil in Hl as ->. change (val []) with 0.
    rewrite Z.div_0_l by (apply Z.pow_nonzero; lia). by destruct i. }
  apply wf_inv_S in Hl as (x & l' & -> & [Hx1 Hx2] & Hl). rewrite val_cons. destruct i as [|i].
  - simpl. rewrite Z.div_1_r, Z.mul_comm, Z.mod_add, Z.mod_small by lia. done.
  - unfold limb in *. simpl nth. rewrite (IH l' i Hl), Nat2Z.inj_succ, Z.pow_succ_r by lia.
    rewrite <- Z.div_div by (try apply Z.pow_pos_nonneg; lia).
    rewrite (Z.mul_comm B64 (val l')), Z.div_add, (Z.div_small x) by lia. done.
Qed.
Lemma limb_testbit n l i j : wf n l -> 0 <= j < 64 ->
  Z.testbit (limb l i) j = Z.testbit (val l) (64 * Z.of_nat i + j).
Proof.
  intros Hl Hj. rewrite (limb_spec n l i Hl). unfold B64 at 2.
  rewrite Z.mod_pow2_bits_low by lia.
  assert (B64 ^ Z.of_nat i = 2 ^ (64 * Z.of_nat i)) as -> by apply BITS_pow.
  rewrite Z.div_pow2_bits by lia. f_equal. lia.
Qed.
Lemma val_bits n l V : wf n l ->
  (forall i j, (i < n)%nat -> 0 <= j < 64 ->
     Z.testbit (limb l i) j = Z.testbit V (64 * Z.of_nat i + j)) ->
  val l = V mod 2 ^ BITS n.
Proof.
  intros Hl Hb. apply Z.bits_inj'. intros p Hp. unfold BITS.
  destruct (Z.lt_ge_cases p (64 * Z.of_nat n)) as [Hlt|Hge].
  - rewrite Z.mod_pow2_bits_low by lia.
    pose proof (Z.div_mod p 64 ltac:(lia)). pose proof (Z.mod_pos_bound p 64 ltac:(lia)).
    assert (0 <= p / 64) by (apply Z.div_pos; lia).
    replace p with (64 * Z.of_nat (Z.to_nat (p / 64)) + p mod 64) by lia.
    rewrite <- (limb_testbit n) by done. apply Hb; [|done]. nia.
  - rewrite Z.mod_pow2_bits_high by lia.
    destruct (Z.eq_dec (val l) 0) as [->|?]; [apply Z.bits_0|].
    apply Z.bits_above_log2; [apply (val_range n l Hl)|].
    apply Z.log2_lt_pow2; [pose proof (val_range n l Hl); lia|].
    eapply Z.lt_le_trans; [apply (val_range n l Hl)|]. apply Z.pow_le_mono_r; unfold BITS; lia.
Qed.

(** A limb array given by its entries. *)
Lemma map_seq_wf n f : (forall i, (i < n)%nat -> is_digit B64 (f i)) -> wf n (map f (seq 0 n)).
Proof.
  intros Hf. split; [by rewrite length_map, length_seq|].
  apply Forall_forall. intros x Hx%list_elem_of_In%in_map_iff. destruct Hx as (i & <- & Hi).
  apply Hf. apply in_seq in Hi. lia.
Qed.
Lemma limb_map_seq n f i : (i < n)%nat -> limb (map f (seq 0 n)) i = f i.
Proof.
  intros Hi. unfold limb. rewrite nth_indep with (d' := f 0%nat) by (rewrite length_map, length_seq; lia).
  rewrite map_nth, seq_nth by lia. done.
Qed.

(** ** Shifts *)
Lemma testbit_high x j : is_digit B64 x -> 64 <= j -> Z.testbit x j = false.
Proof.
  intros [H1 H2] Hj. destruct (Z.eq_dec x 0) as [->|]; [apply Z.bits_0|].
  apply Z.bits_above_log2; [done|]. eapply Z.lt_le_trans; [|exact Hj].
  apply Z.log2_lt_pow2; [lia|exact H2].
Qed.
Lemma shl_u64_digit x s : is_digit B64 (shl_u64 x s).
Proof. apply wrap64_digit. Qed.
Lemma shl_u64_testbit x s j : 0 <= s -> 0 <= j < 64 ->
  Z.testbit (shl_u64 x s) j = Z.testbit x (j - s).
Proof.
  intros Hs Hj. unfold shl_u64, wrap. rewrite Z.mod_pow2_bits_low by lia.
  by rewrite Z.shiftl_spec by lia.
Qed.
Lemma digit_of_bits x : 0 <= x -> (forall j, 64 <= j -> Z.testbit x j = false) -> is_digit B64 x.
Proof.
  intros H0 Hb. split; [done|]. destruct (Z.eq_dec x 0) as [->|]; [done|].
  apply Z.log2_lt_pow2; [lia|]. destruct (Z.lt_ge_cases (Z.log2 x) 64) as [|Hge]; [done|].
  apply Hb in Hge. rewrite Z.bit_log2 in Hge; [done|lia].
Qed.
Lemma lor_digit x y : is_digit B64 x -> is_digit B64 y -> is_digit B64 (Z.lor x y).
Proof.
  intros Hx Hy. apply digit_of_bits; [apply Z.lor_nonneg; split; [apply Hx|apply Hy]|].
  intros j Hj. by rewrite Z.lor_spec, !testbit_high by done.
Qed.
Lemma shiftr_digit x s : is_digit B64 x -> 0 <= s -> is_digit B64 (Z.shiftr x s).
Proof.
  intros Hx Hs. apply digit_of_bits; [apply Z.shiftr_nonneg, Hx|].
  intros j Hj. rewrite Z.shiftr_spec by lia. apply testbit_high; [done|lia].
Qed.
Create HintDb limbs.
#[export] Hint Resolve shl_u64_digit lor_digit shiftr_digit wrap64_digit limb_digit : limbs.

Lemma is_digit_0 : is_digit B64 0.
Proof. done. Qed.
#[export] Hint Resolve is_digit_0 : limbs.

Lemma shift_split s : 0 <= s ->
  exists w q, Z.to_nat (s / 64) = w /\ s mod 64 = q /\ s = 64 * Z.of_nat w + q /\ 0 <= q < 64.
Proof.
  intros Hs. exists (Z.to_nat (s / 64)), (s mod 64). pose proof (Z.div_mod s 64 ltac:(lia)).
  pose proof (Z.mod_pos_bound s 64 ltac:(lia)). assert (0 <= s / 64) by (apply Z.div_pos; lia).
  repeat split; lia.
Qed.

Lemma overflowing_shl_wf n l s : wf n l -> wf n (overflowing_shl l s).1.
Proof.
  intros Hl. pose proof Hl as [Hn _]. unfold overflowing_shl. cbn [fst]. rewrite Hn.
  apply map_seq_wf. intros i Hi. pose proof (Z.mod_pos_bound (s mod BITS n) 64 ltac:(lia)).
  destruct (_ <? _)%nat; [apply is_digit_0|]. destruct (_ && _); eauto with limbs lia.
Qed.
Lemma overflowing_shl_val n l s : wf n l -> (0 < n)%nat -> 0 <= s ->
  val (overflowing_shl l s).1 = (val l * 2 ^ (s mod BITS n)) mod 2 ^ BITS n.
Proof.
  intros Hl Hn0 Hs. apply val_bits; [by apply overflowing_shl_wf|]. intros i j Hi Hj.
  pose proof Hl as [Hn _]. unfold overflowing_shl. cbn [fst]. rewrite Hn, limb_map_seq by done.
  assert (0 <= s mod BITS n) as Hs' by (apply Z.mod_pos_bound; unfold BITS; lia).
  rewrite <- Z.shiftl_mul_pow2, Z.shiftl_spec by lia.
  destruct (shift_split _ Hs') as (w & q & -> & -> & -> & Hq). clear Hs'.
  destruct (Nat.ltb_spec i w) as [Hiw|Hiw].
  { rewrite Z.bits_0, Z.testbit_neg_r by lia. done. }
  destruct (Z.lt_ge_cases j q) as [Hjq|Hjq].
  - replace (0 <? q) with true by lia. cbn [andb]. destruct (Nat.leb_spec (w + 1) i).
    + rewrite Z.lor_spec, shl_u64_testbit, Z.shiftr_spec, (Z.testbit_neg_r _ (j - q)) by lia.
      rewrite (limb_testbit n) by (done || lia). cbn [orb]. f_equal. lia.
    + rewrite shl_u64_testbit, !Z.testbit_neg_r by lia. done.
  - transitivity (Z.testbit (shl_u64 (limb l (i - w)) q) j).
    + destruct (_ && _); [|done]. rewrite Z.lor_spec, (Z.shiftr_spec _ _ j) by lia.
      rewrite (testbit_high (limb l (i - 1 - w))) by (eauto with limbs; lia). apply orb_false_r.
    + rewrite shl_u64_testbit, (limb_testbit n) by (done || lia). f_equal. lia.
Qed.

Lemma overflowing_shr_wf n l s : wf n l -> wf n (overflowing_shr l s).1.
Proof.
  intros Hl. pose proof Hl as [Hn _]. unfold overflowing_shr. cbn [fst]. rewrite Hn.
  apply map_seq_wf. intros i Hi. pose proof (Z.mod_pos_bound (s mod BITS n) 64 ltac:(lia)).
  destruct (_ <? _)%nat; [|apply is_digit_0]. destruct (_ && _); eauto with limbs lia.
Qed.
Lemma val_testbit_high n l j : wf n l -> BITS n <= j -> Z.testbit (val l) j = false.
Proof.
  intros Hl Hj. pose proof (val_range n l Hl) as [? ?].
  rewrite <- (Z.mod_small (val l) (2 ^ BITS n)) by done. apply Z.mod_pow2_bits_high.
  unfold BITS in *; lia.
Qed.
Lemma overflowing_shr_val n l s : wf n l -> (0 < n)%nat -> 0 <= s ->
  val (overflowing_shr l s).1 = val l / 2 ^ (s mod BITS n).
Proof.
  intros Hl Hn0 Hs. assert (0 <= s mod BITS n) as Hs' by (apply Z.mod_pos_bound; unfold BITS; lia).
  pose proof (val_range n l Hl). assert (0 < 2 ^ (s mod BITS n)) by (apply Z.pow_pos_nonneg; lia).
  rewrite <- (Z.mod_small (_ / _) (2 ^ BITS n)).
  2:{ split; [apply Z.div_pos; lia|]. apply Z.div_lt_upper_bound; nia. }
  apply val_bits; [by apply overflowing_shr_wf|]. intros i j Hi Hj.
  pose proof Hl as [Hn _]. unfold overflowing_shr. cbn [fst]. rewrite Hn, limb_map_seq by done.
  rewrite <- Z.shiftr_div_pow2, Z.shiftr_spec by lia.
  destruct (shift_split _ Hs') as (w & q & -> & -> & -> & Hq).
  destruct (Nat.ltb_spec (i + w) n) as [Hiw|Hiw].
  2:{ rewrite Z.bits_0. symmetry. apply (val_testbit_high n); [done|unfold BITS; lia]. }
  destruct (Z.lt_ge_cases (j + q) 64) as [Hjq|Hjq].
  - transitivity (Z.testbit (Z.shiftr (limb l (i + w)) q) j).
    + destruct (_ && _) eqn:Hc; [|done]. apply andb_true_iff in Hc as [Hq0%Z.ltb_lt _].
      rewrite Z.lor_spec, shl_u64_testbit, (Z.testbit_neg_r _ (j - _)) by lia. apply orb_false_r.
    + rewrite Z.shiftr_spec, (limb_testbit n) by (done || lia). f_equal. lia.
  - replace (0 <? q) with true by lia. cbn [andb].
    assert (Z.testbit (Z.shiftr (limb l (i + w)) q) j = false) as Hz.
    { rewrite Z.shiftr_spec by lia. apply testbit_high; eauto with limbs. }
    destruct (Nat.ltb_spec (i + w + 1) n).
    + rewrite Z.lor_spec, Hz, shl_u64_testbit, (limb_testbit n) by (done || lia).
      cbn [orb]. f_equal. lia.
    + rewrite Hz. symmetry. apply (val_testbit_high n); [done|unfold BITS; lia].
Qed.

(** ** Division *)
Lemma div_rem_u64_loop_spec l b rem :
  Forall (is_digit B64) l -> is_digit B64 b -> 0 <= rem < b ->
  let '(q, r) := div_rem_u64_loop l b rem in
  length q = length l /\ Forall (is_digit B64) q /\ 0 <= r < b /\
  val (rev l) + B64 ^ zlen l * rem = val (rev q) * b + r.
Proof.
  intros Hl Hb. revert rem. induction Hl as [|d l Hd Hl IH]; intros rem Hrem.
  { cbn [div_rem_u64_loop]. split_and!; [done..|lia|lia|].
    change (val (rev [])) with 0. change (zlen []) with 0. lia. }
  unfold is_digit in Hd, Hb. cbn [div_rem_u64_loop]. rewrite lor_pow2_add by (lia || exact Hd). change (2 ^ 64) with B64.
  pose proof (Z.div_mod (rem * B64 + d) b ltac:(lia)) as Hdm.
  pose proof (Z.mod_pos_bound (rem * B64 + d) b ltac:(lia)) as Hm.
  assert (0 <= (rem * B64 + d) / b < B64) as Hq.
  { split; [apply Z.div_pos; nia|apply Z.div_lt_upper_bound; nia]. }
  rewrite !wrap64_small by (unfold is_digit; lia).
  specialize (IH _ Hm). destruct (div_rem_u64_loop l b _) as [q r] eqn:He.
  destruct IH as (Hlq & Hdq & Hr & H). split_and!; [simpl; congruence|by apply Forall_cons|lia..|].
  rewrite !val_rev_cons, zlen_cons, Z.pow_add_r by (try apply zlen_nonneg; lia).
  unfold zlen in *. rewrite Hlq. rewrite Z.pow_1_r.
  set (P := B64 ^ _) in *. set (m := _ mod b) in *. set (d' := _ / b) in *. nia.
Qed.
Lemma div_rem_u64_spec {E} n a b : wf n a -> is_digit B64 b -> b <> 0 ->
  exists q, div_rem_u64 (E := E) a b = Ok (q, val a mod b) /\ wf n q /\ val q = val a / b.
Proof.
  intros Ha Hb Hne. unfold div_rem_u64. replace (b =? 0) with false by lia.
  pose proof (wf_rev _ _ Ha) as [Hl Hd]. unfold is_digit in Hb.
  pose proof (div_rem_u64_loop_spec (rev a) b 0 Hd Hb ltac:(lia)) as H.
  destruct (div_rem_u64_loop (rev a) b 0) as [q r]. destruct H as (Hlq & Hdq & Hr & H).
  rewrite rev_involutive, Z.mul_0_r, Z.add_0_r in H. exists (rev q).
  pose proof (Z.div_mod_unique b (val (rev q)) (val a / b) r (val a mod b)) as Hu.
  destruct Hu as [-> ->].
  - lia.
  - left. apply Z.mod_pos_bound. lia.
  - rewrite <- Z.div_mod by done. lia.
  - split_and!; [done| |done]. apply wf_rev. split; [congruence|done].
Qed.

Lemma set_bit_wf n r s : wf n r -> 0 <= s -> wf n (set_bit r s).
Proof.
  intros Hr Hs. unfold set_bit. destruct (shift_split s Hs) as (w & q & -> & -> & _ & Hq).
  destruct (Hr) as [Hl Hd]. split; [by rewrite length_insert|].
  apply Forall_insert; [done|]. apply lor_digit; [by eapply limb_digit|].
  rewrite Z.shiftl_1_l. split; [lia|]. apply Z.pow_lt_mono_r; lia.
Qed.
Lemma limb_insert_eq r i x : (i < length r)%nat -> limb (<[i := x]> r) i = x.
Proof.
  intros Hi. unfold limb. rewrite nth_lookup, list_lookup_insert_eq by done. done.
Qed.
Lemma limb_insert_ne r i j x : i <> j -> limb (<[i := x]> r) j = limb r j.
Proof. intros Hi. unfold limb. by rewrite !nth_lookup, list_lookup_insert_ne by done. Qed.
Lemma set_bit_val n r s : wf n r -> 0 <= s < BITS n ->
  val (set_bit r s) = Z.lor (val r) (2 ^ s).
Proof.
  intros Hr Hs. pose proof (val_range n r Hr) as Hv.
  rewrite <- (Z.mod_small (Z.lor _ _) (2 ^ BITS n)).
  2:{ split; [apply Z.lor_nonneg; split; [lia|apply Z.pow_nonneg; lia]|].
      destruct (Z.eq_dec (Z.lor (val r) (2 ^ s)) 0) as [->|]; [lia|].
      apply Z.log2_lt_pow2; [pose proof (Z.lor_nonneg (val r) (2 ^ s)); lia|].
      rewrite Z.log2_lor by lia. apply Z.max_lub_lt; [|rewrite Z.log2_pow2; lia].
      destruct (Z.eq_dec (val r) 0) as [->|]; [simpl; lia|apply Z.log2_lt_pow2; lia]. }
  apply val_bits; [apply set_bit_wf; [done|lia]|]. intros i j Hi Hj. unfold set_bit.
  rewrite Z.lor_spec, <- (limb_testbit n) by done.
  assert (0 <= s) as Hs0 by lia. destruct (shift_split s Hs0) as (w & q & -> & -> & -> & Hq).
  rewrite Z.pow2_bits_eqb by lia. destruct Hr as [Hl _]. unfold BITS in Hs.
  destruct (decide (w = i)) as [->|Hne].
  - rewrite limb_insert_eq, Z.lor_spec, Z.shiftl_1_l, Z.pow2_bits_eqb by lia. f_equal.
    destruct (Z.eqb_spec q j), (Z.eqb_spec (64 * Z.of_nat i + q) (64 * Z.of_nat i + j)); lia.
  - rewrite limb_insert_ne by done.
    destruct (Z.eqb_spec (64 * Z.of_nat w + q) (64 * Z.of_nat i + j)); [lia|].
    by rewrite orb_false_r.
Qed.
Lemma set_bit_add n r s k : wf n r -> 0 <= s < BITS n -> val r = k * 2 ^ (s + 1) ->
  val (set_bit r s) = val r + 2 ^ s.
Proof.
  intros Hr Hs Hk. rewrite (set_bit_val n) by done. pose proof (Z.add_lor_land (val r) (2 ^ s)) as H.
  rewrite Hk in *. rewrite <- Z.shiftl_mul_pow2 in * by lia.
  rewrite land_pow2_low in H; [lia|lia|].
  split; [apply Z.pow_nonneg; lia|apply Z.pow_lt_mono_r; lia].
Qed.
Lemma usub_val n a b : wf n a -> wf n b -> val b <= val a ->
  wf n (usub a b) /\ val (usub a b) = val a - val b.
Proof.
  intros Ha Hb Hle. unfold usub. pose proof (overflowing_sub_spec n a b Ha Hb) as H.
  destruct (overflowing_sub a b) as [r c]. destruct H as [Hr H]. split; [done|].
  pose proof (val_range n r Hr). destruct c; simpl in *; lia.
Qed.

(** One turn of the division: the quotient found so far times the divisor plus
    the running remainder is unchanged, and the remainder drops below the
    shifted divisor. *)
Lemma div_step_spec n s vb sub sc ret k :
  wf n sub -> wf n sc -> wf n ret -> Z.of_nat s < BITS n -> 0 < vb ->
  val sc = vb * 2 ^ Z.of_nat s -> val sub < vb * 2 ^ (Z.of_nat s + 1) ->
  val ret = k * 2 ^ (Z.of_nat s + 1) ->
  let '(sub', sc', ret') := div_step s sub sc ret in
  wf n sub' /\ wf n sc' /\ wf n ret' /\
  val ret' * vb + val sub' = val ret * vb + val sub /\
  val sub' < vb * 2 ^ Z.of_nat s /\ (exists k', val ret' = k' * 2 ^ Z.of_nat s) /\
  val sc' = (vb * 2 ^ Z.of_nat s) / 2.
Proof.
  intros Hsub Hsc Hret Hs Hvb Vsc Vsub Vret. unfold div_step, ushr.
  assert (0 < n)%nat as Hn by (unfold BITS in Hs; lia).
  pose proof (overflowing_shr_wf n sc 1 Hsc). pose proof (overflowing_shr_val n sc 1 Hsc Hn ltac:(lia)) as Hv.
  rewrite Z.mod_small, Z.pow_1_r, Vsc in Hv by (unfold BITS; lia).
  rewrite Z.pow_add_r, Z.pow_1_r in * by lia.
  rewrite (cmp_spec n) by done. destruct (Z.compare_spec (val sub) (val sc)) as [Hc|Hc|Hc].
  2:{ split_and!; try done; [lia|]. exists (k * 2). lia. }
  all: destruct (usub_val n sub sc Hsub Hsc ltac:(lia)) as [Hw Hu].
  all: pose proof (set_bit_add n ret (Z.of_nat s) k Hret ltac:(lia)) as Hb.
  all: rewrite Z.pow_add_r, Z.pow_1_r in Hb by lia; specialize (Hb Vret).
  all: split_and!; [done|done|apply set_bit_wf; [done|lia]|rewrite Hb, Hu; lia|lia| |done].
  all: exists (k * 2 + 1); lia.
Qed.
Lemma div_loop_spec n s vb sub sc ret k :
  wf n sub -> wf n sc -> wf n ret -> Z.of_nat s < BITS n -> 0 < vb ->
  val sc = vb * 2 ^ Z.of_nat s -> val sub < vb * 2 ^ (Z.of_nat s + 1) ->
  val ret = k * 2 ^ (Z.of_nat s + 1) ->
  let '(q, r) := div_loop s sub sc ret in
  wf n q /\ wf n r /\ val q * vb + val r = val ret * vb + val sub /\ val r < vb.
Proof.
  revert sub sc ret k. induction s as [|s IH]; intros sub sc ret k Hsub Hsc Hret Hs Hvb Vsc Vsub Vret.
  all: pose proof (div_step_spec n _ vb sub sc ret k Hsub Hsc Hret Hs Hvb Vsc Vsub Vret) as H.
  all: cbn [div_loop]; destruct (div_step _ sub sc ret) as [[sub' sc'] ret'].
  all: destruct H as (Hw1 & Hw2 & Hw3 & Hv & Hlt & [k' Hk] & Hsc').
  { split_and!; [done..|lia]. }
  rewrite Nat2Z.inj_succ, <- Z.add_1_r in *.
  assert (vb * 2 ^ (Z.of_nat s + 1) / 2 = vb * 2 ^ Z.of_nat s) as Hhalf.
  { rewrite Z.pow_add_r, Z.pow_1_r, Z.mul_assoc, Z.div_mul by lia. done. }
  specialize (IH sub' sc' ret' k' Hw1 Hw2 Hw3 ltac:(lia) Hvb ltac:(lia) Hlt Hk).
  destruct (div_loop s sub' sc' ret') as [q r]. destruct IH as (? & ? & IH & ?).
  split_and!; [done..| |done]. lia.
Qed.
Lemma ushl_val n a s : wf n a -> 0 <= s < BITS n -> val a * 2 ^ s < 2 ^ BITS n ->
  wf n (ushl a s) /\ val (ushl a s) = val a * 2 ^ s.
Proof.
  intros Ha Hs Hlt. pose proof (val_range n a Ha). split; [by apply overflowing_shl_wf|].
  unfold ushl. rewrite (overflowing_shl_val n), (Z.mod_small s) by (unfold BITS in *; done || lia).
  apply Z.mod_small. split; [|done]. apply Z.mul_nonneg_nonneg; [lia|apply Z.pow_nonneg; lia].
Qed.
Lemma nbits_le_BITS n a : wf n a -> nbits (val a) <= BITS n.
Proof.
  intros Ha. pose proof (val_range n a Ha). unfold nbits. destruct (Z.eqb_spec (val a) 0).
  - unfold BITS. lia.
  - pose proof (Z.log2_lt_pow2 (val a) (BITS n)). lia.
Qed.
Lemma div_rem_spec {E} n a b : wf n a -> wf n b -> val b <> 0 ->
  exists q r, div_rem (E := E) a b = Ok (q, r) /\ wf n q /\ wf n r /\
    val q = val a / val b /\ val r = val a mod val b.
Proof.
  intros Ha Hb Hb0. unfold div_rem. rewrite !(bits_spec n) by done.
  pose proof (val_range n a Ha) as Ra. pose proof (val_range n b Hb) as Rb.
  destruct (nbits_bound (val a)) as [Ua La]; [lia|]. destruct (nbits_bound (val b)) as [Ub Lb]; [lia|].
  specialize (Lb Hb0). pose proof (nbits_nonneg (val a)). pose proof (nbits_le_BITS n a Ha).
  assert (1 <= nbits (val b)) as Hnb.
  { unfold nbits. replace (val b =? 0) with false by lia. pose proof (Z.log2_nonneg (val b)). lia. }
  replace (nbits (val b) =? 0) with false by lia. destruct Ha as [Hla Hda]. rewrite Hla.
  assert (wf n a) as Ha by done. pose proof (wf_ZERO n) as Hz. pose proof (val_ZERO n) as Vz.
  destruct (Z.ltb_spec (nbits (val a)) (nbits (val b))) as [Hlt|Hge].
  { exists (ZERO n), a. assert (val a < val b).
    { eapply Z.lt_le_trans; [exact Ua|]. etrans; [|exact Lb]. apply Z.pow_le_mono_r; lia. }
    rewrite Z.div_small, Z.mod_small by lia. done. }
  set (s := nbits (val a) - nbits (val b)).
  assert (val b * 2 ^ s < 2 ^ BITS n) as Hsh.
  { apply Z.lt_le_trans with (2 ^ nbits (val b) * 2 ^ s).
    - apply Z.mul_lt_mono_pos_r; [apply Z.pow_pos_nonneg; lia|done].
    - rewrite <- Z.pow_add_r by lia. apply Z.pow_le_mono_r; lia. }
  destruct (ushl_val n b s Hb ltac:(lia) Hsh) as [Hw Hv].
  pose proof (div_loop_spec n (Z.to_nat s) (val b) a (ushl b s) (ZERO n) 0) as Hloop.
  rewrite Z2Nat.id in Hloop by lia. destruct (div_loop _ a _ _) as [q r]. exists q, r.
  destruct Hloop as (Hq & Hr & He & Hlt); try done; try lia.
  { apply Z.lt_le_trans with (2 ^ nbits (val a)); [done|].
    replace (nbits (val a)) with (nbits (val b) - 1 + (s + 1)) by lia.
    rewrite Z.pow_add_r by lia. apply Z.mul_le_mono_nonneg_r; [apply Z.pow_nonneg; lia|done]. }
  pose proof (val_range n r Hr).
  destruct (Z.div_mod_unique (val b) (val q) (val a / val b) (val r) (val a mod val b)) as [-> ->].
  - left. lia.
  - left. apply Z.mod_pos_bound. lia.
  - rewrite <- Z.div_mod by done. lia.
  - done.
Qed.

(** ** Byte encodings *)
Lemma B256_gt1 : 1 < 256.
Proof. done. Qed.
Lemma concat_chunks8 (L : list bytes) : Forall (fun c => length c = 8%nat) L ->
  chunks8 (length L) (concat L) = L.
Proof.
  induction 1 as [|c L Hc HL IH]; [done|].
  change (length (c :: L)) with (S (length L)). cbn [chunks8 concat].
  rewrite <- Hc, take_app_length, drop_app_length, IH. done.
Qed.
Lemma u64_le_bytes_roundtrip x : is_digit B64 x -> u64_from_le_bytes (u64_to_le_bytes x) = x.
Proof.
  intros Hx. unfold u64_from_le_bytes, u64_to_le_bytes. rewrite undigits_digits by done.
  apply Z.mod_small. exact Hx.
Qed.
Lemma u64_be_bytes_roundtrip x : is_digit B64 x -> u64_from_be_bytes (u64_to_be_bytes x) = x.
Proof.
  intros Hx. unfold u64_from_be_bytes, u64_to_be_bytes. rewrite rev_involutive.
  by apply u64_le_bytes_roundtrip.
Qed.
Lemma map_roundtrip (f : u64 -> bytes) (g : bytes -> u64) n a :
  (forall x, is_digit B64 x -> g (f x) = x) -> (forall x, length (f x) = 8%nat) -> wf n a ->
  map g (chunks8 n (concat (map f a))) = a.
Proof.
  intros Hgf Hf [<- Ha]. rewrite <- (length_map f a), concat_chunks8.
  - rewrite map_map. induction Ha as [|x l Hx Hl IH]; [done|]. simpl. by rewrite Hgf, IH.
  - apply Forall_map, Forall_true. intros x. apply Hf.
Qed.
Lemma le_bytes_roundtrip n a : wf n a -> from_le_bytes n (to_le_bytes a) = a.
Proof.
  apply map_roundtrip; [apply u64_le_bytes_roundtrip|intros; apply length_digits].
Qed.
Lemma be_bytes_roundtrip n a : wf n a -> from_be_bytes n (to_be_bytes a) = a.
Proof.
  intros Ha. unfold from_be_bytes, to_be_bytes. rewrite map_roundtrip.
  - apply rev_involutive.
  - apply u64_be_bytes_roundtrip.
  - intros x. unfold u64_to_be_bytes. by rewrite length_rev, length_digits.
  - by apply wf_rev.
Qed.
Lemma to_le_bytes_val n a : wf n a -> undigits 256 (to_le_bytes a) = val a.
Proof.
  revert a. induction n as [|n IH]; intros a Ha.
  { by apply wf_nil in Ha as ->. }
  apply wf_inv_S in Ha as (x & a' & -> & Hx & Ha). rewrite val_cons, <- (IH a' Ha).
  unfold to_le_bytes. simpl map. cbn [concat]. rewrite undigits_app by done.
  unfold zlen, u64_to_le_bytes at 2. rewrite length_digits.
  pose proof (u64_le_bytes_roundtrip x Hx) as H. unfold u64_from_le_bytes in H. rewrite H. done.
Qed.
Lemma to_be_bytes_rev a : to_be_bytes a = rev (to_le_bytes a).
Proof.
  unfold to_be_bytes, to_le_bytes. induction a as [|x a IH]; [done|].
  change (rev (x :: a)) with (rev a ++ [x]). cbn [map concat].
  rewrite map_app, concat_app, rev_app_distr, <- IH. cbn [map concat]. by rewrite app_nil_r.
Qed.
Lemma length_to_be_bytes a : length (to_be_bytes a) = (8 * length a)%nat.
Proof.
  rewrite to_be_bytes_rev, length_rev. unfold to_le_bytes.
  induction a as [|x a IH]; [done|]. cbn [map concat]. rewrite length_app, IH.
  unfold u64_to_le_bytes. rewrite length_digits. simpl. lia.
Qed.
Lemma strip_zeros_pad b : exists k, b = repeat 0 k ++ strip_zeros b.
Proof.
  induction b as [|x b [k Hk]]; [by exists O|]. simpl. destruct (Z.eqb_spec x 0) as [->|].
  - exists (S k). simpl. by rewrite <- Hk.
  - by exists O.
Qed.
Lemma be_bytes_var_roundtrip n a : wf n a -> from_be_bytes_var n (to_be_bytes_var a) = Ok a.
Proof.
  intros Ha. unfold from_be_bytes_var, to_be_bytes_var. pose proof (be_bytes_roundtrip n a Ha) as H.
  destruct Ha as [Hl _]. pose proof (length_to_be_bytes a) as Hlen.
  destruct (strip_zeros_pad (to_be_bytes a)) as [k Hk]. rewrite Hk in Hlen.
  rewrite length_app, repeat_length, Hl in Hlen.
  replace (8 * n <? _)%nat with false by (symmetry; apply Nat.ltb_ge; lia).
  replace (8 * n - _)%nat with k by lia. by rewrite <- Hk, H.
Qed.

(** ** The contract of the fixed-width integers *)

(** Well-formedness of a concrete limb array. *)
Ltac wf_concrete := split; [reflexivity|repeat (constructor; [done|]); constructor].

Lemma MAX_val n : wf n (MAX n) /\ val (MAX n) = 2 ^ BITS n - 1.
Proof.
  induction n as [|n [IH1 IH2]]; [done|]. change (MAX (S n)) with ((B64 - 1) :: MAX n).
  rewrite wf_cons, val_cons, IH2, pow_BITS_S. split; [|lia]. by split.
Qed.
Lemma overflowing_add_exact n a b : wf n a -> wf n b ->
  val (overflowing_add a b).1 = (val a + val b) mod 2 ^ BITS n /\
  (overflowing_add a b).2 = (2 ^ BITS n <=? val a + val b).
Proof.
  intros Ha Hb. pose proof (overflowing_add_spec n a b Ha Hb) as H.
  pose proof (val_range n a Ha). pose proof (val_range n b Hb).
  destruct (overflowing_add a b) as [r c]. destruct H as [Hr H]. pose proof (val_range n r Hr).
  cbn [fst snd]. split; [apply (Z.mod_unique _ _ (Z.b2z c)); lia|].
  destruct c; simpl Z.b2z in *; symmetry; [apply Z.leb_le|apply Z.leb_gt]; lia.
Qed.
Lemma overflowing_sub_exact n a b : wf n a -> wf n b ->
  val (overflowing_sub a b).1 = (val a - val b) mod 2 ^ BITS n /\
  (overflowing_sub a b).2 = (val a <? val b).
Proof.
  intros Ha Hb. pose proof (overflowing_sub_spec n a b Ha Hb) as H.
  pose proof (val_range n a Ha). pose proof (val_range n b Hb).
  destruct (overflowing_sub a b) as [r c]. destruct H as [Hr H]. pose proof (val_range n r Hr).
  cbn [fst snd]. split; [apply (Z.mod_unique _ _ (- Z.b2z c)); lia|].
  destruct c; simpl Z.b2z in *; symmetry; [apply Z.ltb_lt|apply Z.ltb_ge]; lia.
Qed.

(** ** Operators used by the clients of the integers *)
Lemma from_u64_val n x : is_digit B64 x -> wf (S n) (from_u64 (S n) x) /\ val (from_u64 (S n) x) = x.
Proof.
  intros Hx. change (from_u64 (S n) x) with (x :: ZERO n).
  rewrite wf_cons, val_cons, val_ZERO. split; [split; [done|apply wf_ZERO]|lia].
Qed.
Lemma bitnot_val n a : wf n a -> wf n (bitnot a) /\ val (bitnot a) = 2 ^ BITS n - 1 - val a.
Proof.
  revert a. induction n as [|n IH]; intros a Ha; [by apply wf_nil in Ha as ->|].
  apply wf_inv_S in Ha as (x & a' & -> & Hx & Ha). destruct (IH a' Ha) as [IH1 IH2].
  cbn [bitnot map]. fold (bitnot a'). rewrite wf_cons, !val_cons, IH2, pow_BITS_S.
  unfold is_digit, not_u64 in *. split; [split; [lia|done]|lia].
Qed.
Lemma uadd_val n a b : wf n a -> wf n b ->
  wf n (uadd a b) /\ val (uadd a b) = (val a + val b) mod 2 ^ BITS n.
Proof.
  intros Ha Hb. unfold uadd. split; [|by apply (overflowing_add_exact n)].
  pose proof (overflowing_add_spec n a b Ha Hb) as H. destruct (overflowing_add a b). apply H.
Qed.
Lemma usum_val n l : Forall (wf n) l ->
  wf n (usum n l) /\ val (usum n l) = foldr Z.add 0 (map val l) mod 2 ^ BITS n.
Proof.
  destruct l as [|a l]; intros Hl; [split; [apply wf_ZERO|apply val_ZERO]|].
  apply Forall_cons in Hl as [Ha Hl]. simpl. revert a Ha. induction Hl as [|b l Hb Hl IH]; intros a Ha; simpl.
  { split; [done|]. rewrite Z.add_0_r, Z.mod_small; [done|by apply val_range]. }
  destruct (uadd_val n a b Ha Hb) as [Hw Hv]. destruct (IH _ Hw) as [IH1 IH2]. split; [done|].
  rewrite IH2, Hv, Zplus_mod_idemp_l. f_equal. lia.
Qed.
Lemma uadd_u64_val n a x : wf (S n) a -> is_digit B64 x ->
  wf (S n) (uadd_u64 a x) /\ val (uadd_u64 a x) = (val a + x) mod 2 ^ BITS (S n).
Proof.
  intros Ha Hx. unfold uadd_u64. pose proof (overflowing_add_u64_spec n a x Ha Hx) as H.
  destruct (overflowing_add_u64 a x) as [r c]. destruct H as [Hr H]. split; [done|].
  pose proof (val_range _ r Hr). cbn [fst]. apply (Z.mod_unique _ _ (Z.b2z c)); lia.
Qed.
Lemma umul_u64_val n a x : wf n a -> is_digit B64 x ->
  wf n (umul_u64 a x) /\ val (umul_u64 a x) = (val a * x) mod 2 ^ BITS n.
Proof.
  intros Ha Hx. unfold umul_u64, overflowing_mul_u64. pose proof (carrying_mul_u64_spec n a x Ha Hx) as H.
  destruct (carrying_mul_u64 a x) as [r c]. destruct H as (Hr & Hc & H). split; [done|].
  pose proof (val_range _ r Hr). cbn [fst]. apply (Z.mod_unique _ _ c); lia.
Qed.
Lemma wf_app n m a b : wf n a -> wf m b -> wf (n + m) (a ++ b).
Proof. intros [<- Ha] [<- Hb]. split; [apply length_app|by apply Forall_app]. Qed.
Lemma u320_from_u256_val a : wf 4 a -> wf 5 (u320_from_u256 a) /\ val (u320_from_u256 a) = val a.
Proof.
  intros Ha. split; [apply (wf_app 4 1); [done|by wf_concrete]|].
  unfold u320_from_u256. rewrite val_app. change (val [0]) with 0. lia.
Qed.
Lemma try_from_top n a x : wf n a -> is_digit B64 x -> (x = 0 <-> val (a ++ [x]) < 2 ^ BITS n).
Proof.
  intros Ha [Hx1 Hx2]. rewrite val_app. change (val [x]) with (x + B64 * 0).
  pose proof (val_range n a Ha). destruct Ha as [<- _]. rewrite <- BITS_pow in *.
  unfold zlen in *. split; [intros ->; lia|]. nia.
Qed.
Lemma wf_snoc n a : wf (S n) a -> exists a' x, a = a' ++ [x] /\ wf n a' /\ is_digit B64 x.
Proof.
  intros [Hl Hd]. destruct a as [|x a _] using rev_ind; [done|].
  rewrite length_app in Hl. simpl in Hl. apply Forall_app in Hd as [Hd Hx%Forall_cons]. destruct Hx as [Hx _].
  exists a, x. split; [done|]. split; [split; [lia|done]|done].
Qed.
Lemma u256_try_from_u320_val a : wf 5 a ->
  if val a <? 2 ^ 256 then exists r, u256_try_from_u320 a = Ok r /\ wf 4 r /\ val r = val a
  else u256_try_from_u320 a = Err TryFromInt.
Proof.
  intros Ha. apply wf_snoc in Ha as (r & x & -> & Hr & Hx).
  pose proof (try_from_top 4 r x Hr Hx) as Ht. change (BITS 4) with 256 in Ht.
  unfold u256_try_from_u320, limb. destruct Hr as [Hl Hd].
  rewrite app_nth2, Hl by lia. change (nth (4 - 4) [x] 0) with x.
  destruct (Z.ltb_spec (val (r ++ [x])) (2 ^ 256)); destruct (Z.eqb_spec x 0) as [->|]; try lia; [|done].
  exists r. cbn [negb]. rewrite <- Hl, take_app_length. split; [done|split; [done|]].
  rewrite val_app. change (val [0]) with 0. lia.
Qed.
Lemma u192_try_from_u256_val a : wf 4 a ->
  if val a <? 2 ^ 192 then exists r, u192_try_from_u256 a = Ok r /\ wf 3 r /\ val r = val a
  else u192_try_from_u256 a = Err TryFromInt.
Proof.
  intros Ha. apply wf_snoc in Ha as (r & x & -> & Hr & Hx).
  pose proof (try_from_top 3 r x Hr Hx) as Ht. change (BITS 3) with 192 in Ht.
  unfold u192_try_from_u256, limb. destruct Hr as [Hl Hd].
  rewrite app_nth2, Hl by lia. change (nth (3 - 3) [x] 0) with x.
  destruct (Z.ltb_spec (val (r ++ [x])) (2 ^ 192)); destruct (Z.eqb_spec x 0) as [->|]; try lia; [|done].
  exists r. cbn [negb]. rewrite <- Hl, take_app_length. split; [done|split; [done|]].
  rewrite val_app. change (val [0]) with 0. lia.
Qed.

(** Addition and subtraction of the fixed-width integers, at every number
    of limbs: the wrapped result is the sum (difference) modulo 2^BITS, the flag
    is raised exactly when it overflows (underflows), the saturating forms clamp
    to the range, and the comparison is that of the represented integers. *)
Theorem uint_add_sub n a b (Ha : wf n a) (Hb : wf n b) :
  val (overflowing_add a b).1 = (val a + val b) mod 2 ^ BITS n /\
  (overflowing_add a b).2 = (2 ^ BITS n <=? val a + val b) /\
  val (overflowing_sub a b).1 = (val a - val b) mod 2 ^ BITS n /\
  (overflowing_sub a b).2 = (val a <? val b) /\
  val (saturating_add a b) = Z.min (val a + val b) (2 ^ BITS n - 1) /\
  val (saturating_sub a b) = Z.max (val a - val b) 0 /\
  cmp a b = (val a ?= val b).
Proof.
  destruct (overflowing_add_exact n a b Ha Hb) as [Ea Fa].
  destruct (overflowing_sub_exact n a b Ha Hb) as [Es Fs].
  pose proof (val_range n a Ha). pose proof (val_range n b Hb).
  split_and!; try done; [..|by apply (cmp_spec n)].
  - unfold saturating_add. destruct (overflowing_add a b) as [r c]. simpl in Ea, Fa. subst c.
    destruct Ha as [-> _]. destruct (Z.leb_spec (2 ^ BITS n) (val a + val b)).
    + rewrite (proj2 (MAX_val n)). lia.
    + rewrite Ea, Z.mod_small; lia.
  - unfold saturating_sub. destruct (overflowing_sub a b) as [r c]. simpl in Es, Fs. subst c.
    destruct (Z.ltb_spec (val a) (val b)).
    + rewrite val_ZERO. lia.
    + rewrite Es, Z.mod_small; lia.
Qed.
Lemma uint_add_sub_witness : let a := from_u64 4 7 in let b := from_u64 4 9 in
  (overflowing_sub a b).2 = true /\ saturating_sub a b = ZERO 4 /\
  (overflowing_sub a b).2 = (val a <? val b).
Proof.
  intros a b. split; [vm_compute; done|]. split; [vm_compute; done|].
  assert (wf 4 a) as Ha by wf_concrete.
  assert (wf 4 b) as Hb by wf_concrete.
  apply (uint_add_sub 4 a b Ha Hb).
Defined.

(** Long division of the fixed-width integers: for a non-zero divisor
    [div_rem] returns (it never runs out of iterations) the Euclidean quotient
    and remainder of the represented integers, [div_rem_u64] agrees with it on
    one-limb divisors, and a zero divisor panics. *)
Theorem uint_div_rem n a b (Ha : wf n a) (Hb : wf n b) :
  (val b = 0 -> div_rem (E := Empty_set) a b = Panic) /\
  (val b <> 0 -> exists q r, div_rem (E := Empty_set) a b = Ok (q, r) /\ wf n q /\ wf n r /\
     val q = val a / val b /\ val r = val a mod val b) /\
  (forall d, 0 < d < 2 ^ 64 -> exists q,
     div_rem_u64 (E := Empty_set) a d = Ok (q, val a mod d) /\ wf n q /\ val q = val a / d).
Proof.
  split_and!.
  - intros H0. unfold div_rem. by rewrite (bits_spec n b Hb), H0.
  - by apply div_rem_spec.
  - intros d Hd. apply div_rem_u64_spec; [done|split; [lia|apply Hd]|lia].
Qed.
Lemma uint_div_rem_witness : exists q r,
  div_rem (E := Empty_set) (from_u128 4 (2 ^ 100)) (from_u64 4 7) = Ok (q, r) /\ val q = 2 ^ 100 / 7.
Proof.
  assert (wf 4 (from_u128 4 (2 ^ 100))) as Ha by wf_concrete.
  assert (wf 4 (from_u64 4 7)) as Hb by wf_concrete.
  destruct (uint_div_rem 4 _ _ Ha Hb) as (_ & H & _).
  destruct H as (q & r & He & _ & _ & Hq & _); [vm_compute; done|]. exists q, r.
  split; [exact He|]. rewrite Hq. vm_compute. done.
Defined.

(** Multiplication and shifts: the product and the left shift are exact
    modulo 2^BITS, the right shift is floor division, a raised multiplication
    flag is never spurious, and shift amounts are taken modulo BITS. *)
Theorem uint_mul_shift n a b s (Ha : wf n a) (Hb : wf n b) (Hn : (0 < n)%nat) (Hs : 0 <= s) :
  val (overflowing_mul a b).1 = (val a * val b) mod 2 ^ BITS n /\
  ((overflowing_mul a b).2 = true -> 2 ^ BITS n <= val a * val b) /\
  val (overflowing_shl a s).1 = (val a * 2 ^ (s mod BITS n)) mod 2 ^ BITS n /\
  val (overflowing_shr a s).1 = val a / 2 ^ (s mod BITS n) /\
  bits a = (if val a =? 0 then 0 else Z.log2 (val a) + 1).
Proof.
  pose proof (overflowing_mul_spec n a b Ha Hb) as H. destruct (overflowing_mul a b) as [r co].
  destruct H as (Hr & Hv & Hco). split_and!; [done..| | |].
  - by apply overflowing_shl_val.
  - by apply overflowing_shr_val.
  - by apply (bits_spec n).
Qed.
Lemma uint_mul_shift_witness :
  val (overflowing_shl (from_u64 4 5) 200).1 = 5 * 2 ^ 200 /\ bits (from_u64 4 5) = 3.
Proof.
  assert (wf 4 (from_u64 4 5)) as Ha by wf_concrete.
  destruct (uint_mul_shift 4 _ _ 200 Ha Ha ltac:(lia) ltac:(lia)) as (_ & _ & H & _ & Hb).
  rewrite H, Hb. split; vm_compute; done.
Defined.

(** The overflow flag of [overflowing_mul] is not complete: products of
    limbs whose positions add up to at least the number of limbs are skipped
    without being inspected.  At 256 bits, 2^192 * 2^192 overflows while the
    result is zero with the flag down. *)
Theorem overflowing_mul_flag_incomplete : exists a : limbs,
  wf 4 a /\ val a = 2 ^ 192 /\ 2 ^ BITS 4 <= val a * val a /\
  overflowing_mul a a = (ZERO 4, false).
Proof.
  exists [0; 0; 0; 1]. split; [wf_concrete|].
  vm_compute. done.
Qed.

(** Byte encodings: little-endian, big-endian and the variable-length
    big-endian form (without leading zeros) all decode to the integer they
    encode; the little-endian bytes are its base-256 digits; and a too long
    variable-length input is an error. *)
Theorem uint_bytes_roundtrip n a b (Ha : wf n a) :
  from_le_bytes n (to_le_bytes a) = a /\ from_be_bytes n (to_be_bytes a) = a /\
  from_be_bytes_var n (to_be_bytes_var a) = Ok a /\
  undigits 256 (to_le_bytes a) = val a /\ to_be_bytes a = rev (to_le_bytes a) /\
  ((8 * n < length b)%nat -> from_be_bytes_var n b = Err TryFromSlice).
Proof.
  split_and!; [by apply le_bytes_roundtrip|by apply be_bytes_roundtrip
    |by apply be_bytes_var_roundtrip|by apply (to_le_bytes_val n)|apply to_be_bytes_rev|].
  intros Hlt. unfold from_be_bytes_var. by rewrite (proj2 (Nat.ltb_lt _ _) Hlt).
Qed.
Lemma uint_bytes_roundtrip_witness :
  from_be_bytes_var 4 (to_be_bytes_var (from_u64 4 300)) = Ok (from_u64 4 300) /\
  to_be_bytes_var (from_u64 4 300) = [1; 44].
Proof.
  assert (wf 4 (from_u64 4 300)) as Ha by wf_concrete.
  split; [|vm_compute; done]. apply (uint_bytes_roundtrip 4 _ [] Ha).
Defined.
