(* ===== verification/Target.v ===== *)
(** * Difficulty targets and work

    The compact encoding of 256-bit targets
    ([math/src/lib.rs]: [Uint256::from_compact_target_bits],
    [Uint256::compact_target_bits]), the work of a target and of a block level
    ([consensus/src/processes/difficulty.rs]: [calc_work], [level_work]) and the
    block level of a proof of work ([consensus/pow/src/lib.rs]:
    [calc_level_from_pow], [check_pow]).  The definitions compute on limb arrays
    with the operators of [Uint]; the theorems are about the represented
    integers. *)

From S2P Require Import Prelude Uint.

(** ** Compact targets *)
Definition from_compact_target_bits (bits : u32) : limbs :=
  let '(mant, expt) :=
    let unshifted_expt := Z.shiftr bits 24 in
    if unshifted_expt <=? 3
    then (Z.shiftr (Z.land bits 0xFFFFFF) (8 * (3 - unshifted_expt)), 0)
    else (Z.land bits 0xFFFFFF, 8 * (Z.shiftr bits 24 - 3)) in
  if 0x7FFFFF <? mant then ZERO 4 else ushl (from_u64 4 mant) expt.

Definition compact_target_bits (self : limbs) : u32 :=
  let size := div_ceil (bits self) 8 in
  let compact :=
    if size <=? 3 then wrap 32 (shl_u64 (as_u64 self) (8 * (3 - size)))
    else
      let bn := ushr self (8 * (size - 3)) in
      wrap 32 (as_u64 bn) in
  let '(compact, size) :=
    if negb (Z.land compact 0x00800000 =? 0) then (Z.shiftr compact 8, size + 1)
    else (compact, size) in
  Z.lor compact (wrap 32 (Z.shiftl size 24)).

(** ** Work *)
Definition udiv_limbs {E} (a b : limbs) : res E limbs := fst <$> div_rem a b.

Definition calc_work {E} (bits : u32) : res E limbs :=
  let target := from_compact_target_bits bits in
  q ← udiv_limbs (bitnot target) (uadd_u64 target 1);
  match u192_try_from_u256 (uadd_u64 q 1) with Ok w => Ok w | _ => Panic end.

Definition MAX_WORK_LEVEL : Z := 128.
Definition level_work {E} (level max_block_level : u8) : res E limbs :=
  if level =? 0 then Ok (ZERO 3)
  else
    e ← chk 32 (level + 256);
    exp ← chk 32 (e - max_block_level);
    Ok (ushl (from_u64 3 1) (Z.min exp MAX_WORK_LEVEL)).

(** ** Proof of work *)

(** [max(max_block_level as i64 - pow.bits() as i64, 0) as u8]. *)
Definition calc_level_from_pow (pow : limbs) (max_block_level : u8) : u8 :=
  wrap 8 (Z.max (max_block_level - bits pow) 0).
(** The comparison of [check_pow], for the hash value [pow]. *)
Definition check_pow (target pow : limbs) : bool * limbs :=
  (match cmp pow target with Gt => false | _ => true end, pow).

(** ** The integers a compact target stands for *)

(** The mantissa of [t] at [s] bytes: its three leading bytes. *)
Definition mant (t s : Z) : Z :=
  if s <=? 3 then t * 2 ^ (8 * (3 - s)) else t / 2 ^ (8 * (s - 3)).
(** The size and the mantissa [compact_target_bits] settles on. *)
Definition csize (t : Z) : Z := nbits t / 8 + 1.
Definition cmant (t : Z) : Z := mant t (csize t).
(** The value of a mantissa at a size. *)
Definition expand (m s : Z) : Z :=
  if s <=? 3 then m / 2 ^ (8 * (3 - s)) else m * 2 ^ (8 * (s - 3)).

Lemma nbits_pos t : 0 < t -> 1 <= nbits t /\ 2 ^ (nbits t - 1) <= t < 2 ^ nbits t.
Proof.
  intros Ht. destruct (nbits_bound t) as [H1 H2]; [lia|]. specialize (H2 ltac:(lia)).
  split; [|done]. unfold nbits. replace (t =? 0) with false by lia.
  pose proof (Z.log2_nonneg t). lia.
Qed.
Lemma nbits_mul_pow2 t k : 0 < t -> 0 <= k -> nbits (t * 2 ^ k) = nbits t + k.
Proof.
  intros Ht Hk. destruct (nbits_pos t Ht) as [H1 [H2 H3]]. assert (0 < 2 ^ k) by (apply Z.pow_pos_nonneg; lia).
  apply nbits_unique; [lia|].
  replace (nbits t + k - 1) with (nbits t - 1 + k) by lia. rewrite !Z.pow_add_r by lia. nia.
Qed.
Lemma nbits_div_pow2 t k : 0 < t -> 0 <= k < nbits t -> nbits (t / 2 ^ k) = nbits t - k.
Proof.
  intros Ht Hk. destruct (nbits_pos t Ht) as [H1 [H2 H3]]. assert (0 < 2 ^ k) by (apply Z.pow_pos_nonneg; lia).
  apply nbits_unique; [lia|]. split.
  - apply Z.div_le_lower_bound; [done|]. rewrite <- Z.pow_add_r by lia.
    by replace (k + _) with (nbits t - 1) by lia.
  - apply Z.div_lt_upper_bound; [done|]. rewrite <- Z.pow_add_r by lia.
    by replace (k + _) with (nbits t) by lia.
Qed.
Lemma nbits_mant t s : 0 < t -> 0 <= s -> 8 * (s - 3) < nbits t ->
  nbits (mant t s) = nbits t - 8 * (s - 3) /\ 0 < mant t s.
Proof.
  intros Ht Hs Hb. assert (nbits (mant t s) = nbits t - 8 * (s - 3)) as Hm.
  { unfold mant. destruct (Z.leb_spec s 3).
    - rewrite nbits_mul_pow2 by lia. lia.
    - by rewrite nbits_div_pow2 by lia. }
  split; [done|]. assert (0 <= mant t s).
  { unfold mant. destruct (Z.leb_spec s 3); [apply Z.mul_nonneg_nonneg; [lia|apply Z.pow_nonneg; lia]|].
    apply Z.div_pos; [lia|]. apply Z.pow_pos_nonneg; lia. }
  destruct (Z.eq_dec (mant t s) 0) as [He|]; [|lia]. rewrite He in Hm. change (nbits 0) with 0 in Hm. lia.
Qed.
Lemma mant_div t s : 0 <= s -> mant t s / 256 = mant t (s + 1).
Proof.
  intros Hs. unfold mant. destruct (Z.leb_spec s 3), (Z.leb_spec (s + 1) 3); try lia.
  - replace (8 * (3 - s)) with (8 * (3 - (s + 1)) + 8) by lia.
    rewrite Z.pow_add_r, Z.mul_assoc by lia. by rewrite Z.div_mul.
  - replace s with 3 by lia. rewrite Z.mul_1_r. done.
  - change 256 with (2 ^ 8). rewrite Z.div_div by (try apply Z.pow_pos_nonneg; lia).
    rewrite <- Z.pow_add_r by lia. do 2 f_equal. lia.
Qed.
Lemma csize_bits t : 8 * csize t - 8 <= nbits t < 8 * csize t.
Proof.
  unfold csize. pose proof (Z.div_mod (nbits t) 8 ltac:(lia)).
  pose proof (Z.mod_pos_bound (nbits t) 8 ltac:(lia)). lia.
Qed.
Lemma cmant_range t : 0 < t -> 2 ^ 15 <= cmant t < 2 ^ 23 /\ 1 <= csize t.
Proof.
  intros Ht. pose proof (csize_bits t). destruct (nbits_pos t Ht) as [Hb _].
  assert (1 <= csize t) as Hs by lia.
  destruct (nbits_mant t (csize t) Ht ltac:(lia) ltac:(lia)) as [Hn Hp]. fold (cmant t) in *.
  destruct (nbits_pos (cmant t) Hp) as [_ [Hlo Hhi]]. split; [|done]. split.
  - etrans; [|exact Hlo]. apply Z.pow_le_mono_r; lia.
  - eapply Z.lt_le_trans; [exact Hhi|]. apply Z.pow_le_mono_r; lia.
Qed.

(** ** Correctness of the encoder and of the decoder *)
Lemma bit23_spec c : 0 <= c < 2 ^ 24 -> negb (Z.land c 0x00800000 =? 0) = (2 ^ 23 <=? c).
Proof.
  intros Hc. change 0x00800000 with (Z.shiftl 1 23).
  assert (Z.land c (Z.shiftl 1 23) = Z.b2z (Z.testbit c 23) * 2 ^ 23) as ->.
  { apply Z.bits_inj'. intros j Hj. rewrite Z.land_spec, <- Z.shiftl_mul_pow2, !Z.shiftl_spec by lia.
    destruct (Z.lt_trichotomy j 23) as [Hl|[->|Hl]].
    - rewrite (Z.testbit_neg_r 1), (Z.testbit_neg_r (Z.b2z _)), andb_false_r by lia. done.
    - change (Z.testbit 1 (23 - 23)) with true. rewrite andb_true_r. by destruct (Z.testbit c 23).
    - change 1 with (2 ^ 0). rewrite Z.pow2_bits_false, andb_false_r by lia.
      destruct (Z.testbit c 23); simpl Z.b2z; [|by rewrite Z.bits_0].
      change 1 with (2 ^ 0). by rewrite Z.pow2_bits_false by lia. }
  rewrite Z.testbit_spec' by lia. pose proof (Z.div_mod c (2 ^ 23) ltac:(lia)).
  pose proof (Z.mod_pos_bound c (2 ^ 23) ltac:(lia)).
  assert (c / 2 ^ 23 = 0 \/ c / 2 ^ 23 = 1) as [Hq|Hq] by lia; rewrite Hq; simpl; lia.
Qed.
Lemma as_u64_val n a : wf n a -> as_u64 a = val a mod 2 ^ 64.
Proof. intros Ha. unfold as_u64. rewrite (limb_spec n) by done. by rewrite Z.div_1_r. Qed.

(** The mantissa the encoder first extracts, at [ceil(bits / 8)] bytes. *)
Lemma first_mantissa a : wf 4 a -> 0 < val a ->
  let size := div_ceil (bits a) 8 in
  (if size <=? 3 then wrap 32 (shl_u64 (as_u64 a) (8 * (3 - size)))
   else wrap 32 (as_u64 (ushr a (8 * (size - 3))))) = mant (val a) size /\
  0 <= mant (val a) size < 2 ^ 24 /\ 1 <= size <= 32 /\
  8 * size - 7 <= nbits (val a) <= 8 * size.
Proof.
  intros Ha Hpos. rewrite (bits_spec 4) by done. intros size.
  destruct (nbits_pos _ Hpos) as [Hb _]. pose proof (nbits_le_BITS 4 a Ha) as Hle. change (BITS 4) with 256 in Hle.
  assert (8 * size - 7 <= nbits (val a) <= 8 * size) as Hsz.
  { unfold size, div_ceil. pose proof (Z.div_mod (nbits (val a) + 8 - 1) 8 ltac:(lia)).
    pose proof (Z.mod_pos_bound (nbits (val a) + 8 - 1) 8 ltac:(lia)). lia. }
  destruct (nbits_mant (val a) size Hpos ltac:(lia) ltac:(lia)) as [Hm Hmp].
  assert (mant (val a) size < 2 ^ 24) as Hm24.
  { eapply Z.lt_le_trans; [apply (nbits_pos _ Hmp)|]. apply Z.pow_le_mono_r; lia. }
  split; [|lia]. unfold mant in *. pose proof (val_range 4 a Ha) as Hr.
  destruct (Z.leb_spec size 3) as [Hs|Hs].
  - unfold shl_u64, wrap. rewrite (as_u64_val 4) by done.
    assert (val a < 2 ^ 24).
    { eapply Z.lt_le_trans; [apply (nbits_pos _ Hpos)|]. apply Z.pow_le_mono_r; lia. }
    rewrite (Z.mod_small (val a)), Z.shiftl_mul_pow2 by lia. rewrite (Z.mod_small _ (2 ^ 64)) by lia.
    by rewrite Z.mod_small by lia.
  - unfold ushr. pose proof (overflowing_shr_wf 4 a (8 * (size - 3)) Ha) as Hw.
    rewrite (as_u64_val 4) by done. rewrite (overflowing_shr_val 4) by (done || lia).
    change (BITS 4) with 256. rewrite (Z.mod_small (8 * (size - 3))) by lia.
    unfold wrap. rewrite (Z.mod_small _ (2 ^ 64)) by lia. by rewrite Z.mod_small by lia.
Qed.
Lemma compact_target_bits_spec a : wf 4 a -> 0 < val a ->
  compact_target_bits a = cmant (val a) + 2 ^ 24 * csize (val a) /\ csize (val a) <= 33.
Proof.
  intros Ha Hpos. destruct (first_mantissa a Ha Hpos) as (Hm & Hr & Hs & Hb).
  unfold compact_target_bits. rewrite Hm. set (size := div_ceil (bits a) 8) in *.
  rewrite bit23_spec by done. pose proof (csize_bits (val a)) as Hc.
  destruct (nbits_mant (val a) size Hpos ltac:(lia) ltac:(lia)) as [Hn Hp].
  destruct (nbits_pos _ Hp) as [_ [Hlo Hhi]].
  assert (forall m s, 0 <= m < 2 ^ 24 -> 0 <= s <= 33 ->
    Z.lor m (wrap 32 (Z.shiftl s 24)) = m + 2 ^ 24 * s) as Hlor.
  { intros m s Hms Hss. unfold wrap. rewrite Z.mod_small by (rewrite Z.shiftl_mul_pow2; lia).
    rewrite Z.lor_comm, lor_pow2_add by lia. lia. }
  destruct (Z.leb_spec (2 ^ 23) (mant (val a) size)) as [H23|H23].
  - assert (nbits (val a) = 8 * size) as He.
    { destruct (Z.lt_ge_cases (nbits (mant (val a) size)) 24) as [Hl|]; [|lia].
      pose proof (Z.pow_le_mono_r 2 (nbits (mant (val a) size)) 23 ltac:(lia) ltac:(lia)). lia. }
    assert (csize (val a) = size + 1) as Hcs by lia. unfold cmant. rewrite Hcs, Z.shiftr_div_pow2 by lia.
    change (2 ^ 8) with 256. rewrite mant_div by lia. split; [|lia]. apply Hlor; [|lia].
    rewrite <- mant_div by lia. split; [apply Z.div_pos; lia|apply Z.div_lt_upper_bound; lia].
  - assert (csize (val a) = size) as Hcs.
    { destruct (Z.lt_ge_cases (nbits (mant (val a) size)) 24) as [Hl|Hg]; [lia|].
      pose proof (Z.pow_le_mono_r 2 23 (nbits (mant (val a) size) - 1) ltac:(lia) ltac:(lia)). lia. }
    unfold cmant. rewrite Hcs. split; [|lia]. apply Hlor; lia.
Qed.
Lemma compact_target_bits_zero a : wf 4 a -> val a = 0 -> compact_target_bits a = 0.
Proof.
  intros Ha H0. rewrite (val_inj 4 a (ZERO 4) Ha (wf_ZERO 4)); [done|]. by rewrite val_ZERO.
Qed.

Lemma from_compact_wf b : wf 4 (from_compact_target_bits b).
Proof.
  unfold from_compact_target_bits. destruct (if _ <=? 3 then _ else _) as [m e] eqn:He.
  destruct (Z.ltb_spec 0x7FFFFF m); [apply wf_ZERO|]. apply overflowing_shl_wf.
  apply from_u64_val. assert (0 <= m); [|split; [lia|]; apply Z.le_lt_trans with 0x7FFFFF; done].
  destruct (_ <=? 3) in He; injection He as <- _; [apply Z.shiftr_nonneg|]; apply Z.land_nonneg; lia.
Qed.
Lemma from_compact_spec m s : 0 <= m < 2 ^ 23 -> 0 <= s ->
  (3 < s -> s <= 34) ->
  val (from_compact_target_bits (m + 2 ^ 24 * s)) = expand m s mod 2 ^ 256.
Proof.
  intros Hm Hs Hs34. unfold from_compact_target_bits, expand.
  assert (Z.shiftr (m + 2 ^ 24 * s) 24 = s) as ->.
  { rewrite Z.shiftr_div_pow2, Z.mul_comm, Z.div_add, Z.div_small by lia. lia. }
  assert (Z.land (m + 2 ^ 24 * s) 0xFFFFFF = m) as ->.
  { change 0xFFFFFF with (Z.ones 24). rewrite Z.land_ones, Z.mul_comm, Z.mod_add, Z.mod_small by lia. done. }
  destruct (Z.leb_spec s 3) as [Hle|Hgt].
  - rewrite Z.shiftr_div_pow2 by lia. set (k := 2 ^ (8 * (3 - s))).
    assert (0 < k) by (apply Z.pow_pos_nonneg; lia).
    assert (0 <= m / k < 2 ^ 23) by (split; [apply Z.div_pos; lia|apply Z.div_lt_upper_bound; nia]).
    replace (0x7FFFFF <? m / k) with false by lia.
    destruct (from_u64_val 3 (m / k)) as [Hw Hv]; [split; [lia|]; apply Z.lt_trans with (2 ^ 23); [lia|done]|].
    unfold ushl. rewrite (overflowing_shl_val 4), Hv by (done || lia).
    change (0 mod BITS 4) with 0. by rewrite Z.mul_1_r.
  - replace (0x7FFFFF <? m) with false by lia.
    destruct (from_u64_val 3 m) as [Hw Hv]; [split; [lia|]; apply Z.lt_trans with (2 ^ 23); [lia|done]|].
    unfold ushl. rewrite (overflowing_shl_val 4), Hv by (done || lia).
    change (BITS 4) with 256. rewrite (Z.mod_small (8 * (s - 3))) by lia. done.
Qed.

Lemma expand_cmant t : 0 < t ->
  expand (cmant t) (csize t) <= t /\ (t - expand (cmant t) (csize t)) * 2 ^ 15 <= t /\
  0 < expand (cmant t) (csize t) /\
  cmant (expand (cmant t) (csize t)) = cmant t /\ csize (expand (cmant t) (csize t)) = csize t.
Proof.
  intros Ht. destruct (cmant_range t Ht) as [Hm Hs]. destruct (Z.le_gt_cases (csize t) 3) as [Hle|Hgt].
  { assert (expand (cmant t) (csize t) = t) as ->; [|lia]. unfold expand, cmant, mant.
    rewrite (proj2 (Z.leb_le _ _) Hle). apply Z.div_mul. apply Z.pow_nonzero; lia. }
  set (e := 8 * (csize t - 3)) in *. set (m := t / 2 ^ e) in *.
  assert (cmant t = m) as Hcm by (unfold cmant, mant; by rewrite (proj2 (Z.leb_gt _ _) Hgt)).
  assert (expand (cmant t) (csize t) = m * 2 ^ e) as ->.
  { unfold expand. by rewrite (proj2 (Z.leb_gt _ _) Hgt), Hcm. }
  rewrite Hcm in *.
  assert (0 < 2 ^ e) by (apply Z.pow_pos_nonneg; lia).
  pose proof (Z.div_mod t (2 ^ e) ltac:(lia)) as Hd. pose proof (Z.mod_pos_bound t (2 ^ e) ltac:(lia)).
  fold m in Hd. assert (csize (m * 2 ^ e) = csize t) as Hc.
  { pose proof (csize_bits (m * 2 ^ e)) as Hb. rewrite nbits_mul_pow2 in Hb by lia.
    assert (16 <= nbits m < 24); [|lia]. destruct (nbits_pos m ltac:(lia)) as [? [Hlo Hhi]]. split.
    - destruct (Z.lt_ge_cases (nbits m) 16) as [Hl|]; [|lia].
      pose proof (Z.pow_le_mono_r 2 (nbits m) 15 ltac:(lia) ltac:(lia)). lia.
    - destruct (Z.lt_ge_cases (nbits m) 24) as [Hl|]; [lia|].
      pose proof (Z.pow_le_mono_r 2 23 (nbits m - 1) ltac:(lia) ltac:(lia)). lia. }
  split_and!; [lia|nia|nia| |done].
  unfold cmant, mant. rewrite Hc, (proj2 (Z.leb_gt _ _) Hgt). apply Z.div_mul. lia.
Qed.

(** The compact target encoding loses at most one part in 2^15 and never
    rounds up: decoding the encoding of any 256-bit target gives a target that
    is not larger, off by less than its 2^-15th part, and that encodes to the
    same bits again.  Zero encodes to zero. *)
Theorem compact_target_roundtrip a (Ha : wf 4 a) :
  let r := from_compact_target_bits (compact_target_bits a) in
  val r <= val a /\ (val a - val r) * 2 ^ 15 <= val a /\
  compact_target_bits r = compact_target_bits a /\ (val a = 0 -> compact_target_bits a = 0).
Proof.
  intros r. pose proof (from_compact_wf (compact_target_bits a)) as Hwr. fold r in Hwr.
  pose proof (val_range 4 a Ha) as Hr.
  destruct (Z.eq_dec (val a) 0) as [H0|Hne].
  { pose proof (compact_target_bits_zero a Ha H0) as Hz. unfold r. rewrite Hz. rewrite H0. done. }
  assert (0 < val a) as Hpos by lia.
  destruct (compact_target_bits_spec a Ha Hpos) as [Hc H33].
  destruct (cmant_range _ Hpos) as [Hm Hs]. destruct (expand_cmant _ Hpos) as (E1 & E2 & E3 & E4 & E5).
  assert (val r = expand (cmant (val a)) (csize (val a))) as Hv.
  { unfold r. rewrite Hc, from_compact_spec by lia. apply Z.mod_small.
    change (BITS 4) with 256 in Hr. lia. }
  rewrite Hv. split_and!; [done..| |lia].
  rewrite Hc. destruct (compact_target_bits_spec r Hwr) as [-> _]; [lia|].
  by rewrite Hv, E4, E5.
Qed.
Lemma compact_target_roundtrip_witness :
  let a := from_u64 4 0x123456789 in
  val (from_compact_target_bits (compact_target_bits a)) <= val a /\
  compact_target_bits a = 0x05012345.
Proof.
  intros a. assert (wf 4 a) as Ha by wf_concrete.
  split; [apply (compact_target_roundtrip a Ha)|vm_compute; done].
Defined.

(** ** Work *)
Lemma udiv_limbs_val {E} n a b : wf n a -> wf n b -> val b <> 0 ->
  exists q, udiv_limbs (E := E) a b = Ok q /\ wf n q /\ val q = val a / val b.
Proof.
  intros Ha Hb Hb0. destruct (div_rem_spec (E := E) n a b Ha Hb Hb0) as (q & r & He & Hq & _ & Hv & _).
  exists q. unfold udiv_limbs. by rewrite He.
Qed.
Lemma work_quotient t M : 0 < t -> t + 1 <= M -> (M - 1 - t) / (t + 1) + 1 = M / (t + 1).
Proof.
  intros Ht HM. replace (M / (t + 1)) with ((M - 1 - t + 1 * (t + 1)) / (t + 1)) by (f_equal; lia).
  rewrite Z.div_add by lia. done.
Qed.
Lemma calc_work_cases (b : u32) :
  let t := val (from_compact_target_bits b) in
  t < 2 ^ 256 - 1 ->
  (t = 0 -> calc_work (E := Empty_set) b = Ok (ZERO 3)) /\
  (0 < t < 2 ^ 64 -> calc_work (E := Empty_set) b = Panic) /\
  (2 ^ 64 <= t -> exists w, calc_work (E := Empty_set) b = Ok w /\ wf 3 w /\ val w = 2 ^ 256 / (t + 1)).
Proof.
  intros t Hmax. unfold calc_work. pose proof (from_compact_wf b) as Hw. fold t in Hmax.
  pose proof (val_range 4 _ Hw) as Hr. fold t in Hr. change (BITS 4) with 256 in Hr.
  destruct (bitnot_val 4 _ Hw) as [Wn Vn]. destruct (uadd_u64_val 3 _ 1 Hw ltac:(done)) as [Wp Vp].
  fold t in Vn, Vp. change (BITS 4) with 256 in *. rewrite Z.mod_small in Vp by lia.
  destruct (udiv_limbs_val (E := Empty_set) 4 _ _ Wn Wp ltac:(lia)) as (q & -> & Wq & Vq).
  cbn [mbind res_bind]. destruct (uadd_u64_val 3 q 1 Wq ltac:(done)) as [Wr Vr].
  change (BITS 4) with 256 in *. rewrite Vq, Vn, Vp in Vr.
  pose proof (u192_try_from_u256_val _ Wr) as Hc. rewrite Vr in Hc.
  destruct (Z.eq_dec t 0) as [H0|Hne].
  { split_and!; [intros _|lia|lia]. rewrite H0 in Hc.
    replace (((2 ^ 256 - 1 - 0) / (0 + 1) + 1) mod 2 ^ 256) with 0 in Hc by (vm_compute; done).
    rewrite (proj2 (Z.ltb_lt 0 (2 ^ 192)) ltac:(done)) in Hc. destruct Hc as (w & -> & Ww & Hv).
    f_equal. apply (val_inj 3); [done|apply wf_ZERO|]. by rewrite Hv. }
  rewrite work_quotient in Hc by lia.
  assert (2 ^ 256 / (t + 1) < 2 ^ 256) by (apply Z.div_lt_upper_bound; lia).
  rewrite Z.mod_small in Hc by (split; [apply Z.div_pos; lia|done]).
  split_and!; [lia|intros Hlt|intros Hge].
  - rewrite (proj2 (Z.ltb_ge _ _)) in Hc by (apply Z.div_le_lower_bound; lia). by rewrite Hc.
  - rewrite (proj2 (Z.ltb_lt _ _)) in Hc by (apply Z.div_lt_upper_bound; lia).
    destruct Hc as (w & -> & Ww & Hv). eauto.
Qed.
Lemma shl_even_odd m e M : 0 < e -> 0 < M -> (m * 2 ^ e) mod 2 ^ M <> 2 ^ M - 1.
Proof.
  intros He HM Heq. assert (Z.testbit ((m * 2 ^ e) mod 2 ^ M) 0 = false) as Hf.
  { rewrite Z.mod_pow2_bits_low, Z.mul_pow2_bits_low by lia. done. }
  replace (2 ^ M - 1) with (Z.ones M) in Heq by (rewrite Z.ones_equiv; lia).
  rewrite Heq, Z.ones_spec_low in Hf by lia. done.
Qed.
Lemma from_compact_lt_max b : inW 32 b -> val (from_compact_target_bits b) < 2 ^ 256 - 1.
Proof.
  intros Hb. pose proof (val_range 4 _ (from_compact_wf b)) as Hr. change (BITS 4) with 256 in Hr.
  assert (val (from_compact_target_bits b) <> 2 ^ 256 - 1); [|lia]. clear Hr.
  unfold from_compact_target_bits. destruct (if _ <=? 3 then _ else _) as [m e] eqn:He.
  destruct (Z.ltb_spec 0x7FFFFF m) as [Hlt|Hle]; [by rewrite val_ZERO|].
  assert (0 <= m /\ exists k, 0 <= k /\ e = 8 * k) as (Hm & k & Hk & ->).
  { destruct (Z.leb_spec (Z.shiftr b 24) 3) as [Hx|Hx]; injection He as <- <-.
    - split; [apply Z.shiftr_nonneg, Z.land_nonneg; lia|by exists 0].
    - split; [apply Z.land_nonneg; lia|exists (Z.shiftr b 24 - 3); lia]. }
  destruct (from_u64_val 3 m) as [Hw Hv]; [split; [lia|]; apply Z.le_lt_trans with 0x7FFFFF; done|].
  unfold ushl. rewrite (overflowing_shl_val 4), Hv by (done || lia). change (BITS 4) with 256.
  pose proof (Z.mod_pos_bound (8 * k) 256 ltac:(lia)) as Hp.
  destruct (Z.eq_dec ((8 * k) mod 256) 0) as [->|]; [|apply shl_even_odd; lia].
  rewrite Z.mul_1_r, Z.mod_small; [lia|]. split; [lia|]. apply Z.le_lt_trans with 0x7FFFFF; done.
Qed.

(** The work of compact bits is floor(2^256 / (target + 1)) whenever the
    target has more than 64 bits; a smaller non-zero target (whose work needs
    more than 192 bits) panics.  A zero target, for which 2^256 is not
    representable, wraps around to no work at all. *)
Theorem calc_work_spec b (Hb : inW 32 b) :
  let t := val (from_compact_target_bits b) in
  (t = 0 -> calc_work (E := Empty_set) b = Ok (ZERO 3)) /\
  (0 < t < 2 ^ 64 -> calc_work (E := Empty_set) b = Panic) /\
  (2 ^ 64 <= t -> exists w, calc_work (E := Empty_set) b = Ok w /\ wf 3 w /\ val w = 2 ^ 256 / (t + 1)).
Proof. intros t. apply calc_work_cases. by apply from_compact_lt_max. Qed.
Lemma calc_work_spec_witness : exists w, calc_work (E := Empty_set) 0x207fffff = Ok w /\ val w = 2.
Proof.
  destruct (calc_work_spec 0x207fffff ltac:(done)) as (_ & _ & H).
  destruct H as (w & He & _ & Hv); [vm_compute; done|]. exists w. split; [exact He|].
  rewrite Hv. vm_compute. done.
Defined.

(** Block levels and work agree: a block whose proof-of-work value has
    level [level > 0] did at least [level_work level] work in the sense of
    [calc_work], namely floor(2^256 / (pow + 1)); and the level work doubles
    with each level up to the cap of 2^128. *)
Theorem level_work_sound pow max level w
  (Hpow : wf 4 pow) (Hmax : inW 8 max) (Hlevel : calc_level_from_pow pow max = level)
  (Hw : level_work (E := Empty_set) level max = Ok w) (Hpos : 0 < level) :
  val w = 2 ^ Z.min (level + 256 - max) 128 /\ val w <= 2 ^ 256 / (val pow + 1).
Proof.
  unfold calc_level_from_pow in Hlevel. rewrite (bits_spec 4) in Hlevel by done.
  pose proof (nbits_nonneg (val pow)). pose proof (nbits_le_BITS 4 _ Hpow) as Hle. change (BITS 4) with 256 in Hle.
  unfold inW in Hmax. rewrite wrap_small in Hlevel by (unfold inW; lia).
  unfold level_work in Hw. replace (level =? 0) with false in Hw by lia.
  rewrite !chk_ok in Hw by (unfold inW; lia). cbn [mbind res_bind] in Hw.
  rewrite chk_ok in Hw by (unfold inW; lia). cbn [mbind res_bind] in Hw. injection Hw as <-.
  unfold MAX_WORK_LEVEL. destruct (from_u64_val 2 1 ltac:(done)) as [Wf Vf].
  set (e := Z.min (level + 256 - max) 128).
  destruct (ushl_val 3 (from_u64 3 1) e Wf ltac:(change (BITS 3) with 192; lia)) as [_ ->].
  { rewrite Vf, Z.mul_1_l. apply Z.pow_lt_mono_r; change (BITS 3) with 192; lia. }
  rewrite Vf, Z.mul_1_l. split; [done|].
  destruct (nbits_bound (val pow)) as [Hlt _]; [apply (val_range 4 _ Hpow)|].
  pose proof (val_range 4 _ Hpow). apply Z.div_le_lower_bound; [lia|].
  apply Z.le_trans with (2 ^ nbits (val pow) * 2 ^ e).
  { apply Z.mul_le_mono_nonneg_r; [apply Z.pow_nonneg|]; lia. }
  rewrite <- Z.pow_add_r by lia. apply Z.pow_le_mono_r; lia.
Qed.
Lemma level_work_sound_witness :
  exists w, level_work (E := Empty_set) 5 225 = Ok w /\ val w <= 2 ^ 256 / (2 ^ 219 + 1).
Proof.
  set (p := [0; 0; 0; 2 ^ 27]). assert (wf 4 p) as Hp by wf_concrete.
  eexists. split; [reflexivity|].
  replace (2 ^ 219) with (val p) by (vm_compute; done).
  apply (level_work_sound p 225 5 _ Hp); [done..|lia].
Defined.
