(* ===== verification/Dag.v ===== *)
(** * Block DAG data

    The consensus order on blocks
    ([consensus/src/processes/ghostdag/ordering.rs]), the GHOSTDAG data of a
    block and its mergeset iterators ([consensus/src/model/stores/ghostdag.rs]),
    and the interface of the reachability service the protocols query
    ([consensus/src/model/services/reachability.rs]).

    A store is the finite map it represents; reading a missing key is an error
    that the callers [unwrap], hence a panic.  Blue work, a [Uint192], is the
    integer it represents; [bw_add] and [bw_sum] are its wrapping operators
    ([bw_add_uint], [bw_sum_uint] relate them to the limb arithmetic of
    [Uint]). *)

From S2P Require Import Prelude Uint.

(** ** Blue work *)
Abbreviation BlueWorkType := Z (only parsing).
Abbreviation KType := Z (only parsing).
Definition bw_add (x y : BlueWorkType) : BlueWorkType := wrap 192 (x + y).
Definition bw_sum (l : list BlueWorkType) : BlueWorkType :=
  match l with [] => 0 | first :: l => foldl bw_add first l end.

(** ** The consensus order *)
Record SortableBlock := mkSortable { sb_hash : Hash; sb_blue_work : BlueWorkType }.
#[export] Instance SortableBlock_eq_dec : EqDecision SortableBlock.
Proof. solve_decision. Defined.

Definition sortable_cmp (a b : SortableBlock) : comparison :=
  match sb_blue_work a ?= sb_blue_work b with
  | Eq => sb_hash a ?= sb_hash b
  | c => c
  end.
Definition sortable_le (a b : SortableBlock) : Prop := sortable_cmp a b <> Gt.
#[export] Instance sortable_le_dec : RelDecision sortable_le.
Proof. intros a b. unfold sortable_le. destruct (sortable_cmp a b); [left|left|right]; congruence. Defined.

(** [Iterator::max]: the last of the maximal elements. *)
Definition iter_max {A} (cmp : A -> A -> comparison) (l : list A) : option A :=
  match l with
  | [] => None
  | x :: l => Some (foldl (fun m y => match cmp m y with Gt => m | _ => y end) x l)
  end.

(** [BinaryHeap::pop] takes one of the greatest elements out. *)
Fixpoint remove_first {A} `{!EqDecision A} (x : A) (l : list A) : list A :=
  match l with [] => [] | y :: l => if decide (y = x) then l else y :: remove_first x l end.

(** [blockhash::ORIGIN]: 32 bytes of value [0xfe]. *)
Definition ORIGIN : Hash := undigits 256 (repeat 0xfe 32).

(** ** GHOSTDAG data of a block *)
Record GhostdagData := mkGhostdagData {
  blue_score : u64;
  blue_work : BlueWorkType;
  selected_parent : Hash;
  mergeset_blues : list Hash;
  mergeset_reds : list Hash;
  blues_anticone_sizes : gmap Hash KType;
}.
Abbreviation GhostdagStore := (gmap Hash GhostdagData).

(** [k] only gives the capacities; [k + 1] is a checked [u16] addition. *)
Definition new_with_selected_parent {E} (sp : Hash) (k : KType) : res E GhostdagData :=
  _ ← chk 16 (k + 1);
  Ok {| blue_score := 0; blue_work := 0; selected_parent := sp;
        mergeset_blues := [sp]; mergeset_reds := []; blues_anticone_sizes := {[sp := 0]} |}.
Definition mergeset_size (d : GhostdagData) : usize := zlen (mergeset_blues d) + zlen (mergeset_reds d).
Definition unordered_mergeset (d : GhostdagData) : list Hash := mergeset_blues d ++ mergeset_reds d.
Definition data_unordered_mergeset_without_selected_parent (d : GhostdagData) : list Hash :=
  drop 1 (mergeset_blues d) ++ mergeset_reds d.

Section iteration.
Context `{!HashIter Hash KType}.

(** [add_blue]; [size + 1] is a checked [u16] addition. *)
Definition add_blue {E} (d : GhostdagData) (block : Hash) (blue_anticone_size : KType)
    (block_blues_anticone_sizes : gmap Hash KType) : res E GhostdagData :=
  sizes ← res_foldl (fun m kv => s ← chk 16 (kv.2 + 1); Ok (<[kv.1 := s]> m))
    (<[block := blue_anticone_size]> (blues_anticone_sizes d)) (hash_iter block_blues_anticone_sizes);
  Ok {| blue_score := blue_score d; blue_work := blue_work d; selected_parent := selected_parent d;
        mergeset_blues := mergeset_blues d ++ [block]; mergeset_reds := mergeset_reds d;
        blues_anticone_sizes := sizes |}.
End iteration.

Definition add_red (d : GhostdagData) (block : Hash) : GhostdagData :=
  {| blue_score := blue_score d; blue_work := blue_work d; selected_parent := selected_parent d;
     mergeset_blues := mergeset_blues d; mergeset_reds := mergeset_reds d ++ [block];
     blues_anticone_sizes := blues_anticone_sizes d |}.
Definition finalize_score_and_work (d : GhostdagData) (score : u64) (work : BlueWorkType) : GhostdagData :=
  {| blue_score := score; blue_work := work; selected_parent := selected_parent d;
     mergeset_blues := mergeset_blues d; mergeset_reds := mergeset_reds d;
     blues_anticone_sizes := blues_anticone_sizes d |}.

(** [store.get_blue_work(h).unwrap()] paired with [h]. *)
Definition sortable {E} (store : GhostdagStore) (h : Hash) : res E SortableBlock :=
  d ← unwrap (store !! h); Ok (mkSortable h (blue_work d)).

(** [merge_join_by]: heads that compare equal are the [Both] case. *)
Fixpoint merge_join {E} (cmp : SortableBlock -> SortableBlock -> comparison)
    (l : list SortableBlock) : list SortableBlock -> res E (list SortableBlock) :=
  fix merge_right (r : list SortableBlock) : res E (list SortableBlock) :=
    match l, r with
    | [], _ => Ok r
    | _, [] => Ok l
    | a :: l', b :: r' =>
        match cmp a b with
        | Lt => m ← merge_join cmp l' r; Ok (a :: m)
        | Gt => m ← merge_right r'; Ok (b :: m)
        | Eq => Panic
        end
    end.
Definition ascending_mergeset_without_selected_parent {E} (d : GhostdagData) (store : GhostdagStore)
    : res E (list SortableBlock) :=
  blues ← res_mapM (sortable store) (drop 1 (mergeset_blues d));
  reds ← res_mapM (sortable store) (mergeset_reds d);
  merge_join sortable_cmp blues reds.
Definition descending_mergeset_without_selected_parent {E} (d : GhostdagData) (store : GhostdagStore)
    : res E (list SortableBlock) :=
  blues ← res_mapM (sortable store) (rev (drop 1 (mergeset_blues d)));
  reds ← res_mapM (sortable store) (rev (mergeset_reds d));
  merge_join (fun a b => sortable_cmp b a) blues reds.
Definition consensus_ordered_mergeset {E} (d : GhostdagData) (store : GhostdagStore) : res E (list Hash) :=
  l ← ascending_mergeset_without_selected_parent d store;
  Ok (selected_parent d :: map sb_hash l).

(** ** Reachability

    [is_dag_ancestor_of a b] holds when [a] is [b] or in its past.  The laws
    are those of the reflexive past relation of a DAG. *)
Class ReachabilityService := is_dag_ancestor_of : Hash -> Hash -> bool.
Class ReachabilityLaws `{ReachabilityService} := {
  reach_refl a : is_dag_ancestor_of a a = true;
  reach_trans a b c :
    is_dag_ancestor_of a b = true -> is_dag_ancestor_of b c = true -> is_dag_ancestor_of a c = true;
  reach_antisym a b : is_dag_ancestor_of a b = true -> is_dag_ancestor_of b a = true -> a = b;
}.

(** ** Lemmas *)
Lemma remove_first_perm {X} `{!EqDecision X} (x : X) l : x ∈ l -> l ≡ₚ x :: remove_first x l.
Proof.
  induction l as [|y l IH]; intros Hx; [by apply elem_of_nil in Hx|]. cbn [remove_first]. case_decide as E; [by subst|].
  apply elem_of_cons in Hx as [->|Hx]; [done|]. rewrite Permutation_swap, <- IH; done.
Qed.
Lemma bw_add_uint a b : wf 3 a -> wf 3 b -> val (uadd a b) = bw_add (val a) (val b).
Proof. intros Ha Hb. by apply (uadd_val 3). Qed.
Lemma bw_sum_uint l : Forall (wf 3) l -> val (usum 3 l) = bw_sum (map val l).
Proof.
  destruct l as [|x l]; intros Hl; [done|]. apply Forall_cons in Hl as [Hx Hl]. simpl.
  revert x Hx. induction Hl as [|y l Hy Hl IH]; intros x Hx; [done|]. simpl.
  rewrite IH by (by apply (uadd_val 3)). by rewrite bw_add_uint.
Qed.

(** The sum does not wrap when the total fits. *)
Lemma bw_sum_exact l : Forall (fun x => 0 <= x) l -> foldr Z.add 0 l < 2 ^ 192 ->
  bw_sum l = foldr Z.add 0 l.
Proof.
  destruct l as [|x l]; intros Hl Hlt; [done|]. apply Forall_cons in Hl as [Hx Hl]. simpl in *.
  revert x Hx Hlt. induction Hl as [|y l Hy Hl IH]; intros x Hx Hlt; simpl in *; [lia|].
  assert (0 <= foldr Z.add 0 l) by (clear -Hl; induction Hl; simpl; lia).
  unfold bw_add at 2. rewrite wrap_small by (unfold inW; lia). rewrite IH; lia.
Qed.

Lemma sortable_cmp_spec a b : match sortable_cmp a b with
  | Lt => sb_blue_work a < sb_blue_work b \/ (sb_blue_work a = sb_blue_work b /\ sb_hash a < sb_hash b)
  | Eq => a = b
  | Gt => sb_blue_work b < sb_blue_work a \/ (sb_blue_work a = sb_blue_work b /\ sb_hash b < sb_hash a)
  end.
Proof.
  unfold sortable_cmp. destruct a as [h w], b as [h' w']; simpl.
  destruct (Z.compare_spec w w') as [->|?|?]; [|lia..].
  destruct (Z.compare_spec h h') as [->|?|?]; [done|lia..].
Qed.
Lemma sortable_le_spec a b : sortable_le a b <->
  sb_blue_work a < sb_blue_work b \/ (sb_blue_work a = sb_blue_work b /\ sb_hash a <= sb_hash b).
Proof.
  unfold sortable_le. pose proof (sortable_cmp_spec a b). destruct (sortable_cmp a b).
  - subst. split; [right; lia|done].
  - split; [lia|done].
  - split; [done|lia].
Qed.
#[export] Instance sortable_le_total : Total sortable_le.
Proof. intros a b. rewrite !sortable_le_spec. lia. Qed.
#[export] Instance sortable_le_trans : Transitive sortable_le.
Proof. intros a b c. rewrite !sortable_le_spec. lia. Qed.
#[export] Instance sortable_le_antisymm : AntiSymm (=) sortable_le.
Proof.
  intros [h w] [h' w']. rewrite !sortable_le_spec. simpl. intros. f_equal; lia.
Qed.
Lemma sortable_cmp_flip a b : sortable_cmp b a = CompOpp (sortable_cmp a b).
Proof.
  unfold sortable_cmp. rewrite (Z.compare_antisym (sb_blue_work a)).
  destruct (sb_blue_work a ?= sb_blue_work b); simpl; [apply Z.compare_antisym|done..].
Qed.

(** [iter_max] for a comparison that decides the order [R]. *)
Lemma iter_max_gen {A} (cmp : A -> A -> comparison) (R : relation A) `{!Reflexive R, !Transitive R} l m :
  (forall a b, cmp a b = Gt -> R b a) -> (forall a b, cmp a b <> Gt -> R a b) ->
  iter_max cmp l = Some m -> m ∈ l /\ forall x, x ∈ l -> R x m.
Proof.
  intros Hgt Hle. destruct l as [|a l]; [done|]. intros [= <-]. revert a.
  induction l as [|b l IH]; intros a; simpl.
  { split; [left|]. by intros x ->%list_elem_of_singleton. }
  set (c := match cmp a b with Gt => a | _ => b end). destruct (IH c) as [IH1 IH2].
  assert (R a c /\ R b c /\ (c = a \/ c = b)) as (Ha & Hb & Hc).
  { unfold c. specialize (Hgt a b). specialize (Hle a b). destruct (cmp a b); split_and!; auto; by apply Hle. }
  clearbody c. split; [destruct Hc as [->| ->]; revert IH1; rewrite !elem_of_cons; tauto|].
  intros x. rewrite !elem_of_cons. intros [->|[->|Hx]].
  - etrans; [exact Ha|]. apply IH2. left.
  - etrans; [exact Hb|]. apply IH2. left.
  - apply IH2. by right.
Qed.
#[export] Instance sortable_le_refl : Reflexive sortable_le.
Proof. intros a. apply sortable_le_spec. lia. Qed.
Lemma iter_max_spec l m : iter_max sortable_cmp l = Some m ->
  m ∈ l /\ forall x, x ∈ l -> sortable_le x m.
Proof.
  apply (iter_max_gen sortable_cmp sortable_le).
  - intros a b Hab. unfold sortable_le. by rewrite sortable_cmp_flip, Hab.
  - intros a b Hab. exact Hab.
Qed.

Section iteration_lemmas.
Context `{!HashIter Hash KType}.

Lemma res_foldl_bump {E} (l : list (Hash * KType)) (acc : gmap Hash KType) :
  NoDup l.*1 -> Forall (fun kv => inW 16 (kv.2 + 1)) l ->
  exists m, res_foldl (E := E) (fun m kv => s ← chk 16 (kv.2 + 1); Ok (<[kv.1 := s]> m)) acc l = Ok m /\
    forall h, (forall s, (h, s) ∈ l -> m !! h = Some (s + 1)) /\
              ((forall s, (h, s) ∉ l) -> m !! h = acc !! h).
Proof.
  revert acc. induction l as [|[h0 s0] l IH]; intros acc Hnd Hw.
  { exists acc. split; [done|]. intros h. split; [intros s Hs; by apply elem_of_nil in Hs|done]. }
  apply Forall_cons in Hw as [Hw0 Hw]. simpl in Hnd, Hw0. apply NoDup_cons in Hnd as [Hn Hnd].
  cbn [res_foldl fst snd]. rewrite chk_ok by done. cbn [mbind res_bind].
  destruct (IH (<[h0 := s0 + 1]> acc) Hnd Hw) as (m & -> & Hm). exists m. split; [done|].
  intros h. destruct (Hm h) as [H1 H2]. split.
  - intros s [[= -> ->]|Hin]%elem_of_cons; [|by apply H1]. rewrite H2; [by rewrite lookup_insert_eq|].
    intros s Hin. apply Hn. apply list_elem_of_fmap. by exists (h0, s).
  - intros Hno. rewrite H2.
    + rewrite lookup_insert_ne; [done|]. intros ->. apply (Hno s0). left.
    + intros s Hin. apply (Hno s). by right.
Qed.
Lemma add_blue_ok {E} d block n sizes :
  (forall h s, sizes !! h = Some s -> inW 16 (s + 1)) ->
  exists d', add_blue (E := E) d block n sizes = Ok d' /\
    selected_parent d' = selected_parent d /\
    mergeset_blues d' = mergeset_blues d ++ [block] /\ mergeset_reds d' = mergeset_reds d /\
    forall h, blues_anticone_sizes d' !! h =
      match sizes !! h with
      | Some s => Some (s + 1)
      | None => if decide (h = block) then Some n else blues_anticone_sizes d !! h
      end.
Proof.
  intros Hs. unfold add_blue.
  destruct (res_foldl_bump (E := E) (hash_iter sizes) (<[block := n]> (blues_anticone_sizes d)))
    as (m & -> & Hm).
  - apply hash_iter_nodup.
  - apply Forall_forall. intros [h s] Hin%elem_of_hash_iter. by apply (Hs h).
  - cbn [mbind res_bind]. eexists. split; [done|]. cbn. split_and!; [done..|]. intros h.
    destruct (Hm h) as [H1 H2]. destruct (sizes !! h) as [s|] eqn:Hh.
    + apply H1. by apply elem_of_hash_iter.
    + rewrite H2.
      * case_decide; [subst; by rewrite lookup_insert_eq|by rewrite lookup_insert_ne].
      * intros s Hin%elem_of_hash_iter. congruence.
Qed.
End iteration_lemmas.

(** ** Merging sorted mergeset halves *)
Section merge_join.
Context {E : Type} (cmp : SortableBlock -> SortableBlock -> comparison) (R : relation SortableBlock).
Context `{!Transitive R}.
Context (Hlt : forall a b, cmp a b = Lt -> R a b) (Hgt : forall a b, cmp a b = Gt -> R b a)
  (Heq : forall a b, cmp a b = Eq -> a = b).

Lemma merge_join_sorted l r : StronglySorted R l -> StronglySorted R r ->
  (forall x, x ∈ l -> x ∉ r) ->
  exists m, merge_join (E := E) cmp l r = Ok m /\ m ≡ₚ l ++ r /\ StronglySorted R m.
Proof.
  revert r. induction l as [|a l IHl]; intros r Hl Hr Hdisj.
  { exists r. destruct r; done. }
  induction r as [|b r IHr].
  { exists (a :: l). rewrite app_nil_r. done. }
  cbn [merge_join]. destruct (cmp a b) eqn:Hab.
  - apply Heq in Hab as ->. exfalso. apply (Hdisj b); left.
  - apply StronglySorted_inv in Hl as [Hl Hla].
    destruct (IHl (b :: r) Hl Hr) as (m & -> & Hp & Hs); [intros x Hx; apply Hdisj; by right|].
    exists (a :: m). split; [done|]. split; [by rewrite Hp|]. constructor; [done|].
    rewrite Hp. apply Forall_app. split; [done|]. apply StronglySorted_inv in Hr as [Hr Hrb].
    constructor; [by apply Hlt|]. eapply Forall_impl; [exact Hrb|]. intros x Hx. etrans; [by apply Hlt|done].
  - apply StronglySorted_inv in Hr as [Hr Hrb].
    destruct (IHr Hr) as (m & Hm & Hp & Hs).
    { intros x Hx Hxr. apply (Hdisj x Hx). by right. }
    cbn [merge_join] in Hm. rewrite Hm. exists (b :: m). split; [done|]. split.
    { rewrite Hp. by rewrite Permutation_middle. }
    constructor; [done|]. rewrite Hp. apply Forall_app. split; [|done].
    apply StronglySorted_inv in Hl as [Hl Hla].
    constructor; [by apply Hgt|]. eapply Forall_impl; [exact Hla|]. intros x Hx. etrans; [by apply Hgt|done].
Qed.
End merge_join.

Lemma StronglySorted_sublist {A} (R : relation A) l k : l `sublist_of` k -> StronglySorted R k -> StronglySorted R l.
Proof.
  induction 1 as [|x l k Hlk IH|x l k Hlk IH]; intros Hs; [done|..].
  - apply StronglySorted_inv in Hs as [Hs Hx]. constructor; [auto|].
    rewrite Forall_forall in *. intros y Hy. apply Hx. by eapply elem_of_sublist.
  - apply StronglySorted_inv in Hs as [Hs _]. auto.
Qed.
Lemma sortable_cmp_lt a b : sortable_cmp a b = Lt -> sortable_le a b.
Proof. unfold sortable_le. congruence. Qed.
Lemma sortable_cmp_gt a b : sortable_cmp a b = Gt -> sortable_le b a.
Proof. intros He. unfold sortable_le. rewrite sortable_cmp_flip. by rewrite He. Qed.
Lemma sortable_cmp_eq a b : sortable_cmp a b = Eq -> a = b.
Proof. intros He. pose proof (sortable_cmp_spec a b) as H. by rewrite He in H. Qed.

(** The two halves of a sorted list merge back into it. *)
Lemma merge_join_halves {E} (f : Hash -> SortableBlock) (Hf : forall x, sb_hash (f x) = x) bl rd cs :
  NoDup cs -> StronglySorted sortable_le (map f cs) ->
  bl `sublist_of` cs -> rd `sublist_of` cs -> bl ++ rd ≡ₚ cs ->
  merge_join (E := E) sortable_cmp (map f bl) (map f rd) = Ok (map f cs).
Proof.
  intros Hnd Hs Hbl Hrd Hp.
  destruct (merge_join_sorted (E := E) sortable_cmp sortable_le sortable_cmp_lt sortable_cmp_gt sortable_cmp_eq
    (map f bl) (map f rd)) as (m & -> & Hm & Hms).
  - eapply StronglySorted_sublist; [by apply sublist_map|done].
  - eapply StronglySorted_sublist; [by apply sublist_map|done].
  - intros x Hx Hx'. apply list_elem_of_fmap in Hx as (h & -> & Hh).
    apply list_elem_of_fmap in Hx' as (h' & He & Hh').
    assert (h = h') as <- by (rewrite <- (Hf h), <- (Hf h'); congruence).
    rewrite <- Hp in Hnd. apply NoDup_app in Hnd as (_ & Hd & _). by apply (Hd h).
  - f_equal. apply (StronglySorted_unique sortable_le); [done..|].
    by rewrite Hm, <- map_app, Hp.
Qed.

(** ** A sample: a block and its two children, merged by a fourth *)
Module DiamondDag.
#[export] Instance reach : ReachabilityService := fun a b =>
  (a =? b) || (a =? 1) || ((b =? 4) && ((a =? 2) || (a =? 3))).
#[export] Instance laws : ReachabilityLaws.
Proof. constructor; unfold is_dag_ancestor_of, reach; lia. Qed.
Definition relations : gmap Hash (list Hash) := {[1 := []; 2 := [1]; 3 := [1]; 4 := [2; 3]]}.
End DiamondDag.
