(* ===== verification/Chain.v ===== *)
(** * Chains and traversals

    The selected-chain tree as the protocols see it
    ([consensus/src/model/services/reachability.rs]: the chain queries and the
    two chain iterators) and the traversal manager
    ([consensus/src/processes/traversal_manager.rs]: chain paths, anticones,
    the search by blue score).

    The tree is an interface: [ChainService] with the laws [ChainLaws].  An
    iterator is the list it yields.  Fuel bounds the length of a chain walk,
    where the height of the block is enough, and the number of blocks a
    traversal pops. *)
From S2P Require Import Prelude Dag.

(** ** The selected-chain tree *)
Class ChainService := {
  get_chain_parent : Hash -> option Hash;
  is_chain_ancestor_of : Hash -> Hash -> bool;
  (** [get_next_chain_ancestor(descendant, ancestor)] *)
  get_next_chain_ancestor : Hash -> Hash -> option Hash;
}.
(** [a] is [b] or on its chain. *)
Inductive on_chain `{ChainService} (a : Hash) : Hash -> Prop :=
| on_chain_refl : on_chain a a
| on_chain_step b p : get_chain_parent b = Some p -> on_chain a p -> on_chain a b.
Class ChainLaws `{ChainService} := {
  chain_height : Hash -> nat;
  chain_height_parent b p : get_chain_parent b = Some p -> (chain_height p < chain_height b)%nat;
  chain_ancestor_spec a b : is_chain_ancestor_of a b = true <-> on_chain a b;
  chain_next_spec a d : on_chain a d -> a <> d ->
    exists c, get_next_chain_ancestor d a = Some c /\ get_chain_parent c = Some a /\ on_chain c d;
}.

Section iterators.
Context {E : Type} `{CS : ChainService}.
(** [forward_chain_iterator(current, to, inclusive)] *)
Fixpoint forward_chain (fuel : nat) (inclusive : bool) (to current : Hash) : res E (list Hash) :=
  match fuel with
  | O => NoFuel
  | S fuel =>
      if decide (current = to) then Ok (if inclusive then [current] else []) else
      next ← unwrap (get_next_chain_ancestor to current);
      l ← forward_chain fuel inclusive to next;
      Ok (current :: l)
  end.
(** [backward_chain_iterator(current, ancestor, inclusive)] *)
Fixpoint backward_chain (fuel : nat) (inclusive : bool) (ancestor current : Hash) : res E (list Hash) :=
  match fuel with
  | O => NoFuel
  | S fuel =>
      if decide (current = ancestor) then Ok (if inclusive then [current] else []) else
      next ← unwrap (get_chain_parent current);
      l ← backward_chain fuel inclusive ancestor next;
      Ok (current :: l)
  end.

(** ** Chain paths *)
Record ChainPath := mkChainPath { cp_added : list Hash; cp_removed : list Hash }.
(** The first loop of [calculate_chain_path], over the default backward
    iterator: it ends before [ORIGIN], and reads the parent of a block before
    it yields it.  The result is the removed blocks and the common ancestor. *)
Fixpoint chain_path_down (fuel : nat) (from to current : Hash) : res E (list Hash * Hash) :=
  match fuel with
  | O => NoFuel
  | S fuel =>
      if decide (current = ORIGIN) then Ok ([], from) else
      next ← unwrap (get_chain_parent current);
      if is_chain_ancestor_of current to then Ok ([], current) else
      '(l, ancestor) ← chain_path_down fuel from to next;
      Ok (current :: l, ancestor)
  end.
Definition calculate_chain_path (fuel : nat) (from to : Hash) (chain_path_added_limit : option usize) : res E ChainPath :=
  '(removed, common_ancestor) ← chain_path_down fuel from to from;
  match chain_path_added_limit with
  | None => l ← backward_chain fuel false common_ancestor to; Ok (mkChainPath (rev l) removed)
  | Some limit =>
      l ← forward_chain fuel true to common_ancestor;
      Ok (mkChainPath (take (Z.to_nat limit) (drop 1 l)) removed)
  end.
End iterators.

(** ** Traversals *)
Inductive TraversalError := ReachedMaxTraversalAllowed (traversed max : u64).
(** [for parent in parents { if visited.insert(parent) { queue.push_back(parent) } }] *)
Definition enqueue (st : list Hash * gset Hash) (parent : Hash) : list Hash * gset Hash :=
  if decide (parent ∈ st.2) then st else (st.1 ++ [parent], {[parent]} ∪ st.2).

Section traversal.
Context `{RS : ReachabilityService} (relations : gmap Hash (list Hash)).
Fixpoint antipast_loop (fuel : nat) (block : Hash) (max_traversal_allowed : option u64) (return_anticone_only : bool)
    (queue : list Hash) (visited : gset Hash) (traversal_count : u64) (output : list Hash) : res TraversalError (list Hash) :=
  match fuel with
  | O => NoFuel
  | S fuel =>
      match queue with
      | [] => Ok output
      | current :: queue =>
          if is_dag_ancestor_of current block
          then antipast_loop fuel block max_traversal_allowed return_anticone_only queue visited traversal_count output
          else
            traversal_count ← u64_add traversal_count 1;
            _ ← match max_traversal_allowed with
                | Some max => fail_if (max <? traversal_count) (ReachedMaxTraversalAllowed traversal_count max)
                | None => Ok tt
                end;
            let output := if negb return_anticone_only || negb (is_dag_ancestor_of block current) then output ++ [current] else output in
            parents ← unwrap (relations !! current);
            let '(queue, visited) := foldl enqueue (queue, visited) parents in
            antipast_loop fuel block max_traversal_allowed return_anticone_only queue visited traversal_count output
      end
  end.
Definition antipast_traversal (fuel : nat) (tips : list Hash) (block : Hash) (max_traversal_allowed : option u64)
    (return_anticone_only : bool) : res TraversalError (list Hash) :=
  antipast_loop fuel block max_traversal_allowed return_anticone_only tips (list_to_set tips) 0 [].
Definition anticone (fuel : nat) (block : Hash) (tips : list Hash) (max : option u64) : res TraversalError (list Hash) :=
  antipast_traversal fuel tips block max true.
Definition antipast (fuel : nat) (block : Hash) (tips : list Hash) (max : option u64) : res TraversalError (list Hash) :=
  antipast_traversal fuel tips block max false.
End traversal.

(** The walk of [lowest_chain_block_above_or_equal_to_blue_score]. *)
Section scores.
Context {E : Type} (genesis_hash : Hash) (ghostdag_store : GhostdagStore).
Fixpoint lowest_loop (fuel : nat) (score : u64) (current : Hash) (current_gd : GhostdagData) : res E Hash :=
  match fuel with
  | O => NoFuel
  | S fuel =>
      if decide (current = genesis_hash) then Ok current else
      _ ← rassert (bool_decide (current <> ORIGIN));
      selected_parent_gd ← unwrap (ghostdag_store !! selected_parent current_gd);
      if blue_score selected_parent_gd <? score then Ok current
      else lowest_loop fuel score (selected_parent current_gd) selected_parent_gd
  end.
Definition lowest_chain_block_above_or_equal_to_blue_score (fuel : nat) (high : Hash) (score : u64) : res E Hash :=
  high_gd ← unwrap (ghostdag_store !! high);
  _ ← rassert (score <=? blue_score high_gd);
  lowest_loop fuel score high high_gd.
End scores.

(** ** Chains *)
Section chains.
Context `{CS : ChainService} `{CL : !ChainLaws}.
Lemma on_chain_height a b : on_chain a b -> (chain_height a <= chain_height b)%nat.
Proof. induction 1 as [|b p Hp _ IH]; [done|]. pose proof (chain_height_parent _ _ Hp). lia. Qed.
Lemma on_chain_trans a b c : on_chain a b -> on_chain b c -> on_chain a c.
Proof. intros Hab. induction 1; [done|]. by eapply on_chain_step. Qed.
Lemma on_chain_anti a b : on_chain a b -> on_chain b a -> a = b.
Proof.
  intros Hab Hba. destruct Hab as [|b p Hp Hap]; [done|]. apply on_chain_height in Hba, Hap.
  pose proof (chain_height_parent _ _ Hp). lia.
Qed.
Lemma on_chain_up a b p : on_chain a b -> get_chain_parent b = Some p -> a <> b -> on_chain a p.
Proof. intros Hab Hp Hne. destruct Hab as [|b q Hq Haq]; [done|]. rewrite Hp in Hq. by injection Hq as ->. Qed.
Lemma on_chain_parent_ne a b p : on_chain a p -> get_chain_parent b = Some p -> a <> b.
Proof. intros Ha Hp ->. apply on_chain_height in Ha. pose proof (chain_height_parent _ _ Hp). lia. Qed.
(** Two blocks on one chain are in line. *)
Lemma on_chain_linear a b c : on_chain a c -> on_chain b c -> on_chain a b \/ on_chain b a.
Proof.
  intros Ha. revert b. induction Ha as [|c p Hp Hap IH]; intros b Hb; [by right|].
  destruct (decide (b = c)) as [->|Hne]; [left; by eapply on_chain_step|]. apply IH. by eapply on_chain_up.
Qed.

(** The blocks strictly above one block of a chain, up to another. *)
Inductive path (to : Hash) : Hash -> list Hash -> Prop :=
| path_end : path to to []
| path_next cur c l : get_chain_parent c = Some cur -> path to c l -> path to cur (c :: l).
Lemma path_on_chain to cur l : path to cur l -> on_chain cur to.
Proof.
  induction 1 as [|cur c l Hp _ IH]; [constructor|]. eapply on_chain_trans; [|exact IH].
  eapply on_chain_step; [exact Hp|constructor].
Qed.
Lemma path_snoc to p cur l : path p cur l -> get_chain_parent to = Some p -> path to cur (l ++ [to]).
Proof.
  intros Hl Hto. induction Hl as [|cur c l Hp _ IH]; cbn [app]; econstructor; try done. constructor.
Qed.
Lemma path_elem to cur l x : path to cur l -> x ∈ l <-> on_chain x to /\ on_chain cur x /\ x <> cur.
Proof using CL.
  induction 1 as [|cur c l Hp Hl IH].
  - rewrite elem_of_nil. split; [done|]. intros (H1 & H2 & H3). apply H3. by apply on_chain_anti.
  - pose proof (path_on_chain _ _ _ Hl) as Hct. assert (on_chain cur c) as Hcc by (eapply on_chain_step; [exact Hp|constructor]).
    rewrite elem_of_cons, IH. split.
    + intros [->|(H1 & H2 & H3)]; (split; [done|]).
      * split; [done|]. apply not_eq_sym. eapply on_chain_parent_ne; [constructor|done].
      * split; [by eapply on_chain_trans|]. intros ->. apply H3, on_chain_anti; done.
    + intros (H1 & H2 & H3). destruct (decide (x = c)) as [->|Hne]; [by left|right]. split_and!; [done| |done].
      destruct (on_chain_linear x c to H1 Hct) as [H|H]; [|done]. destruct H3. apply on_chain_anti; [|done]. by eapply on_chain_up.
Qed.
Lemma path_nodup to cur l : path to cur l -> NoDup l.
Proof using CL.
  induction 1 as [|cur c l Hp Hl IH]; [apply NoDup_nil_2|]. apply NoDup_cons. split; [|done].
  intros Hin. by apply (path_elem _ _ _ _ Hl) in Hin as (_ & _ & ?).
Qed.

Lemma forward_chain_ok {E} to : forall fuel cur, on_chain cur to -> (chain_height to - chain_height cur < fuel)%nat ->
  exists l, forward_chain (E:=E) fuel true to cur = Ok (cur :: l) /\ path to cur l.
Proof using CL.
  induction fuel as [|fuel IH]; intros cur Hc Hf; [lia|]. cbn [forward_chain]. case_decide as Heq.
  - subst. exists []. split; [done|constructor].
  - destruct (chain_next_spec cur to Hc Heq) as (c & -> & Hp & Hct). cbn [unwrap mbind res_bind].
    pose proof (chain_height_parent _ _ Hp). pose proof (on_chain_height _ _ Hct).
    destruct (IH c Hct) as (l & -> & Hl); [lia|]. exists (c :: l). split; [done|by econstructor].
Qed.
Lemma backward_chain_ok {E} a : forall fuel cur, on_chain a cur -> (chain_height cur < fuel)%nat ->
  exists l, backward_chain (E:=E) fuel false a cur = Ok (rev l) /\ path cur a l.
Proof using CL.
  induction fuel as [|fuel IH]; intros cur Hc Hf; [lia|]. cbn [backward_chain]. case_decide as Heq.
  - subst. exists []. split; [done|constructor].
  - destruct Hc as [|cur p Hp Hap]; [done|]. rewrite Hp. cbn [unwrap mbind res_bind]. pose proof (chain_height_parent _ _ Hp).
    destruct (IH p Hap) as (l & -> & Hl); [lia|]. exists (l ++ [cur]). cbn [mbind res_bind]. rewrite rev_unit.
    split; [done|by apply (path_snoc cur p)].
Qed.

(** What a chain path is: the blocks of the one chain above the meeting point,
    from the top down, and those of the other from the bottom up. *)
Record chain_path_ok (from to : Hash) (p : ChainPath) (meet : Hash) : Prop := {
  cp_meet : on_chain meet from /\ on_chain meet to;
  cp_down : path from meet (rev (cp_removed p));
  cp_up : path to meet (cp_added p);
  cp_split x : x ∈ cp_removed p -> ~ on_chain x to;
}.
Lemma chain_path_down_ok {E} from to r : on_chain r to -> r <> ORIGIN -> is_Some (get_chain_parent r) ->
  (forall x, on_chain r x -> x <> ORIGIN) ->
  forall fuel cur, on_chain r cur -> (chain_height cur < fuel)%nat ->
  exists l meet, chain_path_down (E:=E) fuel from to cur = Ok (l, meet) /\ on_chain meet cur /\ on_chain meet to /\ on_chain r meet /\
    path cur meet (rev l) /\ forall x, x ∈ l -> ~ on_chain x to.
Proof using CL.
  intros Hrt Hro Hrp Horigin. induction fuel as [|fuel IH]; intros cur Hrc Hf; [lia|]. cbn [chain_path_down].
  rewrite decide_False by (by apply Horigin).
  assert (exists p, get_chain_parent cur = Some p) as [p Hp] by (destruct Hrc as [|c p Hp _]; [exact Hrp|by exists p]).
  rewrite Hp. cbn [unwrap mbind res_bind]. destruct (is_chain_ancestor_of cur to) eqn:Hanc.
  { apply chain_ancestor_spec in Hanc. exists [], cur. split_and!; [done|constructor|done|done|constructor|by intros x ?%elem_of_nil]. }
  assert (~ on_chain cur to) as Hnot by (rewrite <- chain_ancestor_spec; congruence).
  assert (r <> cur) as Hne by (by intros ->). pose proof (chain_height_parent _ _ Hp).
  destruct (IH p (on_chain_up _ _ _ Hrc Hp Hne)) as (l & meet & -> & H1 & H2 & H3 & H4 & H5); [lia|]. cbn [mbind res_bind].
  exists (cur :: l), meet. split_and!; [done|by eapply on_chain_step|done|done|cbn [rev]; by apply (path_snoc cur p)|].
  intros x [->|Hx]%elem_of_cons; [done|by apply H5].
Qed.
Lemma calculate_chain_path_ok {E} fuel from to r : on_chain r from -> on_chain r to -> is_Some (get_chain_parent r) ->
  (forall x, on_chain r x -> x <> ORIGIN) -> (chain_height from < fuel)%nat -> (chain_height to < fuel)%nat ->
  exists p meet, calculate_chain_path (E:=E) fuel from to None = Ok p /\ chain_path_ok from to p meet /\ on_chain r meet.
Proof using CL.
  intros Hrf Hrt Hrp Ho Hf Ht. unfold calculate_chain_path.
  destruct (chain_path_down_ok (E:=E) from to r Hrt (Ho r (on_chain_refl r)) Hrp Ho fuel from Hrf Hf) as (l & meet & -> & H1 & H2 & H3 & H4 & H5).
  cbn [mbind res_bind]. destruct (backward_chain_ok (E:=E) meet fuel to H2 Ht) as (a & -> & Ha). cbn [mbind res_bind].
  rewrite rev_involutive. eexists _, meet. split; [done|]. split; [by split|done].
Qed.
End chains.

(** ** Breadth-first search

    A search from [starts] that does not go below the blocks [skip] holds of.
    [popped] are the blocks taken off the queue, in that order. *)
Section search.
Context `{RS : ReachabilityService} `{RL : !ReachabilityLaws} (relations : gmap Hash (list Hash)).
Context (starts : list Hash) (skip : Hash -> bool) (univ : gset Hash).
Abbreviation reach := is_dag_ancestor_of.
Definition below (x : Hash) : Prop := exists s, s ∈ starts /\ reach x s = true.
(** The relations agree with reachability above the blocks that are skipped. *)
Record search_ready : Prop := {
  se_starts : NoDup starts;
  se_skip x y : reach x y = true -> skip y = true -> skip x = true;
  se_univ x : x ∈ starts -> x ∈ univ;
  se_parents x : below x -> skip x = false -> exists ps, relations !! x = Some ps /\ (forall p, p ∈ ps -> p ∈ univ /\ reach p x = true /\ p <> x) /\
    (forall a, reach a x = true -> a = x \/ exists p, p ∈ ps /\ reach a p = true);
}.
Context (Hs : search_ready).
Record bfs_state (queue : list Hash) (visited : gset Hash) (popped : list Hash) : Prop := {
  bf_nodup : NoDup (queue ++ popped);
  bf_visited x : x ∈ visited <-> x ∈ queue ++ popped;
  bf_starts x : x ∈ starts -> x ∈ visited;
  bf_below x : x ∈ visited -> below x /\ x ∈ univ;
  bf_parents x ps p : x ∈ popped -> skip x = false -> relations !! x = Some ps -> p ∈ ps -> p ∈ visited;
}.
Lemma bfs_start : bfs_state starts (list_to_set starts) [].
Proof using Hs RL.
  split; rewrite ?app_nil_r.
  - apply Hs.
  - intros x. apply elem_of_list_to_set.
  - intros x Hx. by apply elem_of_list_to_set.
  - intros x Hx%elem_of_list_to_set. split; [|by apply Hs]. exists x. split; [done|apply reach_refl].
  - by intros x ps p ?%elem_of_nil.
Qed.
Lemma pop_perm {X} (cur : X) queue popped : (cur :: queue) ++ popped ≡ₚ queue ++ popped ++ [cur].
Proof. rewrite app_assoc, <- Permutation_cons_append. done. Qed.
Lemma bfs_skip cur queue visited popped : bfs_state (cur :: queue) visited popped -> skip cur = true -> bfs_state queue visited (popped ++ [cur]).
Proof.
  intros [H1 H2 H3 H4 H5] Hskip. pose proof (pop_perm cur queue popped) as Hp.
  split; try done.
  - by rewrite <- Hp.
  - intros x. by rewrite H2, Hp.
  - intros x ps p [Hx| ->%list_elem_of_singleton]%elem_of_app Hs'; [by apply H5|congruence].
Qed.
Lemma enqueue_all ps : forall queue visited popped, NoDup (queue ++ popped) -> (forall x, x ∈ visited <-> x ∈ queue ++ popped) ->
  exists queue' visited', foldl enqueue (queue, visited) ps = (queue', visited') /\ NoDup (queue' ++ popped) /\
    (forall x, x ∈ visited' <-> x ∈ queue' ++ popped) /\ (forall x, x ∈ visited' <-> x ∈ visited \/ x ∈ ps).
Proof.
  induction ps as [|p ps IH]; intros queue visited popped Hn Hv.
  { exists queue, visited. split_and!; [done..|]. intros x. rewrite elem_of_nil. tauto. }
  cbn [foldl]. unfold enqueue at 2. cbn [fst snd]. case_decide as Hp.
  - destruct (IH queue visited popped Hn Hv) as (q & v & E & H1 & H2 & H3). exists q, v. split_and!; [done..|].
    intros x. rewrite H3, elem_of_cons. split; [tauto|]. intros [?|[->|?]]; tauto.
  - destruct (IH (queue ++ [p]) ({[p]} ∪ visited) popped) as (q & v & E & H1 & H2 & H3).
    + rewrite <- app_assoc. cbn [app]. rewrite <- Permutation_middle. apply NoDup_cons. split; [by rewrite <- Hv|done].
    + intros x. rewrite elem_of_union, elem_of_singleton, Hv, !elem_of_app, list_elem_of_singleton. tauto.
    + exists q, v. split_and!; [done..|]. intros x. rewrite H3, elem_of_union, elem_of_singleton, elem_of_cons. tauto.
Qed.
Lemma bfs_expand cur queue visited popped ps : bfs_state (cur :: queue) visited popped -> skip cur = false -> relations !! cur = Some ps ->
  exists queue' visited', foldl enqueue (queue, visited) ps = (queue', visited') /\ bfs_state queue' visited' (popped ++ [cur]).
Proof using Hs RL.
  intros [H1 H2 H3 H4 H5] Hskip Hps. pose proof (pop_perm cur queue popped) as Hp.
  destruct (enqueue_all ps queue visited (popped ++ [cur])) as (q & v & E & G1 & G2 & G3); [by rewrite <- Hp|intros x; by rewrite H2, Hp|].
  exists q, v. split; [done|]. assert (below cur) as Hb by (apply H4, H2; left).
  destruct (se_parents Hs cur Hb Hskip) as (ps' & Hps' & Hpar & _). rewrite Hps in Hps'. injection Hps' as <-. split; try done.
  - intros x Hx. apply G3. left. by apply H3.
  - intros x [Hx|Hx]%G3; [by apply H4|]. destruct (Hpar x Hx) as (Hu & Hr & _). split; [|done]. destruct Hb as (s & Hs' & Hcs). exists s. split; [done|]. by eapply reach_trans.
  - intros x ps' p [Hx| ->%list_elem_of_singleton]%elem_of_app Hsx Hpsx Hpp; apply G3; [left; by eapply H5|right]. congruence.
Qed.

(** Everything that is not skipped is found. *)
Definition weight (y : Hash) : nat := length (filter (fun x => reach x y) (elements univ)).
Lemma weight_lt p y : reach p y = true -> p <> y -> y ∈ univ -> (weight p < weight y)%nat.
Proof using RL.
  intros Hr Hne Hy. unfold weight. pose proof (NoDup_elements univ) as Hn. apply elem_of_elements in Hy.
  assert (forall l : list Hash, (length (filter (fun x => reach x p) l) <= length (filter (fun x => reach x y) l))%nat) as Hle.
  { induction l as [|x l IH]; [done|]. rewrite !filter_cons. repeat case_decide; cbn [length]; try lia.
    exfalso. apply Is_true_true in H. apply H0, Is_true_true. by eapply reach_trans. }
  induction (elements univ) as [|x l IH]; [by apply elem_of_nil in Hy|]. apply NoDup_cons in Hn as [Hx Hn]. rewrite !filter_cons.
  apply elem_of_cons in Hy as [<-|Hy].
  - rewrite decide_False, decide_True; [cbn [length]; specialize (Hle l); lia|apply Is_true_true, reach_refl|].
    intros H%Is_true_true. apply Hne. by apply reach_antisym.
  - specialize (IH Hy Hn). repeat case_decide; cbn [length]; try lia. exfalso. apply Is_true_true in H. apply H0, Is_true_true. by eapply reach_trans.
Qed.
Lemma bfs_exhaustive visited popped x : bfs_state [] visited popped -> below x -> skip x = false -> x ∈ popped.
Proof using Hs RL.
  intros [_ Hv Hst Hb Hpar] (s & Hin & Hxs) Hsx. apply Hst in Hin. remember (weight s) as n eqn:En. revert s Hin Hxs En.
  induction (lt_wf n) as [n _ IH]. intros y Hy Hxy ->. assert (skip y = false) as Hsy.
  { destruct (skip y) eqn:E; [|done]. by rewrite (se_skip Hs x y Hxy E) in Hsx. }
  destruct (Hb y Hy) as [Hby Huy]. destruct (se_parents Hs y Hby Hsy) as (ps & Hps & Hp & Hpast).
  apply Hv in Hy. cbn [app] in Hy. destruct (Hpast x Hxy) as [->|(p & Hpp & Hxp)]; [done|]. destruct (Hp p Hpp) as (_ & Hpy & Hne).
  eapply (IH (weight p)); [by apply weight_lt| |exact Hxp|done]. by eapply Hpar.
Qed.
Lemma bfs_length queue visited popped : bfs_state queue visited popped -> (length queue + length popped <= size univ)%nat.
Proof.
  intros [H1 H2 _ H4 _]. rewrite <- length_app. transitivity (size visited).
  - rewrite <- (size_list_to_set (C:=gset Hash) (queue ++ popped) H1). apply subseteq_size. intros x Hx%elem_of_list_to_set. by apply H2.
  - apply subseteq_size. intros x Hx. by apply H4.
Qed.
(** The blocks that are not skipped: among those popped, and in all. *)
Definition outside (l : list Hash) : list Hash := filter (fun x => negb (skip x)) l.
Definition members : list Hash := filter (fun x => existsb (is_dag_ancestor_of x) starts && negb (skip x)) (elements univ).
Lemma outside_snoc l x : outside (l ++ [x]) = outside l ++ (if skip x then [] else [x]).
Proof. unfold outside. rewrite filter_app. f_equal. rewrite filter_cons, filter_nil. by destruct (skip x). Qed.
Lemma elem_of_members x : x ∈ members <-> x ∈ univ /\ below x /\ skip x = false.
Proof.
  unfold members. rewrite list_elem_of_filter, elem_of_elements, andb_True, negb_True, Is_true_true, existsb_exists. unfold below.
  rewrite Is_true_true, not_true_iff_false. setoid_rewrite <- list_elem_of_In. tauto.
Qed.
Lemma outside_members queue visited popped : bfs_state queue visited popped -> outside popped ⊆+ members.
Proof.
  intros [Hn Hv _ Hb _]. apply NoDup_submseteq; [apply NoDup_filter; by apply NoDup_app in Hn as (_ & _ & ?)|].
  intros x. unfold outside. rewrite list_elem_of_filter, elem_of_members. intros [Hx Hin].
  destruct (Hb x) as [H1 H2]; [apply Hv, elem_of_app; by right|]. split_and!; [done..|]. by destruct (skip x).
Qed.
Lemma bfs_members visited popped : bfs_state [] visited popped -> outside popped ≡ₚ members.
Proof using Hs RL.
  intros Hb. pose proof (bf_nodup _ _ _ Hb) as Hn. apply NoDup_Permutation; [by apply NoDup_filter|apply NoDup_filter, NoDup_elements|].
  intros x. split.
  - intros Hx. eapply elem_of_submseteq; [exact Hx|by eapply outside_members].
  - intros (_ & Hx & Hp)%elem_of_members. unfold outside. apply list_elem_of_filter. rewrite Hp. split; [done|]. by eapply bfs_exhaustive.
Qed.
End search.

(** ** Antichains *)
Section antichains.
Context `{RS : ReachabilityService}.
Abbreviation reach := is_dag_ancestor_of.
Definition antichain (l : list Hash) : Prop := NoDup l /\ forall a b, a ∈ l -> b ∈ l -> a <> b -> reach a b = false.
Lemma antichain_perm l k : l ≡ₚ k -> antichain l -> antichain k.
Proof. intros Hp [Hn Ha]. split; [by rewrite <- Hp|]. intros a b. rewrite <- !Hp. apply Ha. Qed.
Lemma antichain_cons a l : antichain (a :: l) <-> ~ (a ∈ l) /\ (forall b, b ∈ l -> reach a b = false /\ reach b a = false) /\ antichain l.
Proof.
  unfold antichain. rewrite NoDup_cons. split.
  - intros [[Hn Hl] Ha]. split; [done|]. split; [|split; [done|]].
    + intros b Hb. split; apply Ha; try left; try (by right); by intros ->.
    + intros x y Hx Hy. apply Ha; by right.
  - intros (Hn & Hb & Hl & Ha). split; [done|]. intros x y. rewrite !elem_of_cons. intros [->|Hx] [->|Hy] Hne; [done|by apply Hb..|by apply Ha].
Qed.
Lemma antichain_sublist l k : l `sublist_of` k -> antichain k -> antichain l.
Proof.
  intros Hs [Hn Ha]. split; [by eapply sublist_NoDup|]. intros a b Hx Hy. apply Ha; by eapply elem_of_sublist.
Qed.
End antichains.

(** ** Anticones *)
Section antipast.
Context `{RS : ReachabilityService} `{RL : !ReachabilityLaws} (relations : gmap Hash (list Hash)).
Context (block : Hash) (tips : list Hash) (univ : gset Hash) (max : option u64) (only : bool).
Definition in_past (x : Hash) : bool := is_dag_ancestor_of x block.
Context (Hs : search_ready relations tips in_past univ) (Hmax : forall m, max = Some m -> 0 <= m).
Context (Huniv : Z.of_nat (size univ) < 2 ^ 64).
Definition wanted (x : Hash) : bool := negb only || negb (is_dag_ancestor_of block x).
Definition output_of (l : list Hash) : list Hash := filter (fun x => wanted x) (outside in_past l).

Lemma output_snoc l x : output_of (l ++ [x]) = output_of l ++ (if in_past x then [] else if wanted x then [x] else []).
Proof.
  unfold output_of. rewrite outside_snoc, filter_app. f_equal. destruct (in_past x); [done|]. rewrite filter_cons, filter_nil. by destruct (wanted x).
Qed.
Definition antipast_spec (r : res TraversalError (list Hash)) : Prop :=
  match max with
  | Some m => if m <? zlen (members tips in_past univ) then r = Err (ReachedMaxTraversalAllowed (m + 1) m)
              else exists out, r = Ok out /\ out ≡ₚ filter (fun x => wanted x) (members tips in_past univ)
  | None => exists out, r = Ok out /\ out ≡ₚ filter (fun x => wanted x) (members tips in_past univ)
  end.
Lemma antipast_loop_ok : forall fuel queue visited popped, bfs_state relations tips in_past univ queue visited popped ->
  (size univ < fuel + length popped)%nat -> (forall m, max = Some m -> zlen (outside in_past popped) <= m) ->
  antipast_spec (antipast_loop relations fuel block max only queue visited (zlen (outside in_past popped)) (output_of popped)).
Proof using Hs Hmax Huniv RL.
  induction fuel as [|fuel IH]; intros queue visited popped Hb Hf Hm; pose proof (bfs_length _ _ _ _ _ _ _ Hb) as Hlen; [lia|].
  cbn [antipast_loop]. destruct queue as [|cur queue].
  { pose proof (bfs_members _ _ _ _ Hs _ _ Hb) as Hp. assert (exists out, Ok (E:=TraversalError) (output_of popped) = Ok out /\ out ≡ₚ filter (fun x => wanted x) (members tips in_past univ)) as Hok.
    { eexists. split; [done|]. unfold output_of. by rewrite Hp. }
    unfold antipast_spec. destruct max as [m|]; [|done]. specialize (Hm m eq_refl). apply Permutation_length in Hp. unfold zlen in *. rewrite (proj2 (Z.ltb_ge _ _)) by lia. done. }
  fold (in_past cur). pose proof (outside_snoc in_past popped cur) as Eo. pose proof (output_snoc popped cur) as Eu. destruct (in_past cur) eqn:Hcur.
  { rewrite app_nil_r in Eo, Eu. rewrite <- Eo, <- Eu. apply IH; [by apply bfs_skip|rewrite length_app; cbn; lia|by rewrite Eo]. }
  assert (below tips cur) as Hbelow by (apply (bf_below _ _ _ _ _ _ _ Hb), (bf_visited _ _ _ _ _ _ _ Hb); left).
  destruct (se_parents _ _ _ _ Hs cur Hbelow Hcur) as (ps & Hps & _).
  destruct (bfs_expand _ _ _ _ Hs cur queue visited popped ps Hb Hcur Hps) as (q & v & Eq & Hb').
  pose proof (outside_members _ _ _ _ _ _ _ Hb') as Hsub%submseteq_length. rewrite Eo, length_app in Hsub. cbn [length] in Hsub.
  pose proof (length_filter (fun x => negb (in_past x)) popped) as Hfl. fold (outside in_past popped) in Hfl. cbn [length] in Hlen.
  rewrite u64_add_ok by (unfold zlen, inW; lia). cbn [mbind res_bind]. fold (wanted cur).
  assert ((if wanted cur then output_of popped ++ [cur] else output_of popped) = output_of (popped ++ [cur])) as ->.
  { rewrite Eu. destruct (wanted cur); [done|by rewrite app_nil_r]. }
  replace (zlen (outside in_past popped) + 1) with (zlen (outside in_past (popped ++ [cur]))) by (rewrite Eo; unfold zlen; rewrite length_app; cbn; lia).
  assert (length popped < length (popped ++ [cur]))%nat as Hgrow by (rewrite length_app; cbn; lia).
  specialize (IH q v (popped ++ [cur]) Hb' ltac:(lia)). rewrite Hps. cbn [unwrap mbind res_bind]. rewrite Eq.
  unfold antipast_spec in *. destruct max as [m|]; [|by apply IH]. specialize (Hm m eq_refl). unfold fail_if.
  assert (zlen (outside in_past (popped ++ [cur])) = zlen (outside in_past popped) + 1) as Ez by (rewrite Eo; unfold zlen; rewrite length_app; cbn; lia).
  destruct (Z.ltb_spec m (zlen (outside in_past (popped ++ [cur])))) as [Hlt|Hge].
  - replace (m <? zlen (members tips in_past univ)) with true by (symmetry; apply Z.ltb_lt; unfold zlen in *; lia). cbn [mbind res_bind]. do 2 f_equal. lia.
  - apply IH. by intros m' [= <-].
Qed.
(** Anticones: the traversal returns exactly the blocks below the tips that
    are not in the past of the given block (for the anticone, not in its future
    either), each once, and stops with an error exactly when they are more
    than the bound; fuel for every block in reach is enough. *)
Theorem antipast_exact fuel : (size univ < fuel)%nat -> antipast_spec (antipast_traversal relations fuel tips block max only).
Proof using Hs Hmax Huniv RL.
  intros Hf. apply (antipast_loop_ok fuel tips (list_to_set tips) []); [by apply bfs_start|cbn; lia|]. intros m Hm. by apply Hmax.
Qed.
End antipast.

Import DiamondDag.
Lemma antipast_exact_witness :
  antipast_spec 2 [4] {[1; 2; 3; 4]} None true (anticone relations 9 2 [4] None) /\
  antipast_spec 2 [4] {[1; 2; 3; 4]} (Some 1) false (antipast relations 9 2 [4] (Some 1)) /\
  anticone relations 9 2 [4] None = Ok [3] /\
  antipast relations 9 2 [4] (Some 1) = Err (ReachedMaxTraversalAllowed 2 1).
Proof.
  assert (search_ready relations [4] (in_past 2) {[1; 2; 3; 4]}) as Hs.
  { split.
    - apply NoDup_singleton.
    - intros x y Hxy Hy. by apply (reach_trans x y 2).
    - set_solver.
    - intros x (s & ->%list_elem_of_singleton & Hx) Hn.
      assert (x = 4 \/ x = 3) as [-> | ->] by (revert Hx Hn; unfold in_past, is_dag_ancestor_of, reach; lia).
      + exists [2; 3]. split; [done|]. split; [intros p Hp; split; [set_solver|]; set_unfold; by destruct Hp as [->|[->|[]]]|].
        intros a Ha. destruct (decide (a = 4)); [by left|right]. revert Ha. unfold is_dag_ancestor_of, reach. intros Ha.
        destruct (decide (a = 3)); [exists 3|exists 2]; (split; [set_solver|]); lia.
      + exists [1]. split; [done|]. split; [intros p Hp; split; [set_solver|]; set_unfold; by destruct Hp as [->|[]]|].
        intros a Ha. revert Ha. unfold is_dag_ancestor_of, reach. intros Ha. destruct (decide (a = 3)); [by left|right]. exists 1. split; [set_solver|lia]. }
  assert (size ({[1; 2; 3; 4]} : gset Hash) = 4%nat) as Hz by reflexivity.
  split; [|split; [|by vm_compute]].
  - apply (antipast_exact relations 2 [4] _ None true Hs); [done|lia|lia].
  - apply (antipast_exact relations 2 [4] _ (Some 1) false Hs); [intros m [= <-]; lia|lia|lia].
Defined.
