(* ===== verification/Parents.v ===== *)
(** * Parents at every block level

    [consensus/src/processes/parents_builder.rs]: a header lists its parents at
    every block level; level 0 holds the direct parents, and the parents at a
    higher level are found among the direct parents of that level and the level
    parents of the others.

    An [IndexSet] is the list of its elements in the order of insertion; the
    candidates are a hash map, whose iteration order is a parameter.  The headers
    of the children of the origin, which the code reads at most once, are read
    where they are used.

    The theorem: with reachability data for the blocks involved, the parents at
    a level are exactly the maximal candidates. *)
From S2P Require Import Prelude Search Encode Header Dag Chain.

Record HeaderWithBlockLevel := mkLevelHeader { hl_header : Header; hl_block_level : u8 }.
(** [h.header.hash] *)
Definition hash_of (h : HeaderWithBlockLevel) : Hash := h_hash (hl_header h).
Record ParentsManager := mkParentsManager {
  pm_max_block_level : u8;
  pm_genesis_hash : Hash;
  pm_headers_store : gmap Hash HeaderWithBlockLevel;
  pm_children : gmap Hash (gset Hash);
}.
(** [IndexSet::insert] and [IndexSet::extend] *)
Definition index_insert (s : list Hash) (h : Hash) : list Hash := if decide (h ∈ s) then s else s ++ [h].
Definition index_extend (s : list Hash) (l : list Hash) : list Hash := foldl index_insert s l.
(** [slice::swap(0, i)] *)
Definition swap_first {A} (l : list A) (i : nat) : list A :=
  match l !! 0%nat, l !! i with Some a, Some b => <[i := a]> (<[0%nat := b]> l) | _, _ => l end.
(** [Iterator::position] *)
Fixpoint position {A} (f : A -> bool) (l : list A) : option nat :=
  match l with [] => None | x :: l => if f x then Some 0%nat else S <$> position f l end.

Section manager.
Context {E : Type} `{!ReachabilityService, !HashIter Hash (list Hash), !SetIter Hash}.
Context (has_reachability_data : Hash -> bool) (self : ParentsManager).
Abbreviation is_any_dag_ancestor l queried := (existsb (fun h => is_dag_ancestor_of h queried) l).
Abbreviation is_dag_ancestor_of_any this l := (existsb (fun h => is_dag_ancestor_of this h) l).

Definition parents_at_level (header : Header) (level : u8) : res E (list Hash) :=
  o ← cp_get (parents_by_level header) level;
  match o with
  | Some l => Ok l
  | None => Ok (if decide (parents_by_level header = []) then [] else [pm_genesis_hash self])
  end.
Definition level_parents (level : u8) (hs : list HeaderWithBlockLevel) : res E (list Hash) :=
  ls ← res_mapM (fun h => parents_at_level (hl_header h) level) hs; Ok (concat ls).
Definition origin_children_headers : res E (list Header) :=
  cs ← unwrap (pm_children self !! ORIGIN);
  res_mapM (fun c => h ← unwrap (pm_headers_store self !! c); Ok (hl_header h)) (set_iter cs).

Definition reference_blocks_of (level : u8) (parent : Hash) : res E (list Hash) :=
  if has_reachability_data parent then Ok [parent] else
  hs ← origin_children_headers;
  res_foldl (fun refs child =>
    l ← parents_at_level child level;
    Ok (if decide (parent ∈ l) then refs ++ [h_hash child] else refs)) [] hs.

(** One round of the loop over the grandparents; [first] says that the
    grandparent is below the marker of the first parent. *)
Definition visit_grandparent (level : u8) (first : bool) (candidates : gmap Hash (list Hash)) (parent : Hash) : res E (gmap Hash (list Hash)) :=
  reference_blocks ← reference_blocks_of level parent;
  if first then Ok (<[parent := reference_blocks]> candidates) else
  if negb (has_reachability_data parent) then Ok candidates else
  let retained : gmap Hash (list Hash) := filter (fun kv => is_any_dag_ancestor kv.2 parent = false) candidates in
  let is_any_candidate_ancestor_of := (size retained <? size candidates)%nat in
  if is_any_candidate_ancestor_of || negb (existsb (fun kv => is_dag_ancestor_of_any parent kv.2) (hash_iter retained))
  then Ok (<[parent := reference_blocks]> retained) else Ok retained.
Fixpoint visit_grandparents (level : u8) (marker i : nat) (candidates : gmap Hash (list Hash)) (grandparents : list Hash) : res E (gmap Hash (list Hash)) :=
  match grandparents with
  | [] => Ok candidates
  | parent :: grandparents =>
      candidates ← visit_grandparent level (i <? marker)%nat candidates parent;
      visit_grandparents level marker (S i) candidates grandparents
  end.

(** The grandparents to visit and the marker of the first parent. *)
Definition grandparents_at (level : u8) (no_candidates : bool) (hs : list HeaderWithBlockLevel) : res E (list Hash * nat) :=
  if no_candidates then
    first ← unwrap (hs !! 0%nat);
    l ← parents_at_level (hl_header first) level;
    let grandparents := index_extend [] l in
    rest ← level_parents level (drop 1 hs);
    Ok (index_extend grandparents rest, length grandparents)
  else
    l ← level_parents level (filter (fun h => hl_block_level h < level) hs);
    Ok (index_extend [] l, 0%nat).
Definition calc_level_parents (level : u8) (hs : list HeaderWithBlockLevel) : res E (list Hash) :=
  let candidates : gmap Hash (list Hash) :=
    list_to_map (map (fun h => (hash_of h, [hash_of h])) (filter (fun h => level <= hl_block_level h) hs)) in
  '(grandparents, marker) ← grandparents_at level (bool_decide (candidates = ∅)) hs;
  if bool_decide (candidates = ∅) && (marker =? length grandparents)%nat then Ok grandparents else
  candidates ← visit_grandparents level marker 0 candidates grandparents;
  Ok (map fst (hash_iter candidates)).

Fixpoint build_levels (levels : list u8) (hs : list HeaderWithBlockLevel) (parents : CompressedParents) : res E CompressedParents :=
  match levels with
  | [] => Ok parents
  | level :: levels =>
      l ← calc_level_parents level hs;
      if (0 <? level) && bool_decide (l = [pm_genesis_hash self]) then Ok parents else
      parents ← cp_push parents l;
      build_levels levels hs parents
  end.
Definition calc_block_parents (current_pruning_point : Hash) (direct_parents : list Hash) : res E CompressedParents :=
  hs ← res_mapM (fun p => unwrap (pm_headers_store self !! p)) direct_parents;
  first ← unwrap (position (fun p => is_dag_ancestor_of current_pruning_point p) direct_parents);
  build_levels (map Z.of_nat (seq 0 (S (Z.to_nat (pm_max_block_level self))))) (swap_first hs first) [].
End manager.

(** ** Index sets *)
Lemma elem_of_index_insert s h x : x ∈ index_insert s h <-> x ∈ s \/ x = h.
Proof. unfold index_insert. destruct (decide (h ∈ s)); [naive_solver|]. rewrite elem_of_app, list_elem_of_singleton. done. Qed.
Lemma index_insert_nodup s h : NoDup s -> NoDup (index_insert s h).
Proof.
  intros Hs. unfold index_insert. destruct (decide (h ∈ s)); [done|]. apply NoDup_app. split; [done|]. split; [|apply NoDup_singleton].
  intros x Hx ->%list_elem_of_singleton. done.
Qed.
Lemma index_extend_ok l : forall s, NoDup s -> exists t, index_extend s l = s ++ t /\ NoDup (s ++ t) /\ forall x, x ∈ s ++ t <-> x ∈ s \/ x ∈ l.
Proof.
  induction l as [|h l IH]; intros s Hs.
  { exists []. rewrite app_nil_r. split; [done|]. split; [done|]. intros x. rewrite elem_of_nil. tauto. }
  destruct (IH (index_insert s h) (index_insert_nodup s h Hs)) as (t & Ht & Hnd & Hin). unfold index_extend in *. cbn [foldl]. rewrite Ht.
  assert (exists u, index_insert s h = s ++ u) as [u Hu].
  { unfold index_insert. destruct (decide (h ∈ s)); [exists []; by rewrite app_nil_r|by exists [h]]. }
  exists (u ++ t). rewrite app_assoc, <- Hu. split; [done|]. split; [done|]. intros x. rewrite Hin, elem_of_index_insert, elem_of_cons. tauto.
Qed.

(** ** Maximal candidates *)
Section maximal.
Context `{!ReachabilityService, RL : !ReachabilityLaws, !HashIter Hash (list Hash)}.
Abbreviation reach := is_dag_ancestor_of.
Implicit Types (m : gmap Hash (list Hash)) (P : list Hash) (x y g : Hash).

Definition maximal (Q : Hash -> Prop) x : Prop := Q x /\ forall y, Q y -> reach x y = true -> x = y.
(** [m] holds the maximal blocks of [P], each its own reference block. *)
Record covers m P : Prop := {
  cv_refs x r : m !! x = Some r -> r = [x];
  cv_max x : is_Some (m !! x) <-> maximal (fun y => y ∈ P) x;
  cv_above x : x ∈ P -> exists y, is_Some (m !! y) /\ reach x y = true;
}.

Lemma covers_in m P x : covers m P -> is_Some (m !! x) -> x ∈ P.
Proof. intros C Hx. by apply (cv_max _ _ C) in Hx as [? _]. Qed.
Lemma covers_anti m P x y : covers m P -> is_Some (m !! x) -> is_Some (m !! y) -> reach x y = true -> x = y.
Proof. intros C Hx Hy Hr. apply (cv_max _ _ C) in Hx as [_ Hx]. apply Hx; [by eapply covers_in|done]. Qed.

(** Adding a block that is unrelated to all others. *)
Lemma covers_unrelated m P g : covers m P -> (forall x, x ∈ P -> x <> g -> reach x g = false /\ reach g x = false) ->
  covers (<[g := [g]]> m) (P ++ [g]).
Proof.
  intros C Hun. split.
  - intros x r. destruct (decide (x = g)) as [->|Hne]; [rewrite lookup_insert_eq; by intros [= <-]|]. rewrite lookup_insert_ne by done. apply C.
  - intros x. destruct (decide (x = g)) as [->|Hne].
    + rewrite lookup_insert_eq. split; [intros _|by eauto]. split; [set_solver|]. intros y Hy Hr. apply elem_of_app in Hy as [Hy|Hy]; [|set_solver].
      destruct (decide (y = g)) as [->|Hne]; [done|]. destruct (Hun y Hy Hne). congruence.
    + rewrite lookup_insert_ne, (cv_max _ _ C) by done. split; intros [H1 H2]; (split; [set_solver|]); intros y Hy Hr.
      * apply elem_of_app in Hy as [Hy|Hy%list_elem_of_singleton]; [by apply H2|]. subst y. destruct (Hun x H1 Hne). congruence.
      * apply H2; [set_solver|done].
  - intros x Hx. destruct (decide (x = g)) as [->|Hne]; [exists g; rewrite lookup_insert_eq; split; [eauto|apply reach_refl]|].
    assert (x ∈ P) as HxP by set_solver. destruct (cv_above _ _ C x HxP) as (y & Hy & Hr). exists y. split; [|done].
    destruct (decide (y = g)) as [->|]; [rewrite lookup_insert_eq; eauto|by rewrite lookup_insert_ne].
Qed.

Definition retain m g : gmap Hash (list Hash) := filter (fun kv => existsb (fun h => reach h g) kv.2 = false) m.
Lemma retain_lookup m P g x : covers m P -> is_Some (retain m g !! x) <-> is_Some (m !! x) /\ reach x g = false.
Proof.
  intros C. unfold retain. split.
  - intros [r Hr]. apply map_lookup_filter_Some in Hr as [Hr Hf]. pose proof (cv_refs _ _ C x r Hr) as ->. cbn in Hf. rewrite orb_false_r in Hf. eauto.
  - intros [[r Hr] Hx]. exists r. apply map_lookup_filter_Some. split; [done|]. pose proof (cv_refs _ _ C x r Hr) as ->. cbn. by rewrite Hx.
Qed.
Lemma retain_size m P g : covers m P -> (size (retain m g) <? size m)%nat = true <-> exists x, is_Some (m !! x) /\ reach x g = true.
Proof.
  intros C. rewrite Nat.ltb_lt. assert (retain m g ⊆ m) as Hsub by apply map_filter_subseteq. split.
  - intros Hlt. destruct (decide (map_Exists (fun x _ => reach x g = true) m)) as [(x & r & Hx & Hr)|Hno]; [eauto|].
    exfalso. assert (retain m g = m) as E; [|rewrite E in Hlt; lia]. apply map_eq. intros x. destruct (m !! x) as [r|] eqn:Hx.
    + apply map_lookup_filter_Some. split; [done|]. pose proof (cv_refs _ _ C x r Hx) as ->. cbn. rewrite orb_false_r.
      apply not_true_iff_false. intros Hr. apply Hno. by exists x, [x].
    + apply map_lookup_filter_None. by left.
  - intros (x & Hx & Hr). apply map_subset_size. apply map_subset_alt. split; [done|]. exists x. split; [|done].
    apply eq_None_not_Some. rewrite (retain_lookup m P) by done. intros [_ ?]. congruence.
Qed.

(** A block above some candidate, or below none of those that are left. *)
Lemma covers_insert m P g : covers m P ->
  (exists x, is_Some (m !! x) /\ reach x g = true) \/ (forall x, is_Some (m !! x) -> reach g x = false) ->
  covers (<[g := [g]]> (retain m g)) (P ++ [g]).
Proof using RL.
  intros C Hg.
  assert (forall y, y ∈ P -> reach g y = true -> g = y) as Hgmax.
  { intros y Hy Hr. destruct (cv_above _ _ C y Hy) as (c & Hc & Hyc). assert (reach g c = true) as Hgc by (by eapply reach_trans).
    destruct Hg as [(x & Hx & Hxg)|Hno]; [|rewrite Hno in Hgc by done; done].
    assert (x = c) as -> by (eapply covers_anti; [done|done|done|by eapply reach_trans]). assert (g = c) as -> by (by apply reach_antisym).
    by apply reach_antisym. }
  split.
  - intros x r. destruct (decide (x = g)) as [->|Hne]; [rewrite lookup_insert_eq; by intros [= <-]|]. rewrite lookup_insert_ne by done.
    unfold retain. intros [Hr _]%map_lookup_filter_Some. by apply C.
  - intros x. destruct (decide (x = g)) as [->|Hne].
    + rewrite lookup_insert_eq. split; [intros _|by eauto]. split; [set_solver|]. intros y [Hy|Hy%list_elem_of_singleton]%elem_of_app Hr; [by apply Hgmax|done].
    + rewrite lookup_insert_ne, (retain_lookup m P), (cv_max _ _ C) by done. split.
      * intros [[H1 H2] Hxg]. split; [set_solver|]. intros y [Hy|Hy%list_elem_of_singleton]%elem_of_app Hr; [by apply H2|]. subst y. congruence.
      * intros [H1 H2]. assert (x ∈ P) as HxP by set_solver. split; [split; [done|]|].
        -- intros y Hy. apply H2. set_solver.
        -- apply not_true_iff_false. intros Hr. apply Hne, H2; [set_solver|done].
  - intros x Hx. destruct (reach x g) eqn:Hxg; [exists g; rewrite lookup_insert_eq; eauto|].
    assert (x <> g) as Hne by (intros ->; by rewrite reach_refl in Hxg). assert (x ∈ P) as HxP by set_solver.
    destruct (cv_above _ _ C x HxP) as (y & Hy & Hr). exists y. split; [|done]. destruct (decide (y = g)) as [->|]; [congruence|].
    rewrite lookup_insert_ne by done. apply (retain_lookup m P); [done|]. split; [done|]. apply not_true_iff_false. intros Hyg.
    assert (reach x g = true) by (by eapply reach_trans). congruence.
Qed.
(** A block below a candidate changes nothing. *)
Lemma covers_skip m P g c : covers m P -> is_Some (m !! c) -> reach g c = true -> reach c g = false -> covers m (P ++ [g]).
Proof using RL.
  intros C Hc Hgc Hcg. split; [apply C| |].
  - intros x. rewrite (cv_max _ _ C). split; intros [H1 H2].
    + split; [set_solver|]. intros y [Hy|Hy%list_elem_of_singleton]%elem_of_app Hr; [by apply H2|]. subst y.
      assert (x = c) as -> by (apply H2; [by eapply covers_in|by eapply reach_trans]). congruence.
    + assert (x ∈ P) as HxP.
      { apply elem_of_app in H1 as [H1|H1%list_elem_of_singleton]; [done|]. subst x.
        assert (g = c) as -> by (apply H2; [apply elem_of_app; left; by eapply covers_in|done]). by eapply covers_in. }
      split; [done|]. intros y Hy. apply H2. set_solver.
  - intros x [Hx|Hx%list_elem_of_singleton]%elem_of_app; [by apply C|]. subst x. eauto.
Qed.
Lemma existsb_above m P g : covers m P ->
  existsb (fun kv : Hash * list Hash => existsb (fun h => reach g h) kv.2) (hash_iter m) = true <-> exists x, is_Some (m !! x) /\ reach g x = true.
Proof.
  intros C. rewrite existsb_exists. split.
  - intros ([x r] & Hin & Hr). apply list_elem_of_In, elem_of_hash_iter in Hin. pose proof (cv_refs _ _ C x r Hin) as ->. cbn in Hr. rewrite orb_false_r in Hr. eauto.
  - intros (x & [r Hx] & Hr). exists (x, r). split; [by apply list_elem_of_In, elem_of_hash_iter|]. pose proof (cv_refs _ _ C x r Hx) as ->. cbn. by rewrite Hr.
Qed.
Lemma covers_retain m P g : covers m P -> (forall x, is_Some (m !! x) -> reach x g = false) -> retain m g = m.
Proof.
  intros C Hno. apply map_eq. intros x. destruct (m !! x) as [r|] eqn:Hx; [|by apply map_lookup_filter_None; left].
  apply map_lookup_filter_Some. split; [done|]. pose proof (cv_refs _ _ C x r Hx) as ->. cbn. by rewrite Hno.
Qed.
End maximal.

(** ** The parents of a level *)
Section levels.
Context {E : Type} `{!ReachabilityService, RL : !ReachabilityLaws, !HashIter Hash (list Hash), !SetIter Hash}.
Context (has_data : Hash -> bool) (self : ParentsManager).
Abbreviation reach := is_dag_ancestor_of.
Abbreviation visit := (visit_grandparent (E:=E) has_data self).
Implicit Types (m : gmap Hash (list Hash)) (P : list Hash).

Lemma visit_first level m P g : has_data g = true -> covers m P -> (forall x, x ∈ P -> x <> g -> reach x g = false /\ reach g x = false) ->
  exists m', visit level true m g = Ok m' /\ covers m' (P ++ [g]).
Proof.
  intros Hd C Hun. unfold visit_grandparent, reference_blocks_of. rewrite Hd. cbn [mbind res_bind]. eexists. split; [done|]. by apply covers_unrelated.
Qed.
Lemma visit_other level m P g : has_data g = true -> covers m P -> exists m', visit level false m g = Ok m' /\ covers m' (P ++ [g]).
Proof using RL.
  intros Hd C. unfold visit_grandparent, reference_blocks_of. rewrite Hd. cbn [mbind res_bind negb]. fold (retain m g).
  destruct (size (retain m g) <? size m)%nat eqn:Hs; cbn [orb].
  { eexists. split; [done|]. apply covers_insert; [done|]. left. by apply (retain_size m P). }
  assert (forall x, is_Some (m !! x) -> reach x g = false) as Hno.
  { intros x Hx. apply not_true_iff_false. intros Hr. apply not_true_iff_false in Hs. apply Hs, (retain_size m P); eauto. }
  pose proof (covers_retain m P g C Hno) as Er. rewrite Er in *. pose proof (existsb_above m P g C) as Hab.
  destruct (existsb _ _); cbn [negb].
  - eexists. split; [done|]. destruct (proj1 Hab eq_refl) as (c & Hc & Hr). apply (covers_skip m P g c); auto.
  - eexists. split; [done|]. rewrite <- Er at 1. apply covers_insert; [done|]. right. intros x Hx. apply not_true_iff_false. intros Hr.
    assert (false = true) by (apply Hab; eauto). done.
Qed.

Lemma visit_all level marker gs : forall i m P, (marker <= i)%nat -> (forall g, g ∈ gs -> has_data g = true) -> covers m P ->
  exists m', visit_grandparents (E:=E) has_data self level marker i m gs = Ok m' /\ covers m' (P ++ gs).
Proof using RL.
  induction gs as [|g gs IH]; intros i m P Hi Hd C; [exists m; by rewrite app_nil_r|]. cbn [visit_grandparents].
  rewrite (proj2 (Nat.ltb_ge i marker)) by lia. destruct (visit_other level m P g) as (m1 & -> & C1); [apply Hd; left|done|]. cbn [mbind res_bind].
  destruct (IH (S i) m1 (P ++ [g])) as (m2 & -> & C2); [lia|intros; apply Hd; by right|done|]. exists m2. by rewrite <- app_assoc in C2.
Qed.
Lemma visit_marked level gs : forall ts i m P, antichain (P ++ gs) -> (forall g, g ∈ gs ++ ts -> has_data g = true) -> covers m P ->
  exists m', visit_grandparents (E:=E) has_data self level (i + length gs) i m (gs ++ ts) = Ok m' /\ covers m' (P ++ gs ++ ts).
Proof using RL.
  induction gs as [|g gs IH]; intros ts i m P Ha Hd C; [rewrite Nat.add_0_r; by apply visit_all|]. cbn [app visit_grandparents length].
  rewrite (proj2 (Nat.ltb_lt i _)) by lia. destruct (visit_first level m P g) as (m1 & -> & C1); [apply Hd; left|done| |].
  { intros x Hx Hne. destruct Ha as [_ Ha]. split; apply Ha; set_solver. }
  cbn [mbind res_bind]. rewrite <- Nat.add_succ_comm. destruct (IH ts (S i) m1 (P ++ [g])) as (m2 & -> & C2).
  - by rewrite <- app_assoc.
  - intros x Hx. apply Hd. by right.
  - done.
  - exists m2. by rewrite <- app_assoc in C2.
Qed.

(** Distinct unrelated parents whose level parents are distinct and unrelated,
    as header validation has checked, and have reachability data. *)
Record levels_ready (hs : list HeaderWithBlockLevel) : Prop := {
  lr_ne : hs <> [];
  lr_direct : antichain (map hash_of hs);
  lr_level h level : h ∈ hs -> 0 <= level <= pm_max_block_level self -> exists l,
    parents_at_level (E:=E) self (hl_header h) level = Ok l /\ antichain l /\ forall x, x ∈ l -> has_data x = true;
}.
(** The candidates of a level: the direct parents at the level, and the level
    parents of the others. *)
Definition level_candidate (level : u8) (hs : list HeaderWithBlockLevel) (x : Hash) : Prop := exists h, h ∈ hs /\
  (level <= hl_block_level h /\ x = hash_of h \/
   hl_block_level h < level /\ exists l, parents_at_level (E:=E) self (hl_header h) level = Ok l /\ x ∈ l).
Context (hs : list HeaderWithBlockLevel) (HR : levels_ready hs) (level : u8) (Hlevel : 0 <= level <= pm_max_block_level self).

Lemma level_parents_ok ks : (forall h, h ∈ ks -> h ∈ hs) -> exists l, level_parents (E:=E) self level ks = Ok l /\
  forall x, x ∈ l <-> exists h, h ∈ ks /\ exists k, parents_at_level (E:=E) self (hl_header h) level = Ok k /\ x ∈ k.
Proof using HR Hlevel.
  induction ks as [|h ks IH]; intros Hin.
  { exists []. split; [done|]. intros x. rewrite elem_of_nil. split; [done|]. by intros (h & ?%elem_of_nil & _). }
  destruct IH as (l & Hl & Hm); [intros; apply Hin; by right|]. destruct (lr_level _ HR h level (Hin h (list_elem_of_here _ _)) Hlevel) as (k & Hk & _).
  unfold level_parents in *. cbn [res_mapM]. rewrite Hk. cbn [mbind res_bind]. destruct (res_mapM _ ks) as [ls| | |]; cbn [mbind res_bind] in *; [|done..].
  injection Hl as <-. eexists. split; [done|]. intros x. cbn [concat]. rewrite elem_of_app, Hm. split.
  - intros [Q|(h' & Hh' & Q)]; [exists h; split; [left|eauto]|exists h'; split; [by right|done]].
  - intros (h' & [->|Hh']%elem_of_cons & k' & Hk' & Hx); [left; congruence|right; eauto 6].
Qed.

Abbreviation at_level := (filter (fun h => level <= hl_block_level h) hs).
Definition initial_candidates : gmap Hash (list Hash) := list_to_map (map (fun h => (hash_of h, [hash_of h])) at_level).
Lemma initial_lookup x r : initial_candidates !! x = Some r <-> r = [x] /\ exists h, h ∈ at_level /\ x = hash_of h.
Proof using HR.
  unfold initial_candidates. rewrite <- elem_of_list_to_map.
  - rewrite list_elem_of_fmap. split; [intros (h & [= -> ->] & Hh); eauto|]. intros (-> & h & Hh & ->). eauto.
  - rewrite map_map. cbn. eapply sublist_NoDup; [apply (lr_direct _ HR)|]. apply sublist_map, sublist_filter.
Qed.
Lemma initial_covers : covers initial_candidates (map hash_of at_level).
Proof using HR RL.
  assert (forall x, is_Some (initial_candidates !! x) <-> x ∈ map hash_of at_level) as Hdom.
  { intros x. rewrite list_elem_of_fmap. split.
    - intros [r (-> & h & Hh & ->)%initial_lookup]. eauto.
    - intros (h & -> & Hh). exists [hash_of h]. apply initial_lookup. eauto. }
  assert (forall x, x ∈ map hash_of at_level -> x ∈ map hash_of hs) as Hsub.
  { intros x. rewrite !list_elem_of_fmap. intros (h & -> & [_ Hh]%list_elem_of_filter). eauto. }
  split.
  - by intros x r [-> _]%initial_lookup.
  - intros x. rewrite Hdom. split; [|by intros [? _]]. intros Hx. split; [done|]. intros y Hy Hr.
    destruct (decide (x = y)) as [|Hne]; [done|]. destruct (lr_direct _ HR) as [_ Ha]. rewrite Ha in Hr by (auto; done). done.
  - intros x Hx. exists x. split; [by apply Hdom|apply reach_refl].
Qed.
Lemma initial_empty : initial_candidates = ∅ <-> at_level = [].
Proof using HR.
  split; [|unfold initial_candidates; by intros ->]. intros He. destruct at_level as [|h l] eqn:El; [done|]. exfalso.
  assert (initial_candidates !! hash_of h = Some [hash_of h]) as Hx by (apply initial_lookup; split; [done|]; exists h; split; [rewrite El; left|done]).
  by rewrite He, lookup_empty in Hx.
Qed.

Lemma maximal_ext (Q R : Hash -> Prop) x : (forall y, Q y <-> R y) -> maximal Q x <-> maximal R x.
Proof. intros HQ. unfold maximal. setoid_rewrite HQ. done. Qed.
Definition level_result (l : list Hash) : Prop := NoDup l /\ forall x, x ∈ l <-> maximal (level_candidate level hs) x.
Lemma covers_result m P : covers m P -> (forall x, x ∈ P <-> level_candidate level hs x) -> level_result (map fst (hash_iter m)).
Proof.
  intros C HP. split; [apply hash_iter_nodup|]. intros x. rewrite <- (maximal_ext _ _ x HP), <- (cv_max _ _ C), list_elem_of_fmap. split.
  - intros ([y r] & -> & Hy%elem_of_hash_iter). eauto.
  - intros [r Hx]. exists (x, r). split; [done|]. by apply elem_of_hash_iter.
Qed.
Lemma antichain_incl l k : antichain l -> NoDup k -> (forall x, x ∈ k -> x ∈ l) -> antichain k.
Proof. intros [_ Ha] Hn Hsub. split; [done|]. intros a b Ha' Hb'. apply Ha; auto. Qed.

(** No direct parent is at the level. *)
Lemma level_without_candidates : at_level = [] -> exists l, calc_level_parents (E:=E) has_data self level hs = Ok l /\ level_result l.
Proof using HR Hlevel RL.
  intros Hnone. unfold calc_level_parents. fold initial_candidates. rewrite (proj2 initial_empty Hnone), bool_decide_true by done.
  assert (forall h, h ∈ hs -> hl_block_level h < level) as Hbelow.
  { intros h Hh. destruct (decide (level <= hl_block_level h)) as [Hl|]; [|lia]. exfalso. assert (h ∈ at_level) as Hf by (by apply list_elem_of_filter).
    rewrite Hnone in Hf. by apply elem_of_nil in Hf. }
  assert (forall x, level_candidate level hs x <-> exists h, h ∈ hs /\ exists k, parents_at_level (E:=E) self (hl_header h) level = Ok k /\ x ∈ k) as Hcand.
  { intros x. split; intros (h & Hh & Q); exists h; (split; [done|]); [destruct Q as [[Q _]|[_ Q]]; [specialize (Hbelow h Hh); lia|done]|right; auto]. }
  assert (exists first rest, hs = first :: rest) as (first & rest & Ehs) by (pose proof (lr_ne _ HR); destruct hs; [done|eauto]).
  assert (first ∈ hs) as Hfirst by (rewrite Ehs; left). destruct (lr_level _ HR first level Hfirst Hlevel) as (l1 & Hl1 & Ha1 & Hd1).
  destruct (level_parents_ok rest) as (l2 & Hl2 & Hm2); [intros; rewrite Ehs; by right|].
  assert (hs !! 0%nat = Some first /\ drop 1 hs = rest) as [E0 E1] by (by rewrite Ehs).
  unfold grandparents_at. rewrite E0, E1. cbn [unwrap mbind res_bind]. rewrite Hl1. cbn [mbind res_bind]. rewrite Hl2. cbn [mbind res_bind].
  destruct (index_extend_ok l1 [] ltac:(constructor)) as (g1 & -> & Hn1 & Hg1). cbn [app] in *.
  destruct (index_extend_ok l2 g1 Hn1) as (t & -> & Hn & Hg).
  assert (antichain g1) as Hga by (apply (antichain_incl l1); [done|done|]; intros x Hx; apply Hg1 in Hx as [Hx|Hx]; [by apply elem_of_nil in Hx|done]).
  assert (forall x, x ∈ g1 ++ t <-> level_candidate level hs x) as HP.
  { intros x. rewrite Hg, Hg1, Hcand, Hm2, elem_of_nil, Ehs. split.
    - intros [[Q|Q]|(h & Hh & Q)]; [done|exists first; split; [left|eauto]|exists h; split; [by right|done]].
    - intros (h & [->|Hh]%elem_of_cons & k & Hk & Hx); [left; right; congruence|right; eauto 6]. }
  assert (forall x, x ∈ g1 ++ t -> has_data x = true) as Hdata.
  { intros x (h & Hh & k & Hk & Hx)%HP%Hcand. destruct (lr_level _ HR h level Hh Hlevel) as (k' & Hk' & _ & Hd). apply Hd. congruence. }
  cbn [andb]. destruct (Nat.eqb_spec (length g1) (length (g1 ++ t))) as [Hlen|Hlen].
  - rewrite length_app in Hlen. assert (t = []) as -> by (apply length_zero_iff_nil; lia). rewrite app_nil_r in *. eexists. split; [done|].
    split; [done|]. intros x. rewrite <- (maximal_ext _ _ x HP). split; [|by intros [? _]]. intros Hx. split; [done|]. intros y Hy Hr.
    destruct (decide (x = y)) as [|Hne]; [done|]. destruct Hga as [_ Hga]. rewrite Hga in Hr; done.
  - destruct (visit_marked level g1 t 0 ∅ []) as (m & Hm & C); [done|done| |].
    { split; [by intros x r Q; rewrite lookup_empty in Q| |by intros x ?%elem_of_nil]. intros x. rewrite lookup_empty.
      split; [by intros [? ?]|]. by intros [?%elem_of_nil _]. }
    cbn [Nat.add app] in Hm, C. rewrite Hm. cbn [mbind res_bind]. eexists. split; [done|]. by apply (covers_result m (g1 ++ t)).
Qed.
Lemma level_with_candidates : at_level <> [] -> exists l, calc_level_parents (E:=E) has_data self level hs = Ok l /\ level_result l.
Proof using HR Hlevel RL.
  intros Hsome. unfold calc_level_parents. fold initial_candidates. assert (initial_candidates <> ∅) as Hne by (by rewrite initial_empty).
  rewrite bool_decide_false by done. unfold grandparents_at.
  destruct (level_parents_ok (filter (fun h => hl_block_level h < level) hs)) as (l & -> & Hm); [by intros h [_ ?]%list_elem_of_filter|]. cbn [mbind res_bind].
  destruct (index_extend_ok l [] ltac:(constructor)) as (g & -> & Hn & Hg). cbn [app andb] in *.
  assert (forall x, x ∈ map hash_of at_level ++ g <-> level_candidate level hs x) as HP.
  { intros x. rewrite elem_of_app, list_elem_of_fmap, Hg, Hm, elem_of_nil. split.
    - intros [(h & -> & [Hh Hin]%list_elem_of_filter)|[?|(h & [Hh Hin]%list_elem_of_filter & Q)]]; [exists h; auto|done|exists h; auto].
    - intros (h & Hh & [[Hl ->]|[Hl Q]]).
      + left. exists h. split; [done|]. by apply list_elem_of_filter.
      + right. right. exists h. split; [by apply list_elem_of_filter|done]. }
  destruct (visit_all level 0 g 0 initial_candidates (map hash_of at_level)) as (m & Hmm & C); [lia| |by apply initial_covers|].
  { intros x Hx. apply Hg in Hx as [Hx|Hx]; [by apply elem_of_nil in Hx|]. apply Hm in Hx as (h & [_ Hh]%list_elem_of_filter & k & Hk & Hx).
    destruct (lr_level _ HR h level Hh Hlevel) as (k' & Hk' & _ & Hd). apply Hd. congruence. }
  rewrite Hmm. cbn [mbind res_bind]. eexists. split; [done|]. by apply (covers_result m (map hash_of at_level ++ g)).
Qed.
Lemma calc_level_parents_ok : exists l, calc_level_parents (E:=E) has_data self level hs = Ok l /\ level_result l.
Proof using HR Hlevel RL. destruct (decide (at_level = [])); [by apply level_without_candidates|by apply level_with_candidates]. Qed.
End levels.

Lemma swap_first_perm {A} (l : list A) i : swap_first l i ≡ₚ l.
Proof.
  unfold swap_first. destruct l as [|a l]; [done|]. cbn [lookup list_lookup]. destruct i as [|j]; [done|].
  change ((a :: l) !! S j) with (l !! j). destruct (l !! j) as [b|] eqn:Hb; [|done].
  change (<[S j := a]> (<[0%nat := b]> (a :: l))) with (b :: <[j := a]> l).
  apply list_elem_of_split_length in Hb as (l1 & l2 & -> & ->). rewrite insert_app_r_alt, Nat.sub_diag by lia.
  change (<[0%nat := a]> (b :: l2)) with (a :: l2).
  rewrite <- !Permutation_middle. apply Permutation_swap.
Qed.
Lemma position_some {A} (f : A -> bool) l : (exists x, x ∈ l /\ f x = true) -> exists i, position f l = Some i.
Proof.
  induction l as [|y l IH]; [by intros (x & ?%elem_of_nil & _)|]. intros (x & Hx & Hf). cbn [position]. destruct (f y) eqn:Hy; [eauto|].
  apply elem_of_cons in Hx as [->|Hx]; [congruence|]. destruct IH as [i ->]; eauto.
Qed.
Lemma res_mapM_fwd {E A B} (f : A -> res E B) l : (forall x, x ∈ l -> exists y, f x = Ok y) -> exists ys, res_mapM f l = Ok ys /\ Forall2 (fun x y => f x = Ok y) l ys.
Proof.
  induction l as [|x l IH]; intros Hl; [exists []; done|]. destruct (Hl x (list_elem_of_here _ _)) as [y Hy]. destruct IH as (ys & Hys & HF); [intros; apply Hl; by right|].
  exists (y :: ys). cbn [res_mapM]. rewrite Hy. cbn [mbind res_bind]. rewrite Hys. split; [done|by constructor].
Qed.

Section blocks.
Context {E : Type} `{!ReachabilityService, RL : !ReachabilityLaws, !HashIter Hash (list Hash), !SetIter Hash}.
Context (has_data : Hash -> bool) (self : ParentsManager).
Abbreviation cand := (level_candidate (E:=E) self).

(** The levels found from level [n] on, cut where genesis is the only parent. *)
Definition levels_from (hs : list HeaderWithBlockLevel) (n : nat) (ls : list (list Hash)) : Prop :=
  (forall i l, ls !! i = Some l -> level_result (E:=E) self hs (Z.of_nat (n + i)) l /\ ((0 < n + i)%nat -> l <> [pm_genesis_hash self])) /\
  ((n + length ls)%nat = S (Z.to_nat (pm_max_block_level self)) \/
   (0 < n + length ls <= Z.to_nat (pm_max_block_level self))%nat /\ level_result (E:=E) self hs (Z.of_nat (n + length ls)) [pm_genesis_hash self]).

Lemma build_levels_ok hs : levels_ready (E:=E) has_data self hs -> 0 <= pm_max_block_level self < 255 -> forall k n done, length done = n ->
  (n + k)%nat = S (Z.to_nat (pm_max_block_level self)) ->
  exists ls, build_levels (E:=E) has_data self (map Z.of_nat (seq n k)) hs (rle_cumulative done) = Ok (rle_cumulative (done ++ ls)) /\ levels_from hs n ls.
Proof using RL.
  intros HR Hmax. induction k as [|k IH]; intros n done Hn Hk.
  { exists []. rewrite app_nil_r. split; [done|]. split; [by intros i l Hl; rewrite lookup_nil in Hl|]. left. cbn. lia. }
  cbn [seq map build_levels]. destruct (calc_level_parents_ok (E:=E) has_data self hs HR (Z.of_nat n) ltac:(lia)) as (l & -> & Hres). cbn [mbind res_bind].
  destruct ((0 <? Z.of_nat n) && bool_decide (l = [pm_genesis_hash self])) eqn:Hcut.
  - apply andb_true_iff in Hcut as [Hpos Hg%bool_decide_eq_true]. subst l. exists []. rewrite app_nil_r. split; [done|].
    split; [by intros i l Hl; rewrite lookup_nil in Hl|]. right. cbn [length]. rewrite Nat.add_0_r. split; [lia|done].
  - destruct (rle_cumulative_ok (E:=unit) done) as [Hr He].
    rewrite (cp_push_ok _ done); [|done|done|change (last_cum 0 (rle_cumulative done)) with (expanded_len (rle_cumulative done)); rewrite rle_cumulative_len; unfold zlen; lia].
    cbn [mbind res_bind]. destruct (IH (S n) (done ++ [l])) as (ls & -> & [H1 H2]); [rewrite length_app; cbn; lia|lia|].
    exists (l :: ls). rewrite <- app_assoc. split; [done|]. split.
    + intros [|i] l' Hl'; cbn [lookup list_lookup] in Hl'.
      * injection Hl' as <-. rewrite Nat.add_0_r. split; [done|]. intros Hpos Hg. apply andb_false_iff in Hcut as [Hc|Hc%bool_decide_eq_false]; [lia|done].
      * rewrite <- Nat.add_succ_comm. by apply H1.
    + cbn [length]. by rewrite <- Nat.add_succ_comm.
Qed.

Lemma levels_ready_perm hs ks : hs ≡ₚ ks -> levels_ready (E:=E) has_data self hs -> levels_ready (E:=E) has_data self ks.
Proof.
  intros Hp [H1 H2 H3]. split.
  - intros ->. apply Permutation_sym, Permutation_nil in Hp. done.
  - eapply antichain_perm; [|exact H2]. by apply Permutation_map.
  - intros h level Hh. apply H3. by rewrite Hp.
Qed.
Lemma levels_from_perm hs ks n ls : hs ≡ₚ ks -> levels_from hs n ls -> levels_from ks n ls.
Proof.
  intros Hp [H1 H2]. assert (forall level l, level_result (E:=E) self hs level l <-> level_result (E:=E) self ks level l) as Hr.
  { intros level l. assert (forall x, maximal (cand level hs) x <-> maximal (cand level ks) x) as Hm.
    { intros x. apply maximal_ext. intros y. unfold level_candidate. by setoid_rewrite Hp. }
    unfold level_result. by setoid_rewrite Hm. }
  split; [intros i l Hi; destruct (H1 i l Hi) as [? ?]; split; [by apply Hr|done]|]. destruct H2 as [?|[? ?]]; [by left|right; split; [done|by apply Hr]].
Qed.

End blocks.

(** Blocks 2 and 3 above genesis 1; block 3 is at level 1. *)
Module TwoParents.
Export DiamondDag.
Definition level_header (h : Hash) (parents : CompressedParents) : Header :=
  mkHeader h 1 parents 0 0 0 0 0 0 0 0 0 0.
Definition manager : ParentsManager := {|
  pm_max_block_level := 3; pm_genesis_hash := 1;
  pm_headers_store := {[1 := mkLevelHeader (level_header 1 []) 3; 2 := mkLevelHeader (level_header 2 [(1, [1])]) 0;
                        3 := mkLevelHeader (level_header 3 [(1, [1])]) 1]};
  pm_children := ∅ |}.
Definition two_parents : list HeaderWithBlockLevel :=
  [mkLevelHeader (level_header 2 [(1, [1])]) 0; mkLevelHeader (level_header 3 [(1, [1])]) 1].
#[local] Existing Instance map_to_list_iter.
#[local] Existing Instance elements_iter.
Lemma two_parents_ready : levels_ready (E:=unit) (fun _ => true) manager two_parents.
Proof.
  split; [done| |].
  - split; [apply (bool_decide_unpack _); vm_compute; exact I|]. intros a b Ha Hb Hne.
    repeat (apply elem_of_cons in Ha as [->|Ha] || apply elem_of_cons in Hb as [->|Hb]); try done; by apply elem_of_nil in Ha || by apply elem_of_nil in Hb.
  - intros h level Hh [H0 H3]. exists [1]. split; [|split; [|done]].
    + assert (level = 0 \/ level = 1 \/ level = 2 \/ level = 3) as Hl by (cbn in H3; lia).
      repeat (apply elem_of_cons in Hh as [->|Hh]); [| |by apply elem_of_nil in Hh]; destruct Hl as [->|[->|[->| ->]]]; reflexivity.
    + split; [apply NoDup_singleton|]. by intros a b ->%list_elem_of_singleton ->%list_elem_of_singleton.
Qed.
(** Level 0 has both parents, level 1 block 3, and from level 2 on genesis. *)
Lemma two_parents_levels : calc_block_parents (E:=unit) (fun _ => true) manager 1 [2; 3] = Ok [(1, [3; 2]); (2, [3])].
Proof. vm_compute. reflexivity. Qed.
End TwoParents.
