(* ===== verification/Ghostdag.v ===== *)
(** * GHOSTDAG

    The protocol of [consensus/src/processes/ghostdag]: selection of the parent
    of highest blue work, the mergeset in consensus order ([mergeset.rs],
    [ordering.rs]) and the greedy k-cluster colouring ([protocol.rs]).

    The walks along the selected chain and the traversal of the mergeset take as
    fuel one more than the number of blocks of the store they visit; the theorems
    show that it always suffices on a well-formed store. *)

From S2P Require Import Prelude Uint Target Dag.

(** [GhostdagManager]; [headers_store] is reduced to the [bits] it is read for. *)
Record GhostdagManager := mkManager {
  genesis_hash : Hash;
  gd_k : KType;
  ghostdag_store : GhostdagStore;
  relations_store : gmap Hash (list Hash);
  headers_store : gmap Hash u32;
  gd_level_work : BlueWorkType;
}.

(** [GhostdagManager::new] and [GhostdagManager::with_level]. *)
Definition manager_new (genesis : Hash) (k : KType) (store : GhostdagStore)
    (relations : gmap Hash (list Hash)) (headers : gmap Hash u32) : GhostdagManager :=
  mkManager genesis k store relations headers 0.
Definition manager_with_level {E} (genesis : Hash) (k : KType) (store : GhostdagStore)
    (relations : gmap Hash (list Hash)) (headers : gmap Hash u32) (level max_block_level : u8)
    : res E GhostdagManager :=
  w ← level_work level max_block_level;
  Ok (mkManager genesis k store relations headers (val w)).

Definition genesis_ghostdag_data : GhostdagData := mkGhostdagData 0 0 ORIGIN [] [] ∅.
Definition origin_ghostdag_data : GhostdagData := mkGhostdagData 0 0 0 [] [] ∅.

(** [ColoringState] and [ColoringOutput]. *)
Inductive ColoringState := StateBlue | StateRed | StatePending.
Inductive ColoringOutput :=
| Blue (blue_anticone_size : KType) (blues_anticone_sizes : gmap Hash KType)
| Red.
(** A chain block; [None] stands for the new block. *)
Record ChainBlock := mkChainBlock { cb_hash : option Hash; cb_data : GhostdagData }.

Section ghostdag.
Context `{!ReachabilityService, !HashIter Hash KType, !SetIter Hash}.
Context (self : GhostdagManager).
Context {E : Type}.
Abbreviation R := (res E).
Abbreviation store := (ghostdag_store self).

(** One more than the number of stored blocks. *)
Definition walk_fuel : nat := S (size store).

Definition find_selected_parent (parents : list Hash) : R Hash :=
  l ← res_mapM (sortable store) parents;
  b ← unwrap (iter_max sortable_cmp l);
  Ok (sb_hash b).

(** ** The mergeset *)
Definition visit_parent (sp : Hash) (st : list Hash * gset Hash * gset Hash) (parent : Hash)
    : list Hash * gset Hash * gset Hash :=
  let '(queue, mergeset, past) := st in
  if decide (parent ∈ mergeset \/ parent ∈ past) then st
  else if is_dag_ancestor_of parent sp then (queue, mergeset, {[parent]} ∪ past)
  else (queue ++ [parent], {[parent]} ∪ mergeset, past).
Fixpoint mergeset_loop (fuel : nat) (sp : Hash) (queue : list Hash) (mergeset past : gset Hash) : R (gset Hash) :=
  match queue with
  | [] => Ok mergeset
  | current :: queue =>
      match fuel with
      | O => NoFuel
      | S fuel =>
          current_parents ← unwrap (relations_store self !! current);
          let '(queue, mergeset, past) :=
            foldl (visit_parent sp) (queue, mergeset, past) current_parents in
          mergeset_loop fuel sp queue mergeset past
      end
  end.
(** Every queue element is a stored block or one of [parents]. *)
Definition unordered_mergeset_without_selected_parent (sp : Hash) (parents : list Hash) : R (gset Hash) :=
  let queue := filter (fun p => p <> sp) parents in
  mergeset_loop (length parents + S (size (relations_store self))) sp queue (list_to_set queue) ∅.

(** [sort_by_cached_key] with the [SortableBlock] of a block as its key. *)
Definition sort_blocks (blocks : list Hash) : R (list Hash) :=
  l ← res_mapM (sortable store) blocks;
  Ok (map sb_hash (merge_sort sortable_le l)).
Definition ordered_mergeset_without_selected_parent (sp : Hash) (parents : list Hash) : R (list Hash) :=
  mergeset ← unordered_mergeset_without_selected_parent sp parents;
  sort_blocks (set_iter mergeset).

(** ** Colouring *)
Fixpoint blue_anticone_loop (fuel : nat) (block : Hash) (sizes : gmap Hash KType) (sp : Hash) : R KType :=
  match sizes !! block with
  | Some size => Ok size
  | None =>
      if decide (sp = genesis_hash self \/ sp = ORIGIN) then Panic
      else
        match fuel with
        | O => NoFuel
        | S fuel =>
            d ← unwrap (store !! sp);
            blue_anticone_loop fuel block (blues_anticone_sizes d) (selected_parent d)
        end
  end.
Definition blue_anticone_size (block : Hash) (context : GhostdagData) : R KType :=
  blue_anticone_loop walk_fuel block (blues_anticone_sizes context) (selected_parent context).

(** The loop over the blue peers of a chain block; the state is the two [&mut]
    arguments. *)
Fixpoint check_peers (new_block_data : GhostdagData) (blue_candidate : Hash) (k : KType)
    (peers : list Hash) (sizes : gmap Hash KType) (size : KType)
    : R (ColoringState * gmap Hash KType * KType) :=
  match peers with
  | [] => Ok (StatePending, sizes, size)
  | peer :: peers =>
      if is_dag_ancestor_of peer blue_candidate
      then check_peers new_block_data blue_candidate k peers sizes size
      else
        peer_blue_anticone_size ← blue_anticone_size peer new_block_data;
        let sizes := <[peer := peer_blue_anticone_size]> sizes in
        size ← chk 16 (size + 1);
        if k <? size then Ok (StateRed, sizes, size)
        else if peer_blue_anticone_size =? k then Ok (StateRed, sizes, size)
        else
          _ ← rassert (peer_blue_anticone_size <=? k);
          check_peers new_block_data blue_candidate k peers sizes size
  end.
Definition check_blue_candidate_with_chain_block (new_block_data : GhostdagData) (chain_block : ChainBlock)
    (blue_candidate : Hash) (sizes : gmap Hash KType) (size : KType) (k : KType)
    : R (ColoringState * gmap Hash KType * KType) :=
  if match cb_hash chain_block with
     | Some hash => is_dag_ancestor_of hash blue_candidate
     | None => false
     end
  then Ok (StateBlue, sizes, size)
  else check_peers new_block_data blue_candidate k (mergeset_blues (cb_data chain_block)) sizes size.

Fixpoint check_blue_loop (fuel : nat) (new_block_data : GhostdagData) (chain_block : ChainBlock)
    (blue_candidate : Hash) (sizes : gmap Hash KType) (size : KType) (k : KType) : R ColoringOutput :=
  '(state, sizes, size) ←
    check_blue_candidate_with_chain_block new_block_data chain_block blue_candidate sizes size k;
  match state with
  | StateBlue => Ok (Blue size sizes)
  | StateRed => Ok Red
  | StatePending =>
      let sp := selected_parent (cb_data chain_block) in
      d ← unwrap (store !! sp);
      match fuel with
      | O => NoFuel
      | S fuel => check_blue_loop fuel new_block_data (mkChainBlock (Some sp) d) blue_candidate sizes size k
      end
  end.
Definition check_blue_candidate (new_block_data : GhostdagData) (blue_candidate : Hash) (k : KType)
    : R ColoringOutput :=
  k1 ← chk 16 (k + 1);
  if wrap 16 (zlen (mergeset_blues new_block_data)) =? k1 then Ok Red
  else check_blue_loop walk_fuel new_block_data (mkChainBlock None new_block_data) blue_candidate ∅ 0 k.

(** ** The protocol *)
Definition color_candidate (new_block_data : GhostdagData) (blue_candidate : Hash) : R GhostdagData :=
  coloring ← check_blue_candidate new_block_data blue_candidate (gd_k self);
  match coloring with
  | Blue blue_anticone_size blues_anticone_sizes =>
      add_blue new_block_data blue_candidate blue_anticone_size blues_anticone_sizes
  | Red => Ok (add_red new_block_data blue_candidate)
  end.

(** [calc_work(headers_store.get_bits(hash).unwrap()).max(level_work)] *)
Definition block_work (hash : Hash) : R BlueWorkType :=
  bits ← unwrap (headers_store self !! hash);
  w ← calc_work bits;
  Ok (Z.max (val w) (gd_level_work self)).

Definition ghostdag (parents : list Hash) : R GhostdagData :=
  _ ← rassert (negb (Nat.eqb (length parents) 0));
  sp ← find_selected_parent parents;
  if sp =? ORIGIN then new_with_selected_parent sp 1
  else
    new_block_data ← new_with_selected_parent sp (gd_k self);
    ordered_mergeset ← ordered_mergeset_without_selected_parent sp parents;
    new_block_data ← res_foldl color_candidate new_block_data ordered_mergeset;
    sp_data ← unwrap (store !! sp);
    score ← u64_add (blue_score sp_data) (zlen (mergeset_blues new_block_data));
    works ← res_mapM block_work (mergeset_blues new_block_data);
    let work := bw_add (blue_work sp_data) (bw_sum works) in
    Ok (finalize_score_and_work new_block_data score work).
End ghostdag.

(** ** Specification: the blue set and the k-cluster property *)
Section spec.
Context `{!ReachabilityService}.
Context (g : Hash) (k : KType).
Implicit Types (S : GhostdagStore) (d : GhostdagData) (h b c : Hash) (l : list Hash).
Abbreviation reach := is_dag_ancestor_of.

Definition is_root h : Prop := h = g \/ h = ORIGIN.
#[export] Instance is_root_dec h : Decision (is_root h).
Proof. unfold is_root. apply _. Defined.

(** The selected chain from [h] down to genesis or to the origin. *)
Inductive sp_chain S : Hash -> list Hash -> Prop :=
| sp_chain_root h d : is_root h -> S !! h = Some d -> sp_chain S h [h]
| sp_chain_step h d l : ~ is_root h -> S !! h = Some d ->
    sp_chain S (selected_parent d) l -> sp_chain S h (h :: l).

Definition blues_of S h : list Hash :=
  match S !! h with Some d => mergeset_blues d | None => [] end.
Definition chain_blues S l : list Hash := concat (map (blues_of S) l).
(** The blue set of a block with data [d], where [l] is the selected chain of
    its selected parent. *)
Definition all_blues S d l : list Hash := mergeset_blues d ++ chain_blues S l.

Definition anticone a b : bool := negb (reach a b) && negb (reach b a).
(** The size of the anticone of [b] within [l]. *)
Definition acount b l : Z := zlen (filter (fun x => anticone x b) l).

(** The anticone size recorded for [b] nearest on the selected chain. *)
Fixpoint chain_size S l b : option KType :=
  match l with
  | [] => None
  | h :: l =>
      if decide (is_root h) then None
      else d ← S !! h;
           match blues_anticone_sizes d !! b with Some s => Some s | None => chain_size S l b end
  end.
Definition data_size S d l b : option KType :=
  match blues_anticone_sizes d !! b with Some s => Some s | None => chain_size S l b end.

(** A well coloured block: the blue set has no duplicates, and each of its
    blocks has at most [k] blue blocks in its anticone, the recorded size being
    exact. *)
Definition coloured S d l : Prop :=
  NoDup (all_blues S d l) /\
  forall b, b ∈ all_blues S d l ->
    data_size S d l b = Some (acount b (all_blues S d l)) /\ acount b (all_blues S d l) <= k.

Record good S : Prop := {
  good_root r d : is_root r -> S !! r = Some d ->
    mergeset_blues d = [] /\ forall x, x ∈ dom S -> r = ORIGIN \/ x <> ORIGIN -> reach r x = true;
  good_chain h d : S !! h = Some d -> ~ is_root h -> exists l, sp_chain S (selected_parent d) l;
  good_past h d b : S !! h = Some d -> b ∈ mergeset_blues d -> reach b h = true /\ b <> h;
  good_sp h d : S !! h = Some d -> ~ is_root h ->
    reach (selected_parent d) h = true /\ selected_parent d <> h;
  good_coloured h d l : S !! h = Some d -> ~ is_root h ->
    sp_chain S (selected_parent d) l -> coloured S d l;
  good_work a b da db : S !! a = Some da -> S !! b = Some db -> a <> ORIGIN ->
    reach a b = true -> a <> b -> blue_work da < blue_work db;
}.

(** The relations store agrees with reachability on the blocks of [S]. *)
Definition relations_ok S (parents : gmap Hash (list Hash)) : Prop :=
  forall h, h ∈ dom S -> exists ps, parents !! h = Some ps /\
    (forall p, p ∈ ps -> p ∈ dom S /\ p <> h) /\
    (forall a, reach a h = true <-> a = h \/ exists p, p ∈ ps /\ reach a p = true).
End spec.

(** ** Chains *)
Section chains.
Context `{!ReachabilityService, !ReachabilityLaws}.
Context (g : Hash) (k : KType).
Implicit Types (S : GhostdagStore) (d : GhostdagData) (h b c : Hash) (l : list Hash).
Abbreviation reach := is_dag_ancestor_of.

Lemma sp_chain_head S h l : sp_chain g S h l -> exists l', l = h :: l'.
Proof. destruct 1; eauto. Qed.
Lemma sp_chain_dom S h l : sp_chain g S h l -> forall x, x ∈ l -> x ∈ dom S.
Proof.
  induction 1 as [h d Hr Hh|h d l Hr Hh Hc IH]; intros x; rewrite elem_of_cons.
  all: intros [->|Hx]; [by apply elem_of_dom|].
  - by apply elem_of_nil in Hx.
  - auto.
Qed.
Lemma sp_chain_fun S h l l' : sp_chain g S h l -> sp_chain g S h l' -> l = l'.
Proof.
  intros Hch. revert l'. induction Hch as [h d Hr Hh|h d l Hr Hh Hc IH]; intros l' Hch'.
  - by inversion Hch'.
  - inversion Hch' as [? d' Hr'|? d' l'' Hr' Hh' Hc']; [done|]. simplify_eq. f_equal. auto.
Qed.
Lemma sp_chain_reach S h l : good g k S -> sp_chain g S h l -> forall x, x ∈ l -> reach x h = true.
Proof.
  intros HG. induction 1 as [h d Hr Hh|h d l Hr Hh Hc IH]; intros x; rewrite elem_of_cons.
  - intros [->|Hx]; [apply reach_refl|by apply elem_of_nil in Hx].
  - intros [->|Hx]; [apply reach_refl|]. eapply reach_trans; [by apply IH|].
    by eapply good_sp.
Qed.
Lemma sp_chain_nodup S h l : good g k S -> sp_chain g S h l -> NoDup l.
Proof.
  intros HG. induction 1 as [h d Hr Hh|h d l Hr Hh Hc IH]; [apply NoDup_singleton|].
  apply NoDup_cons. split; [|done]. intros Hin. eapply sp_chain_reach in Hin; [|done..].
  destruct (good_sp _ _ _ HG h d Hh Hr) as [H1 H2]. apply H2. by apply reach_antisym.
Qed.
Lemma sp_chain_length S h l : good g k S -> sp_chain g S h l -> (length l <= size S)%nat.
Proof.
  intros HG Hc. rewrite <- size_dom. rewrite <- (size_list_to_set (C := gset Hash) l).
  - apply subseteq_size. intros x Hx%elem_of_list_to_set. by eapply sp_chain_dom.
  - by eapply sp_chain_nodup.
Qed.
Lemma chain_blues_past S h l : good g k S -> sp_chain g S h l ->
  forall b, b ∈ chain_blues S l -> reach b h = true /\ b <> h.
Proof.
  intros HG. induction 1 as [h d Hr Hh|h d l Hr Hh Hc IH]; intros b.
  - unfold chain_blues, blues_of. simpl. rewrite Hh, (proj1 (good_root _ _ _ HG h d Hr Hh)).
    by intros Hb%elem_of_nil.
  - unfold chain_blues. simpl. rewrite elem_of_app. unfold blues_of at 1. rewrite Hh. intros [Hb|Hb].
    + by eapply good_past.
    + destruct (IH b Hb) as [H1 H2]. destruct (good_sp _ _ _ HG h d Hh Hr) as [H3 H4].
      split; [by eapply reach_trans|]. intros ->. apply H4. by apply reach_antisym.
Qed.

Lemma blue_anticone_loop_ok (self : GhostdagManager) {E} fuel b sizes sp l s :
  genesis_hash self = g -> sp_chain g (ghostdag_store self) sp l ->
  match sizes !! b with Some s => Some s | None => chain_size g (ghostdag_store self) l b end = Some s ->
  (length l <= fuel)%nat ->
  blue_anticone_loop (E := E) self fuel b sizes sp = Ok s.
Proof.
  intros Hg Hc. revert fuel sizes. induction Hc as [h d Hr Hh|h d l Hr Hh Hc IH]; intros fuel sizes Hs Hf.
  all: destruct (sizes !! b) as [s'|] eqn:Hb; [simplify_eq; destruct fuel; simpl; by rewrite Hb|].
  all: simpl in Hs.
  { by rewrite decide_True in Hs by done. }
  rewrite decide_False, Hh in Hs by done. simpl in Hf. destruct fuel as [|fuel]; [lia|].
  simpl. rewrite Hb, decide_False, Hh by (rewrite Hg; exact Hr). cbn [unwrap mbind res_bind].
  apply IH; [done|lia].
Qed.
End chains.

(** ** Colouring one candidate *)
Section colouring.
Context `{!ReachabilityService, !ReachabilityLaws}.
Context (self : GhostdagManager) {E : Type}.
Implicit Types (d : GhostdagData) (h b c : Hash) (l : list Hash) (m : gmap Hash KType) (n : KType).
Abbreviation reach := is_dag_ancestor_of.
Abbreviation g := (genesis_hash self).
Abbreviation k := (gd_k self).
Abbreviation S := (ghostdag_store self).
Context (Hk : 0 <= k) (Hk16 : inW 16 (k + 1)).

(** The blocks of [l] outside the past of [c]. *)
Definition outside c l : list Hash := filter (fun b => negb (reach b c)) l.

Lemma elem_of_outside c l b : b ∈ outside c l <-> b ∈ l /\ reach b c = false.
Proof. unfold outside. rewrite list_elem_of_filter, negb_True. destruct (reach b c); naive_solver. Qed.
Lemma outside_app c l l' : outside c (l ++ l') = outside c l ++ outside c l'.
Proof. apply filter_app. Qed.
Lemma outside_nil c l : (forall b, b ∈ l -> reach b c = true) -> outside c l = [].
Proof.
  intros Hl. destruct (outside c l) as [|b l'] eqn:He; [done|].
  assert (b ∈ outside c l) as Hb by (rewrite He; left). apply elem_of_outside in Hb as [Hb Hr].
  rewrite Hl in Hr by done. done.
Qed.

(** What the checks compute over the blues [B]: the candidate's anticone size
    and the sizes [sz] of the blues in its anticone, all within bounds. *)
Definition accepted (sz : Hash -> KType) c B m n m' n' : Prop :=
  n' = n + zlen (outside c B) /\ n' <= k /\
  (forall b, b ∈ outside c B -> sz b < k) /\
  forall h, m' !! h = if decide (h ∈ outside c B) then Some (sz h) else m !! h.

Lemma accepted_nil sz c B m n : outside c B = [] -> n <= k -> accepted sz c B m n m n.
Proof.
  intros He Hn. unfold accepted. rewrite He. split_and!; [change (zlen []) with 0; lia|done|..].
  - by intros b Hb%elem_of_nil.
  - intros h. by rewrite decide_False by apply not_elem_of_nil.
Qed.
Lemma accepted_trans sz c B B' m n m' n' m'' n'' :
  accepted sz c B m n m' n' -> accepted sz c B' m' n' m'' n'' -> accepted sz c (B ++ B') m n m'' n''.
Proof.
  intros (-> & H1 & H2 & H3) (-> & H4 & H5 & H6). unfold accepted. rewrite outside_app.
  split_and!; [rewrite zlen_app; lia|done|..].
  - intros b [Hb|Hb]%elem_of_app; auto.
  - intros h. rewrite H6, H3. repeat case_decide; set_solver.
Qed.

Lemma check_peers_ok d c (sz : Hash -> KType) peers m n :
  0 <= n <= k ->
  (forall b, b ∈ outside c peers ->
     blue_anticone_size (E := E) self b d = Ok (sz b) /\ sz b <= k) ->
  exists m' n', check_peers (E := E) self d c k peers m n = Ok (StateRed, m', n') \/
   (check_peers (E := E) self d c k peers m n = Ok (StatePending, m', n') /\ accepted sz c peers m n m' n').
Proof.
  revert m n. induction peers as [|b peers IH]; intros m n Hn Hsz.
  { exists m, n. right. split; [done|]. apply accepted_nil; [done|lia]. }
  cbn [check_peers]. destruct (reach b c) eqn:Hb.
  { destruct (IH m n Hn) as (m' & n' & H').
    { intros b' Hb'. apply Hsz. apply elem_of_outside in Hb' as [??]. apply elem_of_outside. set_solver. }
    exists m', n'. destruct H' as [H'|[H' Ha]]; [by left|right]. split; [done|].
    apply (accepted_trans _ _ [b] _ _ _ m n); [|done]. apply accepted_nil; [|lia].
    apply outside_nil. by intros ? ->%list_elem_of_singleton. }
  destruct (Hsz b) as [-> Hs]; [apply elem_of_outside; set_solver|]. cbn [mbind res_bind].
  rewrite chk_ok by (unfold inW in *; lia). cbn [mbind res_bind].
  destruct (Z.ltb_spec k (n + 1)); [by eauto|]. destruct (Z.eqb_spec (sz b) k); [by eauto|].
  rewrite (proj2 (Z.leb_le _ _) Hs). cbn [rassert mbind res_bind].
  destruct (IH (<[b := sz b]> m) (n + 1)) as (m' & n' & H'); [lia|..].
  { intros b' Hb'. apply Hsz. apply elem_of_outside in Hb' as [??]. apply elem_of_outside. set_solver. }
  exists m', n'. destruct H' as [H'|[H' Ha]]; [by left|right]. split; [done|].
  apply (accepted_trans _ _ [b] _ _ _ (<[b := sz b]> m) (n + 1)); [|done].
  assert (outside c [b] = [b]) as Ho by (unfold outside; rewrite filter_cons_True, filter_nil by (rewrite Hb; done); done).
  unfold accepted. rewrite Ho. split_and!; [done|lia|..].
  - intros ? ->%list_elem_of_singleton. lia.
  - intros h. case_decide as Hd.
    + apply list_elem_of_singleton in Hd as ->. by rewrite lookup_insert_eq.
    + rewrite lookup_insert_ne; [done|set_solver].
Qed.

Definition outcome (sz : Hash -> KType) c B m n (r : res E ColoringOutput) : Prop :=
  r = Ok Red \/ exists m' n', r = Ok (Blue n' m') /\ accepted sz c B m n m' n'.

(** The walk down the selected chain visits every blue outside the past of the
    candidate: it stops at the first chain block in the candidate's past. *)
Lemma check_blue_loop_ok fuel new d ho c (sz : Hash -> KType) l m n :
  good g k S -> c ∈ dom S /\ c <> ORIGIN -> sp_chain g S (selected_parent d) l -> (length l <= fuel)%nat ->
  0 <= n <= k ->
  (forall h, ho = Some h -> forall b, b ∈ all_blues S d l -> reach b h = true) ->
  (forall b, b ∈ all_blues S d l -> blue_anticone_size (E := E) self b new = Ok (sz b) /\ sz b <= k) ->
  outcome sz c (all_blues S d l) m n (check_blue_loop self fuel new (mkChainBlock ho d) c m n k).
Proof.
  intros HG [Hc Hco] Hch. remember (selected_parent d) as sp eqn:Hsp. revert fuel d ho m n Hsp.
  induction Hch as [h d' Hr Hh|h d' l Hr Hh Hch IH]; intros fuel d ho m n Hsp Hf Hn Hpast Hsz.
  all: destruct fuel as [|fuel]; [simpl in Hf; lia|]; cbn [check_blue_loop].
  all: unfold check_blue_candidate_with_chain_block; cbn [cb_hash cb_data].
  all: destruct (match ho with Some h => reach h c | None => false end) eqn:Hho.
  1,3: right; exists m, n; split; [done|]; destruct ho as [h'|]; [|done];
    apply accepted_nil; [|lia]; apply outside_nil; intros b Hb;
    eapply reach_trans; [by apply (Hpast h')|done].
  all: destruct (check_peers_ok new c sz (mergeset_blues d) m n Hn) as (m' & n' & [Hp|[Hp Ha]]);
    [intros b [Hb _]%elem_of_outside; apply Hsz; apply elem_of_app; by left|rewrite Hp; by left|].
  all: rewrite Hp; cbn [mbind res_bind]; rewrite <- Hsp, Hh; cbn [unwrap mbind res_bind].
  - destruct (good_root _ _ _ HG h d' Hr Hh) as [Hb Hall].
    right. exists m', n'. split.
    + destruct fuel; cbn [check_blue_loop]; unfold check_blue_candidate_with_chain_block;
        cbn [cb_hash]; by rewrite Hall by (done || by right).
    + unfold all_blues, chain_blues, blues_of. simpl. by rewrite Hh, Hb, !app_nil_r.
  - assert (all_blues S d (h :: l) = mergeset_blues d ++ all_blues S d' l) as Hall.
    { unfold all_blues, chain_blues. simpl. unfold blues_of at 1. by rewrite Hh. }
    rewrite Hall in *. destruct (Ha) as (-> & Hle & _ & _).
    destruct (IH fuel d' (Some h) m' (n + zlen (outside c (mergeset_blues d))) eq_refl)
      as [Hred|(m'' & n'' & He & Ha')].
    + simpl in Hf. lia.
    + pose proof (zlen_nonneg (outside c (mergeset_blues d))). lia.
    + intros h' [= <-] b [Hb|Hb]%elem_of_app; [by eapply good_past|].
      destruct (good_sp _ _ _ HG h d' Hh Hr) as [Hs _].
      eapply reach_trans; [|exact Hs]. by eapply chain_blues_past.
    + intros b Hb. apply Hsz. apply elem_of_app. by right.
    + by left.
    + right. exists m'', n''. split; [done|]. by eapply accepted_trans.
Qed.

(** ** Anticone counts *)
Lemma acount_nonneg b l : 0 <= acount b l.
Proof. apply zlen_nonneg. Qed.
#[local] Instance acount_proper b : Proper ((≡ₚ) ==> (=)) (acount b).
Proof. intros l l' Hp. unfold acount, zlen. f_equal. apply Permutation_length. by rewrite Hp. Qed.
Lemma acount_cons b x l : acount b (x :: l) = acount b l + Z.b2z (anticone x b).
Proof.
  unfold acount. rewrite filter_cons. destruct (anticone x b); simpl.
  - by rewrite zlen_cons.
  - lia.
Qed.
Lemma acount_outside c l : (forall b, b ∈ l -> reach c b = false) -> acount c l = zlen (outside c l).
Proof.
  induction l as [|x l IH]; intros Hl; [done|]. rewrite acount_cons, IH by set_solver.
  unfold outside at 2. rewrite filter_cons. unfold anticone. rewrite (Hl x) by set_solver.
  fold (outside c l). destruct (reach x c); simpl; [unfold outside; lia|].
  rewrite zlen_cons. unfold outside. lia.
Qed.

Context `{!HashIter Hash KType}.

(** [d'] is [d] with the candidate [c] coloured. *)
Definition extends d c d' : Prop :=
  selected_parent d' = selected_parent d /\
  (zlen (mergeset_blues d) <= k + 1 -> zlen (mergeset_blues d') <= k + 1) /\
  ((mergeset_blues d' = mergeset_blues d ++ [c] /\ mergeset_reds d' = mergeset_reds d) \/
   (mergeset_blues d' = mergeset_blues d /\ mergeset_reds d' = mergeset_reds d ++ [c])).

Lemma all_blues_snoc d d' l c : mergeset_blues d' = mergeset_blues d ++ [c] ->
  all_blues S d' l ≡ₚ c :: all_blues S d l.
Proof.
  intros He. unfold all_blues. rewrite He, <- app_assoc. simpl. by rewrite Permutation_middle.
Qed.

Lemma add_blue_coloured d d' l c m n :
  coloured g k S d l -> c ∉ all_blues S d l -> (forall b, b ∈ all_blues S d l -> reach c b = false) ->
  accepted (fun b => acount b (all_blues S d l)) c (all_blues S d l) ∅ 0 m n ->
  mergeset_blues d' = mergeset_blues d ++ [c] ->
  (forall h, blues_anticone_sizes d' !! h =
     match m !! h with
     | Some s => Some (s + 1)
     | None => if decide (h = c) then Some n else blues_anticone_sizes d !! h
     end) ->
  coloured g k S d' l.
Proof.
  intros [Hnd Hsz] Hc Hanc (Hn & Hnk & Hlt & Hm) Hb Hs. set (B := all_blues S d l) in *.
  pose proof (all_blues_snoc d d' l c Hb) as Hp. fold B in Hp. split.
  { rewrite Hp. apply NoDup_cons. done. }
  intros b. rewrite Hp, elem_of_cons, acount_cons. unfold data_size. rewrite Hs, Hm.
  intros [->|HbB].
  - rewrite decide_False by (rewrite elem_of_outside; tauto). rewrite lookup_empty, decide_True by done.
    rewrite acount_outside by done. unfold anticone. rewrite reach_refl. simpl.
    replace (zlen (outside c B) + 0) with n by lia. done.
  - destruct (Hsz b HbB) as [Hd Hle]. unfold anticone. rewrite (Hanc b HbB).
    destruct (reach b c) eqn:Hbc; simpl.
    + rewrite decide_False by (rewrite elem_of_outside; intros [_ ?]; congruence).
      rewrite lookup_empty, decide_False by (intros ->; done). rewrite Z.add_0_r. done.
    + assert (b ∈ outside c B) as Ho by (apply elem_of_outside; done).
      rewrite decide_True by done. split; [done|]. pose proof (Hlt b Ho). lia.
Qed.
Lemma color_candidate_ok d l c :
  good g k S -> c ∈ dom S /\ c <> ORIGIN -> sp_chain g S (selected_parent d) l -> coloured g k S d l ->
  c ∉ all_blues S d l -> (forall b, b ∈ all_blues S d l -> reach c b = false) ->
  exists d', color_candidate (E := E) self d c = Ok d' /\ extends d c d' /\ coloured g k S d' l.
Proof.
  intros HG Hcd Hch Hcol Hc Hanc. unfold color_candidate, check_blue_candidate.
  rewrite chk_ok by done. cbn [mbind res_bind].
  assert (forall d', d' = add_red d c -> extends d c d' /\ coloured g k S d' l) as Hred.
  { intros d' ->. split; [split_and!; [done|done|by right]|done]. }
  destruct (Z.eqb_spec (wrap 16 (zlen (mergeset_blues d))) (k + 1)) as [|Hlen1]; [cbn [mbind res_bind]; eauto|].
  pose proof (sp_chain_length g k _ _ _ HG Hch) as Hlen.
  destruct (check_blue_loop_ok (walk_fuel self) d d None c (fun b => acount b (all_blues S d l)) l ∅ 0)
    as [->|(m & n & -> & Ha)]; try done.
  - unfold walk_fuel. lia.
  - intros b Hb. destruct (proj2 Hcol b Hb) as [Hd Hle]. split; [|done].
    unfold blue_anticone_size. eapply (blue_anticone_loop_ok g); [done..|unfold walk_fuel; lia].
  - cbn [mbind res_bind]. eauto.
  - cbn [mbind res_bind]. destruct (add_blue_ok (E := E) d c n m) as (d' & -> & Hsp & Hb & Hrd & Hs).
    { intros h s. destruct Ha as (_ & _ & Hlt & Hm). rewrite Hm. case_decide as Ho; [|by rewrite lookup_empty].
      intros [= <-]. pose proof (Hlt h Ho). pose proof (acount_nonneg h (all_blues S d l)).
      unfold inW in *. lia. }
    exists d'. split; [done|]. split; [|by eapply add_blue_coloured].
    split_and!; [done| |by left]. intros Hle. pose proof (zlen_nonneg (mergeset_blues d)).
    rewrite wrap_small in Hlen1 by (unfold inW in *; lia). rewrite Hb, zlen_app, zlen_cons, zlen_nil. lia.
Qed.
End colouring.

(** ** The mergeset *)
Section mergeset.
Context `{!ReachabilityService, !ReachabilityLaws}.
Context (self : GhostdagManager) {E : Type}.
Implicit Types (h b c x : Hash) (l queue : list Hash) (M P : gset Hash).
Abbreviation reach := is_dag_ancestor_of.
Abbreviation S := (ghostdag_store self).
Abbreviation rel := (relations_store self).
Context (sp : Hash) (parents : list Hash).
Context (Hrel : relations_ok S rel) (Hpar : forall p, p ∈ parents -> p ∈ dom S).

(** The blocks merged by a new block over its selected parent. *)
Definition merged x : Prop := reach x sp = false /\ exists p, p ∈ parents /\ reach x p = true.

(** Induction on the past of a stored block. *)
Lemma past_ind (Q : Hash -> Prop) :
  (forall h ps, h ∈ dom S -> rel !! h = Some ps -> (forall p, p ∈ ps -> p ∈ dom S /\ Q p) -> Q h) ->
  forall h, h ∈ dom S -> Q h.
Proof.
  intros Hstep. enough (forall n h, h ∈ dom S ->
    (size (filter (fun x => reach x h = true) (dom S)) < n)%nat -> Q h) as Hn by eauto.
  induction n as [|n IH]; intros h Hh Hsz; [lia|].
  destruct (Hrel h Hh) as (ps & Hps & Hp & Hiff). apply (Hstep h ps Hh Hps).
  intros p Hin. destruct (Hp p Hin) as [Hpd Hne]. split; [done|]. apply IH; [done|].
  eapply Nat.lt_le_trans; [apply (subset_size _ (filter (fun x => reach x h = true) (dom S)))|lia].
  assert (reach p h = true) as Hph by (apply Hiff; right; exists p; split; [done|apply reach_refl]).
  split.
  - intros x. rewrite !elem_of_filter. intros [Hx ?]. split; [by eapply reach_trans|done].
  - intros Hsub. assert (h ∈ filter (fun x => reach x p = true) (dom S)) as Hin'.
    { apply Hsub. apply elem_of_filter. split; [apply reach_refl|done]. }
    apply elem_of_filter in Hin' as [Hhp _]. apply Hne. by apply reach_antisym.
Qed.

Record bfs_inv queue M P : Prop := {
  bfs_queue x : x ∈ queue -> x ∈ M;
  bfs_merged x : x ∈ M -> merged x /\ x ∈ dom S;
  bfs_past x : x ∈ P -> reach x sp = true;
  bfs_done x ps : x ∈ M -> x ∉ queue -> rel !! x = Some ps -> forall p, p ∈ ps -> p ∈ M \/ p ∈ P;
  bfs_start p : p ∈ parents -> p <> sp -> p ∈ M;
}.
(** The invariant within the scan of the parents of [cur], [seen] being those
    already visited. *)
Definition bfs_scan cur (seen : list Hash) queue M P : Prop :=
  cur ∈ M /\ (forall x, x ∈ queue -> x ∈ M) /\
  (forall x, x ∈ M -> merged x /\ x ∈ dom S) /\ (forall x, x ∈ P -> reach x sp = true) /\
  (forall x ps, x ∈ M -> x <> cur -> x ∉ queue -> rel !! x = Some ps -> forall p, p ∈ ps -> p ∈ M \/ p ∈ P) /\
  (forall p, p ∈ seen -> p ∈ M \/ p ∈ P) /\
  (forall p, p ∈ parents -> p <> sp -> p ∈ M).

Lemma visit_parent_inv cur seen p queue M P : bfs_scan cur seen queue M P -> p ∈ dom S ->
  reach p cur = true ->
  let '(queue', M', P') := visit_parent sp (queue, M, P) p in
  bfs_scan cur (seen ++ [p]) queue' M' P' /\
  (length queue' + size (dom rel ∖ M') <= length queue + size (dom rel ∖ M))%nat.
Proof.
  intros (Hcur & Hq & HM & HP & Hd & Hseen & Hst) Hp Hpc. unfold visit_parent.
  destruct (decide (p ∈ M \/ p ∈ P)) as [Hin|Hin].
  { split; [|lia]. split_and!; try done. intros x [?| ->%list_elem_of_singleton]%elem_of_app; auto. }
  destruct (reach p sp) eqn:Hps.
  { split; [|lia]. split_and!; try done.
    - intros x [->%elem_of_singleton|Hx]%elem_of_union; auto.
    - intros x ps Hx Hxc Hxq Hrx q Hq'. destruct (Hd x ps Hx Hxc Hxq Hrx q Hq'); [by left|right].
      apply elem_of_union. by right.
    - intros x [Hx| ->%list_elem_of_singleton]%elem_of_app.
      + destruct (Hseen x Hx); [by left|right]. apply elem_of_union. by right.
      + right. apply elem_of_union_l. by apply elem_of_singleton. }
  destruct (HM cur Hcur) as [[_ (q & Hq1 & Hq2)] _].
  assert (forall x, x ∈ M -> x ∈ {[p]} ∪ M) as Hsub by (intros x Hx; by apply elem_of_union_r).
  assert (p ∈ {[p]} ∪ M) as HpM by (apply elem_of_union_l; by apply elem_of_singleton).
  split.
  - split_and!; auto.
    + intros x [?| ->%list_elem_of_singleton]%elem_of_app; auto.
    + intros x [->%elem_of_singleton|Hx]%elem_of_union; [|auto]. split; [|done]. split; [done|].
      exists q. split; [done|]. by eapply reach_trans.
    + intros x ps Hx Hxc Hxq Hrx p' Hp'. apply not_elem_of_app in Hxq as [Hxq Hxp].
      apply elem_of_union in Hx as [->%elem_of_singleton|Hx].
      * exfalso. apply Hxp. by apply list_elem_of_singleton.
      * destruct (Hd x ps Hx Hxc Hxq Hrx p' Hp'); auto.
    + intros x [Hx| ->%list_elem_of_singleton]%elem_of_app; [|auto]. destruct (Hseen x Hx); auto.
  - rewrite length_app. simpl. destruct (Hrel p Hp) as (ps & Hrp & _).
    assert (p ∈ dom rel) as Hpr by (by apply elem_of_dom).
    assert (dom rel ∖ M ≡ {[p]} ∪ dom rel ∖ ({[p]} ∪ M)) as He.
    { intros x. rewrite elem_of_union, !elem_of_difference, elem_of_union, elem_of_singleton.
      destruct (decide (x = p)) as [->|]; tauto. }
    apply set_size_proper in He. pose proof (size_union {[p]} (dom rel ∖ ({[p]} ∪ M))) as Hu.
    rewrite He, Hu; [pose proof (size_singleton (C := gset Hash) p); lia|].
    intros x. rewrite elem_of_difference, elem_of_union. tauto.
Qed.
Lemma visit_parents_inv cur seen ps queue M P : bfs_scan cur seen queue M P ->
  (forall p, p ∈ ps -> p ∈ dom S /\ reach p cur = true) ->
  let '(queue', M', P') := foldl (visit_parent sp) (queue, M, P) ps in
  bfs_scan cur (seen ++ ps) queue' M' P' /\
  (length queue' + size (dom rel ∖ M') <= length queue + size (dom rel ∖ M))%nat.
Proof.
  revert seen queue M P. induction ps as [|p ps IH]; intros seen queue M P Hinv Hps; cbn [foldl].
  { rewrite app_nil_r. done. }
  destruct (Hps p ltac:(left)) as [Hp1 Hp2].
  pose proof (visit_parent_inv cur seen p queue M P Hinv Hp1 Hp2) as Hv.
  destruct (visit_parent sp (queue, M, P) p) as [[q1 M1] P1]. destruct Hv as [Hv1 Hv2].
  specialize (IH (seen ++ [p]) q1 M1 P1 Hv1 ltac:(intros ??; apply Hps; by right)).
  destruct (foldl _ _ ps) as [[q2 M2] P2]. rewrite <- app_assoc in IH. destruct IH as [IH1 IH2].
  split; [done|lia].
Qed.
Lemma bfs_complete M P : bfs_inv [] M P -> sp ∈ dom S ->
  forall x, merged x -> x ∈ M.
Proof.
  intros [_ HM HP Hd Hst] Hsp x [Hxs (p & Hp & Hxp)].
  assert (p <> sp) as Hps by (intros ->; congruence).
  pose proof (Hst p Hp Hps) as HpM. clear Hp Hps. revert HpM Hxp.
  destruct (decide (p ∈ M)) as [HpM|]; [|done]. destruct (HM p HpM) as [_ Hpd]. clear HpM. revert p Hpd.
  apply (past_ind (fun p => p ∈ M -> reach x p = true -> x ∈ M)).
  intros h ps Hh Hps IH HhM Hxh. destruct (Hrel h Hh) as (ps' & Hps' & _ & Hiff). simplify_eq.
  apply Hiff in Hxh as [->|(q & Hq & Hxq)]; [done|].
  destruct (Hd h _ HhM (not_elem_of_nil _) Hps q Hq) as [HqM|HqP]; [by apply (IH q Hq)|].
  apply HP in HqP. exfalso. rewrite (reach_trans _ _ _ Hxq HqP) in Hxs. done.
Qed.
Lemma mergeset_loop_ok fuel queue M P : bfs_inv queue M P -> sp ∈ dom S ->
  (length queue + size (dom rel ∖ M) <= fuel)%nat ->
  exists M', mergeset_loop (E := E) self fuel sp queue M P = Ok M' /\
    forall x, x ∈ M' <-> merged x.
Proof.
  revert queue M P. induction fuel as [|fuel IH]; intros queue M P Hinv Hsp Hf.
  all: destruct queue as [|cur queue].
  1,3: exists M; split; [done|]; intros x; split; [intros Hx; apply (bfs_merged _ _ _ Hinv x Hx)|by eapply bfs_complete].
  { simpl in Hf. lia. }
  cbn [mergeset_loop]. destruct Hinv as [Hq HM HP Hd Hst].
  assert (cur ∈ M) as HcM by (apply Hq; left). destruct (HM cur HcM) as [_ Hcd].
  destruct (Hrel cur Hcd) as (ps & Hps & Hpp & Hiff). rewrite Hps. cbn [unwrap mbind res_bind].
  pose proof (visit_parents_inv cur [] ps queue M P) as Hv.
  destruct (foldl (visit_parent sp) (queue, M, P) ps) as [[q' M'] P'].
  destruct Hv as [(Hc' & Hq' & HM' & HP' & Hd' & Hseen & Hst') Hm].
  { split_and!; try done; [intros; apply Hq; by right| |by intros p ?%elem_of_nil].
    intros x ps' Hx Hxc Hxq. apply Hd; [done|]. by apply not_elem_of_cons. }
  { intros p Hp. split; [by apply Hpp|]. apply Hiff. right. exists p. split; [done|apply reach_refl]. }
  apply IH; [|done|simpl in Hf; lia]. constructor; try done.
  intros x ps' Hx Hxq Hrx. destruct (decide (x = cur)) as [->|Hne]; [|by eapply Hd'].
  simplify_eq. exact Hseen.
Qed.
(** The traversal returns exactly the merged blocks. *)
Lemma unordered_mergeset_ok : sp ∈ dom S ->
  (forall p, p ∈ parents -> p <> sp -> reach p sp = false) ->
  exists M, unordered_mergeset_without_selected_parent (E := E) self sp parents = Ok M /\
    forall x, x ∈ M <-> merged x.
Proof.
  intros Hsp Hanti. unfold unordered_mergeset_without_selected_parent.
  set (queue := filter (fun p => p <> sp) parents).
  assert (forall x, x ∈ queue <-> x <> sp /\ x ∈ parents) as Hq by (intros x; unfold queue; by rewrite list_elem_of_filter).
  apply mergeset_loop_ok; [|done|].
  - constructor.
    + intros x Hx. by apply elem_of_list_to_set.
    + intros x Hx%elem_of_list_to_set%Hq. destruct Hx as [Hne Hx]. split; [|auto].
      split; [auto|]. exists x. split; [done|apply reach_refl].
    + intros x Hx. by apply elem_of_empty in Hx.
    + intros x ps Hx%elem_of_list_to_set Hnq. done.
    + intros p Hp Hne. apply elem_of_list_to_set, Hq. done.
  - pose proof (length_filter (fun p => p <> sp) parents) as Hl. fold queue in Hl.
    pose proof (subseteq_size (dom rel ∖ list_to_set queue) (dom rel) ltac:(apply subseteq_difference_l; done)).
    rewrite size_dom in *. lia.
Qed.
Lemma merged_dom x : merged x -> x ∈ dom S.
Proof.
  intros [_ (p & Hp & Hxp)]. apply Hpar in Hp. revert p Hp Hxp. apply (past_ind (fun p => reach x p = true -> x ∈ dom S)).
  intros h ps Hh Hps IH Hxh. destruct (Hrel h Hh) as (ps' & Hps' & _ & Hiff). simplify_eq.
  apply Hiff in Hxh as [->|(q & Hq & Hxq)]; [done|]. by apply (IH q Hq).
Qed.
End mergeset.

(** ** The protocol *)
Section protocol.
Context `{!ReachabilityService, !ReachabilityLaws, !HashIter Hash KType, !SetIter Hash}.
Context (self : GhostdagManager) {E : Type}.
Implicit Types (d : GhostdagData) (h b c p x : Hash) (l cs : list Hash).
Abbreviation reach := is_dag_ancestor_of.
Abbreviation g := (genesis_hash self).
Abbreviation k := (gd_k self).
Abbreviation S := (ghostdag_store self).
Context (Hk : 0 <= k) (Hk16 : inW 16 (k + 1)) (HG : good g k S).

(** A new block over the selected parent alone is well coloured. *)
Lemma new_with_sp_coloured d sp l : sp_chain g S sp l ->
  mergeset_blues d = [sp] -> blues_anticone_sizes d = {[sp := 0]} -> coloured g k S d l.
Proof.
  intros Hch Hb Hs. pose proof (chain_blues_past g k S sp l HG Hch) as Hpast.
  assert (forall b, b ∈ chain_blues S l -> anticone sp b = false /\ anticone b sp = false) as Ha.
  { intros b Hb'. destruct (Hpast b Hb') as [Hr _]. unfold anticone. rewrite Hr. by rewrite andb_false_r. }
  assert (acount sp (chain_blues S l) = 0) as Hsp0.
  { clear -Ha. induction (chain_blues S l) as [|b B IH]; [done|]. rewrite acount_cons, IH.
    - by rewrite (proj2 (Ha b ltac:(left))).
    - intros b' Hb'. apply Ha. by right. }
  assert (NoDup (chain_blues S l) /\ forall b, b ∈ chain_blues S l ->
    chain_size g S l b = Some (acount b (chain_blues S l)) /\ acount b (chain_blues S l) <= k) as [Hnd Hsz].
  { destruct Hch as [sp d' Hr Hh|sp d' l Hr Hh Hch].
    - unfold chain_blues, blues_of. simpl. rewrite Hh, (proj1 (good_root _ _ _ HG _ _ Hr Hh)). simpl.
      split; [apply NoDup_nil_2|]. by intros b ?%elem_of_nil.
    - destruct (good_coloured _ _ _ HG _ _ _ Hh Hr Hch) as [Hnd Hsz].
      assert (chain_blues S (sp :: l) = all_blues S d' l) as ->.
      { unfold chain_blues, all_blues. simpl. unfold blues_of at 1. by rewrite Hh. }
      split; [done|]. intros b Hb'. simpl. rewrite decide_False, Hh by done. simpl. by apply Hsz. }
  unfold coloured, all_blues, data_size. rewrite Hb, Hs. simpl. split.
  { apply NoDup_cons. split; [|done]. intros Hin. by apply Hpast in Hin as [_ ?]. }
  intros b. rewrite elem_of_cons, acount_cons. intros [->|Hin].
  - rewrite lookup_singleton_eq, Hsp0. unfold anticone. rewrite reach_refl. done.
  - rewrite lookup_singleton_ne by (intros <-; by apply Hpast in Hin as [_ ?]).
    rewrite (proj1 (Ha b Hin)). simpl. rewrite Z.add_0_r. auto.
Qed.

(** Colouring a list of candidates in topological order. *)
Definition topological cs : Prop := StronglySorted (fun a b => reach b a = false) cs.

Lemma color_mergeset_ok d l cs :
  sp_chain g S (selected_parent d) l -> coloured g k S d l -> topological cs ->
  (forall c, c ∈ cs -> (c ∈ dom S /\ c <> ORIGIN) /\ forall b, b ∈ all_blues S d l -> reach c b = false) ->
  zlen (mergeset_blues d) <= k + 1 ->
  exists d' bl rd, res_foldl (color_candidate (E := E) self) d cs = Ok d' /\
    selected_parent d' = selected_parent d /\ coloured g k S d' l /\
    mergeset_blues d' = mergeset_blues d ++ bl /\ mergeset_reds d' = mergeset_reds d ++ rd /\
    bl `sublist_of` cs /\ rd `sublist_of` cs /\ bl ++ rd ≡ₚ cs /\ zlen (mergeset_blues d') <= k + 1.
Proof.
  intros Hch Hcol Hcs. revert d Hch Hcol. induction Hcs as [|c cs Hcs IH Hc]; intros d Hch Hcol Hin Hlen.
  { exists d, [], []. rewrite !app_nil_r. repeat (split; [done|]). done. }
  destruct (Hin c ltac:(left)) as [Hcd Hcb].
  destruct (color_candidate_ok self (E := E) Hk Hk16 d l c HG Hcd Hch Hcol)
    as (d1 & Hd1 & (Hsp & Hlen1 & Hext) & Hcol1); [intros Hb%Hcb; by rewrite reach_refl in Hb|done|].
  assert (forall b, b ∈ all_blues S d1 l -> b = c \/ b ∈ all_blues S d l) as Hsub.
  { unfold all_blues. intros b. destruct Hext as [[-> _]|[-> _]]; rewrite ?elem_of_app, ?list_elem_of_singleton; tauto. }
  destruct (IH d1) as (d' & bl & rd & Hf & Hsp' & Hcol' & Hb' & Hr' & Hsb & Hsr & Hp & Hl').
  - by rewrite Hsp.
  - done.
  - intros c' Hc'. destruct (Hin c' ltac:(by right)) as [? Hall]. split; [done|].
    rewrite Forall_forall in Hc. intros b [->|Hb]%Hsub; [by apply Hc|by apply Hall].
  - auto.
  - exists d'. cbn [res_foldl]. rewrite Hd1. cbn [mbind res_bind]. destruct Hext as [[Hb1 Hr1]|[Hb1 Hr1]].
    + exists (c :: bl), rd. rewrite Hb1, <- app_assoc in Hb'. rewrite Hr1 in Hr'.
      split_and!; try done; [congruence|by constructor|by apply sublist_cons|]. simpl. by rewrite Hp.
    + exists bl, (c :: rd). rewrite Hr1, <- app_assoc in Hr'. rewrite Hb1 in Hb'.
      split_and!; try done; [congruence|by apply sublist_cons|by constructor|].
      by rewrite <- Permutation_middle, Hp.
Qed.

(** The key a block is ordered by. *)
Definition key h : SortableBlock :=
  mkSortable h (match S !! h with Some d => blue_work d | None => 0 end).

Lemma sortable_key h : h ∈ dom S -> sortable (E := E) S h = Ok (key h).
Proof. intros [d Hd]%elem_of_dom. unfold sortable, key. by rewrite Hd. Qed.
Lemma sortables_key l : (forall h, h ∈ l -> h ∈ dom S) ->
  res_mapM (sortable (E := E) S) l = Ok (map key l).
Proof. intros Hl. apply res_mapM_ok. intros h Hh. by apply sortable_key, Hl. Qed.

Lemma sort_blocks_ok l : (forall h, h ∈ l -> h ∈ dom S) ->
  exists cs, sort_blocks (E := E) self l = Ok cs /\ cs ≡ₚ l /\ StronglySorted sortable_le (map key cs).
Proof.
  intros Hl. unfold sort_blocks. rewrite sortables_key by done. cbn [mbind res_bind].
  set (ms := merge_sort sortable_le (map key l)).
  assert (ms ≡ₚ map key l) as Hp by apply merge_sort_Permutation.
  assert (map key (map sb_hash ms) = ms) as Hms.
  { rewrite map_map. rewrite <- (map_id ms) at 2. apply map_ext_in. intros e He%list_elem_of_In.
    rewrite Hp in He. by apply list_elem_of_fmap in He as (h & -> & _). }
  exists (map sb_hash ms). split; [done|]. split.
  - rewrite Hp, map_map. simpl. by rewrite map_id.
  - rewrite Hms. apply Sorted_StronglySorted; [intros ???; apply sortable_le_trans|]. apply Sorted_merge_sort. apply _.
Qed.
Lemma sorted_topological cs : NoDup cs -> (forall c, c ∈ cs -> c ∈ dom S /\ c <> ORIGIN) ->
  StronglySorted sortable_le (map key cs) -> topological cs.
Proof.
  induction cs as [|c cs IH]; intros Hnd Hcs Hs; [constructor|].
  apply NoDup_cons in Hnd as [Hc Hnd]. simpl in Hs. apply StronglySorted_inv in Hs as [Hs Hall].
  constructor; [apply IH; [done|intros; apply Hcs; by right|done]|].
  rewrite Forall_map in Hall. rewrite Forall_forall in *. intros x Hx.
  destruct (reach x c) eqn:Hr; [|done]. exfalso.
  destruct (Hcs c ltac:(left)) as [[dc Hdc]%elem_of_dom _].
  destruct (Hcs x ltac:(by right)) as [[dx Hdx]%elem_of_dom Hxo].
  pose proof (good_work _ _ _ HG x c dx dc Hdx Hdc Hxo Hr ltac:(by intros ->)) as Hlt.
  specialize (Hall x Hx). apply sortable_le_spec in Hall. unfold key in Hall. simpl in Hall.
  rewrite Hdc, Hdx in Hall. lia.
Qed.

Lemma find_selected_parent_ok parents : parents <> [] -> (forall p, p ∈ parents -> p ∈ dom S) ->
  exists sp, find_selected_parent (E := E) self parents = Ok sp /\ sp ∈ parents /\
    forall p, p ∈ parents -> sortable_le (key p) (key sp).
Proof.
  intros Hne Hp. unfold find_selected_parent. rewrite sortables_key by done. cbn [mbind res_bind].
  destruct (iter_max sortable_cmp (map key parents)) as [m|] eqn:Hm.
  - apply iter_max_spec in Hm as [Hin Hmax]. apply list_elem_of_fmap in Hin as (sp & -> & Hsp).
    exists sp. split; [done|]. split; [done|]. intros p Hpp. apply Hmax. apply list_elem_of_fmap. eauto.
  - by destruct parents.
Qed.

Context (parents : list Hash).
Context (Hrel : relations_ok S (relations_store self)).
Context (Hne : parents <> []) (Hpar : forall p, p ∈ parents -> p ∈ dom S).
Context (Hanti : forall p q, p ∈ parents -> q ∈ parents -> p <> q -> reach p q = false).

Lemma ordered_mergeset_ok sp : sp ∈ parents ->
  exists cs, ordered_mergeset_without_selected_parent (E := E) self sp parents = Ok cs /\
    NoDup cs /\ (forall x, x ∈ cs <-> merged sp parents x) /\
    StronglySorted sortable_le (map key cs) /\ topological cs /\
    (forall c, c ∈ cs -> c ∈ dom S /\ reach c sp = false).
Proof.
  intros Hsp. unfold ordered_mergeset_without_selected_parent.
  destruct (unordered_mergeset_ok self (E := E) sp parents Hrel Hpar) as (M & -> & HM); [auto|by auto|].
  cbn [mbind res_bind].
  assert (forall x, x ∈ set_iter M <-> merged sp parents x) as Hit.
  { intros x. rewrite <- HM, set_iter_perm. apply elem_of_elements. }
  destruct (sort_blocks_ok (set_iter M)) as (cs & -> & Hcs & Hs).
  { intros h Hh%Hit. by eapply merged_dom. }
  assert (forall x, x ∈ cs <-> merged sp parents x) as Hmem by (intros x; rewrite Hcs; apply Hit).
  assert (NoDup cs) as Hnd by (rewrite Hcs, set_iter_perm; apply NoDup_elements).
  assert (forall c, c ∈ cs -> c ∈ dom S /\ reach c sp = false) as Hall.
  { intros c Hc%Hmem. split; [by eapply merged_dom|apply Hc]. }
  exists cs. split_and!; try done. apply sorted_topological; try done.
  intros c Hc. destruct (Hall c Hc) as [Hd Hr]. split; [done|]. intros ->.
  apply elem_of_dom in Hd as [d Hd]. destruct (good_root _ _ _ HG ORIGIN d (or_intror eq_refl) Hd) as [_ Ho].
  rewrite Ho in Hr; [done|auto|by left].
Qed.

(** What the protocol returns: the best parent is selected, the mergeset
    (sorted as [cs]) is split into blues and reds without changing its order,
    and the new block is well coloured. *)
Record ghostdag_result d l cs bl : Prop := {
  gr_sp : selected_parent d ∈ parents;
  gr_max p : p ∈ parents -> sortable_le (key p) (key (selected_parent d));
  gr_chain : sp_chain g S (selected_parent d) l;
  gr_coloured : coloured g k S d l;
  gr_blues : mergeset_blues d = selected_parent d :: bl;
  gr_bl : bl `sublist_of` cs;
  gr_rd : mergeset_reds d `sublist_of` cs;
  gr_perm : bl ++ mergeset_reds d ≡ₚ cs;
  gr_nodup : NoDup cs;
  gr_merged x : x ∈ cs <-> merged (selected_parent d) parents x;
  gr_sorted : StronglySorted sortable_le (map key cs);
  gr_len : zlen (mergeset_blues d) <= k + 1;
}.

Lemma sp_chain_exists h : h ∈ dom S -> exists l, sp_chain g S h l.
Proof.
  intros [d Hd]%elem_of_dom. destruct (decide (is_root g h)) as [Hr|Hr].
  - exists [h]. by econstructor.
  - destruct (good_chain _ _ _ HG h d Hd Hr) as [l Hl]. exists (h :: l). by eapply sp_chain_step.
Qed.
Lemma merged_not_origin sp : sp ∈ dom S -> ~ merged sp parents ORIGIN.
Proof.
  intros Hsp Hm. pose proof (merged_dom self sp parents Hrel Hpar ORIGIN Hm) as [d Hd]%elem_of_dom. destruct Hm as [Ho _].
  destruct (good_root _ _ _ HG ORIGIN d (or_intror eq_refl) Hd) as [_ Hall]. by rewrite Hall in Ho by (done || by left).
Qed.
Lemma origin_nothing_merged x : ORIGIN ∈ parents -> ~ merged ORIGIN parents x.
Proof.
  intros Ho [Hx (p & Hp & Hxp)]. pose proof (Hpar ORIGIN Ho) as [d Hd]%elem_of_dom.
  destruct (good_root _ _ _ HG ORIGIN d (or_intror eq_refl) Hd) as [_ Hall].
  destruct (decide (p = ORIGIN)) as [->|Hpo]; [congruence|].
  pose proof (Hanti ORIGIN p Ho Hp ltac:(done)) as Hf. rewrite Hall in Hf; [done|auto|by left].
Qed.

(** Blocks have positive work, at most [W], and scores leave room for one more
    mergeset. *)
Context (W : Z) (Hwork : forall h, h ∈ dom S -> h <> ORIGIN -> exists w, block_work (E := E) self h = Ok w /\ 0 < w <= W).
Context (Hroom : forall h d, S !! h = Some d ->
  0 <= blue_score d /\ blue_score d + k + 1 < 2 ^ 64 /\ 0 <= blue_work d /\ blue_work d + (k + 1) * W < 2 ^ 192).

Lemma works_ok l : (forall h, h ∈ l -> h ∈ dom S /\ h <> ORIGIN) -> exists ws,
  res_mapM (block_work (E := E) self) l = Ok ws /\ Forall (fun w => 0 <= w) ws /\
  foldr Z.add 0 ws <= zlen l * W /\ (l <> [] -> 0 < foldr Z.add 0 ws).
Proof.
  induction l as [|h l IH]; intros Hl.
  { exists []. split; [done|]. split; [constructor|]. split; [change (zlen []) with 0; simpl; lia|done]. }
  destruct IH as (ws & Hws & Hpos & Hsum & _); [intros; apply Hl; by right|].
  destruct (Hl h ltac:(left)) as [Hhd Hho]. destruct (Hwork h Hhd Hho) as (w & Hw & Hw0). exists (w :: ws). simpl. rewrite Hw.
  cbn [mbind res_bind]. rewrite Hws. split; [done|]. split; [constructor; [lia|done]|].
  rewrite zlen_cons. split; [lia|]. intros _.
  assert (0 <= foldr Z.add 0 ws) by (clear -Hpos; induction Hpos; simpl; lia). lia.
Qed.

Lemma all_blues_reach d sp l : sp_chain g S sp l -> mergeset_blues d = [sp] ->
  forall b, b ∈ all_blues S d l -> reach b sp = true.
Proof.
  intros Hch Hb b. unfold all_blues. rewrite Hb. simpl. intros [->|Hin]%elem_of_cons; [apply reach_refl|].
  by eapply chain_blues_past.
Qed.

Lemma ghostdag_ok : exists d l cs bl, ghostdag (E := E) self parents = Ok d /\ ghostdag_result d l cs bl /\
  (selected_parent d <> ORIGIN -> exists spd, S !! selected_parent d = Some spd /\
     blue_score d = blue_score spd + zlen (mergeset_blues d) /\ blue_work spd < blue_work d).
Proof.
  unfold ghostdag. assert (Nat.eqb (length parents) 0 = false) as ->.
  { apply Nat.eqb_neq. by intros Hl%nil_length_inv. }
  cbn [negb rassert mbind res_bind].
  destruct (find_selected_parent_ok parents Hne Hpar) as (sp & -> & Hsp & Hmax).
  cbn [mbind res_bind]. destruct (sp_chain_exists sp (Hpar sp Hsp)) as [l Hch].
  destruct (ordered_mergeset_ok sp Hsp) as (cs & Hcs & Hnd & Hmem & Hsort & Htop & Hall).
  assert (forall c, c ∈ cs -> c <> ORIGIN) as Hcno by (intros c Hc ->; by apply (merged_not_origin sp (Hpar sp Hsp)), Hmem).
  unfold new_with_selected_parent. rewrite !(chk_ok 16) by (unfold inW in *; lia). cbn [mbind res_bind].
  set (d0 := {| selected_parent := sp |}).
  assert (coloured g k S d0 l) as Hcol by (by eapply new_with_sp_coloured).
  assert (zlen (mergeset_blues d0) <= k + 1) as Hlen0 by (change (zlen (mergeset_blues d0)) with 1; lia).
  destruct (Z.eqb_spec sp ORIGIN) as [->|Hno].
  { exists d0, l, [], []. split; [done|]. split; [|done].
    assert (cs = []) as ->.
    { destruct cs as [|c cs]; [done|]. exfalso. eapply origin_nothing_merged; [done|]. apply Hmem. left. }
    constructor; try done. }
  rewrite Hcs. cbn [mbind res_bind].
  destruct (color_mergeset_ok d0 l cs Hch Hcol Htop) as (d & bl & rd & -> & Hsp' & Hcol' & Hb & Hr & Hsb & Hsr & Hperm & Hlen); [|done|].
  { intros c Hc. destruct (Hall c Hc) as [Hcd Hcs']. split; [split; [done|by apply Hcno]|]. intros b Hb.
    apply (all_blues_reach d0 sp l Hch eq_refl) in Hb. destruct (reach c b) eqn:Hcb; [|done].
    by rewrite (reach_trans _ _ _ Hcb Hb) in Hcs'. }
  cbn [mbind res_bind]. pose proof (Hpar sp Hsp) as [spd Hspd]%elem_of_dom.
  rewrite Hspd. cbn [unwrap mbind res_bind]. destruct (Hroom sp spd Hspd) as (Hs0 & Hs1 & Hw0 & Hw1).
  pose proof (zlen_nonneg (mergeset_blues d)).
  unfold u64_add. rewrite (chk_ok 64) by (unfold inW; lia). cbn [mbind res_bind].
  destruct (works_ok (mergeset_blues d)) as (ws & -> & Hpos & Hsum & Hgt).
  { rewrite Hb. intros h [->|Hh]%elem_of_cons; [auto|]. assert (h ∈ cs) as Hin by (rewrite <- Hperm; apply elem_of_app; by left).
    split; [by apply Hall|auto]. }
  cbn [mbind res_bind]. specialize (Hgt ltac:(by rewrite Hb)).
  eexists _, l, cs, bl. split; [done|]. split.
  - constructor; cbn; rewrite ?Hsp', ?Hr; done.
  - cbn. rewrite Hsp'. intros _. exists spd. split; [done|]. split; [done|].
    assert (0 < W) by (destruct (Hwork sp (Hpar sp Hsp) Hno) as (w & _ & ?); lia).
    rewrite bw_sum_exact by (done || nia). unfold bw_add. rewrite wrap_small by (unfold inW; nia). lia.
Qed.

(** ** Storing the new block *)
Section insertion.
Context (h0 : Hash) (d0 : GhostdagData) (Hnew : h0 ∉ dom S) (Hnr : ~ is_root g h0).
Abbreviation S' := (<[h0 := d0]> S).

Lemma insert_lookup h : h ∈ dom S -> S' !! h = S !! h.
Proof. intros Hh. apply lookup_insert_ne. by intros ->. Qed.
Lemma sp_chain_insert h l : sp_chain g S h l -> sp_chain g S' h l.
Proof.
  induction 1 as [h d Hr Hh|h d l Hr Hh Hc IH].
  - eapply sp_chain_root; [done|]. rewrite insert_lookup; [done|by apply elem_of_dom].
  - eapply sp_chain_step; [done| |done]. rewrite insert_lookup; [done|by apply elem_of_dom].
Qed.
Lemma sp_chain_insert_inv h l : h ∈ dom S -> sp_chain g S' h l -> sp_chain g S h l.
Proof.
  intros Hh Hc. destruct (sp_chain_exists h Hh) as [l' Hl'].
  by rewrite (sp_chain_fun g S' h l l' Hc (sp_chain_insert _ _ Hl')).
Qed.
Lemma chain_blues_insert l : (forall x, x ∈ l -> x ∈ dom S) -> chain_blues S' l = chain_blues S l.
Proof.
  intros Hl. unfold chain_blues. f_equal. apply map_ext_in. intros x Hx%list_elem_of_In.
  unfold blues_of. by rewrite insert_lookup by auto.
Qed.
Lemma chain_size_insert l b : (forall x, x ∈ l -> x ∈ dom S) -> chain_size g S' l b = chain_size g S l b.
Proof.
  induction l as [|x l IH]; intros Hl; [done|]. simpl. rewrite insert_lookup by (apply Hl; left).
  rewrite IH by (intros; apply Hl; by right). done.
Qed.
Lemma coloured_insert d h l : sp_chain g S h l -> coloured g k S d l -> coloured g k S' d l.
Proof.
  intros Hch Hcol. pose proof (sp_chain_dom g S h l Hch) as Hl. unfold coloured, all_blues, data_size in *.
  rewrite chain_blues_insert by done. split; [apply Hcol|]. intros b. rewrite chain_size_insert by done. apply Hcol.
Qed.

Lemma good_insert l cs bl :
  ghostdag_result d0 l cs bl ->
  (selected_parent d0 <> ORIGIN -> exists spd, S !! selected_parent d0 = Some spd /\ blue_work spd < blue_work d0) ->
  (ORIGIN ∈ parents -> g ∉ dom S) ->
  (forall x, x ∈ dom S -> reach h0 x = false) ->
  (forall a, reach a h0 = true <-> a = h0 \/ exists p, p ∈ parents /\ reach a p = true) ->
  good g k S'.
Proof.
  intros HR Hw Hog Hfut Hpast. pose proof (gr_sp _ _ _ _ HR) as Hsp. pose proof (Hpar _ Hsp) as Hspd.
  assert (forall p, p ∈ parents -> reach p h0 = true) as Hph.
  { intros p Hp. apply Hpast. right. exists p. split; [done|apply reach_refl]. }
  assert (forall h d, S' !! h = Some d -> (h = h0 /\ d = d0) \/ (h <> h0 /\ h ∈ dom S /\ S !! h = Some d)) as Hcases.
  { intros h d [[<- <-]|[? Hh]]%lookup_insert_Some; [by left|right]. split_and!; [done|by apply elem_of_dom|done]. }
  constructor.
  - intros r d Hr [[-> ->]|(Hne' & Hd & Hh)]%Hcases; [done|].
    destruct (good_root _ _ _ HG r d Hr Hh) as [Hb Hall]. split; [done|]. intros x.
    rewrite dom_insert, elem_of_union, elem_of_singleton. intros [->|Hx] Hro; [|by apply Hall].
    apply Hpast. right. exists (selected_parent d0). split; [done|]. apply Hall; [done|].
    destruct Hr as [->|Hr]; [right|by left]. intros Ho. rewrite Ho in Hsp. by apply Hog.
  - intros h d [[-> ->]|(Hne' & Hd & Hh)]%Hcases Hr.
    + exists l. apply sp_chain_insert. apply (gr_chain _ _ _ _ HR).
    + destruct (good_chain _ _ _ HG h d Hh Hr) as [l' Hl']. exists l'. by apply sp_chain_insert.
  - intros h d b [[-> ->]|(Hne' & Hd & Hh)]%Hcases Hb; [|by eapply good_past].
    rewrite (gr_blues _ _ _ _ HR) in Hb. apply elem_of_cons in Hb as [->|Hb].
    { split; [auto|]. intros He. by rewrite He in Hspd. }
    assert (merged (selected_parent d0) parents b) as Hm.
    { apply (gr_merged _ _ _ _ HR). rewrite <- (gr_perm _ _ _ _ HR). apply elem_of_app. by left. }
    destruct (Hm) as [_ (p & Hp & Hbp)]. split; [apply Hpast; right; eauto|].
    intros ->. apply Hnew. by eapply merged_dom.
  - intros h d [[-> ->]|(Hne' & Hd & Hh)]%Hcases Hr; [|by eapply good_sp].
    split; [auto|]. intros He. by rewrite He in Hspd.
  - intros h d l' [[-> ->]|(Hne' & Hd & Hh)]%Hcases Hr Hch.
    + apply sp_chain_insert_inv in Hch; [|done].
      rewrite (sp_chain_fun g S _ _ _ Hch (gr_chain _ _ _ _ HR)).
      apply (coloured_insert _ (selected_parent d0)); apply HR.
    + destruct (good_chain _ _ _ HG h d Hh Hr) as [l'' Hl''].
      apply sp_chain_insert_inv in Hch; [|by eapply sp_chain_dom; [exact Hl''|destruct Hl''; left]].
      eapply coloured_insert; [done|]. by eapply good_coloured.
  - intros a b da db Ha Hb Hao Hab Hne'.
    apply Hcases in Ha as [[-> ->]|(Hane & Had & Ha)]; apply Hcases in Hb as [[-> ->]|(Hbne & Hbd & Hb)].
    + done.
    + by rewrite Hfut in Hab.
    + apply Hpast in Hab as [->|(p & Hp & Hap)]; [done|].
      destruct (decide (selected_parent d0 = ORIGIN)) as [Ho|Ho].
      * exfalso. apply (origin_nothing_merged a); [by rewrite <- Ho|]. split; [|eauto].
        destruct (reach a ORIGIN) eqn:Hr; [|done]. exfalso. apply Hao. apply reach_antisym; [done|].
        rewrite Ho in Hspd. apply elem_of_dom in Hspd as [d Hd].
        apply (good_root _ _ _ HG ORIGIN d (or_intror eq_refl) Hd); [done|by left].
      * destruct (Hw Ho) as (spd & Hspd' & Hlt). pose proof (gr_max _ _ _ _ HR p Hp) as Hmax.
        pose proof (Hpar p Hp) as [dp Hdp]%elem_of_dom.
        apply sortable_le_spec in Hmax. unfold key in Hmax. simpl in Hmax. rewrite Hdp, Hspd' in Hmax.
        destruct (decide (a = p)) as [->|Hap']; [simplify_eq; lia|].
        pose proof (good_work _ _ _ HG a p da dp Ha Hdp Hao Hap Hap'). lia.
    + by eapply good_work.
Qed.
End insertion.
End protocol.

(** ** Correctness of GHOSTDAG *)

(** The inputs the block processor feeds the protocol with: a well-formed store
    whose relations agree with reachability; parents that are stored, distinct
    from each other's past (the header validation rejects related parents);
    and scores and works in range. *)
Record admissible `{!ReachabilityService} (self : GhostdagManager) (parents : list Hash) (W : Z) : Prop := {
  adm_k : 0 <= gd_k self /\ inW 16 (gd_k self + 1);
  adm_good : good (genesis_hash self) (gd_k self) (ghostdag_store self);
  adm_rel : relations_ok (ghostdag_store self) (relations_store self);
  adm_ne : parents <> [];
  adm_par p : p ∈ parents -> p ∈ dom (ghostdag_store self);
  adm_anti p q : p ∈ parents -> q ∈ parents -> p <> q -> is_dag_ancestor_of p q = false;
  adm_work h : h ∈ dom (ghostdag_store self) -> h <> ORIGIN ->
    exists w, block_work (E := Empty_set) self h = Ok w /\ 0 < w <= W;
  adm_room h d : ghostdag_store self !! h = Some d ->
    0 <= blue_score d /\ blue_score d + gd_k self + 1 < 2 ^ 64 /\
    0 <= blue_work d /\ blue_work d + (gd_k self + 1) * W < 2 ^ 192;
}.
(** [h] is a new block on top of [parents]. *)
Record fresh_child `{!ReachabilityService} (self : GhostdagManager) (parents : list Hash) (h : Hash) : Prop := {
  fresh_new : h ∉ dom (ghostdag_store self);
  fresh_root : ~ is_root (genesis_hash self) h;
  fresh_origin : ORIGIN ∈ parents -> genesis_hash self ∉ dom (ghostdag_store self);
  fresh_future x : x ∈ dom (ghostdag_store self) -> is_dag_ancestor_of h x = false;
  fresh_past a : is_dag_ancestor_of a h = true <->
    a = h \/ exists p, p ∈ parents /\ is_dag_ancestor_of a p = true;
}.

Section correctness.
Context `{!ReachabilityService, !ReachabilityLaws, !HashIter Hash KType, !SetIter Hash}.

Lemma ghostdag_total self parents W : admissible self parents W ->
  exists d l cs bl, ghostdag (E := Empty_set) self parents = Ok d /\ ghostdag_result self parents d l cs bl /\
  (selected_parent d <> ORIGIN -> exists spd, ghostdag_store self !! selected_parent d = Some spd /\
     blue_score d = blue_score spd + zlen (mergeset_blues d) /\ blue_work spd < blue_work d).
Proof. intros [[? ?] ? ? ? ? ? ? ?]. by apply (ghostdag_ok self) with (W := W). Qed.
Lemma ghostdag_store_good self parents W h : admissible self parents W -> fresh_child self parents h ->
  exists d, ghostdag (E := Empty_set) self parents = Ok d /\
    good (genesis_hash self) (gd_k self) (<[h := d]> (ghostdag_store self)).
Proof.
  intros Ha [Hf1 Hf2 Hf3 Hf4 Hf5]. destruct (ghostdag_total self parents W Ha) as (d & l & cs & bl & Hd & Hr & Hw).
  exists d. split; [done|]. destruct Ha. eapply (good_insert self); try done.
  intros Ho. destruct (Hw Ho) as (spd & ? & _ & ?). eauto.
Qed.

(** C4. GHOSTDAG keeps every block's blue set a k-cluster: on a well-formed
    store, for parents none of which is in the past of another, the protocol
    terminates without panicking, and storing its result for the new block
    keeps the store well formed.  In a well-formed store every block of a
    block's blue set has at most [k] blue blocks in its anticone, the recorded
    anticone sizes are exact, the blue set has no duplicates, merged blues lie
    in the past, and blue work grows strictly along the DAG. *)
Theorem ghostdag_k_cluster self parents W h
  (Ha : admissible self parents W) (Hf : fresh_child self parents h) :
  exists d, ghostdag (E := Empty_set) self parents = Ok d /\
    good (genesis_hash self) (gd_k self) (<[h := d]> (ghostdag_store self)).
Proof. by eapply ghostdag_store_good. Qed.

(** C5. The mergeset GHOSTDAG computes is exact and its consensus order is
    recovered from the stored data: the selected parent is the parent of
    greatest blue work (ties by hash); blues and reds partition exactly the
    blocks in the past of the parents and not in the past of the selected
    parent; there are at most k + 1 blues; and [consensus_ordered_mergeset]
    replays them, after the selected parent, in an order in which no block
    precedes its past. *)
Theorem ghostdag_mergeset_exact self parents W (Ha : admissible self parents W) :
  exists d cs, ghostdag (E := Empty_set) self parents = Ok d /\
    selected_parent d ∈ parents /\
    (forall p, p ∈ parents -> sortable_le (key self p) (key self (selected_parent d))) /\
    (forall x, x ∈ unordered_mergeset d <-> x = selected_parent d \/ merged (selected_parent d) parents x) /\
    NoDup (unordered_mergeset d) /\ zlen (mergeset_blues d) <= gd_k self + 1 /\
    consensus_ordered_mergeset (E := Empty_set) d (ghostdag_store self) = Ok (selected_parent d :: cs) /\
    selected_parent d :: cs ≡ₚ unordered_mergeset d /\ topological cs.
Proof.
  destruct (ghostdag_total self parents W Ha) as (d & l & cs & bl & Hd & Hr & _).
  exists d, cs. destruct Hr as [Hsp Hmax Hch Hcol Hb Hbl Hrd Hp Hnd Hm Hs Hlen].
  destruct Ha as [[? ?] HG Hrel Hne Hpar Hanti ? ?].
  destruct (ordered_mergeset_ok self (E := Empty_set) HG parents Hrel Hpar Hanti (selected_parent d) Hsp)
    as (cs' & _ & Hnd' & Hm' & Hs' & Htop & Hall).
  assert (cs ≡ₚ cs') as Hpc by (apply NoDup_Permutation; [done..|]; intros x; by rewrite Hm, Hm').
  assert (unordered_mergeset d ≡ₚ selected_parent d :: cs) as Hu.
  { unfold unordered_mergeset. rewrite Hb. simpl. by rewrite Hp. }
  assert (forall c, c ∈ cs -> c ∈ dom (ghostdag_store self) /\ is_dag_ancestor_of c (selected_parent d) = false) as Hall2.
  { intros c Hc. apply Hall. by rewrite <- Hpc. }
  assert (topological cs) as Htop2.
  { apply (StronglySorted_unique_strong sortable_le (map (key self) cs) (map (key self) cs')) in Hs; try done.
    - apply (f_equal (map sb_hash)) in Hs. rewrite !map_map in Hs. simpl in Hs.
      rewrite !map_id in Hs. by rewrite Hs.
    - intros x1 x2 _ _. apply sortable_le_antisymm.
    - by rewrite Hpc. }
  split_and!; try done.
  - intros x. rewrite Hu, elem_of_cons, Hm. done.
  - rewrite Hu. apply NoDup_cons. split; [|done]. intros Hin%Hall2.
    destruct Hin as [_ Hin]. by rewrite reach_refl in Hin.
  - unfold consensus_ordered_mergeset, ascending_mergeset_without_selected_parent.
    rewrite Hb. change (drop 1 (selected_parent d :: bl)) with bl.
    rewrite !(sortables_key self).
    + cbn [mbind res_bind]. rewrite (merge_join_halves (key self)) with (cs := cs) by done.
      cbn [mbind res_bind]. do 2 f_equal. rewrite map_map. apply map_id.
    + intros x Hx. by apply Hall2, (elem_of_sublist _ _ _ Hx).
    + intros x Hx. by apply Hall2, (elem_of_sublist _ _ _ Hx).
Qed.
End correctness.

(** ** A concrete DAG

    Genesis [1], its children [2] and [3], and the block [4] merging them, with
    [k = 18]. *)
Module Diamond.
Export DiamondDag.
#[export] Instance iter : HashIter Hash KType := map_to_list_iter _ _.
#[export] Instance siter : SetIter Hash := elements_iter _.

Definition headers : gmap Hash u32 := {[1 := 0x207fffff; 2 := 0x207fffff; 3 := 0x207fffff; 4 := 0x207fffff]}.
Definition manager (S : GhostdagStore) : GhostdagManager := manager_new 1 18 S relations headers.

Definition store1 : GhostdagStore := {[1 := genesis_ghostdag_data]}.
Definition child : GhostdagData := mkGhostdagData 1 2 1 [1] [] {[1 := 0]}.
Definition store3 : GhostdagStore := <[3 := child]> (<[2 := child]> store1).

Lemma dom1 x : x ∈ dom store1 <-> x = 1.
Proof. unfold store1. rewrite dom_singleton. apply elem_of_singleton. Qed.
Lemma dom2 x : x ∈ dom (<[2 := child]> store1) <-> x = 1 \/ x = 2.
Proof. rewrite dom_insert, elem_of_union, elem_of_singleton, dom1. tauto. Qed.
Lemma dom3 x : x ∈ dom store3 <-> x = 1 \/ x = 2 \/ x = 3.
Proof. unfold store3. rewrite dom_insert, elem_of_union, elem_of_singleton, dom2. tauto. Qed.

Lemma lookup1 h d : store1 !! h = Some d -> h = 1 /\ d = genesis_ghostdag_data.
Proof. unfold store1. intros [<- <-]%lookup_singleton_Some. done. Qed.

Lemma good1 : good 1 18 store1.
Proof.
  constructor.
  - intros r d _ [-> ->]%lookup1. split; [done|]. intros x ->%dom1. done.
  - intros h d [-> ->]%lookup1 Hr. destruct Hr. by left.
  - intros h d b [-> ->]%lookup1 Hb. by apply elem_of_nil in Hb.
  - intros h d [-> ->]%lookup1 Hr. destruct Hr. by left.
  - intros h d l [-> ->]%lookup1 Hr. destruct Hr. by left.
  - intros a b da db [-> ->]%lookup1 [-> ->]%lookup1. done.
Qed.

(** The side conditions common to the three stores. *)
Lemma admissible_intro S parents : good 1 18 S ->
  (forall x, x ∈ dom S -> x = 1 \/ x = 2 \/ x = 3) -> 1 ∈ dom S ->
  (forall h d, S !! h = Some d -> 0 <= blue_score d <= 10 /\ 0 <= blue_work d <= 10) ->
  parents <> [] -> (forall p, p ∈ parents -> p ∈ dom S) ->
  (forall p q, p ∈ parents -> q ∈ parents -> p <> q -> is_dag_ancestor_of p q = false) ->
  admissible (manager S) parents 2.
Proof.
  intros HG Hd H1 Hb Hne Hp Ha. constructor; try done.
  - intros h Hh. assert (forall p, p ∈ [1] -> p ∈ dom S) as Hp1 by (by intros p ->%list_elem_of_singleton).
    apply Hd in Hh as [->|[->| ->]]; eexists; (split; [vm_compute; reflexivity|]); unfold is_dag_ancestor_of, reach.
    + split; [by intros p ?%elem_of_nil|]. intros a. split; [left; lia|].
      intros [->|(p & Hpp & _)]; [done|]. by apply elem_of_nil in Hpp.
    + split; [intros p Hpp; split; [auto|by apply list_elem_of_singleton in Hpp as ->]|].
      intros a. split; [|intros [->|(p & ->%list_elem_of_singleton & ?)]; lia].
      intros Hr. destruct (Z.eq_dec a 2); [by left|]. right. exists 1. split; [left|lia].
    + split; [intros p Hpp; split; [auto|by apply list_elem_of_singleton in Hpp as ->]|].
      intros a. split; [|intros [->|(p & ->%list_elem_of_singleton & ?)]; lia].
      intros Hr. destruct (Z.eq_dec a 3); [by left|]. right. exists 1. split; [left|lia].
  - intros h Hh _. exists 2. split; [|done]. apply Hd in Hh as [->|[->| ->]]; vm_compute; done.
  - intros h d Hh. destruct (Hb h d Hh). cbn [gd_k manager manager_new]. lia.
Qed.
Lemma fresh_intro S h : h ∉ dom S -> h = 2 \/ h = 3 ->
  (forall x, x ∈ dom S -> x = 1 \/ x = 2) -> fresh_child (manager S) [1] h.
Proof.
  intros Hn Hh Hd. constructor; unfold is_dag_ancestor_of, reach.
  - done.
  - intros [? | ?]; destruct Hh as [->| ->]; discriminate.
  - by intros ?%list_elem_of_singleton.
  - intros x Hx. assert (x <> h) by (by intros ->). apply Hd in Hx. lia.
  - intros a. split.
    + intros Hr. destruct (Z.eq_dec a h); [by left|]. right. exists 1. split; [left|lia].
    + intros [->|(p & ->%list_elem_of_singleton & ?)]; lia.
Qed.
Lemma good3 : good 1 18 store3.
Proof.
  assert (good 1 18 (<[2 := child]> store1)) as HG2.
  { destruct (ghostdag_store_good (manager store1) [1] 2 2) as (d & Hd & HG).
    - apply admissible_intro; [apply good1|..].
      + intros x ->%dom1. by left.
      + by apply dom1.
      + by intros h d [-> ->]%lookup1.
      + done.
      + intros p ->%list_elem_of_singleton. by apply dom1.
      + by intros p q ->%list_elem_of_singleton ->%list_elem_of_singleton.
    - apply fresh_intro; [by intros ?%dom1|by left|]. intros x ->%dom1. by left.
    - replace child with d; [done|]. vm_compute in Hd. injection Hd as <-. reflexivity. }
  destruct (ghostdag_store_good (manager (<[2 := child]> store1)) [1] 2 3) as (d & Hd & HG).
  - apply admissible_intro; [apply HG2|..].
    + intros x Hx%dom2. lia.
    + apply dom2. by left.
    + intros h d [[<- <-]|[_ [-> ->]%lookup1]]%lookup_insert_Some; done.
    + done.
    + intros p ->%list_elem_of_singleton. apply dom2. by left.
    + by intros p q ->%list_elem_of_singleton ->%list_elem_of_singleton.
  - apply fresh_intro; [intros ?%dom2; lia|by right|]. intros x Hx%dom2. lia.
  - unfold store3. replace child with d at 1; [done|]. vm_compute in Hd. injection Hd as <-. reflexivity.
Qed.
Lemma admissible4 : admissible (manager store3) [2; 3] 2.
Proof.
  apply admissible_intro; [apply good3|..].
  - intros x Hx%dom3. lia.
  - apply dom3. by left.
  - unfold store3. intros h d [[<- <-]|[_ [[<- <-]|[_ [-> ->]%lookup1]]%lookup_insert_Some]]%lookup_insert_Some; done.
  - done.
  - intros p Hp. apply dom3. rewrite !elem_of_cons in Hp. destruct Hp as [->|[->|Hp%elem_of_nil]]; [lia|lia|done].
  - intros p q Hp Hq Hne. rewrite !elem_of_cons in Hp, Hq. unfold is_dag_ancestor_of, reach.
    destruct Hp as [->|[->|Hp%elem_of_nil]], Hq as [->|[->|Hq%elem_of_nil]]; done.
Qed.
Lemma fresh4 : fresh_child (manager store3) [2; 3] 4.
Proof.
  constructor; unfold is_dag_ancestor_of, reach.
  - intros ?%dom3. lia.
  - intros [? | ?]; discriminate.
  - intros Ho. rewrite !elem_of_cons, elem_of_nil in Ho. destruct Ho as [Ho|[Ho|[]]]; discriminate.
  - intros x Hx%dom3. lia.
  - intros a. split.
    + intros Hr. destruct (Z.eq_dec a 4); [by left|]. right.
      destruct (Z.eq_dec a 3) as [->|]; [exists 3|exists 2]; (split; [set_solver|lia]).
    + intros [->|(p & Hp & ?)]; [done|]. rewrite !elem_of_cons in Hp.
      destruct Hp as [->|[->|Hp%elem_of_nil]]; [lia|lia|done].
Qed.

Lemma ghostdag_k_cluster_witness : exists d,
  ghostdag (E := Empty_set) (manager store3) [2; 3] = Ok d /\ good 1 18 (<[4 := d]> store3).
Proof. apply (ghostdag_k_cluster (manager store3) [2; 3] 2 4 admissible4 fresh4). Defined.
Lemma ghostdag_mergeset_exact_witness : exists d cs,
  ghostdag (E := Empty_set) (manager store3) [2; 3] = Ok d /\
  consensus_ordered_mergeset (E := Empty_set) d store3 = Ok (selected_parent d :: cs) /\
  NoDup (unordered_mergeset d).
Proof.
  destruct (ghostdag_mergeset_exact (manager store3) [2; 3] 2 admissible4)
    as (d & cs & Hd & _ & _ & _ & Hn & _ & Hc & _). exists d, cs.
  split; [exact Hd|]. split; [exact Hc|exact Hn].
Defined.
End Diamond.
