(* ===== verification/Relations.v ===== *)
(** * Block relations

    [consensus/src/processes/relations.rs] over the relations store of
    [consensus/src/model/stores/relations.rs]: the parents of a block and the
    children of a block, their insertion, and the two ways a block is deleted
    by pruning.  The children of a block are a bucket of a set store, empty
    until a child is written; the store answers for the children of a block
    only when the block has an entry for its parents. *)
From S2P Require Import Prelude Dag Chain Ghostdag Parents.

Record Relations := mkRelations { rel_parents : gmap Hash (list Hash); rel_children : gmap Hash (gset Hash) }.
Inductive RelationsError := RelKeyNotFound (hash : Hash) | RelHashAlreadyExists (hash : Hash).
Abbreviation RM := (stm Relations RelationsError).
Definition bucket (r : Relations) (p : Hash) : gset Hash := default ∅ (rel_children r !! p).

Definition rel_has (h : Hash) : RM bool := fun r => (Ok (bool_decide (is_Some (rel_parents r !! h))), r).
Definition get_parents (h : Hash) : RM (list Hash) := fun r => (ok_or (rel_parents r !! h) (RelKeyNotFound h), r).
Definition get_children (h : Hash) : RM (gset Hash) := fun r =>
  ((if decide (is_Some (rel_parents r !! h)) then Ok (bucket r h) else Err (RelKeyNotFound h)), r).
Definition set_parents (h : Hash) (ps : list Hash) : RM unit := fun r =>
  (Ok tt, mkRelations (<[h := ps]> (rel_parents r)) (rel_children r)).
Definition insert_child (p c : Hash) : RM unit := fun r =>
  (Ok tt, mkRelations (rel_parents r) (<[p := {[c]} ∪ bucket r p]> (rel_children r))).
Definition delete_child (p c : Hash) : RM unit := fun r =>
  (Ok tt, mkRelations (rel_parents r) (<[p := bucket r p ∖ {[c]}]> (rel_children r))).
Definition delete_entries (h : Hash) : RM unit := fun r =>
  (Ok tt, mkRelations (delete h (rel_parents r)) (delete h (rel_children r))).
(** [.unwrap()] on the result of a store operation. *)
Definition stm_unwrap {S E A} (m : stm S E A) : stm S E A := fun s =>
  match m s with (Err _, s') => (Panic, s') | x => x end.
Definition stm_res {S E A} (r : res E A) : stm S E A := fun s => (r, s).

(** [RelationsStoreExtensions]; [block_unique] keeps the first occurrences. *)
Definition insert_with_writer (hash : Hash) (parents : list Hash) : RM unit :=
  b ← rel_has hash;
  if b : bool then stm_res (Err (RelHashAlreadyExists hash)) else
  let unique := index_extend [] parents in
  let parents := if decide (length parents = length unique) then parents else unique in
  _ ← set_parents hash parents;
  stm_for (fun parent => insert_child parent hash) parents.
Definition rel_delete (hash : Hash) : RM unit :=
  parents ← get_parents hash;
  _ ← delete_entries hash;
  stm_for (fun parent => delete_child parent hash) parents.
Definition replace_parent (hash replaced_parent : Hash) (replace_with : list Hash) : RM unit :=
  parents ← get_parents hash;
  replaced_index ← stm_res (unwrap (position (fun h => bool_decide (h = replaced_parent)) parents));
  _ ← set_parents hash (swap_remove parents replaced_index ++ replace_with);
  stm_for (fun parent => insert_child parent hash) replace_with.

Definition rel_init : RM unit :=
  b ← rel_has ORIGIN;
  if b : bool then mret tt else stm_unwrap (insert_with_writer ORIGIN []).

Section deletion.
Context `{!SetIter Hash}.
(** The loop of both deletions: the deleted block is replaced as a parent of
    each of its children by a list that depends on the child's parents. *)
Definition replace_in_children (hash : Hash) (replace_with : list Hash -> list Hash) (children : gset Hash) : RM unit :=
  stm_for (fun child =>
    child_parents ← stm_unwrap (get_parents child);
    stm_unwrap (replace_parent child hash (replace_with child_parents))) (set_iter children).
Definition delete_level_relations (hash : Hash) : RM unit :=
  children ← get_children hash;
  _ ← replace_in_children hash (fun ps => if decide (ps = [hash]) then [ORIGIN] else []) children;
  stm_unwrap (rel_delete hash).

Context `{!ReachabilityService}.
Definition needed_grandparents (hash : Hash) (parents child_parents : list Hash) : list Hash :=
  filter (fun g => existsb (is_dag_ancestor_of g) (filter (fun p => p <> hash) child_parents) = false) parents.
(** [get_chain_parent] is given by the index; the mergeset search only reads
    the relations of its manager. *)
Definition delete_reachability_relations (chain_parent : Hash -> Hash) (hash : Hash) : RM (gset Hash) :=
  parents ← stm_unwrap (get_parents hash);
  children ← stm_unwrap (get_children hash);
  mergeset ← (fun r => (unordered_mergeset_without_selected_parent (manager_new ORIGIN 0 ∅ (rel_parents r) ∅) (chain_parent hash) parents, r));
  _ ← replace_in_children hash (needed_grandparents hash parents) children;
  _ ← stm_unwrap (rel_delete hash);
  mret mergeset.
End deletion.

(** ** The effect of the store operations *)
Lemma insert_children_ok h l : forall r, exists r', stm_for (fun p => insert_child p h) l r = (Ok tt, r') /\ rel_parents r' = rel_parents r /\
  forall p c, c ∈ bucket r' p <-> c ∈ bucket r p \/ c = h /\ p ∈ l.
Proof.
  induction l as [|q l IH]; intros r.
  - exists r. split_and!; [done..|]. intros p c. rewrite elem_of_nil. naive_solver.
  - destruct (IH (insert_child q h r).2) as (r' & E & Hp & Hb). exists r'. split; [exact E|]. split; [exact Hp|].
    intros p c. rewrite Hb, elem_of_cons. unfold bucket at 1. simpl. destruct (decide (p = q)) as [->|Hne].
    + rewrite lookup_insert_eq. simpl. rewrite elem_of_union, elem_of_singleton. naive_solver.
    + rewrite lookup_insert_ne by congruence. fold (bucket r p). naive_solver.
Qed.
Lemma delete_children_ok h l : forall r, exists r', stm_for (fun p => delete_child p h) l r = (Ok tt, r') /\ rel_parents r' = rel_parents r /\
  forall p c, c ∈ bucket r' p <-> c ∈ bucket r p /\ ~ (c = h /\ p ∈ l).
Proof.
  induction l as [|q l IH]; intros r.
  - exists r. split_and!; [done..|]. intros p c. rewrite elem_of_nil. naive_solver.
  - destruct (IH (delete_child q h r).2) as (r' & E & Hp & Hb). exists r'. split; [exact E|]. split; [exact Hp|].
    intros p c. rewrite Hb, elem_of_cons. unfold bucket at 1. simpl. destruct (decide (p = q)) as [->|Hne].
    + rewrite lookup_insert_eq. simpl. rewrite elem_of_difference, elem_of_singleton. naive_solver.
    + rewrite lookup_insert_ne by congruence. fold (bucket r p). naive_solver.
Qed.
Lemma rel_delete_ok r h ps : rel_parents r !! h = Some ps -> exists r', rel_delete h r = (Ok tt, r') /\ rel_parents r' = delete h (rel_parents r) /\
  forall p c, c ∈ bucket r' p <-> p <> h /\ c ∈ bucket r p /\ ~ (c = h /\ p ∈ ps).
Proof.
  intros Hps. destruct (delete_children_ok h ps (delete_entries h r).2) as (r' & E & Hp & Hb). exists r'. split; [|split; [exact Hp|]].
  - unfold rel_delete, mbind, stm_bind, get_parents at 1. rewrite Hps. exact E.
  - intros p c. rewrite Hb. unfold bucket at 1. simpl. destruct (decide (p = h)) as [->|Hne].
    + rewrite lookup_delete_eq. simpl. rewrite elem_of_empty. naive_solver.
    + rewrite lookup_delete_ne by congruence. fold (bucket r p). naive_solver.
Qed.
Lemma position_eq (h : Hash) l : h ∈ l -> exists i, position (fun x => bool_decide (x = h)) l = Some i /\ l !! i = Some h.
Proof.
  induction l as [|x l IH]; [by intros ?%elem_of_nil|]. intros H. cbn [position]. case_bool_decide as Hx; [exists 0%nat; by rewrite Hx|].
  apply elem_of_cons in H as [H|H]; [congruence|]. destruct (IH H) as (i & -> & Hi). by exists (S i).
Qed.
Lemma filter_ne_perm (h : Hash) l l' : h :: l' ≡ₚ l -> NoDup l -> l' ≡ₚ filter (fun p => p <> h) l.
Proof.
  intros Hp Hn. rewrite <- Hp in Hn |- *. apply NoDup_cons in Hn as [Hni Hn]. rewrite filter_cons_False by tauto.
  clear Hp Hn. induction l' as [|x l' IH]; [done|]. rewrite filter_cons_True by (intros ->; apply Hni; left). constructor. apply IH. intros H. apply Hni. by right.
Qed.
Lemma replace_parent_ok r c h l ps : rel_parents r !! c = Some ps -> h ∈ ps -> NoDup ps -> exists r' ps', replace_parent c h l r = (Ok tt, r') /\
  rel_parents r' = <[c := ps']> (rel_parents r) /\ ps' ≡ₚ filter (fun p => p <> h) ps ++ l /\
  forall p x, x ∈ bucket r' p <-> x ∈ bucket r p \/ x = c /\ p ∈ l.
Proof.
  intros Hps Hh Hn. destruct (position_eq h ps Hh) as (i & Hi & Hl).
  destruct (insert_children_ok c l (set_parents c (swap_remove ps i ++ l) r).2) as (r' & E & Hp & Hb).
  exists r', (swap_remove ps i ++ l). split_and!; [|exact Hp| |exact Hb].
  - unfold replace_parent, mbind, stm_bind, get_parents at 1. rewrite Hps. cbn [ok_or]. unfold stm_res. rewrite Hi. exact E.
  - apply Permutation_app_tail, filter_ne_perm; [by apply swap_remove_perm|done].
Qed.

(** ** Well-formed relations

    Parents are known and distinct, a block is not its own parent, and the
    buckets of children hold exactly the blocks that name it as a parent. *)
Record relations_wf (r : Relations) : Prop := {
  wf_parents h ps p : rel_parents r !! h = Some ps -> p ∈ ps -> is_Some (rel_parents r !! p) /\ p <> h;
  wf_nodup h ps : rel_parents r !! h = Some ps -> NoDup ps;
  wf_children p c : c ∈ bucket r p <-> exists ps, rel_parents r !! c = Some ps /\ p ∈ ps;
}.
Lemma index_extend_spec l : NoDup (index_extend [] l) /\ forall x, x ∈ index_extend [] l <-> x ∈ l.
Proof.
  destruct (index_extend_ok l [] ltac:(constructor)) as (t & -> & Hn & Hx). split; [exact Hn|]. intros x. rewrite Hx, elem_of_nil. naive_solver.
Qed.
Lemma unique_length l : length l = length (index_extend [] l) -> NoDup l.
Proof.
  intros Hl. destruct (index_extend_spec l) as [Hn Hx]. enough (index_extend [] l ≡ₚ l) as E by (by rewrite <- E).
  apply submseteq_length_Permutation; [apply NoDup_submseteq; [done|]; intros x; apply Hx|lia].
Qed.

Lemma relations_insert_ok r h l : relations_wf r -> rel_parents r !! h = None -> (forall p, p ∈ l -> is_Some (rel_parents r !! p)) ->
  exists r' ps, insert_with_writer h l r = (Ok tt, r') /\ rel_parents r' = <[h := ps]> (rel_parents r) /\ (forall x, x ∈ ps <-> x ∈ l) /\
    (NoDup l -> ps = l) /\ relations_wf r'.
Proof.
  intros [W1 W2 W3] Hnew Hl. destruct (index_extend_spec l) as [Hn Hx].
  set (ps := if decide (length l = length (index_extend [] l)) then l else index_extend [] l).
  assert (NoDup ps) as Hps by (unfold ps; case_decide; [by apply unique_length|done]).
  assert (forall x, x ∈ ps <-> x ∈ l) as Hin by (intros x; unfold ps; case_decide; [done|apply Hx]).
  destruct (insert_children_ok h ps (set_parents h ps r).2) as (r' & E & Hp & Hb). exists r', ps.
  assert (forall p, p ∈ ps -> p <> h) as Hne by (intros p Hp' ->; apply Hin, Hl in Hp' as [? ?]; congruence).
  split_and!; [|exact Hp|exact Hin| |].
  - unfold insert_with_writer, mbind, stm_bind, rel_has. rewrite Hnew. exact E.
  - intros Hnl. unfold ps. case_decide as Hd; [done|]. exfalso. apply Hd.
    apply Permutation_length. by apply NoDup_Permutation.
  - split.
    + intros x qs q. rewrite Hp. simpl. destruct (decide (x = h)) as [->|Hxh].
      * rewrite lookup_insert_eq. intros [= <-] Hq. split; [|by apply Hne]. rewrite lookup_insert_ne by (intros ->; by apply (Hne q)). by apply Hl, Hin.
      * rewrite lookup_insert_ne by congruence. intros Hqs Hq. destruct (W1 x qs q Hqs Hq) as [Hk ?]. split; [|done].
        destruct (decide (q = h)) as [->|?]; [rewrite lookup_insert_eq; by eexists|by rewrite lookup_insert_ne].
    + intros x qs. rewrite Hp. simpl. intros [[<- <-]|[? Hqs]]%lookup_insert_Some; [done|by eapply W2].
    + intros p c. rewrite Hb. change (bucket (set_parents h ps r).2 p) with (bucket r p). rewrite W3, Hp. simpl. destruct (decide (c = h)) as [->|Hc].
      * rewrite lookup_insert_eq, Hnew. naive_solver.
      * rewrite lookup_insert_ne by congruence. naive_solver.
Qed.

Section delete.
Context (r0 : Relations) (hash : Hash) (rep : list Hash -> list Hash).
Context (Wf : relations_wf r0) (ps0 : list Hash) (Hps0 : rel_parents r0 !! hash = Some ps0).
(** What replaces the deleted block among the parents of one of its children. *)
Definition replacement : Prop := forall c ps, rel_parents r0 !! c = Some ps -> hash ∈ ps ->
  NoDup (rep ps) /\ forall p, p ∈ rep ps -> is_Some (rel_parents r0 !! p) /\ p <> hash /\ p <> c /\ p ∉ ps.
Context (Hrep : replacement).

Record partial (done : list Hash) (r : Relations) : Prop := {
  pa_other c : c ∉ done -> rel_parents r !! c = rel_parents r0 !! c;
  pa_done c : c ∈ done -> exists ps ps', rel_parents r0 !! c = Some ps /\ hash ∈ ps /\ rel_parents r !! c = Some ps' /\
    ps' ≡ₚ filter (fun p => p <> hash) ps ++ rep ps;
  pa_children p c : c ∈ bucket r p <-> c ∈ bucket r0 p \/ c ∈ done /\ exists ps, rel_parents r0 !! c = Some ps /\ p ∈ rep ps;
}.
Lemma partial_step done r c ps : partial done r -> c ∉ done -> rel_parents r0 !! c = Some ps -> hash ∈ ps ->
  exists r', (child_parents ← stm_unwrap (get_parents c); stm_unwrap (replace_parent c hash (rep child_parents))) r = (Ok tt, r') /\ partial (done ++ [c]) r'.
Proof using Wf.
  intros [P1 P2 P3] Hc Hps Hh. pose proof (P1 c Hc) as Hr. rewrite Hps in Hr.
  destruct (replace_parent_ok r c hash (rep ps) ps Hr Hh (wf_nodup _ Wf _ _ Hps)) as (r' & ps' & E & Hp & Hps' & Hb). exists r'. split.
  { unfold mbind, stm_bind, stm_unwrap at 1, get_parents. rewrite Hr. cbn [ok_or]. unfold stm_unwrap. by rewrite E. }
  split.
  - intros x. rewrite elem_of_app, list_elem_of_singleton. intros Hx. rewrite Hp, lookup_insert_ne by naive_solver. apply P1. tauto.
  - intros x. rewrite elem_of_app, list_elem_of_singleton. intros [Hx| ->].
    + rewrite Hp, lookup_insert_ne by naive_solver. by apply P2.
    + exists ps, ps'. rewrite Hp, lookup_insert_eq. done.
  - intros p x. rewrite Hb, P3, elem_of_app, list_elem_of_singleton. naive_solver.
Qed.
Lemma partial_loop l : forall done r, partial done r -> NoDup (done ++ l) -> (forall c, c ∈ l -> exists ps, rel_parents r0 !! c = Some ps /\ hash ∈ ps) ->
  exists r', stm_for (fun child => child_parents ← stm_unwrap (get_parents child); stm_unwrap (replace_parent child hash (rep child_parents))) l r = (Ok tt, r') /\
    partial (done ++ l) r'.
Proof using Wf.
  induction l as [|c l IH]; intros done r Hp Hn Hl; [exists r; by rewrite app_nil_r|].
  destruct (Hl c ltac:(left)) as (ps & Hps & Hh).
  assert (c ∉ done) as Hc by (intros ?; apply NoDup_app in Hn as (_ & Hn & _); apply (Hn c); [done|left]).
  destruct (partial_step done r c ps Hp Hc Hps Hh) as (r1 & E1 & Hp1).
  rewrite (app_assoc done [c] l : done ++ c :: l = (done ++ [c]) ++ l) in Hn |- *.
  destruct (IH (done ++ [c]) r1 Hp1 Hn ltac:(intros x Hx; apply Hl; by right)) as (r2 & E2 & Hp2). exists r2. split; [|done].
  cbn [stm_for]. unfold mbind at 1, stm_bind at 1. rewrite E1. exact E2.
Qed.

Record deleted (r : Relations) : Prop := {
  de_gone : rel_parents r !! hash = None;
  de_kept c ps : c <> hash -> rel_parents r0 !! c = Some ps -> exists ps', rel_parents r !! c = Some ps' /\
    ps' ≡ₚ if decide (hash ∈ ps) then filter (fun p => p <> hash) ps ++ rep ps else ps;
  de_old c : is_Some (rel_parents r !! c) -> c <> hash /\ is_Some (rel_parents r0 !! c);
  de_children p c : c ∈ bucket r p <-> exists ps, rel_parents r !! c = Some ps /\ p ∈ ps;
}.
Context `{!SetIter Hash}.
Lemma children_spec l : l ≡ₚ elements (bucket r0 hash) -> NoDup l /\ forall c, c ∈ l <-> exists ps, rel_parents r0 !! c = Some ps /\ hash ∈ ps.
Proof using Wf.
  intros Hl. split; [rewrite Hl; apply NoDup_elements|]. intros c. by rewrite Hl, elem_of_elements, (wf_children _ Wf).
Qed.
Lemma partial_start : partial [] r0.
Proof. split; [done|by intros c ?%elem_of_nil|]. intros p c. rewrite elem_of_nil. tauto. Qed.
Lemma hash_not_child done r : partial done r -> (forall c, c ∈ done -> exists ps, rel_parents r0 !! c = Some ps /\ hash ∈ ps) -> hash ∉ done.
Proof using Wf. intros _ Hd Hh. destruct (Hd _ Hh) as (ps & Hps & Hin). by apply (wf_parents _ Wf _ _ _ Hps Hin). Qed.
Lemma deletion_ok : exists r, (_ ← replace_in_children hash rep (bucket r0 hash); stm_unwrap (rel_delete hash)) r0 = (Ok tt, r) /\ deleted r.
Proof using Wf Hps0 Hrep.
  destruct (children_spec (set_iter (bucket r0 hash)) (set_iter_perm _)) as [Hn Hk]. set (kids := set_iter (bucket r0 hash)) in *.
  destruct (partial_loop kids [] r0 partial_start Hn ltac:(intros c; apply Hk)) as (r1 & E1 & HP). simpl in HP.
  assert (hash ∉ kids) as Hhk by (eapply hash_not_child; [exact HP|intros c; apply Hk]). destruct HP as [P1 P2 P3].
  destruct (rel_delete_ok r1 hash ps0) as (r & E2 & Hp & Hb); [by rewrite P1|]. exists r.
  split. { unfold mbind, stm_bind, replace_in_children. fold kids. rewrite E1. unfold stm_unwrap. by rewrite E2. }
  assert (forall c ps, c <> hash -> rel_parents r0 !! c = Some ps -> exists ps', rel_parents r !! c = Some ps' /\
    ps' ≡ₚ if decide (hash ∈ ps) then filter (fun p => p <> hash) ps ++ rep ps else ps) as Hkept.
  { intros c ps Hc Hps. rewrite Hp, lookup_delete_ne by congruence. case_decide as Hh.
    - destruct (P2 c ltac:(apply Hk; eauto)) as (qs & qs' & Hqs & _ & Hqs' & Hperm). rewrite Hps in Hqs. injection Hqs as <-. eauto.
    - exists ps. split; [|done]. rewrite P1; [done|]. intros (qs & Hqs & ?)%Hk. congruence. }
  assert (forall c, is_Some (rel_parents r !! c) -> c <> hash /\ is_Some (rel_parents r0 !! c)) as Hold.
  { intros c. rewrite Hp. destruct (decide (c = hash)) as [->|Hc]; [rewrite lookup_delete_eq; by intros [? ?]|]. rewrite lookup_delete_ne by congruence.
    intros Hs. split; [done|]. destruct (decide (c ∈ kids)) as [Hin|Hin]; [apply Hk in Hin as (ps & -> & _); by eexists|by rewrite <- P1]. }
  split; [by rewrite Hp, lookup_delete_eq|exact Hkept|exact Hold|].
  intros p c. rewrite Hb, P3, (wf_children _ Wf). destruct (rel_parents r0 !! c) as [ps|] eqn:Hc0.
  - destruct (decide (c = hash)) as [->|Hch].
    + rewrite Hps0 in Hc0. injection Hc0 as <-. rewrite Hp, lookup_delete_eq. naive_solver.
    + destruct (Hkept c ps Hch Hc0) as (ps' & -> & Hperm). setoid_rewrite Hk. rewrite Hc0.
      transitivity (p ∈ ps'); [|naive_solver]. rewrite Hperm. case_decide as Hh.
      * rewrite elem_of_app, list_elem_of_filter. destruct (Hrep c ps Hc0 Hh) as [_ Hr]. specialize (Hr p). naive_solver.
      * naive_solver.
  - split; [|intros (ps & Hps & _); destruct (Hold c ltac:(by eexists)) as [_ [? ?]]; congruence].
    intros (_ & [(? & ? & _)|(_ & ? & ? & _)] & _); congruence.
Qed.
Lemma deleted_wf r : deleted r -> relations_wf r.
Proof using Wf Hps0 Hrep.
  intros [D1 D2 D3 D4]. 
  assert (forall c qs, rel_parents r !! c = Some qs -> exists ps, rel_parents r0 !! c = Some ps /\ c <> hash /\
    qs ≡ₚ if decide (hash ∈ ps) then filter (fun p => p <> hash) ps ++ rep ps else ps) as Hinv.
  { intros c qs Hqs. destruct (D3 c ltac:(by eexists)) as [Hc [ps Hps]]. destruct (D2 c ps Hc Hps) as (ps' & Hps' & Hperm).
    rewrite Hqs in Hps'. injection Hps' as <-. eauto. }
  split; [| |exact D4].
  - intros c qs p Hqs Hin. destruct (Hinv c qs Hqs) as (ps & Hps & Hc & Hperm).
    enough (p <> hash /\ p <> c /\ is_Some (rel_parents r0 !! p)) as (Hp & Hpc & [pp Hpp]).
    { split; [|done]. destruct (D2 p pp Hp Hpp) as (? & -> & _). by eexists. }
    rewrite Hperm in Hin. case_decide as Hh.
    + apply elem_of_app in Hin as [[Hp Hin]%list_elem_of_filter|Hin].
      * destruct (wf_parents _ Wf _ _ _ Hps Hin). done.
      * destruct (Hrep c ps Hps Hh) as [_ Hr]. destruct (Hr p Hin) as (? & ? & ? & _). done.
    + destruct (wf_parents _ Wf _ _ _ Hps Hin). split_and!; [by intros ->|done..].
  - intros c qs Hqs. destruct (Hinv c qs Hqs) as (ps & Hps & Hc & ->). pose proof (wf_nodup _ Wf _ _ Hps) as Hn. case_decide as Hh; [|done].
    destruct (Hrep c ps Hps Hh) as [Hnr Hr]. apply NoDup_app. split_and!; [by apply NoDup_filter| |done].
    intros p [_ Hin]%list_elem_of_filter Hp. by apply (Hr p Hp).
Qed.
End delete.

(** ** Deletion and reachability

    Relations that represent a DAG: the service decides the past relation they
    generate, and the parents of a block form an antichain. *)
Section reachability.
Record reach_relations (reach : ReachabilityService) (r : Relations) : Prop := {
  rr_wf : relations_wf r;
  rr_decides c ps a : rel_parents r !! c = Some ps -> reach a c = true <-> a = c \/ exists p, p ∈ ps /\ reach a p = true;
  rr_anti c ps p q : rel_parents r !! c = Some ps -> p ∈ ps -> q ∈ ps -> reach p q = true -> p = q;
}.
(** The service once it no longer knows [hash]. *)
Definition without (hash : Hash) (reach : ReachabilityService) : ReachabilityService := fun a b =>
  if decide (a = hash \/ b = hash) then bool_decide (a = b) else reach a b.

Context {RS : ReachabilityService} {RL : ReachabilityLaws} `{!SetIter Hash}.
Context (r0 : Relations) (RR : reach_relations is_dag_ancestor_of r0) (hash : Hash) (ps0 : list Hash) (Hps0 : rel_parents r0 !! hash = Some ps0).
Abbreviation reach := is_dag_ancestor_of.
Abbreviation rep := (needed_grandparents hash ps0).

Lemma without_other a b : a <> hash -> b <> hash -> without hash RS a b = reach a b.
Proof. intros ? ?. unfold without. rewrite decide_False by tauto. done. Qed.
Lemma without_hash a b : b <> hash -> without hash RS a b = true <-> a <> hash /\ reach a b = true.
Proof. intros Hb. unfold without. case_decide as H; [rewrite bool_decide_eq_true|]; naive_solver. Qed.
Lemma parent_reach c ps p : rel_parents r0 !! c = Some ps -> p ∈ ps -> reach p c = true.
Proof using RL RR. intros Hps Hp. apply (rr_decides _ _ RR c ps p Hps). right. exists p. split; [done|apply reach_refl]. Qed.
Lemma elem_of_needed ps g : g ∈ rep ps <-> g ∈ ps0 /\ forall q, q ∈ ps -> q <> hash -> reach g q = false.
Proof.
  unfold needed_grandparents. rewrite list_elem_of_filter. split.
  - intros [He Hg]. split; [done|]. intros q Hq Hne. apply not_true_is_false. intros Hr. apply not_true_iff_false in He. apply He.
    apply existsb_exists. exists q. split; [|done]. apply list_elem_of_In, list_elem_of_filter. done.
  - intros [Hg Hq]. split; [|done]. apply not_true_is_false. intros (q & Hin & Hr)%existsb_exists.
    apply list_elem_of_In, list_elem_of_filter in Hin as [Hne Hin]. by rewrite (Hq q Hin Hne) in Hr.
Qed.
Lemma needed_replacement : replacement r0 hash rep.
Proof using RL RR Hps0.
  pose proof (rr_wf _ _ RR) as W. intros c ps Hps Hh. split; [apply NoDup_filter; by eapply (wf_nodup _ W)|]. intros p [Hp Hq]%elem_of_needed.
  destruct (wf_parents _ W _ _ _ Hps0 Hp) as [Hk Hne]. split_and!; [done|done| |].
  - intros ->. apply (wf_parents _ W _ _ _ Hps Hh). apply reach_antisym; [by eapply parent_reach|by eapply parent_reach].
  - intros Hin. specialize (Hq p Hin Hne). by rewrite reach_refl in Hq.
Qed.
Lemma deleted_reach r : deleted r0 hash rep r -> reach_relations (without hash RS) r.
Proof using RL RR Hps0.
  intros HD. pose proof (deleted_wf r0 hash rep (rr_wf _ _ RR) ps0 Hps0 needed_replacement r HD) as Hwf. destruct HD as [D1 D2 D3 D4].
  assert (forall c qs, rel_parents r !! c = Some qs -> exists ps, rel_parents r0 !! c = Some ps /\ c <> hash /\
    forall p, p ∈ qs <-> p ∈ ps /\ p <> hash \/ hash ∈ ps /\ p ∈ rep ps) as Hinv.
  { intros c qs Hqs. destruct (D3 c ltac:(by eexists)) as [Hc [ps Hps]]. destruct (D2 c ps Hc Hps) as (ps' & Hps' & Hperm).
    rewrite Hqs in Hps'. injection Hps' as <-. exists ps. split_and!; [done..|]. intros p. rewrite Hperm. case_decide as Hh.
    - rewrite elem_of_app, list_elem_of_filter. naive_solver.
    - naive_solver. }
  assert (forall c qs p, rel_parents r !! c = Some qs -> p ∈ qs -> p <> hash) as Hnh.
  { intros c qs p Hqs Hp ->. destruct (wf_parents _ Hwf _ _ _ Hqs Hp) as [[? ?] _]. congruence. }
  split; [exact Hwf| |].
  - intros c qs a Hqs. destruct (Hinv c qs Hqs) as (ps & Hps & Hc & Hel). rewrite without_hash by done. split.
    + intros [Ha Hr]. apply (rr_decides _ _ RR c ps a Hps) in Hr as [->|(p & Hp & Hr)]; [by left|]. right.
      enough (exists q, q ∈ qs /\ reach a q = true) as (q & Hq & Haq) by (exists q; rewrite without_hash by eauto; done).
      destruct (decide (p = hash)) as [->|Hne]; [|exists p; rewrite Hel; auto].
      apply (rr_decides _ _ RR hash ps0 a Hps0) in Hr as [?|(g & Hg & Hr)]; [done|].
      destruct (decide (g ∈ rep ps)) as [Hn|Hn]; [exists g; rewrite Hel; auto|]. rewrite elem_of_needed in Hn.
      destruct (decide (Forall (fun q => q <> hash -> reach g q = false) ps)) as [Hf|Hf].
      { exfalso. apply Hn. split; [done|]. intros q Hq. by apply (proj1 (Forall_forall _ _) Hf q). }
      apply not_Forall_Exists in Hf; [|apply _]. apply Exists_exists in Hf as (q & Hq & Hgq).
      destruct (decide (q = hash)) as [->|Hqh]; [exfalso; by apply Hgq|]. destruct (reach g q) eqn:Egq; [|exfalso; by apply Hgq].
      exists q. rewrite Hel. split; [auto|]. by eapply reach_trans.
    + intros [->|(p & Hp & Hr)]; [split; [done|apply reach_refl]|]. apply without_hash in Hr as [Ha Hr]; [|by eauto]. split; [done|].
      apply Hel in Hp as [[Hp _]|[Hh [Hp _]%elem_of_needed]].
      * eapply reach_trans; [exact Hr|by eapply parent_reach].
      * eapply reach_trans; [exact Hr|]. apply (reach_trans _ hash); [by apply (parent_reach hash ps0)|by apply (parent_reach c ps)].
  - intros c qs p q Hqs Hp Hq. pose proof (Hnh c qs p Hqs Hp) as Hph. pose proof (Hnh c qs q Hqs Hq) as Hqh. rewrite without_other by done.
    destruct (Hinv c qs Hqs) as (ps & Hps & Hc & Hel). apply Hel in Hp, Hq.
    destruct Hp as [[Hp _]|[_ Hp]], Hq as [[Hq _]|[Hh Hq]].
    + by apply (rr_anti _ _ RR c ps p q Hps).
    + apply elem_of_needed in Hq as [Hq _]. intros Hr. exfalso. apply Hph. apply (rr_anti _ _ RR c ps p hash Hps Hp Hh). eapply reach_trans; [exact Hr|by eapply parent_reach].
    + apply elem_of_needed in Hp as [_ Hp]. by rewrite Hp.
    + apply elem_of_needed in Hp as [Hp _], Hq as [Hq _]. by apply (rr_anti _ _ RR hash ps0 p q Hps0).
Qed.

(** The tree parent of the deleted block is in its past; the parents of the
    block are then not below it. *)
Lemma parents_above sp : reach sp hash = true -> sp <> hash -> forall p, p ∈ ps0 -> p <> sp -> reach p sp = false.
Proof using RL RR Hps0.
  intros Hsp Hne p Hp Hps. apply not_true_is_false. intros Hr. apply (rr_decides _ _ RR hash ps0 sp Hps0) in Hsp as [?|(q & Hq & Hsq)]; [done|].
  assert (p = q) as -> by (apply (rr_anti _ _ RR hash ps0 p q Hps0 Hp Hq); by eapply reach_trans). apply Hps. by apply reach_antisym.
Qed.
Lemma relations_mergeset_ok sp : is_Some (rel_parents r0 !! sp) -> reach sp hash = true -> sp <> hash ->
  exists M, unordered_mergeset_without_selected_parent (E := RelationsError) (manager_new ORIGIN 0 ∅ (rel_parents r0) ∅) sp ps0 = Ok M /\ forall x, x ∈ M <-> merged sp ps0 x.
Proof using RL RR Hps0.
  intros Hk Hsp Hne. set (self := manager_new ORIGIN 0 ((fun _ => genesis_ghostdag_data) <$> rel_parents r0) (rel_parents r0) ∅).
  assert (forall h, h ∈ dom (ghostdag_store self) <-> is_Some (rel_parents r0 !! h)) as Hdom by (intros h; simpl; by rewrite dom_fmap, elem_of_dom).
  apply (unordered_mergeset_ok self sp ps0).
  - intros h Hh. apply Hdom in Hh as [ps Hps]. exists ps. split; [done|]. split.
    + intros p Hp. rewrite Hdom. by apply (wf_parents _ (rr_wf _ _ RR) h ps).
    + intros a. by apply (rr_decides _ _ RR).
  - intros p Hp. apply Hdom. by apply (wf_parents _ (rr_wf _ _ RR) hash ps0).
  - by apply Hdom.
  - by apply parents_above.
Qed.

(** C24. Deleting a block from the reachability relations keeps the topology of
    the others: the block and its links are gone, every other block keeps its
    entry, children and parents stay each other's converse, and the past of
    every remaining block, among the remaining blocks, is what it was, its
    parents still an antichain.  The call returns the mergeset of the deleted
    block and never panics. *)
Theorem deletion_keeps_topology chain_parent (Hk : is_Some (rel_parents r0 !! chain_parent hash))
  (Hc : reach (chain_parent hash) hash = true) (Hne : chain_parent hash <> hash) :
  exists M r, delete_reachability_relations chain_parent hash r0 = (Ok M, r) /\ (forall x, x ∈ M <-> merged (chain_parent hash) ps0 x) /\
    dom (rel_parents r) = dom (rel_parents r0) ∖ {[hash]} /\ reach_relations (without hash RS) r.
Proof using RL RR Hps0.
  destruct (relations_mergeset_ok _ Hk Hc Hne) as (M & EM & HM).
  destruct (deletion_ok r0 hash rep (rr_wf _ _ RR) ps0 Hps0 needed_replacement) as (r & E & HD). exists M, r. split_and!; [|done| |by apply deleted_reach].
  - unfold delete_reachability_relations, mbind, stm_bind, stm_unwrap at 1, get_parents. rewrite Hps0. cbn [ok_or]. unfold stm_unwrap at 1, get_children.
    rewrite Hps0, decide_True by (by eexists). rewrite EM. unfold mbind, stm_bind in E.
    destruct (replace_in_children hash rep (bucket r0 hash) r0) as [[[]| | |] r1] eqn:E1; try done. by rewrite E.
  - apply set_eq. intros c. rewrite elem_of_difference, elem_of_singleton, !elem_of_dom. split.
    + intros Hs. destruct (de_old _ _ _ _ HD c Hs). done.
    + intros [[ps Hps] Hc']. destruct (de_kept _ _ _ _ HD c ps Hc' Hps) as (ps' & -> & _). by eexists.
Qed.
End reachability.

(** Deletion from the relations of one level: a child left without parents is
    connected to the origin. *)
Lemma level_deletion_ok `{!SetIter Hash} r0 hash ps0 : relations_wf r0 -> rel_parents r0 !! hash = Some ps0 -> hash <> ORIGIN ->
  rel_parents r0 !! ORIGIN = Some [] ->
  exists r, delete_level_relations hash r0 = (Ok tt, r) /\ relations_wf r /\
    (forall c ps, c <> hash -> rel_parents r0 !! c = Some ps -> exists ps', rel_parents r !! c = Some ps' /\
      ps' ≡ₚ if decide (ps = [hash]) then [ORIGIN] else filter (fun p => p <> hash) ps).
Proof.
  intros W Hps0 Hho Ho. set (rep := fun ps : list Hash => if decide (ps = [hash]) then [ORIGIN] else []).
  assert (replacement r0 hash rep) as Hrep.
  { intros c ps Hps Hh. unfold rep. case_decide as Hd; [|split; [constructor|by intros p ?%elem_of_nil]]. subst ps.
    split; [apply NoDup_singleton|]. intros p ->%list_elem_of_singleton. rewrite Ho, list_elem_of_singleton. split_and!; [by eexists|done| |done].
    intros <-. congruence. }
  destruct (deletion_ok r0 hash rep W ps0 Hps0 Hrep) as (r & E & HD). exists r. split_and!.
  - unfold delete_level_relations, mbind, stm_bind, get_children. rewrite decide_True by (rewrite Hps0; by eexists).
    exact E.
  - by apply (deleted_wf r0 hash rep W ps0 Hps0 Hrep).
  - intros c ps Hc Hps. destruct (de_kept _ _ _ _ HD c ps Hc Hps) as (ps' & Hps' & Hperm). exists ps'. split; [done|]. rewrite Hperm.
    unfold rep. pose proof (wf_nodup _ W _ _ Hps) as Hn. case_decide as Hh; case_decide as Hd; subst; [| |set_solver|].
    + rewrite filter_cons_False by tauto. done.
    + by rewrite app_nil_r.
    + assert (ps ≡ₚ filter (fun p => p <> hash) (hash :: ps)) as Hf by (apply filter_ne_perm; [done|by constructor]).
      by rewrite filter_cons_False in Hf by tauto.
Qed.

(** A diamond: blocks 2 and 3 on block 1, block 4 on both, block 5 on 4 alone. *)
Module Diamond.
Definition diamond : Relations := {|
  rel_parents := {[1 := []; 2 := [1]; 3 := [1]; 4 := [2; 3]; 5 := [4]]};
  rel_children := {[1 := {[2; 3]}; 2 := {[4]}; 3 := {[4]}; 4 := {[5]}]} |}.
Definition past : ReachabilityService := fun a b =>
  (a =? b) || ((1 <=? a) && (a <? b) && (b <=? 5) && negb ((a =? 2) && (b =? 3))).
Lemma past_laws : @ReachabilityLaws past.
Proof. split; intros *; unfold is_dag_ancestor_of, past; lia. Qed.
Lemma diamond_lookup h ps : rel_parents diamond !! h = Some ps <->
  h = 1 /\ ps = [] \/ h = 2 /\ ps = [1] \/ h = 3 /\ ps = [1] \/ h = 4 /\ ps = [2; 3] \/ h = 5 /\ ps = [4].
Proof. simpl. rewrite !lookup_insert_Some, lookup_singleton_Some. naive_solver. Qed.
Lemma diamond_bucket p c : c ∈ bucket diamond p <-> p = 1 /\ (c = 2 \/ c = 3) \/ (p = 2 \/ p = 3) /\ c = 4 \/ p = 4 /\ c = 5.
Proof.
  unfold bucket. simpl. destruct (decide (p = 1)) as [->|]; [rewrite lookup_insert_eq; set_solver|]. rewrite lookup_insert_ne by done.
  destruct (decide (p = 2)) as [->|]; [rewrite lookup_insert_eq; set_solver|]. rewrite lookup_insert_ne by done.
  destruct (decide (p = 3)) as [->|]; [rewrite lookup_insert_eq; set_solver|]. rewrite lookup_insert_ne by done.
  destruct (decide (p = 4)) as [->|]; [rewrite lookup_singleton_eq; set_solver|]. rewrite lookup_singleton_ne by done. set_solver by lia.
Qed.
Ltac diamond_cases H := apply diamond_lookup in H as [[-> ->]|[[-> ->]|[[-> ->]|[[-> ->]|[-> ->]]]]].
Lemma diamond_wf : relations_wf diamond.
Proof.
  split.
  - intros h ps p Hh Hp. diamond_cases Hh; rewrite ?elem_of_cons, ?elem_of_nil in Hp; repeat destruct Hp as [Hp|Hp]; try done; subst p; by split; [eexists|].
  - intros h ps Hh. diamond_cases Hh; repeat constructor; rewrite ?elem_of_cons, ?elem_of_nil; lia.
  - intros p c. rewrite diamond_bucket. setoid_rewrite diamond_lookup. split.
    + intros [[-> [-> | ->]]|[[[-> | ->] ->]|[-> ->]]]; eexists; (split; [naive_solver|set_solver]).
    + intros (ps & Hps & Hp). destruct Hps as [[-> ->]|[[-> ->]|[[-> ->]|[[-> ->]|[-> ->]]]]]; rewrite ?elem_of_cons, ?elem_of_nil in Hp; lia.
Qed.
Lemma diamond_reach : reach_relations past diamond.
Proof.
  split; [exact diamond_wf| |].
  - intros c ps a Hh. transitivity (a = c \/ Exists (fun p => past a p = true) ps); [|by rewrite Exists_exists].
    diamond_cases Hh; rewrite ?Exists_cons, ?Exists_nil; unfold past; lia.
  - intros c ps p q Hh Hp Hq. diamond_cases Hh; rewrite ?elem_of_cons, ?elem_of_nil in Hp, Hq; unfold past; lia.
Qed.
Lemma deletion_keeps_topology_witness : exists M r,
  @delete_reachability_relations (elements_iter Hash) past (fun _ => 3) 4 diamond = (Ok M, r) /\
  dom (rel_parents r) = dom (rel_parents diamond) ∖ {[4]} /\ reach_relations (without 4 past) r.
Proof.
  destruct (@deletion_keeps_topology past past_laws (elements_iter Hash) diamond diamond_reach 4 [2; 3] eq_refl (fun _ => 3)) as (M & r & E & _ & Hd & Hr);
    [by eexists|done|done|]. exists M, r. exact (conj E (conj Hd Hr)).
Defined.
(** Block 5 inherits the parents of block 4, and the call returns the block
    merged by it. *)
Lemma diamond_deleted : let '(m, r) := @delete_reachability_relations (elements_iter Hash) past (fun _ => 3) 4 diamond in
  m = Ok {[2]} /\ rel_parents r = {[1 := []; 2 := [1]; 3 := [1]; 5 := [2; 3]]}.
Proof. vm_compute. split; reflexivity. Qed.
End Diamond.
