(* ===== verification/Difficulty.v ===== *)
(** * Difficulty adjustment

    The sampled difficulty manager ([consensus/src/processes/difficulty.rs]),
    the past median time manager ([consensus/src/processes/past_median_time.rs])
    and the size-bounded block heap that windows are collected in
    ([consensus/src/processes/window.rs]: [BoundedSizeBlockHeap]).

    A window ([BlockWindowHeap], a binary min-heap of [SortableBlock]) is given
    by its elements in iteration order; no result depends on that order.
    Timestamps, bits and scores of blocks are read from the header store. *)

From S2P Require Import Prelude Uint Target Dag.

Record CompactHeaderData := mkCompactHeader {
  h_daa_score : u64;
  h_timestamp : u64;
  h_bits : u32;
  h_blue_score : u64;
}.
Abbreviation HeaderStore := (gmap Hash CompactHeaderData).
Abbreviation BlockWindowHeap := (list SortableBlock).

Inductive DifficultyError :=
| UnderMinWindowSizeAllowed (size min : usize)
| InsufficientWindowData (n : usize)
| EmptyTimestampRange.

(** ** Difficulty blocks *)
Record DifficultyBlock := mkDifficultyBlock {
  db_timestamp : u64;
  db_bits : u32;
  db_sortable : SortableBlock;
}.
Definition difficulty_cmp (a b : DifficultyBlock) : comparison :=
  match db_timestamp a ?= db_timestamp b with
  | Eq => sortable_cmp (db_sortable a) (db_sortable b)
  | c => c
  end.

(** [Itertools::position_minmax]: the first minimal and the last maximal
    position. *)
Fixpoint position_minmax_from {A} (cmp : A -> A -> comparison) (i : nat) (min max : nat * A) (l : list A)
    : (nat * A) * (nat * A) :=
  match l with
  | [] => (min, max)
  | x :: l =>
      let min := match cmp x (snd min) with Lt => (i, x) | _ => min end in
      let max := match cmp x (snd max) with Lt => max | _ => (i, x) end in
      position_minmax_from cmp (S i) min max l
  end.
Definition position_minmax {A} (cmp : A -> A -> comparison) (l : list A) : option (nat * nat) :=
  match l with
  | [] => None
  | x :: l =>
      let '(min, max) := position_minmax_from cmp 1 (0%nat, x) (0%nat, x) l in Some (fst min, fst max)
  end.
(** [Itertools::minmax] on integers. *)
Definition minmax (l : list Z) : option (Z * Z) :=
  match l with
  | [] => None
  | x :: l => Some (foldl Z.min x l, foldl Z.max x l)
  end.

(** ** The manager *)
Record SampledDifficultyManager := mkDifficultyManager {
  dm_headers_store : HeaderStore;
  dm_genesis_hash : Hash;
  dm_genesis_bits : u32;
  dm_max_difficulty_target : limbs;
  dm_difficulty_window_size : usize;
  dm_min_difficulty_window_size : usize;
  dm_difficulty_sample_rate : u64;
  dm_target_time_per_block : u64;
}.

Definition check_min_difficulty_window_size {E} (difficulty_window_size min_difficulty_window_size : usize) : res E unit :=
  rassert (min_difficulty_window_size <=? difficulty_window_size).
Definition difficulty_manager_new {E} (headers : HeaderStore) (genesis : Hash) (genesis_bits : u32)
    (max_target : limbs) (window_size min_window_size : usize) (sample_rate target_time : u64)
    : res E SampledDifficultyManager :=
  _ ← check_min_difficulty_window_size window_size min_window_size;
  Ok (mkDifficultyManager headers genesis genesis_bits (u320_from_u256 max_target)
        window_size min_window_size sample_rate target_time).

Section manager.
Context (self : SampledDifficultyManager).
Abbreviation headers := (dm_headers_store self).

Definition internal_calc_daa_score {E} (d : GhostdagData) (mergeset_non_daa : gset Hash) : res E u64 :=
  sp ← unwrap (headers !! selected_parent d);
  added ← chk 64 (mergeset_size d - Z.of_nat (size mergeset_non_daa));
  u64_add (h_daa_score sp) added.
Definition calc_daa_score {E} (d : GhostdagData) (mergeset_non_daa : gset Hash) : res E u64 :=
  internal_calc_daa_score d mergeset_non_daa.

Definition get_difficulty_blocks {E} (window : BlockWindowHeap) : res E (list DifficultyBlock) :=
  res_mapM (fun item =>
    data ← unwrap (headers !! sb_hash item);
    Ok (mkDifficultyBlock (h_timestamp data) (h_bits data) item)) window.

Definition MIN_WINDOW_SIZE : usize := 1000.
Definition estimate_network_hashes_per_second (window : BlockWindowHeap) : res DifficultyError u64 :=
  let window_size := zlen window in
  _ ← fail_if (window_size <? MIN_WINDOW_SIZE) (UnderMinWindowSizeAllowed window_size MIN_WINDOW_SIZE);
  difficulty_blocks ← get_difficulty_blocks window;
  '(min_ts, max_ts) ← unwrap (minmax (map db_timestamp difficulty_blocks));
  _ ← fail_if (min_ts =? max_ts) EmptyTimestampRange;
  diff ← u64_sub max_ts min_ts;
  let window_duration := diff / 1000 in
  if window_duration =? 0 then Ok 0
  else
    '(min_blue_work, max_blue_work) ← unwrap (minmax (map (fun b => sb_blue_work (db_sortable b)) difficulty_blocks));
    Ok (wrap 64 ((max_blue_work - min_blue_work) / window_duration)).

Definition difficulty_full_window_size {E} : res E u64 :=
  u64_mul (dm_difficulty_window_size self) (dm_difficulty_sample_rate self).
Definition lowest_daa_blue_score {E} (d : GhostdagData) : res E u64 :=
  w ← difficulty_full_window_size;
  u64_sub (Z.max (blue_score d) w) w.
Definition calc_daa_score_and_mergeset_non_daa_blocks {E} (d : GhostdagData) (store : GhostdagStore)
    : res E (u64 * gset Hash) :=
  lowest ← lowest_daa_blue_score d;
  flags ← res_mapM (fun hash => bd ← unwrap (store !! hash); Ok (hash, blue_score bd <? lowest)) (unordered_mergeset d);
  let mergeset_non_daa := list_to_set (map fst (filter (fun hb : Hash * bool => hb.2 = true) flags)) in
  score ← internal_calc_daa_score d mergeset_non_daa;
  Ok (score, mergeset_non_daa).

Definition calculate_difficulty_bits {E} (window : BlockWindowHeap) (d : GhostdagData) : res E u32 :=
  difficulty_blocks ← get_difficulty_blocks window;
  if zlen difficulty_blocks <? dm_min_difficulty_window_size self then
    if selected_parent d =? dm_genesis_hash self then Ok (dm_genesis_bits self)
    else sp ← unwrap (headers !! selected_parent d); Ok (h_bits sp)
  else
    '(min_ts_index, max_ts_index) ← unwrap (position_minmax difficulty_cmp difficulty_blocks);
    min_block ← unwrap (difficulty_blocks !! min_ts_index);
    max_block ← unwrap (difficulty_blocks !! max_ts_index);
    let difficulty_blocks := swap_remove difficulty_blocks min_ts_index in
    let difficulty_blocks_len := zlen difficulty_blocks in
    let targets_sum :=
      usum 5 (map (fun b => u320_from_u256 (from_compact_target_bits (db_bits b))) difficulty_blocks) in
    '(average_target, _) ← div_rem_u64 targets_sum difficulty_blocks_len;
    elapsed ← u64_sub (db_timestamp max_block) (db_timestamp min_block);
    let measured_duration := Z.max elapsed 1 in
    e ← u64_mul (dm_target_time_per_block self) (dm_difficulty_sample_rate self);
    expected_duration ← u64_mul e difficulty_blocks_len;
    '(new_target, _) ← div_rem_u64 (umul_u64 average_target measured_duration) expected_duration;
    let clamped :=
      match cmp (dm_max_difficulty_target self) new_target with
      | Lt => dm_max_difficulty_target self
      | _ => new_target
      end in
    match u256_try_from_u320 clamped with
    | Ok t => Ok (compact_target_bits t)
    | _ => Panic
    end.
End manager.

(** ** Past median time *)
Definition AVERAGE_FRAME_SIZE : usize := 11.
Definition calc_past_median_time {E} (headers : HeaderStore) (window : BlockWindowHeap) (sp : Hash) : res E u64 :=
  match window with
  | [] => d ← unwrap (headers !! sp); Ok (h_timestamp d)
  | _ =>
      window_timestamps ← res_mapM (fun item => d ← unwrap (headers !! sb_hash item); Ok (h_timestamp d)) window;
      let sorted := merge_sort Z.le window_timestamps in
      let avg_frame_size := Z.min (zlen sorted) AVERAGE_FRAME_SIZE in
      let ending_index := div_ceil (zlen sorted + avg_frame_size) 2 in
      let frame := take (Z.to_nat avg_frame_size) (drop (Z.to_nat (ending_index - avg_frame_size)) sorted) in
      sum ← u64_sum frame;
      total ← u64_add sum (avg_frame_size / 2);
      Ok (total / avg_frame_size)
  end.

(** ** The size-bounded heap

    [BoundedSizeBlockHeap]: a min-heap given by its elements.  [peek] is the
    least block and [pop] removes it. *)
Record BoundedSizeBlockHeap := mkBoundedHeap { binary_heap : BlockWindowHeap; size_bound : usize }.

Definition min_peek (h : BlockWindowHeap) : option SortableBlock := iter_max (fun a b => sortable_cmp b a) h.
Definition min_pop (h : BlockWindowHeap) : BlockWindowHeap :=
  match min_peek h with Some x => remove_first x h | None => h end.

Definition bounded_heap_new (bound : usize) : BoundedSizeBlockHeap := mkBoundedHeap [] bound.
Definition reached_size_bound (h : BoundedSizeBlockHeap) : bool := zlen (binary_heap h) =? size_bound h.
Definition can_push {E} (h : BoundedSizeBlockHeap) (block : SortableBlock) : res E bool :=
  if reached_size_bound h then
    max ← unwrap (min_peek (binary_heap h));
    Ok (match sortable_cmp block max with Lt => false | _ => true end)
  else Ok true.
Definition try_push (h : BoundedSizeBlockHeap) (block : SortableBlock) : BoundedSizeBlockHeap * bool :=
  if reached_size_bound h then
    match min_peek (binary_heap h) with
    | Some max =>
        match sortable_cmp block max with
        | Lt => (h, false)
        | _ => (mkBoundedHeap (block :: min_pop (binary_heap h)) (size_bound h), true)
        end
    | None => (mkBoundedHeap (block :: min_pop (binary_heap h)) (size_bound h), true)
    end
  else (mkBoundedHeap (block :: binary_heap h) (size_bound h), true).
Definition merge_ancestor_heap (h : BoundedSizeBlockHeap) (ancestor : BlockWindowHeap) : BoundedSizeBlockHeap :=
  let all := binary_heap h ++ ancestor in
  mkBoundedHeap (Nat.iter (Z.to_nat (Z.max 0 (zlen all - size_bound h))) min_pop all) (size_bound h).

(** ** The heap keeps the greatest blocks *)

(** [h] holds the [n] greatest blocks of [xs]. *)
Definition top_of (n : Z) (h xs : list SortableBlock) : Prop :=
  exists rest, h ++ rest ≡ₚ xs /\ zlen h = Z.min n (zlen xs) /\
    forall a b, a ∈ h -> b ∈ rest -> sortable_le b a.

Lemma min_peek_spec h m : min_peek h = Some m -> m ∈ h /\ forall x, x ∈ h -> sortable_le m x.
Proof.
  intros Hp. refine (iter_max_gen (fun a b => sortable_cmp b a) (flip sortable_le) h m _ _ Hp).
  - intros a b Hab. simpl. unfold sortable_le. by rewrite sortable_cmp_flip, Hab.
  - intros a b Hab. exact Hab.
Qed.
Lemma min_pop_spec h : h <> [] ->
  exists m, m :: min_pop h ≡ₚ h /\ (forall x, x ∈ h -> sortable_le m x) /\ min_peek h = Some m.
Proof.
  intros Hne. unfold min_pop. destruct (min_peek h) as [m|] eqn:Hp; [|by destruct h].
  destruct (min_peek_spec h m Hp) as [Hin Hle]. exists m. split; [by rewrite <- remove_first_perm|done].
Qed.
Lemma zlen_perm {A} (l k : list A) : l ≡ₚ k -> zlen l = zlen k.
Proof. intros Hp. unfold zlen. by rewrite Hp. Qed.

Lemma try_push_top n h xs x : 0 < n -> top_of n h xs ->
  top_of n (binary_heap (fst (try_push (mkBoundedHeap h n) x))) (x :: xs) /\
  size_bound (fst (try_push (mkBoundedHeap h n) x)) = n.
Proof.
  intros Hn (rest & Hp & Hl & Hle). pose proof (zlen_perm _ _ Hp) as Hlen. rewrite zlen_app in Hlen.
  pose proof (zlen_nonneg rest). unfold try_push, reached_size_bound. cbn [binary_heap size_bound].
  destruct (Z.eqb_spec (zlen h) n) as [Hfull|Hnf].
  - destruct (min_pop_spec h) as (m & Hpop & Hmin & ->); [intros ->; change (zlen []) with 0 in *; lia|].
    pose proof (sortable_cmp_spec x m) as Hcmp.
    assert (sortable_cmp x m = Lt -> top_of n h (x :: xs)) as Hlt.
    { intros He. rewrite He in Hcmp. exists (x :: rest). split; [by rewrite <- Hp, Permutation_middle|].
      split; [rewrite zlen_cons; lia|]. intros a b Ha [->|Hb]%elem_of_cons; [|auto].
      etrans; [|by apply Hmin]. apply sortable_le_spec. lia. }
    assert (sortable_le m x -> top_of n (x :: min_pop h) (x :: xs)) as Hge.
    { intros Hmx. exists (m :: rest). split.
      - simpl. rewrite <- Permutation_middle. apply Permutation_skip.
        rewrite <- Hp. change (m :: min_pop h ++ rest) with ((m :: min_pop h) ++ rest). by rewrite Hpop.
      - split; [rewrite !zlen_cons; pose proof (zlen_perm _ _ Hpop) as Hl'; rewrite zlen_cons in Hl'; lia|].
        intros a b. rewrite !elem_of_cons. intros Ha Hb.
        assert (sortable_le m a) as Hma.
        { destruct Ha as [->|Ha]; [done|]. apply Hmin. rewrite <- Hpop. by right. }
        destruct Hb as [->|Hb]; [done|]. etrans; [|exact Hma]. apply Hle; [|done].
        rewrite <- Hpop. left. }
    destruct (sortable_cmp x m) eqn:He; cbn; (split; [|done]).
    + subst. apply Hge. done.
    + by apply Hlt.
    + apply Hge. apply sortable_le_spec. lia.
  - cbn. split; [|done]. assert (rest = []) as ->.
    { destruct rest; [done|]. rewrite zlen_cons in *. pose proof (zlen_nonneg rest). lia. }
    exists []. rewrite app_nil_r in *. split; [by rewrite Hp|]. rewrite !zlen_cons. change (zlen []) with 0 in *.
    split; [lia|]. by intros a b _ ?%elem_of_nil.
Qed.
Lemma pop_all_top k l : (k <= length l)%nat ->
  exists rest, Nat.iter k min_pop l ++ rest ≡ₚ l /\ length rest = k /\
    forall a b, a ∈ Nat.iter k min_pop l -> b ∈ rest -> sortable_le b a.
Proof.
  induction k as [|k IH]; intros Hk.
  { exists []. rewrite app_nil_r. split; [done|]. split; [done|]. by intros a b _ ?%elem_of_nil. }
  destruct IH as (rest & Hp & Hr & Hle); [lia|]. simpl. set (h := Nat.iter k min_pop l) in *.
  destruct (min_pop_spec h) as (m & Hpop & Hmin & _).
  { intros Hh. rewrite Hh in Hp. simpl in Hp. apply Permutation_length in Hp. lia. }
  exists (m :: rest). split; [|split; [simpl; lia|]].
  - rewrite <- Permutation_middle, <- Hp.
    change (m :: min_pop h ++ rest) with ((m :: min_pop h) ++ rest). by rewrite Hpop.
  - intros a b Ha [->|Hb]%elem_of_cons.
    + apply Hmin. rewrite <- Hpop. by right.
    + apply Hle; [|done]. rewrite <- Hpop. by right.
Qed.

Lemma top_of_perm n h xs ys : xs ≡ₚ ys -> top_of n h xs -> top_of n h ys.
Proof. intros Hp (rest & H1 & H2 & H3). exists rest. split; [by rewrite H1|]. split; [|done]. by rewrite <- (zlen_perm _ _ Hp). Qed.
Lemma top_of_nil n : 0 <= n -> top_of n [] [].
Proof. intros Hn. exists []. split; [done|]. split; [change (zlen []) with 0; lia|]. by intros a b ?%elem_of_nil. Qed.
(** Every block of a list, pushed in turn. *)
Abbreviation pushes := (foldl (fun h x => fst (try_push h x))).
Lemma pushes_top n h ys xs : 0 < n -> top_of n h ys -> exists h', pushes (mkBoundedHeap h n) xs = mkBoundedHeap h' n /\ top_of n h' (xs ++ ys).
Proof.
  intros Hn. revert h ys. induction xs as [|x xs IH]; intros h ys Ht; [by exists h|]. cbn [foldl].
  destruct (try_push_top n h ys x Hn Ht) as [Ht' Hb]. destruct (fst (try_push (mkBoundedHeap h n) x)) as [h1 n1]. cbn in Ht', Hb. subst n1.
  destruct (IH h1 (x :: ys) Ht') as (h' & -> & Htop). exists h'. split; [done|]. eapply top_of_perm; [|exact Htop]. by rewrite <- Permutation_middle.
Qed.
Lemma merge_top n h anc : 0 <= n -> top_of n (binary_heap (merge_ancestor_heap (mkBoundedHeap h n) anc)) (h ++ anc).
Proof.
  intros Hn. set (all := h ++ anc). unfold merge_ancestor_heap. cbn [binary_heap size_bound]. fold all. pose proof (zlen_nonneg all).
  destruct (pop_all_top (Z.to_nat (Z.max 0 (zlen all - n))) all) as (rest & Hp & Hr & Hle); [unfold zlen; lia|].
  exists rest. split; [done|]. split; [|done]. apply zlen_perm in Hp. rewrite zlen_app in Hp. unfold zlen in *. lia.
Qed.

(** The bounded heap of the window manager keeps exactly the blocks of
    greatest blue work: pushing any sequence of blocks into an empty heap of
    bound [n > 0] leaves the [n] greatest of them, and merging an ancestor's
    heap leaves the [n] greatest of the union. *)
Theorem bounded_heap_top n xs anc (Hn : 0 < n) :
  let h := foldl (fun h x => fst (try_push h x)) (bounded_heap_new n) xs in
  top_of n (binary_heap h) xs /\
  top_of n (binary_heap (merge_ancestor_heap (mkBoundedHeap (binary_heap h) n) anc)) (binary_heap h ++ anc).
Proof.
  intros h. split; [|apply merge_top; lia]. unfold h, bounded_heap_new.
  destruct (pushes_top n [] [] xs Hn (top_of_nil n ltac:(lia))) as (h' & -> & Ht). by rewrite app_nil_r in Ht.
Qed.
Lemma bounded_heap_top_witness :
  let h := foldl (fun h x => fst (try_push h x)) (bounded_heap_new 2) [mkSortable 1 5; mkSortable 2 9; mkSortable 3 7] in
  top_of 2 (binary_heap h) [mkSortable 1 5; mkSortable 2 9; mkSortable 3 7] /\
  binary_heap h = [mkSortable 3 7; mkSortable 2 9].
Proof. intros h. split; [|vm_compute; done]. apply (bounded_heap_top 2 _ [] ltac:(lia)). Defined.

(** ** Retargeting *)
Lemma difficulty_cmp_ts a b : match difficulty_cmp a b with
  | Lt => db_timestamp a <= db_timestamp b
  | _ => db_timestamp b <= db_timestamp a
  end.
Proof.
  unfold difficulty_cmp. destruct (Z.compare_spec (db_timestamp a) (db_timestamp b)); [|lia..].
  destruct (sortable_cmp _ _); lia.
Qed.
Lemma position_minmax_from_spec pre l mi ma i :
  i = length pre -> pre !! fst mi = Some (snd mi) -> pre !! fst ma = Some (snd ma) ->
  (forall x, x ∈ pre -> db_timestamp (snd mi) <= db_timestamp x <= db_timestamp (snd ma)) ->
  let '(mi', ma') := position_minmax_from difficulty_cmp i mi ma l in
  (pre ++ l) !! fst mi' = Some (snd mi') /\ (pre ++ l) !! fst ma' = Some (snd ma') /\
  forall x, x ∈ pre ++ l -> db_timestamp (snd mi') <= db_timestamp x <= db_timestamp (snd ma').
Proof.
  revert pre mi ma i. induction l as [|x l IH]; intros pre mi ma i Hi Hmi Hma Hb; cbn [position_minmax_from].
  { rewrite app_nil_r. done. }
  replace (pre ++ x :: l) with ((pre ++ [x]) ++ l) by (by rewrite <- app_assoc).
  assert ((pre ++ [x]) !! i = Some x) as Hx.
  { rewrite lookup_app_r by lia. by rewrite Hi, Nat.sub_diag. }
  assert (forall j y, pre !! j = Some y -> (pre ++ [x]) !! j = Some y) as Hmono.
  { intros j y Hj. rewrite lookup_app_l; [done|]. by eapply lookup_lt_Some. }
  apply IH.
  - rewrite length_app. simpl. lia.
  - destruct (difficulty_cmp x (snd mi)); cbn; auto.
  - destruct (difficulty_cmp x (snd ma)); cbn; auto.
  - pose proof (difficulty_cmp_ts x (snd mi)) as H1. pose proof (difficulty_cmp_ts x (snd ma)) as H2.
    pose proof (Hb (snd mi)) as Hmm. specialize (Hmm ltac:(by eapply list_elem_of_lookup_2)).
    pose proof (Hb (snd ma)) as Hmm'. specialize (Hmm' ltac:(by eapply list_elem_of_lookup_2)).
    intros y [Hy|Hy]%elem_of_app; [specialize (Hb y Hy)|apply list_elem_of_singleton in Hy as ->].
    all: destruct (difficulty_cmp x (snd mi)), (difficulty_cmp x (snd ma)); cbn; lia.
Qed.
Lemma position_minmax_spec l : l <> [] -> exists i j mi ma,
  position_minmax difficulty_cmp l = Some (i, j) /\ l !! i = Some mi /\ l !! j = Some ma /\
  forall x, x ∈ l -> db_timestamp mi <= db_timestamp x <= db_timestamp ma.
Proof.
  destruct l as [|x l]; [done|]. intros _. unfold position_minmax.
  pose proof (position_minmax_from_spec [x] l (0%nat, x) (0%nat, x) 1 eq_refl eq_refl eq_refl) as H.
  destruct (position_minmax_from _ _ _ _ l) as [[i mi] [j ma]].
  destruct H as (H1 & H2 & H3); [intros y ->%list_elem_of_singleton; done|]. eauto 8.
Qed.

(** The target a difficulty block stands for. *)
Definition target_of (b : DifficultyBlock) : Z := val (from_compact_target_bits (db_bits b)).

Lemma targets_sum_val bs : zlen bs < 2 ^ 64 ->
  let s := usum 5 (map (fun b => u320_from_u256 (from_compact_target_bits (db_bits b))) bs) in
  wf 5 s /\ val s = foldr Z.add 0 (map target_of bs) /\ 0 <= val s <= zlen bs * (2 ^ 256 - 1).
Proof.
  intros Hlen s. assert (Forall (wf 5) (map (fun b => u320_from_u256 (from_compact_target_bits (db_bits b))) bs)) as Hw.
  { apply Forall_map, Forall_true. intros b. apply u320_from_u256_val, from_compact_wf. }
  destruct (usum_val 5 _ Hw) as [Hws Hv]. fold s in Hws, Hv. rewrite map_map in Hv.
  assert (map (fun b => val (u320_from_u256 (from_compact_target_bits (db_bits b)))) bs = map target_of bs) as He.
  { apply map_ext. intros b. apply u320_from_u256_val, from_compact_wf. }
  rewrite He in Hv. assert (0 <= foldr Z.add 0 (map target_of bs) <= zlen bs * (2 ^ 256 - 1)) as Hb.
  { clear. induction bs as [|b bs IH]; [change (zlen []) with 0; simpl; lia|]. rewrite zlen_cons. simpl.
    pose proof (val_range 4 _ (from_compact_wf (db_bits b))) as Hr. change (BITS 4) with 256 in Hr.
    unfold target_of at 1 3. lia. }
  pose proof (zlen_nonneg bs). rewrite Z.mod_small in Hv by (change (BITS 5) with 320; lia).
  split; [done|]. rewrite Hv. done.
Qed.

(** The new target on integers: average target times measured over expected
    duration, rounded down, at most [max]. *)
Definition retarget (sum n measured expected max : Z) : Z :=
  Z.min (sum / n * measured / expected) max.

Section retarget.
Context (self : SampledDifficultyManager).
Abbreviation max_target := (dm_max_difficulty_target self).
Abbreviation time_scale := (dm_target_time_per_block self * dm_difficulty_sample_rate self).
Context (Hmaxw : wf 5 max_target) (Hmax : val max_target < 2 ^ 256).

Lemma retarget_ok {E} window d bs :
  get_difficulty_blocks (E := E) self window = Ok bs ->
  2 <= zlen bs -> dm_min_difficulty_window_size self <= zlen bs < 2 ^ 64 ->
  Forall (fun b => inW 64 (db_timestamp b)) bs ->
  0 < dm_target_time_per_block self -> 0 < dm_difficulty_sample_rate self ->
  time_scale * (zlen bs - 1) < 2 ^ 64 ->
  exists oldest latest rest t,
    oldest :: rest ≡ₚ bs /\ latest ∈ bs /\
    (forall b, b ∈ bs -> db_timestamp oldest <= db_timestamp b <= db_timestamp latest) /\
    calculate_difficulty_bits (E := E) self window d = Ok (compact_target_bits t) /\ wf 4 t /\
    val t = retarget (foldr Z.add 0 (map target_of rest)) (zlen bs - 1)
              (Z.max (db_timestamp latest - db_timestamp oldest) 1) (time_scale * (zlen bs - 1)) (val max_target).
Proof.
  intros Hbs Hlen [Hmin Hlen64] Hts Htime Hrate Hexp. unfold calculate_difficulty_bits. rewrite Hbs.
  cbn [mbind res_bind]. rewrite (proj2 (Z.ltb_ge _ _) Hmin).
  destruct (position_minmax_spec bs) as (i & j & mi & ma & -> & Hi & Hj & Hb).
  { intros ->. change (zlen []) with 0 in Hlen. lia. }
  cbn [unwrap mbind res_bind]. rewrite Hi, Hj. cbn [unwrap mbind res_bind].
  pose proof (swap_remove_perm bs i mi Hi) as Hp. set (rest := swap_remove bs i) in *.
  assert (zlen rest = zlen bs - 1) as Hr by (apply zlen_perm in Hp; rewrite zlen_cons in Hp; lia).
  destruct (targets_sum_val rest) as (Hw & Hv & Hsum); [lia|].
  destruct (div_rem_u64_spec (E := E) 5 _ (zlen rest) Hw) as (q & -> & Hq & Hqv); [split; [lia|change B64 with (2 ^ 64); lia]|lia|].
  cbn [mbind res_bind]. rewrite Forall_forall in Hts.
  pose proof (Hts mi ltac:(by eapply list_elem_of_lookup_2)) as Tmi.
  pose proof (Hts ma ltac:(by eapply list_elem_of_lookup_2)) as Tma.
  pose proof (Hb mi ltac:(by eapply list_elem_of_lookup_2)) as Tb. unfold inW in Tmi, Tma.
  unfold u64_sub, u64_mul. rewrite Hr in *.
  rewrite (chk_ok 64 (db_timestamp ma - _)), (chk_ok 64 time_scale) by (unfold inW; nia). cbn [mbind res_bind].
  rewrite (chk_ok 64 (time_scale * _)) by (unfold inW; nia). cbn [mbind res_bind].
  set (dur := Z.max (db_timestamp ma - db_timestamp mi) 1).
  assert (is_digit B64 dur) as Hdur by (unfold is_digit, dur; change B64 with (2 ^ 64); lia).
  destruct (umul_u64_val 5 q dur Hq Hdur) as [Hm Hmv]. change (BITS 5) with 320 in Hmv.
  rewrite Hv in Hqv, Hsum. unfold is_digit in Hdur. change B64 with (2 ^ 64) in Hdur.
  assert (0 <= val q <= 2 ^ 256 - 1) as Hq256.
  { rewrite Hqv. split; [apply Z.div_pos; lia|]. apply Z.div_le_upper_bound; lia. }
  rewrite Z.mod_small in Hmv by nia.
  destruct (div_rem_u64_spec (E := E) 5 _ (time_scale * (zlen bs - 1)) Hm) as (nt & -> & Hnt & Hntv);
    [split; [nia|change B64 with (2 ^ 64); lia]|nia|].
  cbn [mbind res_bind]. rewrite (cmp_spec 5) by done. rewrite Hmv, Hqv in Hntv.
  set (clamped := match _ with Lt => _ | _ => nt end).
  assert (wf 5 clamped /\ val clamped = retarget (foldr Z.add 0 (map target_of rest)) (zlen bs - 1) dur
    (time_scale * (zlen bs - 1)) (val max_target)) as [Hcw Hcv].
  { unfold clamped, retarget. rewrite <- Hntv. destruct (Z.compare_spec (val max_target) (val nt)); (split; [done|lia]). }
  pose proof (u256_try_from_u320_val clamped Hcw) as Ht.
  rewrite (proj2 (Z.ltb_lt _ _)) in Ht by (rewrite Hcv; unfold retarget; lia).
  destruct Ht as (t & -> & Htw & Htv). exists mi, ma, rest, t.
  split_and!; try done; [by eapply list_elem_of_lookup_2|by rewrite Htv, Hcv].
Qed.
End retarget.

(** C36. Difficulty adjustment, on a window of at least two blocks that is full
    enough: the new bits encode the average target of the window without its
    oldest block, scaled by the measured over the expected duration and capped
    by the maximal target, computed exactly: neither the 320-bit intermediate
    product nor any conversion overflows.  Below the minimal window size the
    bits are those of genesis or of the selected parent. *)
Theorem calculate_difficulty_bits_exact self window d bs
  (Hmaxw : wf 5 (dm_max_difficulty_target self)) (Hmax : val (dm_max_difficulty_target self) < 2 ^ 256)
  (Hbs : get_difficulty_blocks (E := Empty_set) self window = Ok bs) :
  (zlen bs < dm_min_difficulty_window_size self -> forall sp,
     dm_headers_store self !! selected_parent d = Some sp ->
     calculate_difficulty_bits (E := Empty_set) self window d =
       Ok (if selected_parent d =? dm_genesis_hash self then dm_genesis_bits self else h_bits sp)) /\
  (2 <= zlen bs -> dm_min_difficulty_window_size self <= zlen bs < 2 ^ 64 ->
   Forall (fun b => inW 64 (db_timestamp b)) bs ->
   0 < dm_target_time_per_block self -> 0 < dm_difficulty_sample_rate self ->
   dm_target_time_per_block self * dm_difficulty_sample_rate self * (zlen bs - 1) < 2 ^ 64 ->
   exists oldest latest rest t,
    oldest :: rest ≡ₚ bs /\ latest ∈ bs /\
    (forall b, b ∈ bs -> db_timestamp oldest <= db_timestamp b <= db_timestamp latest) /\
    calculate_difficulty_bits (E := Empty_set) self window d = Ok (compact_target_bits t) /\ wf 4 t /\
    val t = retarget (foldr Z.add 0 (map target_of rest)) (zlen bs - 1)
              (Z.max (db_timestamp latest - db_timestamp oldest) 1)
              (dm_target_time_per_block self * dm_difficulty_sample_rate self * (zlen bs - 1))
              (val (dm_max_difficulty_target self))).
Proof.
  split.
  - intros Hlt sp Hsp. unfold calculate_difficulty_bits. rewrite Hbs. cbn [mbind res_bind].
    rewrite (proj2 (Z.ltb_lt _ _) Hlt), Hsp. by destruct (_ =? _).
  - intros. by apply retarget_ok.
Qed.

Definition example_manager : SampledDifficultyManager :=
  mkDifficultyManager
    {[1 := mkCompactHeader 1 1000 0x1d00ffff 1; 2 := mkCompactHeader 2 3000 0x1d00ffff 2;
      3 := mkCompactHeader 3 5000 0x1d00ffff 3]}
    0 0x207fffff (u320_from_u256 (from_compact_target_bits 0x207fffff)) 2641 2 4 1000.
Definition example_window : BlockWindowHeap := [mkSortable 2 20; mkSortable 1 10; mkSortable 3 30].
Lemma calculate_difficulty_bits_exact_witness : exists t,
  calculate_difficulty_bits (E := Empty_set) example_manager example_window
    (mkGhostdagData 0 0 3 [] [] ∅) = Ok (compact_target_bits t) /\ wf 4 t.
Proof.
  set (bs := [mkDifficultyBlock 3000 0x1d00ffff (mkSortable 2 20); mkDifficultyBlock 1000 0x1d00ffff (mkSortable 1 10);
              mkDifficultyBlock 5000 0x1d00ffff (mkSortable 3 30)]).
  destruct (calculate_difficulty_bits_exact example_manager example_window (mkGhostdagData 0 0 3 [] [] ∅) bs)
    as [_ H].
  - apply u320_from_u256_val, from_compact_wf.
  - vm_compute. done.
  - vm_compute. done.
  - destruct H as (o & l & r & t & _ & _ & _ & Ht & Hw & _).
    + vm_compute. done.
    + vm_compute. done.
    + repeat (constructor; [vm_compute; done|]). constructor.
    + vm_compute. done.
    + vm_compute. done.
    + vm_compute. done.
    + exists t. split; [exact Ht|exact Hw].
Defined.

(** ** DAA score *)
Lemma mapM_flags {E} (store : GhostdagStore) lowest l : (forall h, h ∈ l -> h ∈ dom store) ->
  exists flags, res_mapM (E := E) (fun hash => bd ← unwrap (store !! hash); Ok (hash, blue_score bd <? lowest)) l = Ok flags /\
    map fst flags = l /\
    forall h b, (h, b) ∈ flags -> exists bd, store !! h = Some bd /\ b = (blue_score bd <? lowest).
Proof.
  induction l as [|h l IH]; intros Hl.
  { exists []. split_and!; [done..|]. by intros h b ?%elem_of_nil. }
  destruct (IH ltac:(intros; apply Hl; by right)) as (flags & Hf & Hm & Hb).
  pose proof (Hl h ltac:(left)) as [bd Hbd]%elem_of_dom.
  exists ((h, blue_score bd <? lowest) :: flags). simpl. rewrite Hbd. cbn [unwrap mbind res_bind]. rewrite Hf.
  split; [done|]. split; [by rewrite Hm|]. intros h' b' [[= -> ->]|Hin]%elem_of_cons; eauto.
Qed.

Lemma daa_score_counts {E} self d store sp
  (Hsp : dm_headers_store self !! selected_parent d = Some sp)
  (Hnd : NoDup (unordered_mergeset d)) (Hdom : forall h, h ∈ unordered_mergeset d -> h ∈ dom store)
  (Hw : inW 64 (dm_difficulty_window_size self * dm_difficulty_sample_rate self))
  (Hbs : inW 64 (blue_score d)) (Hlen : mergeset_size d < 2 ^ 64)
  (Hroom : 0 <= h_daa_score sp /\ h_daa_score sp + mergeset_size d < 2 ^ 64) :
  let lowest := Z.max 0 (blue_score d - dm_difficulty_window_size self * dm_difficulty_sample_rate self) in
  exists score non_daa,
    calc_daa_score_and_mergeset_non_daa_blocks (E := E) self d store = Ok (score, non_daa) /\
    (forall h, h ∈ non_daa <-> h ∈ unordered_mergeset d /\
       exists bd, store !! h = Some bd /\ blue_score bd < lowest) /\
    score = h_daa_score sp + (mergeset_size d - Z.of_nat (size non_daa)) /\
    Z.of_nat (size non_daa) <= mergeset_size d.
Proof.
  intros lowest. unfold calc_daa_score_and_mergeset_non_daa_blocks, lowest_daa_blue_score, difficulty_full_window_size.
  unfold u64_mul, u64_sub. rewrite chk_ok by done. cbn [mbind res_bind].
  rewrite chk_ok by (unfold inW in *; lia). cbn [mbind res_bind].
  replace (Z.max (blue_score d) _ - _) with lowest by (unfold lowest; lia).
  destruct (mapM_flags (E := E) store lowest _ Hdom) as (flags & -> & Hm & Hf). cbn [mbind res_bind].
  set (nd := map fst (filter (fun hb : Hash * bool => hb.2 = true) flags)).
  assert (nd `sublist_of` unordered_mergeset d) as Hsub.
  { unfold nd. rewrite <- Hm. apply sublist_map, sublist_filter. }
  assert (size (list_to_set nd : gset Hash) = length nd) as Hsz.
  { apply size_list_to_set. by eapply sublist_NoDup. }
  apply sublist_length in Hsub as Hsl.
  assert (mergeset_size d = zlen (unordered_mergeset d)) as Hms by (unfold unordered_mergeset; by rewrite zlen_app).
  unfold internal_calc_daa_score. rewrite Hsp. cbn [unwrap mbind res_bind].
  rewrite chk_ok by (unfold inW, zlen in *; rewrite Hsz; lia). cbn [mbind res_bind].
  unfold u64_add. rewrite chk_ok by (unfold inW, zlen in *; rewrite Hsz; lia). cbn [mbind res_bind].
  eexists _, _. split; [done|]. split; [|split; [done|unfold zlen in *; rewrite Hsz; lia]].
  intros h. rewrite elem_of_list_to_set. unfold nd. rewrite list_elem_of_fmap. split.
  - intros ([h' b] & -> & Hin). apply list_elem_of_filter in Hin as [Hb Hin]. simpl in Hb. subst b.
    destruct (Hf h' true Hin) as (bd & Hbd & He). split; [|exists bd; split; [done|lia]].
    rewrite <- Hm. apply list_elem_of_fmap. by exists (h', true).
  - intros (Hin & bd & Hbd & Hlt). rewrite <- Hm in Hin. apply list_elem_of_fmap in Hin as ([h' b] & -> & Hin).
    exists (h', b). split; [done|]. apply list_elem_of_filter. split; [|done]. simpl in *.
    destruct (Hf h' b Hin) as (bd' & Hbd' & ->). simplify_eq. lia.
Qed.
(** The DAA score advances by the number of merged blocks that count: on
    stored, distinct mergeset blocks [calc_daa_score_and_mergeset_non_daa_blocks]
    returns exactly the merged blocks below the window's lowest blue score as
    non-DAA blocks, and the selected parent's DAA score plus the number of the
    others; the subtraction never underflows. *)
Theorem daa_score_counts_window self d store sp
  (Hsp : dm_headers_store self !! selected_parent d = Some sp)
  (Hnd : NoDup (unordered_mergeset d)) (Hdom : forall h, h ∈ unordered_mergeset d -> h ∈ dom store)
  (Hw : inW 64 (dm_difficulty_window_size self * dm_difficulty_sample_rate self))
  (Hbs : inW 64 (blue_score d)) (Hlen : mergeset_size d < 2 ^ 64)
  (Hroom : 0 <= h_daa_score sp /\ h_daa_score sp + mergeset_size d < 2 ^ 64) :
  let lowest := Z.max 0 (blue_score d - dm_difficulty_window_size self * dm_difficulty_sample_rate self) in
  exists score non_daa,
    calc_daa_score_and_mergeset_non_daa_blocks (E := Empty_set) self d store = Ok (score, non_daa) /\
    (forall h, h ∈ non_daa <-> h ∈ unordered_mergeset d /\
       exists bd, store !! h = Some bd /\ blue_score bd < lowest) /\
    score = h_daa_score sp + (mergeset_size d - Z.of_nat (size non_daa)) /\
    Z.of_nat (size non_daa) <= mergeset_size d.
Proof. by apply daa_score_counts. Qed.
Lemma daa_score_counts_window_witness : exists score non_daa,
  let d := mkGhostdagData 9000 0 3 [3] [1] ∅ in
  let store := {[1 := mkGhostdagData 2 0 0 [] [] ∅; 3 := mkGhostdagData 8000 0 1 [1] [] ∅]} in
  let manager := mkDifficultyManager {[3 := mkCompactHeader 7500 0 0 8000]} 0 0 (ZERO 5) 1000 150 4 100 in
  calc_daa_score_and_mergeset_non_daa_blocks (E := Empty_set) manager d store = Ok (score, non_daa) /\
  score = 7500 + (2 - Z.of_nat (size non_daa)).
Proof.
  edestruct (daa_score_counts_window
    (mkDifficultyManager {[3 := mkCompactHeader 7500 0 0 8000]} 0 0 (ZERO 5) 1000 150 4 100)
    (mkGhostdagData 9000 0 3 [3] [1] ∅)
    {[1 := mkGhostdagData 2 0 0 [] [] ∅; 3 := mkGhostdagData 8000 0 1 [1] [] ∅]})
    as (score & nd & Hs & _ & Hv & _).
  - vm_compute. reflexivity.
  - apply (bool_decide_unpack _). vm_compute. done.
  - intros h Hh. apply elem_of_dom. unfold unordered_mergeset in Hh. simpl in Hh.
    rewrite !elem_of_cons in Hh. destruct Hh as [->|[->|Hh%elem_of_nil]]; [by eexists|by eexists|done].
  - vm_compute. done.
  - vm_compute. done.
  - vm_compute. done.
  - vm_compute. done.
  - exists score, nd. split; [exact Hs|exact Hv].
Defined.

(** ** Past median time *)
Lemma u64_sum_ok {E} l acc : Forall (fun x => 0 <= x) l -> 0 <= acc -> acc + foldr Z.add 0 l < 2 ^ 64 ->
  res_foldl (E := E) u64_add acc l = Ok (acc + foldr Z.add 0 l).
Proof.
  intros Hl. revert acc. induction Hl as [|x l Hx Hl IH]; intros acc Ha Hlt; simpl in *.
  { f_equal. lia. }
  assert (0 <= foldr Z.add 0 l) by (clear -Hl; induction Hl; simpl; lia).
  unfold u64_add at 2. rewrite chk_ok by (unfold inW; lia). cbn [mbind res_bind].
  rewrite IH by lia. f_equal. lia.
Qed.
Lemma sum_bounds l lo hi : Forall (fun x => lo <= x <= hi) l ->
  zlen l * lo <= foldr Z.add 0 l <= zlen l * hi.
Proof.
  induction 1 as [|x l Hx Hl IH]; [change (zlen []) with 0; simpl; lia|]. rewrite zlen_cons. simpl. lia.
Qed.
Lemma StronglySorted_app_le (R : relation Z) l k : StronglySorted R (l ++ k) ->
  forall x y, x ∈ l -> y ∈ k -> R x y.
Proof.
  induction l as [|a l IH]; intros Hs x y; [by intros ?%elem_of_nil|].
  simpl in Hs. apply StronglySorted_inv in Hs as [Hs Ha]. intros [->|Hx]%elem_of_cons Hy; [|by apply IH].
  rewrite Forall_forall in Ha. apply Ha. apply elem_of_app. by right.
Qed.

(** The past median time of a non-empty window is the rounded average of
    the (at most 11) timestamps in the middle of the sorted window: as many
    timestamps lie below the frame as above it, or one more; hence the result
    lies between the frame's extremes. *)
Theorem past_median_time_central headers window sp ts
  (Hne : window <> [])
  (Hts : res_mapM (E := Empty_set) (fun item => d ← unwrap (headers !! sb_hash item); Ok (h_timestamp d)) window = Ok ts)
  (Hr : Forall (fun t => 0 <= t < 2 ^ 60) ts) :
  exists below frame above t,
    calc_past_median_time (E := Empty_set) headers window sp = Ok t /\
    below ++ frame ++ above ≡ₚ ts /\ zlen frame = Z.min (zlen ts) AVERAGE_FRAME_SIZE /\
    zlen above <= zlen below <= zlen above + 1 /\
    (forall x y, x ∈ below -> y ∈ frame -> x <= y) /\ (forall x y, x ∈ frame -> y ∈ above -> x <= y) /\
    t = (foldr Z.add 0 frame + zlen frame / 2) / zlen frame /\
    (forall lo hi, Forall (fun x => lo <= x <= hi) frame -> lo <= t <= hi).
Proof.
  assert (0 < zlen ts) as Hpos.
  { destruct window as [|w window]; [done|]. cbn [res_mapM] in Hts. apply bind_ok in Hts as (y & _ & Hts).
    apply bind_ok in Hts as (ys & _ & [= <-]). rewrite zlen_cons. pose proof (zlen_nonneg ys). lia. }
  unfold calc_past_median_time. destruct window as [|w window]; [done|]. rewrite Hts. cbn [mbind res_bind].
  set (s := merge_sort Z.le ts). assert (s ≡ₚ ts) as Hp by apply merge_sort_Permutation.
  assert (StronglySorted Z.le s) as Hs.
  { apply Sorted_StronglySorted; [intros ???; lia|]. apply Sorted_merge_sort. intros x y. lia. }
  pose proof (zlen_perm _ _ Hp) as Hl. rewrite Hl. set (n := zlen ts) in *.
  set (f := Z.min n AVERAGE_FRAME_SIZE). assert (1 <= f <= n /\ f <= 11) as Hf by (unfold f, AVERAGE_FRAME_SIZE; lia).
  assert (div_ceil (n + f) 2 = (n + f + 1) / 2) as He by (unfold div_ceil; f_equal; lia).
  pose proof (Z.div_mod (n + f + 1) 2 ltac:(lia)). pose proof (Z.mod_pos_bound (n + f + 1) 2 ltac:(lia)).
  rewrite <- He in *. set (e := div_ceil (n + f) 2) in *.
  set (i := Z.to_nat (e - f)). set (below := take i s). set (rest := drop i s).
  set (frame := take (Z.to_nat f) rest). set (above := drop (Z.to_nat f) rest).
  assert (s = below ++ frame ++ above) as Hsplit.
  { unfold frame, above. rewrite take_drop. unfold below, rest. by rewrite take_drop. }
  unfold zlen in Hl. assert (zlen frame = f) as Hfl.
  { unfold frame, rest, zlen. rewrite length_take, length_drop. lia. }
  assert (zlen below = e - f /\ zlen above = n - e) as [Hbl Hal].
  { unfold below, above, rest, zlen. rewrite length_take, !length_drop. lia. }
  assert (Forall (fun t => 0 <= t < 2 ^ 60) frame) as Hfr.
  { rewrite <- Hp, Hsplit in Hr. apply Forall_app in Hr as [_ Hr]. by apply Forall_app in Hr as [Hr _]. }
  assert (0 <= foldr Z.add 0 frame <= 11 * (2 ^ 60 - 1)) as Hsum.
  { pose proof (sum_bounds frame 0 (2 ^ 60 - 1)) as Hb. rewrite Hfl in Hb.
    destruct Hb; [eapply Forall_impl; [exact Hfr|simpl; lia]|]. lia. }
  unfold u64_sum. rewrite u64_sum_ok by (first [lia|eapply Forall_impl; [exact Hfr|simpl; lia]]).
  cbn [mbind res_bind]. unfold u64_add. pose proof (Z.div_mod f 2 ltac:(lia)). pose proof (Z.mod_pos_bound f 2 ltac:(lia)).
  rewrite chk_ok by (unfold inW; lia). cbn [mbind res_bind]. rewrite Z.add_0_l.
  exists below, frame, above. eexists. split; [done|]. rewrite Hfl. split_and!; try done; try lia.
  - by rewrite <- Hsplit.
  - rewrite Hsplit in Hs. intros x y Hx Hy. eapply (StronglySorted_app_le Z.le); [exact Hs|done|].
    apply elem_of_app. by left.
  - rewrite Hsplit in Hs. apply StronglySorted_app_1_r in Hs. by apply (StronglySorted_app_le Z.le).
  - intros lo hi Hlh. apply sum_bounds in Hlh. rewrite Hfl in Hlh. split.
    + apply Z.div_le_lower_bound; lia.
    + apply Z.lt_succ_r. apply Z.div_lt_upper_bound; lia.
Qed.
Lemma past_median_time_central_witness : exists t,
  calc_past_median_time (E := Empty_set) (dm_headers_store example_manager) example_window 3 = Ok t /\ t = 3000.
Proof.
  destruct (past_median_time_central (dm_headers_store example_manager) example_window 3 [3000; 1000; 5000])
    as (b & f & a & t & Ht & _ & _ & _ & _ & _ & _ & _).
  - done.
  - vm_compute. done.
  - repeat (constructor; [lia|]). constructor.
  - exists t. split; [exact Ht|]. vm_compute in Ht. injection Ht as <-. done.
Defined.
