(* ===== verification/BlockDepth.v ===== *)
(** * Blocks at a depth

    [consensus/src/processes/block_depth.rs]: the merge depth root and the
    finality point of a block, found by walking up the selected chain from the
    point of the selected parent.  The depth store is the pair of maps it
    holds ([consensus/src/model/stores/depth.rs]).

    The theorem: the walk from the selected parent's point finds what a walk
    from the pruning point finds, the last chain block below the required blue
    score.  Fuel bounds the walk; the height of the selected parent is enough. *)
From S2P Require Import Prelude Dag Chain.

Inductive BlockDepthType := MergeRoot | Finality.
Record BlockDepthManager := mkDepthManager {
  bd_merge_depth : u64;
  bd_finality_depth : u64;
  bd_genesis_hash : Hash;
  merge_depth_roots : gmap Hash Hash;
  finality_points : gmap Hash Hash;
  bd_ghostdag_store : GhostdagStore;
}.

Section manager.
Context {E : Type} `{CS : ChainService} (self : BlockDepthManager).
Definition get_blue_score (h : Hash) : res E u64 := d ← unwrap (bd_ghostdag_store self !! h); Ok (blue_score d).

(** The loop over [forward_chain_iterator(current, selected_parent, true)],
    which computes the next block before it yields one. *)
Fixpoint depth_walk (fuel : nat) (required_blue_score : u64) (to chain_block current : Hash) : res E Hash :=
  match fuel with
  | O => NoFuel
  | S fuel =>
      next ← (if decide (chain_block = to) then Ok None else n ← unwrap (get_next_chain_ancestor to chain_block); Ok (Some n));
      score ← get_blue_score chain_block;
      if required_blue_score <=? score then Ok current else
      match next with None => Ok chain_block | Some n => depth_walk fuel required_blue_score to n chain_block end
  end.
Definition calculate_block_at_depth (fuel : nat) (d : GhostdagData) (depth_type : BlockDepthType) (pruning_point : Hash) : res E Hash :=
  if decide (selected_parent d = ORIGIN) then Ok ORIGIN else
  let depth := match depth_type with MergeRoot => bd_merge_depth self | Finality => bd_finality_depth self end in
  if blue_score d <? depth then Ok (bd_genesis_hash self) else
  pp_bs ← get_blue_score pruning_point;
  reach ← u64_add pp_bs depth;
  if blue_score d <? reach then Ok ORIGIN else
  if negb (is_chain_ancestor_of pruning_point (selected_parent d)) then Ok ORIGIN else
  current ← unwrap (match depth_type with MergeRoot => merge_depth_roots self | Finality => finality_points self end !! selected_parent d);
  let current := if decide (current = ORIGIN) then pruning_point else current in
  required_blue_score ← u64_sub (blue_score d) depth;
  depth_walk fuel required_blue_score (selected_parent d) current current.
Definition calc_merge_depth_root (fuel : nat) (d : GhostdagData) (pruning_point : Hash) : res E Hash :=
  calculate_block_at_depth fuel d MergeRoot pruning_point.
Definition calc_finality_point (fuel : nat) (d : GhostdagData) (pruning_point : Hash) : res E Hash :=
  calculate_block_at_depth fuel d Finality pruning_point.
Definition kosherizing_blues (d : GhostdagData) (merge_depth_root : Hash) : list Hash :=
  filter (fun blue => is_chain_ancestor_of merge_depth_root blue) (mergeset_blues d).
End manager.

(** ** The walk *)
Section walk.
Context {E : Type} `{CS : ChainService} `{CL : !ChainLaws} (self : BlockDepthManager).
Definition score_of (h : Hash) : Z := from_option blue_score 0 (bd_ghostdag_store self !! h).
Context (to low : Hash) (required : u64).
(** The chain from [low] to [to], with scores that grow along it. *)
Record scored : Prop := {
  sc_chain : on_chain low to;
  sc_data x : on_chain low x -> on_chain x to -> is_Some (bd_ghostdag_store self !! x);
  sc_grows x y : on_chain low x -> on_chain x y -> on_chain y to -> score_of x <= score_of y;
}.
Context (Hs : scored).
(** [r] is the last block of the chain below the required score, counted from [c]. *)
Definition last_below (c r : Hash) : Prop :=
  on_chain c r /\ on_chain r to /\ (r = c \/ score_of r < required) /\
  forall x, on_chain r x -> on_chain x to -> x <> r -> required <= score_of x.

Lemma last_below_unique c r r' : score_of c < required -> last_below c r -> last_below c r' -> r = r'.
Proof.
  intros Hc (H1 & H2 & H3 & H4) (G1 & G2 & G3 & G4).
  assert (score_of r < required) as Hr by (destruct H3 as [->|]; done). assert (score_of r' < required) as Hr' by (destruct G3 as [->|]; done).
  destruct (decide (r = r')) as [|Hne]; [done|]. exfalso.
  destruct (on_chain_linear r r' to H2 G2) as [H|H].
  - pose proof (H4 r' H G2 (not_eq_sym Hne)). lia.
  - pose proof (G4 r H H2 Hne). lia.
Qed.
Lemma get_score x : on_chain low x -> on_chain x to -> get_blue_score (E:=E) self x = Ok (score_of x).
Proof using Hs. intros H1 H2. unfold get_blue_score, score_of. destruct (sc_data Hs x H1 H2) as [d ->]. done. Qed.
Lemma depth_walk_ok : forall fuel b c, on_chain low b -> on_chain b to -> (b = c \/ get_chain_parent b = Some c /\ score_of c < required) ->
  on_chain low c -> (chain_height to - chain_height b < fuel)%nat ->
  exists r, depth_walk (E:=E) self fuel required to b c = Ok r /\ last_below c r.
Proof using Hs CL.
  induction fuel as [|fuel IH]; intros b c Hlb Hbt Hbc Hlc Hf; [lia|]. cbn [depth_walk].
  assert (on_chain c b) as Hcb by (destruct Hbc as [->|[Hp _]]; [constructor|eapply on_chain_step; [exact Hp|constructor]]).
  assert (on_chain c to) as Hct by (by eapply on_chain_trans).
  assert (forall x, on_chain c x -> x <> c -> on_chain x to -> on_chain b x) as Hbelow.
  { intros x Hcx Hne Hxt. destruct Hbc as [->|[Hp _]]; [done|]. destruct (on_chain_linear x b to Hxt Hbt) as [H|H]; [|done].
    destruct (decide (x = b)) as [->|Hxb]; [constructor|]. destruct Hne. apply on_chain_anti; [|done]. by eapply on_chain_up. }
  assert (required <= score_of b -> last_below c c) as Hstop.
  { intros Hr. split_and!; [constructor|done|by left|]. intros x Hcx Hxt Hne. etrans; [exact Hr|]. apply (sc_grows Hs); [done| |done]. by apply Hbelow. }
  case_decide as Heq.
  - subst b. cbn [mbind res_bind]. rewrite get_score by done. cbn [mbind res_bind]. destruct (Z.leb_spec required (score_of to)) as [Hle|Hgt].
    + exists c. split; [done|by apply Hstop].
    + exists to. split; [done|]. split_and!; [done|constructor|by right|]. intros x Htx Hxt Hne. destruct Hne. by apply on_chain_anti.
  - destruct (chain_next_spec b to Hbt Heq) as (n & -> & Hpn & Hnt). cbn [unwrap mbind res_bind]. rewrite get_score by done. cbn [mbind res_bind].
    destruct (Z.leb_spec required (score_of b)) as [Hle|Hgt]; [exists c; split; [done|by apply Hstop]|].
    pose proof (chain_height_parent _ _ Hpn). pose proof (on_chain_height _ _ Hnt).
    assert (on_chain low n) as Hln by (apply (on_chain_step _ n b); done).
    destruct (IH n b Hln Hnt) as (r & -> & H1 & H2 & H3 & H4); [by right|done|lia|].
    exists r. split; [done|]. split_and!; [by apply (on_chain_trans c b r)|done| |done]. right. destruct H3 as [->|]; done.
Qed.
End walk.

(** ** Depth points *)
Section depth.
Context `{CS : ChainService} `{CL : !ChainLaws} (self : BlockDepthManager).
Definition depth_of (ty : BlockDepthType) : u64 := match ty with MergeRoot => bd_merge_depth self | Finality => bd_finality_depth self end.
Definition points_of (ty : BlockDepthType) : gmap Hash Hash := match ty with MergeRoot => merge_depth_roots self | Finality => finality_points self end.

(** What the walk reads: the pruning point's score, and the selected parent's
    stored point when the pruning point is on its chain. *)
Record depth_ready (ty : BlockDepthType) (sp pp : Hash) : Prop := {
  dy_pp : is_Some (bd_ghostdag_store self !! pp);
  dy_depth : 0 <= depth_of ty /\ 0 <= score_of self pp /\ score_of self pp + depth_of ty < 2 ^ 64;
  dy_point : on_chain pp sp -> scored self sp pp /\ exists stored, points_of ty !! sp = Some stored /\
    (stored = ORIGIN \/ on_chain pp stored /\ on_chain stored sp);
}.
Lemma block_at_depth_total {E} fuel d ty pp : depth_ready ty (selected_parent d) pp -> blue_score d < 2 ^ 64 ->
  (chain_height (selected_parent d) < fuel)%nat -> exists r, calculate_block_at_depth (E:=E) self fuel d ty pp = Ok r.
Proof using CL.
  intros [[dp Hpp] (Hd & Hs0 & Hs) Hpt] Hb Hf. unfold calculate_block_at_depth. case_decide; [by eexists|]. fold (depth_of ty).
  destruct (Z.ltb_spec (blue_score d) (depth_of ty)) as [|Hdeep]; [by eexists|].
  assert (get_blue_score (E:=E) self pp = Ok (score_of self pp)) as -> by (unfold get_blue_score, score_of; by rewrite Hpp). cbn [mbind res_bind].
  rewrite u64_add_ok by (unfold inW; lia). cbn [mbind res_bind]. destruct (Z.ltb_spec (blue_score d) (score_of self pp + depth_of ty)); [by eexists|].
  destruct (is_chain_ancestor_of pp (selected_parent d)) eqn:Hanc; cbn [negb]; [|by eexists]. apply chain_ancestor_spec in Hanc.
  destruct (Hpt Hanc) as (Hsc & stored & Est & Hst). fold (points_of ty). rewrite Est. cbn [unwrap mbind res_bind].
  rewrite u64_sub_ok by (unfold inW; lia). cbn [mbind res_bind].
  set (c := if decide (stored = ORIGIN) then pp else stored).
  assert (on_chain pp c /\ on_chain c (selected_parent d)) as [Hc1 Hc2].
  { unfold c. case_decide as Ho; [split; [constructor|done]|]. destruct Hst; done. }
  destruct (depth_walk_ok (E:=E) self (selected_parent d) pp (blue_score d - depth_of ty) Hsc fuel c c Hc1 Hc2 (or_introl eq_refl) Hc1)
    as (r & -> & _); [lia|by eexists].
Qed.

(** C29. Depth points are found incrementally: for a block whose selected chain
    passes through the pruning point at sufficient depth, and whose selected
    parent's stored point is on that chain below the required score (or is
    [ORIGIN], for a chain that only now gets deep enough), the walk returns and
    finds the same block as a walk over the whole chain from the pruning point:
    the last one whose blue score is below the block's by more than the depth. *)
Theorem depth_point_incremental {E} fuel d ty pp stored :
  selected_parent d <> ORIGIN -> scored self (selected_parent d) pp ->
  0 <= depth_of ty -> 0 <= score_of self pp -> score_of self pp + depth_of ty < blue_score d < 2 ^ 64 ->
  points_of ty !! selected_parent d = Some stored ->
  (stored = ORIGIN \/ on_chain pp stored /\ on_chain stored (selected_parent d) /\ score_of self stored < blue_score d - depth_of ty) ->
  (chain_height (selected_parent d) < fuel)%nat ->
  exists r, calculate_block_at_depth (E:=E) self fuel d ty pp = Ok r /\
    last_below self (selected_parent d) (blue_score d - depth_of ty) pp r /\ score_of self r < blue_score d - depth_of ty.
Proof using CL.
  intros Hsp Hs Hd0 Hpp0 Hdeep Hst Hstored Hf. unfold calculate_block_at_depth. rewrite decide_False by done. fold (depth_of ty).
  rewrite (proj2 (Z.ltb_ge _ _)) by lia. pose proof (sc_chain _ _ _ Hs) as Hch.
  rewrite (get_score self _ pp Hs) by (done || constructor). cbn [mbind res_bind].
  rewrite u64_add_ok by (unfold inW; lia). cbn [mbind res_bind]. rewrite (proj2 (Z.ltb_ge _ _)) by lia.
  rewrite (proj2 (chain_ancestor_spec _ _) Hch). cbn [negb]. fold (points_of ty). rewrite Hst. cbn [unwrap mbind res_bind].
  rewrite u64_sub_ok by (unfold inW; lia). cbn [mbind res_bind].
  set (c := if decide (stored = ORIGIN) then pp else stored).
  assert (on_chain pp c /\ on_chain c (selected_parent d) /\ score_of self c < blue_score d - depth_of ty) as (Hc1 & Hc2 & Hc3).
  { unfold c. case_decide as Ho; [split_and!; [constructor|done|lia]|]. destruct Hstored; done. }
  destruct (depth_walk_ok (E:=E) self (selected_parent d) pp (blue_score d - depth_of ty) Hs fuel c c Hc1 Hc2 (or_introl eq_refl) Hc1)
    as (r & -> & H1 & H2 & H3 & H4); [lia|].
  assert (score_of self r < blue_score d - depth_of ty) as Hr by (destruct H3 as [->|]; done).
  exists r. split; [done|]. split; [|done]. split_and!; [by eapply on_chain_trans|done|by right|done].
Qed.
End depth.

(** ** Witness: a chain of three blocks above the pruning point. *)
Section witness.
Definition d_chain : ChainService := {|
  get_chain_parent b := if decide (1 < b <= 4) then Some (b - 1) else None;
  is_chain_ancestor_of a b := bool_decide (a = b \/ 1 <= a < b /\ b <= 4);
  get_next_chain_ancestor d a := if decide (1 <= a < d /\ d <= 4) then Some (a + 1) else None;
|}.
Local Existing Instance d_chain.
Lemma d_on_chain a b : on_chain a b <-> a = b \/ 1 <= a < b /\ b <= 4.
Proof.
  split.
  - induction 1 as [|b p Hp _ IH]; [by left|]. cbn in Hp. case_decide; simplify_eq. lia.
  - intros [->|H]; [constructor|]. assert (exists n : nat, b = a + Z.of_nat n) as [n ->] by (exists (Z.to_nat (b - a)); lia).
    induction n as [|n IH]; [replace (a + Z.of_nat 0) with a by lia; constructor|].
    apply (on_chain_step _ _ (a + Z.of_nat n)); [cbn; rewrite decide_True by lia; f_equal; lia|].
    destruct n as [|n]; [replace (a + Z.of_nat 0) with a by lia; constructor|]. apply IH. lia.
Qed.
Lemma d_laws : ChainLaws.
Proof.
  refine {| chain_height b := Z.to_nat b |}.
  - intros b p Hp. cbn in Hp. case_decide; simplify_eq. lia.
  - intros a b. rewrite d_on_chain. cbn. by rewrite bool_decide_eq_true.
  - intros a d Had Hne. apply d_on_chain in Had. exists (a + 1). cbn. rewrite !decide_True by lia.
    split; [done|]. split; [f_equal; lia|]. apply d_on_chain. lia.
Defined.
Local Existing Instance d_laws.
Definition d_block (score : Z) (sp : Hash) : GhostdagData := mkGhostdagData score score sp [sp] [] ∅.
Definition d_manager : BlockDepthManager := mkDepthManager 10 20 1 {[4 := 1]} {[4 := ORIGIN]}
  {[1 := d_block 100 ORIGIN; 2 := d_block 110 1; 3 := d_block 118 2; 4 := d_block 124 3]}.
Lemma depth_point_incremental_witness : exists r r', calculate_block_at_depth (E:=unit) d_manager 9 (d_block 130 4) MergeRoot 1 = Ok r /\
  score_of d_manager r < 120 /\ calculate_block_at_depth (E:=unit) d_manager 9 (d_block 130 4) Finality 1 = Ok r' /\ score_of d_manager r' < 110.
Proof.
  assert (scored d_manager 4 1) as Hs.
  { assert (forall x, on_chain 1 x -> on_chain x 4 -> x ∈ [1; 2; 3; 4]) as Hx.
    { intros x H1%d_on_chain H2%d_on_chain. rewrite !elem_of_cons. lia. }
    split.
    - apply d_on_chain. lia.
    - intros x H1 H2. specialize (Hx x H1 H2). rewrite !elem_of_cons in Hx. destruct Hx as [->|[->|[->|[->|?%elem_of_nil]]]]; [by eexists..|done].
    - intros x y H1 H2 H3. pose proof (Hx y (on_chain_trans _ _ _ H1 H2) H3) as Hy. specialize (Hx x H1 (on_chain_trans _ _ _ H2 H3)).
      apply d_on_chain in H2. rewrite !elem_of_cons in Hx, Hy.
      destruct Hx as [->|[->|[->|[->|?%elem_of_nil]]]], Hy as [->|[->|[->|[->|?%elem_of_nil]]]]; try done; lia. }
  destruct (depth_point_incremental (E:=unit) d_manager 9 (d_block 130 4) MergeRoot 1 1) as (r & E & _ & H).
  { done. } { exact Hs. } { done. } { done. } { done. } { done. }
  { right. split; [constructor|]. split; [apply d_on_chain; cbn; lia|done]. } { vm_compute. lia. }
  destruct (depth_point_incremental (E:=unit) d_manager 9 (d_block 130 4) Finality 1 ORIGIN) as (r' & E' & _ & H').
  { done. } { exact Hs. } { done. } { done. } { done. } { done. } { by left. } { vm_compute. lia. }
  exists r, r'. exact (conj E (conj H (conj E' H'))).
Defined.
End witness.
