(* ===== verification/PickParents.v ===== *)
(** * Virtual parents

    [consensus/src/pipeline/virtual_processor/processor.rs]: the parents the
    virtual block, and so a block template, merges
    ([pick_virtual_parents], [mergeset_increase],
    [remove_bounded_merge_breaking_parents]).

    The random generator is a parameter ([Rand]), with what its documentation
    says: an index in the range, a permutation.  Fuel bounds the traversal (the
    blocks of the DAG are enough) and the number of candidates taken (the sum of
    the sizes of their pasts is enough, because a rejected candidate is replaced
    by a block below it).

    The theorem: picking ends without failing an assertion; the parents are an
    antichain that starts with the selected parent, within the limits on
    parents and mergeset, and their GHOSTDAG data has that selected parent. *)
From S2P Require Import Prelude Uint Target Dag Ghostdag Chain BlockDepth.

Class Rand := {
  random_range : nat -> nat -> nat;
  shuffle : list Hash -> list Hash;
}.
Class RandLaws `{Rand} := {
  random_range_in i n : (i < n)%nat -> (i <= random_range i n < n)%nat;
  shuffle_perm l : shuffle l ≡ₚ l;
}.
Inductive MergesetIncreaseResult := Accepted (increase_size : u64) | Rejected (new_candidate : Hash).
Record ParentPicker := mkPicker {
  ghostdag_manager : GhostdagManager;
  depth_manager : BlockDepthManager;
  max_block_parents : nat;
  mergeset_size_limit : u64;
}.

Section picker.
Context {E : Type} `{RS : ReachabilityService} `{CS : ChainService} `{RN : Rand} `{HI : !HashIter Hash KType} `{SI : !SetIter Hash}.
Context (self : ParentPicker) (fuel : nat).
Abbreviation relations := (relations_store (ghostdag_manager self)).

Definition is_dag_ancestor_of_any (this : Hash) (queried : list Hash) : bool := existsb (is_dag_ancestor_of this) queried.
Definition is_any_dag_ancestor (l : list Hash) (queried : Hash) : bool := existsb (fun h => is_dag_ancestor_of h queried) l.

(** ** The increase of the mergeset *)
Fixpoint increase_loop (n : nat) (selected_parents : list Hash) (budget : u64) (queue : list Hash) (visited : gset Hash)
    (mergeset_increase : u64) : res E MergesetIncreaseResult :=
  match n with
  | O => NoFuel
  | S n =>
      match queue with
      | [] => Ok (Accepted mergeset_increase)
      | current :: queue =>
          if is_dag_ancestor_of_any current selected_parents
          then increase_loop n selected_parents budget queue visited mergeset_increase
          else
            mergeset_increase ← u64_add mergeset_increase 1;
            if budget <? mergeset_increase then Ok (Rejected current) else
            current_parents ← unwrap (relations !! current);
            let '(queue, visited) := foldl enqueue (queue, visited) current_parents in
            increase_loop n selected_parents budget queue visited mergeset_increase
      end
  end.
Definition mergeset_increase (selected_parents : list Hash) (candidate : Hash) (budget : u64) : res E MergesetIncreaseResult :=
  candidate_parents ← unwrap (relations !! candidate);
  increase_loop fuel selected_parents budget candidate_parents (list_to_set candidate_parents) 1.

(** ** Candidates *)
Definition max_virtual_parent_candidates (n : nat) : nat := (n * 3)%nat.
Definition swap (l : list Hash) (i j : nat) : res E (list Hash) :=
  a ← unwrap (l !! i); b ← unwrap (l !! j); Ok (<[i := b]> (<[j := a]> l)).
Definition prioritize (candidates : list Hash) : res E (list Hash) :=
  let half := Nat.div (max_block_parents self) 2 in
  let max_candidates := max_virtual_parent_candidates (max_block_parents self) in
  if (max_candidates <? length candidates)%nat then
    l ← res_foldl (fun l i => swap l i (random_range i (length l))) candidates (seq half (max_candidates - half));
    Ok (take max_candidates l)
  else if (half <? length candidates)%nat then Ok (take half candidates ++ shuffle (drop half candidates))
  else Ok candidates.

Fixpoint pick_loop (n : nat) (candidates virtual_parents : list Hash) (mergeset_size : u64) : res E (list Hash * u64) :=
  match n with
  | O => NoFuel
  | S n =>
      match candidates with
      | [] => Ok (virtual_parents, mergeset_size)
      | candidate :: candidates =>
          if (mergeset_size_limit self <=? mergeset_size) || (max_block_parents self <=? length virtual_parents)%nat
          then Ok (virtual_parents, mergeset_size)
          else
            budget ← u64_sub (mergeset_size_limit self) mergeset_size;
            r ← mergeset_increase virtual_parents candidate budget;
            match r with
            | Accepted increase_size =>
                mergeset_size ← u64_add mergeset_size increase_size;
                pick_loop n candidates (virtual_parents ++ [candidate]) mergeset_size
            | Rejected new_candidate =>
                if is_any_dag_ancestor candidates new_candidate then pick_loop n candidates virtual_parents mergeset_size
                else pick_loop n (filter (fun h => negb (is_dag_ancestor_of new_candidate h)) candidates ++ [new_candidate])
                       virtual_parents mergeset_size
            end
      end
  end.

(** ** Merge bound *)
Definition bad_red (d : GhostdagData) (merge_depth_root red : Hash) : bool :=
  negb (is_dag_ancestor_of merge_depth_root red) && negb (is_dag_ancestor_of_any red (kosherizing_blues d merge_depth_root)).
Definition remove_bounded_merge_breaking_parents (virtual_parents : list Hash) (current_pruning_point : Hash)
    : res E (list Hash * GhostdagData) :=
  d ← ghostdag (ghostdag_manager self) virtual_parents;
  merge_depth_root ← calc_merge_depth_root (depth_manager self) fuel d current_pruning_point;
  let bad_reds := filter (fun red => bad_red d merge_depth_root red) (mergeset_reds d) in
  if decide (bad_reds = []) then Ok (virtual_parents, d) else
  let virtual_parents := filter (fun h => negb (is_any_dag_ancestor bad_reds h)) virtual_parents in
  d ← ghostdag (ghostdag_manager self) virtual_parents;
  Ok (virtual_parents, d).
Definition pick_virtual_parents (n : nat) (selected_parent : Hash) (candidates : list Hash) (pruning_point : Hash)
    : res E (list Hash * GhostdagData) :=
  candidates ← prioritize candidates;
  '(virtual_parents, mergeset_size) ← pick_loop n candidates [selected_parent] 1;
  _ ← rassert (mergeset_size <=? mergeset_size_limit self);
  _ ← rassert (length virtual_parents <=? max_block_parents self)%nat;
  remove_bounded_merge_breaking_parents virtual_parents pruning_point.
End picker.

(** ** Cones *)
Section cones.
Context `{RS : ReachabilityService} `{RL : !ReachabilityLaws} (gm : GhostdagManager).
Abbreviation S := (ghostdag_store gm).
Abbreviation rel := (relations_store gm).
Context (Hrel : relations_ok S rel) (Hnd : forall h ps, rel !! h = Some ps -> NoDup ps).
Abbreviation reach := is_dag_ancestor_of.

Lemma past_dom x h : h ∈ dom S -> reach x h = true -> x ∈ dom S.
Proof using Hrel RL.
  intros Hh. revert h Hh. apply (past_ind gm Hrel (fun h => reach x h = true -> x ∈ dom S)).
  intros h ps Hh Hps IH Hx. destruct (Hrel h Hh) as (ps' & Hps' & _ & Hiff). rewrite Hps in Hps'. injection Hps' as <-.
  apply Hiff in Hx as [->|(p & Hp & Hxp)]; [done|]. by apply (IH p Hp).
Qed.
(** The stored blocks below (or equal to) a list of blocks. *)
Definition cone (ps : list Hash) : gset Hash := filter (fun x => is_dag_ancestor_of_any x ps = true) (dom S).
Lemma any_spec x ps : is_dag_ancestor_of_any x ps = true <-> exists p, p ∈ ps /\ reach x p = true.
Proof. unfold is_dag_ancestor_of_any. rewrite existsb_exists. by setoid_rewrite <- list_elem_of_In. Qed.
Lemma elem_of_cone x ps : (forall p, p ∈ ps -> p ∈ dom S) -> x ∈ cone ps <-> exists p, p ∈ ps /\ reach x p = true.
Proof using Hrel RL.
  intros Hps. unfold cone. rewrite elem_of_filter, any_spec. split; [by intros [? _]|]. intros H. split; [done|].
  destruct H as (p & Hp & Hr). by eapply past_dom; [apply Hps|].
Qed.

Section increase.
Context {E : Type} (self : ParentPicker) (Hself : ghostdag_manager self = gm) (fuel : nat).
Context (Hfuel : (size (dom S) < fuel)%nat) (Hsize : Z.of_nat (size (dom S)) + 1 < 2 ^ 64).
Context (sps : list Hash) (c : Hash) (cps : list Hash) (budget : u64).
Context (Hsps : forall p, p ∈ sps -> p ∈ dom S) (Hc : c ∈ dom S) (Hcps : rel !! c = Some cps) (Hout : is_dag_ancestor_of_any c sps = false).
Context (Hbudget : 1 <= budget).
Abbreviation skip := (fun x => is_dag_ancestor_of_any x sps).

Lemma parents_of h ps : h ∈ dom S -> rel !! h = Some ps -> (forall p, p ∈ ps -> p ∈ dom S /\ reach p h = true /\ p <> h) /\
  forall a, reach a h = true <-> a = h \/ exists p, p ∈ ps /\ reach a p = true.
Proof using Hrel RL.
  intros Hh Hps. destruct (Hrel h Hh) as (ps' & Hps' & Hp & Hiff). rewrite Hps in Hps'. injection Hps' as <-. split; [|done].
  intros p Hin. destruct (Hp p Hin). split_and!; [done| |done]. apply Hiff. right. exists p. split; [done|apply reach_refl].
Qed.
Lemma increase_ready : search_ready rel cps skip (dom S).
Proof using Hrel Hnd Hc Hcps RL.
  destruct (parents_of c cps Hc Hcps) as [Hp _]. split.
  - by eapply Hnd.
  - intros x y Hxy (p & Hin & Hyp)%any_spec. apply any_spec. exists p. split; [done|]. by eapply reach_trans.
  - intros x Hx. by apply Hp.
  - intros x (p & Hin & Hxp) _. destruct (Hp p Hin) as (Hpd & _). assert (x ∈ dom S) as Hx by (by eapply past_dom).
    destruct (Hrel x Hx) as (ps & Hps & _). destruct (parents_of x ps Hx Hps) as [Hpp Hiff]. exists ps. split_and!; [done..|]. intros a. apply Hiff.
Qed.
(** The blocks that merging [c] adds. *)
Definition gain : gset Hash := cone [c] ∖ cone sps.
Lemma elem_of_gain x : x ∈ gain <-> reach x c = true /\ is_dag_ancestor_of_any x sps = false.
Proof using Hrel Hsps Hc RL.
  unfold gain. rewrite elem_of_difference, !elem_of_cone by (done || by intros p ->%list_elem_of_singleton).
  rewrite <- !any_spec, not_true_iff_false. unfold is_dag_ancestor_of_any at 1. cbn [existsb]. by rewrite orb_false_r.
Qed.
Lemma gain_size : size gain = (1 + length (members cps skip (dom S)))%nat.
Proof using Hrel Hsps Hc Hcps Hout RL.
  destruct (parents_of c cps Hc Hcps) as [Hp Hiff].
  assert (NoDup (c :: members cps skip (dom S))) as Hn.
  { apply NoDup_cons. split; [|apply NoDup_filter, NoDup_elements]. intros (_ & (p & Hin & Hr) & _)%elem_of_members.
    destruct (Hp p Hin) as (_ & Hpc & Hne). apply Hne. by apply reach_antisym. }
  change (1 + length (members cps skip (dom S)))%nat with (length (c :: members cps skip (dom S))).
  rewrite <- (size_list_to_set (C:=gset Hash) _ Hn). f_equal. apply set_eq. intros x.
  rewrite elem_of_gain, elem_of_list_to_set, elem_of_cons, elem_of_members. split.
  - intros [Hr Hs]. apply Hiff in Hr as [->|(p & Hin & Hr)]; [by left|right]. split_and!; [|by exists p|done]. by eapply past_dom; [apply Hp|].
  - intros [->|(_ & (p & Hin & Hr) & Hs)]; [split; [apply reach_refl|done]|]. split; [|done]. apply Hiff. right. eauto.
Qed.

Lemma increase_loop_ok : forall n queue visited popped, bfs_state rel cps skip (dom S) queue visited popped ->
  (size (dom S) < n + length popped)%nat -> 1 + zlen (outside skip popped) <= budget ->
  if budget <? Z.of_nat (size gain)
  then exists x, increase_loop (E:=E) self n sps budget queue visited (1 + zlen (outside skip popped)) = Ok (Rejected x) /\
         reach x c = true /\ x <> c /\ is_dag_ancestor_of_any x sps = false
  else increase_loop (E:=E) self n sps budget queue visited (1 + zlen (outside skip popped)) = Ok (Accepted (Z.of_nat (size gain))).
Proof using Hself Hrel Hnd Hsize Hsps Hc Hcps Hout Hfuel Hbudget RL.
  pose proof gain_size as Hg. pose proof increase_ready as Hs.
  induction n as [|n IH]; intros queue visited popped Hb Hf Hcount; pose proof (bfs_length _ _ _ _ _ _ _ Hb) as Hlen; [lia|].
  cbn [increase_loop]. destruct queue as [|cur queue].
  { pose proof (bfs_members _ _ _ _ Hs _ _ Hb) as Hp%Permutation_length. unfold zlen in *. rewrite Hg, (proj2 (Z.ltb_ge _ _)) by lia. do 2 f_equal. lia. }
  pose proof (outside_snoc skip popped cur) as Eo. cbv beta in Eo. destruct (is_dag_ancestor_of_any cur sps) eqn:Hcur.
  { rewrite app_nil_r in Eo. rewrite <- Eo. apply IH; [by apply bfs_skip|rewrite length_app; cbn; lia|by rewrite Eo]. }
  assert (below cps cur) as Hbelow by (apply (bf_below _ _ _ _ _ _ _ Hb), (bf_visited _ _ _ _ _ _ _ Hb); left).
  destruct (se_parents _ _ _ _ Hs cur Hbelow Hcur) as (ps & Hps & _).
  destruct (bfs_expand _ _ _ _ Hs cur queue visited popped ps Hb Hcur Hps) as (q & v & Eq & Hb').
  pose proof (outside_members _ _ _ _ _ _ _ Hb') as Hsub%submseteq_length.
  assert (zlen (outside skip (popped ++ [cur])) = zlen (outside skip popped) + 1) as Ez by (rewrite Eo; unfold zlen; rewrite length_app; cbn; lia).
  pose proof (length_filter (fun x => negb (is_dag_ancestor_of_any x sps)) popped) as Hfl. cbn [length] in Hlen.
  rewrite u64_add_ok by (unfold outside, zlen, inW in *; lia). cbn [mbind res_bind].
  replace (1 + zlen (outside skip popped) + 1) with (1 + zlen (outside skip (popped ++ [cur]))) by lia.
  destruct (Z.ltb_spec budget (1 + zlen (outside skip (popped ++ [cur])))) as [Hlt|Hge].
  - rewrite (proj2 (Z.ltb_lt _ _)) by (unfold zlen in *; lia). exists cur. split; [done|]. destruct Hbelow as (p & Hin & Hr).
    destruct (parents_of c cps Hc Hcps) as [Hp _]. destruct (Hp p Hin) as (_ & Hpc & Hne). split_and!; [by eapply reach_trans| |done].
    intros ->. apply Hne. by apply reach_antisym.
  - rewrite Hself, Hps. cbn [unwrap mbind res_bind]. rewrite Eq. apply IH; [done|rewrite length_app; cbn; lia|done].
Qed.
Lemma mergeset_increase_ok :
  if budget <? Z.of_nat (size gain)
  then exists x, mergeset_increase (E:=E) self fuel sps c budget = Ok (Rejected x) /\ reach x c = true /\ x <> c /\ is_dag_ancestor_of_any x sps = false
  else mergeset_increase (E:=E) self fuel sps c budget = Ok (Accepted (Z.of_nat (size gain))).
Proof using Hself Hrel Hnd Hsize Hsps Hc Hcps Hout Hfuel Hbudget RL.
  unfold mergeset_increase. rewrite Hself, Hcps. cbn [unwrap mbind res_bind].
  apply (increase_loop_ok fuel cps (list_to_set cps) []); [apply bfs_start, increase_ready|cbn; lia|change (1 + 0 <= budget); lia].
Qed.
End increase.
End cones.

(** ** Priorities *)
Section priorities.
Context `{RN : Rand} `{RNL : !RandLaws} (self : ParentPicker).
Lemma swap_ok (l : list Hash) i j : (i < length l)%nat -> (j < length l)%nat -> exists l', swap (E:=Empty_set) l i j = Ok l' /\ l' ≡ₚ l.
Proof.
  intros Hi Hj. unfold swap. apply lookup_lt_is_Some in Hi as [a Ea], Hj as [b Eb]. rewrite Ea, Eb. cbn [unwrap mbind res_bind].
  eexists. split; [done|]. by apply Permutation_insert_swap.
Qed.
Lemma swaps_ok : forall n i (l : list Hash), (i + n <= length l)%nat ->
  exists l', res_foldl (E:=Empty_set) (fun l i => swap l i (random_range i (length l))) l (seq i n) = Ok l' /\ l' ≡ₚ l.
Proof using RNL.
  induction n as [|n IH]; intros i l Hl; [by exists l|]. cbn [seq res_foldl].
  destruct (random_range_in i (length l)) as [_ Hr]; [lia|]. destruct (swap_ok l i (random_range i (length l))) as (l1 & -> & Hp1); [lia|lia|].
  cbn [mbind res_bind]. destruct (IH (S i) l1) as (l2 & -> & Hp2); [rewrite Hp1; lia|]. exists l2. split; [done|]. by rewrite Hp2.
Qed.
Lemma prioritize_ok cands : exists l k, prioritize (E:=Empty_set) self cands = Ok l /\ l ++ k ≡ₚ cands.
Proof using RNL.
  unfold prioritize, max_virtual_parent_candidates. set (half := Nat.div (max_block_parents self) 2).
  assert (half <= max_block_parents self)%nat as Hh by (apply Nat.Div0.div_le_upper_bound; lia).
  destruct (Nat.ltb_spec (max_block_parents self * 3) (length cands)) as [H|H].
  - destruct (swaps_ok (max_block_parents self * 3 - half) half cands) as (l & -> & Hp); [lia|]. cbn [mbind res_bind].
    eexists _, (drop (max_block_parents self * 3) l). split; [done|]. by rewrite take_drop.
  - destruct (Nat.ltb_spec half (length cands)); [|exists cands, []; split; [done|by rewrite app_nil_r]].
    eexists _, []. split; [done|]. rewrite app_nil_r, shuffle_perm. by rewrite take_drop.
Qed.
End priorities.

(** ** Picking *)
Section picking.
Context `{RS : ReachabilityService} `{RL : !ReachabilityLaws}.
Context (self : ParentPicker) (sp : Hash) (W : Z).
Abbreviation gm := (ghostdag_manager self).
Abbreviation S := (ghostdag_store gm).
Abbreviation rel := (relations_store gm).
Abbreviation reach := is_dag_ancestor_of.
Context (Hadm : admissible gm [sp] W).

(** The mergeset over [sp] of the parents [ps]. *)
Definition mergeset (ps : list Hash) : gset Hash := cone gm ps ∖ cone gm [sp].
Record picking (cands ps : list Hash) (n : Z) : Prop := {
  pk_first : exists rest, ps = sp :: rest;
  pk_dom x : x ∈ ps ++ cands -> x ∈ dom S;
  pk_antichain : antichain (ps ++ cands);
  pk_size : n = 1 + Z.of_nat (size (mergeset ps));
  pk_limits : n <= mergeset_size_limit self /\ (length ps <= max_block_parents self)%nat;
  pk_best x : x ∈ ps ++ cands -> sortable_le (key gm x) (key gm sp);
}.
Definition past_size (c : Hash) : nat := size (cone gm [c]).
Definition budget_of (cands : list Hash) : nat := list_sum (map (fun c => 1 + past_size c)%nat cands).

Lemma in_cone x ps : (forall p, p ∈ ps -> p ∈ dom S) -> x ∈ cone gm ps <-> exists p, p ∈ ps /\ reach x p = true.
Proof using Hadm RL. apply elem_of_cone, Hadm. Qed.
Lemma past_size_lt x c : c ∈ dom S -> reach x c = true -> x <> c -> (past_size x < past_size c)%nat.
Proof using Hadm RL.
  intros Hc Hr Hne. assert (x ∈ dom S) as Hx by (eapply (past_dom gm); [apply Hadm|exact Hc|exact Hr]).
  unfold past_size. apply subset_size. split.
  - intros y. rewrite !in_cone by (by intros p ->%list_elem_of_singleton). intros (p & ->%list_elem_of_singleton & Hy). exists c. split; [left|by eapply reach_trans].
  - intros Hsub. assert (c ∈ cone gm [x]) as Hin.
    { apply Hsub, in_cone; [by intros p ->%list_elem_of_singleton|]. exists c. split; [left|apply reach_refl]. }
    apply in_cone in Hin as (p & ->%list_elem_of_singleton & Hcx); [|by intros p ->%list_elem_of_singleton]. apply Hne. by apply reach_antisym.
Qed.
Lemma mergeset_add ps c : (forall p, p ∈ ps -> p ∈ dom S) -> c ∈ dom S -> sp ∈ ps ->
  size (mergeset (ps ++ [c])) = (size (mergeset ps) + size (cone gm [c] ∖ cone gm ps))%nat.
Proof using Hadm RL.
  intros Hps Hc Hin. rewrite <- size_union.
  - f_equal. apply set_eq. intros x. unfold mergeset. rewrite !elem_of_union, !elem_of_difference.
    rewrite (in_cone x (ps ++ [c])) by (intros p [Hp| ->%list_elem_of_singleton]%elem_of_app; auto).
    rewrite (in_cone x ps), (in_cone x [c]), (in_cone x [sp]) by (try done; by intros p ->%list_elem_of_singleton; auto).
    setoid_rewrite elem_of_app. setoid_rewrite list_elem_of_singleton. destruct (decide (is_dag_ancestor_of_any x ps = true)) as [Hd|Hd]; rewrite any_spec in Hd.
    + naive_solver.
    + split; [naive_solver|]. intros [?|[(p & -> & ?) _]]; [naive_solver|]. split; [eauto|]. intros (q & -> & ?). apply Hd. eauto.
  - intros x. unfold mergeset. set_solver.
Qed.

Lemma picking_drop c cands ps n : picking (c :: cands) ps n -> picking cands ps n.
Proof.
  intros [H1 H2 H3 H4 H5 H6]. assert (forall x, x ∈ ps ++ cands -> x ∈ ps ++ c :: cands) as Hsub by (intros x; rewrite !elem_of_app, elem_of_cons; tauto).
  split; try done; [by intros x ?%Hsub; apply H2| |by intros x ?%Hsub; apply H6].
  eapply antichain_sublist; [|exact H3]. apply sublist_app; [done|]. by apply sublist_cons.
Qed.
Lemma picking_accept c cands ps n : picking (c :: cands) ps n -> n + Z.of_nat (size (gain gm ps c)) <= mergeset_size_limit self ->
  (length ps < max_block_parents self)%nat -> picking cands (ps ++ [c]) (n + Z.of_nat (size (gain gm ps c))).
Proof using Hadm RL.
  intros [[rest ->] H2 H3 H4 H5 H6] Hl Hm. assert ((sp :: rest) ++ c :: cands = ((sp :: rest) ++ [c]) ++ cands) as E by (by rewrite <- app_assoc).
  rewrite E in *. split; try done.
  - by exists (rest ++ [c]).
  - rewrite mergeset_add; [unfold gain; lia|..|left].
    + intros p Hp. apply H2. apply elem_of_app. left. apply elem_of_app. by left.
    + apply H2. apply elem_of_app. left. apply elem_of_app. right. left.
  - rewrite length_app. cbn [length] in *. split; [done|lia].
Qed.
Lemma any_false x ps p : is_dag_ancestor_of_any x ps = false -> p ∈ ps -> reach x p = false.
Proof. intros H Hp. destruct (reach x p) eqn:E; [|done]. rewrite <- H. symmetry. apply any_spec. eauto. Qed.
Lemma any_ancestor_false l x h : is_any_dag_ancestor l x = false -> h ∈ l -> reach h x = false.
Proof.
  intros H Hh. destruct (reach h x) eqn:E; [|done]. rewrite <- H. symmetry. unfold is_any_dag_ancestor. apply existsb_exists. exists h.
  split; [by apply list_elem_of_In|done].
Qed.
Lemma below_best x c : c ∈ dom S -> reach x c = true -> x <> c -> reach x sp = false -> sortable_le (key gm x) (key gm c).
Proof using Hadm RL.
  intros Hc Hr Hne Hout. assert (x ∈ dom S) as Hx by (eapply (past_dom gm); [apply Hadm|exact Hc|exact Hr]).
  apply elem_of_dom in Hc as [dc Ec], Hx as [dx Ex]. assert (x <> ORIGIN) as Ho.
  { intros ->. destruct (good_root _ _ _ (adm_good _ _ _ Hadm) ORIGIN dx (or_intror eq_refl) Ex) as [_ H].
    rewrite H in Hout; [done|apply (adm_par _ _ _ Hadm); left|by left]. }
  pose proof (good_work _ _ _ (adm_good _ _ _ Hadm) x c dx dc Ex Ec Ho Hr Hne) as Hw. apply sortable_le_spec. left.
  unfold key. by rewrite Ex, Ec.
Qed.
Lemma picking_replace c x cands ps n : picking (c :: cands) ps n -> reach x c = true -> x <> c -> is_dag_ancestor_of_any x ps = false ->
  is_any_dag_ancestor cands x = false -> picking (filter (fun h => negb (reach x h)) cands ++ [x]) ps n.
Proof using Hadm RL.
  intros Hp Hr Hne Hany Hanc. pose proof (picking_drop _ _ _ _ Hp) as [H1 H2 H3 H4 H5 H6]. destruct Hp as [_ G2 G3 _ _ G6].
  destruct H1 as [rest Eps]. assert (c ∈ ps ++ c :: cands) as Hin by (apply elem_of_app; right; left).
  assert (reach x sp = false) as Hxsp by (apply (any_false x ps); [done|rewrite Eps; left]).
  assert (forall y, y ∈ ps ++ filter (fun h => negb (reach x h)) cands ++ [x] -> y = x \/ y ∈ ps ++ cands) as Hsub.
  { intros y. rewrite !elem_of_app, list_elem_of_filter, list_elem_of_singleton. tauto. }
  split; try done.
  - by exists rest.
  - intros y [->|Hy]%Hsub; [|by apply H2]. eapply (past_dom gm); [apply Hadm| |exact Hr]. by apply G2.
  - apply (antichain_perm (x :: ps ++ filter (fun h => negb (reach x h)) cands)).
    { rewrite app_assoc, <- Permutation_cons_append. done. }
    apply antichain_cons. split_and!.
    + intros [Hy|[Hy _]%list_elem_of_filter]%elem_of_app.
      * pose proof (any_false x ps x Hany Hy) as Hf. by rewrite reach_refl in Hf.
      * by rewrite reach_refl in Hy.
    + intros y [Hy|[Hf Hy]%list_elem_of_filter]%elem_of_app.
      * split; [by apply (any_false x ps)|]. destruct (reach y x) eqn:Hyx; [|done]. exfalso.
        destruct G3 as [Gn Ga]. assert (y <> c) as Hyc.
        { intros ->. rewrite NoDup_app in Gn. destruct Gn as (_ & Gn & _). apply (Gn c Hy). left. }
        pose proof (Ga y c ltac:(apply elem_of_app; by left) Hin Hyc) as Hf. by rewrite (reach_trans y x c Hyx Hr) in Hf.
      * split; [by destruct (reach x y)|by apply (any_ancestor_false cands)].
    + eapply antichain_sublist; [|exact H3]. apply sublist_app; [done|]. apply sublist_filter.
  - intros y [->|Hy]%Hsub; [|by apply H6]. etrans; [apply (below_best x c); [by apply G2|done..]|by apply G6].
Qed.
Context `{CS : ChainService} `{CL : !ChainLaws} `{RN : Rand} `{RNL : !RandLaws} `{HI : !HashIter Hash KType} `{SI : !SetIter Hash}.
Context (fuel : nat) (Hnd : forall h ps, rel !! h = Some ps -> NoDup ps) (Hsp : sp <> ORIGIN).
Context (Hfuel : (size (dom S) < fuel)%nat) (Hsize : Z.of_nat (size (dom S)) + 1 < 2 ^ 64).
Context (Hlimit : 1 <= mergeset_size_limit self < 2 ^ 64) (Hmax : (1 <= max_block_parents self)%nat).

Lemma budget_cons c l : budget_of (c :: l) = (1 + past_size c + budget_of l)%nat.
Proof. done. Qed.
Lemma budget_filter x cands : (budget_of (filter (fun h => negb (reach x h)) cands) <= budget_of cands)%nat.
Proof.
  induction cands as [|c l IH]; [done|]. rewrite filter_cons, (budget_cons c l). case_decide; rewrite ?budget_cons; lia.
Qed.
Lemma budget_app l k : budget_of (l ++ k) = (budget_of l + budget_of k)%nat.
Proof. unfold budget_of. by rewrite map_app, list_sum_app. Qed.
Lemma pick_loop_ok : forall n cands ps size, picking cands ps size -> (budget_of cands < n)%nat ->
  exists ps' size', pick_loop (E:=Empty_set) self fuel n cands ps size = Ok (ps', size') /\ picking [] ps' size'.
Proof using Hadm Hnd Hfuel Hsize Hlimit Hmax RL.
  assert (forall cands ps size, picking cands ps size -> picking [] ps size) as Hempty.
  { intros cands. induction cands as [|c cands IH]; [done|]. intros ps size Hp. by eapply IH, picking_drop. }
  induction n as [|n IH]; intros cands ps size Hp Hn; [lia|]. cbn [pick_loop]. destruct cands as [|c cands]; [by exists ps, size|].
  destruct (_ || _) eqn:Hfull; [exists ps, size; split; [done|by eapply Hempty]|]. apply orb_false_iff in Hfull as [Hf1%Z.leb_gt Hf2%Nat.leb_gt].
  pose proof (pk_size _ _ _ Hp) as Hsz. rewrite u64_sub_ok by (unfold inW; lia). cbn [mbind res_bind].
  assert (c ∈ dom S) as Hc by (apply (pk_dom _ _ _ Hp), elem_of_app; right; left).
  destruct (adm_rel _ _ _ Hadm c Hc) as (cps & Hcps & _).
  assert (is_dag_ancestor_of_any c ps = false) as Hout.
  { destruct (is_dag_ancestor_of_any c ps) eqn:E; [|done]. apply any_spec in E as (p & Hpp & Hr). destruct (pk_antichain _ _ _ Hp) as [Hndp Ha].
    assert (c <> p) as Hne. { intros ->. rewrite NoDup_app in Hndp. destruct Hndp as (_ & Hd & _). apply (Hd p Hpp). left. }
    rewrite (Ha c p) in Hr; [done|apply elem_of_app; right; left|apply elem_of_app; by left|done]. }
  pose proof (mergeset_increase_ok gm (adm_rel _ _ _ Hadm) Hnd (E:=Empty_set) self eq_refl fuel Hfuel Hsize ps c cps (mergeset_size_limit self - size)) as Hi.
  specialize (Hi ltac:(intros p Hpp; apply (pk_dom _ _ _ Hp), elem_of_app; by left) Hc Hcps Hout ltac:(lia)).
  rewrite budget_cons in Hn.
  destruct (Z.ltb_spec (mergeset_size_limit self - size) (Z.of_nat (base.size (gain gm ps c)))) as [Hlt|Hge].
  - destruct Hi as (x & -> & Hr & Hne & Hany). cbn [mbind res_bind]. destruct (is_any_dag_ancestor cands x) eqn:Hanc.
    + apply IH; [by eapply picking_drop|lia].
    + apply IH; [by eapply picking_replace|]. rewrite budget_app. pose proof (budget_filter x cands). pose proof (past_size_lt x c Hc Hr Hne).
      rewrite budget_cons. unfold budget_of at 2. cbn. lia.
  - rewrite Hi. cbn [mbind res_bind]. rewrite u64_add_ok by (unfold inW; lia). cbn [mbind res_bind].
    apply IH; [|lia]. apply picking_accept; [done|lia|done].
Qed.

(** ** The parents' GHOSTDAG data *)
Record picked (ps : list Hash) : Prop := {
  pd_first : exists rest, ps = sp :: rest;
  pd_dom x : x ∈ ps -> x ∈ dom S;
  pd_antichain : antichain ps;
  pd_best x : x ∈ ps -> sortable_le (key gm x) (key gm sp);
}.
Lemma picking_picked ps n : picking [] ps n -> picked ps.
Proof. intros [H1 H2 H3 _ _ H6]. rewrite app_nil_r in *. by split. Qed.
Lemma elem_of_mergeset ps x : (forall p, p ∈ ps -> p ∈ dom S) -> x ∈ mergeset ps <-> merged sp ps x.
Proof using Hadm RL.
  intros Hps. unfold mergeset, merged. rewrite elem_of_difference, in_cone, in_cone by (done || (intros p ->%list_elem_of_singleton; apply Hadm; left)).
  split.
  - intros [H1 H2]. split; [|done]. destruct (reach x sp) eqn:E; [|done]. destruct H2. exists sp. split; [left|done].
  - intros [H1 H2]. split; [done|]. intros (p & ->%list_elem_of_singleton & H). congruence.
Qed.
Lemma ghostdag_picked ps : picked ps -> exists d, ghostdag (E:=Empty_set) gm ps = Ok d /\ selected_parent d = sp /\
  zlen (unordered_mergeset d) = 1 + Z.of_nat (size (mergeset ps)) /\ (forall x, x ∈ mergeset_reds d -> reach x sp = false) /\ blue_score d < 2 ^ 64.
Proof using Hadm Hsp Hfuel Hmax RL.
  intros [[rest E] Hdom Hanti Hbest]. assert (sp ∈ ps) as Hin by (rewrite E; left).
  assert (admissible gm ps W) as Ha.
  { destruct Hadm. split; try done; [by rewrite E|]. apply Hanti. }
  destruct (ghostdag_total gm ps W Ha) as (d & l & cs & bl & Ed & Hres & Hsc). exists d. split; [done|].
  assert (selected_parent d = sp) as Esp.
  { pose proof (gr_max _ _ _ _ _ _ Hres sp Hin) as H1. pose proof (Hbest _ (gr_sp _ _ _ _ _ _ Hres)) as H2.
    pose proof (anti_symm sortable_le _ _ H1 H2) as H. by injection H as ->. }
  split; [done|]. rewrite Esp in Hsc. destruct (Hsc Hsp) as (spd & Espd & Ebs & _). destruct Hres as [_ _ _ _ Hb Hbl Hrd Hperm Hndc Hm _ Hlen].
  rewrite Esp in *. assert (list_to_set cs = mergeset ps) as Eset.
  { apply set_eq. intros x. by rewrite elem_of_list_to_set, Hm, elem_of_mergeset. }
  split_and!.
  - rewrite <- Eset, size_list_to_set by done. apply Permutation_length in Hperm. unfold unordered_mergeset, zlen. rewrite Hb. cbn [app length]. rewrite Hperm. lia.
  - intros x Hx. eapply elem_of_sublist in Hx; [|exact Hrd]. apply Hm in Hx. apply Hx.
  - destruct (adm_room _ _ _ Ha sp spd Espd) as (H0 & H1 & _). lia.
Qed.
Lemma picked_filter ps f : picked ps -> f sp = true -> picked (filter (fun h => f h) ps).
Proof.
  intros [[rest ->] Hdom Hanti Hbest] Hf. split.
  - exists (filter (fun h => f h) rest). rewrite filter_cons. by rewrite decide_True by (by rewrite Hf).
  - intros x [_ Hx]%list_elem_of_filter. by apply Hdom.
  - eapply antichain_sublist; [|exact Hanti]. apply sublist_filter.
  - intros x [_ Hx]%list_elem_of_filter. by apply Hbest.
Qed.
Lemma mergeset_mono ps ps' : (forall p, p ∈ ps -> p ∈ dom S) -> ps' ⊆ ps -> (size (mergeset ps') <= size (mergeset ps))%nat.
Proof using Hadm RL.
  intros Hps Hsub. apply subseteq_size. intros x. rewrite !elem_of_mergeset; [|done|by intros p ?%Hsub; apply Hps].
  intros [H (p & Hp & Hr)]. split; [done|]. exists p. split; [by apply Hsub|done].
Qed.


(** ** Removing the parents that break the merge bound *)
Context (pp : Hash) (Hdepth : depth_ready (depth_manager self) MergeRoot sp pp) (Hheight : (chain_height sp < fuel)%nat).
Lemma remove_breaking_ok ps : picked ps -> exists ps' d, remove_bounded_merge_breaking_parents (E:=Empty_set) self fuel ps pp = Ok (ps', d) /\
  picked ps' /\ ps' `sublist_of` ps /\ ghostdag (E:=Empty_set) gm ps' = Ok d /\ selected_parent d = sp /\
  zlen (unordered_mergeset d) = 1 + Z.of_nat (size (mergeset ps')).
Proof using Hadm Hsp Hdepth Hheight Hfuel Hmax RL CL.
  intros Hp. destruct (ghostdag_picked ps Hp) as (d & Ed & Esp & Hlen & Hred & Hbs). unfold remove_bounded_merge_breaking_parents. rewrite Ed. cbn [mbind res_bind].
  unfold calc_merge_depth_root. rewrite <- Esp in Hdepth, Hheight.
  destruct (block_at_depth_total (E:=Empty_set) (depth_manager self) fuel d MergeRoot pp Hdepth Hbs Hheight) as (mdr & ->). cbn [mbind res_bind].
  case_decide as Hbad; [exists ps, d; split_and!; done|].
  set (bad := filter (fun red => bad_red d mdr red) (mergeset_reds d)).
  assert (picked (filter (fun h => negb (is_any_dag_ancestor bad h)) ps)) as Hp'.
  { apply (picked_filter ps (fun h => negb (is_any_dag_ancestor bad h))); [done|]. destruct (is_any_dag_ancestor bad sp) eqn:E; [|done].
    apply existsb_exists in E as (x & Hx & Hr). apply list_elem_of_In, list_elem_of_filter in Hx as [_ Hx]. by rewrite (Hred x Hx) in Hr. }
  destruct (ghostdag_picked _ Hp') as (d' & Ed' & Esp' & Hlen' & _). rewrite Ed'. cbn [mbind res_bind].
  eexists _, d'. split; [done|]. split_and!; try done. apply sublist_filter.
Qed.
Lemma pick_ok n cands : (forall x, x ∈ cands -> x ∈ dom S) -> antichain (sp :: cands) -> (forall x, x ∈ cands -> sortable_le (key gm x) (key gm sp)) ->
  (budget_of cands < n)%nat ->
  exists ps d, pick_virtual_parents (E:=Empty_set) self fuel n sp cands pp = Ok (sp :: ps, d) /\
    picked (sp :: ps) /\ (length (sp :: ps) <= max_block_parents self)%nat /\ ghostdag (E:=Empty_set) gm (sp :: ps) = Ok d /\ selected_parent d = sp /\
    zlen (unordered_mergeset d) = 1 + Z.of_nat (size (mergeset (sp :: ps))) /\ zlen (unordered_mergeset d) <= mergeset_size_limit self.
Proof using Hadm Hnd Hsp Hfuel Hsize Hlimit Hmax Hdepth Hheight RL CL RNL.
  intros Hdom Hanti Hbest Hn. unfold pick_virtual_parents. destruct (prioritize_ok self cands) as (l & k & -> & Hperm). cbn [mbind res_bind].
  assert (forall x, x ∈ l -> x ∈ cands) as Hsub by (intros x Hx; rewrite <- Hperm; apply elem_of_app; by left).
  assert (sp ∈ dom S) as Hspd by (apply Hadm; left).
  assert (picking l [sp] 1) as Hpk.
  { assert (size (mergeset [sp]) = 0)%nat as E0 by (apply size_empty_iff; unfold mergeset; set_solver). split.
    - by exists [].
    - intros x [->%list_elem_of_singleton|Hx]%elem_of_app; [done|by apply Hdom, Hsub].
    - apply (antichain_sublist _ ([sp] ++ l ++ k)); [apply sublist_app; [done|by apply sublist_inserts_r]|]. eapply antichain_perm; [|exact Hanti]. cbn [app]. by rewrite Hperm.
    - rewrite E0. done.
    - cbn [length]. split; [lia|done].
    - intros x [->%list_elem_of_singleton|Hx]%elem_of_app; [done|by apply Hbest, Hsub]. }
  assert (budget_of l < n)%nat as Hn'.
  { assert (budget_of (l ++ k) = budget_of cands) as Eb by (unfold budget_of; by rewrite Hperm). rewrite budget_app in Eb. lia. }
  destruct (pick_loop_ok n l [sp] 1 Hpk Hn') as (ps & m & -> & Hend). cbn [mbind res_bind]. pose proof (picking_picked _ _ Hend) as Hps.
  destruct Hend as [_ _ _ Hm [Hlim Hcount] _]. rewrite (proj2 (Z.leb_le _ _) Hlim), (proj2 (Nat.leb_le _ _) Hcount). cbn [rassert mbind res_bind].
  destruct (remove_breaking_ok ps Hps) as (ps' & d & Er & Hps' & Hsl & Ed & Esp & Hlen). destruct (pd_first _ Hps') as [rest ->].
  exists rest, d. rewrite Er. split_and!; try done.
  - apply sublist_length in Hsl. lia.
  - rewrite Hlen. pose proof (mergeset_mono ps (sp :: rest) (pd_dom _ Hps)) as Hmono. specialize (Hmono ltac:(intros x Hx; by eapply elem_of_sublist)). lia.
Qed.

(** C22. Picking virtual parents ends within the limits: for a sink and the
    candidates that the sink search leaves (an antichain with the sink, none of
    greater blue work), whatever the random choices, [pick_virtual_parents]
    returns and no assertion fails; the parents start with the sink, are an
    antichain and at most [max_block_parents]; the GHOSTDAG data is that of the
    parents, has the sink as selected parent, and its mergeset, which is exactly
    what the parents add to the past of the sink, is within the size limit. *)
Theorem pick_parents_within_limits n cands : (forall x, x ∈ cands -> x ∈ dom S) -> antichain (sp :: cands) ->
  (forall x, x ∈ cands -> sortable_le (key gm x) (key gm sp)) -> (budget_of cands < n)%nat ->
  exists ps d, pick_virtual_parents (E:=Empty_set) self fuel n sp cands pp = Ok (sp :: ps, d) /\
    antichain (sp :: ps) /\ (length (sp :: ps) <= max_block_parents self)%nat /\
    ghostdag (E:=Empty_set) gm (sp :: ps) = Ok d /\ selected_parent d = sp /\
    zlen (unordered_mergeset d) = 1 + Z.of_nat (size (mergeset (sp :: ps))) /\ zlen (unordered_mergeset d) <= mergeset_size_limit self.
Proof using Hadm Hnd Hsp Hfuel Hsize Hlimit Hmax Hdepth Hheight RL CL RNL.
  intros H1 H2 H3 H4. destruct (pick_ok n cands H1 H2 H3 H4) as (ps & d & ? & [_ _ ? _] & ? & ? & ? & ? & ?). exists ps, d. done.
Qed.
End picking.

(** ** Witness: the two tips of the diamond. *)
Section witness.
Import Diamond.
Local Definition first_choice : Rand := {| random_range i n := i; shuffle l := l |}.
Local Existing Instance first_choice.
Lemma first_choice_laws : RandLaws.
Proof. split; [intros i n H; cbn; lia|done]. Qed.
Local Existing Instance first_choice_laws.
Definition p_chain : ChainService := {|
  get_chain_parent b := if decide (b = 2 \/ b = 3) then Some 1 else None;
  is_chain_ancestor_of a b := bool_decide (a = b \/ a = 1 /\ (b = 2 \/ b = 3));
  get_next_chain_ancestor d a := if decide (a = 1 /\ (d = 2 \/ d = 3)) then Some d else None;
|}.
Local Existing Instance p_chain.
Lemma p_on_chain a b : on_chain a b <-> a = b \/ a = 1 /\ (b = 2 \/ b = 3).
Proof.
  split.
  - induction 1 as [|b p Hp _ IH]; [by left|]. cbn in Hp. case_decide; simplify_eq. lia.
  - intros [->|[-> Hb]]; [constructor|]. apply (on_chain_step _ b 1); [cbn; by rewrite decide_True|constructor].
Qed.
Lemma p_laws : ChainLaws.
Proof.
  refine {| chain_height b := if decide (b = 2 \/ b = 3) then 1%nat else 0%nat |}.
  - intros b p Hp. cbn in Hp. repeat case_decide; simplify_eq; lia.
  - intros a b. rewrite p_on_chain. cbn. by rewrite bool_decide_eq_true.
  - intros a d Had Hne. apply p_on_chain in Had as [->|[-> Hd]]; [done|]. exists d. cbn. rewrite !decide_True by done. split_and!; [done..|constructor].
Defined.
Local Existing Instance p_laws.
Definition p_depth : BlockDepthManager := mkDepthManager 100 200 1 {[3 := ORIGIN]} ∅ store3.
Definition p_picker : ParentPicker := mkPicker (manager store3) p_depth 10 180.
Lemma p_nodup h ps : relations !! h = Some ps -> NoDup ps.
Proof.
  revert h ps. change (map_Forall (fun _ ps => NoDup ps) relations). apply (bool_decide_unpack (map_Forall (fun (_ : Hash) ps => NoDup ps) relations)). by vm_compute.
Qed.
Lemma p_admissible : admissible (manager store3) [3] 2.
Proof.
  destruct admissible4 as [H1 H2 H3 _ H4 _ H5 H6]. split; try done.
  - intros p ->%list_elem_of_singleton. apply H4. right. left.
  - by intros p q ->%list_elem_of_singleton ->%list_elem_of_singleton.
Qed.
Lemma pick_parents_within_limits_witness : exists ps d, pick_virtual_parents (E:=Empty_set) p_picker 9 9 3 [2] 1 = Ok (3 :: ps, d) /\
  selected_parent d = 3 /\ zlen (unordered_mergeset d) <= 180.
Proof.
  destruct (pick_parents_within_limits p_picker 3 2 p_admissible 9 p_nodup) with (pp := 1) (n := 9%nat) (cands := [2])
    as (ps & d & H1 & _ & _ & _ & H2 & _ & H3).
  - done.
  - vm_compute. lia.
  - vm_compute. reflexivity.
  - cbn. lia.
  - cbn. lia.
  - split.
    + by eexists.
    + vm_compute. split_and!; [discriminate|discriminate|reflexivity].
    + intros _. split; [|exists ORIGIN; split; [reflexivity|by left]].
      assert (forall x, on_chain 1 x -> on_chain x 3 -> x = 1 \/ x = 3) as Hx by (intros x H1%p_on_chain H2%p_on_chain; lia). split.
      * apply p_on_chain. lia.
      * intros x H1 H2. destruct (Hx x H1 H2) as [->| ->]; by eexists.
      * intros x y H1 H2 H3. destruct (Hx y (on_chain_trans _ _ _ H1 H2) H3) as [->| ->], (Hx x H1 (on_chain_trans _ _ _ H2 H3)) as [->| ->]; try done.
        apply p_on_chain in H2. lia.
  - vm_compute. lia.
  - intros x ->%list_elem_of_singleton. apply dom3. lia.
  - split.
    + apply NoDup_cons. split; [by intros ?%list_elem_of_singleton|apply NoDup_singleton].
    + intros a b. rewrite !elem_of_cons, !elem_of_nil. intros [->|[->|[]]] [->|[->|[]]]; done.
  - intros x ->%list_elem_of_singleton. vm_compute. discriminate.
  - vm_compute. lia.
  - exists ps, d. exact (conj H1 (conj H2 H3)).
Defined.
End witness.
