(* ===== verification/Params.v ===== *)
(** * Network parameters

    Fork-dependent parameters and fork activation
    ([consensus/core/src/config/params.rs]: [ForkActivation], [ForkedParam]) and
    the constants derived from the block rate
    ([consensus/core/src/config/bps.rs]: [Bps<BPS>], with [BPS] an argument). *)

From S2P Require Import Prelude.

(** ** Fork activation *)
Definition ForkActivation : Type := u64.
Definition NEVER : ForkActivation := 2 ^ 64 - 1.
Definition ALWAYS : ForkActivation := 0.
Definition is_active (self : ForkActivation) (current_daa_score : u64) : bool := self <=? current_daa_score.
(** [self.0 + range] is evaluated only when the first two conditions hold. *)
Definition is_within_range_from_activation {E} (self : ForkActivation) (current_daa_score range : u64) : res E bool :=
  if negb (self =? ALWAYS) && is_active self current_daa_score
  then bound ← u64_add self range; Ok (current_daa_score <? bound)
  else Ok false.
Definition is_within_range_before_activation {E} (self : ForkActivation) (current_daa_score range : u64)
    : res E (option u64) :=
  if negb (is_active self current_daa_score)
  then bound ← u64_add current_daa_score range;
       if self <? bound then d ← u64_sub self current_daa_score; Ok (Some d) else Ok None
  else Ok None.

(** ** Forked parameters *)
Record ForkedParam (T : Type) := mkForkedParam { fp_pre : T; fp_post : T; fp_activation : ForkActivation }.
Arguments mkForkedParam {T}.
Arguments fp_pre {T}.
Arguments fp_post {T}.
Arguments fp_activation {T}.

Section forked_param.
Context {T : Type}.
Implicit Types self : ForkedParam T.
Definition new_const (val : T) : ForkedParam T := mkForkedParam val val NEVER.
Definition fp_get self (daa_score : u64) : T :=
  if is_active (fp_activation self) daa_score then fp_post self else fp_pre self.
Definition fp_before self : T := if fp_activation self =? ALWAYS then fp_post self else fp_pre self.
Definition fp_after self : T := if fp_activation self =? NEVER then fp_pre self else fp_post self.
Definition fp_map {U} (f : T -> U) self : ForkedParam U :=
  mkForkedParam (f (fp_pre self)) (f (fp_post self)) (fp_activation self).
End forked_param.

(** [lower_bound] and [upper_bound] of an integer parameter. *)
Definition fp_lower_bound (self : ForkedParam Z) : Z :=
  if fp_activation self =? NEVER then fp_pre self
  else if fp_activation self =? ALWAYS then fp_post self
  else Z.min (fp_pre self) (fp_post self).
Definition fp_upper_bound (self : ForkedParam Z) : Z :=
  if fp_activation self =? NEVER then fp_pre self
  else if fp_activation self =? ALWAYS then fp_post self
  else Z.max (fp_pre self) (fp_post self).

(** ** Constants of the block rate *)
Section bps.
Context {E : Type} (BPS : u64).

(** The precomputed values of [k], for 1 to 32 blocks per second. *)
Definition GHOSTDAG_K_TABLE : list Z :=
  [18; 31; 43; 55; 67; 79; 90; 102; 113; 124; 135; 146; 157; 168; 179; 190; 201; 212; 223; 234;
   244; 255; 266; 277; 288; 298; 309; 320; 330; 341; 352; 362].
Definition ghostdag_k : res E Z :=
  if BPS <=? 0 then Panic else unwrap (GHOSTDAG_K_TABLE !! Z.to_nat (BPS - 1)).
Definition target_time_per_block : res E u64 :=
  if BPS =? 0 then Panic else if negb (1000 mod BPS =? 0) then Panic else Ok (1000 / BPS).
Definition max_block_parents : res E u8 :=
  k ← ghostdag_k;
  let val := wrap 8 (k / 2) in
  Ok (if val <? 10 then 10 else if 16 <? val then 16 else val).
Definition mergeset_size_limit : res E u64 :=
  k ← ghostdag_k;
  val ← u64_mul k 2;
  Ok (if val <? 180 then 180 else if 512 <? val then 512 else val).
Definition merge_depth_bound : res E u64 := u64_mul BPS 3600.
Definition finality_depth : res E u64 := u64_mul BPS 43200.
Definition pruning_depth : res E u64 :=
  finality ← finality_depth;
  merge ← merge_depth_bound;
  m2 ← u64_mul merge 2;
  limit ← mergeset_size_limit;
  k ← ghostdag_k;
  l4 ← u64_mul 4 limit;
  lk ← u64_mul l4 k;
  k2 ← u64_mul 2 k;
  s1 ← u64_add finality m2;
  s2 ← u64_add s1 lk;
  s3 ← u64_add s2 k2;
  lower_bound ← u64_add s3 2;
  duration ← u64_mul BPS 108000;
  Ok (if duration <? lower_bound then lower_bound else duration).
Definition past_median_time_sample_rate : res E u64 := u64_mul BPS 10.
Definition difficulty_adjustment_sample_rate : res E u64 := u64_mul BPS 4.
Definition coinbase_maturity : res E u64 := u64_mul BPS 100.
Definition deflationary_phase_daa_score : res E u64 := u64_mul BPS (15778800 - 259200).
Definition pre_deflationary_phase_base_subsidy : res E u64 := udiv 370027857 BPS.
End bps.

(** What a forked parameter yields is always one of its two long-term values,
    and lies within the bounds. *)
Lemma fp_get_bounds self daa_score : inW 64 (fp_activation self) -> inW 64 daa_score -> daa_score < NEVER ->
  fp_lower_bound self <= fp_get self daa_score <= fp_upper_bound self /\
  (fp_get self daa_score = fp_before self \/ fp_get self daa_score = fp_after self).
Proof.
  intros Ha Hd Hn. unfold fp_get, fp_lower_bound, fp_upper_bound, fp_before, fp_after, is_active, NEVER, ALWAYS, inW in *.
  destruct (Z.leb_spec (fp_activation self) daa_score), (Z.eqb_spec (fp_activation self) (2 ^ 64 - 1)),
    (Z.eqb_spec (fp_activation self) 0); lia.
Qed.
