(* ===== verification/Coinbase.v ===== *)
(** * Coinbase

    The coinbase manager of [consensus/src/processes/coinbase.rs]: the coinbase
    payload and its parser, the subsidy schedule, and the coinbase transaction
    expected of a block.

    The identifier of the coinbase transaction is a hash of the finished
    transaction; the hash function is the argument [tx_id] of
    [expected_coinbase_transaction], and no theorem depends on it. *)

From S2P Require Import Prelude Tx Dag Params.

(** ** Data ([consensus/core/src/coinbase.rs]) *)
Record MinerData := mkMinerData { miner_spk : ScriptPublicKey; extra_data : bytes }.
Record CoinbaseData := mkCoinbaseData { cd_blue_score : u64; cd_subsidy : u64; cd_miner_data : MinerData }.
Record BlockRewardData := mkReward { rw_subsidy : u64; rw_total_fees : u64; rw_spk : ScriptPublicKey }.
Record CoinbaseTransactionTemplate := mkTemplate { ct_tx : Transaction; has_red_reward : bool }.

Inductive CoinbaseError :=
| PayloadLenBelowMin (len min : usize)
| PayloadLenAboveMax (len max : usize)
| PayloadScriptPublicKeyLenAboveMax (len : usize) (max : u8)
| PayloadCantContainScriptPublicKey (len needed : usize).

Definition LENGTH_OF_BLUE_SCORE : usize := 8.
Definition LENGTH_OF_SUBSIDY : usize := 8.
Definition LENGTH_OF_SCRIPT_PUB_KEY_VERSION : usize := 2.
Definition LENGTH_OF_SCRIPT_PUB_KEY_LENGTH : usize := 1.
Definition MIN_PAYLOAD_LENGTH : usize :=
  LENGTH_OF_BLUE_SCORE + LENGTH_OF_SUBSIDY + LENGTH_OF_SCRIPT_PUB_KEY_VERSION + LENGTH_OF_SCRIPT_PUB_KEY_LENGTH.
Definition SECONDS_PER_MONTH : u64 := 2629800.
Definition SUBSIDY_BY_MONTH_TABLE_SIZE : usize := 1902.

(** ** The subsidy table *)
Definition SUBSIDY_BY_MONTH_TABLE : list u64 :=
  [54089972; 53585684; 53086098; 52591170; 52100856; 51615114; 51133900; 50657172; 50184889; 49717009; 49253492; 48794295; 48339380; 47888706; 47442234; 46999924; 46561738; 46127638; 45697584; 45271540; 44849468; 44431331; 44017092; 43606715; 43200165;
   42797404; 42398399; 42003113; 41611513; 41223564; 40839232; 40458483; 40081283; 39707601; 39337402; 38970654; 38607326; 38247385; 37890800; 37537540; 37187573; 36840869; 36497397; 36157127; 35820030; 35486075; 35155234; 34827478; 34502777; 34181103;
   33862429; 33546725; 33233965; 32924121; 32617165; 32313071; 32011813; 31713363; 31417695; 31124784; 30834604; 30547129; 30262335; 29980195; 29700686; 29423783; 29149462; 28877698; 28608467; 28341747; 28077514; 27815743; 27556414; 27299502; 27044986;
   26792842; 26543049; 26295585; 26050428; 25807557; 25566950; 25328586; 25092444; 24858504; 24626746; 24397147; 24169690; 23944353; 23721117; 23499962; 23280869; 23063819; 22848792; 22635770; 22424734; 22215665; 22008546; 21803357; 21600082; 21398702;
   21199199; 21001556; 20805756; 20611782; 20419616; 20229241; 20040641; 19853800; 19668701; 19485327; 19303663; 19123692; 18945400; 18768770; 18593786; 18420434; 18248698; 18078563; 17910015; 17743037; 17577617; 17413739; 17251388; 17090551; 16931214;
   16773362; 16616982; 16462060; 16308582; 16156535; 16005906; 15856681; 15708847; 15562392; 15417302; 15273564; 15131167; 14990097; 14850343; 14711891; 14574731; 14438849; 14304233; 14170873; 14038757; 13907871; 13778207; 13649751; 13522493; 13396421;
   13271524; 13147792; 13025214; 12903778; 12783475; 12664293; 12546222; 12429252; 12313373; 12198573; 12084845; 11972176; 11860558; 11749981; 11640434; 11531909; 11424396; 11317885; 11212367; 11107832; 11004273; 10901678; 10800041; 10699351; 10599599;
   10500778; 10402878; 10305891; 10209808; 10114620; 10020320; 9926900; 9834350; 9742663; 9651831; 9561846; 9472700; 9384385; 9296893; 9210217; 9124349; 9039281; 8955007; 8871518; 8788808; 8706869; 8625694; 8545275; 8465607; 8386681;
   8308491; 8231030; 8154291; 8078267; 8002953; 7928340; 7854423; 7781196; 7708651; 7636782; 7565583; 7495048; 7425171; 7355945; 7287365; 7219424; 7152116; 7085436; 7019378; 6953935; 6889103; 6824875; 6761246; 6698210; 6635762;
   6573896; 6512607; 6451889; 6391737; 6332146; 6273111; 6214626; 6156686; 6099286; 6042422; 5986088; 5930279; 5874990; 5820217; 5765954; 5712198; 5658942; 5606183; 5553916; 5502136; 5450839; 5400020; 5349675; 5299799; 5250389;
   5201439; 5152945; 5104904; 5057310; 5010160; 4963450; 4917175; 4871331; 4825915; 4780923; 4736350; 4692192; 4648446; 4605108; 4562174; 4519640; 4477503; 4435759; 4394404; 4353434; 4312847; 4272637; 4232803; 4193340; 4154245;
   4115515; 4077145; 4039133; 4001476; 3964170; 3927211; 3890598; 3854325; 3818391; 3782791; 3747524; 3712585; 3677972; 3643682; 3609712; 3576058; 3542718; 3509689; 3476967; 3444551; 3412437; 3380623; 3349105; 3317881; 3286948;
   3256303; 3225944; 3195868; 3166073; 3136555; 3107313; 3078343; 3049643; 3021211; 2993044; 2965139; 2937495; 2910108; 2882977; 2856099; 2829471; 2803091; 2776958; 2751068; 2725419; 2700010; 2674837; 2649899; 2625194; 2600719;
   2576472; 2552452; 2528655; 2505080; 2481725; 2458587; 2435665; 2412957; 2390461; 2368175; 2346096; 2324223; 2302554; 2281087; 2259820; 2238751; 2217879; 2197202; 2176717; 2156423; 2136318; 2116401; 2096670; 2077122; 2057757;
   2038572; 2019566; 2000738; 1982085; 1963605; 1945299; 1927162; 1909195; 1891395; 1873762; 1856292; 1838986; 1821841; 1804856; 1788029; 1771359; 1754844; 1738483; 1722275; 1706218; 1690311; 1674552; 1658940; 1643474; 1628151;
   1612972; 1597934; 1583036; 1568277; 1553656; 1539171; 1524821; 1510605; 1496522; 1482569; 1468747; 1455054; 1441488; 1428049; 1414735; 1401545; 1388479; 1375534; 1362709; 1350005; 1337418; 1324949; 1312597; 1300359; 1288236;
   1276226; 1264327; 1252540; 1240862; 1229293; 1217832; 1206478; 1195230; 1184087; 1173048; 1162111; 1151277; 1140543; 1129910; 1119375; 1108939; 1098601; 1088358; 1078211; 1068159; 1058200; 1048335; 1038561; 1028878; 1019286;
   1009783; 1000369; 991042; 981802; 972649; 963581; 954597; 945697; 936881; 928146; 919493; 910920; 902428; 894014; 885679; 877422; 869241; 861137; 853109; 845155; 837276; 829470; 821737; 814075; 806486;
   798967; 791518; 784138; 776828; 769585; 762410; 755302; 748261; 741284; 734373; 727527; 720744; 714024; 707367; 700772; 694239; 687767; 681354; 675002; 668709; 662474; 656298; 650179; 644118; 638113;
   632163; 626270; 620431; 614646; 608916; 603239; 597615; 592043; 586524; 581055; 575638; 570271; 564955; 559687; 554469; 549300; 544179; 539105; 534079; 529100; 524167; 519280; 514439; 509643; 504891;
   500184; 495521; 490901; 486324; 481790; 477298; 472848; 468440; 464073; 459746; 455460; 451214; 447007; 442839; 438711; 434620; 430568; 426554; 422577; 418638; 414735; 410868; 407037; 403243; 399483;
   395759; 392069; 388414; 384792; 381205; 377651; 374130; 370642; 367186; 363763; 360372; 357012; 353683; 350386; 347119; 343883; 340677; 337501; 334354; 331237; 328149; 325089; 322059; 319056; 316081;
   313135; 310215; 307323; 304458; 301619; 298807; 296021; 293262; 290527; 287819; 285135; 282477; 279843; 277234; 274650; 272089; 269552; 267039; 264550; 262083; 259640; 257219; 254821; 252445; 250092;
   247760; 245450; 243162; 240895; 238649; 236424; 234220; 232036; 229873; 227730; 225607; 223503; 221419; 219355; 217310; 215284; 213277; 211288; 209319; 207367; 205434; 203518; 201621; 199741; 197879;
   196034; 194207; 192396; 190602; 188825; 187065; 185321; 183593; 181881; 180186; 178506; 176841; 175193; 173559; 171941; 170338; 168750; 167177; 165618; 164074; 162544; 161029; 159528; 158040; 156567;
   155107; 153661; 152229; 150809; 149403; 148010; 146631; 145263; 143909; 142567; 141238; 139921; 138617; 137325; 136044; 134776; 133519; 132275; 131041; 129820; 128609; 127410; 126222; 125046; 123880;
   122725; 121581; 120447; 119324; 118212; 117110; 116018; 114936; 113865; 112803; 111751; 110709; 109677; 108655; 107642; 106638; 105644; 104659; 103683; 102717; 101759; 100810; 99870; 98939; 98017;
   97103; 96198; 95301; 94412; 93532; 92660; 91796; 90940; 90093; 89253; 88420; 87596; 86779; 85970; 85169; 84375; 83588; 82809; 82037; 81272; 80514; 79764; 79020; 78283; 77553;
   76830; 76114; 75404; 74701; 74005; 73315; 72631; 71954; 71283; 70619; 69960; 69308; 68662; 68022; 67388; 66759; 66137; 65520; 64910; 64304; 63705; 63111; 62523; 61940; 61362;
   60790; 60223; 59662; 59106; 58555; 58009; 57468; 56932; 56401; 55875; 55354; 54838; 54327; 53821; 53319; 52822; 52329; 51841; 51358; 50879; 50405; 49935; 49469; 49008; 48551;
   48099; 47650; 47206; 46766; 46330; 45898; 45470; 45046; 44626; 44210; 43798; 43389; 42985; 42584; 42187; 41794; 41404; 41018; 40636; 40257; 39882; 39510; 39141; 38776; 38415;
   38057; 37702; 37350; 37002; 36657; 36315; 35977; 35641; 35309; 34980; 34654; 34331; 34011; 33694; 33379; 33068; 32760; 32455; 32152; 31852; 31555; 31261; 30970; 30681; 30395;
   30111; 29831; 29553; 29277; 29004; 28734; 28466; 28200; 27937; 27677; 27419; 27163; 26910; 26659; 26411; 26164; 25920; 25679; 25439; 25202; 24967; 24734; 24504; 24275; 24049;
   23825; 23603; 23383; 23165; 22949; 22735; 22523; 22313; 22105; 21899; 21694; 21492; 21292; 21093; 20897; 20702; 20509; 20318; 20128; 19941; 19755; 19570; 19388; 19207; 19028;
   18851; 18675; 18501; 18328; 18157; 17988; 17820; 17654; 17490; 17327; 17165; 17005; 16847; 16689; 16534; 16380; 16227; 16076; 15926; 15777; 15630; 15485; 15340; 15197; 15055;
   14915; 14776; 14638; 14502; 14367; 14233; 14100; 13968; 13838; 13709; 13581; 13455; 13329; 13205; 13082; 12960; 12839; 12719; 12601; 12483; 12367; 12252; 12137; 12024; 11912;
   11801; 11691; 11582; 11474; 11367; 11261; 11156; 11052; 10949; 10847; 10746; 10646; 10546; 10448; 10351; 10254; 10159; 10064; 9970; 9877; 9785; 9694; 9603; 9514; 9425;
   9337; 9250; 9164; 9078; 8994; 8910; 8827; 8745; 8663; 8582; 8502; 8423; 8344; 8267; 8190; 8113; 8038; 7963; 7888; 7815; 7742; 7670; 7598; 7527; 7457;
   7388; 7319; 7251; 7183; 7116; 7050; 6984; 6919; 6854; 6790; 6727; 6664; 6602; 6541; 6480; 6419; 6359; 6300; 6241; 6183; 6126; 6068; 6012; 5956; 5900;
   5845; 5791; 5737; 5683; 5630; 5578; 5526; 5474; 5423; 5373; 5323; 5273; 5224; 5175; 5127; 5079; 5032; 4985; 4938; 4892; 4847; 4801; 4757; 4712; 4668;
   4625; 4582; 4539; 4497; 4455; 4413; 4372; 4331; 4291; 4251; 4211; 4172; 4133; 4095; 4056; 4019; 3981; 3944; 3907; 3871; 3835; 3799; 3763; 3728; 3694;
   3659; 3625; 3591; 3558; 3525; 3492; 3459; 3427; 3395; 3363; 3332; 3301; 3270; 3240; 3209; 3179; 3150; 3120; 3091; 3063; 3034; 3006; 2978; 2950; 2922;
   2895; 2868; 2841; 2815; 2789; 2763; 2737; 2711; 2686; 2661; 2636; 2612; 2587; 2563; 2539; 2516; 2492; 2469; 2446; 2423; 2400; 2378; 2356; 2334; 2312;
   2291; 2269; 2248; 2227; 2206; 2186; 2165; 2145; 2125; 2105; 2086; 2066; 2047; 2028; 2009; 1990; 1972; 1953; 1935; 1917; 1899; 1881; 1864; 1847; 1829;
   1812; 1795; 1779; 1762; 1746; 1729; 1713; 1697; 1681; 1666; 1650; 1635; 1620; 1604; 1589; 1575; 1560; 1545; 1531; 1517; 1503; 1489; 1475; 1461; 1447;
   1434; 1420; 1407; 1394; 1381; 1368; 1355; 1343; 1330; 1318; 1306; 1293; 1281; 1269; 1258; 1246; 1234; 1223; 1211; 1200; 1189; 1178; 1167; 1156; 1145;
   1134; 1124; 1113; 1103; 1093; 1082; 1072; 1062; 1052; 1043; 1033; 1023; 1014; 1004; 995; 986; 976; 967; 958; 949; 940; 932; 923; 914; 906;
   897; 889; 881; 873; 864; 856; 848; 840; 833; 825; 817; 810; 802; 794; 787; 780; 772; 765; 758; 751; 744; 737; 730; 723; 717;
   710; 703; 697; 690; 684; 677; 671; 665; 659; 653; 646; 640; 634; 629; 623; 617; 611; 605; 600; 594; 589; 583; 578; 572; 567;
   562; 556; 551; 546; 541; 536; 531; 526; 521; 516; 511; 507; 502; 497; 493; 488; 483; 479; 474; 470; 466; 461; 457; 453; 448;
   444; 440; 436; 432; 428; 424; 420; 416; 412; 408; 405; 401; 397; 393; 390; 386; 382; 379; 375; 372; 368; 365; 361; 358; 355;
   351; 348; 345; 342; 338; 335; 332; 329; 326; 323; 320; 317; 314; 311; 308; 305; 302; 300; 297; 294; 291; 289; 286; 283; 281;
   278; 275; 273; 270; 268; 265; 263; 260; 258; 255; 253; 251; 248; 246; 244; 241; 239; 237; 235; 233; 230; 228; 226; 224; 222;
   220; 218; 216; 214; 212; 210; 208; 206; 204; 202; 200; 198; 196; 195; 193; 191; 189; 187; 186; 184; 182; 180; 179; 177; 175;
   174; 172; 171; 169; 167; 166; 164; 163; 161; 160; 158; 157; 155; 154; 152; 151; 150; 148; 147; 145; 144; 143; 141; 140; 139;
   137; 136; 135; 134; 132; 131; 130; 129; 127; 126; 125; 124; 123; 122; 120; 119; 118; 117; 116; 115; 114; 113; 112; 111; 110;
   109; 108; 107; 106; 105; 104; 103; 102; 101; 100; 99; 98; 97; 96; 95; 94; 93; 93; 92; 91; 90; 89; 88; 87; 87;
   86; 85; 84; 83; 83; 82; 81; 80; 80; 79; 78; 77; 77; 76; 75; 75; 74; 73; 72; 72; 71; 70; 70; 69; 68;
   68; 67; 67; 66; 65; 65; 64; 63; 63; 62; 62; 61; 61; 60; 59; 59; 58; 58; 57; 57; 56; 56; 55; 55; 54;
   54; 53; 53; 52; 52; 51; 51; 50; 50; 49; 49; 48; 48; 47; 47; 46; 46; 46; 45; 45; 44; 44; 43; 43; 43;
   42; 42; 41; 41; 41; 40; 40; 40; 39; 39; 38; 38; 38; 37; 37; 37; 36; 36; 36; 35; 35; 35; 34; 34; 34;
   33; 33; 33; 32; 32; 32; 31; 31; 31; 31; 30; 30; 30; 29; 29; 29; 29; 28; 28; 28; 28; 27; 27; 27; 27;
   26; 26; 26; 26; 25; 25; 25; 25; 24; 24; 24; 24; 23; 23; 23; 23; 23; 22; 22; 22; 22; 21; 21; 21; 21;
   21; 20; 20; 20; 20; 20; 20; 19; 19; 19; 19; 19; 18; 18; 18; 18; 18; 18; 17; 17; 17; 17; 17; 17; 16;
   16; 16; 16; 16; 16; 15; 15; 15; 15; 15; 15; 15; 14; 14; 14; 14; 14; 14; 14; 14; 13; 13; 13; 13; 13;
   13; 13; 13; 12; 12; 12; 12; 12; 12; 12; 12; 11; 11; 11; 11; 11; 11; 11; 11; 11; 10; 10; 10; 10; 10;
   10; 10; 10; 10; 10; 10; 9; 9; 9; 9; 9; 9; 9; 9; 9; 9; 9; 8; 8; 8; 8; 8; 8; 8; 8;
   8; 8; 8; 8; 7; 7; 7; 7; 7; 7; 7; 7; 7; 7; 7; 7; 7; 7; 7; 6; 6; 6; 6; 6; 6;
   6; 6; 6; 6; 6; 6; 6; 6; 6; 6; 5; 5; 5; 5; 5; 5; 5; 5; 5; 5; 5; 5; 5; 5; 5;
   5; 5; 5; 5; 5; 4; 4; 4; 4; 4; 4; 4; 4; 4; 4; 4; 4; 4; 4; 4; 4; 4; 4; 4; 4;
   4; 4; 4; 3; 3; 3; 3; 3; 3; 3; 3; 3; 3; 3; 3; 3; 3; 3; 3; 3; 3; 3; 3; 3; 3;
   3; 3; 3; 3; 3; 3; 3; 3; 3; 2; 2; 2; 2; 2; 2; 2; 2; 2; 2; 2; 2; 2; 2; 2; 2;
   2; 2; 2; 2; 2; 2; 2; 2; 2; 2; 2; 2; 2; 2; 2; 2; 2; 2; 2; 2; 2; 2; 2; 2; 2;
   2; 2; 1; 1; 1; 1; 1; 1; 1; 1; 1; 1; 1; 1; 1; 1; 1; 1; 1; 1; 1; 1; 1; 1; 1;
   1; 1; 1; 1; 1; 1; 1; 1; 1; 1; 1; 1; 1; 1; 1; 1; 1; 1; 1; 1; 1; 1; 1; 1; 1;
   1; 1; 1; 1; 1; 1; 1; 1; 1; 1; 1; 1; 1; 1; 1; 1; 1; 1; 1; 1; 1; 1; 1; 1; 1;
   1; 0].

(** ** The manager *)
Record CoinbaseManager := mkCoinbaseManager {
  coinbase_payload_script_public_key_max_len : u8;
  max_coinbase_payload_len : usize;
  cm_deflationary_phase_daa_score : u64;
  cm_pre_deflationary_phase_base_subsidy : u64;
  cm_bps_history : ForkedParam u64;
  subsidy_by_month_table_before : list u64;
  subsidy_by_month_table_after : list u64;
  crescendo_activation_daa_score : u64;
}.

(** [CoinbaseManager::new]; a zero block rate divides by zero. *)
Definition coinbase_manager_new {E} (spk_max_len : u8) (max_payload_len : usize) (deflationary_phase : u64)
    (base_subsidy : u64) (bps_history : ForkedParam u64) : res E CoinbaseManager :=
  _ ← rassert (negb (fp_before bps_history =? 0));
  _ ← rassert (negb (fp_after bps_history =? 0));
  Ok {| coinbase_payload_script_public_key_max_len := spk_max_len;
        max_coinbase_payload_len := max_payload_len;
        cm_deflationary_phase_daa_score := deflationary_phase;
        cm_pre_deflationary_phase_base_subsidy := base_subsidy;
        cm_bps_history := bps_history;
        subsidy_by_month_table_before := map (fun x => div_ceil x (fp_before bps_history)) SUBSIDY_BY_MONTH_TABLE;
        subsidy_by_month_table_after := map (fun x => div_ceil x (fp_after bps_history)) SUBSIDY_BY_MONTH_TABLE;
        crescendo_activation_daa_score := fp_activation bps_history |}.

Section manager.
Context (self : CoinbaseManager).

(** ** Payloads *)
Definition miner_fields (m : MinerData) : bytes :=
  digits 256 2 (spk_version (miner_spk m)) ++ digits 256 1 (wrap 8 (zlen (spk_script (miner_spk m)))) ++
  spk_script (miner_spk m) ++ extra_data m.
Definition check_script_len (m : MinerData) : res CoinbaseError unit :=
  let len := zlen (spk_script (miner_spk m)) in
  fail_if (coinbase_payload_script_public_key_max_len self <? len)
    (PayloadScriptPublicKeyLenAboveMax len (coinbase_payload_script_public_key_max_len self)).
Definition serialize_coinbase_payload (data : CoinbaseData) : res CoinbaseError bytes :=
  _ ← check_script_len (cd_miner_data data);
  Ok (digits 256 8 (cd_blue_score data) ++ digits 256 8 (cd_subsidy data) ++ miner_fields (cd_miner_data data)).
Definition modify_coinbase_payload (payload : bytes) (m : MinerData) : res CoinbaseError bytes :=
  _ ← check_script_len m;
  Ok (take (Z.to_nat (LENGTH_OF_BLUE_SCORE + LENGTH_OF_SUBSIDY)) payload ++ miner_fields m).

(** [PayloadParser::take]: [split_at] panics beyond the end. *)
Definition parser_take {E} (n : usize) (remaining : bytes) : res E (bytes * bytes) :=
  if zlen remaining <? n then Panic else Ok (take (Z.to_nat n) remaining, drop (Z.to_nat n) remaining).
Definition deserialize_coinbase_payload (payload : bytes) : res CoinbaseError CoinbaseData :=
  _ ← fail_if (zlen payload <? MIN_PAYLOAD_LENGTH) (PayloadLenBelowMin (zlen payload) MIN_PAYLOAD_LENGTH);
  _ ← fail_if (max_coinbase_payload_len self <? zlen payload)
        (PayloadLenAboveMax (zlen payload) (max_coinbase_payload_len self));
  '(b, parser) ← parser_take LENGTH_OF_BLUE_SCORE payload;
  let blue_score := undigits 256 b in
  '(b, parser) ← parser_take LENGTH_OF_SUBSIDY parser;
  let subsidy := undigits 256 b in
  '(b, parser) ← parser_take LENGTH_OF_SCRIPT_PUB_KEY_VERSION parser;
  let version := undigits 256 b in
  '(b, parser) ← parser_take LENGTH_OF_SCRIPT_PUB_KEY_LENGTH parser;
  let len := undigits 256 b in
  _ ← fail_if (coinbase_payload_script_public_key_max_len self <? len)
        (PayloadScriptPublicKeyLenAboveMax len (coinbase_payload_script_public_key_max_len self));
  _ ← fail_if (zlen parser <? len) (PayloadCantContainScriptPublicKey (zlen payload) (MIN_PAYLOAD_LENGTH + len));
  '(script, parser) ← parser_take len parser;
  Ok (mkCoinbaseData blue_score subsidy
        (mkMinerData {| spk_version := version; spk_script := script |} parser)).

(** ** The schedule *)
Definition subsidy_month {E} (daa_score : u64) : res E u64 :=
  let deflation := cm_deflationary_phase_daa_score self in
  let crescendo := crescendo_activation_daa_score self in
  let bps := cm_bps_history self in
  seconds ←
    (if crescendo <? deflation then d ← u64_sub daa_score deflation; udiv d (fp_after bps)
     else if daa_score <? crescendo then d ← u64_sub daa_score deflation; udiv d (fp_before bps)
     else
       d1 ← u64_sub crescendo deflation; q1 ← udiv d1 (fp_before bps);
       d2 ← u64_sub daa_score crescendo; q2 ← udiv d2 (fp_after bps);
       u64_add q1 q2);
  Ok (seconds / SECONDS_PER_MONTH).
Definition calc_block_subsidy {E} (daa_score : u64) : res E u64 :=
  if daa_score <? cm_deflationary_phase_daa_score self then Ok (cm_pre_deflationary_phase_base_subsidy self)
  else
    month ← subsidy_month daa_score;
    let table := if is_active (fp_activation (cm_bps_history self)) daa_score
                 then subsidy_by_month_table_after self else subsidy_by_month_table_before self in
    last ← chk 64 (zlen table - 1);
    unwrap (table !! Z.to_nat (Z.min month last)).

(** ** The coinbase transaction *)
Context (tx_id : Transaction -> Hash) (rewards : gmap Hash BlockRewardData) (mergeset_non_daa : gset Hash).

Definition blue_output {E} (outputs : list TransactionOutput) (blue : Hash) : res E (list TransactionOutput) :=
  reward ← unwrap (rewards !! blue);
  total ← u64_add (rw_subsidy reward) (rw_total_fees reward);
  Ok (if 0 <? total then outputs ++ [ {| value := total; out_script_public_key := rw_spk reward |} ] else outputs).
Definition red_step {E} (red_reward : u64) (red : Hash) : res E u64 :=
  reward ← unwrap (rewards !! red);
  if decide (red ∈ mergeset_non_daa) then u64_add red_reward (rw_total_fees reward)
  else total ← u64_add (rw_subsidy reward) (rw_total_fees reward); u64_add red_reward total.
Definition TX_VERSION : u16 := 0.
Definition finalize (tx : Transaction) : Transaction :=
  {| version := version tx; inputs := inputs tx; outputs := outputs tx; lock_time := lock_time tx;
     subnetwork_id := subnetwork_id tx; gas := gas tx; payload := payload tx; mass := mass tx; id := tx_id tx |}.
Definition expected_coinbase_transaction (daa_score : u64) (miner_data : MinerData) (d : GhostdagData)
    : res CoinbaseError CoinbaseTransactionTemplate :=
  outs ← res_foldl blue_output [] (filter (fun h => h ∉ mergeset_non_daa) (mergeset_blues d));
  red_reward ← res_foldl red_step 0 (mergeset_reds d);
  let outs := if 0 <? red_reward
              then outs ++ [ {| value := red_reward; out_script_public_key := miner_spk miner_data |} ] else outs in
  subsidy ← calc_block_subsidy daa_score;
  payload ← serialize_coinbase_payload (mkCoinbaseData (blue_score d) subsidy miner_data);
  Ok (mkTemplate
        (finalize {| version := TX_VERSION; inputs := []; outputs := outs; lock_time := 0;
                     subnetwork_id := SUBNETWORK_ID_COINBASE; gas := 0; payload := payload; mass := 0; id := 0 |})
        (0 <? red_reward)).
End manager.

(** ** Payload lemmas *)
Lemma parser_take_app {E} n a b : zlen a = n -> parser_take (E := E) n (a ++ b) = Ok (a, b).
Proof.
  intros <-. unfold parser_take. pose proof (zlen_nonneg b).
  rewrite (proj2 (Z.ltb_ge _ _)) by (rewrite zlen_app; lia).
  unfold zlen. by rewrite Nat2Z.id, take_app_length, drop_app_length.
Qed.
Lemma parser_take_inv {E} n l a b : 0 <= n -> parser_take (E := E) n l = Ok (a, b) -> l = a ++ b /\ zlen a = n.
Proof.
  intros Hn. unfold parser_take. destruct (Z.ltb_spec (zlen l) n); [done|]. intros [= <- <-].
  split; [by rewrite take_drop|]. unfold zlen in *. rewrite length_take. lia.
Qed.
Lemma parser_take_ok {E} n l : n <= zlen l -> parser_take (E := E) n l = Ok (take (Z.to_nat n) l, drop (Z.to_nat n) l).
Proof. intros Hn. unfold parser_take. by rewrite (proj2 (Z.ltb_ge _ _) Hn). Qed.
Section payload.
Context (self : CoinbaseManager).
Context (Hmax : inW 8 (coinbase_payload_script_public_key_max_len self)).

Lemma check_script_len_ok m : zlen (spk_script (miner_spk m)) <= coinbase_payload_script_public_key_max_len self ->
  check_script_len self m = Ok tt.
Proof. intros Hm. unfold check_script_len. by rewrite (proj2 (Z.ltb_ge _ _) Hm). Qed.

Definition encode_payload (data : CoinbaseData) : bytes :=
  digits 256 8 (cd_blue_score data) ++ digits 256 8 (cd_subsidy data) ++ miner_fields (cd_miner_data data).
Lemma serialize_ok data :
  zlen (spk_script (miner_spk (cd_miner_data data))) <= coinbase_payload_script_public_key_max_len self ->
  serialize_coinbase_payload self data = Ok (encode_payload data).
Proof. intros Hd. unfold serialize_coinbase_payload. by rewrite check_script_len_ok. Qed.

Lemma deserialize_encode data :
  let spk := miner_spk (cd_miner_data data) in
  inW 64 (cd_blue_score data) -> inW 64 (cd_subsidy data) -> inW 16 (spk_version spk) ->
  zlen (spk_script spk) <= coinbase_payload_script_public_key_max_len self ->
  zlen (encode_payload data) <= max_coinbase_payload_len self ->
  deserialize_coinbase_payload self (encode_payload data) = Ok data.
Proof.
  intros spk Hb Hs Hv Hlen Hp. destruct data as [bs sub [[ver script] extra]]. cbn in spk, Hb, Hs, Hv, Hlen.
  unfold deserialize_coinbase_payload. pose proof (zlen_nonneg script). pose proof (zlen_nonneg extra).
  set (p := encode_payload _) in *. unfold inW in Hmax. assert (zlen p = MIN_PAYLOAD_LENGTH + zlen script + zlen extra) as Hpl.
  { unfold p, encode_payload, miner_fields.
    cbn [cd_blue_score cd_subsidy cd_miner_data miner_spk spk_version spk_script extra_data].
    rewrite !zlen_app, !zlen_digits. change MIN_PAYLOAD_LENGTH with 19. lia. }
  unfold fail_if. rewrite (proj2 (Z.ltb_ge (zlen p) MIN_PAYLOAD_LENGTH)), (proj2 (Z.ltb_ge _ _) Hp) by lia. cbn [mbind res_bind].
  assert (p = digits 256 8 bs ++ digits 256 8 sub ++ digits 256 2 ver ++ digits 256 1 (zlen script) ++ script ++ extra)
    as -> by (unfold p, encode_payload, miner_fields; cbn [cd_blue_score cd_subsidy cd_miner_data miner_spk
      spk_version spk_script extra_data]; by rewrite (wrap_small 8) by (unfold inW; lia)).
  do 4 (rewrite parser_take_app by apply zlen_digits; cbn [mbind res_bind]).
  rewrite !undigits_digits_small by (unfold inW in *; simpl; lia).
  rewrite (proj2 (Z.ltb_ge _ _) Hlen). cbn [mbind res_bind].
  rewrite (proj2 (Z.ltb_ge _ _)) by (rewrite zlen_app; lia). cbn [mbind res_bind].
  rewrite parser_take_app by done. done.
Qed.

(** Whatever the parser accepts prints back to the same bytes, and it never
    panics. *)
Lemma deserialize_sound p : Forall (is_digit 256) p ->
  match deserialize_coinbase_payload self p with
  | Ok data => serialize_coinbase_payload self data = Ok p
  | Err _ => True
  | _ => False
  end.
Proof.
  intros Hp. unfold deserialize_coinbase_payload, fail_if.
  destruct (Z.ltb_spec (zlen p) MIN_PAYLOAD_LENGTH) as [|Hmin]; [done|].
  destruct (Z.ltb_spec (max_coinbase_payload_len self) (zlen p)); [done|]. cbn [mbind res_bind].
  change MIN_PAYLOAD_LENGTH with 19 in *. unfold LENGTH_OF_BLUE_SCORE, LENGTH_OF_SUBSIDY,
    LENGTH_OF_SCRIPT_PUB_KEY_VERSION, LENGTH_OF_SCRIPT_PUB_KEY_LENGTH.
  destruct (parser_take 8 p) as [[b1 r1]| | |] eqn:H1; try by rewrite parser_take_ok in H1 by lia.
  apply parser_take_inv in H1 as [-> L1]; [|lia]. cbn [mbind res_bind]. rewrite zlen_app in Hmin.
  destruct (parser_take 8 r1) as [[b2 r2]| | |] eqn:H2; try by rewrite parser_take_ok in H2 by lia.
  apply parser_take_inv in H2 as [-> L2]; [|lia]. cbn [mbind res_bind]. rewrite zlen_app in Hmin.
  destruct (parser_take 2 r2) as [[b3 r3]| | |] eqn:H3; try by rewrite parser_take_ok in H3 by lia.
  apply parser_take_inv in H3 as [-> L3]; [|lia]. cbn [mbind res_bind]. rewrite zlen_app in Hmin.
  destruct (parser_take 1 r3) as [[b4 r4]| | |] eqn:H4; try by rewrite parser_take_ok in H4 by lia.
  apply parser_take_inv in H4 as [-> L4]; [|lia]. cbn [mbind res_bind].
  destruct (Z.ltb_spec (coinbase_payload_script_public_key_max_len self) (undigits 256 b4)) as [|Hsl]; [done|].
  cbn [mbind res_bind]. destruct (Z.ltb_spec (zlen r4) (undigits 256 b4)) as [|Hr4]; [done|]. cbn [mbind res_bind].
  apply Forall_app in Hp as [P1 Hp]. apply Forall_app in Hp as [P2 Hp]. apply Forall_app in Hp as [P3 Hp].
  apply Forall_app in Hp as [P4 Hp]. pose proof (undigits_range 256 (eq_refl : 1 < 256) b4 P4) as R4. rewrite L4 in R4.
  destruct (parser_take _ r4) as [[script extra]| | |] eqn:H5; try by rewrite parser_take_ok in H5 by lia.
  apply parser_take_inv in H5 as [-> L5]; [|lia]. cbn [mbind res_bind].
  rewrite serialize_ok by (cbn; lia). unfold encode_payload, miner_fields.
  cbn [cd_blue_score cd_subsidy cd_miner_data miner_spk spk_version spk_script extra_data].
  rewrite L5, wrap_small by (unfold inW; lia). by rewrite !digits_undigits_len.
Qed.
End payload.

(** Coinbase payloads round-trip: the payload serialized from in-range data
    whose script fits parses back to the same data; replacing the miner data of
    a serialized payload gives the payload serialized with the new miner data;
    and a script above the maximum is rejected by both. *)
Theorem coinbase_payload_roundtrip self data m'
  (Hmax : inW 8 (coinbase_payload_script_public_key_max_len self))
  (Hb : inW 64 (cd_blue_score data)) (Hs : inW 64 (cd_subsidy data))
  (Hv : inW 16 (spk_version (miner_spk (cd_miner_data data))))
  (Hlen : zlen (spk_script (miner_spk (cd_miner_data data))) <= coinbase_payload_script_public_key_max_len self)
  (Hp : MIN_PAYLOAD_LENGTH + zlen (spk_script (miner_spk (cd_miner_data data))) +
        zlen (extra_data (cd_miner_data data)) <= max_coinbase_payload_len self) :
  exists p, serialize_coinbase_payload self data = Ok p /\ deserialize_coinbase_payload self p = Ok data /\
    modify_coinbase_payload self p m' =
      serialize_coinbase_payload self (mkCoinbaseData (cd_blue_score data) (cd_subsidy data) m') /\
    (coinbase_payload_script_public_key_max_len self < zlen (spk_script (miner_spk m')) ->
     modify_coinbase_payload self p m' =
       Err (PayloadScriptPublicKeyLenAboveMax (zlen (spk_script (miner_spk m')))
              (coinbase_payload_script_public_key_max_len self))).
Proof.
  exists (encode_payload data). split; [by apply serialize_ok|].
  assert (zlen (encode_payload data) = MIN_PAYLOAD_LENGTH + zlen (spk_script (miner_spk (cd_miner_data data))) +
    zlen (extra_data (cd_miner_data data))) as Hl.
  { unfold encode_payload, miner_fields. rewrite !zlen_app, !zlen_digits. change MIN_PAYLOAD_LENGTH with 19. lia. }
  split; [apply deserialize_encode; try done; lia|]. split.
  - unfold modify_coinbase_payload, serialize_coinbase_payload. cbn [cd_miner_data].
    destruct (check_script_len self m') as [[]| | |]; cbn [mbind res_bind]; done.
  - intros Hgt. unfold modify_coinbase_payload, check_script_len, fail_if. by rewrite (proj2 (Z.ltb_lt _ _) Hgt).
Qed.

(** The coinbase payload parser is exact: on any byte string it returns an
    error or data that serializes to that very string, so two different payloads
    never parse to the same data; it never panics. *)
Theorem coinbase_payload_canonical self p (Hp : Forall (is_digit 256) p) :
  (exists data, deserialize_coinbase_payload self p = Ok data /\ serialize_coinbase_payload self data = Ok p) \/
  (exists e, deserialize_coinbase_payload self p = Err e).
Proof.
  pose proof (deserialize_sound self p Hp) as H.
  destruct (deserialize_coinbase_payload self p) as [data|e| |]; [left|right|done..]; eauto.
Qed.

(** ** Rewards *)
Section rewards.
Context (rewards : gmap Hash BlockRewardData) (non_daa : gset Hash).
Definition full_reward (h : Hash) : Z :=
  match rewards !! h with Some r => rw_subsidy r + rw_total_fees r | None => 0 end.
Definition red_reward_of (h : Hash) : Z :=
  match rewards !! h with
  | Some r => if decide (h ∈ non_daa) then rw_total_fees r else rw_subsidy r + rw_total_fees r
  | None => 0
  end.
Definition total (f : Hash -> Z) (l : list Hash) : Z := foldr Z.add 0 (map f l).
Definition output_total (outs : list TransactionOutput) : Z := foldr Z.add 0 (map value outs).
Definition rewarded (h : Hash) : Prop :=
  exists r, rewards !! h = Some r /\ 0 <= rw_subsidy r /\ 0 <= rw_total_fees r /\ rw_subsidy r + rw_total_fees r < 2 ^ 64.

Lemma output_total_app a b : output_total (a ++ b) = output_total a + output_total b.
Proof. unfold output_total. induction a as [|o a IH]; simpl in *; lia. Qed.
Lemma blue_outputs_ok {E} l outs : (forall h, h ∈ l -> rewarded h) -> Forall (fun o => 0 < value o) outs ->
  exists outs', res_foldl (E := E) (blue_output rewards) outs l = Ok outs' /\
    output_total outs' = output_total outs + total full_reward l /\ Forall (fun o => 0 < value o) outs'.
Proof.
  revert outs. induction l as [|h l IH]; intros outs Hl Ho.
  { exists outs. unfold total. simpl. split; [done|]. split; [lia|done]. }
  destruct (Hl h ltac:(left)) as (r & Hr & H1 & H2 & H3). cbn [res_foldl]. unfold blue_output at 2. rewrite Hr.
  cbn [unwrap mbind res_bind]. unfold u64_add. rewrite chk_ok by (unfold inW; lia). cbn [mbind res_bind].
  unfold total. simpl. fold (total full_reward l). unfold full_reward at 1. rewrite Hr.
  destruct (Z.ltb_spec 0 (rw_subsidy r + rw_total_fees r)).
  - destruct (IH (outs ++ [{| value := rw_subsidy r + rw_total_fees r; out_script_public_key := rw_spk r |}]))
      as (outs' & Hf & Ht & Hp); [intros; apply Hl; by right| |].
    { apply Forall_app. split; [done|]. by constructor. }
    exists outs'. split; [done|]. split; [|done]. rewrite Ht, output_total_app. unfold output_total at 2. simpl. lia.
  - destruct (IH outs ltac:(intros; apply Hl; by right) Ho) as (outs' & Hf & Ht & Hp).
    exists outs'. split; [done|]. split; [lia|done].
Qed.
Lemma red_reward_ok {E} l acc : (forall h, h ∈ l -> rewarded h) -> 0 <= acc -> acc + total red_reward_of l < 2 ^ 64 ->
  res_foldl (E := E) (red_step rewards non_daa) acc l = Ok (acc + total red_reward_of l) /\ 0 <= total red_reward_of l.
Proof.
  unfold total. revert acc. induction l as [|h l IH]; intros acc Hl Ha Hb; simpl in *; [split; [f_equal; lia|lia]|].
  destruct (Hl h ltac:(left)) as (r & Hr & H1 & H2 & H3). unfold red_step at 2. rewrite Hr. cbn [unwrap mbind res_bind].
  assert (0 <= foldr Z.add 0 (map red_reward_of l)) as Hpos.
  { clear -Hl. assert (forall h, h ∈ l -> rewarded h) as Hl' by (intros; apply Hl; by right). clear Hl.
    induction l as [|h' l IH]; simpl; [lia|]. destruct (Hl' h' ltac:(left)) as (r & Hr & ? & ? & ?).
    unfold red_reward_of at 1. rewrite Hr. assert (0 <= foldr Z.add 0 (map red_reward_of l)).
    { apply IH. intros; apply Hl'; by right. }
    case_decide; lia. }
  assert (red_reward_of h = if decide (h ∈ non_daa) then rw_total_fees r else rw_subsidy r + rw_total_fees r) as Hrh
    by (unfold red_reward_of; by rewrite Hr).
  rewrite Hrh in *. unfold u64_add. case_decide.
  - rewrite chk_ok by (unfold inW; lia). cbn [mbind res_bind].
    destruct (IH (acc + rw_total_fees r)) as [-> _]; [intros; apply Hl; by right|lia..|]. split; [f_equal; lia|lia].
  - rewrite chk_ok by (unfold inW; lia). cbn [mbind res_bind]. rewrite chk_ok by (unfold inW; lia). cbn [mbind res_bind].
    destruct (IH (acc + (rw_subsidy r + rw_total_fees r))) as [-> _]; [intros; apply Hl; by right|lia..|]. split; [f_equal; lia|lia].
Qed.
End rewards.

(** ** The schedule is total *)
Record manager_ok (self : CoinbaseManager) : Prop := {
  mo_tables : zlen (subsidy_by_month_table_before self) = SUBSIDY_BY_MONTH_TABLE_SIZE /\
              zlen (subsidy_by_month_table_after self) = SUBSIDY_BY_MONTH_TABLE_SIZE;
  mo_bps : 0 < fp_before (cm_bps_history self) /\ 0 < fp_after (cm_bps_history self);
  mo_range : inW 64 (cm_deflationary_phase_daa_score self) /\ inW 64 (crescendo_activation_daa_score self);
}.
Lemma manager_new_ok {E} len plen defl base bps :
  0 < fp_before bps -> 0 < fp_after bps -> inW 64 defl -> inW 64 (fp_activation bps) ->
  exists m, coinbase_manager_new (E := E) len plen defl base bps = Ok m /\ manager_ok m /\
    cm_deflationary_phase_daa_score m = defl /\ cm_pre_deflationary_phase_base_subsidy m = base /\ cm_bps_history m = bps /\
    crescendo_activation_daa_score m = fp_activation bps /\
    subsidy_by_month_table_after m = map (fun x => div_ceil x (fp_after bps)) SUBSIDY_BY_MONTH_TABLE.
Proof.
  intros H1 H2 H3 H4. unfold coinbase_manager_new.
  replace (fp_before bps =? 0) with false by lia. replace (fp_after bps =? 0) with false by lia.
  cbn [negb rassert mbind res_bind]. eexists. split; [done|]. split; [|done].
  constructor; [split; [done|done]|done|done].
Qed.

Lemma subsidy_month_ok {E} self daa : manager_ok self -> inW 64 daa ->
  cm_deflationary_phase_daa_score self <= daa ->
  exists m, subsidy_month (E := E) self daa = Ok m /\ 0 <= m.
Proof.
  intros [_ [Hb Ha] [Hd Hc]] Hw Hle. unfold subsidy_month, u64_sub, u64_add, inW in *.
  assert (forall x y, 0 <= x -> 0 < y -> 0 <= x / y <= x) as Hdiv.
  { intros x y Hx Hy. split; [apply Z.div_pos; lia|]. apply Z.div_le_upper_bound; nia. }
  assert (forall x, 0 <= x -> 0 <= x / SECONDS_PER_MONTH) as Hm by (intros; apply Hdiv; [lia|done]).
  destruct (Z.ltb_spec (crescendo_activation_daa_score self) (cm_deflationary_phase_daa_score self)).
  { rewrite chk_ok by (unfold inW; lia). cbn [mbind res_bind]. rewrite udiv_ok by lia. cbn [mbind res_bind].
    eexists. split; [done|]. apply Hm, Hdiv; lia. }
  destruct (Z.ltb_spec daa (crescendo_activation_daa_score self)).
  { rewrite chk_ok by (unfold inW; lia). cbn [mbind res_bind]. rewrite udiv_ok by lia. cbn [mbind res_bind].
    eexists. split; [done|]. apply Hm, Hdiv; lia. }
  rewrite chk_ok by (unfold inW; lia). cbn [mbind res_bind]. rewrite udiv_ok by lia. cbn [mbind res_bind].
  rewrite chk_ok by (unfold inW; lia). cbn [mbind res_bind]. rewrite udiv_ok by lia. cbn [mbind res_bind].
  pose proof (Hdiv (crescendo_activation_daa_score self - cm_deflationary_phase_daa_score self) (fp_before (cm_bps_history self)) ltac:(lia) Hb).
  pose proof (Hdiv (daa - crescendo_activation_daa_score self) (fp_after (cm_bps_history self)) ltac:(lia) Ha).
  rewrite chk_ok by (unfold inW; lia). cbn [mbind res_bind]. eexists. split; [done|]. apply Hm. lia.
Qed.
Lemma calc_block_subsidy_ok {E} self daa : manager_ok self -> inW 64 daa ->
  exists s, calc_block_subsidy (E := E) self daa = Ok s.
Proof.
  intros Hm Hw. unfold calc_block_subsidy.
  destruct (Z.ltb_spec daa (cm_deflationary_phase_daa_score self)) as [|Hge]; [eauto|].
  destruct (subsidy_month_ok (E := E) self daa Hm Hw Hge) as (m & -> & Hm0). cbn [mbind res_bind].
  set (table := if is_active _ _ then _ else _). assert (zlen table = SUBSIDY_BY_MONTH_TABLE_SIZE) as Ht.
  { unfold table. destruct Hm as [[H1 H2] _ _]. by destruct (is_active _ _). }
  rewrite Ht. rewrite chk_ok by done. cbn [mbind res_bind].
  destruct (lookup_lt_is_Some_2 table (Z.to_nat (Z.min m (SUBSIDY_BY_MONTH_TABLE_SIZE - 1)))) as [s Hs].
  { unfold zlen, SUBSIDY_BY_MONTH_TABLE_SIZE in *. lia. }
  rewrite Hs. by exists s.
Qed.

Lemma expected_coinbase_ok self tx_id rewards non_daa daa miner d
  (Hm : manager_ok self) (Hdaa : inW 64 daa)
  (Hr : forall h, h ∈ unordered_mergeset d -> rewarded rewards h)
  (Hred : total (red_reward_of rewards non_daa) (mergeset_reds d) < 2 ^ 64)
  (Hscript : zlen (spk_script (miner_spk miner)) <= coinbase_payload_script_public_key_max_len self) :
  exists t, expected_coinbase_transaction self tx_id rewards non_daa daa miner d = Ok t /\
    output_total (outputs (ct_tx t)) =
      total (full_reward rewards) (filter (fun h => h ∉ non_daa) (mergeset_blues d)) +
      total (red_reward_of rewards non_daa) (mergeset_reds d) /\
    Forall (fun o => 0 < value o) (outputs (ct_tx t)) /\
    has_red_reward t = (0 <? total (red_reward_of rewards non_daa) (mergeset_reds d)) /\
    inputs (ct_tx t) = [] /\ is_coinbase (ct_tx t) = true.
Proof.
  unfold expected_coinbase_transaction.
  destruct (blue_outputs_ok (E := CoinbaseError) rewards (filter (fun h => h ∉ non_daa) (mergeset_blues d)) [])
    as (outs & -> & Ht & Hp).
  { intros h [_ Hh]%list_elem_of_filter. apply Hr. apply elem_of_app. by left. }
  { constructor. }
  cbn [mbind res_bind]. destruct (red_reward_ok (E := CoinbaseError) rewards non_daa (mergeset_reds d) 0) as [-> Hpos].
  { intros h Hh. apply Hr. apply elem_of_app. by right. }
  { lia. }
  { lia. }
  cbn [mbind res_bind]. destruct (calc_block_subsidy_ok (E := CoinbaseError) self daa Hm Hdaa) as [s ->]. cbn [mbind res_bind].
  rewrite serialize_ok by done. cbn [mbind res_bind]. eexists. split; [done|]. rewrite Z.add_0_l.
  cbn [ct_tx outputs finalize has_red_reward inputs is_coinbase]. change (output_total []) with 0 in Ht.
  destruct (Z.ltb_spec 0 (total (red_reward_of rewards non_daa) (mergeset_reds d))); split_and!; try done.
  - rewrite output_total_app, Ht. unfold output_total. simpl. lia.
  - apply Forall_app. split; [done|]. by constructor.
  - lia.
Qed.

(** C37. The coinbase transaction pays out exactly the rewards it merges: the
    sum of its outputs is the subsidies and fees of the merged blue blocks inside
    the DAA window plus the fees of all merged reds and the subsidies of those
    inside the window; every output is positive, the flag tells whether a red
    reward was added, and the transaction has no inputs. *)
Theorem coinbase_pays_mergeset_rewards self tx_id rewards non_daa daa miner d
  (Hm : manager_ok self) (Hdaa : inW 64 daa)
  (Hr : forall h, h ∈ unordered_mergeset d -> rewarded rewards h)
  (Hred : total (red_reward_of rewards non_daa) (mergeset_reds d) < 2 ^ 64)
  (Hscript : zlen (spk_script (miner_spk miner)) <= coinbase_payload_script_public_key_max_len self) :
  exists t, expected_coinbase_transaction self tx_id rewards non_daa daa miner d = Ok t /\
    output_total (outputs (ct_tx t)) =
      total (full_reward rewards) (filter (fun h => h ∉ non_daa) (mergeset_blues d)) +
      total (red_reward_of rewards non_daa) (mergeset_reds d) /\
    Forall (fun o => 0 < value o) (outputs (ct_tx t)) /\
    has_red_reward t = (0 <? total (red_reward_of rewards non_daa) (mergeset_reds d)) /\
    inputs (ct_tx t) = [] /\ is_coinbase (ct_tx t) = true.
Proof. by apply expected_coinbase_ok. Qed.

(** ** The emission of the main network *)

(** [MAINNET_PARAMS] as far as the coinbase manager reads it: ten blocks per
    second from genesis. *)
Definition MAINNET_BPS_HISTORY : ForkedParam u64 := mkForkedParam (1000 / 100) (1000 / 100) ALWAYS.
Definition mainnet_manager : CoinbaseManager := {|
  coinbase_payload_script_public_key_max_len := 150;
  max_coinbase_payload_len := 204;
  cm_deflationary_phase_daa_score := 155196000;
  cm_pre_deflationary_phase_base_subsidy := 37002785;
  cm_bps_history := MAINNET_BPS_HISTORY;
  subsidy_by_month_table_before := map (fun x => div_ceil x 10) SUBSIDY_BY_MONTH_TABLE;
  subsidy_by_month_table_after := map (fun x => div_ceil x 10) SUBSIDY_BY_MONTH_TABLE;
  crescendo_activation_daa_score := ALWAYS;
|}.
Lemma mainnet_manager_new {E} :
  (defl ← deflationary_phase_daa_score 10; base ← pre_deflationary_phase_base_subsidy 10;
   coinbase_manager_new (E := E) 150 204 defl base MAINNET_BPS_HISTORY) = Ok mainnet_manager.
Proof. reflexivity. Qed.
Lemma mainnet_manager_ok : manager_ok mainnet_manager.
Proof. constructor; split; vm_compute; done. Qed.

Definition MAX_SOMPI : u64 := 210000000 * 100000000.
Definition block_subsidy (self : CoinbaseManager) (daa : Z) : Z :=
  match calc_block_subsidy (E := Empty_set) self daa with Ok s => s | _ => 0 end.
(** The sum of [f] over [n] consecutive integers from [a]. *)
Fixpoint sum_range (f : Z -> Z) (a : Z) (n : nat) : Z :=
  match n with O => 0 | S n => f a + sum_range f (a + 1) n end.

Lemma sum_range_app f a n m : sum_range f a (n + m) = sum_range f a n + sum_range f (a + Z.of_nat n) m.
Proof.
  revert a. induction n as [|n IH]; intros a; cbn [sum_range Nat.add].
  { change (Z.of_nat 0) with 0. rewrite Z.add_0_r. lia. }
  rewrite IH. replace (a + 1 + Z.of_nat n) with (a + Z.of_nat (S n)) by lia. lia.
Qed.
Lemma sum_range_const f a n c : (forall i, a <= i < a + Z.of_nat n -> f i = c) -> sum_range f a n = Z.of_nat n * c.
Proof.
  revert a. induction n as [|n IH]; intros a Hf; [simpl; lia|]. cbn [sum_range].
  rewrite (Hf a) by lia. rewrite IH by (intros i Hi; apply Hf; lia). lia.
Qed.
Lemma sum_range_const_app f n m c : (forall i, 0 <= i < Z.of_nat n -> f i = c) ->
  sum_range f 0 (n + m) = Z.of_nat n * c + sum_range f (Z.of_nat n) m.
Proof. intros Hf. rewrite sum_range_app, (sum_range_const _ _ _ c), Z.add_0_l; [done|]. intros i Hi. apply Hf. lia. Qed.

Abbreviation MONTH := (10 * SECONDS_PER_MONTH).
Lemma mainnet_month_subsidy m t i : SUBSIDY_BY_MONTH_TABLE !! m = Some t ->
  155196000 + Z.of_nat m * MONTH <= i < 155196000 + Z.of_nat m * MONTH + MONTH ->
  block_subsidy mainnet_manager i = div_ceil t 10.
Proof.
  intros Ht Hi. pose proof (lookup_lt_Some _ _ _ Ht) as Hm. change (length SUBSIDY_BY_MONTH_TABLE) with 1902%nat in Hm.
  unfold block_subsidy, calc_block_subsidy, subsidy_month. unfold SECONDS_PER_MONTH in *.
  cbn [mainnet_manager cm_deflationary_phase_daa_score crescendo_activation_daa_score cm_bps_history
    subsidy_by_month_table_after subsidy_by_month_table_before].
  replace (i <? 155196000) with false by lia. change (ALWAYS <? 155196000) with true. cbv iota.
  unfold u64_sub. rewrite (chk_ok 64 (i - 155196000)) by (unfold inW; lia). cbn [mbind res_bind].
  change (fp_after MAINNET_BPS_HISTORY) with 10. rewrite udiv_ok by lia. cbn [mbind res_bind].
  rewrite Z.div_div by lia.
  assert ((i - 155196000) / (10 * 2629800) = Z.of_nat m) as -> by (symmetry; apply (Z.div_unique _ _ _ (i - 155196000 - Z.of_nat m * 26298000)); lia).
  unfold is_active. change (fp_activation MAINNET_BPS_HISTORY) with 0. replace (0 <=? i) with true by lia.
  set (tb := map _ _). change (zlen tb) with 1902. change (chk 64 (1902 - 1)) with (@Ok Empty_set Z 1901).
  cbn [mbind res_bind]. replace (Z.to_nat (Z.min (Z.of_nat m) 1901)) with m by lia.
  unfold tb. change (map ?f ?l) with (f <$> l). by rewrite list_lookup_fmap, Ht.
Qed.
Lemma mainnet_months l m : (forall j t, l !! j = Some t -> SUBSIDY_BY_MONTH_TABLE !! (m + j)%nat = Some t) ->
  sum_range (block_subsidy mainnet_manager) (155196000 + Z.of_nat m * MONTH) (length l * Z.to_nat MONTH) =
  MONTH * foldr Z.add 0 (map (fun x => div_ceil x 10) l).
Proof.
  revert m. induction l as [|t l IH]; intros m Hl; [by rewrite Z.mul_0_r|].
  change (length (t :: l) * Z.to_nat MONTH)%nat with (Z.to_nat MONTH + length l * Z.to_nat MONTH)%nat.
  rewrite sum_range_app, (sum_range_const _ _ _ (div_ceil t 10)).
  - rewrite Z2Nat.id by done.
    replace (155196000 + Z.of_nat m * MONTH + MONTH) with (155196000 + Z.of_nat (S m) * MONTH) by lia.
    rewrite IH; [simpl; lia|]. intros j u Hj. rewrite <- (Hl (S j) u Hj). f_equal. lia.
  - intros i Hi. rewrite Z2Nat.id in Hi by done. apply (mainnet_month_subsidy m); [|done].
    rewrite <- (Hl 0%nat t eq_refl). f_equal. lia.
Qed.

Lemma mainnet_table_emission :
  sum_range (block_subsidy mainnet_manager) (Z.of_nat (Z.to_nat 155196000)) (1902 * Z.to_nat MONTH) =
  MONTH * foldr Z.add 0 (map (fun x => div_ceil x 10) SUBSIDY_BY_MONTH_TABLE).
Proof.
  rewrite Z2Nat.id by done.
  apply (mainnet_months SUBSIDY_BY_MONTH_TABLE 0). intros j t Hj. exact Hj.
Qed.
Lemma mainnet_pre_deflationary i : 0 <= i < 155196000 -> block_subsidy mainnet_manager i = 37002785.
Proof.
  intros Hi. unfold block_subsidy, calc_block_subsidy.
  cbn [mainnet_manager cm_deflationary_phase_daa_score]. by replace (i <? 155196000) with true by lia.
Qed.

Definition MAINNET_EMISSION : Z := 21000020915880000.

(** C40. The schedule of the main network emits more than the maximal supply:
    the block subsidies of all DAA scores until the table reaches zero add up to
    21,000,020,915,880,000 sompi, above [MAX_SOMPI] = 210,000,000 SPHS by 209
    SPHS, because the table is rounded up when it is divided by ten blocks per
    second; the part due to rounding is 23,778,651,600 sompi (237 SPHS). *)
Theorem mainnet_emission_exceeds_cap :
  sum_range (block_subsidy mainnet_manager) 0 (Z.to_nat 155196000 + 1902 * Z.to_nat MONTH) = MAINNET_EMISSION /\
  MAX_SOMPI < MAINNET_EMISSION /\
  MONTH * foldr Z.add 0 (map (fun x => div_ceil x 10) SUBSIDY_BY_MONTH_TABLE) -
    SECONDS_PER_MONTH * foldr Z.add 0 SUBSIDY_BY_MONTH_TABLE = 23778651600.
Proof.
  split; [|split; vm_compute; done].
  rewrite (sum_range_const_app _ _ _ 37002785).
  - rewrite mainnet_table_emission, Z2Nat.id by done. vm_compute. done.
  - intros i Hi. rewrite Z2Nat.id in Hi by done. by apply mainnet_pre_deflationary.
Qed.

Definition month_exact (k base : Z) (m : nat) (t : Z) : Prop :=
  t ^ k * 2 ^ Z.of_nat m <= base < (t + 1) ^ k * 2 ^ Z.of_nat m.

(** The formula is checked with 40 fractional bits: [ROOT] and [ROOT + 1] bracket
    2^(-1/74) at that scale, and multiplying by them brackets the value of each
    month between [lo] and [hi]. *)
Definition SCALE : Z := 2 ^ 40.
Definition ROOT : Z := 1089260747315.
Fixpoint check_months (scale root lo hi : Z) (l : list Z) : bool :=
  match l with
  | [] => true
  | t :: l => (t * scale <=? lo) && (hi <? (t + 1) * scale) &&
              check_months scale root (lo * root / scale) (hi * (root + 1) / scale + 1) l
  end.

Lemma month_exact_half base m t : 0 <= t -> month_exact 74 base m t -> month_exact 74 base (74 + m) (t / 2).
Proof.
  intros H0 [H1 H2]. pose proof (Z_div_mod_eq_full t 2). pose proof (Z.mod_pos_bound t 2 ltac:(done)).
  assert (forall a, a ^ 74 * 2 ^ Z.of_nat (74 + m) = (a * 2) ^ 74 * 2 ^ Z.of_nat m) as E.
  { clear. intros a. rewrite Nat2Z.inj_add, Z.pow_add_r, Z.pow_mul_l by lia. change (Z.of_nat 74) with 74. ring. }
  unfold month_exact. rewrite !E. split.
  - etrans; [|exact H1]. clear H1 H2. apply Z.mul_le_mono_nonneg_r; [apply Z.pow_nonneg; lia|].
    apply Z.pow_le_mono_l. lia.
  - eapply Z.lt_le_trans; [exact H2|]. clear H1 H2. apply Z.mul_le_mono_nonneg_r; [apply Z.pow_nonneg; lia|].
    apply Z.pow_le_mono_l. lia.
Qed.

Lemma root_bracket : ROOT ^ 74 * 2 <= SCALE ^ 74 <= (ROOT + 1) ^ 74 * 2.
Proof. split; apply Z.leb_le; vm_cast_no_check (eq_refl true). Qed.

Section Bracket.
Context (k : Z) (Hk : 0 <= k).

Lemma pow_step_le x y r s n b : 0 <= x -> 0 <= y -> 0 <= r -> 0 < s -> 0 <= n ->
  y * s <= x * r -> r ^ k * 2 <= s ^ k -> x ^ k * n <= b -> y ^ k * (2 * n) <= b.
Proof.
  intros Hx Hy Hr Hs Hn Hyx Hrs Hxb. etrans; [|exact Hxb].
  assert ((y * s) ^ k <= (x * r) ^ k) as H by (apply Z.pow_le_mono_l; nia).
  rewrite !Z.pow_mul_l in H. pose proof (Z.pow_pos_nonneg s k Hs Hk) as Hs'.
  pose proof (Z.pow_nonneg x k Hx). clear Hyx Hxb. apply (Z.mul_le_mono_pos_r _ _ (s ^ k) Hs').
  transitivity (x ^ k * r ^ k * (2 * n)); nia.
Qed.
Lemma pow_step_ge x y r s n b : 0 <= x -> 0 <= y -> 0 <= r -> 0 < s -> 0 <= n ->
  x * r <= y * s -> s ^ k <= r ^ k * 2 -> b <= x ^ k * n -> b <= y ^ k * (2 * n).
Proof.
  intros Hx Hy Hr Hs Hn Hyx Hrs Hxb. etrans; [exact Hxb|].
  assert ((x * r) ^ k <= (y * s) ^ k) as H by (apply Z.pow_le_mono_l; nia).
  rewrite !Z.pow_mul_l in H. pose proof (Z.pow_pos_nonneg s k Hs Hk) as Hs'.
  pose proof (Z.pow_nonneg x k Hx). clear Hyx Hxb. apply (Z.mul_le_mono_pos_r _ _ (s ^ k) Hs').
  transitivity (x ^ k * r ^ k * (2 * n)); nia.
Qed.

Lemma pow_unscale_le t x s n b : 0 <= t -> 0 < s -> 0 <= n -> t * s <= x -> x ^ k * n <= b * s ^ k -> t ^ k * n <= b.
Proof.
  intros Ht Hs Hn Htx Hb. assert ((t * s) ^ k <= x ^ k) as H by (apply Z.pow_le_mono_l; nia).
  rewrite Z.pow_mul_l in H. pose proof (Z.pow_pos_nonneg s k Hs Hk) as Hs'. clear Htx.
  apply (Z.mul_le_mono_pos_r _ _ (s ^ k) Hs'). nia.
Qed.
Lemma pow_unscale_lt t x s n b : 0 < k -> 0 <= x -> 0 < s -> 0 < n -> x < t * s -> b * s ^ k <= x ^ k * n -> b < t ^ k * n.
Proof.
  intros Hk0 Ht Hs Hn Htx Hb. assert (x ^ k < (t * s) ^ k) as H by (apply Z.pow_lt_mono_l; nia).
  rewrite Z.pow_mul_l in H. pose proof (Z.pow_pos_nonneg s k Hs Hk) as Hs'. clear Htx.
  apply (Z.mul_lt_mono_pos_r (s ^ k) _ _ Hs'). nia.
Qed.

Context (scale root : Z) (Hk0 : 0 < k) (HS : 0 < scale) (HR : 0 <= root).
Context (HR1 : root ^ k * 2 <= scale ^ k) (HR2 : scale ^ k <= (root + 1) ^ k * 2).

Lemma check_months_spec base l : forall lo hi m, check_months scale root lo hi l = true -> 0 <= lo -> 0 <= hi ->
  lo ^ k * 2 ^ Z.of_nat m <= base * scale ^ k <= hi ^ k * 2 ^ Z.of_nat m ->
  forall j t, l !! j = Some t -> 0 <= t -> month_exact k base (m + j) t.
Proof.
  induction l as [|u l IH]; intros lo hi m Hc Hlo Hhi [H1 H2] j t Hj Ht; [done|]. cbn [check_months] in Hc.
  apply andb_true_iff in Hc as [[Hc1%Z.leb_le Hc2%Z.ltb_lt]%andb_true_iff Hc].
  assert (0 < 2 ^ Z.of_nat m) as Hm by (apply Z.pow_pos_nonneg; lia).
  destruct j as [|j].
  - injection Hj as ->. rewrite Nat.add_0_r. split.
    + eapply (pow_unscale_le t lo scale); [..|exact H1]; lia.
    + eapply (pow_unscale_lt (t + 1) hi scale); [..|exact H2]; lia.
  - replace (m + S j)%nat with (S m + j)%nat by lia.
    assert (2 ^ Z.of_nat (S m) = 2 * 2 ^ Z.of_nat m) as E by (rewrite Nat2Z.inj_succ; apply Z.pow_succ_r; lia).
    assert (0 <= lo * root / scale) by (apply Z.div_pos; nia).
    assert (0 <= hi * (root + 1) / scale) by (apply Z.div_pos; nia).
    eapply (IH _ _ (S m) Hc); [lia|lia|rewrite E|exact Hj|exact Ht]. split.
    + eapply (pow_step_le lo _ root scale); [..|exact HR1|exact H1]; try lia.
      rewrite Z.mul_comm. by apply Z.mul_div_le.
    + eapply (pow_step_ge hi _ (root + 1) scale); [..|exact HR2|exact H2]; try lia.
      pose proof (Z.mul_succ_div_gt (hi * (root + 1)) scale HS). clear - H3. nia.
Qed.
End Bracket.


Lemma table_half_lookup (tbl : list Z) n m t : map (fun t => t / 2) (take n tbl) = drop 74 tbl ->
  tbl !! (74 + m)%nat = Some t -> exists u, tbl !! m = Some u /\ t = u / 2.
Proof.
  intros Hh Ht. rewrite <- lookup_drop, <- Hh, list_lookup_fmap, fmap_Some in Ht.
  destruct Ht as (u & [Hu _]%lookup_take_Some & ->). by exists u.
Qed.
Lemma forallb_lookup {A} (p : A -> bool) l i x : forallb p l = true -> l !! i = Some x -> p x = true.
Proof. intros Hp Hx. rewrite forallb_forall in Hp. apply Hp, list_elem_of_In, list_elem_of_lookup. by exists i. Qed.

(** A table that follows the formula on its first 74 months and halves every
    74 months follows it everywhere. *)
Lemma months_exact base tbl n m : (forall j t, take 74 tbl !! j = Some t -> 0 <= t -> month_exact 74 base j t) ->
  map (fun t => t / 2) (take n tbl) = drop 74 tbl -> forallb (Z.leb 0) tbl = true ->
  forall t, tbl !! m = Some t -> month_exact 74 base m t.
Proof.
  intros He Hh Hn. induction m as [m IH] using (well_founded_induction lt_wf). intros t Ht.
  destruct (decide (m < 74)%nat) as [Hm|Hm].
  - apply He; [by apply lookup_take_Some|]. apply Z.leb_le. exact (forallb_lookup _ _ _ _ Hn Ht).
  - assert (exists k, m = (74 + k)%nat) as [k ->] by (exists (m - 74)%nat; lia).
    destruct (table_half_lookup _ _ _ _ Hh Ht) as (u & Hu & ->).
    apply month_exact_half; [|apply IH; [lia|exact Hu]]. apply Z.leb_le. exact (forallb_lookup _ _ _ _ Hn Hu).
Qed.
Lemma months_decreasing (tbl : list Z) m t u : forallb (fun ab => ab.2 <=? ab.1) (zip tbl (drop 1 tbl)) = true ->
  tbl !! m = Some t -> tbl !! S m = Some u -> u <= t.
Proof.
  intros Hd Ht Hu. apply Z.leb_le, (forallb_lookup _ _ m (t, u) Hd). apply lookup_zip_Some. by rewrite lookup_drop.
Qed.

Lemma table_first_months :
  check_months SCALE ROOT (54089972 * SCALE) (54089972 * SCALE) (take 74 SUBSIDY_BY_MONTH_TABLE) = true.
Proof. vm_compute. exact eq_refl. Qed.
Lemma table_first_exact j t : take 74 SUBSIDY_BY_MONTH_TABLE !! j = Some t -> 0 <= t -> month_exact 74 (54089972 ^ 74) j t.
Proof.
  pose proof root_bracket as [HR1 HR2].
  refine (check_months_spec 74 _ SCALE ROOT _ _ _ HR1 HR2 _ _ _ _ 0 table_first_months _ _ _ j t);
    [apply Z.leb_le; exact eq_refl|apply Z.ltb_lt; exact eq_refl|apply Z.ltb_lt; exact eq_refl|apply Z.leb_le; exact eq_refl..|].
  rewrite (Z.pow_mul_l 54089972), Z.mul_1_r. split; apply Z.le_refl.
Qed.
Lemma table_halves : map (fun t => t / 2) (take 1828 SUBSIDY_BY_MONTH_TABLE) = drop 74 SUBSIDY_BY_MONTH_TABLE.
Proof. vm_compute. exact eq_refl. Qed.
Lemma table_decreasing : forallb (fun ab => ab.2 <=? ab.1) (zip SUBSIDY_BY_MONTH_TABLE (drop 1 SUBSIDY_BY_MONTH_TABLE)) = true.
Proof. vm_compute. exact eq_refl. Qed.
Lemma table_nonneg : forallb (Z.leb 0) SUBSIDY_BY_MONTH_TABLE = true.
Proof. vm_compute. exact eq_refl. Qed.

(** The subsidy table is the documented one: the entry [t] of month [m] is
    floor(54089972 / 2^(m / 74)), that is, t^74 * 2^m <= 54089972^74 <
    (t + 1)^74 * 2^m; and no entry exceeds the one before it. *)
Theorem subsidy_table_formula m t (Ht : SUBSIDY_BY_MONTH_TABLE !! m = Some t) :
  month_exact 74 (54089972 ^ 74) m t /\ (forall u, SUBSIDY_BY_MONTH_TABLE !! S m = Some u -> u <= t).
Proof.
  split; [exact (months_exact _ _ _ m table_first_exact table_halves table_nonneg t Ht)|].
  intros u Hu. exact (months_decreasing _ m t u table_decreasing Ht Hu).
Qed.
Lemma subsidy_table_formula_witness : month_exact 74 (54089972 ^ 74) 74 27044986.
Proof. exact (proj1 (subsidy_table_formula 74 27044986 eq_refl)). Defined.

Definition example_data : CoinbaseData :=
  mkCoinbaseData 7 5000 (mkMinerData {| spk_version := 1; spk_script := [1; 2; 3] |} [9]).
Lemma coinbase_payload_roundtrip_witness : exists p,
  serialize_coinbase_payload mainnet_manager example_data = Ok p /\
  deserialize_coinbase_payload mainnet_manager p = Ok example_data.
Proof.
  destruct (coinbase_payload_roundtrip mainnet_manager example_data (cd_miner_data example_data))
    as (p & H1 & H2 & _); try (vm_compute; done). exists p. split; [exact H1|exact H2].
Defined.
Lemma coinbase_payload_canonical_witness :
  (exists data, deserialize_coinbase_payload mainnet_manager (repeat 0 19) = Ok data /\
     serialize_coinbase_payload mainnet_manager data = Ok (repeat 0 19)) \/
  (exists e, deserialize_coinbase_payload mainnet_manager (repeat 0 19) = Err e).
Proof.
  apply (coinbase_payload_canonical mainnet_manager (repeat 0 19)). repeat (constructor; [done|]). constructor.
Defined.
Lemma coinbase_pays_mergeset_rewards_witness :
  let d := mkGhostdagData 9 0 1 [1] [2] ∅ in
  let spk := {| spk_version := 0; spk_script := [7] |} in
  let rewards := {[1 := mkReward 100 5 spk; 2 := mkReward 90 3 spk]} in
  exists t, expected_coinbase_transaction mainnet_manager (fun _ => 0) rewards {[2]} 11 (mkMinerData spk []) d = Ok t /\
    output_total (outputs (ct_tx t)) = 108.
Proof.
  intros d spk rewards.
  destruct (coinbase_pays_mergeset_rewards mainnet_manager (fun _ => 0) rewards {[2]} 11 (mkMinerData spk []) d)
    as (t & Ht & Hv & _).
  - apply mainnet_manager_ok.
  - done.
  - intros h Hh. unfold unordered_mergeset in Hh. simpl in Hh. rewrite !elem_of_cons in Hh.
    destruct Hh as [->|[->|Hh%elem_of_nil]]; [eexists; split; [reflexivity|vm_compute; done]..|done].
  - vm_compute. done.
  - vm_compute. done.
  - exists t. split; [exact Ht|]. rewrite Hv. vm_compute. done.
Defined.
