(* ===== verification/BlockBody.v ===== *)
(** * Block body validation

    [consensus/src/pipeline/body_processor/body_validation_in_isolation.rs] and
    [body_validation_in_context.rs], over the Merkle roots of [Merkle.v], the
    transaction checks of [TxIsolation.v], the masses of [Mass.v] and the
    coinbase payloads of [Coinbase.v]; with the block and its status
    ([consensus/core/src/block.rs], [blockstatus.rs]) and the rule errors of
    [consensus/core/src/errors/block.rs], without their texts.

    The main theorem says which blocks the isolation checks accept; it is what
    the UTXO state calculation of [UtxoState.v] relies on. *)
From S2P Require Import Prelude Encode Tx Hashing Header Merkle Alt Da Svm Mass TxIsolation Utxo Dag Coinbase.

(** ** Blocks *)
Record Block := { header : Header; transactions : list Transaction }.
Inductive BlockStatus :=
| StatusInvalid
| StatusUTXOValid
| StatusUTXOPendingVerification
| StatusDisqualifiedFromChain
| StatusHeaderOnly.
#[export] Instance BlockStatus_eq_dec : EqDecision BlockStatus.
Proof. solve_decision. Defined.
Definition has_block_body (s : BlockStatus) : bool :=
  match s with StatusUTXOValid | StatusUTXOPendingVerification | StatusDisqualifiedFromChain => true | _ => false end.

Inductive ChainWorkFloor := HardcodedMinimum | PersistedMaxSeen.
Inductive RuleError :=
| WrongBlockVersion (v : u16)
| TimeTooFarIntoTheFuture (t max : u64)
| NoParents
| TooManyParents (n max : usize)
| OriginParent
| InvalidParentsRelation (a b : Hash)
| InvalidParent (h : Hash)
| MissingParents (l : list Hash)
| PruningViolation (h : Hash)
| UnexpectedHeaderDaaScore (expected got : u64)
| UnexpectedHeaderBlueScore (expected got : u64)
| UnexpectedHeaderBlueWork (expected got : Z)
| UnexpectedDifficulty (h : Hash) (got expected : u32)
| TimeTooOld (t median : u64)
| KnownInvalid
| MergeSetTooBig (n max : u64)
| ViolatingBoundedMergeDepth
| BadMerkleRoot (declared calculated : MerkleHash)
| NoTransactions
| FirstTxNotCoinbase
| MultipleCoinbases (i : usize)
| BadCoinbasePayload (e : CoinbaseError)
| BadCoinbasePayloadBlueScore (got expected : u64)
| TxInIsolationValidationFailed (id : Hash) (e : TxRuleError)
| ExceedsComputeMassLimit (m max : u64)
| ExceedsTransientMassLimit (m max : u64)
| ExceedsStorageMassLimit (m max : u64)
| DoubleSpendInSameBlock (o : TransactionOutpoint)
| ChainedTransaction (o : TransactionOutpoint)
| TxInContextFailed (id : Hash) (e : TxRuleError)
| TooManyAltCreationsInBlock (n max : usize)
| WrongSubsidy (expected got : u64)
| DuplicateTransactions (id : Hash)
| InvalidPoW
| DaaScoreOutOfPlausibleRange (got lo hi : u64)
| WrongHeaderPruningPoint (expected got : Hash)
| UnexpectedIndirectParents (expected got : list (list Hash))
| BadUTXOCommitment (h declared calculated : Hash)
| BadAcceptedIDMerkleRoot (h : Hash) (declared calculated : MerkleHash)
| BadCoinbaseTransaction
| InvalidTransactionsInUtxoContext (invalid total : usize)
| InsufficientDaaWindowSize (n : usize)
| PrunedBlock
| InsufficientChainWork (got required : Z) (floor : ChainWorkFloor).
Abbreviation BlockProcessResult A := (res RuleError A) (only parsing).

(** An error of a called function, carried into a rule error. *)
Definition lift_err {E F A} (f : E -> F) (r : res E A) : res F A :=
  match r with Ok a => Ok a | Err e => Err (f e) | Panic => Panic | NoFuel => NoFuel end.

(** ** Isolation *)
Section isolation.
Context `{Sha3} `{HB : Blake2b} `{WasmParser}.
(** The processor: its transaction validator, mass calculator and mass limit. *)
Context (tv : TransactionValidator) (mc : MassCalculator) (max_block_mass : u64).

Definition check_has_transactions (b : Block) : BlockProcessResult unit :=
  fail_if (bool_decide (transactions b = [])) NoTransactions.
Definition check_hash_merkle_root (b : Block) : BlockProcessResult unit :=
  calculated ← calc_hash_merkle_root (transactions b);
  fail_if (negb (calculated =? hash_merkle_root (header b))) (BadMerkleRoot (hash_merkle_root (header b)) calculated).
Definition check_only_one_coinbase (b : Block) : BlockProcessResult unit :=
  first ← at_ (transactions b) 0;
  _ ← fail_if (negb (is_coinbase first)) FirstTxNotCoinbase;
  rest ← slice (transactions b) 1 (zlen (transactions b));
  match position is_coinbase 0 rest with
  | Some i => Err (MultipleCoinbases i)
  | None => Ok tt
  end.
Definition check_transactions_in_isolation (b : Block) : BlockProcessResult unit :=
  for_enum (fun _ tx => lift_err (TxInIsolationValidationFailed (id tx)) (validate_tx_in_isolation tv tx)) 0 (transactions b).

(** The three running totals, with saturating additions. *)
Definition add_masses (acc : Z * Z * Z) (tx : Transaction) : BlockProcessResult (Z * Z * Z) :=
  let '(c, t, s) := acc in
  m ← calc_non_contextual_masses mc tx;
  let c := sat64 (c + compute_mass m) in
  let t := sat64 (t + transient_mass m) in
  let s := sat64 (s + mass tx) in
  _ ← fail_if (max_block_mass <? c) (ExceedsComputeMassLimit c max_block_mass);
  _ ← fail_if (max_block_mass <? t) (ExceedsTransientMassLimit t max_block_mass);
  _ ← fail_if (max_block_mass <? s) (ExceedsStorageMassLimit s max_block_mass);
  Ok (c, t, s).
Definition check_block_mass (b : Block) : BlockProcessResult (Z * Z * Z) := res_foldl add_masses (0, 0, 0) (transactions b).

Definition block_inputs (b : Block) : list TransactionInput := concat (map inputs (transactions b)).
(** [for x in l { if !seen.insert(x) { return Err(e(x)) } }] *)
Fixpoint all_distinct {A E} `{Countable A} (e : A -> E) (seen : gset A) (l : list A) : res E unit :=
  match l with
  | [] => Ok tt
  | x :: l => _ ← fail_if (bool_decide (x ∈ seen)) (e x); all_distinct e ({[x]} ∪ seen) l
  end.
Definition check_block_double_spends (b : Block) : BlockProcessResult unit :=
  all_distinct DoubleSpendInSameBlock ∅ (map previous_outpoint (block_inputs b)).
Definition created_outpoints (tx : Transaction) : list TransactionOutpoint :=
  map (fun i => {| transaction_id := id tx; index := wrap 32 (Z.of_nat i) |}) (seq 0 (length (outputs tx))).
Definition check_no_chained_transactions (b : Block) : BlockProcessResult unit :=
  let block_created_outpoints : gset TransactionOutpoint := list_to_set (concat (map created_outpoints (transactions b))) in
  for_enum (fun _ o => fail_if (bool_decide (o ∈ block_created_outpoints)) (ChainedTransaction o)) 0
    (map previous_outpoint (block_inputs b)).
Definition check_duplicate_transactions (b : Block) : BlockProcessResult unit :=
  all_distinct DuplicateTransactions ∅ (map id (transactions b)).

Definition validate_body_in_isolation (b : Block) : BlockProcessResult (Z * Z * Z) :=
  _ ← check_has_transactions b;
  _ ← check_hash_merkle_root b;
  _ ← check_only_one_coinbase b;
  _ ← check_transactions_in_isolation b;
  mass ← check_block_mass b;
  _ ← check_duplicate_transactions b;
  _ ← check_block_double_spends b;
  _ ← check_no_chained_transactions b;
  Ok mass.
End isolation.

(** ** Context *)
Section context.
Context (cm : CoinbaseManager) (statuses : gmap Hash BlockStatus).
Definition MAX_ALT_CREATIONS_PER_BLOCK : usize := 16.

Definition check_parent_bodies_exist (b : Block) : BlockProcessResult unit :=
  parents ← direct_parents (header b);
  let missing := filter (fun p => match statuses !! p with None => true | Some s => negb (has_block_body s) end = true) parents in
  fail_if (negb (bool_decide (missing = []))) (MissingParents missing).
Definition check_coinbase_blue_score_and_subsidy (b : Block) : BlockProcessResult unit :=
  coinbase ← at_ (transactions b) 0;
  data ← lift_err BadCoinbasePayload (deserialize_coinbase_payload cm (payload coinbase));
  _ ← fail_if (negb (cd_blue_score data =? h_blue_score (header b)))
        (BadCoinbasePayloadBlueScore (cd_blue_score data) (h_blue_score (header b)));
  expected_subsidy ← calc_block_subsidy cm (h_daa_score (header b));
  fail_if (negb (cd_subsidy data =? expected_subsidy)) (WrongSubsidy expected_subsidy (cd_subsidy data)).
Definition count_alt (count : Z) (o : TransactionOutput) : BlockProcessResult Z :=
  if bool_decide (classify_alt_script (out_script o) = Some Creation) then
    count ← chk 64 (count + 1);
    _ ← fail_if (MAX_ALT_CREATIONS_PER_BLOCK <? count) (TooManyAltCreationsInBlock count MAX_ALT_CREATIONS_PER_BLOCK);
    Ok count
  else Ok count.
Definition check_alt_creation_per_block_cap (b : Block) : BlockProcessResult unit :=
  _ ← res_foldl count_alt 0 (concat (map outputs (transactions b))); Ok tt.
(** The past median time is evaluated only when a transaction needs it. *)
Definition check_block_transactions_in_context (pmt : BlockProcessResult u64) (b : Block) : BlockProcessResult unit :=
  for_enum (fun _ tx =>
    lock_time_arg ← match get_lock_time_type tx with
                    | TypeFinalized => Ok ArgFinalized
                    | TypeDaaScore => Ok (ArgDaaScore (h_daa_score (header b)))
                    | TypeTime => t ← pmt; Ok (ArgMedianTime t)
                    end;
    lift_err (TxInContextFailed (id tx)) (validate_tx_in_header_context tx lock_time_arg)) 0 (transactions b).
Definition validate_body_in_context (pmt : BlockProcessResult u64) (b : Block) : BlockProcessResult unit :=
  _ ← check_parent_bodies_exist b;
  _ ← check_coinbase_blue_score_and_subsidy b;
  _ ← check_alt_creation_per_block_cap b;
  check_block_transactions_in_context pmt b.
End context.

(** ** What is accepted *)
Lemma lift_err_iff {E F} (f : E -> F) (r : res E unit) : lift_err f r = Ok tt <-> r = Ok tt.
Proof. destruct r as [[]| | |]; simpl; split; done. Qed.
Lemma all_distinct_iff {A E} `{Countable A} (e : A -> E) seen l :
  all_distinct e seen l = Ok tt <-> NoDup l /\ (forall x, x ∈ l -> x ∉ seen).
Proof.
  revert seen. induction l as [|x l IH]; intros seen; cbn [all_distinct].
  { split; [|done]. intros _. split; [constructor|]. intros x Hx. by apply elem_of_nil in Hx. }
  rewrite bind_unit_iff, fail_if_iff, bool_decide_eq_false, IH, NoDup_cons. split.
  - intros (Hx & Hnd & Hl). split_and!; [|done|].
    + intros Hin. specialize (Hl x Hin). set_solver.
    + intros y [->|Hy]%elem_of_cons; [done|]. specialize (Hl y Hy). set_solver.
  - intros ((Hx & Hnd) & Hl). split_and!; [apply Hl; left|done|].
    intros y Hy. rewrite not_elem_of_union, not_elem_of_singleton. split; [by intros ->|]. apply Hl. by right.
Qed.
Lemma sat64_small x : x < 2 ^ 64 - 1 -> sat64 x = x.
Proof. unfold sat64. lia. Qed.

Section accepts.
Context `{Sha3} `{HB : Blake2b} `{WasmParser}.
Context (tv : TransactionValidator) (mc : MassCalculator) (max_block_mass : u64).

(** The three masses of a block. *)
Definition block_masses (ms : list NonContextualMasses) (b : Block) : Z * Z * Z :=
  (sum_of compute_mass ms, sum_of transient_mass ms, sum_of mass (transactions b)).
Record body_ok (b : Block) (m : Z * Z * Z) : Prop := {
  body_coinbase : exists cb txs, transactions b = cb :: txs /\ is_coinbase cb = true /\ Forall (fun tx => is_coinbase tx = false) txs;
  body_root : calc_hash_merkle_root (E:=RuleError) (transactions b) = Ok (hash_merkle_root (header b));
  body_isolated : Forall (isolated tv) (transactions b);
  body_masses : exists ms, res_mapM (E:=RuleError) (calc_non_contextual_masses mc) (transactions b) = Ok ms /\ m = block_masses ms b;
  body_limits : m.1.1 <= max_block_mass /\ m.1.2 <= max_block_mass /\ m.2 <= max_block_mass;
  body_ids : NoDup (map id (transactions b));
  body_spends : NoDup (map previous_outpoint (block_inputs b));
  body_unchained : forall i tx, i ∈ block_inputs b -> tx ∈ transactions b -> previous_outpoint i ∉ created_outpoints tx;
}.

Lemma masses_nonneg {E} tx m : calc_non_contextual_masses (E:=E) mc tx = Ok m -> 0 <= compute_mass m /\ 0 <= transient_mass m.
Proof.
  unfold calc_non_contextual_masses. destruct (is_coinbase tx); [by intros [= <-]|]. intros Hm. repeat bind_inv Hm.
  injection Hm as <-. cbn [compute_mass transient_mass].
  repeat match goal with X : u64_add _ _ = Ok _ |- _ => apply chk_inv in X as [-> []] end.
  match goal with X : u64_mul _ TRANSIENT_BYTE_TO_MASS_FACTOR = Ok _ |- _ => apply chk_inv in X as [-> []] end. done.
Qed.
Hypothesis (Hmax : 0 <= max_block_mass < 2 ^ 64 - 1).

Lemma masses_fold_iff txs c t s r : Forall (fun tx => 0 <= mass tx) txs ->
  0 <= c <= max_block_mass -> 0 <= t <= max_block_mass -> 0 <= s <= max_block_mass ->
  res_foldl (add_masses mc max_block_mass) (c, t, s) txs = Ok r <->
  exists ms, res_mapM (E:=RuleError) (calc_non_contextual_masses mc) txs = Ok ms /\
    r = (c + sum_of compute_mass ms, t + sum_of transient_mass ms, s + sum_of mass txs) /\
    r.1.1 <= max_block_mass /\ r.1.2 <= max_block_mass /\ r.2 <= max_block_mass.
Proof using Hmax.
  revert c t s. induction txs as [|tx txs IH]; intros c t s Hm Hc Ht Hs; cbn [res_foldl res_mapM].
  { split.
    - intros [= <-]. exists []. cbn. split; [done|]. split; [do 2 f_equal; lia|]. lia.
    - intros (ms & [= <-] & -> & _). cbn. f_equal. do 2 f_equal; lia. }
  apply Forall_cons in Hm as [Hm0 Hm]. unfold add_masses at 2.
  destruct (calc_non_contextual_masses mc tx) as [m| | |] eqn:Hcalc; cbn [mbind res_bind];
    [|split; [done|by intros (? & [=] & _)]..].
  destruct (masses_nonneg (E:=RuleError) tx m Hcalc) as [Hm1 Hm2]. rewrite sum_of_cons.
  assert (forall ms, res_mapM (calc_non_contextual_masses (E:=RuleError) mc) txs = Ok ms ->
    0 <= sum_of compute_mass ms /\ 0 <= sum_of transient_mass ms) as Hnn.
  { intros ms Hms. clear - Hms. revert ms Hms. induction txs as [|x txs IH]; intros ms Hms; [by injection Hms as <-|].
    cbn [res_mapM] in Hms. bind_inv Hms. bind_inv Hms. injection Hms as <-. apply masses_nonneg in Ha.
    specialize (IH _ Ha0). rewrite !sum_of_cons. lia. }
  assert (0 <= sum_of mass txs) as Hsn by by apply sum_of_nonneg.
  unfold fail_if. destruct (Z.ltb_spec max_block_mass (sat64 (c + compute_mass m))) as [Hx|Hx]; cbn [mbind res_bind].
  { split; [done|]. intros (ms & Hms & -> & Hl & _). bind_inv Hms. injection Hms as <-. apply Hnn in Ha.
    cbn [fst snd] in Hl. rewrite sum_of_cons in Hl. unfold sat64 in Hx. lia. }
  destruct (Z.ltb_spec max_block_mass (sat64 (t + transient_mass m))) as [Hy|Hy]; cbn [mbind res_bind].
  { split; [done|]. intros (ms & Hms & -> & _ & Hl & _). bind_inv Hms. injection Hms as <-. apply Hnn in Ha.
    cbn [fst snd] in Hl. rewrite sum_of_cons in Hl. unfold sat64 in Hy. lia. }
  destruct (Z.ltb_spec max_block_mass (sat64 (s + mass tx))) as [Hz|Hz]; cbn [mbind res_bind].
  { split; [done|]. intros (ms & Hms & -> & _ & _ & Hl). cbn [fst snd] in Hl. unfold sat64 in Hz. lia. }
  rewrite !sat64_small in * by (unfold sat64 in *; lia). rewrite IH by (done || lia). split.
  - intros (ms & Hms & -> & Hl). exists (m :: ms). rewrite Hms. split; [done|]. rewrite !sum_of_cons, !Z.add_assoc. done.
  - intros (ms & Hms & -> & Hl). bind_inv Hms. injection Hms as <-. eexists. split; [done|].
    rewrite !sum_of_cons, !Z.add_assoc in *. done.
Qed.

Lemma only_one_coinbase_iff b : transactions b <> [] ->
  check_only_one_coinbase b = Ok tt <->
  exists cb txs, transactions b = cb :: txs /\ is_coinbase cb = true /\ Forall (fun tx => is_coinbase tx = false) txs.
Proof.
  intros Hne. unfold check_only_one_coinbase. destruct (transactions b) as [|cb txs]; [done|].
  rewrite (at_ok (cb :: txs) [] txs 0 cb) by done. cbn [mbind res_bind].
  rewrite (slice_ok (cb :: txs) [cb] txs [] 1 (zlen (cb :: txs))) by (rewrite ?app_nil_r, ?zlen_cons, ?zlen_nil; done || lia). cbn [mbind res_bind].
  rewrite bind_unit_iff, fail_if_iff, negb_false_iff, match_position_iff. split.
  - intros [? ?]. by exists cb, txs.
  - by intros (? & ? & [= <- <-] & ? & ?).
Qed.
Lemma unchained_iff b : check_no_chained_transactions b = Ok tt <->
  forall i tx, i ∈ block_inputs b -> tx ∈ transactions b -> previous_outpoint i ∉ created_outpoints tx.
Proof.
  unfold check_no_chained_transactions. set (X := list_to_set _ : gset TransactionOutpoint).
  rewrite (for_enum_iff _ (fun o => o ∉ X)) by (intros; by rewrite fail_if_iff, bool_decide_eq_false).
  rewrite Forall_forall. unfold X. split.
  - intros Hall i tx Hi Htx Hc. apply (Hall (previous_outpoint i)); [by apply list_elem_of_fmap_2|].
    apply elem_of_list_to_set, elem_of_concat_map. by exists tx.
  - intros Hall o (i & -> & Hi)%list_elem_of_fmap_1 (tx & Htx & Hc)%elem_of_list_to_set%elem_of_concat_map.
    by apply (Hall i tx).
Qed.

(** C21. What [validate_body_in_isolation] accepts, on typed transactions:
    exactly the blocks whose first transaction is their only coinbase, whose
    header commits to the transactions, whose transactions are all valid in
    isolation and have distinct ids, which spend no outpoint twice and none
    that they create, and whose compute, transient and storage masses, which
    it returns, are each within the limit. *)
Theorem body_accepts b m : Forall (tx_typed tv) (transactions b) -> Forall (fun tx => 0 <= mass tx) (transactions b) ->
  validate_body_in_isolation tv mc max_block_mass b = Ok m <-> body_ok b m.
Proof using Hmax.
  intros Hty Hmass. unfold validate_body_in_isolation, check_has_transactions, check_block_mass, check_duplicate_transactions,
    check_block_double_spends.
  assert (check_transactions_in_isolation tv b = Ok tt <-> Forall (isolated tv) (transactions b)) as Hiso.
  { apply for_enum_iff. intros _ tx Htx. rewrite lift_err_iff. apply isolated_iff. by rewrite Forall_forall in Hty; apply Hty. }
  assert (check_hash_merkle_root b = Ok tt <->
    calc_hash_merkle_root (E:=RuleError) (transactions b) = Ok (hash_merkle_root (header b))) as Hroot.
  { unfold check_hash_merkle_root. destruct (calc_hash_merkle_root (transactions b)) as [r| | |]; cbn [mbind res_bind];
      [|split; done..]. rewrite fail_if_iff, negb_false_iff, Z.eqb_eq. split; [by intros ->|by intros [= ->]]. }
  split.
  - intros Hv. apply bind_unit_iff in Hv as [Hne Hv]. apply fail_if_iff, bool_decide_eq_false in Hne.
    apply bind_unit_iff in Hv as [Hr Hv]. apply bind_unit_iff in Hv as [Hcb Hv]. apply bind_unit_iff in Hv as [Hi Hv].
    apply bind_ok in Hv as (m' & Hm & Hv). apply bind_unit_iff in Hv as [Hd Hv]. apply bind_unit_iff in Hv as [Hs Hv].
    apply bind_unit_iff in Hv as [Hc Hv]. injection Hv as ->.
    apply masses_fold_iff in Hm as (ms & Hms & -> & Hl); [|done|lia..]. apply all_distinct_iff in Hd, Hs.
    split; [by apply only_one_coinbase_iff|by apply Hroot|by apply Hiso|by exists ms|done|apply Hd|apply Hs|by apply unchained_iff].
  - intros [Hcb Hr Hi (ms & Hms & Hmeq) Hl Hd Hs Hc]. assert (transactions b <> []) as Hne by (by destruct Hcb as (? & ? & -> & _)).
    rewrite !bind_unit_iff. split; [by apply fail_if_iff, bool_decide_eq_false|]. split; [by apply Hroot|].
    split; [by apply only_one_coinbase_iff|]. split; [by apply Hiso|].
    assert (res_foldl (add_masses mc max_block_mass) (0, 0, 0) (transactions b) = Ok m) as ->.
    { apply masses_fold_iff; [done|lia..|]. exists ms. by subst m. }
    cbn [mbind res_bind]. rewrite !bind_unit_iff. split; [|split; [|split; [by apply unchained_iff|done]]].
    + apply all_distinct_iff. split; [done|set_solver].
    + apply all_distinct_iff. split; [done|set_solver].
Qed.
End accepts.

(** ** Witness *)
Definition sample_coinbase : Transaction := {|
  version := 0; inputs := []; outputs := [payment]; lock_time := 0; subnetwork_id := SUBNETWORK_ID_COINBASE; gas := 0;
  payload := [1; 2; 3]; mass := 0; id := 41 |}.
Definition sample_body : list Transaction := [sample_coinbase; plain_tx [payment]].
Definition block_of (txs : list Transaction) : Block := {|
  header := mkHeader 1 1 [(1, [99])]
    match calc_hash_merkle_root (HB:=toy_blake2b) (E:=unit) txs with Ok r => r | _ => 0 end 0 0 1000 0 0 5 0 5 0;
  transactions := txs |}.
Lemma body_accepts_witness : body_ok (H:=toy_sha3) (HB:=toy_blake2b) (H0:=no_wasm) mainnet_validator
  (mass_calculator mainnet_validator) 500000 (block_of sample_body) (195, 660, 0).
Proof.
  apply (body_accepts (H:=toy_sha3) (HB:=toy_blake2b) (H0:=no_wasm)).
  - lia.
  - repeat constructor; done.
  - by repeat constructor.
  - by vm_compute.
Defined.
