(* ===== verification/Window.v ===== *)
(** * Block windows

    The sampled window manager, [consensus/src/processes/window.rs]: the blocks
    of greatest blue work among the samples of the mergesets on the selected
    chain, from which difficulty and median time are computed, with its caches
    ([consensus/src/model/stores/block_window_cache.rs]).

    A heap is the list of its elements (as in [Difficulty]); a cache is that of
    [Cache], with any evictions.  The iterator over the samples of a mergeset is
    run to its end also where the code leaves it early: the model reads at
    least what the code reads.  The closure that collects the blocks outside of
    the difficulty window is the list of the hashes it is called with.  Fuel
    bounds the walk down the chain; the length of the chain is enough.

    The theorem: whatever the caches hold (windows built before), the window of
    a block is exactly the top of all the samples on its chain; the walk stops
    early without missing one, and fails exactly when the data of the chain
    ends before the window is full. *)
From S2P Require Import Prelude Tx Coinbase BlockBody Cache Uint Target Dag Difficulty.

Inductive WindowType := DifficultyWindow | MedianTimeWindow | VaryingWindow (n : usize).
Record DaaWindow := mkDaaWindow { dw_window : BlockWindowHeap; dw_daa_score : u64; dw_mergeset_non_daa : gset Hash }.
Inductive SampledBlock := Sampled (b : SortableBlock) | NonDaa (h : Hash).

Record SampledWindowManager := mkWindowManager {
  wm_genesis_hash : Hash;
  wm_ghostdag_store : GhostdagStore;
  wm_headers_store : HeaderStore;
  wm_difficulty_window_size : usize;
  wm_difficulty_sample_rate : u64;
  wm_past_median_time_window_size : usize;
  wm_past_median_time_sample_rate : u64;
  wm_difficulty_manager : SampledDifficultyManager;
}.
(** [u64::is_multiple_of] *)
Definition is_multiple_of (x rate : u64) : bool := if rate =? 0 then x =? 0 else x mod rate =? 0.

(** [BlockWindowHeap] keeps the default size estimates, which panic. *)
#[export] Instance window_size_estimate : MemSizeEstimator (list SortableBlock) | 0 :=
  {| estimate_mem_bytes _ := None; estimate_mem_units _ := None |}.

Section window_manager.
Context `{EC : !EvictChoice Hash (list SortableBlock)}.
Context (self : SampledWindowManager).
Abbreviation WindowCache := (DbCache Hash (list SortableBlock)).
(** The caches for difficulty and for past median time. *)
Record WindowCaches := mkCaches { block_window_cache_for_difficulty : WindowCache; block_window_cache_for_past_median_time : WindowCache }.

Definition window_size (ty : WindowType) : usize :=
  match ty with
  | DifficultyWindow => wm_difficulty_window_size self
  | MedianTimeWindow => wm_past_median_time_window_size self
  | VaryingWindow size => size
  end.
Definition sample_rate (ty : WindowType) : u64 :=
  match ty with
  | DifficultyWindow => wm_difficulty_sample_rate self
  | MedianTimeWindow => wm_past_median_time_sample_rate self
  | VaryingWindow _ => 1
  end.

Fixpoint sample_blocks (rate sp_daa_score threshold : u64) (index : u64) (blocks : list SortableBlock) : res RuleError (list SampledBlock) :=
  match blocks with
  | [] => Ok []
  | block :: blocks =>
      d ← unwrap (wm_ghostdag_store self !! sb_hash block);
      if blue_score d <? threshold then
        l ← sample_blocks rate sp_daa_score threshold index blocks; Ok (NonDaa (sb_hash block) :: l)
      else
        index ← u64_add index 1;
        position ← u64_add sp_daa_score index;
        l ← sample_blocks rate sp_daa_score threshold index blocks;
        Ok (if is_multiple_of position rate then Sampled block :: l else l)
  end.
Definition sampled_mergeset_iterator (rate : u64) (d : GhostdagData) (sp_blue_work : BlueWorkType) : res RuleError (list SampledBlock) :=
  sp ← unwrap (wm_headers_store self !! selected_parent d);
  threshold ← lowest_daa_blue_score (wm_difficulty_manager self) d;
  rest ← descending_mergeset_without_selected_parent d (wm_ghostdag_store self);
  sample_blocks rate (h_daa_score sp) threshold 0 (mkSortable (selected_parent d) sp_blue_work :: rest).

(** With an inserter every sample is pushed; without one, the loop returns at
    the first sample that does not fit. *)
Fixpoint push_all (heap : BoundedSizeBlockHeap) (l : list SampledBlock) : BoundedSizeBlockHeap * list Hash :=
  match l with
  | [] => (heap, [])
  | Sampled b :: l => push_all (fst (try_push heap b)) l
  | NonDaa h :: l => let '(heap, hs) := push_all heap l in (heap, h :: hs)
  end.
Fixpoint push_until (heap : BoundedSizeBlockHeap) (l : list SampledBlock) : BoundedSizeBlockHeap :=
  match l with
  | [] => heap
  | Sampled b :: l => let '(heap, pushed) := try_push heap b in if pushed then push_until heap l else heap
  | NonDaa _ :: l => push_until heap l
  end.
Definition push_mergeset (heap : BoundedSizeBlockHeap) (rate : u64) (d : GhostdagData) (sp_blue_work : BlueWorkType)
    (inserter : bool) : res RuleError (BoundedSizeBlockHeap * list Hash) :=
  l ← sampled_mergeset_iterator rate d sp_blue_work;
  Ok (if inserter then push_all heap l else (push_until heap l, [])).

Definition cache_for (caches : WindowCaches) (ty : WindowType) : option WindowCache :=
  match ty with
  | DifficultyWindow => Some (block_window_cache_for_difficulty caches)
  | MedianTimeWindow => Some (block_window_cache_for_past_median_time caches)
  | VaryingWindow _ => None
  end.
Definition cached (cache : option WindowCache) (h : Hash) : option BlockWindowHeap := c ← cache; db_cache_get c h.

(** The heap is copied lazily: without a sample in the mergeset the window of
    the selected parent is returned as it is. *)
Definition try_init_from_cache (size : usize) (rate : u64) (cache : option WindowCache) (d : GhostdagData)
    (sp_blue_work : BlueWorkType) : res RuleError (option (BlockWindowHeap * list Hash)) :=
  match cached cache (selected_parent d) with
  | None => Ok None
  | Some w => '(heap, hs) ← push_mergeset (mkBoundedHeap w size) rate d sp_blue_work true; Ok (Some (binary_heap heap, hs))
  end.
Definition try_merge_with_selected_parent_cache (heap : BoundedSizeBlockHeap) (cache : option WindowCache) (sp : Hash) : option BoundedSizeBlockHeap :=
  match cached cache sp with None => None | Some w => Some (merge_ancestor_heap heap w) end.

Fixpoint window_walk (fuel : nat) (rate : u64) (cache : option WindowCache) (heap : BoundedSizeBlockHeap) (current : GhostdagData)
    : res RuleError BlockWindowHeap :=
  match fuel with
  | O => NoFuel
  | S fuel =>
      if decide (selected_parent current = ORIGIN) then
        if reached_size_bound heap then Ok (binary_heap heap) else Err (InsufficientDaaWindowSize (zlen (binary_heap heap)))
      else if decide (selected_parent current = wm_genesis_hash self) then Ok (binary_heap heap)
      else
        parent ← unwrap (wm_ghostdag_store self !! selected_parent current);
        can ← can_push heap (mkSortable (selected_parent current) (blue_work parent));
        if negb can then Ok (binary_heap heap) else
        '(heap, _) ← push_mergeset heap rate current (blue_work parent) false;
        match try_merge_with_selected_parent_cache heap cache (selected_parent current) with
        | Some heap => Ok (binary_heap heap)
        | None => window_walk fuel rate cache heap parent
        end
  end.
(** The window, and the calls of [mergeset_non_daa_inserter]. *)
Definition build_block_window (fuel : nat) (caches : WindowCaches) (d : GhostdagData) (ty : WindowType)
    : res RuleError (BlockWindowHeap * list Hash) :=
  let size := window_size ty in
  let rate := sample_rate ty in
  if size =? 0 then Ok ([], [])
  else if decide (selected_parent d = wm_genesis_hash self) then Ok ([], [wm_genesis_hash self])
  else if decide (selected_parent d = ORIGIN) then Err (InsufficientDaaWindowSize 0)
  else
    let cache := cache_for caches ty in
    sp ← unwrap (wm_ghostdag_store self !! selected_parent d);
    o ← try_init_from_cache size rate cache d (blue_work sp);
    match o with
    | Some r => Ok r
    | None =>
        '(heap, hs) ← push_mergeset (bounded_heap_new size) rate d (blue_work sp) true;
        w ← window_walk fuel rate cache heap sp;
        Ok (w, hs)
    end.

Definition block_window (fuel : nat) (caches : WindowCaches) (d : GhostdagData) (ty : WindowType) : res RuleError BlockWindowHeap :=
  r ← build_block_window fuel caches d ty; Ok r.1.
Definition calc_daa_window (d : GhostdagData) (window : BlockWindowHeap) : res RuleError DaaWindow :=
  '(daa_score, mergeset_non_daa) ← calc_daa_score_and_mergeset_non_daa_blocks (wm_difficulty_manager self) d (wm_ghostdag_store self);
  Ok (mkDaaWindow window daa_score mergeset_non_daa).
Definition block_daa_window (fuel : nat) (caches : WindowCaches) (d : GhostdagData) : res RuleError DaaWindow :=
  '(window, hs) ← build_block_window fuel caches d DifficultyWindow;
  let mergeset_non_daa := list_to_set hs in
  daa_score ← calc_daa_score (wm_difficulty_manager self) d mergeset_non_daa;
  Ok (mkDaaWindow window daa_score mergeset_non_daa).
Definition window_difficulty_bits (d : GhostdagData) (daa_window : DaaWindow) : res RuleError u32 :=
  calculate_difficulty_bits (wm_difficulty_manager self) (dw_window daa_window) d.
Definition window_past_median_time (fuel : nat) (caches : WindowCaches) (d : GhostdagData) : res RuleError (u64 * BlockWindowHeap) :=
  window ← block_window fuel caches d MedianTimeWindow;
  past_median_time ← calc_past_median_time (wm_headers_store self) window (selected_parent d);
  Ok (past_median_time, window).
Definition calc_past_median_time_for_known_hash (fuel : nat) (caches : WindowCaches) (hash : Hash) : res RuleError (u64 * WindowCaches) :=
  match db_cache_get (block_window_cache_for_past_median_time caches) hash with
  | Some window =>
      d ← unwrap (wm_ghostdag_store self !! hash);
      t ← calc_past_median_time (wm_headers_store self) window (selected_parent d);
      Ok (t, caches)
  | None =>
      d ← unwrap (wm_ghostdag_store self !! hash);
      '(t, window) ← window_past_median_time fuel caches d;
      c ← db_cache_insert (block_window_cache_for_past_median_time caches) hash window;
      Ok (t, mkCaches (block_window_cache_for_difficulty caches) c)
  end.

(** The whole mergesets on the chain down to the one that holds the last block
    of the window.  The result is the set before its enumeration. *)
Definition cover_mergeset (st : gset Hash * gset Hash) (merged : Hash) : res RuleError (gset Hash * gset Hash) :=
  let '(unvisited, cover) := st in
  if decide (merged ∈ unvisited) then
    d ← unwrap (wm_ghostdag_store self !! merged);
    Ok (unvisited ∖ {[merged]}, {[selected_parent d]} ∪ ({[merged]} ∪ cover))
  else Ok (unvisited, {[merged]} ∪ cover).
Fixpoint cover_loop (fuel : nat) (unvisited cover : gset Hash) (ghostdag : GhostdagData) : res RuleError (gset Hash) :=
  match fuel with
  | O => NoFuel
  | S fuel =>
      if decide (unvisited = ∅) then Ok cover else
      _ ← rassert (bool_decide (selected_parent ghostdag <> ORIGIN));
      '(unvisited, cover) ← res_foldl cover_mergeset (unvisited, cover) (unordered_mergeset ghostdag);
      if decide (unvisited = ∅) then Ok cover else
      ghostdag ← unwrap (wm_ghostdag_store self !! selected_parent ghostdag);
      cover_loop fuel unvisited cover ghostdag
  end.
Definition consecutive_cover_for_window (fuel : nat) (ghostdag : GhostdagData) (window : BlockWindowHeap) : res RuleError (gset Hash) :=
  _ ← u64_mul (zlen window) (wm_difficulty_sample_rate self);
  cover ← cover_loop fuel (list_to_set (map sb_hash window)) ∅ ghostdag;
  Ok (cover ∖ {[ORIGIN]}).
End window_manager.

(** ** Tops of lists *)
Lemma top_of_len n h xs : top_of n h xs -> zlen h = Z.min n (zlen xs).
Proof. by intros (rest & _ & H & _). Qed.
(** Elements below a full top do not change it. *)
Lemma top_of_below n h xs ys : top_of n h xs -> zlen h = n -> (forall a b, a ∈ h -> b ∈ ys -> sortable_le b a) -> top_of n h (xs ++ ys).
Proof.
  intros (rest & H1 & H2 & H3) Hn Hb. exists (rest ++ ys). split; [by rewrite app_assoc, H1|]. split.
  - rewrite zlen_app. pose proof (zlen_nonneg ys). lia.
  - intros a b Ha [Hr|Hy]%elem_of_app; auto.
Qed.
Lemma submseteq_disjoint {A} (h w r q : list A) : h ++ w ≡ₚ r ++ q -> (forall c, c ∈ h -> c ∉ q) -> h ⊆+ r.
Proof.
  revert r. induction h as [|c h IH]; intros r Hp Hd; [apply submseteq_nil_l|].
  assert (c ∈ r) as Hc.
  { assert (c ∈ r ++ q) as [Hr|Hq]%elem_of_app by (rewrite <- Hp; left); [done|]. by destruct (Hd c ltac:(left)). }
  apply elem_of_Permutation in Hc as [r' Hr]. rewrite Hr. apply submseteq_skip, IH.
  - rewrite Hr in Hp. cbn in Hp. by apply Permutation_cons_inv in Hp.
  - intros x Hx. apply Hd. by right.
Qed.
Lemma top_of_app_l n h w xs r q rest a b : top_of n h xs -> r ++ q ≡ₚ h ++ w -> zlen r = Z.min n (zlen (h ++ w)) ->
  (forall a b, a ∈ r -> b ∈ q -> sortable_le b a) -> h ++ rest ≡ₚ xs -> (forall a b, a ∈ h -> b ∈ rest -> sortable_le b a) ->
  a ∈ r -> b ∈ rest -> sortable_le b a.
Proof.
  intros Ht Hp Hr Hq Hx Hle Ha Hb. pose proof (top_of_len _ _ _ Ht) as Hh. pose proof (zlen_perm _ _ Hx) as Hlx. rewrite !zlen_app in *.
  assert (0 < zlen rest) by (destruct rest; [by apply elem_of_nil in Hb|rewrite zlen_cons; pose proof (zlen_nonneg rest); lia]).
  pose proof (zlen_nonneg w). assert (zlen r = zlen h) as Hrh by lia.
  destruct (decide (Exists (fun c => c ∈ q) h)) as [Hc|Hc].
  - apply Exists_exists in Hc as (c & Hc & Hcq). etrans; [by apply (Hle c b)|by apply Hq].
  - apply Hle; [|done]. assert (h ≡ₚ r) as ->; [|done]. apply submseteq_length_Permutation.
    + apply (submseteq_disjoint h w r q); [done|]. intros c Hh' Hcq. apply Hc. apply Exists_exists. by exists c.
    + unfold zlen in Hrh. lia.
Qed.
(** The top of two tops is the top of the whole. *)
Lemma top_of_app n h w xs ys r : 0 <= n -> top_of n h xs -> top_of n w ys -> top_of n r (h ++ w) -> top_of n r (xs ++ ys).
Proof.
  intros Hn Hh Hw (q & Hq & Hr & Hqr). pose proof Hh as (r1 & P1 & L1 & O1). pose proof Hw as (r2 & P2 & L2 & O2).
  exists (q ++ r1 ++ r2). split; [|split].
  - rewrite app_assoc, Hq, <- P1, <- P2, <- !app_assoc. apply Permutation_app_head. rewrite !app_assoc. apply Permutation_app_tail, Permutation_app_comm.
  - rewrite Hr, !zlen_app, L1, L2. pose proof (zlen_nonneg xs). pose proof (zlen_nonneg ys). lia.
  - intros a b Ha [Hb|[Hb|Hb]%elem_of_app]%elem_of_app; [auto| |].
    + by eapply (top_of_app_l n h w xs r q r1 a b).
    + eapply (top_of_app_l n w h ys r q r2 a b); [done| | |done..].
      * by rewrite Hq, Permutation_app_comm.
      * rewrite Hr, !zlen_app. f_equal. lia.
Qed.
(** The top is unique up to order. *)
Lemma StronglySorted_app_intro {A} (R : relation A) l k : StronglySorted R l -> StronglySorted R k -> (forall a b, a ∈ l -> b ∈ k -> R a b) -> StronglySorted R (l ++ k).
Proof.
  intros Hl Hk Hlk. induction Hl as [|x l Hl IH Hx]; [done|]. cbn. constructor.
  - apply IH. intros a b Ha. apply Hlk. by right.
  - apply Forall_app. split; [done|]. apply Forall_forall. intros b Hb. apply Hlk; [left|done].
Qed.
#[local] Instance flip_total : Total (flip sortable_le).
Proof. intros a b. unfold flip. destruct (sortable_le_total a b); auto. Qed.
#[local] Instance flip_antisymm : AntiSymm (=) (flip sortable_le).
Proof. intros a b. unfold flip. intros H1 H2. by apply (anti_symm sortable_le). Qed.
Definition sort_desc (l : list SortableBlock) : list SortableBlock := merge_sort (flip sortable_le) l.
Lemma sort_desc_sorted l : StronglySorted (flip sortable_le) (sort_desc l).
Proof. apply (StronglySorted_merge_sort (flip sortable_le)). Qed.
Lemma top_of_sorted n h xs : top_of n h xs -> sort_desc h = take (length h) (sort_desc xs).
Proof.
  intros (r & P & L & O). assert (sort_desc xs = sort_desc h ++ sort_desc r) as ->.
  { apply (StronglySorted_unique (flip sortable_le)); [apply sort_desc_sorted| |].
    - apply StronglySorted_app_intro; [apply sort_desc_sorted..|]. intros a b. unfold sort_desc. rewrite !merge_sort_Permutation. apply O.
    - unfold sort_desc. by rewrite !merge_sort_Permutation. }
  rewrite <- (Permutation_length (merge_sort_Permutation (flip sortable_le) h)). fold (sort_desc h). by rewrite take_app_length.
Qed.
Lemma top_of_unique n h h' xs : top_of n h xs -> top_of n h' xs -> h ≡ₚ h'.
Proof.
  intros H H'. assert (length h = length h') as Hl by (pose proof (top_of_len _ _ _ H); pose proof (top_of_len _ _ _ H'); unfold zlen in *; lia).
  rewrite <- (merge_sort_Permutation (flip sortable_le) h), <- (merge_sort_Permutation (flip sortable_le) h').
  fold (sort_desc h) (sort_desc h'). by rewrite (top_of_sorted _ _ _ H), (top_of_sorted _ _ _ H'), Hl.
Qed.

(** ** Pushing samples *)
Definition sampled (l : list SampledBlock) : list SortableBlock := omap (fun s => match s with Sampled b => Some b | NonDaa _ => None end) l.
Definition non_daa (l : list SampledBlock) : list Hash := omap (fun s => match s with Sampled _ => None | NonDaa h => Some h end) l.
Lemma push_all_eq l : forall heap, push_all heap l = (pushes heap (sampled l), non_daa l).
Proof. induction l as [|[b|h] l IH]; intros heap; cbn; [done|apply IH|by rewrite IH]. Qed.
Lemma try_push_false heap b : snd (try_push heap b) = false -> fst (try_push heap b) = heap /\
  forall b', sortable_le b' b -> try_push heap b' = (heap, false).
Proof.
  unfold try_push. destruct (reached_size_bound heap); [|done]. destruct (min_peek (binary_heap heap)) as [m|]; [|done].
  pose proof (sortable_cmp_spec b m) as Hb. destruct (sortable_cmp b m); try done. intros _. split; [done|]. intros b' Hle%sortable_le_spec.
  pose proof (sortable_cmp_spec b' m) as Hb'. destruct (sortable_cmp b' m); [subst; lia|done|lia].
Qed.
Lemma pushes_below heap b xs : snd (try_push heap b) = false -> (forall x, x ∈ xs -> sortable_le x b) -> pushes heap xs = heap.
Proof.
  intros Hb. destruct (try_push_false heap b Hb) as [_ Hf]. induction xs as [|x xs IH]; intros Hx; [done|]. cbn [foldl].
  rewrite Hf by (apply Hx; left). apply IH. intros y Hy. apply Hx. by right.
Qed.
Lemma push_until_eq l : StronglySorted (flip sortable_le) (sampled l) -> forall heap, push_until heap l = pushes heap (sampled l).
Proof.
  induction l as [|[b|h] l IH]; cbn; intros Hs heap; [done| |by apply IH]. apply StronglySorted_inv in Hs as [Hs Hb].
  destruct (try_push heap b) as [heap' []] eqn:E; cbn [fst]; [by apply IH|]. destruct (try_push_false heap b) as [Hh _]; [by rewrite E|].
  rewrite E in Hh. cbn in Hh. subst heap'. symmetry. apply (pushes_below heap b); [by rewrite E|]. intros x Hx. by eapply Forall_forall in Hb.
Qed.
Lemma can_push_ok {E} n h b : 0 < n -> exists c, can_push (E:=E) (mkBoundedHeap h n) b = Ok c /\
  (c = false -> zlen h = n /\ forall a, a ∈ h -> sortable_le b a).
Proof.
  intros Hn. unfold can_push, reached_size_bound. cbn [binary_heap size_bound]. destruct (Z.eqb_spec (zlen h) n) as [Hl|Hl]; [|by exists true].
  destruct (min_pop_spec h) as (m & _ & Hm & ->); [intros ->; change (zlen []) with 0 in Hl; lia|]. cbn [unwrap mbind res_bind]. eexists. split; [done|].
  pose proof (sortable_cmp_spec b m) as Hb. destruct (sortable_cmp b m); [done| |done]. intros _. split; [done|]. intros a Ha. etrans; [|by apply Hm].
  apply sortable_le_spec. lia.
Qed.

(** ** The samples on a chain *)
Section theorems.
Context `{EC : !EvictChoice Hash (list SortableBlock)}.
Context (self : SampledWindowManager).
Abbreviation store := (wm_ghostdag_store self).
Abbreviation genesis := (wm_genesis_hash self).

(** All the samples from a block down to the end of its chain, and whether the
    chain ends in genesis (or in missing data). *)
Fixpoint chain_samples (fuel : nat) (rate : u64) (d : GhostdagData) : res RuleError (list SortableBlock * bool) :=
  match fuel with
  | O => NoFuel
  | S fuel =>
      if decide (selected_parent d = genesis) then Ok ([], true)
      else if decide (selected_parent d = ORIGIN) then Ok ([], false)
      else
        sp ← unwrap (store !! selected_parent d);
        l ← sampled_mergeset_iterator self rate d (blue_work sp);
        '(xs, e) ← chain_samples fuel rate sp;
        Ok (sampled l ++ xs, e)
  end.
Lemma chain_samples_mono rate fuel d r fuel' : chain_samples fuel rate d = Ok r -> (fuel <= fuel')%nat -> chain_samples fuel' rate d = Ok r.
Proof.
  revert d r fuel'. induction fuel as [|fuel IH]; intros d r fuel' Hr Hf; [done|]. destruct fuel' as [|fuel']; [lia|]. cbn [chain_samples] in *.
  case_decide; [done|]. case_decide; [done|]. destruct (store !! selected_parent d) as [sp|]; [|done]. cbn [unwrap mbind res_bind] in *.
  destruct (sampled_mergeset_iterator self rate d (blue_work sp)) as [l| | |]; try done. cbn [mbind res_bind] in *.
  destruct (chain_samples fuel rate sp) as [[xs e]| | |] eqn:E; try done. rewrite (IH sp (xs, e) fuel' E) by lia. done.
Qed.
Lemma chain_samples_det rate f1 f2 d r1 r2 : chain_samples f1 rate d = Ok r1 -> chain_samples f2 rate d = Ok r2 -> r1 = r2.
Proof.
  intros H1 H2. apply (chain_samples_mono _ _ _ _ (Nat.max f1 f2)) in H1; [|lia]. apply (chain_samples_mono _ _ _ _ (Nat.max f1 f2)) in H2; [|lia]. congruence.
Qed.

(** What the stores hold for the mergeset of a block: data for every block,
    both colors in the consensus order, the selected parent above the others. *)
Definition key_of (h : Hash) : SortableBlock := mkSortable h (from_option blue_work 0 (store !! h)).
Record mergeset_ready (d : GhostdagData) : Prop := {
  mr_blues : exists bl, mergeset_blues d = selected_parent d :: bl;
  mr_data h : h ∈ unordered_mergeset d -> is_Some (store !! h);
  mr_nodup : NoDup (unordered_mergeset d);
  mr_sorted : StronglySorted sortable_le (map key_of (drop 1 (mergeset_blues d))) /\ StronglySorted sortable_le (map key_of (mergeset_reds d));
  mr_below h : h ∈ unordered_mergeset d -> sortable_le (key_of h) (key_of (selected_parent d));
  mr_header : exists hd, wm_headers_store self !! selected_parent d = Some hd /\ 0 <= h_daa_score hd /\ h_daa_score hd + zlen (unordered_mergeset d) < 2 ^ 64;
  mr_score : 0 <= blue_score d < 2 ^ 64;
}.
(** The selected chain from [d], of at most [k] steps, ends in genesis ([e]) or
    in missing data; blue work decreases along it. *)
Inductive chain_ready : nat -> GhostdagData -> bool -> Prop :=
| cr_genesis k d : selected_parent d = genesis -> chain_ready k d true
| cr_origin k d : selected_parent d <> genesis -> selected_parent d = ORIGIN -> chain_ready k d false
| cr_step k d sp e : selected_parent d <> genesis -> selected_parent d <> ORIGIN -> mergeset_ready d -> store !! selected_parent d = Some sp ->
    (selected_parent sp <> genesis -> selected_parent sp <> ORIGIN -> sortable_le (key_of (selected_parent sp)) (key_of (selected_parent d))) ->
    chain_ready k sp e -> chain_ready (S k) d e.
Context (Hfull : 0 <= dm_difficulty_window_size (wm_difficulty_manager self) * dm_difficulty_sample_rate (wm_difficulty_manager self) < 2 ^ 64).

Lemma sample_blocks_ok rate daa threshold blocks : forall index, (forall b, b ∈ blocks -> is_Some (store !! sb_hash b)) -> 0 <= index -> 0 <= daa ->
  daa + index + zlen blocks < 2 ^ 64 -> exists l, sample_blocks self rate daa threshold index blocks = Ok l /\ sampled l `sublist_of` blocks /\
    non_daa l = filter (fun h => from_option blue_score 0 (store !! h) < threshold) (map sb_hash blocks).
Proof.
  induction blocks as [|b blocks IH]; intros index Hd Hi Hdaa Hl; cbn [sample_blocks]; [by exists []|].
  destruct (Hd b ltac:(left)) as [d Eb]. rewrite Eb. cbn [unwrap mbind res_bind]. rewrite zlen_cons in Hl. pose proof (zlen_nonneg blocks).
  assert (forall b, b ∈ blocks -> is_Some (store !! sb_hash b)) as Hd' by (intros x Hx; apply Hd; by right). cbn [map]. rewrite filter_cons, Eb. cbn [from_option].
  destruct (Z.ltb_spec (blue_score d) threshold) as [Hs|Hs].
  - destruct (IH index Hd' Hi Hdaa ltac:(lia)) as (l & -> & Hsub & Hn). cbn [mbind res_bind]. eexists. split; [done|]. cbn. split; [by apply sublist_cons|].
    rewrite decide_True by done. by rewrite <- Hn.
  - rewrite u64_add_ok by (unfold inW; lia). cbn [mbind res_bind]. rewrite u64_add_ok by (unfold inW; lia). cbn [mbind res_bind].
    destruct (IH (index + 1) Hd' ltac:(lia) Hdaa ltac:(lia)) as (l & -> & Hsub & Hn). cbn [mbind res_bind]. rewrite decide_False by lia.
    eexists. split; [done|]. destruct (is_multiple_of _ _); cbn; (split; [|done]); [by apply sublist_skip|by apply sublist_cons].
Qed.
Lemma lowest_ok {E} d : 0 <= blue_score d < 2 ^ 64 -> exists t, lowest_daa_blue_score (E:=E) (wm_difficulty_manager self) d = Ok t.
Proof using Hfull.
  intros Hb. unfold lowest_daa_blue_score, difficulty_full_window_size, u64_mul. rewrite chk_ok by (unfold inW; lia). cbn [mbind res_bind].
  rewrite u64_sub_ok by (unfold inW; lia). by eexists.
Qed.
Lemma elem_of_rev {A} (x : A) l : x ∈ rev l <-> x ∈ l.
Proof. by rewrite !list_elem_of_In, <- in_rev. Qed.
Lemma StronglySorted_rev {A} (R : relation A) l : StronglySorted R l -> StronglySorted (flip R) (rev l).
Proof.
  induction 1 as [|x l Hl IH Hx]; cbn; [constructor|]. apply StronglySorted_app_intro; [done|repeat constructor|].
  intros a b Ha ->%list_elem_of_singleton. rewrite elem_of_rev in Ha. rewrite Forall_forall in Hx. by apply Hx.
Qed.
Lemma sortable_all {E} l : (forall h, h ∈ l -> is_Some (store !! h)) -> res_mapM (sortable (E:=E) store) l = Ok (map key_of l).
Proof. intros Hl. apply res_mapM_ok. intros h Hh. destruct (Hl h Hh) as [d Ed]. unfold sortable, key_of. by rewrite Ed. Qed.
Lemma descending_ok {E} d : mergeset_ready d -> exists rest, descending_mergeset_without_selected_parent (E:=E) d store = Ok rest /\
  rest ≡ₚ map key_of (drop 1 (mergeset_blues d) ++ mergeset_reds d) /\ StronglySorted (flip sortable_le) rest.
Proof.
  intros Hd. destruct (mr_blues d Hd) as [bl Ebl]. destruct (mr_sorted d Hd) as [Hs1 Hs2]. pose proof (mr_nodup d Hd) as Hn. pose proof (mr_data d Hd) as Hdata.
  unfold descending_mergeset_without_selected_parent, unordered_mergeset in *. rewrite Ebl in *. cbn [drop app] in *. rewrite drop_0 in *.
  rewrite (sortable_all (rev bl)) by (intros h Hh; apply Hdata; right; apply elem_of_app; left; by rewrite elem_of_rev in Hh).
  cbn [mbind res_bind]. rewrite sortable_all by (intros h Hh; apply Hdata; right; apply elem_of_app; right; by rewrite elem_of_rev in Hh).
  cbn [mbind res_bind]. rewrite !map_rev.
  destruct (merge_join_sorted (E:=E) (fun a b => sortable_cmp b a) (flip sortable_le) 
    (fun a b H => sortable_cmp_lt b a H) (fun a b H => sortable_cmp_gt b a H) (fun a b H => eq_sym (sortable_cmp_eq b a H))
     (rev (map key_of bl)) (rev (map key_of (mergeset_reds d)))) as (m & -> & Hm & Hms).
  - by apply StronglySorted_rev.
  - by apply StronglySorted_rev.
  - intros x. rewrite !elem_of_rev. intros (h & -> & Hh)%list_elem_of_fmap (h' & E' & Hh')%list_elem_of_fmap.
    injection E' as E'. subst h'. apply NoDup_cons in Hn as [_ Hn]. apply NoDup_app in Hn as (_ & Hdis & _). by apply (Hdis h).
  - exists m. split; [done|]. split; [|done]. by rewrite Hm, <- !Permutation_rev, map_app.
Qed.
Definition sp_key (d : GhostdagData) : SortableBlock := key_of (selected_parent d).
Lemma iterator_ok rate d sp : mergeset_ready d -> store !! selected_parent d = Some sp ->
  exists l t, sampled_mergeset_iterator self rate d (blue_work sp) = Ok l /\ StronglySorted (flip sortable_le) (sampled l) /\
    (forall b, b ∈ sampled l -> sortable_le b (sp_key d) /\ sb_hash b ∈ unordered_mergeset d) /\
    lowest_daa_blue_score (E:=RuleError) (wm_difficulty_manager self) d = Ok t /\
    non_daa l ≡ₚ filter (fun h => from_option blue_score 0 (store !! h) < t) (unordered_mergeset d).
Proof using Hfull.
  intros Hd Esp. destruct (mr_header d Hd) as (hd & Eh & H0 & Hlt). destruct (mr_blues d Hd) as [bl Ebl].
  destruct (lowest_ok (E:=RuleError) d (mr_score d Hd)) as [t Et]. destruct (descending_ok (E:=RuleError) d Hd) as (rest & Er & Hp & Hs).
  unfold sampled_mergeset_iterator. rewrite Eh. cbn [unwrap mbind res_bind]. rewrite Et. cbn [mbind res_bind]. rewrite Er. cbn [mbind res_bind].
  assert (mkSortable (selected_parent d) (blue_work sp) = sp_key d) as -> by (unfold sp_key, key_of; by rewrite Esp).
  assert (sp_key d :: rest ≡ₚ map key_of (unordered_mergeset d)) as Hall by (unfold unordered_mergeset; rewrite Ebl, Hp, Ebl; done).
  assert (StronglySorted (flip sortable_le) (sp_key d :: rest)) as Hsort.
  { constructor; [done|]. apply Forall_forall. intros b Hb. assert (b ∈ map key_of (unordered_mergeset d)) as (h & -> & Hh)%list_elem_of_fmap by (rewrite <- Hall; by right).
    by apply (mr_below d Hd). }
  destruct (sample_blocks_ok rate (h_daa_score hd) t (sp_key d :: rest) 0) as (l & -> & Hsub & Hn).
  - intros b Hb. rewrite Hall in Hb. apply list_elem_of_fmap in Hb as (h & -> & Hh). by apply (mr_data d Hd).
  - done.
  - done.
  - rewrite (zlen_perm _ _ Hall). unfold zlen in *. rewrite length_map. lia.
  - exists l, t. split; [done|]. split; [by eapply StronglySorted_sublist|]. split; [|split; [done|]].
    + intros b Hb. eapply elem_of_sublist in Hb; [|exact Hsub]. rewrite Hall in Hb. apply list_elem_of_fmap in Hb as (h & -> & Hh). split; [by apply (mr_below d Hd)|done].
    + rewrite Hn, Hall, map_map. cbn [key_of sb_hash]. by rewrite map_id.
Qed.
(** The samples of a ready chain. *)
Lemma chain_samples_ok rate k d e : chain_ready k d e -> exists xs, (forall fuel, (k < fuel)%nat -> chain_samples fuel rate d = Ok (xs, e)) /\
  (selected_parent d <> genesis -> selected_parent d <> ORIGIN -> forall b, b ∈ xs -> sortable_le b (sp_key d)).
Proof using Hfull.
  induction 1 as [k d Hg|k d Hg Ho|k d sp e Hg Ho Hd Esp Hle Hc (xs & IH & Hb)].
  - exists []. split; [|done]. intros [|fuel] Hf; [lia|]. cbn [chain_samples]. by rewrite decide_True.
  - exists []. split; [|done]. intros [|fuel] Hf; [lia|]. cbn [chain_samples]. by rewrite decide_False, decide_True.
  - destruct (iterator_ok rate d sp Hd Esp) as (l & t & El & Hs & Hbl & _). exists (sampled l ++ xs). split.
    + intros [|fuel] Hf; [lia|]. cbn [chain_samples]. rewrite decide_False, decide_False by done. rewrite Esp. cbn [unwrap mbind res_bind].
      rewrite El. cbn [mbind res_bind]. by rewrite IH by lia.
    + intros _ _ b [Hb1|Hb1]%elem_of_app; [by apply Hbl in Hb1 as [? _]|]. inversion Hc; subst; [specialize (IH (S k) ltac:(lia)); cbn in IH..|].
      * rewrite decide_True in IH by done. injection IH as <-. by apply elem_of_nil in Hb1.
      * rewrite decide_False, decide_True in IH by done. injection IH as <-. by apply elem_of_nil in Hb1.
      * etrans; [by apply Hb|by apply Hle].
Qed.

(** ** Windows *)
Context (ty : WindowType) (Hsize : 0 < window_size self ty) (Hgen : wm_genesis_hash self <> ORIGIN).
Abbreviation n := (window_size self ty).
Abbreviation rate := (sample_rate self ty).
(** [w] is the window for the samples [xs] of a chain. *)
Definition window_for (xs : list SortableBlock) (e : bool) (w : BlockWindowHeap) : Prop := top_of n w xs /\ (e = false -> n <= zlen xs).
(** A cached window was built for its block. *)
Definition cache_sound (cache : option (DbCache Hash (list SortableBlock))) : Prop := forall h w, cached cache h = Some w ->
  exists d xs e fuel, store !! h = Some d /\ chain_samples fuel rate d = Ok (xs, e) /\ window_for xs e w.
Definition window_result (xs : list SortableBlock) (e : bool) (r : res RuleError BlockWindowHeap) : Prop :=
  match r with
  | Ok w => window_for xs e w
  | Err err => e = false /\ zlen xs < n /\ err = InsufficientDaaWindowSize (zlen xs)
  | _ => False
  end.
Lemma push_mergeset_ok inserter d sp h ys : mergeset_ready d -> store !! selected_parent d = Some sp -> top_of n h ys ->
  exists l h', sampled_mergeset_iterator self rate d (blue_work sp) = Ok l /\ top_of n h' (ys ++ sampled l) /\
    push_mergeset self (mkBoundedHeap h n) rate d (blue_work sp) inserter = Ok (mkBoundedHeap h' n, if inserter then non_daa l else []).
Proof using Hfull Hsize.
  intros Hd Esp Ht. destruct (iterator_ok rate d sp Hd Esp) as (l & t & El & Hs & _). destruct (pushes_top n h ys (sampled l) Hsize Ht) as (h' & Eh & Ht').
  exists l, h'. split; [done|]. split; [eapply top_of_perm; [apply Permutation_app_comm|done]|]. unfold push_mergeset. rewrite El. cbn [mbind res_bind].
  by destruct inserter; rewrite ?push_all_eq, ?push_until_eq, Eh.
Qed.
Lemma window_walk_ok cache : cache_sound cache -> forall k d e, chain_ready k d e -> forall fuel fuel' xs ys h, (k < fuel)%nat ->
  chain_samples fuel' rate d = Ok (xs, e) -> top_of n h ys -> window_result (ys ++ xs) e (window_walk self fuel rate cache (mkBoundedHeap h n) d).
Proof using Hfull Hsize Hgen.
  intros Hcache k d e Hc. induction Hc as [k d Hg|k d Hg Ho|k d sp e Hg Ho Hd Esp Hle Hc IH]; intros [|fuel] [|fuel'] xs ys h Hf Hx Ht; try lia; try done;
    cbn [window_walk chain_samples] in *; pose proof (top_of_len _ _ _ Ht) as Hlen.
  - rewrite decide_True in Hx by done. injection Hx as <-. rewrite app_nil_r. rewrite decide_False, decide_True by congruence. by split.
  - rewrite decide_False, decide_True in Hx by done. injection Hx as <-. rewrite app_nil_r. rewrite decide_True by done. unfold reached_size_bound. cbn [binary_heap size_bound].
    destruct (Z.eqb_spec (zlen h) n) as [E|E]; cbn; [split; [done|lia]|]. split; [done|]. split; [lia|]. f_equal. lia.
  - pose proof (chain_samples_ok rate (S k) d e ltac:(by econstructor)) as (xs' & Hxs & Hbelow).
    assert (xs = xs') as <- by (pose proof (Hxs (S (S k)) ltac:(lia)) as Hx'; pose proof (chain_samples_det rate (S fuel') _ d _ _ Hx Hx') as [= <-]; done).
    rewrite !decide_False in Hx by done. rewrite !decide_False by done. rewrite Esp in *. cbn [unwrap mbind res_bind] in *.
    specialize (Hbelow Hg Ho). destruct (can_push_ok (E:=RuleError) n h (sp_key d) Hsize) as (can & Ecan & Hcan).
    replace (mkSortable (selected_parent d) (blue_work sp)) with (sp_key d) by (unfold sp_key, key_of; by rewrite Esp).
    rewrite Ecan. cbn [mbind res_bind]. destruct can; cbn [negb].
    2: { destruct (Hcan eq_refl) as [Hfullheap Hmin]. cbn. split; [|rewrite zlen_app; pose proof (zlen_nonneg xs); lia].
         apply top_of_below; [done..|]. intros a b Ha Hb. etrans; [by apply Hbelow|by apply Hmin]. }
    destruct (push_mergeset_ok false d sp h ys Hd Esp Ht) as (l & h' & El & Ht' & Ep). rewrite Ep. rewrite El in Hx. cbn [mbind res_bind] in *.
    destruct (chain_samples fuel' rate sp) as [[xs0 e0]| | |] eqn:Ex; try done. cbn in Hx. injection Hx as <- ->.
    rewrite app_assoc. unfold try_merge_with_selected_parent_cache. destruct (cached cache (selected_parent d)) as [w|] eqn:Ew; [|eapply IH; [lia|done|done]].
    destruct (Hcache _ _ Ew) as (d' & xs' & e' & f & Ed' & Es & Hw1 & Hw2). assert (d' = sp) as -> by congruence.
    pose proof (chain_samples_det _ _ _ _ _ _ Es Ex) as [= -> ->]. cbn. split.
    + apply (top_of_app n h' w); [lia|done|done|apply merge_top; lia].
    + intros He. specialize (Hw2 He). rewrite zlen_app. pose proof (zlen_nonneg (ys ++ sampled l)). lia.
Qed.
Lemma build_window_ok caches k d e fuel : cache_sound (cache_for caches ty) -> chain_ready k d e -> (k < fuel)%nat ->
  selected_parent d <> genesis -> selected_parent d <> ORIGIN ->
  exists xs, chain_samples fuel rate d = Ok (xs, e) /\
    match build_block_window self fuel caches d ty with
    | Ok (w, hs) => window_for xs e w /\ exists t, lowest_daa_blue_score (E:=RuleError) (wm_difficulty_manager self) d = Ok t /\
        hs ≡ₚ filter (fun h => from_option blue_score 0 (store !! h) < t) (unordered_mergeset d)
    | Err err => e = false /\ zlen xs < n /\ err = InsufficientDaaWindowSize (zlen xs)
    | _ => False
    end.
Proof using Hfull Hsize Hgen.
  intros Hcache Hc Hf Hg Ho. destruct (chain_samples_ok rate k d e Hc) as (xs & Hxs & _). exists xs. split; [by apply Hxs|].
  inversion Hc as [|? ? ?|k' ? sp ? _ _ Hd Esp Hle Hc']; subst; try done. specialize (Hxs (S (S k')) ltac:(lia)).
  unfold build_block_window. rewrite (proj2 (Z.eqb_neq n 0)) by lia. rewrite !decide_False by done. rewrite Esp. cbn [unwrap mbind res_bind].
  cbn [chain_samples] in Hxs. rewrite !decide_False in Hxs by done. rewrite Esp in Hxs. cbn [unwrap mbind res_bind] in Hxs.
  destruct (iterator_ok rate d sp Hd Esp) as (l & t & El & Hs & _ & Et & Hn). rewrite El in Hxs. cbn [mbind res_bind] in Hxs.
  destruct (chain_samples_ok rate k' sp e Hc') as (xs0 & Hxs0 & _).
  pose proof (Hxs0 (S k') ltac:(lia)) as E0. cbn [chain_samples] in Hxs, E0. rewrite E0 in Hxs. cbn [mbind res_bind] in Hxs. injection Hxs as <-.
  unfold try_init_from_cache. destruct (cached (cache_for caches ty) (selected_parent d)) as [w|] eqn:Ew.
  - destruct (Hcache _ _ Ew) as (d' & xs' & e' & f & Ed' & Es & Hw1 & Hw2). assert (d' = sp) as -> by congruence.
    pose proof (chain_samples_det _ _ (S k') _ _ _ Es E0) as [= -> ->].
    destruct (push_mergeset_ok true d sp w xs0 Hd Esp Hw1) as (l' & h' & El' & Ht' & ->). assert (l' = l) as -> by congruence. cbn [mbind res_bind].
    split; [|by exists t]. split; [eapply top_of_perm; [apply Permutation_app_comm|done]|]. intros He. specialize (Hw2 He). rewrite zlen_app. pose proof (zlen_nonneg (sampled l)). lia.
  - cbn [mbind res_bind]. destruct (push_mergeset_ok true d sp [] [] Hd Esp (top_of_nil n ltac:(lia))) as (l' & h' & El' & Ht' & Ep).
    assert (l' = l) as -> by congruence. unfold bounded_heap_new. rewrite Ep. cbn [mbind res_bind].
    pose proof (window_walk_ok _ Hcache k' sp e Hc' fuel (S k') xs0 (sampled l) h' ltac:(lia) E0 Ht') as Hw.
    destruct (window_walk self fuel rate (cache_for caches ty) (mkBoundedHeap h' n) sp); cbn in *; [|done..]. split; [done|by exists t].
Qed.
(** C25. The window of a block: the blocks of greatest blue work among all the
    samples of the mergesets on its selected chain, whatever windows the cache
    holds and although the walk down the chain stops early; it is an error
    exactly when the data of the chain ends before the window is full.  The
    hashes passed to the inserter are the mergeset blocks that are too deep to
    count for the difficulty window. *)
Theorem window_is_top_of_chain caches k d e fuel : cache_sound (cache_for caches ty) -> chain_ready k d e -> (k < fuel)%nat ->
  selected_parent d <> genesis -> selected_parent d <> ORIGIN ->
  exists xs, chain_samples fuel rate d = Ok (xs, e) /\
    match build_block_window self fuel caches d ty with
    | Ok (w, hs) => window_for xs e w /\ exists t, lowest_daa_blue_score (E:=RuleError) (wm_difficulty_manager self) d = Ok t /\
        hs ≡ₚ filter (fun h => from_option blue_score 0 (store !! h) < t) (unordered_mergeset d)
    | Err err => e = false /\ zlen xs < n /\ err = InsufficientDaaWindowSize (zlen xs)
    | _ => False
    end.
Proof using Hfull Hsize Hgen. by apply build_window_ok. Qed.


(** ** The cover of a window *)
Lemma cover_mergeset_ok ms : (forall h, h ∈ ms -> is_Some (store !! h)) -> forall unvisited cover,
  exists cover', res_foldl (cover_mergeset self) (unvisited, cover) ms = Ok (unvisited ∖ list_to_set ms, cover') /\ cover ∪ list_to_set ms ⊆ cover'.
Proof.
  induction ms as [|h ms IH]; intros Hd unvisited cover; cbn [res_foldl].
  { exists cover. split; [|set_solver]. do 2 f_equal. set_solver. }
  destruct (Hd h ltac:(left)) as [d Eh]. specialize (IH ltac:(intros x Hx; apply Hd; by right)). unfold cover_mergeset at 2. case_decide as Hu.
  - rewrite Eh. cbn [unwrap mbind res_bind]. destruct (IH (unvisited ∖ {[h]}) ({[selected_parent d]} ∪ ({[h]} ∪ cover))) as (cover' & -> & Hc).
    exists cover'. split; [do 2 f_equal; set_solver|set_solver].
  - cbn [mbind res_bind]. destruct (IH unvisited ({[h]} ∪ cover)) as (cover' & -> & Hc). exists cover'. split; [|set_solver]. do 2 f_equal.
    apply set_eq. intros x. cbn. rewrite !elem_of_difference, elem_of_union, elem_of_singleton. naive_solver.
Qed.
Lemma cover_loop_ok k d e : chain_ready k d e -> forall fuel fuel' xs unvisited cover, (S k < fuel)%nat -> chain_samples fuel' rate d = Ok (xs, e) ->
  unvisited ⊆ list_to_set (map sb_hash xs) -> exists cover', cover_loop self fuel unvisited cover d = Ok cover' /\ cover ∪ unvisited ⊆ cover'.
Proof using Hfull Hsize Hgen.
  induction 1 as [k d Hg|k d Hg Ho|k d sp e Hg Ho Hd Esp Hle Hc IH]; intros [|fuel] [|fuel'] xs unvisited cover Hf Hx Hu; try lia; try done; cbn [cover_loop chain_samples] in *.
  - rewrite decide_True in Hx by done. injection Hx as <-. rewrite decide_True by set_solver. exists cover. split; [done|set_solver].
  - rewrite decide_False, decide_True in Hx by done. injection Hx as <-. rewrite decide_True by set_solver. exists cover. split; [done|set_solver].
  - destruct (decide (unvisited = ∅)) as [Hun|Hun]; [exists cover; split; [done|set_solver]|]. rewrite bool_decide_true by done. cbn [rassert mbind res_bind].
    rewrite !decide_False in Hx by done. rewrite Esp in *. cbn [unwrap mbind res_bind] in Hx. destruct (iterator_ok rate d sp Hd Esp) as (l & t & El & _ & Hl & _).
    rewrite El in Hx. cbn [mbind res_bind] in Hx. destruct (chain_samples fuel' rate sp) as [[xs0 e0]| | |] eqn:Ex; try done. cbn in Hx. injection Hx as <- ->.
    destruct (cover_mergeset_ok (unordered_mergeset d) (mr_data d Hd) unvisited cover) as (cover1 & -> & Hc1). cbn [mbind res_bind].
    destruct (decide (unvisited ∖ list_to_set (unordered_mergeset d) = ∅)) as [Hun'|Hun']; [exists cover1; split; [done|set_solver]|]. cbn [unwrap mbind res_bind].
    destruct (IH fuel fuel' xs0 (unvisited ∖ list_to_set (unordered_mergeset d)) cover1 ltac:(lia) Ex) as (cover2 & -> & Hc2).
    { intros h [Hh Hm]%elem_of_difference. apply Hu in Hh. rewrite map_app, list_to_set_app, elem_of_union in Hh. destruct Hh as [Hh|Hh]; [|done].
      destruct Hm. apply elem_of_list_to_set, list_elem_of_fmap in Hh as (b & -> & Hb). apply elem_of_list_to_set. by apply Hl. }
    exists cover2. split; [done|]. intros h Hh. apply Hc2. destruct (decide (h ∈ (list_to_set (unordered_mergeset d) : gset Hash))); set_solver.
Qed.
(** The cover of a window that was built for a block is found: the walk reaches
    all its blocks before the data of the chain ends, and the cover holds them. *)
Theorem window_cover_complete k d e fuel xs w : chain_ready k d e -> (S k < fuel)%nat -> chain_samples fuel rate d = Ok (xs, e) -> window_for xs e w ->
  0 <= zlen w * wm_difficulty_sample_rate self < 2 ^ 64 ->
  exists cover, consecutive_cover_for_window self fuel d w = Ok cover /\ forall b, b ∈ w -> sb_hash b <> ORIGIN -> sb_hash b ∈ cover.
Proof using Hfull Hsize Hgen.
  intros Hc Hf Hx [(rest & Hp & _) _] Hcap. unfold consecutive_cover_for_window, u64_mul. rewrite chk_ok by done. cbn [mbind res_bind].
  destruct (cover_loop_ok k d e Hc fuel fuel xs (list_to_set (map sb_hash w)) ∅ Hf Hx) as (cover & -> & Hcover).
  { intros h. rewrite !elem_of_list_to_set, !list_elem_of_fmap. intros (b & -> & Hb). exists b. split; [done|]. rewrite <- Hp. apply elem_of_app. by left. }
  cbn [mbind res_bind]. eexists. split; [done|]. intros b Hb Ho. apply elem_of_difference. split; [|set_solver]. apply Hcover, elem_of_union_r, elem_of_list_to_set, list_elem_of_fmap. by exists b.
Qed.
End theorems.

(** ** The DAA window *)
Section daa.
Context `{EC : !EvictChoice Hash (list SortableBlock)}.
Context (self : SampledWindowManager) (caches : WindowCaches).
Abbreviation dm := (wm_difficulty_manager self).
(** The two ways to the DAA window of a block agree: the blocks that
    [block_daa_window] collects while it builds the window are those that
    [calc_daa_window] computes from the mergeset, and so are the scores. *)
Theorem daa_windows_agree k d e fuel w
  (Hfull : 0 <= dm_difficulty_window_size dm * dm_difficulty_sample_rate dm < 2 ^ 64)
  (Hsize : 0 < window_size self DifficultyWindow) (Hgen : wm_genesis_hash self <> ORIGIN)
  (Hstore : dm_headers_store dm = wm_headers_store self) (Hcache : cache_sound self DifficultyWindow (cache_for caches DifficultyWindow))
  (Hc : chain_ready self k d e) (Hf : (k < fuel)%nat) (Hg : selected_parent d <> wm_genesis_hash self) (Ho : selected_parent d <> ORIGIN) :
  block_daa_window self fuel caches d = Ok w -> calc_daa_window self d (dw_window w) = Ok w.
Proof.
  destruct (build_window_ok self Hfull DifficultyWindow Hsize Hgen caches k d e fuel Hcache Hc Hf Hg Ho) as (xs & _ & Hw).
  unfold block_daa_window, calc_daa_window. destruct (build_block_window self fuel caches d DifficultyWindow) as [[win hs]| | |]; try done.
  destruct Hw as (_ & t & Et & Hhs). cbn [mbind res_bind]. inversion Hc as [|? ? ?|k' ? sp ? _ _ Hd Esp Hle Hc']; subst; try done.
  destruct (mr_header self d Hd) as (hd & Eh & H0 & Hlt).
  assert (mergeset_size d = zlen (unordered_mergeset d)) as Hms by (unfold unordered_mergeset; by rewrite zlen_app).
  destruct (daa_score_counts (E:=RuleError) dm d (wm_ghostdag_store self) hd) as (score & nd & Ecalc & Hnd & _).
  - by rewrite Hstore.
  - apply Hd.
  - intros h Hh. by apply elem_of_dom, (mr_data self d Hd).
  - exact Hfull.
  - exact (mr_score self d Hd).
  - lia.
  - lia.
  - assert (t = Z.max 0 (blue_score d - dm_difficulty_window_size dm * dm_difficulty_sample_rate dm)) as ->.
    { unfold lowest_daa_blue_score, difficulty_full_window_size, u64_mul in Et. rewrite chk_ok in Et by exact Hfull. cbn [mbind res_bind] in Et.
      apply chk_inv in Et as [-> _]. lia. }
    assert (nd = list_to_set hs) as ->.
    { apply set_eq. intros h. rewrite Hnd, elem_of_list_to_set, Hhs, list_elem_of_filter. split.
      - intros (Hh & bd & Ebd & Hb). by rewrite Ebd.
      - intros [Hb Hh]. split; [done|]. destruct (mr_data self d Hd h Hh) as [bd Ebd]. rewrite Ebd in Hb. by exists bd. }
    rewrite Ecalc. cbn [mbind res_bind]. unfold calc_daa_score_and_mergeset_non_daa_blocks in Ecalc. do 3 bind_inv Ecalc. injection Ecalc as -> Es.
    unfold calc_daa_score. rewrite Es in Ha1. rewrite Ha1. cbn [mbind res_bind]. by intros [= <-].
Qed.
End daa.

(** ** A sample: a chain of four blocks above genesis *)
Module SampleChain.
Definition data (score work sp : Z) : GhostdagData := mkGhostdagData score work sp [sp] [] ∅.
Definition ghostdag : GhostdagStore := {[1 := data 0 0 ORIGIN; 2 := data 1 10 1; 3 := data 2 20 2; 4 := data 3 30 3]}.
Definition headers : HeaderStore := {[1 := mkCompactHeader 0 0 0 0; 2 := mkCompactHeader 0 0 0 1; 3 := mkCompactHeader 1 0 0 2; 4 := mkCompactHeader 2 0 0 3]}.
Definition manager : SampledWindowManager :=
  mkWindowManager 1 ghostdag headers 2 1 2 1 (mkDifficultyManager headers 1 0 (ZERO 5) 2 1 1 1000).
Definition tip : GhostdagData := data 4 40 4.
(** The window of block 4 is cached. *)
Definition window4 : BlockWindowHeap := [mkSortable 2 10; mkSortable 3 20].
Definition caches : WindowCaches :=
  mkCaches (mkDbCache (mkInner [(4, window4)] 0) (policy_from (Count 10))) (db_cache_new (Count 10)).
Definition no_caches : WindowCaches := mkCaches (db_cache_new (Count 10)) (db_cache_new (Count 10)).

Lemma ready score work sp spd : ghostdag !! sp = Some spd -> 0 <= score < 2 ^ 64 ->
  (exists hd, headers !! sp = Some hd /\ 0 <= h_daa_score hd /\ h_daa_score hd + 1 < 2 ^ 64) -> mergeset_ready manager (data score work sp).
Proof.
  intros Hsp Hs Hh. split; cbn.
  - by exists [].
  - intros h ->%list_elem_of_singleton. by exists spd.
  - apply NoDup_singleton.
  - split; constructor.
  - by intros h ->%list_elem_of_singleton.
  - exact Hh.
  - exact Hs.
Qed.
Lemma chain3 : chain_ready manager 2 (data 3 30 3) true.
Proof.
  apply (cr_step _ _ _ (data 2 20 2)); [done|done| |done|intros _ _; by vm_compute|].
  { apply (ready _ _ _ (data 2 20 2)); [done|lia|]. eexists. split; [done|]. cbn. lia. }
  apply (cr_step _ _ _ (data 1 10 1)); [done|done| |done|by intros []|by apply cr_genesis].
  apply (ready _ _ _ (data 1 10 1)); [done|lia|]. eexists. split; [done|]. cbn. lia.
Qed.
Lemma chain4 : chain_ready manager 3 tip true.
Proof.
  apply (cr_step _ _ _ (data 3 30 3)); [done|done| |done|intros _ _; by vm_compute|apply chain3].
  apply (ready _ _ _ (data 3 30 3)); [done|lia|]. eexists. split; [done|]. cbn. lia.
Qed.
Lemma sound : cache_sound manager DifficultyWindow (cache_for caches DifficultyWindow).
Proof.
  intros h w. cbn. case_decide as Hd; [|done]. intros [= <-]. subst h. exists (data 3 30 3), [mkSortable 3 20; mkSortable 2 10], true, 3%nat.
  split; [done|]. split; [vm_compute; reflexivity|]. split; [|done]. exists []. split; [apply Permutation_swap|]. split; [done|]. by intros a b _ ?%elem_of_nil.
Qed.
Lemma window_is_top_of_chain_witness : exists xs,
  chain_samples manager 9 1 tip = Ok (xs, true) /\ xs = [mkSortable 4 30; mkSortable 3 20; mkSortable 2 10] /\
  build_block_window manager 9 caches tip DifficultyWindow = Ok ([mkSortable 4 30; mkSortable 3 20], []) /\
  build_block_window manager 9 no_caches tip DifficultyWindow = Ok ([mkSortable 3 20; mkSortable 4 30], []) /\
  window_for manager DifficultyWindow xs true [mkSortable 4 30; mkSortable 3 20].
Proof.
  destruct (window_is_top_of_chain manager ltac:(cbn; lia) DifficultyWindow ltac:(cbn; lia) ltac:(done) caches 3 tip true 9 sound chain4 ltac:(lia) ltac:(done) ltac:(done))
    as (xs & Hx & Hw). exists xs. split; [done|]. vm_compute in Hx. injection Hx as <-. split; [done|].
  split; [vm_compute; reflexivity|]. split; [vm_compute; reflexivity|].
  replace (build_block_window manager 9 caches tip DifficultyWindow) with (Ok (E:=RuleError) ([mkSortable 4 30; mkSortable 3 20], @nil Hash)) in Hw by (vm_compute; reflexivity).
  exact (proj1 Hw).
Defined.
(** For a block whose selected parent is genesis the two differ:
    [block_daa_window] does not count genesis, [calc_daa_window] does. *)
Theorem daa_windows_differ_at_genesis :
  block_daa_window manager 9 caches (data 1 10 1) = Ok (mkDaaWindow [] 0 {[1]}) /\
  calc_daa_window manager (data 1 10 1) [] = Ok (mkDaaWindow [] 1 ∅).
Proof. split; vm_compute; reflexivity. Qed.
End SampleChain.
