(* ===== verification/UtxoState.v ===== *)
(** * The UTXO state of a block

    [consensus/src/pipeline/virtual_processor/utxo_validation.rs]: applying
    the transactions of a mergeset to the UTXO set of the selected parent
    ([calculate_utxo_state]), and checking a block against the state this
    gives ([verify_expected_utxo_state]).  The contract store
    ([svm/runtime/src/store.rs] and [db_store.rs]) is part of the state: a
    deploy that is accepted writes to it.

    The transactions of a block are validated on a thread pool; the order in
    which they run is given by [Schedule], and the validation of one
    transaction is taken as atomic.  The pool's [collect] and [reduce] keep the
    order of the block.

    The theorems: from a ledger, [calculate_utxo_state] always returns, its
    diff leads to the UTXO set of the extended ledger, to which the multiset
    hash commits, and the value in the set changes by the coinbase's outputs
    minus the fees; what a verified block respects. *)
From S2P Require Import Prelude Encode Tx Hashing Header Merkle Script ScriptVm ScriptSafe Svm Mass TxIsolation TxUtxo Utxo Muhash Dag Coinbase BlockBody.

(** The order in which a thread pool runs the tasks [0 .. n-1] of a job. *)
Class Schedule := {
  schedule : Hash -> nat -> list nat;
  schedule_perm job n : schedule job n ≡ₚ seq 0 n;
}.
Definition in_order : Schedule := {| schedule _ n := seq 0 n; schedule_perm _ n := Permutation_refl _ |}.

(** ** Data *)
Record ValidatedTransaction := mkValidated { vtx : PopulatedTransaction; calculated_fee : u64 }.
Record AcceptedTxEntry := mkAccepted { acc_transaction_id : Hash; index_within_block : u32 }.
Record MergesetBlockAcceptanceData := mkAcceptance { acc_block_hash : Hash; accepted_transactions : list AcceptedTxEntry }.
Record CompactGhostdagData := mkCompact { c_blue_score : u64; c_blue_work : BlueWorkType; c_selected_parent : Hash }.
Definition to_compact (d : GhostdagData) : CompactGhostdagData := mkCompact (blue_score d) (blue_work d) (selected_parent d).
Record PruningPointReply := mkPruningReply { reply_pruning_sample : Hash; reply_pruning_point : Hash }.

Record UtxoProcessingContext := mkContext {
  ghostdag_data : GhostdagData;
  multiset_hash : MuHash;
  mergeset_diff : UtxoDiff;
  accepted_tx_ids : list Hash;
  mergeset_acceptance_data : list MergesetBlockAcceptanceData;
  mergeset_rewards : gmap Hash BlockRewardData;
  pruning_sample_from_pov : option Hash;
}.
Definition context_new (d : GhostdagData) (selected_parent_multiset_hash : MuHash) : UtxoProcessingContext :=
  mkContext d selected_parent_multiset_hash ∅ [] [] ∅ None.

(** The stores and managers of the virtual state processor. *)
Record VirtualStateProcessor := {
  transaction_validator : TransactionValidator;
  vp_svm : option SvmContext;
  coinbase_manager : CoinbaseManager;
  block_transactions_store : gmap Hash (list Transaction);
  ghostdag_store : GhostdagStore;
  vp_headers_store : gmap Hash Header;
  daa_excluded_store : gmap Hash (gset Hash);
  (** [pruning_point_manager.expected_header_pruning_point] *)
  expected_header_pruning_point : CompactGhostdagData -> res RuleError PruningPointReply;
}.

(** What processing reads and writes besides the context: the validation
    state, the contract store, the address lookup tables and the chain blocks
    committed since the selected chain was last stored. *)
Record Ps := mkPs {
  ps_val : ValState;
  ps_wasm : gmap Hash bytes;
  ps_alt : gmap bytes AltEntry;
  ps_pending : gset Hash;
}.
Definition put_val (s : Ps) (v : ValState) : Ps := mkPs v (ps_wasm s) (ps_alt s) (ps_pending s).
Definition put_wasm (s : Ps) (w : gmap Hash bytes) : Ps := mkPs (ps_val s) w (ps_alt s) (ps_pending s).
Definition on_val {E A} (m : stm ValState E A) : stm Ps E A := fun s =>
  let '(r, v) := m (ps_val s) in (r, put_val s v).
(** The stores as the validator sees them through its [SvmContext]. *)
Definition with_stores (s : Ps) (c : SvmContext) : SvmContext := {|
  get_wasm cid := ps_wasm s !! cid; executor := executor c;
  alt_store := (fun _ handle => Some (ps_alt s !! handle)) <$> alt_store c;
  selected_chain_store := selected_chain_store c; pending_chain_blocks := ps_pending s;
  pruning_point_store := pruning_point_store c; headers_store := headers_store c |}.

Definition deploy_if_absent (store : gmap Hash bytes) (cid : Hash) (w : bytes) : gmap Hash bytes :=
  match store !! cid with Some _ => store | None => <[cid := w]> store end.

Definition new_coinbase {E} (tx : Transaction) : res E ValidatedTransaction :=
  _ ← rassert (is_coinbase tx);
  Ok (mkValidated {| ptx := tx; entries := [] |} 0).

(** [r.unwrap()] on a result, and on an operation of a diff. *)
Definition unwrap_res {E F A} (r : res E A) : res F A :=
  match r with Ok a => Ok a | NoFuel => NoFuel | _ => Panic end.
Definition unwrap_diff {E} (r : res UtxoAlgebraError unit * UtxoDiff) : res E UtxoDiff :=
  _ ← unwrap_res r.1; Ok r.2.

(** ** Operations *)
Section processor.
Context `{SC : ScriptCrypto} `{CR : CacheRandom} `{SI : !SetIter Hash} `{SCH : Schedule}.
Context (self : VirtualStateProcessor).
Abbreviation P A := (res RuleError A) (only parsing).

Section validation.
Context `{!UtxoView V} (utxo_view : V) (pov_daa_score : u64) (flags : TxValidationFlags).

Definition populate (tx : Transaction) : TxResult (list UtxoEntry) :=
  res_mapM (fun i => ok_or (get utxo_view (previous_outpoint i)) MissingTxOutpoints) (inputs tx).
Definition validate_transaction_in_utxo_context (svm : option SvmContext) (tx : Transaction)
    : stm ValState TxRuleError ValidatedTransaction :=
  es ← slift (populate tx);
  populated ← slift (PopulatedTransaction_new tx es);
  fee ← validate_populated_transaction_and_get_fee (transaction_validator self)
          (schedule (id tx) (length (inputs tx))) svm populated pov_daa_score flags None;
  mret (mkValidated populated fee).

(** One task of the pool: [.ok()] drops the error. *)
Definition validate_one (svm : option SvmContext) (txs : list Transaction)
    (acc : gmap nat ValidatedTransaction) (i : nat) : stm ValState RuleError (gmap nat ValidatedTransaction) := fun s =>
  match txs !! i with
  | None => (Panic, s)
  | Some tx =>
      match validate_transaction_in_utxo_context svm tx s with
      | (Ok v, s) => (Ok (<[i := v]> acc), s)
      | (Err _, s) => (Ok acc, s)
      | (Panic, s) => (Panic, s)
      | (NoFuel, s) => (NoFuel, s)
      end
  end.
(** [job] names the run of the pool; the contract store does not change
    during it. *)
Definition validate_transactions_in_parallel (job : Hash) (txs : list Transaction)
    : stm Ps RuleError (list (ValidatedTransaction * u32)) := fun s =>
  on_val (acc ← stm_foldl (validate_one (with_stores s <$> vp_svm self) txs) ∅
                  (map S (schedule job (length txs - 1)));
          mret (omap (fun i => (fun v => (v, wrap 32 (Z.of_nat i))) <$> acc !! i) (seq 1 (length txs - 1)))) s.
Definition validate_transactions_with_muhash_in_parallel (job : Hash) (txs : list Transaction)
    : stm Ps RuleError (list (ValidatedTransaction * u32) * MuHash) :=
  validated ← validate_transactions_in_parallel job txs;
  hashes ← slift (res_mapM (fun v : ValidatedTransaction * u32 => from_transaction (vtx v.1) pov_daa_score) validated);
  mret (validated, foldl combine muhash_new hashes).
End validation.

Definition process_contract_deploy_if_needed (store : gmap Hash bytes) (tx : Transaction) : gmap Hash bytes :=
  if negb (is_contract_deploy tx) then store else
  match vp_svm self with
  | None => store
  | Some _ =>
      match try_from_slice borsh_wasm (payload tx) with
      | None => store
      | Some p => deploy_if_absent store (hash_wasm (wasm p)) (wasm p)
      end
  end.
Definition process_mint_policy_deploy_if_needed (store : gmap Hash bytes) (tx : Transaction) : gmap Hash bytes :=
  if negb (is_mint_policy_deploy tx) then store else
  match vp_svm self with
  | None => store
  | Some _ =>
      match try_from_slice borsh_wasm (payload tx) with
      | None => store
      | Some p => deploy_if_absent store (hash_mint_policy (wasm p)) (wasm p)
      end
  end.

(** The diff, the accepted identifiers, the fees and the contract store, and
    what accepting one transaction does to them. *)
Record Acceptance := mkAcc { ac_diff : UtxoDiff; ac_ids : list Hash; ac_fee : u64; ac_wasm : gmap Hash bytes }.
Definition accept_transaction (pov_daa_score : u64) (a : Acceptance) (v : ValidatedTransaction * u32) : P Acceptance :=
  d ← unwrap_diff (add_transaction (vtx v.1) pov_daa_score (ac_diff a));
  fee ← u64_add (ac_fee a) (calculated_fee v.1);
  Ok (mkAcc d (ac_ids a ++ [id (ptx (vtx v.1))]) fee
        (process_mint_policy_deploy_if_needed (process_contract_deploy_if_needed (ac_wasm a) (ptx (vtx v.1)))
           (ptx (vtx v.1)))).

Section calculate.
Context `{!UtxoView V} (selected_parent_utxo_view : V) (pov_daa_score : u64).

(** One iteration of the loop over the mergeset. *)
Definition process_merged_block (coinbase_id : Hash) (ctx : UtxoProcessingContext) (b : nat * (Hash * list Transaction))
    : stm Ps RuleError UtxoProcessingContext :=
  let '(i, (merged_block, txs)) := b in
  let composed_view := compose selected_parent_utxo_view (mergeset_diff ctx) in
  let is_selected_parent := (i =? 0)%nat in
  let validation_flags := if is_selected_parent then SkipScriptChecks else Full in
  '(validated, inner_multiset) ←
    validate_transactions_with_muhash_in_parallel composed_view pov_daa_score validation_flags merged_block txs;
  let multiset := combine (multiset_hash ctx) inner_multiset in
  a ← (fun s => match res_foldl (accept_transaction pov_daa_score)
                        (mkAcc (mergeset_diff ctx) (accepted_tx_ids ctx) 0 (ps_wasm s)) validated with
                | Ok a => (Ok a, put_wasm s (ac_wasm a))
                | Err e => (Err e, s)
                | Panic => (Panic, s)
                | NoFuel => (NoFuel, s)
                end);
  let acceptance := mkAcceptance merged_block
    ((if is_selected_parent then [mkAccepted coinbase_id 0] else []) ++
     map (fun v : ValidatedTransaction * u32 => mkAccepted (id (ptx (vtx v.1))) v.2) validated) in
  coinbase ← slift (at_ txs 0);
  coinbase_data ← slift (unwrap_res (deserialize_coinbase_payload (coinbase_manager self) (payload coinbase)));
  mret (mkContext (ghostdag_data ctx) multiset (ac_diff a) (ac_ids a)
          (mergeset_acceptance_data ctx ++ [acceptance])
          (<[merged_block := mkReward (cd_subsidy coinbase_data) (ac_fee a) (miner_spk (cd_miner_data coinbase_data))]>
             (mergeset_rewards ctx))
          (pruning_sample_from_pov ctx)).

Definition merged_blocks (d : GhostdagData) : P (list (Hash * list Transaction)) :=
  l ← consensus_ordered_mergeset d (ghostdag_store self);
  res_mapM (fun b => txs ← unwrap (block_transactions_store self !! b); Ok (b, txs)) l.
Definition calculate_utxo_state (ctx : UtxoProcessingContext) : stm Ps RuleError UtxoProcessingContext :=
  selected_parent_transactions ←
    slift (unwrap (block_transactions_store self !! selected_parent (ghostdag_data ctx)));
  coinbase ← slift (at_ selected_parent_transactions 0);
  validated_coinbase ← slift (new_coinbase coinbase);
  d ← slift (unwrap_diff (add_transaction (vtx validated_coinbase) pov_daa_score (mergeset_diff ctx)));
  m ← slift (muhash_add_transaction (multiset_hash ctx) (vtx validated_coinbase) pov_daa_score);
  let ctx := mkContext (ghostdag_data ctx) m d (accepted_tx_ids ctx ++ [id coinbase]) (mergeset_acceptance_data ctx)
               (mergeset_rewards ctx) (pruning_sample_from_pov ctx) in
  blocks ← slift (merged_blocks (ghostdag_data ctx));
  stm_foldl (process_merged_block (id coinbase)) ctx (zip (seq 0 (length blocks)) blocks).
End calculate.

(** ** Verification of a block *)
Definition calc_accepted_id_merkle_root (ids : list Hash) (selected_parent : Hash) : P MerkleHash :=
  h ← unwrap (vp_headers_store self !! selected_parent);
  root ← calc_merkle_root ids;
  Ok (merkle_hash_from_node (accepted_id_merkle_root h) root).
Definition verify_coinbase_transaction (coinbase : Transaction) (daa_score : u64) (d : GhostdagData)
    (rewards : gmap Hash BlockRewardData) (mergeset_non_daa : gset Hash) : P unit :=
  data ← unwrap_res (deserialize_coinbase_payload (coinbase_manager self) (payload coinbase));
  expected ← unwrap_res (expected_coinbase_transaction (coinbase_manager self) calc_id rewards mergeset_non_daa daa_score
                           (cd_miner_data data) d);
  fail_if (negb (tx_hash coinbase =? tx_hash (ct_tx expected))) BadCoinbaseTransaction.
Definition verify_header_pruning_point (h : Header) (d : CompactGhostdagData) : P PruningPointReply :=
  reply ← expected_header_pruning_point self d;
  _ ← fail_if (negb (reply_pruning_point reply =? pruning_point h))
        (WrongHeaderPruningPoint (reply_pruning_point reply) (pruning_point h));
  Ok reply.
Definition verify_expected_utxo_state `{!UtxoView V} (ctx : UtxoProcessingContext) (selected_parent_utxo_view : V) (h : Header)
    : stm Ps RuleError UtxoProcessingContext :=
  let expected_commitment := muhash_finalize (multiset_hash ctx) in
  _ ← slift (fail_if (negb (expected_commitment =? utxo_commitment h))
               (BadUTXOCommitment (h_hash h) (utxo_commitment h) expected_commitment));
  expected_root ← slift (calc_accepted_id_merkle_root (accepted_tx_ids ctx) (selected_parent (ghostdag_data ctx)));
  _ ← slift (fail_if (negb (expected_root =? accepted_id_merkle_root h))
               (BadAcceptedIDMerkleRoot (h_hash h) (accepted_id_merkle_root h) expected_root));
  txs ← slift (unwrap (block_transactions_store self !! h_hash h));
  coinbase ← slift (at_ txs 0);
  non_daa ← slift (unwrap (daa_excluded_store self !! h_hash h));
  _ ← slift (verify_coinbase_transaction coinbase (h_daa_score h) (ghostdag_data ctx) (mergeset_rewards ctx) non_daa);
  reply ← slift (verify_header_pruning_point h (to_compact (ghostdag_data ctx)));
  let ctx := mkContext (ghostdag_data ctx) (multiset_hash ctx) (mergeset_diff ctx) (accepted_tx_ids ctx)
               (mergeset_acceptance_data ctx) (mergeset_rewards ctx) (Some (reply_pruning_sample reply)) in
  let current_utxo_view := compose selected_parent_utxo_view (mergeset_diff ctx) in
  validated ← validate_transactions_in_parallel current_utxo_view (h_daa_score h) Full (h_hash h) txs;
  n ← slift (u64_sub (zlen txs) 1);
  _ ← slift (fail_if (zlen validated <? n) (InvalidTransactionsInUtxoContext (n - zlen validated) n));
  mret ctx.
End processor.

(** ** Ledgers

    Applying a transaction to a set of entries, and the sets that arise from
    applying transactions one after the other.  The invariants do not mention
    the order of blocks: identifiers are used once, what was spent is gone, and
    every entry comes from an accepted transaction. *)
Definition apply_tx (W : UtxoCollection) (td : PopulatedTransaction * u64) : UtxoCollection :=
  foldr (fun oe W => <[oe.1 := oe.2]> W) (foldr (fun oe W => delete oe.1 W) W (spent td.1)) (created td.1 td.2).
Definition spends (t : Transaction) : list TransactionOutpoint := map previous_outpoint (inputs t).
Definition td_id (td : PopulatedTransaction * u64) : Hash := id (ptx td.1).

Record entry_ok (e : UtxoEntry) : Prop := {
  eo_script : spk_bytes (script_public_key e) /\ zlen (spk_script (script_public_key e)) < 2 ^ 32;
  eo_amount : 0 <= amount e;
  eo_score : 0 <= block_daa_score e < 2 ^ 62;
}.
Record tx_sane (t : Transaction) : Prop := {
  wf_inputs : zlen (inputs t) < 2 ^ 31;
  wf_outputs : zlen (outputs t) < 2 ^ 31;
  wf_input : Forall (fun i => is_bytes (signature_script i) /\ inW 8 (sig_op_count i) /\ 0 <= sequence i) (inputs t);
  wf_output : Forall (fun o => (spk_bytes (out_script_public_key o) /\ zlen (spk_script (out_script_public_key o)) < 2 ^ 32) /\
                0 <= value o) (outputs t);
  wf_total : sum_of value (outputs t) < 2 ^ 64;
  wf_payload : is_bytes (payload t) /\ zlen (payload t) < 2 ^ 32;
}.

Record ledger (A : list (PopulatedTransaction * u64)) (W : UtxoCollection) : Prop := {
  lg_state : W = foldl apply_tx ∅ A;
  lg_from o e : W !! o = Some e -> exists td, td ∈ A /\ (o, e) ∈ created td.1 td.2;
  lg_ids : NoDup (map td_id A);
  lg_spent td p : td ∈ A -> p ∈ spends (ptx td.1) -> W !! p = None /\ transaction_id p ∈ map td_id A;
  lg_typed o e : W !! o = Some e -> entry_ok e;
  lg_sum f : msum f W = sum_of (fun td => tx_delta f td.1 td.2) A;
}.
Lemma ledger_nil : ledger [] ∅.
Proof.
  split; try done; [apply NoDup_nil_2|by intros td p ?%elem_of_nil].
Qed.

Lemma lookup_deletes (l : list (TransactionOutpoint * UtxoEntry)) (W : UtxoCollection) o :
  foldr (fun oe W => delete oe.1 W) W l !! o = if decide (o ∈ l.*1) then None else W !! o.
Proof.
  induction l as [|[p e] l IH]; [done|]. cbn [foldr fmap list_fmap fst]. destruct (decide (o = p)) as [->|Hne].
  - rewrite lookup_delete_eq, decide_True by left. done.
  - rewrite lookup_delete_ne by done. rewrite IH. apply decide_ext. rewrite elem_of_cons. naive_solver.
Qed.
Lemma foldr_insert (l : list (TransactionOutpoint * UtxoEntry)) (W : UtxoCollection) o :
  foldr (fun oe W => <[oe.1 := oe.2]> W) W l !! o =
  match (list_to_map l : UtxoCollection) !! o with Some e => Some e | None => W !! o end.
Proof.
  induction l as [|[p e] l IH]; [cbn; by rewrite lookup_empty|]. cbn [foldr list_to_map fst snd].
  destruct (decide (o = p)) as [->|Hne]; [by rewrite !lookup_insert_eq|]. by rewrite !lookup_insert_ne.
Qed.
Lemma lookup_apply_tx W t daa o : apply_tx W (t, daa) !! o =
  match (list_to_map (created t daa) : UtxoCollection) !! o with
  | Some e => Some e
  | None => if decide (o ∈ (spent t).*1) then None else W !! o
  end.
Proof. unfold apply_tx. by rewrite foldr_insert, lookup_deletes. Qed.

Lemma msum_deletes f (l : list (TransactionOutpoint * UtxoEntry)) (W : UtxoCollection) : NoDup l.*1 ->
  (forall o e, (o, e) ∈ l -> W !! o = Some e) ->
  msum f (foldr (fun oe W => delete oe.1 W) W l) = msum f W - sum_of (fun oe => f oe.1 oe.2) l.
Proof.
  induction l as [|[o e] l IH]; intros Hnd Hl; [simpl; lia|]. apply NoDup_cons in Hnd as [Hno Hnd].
  cbn [foldr fst]. rewrite (msum_delete _ _ _ e), IH.
  - rewrite sum_of_cons. cbn [fst snd]. lia.
  - done.
  - intros o' e' H'. apply Hl. by right.
  - rewrite lookup_deletes, decide_False by done. apply Hl. left.
Qed.
Lemma msum_inserts f (l : list (TransactionOutpoint * UtxoEntry)) (W : UtxoCollection) : NoDup l.*1 ->
  (forall o e, (o, e) ∈ l -> W !! o = None) ->
  msum f (foldr (fun oe W => <[oe.1 := oe.2]> W) W l) = msum f W + sum_of (fun oe => f oe.1 oe.2) l.
Proof.
  induction l as [|[o e] l IH]; intros Hnd Hl; [simpl; lia|]. apply NoDup_cons in Hnd as [Hno Hnd].
  cbn [foldr fst snd]. rewrite msum_insert, IH.
  - rewrite sum_of_cons. cbn [fst snd]. lia.
  - done.
  - intros o' e' H'. eapply Hl. by right.
  - rewrite foldr_insert, not_elem_of_list_to_map_1 by done. eapply Hl. left.
Qed.

(** A transaction whose populated entries are those of [W]. *)
Record fits (W : UtxoCollection) (t : PopulatedTransaction) : Prop := {
  ft_len : length (inputs (ptx t)) = length (entries t);
  ft_nodup : NoDup (spends (ptx t));
  ft_entries o e : (o, e) ∈ spent t -> W !! o = Some e;
  ft_wf : tx_sane (ptx t);
}.
Lemma spent_fst t : length (inputs (ptx t)) = length (entries t) -> (spent t).*1 = spends (ptx t).
Proof. intros Hl. unfold spent. rewrite fst_zip; [done|]. rewrite length_fmap. lia. Qed.
Lemma created_outs t daa : (created t daa).*1 = created_outpoints (ptx t).
Proof.
  apply list_eq. intros i. unfold created, created_outpoints. rewrite list_lookup_fmap, list_lookup_imap.
  destruct (outputs (ptx t) !! i) as [o|] eqn:Ho; cbn.
  - pose proof (lookup_lt_Some _ _ _ Ho) as Hlt. symmetry. apply map_lookup_Some || rewrite list_lookup_fmap.
    by rewrite (lookup_seq_lt _ _ _ Hlt).
  - apply lookup_ge_None in Ho. symmetry. rewrite list_lookup_fmap, lookup_seq_ge; done.
Qed.
Lemma created_in t daa o e : (o, e) ∈ created t daa -> transaction_id o = id (ptx t) /\ o ∈ created_outpoints (ptx t) /\
  exists out, out ∈ outputs (ptx t) /\ e = (created_entry 0 (is_coinbase (ptx t)) daa 0 out).2.
Proof.
  intros Hin. assert (o ∈ created_outpoints (ptx t)) as Ho.
  { rewrite <- (created_outs t daa). apply list_elem_of_fmap. by exists (o, e). }
  unfold created in Hin. apply elem_of_lookup_imap in Hin as (i & out & [= -> ->] & Hout). split_and!; [done..|].
  exists out. split; [by eapply list_elem_of_lookup_2|done].
Qed.
Lemma lg_old A W o e : ledger A W -> W !! o = Some e -> transaction_id o ∈ map td_id A.
Proof.
  intros HA (td & Htd & (Hid & _)%created_in)%(lg_from _ _ HA). rewrite Hid. apply list_elem_of_fmap. by exists td.
Qed.
Lemma created_typed t daa o e : tx_sane (ptx t) -> 0 <= daa < 2 ^ 62 -> (o, e) ∈ created t daa -> entry_ok e.
Proof.
  intros Hwf Hd (_ & _ & out & Hout & ->)%created_in. pose proof (wf_output _ Hwf) as Ho.
  rewrite Forall_forall in Ho. by destruct (Ho out Hout) as [? ?].
Qed.
Lemma apply_some W t daa o e : apply_tx W (t, daa) !! o = Some e -> (o, e) ∈ created t daa \/ (W !! o = Some e /\ o ∉ (spent t).*1).
Proof.
  rewrite lookup_apply_tx. destruct (list_to_map _ !! o) eqn:Hc; [intros [= ->]; left; by apply elem_of_list_to_map_2|].
  case_decide; [done|]. by right.
Qed.
Lemma apply_none W t daa o : transaction_id o <> id (ptx t) -> W !! o = None \/ o ∈ (spent t).*1 -> apply_tx W (t, daa) !! o = None.
Proof.
  intros Hid H. destruct (apply_tx W (t, daa) !! o) as [e|] eqn:He; [|done].
  apply apply_some in He as [(? & _)%created_in|[? ?]]; [done|]. destruct H; congruence.
Qed.
Lemma apply_same W t daa o : o ∉ spends (ptx t) -> o ∉ created_outpoints (ptx t) -> length (inputs (ptx t)) = length (entries t) ->
  apply_tx W (t, daa) !! o = W !! o.
Proof.
  intros Hs Hc Hl. rewrite lookup_apply_tx, spent_fst by done. rewrite decide_False by done.
  rewrite not_elem_of_list_to_map_1; [done|]. by rewrite created_outs.
Qed.

Section step.
Context (A : list (PopulatedTransaction * u64)) (W : UtxoCollection) (t : PopulatedTransaction) (daa : u64).
Context (HA : ledger A W) (Ht : fits W t) (Hnew : id (ptx t) ∉ map td_id A) (Hdaa : 0 <= daa < 2 ^ 62).

Lemma created_fresh o e : (o, e) ∈ created t daa -> W !! o = None.
Proof using HA Hnew.
  intros (Hid & _)%created_in. destruct (W !! o) as [e'|] eqn:He; [|done].
  apply (lg_old _ _ _ _ HA) in He. rewrite Hid in He. done.
Qed.
Lemma apply_msum f : msum f (apply_tx W (t, daa)) = msum f W + tx_delta f t daa.
Proof using HA Hnew Ht.
  unfold apply_tx, tx_delta. cbn [fst snd]. pose proof (wf_outputs _ (ft_wf _ _ Ht)). rewrite msum_inserts, msum_deletes.
  - lia.
  - rewrite spent_fst by apply Ht. apply Ht.
  - apply Ht.
  - apply created_nodup. lia.
  - intros o e Ho. rewrite lookup_deletes. case_decide; [done|]. by eapply created_fresh.
Qed.
Lemma spent_known p : p ∈ spends (ptx t) -> transaction_id p ∈ map td_id A /\ p ∈ (spent t).*1.
Proof using HA Ht.
  intros Hp. rewrite <- (spent_fst t) in Hp by apply Ht. split; [|done].
  apply list_elem_of_fmap in Hp as ([o e] & -> & Hoe). by apply (lg_old _ _ o e HA), Ht.
Qed.
Lemma ledger_step : ledger (A ++ [(t, daa)]) (apply_tx W (t, daa)).
Proof using HA Ht Hnew Hdaa.
  split.
  - rewrite foldl_app. cbn [foldl]. by rewrite <- (lg_state _ _ HA).
  - intros o e [Hc|[He _]]%apply_some.
    + exists (t, daa). split; [|done]. apply elem_of_app. right. by left.
    + destruct (lg_from _ _ HA o e He) as (td & ? & ?). exists td. split; [|done]. apply elem_of_app. by left.
  - rewrite map_app. apply NoDup_app. split_and!; [apply HA| |apply NoDup_singleton].
    intros x Hx ->%list_elem_of_singleton. by apply Hnew.
  - intros td p Htd Hp. rewrite map_app, elem_of_app.
    assert (transaction_id p ∈ map td_id A /\ (W !! p = None \/ p ∈ (spent t).*1)) as [Hid Hw].
    { apply elem_of_app in Htd as [Htd| ->%list_elem_of_singleton].
      - destruct (lg_spent _ _ HA td p Htd Hp). auto.
      - destruct (spent_known p Hp). auto. }
    split; [|by left]. apply apply_none; [|done]. intros Heq. rewrite Heq in Hid. done.
  - intros o e [Hc|[He _]]%apply_some; [|by eapply lg_typed].
    eapply created_typed; [apply Ht|exact Hdaa|exact Hc].
  - intros f. rewrite apply_msum, sum_of_app, (lg_sum _ _ HA). cbn. lia.
Qed.
End step.

(** ** Accepting the transactions of a block *)
Definition entry_amount (o : TransactionOutpoint) (e : UtxoEntry) : Z := amount e.
Lemma delta_amount t daa : length (inputs (ptx t)) = length (entries t) ->
  tx_delta entry_amount t daa = total_out t - total_in t.
Proof.
  intros Hl. unfold tx_delta, total_out, total_in, entry_amount, created, spent, populated_inputs. f_equal.
  - generalize 0%nat as k. induction (outputs (ptx t)) as [|o l IH] using rev_ind; [done|].
    intros k. rewrite imap_app, !sum_of_app, (IH k). cbn. lia.
  - revert Hl. generalize (inputs (ptx t)) (entries t). induction l as [|i l IH]; intros [|e es] Hl; try done.
    cbn [fmap list_fmap zip zip_with]. rewrite !sum_of_cons, IH by (simpl in Hl; lia). done.
Qed.

Section accept.
Context `{SC : ScriptCrypto} `{CR : CacheRandom}.
Context (self : VirtualStateProcessor) (pov : u64) (Hpov : 0 <= pov < 2 ^ 62).
Context `{!UtxoView V} (v : V) (A0 : list (PopulatedTransaction * u64)) (U : UtxoCollection).
Context (HA0 : ledger A0 U) (Hv : forall o, get v o = U !! o).
Implicit Types (B : list (ValidatedTransaction * u32)) (A : list (PopulatedTransaction * u64)).

Definition tracks (d : UtxoDiff) (W : UtxoCollection) : Prop := valid v d /\ forall o, get (compose v d) o = W !! o.

Lemma tracks_empty : tracks ∅ U.
Proof using Hv.
  split; [split; intros o; simpl; rewrite lookup_empty; done|]. intros o. rewrite get_compose. simpl. by rewrite !lookup_empty.
Qed.
Lemma tracks_step A W t d : ledger A W -> map td_id A0 ⊆ map td_id A -> tracks d W -> fits W t -> id (ptx t) ∉ map td_id A ->
  exists d', add_transaction t pov d = (Ok tt, d') /\ tracks d' (apply_tx W (t, pov)).
Proof using HA0 Hv.
  intros HA Hsub [Hd Hg] Ht Hnew. pose proof (wf_outputs _ (ft_wf _ _ Ht)).
  destruct (add_transaction_ok v d t pov) as (d' & E & Hd' & Hg').
  - done.
  - apply Ht.
  - apply Ht.
  - intros o e Ho. rewrite Hg. by apply Ht.
  - lia.
  - intros o e Ho. rewrite Hg. split; [|by eapply created_fresh]. intros r. rewrite Hv. intros Hr.
    apply (lg_old _ _ _ _ HA0) in Hr. apply created_in in Ho as (Hid & _). rewrite Hid in Hr. by apply Hsub in Hr.
  - exists d'. split; [done|]. split; [done|]. intros o. rewrite Hg', lookup_apply_tx, Hg. done.
Qed.

(** The transactions of a block that were validated against [W], with the
    fees they pay, and independent of one another. *)
Definition vtd (v : ValidatedTransaction * u32) : PopulatedTransaction * u64 := (vtx v.1, pov).
Definition vtr (v : ValidatedTransaction * u32) : Transaction := ptx (vtx v.1).
Record batch (A : list (PopulatedTransaction * u64)) (W : UtxoCollection) B : Prop := {
  bt_fits b : b ∈ B -> fits W (vtx b.1);
  bt_fee b : b ∈ B -> total_in (vtx b.1) = total_out (vtx b.1) + calculated_fee b.1 /\ 0 <= calculated_fee b.1;
  bt_new b : b ∈ B -> id (vtr b) ∉ map td_id A;
  bt_ids : NoDup (map (fun b => id (vtr b)) B);
  bt_spends : NoDup (concat (map (fun b => spends (vtr b)) B));
  bt_unchained b b' p : b ∈ B -> b' ∈ B -> p ∈ spends (vtr b) -> p ∉ created_outpoints (vtr b');
}.
Lemma batch_step A W b B : batch A W (b :: B) -> batch (A ++ [vtd b]) (apply_tx W (vtd b)) B.
Proof.
  intros HB. pose proof (bt_spends _ _ _ HB) as Hs. cbn [map concat] in Hs. apply NoDup_app in Hs as (_ & Hdis & Hs).
  pose proof (bt_ids _ _ _ HB) as Hi. cbn [map] in Hi. apply NoDup_cons in Hi as [Hni Hi].
  assert (fits W (vtx b.1)) as Hb by (apply HB; left).
  split; try done.
  - intros c Hc. assert (fits W (vtx c.1)) as Hfc by (apply HB; by right). split; try apply Hfc.
    intros o e Ho. assert (o ∈ spends (vtr c)) as Hoc.
    { unfold vtr. rewrite <- (spent_fst (vtx c.1)) by apply Hfc. apply list_elem_of_fmap. by exists (o, e). }
    unfold vtd. rewrite apply_same; [by apply Hfc| | |apply Hb].
    + intros Hob. apply (Hdis o); [done|]. apply elem_of_concat_map. eauto.
    + apply (bt_unchained _ _ _ HB c b); [by right|left|done].
  - intros c Hc. apply HB. by right.
  - intros c Hc. rewrite map_app, elem_of_app. intros [Hin|Hin%list_elem_of_singleton].
    + revert Hin. apply (bt_new _ _ _ HB). by right.
    + apply Hni. apply list_elem_of_fmap. exists c. done.
  - intros c c' p Hc Hc'. apply (bt_unchained _ _ _ HB); by right.
Qed.

Lemma accept_step a b d' : add_transaction (vtx b.1) pov (ac_diff a) = (Ok tt, d') -> inW 64 (ac_fee a + calculated_fee b.1) ->
  exists w, accept_transaction self pov a b = Ok (mkAcc d' (ac_ids a ++ [id (vtr b)]) (ac_fee a + calculated_fee b.1) w).
Proof.
  intros E Hf. unfold accept_transaction, unwrap_diff. rewrite E. cbn [fst snd unwrap_res mbind res_bind].
  rewrite u64_add_ok by done. cbn [mbind res_bind]. eauto.
Qed.
Lemma accept_all B : forall A W a, ledger A W -> map td_id A0 ⊆ map td_id A -> tracks (ac_diff a) W -> batch A W B ->
  0 <= ac_fee a -> ac_fee a + msum entry_amount W < 2 ^ 64 ->
  exists a' W', res_foldl (accept_transaction self pov) a B = Ok a' /\ W' = foldl apply_tx W (map vtd B) /\
    ledger (A ++ map vtd B) W' /\ tracks (ac_diff a') W' /\ ac_ids a' = ac_ids a ++ map (fun b => id (vtr b)) B /\
    ac_fee a' + msum entry_amount W' = ac_fee a + msum entry_amount W /\ 0 <= ac_fee a'.
Proof using HA0 Hv Hpov.
  induction B as [|b B IH]; intros A W a HA Hsub Ha HB Hf0 Hf.
  { exists a, W. cbn. rewrite !app_nil_r. split_and!; done. }
  assert (b ∈ b :: B) as Hin by left.
  pose proof (bt_fits _ _ _ HB b Hin) as Hb. pose proof (bt_new _ _ _ HB b Hin) as Hnew.
  destruct (bt_fee _ _ _ HB b Hin) as [Hfee Hfee0].
  destruct (tracks_step A W (vtx b.1) (ac_diff a) HA Hsub Ha Hb Hnew) as (d' & Ed & Hd').
  pose proof (ledger_step A W (vtx b.1) pov HA Hb Hnew Hpov) as HA1.
  pose proof (apply_msum A W (vtx b.1) pov HA Hb Hnew entry_amount) as Hm. rewrite delta_amount in Hm by apply Hb.
  assert (0 <= msum entry_amount (apply_tx W (vtx b.1, pov))) as Hm0.
  { apply msum_nonneg. intros o e He. apply (lg_typed _ _ HA1 o e He). }
  destruct (accept_step a b d' Ed) as [w Ea]; [unfold inW; lia|].
  cbn [res_foldl map foldl]. rewrite Ea. cbn [mbind res_bind].
  set (a1 := mkAcc _ _ _ _). destruct (IH (A ++ [vtd b]) (apply_tx W (vtd b)) a1) as (a' & W' & E & HW & HA' & Ht' & Hi' & Hf' & Hf0').
  - exact HA1.
  - intros x Hx. rewrite map_app. apply elem_of_app. left. by apply Hsub.
  - exact Hd'.
  - by apply batch_step.
  - cbn. lia.
  - unfold vtd. cbn [ac_fee a1]. lia.
  - exists a', W'. rewrite E. split_and!; try done.
    + by rewrite <- app_assoc in HA'.
    + rewrite Hi'. cbn. by rewrite <- app_assoc.
    + rewrite Hf'. unfold vtd. cbn [ac_fee a1]. lia.
Qed.
End accept.

(** ** Validating the transactions of a block *)
Record validator_ok (tv : TransactionValidator) : Prop := {
  vo_maturity : 0 <= coinbase_maturity tv < 2 ^ 62;
  vo_storm : 0 <= storage_mass_parameter (mass_calculator tv);
}.
Lemma plurality_bound spk : zlen (spk_script spk) < 2 ^ 32 -> utxo_plurality spk <= 2 ^ 32.
Proof. intros H. unfold utxo_plurality, div_ceil. apply Z.div_le_upper_bound; lia. Qed.

Section validated.
Context `{SC : ScriptCrypto} `{CR : CacheRandom} `{SI : !SetIter Hash} `{SCH : Schedule}.
Context (self : VirtualStateProcessor) (Htv : validator_ok (transaction_validator self)).
Context `{!UtxoView V} (w : V) (W : UtxoCollection) (Hw : forall o, get w o = W !! o).
Context (HW : forall o e, W !! o = Some e -> entry_ok e) (pov : u64) (flags : TxValidationFlags).

Lemma populate_cases tx : (exists es, populate w tx = Ok es /\ length (inputs tx) = length es /\
    forall o e, (o, e) ∈ zip (spends tx) es -> W !! o = Some e) \/ populate w tx = Err MissingTxOutpoints.
Proof using Hw.
  unfold populate, spends. induction (inputs tx) as [|i l IH]; [left; exists []; by split_and!; [..|intros ? ? ?%elem_of_nil]|].
  cbn [res_mapM map]. rewrite Hw. destruct (W !! previous_outpoint i) as [e|] eqn:He; [|by right].
  cbn [ok_or mbind res_bind]. destruct IH as [(es & -> & Hl & Hes)| ->]; [|by right].
  left. exists (e :: es). cbn [mbind res_bind length zip_with]. split_and!; [done|lia|].
  intros o e' [[= -> ->]|Hin]%elem_of_cons; [done|by apply Hes].
Qed.
Lemma fits_entries t : fits W t -> Forall entry_ok (entries t).
Proof using HW.
  intros Ht. apply Forall_forall. intros e [i He]%list_elem_of_lookup_1.
  destruct (lookup_lt_is_Some_2 (inputs (ptx t)) i) as [inp Hi].
  { rewrite (ft_len _ _ Ht). by eapply lookup_lt_Some. }
  apply (HW (previous_outpoint inp)), (ft_entries _ _ Ht). apply (list_elem_of_lookup_2 _ i).
  unfold spent. apply lookup_zip_with_Some. exists (previous_outpoint inp), e. by rewrite list_lookup_fmap, Hi.
Qed.
Lemma fits_typed t : fits W t -> ctx_typed (transaction_validator self) t.
Proof using HW Htv.
  intros Ht. pose proof (ft_wf _ _ Ht) as Hwf. pose proof (fits_entries t Ht) as He. destruct Hwf as [Hi Ho Hin Hout Htot _].
  destruct Htv as [Hm Hs]. split; try done.
  - by rewrite (ft_len _ _ Ht).
  - lia.
  - lia.
  - eapply Forall_impl; [exact He|]. intros e [[? ?] ? ?]. split_and!; [done|lia|left; lia|lia].
  - eapply Forall_impl; [exact Hout|]. by intros o [[? ?] ?].
  - assert (zlen (entries t) < 2 ^ 31) by (unfold zlen in *; rewrite <- (ft_len _ _ Ht); done). split.
    + eapply Z.le_lt_trans; [apply (sum_of_bound _ (2 ^ 32))|lia].
      eapply Forall_impl; [exact He|]. intros e [[_ ?] _ _]. by apply plurality_bound.
    + eapply Z.le_lt_trans; [apply (sum_of_bound _ (2 ^ 32))|lia].
      eapply Forall_impl; [exact Hout|]. intros o [[_ ?] _]. by apply plurality_bound.
Qed.

(** What a validated transaction is. *)
Definition good (tx : Transaction) (v : ValidatedTransaction) : Prop := ptx (vtx v) = tx /\ fits W (vtx v) /\
  total_in (vtx v) = total_out (vtx v) + calculated_fee v /\ 0 <= calculated_fee v.
Lemma validate_transaction_ok svm tx s : tx_sane tx -> NoDup (spends tx) ->
  match validate_transaction_in_utxo_context self w pov flags svm tx s with
  | (Ok v, _) => good tx v
  | (Err _, _) => True
  | _ => False
  end.
Proof using Hw HW Htv.
  intros Hwf Hnd. unfold validate_transaction_in_utxo_context, mbind, stm_bind, slift.
  set (order := schedule _ _). assert (Forall (fun i => i < length (inputs tx))%nat order) as Ho.
  { apply Forall_forall. intros i. unfold order. rewrite (schedule_perm _ _), elem_of_seq. lia. }
  destruct (populate_cases tx) as [(es & -> & Hl & Hes)| ->]; [|done].
  unfold PopulatedTransaction_new. rewrite Hl, Nat.eqb_refl. cbn [rassert mbind res_bind].
  set (t := {| ptx := tx; entries := es |}). assert (fits W t) as Hf by done.
  pose proof (validation_result (transaction_validator self) svm t pov (fits_typed t Hf) order flags None s Ho (wf_total _ Hwf) I) as Hr.
  destruct (validate_populated_transaction_and_get_fee _ _ _ _ _ _ _ s) as [[fee| | |] s'] eqn:E; try done.
  unfold good, mret, stm_ret. cbn [vtx calculated_fee]. apply validated_fee in E; [tauto|].
  apply Forall_forall. intros p [_ Hp]%zip_in. pose proof (fits_entries t Hf) as He. rewrite Forall_forall in He. by apply He.
Qed.

(** The map a run of the pool fills. *)
Lemma validate_all_ok svm txs idxs : Forall tx_sane txs -> Forall (fun tx => NoDup (spends tx)) txs ->
  Forall (fun i => i < length txs)%nat idxs -> forall acc s, exists acc' s',
  stm_foldl (validate_one self w pov flags svm txs) acc idxs s = (Ok acc', s') /\
  forall i v, acc' !! i = Some v -> acc !! i = Some v \/ exists tx, txs !! i = Some tx /\ good tx v.
Proof using Hw HW Htv.
  intros Hwf Hnd. induction 1 as [|i idxs Hi _ IH]; intros acc s; [exists acc, s; auto|].
  destruct (lookup_lt_is_Some_2 _ _ Hi) as [tx Htx].
  pose proof (validate_transaction_ok svm tx s (Forall_lookup_1 _ _ _ _ Hwf Htx) (Forall_lookup_1 _ _ _ _ Hnd Htx)) as Hv.
  cbn [stm_foldl]. unfold mbind, stm_bind. unfold validate_one at 1. rewrite Htx.
  destruct (validate_transaction_in_utxo_context _ _ _ _ _ _ s) as [[v| | |] s1]; [| |done..].
  - destruct (IH (<[i := v]> acc) s1) as (acc' & s' & -> & Hacc). exists acc', s'. split; [done|].
    intros j u Hu. destruct (Hacc j u Hu) as [Hj|]; [|by right].
    apply lookup_insert_Some in Hj as [[<- <-]|[_ ?]]; [right; eauto|by left].
  - destruct (IH acc s1) as (acc' & s' & -> & Hacc). eauto.
Qed.
Lemma collected_sublist (txs : list Transaction) (acc : gmap nat ValidatedTransaction) k :
  (forall i v, acc !! i = Some v -> txs !! i = Some (ptx (vtx v))) ->
  map vtr (omap (fun i => (fun v => (v, wrap 32 (Z.of_nat i))) <$> acc !! i) (seq k (length txs - k))) `sublist_of` drop k txs.
Proof.
  intros Hacc. remember (length txs - k)%nat as n eqn:Hn. revert k Hn. induction n as [|n IH]; intros k Hn; [apply sublist_nil_l|].
  destruct (lookup_lt_is_Some_2 txs k) as [tx Htx]; [lia|]. rewrite (drop_S _ _ _ Htx). cbn [seq].
  change (omap ?f (?x :: ?l)) with (match f x with Some y => y :: omap f l | None => omap f l end). cbv beta.
  destruct (acc !! k) as [v|] eqn:Hk; cbn [fmap option_fmap option_map].
  - cbn [map]. assert (vtr (v, wrap 32 (Z.of_nat k)) = tx) as -> by (specialize (Hacc k v Hk); unfold vtr; cbn; congruence).
    apply sublist_skip, IH. lia.
  - apply sublist_cons, IH. lia.
Qed.
Lemma validate_parallel_ok job txs s : Forall tx_sane txs -> Forall (fun tx => NoDup (spends tx)) txs ->
  exists B s', validate_transactions_in_parallel self w pov flags job txs s = (Ok B, s') /\
    (forall b, b ∈ B -> good (vtr b) b.1) /\ map vtr B `sublist_of` drop 1 txs.
Proof using Hw HW Htv.
  intros Hwf Hnd. unfold validate_transactions_in_parallel, on_val, mbind, stm_bind.
  destruct (validate_all_ok (with_stores s <$> vp_svm self) txs (map S (schedule job (length txs - 1))) Hwf Hnd)
    with (acc := (∅ : gmap nat ValidatedTransaction)) (s := ps_val s) as (acc & s' & -> & Hacc).
  { apply Forall_map, Forall_forall. intros i. rewrite (schedule_perm _ _), elem_of_seq. lia. }
  assert (forall i v, acc !! i = Some v -> exists tx, txs !! i = Some tx /\ good tx v) as Hgood.
  { intros i v Hi. destruct (Hacc i v Hi) as [H|H]; [by rewrite lookup_empty in H|done]. }
  eexists _, _. split; [reflexivity|]. split.
  - intros b Hb. apply list_elem_of_omap in Hb as (i & _ & Hi). destruct (acc !! i) as [v|] eqn:Hv; [|done]. injection Hi as <-.
    destruct (Hgood i v Hv) as (tx & _ & Hg). pose proof Hg as [<- _]. exact Hg.
  - apply collected_sublist. intros i v Hi. destruct (Hgood i v Hi) as (tx & Htx & [<- _]). done.
Qed.
End validated.

(** ** The mergeset *)
(** What body validation gives for the transactions of a block. *)
Record independent (txs : list Transaction) : Prop := {
  in_coinbase : exists cb rest, txs = cb :: rest /\ is_coinbase cb = true /\ inputs cb = [] /\ Forall (fun tx => inputs tx <> []) rest;
  in_ids : NoDup (map id txs);
  in_spends : NoDup (concat (map spends txs));
  in_unchained t t' p : t ∈ txs -> t' ∈ txs -> p ∈ spends t -> p ∉ created_outpoints t';
}.
Lemma concat_spends txs : concat (map spends txs) = map previous_outpoint (concat (map inputs txs)).
Proof. induction txs as [|t txs IH]; [done|]. cbn [map concat]. by rewrite IH, map_app. Qed.
Lemma body_independent `{Sha3} `{Blake2b} `{WasmParser} tv mc limit b m : body_ok tv mc limit b m -> independent (transactions b).
Proof.
  intros Hb. split.
  - destruct (body_coinbase _ _ _ _ _ Hb) as (cb & txs & Heq & Hc & Hn). exists cb, txs.
    pose proof (body_isolated _ _ _ _ _ Hb) as Hi. rewrite Heq in Hi. apply Forall_cons in Hi as [Hcb Hi].
    split_and!; [done|done|by apply (iso_coinbase _ _ Hcb)|].
    apply Forall_forall. intros tx Htx. rewrite Forall_forall in Hi, Hn. by apply (iso_some_input _ _ (Hi tx Htx)), Hn.
  - apply Hb.
  - rewrite concat_spends. apply Hb.
  - intros t t' p Ht Ht' Hp. unfold spends in Hp. apply list_elem_of_fmap in Hp as (i & -> & Hi).
    apply (body_unchained _ _ _ _ _ Hb); [|done]. apply elem_of_concat_map. eauto.
Qed.
Lemma sublist_concat_map {X Y} (f : X -> list Y) l k : l `sublist_of` k -> concat (map f l) `sublist_of` concat (map f k).
Proof.
  induction 1 as [|x l k _ IH|x l k _ IH]; [done| |]; cbn [map concat].
  - by apply sublist_app.
  - by apply sublist_inserts_l.
Qed.
Lemma sublist_full {X} (l k : list X) : l `sublist_of` k -> (length k <= length l)%nat -> l = k.
Proof.
  induction 1 as [|x l k H IH|x l k H IH]; intros Hl; [done| |]; cbn [length] in Hl.
  - f_equal. apply IH. lia.
  - apply sublist_length in H. lia.
Qed.
Lemma independent_nodup txs : independent txs -> Forall (fun tx => NoDup (spends tx)) txs.
Proof.
  intros Hi. pose proof (in_spends _ Hi) as Hs. clear Hi. induction txs as [|t txs IH]; [constructor|].
  cbn [map concat] in Hs. apply NoDup_app in Hs as (? & _ & ?). constructor; auto.
Qed.

Lemma inner_holds `{Blake2b} (B : list (ValidatedTransaction * u32)) pov :
  (forall b, b ∈ B -> length (inputs (vtr b)) = length (entries (vtx b.1))) ->
  exists hs, res_mapM (E:=RuleError) (fun v : ValidatedTransaction * u32 => from_transaction (vtx v.1) pov) B = Ok hs /\
    forall h f, holds h f -> holds (foldl combine h hs) (fun k => f k + sum_of (fun td => tx_delta (utxo_lane k) td.1 td.2) (map (vtd pov) B)).
Proof.
  induction B as [|b B IH]; intros Hl.
  { exists []. split; [done|]. intros h f Hh. eapply holds_ext; [exact Hh|]. intros k _. cbn. f_equal. lia. }
  destruct IH as (hs & E & Hhs); [intros c Hc; apply Hl; by right|].
  destruct (holds_transaction (E:=RuleError) muhash_new (fun _ => 0) (vtx b.1) pov (Hl b ltac:(left)) holds_new) as (h1 & E1 & H1).
  exists (h1 :: hs). change (muhash_add_transaction muhash_new (vtx b.1) pov) with (from_transaction (E:=RuleError) (vtx b.1) pov) in E1.
  cbn [res_mapM]. rewrite E1. cbn [mbind res_bind]. rewrite E.
  split; [done|]. intros h f Hh. cbn [foldl]. eapply holds_ext; [apply Hhs, holds_combine; [exact Hh|exact H1]|].
  intros k _. cbn [map]. rewrite sum_of_cons. cbn [fst snd vtd]. f_equal. lia.
Qed.

(** Among the transactions [T], identifiers determine what is spent and
    created (they hash it). *)
Definition ids_bind (T : Transaction -> Prop) : Prop :=
  forall t t', T t -> T t' -> id t = id t' -> spends t = spends t' /\ outputs t = outputs t' /\ is_coinbase t = is_coinbase t'.
Lemma accepted_once T A W t : ids_bind T -> (forall td, td ∈ A -> T (ptx td.1)) -> T (ptx t) -> ledger A W -> fits W t ->
  inputs (ptx t) <> [] -> id (ptx t) ∉ map td_id A.
Proof.
  intros HT HA Ht HL Hf Hne Hin. apply list_elem_of_fmap in Hin as (td & Hid & Htd).
  destruct (HT _ _ Ht (HA td Htd) Hid) as [Hs _]. destruct (inputs (ptx t)) as [|i l] eqn:Hi; [done|].
  assert (previous_outpoint i ∈ spends (ptx t)) as Hp by (unfold spends; rewrite Hi; left).
  pose proof Hp as Hp'. rewrite Hs in Hp'. destruct (lg_spent _ _ HL td _ Htd Hp') as [Hnone _].
  rewrite <- (spent_fst t) in Hp by apply Hf. apply list_elem_of_fmap in Hp as ([o e] & Ho & Hoe).
  apply (ft_entries _ _ Hf) in Hoe. cbn [fst] in Ho. congruence.
Qed.
Lemma batch_of_block T A W txs (B : list (ValidatedTransaction * u32)) : ids_bind T -> (forall td, td ∈ A -> T (ptx td.1)) ->
  (forall t, t ∈ txs -> T t) -> ledger A W -> independent txs -> (forall b, b ∈ B -> good W (vtr b) b.1) ->
  map vtr B `sublist_of` drop 1 txs -> batch A W B.
Proof.
  intros HT HA Htxs HL Hind HB Hsub.
  assert (forall b, b ∈ B -> vtr b ∈ drop 1 txs) as Hdrop.
  { intros b Hb. eapply sublist_subseteq; [exact Hsub|]. apply list_elem_of_fmap. eauto. }
  assert (map vtr B `sublist_of` txs) as Hsub' by (etrans; [exact Hsub|apply sublist_drop]).
  assert (forall b, b ∈ B -> vtr b ∈ txs) as Hin.
  { intros b Hb. eapply sublist_subseteq; [exact Hsub'|]. apply list_elem_of_fmap. eauto. }
  destruct (in_coinbase _ Hind) as (cb & rest & -> & _ & _ & Hne). cbn [drop] in Hdrop. rewrite Forall_forall in Hne.
  split.
  - intros b Hb. apply HB, Hb.
  - intros b Hb. apply HB, Hb.
  - intros b Hb. eapply accepted_once; [exact HT|exact HA|by apply Htxs, Hin|exact HL|by apply HB|by apply Hne, Hdrop].
  - rewrite <- (map_map vtr id). eapply sublist_NoDup; [apply (in_ids _ Hind)|]. by apply fmap_sublist.
  - rewrite <- (map_map vtr spends). eapply sublist_NoDup; [apply (in_spends _ Hind)|]. by apply sublist_concat_map.
  - intros b b' p Hb Hb'. apply Hind; auto.
Qed.

Section mergeset.
Context `{SC : ScriptCrypto} `{CR : CacheRandom} `{SI : !SetIter Hash} `{SCH : Schedule}.
Context (self : VirtualStateProcessor) (Htv : validator_ok (transaction_validator self)).
Context (pov : u64) (Hpov : 0 <= pov < 2 ^ 62).
Context `{!UtxoView V} (v : V) (A0 : list (PopulatedTransaction * u64)) (U : UtxoCollection).
Context (HA0 : ledger A0 U) (Hv : forall o, get v o = U !! o).
Context (T : Transaction -> Prop) (HT : ids_bind T) (HAT : forall td, td ∈ A0 -> T (ptx td.1)).
Context (coinbase : Transaction).

Definition fee_of (rewards : gmap Hash BlockRewardData) (h : Hash) : Z :=
  match rewards !! h with Some r => rw_total_fees r | None => 0 end.
Definition now (B : list PopulatedTransaction) : list (PopulatedTransaction * u64) := map (fun t => (t, pov)) B.

(** The reward of a merged block: what its coinbase payload says, and fees. *)
Definition rewards_block (rewards : gmap Hash BlockRewardData) (b : Hash * list Transaction) : Prop :=
  exists cb data fees, head b.2 = Some cb /\ deserialize_coinbase_payload (coinbase_manager self) (payload cb) = Ok data /\ 0 <= fees /\
    rewards !! b.1 = Some (mkReward (cd_subsidy data) fees (miner_spk (cd_miner_data data))).
(** After the blocks [bs], with the transactions [B] accepted. *)
Record progress (bs : list (Hash * list Transaction)) (B : list PopulatedTransaction) (ctx : UtxoProcessingContext) (W : UtxoCollection) : Prop := {
  pg_state : W = foldl apply_tx U (now B);
  pg_ledger : ledger (A0 ++ now B) W;
  pg_tracks : tracks v (mergeset_diff ctx) W;
  pg_commits : commits (multiset_hash ctx) W;
  pg_ids : accepted_tx_ids ctx = map (fun t => id (ptx t)) B;
  pg_known t : t ∈ B -> T (ptx t);
  pg_supply : msum entry_amount W + sum_of (fee_of (mergeset_rewards ctx)) (map fst bs) =
              msum entry_amount U + sum_of value (outputs coinbase);
  pg_rewards b : b ∈ bs -> rewards_block (mergeset_rewards ctx) b;
  pg_accepted : map acc_block_hash (mergeset_acceptance_data ctx) = map fst bs;
  pg_inputs t : t ∈ B -> t = {| ptx := coinbase; entries := [] |} \/ inputs (ptx t) <> [];
}.
Hypothesis Hsupply : msum entry_amount U + sum_of value (outputs coinbase) < 2 ^ 64.

Record block_ready (txs : list Transaction) : Prop := {
  br_independent : independent txs;
  br_wf : Forall tx_sane txs;
  br_known t : t ∈ txs -> T t;
  br_payload cb : head txs = Some cb -> exists data, deserialize_coinbase_payload (coinbase_manager self) (payload cb) = Ok data;
}.

(** The context after one block, in terms of what its steps return. *)
Definition block_context ctx (i : nat) (h : Hash) (Bv : list (ValidatedTransaction * u32)) hashes a (data : CoinbaseData)
    : UtxoProcessingContext :=
  mkContext (ghostdag_data ctx) (combine (multiset_hash ctx) (foldl combine muhash_new hashes)) (ac_diff a) (ac_ids a)
    (mergeset_acceptance_data ctx ++ [mkAcceptance h ((if (i =? 0)%nat then [mkAccepted (id coinbase) 0] else []) ++
       map (fun v : ValidatedTransaction * u32 => mkAccepted (id (ptx (vtx v.1))) v.2) Bv)])
    (<[h := mkReward (cd_subsidy data) (ac_fee a) (miner_spk (cd_miner_data data))]> (mergeset_rewards ctx))
    (pruning_sample_from_pov ctx).
Lemma process_block_eq ctx i h cb rest s Bv s1 hashes a data :
  validate_transactions_in_parallel self (compose v (mergeset_diff ctx)) pov (if (i =? 0)%nat then SkipScriptChecks else Full)
    h (cb :: rest) s = (Ok Bv, s1) ->
  res_mapM (E:=RuleError) (fun v : ValidatedTransaction * u32 => from_transaction (vtx v.1) pov) Bv = Ok hashes ->
  res_foldl (accept_transaction self pov) (mkAcc (mergeset_diff ctx) (accepted_tx_ids ctx) 0 (ps_wasm s1)) Bv = Ok a ->
  deserialize_coinbase_payload (coinbase_manager self) (payload cb) = Ok data ->
  process_merged_block self v pov (id coinbase) ctx (i, (h, cb :: rest)) s =
    (Ok (block_context ctx i h Bv hashes a data), put_wasm s1 (ac_wasm a)).
Proof.
  intros E1 E2 E3 E4. unfold process_merged_block, validate_transactions_with_muhash_in_parallel, mbind, stm_bind, slift.
  rewrite E1, E2. cbn [mret stm_ret]. rewrite E3. change (at_ (E:=RuleError) (cb :: rest) 0) with (Ok (E:=RuleError) cb). cbv iota.
  rewrite E4. done.
Qed.

Lemma fee_insert rewards h r hs : h ∉ hs -> sum_of (fee_of (<[h := r]> rewards)) (hs ++ [h]) = sum_of (fee_of rewards) hs + rw_total_fees r.
Proof.
  intros Hh. rewrite sum_of_app. f_equal.
  - apply sum_of_ext. intros x Hx. unfold fee_of. rewrite lookup_insert_ne; [done|]. by intros ->.
  - cbn. unfold fee_of. rewrite lookup_insert_eq. lia.
Qed.
Lemma fees_nonneg rewards bs : (forall b, b ∈ bs -> rewards_block rewards b) -> 0 <= sum_of (fee_of rewards) (map fst bs).
Proof.
  intros H. apply sum_of_nonneg, Forall_map, Forall_forall. intros b Hb.
  destruct (H b Hb) as (cb & data & fees & _ & _ & ? & E). unfold fee_of. by rewrite E.
Qed.
Lemma process_block_ok bs B ctx W i h txs s : progress bs B ctx W -> block_ready txs -> h ∉ map fst bs ->
  exists B' ctx' W' s', process_merged_block self v pov (id coinbase) ctx (i, (h, txs)) s = (Ok ctx', s') /\
    progress (bs ++ [(h, txs)]) (B ++ B') ctx' W' /\ ghostdag_data ctx' = ghostdag_data ctx.
Proof using Htv Hpov HA0 Hv HT HAT Hsupply.
  intros Hp [Hind Hwf Hknown Hpay] Hh. pose proof (pg_ledger _ _ _ _ Hp) as HL.
  destruct (validate_parallel_ok self Htv (compose v (mergeset_diff ctx)) W (proj2 (pg_tracks _ _ _ _ Hp)) (lg_typed _ _ HL) pov
    (if (i =? 0)%nat then SkipScriptChecks else Full) h txs s Hwf (independent_nodup _ Hind)) as (Bv & s1 & E1 & Hgood & Hsub).
  assert (forall td, td ∈ A0 ++ now B -> T (ptx td.1)) as HAT'.
  { intros td [Htd|Htd]%elem_of_app; [by apply HAT|]. apply list_elem_of_fmap in Htd as (t & -> & Ht). by eapply pg_known. }
  pose proof (batch_of_block T _ W txs Bv HT HAT' Hknown HL Hind Hgood Hsub) as HB.
  destruct (inner_holds Bv pov) as (hashes & E2 & Hhs); [intros b Hb; apply (bt_fits _ _ _ HB b Hb)|].
  pose proof (fees_nonneg _ bs (pg_rewards _ _ _ _ Hp)) as Hf0.
  pose proof (pg_supply _ _ _ _ Hp) as Hsup.
  destruct (accept_all self pov Hpov v A0 U HA0 Hv Bv (A0 ++ now B) W
    (mkAcc (mergeset_diff ctx) (accepted_tx_ids ctx) 0 (ps_wasm s1))) as (a & W' & E3 & HW' & HL' & Ht' & Hi' & Hs' & Hfee).
  { done. } { intros x Hx. rewrite map_app. apply elem_of_app. by left. } { apply Hp. } { done. } { done. } { cbn [ac_fee]. lia. }
  assert (map (vtd pov) Bv = now (map (fun b => vtx b.1) Bv)) as Hnow by (unfold now; by rewrite map_map).
  rewrite Hnow in *.
  destruct (in_coinbase _ Hind) as (cb & rest & -> & _ & _ & Hrest). destruct (Hpay cb eq_refl) as [data Hdata].
  exists (map (fun b => vtx b.1) Bv), (block_context ctx i h Bv hashes a data), W', (put_wasm s1 (ac_wasm a)).
  split; [by apply (process_block_eq ctx i h cb rest s)|]. split; [|done]. split; cbn [mergeset_diff multiset_hash accepted_tx_ids mergeset_rewards mergeset_acceptance_data block_context].
  - unfold now at 1. rewrite map_app, foldl_app. fold (now B). by rewrite <- (pg_state _ _ _ _ Hp).
  - unfold now. rewrite map_app, app_assoc. done.
  - done.
  - eapply holds_ext; [apply holds_combine; [apply (pg_commits _ _ _ _ Hp)|apply (Hhs _ _ holds_new)]|].
    intros k _. cbv beta. rewrite (lg_sum _ _ HL), (lg_sum _ _ HL'), !sum_of_app. by f_equal.
  - rewrite Hi'. cbn [ac_ids]. rewrite (pg_ids _ _ _ _ Hp), map_app, map_map. done.
  - intros t [Ht|Ht]%elem_of_app; [by eapply pg_known|]. apply list_elem_of_fmap in Ht as (b & -> & Hb).
    apply Hknown. eapply sublist_subseteq; [etrans; [exact Hsub|apply sublist_drop]|]. apply list_elem_of_fmap. by exists b.
  - rewrite map_app. cbn [map fst]. rewrite fee_insert by done. cbn [rw_total_fees ac_fee] in *. lia.
  - intros b [Hb| ->%list_elem_of_singleton]%elem_of_app.
    + destruct (pg_rewards _ _ _ _ Hp b Hb) as (cb' & data' & fees & ? & ? & ? & E). exists cb', data', fees. split_and!; [done..|].
      rewrite lookup_insert_ne; [done|]. intros ->. apply Hh. apply list_elem_of_fmap. eauto.
    + exists cb, data, (ac_fee a). split_and!; [done..|]. apply lookup_insert_eq.
  - by rewrite !map_app, (pg_accepted _ _ _ _ Hp).
  - intros t [Ht|Ht]%elem_of_app; [by apply (pg_inputs _ _ _ _ Hp)|]. right. apply list_elem_of_fmap in Ht as (b & -> & Hb).
    rewrite Forall_forall in Hrest. apply Hrest. eapply sublist_subseteq; [exact Hsub|]. apply list_elem_of_fmap. by exists b.
Qed.

Lemma process_blocks_ok blocks : forall k bs B ctx W s, progress bs B ctx W -> Forall (fun b => block_ready b.2) blocks ->
  NoDup (map fst (bs ++ blocks)) ->
  exists B' ctx' W' s', stm_foldl (process_merged_block self v pov (id coinbase)) ctx (zip (seq k (length blocks)) blocks) s = (Ok ctx', s') /\
    progress (bs ++ blocks) (B ++ B') ctx' W' /\ ghostdag_data ctx' = ghostdag_data ctx.
Proof using Htv Hpov HA0 Hv HT HAT Hsupply.
  induction blocks as [|[h txs] blocks IH]; intros k bs B ctx W s Hp Hr Hnd.
  { exists [], ctx, W, s. cbn. rewrite !app_nil_r. done. }
  apply Forall_cons in Hr as [Hb Hr]. cbn [snd] in Hb.
  destruct (process_block_ok bs B ctx W k h txs s Hp Hb) as (B1 & ctx1 & W1 & s1 & E1 & Hp1 & Hg1).
  { rewrite map_app in Hnd. apply NoDup_app in Hnd as (_ & Hd & _). intros Hin. apply (Hd h Hin). left. }
  rewrite (cons_middle (h, txs) bs), app_assoc in Hnd |- *.
  destruct (IH (S k) (bs ++ [(h, txs)]) (B ++ B1) ctx1 W1 s1 Hp1 Hr Hnd) as (B2 & ctx2 & W2 & s2 & E2 & Hp2 & Hg2).
  exists (B1 ++ B2), ctx2, W2, s2. cbn [length seq zip_with zip stm_foldl]. unfold mbind, stm_bind. rewrite E1, E2.
  rewrite app_assoc. split_and!; [done..|congruence].
Qed.
End mergeset.

(** What [calculate_utxo_state] relies on: the ledger behind the view, and the
    blocks of the mergeset, which passed body validation. *)
Record merge_ready `{SC : ScriptCrypto} (self : VirtualStateProcessor) (T : Transaction -> Prop) (d : GhostdagData) (pov : u64)
    (A : list (PopulatedTransaction * u64)) (U : UtxoCollection) (coinbase : Transaction) (blocks : list (Hash * list Transaction)) : Prop := {
  mr_validator : validator_ok (transaction_validator self);
  mr_pov : 0 <= pov < 2 ^ 62;
  mr_ledger : ledger A U;
  mr_blocks : merged_blocks self d = Ok blocks;
  mr_distinct : NoDup (map fst blocks);
  mr_coinbase : exists txs rest, blocks = (selected_parent d, coinbase :: txs) :: rest;
  mr_ready : Forall (fun b => block_ready self T b.2) blocks;
  mr_ids : ids_bind T;
  mr_known td : td ∈ A -> T (ptx td.1);
  mr_coinbase_new : id coinbase ∉ map td_id A;
  mr_supply : msum entry_amount U + sum_of value (outputs coinbase) < 2 ^ 64;
}.

Section theorems.
Context `{SC : ScriptCrypto} `{CR : CacheRandom} `{SI : !SetIter Hash} `{SCH : Schedule}.

Lemma merged_blocks_head self d h txs rest : merged_blocks self d = Ok ((h, txs) :: rest) ->
  h = selected_parent d /\ block_transactions_store self !! selected_parent d = Some txs.
Proof.
  unfold merged_blocks, consensus_ordered_mergeset. intros H. apply bind_ok in H as (l & Hl & H).
  apply bind_ok in Hl as (sbs & _ & Hl). injection Hl as <-. cbn [res_mapM] in H.
  apply bind_ok in H as ([h' txs'] & H1 & H). apply bind_ok in H as (rest' & _ & H). injection H as <- <- <-.
  apply bind_ok in H1 as (txs1 & H1 & H2). injection H2 as <- <-. destruct (_ !! _) as [x|] eqn:Hx; [|done]. injection H1 as ->. done.
Qed.
Lemma coinbase_fits W cb : inputs cb = [] -> tx_sane cb -> fits W {| ptx := cb; entries := [] |}.
Proof.
  intros Hi Hwf. split; [by cbn; rewrite Hi|cbn; unfold spends; rewrite Hi; apply NoDup_nil_2| |done].
  intros o e. unfold spent. cbn. rewrite Hi. by intros ?%elem_of_nil.
Qed.

(** The call in terms of what its steps return. *)
Lemma calculate_eq self `{!UtxoView V} (v : V) pov d m coinbase txs d1 m1 blocks s r :
  block_transactions_store self !! selected_parent d = Some (coinbase :: txs) -> is_coinbase coinbase = true ->
  add_transaction {| ptx := coinbase; entries := [] |} pov ∅ = (Ok tt, d1) ->
  muhash_add_transaction (E:=RuleError) m {| ptx := coinbase; entries := [] |} pov = Ok m1 -> merged_blocks self d = Ok blocks ->
  stm_foldl (process_merged_block self v pov (id coinbase)) (mkContext d m1 d1 [id coinbase] [] ∅ None)
    (zip (seq 0 (length blocks)) blocks) s = r ->
  calculate_utxo_state self v pov (context_new d m) s = r.
Proof.
  intros E0 Hcb E1 E2 Eb E3. unfold calculate_utxo_state, mbind, stm_bind, slift, context_new.
  cbn [ghostdag_data mergeset_diff multiset_hash]. rewrite E0. cbn [unwrap].
  change (at_ (E:=RuleError) (coinbase :: txs) 0) with (Ok (E:=RuleError) coinbase). cbv beta iota. unfold new_coinbase. rewrite Hcb.
  cbn [rassert mbind res_bind vtx]. unfold unwrap_diff. rewrite E1. cbn [fst snd unwrap_res mbind res_bind].
  rewrite E2. cbn [ghostdag_data]. rewrite Eb. exact E3.
Qed.

(** The UTXO set under a ledger advances by a mergeset. *)
Record advanced (self : VirtualStateProcessor) (T : Transaction -> Prop) (d : GhostdagData) `{!UtxoView V} (v : V) (A : list (PopulatedTransaction * u64)) (U : UtxoCollection) (pov : u64)
    (coinbase : Transaction) (blocks : list (Hash * list Transaction)) (ctx : UtxoProcessingContext) (B : list PopulatedTransaction) : Prop := {
  ad_data : ghostdag_data ctx = d;
  ad_first : exists B', B = {| ptx := coinbase; entries := [] |} :: B';
  ad_ledger : ledger (A ++ now pov B) (foldl apply_tx U (now pov B));
  ad_valid : valid v (mergeset_diff ctx);
  ad_view o : get (compose v (mergeset_diff ctx)) o = foldl apply_tx U (now pov B) !! o;
  ad_commits : commits (multiset_hash ctx) (foldl apply_tx U (now pov B));
  ad_known t : t ∈ B -> T (ptx t);
  ad_ids : accepted_tx_ids ctx = map (fun t => id (ptx t)) B;
  ad_blocks : map acc_block_hash (mergeset_acceptance_data ctx) = map fst blocks;
  ad_rewards b : b ∈ blocks -> rewards_block self (mergeset_rewards ctx) b;
  ad_supply : msum entry_amount (foldl apply_tx U (now pov B)) + sum_of (fee_of (mergeset_rewards ctx)) (map fst blocks) =
              msum entry_amount U + sum_of value (outputs coinbase);
  ad_inputs t : t ∈ B -> t = {| ptx := coinbase; entries := [] |} \/ inputs (ptx t) <> [];
}.
Lemma calculate_utxo_state_ok (self : VirtualStateProcessor) T d h `{!UtxoView V} (v : V) A U coinbase blocks pov s :
  merge_ready self T d pov A U coinbase blocks -> (forall o, get v o = U !! o) -> commits h U ->
  exists ctx s' B, calculate_utxo_state self v pov (context_new d h) s = (Ok ctx, s') /\
    advanced self T d v A U pov coinbase blocks ctx B.
Proof.
  intros [Htv Hpov HL Hbl Hnd (txs & rest & Hb0) Hready Hids HAT Hnew Hsup] Hv Hc.
  pose proof Hready as Hr0. rewrite Hb0 in Hr0. apply Forall_cons in Hr0 as [[Hind Hwf Hkn _] _]. cbn [snd] in Hind, Hwf, Hkn.
  destruct (in_coinbase _ Hind) as (cb & txs' & [= <- <-] & Hcb & Hin & _). apply Forall_cons in Hwf as [Hwf _].
  set (t := {| ptx := coinbase; entries := [] |}). pose proof (coinbase_fits U coinbase Hin Hwf) as Hf. fold t in Hf.
  destruct (tracks_step pov v A U HL Hv A U t ∅ HL (reflexivity _) (tracks_empty v U Hv) Hf Hnew) as (d1 & E1 & Ht1).
  destruct (holds_transaction (E:=RuleError) h _ t pov (ft_len _ _ Hf) Hc) as (m & E2 & Hm).
  pose proof (ledger_step A U t pov HL Hf Hnew Hpov) as HL1.
  set (ctx1 := mkContext d m d1 [id coinbase] [] ∅ None).
  assert (progress self pov v A U T coinbase [] [t] ctx1 (apply_tx U (t, pov))) as Hp1.
  { split; try done.
    - eapply holds_ext; [exact Hm|]. intros k _. by rewrite (apply_msum A U t pov HL Hf Hnew).
    - intros x ->%list_elem_of_singleton. apply Hkn. left.
    - rewrite (apply_msum A U t pov HL Hf Hnew), delta_amount by apply Hf. unfold total_in, total_out, populated_inputs.
      cbn [ptx entries t]. rewrite Hin. change (sum_of _ (zip [] [])) with 0. change (sum_of (fee_of _) (map fst [])) with 0. lia.
    - by intros b ?%elem_of_nil.
    - intros x ->%list_elem_of_singleton. by left. }
  destruct (process_blocks_ok self Htv pov Hpov v A U HL Hv T Hids HAT coinbase Hsup blocks 0 [] [t] ctx1 _ s Hp1 Hready Hnd)
    as (B & ctx & W & s' & E3 & Hp & Hg).
  exists ctx, s', (t :: B). destruct Hp as [HW HL' Ht' Hc' Hi' Hk' Hs' Hr' Ha' Hin']. subst W. destruct Ht' as [Hval Hget].
  split; [|by split; eauto].
  rewrite Hb0 in Hbl. destruct (merged_blocks_head self d _ _ _ Hbl) as [_ Hst]. rewrite <- Hb0 in Hbl.
  by eapply calculate_eq.
Qed.

(** What a block that passes verification respects, against the set [W] its
    mergeset leads to. *)
Record verified (self : VirtualStateProcessor) (W : UtxoCollection) (ctx : UtxoProcessingContext) (h : Header)
    (own : Transaction) (rest : list Transaction) (non_daa : gset Hash) : Prop := {
  vb_commitment : utxo_commitment h = muhash_finalize (multiset_hash ctx);
  vb_root : exists ph, vp_headers_store self !! selected_parent (ghostdag_data ctx) = Some ph /\
    accepted_id_merkle_root h = merkle_hash_from_node (accepted_id_merkle_root ph) (reference_root (accepted_tx_ids ctx));
  vb_coinbase : exists data t, deserialize_coinbase_payload (coinbase_manager self) (payload own) = Ok data /\
    expected_coinbase_transaction (coinbase_manager self) calc_id (mergeset_rewards ctx) non_daa (h_daa_score h)
      (cd_miner_data data) (ghostdag_data ctx) = Ok t /\ tx_hash own = tx_hash (ct_tx t);
  vb_pruning : exists reply, expected_header_pruning_point self (to_compact (ghostdag_data ctx)) = Ok reply /\
    reply_pruning_point reply = pruning_point h;
  vb_txs : exists B, map vtr B = rest /\ forall b, b ∈ B -> good W (vtr b) b.1;
}.

(** Verification in terms of what its steps return. *)
Lemma verify_eq self `{!UtxoView V} (v : V) ctx h s own rest non_daa reply B s2 :
  utxo_commitment h = muhash_finalize (multiset_hash ctx) ->
  calc_accepted_id_merkle_root self (accepted_tx_ids ctx) (selected_parent (ghostdag_data ctx)) = Ok (accepted_id_merkle_root h) ->
  block_transactions_store self !! h_hash h = Some (own :: rest) -> daa_excluded_store self !! h_hash h = Some non_daa ->
  verify_coinbase_transaction self own (h_daa_score h) (ghostdag_data ctx) (mergeset_rewards ctx) non_daa = Ok tt ->
  verify_header_pruning_point self h (to_compact (ghostdag_data ctx)) = Ok reply ->
  validate_transactions_in_parallel self (compose v (mergeset_diff ctx)) (h_daa_score h) Full (h_hash h) (own :: rest) s = (Ok B, s2) ->
  length B = length rest -> zlen rest < 2 ^ 63 ->
  verify_expected_utxo_state self ctx v h s =
    (Ok (mkContext (ghostdag_data ctx) (multiset_hash ctx) (mergeset_diff ctx) (accepted_tx_ids ctx)
           (mergeset_acceptance_data ctx) (mergeset_rewards ctx) (Some (reply_pruning_sample reply))), s2).
Proof.
  intros E1 E2 E3 E4 E5 E6 E7 HB Hl. unfold verify_expected_utxo_state, mbind, stm_bind, slift.
  rewrite E1, Z.eqb_refl. cbn [negb fail_if]. rewrite E2, Z.eqb_refl. cbn [negb fail_if]. rewrite E3. cbn [unwrap].
  change (at_ (E:=RuleError) (own :: rest) 0) with (Ok (E:=RuleError) own). cbv beta iota. rewrite E4. cbn [unwrap].
  rewrite E5, E6. cbn [mergeset_diff]. rewrite E7. unfold zlen in *. rewrite u64_sub_ok by (cbn [length]; unfold inW; lia).
  replace (_ <? _) with false; [done|]. symmetry. apply Z.ltb_ge. cbn [length]. lia.
Qed.
Lemma slift_bind_ok {S E A B} (r : res E A) (k : A -> stm S E B) s b s' :
  (a ← slift r; k a) s = (Ok b, s') -> exists a, r = Ok a /\ k a s = (Ok b, s').
Proof. intros (a & s1 & Hr & Hk)%stm_bind_ok. injection Hr as -> <-. eauto. Qed.
Lemma fail_if_false {E} b (e : E) : fail_if b e = Ok tt -> b = false.
Proof. by destruct b. Qed.
Lemma verify_coinbase_inv self own daa d rewards non_daa : verify_coinbase_transaction self own daa d rewards non_daa = Ok tt ->
  exists data t, deserialize_coinbase_payload (coinbase_manager self) (payload own) = Ok data /\
    expected_coinbase_transaction (coinbase_manager self) calc_id rewards non_daa daa (cd_miner_data data) d = Ok t /\
    tx_hash own = tx_hash (ct_tx t).
Proof.
  unfold verify_coinbase_transaction. intros (data & Hd & H)%bind_ok. apply bind_ok in H as (t & Ht & H).
  apply fail_if_false, negb_false_iff, Z.eqb_eq in H. exists data, t.
  destruct (deserialize_coinbase_payload _ _); try done. destruct (expected_coinbase_transaction _ _ _ _ _ _ _); try done.
  injection Hd as ->. injection Ht as ->. done.
Qed.
Lemma verify_ok (self : VirtualStateProcessor) `{!UtxoView V} (v : V) ctx W h s ctx' s' txs :
  validator_ok (transaction_validator self) -> tracks v (mergeset_diff ctx) W -> (forall o e, W !! o = Some e -> entry_ok e) ->
  block_transactions_store self !! h_hash h = Some txs -> independent txs -> Forall tx_sane txs ->
  verify_expected_utxo_state self ctx v h s = (Ok ctx', s') ->
  exists own rest non_daa, txs = own :: rest /\ daa_excluded_store self !! h_hash h = Some non_daa /\
    verified self W ctx h own rest non_daa.
Proof.
  intros Htv [_ Hget] HW Htxs Hind Hwf H. unfold verify_expected_utxo_state in H.
  apply slift_bind_ok in H as ([] & H1%fail_if_false & H). apply slift_bind_ok in H as (root & H2 & H).
  apply slift_bind_ok in H as ([] & H3%fail_if_false & H). apply slift_bind_ok in H as (txs' & H4 & H).
  rewrite Htxs in H4. injection H4 as <-. destruct (in_coinbase _ Hind) as (own & rest & -> & _ & _ & _).
  apply slift_bind_ok in H as (own' & [= <-] & H). apply slift_bind_ok in H as (non_daa & H5 & H).
  apply slift_bind_ok in H as ([] & H6%verify_coinbase_inv & H). apply slift_bind_ok in H as (reply & H7 & H).
  cbn [mergeset_diff] in H. apply stm_bind_ok in H as (B & s1 & H8 & H). apply slift_bind_ok in H as (n & H9 & H).
  apply slift_bind_ok in H as ([] & H10%fail_if_false & _).
  destruct (validate_parallel_ok self Htv (compose v (mergeset_diff ctx)) W Hget HW (h_daa_score h) Full (h_hash h) (own :: rest) s Hwf
    (independent_nodup _ Hind)) as (B' & s2 & E & Hgood & Hsub). rewrite E in H8. injection H8 as -> <-.
  apply negb_false_iff, Z.eqb_eq in H1, H3. apply chk_inv in H9 as [-> _]. rewrite zlen_cons in H10.
  exists own, rest, non_daa. split; [done|]. split; [by destruct (daa_excluded_store self !! _); [injection H5 as ->|]|]. split.
  - done.
  - unfold calc_accepted_id_merkle_root in H2. apply bind_ok in H2 as (ph & Hph & H2). apply bind_ok in H2 as (r & Hr & H2).
    rewrite calc_merkle_root_ok in Hr. injection Hr as <-. injection H2 as <-.
    exists ph. destruct (vp_headers_store self !! _); [injection Hph as ->; done|done].
  - done.
  - unfold verify_header_pruning_point in H7. apply bind_ok in H7 as (rp & Hrp & H7). apply bind_ok in H7 as ([] & Hf%fail_if_false & H7).
    injection H7 as ->. exists reply. split; [done|]. by apply negb_false_iff, Z.eqb_eq in Hf.
  - exists B. split; [|done]. apply sublist_full; [done|]. rewrite length_map. unfold zlen in H10. cbn [drop]. lia.
Qed.
(** A verdict only adds the pruning sample to the context. *)
Lemma verify_context self `{!UtxoView V} (v : V) ctx h s ctx' s' : verify_expected_utxo_state self ctx v h s = (Ok ctx', s') ->
  exists sample, ctx' = mkContext (ghostdag_data ctx) (multiset_hash ctx) (mergeset_diff ctx) (accepted_tx_ids ctx)
    (mergeset_acceptance_data ctx) (mergeset_rewards ctx) (Some sample).
Proof.
  intros H. unfold verify_expected_utxo_state in H. do 7 apply slift_bind_ok in H as (? & _ & H).
  apply slift_bind_ok in H as (reply & _ & H). apply stm_bind_ok in H as (B & s1 & _ & H). do 2 apply slift_bind_ok in H as (? & _ & H).
  injection H as <- <-. by exists (reply_pruning_sample reply).
Qed.
End theorems.

(** ** The supply *)
Lemma merge_join_perm {E} cmp l : forall r m, merge_join (E:=E) cmp l r = Ok m -> m ≡ₚ l ++ r.
Proof.
  induction l as [|a l IH]; intros r m Hm; [destruct r; by injection Hm as <-|].
  revert m Hm. induction r as [|b r IHr]; intros m Hm; [injection Hm as <-; by rewrite app_nil_r|].
  cbn [merge_join] in Hm. destruct (cmp a b); [done| |].
  - apply bind_ok in Hm as (m' & Hm' & Hm). injection Hm as <-. cbn. by rewrite (IH _ _ Hm').
  - apply bind_ok in Hm as (m' & Hm' & Hm). injection Hm as <-. rewrite (IHr _ Hm'). by rewrite Permutation_middle.
Qed.
Lemma sortable_hashes {E} store l sbs : res_mapM (E:=E) (sortable store) l = Ok sbs -> map sb_hash sbs = l.
Proof.
  revert sbs. induction l as [|h l IH]; intros sbs H; [by injection H as <-|]. cbn [res_mapM] in H.
  apply bind_ok in H as (sb & Hb & H). apply bind_ok in H as (sbs' & Hs & H). injection H as <-. cbn [map]. rewrite (IH _ Hs). f_equal.
  unfold sortable in Hb. apply bind_ok in Hb as (d & _ & Hb). by injection Hb as <-.
Qed.
Lemma mergeset_perm {E} d store l bl : mergeset_blues d = selected_parent d :: bl ->
  consensus_ordered_mergeset (E:=E) d store = Ok l -> l ≡ₚ unordered_mergeset d.
Proof.
  intros Hbl H. unfold consensus_ordered_mergeset, ascending_mergeset_without_selected_parent in H.
  apply bind_ok in H as (m & Hm & H). injection H as <-. apply bind_ok in Hm as (bs & Hb & Hm). apply bind_ok in Hm as (rs & Hr & Hm).
  apply merge_join_perm in Hm. apply sortable_hashes in Hb, Hr. unfold unordered_mergeset. rewrite Hbl in *. cbn [drop app] in *.
  apply Permutation_cons; [done|]. rewrite (fmap_Permutation sb_hash _ _ Hm), fmap_app. by change (map sb_hash bs) with (sb_hash <$> bs) in Hb; change (map sb_hash rs) with (sb_hash <$> rs) in Hr; rewrite Hb, Hr.
Qed.
Lemma merged_blocks_fst self d blocks : merged_blocks self d = Ok blocks ->
  consensus_ordered_mergeset (E:=RuleError) d (ghostdag_store self) = Ok (map fst blocks).
Proof.
  unfold merged_blocks. intros (l & Hl & H)%bind_ok. rewrite Hl. f_equal. clear Hl. revert blocks H.
  induction l as [|h l IH]; intros blocks H; [by injection H as <-|]. cbn [res_mapM] in H.
  apply bind_ok in H as ([h' txs] & Hb & H). apply bind_ok in H as (bs & Hs & H). injection H as <-. cbn [map fst]. rewrite <- (IH _ Hs).
  apply bind_ok in Hb as (x & _ & Hb). by injection Hb as <-.
Qed.

(** *** What the expected coinbase pays *)
Section payout.
Context (cm : CoinbaseManager) (f : Transaction -> Hash) (rewards : gmap Hash BlockRewardData) (non_daa : gset Hash).

(** The outputs have 64-bit values and pay to the given scripts. *)
Definition pays (spks : ScriptPublicKey -> Prop) (o : TransactionOutput) : Prop :=
  inW 64 (value o) /\ spks (out_script_public_key o).
Lemma blue_outputs_inv {E} l (spks : ScriptPublicKey -> Prop) outs outs' : (forall h r, h ∈ l -> rewards !! h = Some r -> spks (rw_spk r)) ->
  res_foldl (E:=E) (blue_output rewards) outs l = Ok outs' -> Forall (pays spks) outs ->
  Forall (pays spks) outs' /\ output_total outs' = output_total outs + total (full_reward rewards) l /\
  (length outs' <= length outs + length l)%nat.
Proof.
  revert outs. induction l as [|h l IH]; intros outs Hs H Ho.
  { injection H as <-. split; [done|]. split; [unfold total; simpl; lia|simpl; lia]. }
  cbn [res_foldl] in H. apply bind_ok in H as (o1 & H1 & H). unfold blue_output in H1. apply bind_ok in H1 as (r & Hr & H1).
  apply bind_ok in H1 as (t & Ht & H1). apply chk_inv in Ht as [-> Hw]. injection H1 as <-.
  destruct (rewards !! h) as [r'|] eqn:Hrh; [|done]. injection Hr as ->.
  assert (total (full_reward rewards) (h :: l) = rw_subsidy r + rw_total_fees r + total (full_reward rewards) l) as ->.
  { unfold total, full_reward at 1. cbn [map foldr]. by rewrite Hrh. }
  destruct (Z.ltb_spec 0 (rw_subsidy r + rw_total_fees r)).
  - apply IH in H as (Hp & Hl & Hn).
    2:{ intros x y Hx. apply Hs. by right. }
    + split; [done|]. rewrite Hl, output_total_app. unfold output_total at 2. cbn [map foldr value]. split; [lia|]. rewrite length_app in Hn. simpl in *. lia.
    + apply Forall_app. split; [done|]. apply Forall_singleton. split; [done|]. eapply Hs; [left|done].
  - apply IH in H as (Hp & Hl & Hn); [|intros x y Hx; apply Hs; by right|done]. split; [done|]. unfold inW in Hw. split; [lia|]. simpl. lia.
Qed.
Lemma red_reward_inv {E} l acc acc' : res_foldl (E:=E) (red_step rewards non_daa) acc l = Ok acc' -> inW 64 acc ->
  acc' = acc + total (red_reward_of rewards non_daa) l /\ inW 64 acc'.
Proof.
  revert acc. induction l as [|h l IH]; intros acc H Ha; [injection H as <-; unfold total; simpl; split; [lia|done]|].
  cbn [res_foldl] in H. apply bind_ok in H as (a1 & H1 & H). unfold red_step in H1. apply bind_ok in H1 as (r & Hr & H1).
  destruct (rewards !! h) as [r'|] eqn:Hrh; [|done]. injection Hr as ->.
  assert (a1 = acc + red_reward_of rewards non_daa h /\ inW 64 a1) as [-> Hw].
  { unfold red_reward_of. rewrite Hrh. case_decide; [by apply chk_inv in H1 as [-> ?]|].
    apply bind_ok in H1 as (t & Ht & H1). apply chk_inv in Ht as [-> _]. by apply chk_inv in H1 as [-> ?]. }
  apply IH in H as [-> ?]; [|done]. split; [|done]. unfold total. cbn [map foldr]. lia.
Qed.
Lemma red_output_inv (outs : list TransactionOutput) red spk : Forall Hashing.output_wf outs -> zlen outs < 2 ^ 63 -> inW 64 red ->
  Hashing.spk_wf spk -> let outs' := if 0 <? red then outs ++ [ {| value := red; out_script_public_key := spk |} ] else outs in
  Forall Hashing.output_wf outs' /\ zlen outs' < 2 ^ 64 /\ output_total outs' = output_total outs + red.
Proof.
  intros Ho Hl Hr Hs outs'. unfold outs'. unfold inW in Hr. destruct (Z.ltb_spec 0 red).
  - split_and!; [apply Forall_app; split; [done|by apply Forall_singleton]|rewrite zlen_app, zlen_cons; change (zlen []) with 0; lia|].
    rewrite output_total_app. unfold output_total at 2. cbn. lia.
  - split_and!; [done|lia|lia].
Qed.
(** A miner's script and extra data are short. *)
Definition miner_ok (m : MinerData) : Prop :=
  Hashing.spk_wf (miner_spk m) /\ zlen (spk_script (miner_spk m)) < 2 ^ 32 /\ zlen (extra_data m) < 2 ^ 32.
Lemma expected_coinbase_inv daa miner d t (Hs : forall h r, h ∈ mergeset_blues d -> rewards !! h = Some r -> Hashing.spk_wf (rw_spk r))
    (Hm : miner_ok miner) (Hb : zlen (mergeset_blues d) < 2 ^ 63) :
  expected_coinbase_transaction cm f rewards non_daa daa miner d = Ok t ->
  Hashing.tx_wf (ct_tx t) /\
  output_total (outputs (ct_tx t)) = total (full_reward rewards) (filter (fun h => h ∉ non_daa) (mergeset_blues d)) +
                                    total (red_reward_of rewards non_daa) (mergeset_reds d).
Proof.
  intros H. destruct Hm as (Hm & Hsc & Hx). unfold expected_coinbase_transaction in H.
  apply bind_ok in H as (outs & Ho & H). apply bind_ok in H as (red & Hr & H).
  apply bind_ok in H as (sub & _ & H). apply bind_ok in H as (pl & Hp & H). injection H as <-.
  apply (blue_outputs_inv _ Hashing.spk_wf) in Ho as (Hf & Hv & Hn); [|by intros h r [_ Hh]%list_elem_of_filter; apply Hs|by apply Forall_nil].
  apply red_reward_inv in Hr as [-> Hw]; [|unfold inW; lia]. rewrite Z.add_0_l in *. change (output_total []) with 0 in Hv.
  assert (zlen outs < 2 ^ 63) as Hlen.
  { unfold zlen in *. pose proof (length_filter (fun h => h ∉ non_daa) (mergeset_blues d)). simpl in Hn. lia. }
  destruct (red_output_inv outs _ (miner_spk miner) Hf Hlen Hw Hm) as (Hw' & Hl' & Ht').
  unfold serialize_coinbase_payload in Hp. apply bind_ok in Hp as ([] & _ & Hp). apply (inj Ok) in Hp. subst pl.
  cbn [ct_tx outputs Coinbase.finalize]. split; [|by rewrite Ht', Hv].
  split; cbn [version inputs outputs lock_time subnetwork_id gas payload mass Coinbase.finalize ct_tx]; try done; try (unfold inW; lia).
  - split; [apply zlen_nonneg|done].
  - split; [apply zlen_nonneg|]. unfold miner_fields. cbn [cd_miner_data].
    rewrite !zlen_app. unfold zlen at 1 2 3 4. rewrite !length_digits. lia.
Qed.
End payout.

Lemma deserialize_miner_ok cm p data : is_bytes p -> zlen p < 2 ^ 32 -> deserialize_coinbase_payload cm p = Ok data ->
  miner_ok (cd_miner_data data) /\ 0 <= cd_subsidy data /\
  zlen (spk_script (miner_spk (cd_miner_data data))) <= Coinbase.coinbase_payload_script_public_key_max_len cm.
Proof.
  intros Hp Hl H. unfold deserialize_coinbase_payload in H. apply bind_ok in H as ([] & _ & H). apply bind_ok in H as ([] & _ & H).
  apply bind_ok in H as ([b1 r1] & H1 & H). apply bind_ok in H as ([b2 r2] & H2 & H). apply bind_ok in H as ([b3 r3] & H3 & H).
  apply bind_ok in H as ([b4 r4] & H4 & H). apply bind_ok in H as ([] & Hmax%fail_if_false%Z.ltb_ge & H). apply bind_ok in H as ([] & _ & H).
  apply bind_ok in H as ([script extra] & H5 & H). apply (inj Ok) in H. subst data. cbn [cd_miner_data cd_subsidy].
  apply parser_take_inv in H1 as [-> L1]; [|done]. apply parser_take_inv in H2 as [-> L2]; [|done].
  apply parser_take_inv in H3 as [-> L3]; [|done]. apply parser_take_inv in H4 as [-> L4]; [|done].
  apply Forall_app in Hp as [_ Hp]. apply Forall_app in Hp as [P2 Hp]. apply Forall_app in Hp as [P3 Hp]. apply Forall_app in Hp as [P4 Hp].
  apply parser_take_inv in H5 as [-> L5]; [|by apply undigits_nonneg]. rewrite !zlen_app in Hl.
  pose proof (undigits_range 256 (eq_refl : 1 < 256) b3 P3) as R3. rewrite L3 in R3.
  pose proof (zlen_nonneg b1). pose proof (zlen_nonneg b2). pose proof (zlen_nonneg b3). pose proof (zlen_nonneg b4).
  pose proof (zlen_nonneg script). pose proof (zlen_nonneg extra).
  split; [|split; [by apply undigits_nonneg|cbn [miner_spk spk_script]; lia]]. unfold miner_ok, Hashing.spk_wf, inW. cbn [miner_spk extra_data spk_version spk_script].
  change LENGTH_OF_SCRIPT_PUB_KEY_VERSION with 2 in R3. lia.
Qed.

Definition subsidy_of (rewards : gmap Hash BlockRewardData) (h : Hash) : Z :=
  match rewards !! h with Some r => rw_subsidy r | None => 0 end.
Lemma total_sum f l : total f l = sum_of f l.
Proof. unfold total. induction l as [|x l IH]; [done|]. cbn. by rewrite IH. Qed.
Lemma output_total_sum outs : output_total outs = sum_of value outs.
Proof. unfold output_total. induction outs as [|x l IH]; [done|]. cbn. by rewrite IH. Qed.
Lemma sum_of_le {X} (f g : X -> Z) l : (forall x, x ∈ l -> f x <= g x) -> sum_of f l <= sum_of g l.
Proof.
  induction l as [|x l IH]; intros H; [done|]. rewrite !sum_of_cons. pose proof (H x ltac:(left)).
  enough (sum_of f l <= sum_of g l) by lia. apply IH. intros y Hy. apply H. by right.
Qed.
Lemma sum_of_filter_in {X} (f : X -> Z) (P : X -> Prop) `{!forall x, Decision (P x)} l : (forall x, x ∈ l -> 0 <= f x) ->
  sum_of f (filter P l) <= sum_of f l.
Proof.
  induction l as [|x l IH]; intros Hf; [done|]. rewrite filter_cons, sum_of_cons. pose proof (Hf x ltac:(left)).
  assert (sum_of f (filter P l) <= sum_of f l) by (apply IH; intros y Hy; apply Hf; by right).
  case_decide; [rewrite sum_of_cons|]; lia.
Qed.
(** At most the subsidies and the fees of the mergeset are paid. *)
Lemma payout_bound rewards non_daa d :
  (forall h, h ∈ unordered_mergeset d -> 0 <= subsidy_of rewards h /\ 0 <= fee_of rewards h) ->
  total (full_reward rewards) (filter (fun h => h ∉ non_daa) (mergeset_blues d)) +
    total (red_reward_of rewards non_daa) (mergeset_reds d) <=
  sum_of (subsidy_of rewards) (unordered_mergeset d) + sum_of (fee_of rewards) (unordered_mergeset d).
Proof.
  intros Hr. rewrite <- sum_of_add. unfold unordered_mergeset. rewrite sum_of_app, !total_sum.
  assert (forall h, full_reward rewards h = subsidy_of rewards h + fee_of rewards h) as Hfull.
  { intros h. unfold full_reward, subsidy_of, fee_of. by destruct (rewards !! h). }
  apply Z.add_le_mono.
  - transitivity (sum_of (full_reward rewards) (mergeset_blues d)); [|by apply sum_of_le; intros h _; rewrite Hfull].
    apply sum_of_filter_in. intros h Hh. rewrite Hfull. destruct (Hr h); [apply elem_of_app; by left|lia].
  - apply sum_of_le. intros h Hh. destruct (Hr h) as [Hs _]; [apply elem_of_app; by right|].
    unfold red_reward_of, subsidy_of, fee_of in *. destruct (rewards !! h); [|lia]. case_decide; lia.
Qed.

Section supply.
Context `{SC : ScriptCrypto} `{CR : CacheRandom} `{SI : !SetIter Hash} `{SCH : Schedule}.
Context (self : VirtualStateProcessor) (T : Transaction -> Prop) (d : GhostdagData) (m : MuHash) `{!UtxoView V} (v : V).
Context (A : list (PopulatedTransaction * u64)) (U : UtxoCollection) (coinbase : Transaction) (blocks : list (Hash * list Transaction)).
Context (pov : u64) (Hready : merge_ready self T d pov A U coinbase blocks).
Context (Hv : forall o, get v o = U !! o) (Hm : commits m U).


(** The header, and the block's own transactions. *)
Context (h : Header) (txs : list Transaction).
Context (Htxs : block_transactions_store self !! h_hash h = Some txs) (Hind : independent txs) (Hsane : Forall tx_sane txs).

(** C11. What a verified block respects: when [verify_expected_utxo_state] accepts
    the context that [calculate_utxo_state] computed, the header commits to
    the UTXO set of the extended ledger and to the accepted identifiers on
    top of its selected parent's, the coinbase has the hash of the expected
    one, the pruning point is the expected one, and every other transaction
    of the block spends entries of that set and pays a non-negative fee. *)
Theorem verified_block_valid s ctx s1 ctx' s2 :
  calculate_utxo_state self v pov (context_new d m) s = (Ok ctx, s1) ->
  verify_expected_utxo_state self ctx v h s1 = (Ok ctx', s2) ->
  exists B own rest non_daa, advanced self T d v A U pov coinbase blocks ctx B /\ txs = own :: rest /\
    daa_excluded_store self !! h_hash h = Some non_daa /\
    verified self (foldl apply_tx U (now pov B)) ctx h own rest non_daa.
Proof using Hready Hv Hm Htxs Hind Hsane.
  intros Ec Ev. destruct (calculate_utxo_state_ok self T d m v A U coinbase blocks pov s Hready Hv Hm) as (c & s' & B & E & Had).
  rewrite Ec in E. injection E as <- <-.
  destruct (verify_ok self v ctx (foldl apply_tx U (now pov B)) h s1 ctx' s2 txs) as (own & rest & nd & ? & ? & ?); try done.
  - apply Hready.
  - split; apply Had.
  - apply (lg_typed _ _ (ad_ledger _ _ _ _ _ _ _ _ _ _ _ Had)).
  - exists B, own, rest, nd. done.
Qed.

Lemma rewards_sane ctx B h' : advanced self T d v A U pov coinbase blocks ctx B -> h' ∈ map fst blocks ->
  0 <= subsidy_of (mergeset_rewards ctx) h' /\ 0 <= fee_of (mergeset_rewards ctx) h' /\
  forall r, mergeset_rewards ctx !! h' = Some r -> Hashing.spk_wf (rw_spk r).
Proof using Hready.
  intros Had Hh. apply list_elem_of_fmap in Hh as (b & -> & Hb).
  destruct (ad_rewards _ _ _ _ _ _ _ _ _ _ _ Had b Hb) as (cb & data & fees & Hcb & Hd & Hf & Hr).
  pose proof (mr_ready _ _ _ _ _ _ _ _ Hready) as Hrd. rewrite Forall_forall in Hrd. destruct (Hrd b Hb) as [_ Hs _ _].
  destruct (b.2) as [|cb' l] eqn:E; [done|]. injection Hcb as ->. apply Forall_cons in Hs as [Hs _].
  destruct (wf_payload _ Hs) as [Hby Hl]. destruct (deserialize_miner_ok _ _ _ Hby Hl Hd) as ((Hspk & _) & Hsub & _).
  unfold subsidy_of, fee_of. rewrite Hr. split_and!; [done|done|]. by intros r [= <-].
Qed.

End supply.

(** ** Witnesses

    A ledger of one funding transaction; a selected parent whose second
    transaction spends it with a fee; a block on top of it. *)
Section witnesses.
Local Existing Instance in_order.
Local Existing Instance first_evicted.
Local Existing Instance toy_crypto.
Local Definition sets : SetIter Hash := elements_iter _.
Local Existing Instance sets.

Definition or_else {E A} (r : res E A) (a : A) : A := match r with Ok x => x | _ => a end.
Definition w_script : ScriptPublicKey := {| spk_version := 0; spk_script := [0x51] |}.
Definition w_output (x : u64) : TransactionOutput := {| value := x; out_script_public_key := w_script |}.
Definition w_fund : Transaction := {| version := 1; inputs := []; outputs := [w_output 1000000000]; lock_time := 0;
  subnetwork_id := SUBNETWORK_ID_NATIVE; gas := 0; payload := []; mass := 0; id := 70 |}.
Definition w_history : list (PopulatedTransaction * u64) := [({| ptx := w_fund; entries := [] |}, 5)].
Definition w_utxos : UtxoCollection := apply_tx ∅ ({| ptx := w_fund; entries := [] |}, 5).
Definition w_payload (subsidy : u64) : bytes := encode_payload (mkCoinbaseData 9 subsidy (mkMinerData w_script [])).
Definition w_coinbase : Transaction := {| version := 0; inputs := []; outputs := [w_output 37002785]; lock_time := 0;
  subnetwork_id := SUBNETWORK_ID_COINBASE; gas := 0; payload := w_payload 37002785; mass := 0; id := 71 |}.
Definition w_spend : Transaction := {| version := 1; lock_time := 0; subnetwork_id := SUBNETWORK_ID_NATIVE; gas := 0; payload := [];
  inputs := [{| previous_outpoint := {| transaction_id := 70; index := 0 |}; signature_script := []; sequence := 0; sig_op_count := 0 |}];
  outputs := [w_output 999990000]; mass := 0; id := 72 |}.
Definition w_known (t : Transaction) : Prop := t ∈ [w_fund; w_coinbase; w_spend].
Definition w_data : GhostdagData := mkGhostdagData 10 5 1 [1] [] ∅.
Definition w_header (n : Z) (root : MerkleHash) (commitment : Hash) : Header := mkHeader n 1 [(1, [1])] 0 root commitment 1000 0 0 50 0 10 0.
Definition w_proc (own : list Transaction) : VirtualStateProcessor := {|
  transaction_validator := mainnet_validator; vp_svm := None; coinbase_manager := mainnet_manager;
  block_transactions_store := {[1 := [w_coinbase; w_spend]; 2 := own]}; ghostdag_store := ∅;
  vp_headers_store := {[1 := w_header 1 0 0]}; daa_excluded_store := {[2 := ∅]};
  expected_header_pruning_point := fun _ => Ok (mkPruningReply 0 0) |}.
Definition w_state : Ps := mkPs no_state ∅ ∅ ∅.
Definition w_multiset : MuHash :=
  or_else (muhash_add_transaction (E:=unit) muhash_new {| ptx := w_fund; entries := [] |} 5) muhash_new.
Definition w_coinbase_p : PopulatedTransaction := {| ptx := w_coinbase; entries := [] |}.
Definition w_diff0 : UtxoDiff := (add_transaction w_coinbase_p 50 ∅).2.
Definition w_accepted : list (ValidatedTransaction * u32) :=
  match (validate_transactions_in_parallel (w_proc []) (compose w_utxos w_diff0) 50 SkipScriptChecks 1 [w_coinbase; w_spend] w_state).1 with
  | Ok l => l | _ => [] end.
Definition w_acc : Acceptance :=
  match res_foldl (accept_transaction (w_proc []) 50) (mkAcc w_diff0 [71] 0 ∅) w_accepted with Ok a => a | _ => mkAcc ∅ [] 0 ∅ end.
Definition w_ctx (ms : MuHash) : UtxoProcessingContext :=
  mkContext w_data ms (ac_diff w_acc) (ac_ids w_acc) [mkAcceptance 1 [mkAccepted 71 0; mkAccepted 72 1]]
    {[1 := mkReward 37002785 10000 w_script]} None.
Definition w_own : Transaction :=
  match expected_coinbase_transaction mainnet_manager calc_id {[1 := mkReward 37002785 10000 w_script]} ∅ 50 (mkMinerData w_script []) w_data with
  | Ok t => ct_tx t | _ => w_coinbase end.
Definition w_block_header (ms : MuHash) : Header := w_header 2
  match calc_accepted_id_merkle_root (w_proc []) (ac_ids w_acc) 1 with Ok r => r | _ => 0 end (muhash_finalize ms).

Lemma w_fund_fits : fits ∅ {| ptx := w_fund; entries := [] |}.
Proof.
  apply coinbase_fits; [done|]. split; try done; try (by repeat constructor).
Qed.
Lemma w_ledger : ledger w_history w_utxos.
Proof.
  apply (ledger_step [] ∅ {| ptx := w_fund; entries := [] |} 5 ledger_nil w_fund_fits); [|lia]. by intros ?%elem_of_nil.
Qed.
Lemma w_commits : commits w_multiset w_utxos.
Proof.
  destruct (holds_transaction (E:=unit) muhash_new _ {| ptx := w_fund; entries := [] |} 5 eq_refl holds_new) as (m & E & H).
  unfold w_multiset. rewrite E. eapply holds_ext; [exact H|]. intros k _. rewrite (lg_sum _ _ w_ledger). cbn [w_history sum_of foldr fst snd].
  f_equal. lia.
Qed.
Lemma w_calculated : exists ms s, calculate_utxo_state (w_proc [w_own]) w_utxos 50 (context_new w_data w_multiset) w_state =
  (Ok (w_ctx ms), s).
Proof.
  destruct (holds_transaction (E:=RuleError) w_multiset _ w_coinbase_p 50 eq_refl w_commits) as (m1 & E1 & _).
  destruct (inner_holds (H:=script_blake2b) w_accepted 50) as (hashes & E2 & _); [intros b Hb; by apply list_elem_of_singleton in Hb as ->|].
  eexists _, _. eapply (calculate_eq _ _ _ _ _ w_coinbase [w_spend] w_diff0 m1 [(1, [w_coinbase; w_spend])]);
    [by vm_compute|done|by vm_compute|exact E1|by vm_compute|].
  cbn [length seq zip_with zip stm_foldl]. unfold mbind, stm_bind.
  assert (validate_transactions_in_parallel (w_proc [w_own]) (compose w_utxos w_diff0) 50 SkipScriptChecks 1 [w_coinbase; w_spend] w_state =
    (Ok w_accepted, w_state)) as Ev by (vm_compute; reflexivity).
  assert (res_foldl (accept_transaction (w_proc [w_own]) 50) (mkAcc w_diff0 [id w_coinbase] 0 ∅) w_accepted = Ok w_acc) as Ea
    by (vm_compute; reflexivity).
  assert (deserialize_coinbase_payload mainnet_manager (payload w_coinbase) = Ok (mkCoinbaseData 9 37002785 (mkMinerData w_script []))) as Ed
    by (vm_compute; reflexivity).
  pose proof (process_block_eq (w_proc [w_own]) 50 w_utxos w_coinbase (mkContext w_data m1 w_diff0 [id w_coinbase] [] ∅ None) 0 1 w_coinbase [w_spend]
    w_state w_accepted w_state hashes w_acc (mkCoinbaseData 9 37002785 (mkMinerData w_script [])) Ev E2 Ea Ed) as Ep.
  rewrite Ep.
  reflexivity.
Qed.

Lemma w_sane (l : list Transaction) : l ⊆ [w_fund; w_coinbase; w_spend; w_own] -> Forall tx_sane l.
Proof.
  intros Hl. apply Forall_forall. intros t Ht. apply Hl in Ht. rewrite !elem_of_cons in Ht.
  destruct Ht as [->|[->|[->|[->|Ht%elem_of_nil]]]]; [..|done];
    (split; [by vm_compute|by vm_compute| | |by vm_compute|split; [|by vm_compute]]);
    repeat (apply Forall_cons; split); try apply Forall_nil; try done; repeat split; try (vm_compute; done);
    repeat constructor; vm_compute; done.
Qed.
Lemma w_independent : independent [w_coinbase; w_spend].
Proof.
  split.
  - exists w_coinbase, [w_spend]. split_and!; [done..|]. by apply Forall_singleton.
  - apply NoDup_cons. split; [by intros ?%list_elem_of_singleton|apply NoDup_singleton].
  - apply NoDup_singleton.
  - intros t t' p Ht Ht' Hp Hc. rewrite !elem_of_cons in Ht, Ht'.
    destruct Ht as [->|[->|?%elem_of_nil]]; [by apply elem_of_nil in Hp| |done]. apply list_elem_of_singleton in Hp as ->.
    destruct Ht' as [->|[->|?%elem_of_nil]]; [by apply list_elem_of_singleton in Hc..|done].
Qed.
Lemma w_ready : merge_ready (w_proc [w_own]) w_known w_data 50 w_history w_utxos w_coinbase [(1, [w_coinbase; w_spend])].
Proof.
  split.
  - split; cbn; [lia|done].
  - lia.
  - exact w_ledger.
  - by vm_compute.
  - apply NoDup_singleton.
  - by exists [w_spend], [].
  - apply Forall_singleton. split; [apply w_independent|apply w_sane; intros t Ht; right; cbn [snd] in Ht; rewrite !elem_of_cons in Ht; destruct Ht as [->|[->|?%elem_of_nil]]; [left|right; left|done]|
      intros t Ht; right; exact Ht|].
    intros cb [= <-]. eexists. by vm_compute.
  - intros t t' Ht Ht'. unfold w_known in Ht, Ht'. rewrite !elem_of_cons in Ht, Ht'.
    destruct Ht as [->|[->|[->|?%elem_of_nil]]], Ht' as [->|[->|[->|?%elem_of_nil]]]; done.
  - intros td ->%list_elem_of_singleton. left.
  - by intros ?%list_elem_of_singleton.
  - by vm_compute.
Qed.

(** The block on top of it. *)
Lemma w_own_independent : independent [w_own].
Proof.
  split.
  - exists w_own, []. split_and!; [done|by vm_compute|by vm_compute|by apply Forall_nil].
  - apply NoDup_singleton.
  - by apply NoDup_nil_2.
  - intros t t' p ->%list_elem_of_singleton _. change (spends w_own) with (@nil TransactionOutpoint). by intros ?%elem_of_nil.
Qed.
Lemma w_own_sane : Forall tx_sane [w_own].
Proof. apply w_sane. intros t ->%list_elem_of_singleton. do 3 right. left. Qed.
Lemma w_verified ms s : exists ctx' s2,
  verify_expected_utxo_state (w_proc [w_own]) (w_ctx ms) w_utxos (w_block_header ms) s = (Ok ctx', s2).
Proof.
  eexists _, _. apply (verify_eq _ _ _ _ _ w_own [] ∅ (mkPruningReply 0 0) []); 
    [reflexivity|vm_compute; reflexivity|reflexivity|reflexivity|vm_compute; reflexivity|reflexivity| |reflexivity|reflexivity].
  by destruct s.
Qed.
Lemma verified_block_valid_witness : exists ms s1 ctx' s2 B own rest non_daa,
  calculate_utxo_state (w_proc [w_own]) w_utxos 50 (context_new w_data w_multiset) w_state = (Ok (w_ctx ms), s1) /\
  verify_expected_utxo_state (w_proc [w_own]) (w_ctx ms) w_utxos (w_block_header ms) s1 = (Ok ctx', s2) /\
  advanced (w_proc [w_own]) w_known w_data w_utxos w_history w_utxos 50 w_coinbase [(1, [w_coinbase; w_spend])] (w_ctx ms) B /\
  verified (w_proc [w_own]) (foldl apply_tx w_utxos (now 50 B)) (w_ctx ms) (w_block_header ms) own rest non_daa.
Proof.
  destruct w_calculated as (ms & s1 & Ec). destruct (w_verified ms s1) as (ctx' & s2 & Ev).
  destruct (verified_block_valid (w_proc [w_own]) w_known w_data w_multiset w_utxos w_history w_utxos w_coinbase [(1, [w_coinbase; w_spend])] 50
    w_ready (fun o => eq_refl) w_commits (w_block_header ms) [w_own] eq_refl w_own_independent w_own_sane
    w_state (w_ctx ms) s1 ctx' s2 Ec Ev) as (B & own & rest & nd & H1 & _ & _ & H2).
  exists ms, s1, ctx', s2, B, own, rest, nd. exact (conj Ec (conj Ev (conj H1 H2))).
Defined.
Lemma w_amounts ms : msum entry_amount w_utxos + sum_of value (outputs w_coinbase) +
  sum_of (subsidy_of (mergeset_rewards (w_ctx ms))) (unordered_mergeset w_data) = 1000000000 + 37002785 + 37002785.
Proof. vm_compute. reflexivity. Qed.
Lemma w_own_wf : Hashing.tx_wf w_own.
Proof.
  assert (inputs w_own = [] /\ outputs w_own = [w_output 37012785]) as [Hi Ho] by (vm_compute; split; reflexivity).
  assert (version w_own = 0 /\ lock_time w_own = 0 /\ gas w_own = 0 /\ mass w_own = 0 /\ zlen (payload w_own) = 20 /\
    length (subnetwork_id w_own) = 20%nat) as (H1 & H2 & H3 & H4 & H5 & H6) by (vm_compute; repeat split).
  split; rewrite ?Hi, ?Ho, ?H1, ?H2, ?H3, ?H4, ?H5; try (unfold inW; try change (zlen (@nil TransactionInput)) with 0; try change (zlen [w_output 37012785]) with 1; lia);
    [by apply Forall_nil|].
  apply Forall_singleton. by vm_compute.
Qed.
End witnesses.
