(* ===== verification/Virtual.v ===== *)
(** * The virtual chain

    [consensus/src/pipeline/virtual_processor/processor.rs]: moving the UTXO
    state from one chain block to another ([calculate_utxo_state_relatively]
    walks down to the split point with reversed diffs and back up, validating
    the blocks it meets for the first time), with [commit_utxo_state] and the
    indexing of address lookup tables ([model/stores/alt.rs]); and the chain
    iterators of [model/services/reachability.rs].

    The selected-chain tree is an interface ([ChainService], [ChainLaws]); its
    implementation is the reachability index.  Fuel bounds the length of a
    chain walk; the height of the block is enough.

    The theorem: from stores whose diffs describe the chain, the walk never
    panics, whatever it finds, and ends with the diff of the block it returns:
    the target, or a block below one that is disqualified. *)
From S2P Require Import Prelude Encode Tx Hashing Header Merkle Script ScriptVm ScriptSafe Alt Svm Mass TxIsolation TxUtxo Utxo Muhash Dag Chain Coinbase BlockBody UtxoState.

(** ** Stores *)
Record ChainStores := mkStores {
  cs_ps : Ps;
  statuses_store : gmap Hash BlockStatus;
  utxo_diffs_store : gmap Hash UtxoDiff;
  utxo_multisets_store : gmap Hash MuHash;
  acceptance_data_store : gmap Hash (list MergesetBlockAcceptanceData);
  pruning_samples_store : gmap Hash Hash;
}.
Definition put_ps (s : ChainStores) (p : Ps) : ChainStores :=
  mkStores p (statuses_store s) (utxo_diffs_store s) (utxo_multisets_store s) (acceptance_data_store s) (pruning_samples_store s).
Definition set_status (s : ChainStores) (h : Hash) (st : BlockStatus) : ChainStores :=
  mkStores (cs_ps s) (<[h := st]> (statuses_store s)) (utxo_diffs_store s) (utxo_multisets_store s)
    (acceptance_data_store s) (pruning_samples_store s).
Definition on_ps {A} (m : stm Ps RuleError A) : stm ChainStores RuleError A := fun s =>
  let '(r, p) := m (cs_ps s) in (r, put_ps s p).
(** [store.insert_batch(..).unwrap()]: a key is written once. *)
Definition insert_new {V} (m : gmap Hash V) (k : Hash) (v : V) : res RuleError (gmap Hash V) :=
  match m !! k with Some _ => Panic | None => Ok (<[k := v]> m) end.

(** ** Address lookup tables *)
Definition index_alt_creations (entries : gmap bytes AltEntry) (creations : list AltEntry) : gmap bytes AltEntry :=
  foldl (fun m e => match m !! alt_handle e with Some _ => m | None => <[alt_handle e := e]> m end) entries creations.

(** ** Operations *)
Section processor.
Context `{SH : Sha3} `{SC : ScriptCrypto} `{CR : CacheRandom} `{SI : !SetIter Hash} `{SCH : Schedule} `{HI : !HashIter TransactionOutpoint UtxoEntry}.
Context `{CS : ChainService}.
Context (self : VirtualStateProcessor).

(** The creations in one output; a script that does not parse is skipped. *)
Definition alt_of_output (block : Hash) (daa : u64) (o : TransactionOutput) : res RuleError (list AltEntry) :=
  let script := spk_script (out_script_public_key o) in
  if negb (bool_decide (classify_alt_script script = Some Creation)) then Ok [] else
  match parse_alt_creation_header script with
  | Err _ => Ok []
  | Panic => Panic
  | NoFuel => NoFuel
  | Ok header =>
      es ← iter_alt_entries script;
      Ok [{| alt_handle := handle header;
             alt_entries := map (fun v => (entry_spk_version v, entry_spk_script v)) es;
             creating_block_hash := block; creating_daa_score := daa |}]
  end.
Definition alt_of_accepted (block : Hash) (daa : u64) (txs : list Transaction) (a : AcceptedTxEntry) : res RuleError (list AltEntry) :=
  match txs !! Z.to_nat (index_within_block a) with
  | None => Ok []
  | Some tx =>
      if version tx <? 1 then Ok [] else
      ls ← res_mapM (alt_of_output block daa) (outputs tx); Ok (concat ls)
  end.
Definition alt_of_block (block : Hash) (daa : u64) (b : MergesetBlockAcceptanceData) : res RuleError (list AltEntry) :=
  match block_transactions_store self !! acc_block_hash b with
  | None => Ok []
  | Some txs => ls ← res_mapM (alt_of_accepted block daa txs) (accepted_transactions b); Ok (concat ls)
  end.
Definition index_alt_creations_in_block (entries : gmap bytes AltEntry) (block : Hash)
    (acceptance_data : list MergesetBlockAcceptanceData) : res RuleError (gmap bytes AltEntry) :=
  let blue_score := from_option blue_score 0 (ghostdag_store self !! block) in
  let creating_daa_score := from_option h_daa_score blue_score (vp_headers_store self !! block) in
  ls ← res_mapM (alt_of_block block creating_daa_score) acceptance_data;
  Ok (index_alt_creations entries (concat ls)).

Definition commit_utxo_state (current : Hash) (mergeset_diff : UtxoDiff) (multiset : MuHash)
    (acceptance_data : list MergesetBlockAcceptanceData) (pruning_sample : Hash) : stm ChainStores RuleError unit := fun s =>
  let r :=
    diffs ← insert_new (utxo_diffs_store s) current mergeset_diff;
    multisets ← insert_new (utxo_multisets_store s) current multiset;
    alts ← index_alt_creations_in_block (ps_alt (cs_ps s)) current acceptance_data;
    acceptance ← insert_new (acceptance_data_store s) current acceptance_data;
    let samples := match pruning_samples_store s !! current with
                   | Some _ => pruning_samples_store s
                   | None => <[current := pruning_sample]> (pruning_samples_store s)
                   end in
    Ok (mkStores (mkPs (ps_val (cs_ps s)) (ps_wasm (cs_ps s)) alts ({[current]} ∪ ps_pending (cs_ps s)))
          (<[current := StatusUTXOValid]> (statuses_store s)) diffs multisets acceptance samples) in
  match r with Ok s' => (Ok tt, s') | Err e => (Err e, s) | Panic => (Panic, s) | NoFuel => (NoFuel, s) end.

(** The loop over [default_backward_chain_iterator(from)]: the iterator ends
    before [ORIGIN] and reads the parent of a block before it yields it. *)
Fixpoint walk_down (fuel : nat) (diffs : gmap Hash UtxoDiff) (to current : Hash) (diff : UtxoDiff) : res RuleError (Hash * UtxoDiff) :=
  match fuel with
  | O => NoFuel
  | S fuel =>
      if decide (current = ORIGIN) then Panic else
      next ← unwrap (get_chain_parent current);
      if is_chain_ancestor_of current to then Ok (current, diff) else
      mergeset_diff ← unwrap (diffs !! current);
      diff ← unwrap_diff (with_diff_in_place (as_reversed mergeset_diff) diff);
      walk_down fuel diffs to next diff
  end.

Section relative.
Context (utxo_set : UtxoCollection).

(** Validating a chain block for the first time: the state its mergeset leads
    to, then the verdict. *)
Definition commit_or_disqualify (current : Hash) (header : Header) (diff : UtxoDiff) (ctx : UtxoProcessingContext)
    : stm ChainStores RuleError (option UtxoDiff) := fun s =>
  match on_ps (verify_expected_utxo_state self ctx (compose utxo_set diff) header) s with
  | (Err _, s) => (Ok None, set_status s current StatusDisqualifiedFromChain)
  | (Ok ctx, s) =>
      (diff ← slift (unwrap_diff (with_diff_in_place (mergeset_diff ctx) diff));
       sample ← slift (unwrap (pruning_sample_from_pov ctx));
       _ ← commit_utxo_state current (mergeset_diff ctx) (multiset_hash ctx) (mergeset_acceptance_data ctx) sample;
       mret (Some diff)) s
  | (Panic, s) => (Panic, s)
  | (NoFuel, s) => (NoFuel, s)
  end.
Definition validate_chain_block (selected_parent current : Hash) (diff : UtxoDiff) : stm ChainStores RuleError (option UtxoDiff) :=
  header ← slift (unwrap (vp_headers_store self !! current));
  mergeset_data ← slift (unwrap (ghostdag_store self !! current));
  selected_parent_multiset_hash ← (fun s => (unwrap (utxo_multisets_store s !! selected_parent), s));
  ctx ← on_ps (calculate_utxo_state self (compose utxo_set diff) (h_daa_score header)
                 (context_new mergeset_data selected_parent_multiset_hash));
  commit_or_disqualify current header diff ctx.

(** A block above a disqualified one. *)
Definition disqualify (current : Hash) : stm ChainStores RuleError unit := fun s =>
  match statuses_store s !! current with
  | None => (Panic, s)
  | Some status => (Ok tt, if decide (status = StatusDisqualifiedFromChain) then s
                           else set_status s current StatusDisqualifiedFromChain)
  end.
(** One step of the walk up; the accumulator is the diff and [diff_point]. *)
Definition relative_step (acc : UtxoDiff * Hash) (w : Hash * Hash) : stm ChainStores RuleError (UtxoDiff * Hash) := fun s =>
  let '(diff, diff_point) := acc in
  let '(selected_parent, current) := w in
  if decide (selected_parent <> diff_point) then (_ ← disqualify current; mret acc) s else
  match utxo_diffs_store s !! current with
  | Some mergeset_diff =>
      (diff ← slift (unwrap_diff (with_diff_in_place mergeset_diff diff)); mret (diff, current)) s
  | None =>
      (status ← slift (unwrap (statuses_store s !! current));
       if decide (status = StatusDisqualifiedFromChain) then mret acc else
       o ← validate_chain_block selected_parent current diff;
       mret (match o with Some diff => (diff, current) | None => acc end)) s
  end.

Definition calculate_utxo_state_relatively (fuel : nat) (diff : UtxoDiff) (from to : Hash)
    : stm ChainStores RuleError (UtxoDiff * Hash) := fun s =>
  (status ← slift (unwrap (statuses_store s !! to));
   if decide (status = StatusDisqualifiedFromChain) then mret (diff, from) else
   '(split_point, diff) ← slift (walk_down fuel (utxo_diffs_store s) to from diff);
   path ← slift (forward_chain fuel true to split_point);
   stm_foldl relative_step (diff, split_point) (zip path (drop 1 path))) s.
End relative.
End processor.

(** ** Verification always returns *)
Definition payload_subsidy (cm : CoinbaseManager) (b : Hash * list Transaction) : Z :=
  match head b.2 with
  | Some cb => match deserialize_coinbase_payload cm (payload cb) with Ok data => cd_subsidy data | _ => 0 end
  | None => 0
  end.
(** What the checks of a block's header and body give for its verification. *)
Record own_ready `{SC : ScriptCrypto} (self : VirtualStateProcessor) (h : Header) (d : GhostdagData) : Prop := {
  ow_parent : is_Some (vp_headers_store self !! selected_parent d);
  ow_txs : exists txs, block_transactions_store self !! h_hash h = Some txs /\ independent txs /\ Forall tx_sane txs /\ zlen txs < 2 ^ 64 /\
    forall cb, head txs = Some cb -> exists data, deserialize_coinbase_payload (coinbase_manager self) (payload cb) = Ok data;
  ow_non_daa : is_Some (daa_excluded_store self !! h_hash h);
  ow_manager : manager_ok (coinbase_manager self) /\ inW 64 (h_daa_score h);
  ow_pruning : is_result (expected_header_pruning_point self (to_compact d));
}.
Lemma sum_of_in {X} (f : X -> Z) l x : (forall y, y ∈ l -> 0 <= f y) -> x ∈ l -> f x <= sum_of f l.
Proof.
  intros Hf Hx. induction l as [|y l IH]; [by apply elem_of_nil in Hx|]. rewrite sum_of_cons.
  assert (0 <= sum_of f l) by (apply sum_of_nonneg, Forall_forall; intros z Hz; apply Hf; by right).
  apply elem_of_cons in Hx as [->|Hx]; [lia|]. pose proof (Hf y ltac:(left)).
  enough (f x <= sum_of f l) by lia. apply IH; [|done]. intros z Hz. apply Hf. by right.
Qed.

Section verification.
Context `{SC : ScriptCrypto} `{CR : CacheRandom} `{SI : !SetIter Hash} `{SCH : Schedule}.
Context (self : VirtualStateProcessor) (T : Transaction -> Prop) (d : GhostdagData) `{!UtxoView V} (v : V).
Context (A : list (PopulatedTransaction * u64)) (U : UtxoCollection) (coinbase : Transaction) (blocks : list (Hash * list Transaction)).
Context (pov : u64) (Hready : merge_ready self T d pov A U coinbase blocks).
Context (ctx : UtxoProcessingContext) (B : list PopulatedTransaction) (Had : advanced self T d v A U pov coinbase blocks ctx B).
Context (Hpay : msum entry_amount U + sum_of value (outputs coinbase) + sum_of (payload_subsidy (coinbase_manager self)) blocks < 2 ^ 64).
Context (bl : list Hash) (Hbl : mergeset_blues d = selected_parent d :: bl).

Lemma rewards_total : sum_of (subsidy_of (mergeset_rewards ctx)) (unordered_mergeset d) +
    sum_of (fee_of (mergeset_rewards ctx)) (unordered_mergeset d) < 2 ^ 64 /\
  forall h, h ∈ unordered_mergeset d -> is_Some (mergeset_rewards ctx !! h) /\
    0 <= subsidy_of (mergeset_rewards ctx) h /\ 0 <= fee_of (mergeset_rewards ctx) h.
Proof using Hready Had Hpay Hbl.
  pose proof (mergeset_perm d _ _ bl Hbl (merged_blocks_fst _ _ _ (mr_blocks _ _ _ _ _ _ _ _ Hready))) as Hperm.
  split.
  - rewrite <- !(sum_of_perm _ _ _ Hperm). pose proof (ad_supply _ _ _ _ _ _ _ _ _ _ _ Had) as Hs.
    assert (0 <= msum entry_amount (foldl apply_tx U (now pov B))).
    { apply msum_nonneg. intros o e He. apply (lg_typed _ _ (ad_ledger _ _ _ _ _ _ _ _ _ _ _ Had) o e He). }
    enough (sum_of (subsidy_of (mergeset_rewards ctx)) (map fst blocks) = sum_of (payload_subsidy (coinbase_manager self)) blocks) by lia.
    rewrite sum_of_map. apply sum_of_ext. intros b Hb.
    destruct (ad_rewards _ _ _ _ _ _ _ _ _ _ _ Had b Hb) as (cb & data & fees & Hcb & Hd & _ & Hr).
    unfold subsidy_of, payload_subsidy. by rewrite Hr, Hcb, Hd.
  - intros h Hh. rewrite <- Hperm in Hh. destruct (rewards_sane self T d v A U coinbase blocks pov Hready ctx B h Had Hh) as (? & ? & _).
    split; [|done]. apply list_elem_of_fmap in Hh as (b & -> & Hb).
    destruct (ad_rewards _ _ _ _ _ _ _ _ _ _ _ Had b Hb) as (cb & data & fees & _ & _ & _ & Hr). by rewrite Hr.
Qed.
Lemma rewards_rewarded h : h ∈ unordered_mergeset d -> rewarded (mergeset_rewards ctx) h.
Proof using Hready Had Hpay Hbl.
  intros Hh. destruct rewards_total as [Ht Hr]. destruct (Hr h Hh) as ([r E] & Hs & Hf). unfold rewarded.
  exists r. unfold subsidy_of, fee_of in Hs, Hf. rewrite E in Hs, Hf. split_and!; [done..|].
  pose proof (sum_of_in (fun x => subsidy_of (mergeset_rewards ctx) x + fee_of (mergeset_rewards ctx) x) (unordered_mergeset d) h) as Hin.
  rewrite sum_of_add in Hin. cbv beta in Hin.
  assert (subsidy_of (mergeset_rewards ctx) h = rw_subsidy r /\ fee_of (mergeset_rewards ctx) h = rw_total_fees r) as [E1 E2].
  { unfold subsidy_of, fee_of. by rewrite E. }
  rewrite E1, E2 in Hin. enough (rw_subsidy r + rw_total_fees r <= _) by (eapply Z.le_lt_trans; [done|exact Ht]). apply Hin; [|done].
  intros y Hy. destruct (Hr y Hy) as (_ & ? & ?). lia.
Qed.
Lemma reds_bounded non_daa : total (red_reward_of (mergeset_rewards ctx) non_daa) (mergeset_reds d) < 2 ^ 64.
Proof using Hready Had Hpay Hbl.
  destruct rewards_total as [Ht Hr].
  assert (forall h, h ∈ unordered_mergeset d -> 0 <= subsidy_of (mergeset_rewards ctx) h /\ 0 <= fee_of (mergeset_rewards ctx) h) as Hr'.
  { intros h Hh. by destruct (Hr h Hh) as (_ & ? & ?). }
  pose proof (payout_bound (mergeset_rewards ctx) non_daa d Hr') as Hp.
  assert (0 <= total (full_reward (mergeset_rewards ctx)) (filter (fun h => h ∉ non_daa) (mergeset_blues d))); [|lia].
  rewrite total_sum. apply sum_of_nonneg, Forall_forall. intros h [_ Hh]%list_elem_of_filter.
  destruct (Hr' h) as [H1 H2]; [apply elem_of_app; by left|]. unfold full_reward, subsidy_of, fee_of in *.
  destruct (_ !! h); lia.
Qed.

Lemma verify_coinbase_result own daa non_daa : manager_ok (coinbase_manager self) -> inW 64 daa -> tx_sane own ->
  (exists data, deserialize_coinbase_payload (coinbase_manager self) (payload own) = Ok data) ->
  is_result (verify_coinbase_transaction self own daa d (mergeset_rewards ctx) non_daa).
Proof using Hready Had Hpay Hbl.
  intros Hm Hd Hown [data Hdata]. unfold verify_coinbase_transaction. rewrite Hdata. cbn [unwrap_res mbind res_bind].
  destruct (wf_payload _ Hown) as [Hby Hl]. destruct (deserialize_miner_ok _ _ _ Hby Hl Hdata) as (_ & _ & Hlen).
  destruct (expected_coinbase_ok (coinbase_manager self) calc_id (mergeset_rewards ctx) non_daa daa (cd_miner_data data) d) as (t & -> & _);
    [done|done|apply rewards_rewarded|apply reds_bounded|done|cbn; by destruct (negb _)].
Qed.
Lemma verify_result h s : own_ready self h d -> is_result (verify_expected_utxo_state self ctx v h s).1.
Proof using Hready Had Hpay Hbl.
  intros [[ph Hph] (txs & Htxs & Hind & Hsane & Hlen & Hdec) [nd Hnd] [Hman Hdaa] Hpp].
  unfold verify_expected_utxo_state, mbind, stm_bind, slift. destruct (negb _); [done|]. cbn [fail_if].
  rewrite (ad_data _ _ _ _ _ _ _ _ _ _ _ Had). unfold calc_accepted_id_merkle_root. rewrite Hph. cbn [unwrap mbind res_bind].
  rewrite calc_merkle_root_ok. cbn [mbind res_bind]. destruct (negb _); [done|]. cbn [fail_if]. rewrite Htxs. cbn [unwrap].
  destruct (in_coinbase _ Hind) as (own & rest & -> & _). change (at_ (E:=RuleError) (own :: rest) 0) with (Ok (E:=RuleError) own). cbv beta iota.
  rewrite Hnd. cbn [unwrap]. pose proof Hsane as Hs. apply Forall_cons in Hs as [Hs _].
  pose proof (verify_coinbase_result own (h_daa_score h) nd Hman Hdaa Hs (Hdec own eq_refl)) as Hc.
  destruct (verify_coinbase_transaction _ _ _ _ _ _); [|done..]. unfold verify_header_pruning_point.
  destruct (expected_header_pruning_point self _) as [reply| | |]; [|done..]. cbn [mbind res_bind]. destruct (negb _); [done|]. cbn [fail_if mbind res_bind mergeset_diff].
  destruct (validate_parallel_ok self (mr_validator _ _ _ _ _ _ _ _ Hready) (compose v (mergeset_diff ctx)) _
    (ad_view _ _ _ _ _ _ _ _ _ _ _ Had) (lg_typed _ _ (ad_ledger _ _ _ _ _ _ _ _ _ _ _ Had)) (h_daa_score h) Full (h_hash h) (own :: rest) s Hsane
    (independent_nodup _ Hind)) as (Bv & s' & -> & _).
  rewrite u64_sub_ok by (unfold zlen, inW in *; cbn [length] in *; lia). by destruct (zlen _ <? _).
Qed.
End verification.

(** ** Indexing lookup tables always returns *)
Section alts.
Context `{SH : Sha3} (self : VirtualStateProcessor).

Lemma mapM_exists {E X Y} (f : X -> res E Y) l : (forall x, x ∈ l -> exists y, f x = Ok y) -> exists ys, res_mapM f l = Ok ys.
Proof.
  induction l as [|x l IH]; intros H; [by exists []|]. destruct (H x) as [y Hy]; [left|].
  destruct IH as [ys Hys]; [intros z Hz; apply H; by right|]. exists (y :: ys). cbn [res_mapM]. by rewrite Hy, Hys.
Qed.
Lemma alt_of_output_ok block daa o : spk_bytes (out_script_public_key o) -> exists es, alt_of_output block daa o = Ok es.
Proof.
  intros Hb. unfold alt_of_output. destruct (negb _); [by eexists|].
  pose proof (alt_parse_total_lemma _ Hb) as Ht. destruct (parse_alt_creation_header _) as [h|e| |] eqn:Hp; [|by eexists|done..].
  destruct (parse_canonical _ h Hb Hp) as (es & Hty & He). destruct (parse_encoded es _ Hty He) as [_ ->]. by eexists.
Qed.
Lemma alt_of_accepted_ok block daa txs a : Forall tx_sane txs -> exists es, alt_of_accepted block daa txs a = Ok es.
Proof.
  intros Hs. unfold alt_of_accepted. destruct (txs !! _) as [tx|] eqn:Htx; [|by eexists]. destruct (version tx <? 1); [by eexists|].
  destruct (mapM_exists (alt_of_output block daa) (outputs tx)) as [l ->]; [|by eexists].
  intros o Ho. apply alt_of_output_ok. pose proof (proj1 (Forall_lookup _ _) Hs _ _ Htx) as [_ _ _ Hout _ _].
  rewrite Forall_forall in Hout. by apply Hout.
Qed.
Lemma index_alt_ok entries block data :
  (forall b txs, b ∈ data -> block_transactions_store self !! acc_block_hash b = Some txs -> Forall tx_sane txs) ->
  exists m, index_alt_creations_in_block self entries block data = Ok m.
Proof.
  intros H. unfold index_alt_creations_in_block.
  edestruct (mapM_exists (alt_of_block self block (from_option h_daa_score (from_option blue_score 0 (ghostdag_store self !! block))
    (vp_headers_store self !! block))) data) as [l ->]; [|by eexists].
  intros b Hb. unfold alt_of_block. destruct (_ !! acc_block_hash b) as [txs|] eqn:Htxs; [|by eexists].
  destruct (mapM_exists (alt_of_accepted block (from_option h_daa_score (from_option blue_score 0 (ghostdag_store self !! block))
    (vp_headers_store self !! block)) txs) (accepted_transactions b)) as [ls ->]; [|by eexists].
  intros a _. eapply alt_of_accepted_ok, H; done.
Qed.
End alts.

(** ** Diffs along the chain *)
Section views.
Context `{!UtxoView V, !UtxoView W}.
Lemma valid_same `{!ImmutableUtxoDiff D} (v : V) (w : W) (d : D) : (forall o, get v o = get w o) -> valid v d -> valid w d.
Proof. intros H. rewrite !valid_pvalid. intros Hv o. rewrite <- H. apply Hv. Qed.
Lemma compose_same `{!ImmutableUtxoDiff D} (v : V) (w : W) (d : D) o : get v o = get w o -> get (compose v d) o = get (compose w d) o.
Proof. intros H. by rewrite !get_compose, H. Qed.
End views.

(** The entries that transactions of [T] create. *)
Definition minted (T : Transaction -> Prop) (o : TransactionOutpoint) (e : UtxoEntry) : Prop :=
  exists t daa, T (ptx t) /\ tx_sane (ptx t) /\ (o, e) ∈ created t daa.
Lemma minted_versioned T : ids_bind T -> versioned (minted T).
Proof.
  intros HT o x y (t & daa & Ht & Hs & Hx) (t' & daa' & Ht' & Hs' & Hy) Hd. unfold created in Hx, Hy.
  apply list_elem_of_lookup in Hx as [i Hx], Hy as [j Hy]. rewrite list_lookup_imap in Hx, Hy.
  destruct (outputs (ptx t) !! i) as [ox|] eqn:Hi; [|done]. destruct (outputs (ptx t') !! j) as [oy|] eqn:Hj; [|done].
  injection Hx as <- <-. injection Hy as Hid Hw <-. cbn [block_daa_score] in Hd. subst daa'.
  destruct (HT _ _ Ht Ht' (eq_sym Hid)) as (_ & Ho & ->). pose proof (wf_outputs _ Hs) as Hl. pose proof (wf_outputs _ Hs') as Hl'.
  assert (i = j) as ->; [|rewrite Ho, Hj in Hi; injection Hi as ->; done].
  apply lookup_lt_Some in Hi, Hj. unfold zlen in *. rewrite !wrap_small in Hw by (unfold inW; lia). lia.
Qed.
Lemma ledger_minted T A U o e : (forall t, T t -> tx_sane t) -> (forall td, td ∈ A -> T (ptx td.1)) -> ledger A U -> U !! o = Some e -> minted T o e.
Proof. intros Hs HA HL He. destruct (lg_from _ _ HL o e He) as (td & Htd & Hc). exists td.1, td.2. auto. Qed.

Section follow.
Context `{HI : !HashIter TransactionOutpoint UtxoEntry}.
Lemma unwrap_with_diff {E} `{!ImmutableUtxoDiff D} (d1 : UtxoDiff) (d2 : D) r : with_diff d1 d2 = Ok r ->
  unwrap_diff (E:=E) (with_diff_in_place d2 d1) = Ok r.
Proof. unfold with_diff, unwrap_diff. destruct (with_diff_in_place d2 d1) as [[[]| | |] c]; [|done..]. intros H. by injection H as ->. Qed.
(** Following a diff from the set [W] to the set [W']. *)
Lemma follow {E} `{!UtxoView V, !ImmutableUtxoDiff D} G (v : V) (d : UtxoDiff) (D' : D) W W' :
  versioned G -> (forall o e, get v o = Some e -> G o e) -> (forall o e, added D' !! o = Some e -> G o e) ->
  tracks v d W -> valid W D' -> (forall o, get (compose W D') o = W' !! o) ->
  exists d', unwrap_diff (E:=E) (with_diff_in_place D' d) = Ok d' /\ tracks v d' W'.
Proof.
  intros HG Hv Hd [Hval Hget] HD HW.
  destruct (with_diff_versions G v d D' HG Hv Hd Hval) as (r & Hr & Hvr & Hgr).
  { apply (valid_same W); [|exact HD]. intros o. symmetry. apply Hget. }
  exists r. split; [by apply unwrap_with_diff|]. split; [done|]. intros o. rewrite Hgr, <- HW. apply compose_same, Hget.
Qed.
End follow.

(** ** The state of a chain block *)
Section chain.
Context `{SH : Sha3} `{SC : ScriptCrypto} `{CR : CacheRandom} `{SI : !SetIter Hash} `{SCH : Schedule} `{HI : !HashIter TransactionOutpoint UtxoEntry}.
Context `{CS : ChainService} `{CL : !ChainLaws}.
Context (self : VirtualStateProcessor) (T : Transaction -> Prop).
Context (root : Hash) (A0 : list (PopulatedTransaction * u64)) (U0 : UtxoCollection).

(** The ledgers of the verified chains above [root]: each block's mergeset
    accepted on top of its parent's ledger, and the block verified. *)
Inductive chain_state : Hash -> list (PopulatedTransaction * u64) -> UtxoCollection -> Prop :=
| cs_root : chain_state root A0 U0
| cs_next b p h d coinbase txs blocks A U ctx B own rest non_daa :
    get_chain_parent b = Some p -> vp_headers_store self !! b = Some h -> ghostdag_store self !! b = Some d ->
    block_transactions_store self !! p = Some (coinbase :: txs) -> merged_blocks self d = Ok blocks ->
    block_transactions_store self !! b = Some (own :: rest) -> daa_excluded_store self !! b = Some non_daa ->
    chain_state p A U -> advanced self T d U A U (h_daa_score h) coinbase blocks ctx B ->
    verified self (foldl apply_tx U (now (h_daa_score h) B)) ctx h own rest non_daa ->
    chain_state b (A ++ now (h_daa_score h) B) (foldl apply_tx U (now (h_daa_score h) B)).

Definition own_coinbase (b : Hash) : option Transaction := block_transactions_store self !! b ≫= head.

(** What header and body validation leave for a chain block above [root]. *)
Record chain_block (b p : Hash) (h : Header) (d : GhostdagData) (bl : list Hash) (coinbase : Transaction)
    (blocks : list (Hash * list Transaction)) : Prop := {
  bk_header : vp_headers_store self !! b = Some h /\ h_hash h = b;
  bk_score : 0 <= h_daa_score h < 2 ^ 62;
  bk_data : ghostdag_store self !! b = Some d /\ selected_parent d = p;
  bk_blues : mergeset_blues d = p :: bl;
  bk_merged : merged_blocks self d = Ok blocks;
  bk_distinct : NoDup (map fst blocks);
  bk_ready : Forall (fun x => block_ready self T x.2) blocks;
  bk_coinbase : exists txs rest, blocks = (p, coinbase :: txs) :: rest;
  bk_own : own_ready self h d;
}.
Record chain_ready : Prop := {
  cr_validator : validator_ok (transaction_validator self);
  cr_ids : ids_bind T;
  cr_sane t : T t -> tx_sane t;
  cr_ledger : ledger A0 U0;
  cr_known td : td ∈ A0 -> T (ptx td.1);
  cr_root : is_Some (get_chain_parent root);
  cr_origin : ~ on_chain root ORIGIN;
  cr_block b p : on_chain root p -> get_chain_parent b = Some p -> is_Some (block_transactions_store self !! b) ->
    exists h d bl coinbase blocks, chain_block b p h d bl coinbase blocks;
  (** coinbase identifiers are new *)
  cr_coinbase a b ca cb : on_chain root a -> on_chain a b -> a <> b -> own_coinbase a = Some ca -> own_coinbase b = Some cb -> id ca <> id cb;
  cr_coinbase_new b cb td : on_chain root b -> own_coinbase b = Some cb -> td ∈ A0 -> td_id td <> id cb;
  (** the supply stays in range *)
  cr_supply b p h d bl coinbase blocks A U : chain_state p A U -> chain_block b p h d bl coinbase blocks ->
    msum entry_amount U + sum_of value (outputs coinbase) + sum_of (payload_subsidy (coinbase_manager self)) blocks < 2 ^ 64;
}.
Context (Hr : chain_ready).

Lemma block_coinbase b p h d bl coinbase blocks : chain_block b p h d bl coinbase blocks ->
  (exists txs, block_transactions_store self !! p = Some (coinbase :: txs)) /\ own_coinbase p = Some coinbase /\ inputs coinbase = [] /\ T coinbase.
Proof.
  intros Hb. destruct (bk_coinbase _ _ _ _ _ _ _ Hb) as (txs & rest & E). pose proof (bk_merged _ _ _ _ _ _ _ Hb) as Hm. rewrite E in Hm.
  apply merged_blocks_head in Hm as [_ Hm]. rewrite (proj2 (bk_data _ _ _ _ _ _ _ Hb)) in Hm. unfold own_coinbase. rewrite Hm.
  pose proof (bk_ready _ _ _ _ _ _ _ Hb) as Hy. rewrite E in Hy. apply Forall_cons in Hy as [[Hind _ Hk _] _].
  destruct (in_coinbase _ Hind) as (? & ? & [= <- <-] & _ & Hi & _). split_and!; [by eexists|done|done|]. apply Hk. left.
Qed.
Lemma chain_state_inv b A U : chain_state b A U ->
  on_chain root b /\ ledger A U /\ (forall td, td ∈ A -> T (ptx td.1)) /\
  forall td, td ∈ A -> inputs (ptx td.1) = [] -> td ∈ A0 \/
    exists a ca, on_chain root a /\ on_chain a b /\ a <> b /\ own_coinbase a = Some ca /\ td_id td = id ca.
Proof using Hr CL.
  induction 1 as [|b p h d coinbase txs blocks A U ctx B own rest nd Hp Hh Hd Htxs Hm Hown Hnd Hs (Hl & HL & HA & Hc) Had Hver].
  - split_and!; [constructor|apply Hr|apply Hr|by left].
  - assert (on_chain p b) as Hpb by (eapply on_chain_step; [exact Hp|constructor]).
    assert (p <> b) as Hne by (eapply on_chain_parent_ne; [constructor|exact Hp]).
    split_and!; [by eapply on_chain_trans|apply Had| |].
    + intros td [?|Ht]%elem_of_app; [by apply HA|]. apply list_elem_of_fmap in Ht as (t & -> & Ht). by apply (ad_known _ _ _ _ _ _ _ _ _ _ _ Had).
    + intros td [Ht|Ht]%elem_of_app Hi.
      * destruct (Hc td Ht Hi) as [?|(a & ca & ? & ? & ? & ? & ?)]; [by left|]. right. exists a, ca. split_and!; [done|by eapply on_chain_trans| |done|done].
        eapply on_chain_parent_ne; [|exact Hp]; done.
      * right. apply list_elem_of_fmap in Ht as (t & -> & Ht). destruct (ad_inputs _ _ _ _ _ _ _ _ _ _ _ Had t Ht) as [->|]; [|done].
        exists p, coinbase. split_and!; [done..| |done]. unfold own_coinbase. by rewrite Htxs.
Qed.
Lemma chain_block_ready b p h d bl coinbase blocks A U : chain_block b p h d bl coinbase blocks -> chain_state p A U ->
  merge_ready self T d (h_daa_score h) A U coinbase blocks.
Proof using Hr CL.
  intros Hb Hs. destruct (chain_state_inv p A U Hs) as (Hl & HL & HA & Hc). destruct (block_coinbase _ _ _ _ _ _ _ Hb) as (_ & Hcb & Hi & Ht).
  destruct (bk_data _ _ _ _ _ _ _ Hb) as [_ Hsp]. pose proof (cr_supply Hr _ _ _ _ _ _ _ _ _ Hs Hb) as Hsup.
  split; try done; try apply Hr; try apply Hb.
  - rewrite Hsp. apply Hb.
  - intros Hin. apply list_elem_of_fmap in Hin as (td & Hid & Htd).
    destruct (cr_ids Hr _ _ Ht (HA td Htd) Hid) as (Hspends & _). unfold spends in Hspends. rewrite Hi in Hspends.
    symmetry in Hspends. apply map_eq_nil in Hspends. destruct (Hc td Htd Hspends) as [H0|(a & ca & ? & ? & ? & ? & E)].
    + by eapply (cr_coinbase_new Hr p coinbase td).
    + eapply (cr_coinbase Hr a p ca coinbase); [done..|congruence].
  - enough (0 <= sum_of (payload_subsidy (coinbase_manager self)) blocks) by lia.
    apply sum_of_nonneg, Forall_forall. intros x Hx. pose proof (bk_ready _ _ _ _ _ _ _ Hb) as Hy. rewrite Forall_forall in Hy.
    destruct (Hy x Hx) as [_ Hw _ _]. unfold payload_subsidy. destruct (x.2) as [|cb l]; [done|]. cbn [head].
    apply Forall_cons in Hw as [Hw _]. destruct (wf_payload _ Hw) as [Hby Hlen].
    destruct (deserialize_coinbase_payload _ _) as [data| | |] eqn:E; [|done..]. by apply (deserialize_miner_ok _ _ _ Hby Hlen E).
Qed.

(** ** The stores

    [σ] gives the ledger of each block whose state is stored. *)
Definition live (b : Hash) : Prop := on_chain root b /\ is_Some (block_transactions_store self !! b).
Abbreviation states := (gmap Hash (list (PopulatedTransaction * u64) * UtxoCollection)).
Definition leads (D : UtxoDiff) (W W' : UtxoCollection) : Prop := valid W D /\ forall o, get (compose W D) o = W' !! o.
Record stores_ok (σ : states) (s : ChainStores) : Prop := {
  so_root : is_Some (σ !! root);
  so_live b A U : σ !! b = Some (A, U) -> live b;
  so_state b A U : σ !! b = Some (A, U) -> chain_state b A U;
  so_status b A U : σ !! b = Some (A, U) -> statuses_store s !! b = Some StatusUTXOValid;
  so_multiset b A U : σ !! b = Some (A, U) -> exists m, utxo_multisets_store s !! b = Some m /\ commits m U;
  so_diff b p A U : σ !! b = Some (A, U) -> b <> root -> get_chain_parent b = Some p ->
    exists D Ap Up, utxo_diffs_store s !! b = Some D /\ σ !! p = Some (Ap, Up) /\ leads D Up U;
  so_new b : live b -> b <> root -> σ !! b = None ->
    utxo_diffs_store s !! b = None /\ utxo_multisets_store s !! b = None /\ acceptance_data_store s !! b = None;
  so_known b : live b -> is_Some (statuses_store s !! b);
}.

Lemma live_parent b : on_chain root b -> exists p, get_chain_parent b = Some p.
Proof using Hr. destruct 1 as [|b p Hp _]; [apply Hr|by exists p]. Qed.
Lemma live_down b p : live b -> b <> root -> get_chain_parent b = Some p -> live p.
Proof using Hr.
  intros [Hb Hs] Hne Hp. assert (on_chain root p) as Hrp by (eapply on_chain_up; [exact Hb|done|by intros ->]).
  split; [done|]. destruct (cr_block Hr b p Hrp Hp Hs) as (h & d & bl & cb & blocks & Hc).
  destruct (block_coinbase _ _ _ _ _ _ _ Hc) as ([txs ->] & _). by eexists.
Qed.
Lemma live_chain a b : live b -> on_chain root a -> on_chain a b -> live a.
Proof using Hr CL.
  intros Hb Ha Hab. induction Hab as [|b p Hp Hap IH]; [done|]. apply IH. eapply live_down; [exact Hb| |exact Hp].
  intros ->. eapply on_chain_parent_ne; [|exact Hp|done]. by eapply on_chain_trans.
Qed.
Lemma state_minted σ s b A U o e : stores_ok σ s -> σ !! b = Some (A, U) -> U !! o = Some e -> minted T o e.
Proof using Hr CL.
  intros Hs Hb He. destruct (chain_state_inv b A U (so_state _ _ Hs b A U Hb)) as (_ & HL & HA & _).
  eapply ledger_minted; [apply Hr|done..].
Qed.
Lemma leads_added D W W' o e : leads D W W' -> added D !! o = Some e -> W' !! o = Some e.
Proof. intros [_ Hg] He. rewrite <- Hg, get_compose. cbn in *. by rewrite He. Qed.
Lemma leads_back D W W' : leads D W W' -> valid W' (as_reversed D) /\ forall o, get (compose W' (as_reversed D)) o = W !! o.
Proof.
  intros [Hv Hg]. destruct (valid_reversed W D Hv) as [Hv' Hg']. split.
  - apply (valid_same (compose W D) W'); [done|exact Hv'].
  - intros o. rewrite <- (compose_same (compose W D) W' (as_reversed D) o (Hg o)). apply Hg'.
Qed.

Section relative.
Context (utxo_set : UtxoCollection) (Hset : forall o e, utxo_set !! o = Some e -> minted T o e).

Lemma walk_down_ok σ s to : stores_ok σ s -> on_chain root to -> forall fuel cur diff A U,
  σ !! cur = Some (A, U) -> tracks utxo_set diff U -> (chain_height cur < fuel)%nat ->
  exists sp diff' A' U', walk_down fuel (utxo_diffs_store s) to cur diff = Ok (sp, diff') /\
    σ !! sp = Some (A', U') /\ tracks utxo_set diff' U' /\ on_chain sp to /\ on_chain sp cur.
Proof using Hr CL Hset.
  intros Hs Hto. induction fuel as [|fuel IH]; intros cur diff A U Hcur Htr Hf; [lia|]. cbn [walk_down].
  destruct (so_live _ _ Hs _ _ _ Hcur) as [Hroot Hst]. rewrite decide_False by (intros ->; by apply (cr_origin Hr)).
  destruct (live_parent cur Hroot) as [p Hp]. rewrite Hp. cbn [unwrap mbind res_bind].
  destruct (is_chain_ancestor_of cur to) eqn:Hanc.
  { apply chain_ancestor_spec in Hanc. exists cur, diff, A, U. split_and!; [done..|constructor]. }
  assert (cur <> root) as Hne. { intros ->. apply chain_ancestor_spec in Hto. congruence. }
  destruct (so_diff _ _ Hs cur p A U Hcur Hne Hp) as (D & Ap & Up & HD & Hpar & Hlead). rewrite HD. cbn [unwrap mbind res_bind].
  destruct (leads_back D Up U Hlead) as [Hv Hg].
  destruct (follow (E:=RuleError) (minted T) utxo_set diff (as_reversed D) U Up) as (diff' & -> & Htr'); [apply minted_versioned, Hr|done| |done..|].
  { intros o e He. eapply state_minted; [exact Hs|exact Hpar|]. cbn in He. by apply (valid_remove _ _ (proj1 Hlead)). }
  cbn [mbind res_bind]. pose proof (chain_height_parent _ _ Hp).
  destruct (IH p diff' Ap Up Hpar Htr') as (sp & diff2 & A' & U' & -> & ? & ? & ? & ?); [lia|].
  exists sp, diff2, A', U'. split_and!; [done..|]. by eapply on_chain_step.
Qed.

(** The writes keep the stores in order. *)
Lemma stores_ps σ s p : stores_ok σ s -> stores_ok σ (put_ps s p).
Proof. intros []. by split. Qed.
Lemma stores_disqualify σ s c : stores_ok σ s -> σ !! c = None -> stores_ok σ (set_status s c StatusDisqualifiedFromChain).
Proof.
  intros [] Hc. split; try done; cbn [statuses_store set_status].
  - intros b A U Hb. rewrite lookup_insert_ne by congruence. eauto.
  - intros b Hb. destruct (decide (c = b)) as [->|]; [rewrite lookup_insert_eq|rewrite lookup_insert_ne by done]; eauto.
Qed.
Lemma stores_commit σ s s' c p D A U Ap Up m : stores_ok σ s -> live c -> c <> root -> get_chain_parent c = Some p ->
  σ !! c = None -> σ !! p = Some (Ap, Up) -> leads D Up U -> chain_state c A U -> commits m U ->
  statuses_store s' = <[c := StatusUTXOValid]> (statuses_store s) -> utxo_diffs_store s' = <[c := D]> (utxo_diffs_store s) ->
  utxo_multisets_store s' = <[c := m]> (utxo_multisets_store s) ->
  (exists acc, acceptance_data_store s' = <[c := acc]> (acceptance_data_store s)) -> stores_ok (<[c := (A, U)]> σ) s'.
Proof.
  intros [H1 H2 H3 H4 H5 H6 H7 H8] Hl Hne Hp Hc Hpar HD HS Hm E1 E2 E3 [acc E4].
  assert (p <> c) as Hpc by congruence. split; rewrite ?E1, ?E2, ?E3, ?E4.
  - by rewrite lookup_insert_ne.
  - intros b A' U' [[<- [= <- <-]]|[? Hb]]%lookup_insert_Some; [done|eauto].
  - intros b A' U' [[<- [= <- <-]]|[? Hb]]%lookup_insert_Some; [done|eauto].
  - intros b A' U' [[<- [= <- <-]]|[? Hb]]%lookup_insert_Some; [by rewrite lookup_insert_eq|rewrite lookup_insert_ne by done; eauto].
  - intros b A' U' [[<- [= <- <-]]|[? Hb]]%lookup_insert_Some; [rewrite lookup_insert_eq; eauto|rewrite lookup_insert_ne by done; eauto].
  - intros b q A' U' [[<- [= <- <-]]|[Hcb Hb]]%lookup_insert_Some Hbr Hq.
    + rewrite Hp in Hq. injection Hq as <-. exists D, Ap, Up. rewrite lookup_insert_eq, lookup_insert_ne by done. done.
    + destruct (H6 b q A' U' Hb Hbr Hq) as (D' & Aq & Uq & ? & Hsq & ?). exists D', Aq, Uq. rewrite !lookup_insert_ne by congruence. done.
  - intros b Hb Hbr [Hsb Hcb]%lookup_insert_None. rewrite !lookup_insert_ne by done. eauto.
  - intros b Hb. destruct (decide (c = b)) as [->|]; [rewrite lookup_insert_eq|rewrite lookup_insert_ne by done]; eauto.
Qed.
Lemma commit_utxo_state_ok s c D m acc sample : utxo_diffs_store s !! c = None -> utxo_multisets_store s !! c = None ->
  acceptance_data_store s !! c = None ->
  (forall b txs, b ∈ acc -> block_transactions_store self !! acc_block_hash b = Some txs -> Forall tx_sane txs) ->
  exists s', commit_utxo_state self c D m acc sample s = (Ok tt, s') /\
    statuses_store s' = <[c := StatusUTXOValid]> (statuses_store s) /\ utxo_diffs_store s' = <[c := D]> (utxo_diffs_store s) /\
    utxo_multisets_store s' = <[c := m]> (utxo_multisets_store s) /\ acceptance_data_store s' = <[c := acc]> (acceptance_data_store s).
Proof.
  intros H1 H2 H3 H4. destruct (index_alt_ok self (ps_alt (cs_ps s)) c acc H4) as [alts Ha].
  unfold commit_utxo_state, insert_new. rewrite H1, H2, H3, Ha. cbn [mbind res_bind]. eexists. split; [done|]. done.
Qed.

(** Everything but the processor's own state and the status of [c] is kept. *)
Definition same_but (c : Hash) (s s' : ChainStores) : Prop := forall x, x <> c -> statuses_store s' !! x = statuses_store s !! x.

Lemma accepted_sane b p h d bl coinbase blocks acc : chain_block b p h d bl coinbase blocks ->
  map acc_block_hash acc = map fst blocks ->
  forall a txs, a ∈ acc -> block_transactions_store self !! acc_block_hash a = Some txs -> Forall tx_sane txs.
Proof.
  intros Hb Hacc a txs Ha Htxs. assert (acc_block_hash a ∈ map fst blocks) as Hin by (rewrite <- Hacc; apply list_elem_of_fmap; eauto).
  apply list_elem_of_fmap in Hin as ([x l] & Hx & Hin). pose proof (bk_ready _ _ _ _ _ _ _ Hb) as Hy. rewrite Forall_forall in Hy.
  pose proof (bk_merged _ _ _ _ _ _ _ Hb) as Hm. unfold merged_blocks in Hm. apply bind_ok in Hm as (hs & _ & Hm).
  enough (block_transactions_store self !! x = Some l) as E. { cbn in Hx. subst x. rewrite Htxs in E. injection E as ->. apply (Hy _ Hin). }
  clear -Hm Hin. revert blocks Hm Hin. induction hs as [|y hs IH]; intros blocks Hm Hin; cbn [res_mapM] in Hm.
  { injection Hm as <-. by apply elem_of_nil in Hin. }
  apply bind_ok in Hm as ([z lz] & Hz & Hm). apply bind_ok in Hm as (zs & Hzs & Hm). injection Hm as <-.
  apply elem_of_cons in Hin as [[= <- <-]|Hin]; [|by eapply IH].
  apply bind_ok in Hz as (t & Ht & Hz). injection Hz as <- <-. by destruct (block_transactions_store self !! y); [injection Ht as ->|].
Qed.

Lemma advanced_same `{!UtxoView V, !UtxoView W} d (v : V) (w : W) A U pov coinbase blocks ctx B : (forall o, get v o = get w o) ->
  advanced self T d v A U pov coinbase blocks ctx B -> advanced self T d w A U pov coinbase blocks ctx B.
Proof.
  intros Hvw []. split; try done.
  - by apply (valid_same v w).
  - intros o. by rewrite <- (compose_same v w) by apply Hvw.
Qed.
Lemma advanced_state c p h d bl coinbase blocks A U ctx B `{!UtxoView V} (v : V) s1 ctx' s2 :
  chain_block c p h d bl coinbase blocks -> get_chain_parent c = Some p -> chain_state p A U -> (forall o, get v o = U !! o) ->
  advanced self T d v A U (h_daa_score h) coinbase blocks ctx B -> verify_expected_utxo_state self ctx v h s1 = (Ok ctx', s2) ->
  chain_state c (A ++ now (h_daa_score h) B) (foldl apply_tx U (now (h_daa_score h) B)) /\
  leads (mergeset_diff ctx) U (foldl apply_tx U (now (h_daa_score h) B)).
Proof using Hr.
  intros Hb Hp HS Hv Had Ev. destruct (bk_header _ _ _ _ _ _ _ Hb) as [Hh Hhash]. destruct (bk_data _ _ _ _ _ _ _ Hb) as [Hd Hsp].
  destruct (ow_txs _ _ _ (bk_own _ _ _ _ _ _ _ Hb)) as (txs & Htxs & Hind & Hsane & _).
  destruct (verify_ok self v ctx (foldl apply_tx U (now (h_daa_score h) B)) h s1 ctx' s2 txs) as (own & rest & nd & -> & Hnd & Hver); try done.
  { apply Hr. } { split; apply Had. } { apply (lg_typed _ _ (ad_ledger _ _ _ _ _ _ _ _ _ _ _ Had)). }
  destruct (block_coinbase _ _ _ _ _ _ _ Hb) as ([ptxs Hptxs] & _). rewrite Hhash in *. apply (advanced_same _ v U) in Had as HadU; [|done].
  split; [|split; apply HadU]. eapply cs_next; try done. apply Hb.
Qed.
Lemma validate_chain_block_ok σ s c p diff A U : stores_ok σ s -> live c -> c <> root -> get_chain_parent c = Some p ->
  σ !! c = None -> σ !! p = Some (A, U) -> tracks utxo_set diff U ->
  exists o s' σ', validate_chain_block self utxo_set p c diff s = (Ok o, s') /\ stores_ok σ' s' /\ same_but c s s' /\
    match o with
    | None => σ' = σ /\ statuses_store s' !! c = Some StatusDisqualifiedFromChain
    | Some diff' => exists A' U', σ' = <[c := (A', U')]> σ /\ tracks utxo_set diff' U'
    end.
Proof using Hr CL Hset.
  intros Hs Hl Hne Hp Hc Hpar Htr. destruct (live_down _ _ Hl Hne Hp) as [Hrp _].
  destruct (cr_block Hr c p Hrp Hp (proj2 Hl)) as (h & d & bl & coinbase & blocks & Hb).
  pose proof (so_state _ _ Hs _ _ _ Hpar) as HS. pose proof (chain_block_ready _ _ _ _ _ _ _ A U Hb HS) as Hready.
  destruct (so_multiset _ _ Hs _ _ _ Hpar) as (m & Hms & Hm). destruct (bk_header _ _ _ _ _ _ _ Hb) as [Hh Hhash].
  destruct (bk_data _ _ _ _ _ _ _ Hb) as [Hd Hsp].
  destruct (calculate_utxo_state_ok self T d m (compose utxo_set diff) A U coinbase blocks (h_daa_score h) (cs_ps s) Hready (proj2 Htr) Hm)
    as (ctx & s1 & B & Ec & Had).
  unfold validate_chain_block, mbind, stm_bind, slift, on_ps. rewrite Hh, Hd, Hms. cbn [unwrap]. rewrite Ec. cbv beta iota.
  unfold commit_or_disqualify, on_ps. cbn [cs_ps put_ps].
  assert (mergeset_blues d = selected_parent d :: bl) as Hbl by (rewrite Hsp; apply Hb).
  pose proof (verify_result self T d (compose utxo_set diff) A U coinbase blocks (h_daa_score h) Hready ctx B Had (cr_supply Hr _ _ _ _ _ _ _ _ _ HS Hb)
    bl Hbl h s1 (bk_own _ _ _ _ _ _ _ Hb)) as Hres.
  destruct (verify_expected_utxo_state self ctx (compose utxo_set diff) h s1) as [[ctx'|e| |] s2] eqn:Ev; [| |done..].
  2:{ eexists None, _, σ. split; [done|]. split; [by apply stores_disqualify; [apply stores_ps, stores_ps|]|]. split; [|split; [done|apply lookup_insert_eq]].
      intros x Hx. cbn [statuses_store set_status put_ps]. by rewrite lookup_insert_ne. }
  destruct (advanced_state c p h d bl coinbase blocks A U ctx B (compose utxo_set diff) s1 ctx' s2 Hb Hp HS (proj2 Htr) Had Ev) as [HS' Hlead].
  destruct (verify_context _ _ _ _ _ _ _ Ev) as [sample ->]. cbn [mergeset_diff multiset_hash mergeset_acceptance_data pruning_sample_from_pov unwrap].
  destruct (follow (E:=RuleError) (minted T) utxo_set diff (mergeset_diff ctx) U (foldl apply_tx U (now (h_daa_score h) B))) as (diff' & -> & Htr');
    [apply minted_versioned, Hr|done| |done|apply Hlead|apply Hlead|].
  { intros o e He. eapply ledger_minted; [apply Hr|apply (chain_state_inv c _ _ HS')..|]. by eapply leads_added. }
  destruct (so_new _ _ Hs c Hl Hne Hc) as (N1 & N2 & N3).
  destruct (commit_utxo_state_ok (put_ps (put_ps s s1) s2) c (mergeset_diff ctx) (multiset_hash ctx) (mergeset_acceptance_data ctx) sample N1 N2 N3)
    as (s' & Es & F1 & F2 & F3 & F4); [apply (accepted_sane _ _ _ _ _ _ _ _ Hb), Had|]. unfold mbind, stm_bind, slift. cbv beta iota.
  rewrite Es. eexists (Some diff'), s', _. split; [done|]. split; [|split; [|eexists _, _; done]].
  - eapply (stores_commit σ s s' c p (mergeset_diff ctx)); [done..|apply Had|done|done|done|by eexists].
  - intros x Hx. by rewrite F1, lookup_insert_ne.
Qed.

(** Where a walk stands when it has reached [cur]. *)
Definition stands (σ : states) (s : ChainStores) (cur : Hash) (acc : UtxoDiff * Hash) : Prop :=
  exists A U, σ !! acc.2 = Some (A, U) /\ tracks utxo_set acc.1 U /\ on_chain acc.2 cur /\
    (acc.2 = cur \/ statuses_store s !! cur = Some StatusDisqualifiedFromChain).
(** A verdict is final. *)
Definition kept (s s' : ChainStores) : Prop :=
  forall x, statuses_store s !! x = Some StatusDisqualifiedFromChain -> statuses_store s' !! x = Some StatusDisqualifiedFromChain.

Lemma relative_step_ok σ s p c acc : stores_ok σ s -> live c -> c <> root -> get_chain_parent c = Some p -> stands σ s p acc ->
  exists acc' s' σ', relative_step self utxo_set acc (p, c) s = (Ok acc', s') /\ stores_ok σ' s' /\ σ ⊆ σ' /\ kept s s' /\ stands σ' s' c acc'.
Proof using Hr CL Hset.
  intros Hs Hl Hne Hp (A & U & Hdp & Htr & Hon & Hcase). destruct acc as [diff dp]. cbn [fst snd] in *. unfold relative_step.
  assert (on_chain dp c) as Hdc by (by eapply on_chain_step). destruct (so_known _ _ Hs c Hl) as [st Hst].
  assert (kept s s) as Hkk by (by intros x). case_decide as Hsp.
  - destruct Hcase as [->|Hdis]; [done|].
    assert (σ !! c = None) as Hc.
    { destruct (σ !! c) as [[Ac Uc]|] eqn:Hc; [|done]. destruct (so_diff _ _ Hs c p Ac Uc Hc Hne Hp) as (D & Ap & Up & _ & Hpar & _).
      rewrite (so_status _ _ Hs _ _ _ Hpar) in Hdis. done. }
    unfold disqualify, mbind, stm_bind. rewrite Hst. cbn [mret stm_ret].
    exists (diff, dp), (if decide (st = StatusDisqualifiedFromChain) then s else set_status s c StatusDisqualifiedFromChain), σ.
    split; [done|]. case_decide as Hd.
    + subst st. split_and!; [done..|]. exists A, U. split_and!; [done..|by right].
    + split; [by apply stores_disqualify|]. split; [done|]. split.
      * intros x Hx. cbn [statuses_store set_status]. destruct (decide (c = x)) as [->|]; [apply lookup_insert_eq|by rewrite lookup_insert_ne].
      * exists A, U. split_and!; [done..|]. right. apply lookup_insert_eq.
  - assert (p = dp) as -> by (by destruct (decide (p = dp))). clear Hsp Hcase.
    destruct (σ !! c) as [[Ac Uc]|] eqn:Hc.
    + destruct (so_diff _ _ Hs c dp Ac Uc Hc Hne Hp) as (D & Ap & Up & -> & Hpar & Hlead). rewrite Hdp in Hpar. injection Hpar as <- <-.
      destruct (follow (E:=RuleError) (minted T) utxo_set diff D U Uc) as (diff' & -> & Htr');
        [apply minted_versioned, Hr|done| |done|apply Hlead..|].
      { intros o e He. eapply state_minted; [exact Hs|exact Hc|]. by eapply leads_added. }
      exists (diff', c), s, σ. split_and!; [done..|]. exists Ac, Uc. split_and!; [done..|constructor|by left].
    + destruct (so_new _ _ Hs c Hl Hne Hc) as (-> & _). rewrite Hst. unfold mbind, stm_bind, slift. cbn [unwrap]. case_decide as Hd.
      { subst st. exists (diff, dp), s, σ. split_and!; [done..|]. exists A, U. split_and!; [done..|by right]. }
      destruct (validate_chain_block_ok σ s c dp diff A U Hs Hl Hne Hp Hc Hdp Htr) as (o & s' & σ' & -> & Hs' & Hsame & Ho).
      assert (kept s s') as Hk. { intros x Hx. destruct (decide (x = c)) as [->|Hxc]; [congruence|]. by rewrite Hsame. }
      destruct o as [diff'|]; [destruct Ho as (A' & U' & -> & Htr')|destruct Ho as [-> Hdis]].
      * eexists (diff', c), s', _. split; [done|]. split_and!; [done|by apply insert_subseteq|done|].
        exists A', U'. rewrite lookup_insert_eq. split_and!; [done..|constructor|by left].
      * exists (diff, dp), s', σ. split_and!; [done..|]. exists A, U. split_and!; [done..|by right].
Qed.

Lemma relative_loop_ok to : live to -> forall l cur σ s acc, path to cur l -> on_chain root cur -> stores_ok σ s -> stands σ s cur acc ->
  exists acc' s' σ', stm_foldl (relative_step self utxo_set) acc (zip (cur :: l) l) s = (Ok acc', s') /\
    stores_ok σ' s' /\ σ ⊆ σ' /\ kept s s' /\ stands σ' s' to acc'.
Proof using Hr CL Hset.
  intros Hto. induction l as [|c l IH]; intros cur σ s acc Hpath Hroot Hs Hst; inversion Hpath as [|? ? ? Hp Hrest]; subst.
  { exists acc, s, σ. split_and!; [done..|by intros x|done]. }
  assert (on_chain root c) as Hrc by (by eapply on_chain_step).
  assert (live c) as Hl by (eapply live_chain; [exact Hto|done|by eapply path_on_chain]).
  destruct (relative_step_ok σ s cur c acc Hs Hl) as (acc1 & s1 & σ1 & E1 & Hs1 & Hsub1 & Hk1 & Hst1); [|done..|].
  { apply not_eq_sym. exact (on_chain_parent_ne root c cur Hroot Hp). }
  destruct (IH c σ1 s1 acc1 Hrest Hrc Hs1 Hst1) as (acc2 & s2 & σ2 & E2 & Hs2 & Hsub2 & Hk2 & Hst2).
  exists acc2, s2, σ2. cbn [zip zip_with stm_foldl]. unfold mbind, stm_bind. rewrite E1. split; [exact E2|].
  split_and!; [done|by etrans|by intros x Hx; apply Hk2, Hk1|done].
Qed.
Lemma relatively_ok fuel diff from to σ s A U : stores_ok σ s -> live to -> σ !! from = Some (A, U) -> tracks utxo_set diff U ->
  (chain_height from < fuel)%nat -> (chain_height to < fuel)%nat ->
  exists diff' b s' σ' A' U', calculate_utxo_state_relatively self utxo_set fuel diff from to s = (Ok (diff', b), s') /\
    stores_ok σ' s' /\ σ ⊆ σ' /\ kept s s' /\ σ' !! b = Some (A', U') /\ tracks utxo_set diff' U' /\
    (b = to \/ statuses_store s' !! to = Some StatusDisqualifiedFromChain).
Proof using Hr CL Hset.
  intros Hs Hto Hfrom Htr Hf1 Hf2. destruct (so_known _ _ Hs to Hto) as [st Hst].
  unfold calculate_utxo_state_relatively, mbind, stm_bind, slift. rewrite Hst. cbn [unwrap]. case_decide as Hd.
  { subst st. exists diff, from, s, σ, A, U. split_and!; [done..|by intros x|done|done|by right]. }
  destruct (walk_down_ok σ s to Hs (proj1 Hto) fuel from diff A U Hfrom Htr Hf1) as (sp & diff1 & A1 & U1 & -> & Hsp & Htr1 & Hspt & _).
  destruct (forward_chain_ok (E:=RuleError) to fuel sp Hspt) as (l & -> & Hpath); [lia|]. change (drop 1 (sp :: l)) with l.
  destruct (so_live _ _ Hs _ _ _ Hsp) as [Hrsp _].
  destruct (relative_loop_ok to Hto l sp σ s (diff1, sp) Hpath Hrsp Hs) as ([diff' b] & s' & σ' & -> & Hs' & Hsub & Hk & A' & U' & ? & ? & ? & ?).
  { exists A1, U1. split_and!; [done..|constructor|by left]. }
  exists diff', b, s', σ', A', U'. done.
Qed.

(** C8. Moving the UTXO state along the chain: from stores that hold the states
    of verified blocks and a diff that leads to the state of [from],
    [calculate_utxo_state_relatively] returns (no [unwrap] of it fails, whether
    the blocks on the way turn out valid or not, when the fuel exceeds the
    heights), keeps the stores in that order, revokes no earlier verdict, and
    leaves the diff of the block it returns: the target itself, or the target
    is disqualified.  The states it adds are ledgers of verified chains. *)
Theorem chain_walk_sound fuel diff from to σ s A U : stores_ok σ s -> live to -> σ !! from = Some (A, U) -> tracks utxo_set diff U ->
  (chain_height from < fuel)%nat -> (chain_height to < fuel)%nat ->
  exists diff' b s' σ' A' U', calculate_utxo_state_relatively self utxo_set fuel diff from to s = (Ok (diff', b), s') /\
    stores_ok σ' s' /\ σ ⊆ σ' /\ kept s s' /\ σ' !! b = Some (A', U') /\ chain_state b A' U' /\ tracks utxo_set diff' U' /\
    (b = to \/ statuses_store s' !! to = Some StatusDisqualifiedFromChain).
Proof using Hr CL Hset.
  intros Hs Hto Hfrom Htr Hf1 Hf2.
  destruct (relatively_ok fuel diff from to σ s A U Hs Hto Hfrom Htr Hf1 Hf2) as (diff' & b & s' & σ' & A' & U' & E & Hs' & ? & ? & Hb & ? & ?).
  exists diff', b, s', σ', A', U'. split_and!; try done. by apply (so_state _ _ Hs').
Qed.
End relative.
End chain.

(** ** Witnesses

    The block and its selected parent of [UtxoState], as a chain of two. *)
Section witnesses.
Local Existing Instance in_order.
Local Existing Instance first_evicted.
Local Existing Instance toy_crypto.
Local Existing Instance toy_sha3.
Local Definition sets : SetIter Hash := elements_iter _.
Local Existing Instance sets.
Local Definition entry_iter : HashIter TransactionOutpoint UtxoEntry := map_to_list_iter _ _.
Local Existing Instance entry_iter.

Definition v_chain : ChainService := {|
  get_chain_parent b := if decide (b = 2) then Some 1 else if decide (b = 1) then Some 0 else None;
  is_chain_ancestor_of a b := bool_decide (a = b) || bool_decide (b = 2 /\ (a = 1 \/ a = 0)) || bool_decide (b = 1 /\ a = 0);
  get_next_chain_ancestor d a := if decide (d = 2 /\ a = 1) then Some 2 else if decide (d = 2 /\ a = 0 \/ d = 1 /\ a = 0) then Some 1 else None;
|}.
Local Existing Instance v_chain.
Definition v_on_chain a b : Prop := a = b \/ b = 2 /\ (a = 1 \/ a = 0) \/ b = 1 /\ a = 0.
Lemma v_on_chain_spec a b : on_chain a b <-> v_on_chain a b.
Proof.
  split.
  - induction 1 as [|b p Hp _ IH]; [by left|]. cbn in Hp. unfold v_on_chain in *. repeat case_decide; simplify_eq; lia.
  - intros [->|[[-> [->| ->]]|[-> ->]]]; [constructor|..].
    + by apply (on_chain_step _ 2 1); [|constructor].
    + apply (on_chain_step _ 2 1); [done|]. by apply (on_chain_step _ 1 0); [|constructor].
    + by apply (on_chain_step _ 1 0); [|constructor].
Qed.
Lemma v_laws : ChainLaws.
Proof.
  refine {| chain_height b := if decide (b = 2) then 2%nat else if decide (b = 1) then 1%nat else 0%nat |}.
  - intros b p Hp. cbn in Hp. repeat case_decide; simplify_eq; lia.
  - intros a b. rewrite v_on_chain_spec. cbn. rewrite !orb_true_iff, !bool_decide_eq_true. unfold v_on_chain. tauto.
  - intros a d Hd Hne. apply v_on_chain_spec in Hd. destruct Hd as [->|[[-> [->| ->]]|[-> ->]]]; [done|..]; cbn;
      eexists; (split; [done|]); (split; [done|]); apply v_on_chain_spec; unfold v_on_chain; lia.
Defined.
Local Existing Instance v_laws.

Definition v_proc (h : Header) : VirtualStateProcessor := {|
  transaction_validator := mainnet_validator; vp_svm := None; coinbase_manager := mainnet_manager;
  block_transactions_store := {[1 := [w_coinbase; w_spend]; 2 := [w_own]]};
  ghostdag_store := {[1 := mkGhostdagData 9 4 0 [0] [] ∅; 2 := w_data]};
  vp_headers_store := {[1 := w_header 1 0 0; 2 := h]}; daa_excluded_store := {[2 := ∅]};
  expected_header_pruning_point := fun _ => Ok (mkPruningReply 0 0) |}.
Definition v_header : Header := w_block_header w_multiset.
Lemma v_own_ready : own_ready (v_proc v_header) v_header w_data.
Proof.
  split.
  - by eexists.
  - exists [w_own]. split; [reflexivity|]. split; [apply w_own_independent|]. split; [apply w_own_sane|]. split; [reflexivity|].
    intros cb [= <-]. eexists. vm_compute. reflexivity.
  - by eexists.
  - split; [apply mainnet_manager_ok|]. split; vm_compute; [discriminate|reflexivity].
  - exact I.
Qed.
Lemma v_block : chain_block (v_proc v_header) w_known 2 1 v_header w_data [] w_coinbase [(1, [w_coinbase; w_spend])].
Proof.
  pose proof w_ready as [_ Hpov _ _ Hnd Hcb Hready _ _ _ _].
  split; [done|exact Hpov|done|done|reflexivity|exact Hnd| |exact Hcb|exact v_own_ready].
  apply Forall_singleton in Hready as [H1 H2 H3 H4]. apply Forall_singleton. split; [exact H1|exact H2|exact H3|exact H4].
Qed.
Lemma v_states b A U : chain_state (v_proc v_header) w_known 1 w_history w_utxos b A U -> b = 2 \/ b = 1 /\ A = w_history /\ U = w_utxos.
Proof.
  induction 1 as [|b p h d cb txs blocks A U ctx B own rest nd Hp _ _ _ _ _ _ _ IH]; [by right|]. left.
  cbn in Hp. repeat case_decide; simplify_eq; lia.
Qed.
Lemma v_ready : chain_ready (v_proc v_header) w_known 1 w_history w_utxos.
Proof.
  pose proof w_ready as [Hv _ HL _ _ _ _ Hids Hk Hnew _]. split; try done.
  - intros t Ht. unfold w_known in Ht. pose proof (w_sane [t]) as Hs. apply Forall_singleton in Hs; [done|].
    intros x ->%list_elem_of_singleton. rewrite !elem_of_cons in *. tauto.
  - intros Ho%v_on_chain_spec. unfold v_on_chain, ORIGIN in Ho. vm_compute in Ho. lia.
  - intros b p Hrp Hp _. apply v_on_chain_spec in Hrp. cbn in Hp. repeat case_decide; simplify_eq; [|unfold v_on_chain in Hrp; lia].
    eexists _, _, _, _, _. exact v_block.
  - intros a b ca cb Ha Hab Hne. apply v_on_chain_spec in Ha, Hab. unfold v_on_chain in *. assert (a = 1 /\ b = 2) as [-> ->] by lia.
    unfold own_coinbase. cbn. intros [= <-] [= <-]. vm_compute. discriminate.
  - intros b cb td Hb Hcb ->%list_elem_of_singleton. apply v_on_chain_spec in Hb. unfold v_on_chain in Hb.
    assert (b = 1 \/ b = 2) as [-> | ->] by lia; injection Hcb as <-; vm_compute; discriminate.
  - intros b p h d bl cb blocks A U HS Hb. destruct (bk_header _ _ _ _ _ _ _ _ _ Hb) as [_ _]. destruct (bk_data _ _ _ _ _ _ _ _ _ Hb) as [Hd Hp].
    assert (b = 2 /\ p = 1) as [-> ->].
    { cbn in Hd. apply v_states in HS. rewrite lookup_insert_Some in Hd. destruct Hd as [[<- <-]|[_ [<- <-]%lookup_singleton_Some]]; cbn in Hp; lia. }
    apply v_states in HS as [?|(_ & -> & ->)]; [done|]. injection Hd as <-.
    destruct (block_coinbase _ _ _ _ _ _ _ _ _ Hb) as (_ & Hcb & _). injection Hcb as <-.
    assert (merged_blocks (v_proc v_header) w_data = Ok [(1, [w_coinbase; w_spend])]) as Em by reflexivity.
    rewrite (bk_merged _ _ _ _ _ _ _ _ _ Hb) in Em. injection Em as ->. vm_compute. reflexivity.
Qed.
Definition v_stores : ChainStores :=
  mkStores w_state {[1 := StatusUTXOValid; 2 := StatusUTXOPendingVerification]} ∅ {[1 := w_multiset]} ∅ ∅.
Definition v_states0 : gmap Hash (list (PopulatedTransaction * u64) * UtxoCollection) := {[1 := (w_history, w_utxos)]}.
Lemma v_live b : live (v_proc v_header) 1 b -> b = 1 \/ b = 2.
Proof. intros [H _]. apply v_on_chain_spec in H. unfold v_on_chain in H. lia. Qed.
Lemma v_stores_ok : stores_ok (v_proc v_header) w_known 1 w_history w_utxos v_states0 v_stores.
Proof.
  split; unfold v_states0.
  - by eexists.
  - intros b A U [<- _]%lookup_singleton_Some. split; [constructor|by eexists].
  - intros b A U [<- [= <- <-]]%lookup_singleton_Some. constructor.
  - by intros b A U [<- _]%lookup_singleton_Some.
  - intros b A U [<- [= <- <-]]%lookup_singleton_Some. exists w_multiset. split; [reflexivity|exact w_commits].
  - by intros b p A U [<- _]%lookup_singleton_Some.
  - intros b [->| ->]%v_live Hne _; done.
  - intros b [->| ->]%v_live; by eexists.
Qed.
Lemma v_minted o e : w_utxos !! o = Some e -> minted w_known o e.
Proof.
  intros He. destruct (chain_state_inv _ _ _ _ _ v_ready _ _ _ (cs_root _ _ _ _ _)) as (_ & HL & HA & _).
  eapply ledger_minted; [apply v_ready|exact HA|exact HL|exact He].
Qed.
Lemma chain_walk_sound_witness : exists diff' b s' (σ' : gmap Hash (list (PopulatedTransaction * u64) * UtxoCollection)) A' U',
  calculate_utxo_state_relatively (v_proc v_header) w_utxos 3 ∅ 1 2 v_stores = (Ok (diff', b), s') /\
  σ' !! b = Some (A', U') /\ tracks w_utxos diff' U' /\ (b = 2 \/ statuses_store s' !! 2 = Some StatusDisqualifiedFromChain).
Proof.
  destruct (chain_walk_sound (v_proc v_header) w_known 1 w_history w_utxos v_ready w_utxos v_minted 3 ∅ 1 2 v_states0 v_stores w_history w_utxos
    v_stores_ok) as (diff' & b & s' & σ' & A' & U' & E & _ & _ & _ & H1 & _ & H2 & H3).
  - split; [by apply v_on_chain_spec; right; left; split; [|left]|by eexists].
  - reflexivity.
  - by apply tracks_empty.
  - vm_compute. lia.
  - vm_compute. lia.
  - exists diff', b, s', σ', A', U'. exact (conj E (conj H1 (conj H2 H3))).
Defined.
End witnesses.
