(* ===== verification/SinkSearch.v ===== *)
(** * Sink search

    [consensus/src/pipeline/virtual_processor/processor.rs],
    [sink_search_algorithm]: from the tips downwards, in the order of blue
    work, the first block whose chain passes through the finality point and
    whose UTXO state is valid; and [utils/src/binary_heap.rs].

    A [BinaryHeap] is the list of its elements; [pop] takes a greatest one.
    Fuel bounds the number of candidates: the blocks of the DAG are enough.

    The theorems: the search always ends with a sink (the heap never runs out,
    because the finality point is valid), every candidate it passes over is
    disqualified or off the finality point's chain, and the diff that it leaves
    leads to the ledger of the sink. *)
From S2P Require Import Prelude Encode Tx Hashing Header Merkle Script ScriptVm ScriptSafe Alt Svm Mass TxIsolation TxUtxo Utxo Muhash Dag Chain Coinbase BlockBody UtxoState Virtual.

(** ** Heaps *)
Section heaps.
Context {X : Type} `{!EqDecision X} (cmp : X -> X -> comparison).
(** [BinaryHeap::pop] *)
Definition heap_pop (h : list X) : option (X * list X) :=
  match iter_max cmp h with Some m => Some (m, remove_first m h) | None => None end.
(** [BinaryHeapIntoSortedIter]: the elements in the order in which they are popped. *)
Fixpoint pop_all (n : nat) (h : list X) : list X :=
  match n with
  | O => []
  | S n => match heap_pop h with Some (x, h) => x :: pop_all n h | None => [] end
  end.
Definition into_sorted_iter (h : list X) : list X := pop_all (length h) h.
End heaps.

Lemma heap_pop_spec h : match heap_pop sortable_cmp h with
  | None => h = []
  | Some (m, h') => h ≡ₚ m :: h' /\ forall b, b ∈ h' -> sortable_le b m
  end.
Proof.
  unfold heap_pop. destruct (iter_max sortable_cmp h) as [m|] eqn:E; [|by destruct h].
  destruct (iter_max_spec h m E) as [Hm Hle]. pose proof (remove_first_perm m h Hm) as Hp. split; [done|].
  intros b Hb. apply Hle. rewrite Hp. by right.
Qed.
Lemma pop_all_spec : forall n h, n = length h -> pop_all sortable_cmp n h ≡ₚ h /\ StronglySorted (flip sortable_le) (pop_all sortable_cmp n h).
Proof.
  induction n as [|n IH]; intros h Hn; cbn [pop_all].
  - destruct h; [|done]. split; [done|constructor].
  - pose proof (heap_pop_spec h) as Hs. destruct (heap_pop sortable_cmp h) as [[m h']|]; [|by subst]. destruct Hs as [Hp Hle].
    destruct (IH h') as [Hp' Hs']; [apply Permutation_length in Hp; cbn in Hp; lia|].
    split; [by rewrite Hp', Hp|]. constructor; [done|]. apply Forall_forall. intros b Hb. apply Hle. by rewrite <- Hp'.
Qed.
Lemma sorted_iter_spec h : into_sorted_iter sortable_cmp h ≡ₚ h /\ StronglySorted (flip sortable_le) (into_sorted_iter sortable_cmp h).
Proof. by apply pop_all_spec. Qed.

(** ** The search *)
Fixpoint take_while {X} (f : X -> bool) (l : list X) : list X :=
  match l with [] => [] | x :: l => if f x then x :: take_while f l else [] end.

Section search.
Context `{SH : Sha3} `{SC : ScriptCrypto} `{CR : CacheRandom} `{SI : !SetIter Hash} `{SCH : Schedule} `{HI : !HashIter TransactionOutpoint UtxoEntry}.
Context `{CS : ChainService} `{RS : ReachabilityService}.
Context (self : VirtualStateProcessor) (relations : gmap Hash (list Hash)) (merge_depth_root : gmap Hash Hash).
Context (walk_fuel : nat) (utxo_set : UtxoCollection) (finality_point : Hash).

Definition push_parent (heap : list SortableBlock) (parent : Hash) : res RuleError (list SortableBlock) :=
  if is_dag_ancestor_of finality_point parent && negb (existsb (fun sb => is_dag_ancestor_of parent (sb_hash sb)) heap)
  then b ← sortable (ghostdag_store self) parent; Ok (b :: heap) else Ok heap.
Definition push_parents (heap : list SortableBlock) (candidate : Hash) : res RuleError (list SortableBlock) :=
  parents ← unwrap (relations !! candidate);
  res_foldl push_parent heap parents.
(** The sink, and the other candidates worth merging. *)
Definition found (candidate : Hash) (heap : list SortableBlock) : res RuleError (Hash * list Hash) :=
  filtering_root ← unwrap (merge_depth_root !! candidate);
  let filtering_blue_work := from_option blue_work 0 (ghostdag_store self !! filtering_root) in
  Ok (candidate, map sb_hash (take_while (fun s => filtering_blue_work <=? sb_blue_work s) (into_sorted_iter sortable_cmp heap))).
Fixpoint sink_loop (fuel : nat) (heap : list SortableBlock) (diff : UtxoDiff) (diff_point : Hash)
    : stm ChainStores RuleError (Hash * list Hash * UtxoDiff) :=
  match fuel with
  | O => slift NoFuel
  | S fuel =>
      match heap_pop sortable_cmp heap with
      | None => slift Panic
      | Some (c, heap) =>
          let candidate := sb_hash c in
          let on diff diff_point := heap ← slift (push_parents heap candidate); sink_loop fuel heap diff diff_point in
          if is_chain_ancestor_of finality_point candidate then
            '(diff, diff_point) ← calculate_utxo_state_relatively self utxo_set walk_fuel diff diff_point candidate;
            if decide (diff_point = candidate) then r ← slift (found candidate heap); mret (r, diff) else on diff diff_point
          else on diff diff_point
      end
  end.
Definition sink_search_algorithm (fuel : nat) (diff : UtxoDiff) (prev_sink : Hash) (tips : list Hash)
    : stm ChainStores RuleError (Hash * list Hash * UtxoDiff) :=
  heap ← slift (res_mapM (sortable (ghostdag_store self)) tips);
  sink_loop fuel heap diff prev_sink.
End search.

(** ** The search ends *)
Section theorems.
Context `{SH : Sha3} `{SC : ScriptCrypto} `{CR : CacheRandom} `{SI : !SetIter Hash} `{SCH : Schedule} `{HI : !HashIter TransactionOutpoint UtxoEntry}.
Context `{CS : ChainService} `{CL : !ChainLaws} `{RS : ReachabilityService} `{RL : !ReachabilityLaws}.
Context (self : VirtualStateProcessor) (relations : gmap Hash (list Hash)) (merge_depth_root : gmap Hash Hash).
Context (walk_fuel : nat) (utxo_set : UtxoCollection) (F : Hash) (tips : list Hash).
Context (T : Transaction -> Prop) (A0 : list (PopulatedTransaction * u64)) (U0 : UtxoCollection).
Abbreviation reach := is_dag_ancestor_of.

(** The blocks between the finality point and the tips. *)
Definition region (x : Hash) : Prop := reach F x = true /\ exists t, t ∈ tips /\ reach x t = true.
Record dag_ready : Prop := {
  dr_tips : antichain tips /\ tips <> [] /\ forall t, t ∈ tips -> reach F t = true;
  dr_data x : region x -> is_Some (ghostdag_store self !! x);
  dr_body x : region x -> is_Some (block_transactions_store self !! x);
  dr_depth x : region x -> is_Some (merge_depth_root !! x);
  dr_height x : live self F x -> (chain_height x < walk_fuel)%nat;
  dr_parents x : region x -> exists ps, relations !! x = Some ps /\ antichain ps /\
    (forall p, p ∈ ps -> reach p x = true /\ p <> x) /\
    (forall a, reach a x = true -> a = x \/ exists p, p ∈ ps /\ reach a p = true);
  dr_work a b da db : region a -> region b -> reach a b = true -> a <> b ->
    ghostdag_store self !! a = Some da -> ghostdag_store self !! b = Some db -> blue_work da < blue_work db;
}.
Context (Hd : dag_ready).
Definition key (h : Hash) : SortableBlock := mkSortable h (from_option blue_work 0 (ghostdag_store self !! h)).
Lemma sink_key h : region h -> sortable (E:=RuleError) (ghostdag_store self) h = Ok (key h).
Proof using Hd. intros H. unfold sortable, key. destruct (dr_data Hd h H) as [d ->]. done. Qed.

(** The heap holds a frontier: an antichain above everything not yet popped. *)
Record frontier (heap : list SortableBlock) (popped : gset Hash) : Prop := {
  fr_keys b : b ∈ heap -> b = key (sb_hash b) /\ region (sb_hash b);
  fr_antichain : antichain (map sb_hash heap);
  fr_cover x : region x -> x ∈ popped \/ exists h, h ∈ map sb_hash heap /\ reach x h = true;
  fr_popped x h : x ∈ popped -> h ∈ map sb_hash heap -> reach x h = false;
  fr_region x : x ∈ popped -> region x;
}.
Lemma region_down x y : region y -> reach F x = true -> reach x y = true -> region x.
Proof using RL. intros [_ (t & Ht & Hyt)] HF Hxy. split; [done|]. exists t. split; [done|]. by eapply reach_trans. Qed.

Lemma frontier_tips : exists heap, res_mapM (sortable (ghostdag_store self)) tips = Ok (E:=RuleError) heap /\ frontier heap ∅.
Proof using Hd RL.
  assert (forall t, t ∈ tips -> region t) as Hreg.
  { intros t Ht. split; [by apply Hd|]. exists t. split; [done|apply reach_refl]. }
  assert (forall l, (forall t, t ∈ l -> region t) -> res_mapM (sortable (ghostdag_store self)) l = Ok (E:=RuleError) (map key l)) as Hk.
  { induction l as [|t l IH]; intros Hl; [done|]. cbn [res_mapM map]. rewrite sink_key by (apply Hl; left).
    cbn [mbind res_bind]. rewrite IH; [done|]. intros x Hx. apply Hl. by right. }
  exists (map key tips). split; [by apply Hk|].
  assert (map sb_hash (map key tips) = tips) as Em by (rewrite map_map; apply map_id).
  split; rewrite ?Em.
  - intros b Hb. apply list_elem_of_fmap in Hb as (t & -> & Ht). split; [done|by apply Hreg].
  - apply Hd.
  - intros x [_ (t & Ht & Hx)]. right. eauto.
  - by intros x h ?%not_elem_of_empty.
  - by intros x ?%not_elem_of_empty.
Qed.

(** Pushing the parents [ps] of a popped block [c]. *)
Section pushing.
Context (c : Hash) (rest : list SortableBlock) (popped : gset Hash) (ps : list Hash).
Context (Hc : region c) (Hps : antichain ps) (Hpar : forall p, p ∈ ps -> reach p c = true /\ p <> c).
Context (Hold : antichain (c :: map sb_hash rest)).
Record pushed (done : list Hash) (heap : list SortableBlock) : Prop := {
  pu_keys b : b ∈ heap -> b = key (sb_hash b) /\ region (sb_hash b);
  pu_antichain : antichain (map sb_hash heap);
  pu_cover p : p ∈ done -> reach F p = true -> exists h, h ∈ map sb_hash heap /\ reach p h = true;
  pu_rest : map sb_hash rest ⊆ map sb_hash heap;
  pu_from h : h ∈ map sb_hash heap -> h ∈ map sb_hash rest \/ h ∈ ps;
}.
Lemma push_parent_ok seen heap p : pushed seen heap -> p ∈ ps ->
  exists heap', push_parent self F heap p = Ok heap' /\ pushed (seen ++ [p]) heap'.
Proof using Hd RL Hc Hps Hpar Hold.
  intros [Hk Ha Hcov Hrest Hfrom] Hp. destruct (Hpar p Hp) as [Hpc Hne]. unfold push_parent.
  destruct (is_dag_ancestor_of F p) eqn:HF; cbn [andb].
  2:{ exists heap. split; [done|]. split; try done. intros q [Hq| ->%list_elem_of_singleton]%elem_of_app; [by apply Hcov|congruence]. }
  destruct (existsb _ heap) eqn:Hex; cbn [negb].
  { exists heap. split; [done|]. split; try done. intros q [Hq| ->%list_elem_of_singleton]%elem_of_app HFq; [by apply Hcov|].
    apply existsb_exists in Hex as (b & Hb & Hr). exists (sb_hash b). split; [|done]. apply list_elem_of_fmap. exists b. split; [done|by apply list_elem_of_In]. }
  assert (forall h, h ∈ map sb_hash heap -> reach p h = false) as Hno.
  { intros h Hh. apply list_elem_of_fmap in Hh as (b & -> & Hb). destruct (reach p (sb_hash b)) eqn:Hr; [|done].
    rewrite <- Hex. symmetry. apply existsb_exists. exists b. split; [by apply list_elem_of_In|done]. }
  assert (region p) as Hrp by (by eapply region_down).
  rewrite sink_key by done. eexists. split; [done|]. split; cbn [map key sb_hash].
  - intros b [->|Hb]%elem_of_cons; [done|by apply Hk].
  - apply antichain_cons. split; [intros Hin; apply Hno in Hin; by rewrite reach_refl in Hin|]. split; [|done].
    intros h Hh. split; [by apply Hno|]. destruct (reach h p) eqn:Hhp; [|done]. exfalso.
    assert (h <> p) as Hhne by (intros ->; apply Hno in Hh; by rewrite reach_refl in Hh).
    apply antichain_cons in Hold as (Hcn & Hcr & _). destruct (Hfrom h Hh) as [Hh'|Hh'].
    + destruct (Hcr h Hh') as [_ Hf]. rewrite (reach_trans h p c Hhp Hpc) in Hf. done.
    + by rewrite (proj2 Hps h p Hh' Hp Hhne) in Hhp.
  - intros q [Hq| ->%list_elem_of_singleton]%elem_of_app HFq.
    + destruct (Hcov q Hq HFq) as (h & Hh & Hr). exists h. split; [by right|done].
    + exists p. split; [left|apply reach_refl].
  - intros h Hh. right. by apply Hrest.
  - intros h [->|Hh]%elem_of_cons; [by right|by apply Hfrom].
Qed.
Lemma push_parents_ok : forall qs seen heap, pushed seen heap -> qs ⊆ ps ->
  exists heap', res_foldl (push_parent self F) heap qs = Ok heap' /\ pushed (seen ++ qs) heap'.
Proof using Hd RL Hc Hps Hpar Hold.
  induction qs as [|q qs IH]; intros seen heap Hpu Hqs; [exists heap; by rewrite app_nil_r|].
  destruct (push_parent_ok seen heap q Hpu) as (h1 & E1 & Hpu1); [apply Hqs; left|].
  destruct (IH (seen ++ [q]) h1 Hpu1) as (h2 & E2 & Hpu2); [intros x Hx; apply Hqs; by right|].
  exists h2. cbn [res_foldl]. rewrite E1. cbn [mbind res_bind]. rewrite E2. split; [done|]. by rewrite (cons_middle q seen qs), app_assoc.
Qed.
End pushing.

Lemma frontier_step heap popped c rest : frontier heap popped -> heap ≡ₚ c :: rest ->
  exists heap', push_parents self relations F rest (sb_hash c) = Ok heap' /\ frontier heap' ({[sb_hash c]} ∪ popped).
Proof using Hd RL.
  intros [Hk Ha Hcov Hpop Hreg] Hp. pose proof (Permutation_map sb_hash Hp) as Hpm. cbn [map] in Hpm.
  destruct (Hk c) as [_ Hc]; [rewrite Hp; left|]. destruct (dr_parents Hd _ Hc) as (ps & Hps & Hanti & Hpar & Hpast).
  apply (antichain_perm _ _ Hpm) in Ha. unfold push_parents. rewrite Hps. cbn [unwrap mbind res_bind].
  destruct (push_parents_ok (sb_hash c) rest ps Hc Hanti Hpar Ha ps [] rest) as (heap' & -> & [Hk' Ha' Hcov' Hrest' Hfrom']); [|done|].
  { split; try done.
    - intros b Hb. apply Hk. rewrite Hp. by right.
    - by apply antichain_cons in Ha as (_ & _ & Ha).
    - by intros p ?%elem_of_nil.
    - intros h Hh. by left. }
  exists heap'. split; [done|]. apply antichain_cons in Ha as (_ & Hcr & _). split; try done.
  - intros x Hx. destruct (Hcov x Hx) as [Hx'|(h & Hh & Hr)]; [left; set_solver|]. rewrite Hpm in Hh.
    apply elem_of_cons in Hh as [->|Hh]; [|right; exists h; split; [by apply Hrest'|done]].
    destruct (Hpast x Hr) as [->|(p & Hpp & Hxp)]; [left; set_solver|right].
    destruct (Hcov' p) as (h & Hh & Hph); [done|by eapply reach_trans; [apply Hx|]|]. exists h. split; [done|]. by eapply reach_trans.
  - intros x h [->%elem_of_singleton|Hx]%elem_of_union Hh; destruct (Hfrom' h Hh) as [Hh'|Hh'].
    + by apply Hcr.
    + destruct (Hpar h Hh') as [Hhc Hne]. destruct (reach (sb_hash c) h) eqn:E; [|done]. by destruct Hne; apply reach_antisym.
    + apply Hpop; [done|]. rewrite Hpm. by right.
    + destruct (reach x h) eqn:E; [|done]. rewrite <- (Hpop x (sb_hash c)); [symmetry|done|rewrite Hpm; left].
      eapply reach_trans; [exact E|by apply Hpar].
  - intros x [->%elem_of_singleton|Hx]%elem_of_union; [done|by apply Hreg].
Qed.

Lemma work_le x h : region x -> region h -> reach x h = true -> sortable_le (key x) (key h) /\ sb_blue_work (key x) <= sb_blue_work (key h).
Proof using Hd.
  intros Hx Hh Hr. destruct (decide (x = h)) as [->|Hne]; [done|].
  destruct (dr_data Hd x Hx) as [dx Ex]. destruct (dr_data Hd h Hh) as [dh Eh]. pose proof (dr_work Hd x h dx dh Hx Hh Hr Hne Ex Eh) as Hw.
  unfold key. rewrite Ex, Eh. cbn [from_option sb_blue_work]. split; [|lia]. apply sortable_le_spec. cbn [sb_blue_work]. left. lia.
Qed.
Lemma take_while_all {X} (R : relation X) f (l : list X) x : StronglySorted R l -> (forall a b, R a b -> f a = false -> f b = false) ->
  x ∈ l -> f x = false \/ x ∈ take_while f l.
Proof.
  intros Hs Hf. induction Hs as [|a l Hs IH Ha]; intros Hx; [by apply elem_of_nil in Hx|]. cbn [take_while].
  destruct (f a) eqn:E.
  - apply elem_of_cons in Hx as [->|Hx]; [right; left|]. destruct (IH Hx); [by left|right; by right].
  - left. apply elem_of_cons in Hx as [->|Hx]; [done|]. rewrite Forall_forall in Ha. by eapply Hf; [apply Ha|].
Qed.
Lemma take_while_prefix {X} f (l : list X) : exists k, l = take_while f l ++ k.
Proof.
  induction l as [|a l [k IH]]; [by exists []|]. cbn [take_while]. destruct (f a); [|by eexists]. exists k. cbn. by f_equal.
Qed.

(** ** The sink *)
Context (Hr : chain_ready self T F A0 U0) (Hset : forall o e, utxo_set !! o = Some e -> minted T o e).
Abbreviation states := (gmap Hash (list (PopulatedTransaction * u64) * UtxoCollection)).
Definition filter_work (sink : Hash) : Z :=
  match merge_depth_root !! sink with Some r => from_option blue_work 0 (ghostdag_store self !! r) | None => 0 end.
Record sink_result (σ σ' : states) (s' : ChainStores) (sink : Hash) (cands : list Hash) (diff : UtxoDiff) : Prop := {
  sr_sink : region sink /\ on_chain F sink;
  sr_stores : stores_ok self T F A0 U0 σ' s' /\ σ ⊆ σ';
  sr_state : exists A U, σ' !! sink = Some (A, U) /\ chain_state self T F A0 U0 sink A U /\ tracks utxo_set diff U;
  sr_best x : region x -> on_chain F x -> ~ sortable_le (key x) (key sink) -> statuses_store s' !! x = Some StatusDisqualifiedFromChain;
  sr_antichain : antichain (sink :: cands) /\ forall x, x ∈ cands -> region x;
  sr_sorted : StronglySorted (flip sortable_le) (map key (sink :: cands));
  sr_cover x : region x -> (on_chain F x -> statuses_store s' !! x = Some StatusDisqualifiedFromChain) \/
    (exists h, h ∈ sink :: cands /\ reach x h = true) \/ sb_blue_work (key x) < filter_work sink;
}.

Lemma keys_map l : (forall b, b ∈ l -> b = key (sb_hash b)) -> map key (map sb_hash l) = l.
Proof.
  induction l as [|b l IH]; intros H; [done|]. cbn [map]. rewrite <- H by left. f_equal. apply IH. intros x Hx. apply H. by right.
Qed.
Lemma found_ok heap popped c rest : frontier heap popped -> heap ≡ₚ c :: rest -> (forall b, b ∈ rest -> sortable_le b c) ->
  exists cands, found self merge_depth_root (sb_hash c) rest = Ok (sb_hash c, cands) /\
    antichain (sb_hash c :: cands) /\ (forall x, x ∈ cands -> region x) /\ StronglySorted (flip sortable_le) (map key (sb_hash c :: cands)) /\
    forall h, h ∈ map sb_hash rest -> h ∈ cands \/ sb_blue_work (key h) < filter_work (sb_hash c).
Proof using Hd.
  intros [Hk Ha _ _ _] Hp Hle. destruct (sorted_iter_spec rest) as [Hperm Hsort].
  assert (forall b, b ∈ rest -> b = key (sb_hash b) /\ region (sb_hash b)) as Hkr by (intros b Hb; apply Hk; rewrite Hp; by right).
  destruct (Hk c) as [Hkc Hc]; [rewrite Hp; left|]. apply (antichain_perm _ (sb_hash c :: map sb_hash rest)) in Ha; [|by rewrite Hp].
  unfold found, filter_work. destruct (dr_depth Hd _ Hc) as [root ->]. cbn [unwrap mbind res_bind].
  set (fw := from_option blue_work 0 (ghostdag_store self !! root)).
  destruct (take_while_prefix (fun s => fw <=? sb_blue_work s) (into_sorted_iter sortable_cmp rest)) as [k Hpre].
  set (l := take_while (fun s => fw <=? sb_blue_work s) (into_sorted_iter sortable_cmp rest)) in *.
  assert (l ⊆ rest) as Hsub by (intros b Hb; rewrite <- Hperm, Hpre; apply elem_of_app; by left).
  eexists. split; [done|]. split_and!.
  - apply antichain_cons in Ha as (Hn & Hcr & Har). apply antichain_cons.
    assert (map sb_hash l ⊆ map sb_hash rest) as Hsubm by (intros h Hh; apply list_elem_of_fmap in Hh as (b & -> & Hb); apply list_elem_of_fmap; eauto).
    split_and!; [by intros ?%Hsubm|by intros b ?%Hsubm; apply Hcr|]. split; [|intros x y Hx Hy; by apply Har; apply Hsubm].
    destruct Har as [Hnd _]. rewrite <- Hperm, Hpre, map_app in Hnd. by apply NoDup_app in Hnd as [? _].
  - intros x Hx. apply list_elem_of_fmap in Hx as (b & -> & Hb). by apply Hkr, Hsub.
  - cbn [map]. rewrite <- Hkc, keys_map by (intros b Hb; by apply Hkr, Hsub). constructor.
    + eapply StronglySorted_sublist; [|exact Hsort]. rewrite Hpre. by apply sublist_inserts_r.
    + apply Forall_forall. intros b Hb. by apply Hle, Hsub.
  - intros h Hh. apply list_elem_of_fmap in Hh as (b & -> & Hb). destruct (Hkr b Hb) as [<- _].
    destruct (take_while_all (flip sortable_le) (fun s => fw <=? sb_blue_work s) (into_sorted_iter sortable_cmp rest) b Hsort) as [Hf|Hin].
    + intros x y Hyx. unfold flip in Hyx. apply sortable_le_spec in Hyx. rewrite !Z.leb_gt. lia.
    + by rewrite Hperm.
    + right. by apply Z.leb_gt in Hf.
    + left. apply list_elem_of_fmap. by exists b.
Qed.

Lemma sink_found σ σ' s' heap popped c rest diff A U : frontier heap popped -> heap ≡ₚ c :: rest -> (forall b, b ∈ rest -> sortable_le b c) ->
  (forall x, x ∈ popped -> on_chain F x -> statuses_store s' !! x = Some StatusDisqualifiedFromChain) -> on_chain F (sb_hash c) ->
  stores_ok self T F A0 U0 σ' s' -> σ ⊆ σ' -> σ' !! sb_hash c = Some (A, U) -> tracks utxo_set diff U ->
  exists cands, found self merge_depth_root (sb_hash c) rest = Ok (sb_hash c, cands) /\ sink_result σ σ' s' (sb_hash c) cands diff.
Proof using Hd RL.
  intros Hf Hp Hle Hpop HF Hs Hsub Hc Ht. destruct (found_ok heap popped c rest Hf Hp Hle) as (cands & E & Hanti & Hreg & Hsort & Hcov).
  exists cands. split; [done|]. destruct (fr_keys _ _ Hf c) as [Hkc Hrc]; [rewrite Hp; left|].
  assert (forall x, region x -> x ∈ popped \/ exists h, region h /\ reach x h = true /\ (h = sb_hash c \/ h ∈ map sb_hash rest)) as Hx.
  { intros x Hx. destruct (fr_cover _ _ Hf x Hx) as [?|(h & Hh & Hr')]; [by left|right]. exists h. apply list_elem_of_fmap in Hh as (b & -> & Hb).
    destruct (fr_keys _ _ Hf b Hb) as [_ Hrb]. split_and!; [done..|]. rewrite Hp in Hb. apply elem_of_cons in Hb as [->|Hb]; [by left|right].
    apply list_elem_of_fmap. eauto. }
  split; try done.
  - exists A, U. split_and!; [done| |done]. by apply (so_state _ _ _ _ _ _ _ Hs).
  - intros x Hxr HFx Hnle. destruct (Hx x Hxr) as [?|(h & Hrh & Hxh & Hh)]; [by apply Hpop|]. destruct Hnle.
    destruct (work_le x h Hxr Hrh Hxh) as [Hw _]. destruct Hh as [->|Hh]; [done|]. etrans; [exact Hw|].
    apply list_elem_of_fmap in Hh as (b & -> & Hb). destruct (fr_keys _ _ Hf b) as [<- _]; [rewrite Hp; by right|]. rewrite <- Hkc. by apply Hle.
  - intros x Hxr. destruct (Hx x Hxr) as [?|(h & Hrh & Hxh & Hh)]; [left; by apply Hpop|right].
    destruct Hh as [->|Hh]; [left; exists (sb_hash c); split; [left|done]|].
    destruct (Hcov h Hh) as [Hin|Hlow]; [left; exists h; split; [by right|done]|right].
    destruct (work_le x h Hxr Hrh Hxh) as [_ Hw]. lia.
Qed.
Lemma popped_size heap popped : frontier heap popped -> (size popped <= size (dom (ghostdag_store self)))%nat.
Proof using Hd. intros Hf. apply subseteq_size. intros x Hx. apply elem_of_dom, (dr_data Hd), (fr_region _ _ Hf x Hx). Qed.

Lemma sink_loop_ok : forall fuel heap popped σ s diff dp A U, frontier heap popped ->
  (size (dom (ghostdag_store self)) < fuel + size popped)%nat ->
  stores_ok self T F A0 U0 σ s -> σ !! dp = Some (A, U) -> tracks utxo_set diff U ->
  (forall x, x ∈ popped -> on_chain F x -> statuses_store s !! x = Some StatusDisqualifiedFromChain) ->
  exists sink cands diff' s' σ', sink_loop self relations merge_depth_root walk_fuel utxo_set F fuel heap diff dp s = (Ok (sink, cands, diff'), s') /\
    sink_result σ σ' s' sink cands diff' /\ kept s s'.
Proof using Hd Hr Hset CL RL.
  induction fuel as [|fuel IH]; intros heap popped σ s diff dp A U Hf Hn Hs Hdp Ht Hpop.
  { pose proof (popped_size _ _ Hf). lia. }
  cbn [sink_loop]. pose proof (heap_pop_spec heap) as Hh. destruct (heap_pop sortable_cmp heap) as [[c rest]|].
  2:{ exfalso. destruct (dr_tips Hd) as (_ & Hne & HFt). destruct tips as [|t l] eqn:Et; [done|].
      destruct (fr_cover _ _ Hf F) as [HF|(h & Hh' & _)].
      - split; [apply reach_refl|]. exists t. rewrite Et. split; [left|apply HFt; left].
      - destruct (so_root _ _ _ _ _ _ _ Hs) as [[AF UF] EF]. specialize (Hpop F HF (on_chain_refl F)).
        rewrite (so_status _ _ _ _ _ _ _ Hs F AF UF EF) in Hpop. done.
      - rewrite Hh in Hh'. by apply elem_of_nil in Hh'. }
  destruct Hh as [Hp Hle]. destruct (fr_keys _ _ Hf c) as [_ Hrc]; [rewrite Hp; left|].
  destruct (frontier_step heap popped c rest Hf Hp) as (heap' & Epush & Hf').
  assert (size popped + 1 = size ({[sb_hash c]} ∪ popped : gset Hash))%nat as Hsize.
  { rewrite size_union, size_singleton; [lia|]. intros x ->%elem_of_singleton Hx.
    enough (reach (sb_hash c) (sb_hash c) = false) as Hfp by (by rewrite reach_refl in Hfp).
    apply (fr_popped _ _ Hf); [done|]. rewrite Hp. left. }
  assert (forall σ' s' diff' dp' A' U', stores_ok self T F A0 U0 σ' s' -> σ ⊆ σ' -> kept s s' -> σ' !! dp' = Some (A', U') -> tracks utxo_set diff' U' ->
    (on_chain F (sb_hash c) -> statuses_store s' !! sb_hash c = Some StatusDisqualifiedFromChain) ->
    exists sink cands diff2 s2 σ2, (heap ← slift (push_parents self relations F rest (sb_hash c));
        sink_loop self relations merge_depth_root walk_fuel utxo_set F fuel heap diff' dp') s' = (Ok (sink, cands, diff2), s2) /\
      sink_result σ σ2 s2 sink cands diff2 /\ kept s s2) as Hon.
  { intros σ' s' diff' dp' A' U' Hs' Hsub Hk Hdp' Ht' Hc. unfold mbind, stm_bind, slift. rewrite Epush.
    destruct (IH heap' _ σ' s' diff' dp' A' U' Hf') as (sink & cands & diff2 & s2 & σ2 & E & Hres & Hk2); [lia|done..| |].
    { intros x [->%elem_of_singleton|Hx]%elem_of_union HFx; [by apply Hc|]. by apply Hk, Hpop. }
    exists sink, cands, diff2, s2, σ2. split; [exact E|]. split; [|by intros x Hx; apply Hk2, Hk].
    destruct Hres as [H1 [H2 H2'] H3 H4 H5 H6 H7]. split; try done. split; [done|by etrans]. }
  destruct (is_chain_ancestor_of F (sb_hash c)) eqn:Hanc.
  2:{ apply (Hon σ s diff dp A U); [done|done|by intros x|done|done|]. intros HF. apply chain_ancestor_spec in HF. congruence. }
  apply chain_ancestor_spec in Hanc. assert (live self F (sb_hash c)) as Hl by (split; [done|by apply (dr_body Hd)]).
  destruct (relatively_ok self T F A0 U0 Hr utxo_set Hset walk_fuel diff dp (sb_hash c) σ s A U Hs Hl Hdp Ht)
    as (diff' & b & s' & σ' & A' & U' & E & Hs' & Hsub & Hk & Hb & Ht' & Hcase);
    [by apply (dr_height Hd), (so_live _ _ _ _ _ _ _ Hs dp A U)|by apply (dr_height Hd)|].
  unfold mbind, stm_bind. rewrite E. case_decide as Hbc.
  - subst b. destruct (sink_found σ σ' s' heap popped c rest diff' A' U' Hf Hp Hle) as (cands & -> & Hres); try done.
    { intros x Hx HFx. by apply Hk, Hpop. }
    exists (sb_hash c), cands, diff', s', σ'. done.
  - apply (Hon σ' s' diff' b A' U'); try done. intros _. by destruct Hcase.
Qed.

(** C9. The sink search always succeeds: from a valid finality point, with fuel
    for every block of the DAG, [sink_search_algorithm] returns (the heap never
    runs out before a valid block is found).  Its sink is a verified block above
    the finality point, and the diff leads to the sink's ledger; every block of
    greater blue work between the finality point and the tips is disqualified
    or not on a chain through the finality point; the candidates are, with the
    sink, an antichain in descending order; and any other block is below one of
    them, excluded, or too light to be merged. *)
Theorem sink_search_succeeds fuel diff prev_sink σ s A U : stores_ok self T F A0 U0 σ s -> σ !! prev_sink = Some (A, U) -> tracks utxo_set diff U ->
  (size (dom (ghostdag_store self)) < fuel)%nat ->
  exists sink cands diff' s' σ',
    sink_search_algorithm self relations merge_depth_root walk_fuel utxo_set F fuel diff prev_sink tips s = (Ok (sink, cands, diff'), s') /\
    sink_result σ σ' s' sink cands diff' /\ kept s s'.
Proof using Hd Hr Hset CL RL.
  intros Hs Hp Ht Hn. destruct frontier_tips as (heap & Eh & Hf). unfold sink_search_algorithm, mbind, stm_bind, slift. rewrite Eh.
  apply (sink_loop_ok fuel heap ∅ σ s diff prev_sink A U); [done|rewrite size_empty; lia|done..|by intros x ?%not_elem_of_empty].
Qed.
End theorems.

(** ** Witnesses *)
Section witnesses.
Local Existing Instance in_order.
Local Existing Instance first_evicted.
Local Existing Instance toy_crypto.
Local Existing Instance toy_sha3.
Local Existing Instance Virtual.sets.
Local Existing Instance Virtual.entry_iter.
Local Existing Instance v_chain.
Local Existing Instance v_laws.
Definition v_dag : ReachabilityService := is_chain_ancestor_of.
Local Existing Instance v_dag.
Lemma v_dag_spec a b : is_dag_ancestor_of a b = true <-> v_on_chain a b.
Proof. rewrite <- v_on_chain_spec. apply chain_ancestor_spec. Qed.
Lemma v_dag_laws : ReachabilityLaws.
Proof.
  split; intros *; rewrite !v_dag_spec; unfold v_on_chain; lia.
Qed.
Local Existing Instance v_dag_laws.
Definition v_relations : gmap Hash (list Hash) := {[1 := [0]; 2 := [1]]}.
Definition v_depth : gmap Hash Hash := {[1 := 0; 2 := 0]}.
Lemma v_region x : region 1 [2] x -> x = 1 \/ x = 2.
Proof. intros [H _]. apply v_dag_spec in H. unfold v_on_chain in H. lia. Qed.
Lemma v_antichain x : antichain [x].
Proof. split; [apply NoDup_singleton|]. by intros a b ->%list_elem_of_singleton ->%list_elem_of_singleton. Qed.
Lemma v_dag_ready : dag_ready (v_proc v_header) v_relations v_depth 3 1 [2].
Proof.
  split.
  - split; [apply v_antichain|]. split; [done|]. by intros t ->%list_elem_of_singleton.
  - intros x [->| ->]%v_region; by eexists.
  - intros x [->| ->]%v_region; by eexists.
  - intros x [->| ->]%v_region; by eexists.
  - intros x [->| ->]%v_live; vm_compute; lia.
  - intros x [->| ->]%v_region; eexists; (split; [reflexivity|]); (split; [apply v_antichain|]); split.
    1,3: by intros p ->%list_elem_of_singleton.
    all: intros a [->|Ha]%v_dag_spec; [by left|right; eexists; split; [left|apply v_dag_spec; unfold v_on_chain; lia]].
  - intros a b da db [->| ->]%v_region [->| ->]%v_region Hr Hne; try done.
    intros [= <-] [= <-]. reflexivity.
Qed.
Lemma sink_search_succeeds_witness : exists sink cands diff' s',
  sink_search_algorithm (v_proc v_header) v_relations v_depth 3 w_utxos 1 3 ∅ 1 [2] v_stores = (Ok (sink, cands, diff'), s') /\
  region 1 [2] sink.
Proof.
  destruct (sink_search_succeeds (v_proc v_header) v_relations v_depth 3 w_utxos 1 [2] w_known w_history w_utxos v_dag_ready v_ready v_minted
    3 ∅ 1 v_states0 v_stores w_history w_utxos v_stores_ok eq_refl) as (sink & cands & diff' & s' & σ' & E & Hres & _).
  - by apply tracks_empty.
  - vm_compute. lia.
  - exists sink, cands, diff', s'. split; [exact E|]. exact (proj1 (sr_sink _ _ _ _ _ _ _ _ _ _ _ _ _ _ Hres)).
Defined.
End witnesses.
