(* ===== verification/Interval.v ===== *)
(** * Reachability intervals

    [consensus/src/processes/reachability/interval.rs]: the [u64] intervals the
    reachability tree allocates to its blocks, and the rules that split an
    interval between the children of a block.  [Interval::new] only has debug
    assertions, so it is the constructor.  The floating-point parts are modelled
    at their precision: [split_half] rounds the size to an [f32], and the
    exponential rule computes with [f64] values, here the IEEE 754 operations of
    the standard library's [SpecFloat] at 53 bits of precision. *)

From Stdlib Require Import Floats.SpecFloat.
From S2P Require Import Prelude.

Record Interval := mkInterval { iv_start : u64; iv_end : u64 }.
#[export] Instance Interval_eq_dec : EqDecision Interval.
Proof. solve_decision. Defined.

Definition iv_empty : Interval := mkInterval 1 0.
Definition maximal : Interval := mkInterval 1 (2 ^ 64 - 1 - 1).

Section operations.
Context {E : Type}.
Implicit Types self other : Interval.

Definition iv_size self : res E u64 := e ← u64_add (iv_end self) 1; u64_sub e (iv_start self).
Definition iv_is_empty self : res E bool := s ← iv_size self; Ok (s =? 0).
Definition increase self (offset : u64) : res E Interval :=
  s ← u64_add (iv_start self) offset; e ← u64_add (iv_end self) offset; Ok (mkInterval s e).
Definition decrease self (offset : u64) : res E Interval :=
  s ← u64_sub (iv_start self) offset; e ← u64_sub (iv_end self) offset; Ok (mkInterval s e).
Definition increase_start self (offset : u64) : res E Interval :=
  s ← u64_add (iv_start self) offset; Ok (mkInterval s (iv_end self)).
Definition decrease_start self (offset : u64) : res E Interval :=
  s ← u64_sub (iv_start self) offset; Ok (mkInterval s (iv_end self)).
Definition increase_end self (offset : u64) : res E Interval :=
  e ← u64_add (iv_end self) offset; Ok (mkInterval (iv_start self) e).
Definition decrease_end self (offset : u64) : res E Interval :=
  e ← u64_sub (iv_end self) offset; Ok (mkInterval (iv_start self) e).

Definition contains self other : bool := (iv_start self <=? iv_start other) && (iv_end other <=? iv_end self).
Definition strictly_contains self other : bool := (iv_start self <=? iv_start other) && (iv_end other <? iv_end self).

(** *** Halving

    [x as f32] of a [u64]: 24 significant bits, ties to even.  The result is an
    integer; its product with 0.5 is exact, so its ceiling is [(x + 1) / 2], and
    the cast back to [u64] is in range. *)
Definition f32_of_u64 (x : u64) : Z :=
  if x <? 2 ^ 24 then x else
  let ulp := 2 ^ (Z.log2 x - 23) in
  let q := x / ulp in
  let r := x mod ulp in
  match 2 * r ?= ulp with
  | Lt => q
  | Gt => q + 1
  | Eq => if Z.even q then q else q + 1
  end * ulp.
Definition f32_half_ceil (x : Z) : Z := (x + 1) / 2.

(** [split_fraction] at its only argument 0.5. *)
Definition split_half self : res E (Interval * Interval) :=
  s ← iv_size self;
  let left_size := f32_half_ceil (f32_of_u64 s) in
  e ← u64_add (iv_start self) left_size; e ← u64_sub e 1;
  s ← u64_add (iv_start self) left_size;
  Ok (mkInterval (iv_start self) e, mkInterval s (iv_end self)).

(** *** Splitting by sizes *)
Fixpoint split_from (pos : u64) (sizes : list u64) : res E (list Interval) :=
  match sizes with
  | [] => Ok []
  | size :: sizes =>
      e ← u64_add pos size; e ← u64_sub e 1;
      pos' ← u64_add pos size;
      rest ← split_from pos' sizes;
      Ok (mkInterval pos e :: rest)
  end.
Definition split_exact self (sizes : list u64) : res E (list Interval) :=
  sum ← u64_sum sizes; s ← iv_size self;
  _ ← rassert (sum =? s);
  split_from (iv_start self) sizes.

(** *** The exponential rule *)
Abbreviation f64 := spec_float.
Definition f64_of_Z (x : Z) : f64 := binary_normalize 53 1024 x 0 false.
(** [2f64.powf(k)] for an integral exponent: the power of two, or infinity. *)
Definition f64_pow2 (k : Z) : f64 := binary_normalize 53 1024 1 k false.
Definition f64_add : f64 -> f64 -> f64 := SFadd 53 1024.
Definition f64_mul : f64 -> f64 -> f64 := SFmul 53 1024.
Definition f64_div : f64 -> f64 -> f64 := SFdiv 53 1024.
(** [f64::round(x) as u64]: half away from zero; the cast saturates and maps a
    NaN to 0. *)
Definition f64_round_u64 (x : f64) : u64 :=
  match x with
  | S754_finite false m e =>
      Z.min (2 ^ 64 - 1)
        (if 0 <=? e then Z.pos m * 2 ^ e else (Z.pos m + 2 ^ (- e) / 2) / 2 ^ (- e))
  | S754_infinity false => 2 ^ 64 - 1
  | _ => 0
  end.

Definition exponential_fractions (sizes : list u64) : list f64 :=
  let max_size := foldr Z.max 0 sizes in
  let fractions := map (fun s => f64_div (f64_of_Z 1) (f64_pow2 (max_size - s))) sizes in
  let fractions_sum := foldl f64_add (f64_of_Z 0) fractions in
  map (fun item => f64_div item fractions_sum) fractions.

(** The biased sizes: the loop over the fractions, [i] being the last index when
    no fraction follows. *)
Fixpoint biased_sizes (total_bias : f64) (remaining_bias : u64) (sizes : list u64) (fractions : list f64) :
    res E (list u64) :=
  match fractions, sizes with
  | [], _ => Ok []
  | _, [] => Panic
  | fraction :: fractions, size :: sizes =>
      let bias := match fractions with
                  | [] => remaining_bias
                  | _ => Z.min remaining_bias (f64_round_u64 (f64_mul total_bias fraction))
                  end in
      b ← u64_add size bias;
      remaining_bias ← u64_sub remaining_bias bias;
      rest ← biased_sizes total_bias remaining_bias sizes fractions;
      Ok (b :: rest)
  end.
Definition split_exponential self (sizes : list u64) : res E (list Interval) :=
  interval_size ← iv_size self;
  sizes_sum ← u64_sum sizes;
  _ ← rassert (sizes_sum <=? interval_size);
  _ ← rassert (0 <? sizes_sum);
  if interval_size =? sizes_sum then split_exact self sizes else
  remaining_bias ← u64_sub interval_size sizes_sum;
  biased ← biased_sizes (f64_of_Z remaining_bias) remaining_bias sizes (exponential_fractions sizes);
  split_exact self biased.
End operations.

Section layout.
Context {E : Type}.

(** The consecutive intervals of the given sizes from [pos] on. *)
Fixpoint layout (pos : Z) (sizes : list Z) : list Interval :=
  match sizes with
  | [] => []
  | n :: sizes => mkInterval pos (pos + n - 1) :: layout (pos + n) sizes
  end.
Definition zsum (l : list Z) : Z := foldr Z.add 0 l.

(** A legal interval, possibly empty: the margins of [Interval::maximal]. *)
Definition iv_ok (i : Interval) : Prop := 1 <= iv_start i <= iv_end i + 1 /\ iv_end i < 2 ^ 64 - 1.
Definition iv_len (i : Interval) : Z := iv_end i + 1 - iv_start i.

Lemma iv_size_ok i : iv_ok i -> iv_size (E:=E) i = Ok (iv_len i).
Proof.
  intros [H1 H2]. unfold iv_size, iv_len, u64_add, u64_sub. rewrite chk_ok by (unfold inW; lia). cbn [mbind res_bind].
  apply chk_ok. unfold inW. lia.
Qed.

Lemma zsum_cons x l : zsum (x :: l) = x + zsum l.
Proof. done. Qed.
Lemma zsum_app l k : zsum (l ++ k) = zsum l + zsum k.
Proof. induction l as [|x l IH]; [done|]. rewrite <- app_comm_cons, !zsum_cons, IH. lia. Qed.
Lemma zsum_nonneg l : Forall (Z.le 0) l -> 0 <= zsum l.
Proof. induction 1; simpl; lia. Qed.
Lemma u64_sum_exact l : Forall (Z.le 0) l -> zsum l < 2 ^ 64 -> u64_sum (E:=E) l = Ok (zsum l).
Proof.
  unfold u64_sum. intros Hl. assert (forall a, 0 <= a -> a + zsum l < 2 ^ 64 -> res_foldl (E:=E) u64_add a l = Ok (a + zsum l)) as H.
  { induction Hl as [|x l Hx Hl IH]; intros a Ha Hs; cbn [res_foldl]; [by rewrite Z.add_0_r|].
    cbn [zsum foldr] in *. pose proof (zsum_nonneg l Hl) as Hn. unfold zsum in Hn.
    rewrite (u64_add_ok a x) by (unfold inW; lia). cbn [mbind res_bind].
    rewrite IH by (unfold zsum; lia). f_equal. unfold zsum. lia. }
  intros Hs. by rewrite H.
Qed.

Lemma split_from_ok sizes : forall pos, Forall (Z.le 0) sizes -> 1 <= pos -> pos + zsum sizes < 2 ^ 64 ->
  split_from (E:=E) pos sizes = Ok (layout pos sizes).
Proof.
  induction sizes as [|n sizes IH]; intros pos Hs Hp Hb; [done|]. apply Forall_cons in Hs as [Hn Hs].
  cbn [split_from layout zsum foldr] in *. pose proof (zsum_nonneg sizes Hs) as H0. unfold zsum in H0.
  unfold u64_add, u64_sub. rewrite !(chk_ok 64 (pos + n)) by (unfold inW; lia). cbn [mbind res_bind].
  rewrite chk_ok by (unfold inW; lia). cbn [mbind res_bind].
  rewrite IH; [done|done|lia|unfold zsum; lia].
Qed.
Lemma split_exact_ok i sizes : iv_ok i -> Forall (Z.le 0) sizes -> zsum sizes = iv_len i ->
  split_exact (E:=E) i sizes = Ok (layout (iv_start i) sizes).
Proof.
  intros Hi Hs Hz. pose proof Hi as [H1 H2]. unfold split_exact. unfold iv_len in Hz.
  rewrite u64_sum_exact by (try done; lia). cbn [mbind res_bind]. rewrite iv_size_ok by done. cbn [mbind res_bind].
  unfold iv_len. rewrite Hz, Z.eqb_refl. cbn [rassert mbind res_bind]. apply split_from_ok; [done|lia|lia].
Qed.

Lemma f64_round_nonneg x : 0 <= f64_round_u64 x.
Proof.
  destruct x as [|[]| |[] m e]; simpl; try lia. destruct (0 <=? e) eqn:He.
  - assert (0 < 2 ^ e) by (apply Z.pow_pos_nonneg; lia). nia.
  - assert (0 < 2 ^ (- e)) by (apply Z.pow_pos_nonneg; lia).
    assert (0 <= 2 ^ (- e) / 2) by (apply Z.div_pos; lia).
    assert (0 <= (Z.pos m + 2 ^ (- e) / 2) / 2 ^ (- e)) by (apply Z.div_pos; lia). lia.
Qed.

(** Whatever the rounding of the fractions, the remaining capacity is handed out
    completely and no part loses. *)
Lemma biased_sizes_ok tb fr : forall sizes rem, length fr = length sizes -> Forall (Z.le 0) sizes -> 0 <= rem ->
  fr <> [] -> zsum sizes + rem < 2 ^ 64 ->
  exists bs, biased_sizes (E:=E) tb rem sizes fr = Ok bs /\ Forall2 Z.le sizes bs /\ zsum bs = zsum sizes + rem.
Proof.
  induction fr as [|f fr IH]; intros [|n sizes] rem Hl Hs Hr Hne Hb; try done. injection Hl as Hl.
  apply Forall_cons in Hs as [Hn Hs]. cbn [zsum foldr] in Hb. pose proof (zsum_nonneg sizes Hs) as H0. unfold zsum in H0.
  cbn [biased_sizes].
  set (bias := match fr with [] => rem | _ => Z.min rem _ end).
  assert (0 <= bias <= rem) as Hbias by (pose proof (f64_round_nonneg (f64_mul tb f)); unfold bias; destruct fr; lia).
  unfold u64_add, u64_sub. rewrite (chk_ok 64 (n + bias)) by (unfold inW; lia). cbn [mbind res_bind].
  rewrite (chk_ok 64 (rem - bias)) by (unfold inW; lia). cbn [mbind res_bind].
  destruct fr as [|f' fr'].
  - destruct sizes; [|done]. cbn. exists [n + bias]. split; [done|]. split; [repeat constructor; lia|]. cbn. unfold bias. lia.
  - destruct (IH sizes (rem - bias) Hl Hs ltac:(lia) ltac:(done) ltac:(unfold zsum; lia)) as (bs & -> & Hle & Hsum).
    cbn [mbind res_bind]. exists (n + bias :: bs). split; [done|]. split; [constructor; [lia|done]|].
    cbn [zsum foldr]. unfold zsum in Hsum. rewrite Hsum. unfold zsum. lia.
Qed.

Lemma Forall2_le_nonneg l k : Forall2 Z.le l k -> Forall (Z.le 0) l -> Forall (Z.le 0) k.
Proof. induction 1; intros Hl; [done|]. apply Forall_cons in Hl as [Hx Hl]. constructor; [lia|auto]. Qed.

Lemma split_exponential_ok i sizes : iv_ok i -> Forall (Z.le 0) sizes -> 0 < zsum sizes <= iv_len i ->
  exists bs, split_exponential (E:=E) i sizes = Ok (layout (iv_start i) bs) /\ Forall2 Z.le sizes bs /\ zsum bs = iv_len i.
Proof.
  intros Hi Hs Hz. pose proof Hi as [H1 H2]. assert (iv_len i < 2 ^ 64) by (unfold iv_len; lia).
  unfold split_exponential. rewrite iv_size_ok by done. cbn [mbind res_bind].
  rewrite u64_sum_exact by (try done; lia). cbn [mbind res_bind].
  replace (zsum sizes <=? iv_len i) with true by lia. replace (0 <? zsum sizes) with true by lia. cbn [rassert mbind res_bind].
  destruct (iv_len i =? zsum sizes) eqn:He.
  - exists sizes. rewrite split_exact_ok by (try done; lia). split; [done|]. split; [by apply reflexive_eq|lia].
  - unfold u64_sub. rewrite chk_ok by (unfold inW; lia). cbn [mbind res_bind].
    assert (sizes <> []) as Hne by (intros ->; cbn in Hz; lia).
    destruct (biased_sizes_ok (f64_of_Z (iv_len i - zsum sizes)) (exponential_fractions sizes) sizes (iv_len i - zsum sizes))
      as (bs & -> & Hle & Hsum); [by unfold exponential_fractions; rewrite !length_map|done|lia|by destruct sizes|lia|].
    cbn [mbind res_bind]. exists bs. split; [|split; [done|lia]].
    apply split_exact_ok; [done|by eapply Forall2_le_nonneg|lia].
Qed.

Lemma f32_of_u64_bounds n : 1 <= n -> 1 <= f32_of_u64 n <= 2 * n - 1.
Proof.
  intros Hn. unfold f32_of_u64. destruct (n <? 2 ^ 24) eqn:Hs; [lia|]. cbv zeta.
  pose proof (Z.log2_spec n ltac:(lia)) as [Hl _].
  assert (24 <= Z.log2 n) as Hlog by (apply Z.log2_le_pow2; lia).
  set (ulp := 2 ^ (Z.log2 n - 23)).
  assert (0 < ulp) as Hu by (apply Z.pow_pos_nonneg; lia).
  assert (ulp * 2 ^ 23 <= n) as Hb.
  { unfold ulp. rewrite <- Z.pow_add_r by lia. by replace (Z.log2 n - 23 + 23) with (Z.log2 n) by lia. }
  pose proof (Z_div_mod_eq_full n ulp) as Hdm. pose proof (Z.mod_pos_bound n ulp Hu).
  assert (1 <= n / ulp) by (apply Z.div_le_lower_bound; lia).
  destruct (2 * (n mod ulp) ?= ulp); try destruct (Z.even _); nia.
Qed.

(** Halving a legal non-empty interval succeeds; the left part is not empty. *)
Lemma split_half_ok i : iv_ok i -> 0 < iv_len i -> exists m,
  split_half (E:=E) i = Ok (mkInterval (iv_start i) m, mkInterval (m + 1) (iv_end i)) /\ iv_start i <= m <= iv_end i.
Proof.
  intros Hi Hl. pose proof Hi as [H1 H2]. pose proof (f32_of_u64_bounds (iv_len i) ltac:(lia)) as Hf.
  unfold split_half. rewrite iv_size_ok by done. cbn [mbind res_bind].
  set (k := f32_half_ceil (f32_of_u64 (iv_len i))).
  assert (1 <= k <= iv_len i) as Hk.
  { unfold k, f32_half_ceil. split; [apply Z.div_le_lower_bound; lia|apply Z.div_le_upper_bound; lia]. }
  unfold iv_len in *. rewrite (u64_add_ok (iv_start i) k) by (unfold inW; lia). cbn [mbind res_bind].
  rewrite u64_sub_ok by (unfold inW; lia). cbn [mbind res_bind].
  exists (iv_start i + k - 1). split; [do 3 f_equal; lia|lia].
Qed.
End layout.

(** Consecutive intervals from [pos] that end just before [stop]. *)
Fixpoint tile (pos stop : Z) (ivs : list Interval) : Prop :=
  match ivs with
  | [] => pos = stop
  | i :: ivs => iv_start i = pos /\ tile (iv_end i + 1) stop ivs
  end.
Lemma layout_tile sizes : forall pos, tile pos (pos + zsum sizes) (layout pos sizes).
Proof.
  induction sizes as [|n sizes IH]; intros pos; cbn [layout tile zsum foldr iv_start iv_end]; [lia|].
  split; [done|]. replace (pos + n - 1 + 1) with (pos + n) by lia.
  specialize (IH (pos + n)). unfold zsum in IH. by rewrite Z.add_assoc.
Qed.
Lemma layout_len sizes : forall pos, map iv_len (layout pos sizes) = sizes.
Proof.
  induction sizes as [|n sizes IH]; intros pos; cbn [layout map]; [done|]. f_equal; [unfold iv_len; cbn; lia|apply IH].
Qed.

(** The exponential rule splits an interval into one part per child: the
    parts are consecutive, cover the interval exactly, and every child gets at
    least the size it asks for, whatever the rounding of the floating-point
    fractions; it returns, without a panic, whenever the sizes are not all zero
    and fit in the interval. *)
Theorem split_exponential_partition {E} i sizes
  (Hi : iv_ok i) (Hs : Forall (Z.le 0) sizes) (Hz : 0 < zsum sizes <= iv_len i) :
  exists ivs, split_exponential (E:=E) i sizes = Ok ivs /\
    tile (iv_start i) (iv_end i + 1) ivs /\ Forall2 (fun n iv => n <= iv_len iv) sizes ivs.
Proof.
  destruct (split_exponential_ok (E:=E) i sizes Hi Hs Hz) as (bs & -> & Hle & Hsum).
  exists (layout (iv_start i) bs). split; [done|]. split.
  - replace (iv_end i + 1) with (iv_start i + zsum bs) by (unfold iv_len in Hsum; lia). apply layout_tile.
  - assert (Forall2 Z.le sizes (iv_len <$> layout (iv_start i) bs)) as H by (by rewrite layout_len).
    rewrite Forall2_fmap_r in H. exact H.
Qed.
Lemma split_exponential_partition_witness :
  exists ivs, split_exponential (E:=Empty_set) (mkInterval 1 100000) [31000; 31000; 30001] = Ok ivs /\
    tile 1 100001 ivs /\ ivs = [mkInterval 1 35000; mkInterval 35001 69999; mkInterval 70000 100000].
Proof.
  destruct (split_exponential_partition (E:=Empty_set) (mkInterval 1 100000) [31000; 31000; 30001]) as (ivs & H & Ht & _);
    [unfold iv_ok; cbn; lia|by apply (bool_decide_unpack _)|unfold iv_len; cbn; lia|].
  exists ivs. split; [exact H|]. split; [exact Ht|].
  assert (Some ivs = Some [mkInterval 1 35000; mkInterval 35001 69999; mkInterval 70000 100000]) as [=]; [|done].
  change (match Ok (E:=Empty_set) ivs with Ok x => Some x | _ => None end = Some [mkInterval 1 35000; mkInterval 35001 69999; mkInterval 70000 100000]).
  rewrite <- H. vm_compute. reflexivity.
Defined.
