(* ===== verification/Reachability.v ===== *)
(** * The reachability tree

    [consensus/src/processes/reachability/]: the store of tree intervals
    ([MemoryReachabilityStore] of [consensus/src/model/stores/reachability.rs],
    which groups what the database store decomposes), the interval extensions,
    the queries of [inquirer.rs] and the operations that add and delete blocks,
    [tree.rs] and [reindex.rs].

    An operation takes the store and returns the new one; when it fails only the
    error is returned, since every caller drops the staged changes then.  Loops
    that follow parents or a queue run on fuel, one more than the number of
    entries of the store. *)

From S2P Require Import Prelude Search Interval.

(** ** The store *)
Inductive StoreError :=
| KeyNotFound (hash : Hash)
| RootKeyNotFound
| HashAlreadyExists (hash : Hash).
Inductive ReachabilityError :=
| StoreErr (e : StoreError)
| DataOverflow
| DataInconsistency
| BadQuery.
Abbreviation result := (res ReachabilityError).

Record MemoryReachabilityData := mkReachData {
  children : list Hash;
  parent : Hash;
  interval : Interval;
  height : u64;
  future_covering_set : list Hash;
}.
Record MemoryReachabilityStore := mkReachStore {
  reach_map : gmap Hash MemoryReachabilityData;
  reindex_root : option Hash;
}.

(** [blockhash::NONE] and [blockhash::ORIGIN]. *)
Definition NONE : Hash := undigits 256 (repeat 0x00 32).
Definition ORIGIN : Hash := undigits 256 (repeat 0xfe 32).

Implicit Types (store : MemoryReachabilityStore) (hash block this queried : Hash).

Definition new_store : MemoryReachabilityStore := mkReachStore ∅ None.
Definition new_data (parent : Hash) (interval : Interval) (height : u64) : MemoryReachabilityData :=
  mkReachData [] parent interval height [].
Definition get_data store hash : result MemoryReachabilityData :=
  ok_or (reach_map store !! hash) (StoreErr (KeyNotFound hash)).
Definition set_data store hash (d : MemoryReachabilityData) : MemoryReachabilityStore :=
  mkReachStore (<[hash := d]> (reach_map store)) (reindex_root store).

Definition store_has store hash : bool := bool_decide (is_Some (reach_map store !! hash)).
Definition get_interval store hash : result Interval := d ← get_data store hash; Ok (interval d).
Definition get_parent store hash : result Hash := d ← get_data store hash; Ok (parent d).
Definition get_children store hash : result (list Hash) := d ← get_data store hash; Ok (children d).
Definition get_future_covering_set store hash : result (list Hash) :=
  d ← get_data store hash; Ok (future_covering_set d).
Definition get_height store hash : result u64 := d ← get_data store hash; Ok (height d).
Definition get_reindex_root store : result Hash := ok_or (reindex_root store) (StoreErr RootKeyNotFound).

Definition set_reindex_root store (root : Hash) : MemoryReachabilityStore :=
  mkReachStore (reach_map store) (Some root).
Definition store_insert store hash (parent : Hash) (interval : Interval) (height : u64) :
    result MemoryReachabilityStore :=
  match reach_map store !! hash with
  | None => Ok (set_data store hash (new_data parent interval height))
  | Some _ => Err (StoreErr (HashAlreadyExists hash))
  end.
Definition store_init store (origin : Hash) (capacity : Interval) : result MemoryReachabilityStore :=
  store ← store_insert store origin NONE capacity 0;
  Ok (set_reindex_root store origin).
Definition with_interval (d : MemoryReachabilityData) (i : Interval) : MemoryReachabilityData :=
  mkReachData (children d) (parent d) i (height d) (future_covering_set d).
Definition with_children (d : MemoryReachabilityData) (cs : list Hash) : MemoryReachabilityData :=
  mkReachData cs (parent d) (interval d) (height d) (future_covering_set d).
Definition with_parent (d : MemoryReachabilityData) (p : Hash) : MemoryReachabilityData :=
  mkReachData (children d) p (interval d) (height d) (future_covering_set d).
Definition with_fcs (d : MemoryReachabilityData) (fcs : list Hash) : MemoryReachabilityData :=
  mkReachData (children d) (parent d) (interval d) (height d) fcs.

Definition set_interval store hash (i : Interval) : result MemoryReachabilityStore :=
  d ← get_data store hash; Ok (set_data store hash (with_interval d i)).
Definition append_child store hash (child : Hash) : result MemoryReachabilityStore :=
  d ← get_data store hash; Ok (set_data store hash (with_children d (children d ++ [child]))).
Definition set_parent store hash (new_parent : Hash) : result MemoryReachabilityStore :=
  d ← get_data store hash; Ok (set_data store hash (with_parent d new_parent)).

(** [Vec::insert] and [Vec::splice(i..i + 1, new)], which panic out of range. *)
Definition vec_insert {E A} (l : list A) (i : nat) (x : A) : res E (list A) :=
  if (i <=? length l)%nat then Ok (take i l ++ x :: drop i l) else Panic.
Definition vec_splice1 {E A} (l : list A) (i : nat) (new : list A) : res E (list A) :=
  if (i <? length l)%nat then Ok (take i l ++ new ++ drop (S i) l) else Panic.

Definition insert_future_covering_item store hash (fci : Hash) (insertion_index : nat) : result MemoryReachabilityStore :=
  d ← get_data store hash;
  fcs ← vec_insert (future_covering_set d) insertion_index fci;
  Ok (set_data store hash (with_fcs d fcs)).
Definition replace_child store hash (replaced_index : nat) (replace_with : list Hash) : result MemoryReachabilityStore :=
  d ← get_data store hash;
  cs ← vec_splice1 (children d) replaced_index replace_with;
  Ok (set_data store hash (with_children d cs)).
Definition replace_future_covering_item store hash (replaced_index : nat) (replace_with : list Hash) :
    result MemoryReachabilityStore :=
  d ← get_data store hash;
  fcs ← vec_splice1 (future_covering_set d) replaced_index replace_with;
  Ok (set_data store hash (with_fcs d fcs)).
Definition store_delete store hash : MemoryReachabilityStore :=
  mkReachStore (delete hash (reach_map store)) (reindex_root store).

(** Fuel for loops over the blocks of the store. *)
Definition fuel_of store : nat := S (size (reach_map store)).

(** ** Interval extensions *)
Definition interval_children_capacity store block : result Interval :=
  i ← get_interval store block; decrease_end i 1.
Definition interval_remaining_before store block : result Interval :=
  alloc_capacity ← interval_children_capacity store block;
  cs ← get_children store block;
  match cs with
  | first_child :: _ =>
      first_alloc ← get_interval store first_child;
      e ← u64_sub (iv_start first_alloc) 1;
      Ok (mkInterval (iv_start alloc_capacity) e)
  | [] => Ok alloc_capacity
  end.
Definition interval_remaining_after store block : result Interval :=
  alloc_capacity ← interval_children_capacity store block;
  cs ← get_children store block;
  match last cs with
  | Some last_child =>
      last_alloc ← get_interval store last_child;
      s ← u64_add (iv_end last_alloc) 1;
      Ok (mkInterval s (iv_end alloc_capacity))
  | None => Ok alloc_capacity
  end.

(** ** Queries *)
Definition is_strict_chain_ancestor_of store this queried : result bool :=
  a ← get_interval store this; b ← get_interval store queried; Ok (strictly_contains a b).
Definition is_chain_ancestor_of store this queried : result bool :=
  a ← get_interval store this; b ← get_interval store queried; Ok (contains a b).

Inductive SearchOutput := NotFound (i : nat) | Found (hash : Hash) (i : nat).
Definition unwrap_res {E F A} (r : res E A) : res F A :=
  match r with Ok a => Ok a | NoFuel => NoFuel | _ => Panic end.

Definition binary_search_descendant store (ordered_hashes : list Hash) (descendant : Hash) : result SearchOutput :=
  d ← get_interval store descendant;
  let point := iv_end d in
  r ← binary_search_by_key (fun c : Hash => unwrap_res (i ← get_interval store c; Ok (iv_start i))) ordered_hashes point;
  match r with
  | inl i => h ← unwrap (ordered_hashes !! i); Ok (Found h i)
  | inr 0%nat => Ok (NotFound 0)
  | inr (S i) =>
      h ← unwrap (ordered_hashes !! i);
      anc ← is_chain_ancestor_of store h descendant;
      Ok (if anc : bool then Found h i else NotFound (S i))
  end.

Definition is_dag_ancestor_of store this queried : result bool :=
  chain ← is_chain_ancestor_of store this queried;
  if chain : bool then Ok true else
  fcs ← get_future_covering_set store this;
  out ← binary_search_descendant store fcs queried;
  Ok (match out with Found _ _ => true | NotFound _ => false end).

Definition get_next_chain_ancestor_unchecked store (descendant ancestor : Hash) : result Hash :=
  cs ← get_children store ancestor;
  out ← binary_search_descendant store cs descendant;
  match out with Found h _ => Ok h | NotFound _ => Err BadQuery end.
Definition get_next_chain_ancestor store (descendant ancestor : Hash) : result Hash :=
  if decide (descendant = ancestor) then Err BadQuery else
  strict ← is_strict_chain_ancestor_of store ancestor descendant;
  if negb strict then Err BadQuery else
  get_next_chain_ancestor_unchecked store descendant ancestor.

(** ** Reindexing *)
Record ReindexOperationContext := mkContext {
  ctx_store : MemoryReachabilityStore;
  subtree_sizes : gmap Hash u64;
  slack : u64;
}.
Implicit Types ctx : ReindexOperationContext.
Definition context_new store (slack : u64) : ReindexOperationContext := mkContext store ∅ slack.
Definition with_store ctx store : ReindexOperationContext := mkContext store (subtree_sizes ctx) (slack ctx).
Definition with_sizes ctx (sizes : gmap Hash u64) : ReindexOperationContext := mkContext (ctx_store ctx) sizes (slack ctx).
(** [self.subtree_sizes[&block]]. *)
Definition subtree_size ctx block : result u64 := unwrap (subtree_sizes ctx !! block).

Definition ctx_set_interval ctx block (i : Interval) : result ReindexOperationContext :=
  store ← set_interval (ctx_store ctx) block i; Ok (with_store ctx store).

(** [while current != block]: pushes the size of a finished subtree up. *)
Fixpoint push_up store block (fuel : nat) (current : Hash) (sizes counts : gmap Hash u64) :
    result (gmap Hash u64 * gmap Hash u64) :=
  match fuel with
  | O => NoFuel
  | S fuel =>
      if decide (current = block) then Ok (sizes, counts) else
      current ← get_parent store current;
      cs ← get_children store current;
      count ← u64_add (default 0 (counts !! current)) 1;
      let counts := <[current := count]> counts in
      if count <? zlen cs then Ok (sizes, counts) else
      subtree_sum ← (ns ← res_mapM (fun c => unwrap (sizes !! c)) cs; u64_sum ns);
      n ← u64_add subtree_sum 1;
      push_up store block fuel current (<[current := n]> sizes) counts
  end.
(** [while let Some(current) = queue.pop_front()]. *)
Fixpoint count_loop store block (fuel : nat) (queue : list Hash) (sizes counts : gmap Hash u64) : result (gmap Hash u64) :=
  match fuel with
  | O => NoFuel
  | S fuel =>
      match queue with
      | [] => Ok sizes
      | current :: queue =>
          cs ← get_children store current;
          if negb (zlen cs =? 0) && negb (bool_decide (is_Some (sizes !! current)))
          then count_loop store block fuel (queue ++ cs) sizes counts
          else
            let sizes := if zlen cs =? 0 then <[current := 1]> sizes else sizes in
            '(sizes, counts) ← push_up store block (fuel_of store) current sizes counts;
            count_loop store block fuel queue sizes counts
      end
  end.
Definition count_subtrees ctx block : result ReindexOperationContext :=
  if bool_decide (is_Some (subtree_sizes ctx !! block)) then Ok ctx else
  sizes ← count_loop (ctx_store ctx) block (fuel_of (ctx_store ctx)) [block] (subtree_sizes ctx) ∅;
  Ok (with_sizes ctx sizes).

(** [for (c, ci) in children.zip(intervals) { set_interval(c, ci)? }] *)
Fixpoint set_intervals store (cs : list Hash) (intervals : list Interval) : result MemoryReachabilityStore :=
  match cs, intervals with
  | c :: cs, ci :: intervals => store ← set_interval store c ci; set_intervals store cs intervals
  | _, _ => Ok store
  end.
Fixpoint propagate_loop (sizes : gmap Hash u64) (fuel : nat) (queue : list Hash) store : result MemoryReachabilityStore :=
  match fuel with
  | O => NoFuel
  | S fuel =>
      match queue with
      | [] => Ok store
      | current :: queue =>
          cs ← get_children store current;
          if zlen cs =? 0 then propagate_loop sizes fuel queue store else
          ns ← res_mapM (fun c => unwrap (sizes !! c)) cs;
          i ← interval_children_capacity store current;
          intervals ← split_exponential i ns;
          store ← set_intervals store cs intervals;
          propagate_loop sizes fuel (queue ++ cs) store
      end
  end.
Definition propagate_interval ctx block : result ReindexOperationContext :=
  ctx ← count_subtrees ctx block;
  store ← propagate_loop (subtree_sizes ctx) (fuel_of (ctx_store ctx)) [block] (ctx_store ctx);
  Ok (with_store ctx store).

Abbreviation interval_op := (Interval -> u64 -> result Interval).
Definition apply_interval_op ctx block (offset : u64) (op : interval_op) : result ReindexOperationContext :=
  i ← get_interval (ctx_store ctx) block; i ← op i offset; ctx_set_interval ctx block i.
Definition apply_interval_op_and_propagate ctx block (offset : u64) (op : interval_op) : result ReindexOperationContext :=
  ctx ← apply_interval_op ctx block offset op; propagate_interval ctx block.

(** The blocks before and after [pivot]. *)
Fixpoint split_children (cs : list Hash) (pivot : Hash) : result (list Hash * list Hash) :=
  match cs with
  | [] => Err DataInconsistency
  | c :: cs =>
      if decide (c = pivot) then Ok ([], cs) else
      '(before, after) ← split_children cs pivot; Ok (c :: before, after)
  end.

(** The two loops over siblings differ only in direction and operations. *)
Fixpoint offset_siblings (final other : interval_op) (allocation_block : Hash) (offset : u64) (siblings : list Hash) ctx :
    result ReindexOperationContext :=
  match siblings with
  | [] => Ok ctx
  | sibling :: siblings =>
      if decide (sibling = allocation_block)
      then apply_interval_op_and_propagate ctx allocation_block offset final
      else
        ctx ← apply_interval_op_and_propagate ctx sibling offset other;
        offset_siblings final other allocation_block offset siblings ctx
  end.
Definition offset_siblings_before ctx (allocation_block current : Hash) (offset : u64) : result ReindexOperationContext :=
  p ← get_parent (ctx_store ctx) current;
  cs ← get_children (ctx_store ctx) p;
  '(siblings_before, _) ← split_children cs current;
  offset_siblings increase_end increase allocation_block offset (rev siblings_before) ctx.
Definition offset_siblings_after ctx (allocation_block current : Hash) (offset : u64) : result ReindexOperationContext :=
  p ← get_parent (ctx_store ctx) current;
  cs ← get_children (ctx_store ctx) p;
  '(_, siblings_after) ← split_children cs current;
  offset_siblings decrease_start decrease allocation_block offset siblings_after ctx.

(** *** Reclaiming slack along the chain to the reindex root

    [reclaim_interval_before] and [reclaim_interval_after] are the same code up
    to the side on which slack is taken: [remaining] reads the slack of a block,
    [op] shrinks a block on that side, [offset_sibs] moves the siblings. *)
Section reclaim.
Context (remaining : MemoryReachabilityStore -> Hash -> result Interval) (op : interval_op)
  (offset_sibs : ReindexOperationContext -> Hash -> Hash -> u64 -> result ReindexOperationContext).
Context (allocation_block common_ancestor root : Hash) (required_allocation : u64).

(** The walk from the chosen child to the reindex root, until enough slack is
    found; returns the block it stopped at and the slack to leave below. *)
Fixpoint reclaim_up (fuel : nat) ctx (current : Hash) (slack_sum path_len : u64) :
    result (ReindexOperationContext * Hash * u64) :=
  match fuel with
  | O => NoFuel
  | S fuel =>
      if decide (current = root) then
        fresh ← u64_mul (slack ctx) path_len;
        offset ← u64_add required_allocation fresh; offset ← u64_sub offset slack_sum;
        ctx ← apply_interval_op_and_propagate ctx current offset op;
        ctx ← offset_sibs ctx allocation_block current offset;
        Ok (ctx, current, slack ctx)
      else
        r ← remaining (ctx_store ctx) current; slack_here ← iv_size r;
        slack_sum ← u64_add slack_sum slack_here;
        if required_allocation <=? slack_sum then
          extra ← u64_sub slack_sum required_allocation; offset ← u64_sub slack_here extra;
          ctx ← apply_interval_op ctx current offset op;
          ctx ← offset_sibs ctx allocation_block current offset;
          Ok (ctx, current, 0)
        else
          next ← get_next_chain_ancestor_unchecked (ctx_store ctx) root current;
          path_len ← u64_add path_len 1;
          reclaim_up fuel ctx next slack_sum path_len
  end.
(** Back to the common ancestor. *)
Fixpoint reclaim_down (fuel : nat) (path_slack_alloc : u64) ctx (current : Hash) : result ReindexOperationContext :=
  match fuel with
  | O => NoFuel
  | S fuel =>
      current ← get_parent (ctx_store ctx) current;
      if decide (current = common_ancestor) then Ok ctx else
      r ← remaining (ctx_store ctx) current; slack_here ← iv_size r;
      offset ← u64_sub slack_here path_slack_alloc;
      ctx ← apply_interval_op ctx current offset op;
      ctx ← offset_sibs ctx allocation_block current offset;
      reclaim_down fuel path_slack_alloc ctx current
  end.
Definition reclaim_interval ctx (chosen_child : Hash) : result ReindexOperationContext :=
  '(ctx, current, path_slack_alloc) ← reclaim_up (fuel_of (ctx_store ctx)) ctx chosen_child 0 0;
  reclaim_down (fuel_of (ctx_store ctx)) path_slack_alloc ctx current.
End reclaim.

Definition reclaim_interval_before ctx (allocation_block common_ancestor chosen_child root : Hash) (required_allocation : u64) :=
  reclaim_interval interval_remaining_before increase_start offset_siblings_before
    allocation_block common_ancestor root required_allocation ctx chosen_child.
Definition reclaim_interval_after ctx (allocation_block common_ancestor chosen_child root : Hash) (required_allocation : u64) :=
  reclaim_interval interval_remaining_after decrease_end offset_siblings_after
    allocation_block common_ancestor root required_allocation ctx chosen_child.

Definition reindex_intervals_earlier_than_root ctx (allocation_block root common_ancestor : Hash) (required_allocation : u64) :
    result ReindexOperationContext :=
  chosen_child ← get_next_chain_ancestor_unchecked (ctx_store ctx) root common_ancestor;
  block_interval ← get_interval (ctx_store ctx) allocation_block;
  chosen_interval ← get_interval (ctx_store ctx) chosen_child;
  if iv_start block_interval <? iv_start chosen_interval
  then reclaim_interval_before ctx allocation_block common_ancestor chosen_child root required_allocation
  else reclaim_interval_after ctx allocation_block common_ancestor chosen_child root required_allocation.

Fixpoint reindex_loop (root : Hash) (fuel : nat) ctx (current : Hash) : result ReindexOperationContext :=
  match fuel with
  | O => NoFuel
  | S fuel =>
      current_interval ← get_interval (ctx_store ctx) current;
      ctx ← count_subtrees ctx current;
      sz ← iv_size current_interval; n ← subtree_size ctx current;
      if n <=? sz then propagate_interval ctx current else
      p ← get_parent (ctx_store ctx) current;
      if decide (p = NONE) then Err DataOverflow else
      if decide (current = root) then Err DataOverflow else
      strict ← is_strict_chain_ancestor_of (ctx_store ctx) p root;
      if strict : bool then reindex_intervals_earlier_than_root ctx current root p n
      else reindex_loop root fuel ctx p
  end.
Definition reindex_intervals ctx (new_child root : Hash) : result ReindexOperationContext :=
  reindex_loop root (fuel_of (ctx_store ctx)) ctx new_child.

(** *** Concentrating an interval on the chosen child *)
Fixpoint count_sizes ctx (blocks : list Hash) : result (ReindexOperationContext * list u64) :=
  match blocks with
  | [] => Ok (ctx, [])
  | block :: blocks =>
      ctx ← count_subtrees ctx block; n ← subtree_size ctx block;
      '(ctx, ns) ← count_sizes ctx blocks; Ok (ctx, n :: ns)
  end.
Fixpoint set_and_propagate ctx (cs : list Hash) (intervals : list Interval) : result ReindexOperationContext :=
  match cs, intervals with
  | c :: cs, ci :: intervals =>
      ctx ← ctx_set_interval ctx c ci; ctx ← propagate_interval ctx c;
      set_and_propagate ctx cs intervals
  | _, _ => Ok ctx
  end.
Definition tighten_intervals_before ctx (p : Hash) (children_before : list Hash) : result (ReindexOperationContext * u64) :=
  '(ctx, sizes) ← count_sizes ctx children_before;
  sum ← u64_sum sizes;
  i ← get_interval (ctx_store ctx) p;
  s ← u64_add (iv_start i) (slack ctx);
  e ← u64_add s sum; e ← u64_sub e 1;
  intervals ← split_exact (mkInterval s e) sizes;
  ctx ← set_and_propagate ctx children_before intervals;
  Ok (ctx, sum).
Definition tighten_intervals_after ctx (p : Hash) (children_after : list Hash) : result (ReindexOperationContext * u64) :=
  '(ctx, sizes) ← count_sizes ctx children_after;
  sum ← u64_sum sizes;
  i ← get_interval (ctx_store ctx) p;
  t ← u64_sub (iv_end i) (slack ctx);
  s ← u64_sub t sum; e ← u64_sub t 1;
  intervals ← split_exact (mkInterval s e) sizes;
  ctx ← set_and_propagate ctx children_after intervals;
  Ok (ctx, sum).
Definition expand_interval_to_chosen ctx (p child : Hash) (before_sum after_sum : u64) (is_final_reindex_root : bool) :
    result ReindexOperationContext :=
  i ← get_interval (ctx_store ctx) p;
  s ← u64_add (iv_start i) before_sum; s ← u64_add s (slack ctx);
  e ← u64_sub (iv_end i) after_sum; e ← u64_sub e (slack ctx); e ← u64_sub e 1;
  let allocation := mkInterval s e in
  current ← get_interval (ctx_store ctx) child;
  ctx ← (if is_final_reindex_root && negb (contains allocation current) then
           ns ← u64_add s (slack ctx); ne ← u64_sub e (slack ctx);
           ctx ← ctx_set_interval ctx child (mkInterval ns ne);
           propagate_interval ctx child
         else Ok ctx);
  ctx_set_interval ctx child allocation.
Definition concentrate_interval ctx (p child : Hash) (is_final_reindex_root : bool) : result ReindexOperationContext :=
  cs ← get_children (ctx_store ctx) p;
  '(siblings_before, siblings_after) ← split_children cs child;
  '(ctx, before_sum) ← tighten_intervals_before ctx p siblings_before;
  '(ctx, after_sum) ← tighten_intervals_after ctx p siblings_after;
  expand_interval_to_chosen ctx p child before_sum after_sum is_final_reindex_root.

(** ** Tree operations *)
Definition add_tree_block store (new_block p : Hash) (reindex_slack : u64) : result MemoryReachabilityStore :=
  remaining ← interval_remaining_after store p;
  store ← append_child store p new_block;
  parent_height ← get_height store p;
  full ← iv_is_empty remaining;
  h ← u64_add parent_height 1;
  if full : bool then
    store ← store_insert store new_block p remaining h;
    root ← get_reindex_root store;
    ctx ← reindex_intervals (context_new store reindex_slack) new_block root;
    Ok (ctx_store ctx)
  else
    '(allocated, _) ← split_half remaining;
    store_insert store new_block p allocated h.

Fixpoint common_ancestor_loop store (root : Hash) (fuel : nat) (current : Hash) : result Hash :=
  match fuel with
  | O => NoFuel
  | S fuel =>
      anc ← is_chain_ancestor_of store current root;
      if anc : bool then Ok current else
      p ← get_parent store current; common_ancestor_loop store root fuel p
  end.
Definition find_common_tree_ancestor store block (root : Hash) : result Hash :=
  common_ancestor_loop store root (fuel_of store) block.

Fixpoint next_root_loop store (hint : Hash) (hint_height reindex_depth : u64) (fuel : nat) (next : Hash) : result Hash :=
  match fuel with
  | O => NoFuel
  | S fuel =>
      child ← get_next_chain_ancestor_unchecked store hint next;
      child_height ← get_height store child;
      if hint_height <? child_height then Err DataInconsistency else
      if hint_height - child_height <? reindex_depth then Ok next else
      next_root_loop store hint hint_height reindex_depth fuel child
  end.
Definition find_next_reindex_root store (current hint : Hash) (reindex_depth reindex_slack : u64) : result (Hash * Hash) :=
  hint_height ← get_height store hint;
  anc ← is_chain_ancestor_of store current hint;
  if negb anc then
    current_height ← get_height store current;
    if (hint_height <? current_height) || (hint_height - current_height <? reindex_slack) then Ok (current, current) else
    common ← find_common_tree_ancestor store hint current;
    next ← next_root_loop store hint hint_height reindex_depth (fuel_of store) common;
    Ok (common, next)
  else
    next ← next_root_loop store hint hint_height reindex_depth (fuel_of store) current;
    Ok (current, next).

Fixpoint concentrate_loop (reindex_slack : u64) (next : Hash) (fuel : nat) (ancestor : Hash) store : result MemoryReachabilityStore :=
  match fuel with
  | O => NoFuel
  | S fuel =>
      if decide (ancestor = next) then Ok store else
      child ← get_next_chain_ancestor_unchecked store next ancestor;
      ctx ← concentrate_interval (context_new store reindex_slack) ancestor child (bool_decide (child = next));
      concentrate_loop reindex_slack next fuel child (ctx_store ctx)
  end.
Definition try_advancing_reindex_root store (hint : Hash) (reindex_depth reindex_slack : u64) : result MemoryReachabilityStore :=
  current ← get_reindex_root store;
  '(ancestor, next) ← find_next_reindex_root store current hint reindex_depth reindex_slack;
  if decide (current = next) then Ok store else
  store ← concentrate_loop reindex_slack next (fuel_of store) ancestor store;
  Ok (set_reindex_root store next).

(** ** Adding and deleting blocks *)
Definition DEFAULT_REINDEX_DEPTH : u64 := 100.
Definition DEFAULT_REINDEX_SLACK : u64 := Z.shiftl 1 14.

Definition init_with_params store (origin : Hash) (capacity : Interval) : result MemoryReachabilityStore :=
  if store_has store origin then Ok store else store_init store origin capacity.
Definition init store : result MemoryReachabilityStore := init_with_params store ORIGIN maximal.

Definition insert_to_future_covering_set store (merged_block new_block : Hash) : result MemoryReachabilityStore :=
  fcs ← get_future_covering_set store merged_block;
  out ← binary_search_descendant store fcs new_block;
  match out with
  | Found _ _ => Err DataInconsistency
  | NotFound i => insert_future_covering_item store merged_block new_block i
  end.
Definition add_dag_block store (new_block : Hash) (mergeset : list Hash) : result MemoryReachabilityStore :=
  res_foldl (fun store merged_block => insert_to_future_covering_set store merged_block new_block) store mergeset.
Definition add_block_with_params store (new_block selected_parent : Hash) (mergeset : list Hash) (reindex_slack : option u64) :
    result MemoryReachabilityStore :=
  store ← add_tree_block store new_block selected_parent (default DEFAULT_REINDEX_SLACK reindex_slack);
  add_dag_block store new_block mergeset.
Definition add_block store (new_block selected_parent : Hash) (mergeset : list Hash) : result MemoryReachabilityStore :=
  add_block_with_params store new_block selected_parent mergeset None.
Definition hint_virtual_selected_parent store (hint : Hash) : result MemoryReachabilityStore :=
  try_advancing_reindex_root store hint DEFAULT_REINDEX_DEPTH DEFAULT_REINDEX_SLACK.

Definition delete_block store block (mergeset : list Hash) : result MemoryReachabilityStore :=
  i ← get_interval store block;
  p ← get_parent store block;
  cs ← get_children store block;
  siblings ← get_children store p;
  out ← binary_search_descendant store siblings block;
  block_index ← match out with NotFound _ => Err DataInconsistency | Found _ i => Ok i end;
  store ← replace_child store p block_index cs;
  store ← res_foldl (fun store child => set_parent store child p) store cs;
  store ← res_foldl (fun store merged_block =>
      fcs ← get_future_covering_set store merged_block;
      out ← binary_search_descendant store fcs block;
      match out with
      | NotFound _ => Err DataInconsistency
      | Found _ i => replace_future_covering_item store merged_block i cs
      end) store mergeset;
  store ← match cs with
    | [] =>
        match block_index with
        | O => Ok store
        | S k =>
            siblings ← get_children store p;
            sibling ← unwrap (siblings !! k);
            sibling_interval ← get_interval store sibling;
            set_interval store sibling (mkInterval (iv_start sibling_interval) (iv_end i))
        end
    | [child] => set_interval store child i
    | first_child :: _ =>
        first_interval ← get_interval store first_child;
        store ← set_interval store first_child (mkInterval (iv_start i) (iv_end first_interval));
        last_child ← unwrap (last cs);
        last_interval ← get_interval store last_child;
        set_interval store last_child (mkInterval (iv_start last_interval) (iv_end i))
    end;
  Ok (store_delete store block).
