(* ===== verification/ReachTree.v ===== *)
(** * Correctness of the reachability queries

    The invariant of the reachability tree: parents, children and heights agree
    ([tree_ok]), and the interval of a block strictly contains the ordered,
    disjoint and non-empty intervals of its children ([alloc_ok]).  Under it
    interval containment is tree ancestry, the binary search over an ordered
    list of disjoint subtrees finds the one that holds a block, and the future
    covering sets answer the DAG queries. *)

From S2P Require Import Prelude Search Interval Reachability.

Abbreviation RMap := (gmap Hash MemoryReachabilityData).
Implicit Types (m : RMap) (h a b c p x y r : Hash) (d : MemoryReachabilityData).

(** ** Tree structure *)
Record tree_ok r m : Prop := {
  to_root : exists d, m !! r = Some d /\ parent d = NONE;
  to_none : m !! NONE = None;
  to_child h d c : m !! h = Some d -> c ∈ children d ->
    exists dc, m !! c = Some dc /\ parent dc = h /\ height d < height dc;
  to_parent h d : m !! h = Some d -> h <> r -> exists dp, m !! parent d = Some dp /\ h ∈ children dp;
  to_nodup h d : m !! h = Some d -> NoDup (children d);
  to_height h d : m !! h = Some d -> 0 <= height d;
}.

(** [a] is [b] or a tree ancestor of [b]. *)
Inductive tanc m a : Hash -> Prop :=
| tanc_refl d : m !! a = Some d -> tanc m a a
| tanc_step p dp c : tanc m a p -> m !! p = Some dp -> c ∈ children dp -> tanc m a c.

Section structure.
Context {r m} (T : tree_ok r m).

Lemma tanc_dom a b : tanc m a b -> (exists d, m !! a = Some d) /\ (exists d, m !! b = Some d).
Proof.
  induction 1 as [d Ha|p dp c Hp [IH1 IH2] Hpd Hc]; [by eauto|]. split; [done|].
  destruct (to_child _ _ T _ _ _ Hpd Hc) as (dc & Hdc & _). eauto.
Qed.
Lemma tanc_trans a b c : tanc m a b -> tanc m b c -> tanc m a c.
Proof. intros Hab. induction 1 as [|p dp c Hp IH Hpd Hc]; [done|]. by eapply tanc_step. Qed.
Lemma tanc_child p dp c : m !! p = Some dp -> c ∈ children dp -> tanc m p c.
Proof. intros Hp Hc. eapply tanc_step; [by eapply tanc_refl|done|done]. Qed.

Lemma tanc_height a b da db : tanc m a b -> m !! a = Some da -> m !! b = Some db -> a = b \/ height da < height db.
Proof.
  intros H Ha. revert db. induction H as [d Ha'|p dp c Hp IH Hpd Hc]; intros db Hb; [by left|]. right.
  destruct (to_child _ _ T _ _ _ Hpd Hc) as (dc & Hdc & _ & Hh). simplify_eq.
  destruct (IH dp Hpd) as [->|Hlt]; [by simplify_eq|lia].
Qed.
Lemma tanc_antisym a b : tanc m a b -> tanc m b a -> a = b.
Proof.
  intros Hab Hba. destruct (tanc_dom _ _ Hab) as [[da Ha] [db Hb]].
  destruct (tanc_height _ _ _ _ Hab Ha Hb) as [->|H1]; [done|].
  destruct (tanc_height _ _ _ _ Hba Hb Ha) as [->|H2]; [done|lia].
Qed.

(** The parent of a child is unique. *)
Lemma child_parent p dp p' dp' c : m !! p = Some dp -> c ∈ children dp -> m !! p' = Some dp' -> c ∈ children dp' -> p = p'.
Proof.
  intros Hp Hc Hp' Hc'. destruct (to_child _ _ T _ _ _ Hp Hc) as (d1 & H1 & <- & _).
  destruct (to_child _ _ T _ _ _ Hp' Hc') as (d2 & H2 & <- & _). by simplify_eq.
Qed.

(** Ancestry, seen from the top and from the bottom. *)
Lemma tanc_inv a b : tanc m a b -> a = b \/ exists p dp, m !! p = Some dp /\ b ∈ children dp /\ tanc m a p.
Proof. destruct 1; [by left|right; eauto]. Qed.
Lemma tanc_top a b da : tanc m a b -> m !! a = Some da -> a = b \/ exists c, c ∈ children da /\ tanc m c b.
Proof.
  intros H Ha. induction H as [|p dp c Hp IH Hpd Hc]; [by left|]. right.
  destruct IH as [->|(c' & Hc' & Ht)].
  - simplify_eq. exists c. split; [done|]. destruct (to_child _ _ T _ _ _ Hpd Hc) as (dc & Hdc & _). by eapply tanc_refl.
  - exists c'. split; [done|]. by eapply tanc_step.
Qed.

(** Every block descends from the root. *)
Lemma tanc_root h d : m !! h = Some d -> tanc m r h.
Proof.
  assert (forall n h d, m !! h = Some d -> (Z.to_nat (height d) < n)%nat -> tanc m r h) as H.
  { induction n as [|n IH]; intros h' d' Hh Hn; [lia|].
    destruct (decide (h' = r)) as [->|Hne]; [by eapply tanc_refl|].
    destruct (to_parent _ _ T _ _ Hh Hne) as (dp & Hp & Hc).
    destruct (to_child _ _ T _ _ _ Hp Hc) as (dc & Hdc & _ & Hlt). simplify_eq.
    pose proof (to_height _ _ T _ _ Hp). pose proof (to_height _ _ T _ _ Hh).
    eapply tanc_step; [apply (IH _ dp Hp); lia|done|done]. }
  intros Hh. eapply (H (S (Z.to_nat (height d)))); [done|lia].
Qed.
End structure.

(** ** Allocation of intervals *)
Definition start_of (d : MemoryReachabilityData) : Z := iv_start (interval d).
Definition end_of (d : MemoryReachabilityData) : Z := iv_end (interval d).

(** The blocks [cs] have non-empty, increasing and disjoint intervals in [lo..hi]. *)
Fixpoint fits m (lo hi : Z) (cs : list Hash) : Prop :=
  match cs with
  | [] => lo <= hi + 1
  | c :: cs => exists d, m !! c = Some d /\ lo <= start_of d <= end_of d /\ end_of d <= hi /\ fits m (end_of d + 1) hi cs
  end.
Definition node_ok m d : Prop := 1 <= start_of d <= end_of d /\ end_of d < 2 ^ 64 - 1 /\
  fits m (start_of d) (end_of d - 1) (children d).
Definition alloc_ok m : Prop := forall h d, m !! h = Some d -> node_ok m d.

Lemma fits_bounds m lo hi cs : fits m lo hi cs -> lo <= hi + 1.
Proof.
  revert lo. induction cs as [|c cs IH]; intros lo; [done|]. simpl. intros (d & _ & H1 & H2 & Hf). lia.
Qed.
Lemma fits_elem m lo hi cs c : fits m lo hi cs -> c ∈ cs ->
  exists d, m !! c = Some d /\ lo <= start_of d <= end_of d /\ end_of d <= hi.
Proof.
  revert lo. induction cs as [|c' cs IH]; intros lo; simpl; [by intros _ ?%elem_of_nil|].
  intros (d & Hd & H1 & H2 & Hf) [->|Hc]%elem_of_cons; [by exists d|].
  destruct (IH _ Hf Hc) as (d' & Hd' & H3 & H4). exists d'. split; [done|lia].
Qed.
(** Two different members are disjoint. *)
Lemma fits_disjoint m lo hi cs c c' d d' : fits m lo hi cs -> c ∈ cs -> c' ∈ cs -> c <> c' ->
  m !! c = Some d -> m !! c' = Some d' -> end_of d < start_of d' \/ end_of d' < start_of d.
Proof.
  revert lo. induction cs as [|c1 cs IH]; intros lo; simpl; [by intros _ ?%elem_of_nil|].
  intros (d1 & Hd1 & H1 & H2 & Hf) [->|Hc]%elem_of_cons [->|Hc']%elem_of_cons Hne Hd Hd'; [done|..|by eapply IH].
  - destruct (fits_elem _ _ _ _ _ Hf Hc') as (d2 & Hd2 & H3 & _). simplify_eq. lia.
  - destruct (fits_elem _ _ _ _ _ Hf Hc) as (d2 & Hd2 & H3 & _). simplify_eq. lia.
Qed.

Section alloc.
Context {r m} (T : tree_ok r m) (A : alloc_ok m).

Lemma child_within p dp c dc : m !! p = Some dp -> c ∈ children dp -> m !! c = Some dc ->
  start_of dp <= start_of dc /\ end_of dc < end_of dp.
Proof.
  intros Hp Hc Hdc. destruct (A _ _ Hp) as (_ & _ & Hf).
  destruct (fits_elem _ _ _ _ _ Hf Hc) as (d & Hd & H1 & H2). simplify_eq. lia.
Qed.
Lemma tanc_within a b da db : tanc m a b -> m !! a = Some da -> m !! b = Some db ->
  start_of da <= start_of db /\ (a = b \/ end_of db < end_of da).
Proof.
  intros H Ha. revert db. induction H as [d Hd|p dp c Hp IH Hpd Hc]; intros db Hb.
  - simplify_eq. split; [lia|by left].
  - destruct (IH dp Hpd) as [H1 H2]. destruct (child_within _ _ _ _ Hpd Hc Hb) as [H3 H4].
    split; [lia|]. right. destruct H2 as [->|]; [by simplify_eq|lia].
Qed.
Lemma tanc_within_le a b da db : tanc m a b -> m !! a = Some da -> m !! b = Some db ->
  start_of da <= start_of db /\ end_of db <= end_of da.
Proof. intros H Ha Hb. destruct (tanc_within _ _ _ _ H Ha Hb) as [H1 [->|H2]]; simplify_eq; lia. Qed.

(** Two blocks are related or have disjoint intervals. *)
Lemma laminar x y dx dy : m !! x = Some dx -> m !! y = Some dy ->
  tanc m x y \/ tanc m y x \/ end_of dx < start_of dy \/ end_of dy < start_of dx.
Proof.
  intros Hx Hy. pose proof (tanc_root T _ _ Hx) as Hr. revert dx Hx.
  induction Hr as [d Hd|p dp c Hp IH Hpd Hc]; intros dx Hx; [left; by eapply (tanc_root T)|].
  destruct (child_within _ _ _ _ Hpd Hc Hx) as [Hin1 Hin2].
  destruct (IH dp Hpd) as [Hpy|[Hyp|Hdis]].
  - destruct (tanc_top T _ _ _ Hpy Hpd) as [<-|(c' & Hc' & Ht)]; [right; left; by eapply tanc_child|].
    destruct (decide (c = c')) as [<-|Hne]; [by left|].
    destruct (tanc_dom T _ _ Ht) as [[dc' Hdc'] _]. destruct (A _ _ Hpd) as (_ & _ & Hf).
    pose proof (tanc_within_le _ _ _ _ Ht Hdc' Hy).
    pose proof (fits_disjoint _ _ _ _ _ _ _ _ Hf Hc Hc' Hne Hx Hdc'). lia.
  - right. left. by eapply tanc_step.
  - right. right. lia.
Qed.

Lemma contains_tanc a b da db : m !! a = Some da -> m !! b = Some db ->
  contains (interval da) (interval db) = true <-> tanc m a b.
Proof.
  intros Ha Hb. unfold contains. rewrite andb_true_iff, !Z.leb_le.
  destruct (A _ _ Ha) as [Hna _]. destruct (A _ _ Hb) as [Hnb _]. unfold start_of, end_of in *. split.
  - intros [H1 H2]. destruct (laminar _ _ _ _ Ha Hb) as [H|[H|H]]; [done| |unfold start_of, end_of in H; lia].
    destruct (tanc_within _ _ _ _ H Hb Ha) as [_ [->|H3]]; [done|]. unfold end_of in H3. lia.
  - intros H. apply (tanc_within_le _ _ _ _ H Ha Hb).
Qed.
Lemma strictly_contains_tanc a b da db : m !! a = Some da -> m !! b = Some db ->
  strictly_contains (interval da) (interval db) = true <-> tanc m a b /\ a <> b.
Proof.
  intros Ha Hb. rewrite <- (contains_tanc _ _ _ _ Ha Hb). unfold contains, strictly_contains.
  rewrite !andb_true_iff, !Z.leb_le, Z.ltb_lt. split.
  - intros [H1 H2]. split; [lia|]. intros ->. simplify_eq. lia.
  - intros [[H1 H2] Hne]. split; [done|]. destruct (contains_tanc _ _ _ _ Ha Hb) as [Hc _].
    unfold contains in Hc. rewrite andb_true_iff, !Z.leb_le in Hc.
    destruct (tanc_within _ _ _ _ (Hc (conj H1 H2)) Ha Hb) as [_ [->|H3]]; [done|exact H3].
Qed.
End alloc.

(** ** Reads of the store *)
Section reads.
Context (s : MemoryReachabilityStore).
Abbreviation M := (reach_map s).

Lemma get_data_ok h d : M !! h = Some d -> get_data s h = Ok d.
Proof. unfold get_data. by intros ->. Qed.
Lemma get_interval_ok h d : M !! h = Some d -> get_interval s h = Ok (interval d).
Proof. intros H. unfold get_interval. by rewrite (get_data_ok _ _ H). Qed.
Lemma get_parent_ok h d : M !! h = Some d -> get_parent s h = Ok (parent d).
Proof. intros H. unfold get_parent. by rewrite (get_data_ok _ _ H). Qed.
Lemma get_children_ok h d : M !! h = Some d -> get_children s h = Ok (children d).
Proof. intros H. unfold get_children. by rewrite (get_data_ok _ _ H). Qed.
Lemma get_height_ok h d : M !! h = Some d -> get_height s h = Ok (height d).
Proof. intros H. unfold get_height. by rewrite (get_data_ok _ _ H). Qed.
Lemma get_fcs_ok h d : M !! h = Some d -> get_future_covering_set s h = Ok (future_covering_set d).
Proof. intros H. unfold get_future_covering_set. by rewrite (get_data_ok _ _ H). Qed.
Lemma set_interval_ok h d i : M !! h = Some d -> set_interval s h i = Ok (set_data s h (with_interval d i)).
Proof. intros H. unfold set_interval. by rewrite (get_data_ok _ _ H). Qed.
Lemma is_chain_ancestor_eval a b da db : M !! a = Some da -> M !! b = Some db ->
  is_chain_ancestor_of s a b = Ok (contains (interval da) (interval db)).
Proof. intros Ha Hb. unfold is_chain_ancestor_of. by rewrite (get_interval_ok _ _ Ha), (get_interval_ok _ _ Hb). Qed.
Lemma is_strict_chain_ancestor_eval a b da db : M !! a = Some da -> M !! b = Some db ->
  is_strict_chain_ancestor_of s a b = Ok (strictly_contains (interval da) (interval db)).
Proof. intros Ha Hb. unfold is_strict_chain_ancestor_of. by rewrite (get_interval_ok _ _ Ha), (get_interval_ok _ _ Hb). Qed.
End reads.
Hint Rewrite get_data_ok get_interval_ok get_parent_ok get_children_ok get_height_ok get_fcs_ok using eassumption : res.

(** *** Ordered lists of disjoint subtrees *)
Definition start_at m (l : list Hash) (i : nat) : Z :=
  match l !! i with Some h => match m !! h with Some d => start_of d | None => 0 end | None => 0 end.
Lemma fits_lookup m lo hi l i h : fits m lo hi l -> l !! i = Some h -> exists d, m !! h = Some d /\ start_at m l i = start_of d /\
  lo <= start_of d <= end_of d /\ end_of d <= hi.
Proof.
  intros Hf Hi. destruct (fits_elem _ _ _ _ h Hf) as (d & Hd & H); [by eapply list_elem_of_lookup_2|].
  exists d. split; [done|]. split; [|done]. unfold start_at. by rewrite Hi, Hd.
Qed.
Lemma fits_before m lo hi l : forall i j h h' d d', fits m lo hi l -> (i < j)%nat -> l !! i = Some h -> l !! j = Some h' ->
  m !! h = Some d -> m !! h' = Some d' -> end_of d < start_of d'.
Proof.
  revert lo. induction l as [|c l IH]; intros lo i j h h' d d' Hf Hij Hi Hj Hd Hd'; [done|].
  destruct Hf as (dc & Hdc & H1 & H2 & Hf). destruct j as [|j]; [lia|]. destruct i as [|i].
  - injection Hi as ->. destruct (fits_elem _ _ _ _ h' Hf) as (d2 & Hd2 & H3); [by eapply list_elem_of_lookup_2|].
    simplify_eq. lia.
  - by apply (IH _ i j h h' d d' Hf); [lia|..].
Qed.

Section search.
Context {r} (s : MemoryReachabilityStore).
Abbreviation M := (reach_map s).
Context (T : tree_ok r M) (A : alloc_ok M).

(** What the search in an ordered list of disjoint blocks returns. *)
Definition search_spec (l : list Hash) (y : Hash) (point : Z) (out : SearchOutput) : Prop :=
  match out with
  | Found h i => l !! i = Some h /\ tanc M h y
  | NotFound i => (forall h, h ∈ l -> ~ tanc M h y) /\ (i <= length l)%nat /\
      (forall j, (j < i)%nat -> start_at M l j < point) /\
      (forall j, (i <= j < length l)%nat -> point < start_at M l j)
  end.

Lemma binary_search_descendant_ok lo hi l y dy : fits M lo hi l -> M !! y = Some dy ->
  exists out, binary_search_descendant s l y = Ok out /\ search_spec l y (end_of dy) out.
Proof.
  intros Hf Hy. destruct (A _ _ Hy) as [Hny _].
  unfold binary_search_descendant. rewrite (get_interval_ok s _ _ Hy). cbn [mbind res_bind]. cbv zeta.
  destruct (binary_search_ok (E:=ReachabilityError) (fun c : Hash => unwrap_res (i ← get_interval s c; Ok (iv_start i))) l
    (start_at M l) (iv_end (interval dy))) as (out & -> & Hout).
  { intros i x Hx. destruct (fits_lookup _ _ _ _ _ _ Hf Hx) as (d & Hd & -> & _). by rewrite (get_interval_ok s _ _ Hd). }
  { intros i j Hij. destruct (lookup_lt_is_Some_2 l i) as [a Ha]; [lia|]. destruct (lookup_lt_is_Some_2 l j) as [b Hb]; [lia|].
    destruct (fits_lookup _ _ _ _ _ _ Hf Ha) as (da & Hda & -> & Hda' & _).
    destruct (fits_lookup _ _ _ _ _ _ Hf Hb) as (db & Hdb & -> & _).
    pose proof (fits_before _ _ _ _ i j _ _ _ _ Hf ltac:(lia) Ha Hb Hda Hdb). lia. }
  cbn [mbind res_bind]. fold (end_of dy) in *. destruct out as [i|[|i]].
  - destruct Hout as [Hi Hk]. destruct (lookup_lt_is_Some_2 l i Hi) as [h Hh]. rewrite Hh. cbn [unwrap mbind res_bind].
    eexists. split; [done|]. split; [done|]. destruct (fits_lookup _ _ _ _ _ _ Hf Hh) as (d & Hd & Hs & Hn & _).
    destruct (laminar T A _ _ _ _ Hd Hy) as [H|[H|H]]; [done| |lia].
    destruct (tanc_within A _ _ _ _ H Hy Hd) as [_ [->|H3]]; [done|lia].
  - eexists. split; [done|]. destruct Hout as (_ & _ & Hhi). split; [|split; [lia|split; [intros; lia|done]]].
    intros h [j Hj]%list_elem_of_lookup Ht. destruct (fits_lookup _ _ _ _ _ _ Hf Hj) as (d & Hd & Hs & _).
    pose proof (Hhi j ltac:(apply lookup_lt_Some in Hj; lia)).
    pose proof (tanc_within_le A _ _ _ _ Ht Hd Hy). lia.
  - destruct Hout as (Hi & Hlo & Hhi). destruct (lookup_lt_is_Some_2 l i) as [h Hh]; [lia|]. rewrite Hh.
    cbn [unwrap mbind res_bind]. destruct (fits_lookup _ _ _ _ _ _ Hf Hh) as (d & Hd & Hs & Hn & _).
    rewrite (is_chain_ancestor_eval s _ _ _ _ Hd Hy). cbn [mbind res_bind].
    eexists. split; [done|]. destruct (contains (interval d) (interval dy)) eqn:Hc.
    + split; [done|]. by apply (contains_tanc T A _ _ _ _ Hd Hy).
    + split; [|split; [done|split; [done|done]]]. intros h' [j Hj]%list_elem_of_lookup Ht.
      destruct (fits_lookup _ _ _ _ _ _ Hf Hj) as (d' & Hd' & Hs' & _).
      pose proof (tanc_within_le A _ _ _ _ Ht Hd' Hy).
      destruct (decide (j = i)) as [->|Hne].
      { simplify_eq. apply (contains_tanc T A _ _ _ _ Hd Hy) in Ht. congruence. }
      destruct (decide (j < i)%nat).
      { pose proof (fits_before _ _ _ _ j i _ _ _ _ Hf ltac:(lia) Hj Hh Hd' Hd). pose proof (Hlo i ltac:(lia)). lia. }
      pose proof (Hhi j ltac:(apply lookup_lt_Some in Hj; lia)). lia.
Qed.
End search.
