(* ===== verification/Reindex.v ===== *)
(** * Correctness of reindexing

    The subtree counts and the propagation of an interval over a subtree
    ([consensus/src/processes/reachability/reindex.rs]): the queue-based counting
    computes the size of every subtree, and the propagation gives every block of
    the subtree a legal interval without touching any other block. *)

From S2P Require Import Prelude Interval Reachability ReachTree.

Implicit Types (m : RMap) (h a b c p x y r q : Hash) (d : MemoryReachabilityData).

(** ** Stores that differ only in intervals *)
Definition same_shape m m' : Prop := forall h,
  match m !! h, m' !! h with
  | Some d, Some d' => d' = with_interval d (interval d')
  | None, None => True
  | _, _ => False
  end.

Lemma same_shape_refl m : same_shape m m.
Proof. intros h. destruct (m !! h) as [[]|]; done. Qed.
Lemma same_shape_trans m1 m2 m3 : same_shape m1 m2 -> same_shape m2 m3 -> same_shape m1 m3.
Proof.
  intros H1 H2 h. specialize (H1 h). specialize (H2 h).
  destruct (m1 !! h), (m2 !! h), (m3 !! h); try done. by rewrite H2, H1.
Qed.
Lemma same_shape_lookup m m' h d : same_shape m m' -> m !! h = Some d ->
  exists d', m' !! h = Some d' /\ children d' = children d /\ parent d' = parent d /\ height d' = height d /\
    future_covering_set d' = future_covering_set d.
Proof.
  intros Hs Hh. specialize (Hs h). rewrite Hh in Hs. destruct (m' !! h) as [d'|]; [|done].
  exists d'. rewrite Hs. done.
Qed.
Lemma same_shape_sym m m' : same_shape m m' -> same_shape m' m.
Proof.
  intros Hs h. specialize (Hs h). destruct (m !! h) as [d|], (m' !! h) as [d'|]; try done.
  rewrite Hs. by destruct d.
Qed.
Lemma same_shape_set m h d i : m !! h = Some d -> same_shape m (<[h := with_interval d i]> m).
Proof.
  intros Hh x. destruct (decide (x = h)) as [->|Hne].
  - by rewrite lookup_insert_eq, Hh.
  - rewrite lookup_insert_ne by done. destruct (m !! x) as [[]|]; done.
Qed.

Lemma same_shape_tanc m m' a b : same_shape m m' -> tanc m a b -> tanc m' a b.
Proof.
  intros Hs. induction 1 as [d Ha|p dp c Hp IH Hpd Hc].
  - destruct (same_shape_lookup _ _ _ _ Hs Ha) as (d' & Hd' & _). by eapply tanc_refl.
  - destruct (same_shape_lookup _ _ _ _ Hs Hpd) as (d' & Hd' & Hcs & _). eapply tanc_step; [done|done|by rewrite Hcs].
Qed.
Lemma same_shape_tree r m m' : same_shape m m' -> tree_ok r m -> tree_ok r m'.
Proof.
  intros Hs T. pose proof (same_shape_sym _ _ Hs) as Hs'. split.
  - destruct (to_root _ _ T) as (d & Hd & Hp). destruct (same_shape_lookup _ _ _ _ Hs Hd) as (d' & Hd' & _ & Hp' & _).
    exists d'. by rewrite Hp'.
  - specialize (Hs NONE). rewrite (to_none _ _ T) in Hs. by destruct (m' !! NONE).
  - intros h d' c Hd' Hc. destruct (same_shape_lookup _ _ _ _ Hs' Hd') as (d & Hd & Hcs & _ & Hh & _).
    rewrite <- Hcs in Hc. destruct (to_child _ _ T _ _ _ Hd Hc) as (dc & Hdc & Hp & Hlt).
    destruct (same_shape_lookup _ _ _ _ Hs Hdc) as (dc' & Hdc' & _ & Hp' & Hh' & _).
    exists dc'. split; [done|]. split; [by rewrite Hp'|]. lia.
  - intros h d' Hd' Hne. destruct (same_shape_lookup _ _ _ _ Hs' Hd') as (d & Hd & _ & Hp & _).
    destruct (to_parent _ _ T _ _ Hd Hne) as (dp & Hdp & Hin).
    destruct (same_shape_lookup _ _ _ _ Hs Hdp) as (dp' & Hdp' & Hcs & _).
    exists dp'. rewrite <- Hp. split; [done|]. by rewrite Hcs.
  - intros h d' Hd'. destruct (same_shape_lookup _ _ _ _ Hs' Hd') as (d & Hd & Hcs & _). rewrite <- Hcs. by eapply (to_nodup _ _ T).
  - intros h d' Hd'. destruct (same_shape_lookup _ _ _ _ Hs' Hd') as (d & Hd & _ & _ & Hh & _). rewrite <- Hh. by eapply (to_height _ _ T).
Qed.

(** ** Subtrees *)
Lemma tanc_dec {r m} (T : tree_ok r m) a b : {tanc m a b} + {~ tanc m a b}.
Proof.
  assert (forall n b, (forall d, m !! b = Some d -> Z.to_nat (height d) < n)%nat -> {tanc m a b} + {~ tanc m a b}) as H.
  { induction n as [|n IH]; intros b' Hn.
    - right. intros Ht. destruct (tanc_dom T _ _ Ht) as [_ [d Hd]]. specialize (Hn _ Hd). lia.
    - destruct (m !! b') as [d|] eqn:Hb; [|right; intros Ht; destruct (tanc_dom T _ _ Ht) as [_ [d Hd]]; congruence].
      destruct (decide (a = b')) as [->|Hne]; [left; by eapply tanc_refl|].
      destruct (decide (b' = r)) as [->|Hr].
      + right. intros Ht. destruct (tanc_dom T _ _ Ht) as [[da Ha] _].
        pose proof (tanc_antisym T _ _ Ht (tanc_root T _ _ Ha)). done.
      + destruct (IH (parent d)) as [Ht|Ht].
        * intros dp Hdp. destruct (to_parent _ _ T _ _ Hb Hr) as (dp' & Hdp' & Hin).
          destruct (to_child _ _ T _ _ _ Hdp' Hin) as (dc & Hdc & _ & Hlt). simplify_eq.
          pose proof (to_height _ _ T _ _ Hdp). specialize (Hn _ eq_refl). lia.
        * left. destruct (to_parent _ _ T _ _ Hb Hr) as (dp & Hdp & Hin). by eapply tanc_step.
        * right. intros Hab. apply tanc_inv in Hab as [->|(p & dp & Hdp & Hin & Hap)]; [done|].
          destruct (to_child _ _ T _ _ _ Hdp Hin) as (dc & Hdc & Hpar & _). by simplify_eq. }
  destruct (m !! b) as [d|] eqn:Hb.
  - apply (H (S (Z.to_nat (height d)))). intros d' Hd'. simplify_eq. lia.
  - right. intros Ht. destruct (tanc_dom T _ _ Ht) as [_ [d Hd]]. congruence.
Qed.

Section subtrees.
Context {r m} (T : tree_ok r m).

Definition subtree x : gset Hash := @filter _ _ _ (fun y => tanc m x y) (fun y => tanc_dec T x y) (dom m).
Definition nsub x : Z := Z.of_nat (size (subtree x)).
Definition nsubs (l : list Hash) : Z := zsum (map nsub l).

Lemma elem_subtree x y : y ∈ subtree x <-> tanc m x y.
Proof.
  unfold subtree. rewrite elem_of_filter, elem_of_dom. split; [by intros [? _]|]. intros H. split; [done|].
  by destruct (tanc_dom T _ _ H) as [_ ?].
Qed.
Lemma subtree_self x d : m !! x = Some d -> x ∈ subtree x.
Proof. intros H. apply elem_subtree. by eapply tanc_refl. Qed.
Lemma nsub_pos x d : m !! x = Some d -> 1 <= nsub x.
Proof.
  intros H. unfold nsub. assert (size (subtree x) <> 0)%nat; [|lia].
  rewrite size_non_empty_iff. intros He. pose proof (subtree_self _ _ H). set_solver.
Qed.
Lemma nsub_le x : nsub x <= Z.of_nat (size m).
Proof.
  unfold nsub. rewrite <- (size_dom (D:=gset Hash)). apply inj_le. apply subseteq_size.
  intros y Hy%elem_subtree. apply elem_of_dom. by destruct (tanc_dom T _ _ Hy) as [_ ?].
Qed.

Lemma child_not_above p dp c : m !! p = Some dp -> c ∈ children dp -> ~ tanc m c p.
Proof.
  intros Hp Hc Ht. destruct (to_child _ _ T _ _ _ Hp Hc) as (dc & Hdc & _ & Hlt).
  destruct (tanc_height T _ _ _ _ Ht Hdc Hp) as [->|H]; simplify_eq; lia.
Qed.

(** Subtrees of different children are disjoint. *)
Lemma subtree_siblings p dp c c' y : m !! p = Some dp -> c ∈ children dp -> c' ∈ children dp ->
  tanc m c y -> tanc m c' y -> c = c'.
Proof.
  intros Hp Hc Hc' Hy. destruct (to_child _ _ T _ _ _ Hp Hc') as (dc' & Hdc' & Hpar' & _).
  destruct (to_child _ _ T _ _ _ Hp Hc) as (dc & Hdc & Hpar & _).
  revert c' dc' Hc' Hdc' Hpar'. induction Hy as [d Hd|q dq z Hq IH Hqd Hz]; intros c' dc' Hc' Hdc' Hpar' Hy'.
  - apply tanc_inv in Hy' as [->|(q & dq & Hdq & Hin & Hq)]; [done|].
    pose proof (child_parent T _ _ _ _ _ Hp Hc Hdq Hin) as ->. by destruct (child_not_above _ _ _ Hp Hc').
  - apply tanc_inv in Hy' as [->|(q' & dq' & Hdq' & Hin & Hq')].
    + pose proof (child_parent T _ _ _ _ _ Hp Hc' Hqd Hz) as ->. by destruct (child_not_above _ _ _ Hp Hc).
    + pose proof (child_parent T _ _ _ _ _ Hdq' Hin Hqd Hz) as ->. by eapply IH.
Qed.

Lemma size_union_list_disjoint (l : list Hash) (f : Hash -> gset Hash) : NoDup l ->
  (forall x y z, x ∈ l -> y ∈ l -> z ∈ f x -> z ∈ f y -> x = y) ->
  Z.of_nat (size (⋃ map f l)) = zsum (map (fun x => Z.of_nat (size (f x))) l).
Proof.
  induction l as [|x l IH]; intros Hnd Hdis; cbn [map union_list foldr]; [reflexivity|].
  apply NoDup_cons in Hnd as [Hx Hnd]. rewrite size_union.
  - rewrite Nat2Z.inj_add, IH; [done|done|]. intros a b z Ha Hb. apply Hdis; by right.
  - intros z Hz [X [HX Hz']]%elem_of_union_list.
    apply list_elem_of_fmap in HX as (y & -> & Hy).
    apply Hx. by rewrite (Hdis x y z (list_elem_of_here _ _) (list_elem_of_further _ _ _ Hy) Hz Hz').
Qed.

(** A subtree is its root and the subtrees of the children. *)
Lemma nsub_children x d : m !! x = Some d -> nsub x = 1 + nsubs (children d).
Proof.
  intros Hx. unfold nsub.
  change (nsubs (children d)) with (zsum (map (fun x => Z.of_nat (size (subtree x))) (children d))).
  rewrite <- size_union_list_disjoint.
  - replace (subtree x) with ({[x]} ∪ ⋃ map subtree (children d)).
    + rewrite size_union, size_singleton; [lia|]. intros y ->%elem_of_singleton [X [HX Hy]]%elem_of_union_list.
      apply list_elem_of_fmap in HX as (c & -> & Hc). apply elem_subtree in Hy.
      by destruct (child_not_above _ _ _ Hx Hc).
    + apply set_eq. intros y. rewrite elem_of_union, elem_of_singleton, elem_of_union_list. split.
      * intros [->|(X & (c & -> & Hc)%list_elem_of_fmap & Hy)]; [by eapply subtree_self|].
        apply elem_subtree. apply elem_subtree in Hy. eapply tanc_trans; [|done]. by eapply tanc_child.
      * intros Hy%elem_subtree. destruct (tanc_top T _ _ _ Hy Hx) as [->|(c & Hc & Ht)]; [by left|].
        right. exists (subtree c). split; [by apply list_elem_of_fmap_2|by apply elem_subtree].
  - by eapply (to_nodup _ _ T).
  - intros a b z Ha Hb Hza%elem_subtree Hzb%elem_subtree. by eapply subtree_siblings.
Qed.
Lemma nsubs_app l k : nsubs (l ++ k) = nsubs l + nsubs k.
Proof. unfold nsubs. by rewrite map_app, zsum_app. Qed.
Lemma nsubs_cons x l : nsubs (x :: l) = nsub x + nsubs l.
Proof. done. Qed.
Lemma nsubs_nonneg l : 0 <= nsubs l.
Proof. apply zsum_nonneg, Forall_fmap, Forall_forall. intros x _. unfold nsub. cbn. lia. Qed.
Lemma nsub_child_lt x d c : m !! x = Some d -> c ∈ children d -> 0 <= nsub c < nsub x.
Proof.
  intros Hx Hc. rewrite (nsub_children _ _ Hx). apply list_elem_of_split in Hc as (l1 & l2 & ->).
  rewrite nsubs_app, nsubs_cons. pose proof (nsubs_nonneg l1). pose proof (nsubs_nonneg l2). unfold nsub. lia.
Qed.
End subtrees.

(** ** Setting the intervals of a list of blocks *)
Lemma set_intervals_ok cs : forall ivs s, NoDup cs -> length ivs = length cs ->
  (forall c, c ∈ cs -> exists d, reach_map s !! c = Some d) ->
  exists s', set_intervals s cs ivs = Ok s' /\ reindex_root s' = reindex_root s /\
    same_shape (reach_map s) (reach_map s') /\
    (forall x, x ∉ cs -> reach_map s' !! x = reach_map s !! x) /\
    Forall2 (fun c iv => exists d, reach_map s' !! c = Some d /\ interval d = iv) cs ivs.
Proof.
  induction cs as [|c cs IH]; intros [|iv ivs] s Hnd Hlen Hdom; try done.
  { exists s. split; [done|]. split; [done|]. split; [apply same_shape_refl|]. done. }
  apply NoDup_cons in Hnd as [Hc Hnd]. injection Hlen as Hlen. cbn [set_intervals].
  destruct (Hdom c (list_elem_of_here _ _)) as [d Hd]. rewrite (set_interval_ok s _ _ _ Hd). cbn [mbind res_bind].
  destruct (IH ivs (set_data s c (with_interval d iv)) Hnd Hlen) as (s' & -> & Hroot & Hsh & Hout & Hin).
  { intros x Hx. cbn. destruct (decide (x = c)) as [->|Hne]; [rewrite lookup_insert_eq; eauto|].
    rewrite lookup_insert_ne by done. apply Hdom. by right. }
  exists s'. split; [done|]. split; [done|]. cbn in Hsh, Hout. split; [|split].
  - eapply same_shape_trans; [|done]. by apply same_shape_set.
  - intros x Hx. rewrite elem_of_cons in Hx. rewrite Hout by tauto. apply lookup_insert_ne. intros ->. tauto.
  - constructor; [|done]. rewrite (Hout c Hc), lookup_insert_eq. by exists (with_interval d iv).
Qed.

Lemma fits_layout m cs : forall pos hi bs, Forall (Z.le 1) bs -> pos + zsum bs = hi + 1 ->
  Forall2 (fun c iv => exists d, m !! c = Some d /\ interval d = iv) cs (layout pos bs) -> fits m pos hi cs.
Proof.
  induction cs as [|c cs IH]; intros pos hi [|n bs] Hb Hs Hc; inversion Hc as [|? ? ? ? (d & Hd & Hiv) Hcs]; subst.
  - cbn in *. lia.
  - apply Forall_cons in Hb as [Hn Hb]. rewrite zsum_cons in Hs.
    assert (Forall (Z.le 0) bs) as Hb0 by (eapply Forall_impl; [exact Hb|cbv beta; lia]).
    pose proof (zsum_nonneg bs Hb0). exists d. unfold start_of, end_of. rewrite Hiv. cbn [iv_start iv_end].
    split; [done|]. split; [lia|]. split; [lia|].
    replace (pos + n - 1 + 1) with (pos + n) by lia. apply (IH _ _ bs); [done|lia|done].
Qed.

(** ** Propagation *)
Section propagate.
Context {r} {m0 : RMap} (T : tree_ok r m0) (sizes : gmap Hash u64) (b : Hash).
Context (Hsizes : forall x, tanc m0 b x -> sizes !! x = Some (nsub T x)).

(** A block whose interval can hold its subtree. *)
Definition roomy m x : Prop := exists d, m !! x = Some d /\
  1 <= start_of d /\ end_of d < 2 ^ 64 - 1 /\ nsub T x <= end_of d + 1 - start_of d.

Record prop_inv (Q : list Hash) m : Prop := {
  pi_shape : same_shape m0 m;
  pi_out x : ~ tanc m0 b x \/ x = b -> m !! x = m0 !! x;
  pi_queue q : q ∈ Q -> tanc m0 b q /\ roomy m q;
  pi_nodup : NoDup Q;
  pi_disj q q' y : q ∈ Q -> q' ∈ Q -> tanc m0 q y -> tanc m0 q' y -> q = q';
  pi_done x d : tanc m0 b x -> (forall q, q ∈ Q -> ~ tanc m0 q x) -> m !! x = Some d -> node_ok m d;
}.

Lemma shape_children m x d0 d : same_shape m0 m -> m0 !! x = Some d0 -> m !! x = Some d -> children d = children d0.
Proof. intros Hs H0 H. destruct (same_shape_lookup _ _ _ _ Hs H0) as (d' & Hd' & Hc & _). by simplify_eq. Qed.

(** A child of [x] is not written when the children of another block are. *)
Lemma node_ok_stable m m' x d q dq : m0 !! q = Some dq -> same_shape m0 m -> m !! x = Some d -> x <> q ->
  (forall y, y ∉ children dq -> m' !! y = m !! y) -> node_ok m d -> node_ok m' d.
Proof.
  intros Hq Hs Hx Hne Hout (H1 & H2 & Hf). split; [done|]. split; [done|].
  destruct (same_shape_lookup _ _ _ _ (same_shape_sym _ _ Hs) Hx) as (d0 & Hd0 & Hc0 & _).
  assert (forall c, c ∈ children d -> c ∉ children dq) as Hdis.
  { intros c Hc Hc'. apply Hne. rewrite <- Hc0 in Hc. by eapply (child_parent T). }
  revert Hf Hdis. generalize (start_of d) (end_of d - 1) (children d). intros lo hi cs.
  revert lo. induction cs as [|c cs IH]; intros lo; [done|]. intros (dc & Hdc & Hb1 & Hb2 & Hf) Hdis.
  exists dc. rewrite (Hout c) by (apply Hdis; left). split; [done|]. split; [done|]. split; [done|].
  apply IH; [done|]. intros c' Hc'. apply Hdis. by right.
Qed.
Lemma node_ok_leaf m x d d0 : roomy m x -> m !! x = Some d -> m0 !! x = Some d0 -> same_shape m0 m -> children d0 = [] -> node_ok m d.
Proof.
  intros (d' & Hd' & H1 & H2 & H3) Hd Hd0 Hs Hc. assert (d' = d) as -> by congruence. pose proof (nsub_pos T _ _ Hd0).
  split; [lia|]. split; [lia|]. rewrite (shape_children _ _ _ _ Hs Hd0 Hd), Hc. cbn. lia.
Qed.

(** The capacity of a block for its children, split by the exponential rule. *)
Lemma split_capacity s q d d0 : same_shape m0 (reach_map s) -> tanc m0 b q -> roomy (reach_map s) q ->
  reach_map s !! q = Some d -> m0 !! q = Some d0 -> children d0 <> [] ->
  exists bs, (ns ← res_mapM (fun c => unwrap (sizes !! c)) (children d);
              i ← interval_children_capacity s q; split_exponential i ns) =
             Ok (E:=ReachabilityError) (layout (start_of d) bs) /\
    Forall2 Z.le (map (nsub T) (children d0)) bs /\ start_of d + zsum bs = end_of d /\ 1 <= start_of d /\ end_of d < 2 ^ 64 - 1.
Proof.
  intros Hs Hbq (d' & Hd' & H1 & H2 & H3) Hd Hd0 Hne. assert (d' = d) as -> by congruence.
  rewrite (shape_children _ _ _ _ Hs Hd0 Hd). rewrite (res_mapM_ok _ (nsub T)).
  2:{ intros c Hc. rewrite Hsizes; [done|]. eapply tanc_step; [exact Hbq|exact Hd0|done]. }
  cbn [mbind res_bind]. unfold interval_children_capacity. rewrite (get_interval_ok s _ _ Hd). cbn [mbind res_bind].
  pose proof (nsub_children T _ _ Hd0) as Hn. unfold nsubs in Hn.
  assert (Forall (Z.le 1) (map (nsub T) (children d0))) as Hpos.
  { apply Forall_fmap, Forall_forall. intros c Hc. destruct (to_child _ _ T _ _ _ Hd0 Hc) as (dc & Hdc & _).
    by eapply nsub_pos. }
  assert (Forall (Z.le 0) (map (nsub T) (children d0))) as Hnn by (eapply Forall_impl; [exact Hpos|cbv beta; lia]).
  assert (0 < zsum (map (nsub T) (children d0))) as Hsum.
  { destruct (children d0) as [|c cs]; [done|]. cbn [map] in *. rewrite zsum_cons. apply Forall_cons in Hpos as [Hp _].
    apply Forall_cons in Hnn as [_ Hnn]. pose proof (zsum_nonneg _ Hnn). lia. }
  unfold start_of, end_of in *. unfold decrease_end. rewrite u64_sub_ok by (unfold inW; lia). cbn [mbind res_bind].
  destruct (split_exponential_ok (E:=ReachabilityError) (mkInterval (iv_start (interval d)) (iv_end (interval d) - 1))
    (map (nsub T) (children d0))) as (bs & -> & Hle & Hbs); [unfold iv_ok; cbn; lia|done|unfold iv_len; cbn; lia|].
  exists bs. split; [done|]. split; [done|]. unfold iv_len in Hbs. cbn in Hbs. lia.
Qed.

Lemma Forall2_le_pos l k : Forall2 Z.le l k -> Forall (Z.le 1) l -> Forall (Z.le 1) k.
Proof. induction 1; intros Hl; [done|]. apply Forall_cons in Hl as [Hx Hl]. constructor; [lia|auto]. Qed.

(** The blocks of a layout get room for their subtrees. *)
Lemma layout_roomy m cs : forall bs pos hi, Forall2 Z.le (map (nsub T) cs) bs -> Forall (Z.le 1) bs -> 1 <= pos ->
  pos + zsum bs <= hi -> hi < 2 ^ 64 - 1 ->
  Forall2 (fun c iv => exists d, m !! c = Some d /\ interval d = iv) cs (layout pos bs) -> forall c, c ∈ cs -> roomy m c.
Proof.
  induction cs as [|c0 cs IH]; intros [|n bs] pos hi Hle Hpos Hp Hhi Hmax HF c Hc;
    inversion HF as [|? ? ? ? (d & Hd & Hiv) HF']; subst; [by apply elem_of_nil in Hc|].
  cbn [map] in Hle. apply Forall2_cons in Hle as [Hn Hle]. apply Forall_cons in Hpos as [Hn1 Hpos]. rewrite zsum_cons in Hhi.
  assert (Forall (Z.le 0) bs) as Hb0 by (eapply Forall_impl; [exact Hpos|cbv beta; lia]). pose proof (zsum_nonneg _ Hb0).
  apply elem_of_cons in Hc as [->|Hc]; [|by eapply (IH bs (pos + n) hi); [..|exact HF'|]; try done; lia].
  exists d. unfold start_of, end_of. rewrite Hiv. cbn. split; [done|]. lia.
Qed.

Lemma queue_head q Q m : prop_inv (q :: Q) m -> exists d0 d, m0 !! q = Some d0 /\ m !! q = Some d /\ children d = children d0.
Proof.
  intros I. destruct (pi_queue _ _ I q (list_elem_of_here _ _)) as [Hbq (d & Hd & _)].
  destruct (tanc_dom T _ _ Hbq) as [_ [d0 Hd0]]. exists d0, d. split; [done|]. split; [done|].
  by eapply shape_children; [apply (pi_shape _ _ I)|..].
Qed.

(** Popping a leaf. *)
Lemma prop_leaf q Q m d0 : prop_inv (q :: Q) m -> m0 !! q = Some d0 -> children d0 = [] -> prop_inv Q m.
Proof.
  intros I Hd0 Hc. destruct I as [Hs Hout Hq Hnd Hdis Hdone]. apply NoDup_cons in Hnd as [Hnq Hnd].
  split; [done|done| |done| |].
  - intros q' Hq'. apply Hq. by right.
  - intros q1 q2 y H1 H2. apply Hdis; by right.
  - intros x d Hbx Hx Hd. destruct (decide (x = q)) as [->|Hne].
    + destruct (Hq q (list_elem_of_here _ _)) as [_ Hr]. by eapply node_ok_leaf.
    + apply (Hdone x d Hbx); [|done]. intros q' [->|Hq']%elem_of_cons Ht; [|by apply (Hx q' Hq')].
      destruct (tanc_top T _ _ _ Ht Hd0) as [->|(c & Hc' & _)]; [done|]. rewrite Hc in Hc'. by apply elem_of_nil in Hc'.
Qed.

(** Popping a block with children, and allocating to them. *)
Lemma prop_expand q Q m m' d0 d bs : prop_inv (q :: Q) m -> m0 !! q = Some d0 -> m !! q = Some d -> same_shape m m' ->
  (forall x, x ∉ children d0 -> m' !! x = m !! x) ->
  Forall2 (fun c iv => exists d, m' !! c = Some d /\ interval d = iv) (children d0) (layout (start_of d) bs) ->
  Forall2 Z.le (map (nsub T) (children d0)) bs -> start_of d + zsum bs = end_of d -> 1 <= start_of d -> end_of d < 2 ^ 64 - 1 ->
  prop_inv (Q ++ children d0) m'.
Proof.
  intros I Hd0 Hd Hsh Hout Hlay Hle Hsum Hlo Hhi. pose proof I as [Hs Hout0 Hq Hnd Hdis Hdone].
  apply NoDup_cons in Hnd as [Hnq Hnd].
  destruct (Hq q (list_elem_of_here _ _)) as [Hbq _].
  assert (Forall (Z.le 1) bs) as Hpos.
  { eapply Forall2_le_pos; [exact Hle|]. apply Forall_fmap, Forall_forall. intros c Hc.
    destruct (to_child _ _ T _ _ _ Hd0 Hc) as (dc & Hdc & _). by eapply nsub_pos. }
  assert (forall c y, c ∈ children d0 -> tanc m0 c y -> tanc m0 q y) as Hbelow.
  { intros c y Hc Ht. eapply tanc_trans; [by eapply tanc_child|exact Ht]. }
  assert (forall c, c ∈ children d0 -> tanc m0 c c) as Hself.
  { intros c Hc. destruct (to_child _ _ T _ _ _ Hd0 Hc) as (dc & Hdc & _). by eapply tanc_refl. }
  assert (forall q' c, q' ∈ Q -> c ∈ children d0 -> forall y, tanc m0 q' y -> ~ tanc m0 c y) as Hsep.
  { intros q' c Hq' Hc y H1 H2. apply Hnq.
    by rewrite (Hdis q q' y (list_elem_of_here _ _) (list_elem_of_further _ _ _ Hq') (Hbelow _ _ Hc H2) H1). }
  assert (q ∉ children d0) as Hqc by (intros Hc; by destruct (child_not_above T _ _ _ Hd0 Hc (Hself _ Hc))).
  split.
  - by eapply same_shape_trans.
  - intros x Hx. rewrite Hout; [by apply Hout0|]. intros Hc. destruct Hx as [Hx| ->].
    + apply Hx. eapply tanc_trans; [exact Hbq|by eapply tanc_child].
    + apply (child_not_above T _ _ _ Hd0 Hc). exact Hbq.
  - intros x [Hx|Hx]%elem_of_app.
    + destruct (Hq x (list_elem_of_further _ _ _ Hx)) as [Hbx (dx & Hdx & Hr)]. split; [done|]. exists dx. rewrite Hout; [done|].
      intros Hc. by apply (Hsep x x Hx Hc x (Hself _ Hc) (Hself _ Hc)).
    + split; [eapply tanc_trans; [exact Hbq|by eapply tanc_child]|].
      eapply (layout_roomy m' (children d0) bs (start_of d) (end_of d)); try done. lia.
  - apply NoDup_app. split; [done|]. split; [|by eapply (to_nodup _ _ T)].
    intros x Hx Hc. by apply (Hsep x x Hx Hc x (Hself _ Hc) (Hself _ Hc)).
  - intros q1 q2 y [H1|H1]%elem_of_app [H2|H2]%elem_of_app Ht1 Ht2.
    + by apply (Hdis q1 q2 y); [right|right|..].
    + by destruct (Hsep q1 q2 H1 H2 y Ht1 Ht2).
    + by destruct (Hsep q2 q1 H2 H1 y Ht2 Ht1).
    + by eapply (subtree_siblings T).
  - intros x dx Hbx Hx Hdx. destruct (decide (x = q)) as [->|Hne].
    + rewrite (Hout q Hqc) in Hdx. assert (dx = d) as -> by congruence. split; [|split; [done|]].
      * destruct (pi_queue _ _ I q (list_elem_of_here _ _)) as [_ (d' & Hd' & H1 & H2 & H3)].
        assert (d' = d) as -> by congruence. pose proof (nsub_pos T _ _ Hd0). lia.
      * rewrite (shape_children _ _ _ _ Hs Hd0 Hd). apply (fits_layout _ _ _ _ bs); [done|lia|done].
    + assert (x ∉ children d0) as Hxc.
      { intros Hc. apply (Hx x); [apply elem_of_app; by right|by apply Hself]. }
      rewrite (Hout x Hxc) in Hdx. eapply (node_ok_stable m m' x dx q d0); try done.
      apply (Hdone x dx Hbx); [|done]. intros q' [->|Hq']%elem_of_cons Ht.
      * destruct (tanc_top T _ _ _ Ht Hd0) as [->|(c & Hc & Htc)]; [done|].
        apply (Hx c); [apply elem_of_app; by right|done].
      * apply (Hx q'); [apply elem_of_app; by left|done].
Qed.

Lemma propagate_loop_ok fuel : forall Q s, prop_inv Q (reach_map s) -> nsubs T Q < Z.of_nat fuel ->
  exists s', propagate_loop sizes fuel Q s = Ok s' /\ prop_inv [] (reach_map s') /\ reindex_root s' = reindex_root s.
Proof.
  induction fuel as [|fuel IH]; intros Q s I Hfuel.
  { pose proof (nsubs_nonneg T Q). lia. }
  cbn [propagate_loop]. destruct Q as [|q Q]; [by exists s|].
  destruct (queue_head _ _ _ I) as (d0 & d & Hd0 & Hd & Hcs). rewrite (get_children_ok s _ _ Hd), Hcs. cbn [mbind res_bind].
  rewrite nsubs_cons in Hfuel.
  pose proof (nsub_children T _ _ Hd0) as Hn.
  destruct (zlen (children d0) =? 0) eqn:Hz.
  { assert (children d0 = []) as Hnil by (destruct (children d0); [done|]; rewrite zlen_cons in Hz; pose proof (zlen_nonneg l); lia).
    rewrite Hnil in Hn. unfold nsubs in Hn at 1. cbn in Hn.
    apply IH; [by eapply prop_leaf|lia]. }
  assert (children d0 <> []) as Hne by (intros He; rewrite He in Hz; done).
  destruct (pi_queue _ _ I q (list_elem_of_here _ _)) as [Hbq Hroomy].
  destruct (split_capacity s q d d0 (pi_shape _ _ I) Hbq Hroomy Hd Hd0 Hne) as (bs & Hsplit & Hle & Hsum & Hlo & Hhi).
  rewrite Hcs in Hsplit. destruct (res_mapM _ (children d0)) as [ns| | |] eqn:Hns; [|done..]. cbn [mbind res_bind] in *.
  destruct (interval_children_capacity s q) as [i| | |] eqn:Hcap; [|done..]. cbn [mbind res_bind] in *. rewrite Hsplit. cbn [mbind res_bind].
  destruct (set_intervals_ok (children d0) (layout (start_of d) bs) s) as (s1 & -> & Hroot & Hsh & Hout & Hin).
  { by eapply (to_nodup _ _ T). }
  { pose proof (f_equal length (layout_len bs (start_of d))) as Hl. rewrite length_map in Hl.
    apply Forall2_length in Hle. rewrite length_map in Hle. lia. }
  { intros c Hc. destruct (to_child _ _ T _ _ _ Hd0 Hc) as (dc & Hdc & _).
    destruct (same_shape_lookup _ _ _ _ (pi_shape _ _ I) Hdc) as (dc' & ? & _). eauto. }
  cbn [mbind res_bind]. destruct (IH (Q ++ children d0) s1) as (s' & -> & I' & Hr').
  { by eapply (prop_expand q Q (reach_map s) (reach_map s1) d0 d bs). }
  { rewrite nsubs_app. lia. }
  exists s'. split; [done|]. split; [done|congruence].
Qed.
End propagate.

(** ** Counting subtrees *)
Definition cnt (X : gset Hash) (cs : list Hash) : Z := zlen (filter (fun c => c ∈ X) cs).
Lemma cnt_cons X c cs : cnt X (c :: cs) = (if decide (c ∈ X) then 1 else 0) + cnt X cs.
Proof. unfold cnt. rewrite filter_cons. destruct (decide (c ∈ X)); [rewrite zlen_cons|]; lia. Qed.
Lemma cnt_out X x cs : x ∉ cs -> cnt ({[x]} ∪ X) cs = cnt X cs.
Proof.
  induction cs as [|c cs IH]; [done|]. intros Hx. rewrite elem_of_cons in Hx. rewrite !cnt_cons, IH by tauto. f_equal.
  destruct (decide (c ∈ X)), (decide (c ∈ {[x]} ∪ X)); set_solver.
Qed.
Lemma cnt_add X x cs : NoDup cs -> x ∈ cs -> x ∉ X -> cnt ({[x]} ∪ X) cs = cnt X cs + 1.
Proof.
  induction cs as [|c cs IH]; intros Hnd Hx HX; [by apply elem_of_nil in Hx|].
  apply NoDup_cons in Hnd as [Hc Hnd]. rewrite !cnt_cons. apply elem_of_cons in Hx as [->|Hx].
  - rewrite cnt_out by done. destruct (decide (c ∈ X)); [done|]. destruct (decide (c ∈ {[c]} ∪ X)); [lia|set_solver].
  - rewrite IH by done. assert (c <> x) by congruence.
    destruct (decide (c ∈ X)), (decide (c ∈ {[x]} ∪ X)); try lia; set_solver.
Qed.
Lemma cnt_le X cs : 0 <= cnt X cs <= zlen cs.
Proof.
  induction cs as [|c cs IH]; [done|]. rewrite cnt_cons, zlen_cons. destruct (decide (c ∈ X)); lia.
Qed.
Lemma cnt_all X cs : zlen cs <= cnt X cs -> forall c, c ∈ cs -> c ∈ X.
Proof.
  induction cs as [|c0 cs IH]; intros H c Hc; [by apply elem_of_nil in Hc|]. rewrite cnt_cons, zlen_cons in H.
  pose proof (cnt_le X cs). destruct (decide (c0 ∈ X)); [|lia].
  apply elem_of_cons in Hc as [->|Hc]; [done|]. apply IH; [lia|done].
Qed.
Lemma cnt_missing X cs : cnt X cs < zlen cs -> exists c, c ∈ cs /\ c ∉ X.
Proof.
  induction cs as [|c cs IH]; [done|]. rewrite cnt_cons, zlen_cons. intros H. destruct (decide (c ∈ X)).
  - destruct IH as (c' & Hc' & HX); [lia|]. exists c'. split; [by right|done].
  - exists c. split; [left|done].
Qed.
Lemma cnt_none X cs : (forall c, c ∈ cs -> c ∉ X) -> cnt X cs = 0.
Proof.
  induction cs as [|c cs IH]; [done|]. intros H. rewrite cnt_cons, IH by (intros c' Hc'; apply H; by right).
  destruct (decide (c ∈ X)) as [Hc|]; [|done]. by destruct (H c (list_elem_of_here _ _)).
Qed.

Section count.
Context {r} (s : MemoryReachabilityStore).
Abbreviation M := (reach_map s).
Context (T : tree_ok r M) (Hsmall : Z.of_nat (size M) < 2 ^ 64) (b : Hash).

(** Recorded sizes are right, and recorded for whole subtrees. *)
Definition sizes_ok (sizes : gmap Hash u64) : Prop := forall x n, sizes !! x = Some n ->
  (exists d, M !! x = Some d) /\ n = nsub T x /\ forall y, tanc M x y -> is_Some (sizes !! y).

(** The state of the traversal: [Q] waits in the queue, [Ex] was expanded and is
    not finished, [Rp] is finished and reported to its parent; [cur], if any, is
    finished and about to be reported. *)
Record count_inv (cur : gset Hash) (Q : list Hash) (Ex Rp : gset Hash) (sizes counts : gmap Hash u64) : Prop := {
  ci_sizes : sizes_ok sizes;
  ci_nodup : NoDup Q;
  ci_disj x : (x ∈ Q -> (x ∉ Ex) /\ (x ∉ Rp) /\ (x ∉ cur)) /\ (x ∈ Ex -> (x ∉ Rp) /\ (x ∉ cur)) /\ (x ∈ Rp -> x ∉ cur);
  ci_below x : x ∈ Q \/ x ∈ Ex \/ x ∈ Rp \/ x ∈ cur -> tanc M b x;
  ci_block : b ∈ Q \/ b ∈ Ex \/ b ∈ Rp \/ b ∈ cur;
  ci_ex x d : x ∈ Ex -> M !! x = Some d ->
    (forall c, c ∈ children d -> c ∈ Q \/ c ∈ Ex \/ c ∈ Rp \/ c ∈ cur) /\
    default 0 (counts !! x) = cnt Rp (children d) /\ cnt Rp (children d) < zlen (children d);
  ci_parent x d : x ∈ Q \/ x ∈ Ex \/ x ∈ cur -> M !! x = Some d -> x <> b -> parent d ∈ Ex;
  ci_parent' x d : x ∈ Rp -> M !! x = Some d -> x <> b -> parent d ∈ Ex \/ parent d ∈ Rp \/ parent d ∈ cur;
  ci_done x : x ∈ Rp \/ x ∈ cur -> is_Some (sizes !! x);
  ci_counts x : is_Some (counts !! x) -> x ∈ Ex \/ x ∈ Rp \/ x ∈ cur;
}.

(** Every node of the tree that is not the root of the traversal has its parent in it. *)
Lemma parent_child x d dp : M !! x = Some d -> M !! parent d = Some dp -> x <> r -> x ∈ children dp.
Proof. intros Hx Hp Hr. destruct (to_parent _ _ T _ _ Hx Hr) as (dp' & Hdp' & Hin). by simplify_eq. Qed.
Lemma below_root x : tanc M b x -> x <> b -> x <> r.
Proof.
  intros Ht Hne ->. apply Hne. destruct (tanc_dom T _ _ Ht) as [[db Hb] _].
  by apply (tanc_antisym T _ _ (tanc_root T _ _ Hb)).
Qed.

(** Expanding a block: its children are new. *)
Lemma count_expand x Q Ex Rp sizes counts d : count_inv ∅ (x :: Q) Ex Rp sizes counts -> M !! x = Some d ->
  children d <> [] -> count_inv ∅ (Q ++ children d) ({[x]} ∪ Ex) Rp sizes counts.
Proof.
  intros I Hx Hne. destruct I as [H1 H2 H3 H4 H5 H6 H7 H8 H9 H10]. apply NoDup_cons in H2 as [HxQ H2].
  destruct (H3 x) as [H3x _]. destruct (H3x (list_elem_of_here _ _)) as (HxE & HxR & _).
  assert (tanc M b x) as Hbx by (apply H4; left; left).
  assert (forall c, c ∈ children d -> tanc M b c /\ c <> b) as Hcb.
  { intros c Hc. split; [by eapply tanc_step|]. intros ->. by apply (child_not_above T _ _ _ Hx Hc). }
  assert (forall c, c ∈ children d -> (c ∉ x :: Q) /\ (c ∉ Ex) /\ (c ∉ Rp)) as Hnew.
  { intros c Hc. destruct (to_child _ _ T _ _ _ Hx Hc) as (dc & Hdc & Hpar & _). destruct (Hcb c Hc) as [_ Hcne].
    split; [|split]; intros Hin.
    - pose proof (H7 c dc (or_introl Hin) Hdc Hcne). by rewrite Hpar in *.
    - pose proof (H7 c dc (or_intror (or_introl Hin)) Hdc Hcne). by rewrite Hpar in *.
    - pose proof (H8 c dc Hin Hdc Hcne). rewrite Hpar in *. set_solver. }
  split.
  - done.
  - apply NoDup_app. split; [done|]. split; [|by eapply (to_nodup _ _ T)].
    intros y Hy Hc. destruct (Hnew y Hc) as (N & _ & _). apply N. by right.
  - intros y. rewrite elem_of_app, elem_of_union, elem_of_singleton. destruct (H3 y) as (Ha & Hb & Hc). split; [|split].
    + intros [Hy|Hy].
      * destruct Ha as (? & ? & ?); [by right|]. split; [|split; [done|done]]. intros [->|?]; done.
      * destruct (Hnew y Hy) as (N1 & N2 & N3). split; [|split; [done|set_solver]]. intros [->|?]; [apply N1; left|done].
    + intros [->|Hy]; [split; [done|set_solver]|by apply Hb].
    + intros _. set_solver.
  - intros y Hy. rewrite elem_of_app, elem_of_union, elem_of_singleton in Hy.
    destruct Hy as [[Hy|Hy]|[[->|Hy]|Hy]]; [apply H4; left; by right|by apply Hcb|done|apply H4; tauto|apply H4; tauto].
  - rewrite elem_of_app, elem_of_union, elem_of_singleton. rewrite elem_of_cons in H5.
    destruct H5 as [[->|H5]|[H5|H5]]; tauto.
  - intros y dy Hy Hdy. apply elem_of_union in Hy as [->%elem_of_singleton|Hy].
    + assert (dy = d) as -> by congruence. split; [intros c Hc; left; apply elem_of_app; by right|].
      rewrite cnt_none by (intros c Hc; by destruct (Hnew c Hc) as (_ & _ & ?)). split.
      * destruct (counts !! x) as [n|] eqn:Hn; [|done]. destruct (H10 x) as [?|[?|?]]; [by rewrite Hn|set_solver..].
      * destruct (children d); [done|]. rewrite zlen_cons. pose proof (zlen_nonneg l). lia.
    + destruct (H6 y dy Hy Hdy) as (Hch & Hcount & Hlt). split; [|done]. intros c Hc.
      rewrite elem_of_app, elem_of_union, elem_of_singleton. destruct (Hch c Hc) as [[->|?]%elem_of_cons|[?|?]]; tauto.
  - intros y dy Hy Hdy Hyb. rewrite elem_of_app, elem_of_union, elem_of_singleton in Hy. apply elem_of_union.
    destruct Hy as [[Hy|Hy]|[[->|Hy]|Hy]].
    + right. apply (H7 y dy); [left; by right|done|done].
    + left. apply elem_of_singleton. destruct (to_child _ _ T _ _ _ Hx Hy) as (dc & Hdc & Hpar & _). congruence.
    + right. apply (H7 x dy); [left; left|done|done].
    + right. apply (H7 y dy); [tauto|done|done].
    + set_solver.
  - intros y dy Hy Hdy Hyb. destruct (H8 y dy Hy Hdy Hyb) as [?|[?|?]]; set_solver.
  - done.
  - intros y Hy. destruct (H10 y Hy) as [?|[?|?]]; set_solver.
Qed.

Ltac mem := rewrite ?elem_of_union, ?elem_of_difference, ?elem_of_singleton in *; try tauto.

(** Popping a block whose size is known. *)
Lemma count_pop x Q Ex Rp sizes sizes' counts : count_inv ∅ (x :: Q) Ex Rp sizes counts -> sizes_ok sizes' ->
  (forall y, is_Some (sizes !! y) -> is_Some (sizes' !! y)) -> is_Some (sizes' !! x) ->
  count_inv {[x]} Q Ex Rp sizes' counts.
Proof.
  intros I Hok Hmono Hx. destruct I as [H1 H2 H3 H4 H5 H6 H7 H8 H9 H10]. apply NoDup_cons in H2 as [HxQ H2].
  assert (forall y, y ∉ (∅ : gset Hash)) as H0 by (intros y; apply not_elem_of_empty).
  split.
  - done.
  - done.
  - intros y. destruct (H3 y) as (Ha & Hb & Hc). rewrite elem_of_cons in Ha. mem. split; [|split].
    + intros Hy. destruct Ha as (? & ? & ?); [by right|]. split; [done|]. split; [done|]. intros ->. done.
    + intros Hy. split; [by apply Hb|]. intros ->. by destruct Ha as (? & ? & ?); [left|].
    + intros Hy ->. by destruct Ha as (? & ? & ?); [left|].
  - intros y Hy. apply H4. rewrite elem_of_cons. mem.
  - rewrite elem_of_cons in H5. mem. specialize (H0 b). tauto.
  - intros y dy Hy Hdy. destruct (H6 y dy Hy Hdy) as (Hch & Hrest). split; [|done]. intros c Hc.
    specialize (Hch c Hc). specialize (H0 c). rewrite elem_of_cons in Hch. mem.
  - intros y dy Hy. apply H7. rewrite elem_of_cons. mem.
  - intros y dy Hy Hdy Hyb. specialize (H8 y dy Hy Hdy Hyb). specialize (H0 (parent dy)). mem.
  - intros y [Hy| ->%elem_of_singleton]; [|done]. apply Hmono, H9. by left.
  - intros y Hy. specialize (H10 y Hy). specialize (H0 y). mem.
Qed.

(** Reporting [x]: to nobody if it is the root of the traversal, else to its parent. *)
Lemma count_report_block Q Ex Rp sizes counts : count_inv {[b]} Q Ex Rp sizes counts -> count_inv ∅ Q Ex ({[b]} ∪ Rp) sizes counts.
Proof.
  intros I. destruct I as [H1 H2 H3 H4 H5 H6 H7 H8 H9 H10].
  assert (forall y, y ∉ (∅ : gset Hash)) as H0 by (intros y; apply not_elem_of_empty).
  split.
  - done.
  - done.
  - intros y. destruct (H3 y) as (Ha & Hb & Hc). specialize (H0 y). mem.
  - intros y Hy. apply H4. specialize (H0 y). mem.
  - right. right. left. mem.
  - intros y dy Hy Hdy. destruct (H6 y dy Hy Hdy) as (Hch & Hcount & Hlt).
    rewrite cnt_out.
    + split; [|done]. intros c Hc. specialize (Hch c Hc). mem.
    + intros Hc. apply (child_not_above T _ _ _ Hdy Hc). apply H4. tauto.
  - intros y dy Hy. specialize (H0 y). apply H7. mem.
  - intros y dy Hy Hdy Hyb. mem. destruct Hy as [->|Hy]; [done|]. specialize (H8 y dy Hy Hdy Hyb). mem.
  - intros y Hy. apply H9. specialize (H0 y). mem.
  - intros y Hy. specialize (H10 y Hy). mem.
Qed.

Lemma count_report x d p dp n Q Ex Rp sizes counts : count_inv {[x]} Q Ex Rp sizes counts -> M !! x = Some d -> x <> b ->
  parent d = p -> M !! p = Some dp -> x ∈ children dp -> n = cnt Rp (children dp) + 1 -> n < zlen (children dp) ->
  count_inv ∅ Q Ex ({[x]} ∪ Rp) sizes (<[p := n]> counts).
Proof.
  intros I Hx Hxb Hpar Hp Hin -> Hlt. destruct I as [H1 H2 H3 H4 H5 H6 H7 H8 H9 H10].
  assert (forall y, y ∉ (∅ : gset Hash)) as H0 by (intros y; apply not_elem_of_empty).
  assert (p ∈ Ex) as HpE by (rewrite <- Hpar; apply (H7 x d); mem).
  assert (x ∉ Rp) as HxR by (intros HR; destruct (H3 x) as (_ & _ & Hc); specialize (Hc HR); mem).
  split.
  - done.
  - done.
  - intros y. destruct (H3 y) as (Ha & Hb & Hc). specialize (H0 y). mem.
  - intros y Hy. apply H4. specialize (H0 y). mem.
  - mem.
  - intros y dy Hy Hdy. destruct (H6 y dy Hy Hdy) as (Hch & Hcount & Hlt').
    split; [intros c Hc; specialize (Hch c Hc); mem|]. destruct (decide (y = p)) as [->|Hne].
    + assert (dy = dp) as -> by congruence. rewrite lookup_insert_eq. cbn [default].
      rewrite cnt_add by (try done; by eapply (to_nodup _ _ T)). done.
    + rewrite lookup_insert_ne by done. rewrite cnt_out; [done|]. intros Hc. apply Hne. by eapply (child_parent T).
  - intros y dy Hy. specialize (H0 y). apply H7. mem.
  - intros y dy Hy Hdy Hyb. mem. destruct Hy as [->|Hy]; [left; congruence|]. specialize (H8 y dy Hy Hdy Hyb). mem.
  - intros y Hy. apply H9. specialize (H0 y). mem.
  - intros y Hy. destruct (decide (y = p)) as [->|Hne]; [by left|]. rewrite lookup_insert_ne in Hy by done.
    specialize (H10 y Hy). mem.
Qed.

Lemma count_finish x d p dp n Q Ex Rp sizes counts : count_inv {[x]} Q Ex Rp sizes counts -> M !! x = Some d -> x <> b ->
  parent d = p -> M !! p = Some dp -> x ∈ children dp -> n = cnt Rp (children dp) + 1 -> zlen (children dp) <= n ->
  (forall c, c ∈ children dp -> is_Some (sizes !! c)) /\
  count_inv {[p]} Q (Ex ∖ {[p]}) ({[x]} ∪ Rp) (<[p := nsub T p]> sizes) (<[p := n]> counts).
Proof.
  intros I Hx Hxb Hpar Hp Hin -> Hlt. destruct I as [H1 H2 H3 H4 H5 H6 H7 H8 H9 H10].
  assert (p ∈ Ex) as HpE by (rewrite <- Hpar; apply (H7 x d); mem).
  assert (x ∉ Rp) as HxR by (intros HR; destruct (H3 x) as (_ & _ & Hc); specialize (Hc HR); mem).
  assert (NoDup (children dp)) as Hnd by (by eapply (to_nodup _ _ T)).
  assert (forall c, c ∈ children dp -> c ∈ {[x]} ∪ Rp) as Hall by (apply cnt_all; by rewrite cnt_add).
  assert (forall c, c ∈ children dp -> is_Some (sizes !! c)) as Hdone by (intros c Hc; apply H9; specialize (Hall c Hc); mem).
  assert (forall c, c ∈ children dp -> c <> p) as Hcp.
  { intros c Hc ->. apply (child_not_above T _ _ _ Hp Hc). by eapply tanc_refl. }
  split; [done|]. split.
  - intros y n Hy. destruct (decide (y = p)) as [->|Hne].
    + rewrite lookup_insert_eq in Hy. injection Hy as <-. split; [by eauto|]. split; [done|]. intros z Hz.
      destruct (decide (z = p)) as [->|Hzp]; [by rewrite lookup_insert_eq|]. rewrite lookup_insert_ne by done.
      destruct (tanc_top T _ _ _ Hz Hp) as [->|(c & Hc & Ht)]; [done|]. destruct (Hdone c Hc) as [k Hk]. by apply (H1 c k Hk).
    + rewrite lookup_insert_ne in Hy by done. destruct (H1 y n Hy) as (Hd & Hn & Hz). split; [done|]. split; [done|].
      intros z Ht. destruct (decide (z = p)) as [->|Hzp]; [by rewrite lookup_insert_eq|]. rewrite lookup_insert_ne by done. by apply Hz.
  - done.
  - intros y. destruct (H3 y) as (Ha & Hb & Hc). destruct (H3 p) as (Hpa & Hpb & Hpc). mem. split; [|split].
    + intros Hy. destruct (Ha Hy) as (? & ? & ?). split; [tauto|]. split; [tauto|]. intros ->. tauto.
    + intros Hy. destruct (Hb ltac:(tauto)) as (? & ?). tauto.
    + intros Hy ->. destruct (Hpb HpE) as [N1 N2]. destruct Hy as [Hy|Hy]; [|tauto]. apply N2. congruence.
  - intros y Hy. apply H4. mem. destruct Hy as [?|[?|[?| ->]]]; tauto.
  - mem. destruct (decide (b = p)); tauto.
  - intros y dy Hy Hdy. apply elem_of_difference in Hy as [Hy Hyp]. rewrite elem_of_singleton in Hyp.
    destruct (H6 y dy Hy Hdy) as (Hch & Hcount & Hlt'). split; [|split].
    + intros c Hc. specialize (Hch c Hc). mem. destruct (decide (c = p)); tauto.
    + rewrite lookup_insert_ne by done. rewrite cnt_out; [done|]. intros Hc. apply Hyp. by eapply (child_parent T).
    + rewrite cnt_out; [done|]. intros Hc. apply Hyp. by eapply (child_parent T).
  - intros y dy Hy Hdy Hyb. mem. assert (parent dy ∈ Ex) as Hpe.
    { apply (H7 y dy); [|done|done]. destruct Hy as [?|[?| ->]]; mem. }
    split; [done|]. intros He. assert (y ∈ children dp) as Hyc.
    { destruct (to_parent _ _ T y dy Hdy) as (dq & Hdq & Hyq); [|congruence].
      apply below_root; [|done]. apply H4. destruct Hy as [?|[?| ->]]; mem. }
    specialize (Hall y Hyc). destruct (H3 y) as (Ha & Hb & _). mem. destruct Hy as [Hy|[[Hy _]|Hy]].
    + specialize (Ha Hy). tauto.
    + specialize (Hb Hy). tauto.
    + subst y. by apply (Hcp p Hyc).
  - intros y dy Hy Hdy Hyb. mem. destruct (decide (parent dy = p)) as [|Hnp]; [tauto|].
    destruct Hy as [->|Hy]; [congruence|]. specialize (H8 y dy Hy Hdy Hyb). mem.
  - intros y Hy. mem. destruct (decide (y = p)) as [->|Hne]; [by rewrite lookup_insert_eq|]. rewrite lookup_insert_ne by done.
    apply H9. mem.
  - intros y Hy. mem. destruct (decide (y = p)) as [->|Hne]; [tauto|]. rewrite lookup_insert_ne in Hy by done.
    specialize (H10 y Hy). mem.
Qed.

Lemma zlen_children p dp : M !! p = Some dp -> zlen (children dp) < 2 ^ 64 /\ zlen (children dp) <= nsub T p.
Proof.
  intros Hp. pose proof (nsub_le T p). pose proof (nsub_children T _ _ Hp) as Hn.
  assert (zlen (children dp) <= nsubs T (children dp)); [|lia].
  assert (forall c, c ∈ children dp -> 1 <= nsub T c) as H1.
  { intros c Hc. destruct (to_child _ _ T _ _ _ Hp Hc) as (dc & Hdc & _). by eapply nsub_pos. }
  clear Hn. unfold nsubs. induction (children dp) as [|c cs IH]; [done|]. cbn [map]. rewrite zsum_cons, zlen_cons.
  pose proof (H1 c (list_elem_of_here _ _)). assert (zlen cs <= zsum (map (nsub T) cs)); [|lia].
  apply IH. intros c' Hc'. apply H1. by right.
Qed.

(** The recorded sizes of the children give the size of the block. *)
Lemma children_sum p dp (sizes : gmap Hash u64) : M !! p = Some dp -> sizes_ok sizes ->
  (forall c, c ∈ children dp -> is_Some (sizes !! c)) ->
  (n ← (ns ← res_mapM (fun c => unwrap (sizes !! c)) (children dp); u64_sum ns); u64_add n 1) = Ok (E:=ReachabilityError) (nsub T p).
Proof.
  intros Hp Hok Hdone. rewrite (res_mapM_ok _ (nsub T)).
  2:{ intros c Hc. destruct (Hdone c Hc) as [n Hn]. rewrite Hn. by destruct (Hok c n Hn) as (_ & -> & _). }
  pose proof (nsub_le T p). pose proof (nsub_children T _ _ Hp) as Hn. unfold nsubs in Hn.
  assert (Forall (Z.le 0) (map (nsub T) (children dp))) as H0 by (apply Forall_fmap, Forall_forall; intros c _; unfold nsub; cbn; lia).
  pose proof (zsum_nonneg _ H0). cbn [mbind res_bind]. rewrite u64_sum_exact by (try done; lia). cbn [mbind res_bind].
  rewrite u64_add_ok by (unfold inW; lia). f_equal. lia.
Qed.

Lemma push_up_ok fuel : forall x Q Ex Rp sizes counts, count_inv {[x]} Q Ex Rp sizes counts -> (size Ex < fuel)%nat ->
  exists sizes' counts' Ex' Rp', push_up s b fuel x sizes counts = Ok (sizes', counts') /\ count_inv ∅ Q Ex' Rp' sizes' counts'.
Proof.
  induction fuel as [|fuel IH]; intros x Q Ex Rp sizes counts I Hfuel; [lia|]. cbn [push_up].
  destruct (decide (x = b)) as [->|Hxb].
  { exists sizes, counts, Ex, ({[b]} ∪ Rp). split; [done|]. by apply count_report_block. }
  assert (tanc M b x) as Hbx by (apply (ci_below _ _ _ _ _ _ I); mem).
  destruct (tanc_dom T _ _ Hbx) as [_ [d Hd]].
  destruct (to_parent _ _ T _ _ Hd (below_root _ Hbx Hxb)) as (dp & Hdp & Hin).
  rewrite (get_parent_ok s _ _ Hd). cbn [mbind res_bind]. rewrite (get_children_ok s _ _ Hdp). cbn [mbind res_bind].
  assert (parent d ∈ Ex) as HpE by (apply (ci_parent _ _ _ _ _ _ I x d); mem).
  destruct (ci_ex _ _ _ _ _ _ I _ _ HpE Hdp) as (_ & Hcount & Hlt). rewrite Hcount.
  pose proof (zlen_children _ _ Hdp). pose proof (cnt_le Rp (children dp)).
  rewrite u64_add_ok by (unfold inW; lia). cbn [mbind res_bind]. cbv zeta.
  destruct (cnt Rp (children dp) + 1 <? zlen (children dp)) eqn:Hc.
  { do 4 eexists. split; [done|]. by eapply (count_report x d (parent d) dp); [..|lia]. }
  destruct (count_finish x d (parent d) dp _ _ _ _ _ _ I Hd Hxb eq_refl Hdp Hin eq_refl ltac:(lia)) as [Hdone I'].
  pose proof (children_sum _ _ _ Hdp (ci_sizes _ _ _ _ _ _ I) Hdone) as Hsum.
  destruct (ns ← res_mapM _ (children dp); u64_sum ns) as [n| | |]; [|done..]. cbn [mbind res_bind] in *.
  rewrite Hsum. cbn [mbind res_bind]. apply (IH _ _ _ _ _ _ I').
  assert (size (Ex ∖ {[parent d]}) < size Ex)%nat; [|lia].
  apply subset_size. split; [apply subseteq_difference_l; done|]. intros Hsub. specialize (Hsub _ HpE). mem.
Qed.

Lemma count_done Q Ex Rp sizes counts : count_inv ∅ Q Ex Rp sizes counts -> Q = [] -> is_Some (sizes !! b).
Proof.
  intros I ->. apply (ci_done _ _ _ _ _ _ I). left.
  assert (forall n x, (Z.to_nat (nsub T x) < n)%nat -> x ∉ Ex) as Hno.
  { induction n as [|n IH]; intros x Hn HxE; [lia|].
    destruct (tanc_dom T b x) as [_ [d Hd]]; [apply (ci_below _ _ _ _ _ _ I); tauto|].
    destruct (ci_ex _ _ _ _ _ _ I _ _ HxE Hd) as (Hch & _ & Hlt). apply cnt_missing in Hlt as (c & Hc & HcR).
    apply (IH c).
    - pose proof (nsub_child_lt T _ _ _ Hd Hc). lia.
    - destruct (Hch c Hc) as [H|[H|[H|H]]]; [by apply elem_of_nil in H|done|done|by apply not_elem_of_empty in H]. }
  destruct (ci_block _ _ _ _ _ _ I) as [H|[H|[H|H]]]; [by apply elem_of_nil in H| |done|by apply not_elem_of_empty in H].
  by destruct (Hno (S (Z.to_nat (nsub T b))) b); [lia|].
Qed.

Lemma count_loop_ok fuel : forall Q Ex Rp sizes counts, count_inv ∅ Q Ex Rp sizes counts -> nsubs T Q < Z.of_nat fuel ->
  exists sizes', count_loop s b fuel Q sizes counts = Ok sizes' /\ sizes_ok sizes' /\ is_Some (sizes' !! b).
Proof.
  induction fuel as [|fuel IH]; intros Q Ex Rp sizes counts I Hfuel.
  { pose proof (nsubs_nonneg T Q). lia. }
  cbn [count_loop]. destruct Q as [|x Q].
  { exists sizes. split; [done|]. split; [apply (ci_sizes _ _ _ _ _ _ I)|]. by eapply count_done. }
  destruct (tanc_dom T b x) as [_ [d Hd]]; [apply (ci_below _ _ _ _ _ _ I); left; left|].
  rewrite (get_children_ok s _ _ Hd). cbn [mbind res_bind].
  rewrite nsubs_cons in Hfuel.
  pose proof (nsub_pos T _ _ Hd) as Hpos. pose proof (nsub_children T _ _ Hd) as Hn.
  destruct (negb (zlen (children d) =? 0) && negb (bool_decide (is_Some (sizes !! x)))) eqn:Hcase.
  { apply andb_true_iff in Hcase as [Hz _].
    apply (IH _ _ _ _ _ (count_expand _ _ _ _ _ _ _ I Hd ltac:(by intros He; rewrite He in Hz))).
    rewrite nsubs_app. lia. }
  cbv zeta. set (sizes1 := if zlen (children d) =? 0 then <[x := 1]> sizes else sizes).
  assert (count_inv {[x]} Q Ex Rp sizes1 counts) as I1.
  { pose proof (ci_sizes _ _ _ _ _ _ I) as Hok. unfold sizes1. destruct (zlen (children d) =? 0) eqn:Hz.
    - assert (children d = []) as Hnil by (destruct (children d); [done|]; rewrite zlen_cons in Hz; pose proof (zlen_nonneg l); lia).
      apply (count_pop x Q Ex Rp sizes); [done| | |by rewrite lookup_insert_eq].
      + intros y n Hy. destruct (decide (y = x)) as [->|Hne].
        * rewrite lookup_insert_eq in Hy. injection Hy as <-. split; [by eauto|]. rewrite Hnil in Hn. split; [by rewrite Hn|].
          intros z Hz'. destruct (tanc_top T _ _ _ Hz' Hd) as [<-|(c & Hc & _)]; [by rewrite lookup_insert_eq|].
          rewrite Hnil in Hc. by apply elem_of_nil in Hc.
        * rewrite lookup_insert_ne in Hy by done. destruct (Hok y n Hy) as (H1 & H2 & H3). split; [done|]. split; [done|].
          intros z Hz'. destruct (decide (z = x)) as [->|]; [by rewrite lookup_insert_eq|]. rewrite lookup_insert_ne by done. by apply H3.
      + intros y Hy. destruct (decide (y = x)) as [->|]; [by rewrite lookup_insert_eq|]. by rewrite lookup_insert_ne.
    - apply (count_pop x Q Ex Rp sizes); [done|done|done|].
      cbn in Hcase. apply negb_false_iff, bool_decide_eq_true in Hcase. done. }
  destruct (push_up_ok (fuel_of s) x Q Ex Rp sizes1 counts I1) as (sizes' & counts' & Ex' & Rp' & -> & I').
  { unfold fuel_of. rewrite <- (size_dom (D:=gset Hash)). apply Nat.lt_succ_r, subseteq_size. intros y Hy.
    apply elem_of_dom. destruct (tanc_dom T b y) as [_ ?]; [apply (ci_below _ _ _ _ _ _ I); tauto|done]. }
  cbn [mbind res_bind]. apply (IH _ _ _ _ _ I'). lia.
Qed.

Lemma count_init sizes d : M !! b = Some d -> sizes_ok sizes -> count_inv ∅ [b] ∅ ∅ sizes ∅.
Proof.
  intros Hb Hok. assert (forall y, y ∉ (∅ : gset Hash)) as H0 by (intros y; apply not_elem_of_empty). split.
  - done.
  - apply NoDup_singleton.
  - intros x. specialize (H0 x). tauto.
  - intros x Hx. specialize (H0 x). rewrite list_elem_of_singleton in Hx. destruct Hx as [->|?]; [by eapply tanc_refl|tauto].
  - left. left.
  - intros x dx Hx. by destruct (H0 x).
  - intros x dx Hx. specialize (H0 x). rewrite list_elem_of_singleton in Hx. tauto.
  - intros x dx Hx. by destruct (H0 x).
  - intros x Hx. specialize (H0 x). tauto.
  - intros x Hx. rewrite lookup_empty in Hx. by destruct Hx.
Qed.
End count.

(** ** Operations on a context *)
Lemma nsub_eq {r r'} {m m' : RMap} (T : tree_ok r m) (T' : tree_ok r' m') x : same_shape m m' -> nsub T x = nsub T' x.
Proof.
  intros Hs. unfold nsub. f_equal. f_equal. apply set_eq. intros y. rewrite !elem_subtree.
  split; apply same_shape_tanc; [done|by apply same_shape_sym].
Qed.
Lemma sizes_ok_shape {r r'} s s' (T : tree_ok r (reach_map s)) (T' : tree_ok r' (reach_map s')) sizes :
  same_shape (reach_map s) (reach_map s') -> sizes_ok s T sizes -> sizes_ok s' T' sizes.
Proof.
  intros Hs Hok x n Hx. destruct (Hok x n Hx) as ([d Hd] & -> & Hcl). split; [|split].
  - destruct (same_shape_lookup _ _ _ _ Hs Hd) as (d' & ? & _). eauto.
  - by apply nsub_eq.
  - intros y Hy. apply Hcl. eapply same_shape_tanc; [by apply same_shape_sym|done].
Qed.
Lemma sizes_ok_empty {r} s (T : tree_ok r (reach_map s)) : sizes_ok s T ∅.
Proof. intros x n Hx. by rewrite lookup_empty in Hx. Qed.

Section context.
Context {r} (ctx : ReindexOperationContext).
Abbreviation s := (ctx_store ctx).
Context (T : tree_ok r (reach_map s)) (Hsmall : Z.of_nat (size (reach_map s)) < 2 ^ 64).
Context (Hok : sizes_ok s T (subtree_sizes ctx)).

Lemma count_subtrees_ok b d : reach_map s !! b = Some d -> exists ctx', count_subtrees ctx b = Ok ctx' /\
  ctx_store ctx' = s /\ slack ctx' = slack ctx /\ sizes_ok s T (subtree_sizes ctx') /\
  forall x, tanc (reach_map s) b x -> subtree_sizes ctx' !! x = Some (nsub T x).
Proof.
  intros Hb.
  assert (forall sz, sizes_ok s T sz -> is_Some (sz !! b) -> forall x, tanc (reach_map s) b x -> sz !! x = Some (nsub T x)) as Hall.
  { intros sz Hsz [n Hn] x Hx. destruct (Hsz b n Hn) as (_ & _ & Hcl). destruct (Hcl x Hx) as [k Hk].
    rewrite Hk. by destruct (Hsz x k Hk) as (_ & -> & _). }
  unfold count_subtrees. destruct (bool_decide (is_Some (subtree_sizes ctx !! b))) eqn:Hc.
  { apply bool_decide_eq_true in Hc. exists ctx. split; [done|]. split; [done|]. split; [done|]. split; [done|]. by apply Hall. }
  destruct (count_loop_ok s T Hsmall b (fuel_of s) [b] ∅ ∅ (subtree_sizes ctx) ∅) as (sizes' & -> & Hok' & Hb').
  { by eapply count_init. }
  { unfold fuel_of. rewrite nsubs_cons. pose proof (nsub_le T b). cbn. lia. }
  cbn [mbind res_bind]. eexists. split; [done|]. split; [done|]. split; [done|]. split; [done|]. by apply Hall.
Qed.

(** After propagation every block below [b] is allocated; nothing else moved. *)
Lemma propagate_interval_ok b : roomy T (reach_map s) b -> exists ctx', propagate_interval ctx b = Ok ctx' /\
  same_shape (reach_map s) (reach_map (ctx_store ctx')) /\ slack ctx' = slack ctx /\
  reindex_root (ctx_store ctx') = reindex_root s /\
  sizes_ok s T (subtree_sizes ctx') /\
  (forall x, ~ tanc (reach_map s) b x \/ x = b -> reach_map (ctx_store ctx') !! x = reach_map s !! x) /\
  (forall x d, tanc (reach_map s) b x -> reach_map (ctx_store ctx') !! x = Some d -> node_ok (reach_map (ctx_store ctx')) d).
Proof.
  intros Hr. pose proof Hr as (d & Hd & _).
  destruct (count_subtrees_ok b d Hd) as (ctx1 & Hc & Hst & Hsl & Hok1 & Hall). unfold propagate_interval. rewrite Hc. cbn [mbind res_bind].
  rewrite Hst. destruct (propagate_loop_ok T (subtree_sizes ctx1) b Hall (fuel_of s) [b] s) as (s' & -> & I & Hroot).
  { split.
    - apply same_shape_refl.
    - done.
    - intros q ->%list_elem_of_singleton. split; [by eapply tanc_refl|done].
    - apply NoDup_singleton.
    - by intros q q' y ->%list_elem_of_singleton ->%list_elem_of_singleton.
    - intros x dx Hx Hn. by destruct (Hn b (list_elem_of_here _ _)). }
  { unfold fuel_of. rewrite nsubs_cons. pose proof (nsub_le T b). cbn. lia. }
  cbn [mbind res_bind]. eexists. split; [done|]. cbn. destruct I as [H1 H2 _ _ _ H6].
  split; [done|]. split; [done|]. split; [done|]. split; [done|]. split; [done|].
  intros x dx Hx Hdx. apply (H6 x dx Hx); [|done]. intros q Hq. by apply elem_of_nil in Hq.
Qed.
End context.

(** An allocated block has room for its subtree. *)
Lemma alloc_room {r m} (T : tree_ok r m) b : (forall x d, tanc m b x -> m !! x = Some d -> node_ok m d) ->
  forall n x d, (Z.to_nat (nsub T x) < n)%nat -> tanc m b x -> m !! x = Some d -> nsub T x <= end_of d + 1 - start_of d.
Proof.
  intros A. induction n as [|n IH]; intros x d Hn Hbx Hx; [lia|].
  destruct (A x d Hbx Hx) as (H1 & H2 & Hf). rewrite (nsub_children T _ _ Hx).
  assert (forall cs lo hi, fits m lo hi cs -> (forall c, c ∈ cs -> c ∈ children d) -> nsubs T cs <= hi + 1 - lo) as Hfit.
  { induction cs as [|c cs IHc]; intros lo hi; [cbn; intros; unfold nsubs; cbn; lia|].
    intros (dc & Hdc & Hb1 & Hb2 & Hf') Hsub. rewrite nsubs_cons.
    pose proof (IHc _ _ Hf' (fun c' Hc' => Hsub c' (list_elem_of_further _ _ _ Hc'))).
    assert (nsub T c <= end_of dc + 1 - start_of dc); [|lia].
    apply (IH c dc); [|eapply tanc_step; [exact Hbx|exact Hx|apply Hsub; left]|done].
    pose proof (nsub_child_lt T _ _ c Hx (Hsub c (list_elem_of_here _ _))). lia. }
  pose proof (Hfit _ _ _ Hf (fun c Hc => Hc)). lia.
Qed.
