(* ===== verification/ReachOps.v ===== *)
(** * Adding blocks to the reachability tree

    [add_tree_block] and [add_dag_block]: the invariant is preserved, the tree
    gains the new block below its parent, and the future covering sets keep
    answering the queries of the block DAG. *)

From S2P Require Import Prelude Interval Reachability ReachTree Reindex.

Implicit Types (m : RMap) (h a b c p x y r n : Hash) (d : MemoryReachabilityData).

(** ** Lists of allocated blocks *)
Lemma fits_ext m m' lo hi cs : fits m lo hi cs ->
  (forall c d, c ∈ cs -> m !! c = Some d -> exists d', m' !! c = Some d' /\ interval d' = interval d) -> fits m' lo hi cs.
Proof.
  revert lo. induction cs as [|c cs IH]; intros lo Hf Hext; [done|]. destruct Hf as (d & Hd & H1 & H2 & Hf).
  destruct (Hext c d (list_elem_of_here _ _) Hd) as (d' & Hd' & Hiv). exists d'. unfold start_of, end_of in *. rewrite Hiv.
  split; [done|]. split; [done|]. split; [done|]. apply IH; [done|]. intros c' dc' Hc'. apply Hext. by right.
Qed.
Lemma fits_weaken m lo hi hi' cs : fits m lo hi cs -> hi <= hi' -> fits m lo hi' cs.
Proof.
  revert lo. induction cs as [|c cs IH]; intros lo; [cbn; lia|]. intros (d & Hd & H1 & H2 & Hf) Hle.
  exists d. split; [done|]. split; [done|]. split; [lia|]. by apply IH.
Qed.
Lemma fits_app m lo mid hi l k : fits m lo mid l -> fits m (mid + 1) hi k -> fits m lo hi (l ++ k).
Proof.
  revert lo. induction l as [|c l IH]; intros lo.
  - cbn. intros Hlo Hk. destruct k as [|c k]; [cbn in *; lia|]. destruct Hk as (d & Hd & H1 & H2 & Hf). exists d. split; [done|].
    split; [lia|]. done.
  - intros (d & Hd & H1 & H2 & Hf) Hk. cbn [app]. exists d. split; [done|]. split; [done|].
    pose proof (fits_bounds _ _ _ _ Hk). split; [lia|]. by apply IH.
Qed.
Lemma fits_after m lo hi cs : fits m lo hi cs -> exists e, fits m lo (e - 1) cs /\ lo <= e <= hi + 1 /\
  match last cs with Some c => exists d, m !! c = Some d /\ e = end_of d + 1 | None => e = lo end.
Proof.
  revert lo. induction cs as [|c cs IH]; intros lo; [cbn; exists lo; split; [lia|]; split; [lia|done]|].
  intros (d & Hd & H1 & H2 & Hf). destruct (IH _ Hf) as (e & Hfe & He & Hlast). exists e.
  split; [|split; [lia|]].
  - exists d. split; [done|]. split; [lia|]. split; [|done]. pose proof (fits_bounds _ _ _ _ Hfe). lia.
  - rewrite last_cons. destruct (last cs); [exact Hlast|]. exists d. split; [done|]. lia.
Qed.

Section remaining.
Context (s : MemoryReachabilityStore) (p : Hash) (dp : MemoryReachabilityData).
Context (Hp : reach_map s !! p = Some dp) (Hnode : node_ok (reach_map s) dp).

Lemma remaining_after_ok : exists e, interval_remaining_after s p = Ok (mkInterval e (end_of dp - 1)) /\
  fits (reach_map s) (start_of dp) (e - 1) (children dp) /\ start_of dp <= e <= end_of dp.
Proof.
  destruct Hnode as (H1 & H2 & Hf). destruct (fits_after _ _ _ _ Hf) as (e & Hfe & He & Hlast). exists e.
  split; [|split; [done|lia]]. unfold interval_remaining_after, interval_children_capacity.
  rewrite (get_interval_ok s _ _ Hp). cbn [mbind res_bind]. unfold start_of, end_of in *. unfold decrease_end.
  rewrite u64_sub_ok by (unfold inW; lia). cbn [mbind res_bind]. rewrite (get_children_ok s _ _ Hp). cbn [mbind res_bind].
  destruct (last (children dp)) as [c|] eqn:Hl; [|by subst e].
  destruct Hlast as (dc & Hdc & ->). rewrite (get_interval_ok s _ _ Hdc). cbn [mbind res_bind]. unfold end_of in *.
  rewrite u64_add_ok by (unfold inW; lia). done.
Qed.
End remaining.

(** ** The tree with one more leaf *)
Section add_leaf.
Context {r m} (T : tree_ok r m) (n p : Hash) (dp dn : MemoryReachabilityData).
Context (Hp : m !! p = Some dp) (Hn : m !! n = None) (HnN : n <> NONE).
Context (Hpar : parent dn = p) (Hch : children dn = []) (Hh : height dn = height dp + 1).

Definition add_leaf : RMap := <[n := dn]> (<[p := with_children dp (children dp ++ [n])]> m).

Lemma add_leaf_n : add_leaf !! n = Some dn.
Proof. apply lookup_insert_eq. Qed.
Lemma n_ne_p : n <> p.
Proof using Hp Hn. intros He. rewrite He in Hn. congruence. Qed.
Lemma add_leaf_p : add_leaf !! p = Some (with_children dp (children dp ++ [n])).
Proof using Hp Hn. unfold add_leaf. rewrite lookup_insert_ne by apply n_ne_p. apply lookup_insert_eq. Qed.
Lemma add_leaf_other x : x <> n -> x <> p -> add_leaf !! x = m !! x.
Proof. intros H1 H2. unfold add_leaf. by rewrite !lookup_insert_ne by done. Qed.
Lemma add_leaf_old x d : m !! x = Some d -> exists d', add_leaf !! x = Some d' /\ parent d' = parent d /\ height d' = height d /\
  interval d' = interval d /\ future_covering_set d' = future_covering_set d /\
  children d' = children d ++ (if decide (x = p) then [n] else []).
Proof using Hp Hn.
  intros Hx. assert (x <> n) by congruence. destruct (decide (x = p)) as [->|Hne].
  - exists (with_children dp (children dp ++ [n])). rewrite add_leaf_p. assert (d = dp) as -> by congruence. done.
  - exists d. rewrite add_leaf_other by done. rewrite app_nil_r. done.
Qed.
Lemma add_leaf_inv x d' : add_leaf !! x = Some d' -> x <> n -> exists d, m !! x = Some d /\ parent d' = parent d /\ height d' = height d /\
  interval d' = interval d /\ children d' = children d ++ (if decide (x = p) then [n] else []).
Proof using Hp Hn.
  intros Hx Hne. destruct (m !! x) as [d|] eqn:Hm.
  - destruct (add_leaf_old x d Hm) as (d2 & Hd2 & ? & ? & ? & ? & ?). assert (d2 = d') as -> by congruence. by exists d.
  - destruct (decide (x = p)) as [->|]; [congruence|]. rewrite add_leaf_other in Hx by done. congruence.
Qed.

Lemma add_leaf_tree : tree_ok r add_leaf.
Proof.
  split.
  - destruct (to_root _ _ T) as (d & Hd & HN). destruct (add_leaf_old r d Hd) as (d' & Hd' & Hpd & _). exists d'. by rewrite Hpd.
  - destruct (decide (NONE = p)) as [He|He]; [pose proof (to_none _ _ T); congruence|].
    rewrite add_leaf_other by done. apply (to_none _ _ T).
  - intros x d' c Hx Hc. destruct (decide (x = n)) as [->|Hxn].
    { rewrite add_leaf_n in Hx. simplify_eq. rewrite Hch in Hc. by apply elem_of_nil in Hc. }
    destruct (add_leaf_inv x d' Hx Hxn) as (d & Hd & _ & Hhd & _ & Hcd). rewrite Hcd in Hc.
    apply elem_of_app in Hc as [Hc|Hc].
    + destruct (to_child _ _ T _ _ _ Hd Hc) as (dc & Hdc & Hpc & Hlt).
      destruct (add_leaf_old c dc Hdc) as (dc' & Hdc' & Hp' & Hh' & _). exists dc'. split; [done|]. split; [congruence|lia].
    + destruct (decide (x = p)) as [->|]; [|by apply elem_of_nil in Hc]. apply list_elem_of_singleton in Hc as ->.
      exists dn. rewrite add_leaf_n. split; [done|]. split; [done|]. assert (d = dp) as -> by congruence. lia.
  - intros x d' Hx Hxr. destruct (decide (x = n)) as [->|Hxn].
    { rewrite add_leaf_n in Hx. simplify_eq. eexists. split; [rewrite Hpar; apply add_leaf_p|]. apply elem_of_app. right. left. }
    destruct (add_leaf_inv x d' Hx Hxn) as (d & Hd & Hpd & _). destruct (to_parent _ _ T _ _ Hd Hxr) as (dq & Hdq & Hin).
    destruct (add_leaf_old _ dq Hdq) as (dq' & Hdq' & _ & _ & _ & _ & Hcq). exists dq'. rewrite Hpd. split; [done|].
    rewrite Hcq. apply elem_of_app. by left.
  - intros x d' Hx. destruct (decide (x = n)) as [->|Hxn].
    { rewrite add_leaf_n in Hx. simplify_eq. rewrite Hch. constructor. }
    destruct (add_leaf_inv x d' Hx Hxn) as (d & Hd & _ & _ & _ & ->). apply NoDup_app. split; [by eapply (to_nodup _ _ T)|].
    split; [|destruct (decide (x = p)); [apply NoDup_singleton|constructor]]. intros c Hc Hc'.
    destruct (decide (x = p)); [|by apply elem_of_nil in Hc']. apply list_elem_of_singleton in Hc' as ->.
    destruct (to_child _ _ T _ _ _ Hd Hc) as (dc & Hdc & _). congruence.
  - intros x d' Hx. destruct (decide (x = n)) as [->|Hxn].
    { rewrite add_leaf_n in Hx. simplify_eq. pose proof (to_height _ _ T _ _ Hp). lia. }
    destruct (add_leaf_inv x d' Hx Hxn) as (d & Hd & _ & -> & _). by eapply (to_height _ _ T).
Qed.

Lemma add_leaf_tanc x y : tanc add_leaf x y <-> (y <> n /\ tanc m x y) \/ (y = n /\ (x = n \/ tanc m x p)).
Proof using T Hp Hn Hch.
  split.
  - induction 1 as [d Hx|q dq c Hq IH Hdq Hc].
    + destruct (decide (x = n)) as [->|Hxn]; [right; tauto|]. left. split; [done|].
      destruct (add_leaf_inv x d Hx Hxn) as (d0 & Hd0 & _). by eapply tanc_refl.
    + destruct (decide (q = n)) as [->|Hqn].
      { rewrite add_leaf_n in Hdq. simplify_eq. rewrite Hch in Hc. by apply elem_of_nil in Hc. }
      destruct IH as [[_ IH]|[-> _]]; [|done].
      destruct (add_leaf_inv q dq Hdq Hqn) as (d0 & Hd0 & _ & _ & _ & Hcd). rewrite Hcd in Hc.
      apply elem_of_app in Hc as [Hc|Hc].
      * left. destruct (to_child _ _ T _ _ _ Hd0 Hc) as (dc & Hdc & _). split; [congruence|]. by eapply tanc_step.
      * destruct (decide (q = p)) as [->|]; [|by apply elem_of_nil in Hc]. apply list_elem_of_singleton in Hc as ->. right. tauto.
  - assert (forall a b, tanc m a b -> tanc add_leaf a b) as Hmono.
    { induction 1 as [d Ha|q dq c Hq IH Hdq Hc].
      - destruct (add_leaf_old _ d Ha) as (d' & ? & _). by eapply tanc_refl.
      - destruct (add_leaf_old _ dq Hdq) as (d' & Hd' & _ & _ & _ & _ & Hcd). eapply tanc_step; [done|done|].
        rewrite Hcd. apply elem_of_app. by left. }
    intros [[_ H]|[-> [->|H]]]; [by apply Hmono|by eapply tanc_refl, add_leaf_n|].
    eapply tanc_step; [by apply Hmono|apply add_leaf_p|]. apply elem_of_app. right. left.
Qed.

(** Blocks other than the parent keep their allocation. *)
Lemma add_leaf_node x d d' : m !! x = Some d -> x <> p -> add_leaf !! x = Some d' -> node_ok m d -> node_ok add_leaf d'.
Proof using Hp Hn.
  intros Hx Hxp Hx' (H1 & H2 & Hf). destruct (add_leaf_old x d Hx) as (d2 & Hd2 & _ & _ & Hiv & _ & Hc).
  assert (d2 = d') as -> by congruence. rewrite decide_False, app_nil_r in Hc by done.
  unfold node_ok, start_of, end_of in *. rewrite Hiv, Hc. split; [done|]. split; [done|].
  eapply fits_ext; [exact Hf|]. intros c dc Hc' Hdc. destruct (add_leaf_old c dc Hdc) as (dc' & ? & _ & _ & ? & _). eauto.
Qed.
End add_leaf.

(** ** Reindexing inside the subtree of the reindex root *)
Section reindex.
Context {r} (root n p : Hash) (s1 : MemoryReachabilityStore).
Abbreviation M1 := (reach_map s1).
Context (T1 : tree_ok r M1) (Hsmall : Z.of_nat (size M1) < 2 ^ 64).
Context (Hnp : exists dp, M1 !! p = Some dp /\ n ∈ children dp) (Hleaf : exists dn, M1 !! n = Some dn /\ children dn = [] /\
  iv_ok (interval dn) /\ iv_len (interval dn) = 0).
(** Everything but the new block and its parent is allocated. *)
Context (Hiv : forall x d, x <> n -> M1 !! x = Some d -> 1 <= start_of d <= end_of d /\ end_of d < 2 ^ 64 - 1).
Context (Hnode : forall x d, x <> n -> x <> p -> M1 !! x = Some d -> node_ok M1 d).
Context (Hroot : exists d, M1 !! root = Some d /\ nsub T1 root <= end_of d + 1 - start_of d) (Hrn : root <> n).
Context (Hstrict : forall x dx droot, x <> n -> tanc M1 root x -> M1 !! x = Some dx -> M1 !! root = Some droot ->
  strictly_contains (interval dx) (interval droot) = false).

Lemma above_leaf c : tanc M1 c n -> c = n \/ tanc M1 c p.
Proof.
  intros [->|(q & dq & Hdq & Hin & Hq)]%tanc_inv; [by left|]. right. destruct Hnp as (dp & Hdp & Hin').
  by rewrite (child_parent T1 _ _ _ _ _ Hdp Hin' Hdq Hin).
Qed.

(** Propagating from an ancestor of the new block repairs the allocation. *)
Lemma propagate_repairs c m' : tanc M1 c p -> same_shape M1 m' ->
  (forall x, ~ tanc M1 c x \/ x = c -> m' !! x = M1 !! x) ->
  (forall x d, tanc M1 c x -> m' !! x = Some d -> node_ok m' d) -> alloc_ok m'.
Proof.
  intros Hcp Hs Hout Hin x d' Hx'. destruct (tanc_dec T1 c x) as [Hcx|Hcx]; [by apply (Hin x)|].
  assert (M1 !! x = Some d') as Hx by (rewrite <- Hout; tauto).
  assert (x <> p) by (intros ->; done).
  assert (x <> n).
  { intros ->. apply Hcx. destruct Hnp as (dp & Hdp & Hn). by eapply tanc_step. }
  destruct (Hnode x d') as (H1 & H2 & Hf); [done..|]. split; [done|]. split; [done|].
  eapply fits_ext; [exact Hf|]. intros y dy Hy Hdy. exists dy. split; [|done]. rewrite Hout; [done|].
  destruct (decide (y = c)) as [->|Hne]; [by right|]. left. intros Hcy. apply Hcx.
  apply tanc_inv in Hcy as [->|(q & dq & Hdq & Hyq & Hq)]; [done|]. by rewrite <- (child_parent T1 _ _ _ _ _ Hdq Hyq Hx Hy).
Qed.

Lemma reindex_loop_ok fuel : forall ctx c, ctx_store ctx = s1 -> sizes_ok s1 T1 (subtree_sizes ctx) ->
  tanc M1 c n -> tanc M1 root c -> Z.of_nat (size M1) - nsub T1 c < Z.of_nat fuel ->
  exists ctx', reindex_loop root fuel ctx c = Ok ctx' /\ same_shape M1 (reach_map (ctx_store ctx')) /\
    alloc_ok (reach_map (ctx_store ctx')) /\ reindex_root (ctx_store ctx') = reindex_root s1 /\
    (forall x, tanc M1 x root -> reach_map (ctx_store ctx') !! x = M1 !! x).
Proof.
  induction fuel as [|fuel IH]; intros ctx c Hctx Hok Hcn Hrc Hfuel; [pose proof (nsub_le T1 c); lia|]. cbn [reindex_loop].
  destruct ctx as [st sz sl]. cbn [ctx_store subtree_sizes] in *. subst st.
  destruct (tanc_dom T1 _ _ Hcn) as [[dc Hdc] _]. rewrite (get_interval_ok s1 _ _ Hdc). cbn [mbind res_bind].
  destruct (count_subtrees_ok (mkContext s1 sz sl) T1 Hsmall Hok c dc Hdc) as (ctx1 & -> & Hst & Hsl & Hok1 & Hall). cbn [mbind res_bind]. cbn [ctx_store] in Hst, Hok1, Hall.
  assert (iv_ok (interval dc)) as Hivc.
  { destruct (decide (c = n)) as [->|Hne]; [destruct Hleaf as (dn & Hdn & _ & ? & _); by simplify_eq|].
    destruct (Hiv c dc Hne Hdc) as [H1 H2]. unfold iv_ok, start_of, end_of in *. lia. }
  rewrite iv_size_ok by done. cbn [mbind res_bind]. unfold subtree_size. rewrite (Hall c) by (by eapply tanc_refl).
  cbn [unwrap mbind res_bind]. pose proof (nsub_pos T1 _ _ Hdc) as Hpos.
  destruct (nsub T1 c <=? iv_len (interval dc)) eqn:Hfit.
  - assert (c <> n) as Hcne by (intros ->; destruct Hleaf as (dn & Hdn & _ & _ & ?); simplify_eq; lia).
    assert (roomy T1 (reach_map (ctx_store ctx1)) c) as Hroomy.
    { rewrite Hst. exists dc. destruct (Hiv c dc Hcne Hdc). unfold iv_len, start_of, end_of in *. split; [done|]. lia. }
    destruct ctx1 as [st1 sz1 sl1]. cbn in Hst, Hok1, Hroomy. subst st1.
    destruct (propagate_interval_ok (mkContext s1 sz1 sl1) T1 Hsmall Hok1 c Hroomy)
      as (ctx2 & -> & Hs2 & _ & Hr2 & _ & Hout2 & Hin2).
    cbn [ctx_store] in Hs2, Hr2, Hout2, Hin2. exists ctx2. split; [done|]. split; [done|]. split; [|split; [done|]].
    + destruct (above_leaf c Hcn) as [->|Hcp]; [done|]. by eapply propagate_repairs.
    + intros x Hx. apply Hout2. destruct (decide (x = c)) as [E|Hne]; [by right|]. left. intros Hcx. apply Hne.
      apply (tanc_antisym T1); [by eapply tanc_trans|done].
  - rewrite Hst. rewrite (get_parent_ok _ _ _ Hdc). cbn [mbind res_bind].
    assert (c <> root) as Hcr.
    { intros ->. destruct Hroot as (dr & Hdr & Hcap). simplify_eq. unfold iv_len, start_of, end_of in *. lia. }
    assert (c <> r) as Hcr'.
    { intros ->. apply Hcr. destruct (tanc_dom T1 _ _ Hrc) as [[dr Hdr] _].
      by apply (tanc_antisym T1 _ _ (tanc_root T1 _ _ Hdr)). }
    destruct (to_parent _ _ T1 _ _ Hdc Hcr') as (dq & Hdq & Hcq).
    rewrite decide_False by (intros He; rewrite He in Hdq; pose proof (to_none _ _ T1); congruence).
    rewrite decide_False by done.
    assert (tanc M1 root (parent dc)) as Hrq.
    { apply tanc_inv in Hrc as [->|(q & dq' & Hdq' & Hin & Hq)]; [done|]. by rewrite (child_parent T1 _ _ _ _ _ Hdq Hcq Hdq' Hin). }
    assert (parent dc <> n) as Hqn.
    { intros He. destruct Hleaf as (dn & Hdn & Hnil & _). rewrite He in Hdq. simplify_eq. rewrite Hnil in Hcq. by apply elem_of_nil in Hcq. }
    destruct Hroot as (dr & Hdr & Hcap). rewrite (is_strict_chain_ancestor_eval _ _ _ _ _ Hdq Hdr). cbn [mbind res_bind].
    rewrite (Hstrict _ _ _ Hqn Hrq Hdq Hdr). apply IH; [done|done| |done|].
    + eapply tanc_trans; [by eapply tanc_child|done].
    + pose proof (nsub_child_lt T1 _ _ _ Hdq Hcq). lia.
Qed.
End reindex.

(** ** Adding a tree block *)
Definition room m root (k : Z) : Prop := exists d (X : gset Hash), m !! root = Some d /\
  (forall y, y ∈ X <-> tanc m root y) /\ Z.of_nat (size X) + k <= end_of d + 1 - start_of d.

Section add_tree.
Context {r} (s : MemoryReachabilityStore) (n p : Hash) (dp : MemoryReachabilityData).
Abbreviation M := (reach_map s).
Context (T : tree_ok r M) (A : alloc_ok M) (Hsmall : Z.of_nat (size M) + 1 < 2 ^ 64).
Context (Hp : M !! p = Some dp) (Hn : M !! n = None) (HnN : n <> NONE) (Hheight : height dp + 1 < 2 ^ 64).

(** The block [n] is inserted as the last child of [p], and only intervals moved. *)
(** The blocks above [root] keep their intervals and heights. *)
Definition kept_above root m m' : Prop := forall x d, tanc m x root -> m !! x = Some d ->
  exists d', m' !! x = Some d' /\ interval d' = interval d /\ height d' = height d.
Definition tree_added (s' : MemoryReachabilityStore) : Prop := exists dn,
  parent dn = p /\ children dn = [] /\ height dn = height dp + 1 /\ future_covering_set dn = [] /\
  same_shape (add_leaf (m:=M) n p dp dn) (reach_map s') /\ alloc_ok (reach_map s') /\ reindex_root s' = reindex_root s /\
  (forall root, reindex_root s = Some root -> kept_above root M (reach_map s')).

Lemma add_leaf_kept root dn m' : (forall x, tanc (add_leaf (m:=M) n p dp dn) x root -> m' !! x = add_leaf (m:=M) n p dp dn !! x) ->
  children dn = [] -> kept_above root M m'.
Proof using T Hp Hn.
  intros Hm Hc x d Hx Hd. destruct (add_leaf_old n p dp dn Hp Hn x d Hd) as (d' & Hd' & _ & Hh & Hi & _). exists d'. split; [|done].
  rewrite Hm; [done|]. apply (add_leaf_tanc T n p dp dn Hp Hn Hc). left. split; [|done]. intros ->.
  destruct (tanc_dom T _ _ Hx) as [_ [d1 Hd1]]. congruence.
Qed.

(** A new block that gets a part of the remaining interval. *)
Lemma add_leaf_alloc e e1 : fits M (start_of dp) (e - 1) (children dp) -> start_of dp <= e -> e <= e1 -> e1 < end_of dp ->
  alloc_ok (add_leaf (m:=M) n p dp (new_data p (mkInterval e e1) (height dp + 1))).
Proof.
  intros Hf H1 H2 H3 x d' Hx'. pose proof (A _ _ Hp) as (HA1 & HA2 & _).
  set (dn := new_data p (mkInterval e e1) (height dp + 1)) in *.
  destruct (decide (x = n)) as [->|Hxn].
  { rewrite add_leaf_n in Hx'. simplify_eq. unfold node_ok, start_of, end_of in *. cbn. lia. }
  destruct (add_leaf_inv n p dp dn Hp Hn x d' Hx' Hxn) as (d & Hd & _).
  destruct (decide (x = p)) as [->|Hxp].
  2:{ apply (add_leaf_node n p dp dn Hp Hn x d d' Hd Hxp Hx'). by apply (A x). }
  rewrite (add_leaf_p n p dp dn Hp Hn) in Hx'. simplify_eq. unfold node_ok, start_of, end_of in *. cbn.
  split; [done|]. split; [done|]. apply (fits_app _ _ (e - 1)).
  - eapply fits_ext; [exact Hf|]. intros c dc Hc Hdc. destruct (add_leaf_old n p dp dn Hp Hn c dc Hdc) as (dc' & ? & _ & _ & ? & _). eauto.
  - exists dn. rewrite add_leaf_n. unfold start_of, end_of. cbn. split; [done|]. split; [lia|]. split; [lia|]. lia.
Qed.

(** Adding a leaf below a block adds one to the sizes above. *)
Lemma nsub_add_leaf dn (T1 : tree_ok r (add_leaf (m:=M) n p dp dn)) x : children dn = [] -> tanc M x p -> nsub T1 x = nsub T x + 1.
Proof.
  intros Hc Hxp. unfold nsub. replace (subtree T1 x) with ({[n]} ∪ subtree T x).
  - rewrite size_union, size_singleton; [lia|]. intros y ->%elem_of_singleton Hy%elem_subtree.
    destruct (tanc_dom T _ _ Hy) as [_ [d Hd]]. congruence.
  - apply set_eq. intros y. rewrite elem_of_union, elem_of_singleton, !elem_subtree, (add_leaf_tanc T n p dp dn Hp Hn Hc).
    split; [|tauto]. intros [->|Hy]; [tauto|]. left. split; [|done]. intros ->. destruct (tanc_dom T _ _ Hy) as [_ [d Hd]]. congruence.
Qed.

Lemma add_tree_block_ok root reindex_slack : reindex_root s = Some root ->
  ((exists i, interval_remaining_after s p = Ok i /\ 0 < iv_len i) \/ (tanc M root p /\ room M root 1)) ->
  exists s', add_tree_block s n p reindex_slack = Ok s' /\ tree_added s'.
Proof.
  intros Hroot Hcase. pose proof (A _ _ Hp) as Hnodep. pose proof Hnodep as (HA1 & HA2 & _).
  destruct (remaining_after_ok s p dp Hp Hnodep) as (e & Hrem & Hfe & He).
  pose proof (to_height _ _ T _ _ Hp) as Hh0. unfold add_tree_block. rewrite Hrem. cbn [mbind res_bind].
  unfold append_child. rewrite (get_data_ok s _ _ Hp). cbn [mbind res_bind].
  set (s0 := set_data s p (with_children dp (children dp ++ [n]))).
  assert (reach_map s0 !! p = Some (with_children dp (children dp ++ [n]))) as Hp0 by apply lookup_insert_eq.
  rewrite (get_height_ok s0 _ _ Hp0). cbn [mbind res_bind height with_children].
  assert (iv_ok (mkInterval e (end_of dp - 1))) as Hiv by (unfold iv_ok; cbn; lia).
  unfold iv_is_empty. rewrite iv_size_ok by done. cbn [mbind res_bind]. rewrite u64_add_ok by (unfold inW; lia). cbn [mbind res_bind].
  assert (reach_map s0 !! n = None) as Hn0 by (cbn; rewrite lookup_insert_ne; [done|]; intros ->; congruence).
  destruct (iv_len (mkInterval e (end_of dp - 1)) =? 0) eqn:Hfull.
  - unfold store_insert. rewrite Hn0. cbn [mbind res_bind].
    set (dn := new_data p (mkInterval e (end_of dp - 1)) (height dp + 1)).
    unfold get_reindex_root. cbn [set_data reindex_root s0]. rewrite Hroot. cbn [ok_or mbind res_bind].
    set (s1 := set_data s0 n dn). assert (tree_ok r (reach_map s1)) as T1 by (by apply (add_leaf_tree T n p dp dn Hp Hn)).
    destruct Hcase as [(i & Hi & Hlen)|[Hrp (dr & X & Hdr & HX & Hcap)]]; [rewrite Hrem in Hi; simplify_eq; lia|].
    assert (root <> n) as Hrn by (intros ->; congruence).
    assert (forall x d', x <> n -> reach_map s1 !! x = Some d' -> exists d, M !! x = Some d /\ interval d' = interval d) as Hold.
    { intros x d' Hxn Hx. destruct (add_leaf_inv n p dp dn Hp Hn x d' Hx Hxn) as (d & Hd & _ & _ & ? & _). eauto. }
    assert (Z.of_nat (size (reach_map s1)) <= Z.of_nat (size M) + 1) as Hsz1.
    { change (reach_map s1) with (<[n := dn]> (reach_map s0)). rewrite map_size_insert_None by done.
      cbn. rewrite map_size_insert_Some by eauto. lia. }
    destruct (reindex_loop_ok root n p s1 T1 ltac:(lia)) with (fuel := fuel_of s1) (ctx := context_new s1 reindex_slack) (c := n)
      as (ctx' & Hloop & Hsh & Hal & Hrt & Hab).
    { eexists. split; [by apply (add_leaf_p n p dp dn Hp Hn)|]. apply elem_of_app. right. left. }
    { exists dn. split; [apply lookup_insert_eq|]. split; [done|]. split; [done|]. cbn. lia. }
    { intros x d' Hxn Hx. destruct (Hold x d' Hxn Hx) as (d & Hd & Hi). destruct (A x d Hd) as (H1 & H2 & _).
      unfold start_of, end_of in *. by rewrite Hi. }
    { intros x d' Hxn Hxp Hx. destruct (add_leaf_inv n p dp dn Hp Hn x d' Hx Hxn) as (d & Hd & _).
      apply (add_leaf_node n p dp dn Hp Hn x d d' Hd Hxp Hx). by apply (A x). }
    { destruct (add_leaf_old n p dp dn Hp Hn root dr Hdr) as (dr' & Hdr' & _ & _ & Hi & _). exists dr'. split; [done|].
      unfold start_of, end_of in *. rewrite Hi.
      etrans; [apply Z.eq_le_incl; exact (nsub_add_leaf dn T1 root eq_refl Hrp)|]. unfold nsub.
      replace (subtree T root) with X; [lia|]. apply set_eq. intros y. by rewrite HX, elem_subtree. }
    { exact Hrn. }
    { intros x dx droot Hxn Hrx Hx Hdroot. destruct (Hold x dx Hxn Hx) as (d & Hd & ->).
      destruct (Hold root droot Hrn Hdroot) as (d2 & Hd2 & ->).
      apply not_true_iff_false. intros [Hxr Hne]%(strictly_contains_tanc T A _ _ _ _ Hd Hd2).
      apply (add_leaf_tanc T n p dp dn Hp Hn eq_refl) in Hrx as [[_ Hrx]|[-> _]]; [|done].
      by apply Hne, (tanc_antisym T). }
    { done. }
    { apply sizes_ok_empty. }
    { eapply tanc_refl, lookup_insert_eq. }
    { apply (add_leaf_tanc T n p dp dn Hp Hn eq_refl). right. tauto. }
    { unfold fuel_of. pose proof (nsub_pos T1 n dn ltac:(apply lookup_insert_eq)). lia. }
    unfold reindex_intervals. cbn [ctx_store context_new]. rewrite Hloop. cbn [mbind res_bind].
    exists (ctx_store ctx'). split; [done|]. exists dn. do 4 (split; [done|]). split; [exact Hsh|]. split; [exact Hal|].
    split; [exact Hrt|]. intros root' Hr'. assert (root' = root) as -> by congruence. by apply (add_leaf_kept root dn).
  - destruct (split_half_ok (E:=ReachabilityError) (mkInterval e (end_of dp - 1)) Hiv) as (e1 & -> & He1).
    { unfold iv_len in *. cbn in *. lia. }
    cbn [mbind res_bind]. unfold store_insert. rewrite Hn0. cbn in He1. eexists. split; [done|].
    exists (new_data p (mkInterval e e1) (height dp + 1)). repeat (split; [done|]). split; [apply same_shape_refl|]. split; [|split; [done|]].
    + apply (add_leaf_alloc e e1); [exact Hfe|lia|lia|lia].
    + intros root' _. by apply (add_leaf_kept root' (new_data p (mkInterval e e1) (height dp + 1))).
Qed.
End add_tree.

(** ** The order of unrelated blocks

    Of two blocks in different subtrees of siblings, the one in the earlier
    sibling comes first: the order depends on the shape of the tree only, so
    reindexing keeps it. *)
Definition before m x y : Prop := exists q dq i j c c', m !! q = Some dq /\ (i < j)%nat /\
  children dq !! i = Some c /\ children dq !! j = Some c' /\ tanc m c x /\ tanc m c' y.

Section order.
Context {r m} (T : tree_ok r m).

Lemma unrelated_before x y dx dy : m !! x = Some dx -> m !! y = Some dy -> ~ tanc m x y -> ~ tanc m y x ->
  before m x y \/ before m y x.
Proof.
  intros Hx Hy. pose proof (tanc_root T _ _ Hx) as Hr. revert dx Hx.
  induction Hr as [d Hd|q dq c Hq IH Hqd Hc]; intros dx Hx Hxy Hyx; [by destruct Hxy; eapply (tanc_root T)|].
  destruct (tanc_dec T q y) as [Hqy|Hqy].
  - destruct (tanc_top T _ _ _ Hqy Hqd) as [<-|(c' & Hc' & Ht)]; [destruct Hyx; by eapply tanc_child|].
    apply list_elem_of_lookup in Hc as [i Hi]. apply list_elem_of_lookup in Hc' as [j Hj].
    assert (tanc m c c) as Hcc by (by eapply tanc_refl).
    destruct (lt_eq_lt_dec i j) as [[Hij|Hij]|Hij].
    + left. by exists q, dq, i, j, c, c'.
    + assert (c = c') as <- by congruence. done.
    + right. by exists q, dq, j, i, c', c.
  - destruct (IH _ Hqd Hqy) as [H|H].
    + intros Hyq. apply Hyx. by eapply tanc_step.
    + left. destruct H as (q' & dq' & i & j & a & a' & H1 & H2 & H3 & H4 & H5 & H6).
      exists q', dq', i, j, a, a'. repeat split; try done. by eapply tanc_step.
    + right. destruct H as (q' & dq' & i & j & a & a' & H1 & H2 & H3 & H4 & H5 & H6).
      exists q', dq', i, j, a, a'. repeat split; try done. by eapply tanc_step.
Qed.

Lemma before_interval x y dx dy : alloc_ok m -> before m x y -> m !! x = Some dx -> m !! y = Some dy -> end_of dx < start_of dy.
Proof.
  intros A (q & dq & i & j & c & c' & Hq & Hij & Hc & Hc' & Hcx & Hcy) Hx Hy.
  destruct (tanc_dom T _ _ Hcx) as [[dc Hdc] _]. destruct (tanc_dom T _ _ Hcy) as [[dc' Hdc'] _].
  destruct (A _ _ Hq) as (_ & _ & Hf). pose proof (fits_before _ _ _ _ _ _ _ _ _ _ Hf Hij Hc Hc' Hdc Hdc').
  pose proof (tanc_within_le A _ _ _ _ Hcx Hdc Hx). pose proof (tanc_within_le A _ _ _ _ Hcy Hdc' Hy). lia.
Qed.

(** A list of pairwise ordered blocks. *)
Definition ordered (l : list Hash) : Prop := (forall x, x ∈ l -> exists d, m !! x = Some d) /\
  forall i j x y, (i < j)%nat -> l !! i = Some x -> l !! j = Some y -> before m x y.

Lemma ordered_fits l : alloc_ok m -> ordered l -> fits m 1 (2 ^ 64 - 2) l.
Proof.
  intros A [Hdom Hord]. assert (forall lo, 1 <= lo <= 2 ^ 64 - 1 -> (forall x d, x ∈ l -> m !! x = Some d -> lo <= start_of d) ->
    fits m lo (2 ^ 64 - 2) l) as H.
  { induction l as [|x l IH]; intros lo Hlo Hmin; [cbn; lia|].
    destruct (Hdom x (list_elem_of_here _ _)) as [d Hd]. destruct (A _ _ Hd) as (H1 & H2 & _).
    pose proof (Hmin x d (list_elem_of_here _ _) Hd). exists d. split; [done|]. split; [lia|]. split; [lia|].
    apply IH; [|..|lia|].
    - intros y Hy. apply Hdom. by right.
    - intros i j a b Hij Ha Hb. by apply (Hord (S i) (S j)); [lia|..].
    - intros y dy Hy Hdy. apply list_elem_of_lookup in Hy as [j Hj].
      pose proof (before_interval x y d dy A (Hord 0%nat (S j) x y ltac:(lia) eq_refl Hj) Hd Hdy). lia. }
  apply H; [lia|]. intros x d Hx Hd. apply (A _ _ Hd).
Qed.
End order.

(** The order and ancestry survive a new leaf and changes of intervals. *)
Section grown.
Context {r m} (T : tree_ok r m) (n p : Hash) (dp dn : MemoryReachabilityData) (m' : RMap).
Context (Hp : m !! p = Some dp) (Hn : m !! n = None) (Hch : children dn = []) (Hsh : same_shape (add_leaf (m:=m) n p dp dn) m').

Lemma grown_tanc x y : tanc m' x y <-> (y <> n /\ tanc m x y) \/ (y = n /\ (x = n \/ tanc m x p)).
Proof.
  rewrite <- (add_leaf_tanc T n p dp dn Hp Hn Hch). split; apply same_shape_tanc; [by apply same_shape_sym|done].
Qed.
Lemma grown_old x d : m !! x = Some d -> exists d', m' !! x = Some d' /\ future_covering_set d' = future_covering_set d /\
  children d' = children d ++ (if decide (x = p) then [n] else []).
Proof.
  intros Hx. destruct (add_leaf_old n p dp dn Hp Hn x d Hx) as (d1 & Hd1 & _ & _ & _ & Hf & Hc).
  destruct (same_shape_lookup _ _ _ _ Hsh Hd1) as (d2 & Hd2 & Hc2 & _ & _ & Hf2). exists d2. split; [done|].
  split; congruence.
Qed.
Lemma grown_inv x d' : m' !! x = Some d' -> (x = n /\ future_covering_set d' = future_covering_set dn) \/
  exists d, m !! x = Some d /\ future_covering_set d' = future_covering_set d.
Proof.
  intros Hx'. destruct (same_shape_lookup _ _ _ _ (same_shape_sym _ _ Hsh) Hx') as (d1 & Hd1 & _ & _ & _ & Hf).
  destruct (decide (x = n)) as [->|Hxn].
  - rewrite add_leaf_n in Hd1. left. split; [done|]. congruence.
  - right. destruct (add_leaf_inv n p dp dn Hp Hn x d1 Hd1 Hxn) as (d & Hd & _). exists d. split; [done|].
    destruct (grown_old x d Hd) as (d2 & Hd2 & Hf2 & _). congruence.
Qed.
Lemma grown_before x y : before m x y -> before m' x y.
Proof.
  intros (q & dq & i & j & c & c' & Hq & Hij & Hc & Hc' & Hcx & Hcy).
  destruct (grown_old q dq Hq) as (dq' & Hdq' & _ & Hcs).
  assert (forall a b, tanc m a b -> tanc m' a b) as Hmono.
  { intros a b Hab. apply grown_tanc. left. split; [|done]. intros ->. destruct (tanc_dom T _ _ Hab) as [_ [d Hd]]. congruence. }
  exists q, dq', i, j, c, c'. split; [done|]. split; [done|]. rewrite Hcs.
  split; [by apply lookup_app_l_Some|]. split; [by apply lookup_app_l_Some|]. split; by apply Hmono.
Qed.
Lemma grown_ordered l : ordered (m:=m) l -> ordered (m:=m') l.
Proof.
  intros [Hdom Hord]. split.
  - intros x Hx. destruct (Hdom x Hx) as [d Hd]. destruct (grown_old x d Hd) as (d' & ? & _). eauto.
  - intros i j x y Hij Hx Hy. apply grown_before. by eapply Hord.
Qed.
End grown.

(** ** The block DAG

    [D x y]: [x] is [y] or in the past of [y].  The store represents [D] when the
    future covering set of [x] holds, in tree order, blocks whose subtrees cover
    the future of [x] outside its own subtree. *)
Record reach_ok r s (D : Hash -> Hash -> Prop) : Prop := {
  ro_tree : tree_ok r (reach_map s);
  ro_alloc : alloc_ok (reach_map s);
  ro_root : exists root, reindex_root s = Some root;
  ro_fcs x d : reach_map s !! x = Some d -> ordered (m:=reach_map s) (future_covering_set d);
  ro_dag x d y dy : reach_map s !! x = Some d -> reach_map s !! y = Some dy ->
    (D x y <-> tanc (reach_map s) x y \/ exists f, f ∈ future_covering_set d /\ tanc (reach_map s) f y);
}.

Lemma is_dag_ancestor_ok {r s D} x y dx dy : reach_ok r s D -> reach_map s !! x = Some dx -> reach_map s !! y = Some dy ->
  exists b : bool, is_dag_ancestor_of s x y = Ok b /\ (b = true <-> D x y).
Proof.
  intros R Hx Hy. pose proof (ro_tree _ _ _ R) as T. pose proof (ro_alloc _ _ _ R) as A.
  unfold is_dag_ancestor_of. rewrite (is_chain_ancestor_eval s _ _ _ _ Hx Hy). cbn [mbind res_bind].
  pose proof (ro_dag _ _ _ R x dx y dy Hx Hy) as HD. pose proof (contains_tanc T A _ _ _ _ Hx Hy) as Hc.
  destruct (contains (interval dx) (interval dy)); [exists true; tauto|].
  rewrite (get_fcs_ok s _ _ Hx). cbn [mbind res_bind].
  destruct (binary_search_descendant_ok s T A 1 (2 ^ 64 - 2) (future_covering_set dx) y dy) as (out & -> & Hspec);
    [by apply (ordered_fits T), (ro_fcs _ _ _ R x)|done|]. cbn [mbind res_bind].
  destruct out as [i|f i]; eexists; (split; [done|]); cbn in Hspec; rewrite HD.
  - destruct Hspec as (Hnone & _). split; [done|]. intros [H|(f & Hf & H)]; [tauto|]. by destruct (Hnone f Hf).
  - destruct Hspec as [Hi Ht]. split; [|done]. intros _. right. exists f. split; [by eapply list_elem_of_lookup_2|done].
Qed.

(** Registering a leaf in the future covering set of a merged block. *)
Lemma vec_insert_ok {E A} (l : list A) i (v : A) : (i <= length l)%nat -> vec_insert (E:=E) l i v = Ok (take i l ++ v :: drop i l).
Proof. intros H. unfold vec_insert. by replace (i <=? length l)%nat with true by (symmetry; apply Nat.leb_le; lia). Qed.
Lemma elem_insert_at {A} (l : list A) i (v w : A) : w ∈ take i l ++ v :: drop i l <-> w ∈ l \/ w = v.
Proof.
  pose proof (elem_of_app (take i l) (drop i l) w) as H. rewrite take_drop in H. rewrite elem_of_app, elem_of_cons. tauto.
Qed.
Lemma lookup_insert_at {A} (l : list A) i (v : A) k : (i <= length l)%nat ->
  (take i l ++ v :: drop i l) !! k = if (k <? i)%nat then l !! k else if (k =? i)%nat then Some v else l !! (k - 1)%nat.
Proof.
  intros Hi. destruct (k <? i)%nat eqn:H1.
  - apply Nat.ltb_lt in H1. rewrite lookup_app_l by (rewrite length_take; lia). by apply lookup_take_lt.
  - apply Nat.ltb_ge in H1. rewrite lookup_app_r by (rewrite length_take; lia). rewrite length_take, Nat.min_l by lia.
    destruct (k =? i)%nat eqn:H2.
    + apply Nat.eqb_eq in H2. subst. by rewrite Nat.sub_diag.
    + apply Nat.eqb_neq in H2. destruct (k - i)%nat as [|j] eqn:Hj; [lia|]. change ((v :: drop i l) !! S j) with (drop i l !! j). rewrite lookup_drop. f_equal. lia.
Qed.

Section insert_fcs.
Context {r} (s : MemoryReachabilityStore) (T : tree_ok r (reach_map s)) (A : alloc_ok (reach_map s)).
Context (n : Hash) (dn : MemoryReachabilityData) (Hn : reach_map s !! n = Some dn) (Hleaf : children dn = []).

Lemma leaf_below y : tanc (reach_map s) n y -> y = n.
Proof. intros H. destruct (tanc_top T _ _ _ H Hn) as [->|(c & Hc & _)]; [done|]. rewrite Hleaf in Hc. by apply elem_of_nil in Hc. Qed.

Lemma ordered_insert l i : ordered (m:=reach_map s) l -> n ∉ l -> search_spec s l n (end_of dn) (NotFound i) ->
  ordered (m:=reach_map s) (take i l ++ n :: drop i l).
Proof.
  intros Hl Hnl (Hnone & Hi & Hlo & Hhi). pose proof Hl as [Hdom Hord]. pose proof (ordered_fits T l A Hl) as Hf. split.
  { intros x [Hx| ->]%elem_insert_at; [by apply Hdom|by exists dn]. }
  assert (forall j x, l !! j = Some x -> (j < i)%nat -> before (reach_map s) x n) as Hbef.
  { intros j x Hj Hji. destruct (fits_lookup _ _ _ _ _ _ Hf Hj) as (d & Hd & Hs & _).
    assert (x ∈ l) as Hxl by (by eapply list_elem_of_lookup_2).
    destruct (unrelated_before T x n d dn Hd Hn) as [H|H]; [by apply Hnone|by intros ->%leaf_below|done|].
    pose proof (before_interval T _ _ _ _ A H Hn Hd). pose proof (Hlo j Hji). lia. }
  assert (forall j x, l !! j = Some x -> (i <= j)%nat -> before (reach_map s) n x) as Haft.
  { intros j x Hj Hji. destruct (fits_lookup _ _ _ _ _ _ Hf Hj) as (d & Hd & Hs & Hb & _).
    assert (x ∈ l) as Hxl by (by eapply list_elem_of_lookup_2).
    destruct (unrelated_before T x n d dn Hd Hn) as [H|H]; [by apply Hnone|by intros ->%leaf_below| |done].
    pose proof (before_interval T _ _ _ _ A H Hd Hn). pose proof (Hhi j ltac:(apply lookup_lt_Some in Hj; lia)).
    destruct (A _ _ Hn) as [Hnn _]. lia. }
  intros j k x y Hjk. rewrite !lookup_insert_at by done.
  destruct (Nat.ltb_spec j i) as [Hj1|Hj1], (Nat.ltb_spec k i) as [Hk1|Hk1].
  - by apply Hord.
  - destruct (k =? i)%nat eqn:Hk2; intros Hx Hy; [injection Hy as <-; exact (Hbef j x Hx Hj1)|]. apply Nat.eqb_neq in Hk2.
    by apply (Hord j (k - 1)%nat); [lia|..].
  - lia.
  - destruct (k =? i)%nat eqn:Hk2; [apply Nat.eqb_eq in Hk2; lia|]. apply Nat.eqb_neq in Hk2.
    destruct (j =? i)%nat eqn:Hj2; intros Hx Hy.
    + injection Hx as <-. apply (Haft (k - 1)%nat); [done|lia].
    + apply Nat.eqb_neq in Hj2. by apply (Hord (j - 1) (k - 1))%nat; [lia|..].
Qed.

Lemma insert_to_fcs_ok x d : reach_map s !! x = Some d -> ordered (m:=reach_map s) (future_covering_set d) ->
  (forall f, f ∈ future_covering_set d -> ~ tanc (reach_map s) f n) ->
  exists fcs, insert_to_future_covering_set s x n = Ok (set_data s x (with_fcs d fcs)) /\
    ordered (m:=reach_map s) fcs /\ forall f, f ∈ fcs <-> f ∈ future_covering_set d \/ f = n.
Proof.
  intros Hx Hord Hno. unfold insert_to_future_covering_set. rewrite (get_fcs_ok s _ _ Hx). cbn [mbind res_bind].
  destruct (binary_search_descendant_ok s T A 1 (2 ^ 64 - 2) (future_covering_set d) n dn) as (out & -> & Hspec);
    [by apply (ordered_fits T)|done|]. cbn [mbind res_bind].
  destruct out as [i|f i].
  2:{ destruct Hspec as [Hi Ht]. destruct (Hno f); [by eapply list_elem_of_lookup_2|done]. }
  pose proof Hspec as (_ & Hi & _). unfold insert_future_covering_item. rewrite (get_data_ok s _ _ Hx). cbn [mbind res_bind].
  rewrite vec_insert_ok by done. cbn [mbind res_bind]. eexists. split; [done|]. split.
  - apply ordered_insert; [done| |done]. intros Hin. apply (Hno n Hin). by eapply tanc_refl.
  - intros f. apply elem_insert_at.
Qed.
End insert_fcs.

(** Stores with the same tree and intervals. *)
Definition same_tree m m' : Prop := forall h,
  match m !! h, m' !! h with
  | Some d, Some d' => d' = with_fcs d (future_covering_set d')
  | None, None => True
  | _, _ => False
  end.
Lemma same_tree_sym m m' : same_tree m m' -> same_tree m' m.
Proof.
  intros Hs h. specialize (Hs h). destruct (m !! h) as [d|], (m' !! h) as [d'|]; try done. rewrite Hs. by destruct d.
Qed.
Lemma same_tree_lookup m m' h d : same_tree m m' -> m !! h = Some d ->
  exists d', m' !! h = Some d' /\ children d' = children d /\ parent d' = parent d /\ height d' = height d /\ interval d' = interval d.
Proof.
  intros Hs Hh. specialize (Hs h). rewrite Hh in Hs. destruct (m' !! h) as [d'|]; [|done]. exists d'. by rewrite Hs.
Qed.
Lemma same_tree_tanc m m' a b : same_tree m m' -> tanc m a b -> tanc m' a b.
Proof.
  intros Hs. induction 1 as [d Ha|p dp c Hp IH Hpd Hc].
  - destruct (same_tree_lookup _ _ _ _ Hs Ha) as (d' & Hd' & _). by eapply tanc_refl.
  - destruct (same_tree_lookup _ _ _ _ Hs Hpd) as (d' & Hd' & Hcs & _). eapply tanc_step; [done|done|by rewrite Hcs].
Qed.
Lemma same_tree_iff m m' a b : same_tree m m' -> tanc m a b <-> tanc m' a b.
Proof. intros Hs. split; apply same_tree_tanc; [done|by apply same_tree_sym]. Qed.
Lemma same_tree_ok r m m' : same_tree m m' -> tree_ok r m -> tree_ok r m'.
Proof.
  intros Hs T. pose proof (same_tree_sym _ _ Hs) as Hs'. split.
  - destruct (to_root _ _ T) as (d & Hd & Hp). destruct (same_tree_lookup _ _ _ _ Hs Hd) as (d' & Hd' & _ & Hp' & _).
    exists d'. by rewrite Hp'.
  - specialize (Hs NONE). rewrite (to_none _ _ T) in Hs. by destruct (m' !! NONE).
  - intros h d' c Hd' Hc. destruct (same_tree_lookup _ _ _ _ Hs' Hd') as (d & Hd & Hcs & _ & Hh & _).
    rewrite <- Hcs in Hc. destruct (to_child _ _ T _ _ _ Hd Hc) as (dc & Hdc & Hp & Hlt).
    destruct (same_tree_lookup _ _ _ _ Hs Hdc) as (dc' & Hdc' & _ & Hp' & Hh' & _).
    exists dc'. split; [done|]. split; [by rewrite Hp'|]. lia.
  - intros h d' Hd' Hne. destruct (same_tree_lookup _ _ _ _ Hs' Hd') as (d & Hd & _ & Hp & _).
    destruct (to_parent _ _ T _ _ Hd Hne) as (dp & Hdp & Hin).
    destruct (same_tree_lookup _ _ _ _ Hs Hdp) as (dp' & Hdp' & Hcs & _).
    exists dp'. rewrite <- Hp. split; [done|]. by rewrite Hcs.
  - intros h d' Hd'. destruct (same_tree_lookup _ _ _ _ Hs' Hd') as (d & Hd & Hcs & _). rewrite <- Hcs. by eapply (to_nodup _ _ T).
  - intros h d' Hd'. destruct (same_tree_lookup _ _ _ _ Hs' Hd') as (d & Hd & _ & _ & Hh & _). rewrite <- Hh. by eapply (to_height _ _ T).
Qed.
Lemma same_tree_alloc m m' : same_tree m m' -> alloc_ok m -> alloc_ok m'.
Proof.
  intros Hs A h d' Hd'. destruct (same_tree_lookup _ _ _ _ (same_tree_sym _ _ Hs) Hd') as (d & Hd & Hcs & _ & _ & Hi).
  destruct (A h d Hd) as (H1 & H2 & Hf). unfold node_ok, start_of, end_of in *. rewrite <- Hi, <- Hcs.
  split; [done|]. split; [done|]. eapply fits_ext; [exact Hf|]. intros c dc Hc Hdc.
  destruct (same_tree_lookup _ _ _ _ Hs Hdc) as (dc' & ? & _ & _ & _ & ?). eauto.
Qed.
Lemma same_tree_ordered m m' l : same_tree m m' -> ordered (m:=m) l -> ordered (m:=m') l.
Proof.
  intros Hs [Hdom Hord]. split.
  - intros x Hx. destruct (Hdom x Hx) as [d Hd]. destruct (same_tree_lookup _ _ _ _ Hs Hd) as (d' & ? & _). eauto.
  - intros i j x y Hij Hx Hy. destruct (Hord i j x y Hij Hx Hy) as (q & dq & k & l' & c & c' & Hq & Hkl & Hc & Hc' & H1 & H2).
    destruct (same_tree_lookup _ _ _ _ Hs Hq) as (dq' & Hdq' & Hcs & _).
    exists q, dq', k, l', c, c'. rewrite Hcs. do 4 (split; [done|]). split; by apply (same_tree_tanc m).
Qed.
Lemma same_tree_set m h d fcs : m !! h = Some d -> same_tree m (<[h := with_fcs d fcs]> m).
Proof.
  intros Hh x. destruct (decide (x = h)) as [->|Hne]; [by rewrite lookup_insert_eq, Hh|].
  rewrite lookup_insert_ne by done. destruct (m !! x) as [[]|]; done.
Qed.
Lemma same_tree_refl m : same_tree m m.
Proof. intros h. destruct (m !! h) as [[]|]; done. Qed.
Lemma same_tree_trans m1 m2 m3 : same_tree m1 m2 -> same_tree m2 m3 -> same_tree m1 m3.
Proof.
  intros H1 H2 h. specialize (H1 h). specialize (H2 h). destruct (m1 !! h), (m2 !! h), (m3 !! h); try done. by rewrite H2, H1.
Qed.

Lemma add_dag_block_ok {r} n ms : forall s dn, tree_ok r (reach_map s) -> alloc_ok (reach_map s) ->
  reach_map s !! n = Some dn -> children dn = [] -> NoDup ms ->
  (forall x d, reach_map s !! x = Some d -> ordered (m:=reach_map s) (future_covering_set d)) ->
  (forall x, x ∈ ms -> exists d, reach_map s !! x = Some d /\ forall f, f ∈ future_covering_set d -> ~ tanc (reach_map s) f n) ->
  exists s', add_dag_block s n ms = Ok s' /\ same_tree (reach_map s) (reach_map s') /\ reindex_root s' = reindex_root s /\
    (forall x d', reach_map s' !! x = Some d' -> ordered (m:=reach_map s) (future_covering_set d')) /\
    (forall x d d', reach_map s !! x = Some d -> reach_map s' !! x = Some d' ->
       forall f, f ∈ future_covering_set d' <-> f ∈ future_covering_set d \/ (f = n /\ x ∈ ms)).
Proof.
  induction ms as [|x ms IH]; intros s dn T A Hn Hleaf Hnd Hord Hms; unfold add_dag_block; cbn [res_foldl].
  { exists s. split; [done|]. split; [apply same_tree_refl|]. split; [done|]. split; [done|].
    intros x d d' Hx Hx' f. simplify_eq. rewrite elem_of_nil. tauto. }
  apply NoDup_cons in Hnd as [Hx Hnd]. destruct (Hms x (list_elem_of_here _ _)) as (d & Hd & Hno).
  destruct (insert_to_fcs_ok s T A n dn Hn Hleaf x d Hd (Hord x d Hd) Hno) as (fcs & -> & Hofcs & Hin). cbn [mbind res_bind].
  set (s1 := set_data s x (with_fcs d fcs)). assert (same_tree (reach_map s) (reach_map s1)) as Hst by (by apply same_tree_set).
  assert (exists dn', reach_map s1 !! n = Some dn' /\ children dn' = []) as (dn' & Hn' & Hleaf').
  { destruct (same_tree_lookup _ _ _ _ Hst Hn) as (dn' & ? & Hc & _). exists dn'. split; [done|congruence]. }
  assert (forall y, y <> x -> reach_map s1 !! y = reach_map s !! y) as Hother by (intros y Hy; by apply lookup_insert_ne).
  assert (reach_map s1 !! x = Some (with_fcs d fcs)) as Hx1 by apply lookup_insert_eq.
  destruct (IH s1 dn') as (s' & Hs' & Hst' & Hr' & Hord' & Hin').
  { by eapply same_tree_ok. }
  { by eapply same_tree_alloc. }
  { done. }
  { done. }
  { done. }
  { intros y dy Hy. apply (same_tree_ordered (reach_map s)); [done|]. destruct (decide (y = x)) as [->|Hne].
    - by assert (dy = with_fcs d fcs) as -> by congruence.
    - rewrite Hother in Hy by done. by apply (Hord y). }
  { intros y Hy. assert (y <> x) by congruence. rewrite Hother by done.
    destruct (Hms y (list_elem_of_further _ _ _ Hy)) as (dy & Hdy & Hf). exists dy. split; [done|].
    intros f Hff. rewrite <- (same_tree_iff _ _ _ _ Hst). by apply Hf. }
  exists s'. split; [done|]. split; [by eapply same_tree_trans|]. split; [done|]. split.
  - intros y dy Hy. apply (same_tree_ordered (reach_map s1)); [by apply same_tree_sym|]. by apply (Hord' y).
  - intros y dy dy' Hy Hy' f. destruct (decide (y = x)) as [->|Hne].
    + assert (dy = d) as -> by congruence. rewrite (Hin' x (with_fcs d fcs) dy' Hx1 Hy').
      cbn. rewrite Hin, elem_of_cons. tauto.
    + rewrite (Hin' y dy dy' ltac:(by rewrite Hother) Hy'), elem_of_cons. tauto.
Qed.

(** ** Adding a block to the DAG *)

(** The past of a new block [n]: that of its selected parent and its mergeset. *)
Definition dag_add (D : Hash -> Hash -> Prop) n p (ms : list Hash) x y : Prop :=
  (x <> n /\ y <> n /\ D x y) \/ (y = n /\ (x = n \/ D x p \/ x ∈ ms)).

(** There is interval space for a child of [p]: next to its last child, or in the
    subtree of the reindex root, which reindexing distributes anew. *)
Definition has_space s p : Prop :=
  (exists i, interval_remaining_after s p = Ok i /\ 0 < iv_len i) \/
  (exists root, reindex_root s = Some root /\ tanc (reach_map s) root p /\ room (reach_map s) root 1).

Lemma grown_dag {r} m (T : tree_ok r m) n p dp dn m' (D : Hash -> Hash -> Prop) ms x y d dy :
  m !! p = Some dp -> m !! n = None -> children dn = [] -> future_covering_set dn = [] ->
  same_shape (add_leaf (m:=m) n p dp dn) m' ->
  (forall x d y dy, m !! x = Some d -> m !! y = Some dy ->
    (D x y <-> tanc m x y \/ exists f, f ∈ future_covering_set d /\ tanc m f y)) ->
  (forall x d, m !! x = Some d -> forall f, f ∈ future_covering_set d -> exists df, m !! f = Some df) ->
  (forall x, x ∈ ms -> exists dx, m !! x = Some dx) ->
  m' !! x = Some d -> m' !! y = Some dy ->
  (dag_add D n p ms x y <-> tanc m' x y \/ exists f, (f ∈ future_covering_set d \/ (f = n /\ x ∈ ms)) /\ tanc m' f y).
Proof.
  intros Hp Hn Hch Hfn Hsh HD Hfcs Hms Hx Hy. pose proof (grown_tanc T n p dp dn m' Hp Hn Hch Hsh) as Ht.
  destruct (grown_inv n p dp dn m' Hp Hn Hsh x d Hx) as [[-> Hf]|(d0 & Hd0 & Hf)]; rewrite Hf.
  - rewrite Hfn. assert (n ∉ ms) as Hnms by (intros Hin; destruct (Hms n Hin); congruence).
    assert (forall z, ~ tanc m n z) as Hno by (intros z Hz; destruct (tanc_dom T _ _ Hz) as [[? ?] _]; congruence).
    unfold dag_add. rewrite (Ht n y). split.
    + intros [(? & _)|[-> _]]; [done|]. left. tauto.
    + intros [[[_ H]|[-> _]]|(f & [H|[_ H]] & _)]; [by destruct (Hno y)|tauto|by apply elem_of_nil in H|done].
  - assert (x <> n) as Hxn by congruence.
    assert (forall f, f ∈ future_covering_set d0 -> f <> n) as Hfn' by (intros f Hin ->; destruct (Hfcs x d0 Hd0 n Hin); congruence).
    assert (forall f, f <> n -> tanc m' f n <-> tanc m f p) as Htn by (intros f Hfn0; rewrite (Ht f n); tauto).
    unfold dag_add. destruct (decide (y = n)) as [->|Hyn].
    + rewrite (Htn x Hxn), (HD x d0 p dp Hd0 Hp). split.
      * intros [(_ & ? & _)|[_ [?|[[?|(f & Hin & Hfp)]|Hin]]]]; [done|done|by left| |].
        -- right. exists f. split; [by left|]. apply Htn; [by apply Hfn'|done].
        -- right. exists n. split; [tauto|]. apply Ht. tauto.
      * intros [H|(f & [Hin|[-> Hin]] & Hfp)]; [tauto| |tauto]. right. split; [done|]. right. left. right.
        exists f. split; [done|]. apply Htn; [by apply Hfn'|done].
    + destruct (grown_inv n p dp dn m' Hp Hn Hsh y dy Hy) as [[-> _]|(dy0 & Hdy0 & _)]; [done|].
      assert (forall f, tanc m' f y <-> tanc m f y) as Hty by (intros f; rewrite (Ht f y); tauto).
      rewrite (HD x d0 y dy0 Hd0 Hdy0), (Hty x). split.
      * intros [(_ & _ & [H|(f & Hin & H)])|[? _]]; [by left| |done]. right. exists f. split; [by left|]. by apply Hty.
      * intros [H|(f & [Hin|[-> Hin]] & H)]; [tauto| |].
        -- left. split; [done|]. split; [done|]. right. exists f. split; [done|]. by apply Hty.
        -- apply Hty in H. destruct (tanc_dom T _ _ H) as [[? ?] _]. congruence.
Qed.

(** The tree after the block [n] was added below [p]. *)
Record block_added s n p dp s' : Prop := {
  ba_tanc x y : tanc (reach_map s') x y <-> (y <> n /\ tanc (reach_map s) x y) \/ (y = n /\ (x = n \/ tanc (reach_map s) x p));
  ba_root : reindex_root s' = reindex_root s;
  ba_above root : reindex_root s = Some root -> kept_above root (reach_map s) (reach_map s');
  ba_new : exists dn, reach_map s' !! n = Some dn /\ height dn = height dp + 1;
  ba_heights x d : reach_map s !! x = Some d -> exists d', reach_map s' !! x = Some d' /\ height d' = height d;
}.
Lemma add_block_full r s D n p dp ms reindex_slack
  (R : reach_ok r s D) (Hp : reach_map s !! p = Some dp) (Hn : reach_map s !! n = None) (HnN : n <> NONE)
  (Hsmall : Z.of_nat (size (reach_map s)) + 1 < 2 ^ 64) (Hheight : height dp + 1 < 2 ^ 64)
  (Hnd : NoDup ms) (Hms : forall x, x ∈ ms -> (exists d, reach_map s !! x = Some d) /\ ~ D x p) (Hspace : has_space s p) :
  exists s', add_block_with_params s n p ms reindex_slack = Ok s' /\ reach_ok r s' (dag_add D n p ms) /\
    dom (reach_map s') = {[n]} ∪ dom (reach_map s) /\ block_added s n p dp s'.
Proof.
  destruct R as [T A [root Hroot] Hfcs HD].
  destruct (add_tree_block_ok s n p dp T A Hsmall Hp Hn HnN Hheight root (default DEFAULT_REINDEX_SLACK reindex_slack) Hroot)
    as (s1 & Hs1 & dn & Hpar & Hch & Hh & Hfn & Hsh & A1 & Hr1 & Hab).
  { destruct Hspace as [H|(root' & Hroot' & H)]; [by left|]. right. by simplify_eq. }
  unfold add_block_with_params. rewrite Hs1. cbn [mbind res_bind].
  assert (tree_ok r (reach_map s1)) as T1 by (eapply same_shape_tree; [exact Hsh|]; by apply (add_leaf_tree T n p dp dn Hp Hn)).
  destruct (same_shape_lookup _ _ _ _ Hsh (add_leaf_n n p dp dn)) as (dn1 & Hn1 & Hch1 & _ & Hhn1 & Hfn1).
  assert (forall x d f, reach_map s !! x = Some d -> f ∈ future_covering_set d -> exists df, reach_map s !! f = Some df) as Hfin.
  { intros x d f Hx Hf. destruct (Hfcs x d Hx) as [Hdom _]. by apply Hdom. }
  destruct (add_dag_block_ok n ms s1 dn1 T1 A1 Hn1) as (s' & -> & Hst & Hr' & Hord' & Hin').
  { congruence. }
  { done. }
  { intros x d Hx. destruct (grown_inv n p dp dn _ Hp Hn Hsh x d Hx) as [[-> Hf]|(d0 & Hd0 & Hf)]; rewrite Hf.
    - rewrite Hfn. split; [intros y Hy; by apply elem_of_nil in Hy|]. intros i j a b Hij Ha. by rewrite lookup_nil in Ha.
    - by apply (grown_ordered T n p dp dn _ Hp Hn Hch Hsh), (Hfcs x). }
  { intros x Hx. destruct (Hms x Hx) as [[d Hd] Hno]. destruct (grown_old n p dp dn _ Hp Hn Hsh x d Hd) as (d' & Hd' & Hf & _).
    exists d'. split; [done|]. intros f Hff. rewrite Hf in Hff. destruct (Hfin x d f Hd Hff) as [df Hdf].
    rewrite (grown_tanc T n p dp dn _ Hp Hn Hch Hsh). intros [[? _]|[_ [->|Ht]]]; [done|congruence|].
    apply Hno, (HD x d p dp Hd Hp). right. by exists f. }
  exists s'. split; [done|]. split; [|split].
  - split; [by eapply same_tree_ok|by eapply same_tree_alloc|exists root; congruence| |].
    + intros x d Hx. apply (same_tree_ordered (reach_map s1)); [done|]. by apply (Hord' x).
    + intros x d y dy Hx Hy. destruct (same_tree_lookup _ _ _ _ (same_tree_sym _ _ Hst) Hx) as (d1 & Hd1 & _).
      destruct (same_tree_lookup _ _ _ _ (same_tree_sym _ _ Hst) Hy) as (dy1 & Hdy1 & _).
      rewrite (grown_dag _ T n p dp dn (reach_map s1) D ms x y d1 dy1 Hp Hn Hch Hfn Hsh HD); [|by eauto|by intros; apply Hms|done|done].
      rewrite (same_tree_iff _ _ _ _ Hst). split.
      * intros [H|(f & Hf & H)]; [by left|]. right. exists f. rewrite (Hin' x d1 d Hd1 Hx). by rewrite <- (same_tree_iff _ _ _ _ Hst).
      * intros [H|(f & Hf & H)]; [by left|]. right. exists f. rewrite (Hin' x d1 d Hd1 Hx) in Hf. by rewrite (same_tree_iff _ _ _ _ Hst).
  - apply set_eq. intros x. rewrite elem_of_union, elem_of_singleton, !elem_of_dom. split.
    + intros [d Hx]. destruct (same_tree_lookup _ _ _ _ (same_tree_sym _ _ Hst) Hx) as (d1 & Hd1 & _).
      destruct (grown_inv n p dp dn _ Hp Hn Hsh x d1 Hd1) as [[-> _]|(d0 & Hd0 & _)]; [by left|right; eauto].
    + intros [->|[d Hd]].
      * destruct (same_tree_lookup _ _ _ _ Hst Hn1) as (d1 & ? & _). eauto.
      * destruct (grown_old n p dp dn _ Hp Hn Hsh x d Hd) as (d1 & Hd1 & _).
        destruct (same_tree_lookup _ _ _ _ Hst Hd1) as (d2 & ? & _). eauto.
  - split; [|congruence|..].
    + intros x y. rewrite <- (same_tree_iff _ _ _ _ Hst). by apply (grown_tanc T n p dp dn).
    + intros root' Hr0 x d Hx Hd. destruct (Hab root' Hr0 x d Hx Hd) as (d1 & Hd1 & Hi & Hh1).
      destruct (same_tree_lookup _ _ _ _ Hst Hd1) as (d2 & Hd2 & _ & _ & Hh2 & Hi2). exists d2. split_and!; congruence.
    + destruct (same_tree_lookup _ _ _ _ Hst Hn1) as (d2 & Hd2 & _ & _ & Hh2 & _). exists d2. split; [done|congruence].
    + intros x d Hx. destruct (add_leaf_old n p dp dn Hp Hn x d Hx) as (d0 & Hd0 & _ & Hh0 & _).
      destruct (same_shape_lookup _ _ _ _ Hsh Hd0) as (d1 & Hd1 & _ & _ & Hh1 & _).
      destruct (same_tree_lookup _ _ _ _ Hst Hd1) as (d2 & Hd2 & _ & _ & Hh2 & _). exists d2. split; [done|congruence].
Qed.
Lemma add_block_ok r s D n p dp ms reindex_slack
  (R : reach_ok r s D) (Hp : reach_map s !! p = Some dp) (Hn : reach_map s !! n = None) (HnN : n <> NONE)
  (Hsmall : Z.of_nat (size (reach_map s)) + 1 < 2 ^ 64) (Hheight : height dp + 1 < 2 ^ 64)
  (Hnd : NoDup ms) (Hms : forall x, x ∈ ms -> (exists d, reach_map s !! x = Some d) /\ ~ D x p) (Hspace : has_space s p) :
  exists s', add_block_with_params s n p ms reindex_slack = Ok s' /\ reach_ok r s' (dag_add D n p ms) /\
    dom (reach_map s') = {[n]} ∪ dom (reach_map s).
Proof. destruct (add_block_full r s D n p dp ms reindex_slack) as (s' & ? & ? & ? & _); eauto. Qed.
(** C1. Adding a block: when there is interval space for it, [add_block] succeeds
    without error or panic (reindexing included when the remaining interval of
    the selected parent is exhausted), every block of the resulting store has a
    legal interval that strictly contains the disjoint intervals of its children,
    and the queries of the resulting store answer for the DAG extended by the
    new block, whose past is that of its selected parent and its mergeset. *)
Theorem add_block_keeps_reachability r s D n p dp ms reindex_slack
  (R : reach_ok r s D) (Hp : reach_map s !! p = Some dp) (Hn : reach_map s !! n = None) (HnN : n <> NONE)
  (Hsmall : Z.of_nat (size (reach_map s)) + 1 < 2 ^ 64) (Hheight : height dp + 1 < 2 ^ 64)
  (Hnd : NoDup ms) (Hms : forall x, x ∈ ms -> (exists d, reach_map s !! x = Some d) /\ ~ D x p) (Hspace : has_space s p) :
  exists s', add_block_with_params s n p ms reindex_slack = Ok s' /\ reach_ok r s' (dag_add D n p ms) /\
    dom (reach_map s') = {[n]} ∪ dom (reach_map s).
Proof. by apply (add_block_ok r s D n p dp ms reindex_slack). Qed.

(** ** The queries *)
Lemma next_chain_ancestor_ok {r s} x y dx dy (T : tree_ok r (reach_map s)) (A : alloc_ok (reach_map s)) :
  reach_map s !! x = Some dx -> reach_map s !! y = Some dy -> tanc (reach_map s) x y -> x <> y ->
  exists c, get_next_chain_ancestor_unchecked s y x = Ok c /\ c ∈ children dx /\ tanc (reach_map s) c y.
Proof.
  intros Hx Hy Hxy Hne. unfold get_next_chain_ancestor_unchecked. rewrite (get_children_ok s _ _ Hx). cbn [mbind res_bind].
  destruct (A _ _ Hx) as (_ & _ & Hf).
  destruct (binary_search_descendant_ok s T A _ _ _ y dy Hf Hy) as (out & -> & Hspec). cbn [mbind res_bind].
  destruct (tanc_top T _ _ _ Hxy Hx) as [->|(c & Hc & Ht)]; [done|]. destruct out as [i|h i].
  - destruct Hspec as (Hnone & _). by destruct (Hnone c Hc).
  - destruct Hspec as [Hi Hh]. exists h. split; [done|]. split; [by eapply list_elem_of_lookup_2|done].
Qed.

Lemma queries_ok r s D x y dx dy (R : reach_ok r s D)
  (Hx : reach_map s !! x = Some dx) (Hy : reach_map s !! y = Some dy) :
  (exists b : bool, is_chain_ancestor_of s x y = Ok b /\ (b = true <-> tanc (reach_map s) x y)) /\
  (exists b : bool, is_dag_ancestor_of s x y = Ok b /\ (b = true <-> D x y)) /\
  (tanc (reach_map s) x y -> x <> y ->
   exists c, get_next_chain_ancestor s y x = Ok c /\ c ∈ children dx /\ tanc (reach_map s) c y) /\
  (~ (tanc (reach_map s) x y /\ x <> y) -> get_next_chain_ancestor s y x = Err BadQuery).
Proof.
  pose proof (ro_tree _ _ _ R) as T. pose proof (ro_alloc _ _ _ R) as A.
  split; [|split; [by eapply is_dag_ancestor_ok|]].
  { eexists. split; [by apply is_chain_ancestor_eval|]. by apply (contains_tanc T A). }
  pose proof (strictly_contains_tanc T A _ _ _ _ Hx Hy) as Hsc. unfold get_next_chain_ancestor.
  rewrite (is_strict_chain_ancestor_eval s _ _ _ _ Hx Hy). cbn [mbind res_bind]. split.
  - intros Ht Hne. rewrite decide_False by done. destruct (strictly_contains _ _); [|by destruct Hsc as [_ Hsc]; discriminate Hsc].
    by eapply next_chain_ancestor_ok.
  - intros Hno. destruct (decide (y = x)) as [->|Hne]; [done|]. destruct (strictly_contains _ _); [|done].
    by destruct Hno; apply Hsc.
Qed.

(** C2. The queries on a store that represents a DAG never fail on stored blocks
    and are exact: [is_chain_ancestor_of] decides tree ancestry,
    [is_dag_ancestor_of] decides whether a block is in the past of another, and
    [get_next_chain_ancestor] returns the child on the way to the descendant or
    reports a bad query when there is none. *)
Theorem reach_queries_exact r s D x y dx dy (R : reach_ok r s D)
  (Hx : reach_map s !! x = Some dx) (Hy : reach_map s !! y = Some dy) :
  (exists b : bool, is_chain_ancestor_of s x y = Ok b /\ (b = true <-> tanc (reach_map s) x y)) /\
  (exists b : bool, is_dag_ancestor_of s x y = Ok b /\ (b = true <-> D x y)) /\
  (tanc (reach_map s) x y -> x <> y ->
   exists c, get_next_chain_ancestor s y x = Ok c /\ c ∈ children dx /\ tanc (reach_map s) c y) /\
  (~ (tanc (reach_map s) x y /\ x <> y) -> get_next_chain_ancestor s y x = Err BadQuery).
Proof. by apply (queries_ok r s D x y dx dy). Qed.

(** ** The empty DAG *)
Lemma init_reach_ok : exists s, init new_store = Ok s /\ reach_ok ORIGIN s (fun x y => x = ORIGIN /\ y = ORIGIN) /\
  reach_map s = {[ORIGIN := new_data NONE maximal 0]}.
Proof.
  eexists. split; [reflexivity|]. cbn. split; [|done].
  set (m := <[ORIGIN := new_data NONE maximal 0]> ∅ : RMap).
  assert (forall x d, m !! x = Some d -> x = ORIGIN /\ d = new_data NONE maximal 0) as Hinv.
  { intros x d Hx. destruct (decide (x = ORIGIN)) as [->|Hne]; [unfold m in Hx; rewrite lookup_insert_eq in Hx; by simplify_eq|].
    unfold m in Hx. by rewrite lookup_insert_ne, lookup_empty in Hx by done. }
  assert (m !! ORIGIN = Some (new_data NONE maximal 0)) as Ho by apply lookup_insert_eq.
  split; cbn.
  - split.
    + eauto.
    + unfold m. by rewrite lookup_insert_ne, lookup_empty by done.
    + intros h d c Hh Hc. destruct (Hinv h d Hh) as [_ ->]. by apply elem_of_nil in Hc.
    + intros h d Hh Hne. by destruct (Hinv h d Hh).
    + intros h d Hh. destruct (Hinv h d Hh) as [_ ->]. constructor.
    + intros h d Hh. by destruct (Hinv h d Hh) as [_ ->].
  - intros h d Hh. destruct (Hinv h d Hh) as [_ ->]. unfold node_ok, start_of, end_of. cbn. lia.
  - eauto.
  - intros h d Hh. destruct (Hinv h d Hh) as [_ ->]. split; [intros x Hx; by apply elem_of_nil in Hx|].
    by intros i j x y Hij Hx.
  - intros x d y dy Hx Hy. destruct (Hinv x d Hx) as [-> ->]. destruct (Hinv y dy Hy) as [-> _]. split; [|done].
    intros _. left. by eapply tanc_refl.
Qed.

Lemma origin_space s : reach_map s = {[ORIGIN := new_data NONE maximal 0]} -> has_space s ORIGIN.
Proof.
  intros Hm. left. exists (mkInterval 1 (2 ^ 64 - 3)). split; [|done].
  unfold interval_remaining_after, interval_children_capacity, get_interval, get_children, get_data. rewrite Hm. reflexivity.
Qed.

Lemma add_block_keeps_reachability_witness : exists s s', init new_store = Ok s /\
  add_block_with_params s 1 ORIGIN [] None = Ok s' /\
  reach_ok ORIGIN s' (dag_add (fun x y => x = ORIGIN /\ y = ORIGIN) 1 ORIGIN []) /\
  dom (reach_map s') = {[1]} ∪ dom (reach_map s).
Proof.
  destruct init_reach_ok as (s & Hs & R & Hm). exists s.
  destruct (add_block_keeps_reachability ORIGIN s (fun x y => x = ORIGIN /\ y = ORIGIN) 1 ORIGIN (new_data NONE maximal 0) [] None)
    as (s' & H1 & H2 & H3).
  - exact R.
  - rewrite Hm. apply lookup_insert_eq.
  - rewrite Hm. reflexivity.
  - done.
  - rewrite Hm. vm_compute. reflexivity.
  - vm_compute. reflexivity.
  - constructor.
  - intros x Hx. by apply elem_of_nil in Hx.
  - by apply origin_space.
  - exists s'. split; [exact Hs|]. split; [exact H1|]. split; [exact H2|exact H3].
Defined.

Lemma reach_queries_exact_witness : exists s, init new_store = Ok s /\
  exists b : bool, is_dag_ancestor_of s ORIGIN ORIGIN = Ok b /\ (b = true <-> ORIGIN = ORIGIN /\ ORIGIN = ORIGIN).
Proof.
  destruct init_reach_ok as (s & Hs & R & Hm). exists s. split; [exact Hs|].
  assert (reach_map s !! ORIGIN = Some (new_data NONE maximal 0)) as Ho by (rewrite Hm; apply lookup_insert_eq).
  exact (proj1 (proj2 (reach_queries_exact ORIGIN s (fun x y => x = ORIGIN /\ y = ORIGIN) ORIGIN ORIGIN _ _ R Ho Ho))).
Defined.

(** ** Reindexing *)
Lemma nsub_set {r m} (T : tree_ok r m) x (X : gset Hash) : (forall y, y ∈ X <-> tanc m x y) -> nsub T x = Z.of_nat (size X).
Proof. intros HX. unfold nsub. do 2 f_equal. apply set_eq. intros y. by rewrite HX, elem_subtree. Qed.

(** [count_subtrees] terminates and records, for every block of the subtree,
    the number of blocks below it (itself included); its queue-based traversal
    is equivalent to the recursive definition its comment gives. *)
Theorem count_subtrees_exact r s k b d (T : tree_ok r (reach_map s)) (Hsmall : Z.of_nat (size (reach_map s)) < 2 ^ 64)
  (Hb : reach_map s !! b = Some d) :
  exists ctx', count_subtrees (context_new s k) b = Ok ctx' /\ ctx_store ctx' = s /\
    forall x (X : gset Hash), tanc (reach_map s) b x -> (forall y, y ∈ X <-> tanc (reach_map s) x y) ->
      subtree_sizes ctx' !! x = Some (Z.of_nat (size X)).
Proof.
  destruct (count_subtrees_ok (context_new s k) T Hsmall (sizes_ok_empty s T) b d Hb) as (ctx' & H1 & H2 & _ & _ & H3).
  exists ctx'. split; [done|]. split; [done|]. intros x X Hx HX. rewrite (H3 x Hx). cbn [ctx_store context_new]. by rewrite (nsub_set T x X HX).
Qed.

(** [propagate_interval] on a block whose interval can hold its subtree
    succeeds and leaves every block of the subtree with a non-empty interval
    that strictly contains the ordered disjoint intervals of its children; the
    block itself, every block outside the subtree and the shape of the tree are
    unchanged. *)
Theorem propagate_interval_allocates r s k b d (X : gset Hash) (T : tree_ok r (reach_map s))
  (Hsmall : Z.of_nat (size (reach_map s)) < 2 ^ 64) (Hb : reach_map s !! b = Some d)
  (Hlegal : 1 <= start_of d /\ end_of d < 2 ^ 64 - 1)
  (HX : forall y, y ∈ X <-> tanc (reach_map s) b y) (Hroom : Z.of_nat (size X) <= end_of d + 1 - start_of d) :
  exists ctx', propagate_interval (context_new s k) b = Ok ctx' /\
    same_shape (reach_map s) (reach_map (ctx_store ctx')) /\
    (forall x, x ∉ X \/ x = b -> reach_map (ctx_store ctx') !! x = reach_map s !! x) /\
    (forall x dx, x ∈ X -> reach_map (ctx_store ctx') !! x = Some dx -> node_ok (reach_map (ctx_store ctx')) dx).
Proof.
  destruct (propagate_interval_ok (context_new s k) T Hsmall (sizes_ok_empty s T) b) as (ctx' & H1 & H2 & _ & _ & _ & H3 & H4).
  { exists d. split; [done|]. pose proof (nsub_set T b X HX) as Hns. cbn [ctx_store context_new]. rewrite Hns. lia. }
  exists ctx'. split; [done|]. split; [done|]. split.
  - intros x Hx. apply H3. by rewrite <- HX.
  - intros x dx Hx. apply H4. by apply HX.
Qed.

(** A chain of two blocks whose child has no interval yet. *)
Definition two_blocks : MemoryReachabilityStore :=
  mkReachStore (add_leaf (m:={[ORIGIN := new_data NONE (mkInterval 1 10) 0]}) 1 ORIGIN (new_data NONE (mkInterval 1 10) 0)
    (new_data ORIGIN (mkInterval 10 9) 1)) (Some ORIGIN).
Lemma two_blocks_tree : tree_ok ORIGIN (reach_map two_blocks) /\
  forall y, y ∈ ({[1; ORIGIN]} : gset Hash) <-> tanc (reach_map two_blocks) ORIGIN y.
Proof.
  set (d0 := new_data NONE (mkInterval 1 10) 0). set (m0 := {[ORIGIN := d0]} : RMap).
  assert (forall x d, m0 !! x = Some d -> x = ORIGIN /\ d = d0) as Hinv by (intros x d [<- <-]%lookup_singleton_Some; done).
  assert (m0 !! ORIGIN = Some d0) as Ho by apply lookup_singleton_eq.
  assert (tree_ok ORIGIN m0) as T0.
  { split.
    - eauto.
    - done.
    - intros h d c Hh Hc. destruct (Hinv h d Hh) as [_ ->]. by apply elem_of_nil in Hc.
    - intros h d Hh Hne. by destruct (Hinv h d Hh).
    - intros h d Hh. destruct (Hinv h d Hh) as [_ ->]. constructor.
    - intros h d Hh. by destruct (Hinv h d Hh) as [_ ->]. }
  split; [by apply (add_leaf_tree T0)|]. intros y. rewrite elem_of_union, !elem_of_singleton.
  etrans; [|symmetry; exact (add_leaf_tanc T0 1 ORIGIN d0 (new_data ORIGIN (mkInterval 10 9) 1) Ho eq_refl eq_refl ORIGIN y)]. split.
  - intros [->| ->]; [right; split; [done|right; by eapply tanc_refl]|left; split; [done|by eapply tanc_refl]].
  - intros [[_ H]|[-> _]]; [|by left]. destruct (tanc_dom T0 _ _ H) as [_ [d Hd]]. destruct (Hinv y d Hd). by right.
Qed.
Lemma two_blocks_small : Z.of_nat (size (reach_map two_blocks)) < 2 ^ 64.
Proof. vm_compute. reflexivity. Qed.
Lemma count_subtrees_exact_witness : exists ctx', count_subtrees (context_new two_blocks 0) ORIGIN = Ok ctx' /\
  subtree_sizes ctx' !! ORIGIN = Some 2.
Proof.
  destruct two_blocks_tree as [T HX].
  destruct (count_subtrees_exact ORIGIN two_blocks 0 ORIGIN _ T two_blocks_small eq_refl) as (ctx' & H1 & _ & H3).
  exists ctx'. split; [exact H1|]. rewrite (H3 ORIGIN {[1; ORIGIN]}); [vm_compute; reflexivity|apply HX; by apply elem_of_union_r, elem_of_singleton|exact HX].
Defined.
Lemma propagate_interval_allocates_witness : exists ctx', propagate_interval (context_new two_blocks 0) ORIGIN = Ok ctx' /\
  forall dx, reach_map (ctx_store ctx') !! 1 = Some dx -> node_ok (reach_map (ctx_store ctx')) dx.
Proof.
  destruct two_blocks_tree as [T HX].
  destruct (propagate_interval_allocates ORIGIN two_blocks 0 ORIGIN
      (with_children (new_data NONE (mkInterval 1 10) 0) [1]) {[1; ORIGIN]} T two_blocks_small eq_refl)
    as (ctx' & H1 & _ & _ & H4); [split; vm_compute; congruence|exact HX|vm_compute; congruence|].
  exists ctx'. split; [exact H1|]. intros dx. apply H4. by apply elem_of_union_l, elem_of_singleton.
Defined.
