(* ===== verification/ReachHint.v ===== *)
(** * Advancing the reindex root

    [try_advancing_reindex_root] of [consensus/src/processes/reachability/tree.rs]
    and [concentrate_interval] of [reindex.rs]: when the selected tip moves, the
    reindex root follows it, and along the way every block gives the child on the
    selected chain all of its interval but the exact sizes of the other subtrees
    and some slack.  The search for the new root ends above the tip, and the
    concentration keeps the store a representation of the same DAG. *)

From S2P Require Import Prelude Search Interval Reachability ReachTree Reindex ReachOps.

Implicit Types (m : RMap) (h a b c p x y r n : Hash) (d : MemoryReachabilityData).

(** ** Searches read intervals only *)
Lemma bsearch_loop_ext {E A} (f g : A -> res E Z) l point fuel : (forall x : A, x ∈ l -> f x = g x) ->
  forall base sz, bsearch_loop f l point base sz fuel = bsearch_loop g l point base sz fuel.
Proof.
  intros Hfg. induction fuel as [|fuel IH]; intros base sz; [done|]. cbn [bsearch_loop]. destruct (sz <=? 1)%nat; [done|]. cbv zeta.
  destruct (l !! (base + sz / 2)%nat) as [x|] eqn:Hx; [|done]. cbn [unwrap mbind res_bind].
  rewrite Hfg by (by eapply list_elem_of_lookup_2). destruct (g x); cbn [mbind res_bind]; done.
Qed.
Lemma binary_search_ext {E A} (f g : A -> res E Z) l point : (forall x : A, x ∈ l -> f x = g x) ->
  binary_search_by_key f l point = binary_search_by_key g l point.
Proof.
  intros Hfg. unfold binary_search_by_key. destruct l as [|y l]; [done|]. rewrite (bsearch_loop_ext f g) by done.
  destruct (bsearch_loop g _ _ _ _ _) as [b| | |]; cbn [mbind res_bind]; [|done..].
  destruct ((y :: l) !! b) as [x|] eqn:Hx; [|done]. cbn [unwrap mbind res_bind]. by rewrite Hfg by (by eapply list_elem_of_lookup_2).
Qed.
Lemma search_descendant_ext s s' l y : (forall x, x ∈ l \/ x = y -> reach_map s !! x = reach_map s' !! x) ->
  binary_search_descendant s l y = binary_search_descendant s' l y.
Proof.
  intros H. assert (forall x, x ∈ l \/ x = y -> get_interval s x = get_interval s' x) as Hi.
  { intros x Hx. unfold get_interval, get_data. by rewrite H. }
  unfold binary_search_descendant. rewrite Hi by (by right). destruct (get_interval s' y) as [i| | |] eqn:Ey; cbn [mbind res_bind]; [|done..].
  rewrite (binary_search_ext _ (fun c : Hash => unwrap_res (i ← get_interval s' c; Ok (iv_start i)))) by (intros x Hx; by rewrite Hi by (by left)).
  destruct (binary_search_by_key _ _ _) as [[k|[|k]]| | |]; cbn [mbind res_bind]; [done|done| |done..].
  destruct (l !! k) as [h|] eqn:Hk; [|done]. cbn [unwrap mbind res_bind]. unfold is_chain_ancestor_of.
  by rewrite (Hi h) by (left; by eapply list_elem_of_lookup_2); rewrite (Hi y) by (by right).
Qed.

(** ** The new root *)
Section find.
Context {r} (s : MemoryReachabilityStore).
Abbreviation M := (reach_map s).
Context (T : tree_ok r M) (A : alloc_ok M).

Lemma tanc_child_of p dp c : M !! p = Some dp -> c ∈ children dp -> tanc M p c /\ nsub T c < nsub T p.
Proof. intros Hp Hc. split; [by eapply tanc_child|]. by apply (nsub_child_lt T p dp c). Qed.

(** The walk towards the hint stops strictly above it. *)
Lemma next_root_loop_ok hint dh depth fuel : M !! hint = Some dh -> 0 < depth -> forall x, tanc M x hint -> x <> hint ->
  nsub T x < Z.of_nat fuel ->
  exists n, next_root_loop s hint (height dh) depth fuel x = Ok n /\ tanc M x n /\ tanc M n hint /\ n <> hint.
Proof.
  intros Hh Hd. induction fuel as [|fuel IH]; intros x Hx Hne Hf; [pose proof (tanc_dom T _ _ Hx) as [[dx Hdx] _]; pose proof (nsub_pos T _ _ Hdx); lia|].
  cbn [next_root_loop]. destruct (tanc_dom T _ _ Hx) as [[dx Hdx] _].
  destruct (next_chain_ancestor_ok x hint dx dh T A Hdx Hh Hx Hne) as (c & -> & Hc & Hch). cbn [mbind res_bind].
  destruct (tanc_dom T _ _ Hch) as [[dc Hdc] _]. rewrite (get_height_ok s _ _ Hdc). cbn [mbind res_bind].
  destruct (tanc_child_of x dx c Hdx Hc) as [Hxc Hlt].
  pose proof (tanc_height T _ _ _ _ Hch Hdc Hh) as Hhc. assert (height dc <= height dh) by (destruct Hhc as [->|]; simplify_eq; lia).
  destruct (Z.ltb_spec (height dh) (height dc)); [lia|]. destruct (Z.ltb_spec (height dh - height dc) depth) as [Hs|Hs].
  - exists x. split_and!; [done|by eapply tanc_refl|done|done].
  - destruct (IH c) as (n & Hn & Hcn & Hnh & Hne'); [done|intros ->; simplify_eq; lia|lia|].
    exists n. split_and!; [done|exact (tanc_trans _ _ _ Hxc Hcn)|done|done].
Qed.

Lemma common_ancestor_loop_ok root droot fuel : M !! root = Some droot -> forall x dx, M !! x = Some dx ->
  Z.of_nat (size M) - nsub T x < Z.of_nat fuel ->
  exists c, common_ancestor_loop s root fuel x = Ok c /\ tanc M c x /\ tanc M c root.
Proof.
  intros Hr. induction fuel as [|fuel IH]; intros x dx Hx Hf; [pose proof (nsub_le T x); lia|]. cbn [common_ancestor_loop].
  rewrite (is_chain_ancestor_eval s _ _ _ _ Hx Hr). cbn [mbind res_bind]. pose proof (contains_tanc T A _ _ _ _ Hx Hr) as Hc.
  destruct (contains _ _); [exists x; split_and!; [done|by eapply tanc_refl|tauto]|].
  rewrite (get_parent_ok s _ _ Hx). cbn [mbind res_bind]. destruct (decide (x = r)) as [->|Hxr].
  { destruct Hc as [_ Hc]. pose proof (Hc (tanc_root T _ _ Hr)). done. }
  destruct (to_parent _ _ T _ _ Hx Hxr) as (dp & Hp & Hin). destruct (tanc_child_of _ _ _ Hp Hin) as [Hpx Hlt].
  destruct (IH (parent dx) dp Hp) as (c & -> & H1 & H2); [lia|]. exists c. split_and!; [done|exact (tanc_trans _ _ _ H1 Hpx)|done].
Qed.

(** The path from [a] to the new root [n] lies on the chain of the hint. *)
Lemma find_next_reindex_root_ok root droot hint dh depth reindex_slack : M !! root = Some droot -> M !! hint = Some dh ->
  hint <> root -> 0 < depth -> 0 <= reindex_slack ->
  exists a n, find_next_reindex_root s root hint depth reindex_slack = Ok (a, n) /\ tanc M a n /\
    (n = root \/ tanc M n hint /\ n <> hint) /\ (exists dn, M !! n = Some dn) /\ tanc M a root.
Proof.
  intros Hr Hh Hne Hd Hsl. unfold find_next_reindex_root. rewrite (get_height_ok s _ _ Hh). cbn [mbind res_bind].
  rewrite (is_chain_ancestor_eval s _ _ _ _ Hr Hh). cbn [mbind res_bind]. pose proof (contains_tanc T A _ _ _ _ Hr Hh) as Hc.
  destruct (contains _ _); cbn [negb].
  - destruct (next_root_loop_ok hint dh depth (fuel_of s) Hh Hd root) as (n & -> & H1 & H2 & H3);
      [tauto|done|unfold fuel_of; pose proof (nsub_le T root); lia|].
    cbn [mbind res_bind]. exists root, n. split_and!; [done|done|right; done|by apply (tanc_dom T _ _ H2)|by eapply tanc_refl].
  - rewrite (get_height_ok s _ _ Hr). cbn [mbind res_bind].
    destruct (Z.ltb_spec (height dh) (height droot)); cbn [orb]; [exists root, root; split_and!; [done|by eapply tanc_refl|by left|eauto|by eapply tanc_refl]|].
    destruct (Z.ltb_spec (height dh - height droot) reindex_slack); [exists root, root; split_and!; [done|by eapply tanc_refl|by left|eauto|by eapply tanc_refl]|].
    unfold find_common_tree_ancestor.
    destruct (common_ancestor_loop_ok root droot (fuel_of s) Hr hint dh Hh) as (c & -> & H1 & H2);
      [unfold fuel_of; pose proof (nsub_pos T _ _ Hh); lia|].
    cbn [mbind res_bind]. assert (c <> hint).
    { intros ->. destruct (tanc_height T _ _ _ _ H2 Hh Hr) as [->|]; [done|lia]. }
    destruct (next_root_loop_ok hint dh depth (fuel_of s) Hh Hd c) as (n & -> & G3 & G4 & G5);
      [done|done|unfold fuel_of; pose proof (nsub_le T c); lia|].
    cbn [mbind res_bind]. exists c, n. split_and!; [done|done|right; done|by apply (tanc_dom T _ _ G4)|done].
Qed.
End find.

(** The interval of the root of the tree. *)
Definition CAPACITY : Z := 2 ^ 64 - 2.

(** ** Concentrating the interval of a block *)
Lemma node_ok_ext m m' d : (forall c, c ∈ children d -> m' !! c = m !! c) -> node_ok m d -> node_ok m' d.
Proof.
  intros Hc (H1 & H2 & Hf). split; [done|]. split; [done|]. eapply fits_ext; [exact Hf|]. intros c dc Hin Hdc. exists dc. by rewrite Hc.
Qed.

Section concentrate.
Context {r} (s0 : MemoryReachabilityStore).
Abbreviation M0 := (reach_map s0).
Context (T : tree_ok r M0) (Hsmall : Z.of_nat (size M0) < 2 ^ 64) (sl : Z) (Hsl : 0 <= sl).
Abbreviation at_ctx ctx := (reach_map (ctx_store ctx)).

(** A context over a store that differs from the initial one in intervals. *)
Record ctx_for ctx : Prop := {
  cf_shape : same_shape M0 (at_ctx ctx);
  cf_sizes : sizes_ok s0 T (subtree_sizes ctx);
  cf_slack : slack ctx = sl;
  cf_root : reindex_root (ctx_store ctx) = reindex_root s0;
}.

Lemma ctx_tree ctx : ctx_for ctx -> tree_ok r (at_ctx ctx).
Proof using T. intros H. eapply same_shape_tree; [apply H|exact T]. Qed.
Lemma ctx_tanc ctx x y : ctx_for ctx -> tanc (at_ctx ctx) x y <-> tanc M0 x y.
Proof. intros H. split; apply same_shape_tanc; [apply same_shape_sym|]; apply H. Qed.
Lemma ctx_size ctx : ctx_for ctx -> Z.of_nat (size (at_ctx ctx)) < 2 ^ 64.
Proof using Hsmall.
  intros H. replace (size (at_ctx ctx)) with (size M0); [done|]. rewrite <- !size_dom. f_equal. apply set_eq. intros x.
  rewrite !elem_of_dom. pose proof (cf_shape _ H x). destruct (M0 !! x), (at_ctx ctx !! x); try done; split; by intros [? ?].
Qed.
Lemma ctx_known ctx x d : ctx_for ctx -> M0 !! x = Some d -> exists d', at_ctx ctx !! x = Some d' /\ children d' = children d.
Proof. intros H Hx. destruct (same_shape_lookup _ _ _ _ (cf_shape _ H) Hx) as (d' & ? & ? & _). eauto. Qed.

Lemma ctx_count ctx b d : ctx_for ctx -> M0 !! b = Some d -> exists ctx', count_subtrees ctx b = Ok ctx' /\
  ctx_store ctx' = ctx_store ctx /\ ctx_for ctx' /\ subtree_size ctx' b = Ok (nsub T b).
Proof using Hsmall.
  intros H Hb. destruct (ctx_known _ _ _ H Hb) as (d' & Hd' & _). pose proof (cf_shape _ H) as Hs.
  destruct (count_subtrees_ok ctx (ctx_tree _ H) (ctx_size _ H) (sizes_ok_shape _ _ T (ctx_tree _ H) _ Hs (cf_sizes _ H)) b d' Hd')
    as (ctx' & Hc & Hst & Hsl' & Hok & Hall).
  exists ctx'. split; [done|]. split; [done|]. split.
  - split; rewrite ?Hst; [done| |by rewrite Hsl'; apply H|apply H].
    eapply sizes_ok_shape; [by apply same_shape_sym|exact Hok].
  - unfold subtree_size. rewrite (Hall b) by (by eapply tanc_refl). cbn. f_equal. symmetry. by apply nsub_eq.
Qed.
Lemma ctx_count_sizes l : forall ctx, ctx_for ctx -> (forall c, c ∈ l -> exists d, M0 !! c = Some d) ->
  exists ctx', count_sizes ctx l = Ok (ctx', map (nsub T) l) /\ ctx_store ctx' = ctx_store ctx /\ ctx_for ctx'.
Proof using Hsmall.
  induction l as [|b l IH]; intros ctx H Hl; [by exists ctx|]. cbn [count_sizes map].
  destruct (Hl b (list_elem_of_here _ _)) as [d Hd]. destruct (ctx_count ctx b d H Hd) as (c1 & -> & Hst1 & H1 & Hn). cbn [mbind res_bind].
  rewrite Hn. cbn [mbind res_bind]. destruct (IH c1 H1) as (c2 & -> & Hst2 & H2); [intros c Hc; apply Hl; by right|].
  exists c2. split; [done|]. split; [congruence|done].
Qed.
Lemma ctx_propagate ctx b : ctx_for ctx -> roomy T (at_ctx ctx) b -> exists ctx', propagate_interval ctx b = Ok ctx' /\
  ctx_for ctx' /\ (forall x, ~ tanc M0 b x \/ x = b -> at_ctx ctx' !! x = at_ctx ctx !! x) /\
  (forall x d, tanc M0 b x -> at_ctx ctx' !! x = Some d -> node_ok (at_ctx ctx') d).
Proof using Hsmall.
  intros H (d & Hd & H1 & H2 & H3). pose proof (cf_shape _ H) as Hs.
  destruct (propagate_interval_ok ctx (ctx_tree _ H) (ctx_size _ H) (sizes_ok_shape _ _ T (ctx_tree _ H) _ Hs (cf_sizes _ H)) b)
    as (ctx' & Hp & Hsh & Hsl' & Hrt & Hok & Hout & Hin).
  { exists d. split_and!; [done..|]. by rewrite <- (nsub_eq T). }
  exists ctx'. split; [done|]. split; [|split].
  - split; [by eapply same_shape_trans|eapply sizes_ok_shape; [by apply same_shape_sym|exact Hok]|rewrite Hsl'; apply H|rewrite Hrt; apply H].
  - intros x Hx. apply Hout. by rewrite ctx_tanc.
  - intros x dx Hx. apply Hin. by rewrite ctx_tanc.
Qed.
Lemma ctx_set ctx b d i : ctx_for ctx -> at_ctx ctx !! b = Some d -> exists ctx', ctx_set_interval ctx b i = Ok ctx' /\ ctx_for ctx' /\
  at_ctx ctx' = <[b := with_interval d i]> (at_ctx ctx).
Proof.
  intros H Hb. unfold ctx_set_interval. rewrite (set_interval_ok _ _ _ _ Hb). cbn [mbind res_bind]. eexists. split; [done|].
  split; [|done]. split; [|apply H..]. eapply same_shape_trans; [apply H|]. by apply same_shape_set.
Qed.

(** Blocks with disjoint subtrees. *)
Record apart (cs : list Hash) : Prop := {
  ap_nodup : NoDup cs;
  ap_known c : c ∈ cs -> exists d, M0 !! c = Some d;
  ap_disj c c' y : c ∈ cs -> c' ∈ cs -> tanc M0 c y -> tanc M0 c' y -> c = c';
}.
(** From [ctx] to [ctx'] the subtrees of [cs] were laid out from [pos] on, each
    with its exact size. *)
Record laid ctx ctx' (cs : list Hash) (pos : Z) : Prop := {
  la_ctx : ctx_for ctx';
  la_out x : (forall c, c ∈ cs -> ~ tanc M0 c x) -> at_ctx ctx' !! x = at_ctx ctx !! x;
  la_fits : fits (at_ctx ctx') pos (pos + nsubs T cs - 1) cs;
  la_in c x d : c ∈ cs -> tanc M0 c x -> at_ctx ctx' !! x = Some d -> node_ok (at_ctx ctx') d;
}.
Lemma set_and_propagate_ok cs : forall pos ctx, ctx_for ctx -> apart cs -> 1 <= pos -> pos + nsubs T cs <= 2 ^ 64 - 1 ->
  exists ctx', set_and_propagate ctx cs (layout pos (map (nsub T) cs)) = Ok ctx' /\ laid ctx ctx' cs pos.
Proof using Hsmall.
  induction cs as [|c cs IH]; intros pos ctx H [Hnd Hk Hdis] Hpos Hmax.
  { exists ctx. split; [done|]. split; [done|done|unfold nsubs; cbn; lia|]. by intros c x d ?%elem_of_nil. }
  cbn [map layout set_and_propagate]. rewrite nsubs_cons in Hmax. apply NoDup_cons in Hnd as [Hc Hnd].
  pose proof (nsubs_nonneg T cs) as Hn0. destruct (Hk c (list_elem_of_here _ _)) as [d0 Hd0]. pose proof (nsub_pos T _ _ Hd0) as Hn1.
  destruct (ctx_known _ _ _ H Hd0) as (d & Hd & _).
  destruct (ctx_set ctx c d (mkInterval pos (pos + nsub T c - 1)) H Hd) as (c1 & -> & H1 & E1). cbn [mbind res_bind].
  destruct (ctx_propagate c1 c H1) as (c2 & -> & H2 & Hout2 & Hin2).
  { rewrite E1. eexists. split; [apply lookup_insert_eq|]. unfold start_of, end_of. cbn. lia. }
  cbn [mbind res_bind]. assert (forall c' y, c' ∈ cs -> tanc M0 c y -> ~ tanc M0 c' y) as Hd'.
  { intros c' y Hc' Hy Hy'. assert (c = c') as ->; [|done]. eapply Hdis; [left|right; exact Hc'|exact Hy|exact Hy']. }
  destruct (IH (pos + nsub T c) c2 H2) as (c3 & -> & [H3 Hout3 Hf3 Hin3]); [|lia|lia|].
  { split; [done|intros; apply Hk; by right|]. intros a b y Ha Hb. apply Hdis; by right. }
  exists c3. split; [done|]. split; [done|..].
  - intros x Hx. rewrite Hout3 by (intros c' Hc'; apply Hx; by right). rewrite Hout2 by (left; apply Hx; left).
    rewrite E1. apply lookup_insert_ne. intros <-. apply (Hx c); [left|]. by eapply tanc_refl.
  - cbn [fits]. exists (with_interval d (mkInterval pos (pos + nsub T c - 1))). split.
    { rewrite Hout3 by (intros c' Hc'; apply Hd'; [done|by eapply tanc_refl]). rewrite Hout2 by (by right). rewrite E1. apply lookup_insert_eq. }
    unfold start_of, end_of. cbn [interval with_interval iv_start iv_end]. rewrite nsubs_cons. split; [lia|]. split; [lia|].
    replace (pos + nsub T c - 1 + 1) with (pos + nsub T c) by lia. by replace (pos + (nsub T c + nsubs T cs) - 1) with (pos + nsub T c + nsubs T cs - 1) by lia.
  - intros c' x dx [->|Hc']%elem_of_cons Hx Hdx; [|by eapply Hin3].
    assert (forall y, tanc M0 c y -> at_ctx c3 !! y = at_ctx c2 !! y) as Hsame by (intros y Hy; apply Hout3; intros; by apply Hd').
    rewrite Hsame in Hdx by done. apply (node_ok_ext (at_ctx c2)); [|by apply (Hin2 x)]. intros y Hy. apply Hsame.
    destruct (tanc_dom T _ _ Hx) as [_ [dx0 Hx0]]. destruct (ctx_known _ _ _ H2 Hx0) as (dx' & Hx' & Ech).
    eapply tanc_step; [exact Hx|exact Hx0|]. rewrite <- Ech. by simplify_eq.
Qed.

Lemma sizes_sum cs : Forall (Z.le 0) (map (nsub T) cs) /\ zsum (map (nsub T) cs) = nsubs T cs.
Proof. split; [|done]. apply Forall_map, Forall_forall. intros c _. unfold nsub. cbn. lia. Qed.

Section tighten.
Context (ctx : ReindexOperationContext) (p : Hash) (dp : MemoryReachabilityData) (cs : list Hash).
Context (H : ctx_for ctx) (Hp : at_ctx ctx !! p = Some dp) (Hcs : apart cs).
Context (Hlo : 1 <= start_of dp) (Hhi : end_of dp < 2 ^ 64 - 1) (Hfit : start_of dp + sl + nsubs T cs <= end_of dp - sl).

Lemma tighten_before_ok : exists ctx', tighten_intervals_before ctx p cs = Ok (ctx', nsubs T cs) /\ laid ctx ctx' cs (start_of dp + sl).
Proof using All.
  pose proof (nsubs_nonneg T cs) as Hn. destruct (sizes_sum cs) as [Hs1 Hs2]. unfold start_of, end_of in *.
  unfold tighten_intervals_before. destruct (ctx_count_sizes cs ctx H (ap_known _ Hcs)) as (c1 & -> & Hst & H1). cbn [mbind res_bind].
  rewrite (u64_sum_exact _ Hs1) by (rewrite Hs2; lia). rewrite Hs2. cbn [mbind res_bind]. rewrite Hst, (get_interval_ok _ _ _ Hp). cbn [mbind res_bind].
  rewrite (cf_slack _ H1), !u64_add_ok by (unfold inW; lia). cbn [mbind res_bind]. rewrite u64_add_ok by (unfold inW; lia). cbn [mbind res_bind].
  rewrite u64_sub_ok by (unfold inW; lia). cbn [mbind res_bind].
  rewrite split_exact_ok by (first [unfold iv_ok; cbn; lia|done|unfold iv_len; cbn [iv_start iv_end]; lia]). cbn [mbind res_bind iv_start].
  destruct (set_and_propagate_ok cs (iv_start (interval dp) + sl) c1 H1 Hcs) as (c2 & -> & [L1 L2 L3 L4]); [lia|lia|]. cbn [mbind res_bind].
  exists c2. split; [done|]. rewrite Hst in L2. by split.
Qed.
Lemma tighten_after_ok : exists ctx', tighten_intervals_after ctx p cs = Ok (ctx', nsubs T cs) /\
  laid ctx ctx' cs (end_of dp - sl - nsubs T cs).
Proof using All.
  pose proof (nsubs_nonneg T cs) as Hn. destruct (sizes_sum cs) as [Hs1 Hs2]. unfold start_of, end_of in *.
  unfold tighten_intervals_after. destruct (ctx_count_sizes cs ctx H (ap_known _ Hcs)) as (c1 & -> & Hst & H1). cbn [mbind res_bind].
  rewrite (u64_sum_exact _ Hs1) by (rewrite Hs2; lia). rewrite Hs2. cbn [mbind res_bind]. rewrite Hst, (get_interval_ok _ _ _ Hp). cbn [mbind res_bind].
  rewrite (cf_slack _ H1), u64_sub_ok by (unfold inW; lia). cbn [mbind res_bind]. rewrite u64_sub_ok by (unfold inW; lia). cbn [mbind res_bind].
  rewrite u64_sub_ok by (unfold inW; lia). cbn [mbind res_bind].
  rewrite split_exact_ok by (first [unfold iv_ok; cbn; lia|done|unfold iv_len; cbn [iv_start iv_end]; lia]). cbn [mbind res_bind iv_start].
  destruct (set_and_propagate_ok cs (iv_end (interval dp) - sl - nsubs T cs) c1 H1 Hcs) as (c2 & -> & [L1 L2 L3 L4]); [lia|lia|]. cbn [mbind res_bind].
  exists c2. split; [done|]. rewrite Hst in L2. by split.
Qed.
End tighten.

(** Growing the interval of an allocated block keeps it allocated. *)
Lemma fits_lower m lo lo' hi cs : fits m lo hi cs -> lo' <= lo -> fits m lo' hi cs.
Proof. destruct cs as [|c cs]; [cbn; lia|]. intros (d & Hd & H1 & H2) Hle. exists d. split; [done|]. split; [lia|done]. Qed.
Lemma node_ok_widen m m' d d' : node_ok m d -> children d' = children d -> (forall c, c ∈ children d -> m' !! c = m !! c) ->
  1 <= start_of d' <= start_of d -> end_of d <= end_of d' < 2 ^ 64 - 1 -> node_ok m' d'.
Proof.
  intros (H1 & H2 & Hf) Hch Hext Hlo Hhi. split; [lia|]. split; [lia|]. rewrite Hch.
  apply (fits_weaken _ _ (end_of d - 1)); [|lia]. apply (fits_ext m); [|intros c dc Hc Hdc; exists dc; by rewrite Hext].
  apply (fits_lower _ (start_of d)); [done|lia].
Qed.
Lemma below_child ctx x d c : ctx_for ctx -> at_ctx ctx !! x = Some d -> c ∈ children d -> tanc M0 x c /\ x <> c.
Proof using T.
  intros H Hx Hc. pose proof (ctx_tree _ H) as T1. split.
  - rewrite <- (ctx_tanc ctx) by done. by eapply tanc_child.
  - intros ->. destruct (to_child _ _ T1 _ _ _ Hx Hc) as (dc & Hdc & _ & Hlt). simplify_eq. lia.
Qed.

Section expand.
Context (ctx : ReindexOperationContext) (p c : Hash) (dp : MemoryReachabilityData) (final : bool) (b a : Z).
Context (H : ctx_for ctx) (Hp : at_ctx ctx !! p = Some dp) (Hc : exists d, M0 !! c = Some d).
Context (Hin : forall x d, tanc M0 c x -> at_ctx ctx !! x = Some d -> node_ok (at_ctx ctx) d).
Context (Hlo : 1 <= start_of dp) (Hhi : end_of dp < 2 ^ 64 - 1) (Hb : 0 <= b) (Ha : 0 <= a).
Context (Hfit : nsub T c + (if final then 2 * sl else 0) <= end_of dp - a - sl - (start_of dp + b + sl)).

(** The chosen child gets the whole allocation. *)
Record expanded ctx' : Prop := {
  ex_ctx : ctx_for ctx';
  ex_out x : ~ tanc M0 c x -> at_ctx ctx' !! x = at_ctx ctx !! x;
  ex_child : exists dc, at_ctx ctx' !! c = Some dc /\ interval dc = mkInterval (start_of dp + b + sl) (end_of dp - a - sl - 1);
  ex_keep x : final = false -> tanc M0 c x -> x <> c -> at_ctx ctx' !! x = at_ctx ctx !! x;
  ex_final x d : final = true -> tanc M0 c x -> at_ctx ctx' !! x = Some d -> node_ok (at_ctx ctx') d;
}.

(** The last write, over a context in which the subtree is allocated inside the new interval. *)
Lemma expand_last ctx1 dc1 : ctx_for ctx1 -> (forall x, ~ tanc M0 c x -> at_ctx ctx1 !! x = at_ctx ctx !! x) ->
  at_ctx ctx1 !! c = Some dc1 ->
  (final = false -> forall x, tanc M0 c x -> x <> c -> at_ctx ctx1 !! x = at_ctx ctx !! x) ->
  (final = true -> start_of dp + b + sl <= start_of dc1 /\ end_of dc1 <= end_of dp - a - sl - 1 /\
    forall x d, tanc M0 c x -> at_ctx ctx1 !! x = Some d -> node_ok (at_ctx ctx1) d) ->
  exists ctx', ctx_set_interval ctx1 c (mkInterval (start_of dp + b + sl) (end_of dp - a - sl - 1)) = Ok ctx' /\ expanded ctx'.
Proof using All.
  intros H1 Hout1 Hc1 Hkeep Hfin. destruct (ctx_set ctx1 c dc1 (mkInterval (start_of dp + b + sl) (end_of dp - a - sl - 1)) H1 Hc1) as (c2 & -> & H2 & E2).
  exists c2. split; [done|]. split; [done|..].
  - intros x Hx. rewrite E2, lookup_insert_ne; [by apply Hout1|]. intros <-. apply Hx. destruct Hc as [d Hd]. by eapply tanc_refl.
  - eexists. rewrite E2, lookup_insert_eq. done.
  - intros x Hf Hx Hne. rewrite E2, lookup_insert_ne by done. by apply Hkeep.
  - intros x d Hf Hx Hd. destruct (Hfin Hf) as (F1 & F2 & F3). rewrite E2 in Hd. destruct (decide (x = c)) as [->|Hne].
    + rewrite lookup_insert_eq in Hd. injection Hd as <-. apply (node_ok_widen (at_ctx ctx1) _ dc1); [by apply (F3 c)|done| |unfold start_of, end_of in *; cbn [interval with_interval iv_start iv_end]; lia..].
      intros y Hy. rewrite E2. apply lookup_insert_ne. by destruct (below_child _ _ _ _ H1 Hc1 Hy).
    + rewrite lookup_insert_ne in Hd by done. rewrite E2. apply (node_ok_ext (at_ctx ctx1)); [|by apply (F3 x)].
      intros y Hy. apply lookup_insert_ne. intros <-. destruct (below_child _ _ _ _ H1 Hd Hy) as [Hxc _]. apply Hne.
      by apply (tanc_antisym T).
Qed.

Lemma expand_ok : exists ctx', expand_interval_to_chosen ctx p c b a final = Ok ctx' /\ expanded ctx'.
Proof using All.
  pose proof Hc as [d0 Hd0]. pose proof (nsub_pos T _ _ Hd0) as Hn. destruct (ctx_known _ _ _ H Hd0) as (dc & Hdc & _).
  assert (0 <= (if final then 2 * sl else 0)) as Hz by (destruct final; lia).
  unfold expand_interval_to_chosen. rewrite (get_interval_ok _ _ _ Hp), (cf_slack _ H). cbn [mbind res_bind].
  fold (start_of dp) (end_of dp). rewrite !u64_add_ok by (unfold inW; lia). cbn [mbind res_bind]. rewrite u64_add_ok by (unfold inW; lia). cbn [mbind res_bind].
  do 3 (rewrite u64_sub_ok by (unfold inW; lia); cbn [mbind res_bind]). rewrite (get_interval_ok _ _ _ Hdc). cbn [mbind res_bind].
  destruct (final && negb (contains _ _)) eqn:Hf.
  - apply andb_true_iff in Hf as [Hf _]. pose proof Hfit as Hfit2. rewrite Hf in Hfit2. rewrite u64_add_ok by (unfold inW; lia). cbn [mbind res_bind].
    rewrite u64_sub_ok by (unfold inW; lia). cbn [mbind res_bind].
    destruct (ctx_set ctx c dc (mkInterval (start_of dp + b + sl + sl) (end_of dp - a - sl - 1 - sl)) H Hdc) as (c1 & -> & H1 & E1). cbn [mbind res_bind].
    destruct (ctx_propagate c1 c H1) as (c2 & -> & H2 & Hout2 & Hin2).
    { rewrite E1. eexists. split; [apply lookup_insert_eq|]. unfold start_of, end_of in *. cbn [interval with_interval iv_start iv_end]. lia. }
    cbn [mbind res_bind]. apply (expand_last c2 (with_interval dc (mkInterval (start_of dp + b + sl + sl) (end_of dp - a - sl - 1 - sl)))); [done|..].
    + intros x Hx. rewrite Hout2 by (by left). rewrite E1. apply lookup_insert_ne. intros <-. apply Hx. by eapply tanc_refl.
    + rewrite Hout2 by (by right). rewrite E1. apply lookup_insert_eq.
    + congruence.
    + intros _. unfold start_of, end_of in *. cbn [interval with_interval iv_start iv_end]. split_and!; [lia|lia|done].
  - cbn [mbind res_bind]. apply (expand_last ctx dc); [done|done|done|done|]. intros Ef. rewrite Ef in Hf. cbn [andb] in Hf. apply negb_false_iff in Hf.
    unfold contains in Hf. apply andb_true_iff in Hf as [F1%Z.leb_le F2%Z.leb_le]. cbn [iv_start iv_end] in F1, F2. unfold start_of, end_of in F1, F2 |- *. split_and!; [lia|lia|done].
Qed.
End expand.

(** One step down the chain of the new root. *)
Lemma split_children_ok (cs : list Hash) c : c ∈ cs -> exists b a : list Hash, split_children cs c = Ok (b, a) /\ cs = b ++ c :: a.
Proof.
  induction cs as [|c' cs IH]; [by intros ?%elem_of_nil|]. intros Hc. cbn [split_children]. destruct (decide (c' = c)) as [->|Hne].
  { by exists [], cs. }
  apply elem_of_cons in Hc as [->|Hc]; [done|]. destruct (IH Hc) as (b & a & -> & ->). cbn [mbind res_bind]. by exists (c' :: b), a.
Qed.
Lemma children_apart p dp cs : M0 !! p = Some dp -> cs `sublist_of` children dp -> apart cs.
Proof using T.
  intros Hp Hs. assert (forall c, c ∈ cs -> c ∈ children dp) as Hin by (intros c Hc; by eapply elem_of_sublist). split.
  - eapply sublist_NoDup; [|exact Hs]. by eapply (to_nodup _ _ T).
  - intros c Hc. destruct (to_child _ _ T _ _ _ Hp (Hin c Hc)) as (dc & ? & _). eauto.
  - intros c c' y Hc Hc' Hy Hy'. eapply (subtree_siblings T p dp c c' y); eauto.
Qed.

Section step.
Context (ctx : ReindexOperationContext) (p c : Hash) (dp0 dp : MemoryReachabilityData) (final : bool).
Context (H : ctx_for ctx) (Hp0 : M0 !! p = Some dp0) (Hp : at_ctx ctx !! p = Some dp) (Hc : c ∈ children dp0).
Context (Hbelow : forall x d, tanc M0 p x -> x <> p -> at_ctx ctx !! x = Some d -> node_ok (at_ctx ctx) d).
Context (Hlo : 1 <= start_of dp) (Hhi : end_of dp < 2 ^ 64 - 1).
Context (Hfit : nsub T p + 2 * sl + (if final then 2 * sl else 0) <= end_of dp + 1 - start_of dp).

(** The children of [p] are allocated anew: the siblings of [c] exactly, [c]
    with the rest of the interval less the slack on both sides. *)
Record concentrated ctx' : Prop := {
  cn_ctx : ctx_for ctx';
  cn_out x : ~ tanc M0 p x \/ x = p -> at_ctx ctx' !! x = at_ctx ctx !! x;
  cn_parent : node_ok (at_ctx ctx') dp;
  cn_siblings x d : tanc M0 p x -> x <> p -> ~ tanc M0 c x -> at_ctx ctx' !! x = Some d -> node_ok (at_ctx ctx') d;
  cn_child : exists dc, at_ctx ctx' !! c = Some dc /\ 1 <= start_of dc /\ end_of dc < 2 ^ 64 - 1 /\
    end_of dc + 1 - start_of dc - nsub T c = end_of dp + 1 - start_of dp - nsub T p - 2 * sl;
  cn_keep x : final = false -> tanc M0 c x -> x <> c -> at_ctx ctx' !! x = at_ctx ctx !! x;
  cn_final x d : final = true -> tanc M0 c x -> at_ctx ctx' !! x = Some d -> node_ok (at_ctx ctx') d;
}.

Lemma strictly_below x : tanc M0 p x -> x <> p -> exists c', c' ∈ children dp0 /\ tanc M0 c' x.
Proof using T Hp0. intros Hx Hne. destruct (tanc_top T _ _ _ Hx Hp0) as [E|?]; [congruence|done]. Qed.

Section split.
Context (b a : list Hash) (Ecs : children dp0 = b ++ c :: a).

Lemma split_sizes : nsub T p = 1 + nsubs T b + nsub T c + nsubs T a /\ 0 <= nsubs T b /\ 0 <= nsubs T a /\ 1 <= nsub T c.
Proof using T Hp0 Hc Ecs.
  destruct (to_child _ _ T _ _ _ Hp0 Hc) as (dc & Hdc & _). pose proof (nsub_pos T _ _ Hdc).
  pose proof (nsubs_nonneg T b). pose proof (nsubs_nonneg T a). rewrite (nsub_children T _ _ Hp0), Ecs, nsubs_app, nsubs_cons. lia.
Qed.
Lemma split_before c1 : c1 ∈ b -> c1 ∈ children dp0 /\ c1 <> c /\ c1 ∉ a.
Proof using T Hp0 Ecs.
  intros Hb. pose proof (to_nodup _ _ T _ _ Hp0) as Hnd. rewrite Ecs in Hnd |- *. apply NoDup_app in Hnd as (_ & Hba & _).
  specialize (Hba _ Hb). rewrite elem_of_cons in Hba. split; [apply elem_of_app; by left|tauto].
Qed.
Lemma split_after c1 : c1 ∈ a -> c1 ∈ children dp0 /\ c1 <> c.
Proof using T Hp0 Ecs.
  intros Ha. pose proof (to_nodup _ _ T _ _ Hp0) as Hnd. rewrite Ecs in Hnd |- *. apply NoDup_app in Hnd as (_ & _ & Hca).
  apply NoDup_cons in Hca as [Hca _]. split; [apply elem_of_app; right; by right|congruence].
Qed.
Lemma split_apart : apart b /\ apart a.
Proof using T Hp0 Ecs.
  split; apply (children_apart p dp0); try done; rewrite Ecs; [by apply sublist_inserts_r|]. apply sublist_inserts_l. by apply sublist_cons.
Qed.
(** The regions of the three writes are disjoint, and none holds [p]. *)
Lemma not_above c1 : c1 ∈ children dp0 -> ~ tanc M0 c1 p.
Proof using T Hp0. by apply (child_not_above T p dp0). Qed.
Lemma regions c1 c2 y : c1 ∈ children dp0 -> c2 ∈ children dp0 -> c1 <> c2 -> tanc M0 c1 y -> ~ tanc M0 c2 y.
Proof using T Hp0. intros H1 H2 Hne Hy Hy'. apply Hne. by apply (subtree_siblings T p dp0 c1 c2 y). Qed.

Section writes.
Context (k1 k2 k3 : ReindexOperationContext) (L : laid ctx k1 b (start_of dp + sl)) (R : laid k1 k2 a (end_of dp - sl - nsubs T a)).
Context (X : expanded k2 c dp final (nsubs T b) (nsubs T a) k3).

Lemma unwritten x : (forall c', c' ∈ children dp0 -> ~ tanc M0 c' x) -> at_ctx k3 !! x = at_ctx ctx !! x.
Proof using T Hp0 Hc Ecs L R X.
  intros Hx. rewrite (ex_out _ _ _ _ _ _ _ X), (la_out _ _ _ _ R), (la_out _ _ _ _ L); [done| | |by apply Hx];
    intros c' Hc'; apply Hx; [by apply split_before|by apply split_after].
Qed.
Lemma written_before c' x : c' ∈ b -> tanc M0 c' x -> at_ctx k3 !! x = at_ctx k1 !! x.
Proof using T Hp0 Hc Ecs R X.
  intros (B1 & B2 & B3)%split_before Hx. rewrite (ex_out _ _ _ _ _ _ _ X), (la_out _ _ _ _ R); [done| |by apply (regions c')].
  intros c'' Ha. destruct (split_after c'' Ha). apply (regions c'); [done|done|congruence|done].
Qed.
Lemma written_after c' x : c' ∈ a -> tanc M0 c' x -> at_ctx k3 !! x = at_ctx k2 !! x.
Proof using T Hp0 Hc Ecs X. intros (A1 & A2)%split_after Hx. apply (ex_out _ _ _ _ _ _ _ X). by apply (regions c'). Qed.
Lemma written_child x : tanc M0 c x -> at_ctx k2 !! x = at_ctx ctx !! x.
Proof using T Hp0 Hc Ecs L R.
  intros Hx. rewrite (la_out _ _ _ _ R), (la_out _ _ _ _ L); [done|..]; intros c' Hc'.
  - destruct (split_before c' Hc') as (? & ? & _). apply (regions c); [done|done|congruence|done].
  - destruct (split_after c' Hc'). apply (regions c); [done|done|congruence|done].
Qed.
(** A subtree written once keeps the allocation of that write. *)
Lemma node_moved c' k x d : (forall y, tanc M0 c' y -> at_ctx k3 !! y = at_ctx k !! y) -> ctx_for k ->
  tanc M0 c' x -> at_ctx k3 !! x = Some d -> (at_ctx k !! x = Some d -> node_ok (at_ctx k) d) -> node_ok (at_ctx k3) d.
Proof using T.
  intros Hk Kk Hx Hd Hok. rewrite Hk in Hd by done. apply (node_ok_ext (at_ctx k)); [|by apply Hok].
  intros y Hy. apply Hk. eapply (tanc_trans (m:=M0)); [exact Hx|]. by eapply below_child.
Qed.
Lemma child_known c' : c' ∈ children dp0 -> tanc M0 c' c'.
Proof using T Hp0. intros Hc'. destruct (to_child _ _ T _ _ _ Hp0 Hc') as (d1 & ? & _). by eapply tanc_refl. Qed.
Lemma parent_fits : node_ok (at_ctx k3) dp.
Proof using All.
  destruct split_sizes as (En & Hnb & Hna & Hnc). assert (0 <= (if final then 2 * sl else 0)) as Hz by (destruct final; lia).
  assert (children dp = children dp0) as Hch by (destruct (ctx_known _ _ _ H Hp0) as (d' & ? & ?); by simplify_eq).
  split; [lia|]. split; [lia|]. rewrite Hch, Ecs.
  assert (forall k cs lo hi, (forall c', c' ∈ cs -> at_ctx k3 !! c' = at_ctx k !! c') -> fits (at_ctx k) lo hi cs -> fits (at_ctx k3) lo hi cs) as Hext.
  { intros k cs lo hi Hk Hf. apply (fits_ext (at_ctx k)); [done|]. intros c' d Hc' Hd. exists d. by rewrite Hk. }
  apply (fits_app _ _ (start_of dp + sl + nsubs T b - 1)).
  - apply (fits_lower _ (start_of dp + sl)); [|lia]. apply (Hext k1); [|apply L]. intros c' Hc'. apply (written_before c'); [done|].
    apply child_known. by apply split_before.
  - destruct (ex_child _ _ _ _ _ _ _ X) as (dc & Hdc & Hi). cbn [fits]. exists dc. split; [done|].
    assert (start_of dc = start_of dp + nsubs T b + sl /\ end_of dc = end_of dp - nsubs T a - sl - 1) as [-> ->] by (unfold start_of at 1, end_of at 1; by rewrite Hi).
    split; [lia|]. split; [lia|]. apply (fits_lower _ (end_of dp - sl - nsubs T a)); [|lia]. apply (fits_weaken _ _ (end_of dp - sl - nsubs T a + nsubs T a - 1)); [|lia].
    apply (Hext k2); [|apply R]. intros c' Hc'. apply (written_after c'); [done|]. apply child_known. by apply split_after.
Qed.

Lemma combine_writes : concentrated k3.
Proof using All.
  destruct split_sizes as (En & Hnb & Hna & Hnc). split; [apply X|..].
  - intros x Hx. apply unwritten. intros c' Hc' Hx'. destruct Hx as [Hx|Hx]; [|rewrite Hx in Hx'; by eapply not_above]. apply Hx.
    eapply tanc_trans; [by eapply tanc_child|done].
  - exact parent_fits.
  - intros x d Hx Hne Hnx Hd. destruct (strictly_below x Hx Hne) as (c' & Hc' & Hx'). rewrite Ecs in Hc'.
    apply elem_of_app in Hc' as [Hb|[E|Ha]%elem_of_cons]; [|by rewrite E in Hx'|].
    + apply (node_moved c' k1 x); [intros; by apply (written_before c')|apply L|done|done|]. by apply (la_in _ _ _ _ L c').
    + apply (node_moved c' k2 x); [intros; by apply (written_after c')|apply R|done|done|]. by apply (la_in _ _ _ _ R c').
  - destruct (ex_child _ _ _ _ _ _ _ X) as (dc & Hdc & Hi). exists dc. split; [done|].
    assert (start_of dc = start_of dp + nsubs T b + sl /\ end_of dc = end_of dp - nsubs T a - sl - 1) as [-> ->] by (unfold start_of at 1, end_of at 1; by rewrite Hi).
    assert (0 <= (if final then 2 * sl else 0)) by (destruct final; lia). lia.
  - intros x Hf Hx Hne. rewrite (ex_keep _ _ _ _ _ _ _ X) by done. by apply written_child.
  - apply X.
Qed.
End writes.
End split.

Lemma concentrate_interval_ok : exists ctx', concentrate_interval ctx p c final = Ok ctx' /\ concentrated ctx'.
Proof using All.
  assert (children dp = children dp0) as Hch by (destruct (ctx_known _ _ _ H Hp0) as (d' & ? & ?); by simplify_eq).
  unfold concentrate_interval. rewrite (get_children_ok _ _ _ Hp), Hch. cbn [mbind res_bind].
  destruct (split_children_ok _ _ Hc) as (b & a & -> & Ecs). cbn [mbind res_bind].
  destruct (split_sizes b a Ecs) as (En & Hnb & Hna & Hnc). destruct (split_apart b a Ecs) as [Hab Haa].
  assert (0 <= (if final then 2 * sl else 0)) as Hz by (destruct final; lia).
  destruct (tighten_before_ok ctx p dp b H Hp Hab) as (k1 & -> & L); [done|done|lia|]. cbn [mbind res_bind].
  assert (at_ctx k1 !! p = Some dp) as Hp1.
  { rewrite (la_out _ _ _ _ L); [done|]. intros c' Hc'. apply not_above. by apply (split_before b a). }
  destruct (tighten_after_ok k1 p dp a (la_ctx _ _ _ _ L) Hp1 Haa) as (k2 & -> & R); [done|done|lia|]. cbn [mbind res_bind].
  assert (at_ctx k2 !! p = Some dp) as Hp2.
  { rewrite (la_out _ _ _ _ R); [done|]. intros c' Hc'. apply not_above. by apply (split_after b a). }
  destruct (expand_ok k2 p c dp final (nsubs T b) (nsubs T a) (la_ctx _ _ _ _ R) Hp2) as (k3 & Hk3 & X); [| |done|done|done|done|lia|].
  { destruct (to_child _ _ T _ _ _ Hp0 Hc) as (dc & ? & _). eauto. }
  { intros x d Hx Hd. assert (tanc M0 p x /\ x <> p) as [Hpx Hne].
    { split; [eapply tanc_trans; [by eapply tanc_child|done]|]. intros E. rewrite E in Hx. by eapply not_above. }
    rewrite (written_child b a Ecs k1 k2 L R) in Hd by done. apply (node_ok_ext (at_ctx ctx)); [|by apply (Hbelow x)].
    intros y Hy. apply (written_child b a Ecs k1 k2 L R). eapply (tanc_trans (m:=M0)); [exact Hx|]. by eapply below_child. }
  exists k3. split; [done|]. by apply (combine_writes b a Ecs k1 k2).
Qed.
End step.

(** ** Down to the new root *)
Section loop.
Context (A : alloc_ok M0) (next : Hash) (dn : MemoryReachabilityData) (Hn : M0 !! next = Some dn).
Context (Hcap : Z.of_nat (size M0) + 2 * sl * (height dn + 1) <= CAPACITY).

(** Everything is allocated but possibly the children of [a], and the blocks on
    the way have lost only slack and what is outside their subtrees. *)
Record loop_inv a s : Prop := {
  li_shape : same_shape M0 (reach_map s);
  li_root : reindex_root s = reindex_root s0;
  li_nodes x d : x <> a \/ a = next -> reach_map s !! x = Some d -> node_ok (reach_map s) d;
  li_room : exists da, reach_map s !! a = Some da /\ 1 <= start_of da /\ end_of da < 2 ^ 64 - 1;
  li_wide x d : tanc M0 x a -> reach_map s !! x = Some d ->
    CAPACITY <= end_of d + 1 - start_of d + 2 * sl * height d + (Z.of_nat (size M0) - nsub T x);
  li_keep x : a <> next -> tanc M0 a x -> x <> a -> reach_map s !! x = M0 !! x;
  li_path : tanc M0 a next;
}.

Lemma loop_child a s : loop_inv a s -> a <> next -> exists c da0, get_next_chain_ancestor_unchecked s next a = Ok c /\
  M0 !! a = Some da0 /\ c ∈ children da0 /\ tanc M0 c next.
Proof using T A Hn.
  intros I Hne. destruct (tanc_dom T _ _ (li_path _ _ I)) as [[da0 Hda0] _]. destruct (li_room _ _ I) as (da & Hda & _).
  destruct (next_chain_ancestor_ok a next da0 dn T A Hda0 Hn (li_path _ _ I) Hne) as (c & Hc & Hin & Hcn).
  exists c, da0. split_and!; [|done..]. rewrite <- Hc. unfold get_next_chain_ancestor_unchecked.
  rewrite (get_children_ok s _ _ Hda), (get_children_ok s0 _ _ Hda0). cbn [mbind res_bind].
  assert (children da = children da0) as ->.
  { destruct (same_shape_lookup _ _ _ _ (li_shape _ _ I) Hda0) as (d' & ? & ? & _). by simplify_eq. }
  rewrite (search_descendant_ext s s0); [done|]. intros x [Hx| ->].
  - apply (li_keep _ _ I); [done|by eapply tanc_child|]. intros ->. eapply (child_not_above T a da0 a); [done|done|by eapply tanc_refl].
  - apply (li_keep _ _ I); [done|apply I|done].
Qed.

Section step.
Context (a c : Hash) (s : MemoryReachabilityStore) (da0 da : MemoryReachabilityData) (k : ReindexOperationContext).
Context (I : loop_inv a s) (Hctx : ctx_for (context_new s sl)) (Ha0 : M0 !! a = Some da0) (Hda : reach_map s !! a = Some da) (Hc : c ∈ children da0).
Context (C : concentrated (context_new s sl) a c da (bool_decide (c = next)) k).
Abbreviation K := (reach_map (ctx_store k)).

(** Outside the subtree of [a] nothing moved. *)
Lemma step_outside x d : ~ tanc M0 a x -> K !! x = Some d -> node_ok K d.
Proof using T I Ha0 C.
  intros Hax Hd. rewrite (cn_out _ _ _ _ _ _ C) in Hd by (by left). cbn [ctx_store context_new] in Hd.
  apply (node_ok_ext (reach_map s)); [|apply (li_nodes _ _ I x); [left; intros ->; apply Hax; by eapply tanc_refl|done]].
  intros y Hy. apply (cn_out _ _ _ _ _ _ C). destruct (decide (y = a)) as [Ey|Hya]; [by right|]. left. intros Hay. apply Hax.
  destruct (same_shape_lookup _ _ _ _ (same_shape_sym _ _ (li_shape _ _ I)) Hd) as (d0 & Hd0 & Ech & _). rewrite <- Ech in Hy.
  apply tanc_inv in Hay as [Ea|(q & dq & Hq & Hyq & Haq)]; [congruence|]. by rewrite <- (child_parent T _ _ _ _ _ Hq Hyq Hd0 Hy).
Qed.
(** Below [c] nothing moved yet, unless [c] is the new root. *)
Lemma step_below x d : c <> next -> tanc M0 c x -> x <> c -> K !! x = Some d -> node_ok K d.
Proof using T I Hctx Ha0 Hc C.
  intros Hcn Hcx Hne Hd. assert (bool_decide (c = next) = false) as Hf by (by apply bool_decide_eq_false).
  rewrite (cn_keep _ _ _ _ _ _ C) in Hd by done. cbn [ctx_store context_new] in Hd. apply (node_ok_ext (reach_map s)).
  - intros y Hy. destruct (below_child (context_new s sl) x d y Hctx Hd Hy) as [Hxy Hxy'].
    apply (cn_keep _ _ _ _ _ _ C); [done|by eapply tanc_trans|]. intros E. rewrite E in Hxy. apply Hne. by apply (tanc_antisym T).
  - apply (li_nodes _ _ I x); [left|done]. intros E. rewrite E in Hcx. by apply (child_not_above T a da0 c).
Qed.
Lemma step_nodes x d : x <> c \/ c = next -> K !! x = Some d -> node_ok K d.
Proof using T I Hctx Ha0 Hda Hc C.
  intros Hx Hd. destruct (tanc_dec T a x) as [Hax|Hax]; [|by apply (step_outside x)].
  destruct (tanc_dec T c x) as [Hcx|Hcx].
  - destruct (decide (c = next)) as [E|E]; [apply (cn_final _ _ _ _ _ _ C x); [by apply bool_decide_eq_true|done|done]|].
    apply (step_below x); [done|done| |done]. by destruct Hx.
  - destruct (decide (x = a)) as [Ex|]; [|by apply (cn_siblings _ _ _ _ _ _ C x)].
    rewrite Ex, (cn_out _ _ _ _ _ _ C) in Hd by (by right). cbn [ctx_store context_new] in Hd.
    assert (d = da) as -> by congruence. apply C.
Qed.
End step.

Lemma loop_step a s c da0 : loop_inv a s -> a <> next -> M0 !! a = Some da0 -> c ∈ children da0 -> tanc M0 c next ->
  exists ctx', concentrate_interval (context_new s sl) a c (bool_decide (c = next)) = Ok ctx' /\ loop_inv c (ctx_store ctx').
Proof using T Hsmall Hsl Hn Hcap.
  intros I Hne Ha0 Hc Hcn. destruct (li_room _ _ I) as (da & Hda & Hlo & Hhi).
  destruct (to_child _ _ T _ _ _ Ha0 Hc) as (dc0 & Hdc0 & _ & Hh).
  assert (height dc0 <= height dn) by (destruct (tanc_height T _ _ _ _ Hcn Hdc0 Hn) as [E|]; [rewrite E in Hdc0; simplify_eq|]; lia).
  pose proof (li_wide _ _ I a da ltac:(by eapply tanc_refl) Hda) as Hw. destruct (same_shape_lookup _ _ _ _ (li_shape _ _ I) Ha0) as (da1 & Hda1 & _ & _ & Hha & _).
  assert (da1 = da) as -> by congruence. pose proof (to_height _ _ T _ _ Ha0).
  assert (ctx_for (context_new s sl)) as Hctx by (split; [apply I|apply sizes_ok_empty|done|apply I]).
  destruct (concentrate_interval_ok (context_new s sl) a c da0 da (bool_decide (c = next)) Hctx Ha0 Hda Hc) as (k & Hk & C);
    [intros x d _ Hx; apply (li_nodes _ _ I); by left|done|done|destruct (bool_decide _); nia|].
  destruct (cn_child _ _ _ _ _ _ C) as (dc & Hdc & Hl & Hu & Hlen).
  exists k. split; [done|]. split; [apply C|apply C|by apply (step_nodes a c s da0 da k)|by exists dc| | |done].
  - intros x d Hx Hd. destruct (decide (x = c)) as [Ex|Hxc].
    + rewrite Ex in Hd |- *. assert (d = dc) as -> by congruence. destruct (same_shape_lookup _ _ _ _ (cf_shape _ (cn_ctx _ _ _ _ _ _ C)) Hdc0) as (d1 & Hd1 & _ & _ & Hh1 & _).
      assert (d1 = dc) as -> by congruence. nia.
    + assert (tanc M0 x a) as Hxa by (apply tanc_inv in Hx as [E|(q & dq & Hq & Hcq & Hxq)]; [done|]; by rewrite (child_parent T _ _ _ _ _ Ha0 Hc Hq Hcq)).
      rewrite (cn_out _ _ _ _ _ _ C) in Hd; [by apply (li_wide _ _ I)|]. destruct (decide (x = a)); [by right|]. left. intros Hax. by apply (tanc_antisym T) in Hax.
  - intros x Hcn' Hx Hxc. rewrite (cn_keep _ _ _ _ _ _ C); [|by apply bool_decide_eq_false|done|done].
    apply (li_keep _ _ I); [done|eapply tanc_trans; [by eapply tanc_child|done]|]. intros E. rewrite E in Hx. by apply (child_not_above T a da0 c).
Qed.

Lemma concentrate_loop_ok fuel : forall a s, loop_inv a s -> nsub T a < Z.of_nat fuel ->
  exists s', concentrate_loop sl next fuel a s = Ok s' /\ same_shape M0 (reach_map s') /\ alloc_ok (reach_map s') /\
    (forall x d, tanc M0 x next -> reach_map s' !! x = Some d ->
       CAPACITY <= end_of d + 1 - start_of d + 2 * sl * height d + (Z.of_nat (size M0) - nsub T x)).
Proof using T A Hsmall Hsl Hn Hcap.
  induction fuel as [|fuel IH]; intros a s I Hf; [unfold nsub in Hf; lia|]. cbn [concentrate_loop]. destruct (decide (a = next)) as [->|Hne].
  - exists s. split_and!; [done|apply I| |apply I]. intros x d. apply (li_nodes _ _ I). by right.
  - destruct (loop_child a s I Hne) as (c & da0 & -> & Ha0 & Hc & Hcn). cbn [mbind res_bind].
    destruct (loop_step a s c da0 I Hne Ha0 Hc Hcn) as (k & -> & I'). cbn [mbind res_bind]. apply IH; [done|].
    pose proof (nsub_child_lt T _ _ _ Ha0 Hc). lia.
Qed.
End loop.
End concentrate.

(** ** The invariant of the index

    Along the chain from the root of the tree to the reindex root every block
    keeps the whole capacity, less the slack left at every height and the blocks
    outside its subtree. *)
Definition wide s (sl : Z) (root : Hash) : Prop := forall x d (X : gset Hash), tanc (reach_map s) x root -> reach_map s !! x = Some d ->
  (forall y, y ∈ X <-> tanc (reach_map s) x y) ->
  CAPACITY <= end_of d + 1 - start_of d + 2 * sl * height d + (Z.of_nat (size (reach_map s)) - Z.of_nat (size X)).
Record index_ok r s (D : Hash -> Hash -> Prop) (sl : Z) : Prop := {
  ix_reach : reach_ok r s D;
  ix_root : exists root droot, reindex_root s = Some root /\ reach_map s !! root = Some droot /\ wide s sl root;
}.

Lemma same_shape_ordered m m' l : same_shape m m' -> ordered (m:=m) l -> ordered (m:=m') l.
Proof.
  intros Hs [Hdom Hord]. split.
  - intros x Hx. destruct (Hdom x Hx) as [d Hd]. destruct (same_shape_lookup _ _ _ _ Hs Hd) as (d' & ? & _). eauto.
  - intros i j x y Hij Hx Hy. destruct (Hord i j x y Hij Hx Hy) as (q & dq & k & l' & c & c' & Hq & Hkl & Hc & Hc' & H1 & H2).
    destruct (same_shape_lookup _ _ _ _ Hs Hq) as (dq' & Hdq' & Hcs & _).
    exists q, dq', k, l', c, c'. rewrite Hcs. do 4 (split; [done|]). split; by apply (same_shape_tanc m).
Qed.
Lemma same_shape_size m m' : same_shape m m' -> dom m' = dom m /\ size m' = size m.
Proof.
  intros Hs. assert (dom m' = dom m) as Hd; [|by rewrite <- !size_dom, Hd]. apply set_eq. intros x. rewrite !elem_of_dom.
  specialize (Hs x). destruct (m !! x), (m' !! x); try done; split; by intros [? ?].
Qed.
(** Only intervals moved: the store still represents the DAG. *)
Lemma same_shape_reach r s s' D root : same_shape (reach_map s) (reach_map s') -> alloc_ok (reach_map s') -> reindex_root s' = Some root ->
  reach_ok r s D -> reach_ok r s' D.
Proof.
  intros Hs A Hroot R. assert (forall x d, reach_map s' !! x = Some d -> exists d0, reach_map s !! x = Some d0 /\ future_covering_set d = future_covering_set d0) as Hold.
  { intros x d Hx. destruct (same_shape_lookup _ _ _ _ (same_shape_sym _ _ Hs) Hx) as (d0 & H0 & _ & _ & _ & Hf). eauto. }
  assert (forall x y, tanc (reach_map s') x y <-> tanc (reach_map s) x y) as Ht by (intros; split; apply same_shape_tanc; [by apply same_shape_sym|done]).
  split; [eapply same_shape_tree; [exact Hs|apply R]|done|eauto|..].
  - intros x d Hx. destruct (Hold x d Hx) as (d0 & Hd0 & ->). apply (same_shape_ordered (reach_map s)); [done|]. by apply (ro_fcs _ _ _ R x).
  - intros x d y dy Hx Hy. destruct (Hold x d Hx) as (d0 & Hd0 & ->). destruct (Hold y dy Hy) as (dy0 & Hdy0 & _).
    rewrite (ro_dag _ _ _ R x d0 y dy0 Hd0 Hdy0), Ht. setoid_rewrite Ht. done.
Qed.

Lemma wide_nsub {r} s (T : tree_ok r (reach_map s)) sl root x d : wide s sl root -> tanc (reach_map s) x root -> reach_map s !! x = Some d ->
  CAPACITY <= end_of d + 1 - start_of d + 2 * sl * height d + (Z.of_nat (size (reach_map s)) - nsub T x).
Proof. intros W Hx Hd. apply (W x d (subtree T x) Hx Hd). intros y. apply elem_subtree. Qed.

(** A wide reindex root has room for new blocks in its subtree. *)
Lemma wide_space r s D sl root droot p : reach_ok r s D -> reindex_root s = Some root -> reach_map s !! root = Some droot -> wide s sl root ->
  Z.of_nat (size (reach_map s)) + 2 * sl * height droot < CAPACITY -> tanc (reach_map s) root p -> has_space s p.
Proof.
  intros R Hroot Hr W Hcap Hp. pose proof (ro_tree _ _ _ R) as T. right. exists root. split; [done|]. split; [done|].
  exists droot, (subtree T root). split; [done|]. split; [intros y; apply elem_subtree|].
  pose proof (wide_nsub s T sl root root droot W ltac:(by eapply tanc_refl) Hr) as H. unfold nsub in H. lia.
Qed.

(** Adding a block keeps the chain to the reindex root wide. *)
Lemma added_wide r s D n p dp s' sl root droot : reach_ok r s D -> reach_map s !! n = None -> reach_map s !! root = Some droot ->
  dom (reach_map s') = {[n]} ∪ dom (reach_map s) -> block_added s n p dp s' -> reindex_root s = Some root -> wide s sl root -> wide s' sl root.
Proof.
  intros R Hn Hr Hdom B Hroot W x d X Hx Hd HX. pose proof (ro_tree _ _ _ R) as T. apply (ba_tanc _ _ _ _ _ B) in Hx as [[Hrn Hx]|[-> _]]; [|congruence].
  destruct (tanc_dom T _ _ Hx) as [[d0 Hd0] _]. destruct (ba_above _ _ _ _ _ B root Hroot x d0 Hx Hd0) as (d' & Hd' & Hi & Hh).
  assert (d' = d) as -> by congruence. pose proof (wide_nsub s T sl root x d0 W Hx Hd0) as H. unfold start_of, end_of in *. rewrite Hi, Hh.
  assert (Z.of_nat (size (reach_map s')) = Z.of_nat (size (reach_map s)) + 1) as ->.
  { rewrite <- !size_dom, Hdom, size_union, size_singleton; [lia|]. intros y ->%elem_of_singleton Hy%elem_of_dom. destruct Hy. congruence. }
  assert (X ⊆ {[n]} ∪ subtree T x) as HX'.
  { intros y Hy%HX. rewrite elem_of_union, elem_of_singleton, elem_subtree. apply (ba_tanc _ _ _ _ _ B) in Hy as [[_ Hy]|[-> _]]; auto. }
  apply subseteq_size in HX'. pose proof (size_union_alt {[n]} (subtree T x)) as Hu. pose proof (subseteq_size (subtree T x ∖ {[n]}) (subtree T x) ltac:(set_solver)) as Hs.
  rewrite size_singleton in Hu. unfold nsub in H. lia.
Qed.

(** Advancing the reindex root towards [hint]. *)
Lemma advance_ok r s D sl depth hint dh (I : index_ok r s D sl) (Hh : reach_map s !! hint = Some dh)
  (Hne : reindex_root s <> Some hint) (Hdepth : 0 < depth) (Hsl : 0 <= sl)
  (Hcap : Z.of_nat (size (reach_map s)) + 2 * sl * (height dh + 1) <= CAPACITY) :
  exists s', try_advancing_reindex_root s hint depth sl = Ok s' /\ index_ok r s' D sl /\ same_shape (reach_map s) (reach_map s') /\
    exists root, reindex_root s' = Some root /\ (reindex_root s = Some root \/ tanc (reach_map s') root hint /\ root <> hint).
Proof.
  destruct I as [R (root & droot & Hroot & Hr & W)]. pose proof (ro_tree _ _ _ R) as T. pose proof (ro_alloc _ _ _ R) as A.
  assert (hint <> root) as Hhr by congruence. unfold try_advancing_reindex_root, get_reindex_root. rewrite Hroot. cbn [ok_or mbind res_bind].
  destruct (find_next_reindex_root_ok s T A root droot hint dh depth sl Hr Hh Hhr Hdepth Hsl) as (a & n & -> & Han & Hn & [dn Hdn] & Hpath). cbn [mbind res_bind].
  destruct (decide (root = n)) as [->|Hrn].
  { exists s. split_and!; [done|split; eauto 7|apply same_shape_refl|eauto]. }
  destruct Hn as [->|[Hnh Hne']]; [done|]. pose proof (to_height _ _ T _ _ Hdn) as Hh0.
  assert (height dn <= height dh) as Hhn by (destruct (tanc_height T _ _ _ _ Hnh Hdn Hh) as [->|]; [done|lia]).
  assert (Z.of_nat (size (reach_map s)) < 2 ^ 64) as Hsmall by (unfold CAPACITY in Hcap; nia).
  destruct (concentrate_loop_ok s T Hsmall sl Hsl A n dn Hdn ltac:(nia) (fuel_of s) a s) as (s' & -> & Hsh & A' & W').
  { split; [apply same_shape_refl|done|by intros x d _; apply A| |by intros x d Hx; apply wide_nsub with root; [|eapply tanc_trans]|done|done].
    destruct (tanc_dom T _ _ Han) as [[da Hda] _]. exists da. split; [done|]. destruct (A _ _ Hda) as (? & ? & _). lia. }
  { unfold fuel_of. pose proof (nsub_le T a). lia. }
  cbn [mbind res_bind]. eexists. split; [done|]. destruct (same_shape_size _ _ Hsh) as [_ Hsz].
  assert (reach_ok r (set_reindex_root s' n) D) as R' by (by apply (same_shape_reach r s _ D n)).
  destruct (same_shape_lookup _ _ _ _ Hsh Hdn) as (dn' & Hdn' & _). split_and!; [|done|].
  - split; [done|]. exists n, dn'. split_and!; [done|done|]. intros x d X Hx Hd HX. cbn [reach_map set_reindex_root] in *.
    assert (tanc (reach_map s) x n) as Hx' by (by eapply same_shape_tanc; [apply same_shape_sym|]).
    rewrite Hsz. specialize (W' x d Hx' Hd). rewrite (nsub_set T x X) in W'; [lia|]. intros y. rewrite HX.
    split; apply same_shape_tanc; [by apply same_shape_sym|done].
  - exists n. split; [done|]. right. split; [|done]. by eapply same_shape_tanc.
Qed.

(** Adding a block keeps the invariant. *)
Lemma index_add_ok r s D sl n p dp ms (I : index_ok r s D sl) (Hp : reach_map s !! p = Some dp) (Hn : reach_map s !! n = None) (HnN : n <> NONE)
  (Hsl : 0 <= sl) (Hcap : Z.of_nat (size (reach_map s)) + 2 * sl * (height dp + 1) < CAPACITY) (Hheight : height dp + 1 < 2 ^ 64)
  (Hnd : NoDup ms) (Hms : forall x, x ∈ ms -> (exists d, reach_map s !! x = Some d) /\ ~ D x p)
  (Hspace : (exists i, interval_remaining_after s p = Ok i /\ 0 < iv_len i) \/
            (exists root, reindex_root s = Some root /\ tanc (reach_map s) root p)) :
  exists s', add_block s n p ms = Ok s' /\ index_ok r s' (dag_add D n p ms) sl /\
    dom (reach_map s') = {[n]} ∪ dom (reach_map s) /\ block_added s n p dp s'.
Proof.
  destruct I as [R (root & droot & Hroot & Hr & W)]. pose proof (ro_tree _ _ _ R) as T.
  pose proof (to_height _ _ T _ _ Hp) as Hh0. assert (has_space s p) as Hs.
  { destruct Hspace as [H|(root' & Hroot' & Ht)]; [by left|]. assert (root' = root) as -> by congruence.
    apply (wide_space r s D sl root droot); [done..| |done]. destruct (tanc_height T _ _ _ _ Ht Hr Hp) as [->|]; simplify_eq; nia. }
  destruct (add_block_full r s D n p dp ms None R Hp Hn HnN) as (s' & H1 & H2 & H3 & H4); [unfold CAPACITY in Hcap; nia|done..|].
  exists s'. split_and!; [done| |done|done]. split; [done|]. destruct (ba_heights _ _ _ _ _ H4 root droot Hr) as (dr' & Hdr' & _).
  exists root, dr'. split_and!; [by rewrite (ba_root _ _ _ _ _ H4)|done|]. by apply (added_wide r s D n p dp s' sl root droot).
Qed.

(** C3. The reachability index follows the selected tip: while the capacity of
    64-bit intervals lasts (one unit for every block and twice the slack for
    every height), adding a block whose selected parent has interval space of
    its own or descends from the reindex root succeeds, and so does the hint
    that makes the new block the selected tip.  The search for the new reindex
    root and the concentration of the intervals on the way terminate; the index
    represents the DAG with the new block, keeps its invariant, and its reindex
    root is the old one or an ancestor of the new tip. *)
Theorem tip_extends_index r s D n p dp ms (I : index_ok r s D DEFAULT_REINDEX_SLACK)
  (Hp : reach_map s !! p = Some dp) (Hn : reach_map s !! n = None) (HnN : n <> NONE)
  (Hcap : Z.of_nat (size (reach_map s)) + 2 ^ 15 * (height dp + 2) < CAPACITY)
  (Hnd : NoDup ms) (Hms : forall x, x ∈ ms -> (exists d, reach_map s !! x = Some d) /\ ~ D x p)
  (Hspace : (exists i, interval_remaining_after s p = Ok i /\ 0 < iv_len i) \/
            (exists root, reindex_root s = Some root /\ tanc (reach_map s) root p)) :
  exists s1 s2, add_block s n p ms = Ok s1 /\ hint_virtual_selected_parent s1 n = Ok s2 /\
    index_ok r s1 (dag_add D n p ms) DEFAULT_REINDEX_SLACK /\ index_ok r s2 (dag_add D n p ms) DEFAULT_REINDEX_SLACK /\
    dom (reach_map s2) = {[n]} ∪ dom (reach_map s) /\
    exists root, reindex_root s2 = Some root /\ (reindex_root s = Some root \/ tanc (reach_map s2) root n /\ root <> n).
Proof.
  pose proof (to_height _ _ (ro_tree _ _ _ (ix_reach _ _ _ _ I)) _ _ Hp) as Hh0. change DEFAULT_REINDEX_SLACK with (2 ^ 14) in *.
  destruct (index_add_ok r s D (2 ^ 14) n p dp ms I Hp Hn HnN) as (s1 & H1 & I1 & Hdom & B); [done|lia|unfold CAPACITY in Hcap; lia|done|done|done|].
  destruct (ba_new _ _ _ _ _ B) as (dn & Hdn & Hhn).
  assert (Z.of_nat (size (reach_map s1)) = Z.of_nat (size (reach_map s)) + 1) as Hsz.
  { rewrite <- !size_dom, Hdom, size_union, size_singleton; [lia|]. intros y ->%elem_of_singleton Hy%elem_of_dom. destruct Hy. congruence. }
  destruct (advance_ok r s1 _ (2 ^ 14) DEFAULT_REINDEX_DEPTH n dn I1 Hdn) as (s2 & H2 & I2 & Hsh & Hroot2); [|done|done|lia|].
  { rewrite (ba_root _ _ _ _ _ B). destruct (ix_root _ _ _ _ I) as (root & droot & -> & Hr & _). congruence. }
  destruct (same_shape_size _ _ Hsh) as [Hd2 _].
  exists s1, s2. split_and!; [done|exact H2|done|done|by rewrite Hd2|]. by rewrite <- (ba_root _ _ _ _ _ B).
Qed.

Lemma init_index_ok : exists s, init new_store = Ok s /\ index_ok ORIGIN s (fun x y => x = ORIGIN /\ y = ORIGIN) DEFAULT_REINDEX_SLACK /\
  reach_map s = {[ORIGIN := new_data NONE maximal 0]}.
Proof.
  destruct init_reach_ok as (s & Hs & R & Hm). exists s. split_and!; [done| |done]. split; [done|].
  exists ORIGIN, (new_data NONE maximal 0). assert (reach_map s !! ORIGIN = Some (new_data NONE maximal 0)) as Ho by (rewrite Hm; apply lookup_insert_eq).
  split_and!; [by injection Hs as <-|done|]. intros x d X Hx Hd HX. pose proof (ro_tree _ _ _ R) as T.
  rewrite Hm in Hd |- *. apply lookup_singleton_Some in Hd as [<- <-]. assert (size X <= 1)%nat.
  { etrans; [apply (subseteq_size _ ({[ORIGIN]} : gset Hash))|by rewrite size_singleton]. intros y Hy%HX. destruct (tanc_dom T _ _ Hy) as [_ [dy Hdy]].
    rewrite Hm in Hdy. apply lookup_singleton_Some in Hdy as [<- _]. by apply elem_of_singleton. }
  unfold start_of, end_of. rewrite map_size_singleton. cbn. unfold CAPACITY. lia.
Qed.
Lemma tip_extends_index_witness : exists s s1 s2, init new_store = Ok s /\ add_block s 1 ORIGIN [] = Ok s1 /\
  hint_virtual_selected_parent s1 1 = Ok s2 /\ dom (reach_map s2) = {[1]} ∪ dom (reach_map s).
Proof.
  destruct init_index_ok as (s & Hs & I & Hm). exists s.
  destruct (tip_extends_index ORIGIN s (fun x y => x = ORIGIN /\ y = ORIGIN) 1 ORIGIN (new_data NONE maximal 0) [] I) as (s1 & s2 & H1 & H2 & _ & _ & H3 & _).
  - rewrite Hm. apply lookup_insert_eq.
  - rewrite Hm. reflexivity.
  - done.
  - rewrite Hm. vm_compute. reflexivity.
  - constructor.
  - intros x Hx. by apply elem_of_nil in Hx.
  - left. exists (mkInterval 1 (2 ^ 64 - 3)). split; [|done].
    unfold interval_remaining_after, interval_children_capacity, get_interval, get_children, get_data. rewrite Hm. reflexivity.
  - exists s1, s2. split; [exact Hs|]. split; [exact H1|]. split; [exact H2|exact H3].
Defined.
