(* ===== verification/ReachService.v ===== *)
(** * The reachability service

    [consensus/src/model/services/reachability.rs]: the queries the protocols
    make, answered by the index of [Reachability].  The index implements the
    interfaces of the protocols: [Dag.ReachabilityService] with its laws, and
    [Chain.ChainService] with its laws.

    The service [unwrap]s the answer of the index, which fails on blocks without
    reachability data; the interfaces are total, and relate such a block to
    itself only.  The root of the tree has no parent block. *)
From S2P Require Import Prelude Interval Reachability ReachTree Reindex ReachOps Dag Chain.

Section service.
Context (root : Hash) (store : MemoryReachabilityStore).

Definition answer (q : result bool) (this queried : Hash) : bool :=
  match q with Ok b => b | _ => bool_decide (this = queried) end.
Definition index_dag : ReachabilityService := fun this queried =>
  answer (Reachability.is_dag_ancestor_of store this queried) this queried.
Definition index_chain : ChainService := {|
  get_chain_parent this :=
    match get_parent store this with Ok p => if decide (this = root) then None else Some p | _ => None end;
  is_chain_ancestor_of this queried := answer (Reachability.is_chain_ancestor_of store this queried) this queried;
  get_next_chain_ancestor descendant ancestor :=
    match Reachability.get_next_chain_ancestor store descendant ancestor with Ok c => Some c | _ => None end;
|}.

Context (D : Hash -> Hash -> Prop) (R : reach_ok root store D).
Abbreviation M := (reach_map store).
Abbreviation known h := (is_Some (M !! h)).

Lemma get_interval_inv h i : get_interval store h = Ok i -> known h.
Proof. unfold get_interval, get_data. destruct (M !! h); [by eexists|done]. Qed.
Lemma chain_query a b v : Reachability.is_chain_ancestor_of store a b = Ok v -> known a /\ known b.
Proof.
  intros H. unfold Reachability.is_chain_ancestor_of in H. apply bind_ok in H as (i & Ha & H). apply bind_ok in H as (j & Hb & _).
  split; by eapply get_interval_inv.
Qed.
Lemma answer_chain a b : answer (Reachability.is_chain_ancestor_of store a b) a b = true <-> tanc M a b \/ a = b.
Proof using R.
  destruct (Reachability.is_chain_ancestor_of store a b) as [v| | |] eqn:E.
  - apply chain_query in E as K. destruct K as [[da Ha] [db Hb]]. destruct (queries_ok root store D a b da db R Ha Hb) as ((v' & E' & Hv) & _).
    rewrite E in E'. injection E' as <-. cbn [answer]. rewrite Hv. split; [by left|]. intros [H| ->]; [done|by eapply tanc_refl].
  - cbn [answer]. rewrite bool_decide_eq_true. split; [by right|]. intros [H|H]; [|done]. exfalso.
    destruct (tanc_dom (ro_tree _ _ _ R) _ _ H) as [[da Ha] [db Hb]]. by rewrite (is_chain_ancestor_eval store a b da db Ha Hb) in E.
  - exfalso. unfold Reachability.is_chain_ancestor_of, get_interval, get_data in E. destruct (M !! a), (M !! b); done.
  - exfalso. unfold Reachability.is_chain_ancestor_of, get_interval, get_data in E. destruct (M !! a), (M !! b); done.
Qed.

Local Existing Instance index_chain.
Lemma parent_spec b p : get_chain_parent b = Some p <-> exists dp, M !! p = Some dp /\ b ∈ children dp.
Proof using R.
  pose proof (ro_tree _ _ _ R) as T. cbn. unfold get_parent, get_data. destruct (M !! b) as [d|] eqn:Hb; cbn [mbind res_bind ok_or].
  - case_decide as Hr.
    + subst b. split; [done|]. intros (dp & Hp & Hc). destruct (to_child _ _ T _ _ _ Hp Hc) as (dc & Hdc & Hpar & _).
      destruct (to_root _ _ T) as (dr & Hdr & Hnone). rewrite Hdr in Hdc. injection Hdc as <-. rewrite Hnone in Hpar. subst p.
      by rewrite (to_none _ _ T) in Hp.
    + destruct (to_parent _ _ T b d Hb Hr) as (dp & Hp & Hc). split; [intros [= <-]; eauto|]. intros (dq & Hq & Hcq).
      destruct (to_child _ _ T _ _ _ Hq Hcq) as (dc & Hdc & <- & _). congruence.
  - split; [done|]. intros (dp & Hp & Hc). destruct (to_child _ _ T _ _ _ Hp Hc) as (dc & Hdc & _). congruence.
Qed.
Lemma on_chain_tanc a b : on_chain a b <-> tanc M a b \/ a = b.
Proof using R.
  split.
  - induction 1 as [|b p Hp _ IH]; [by right|]. left. apply parent_spec in Hp as (dp & Hp & Hc). destruct IH as [IH| ->].
    + by eapply tanc_step.
    + by eapply tanc_child.
  - intros [H| ->]; [|constructor]. induction H as [|p dp c Hp IH Hpd Hc]; [constructor|]. eapply on_chain_step; [|exact IH]. apply parent_spec. eauto.
Qed.
Lemma index_chain_laws : ChainLaws.
Proof using R.
  pose proof (ro_tree _ _ _ R) as T.
  refine {| chain_height b := match M !! b with Some d => S (Z.to_nat (height d)) | None => 0%nat end |}.
  - intros b p (dp & Hp & Hc)%parent_spec. destruct (to_child _ _ T _ _ _ Hp Hc) as (dc & -> & _ & Hh). rewrite Hp.
    pose proof (to_height _ _ T p dp Hp). lia.
  - intros a b. rewrite on_chain_tanc. apply answer_chain.
  - intros a d Had Hne. apply on_chain_tanc in Had as [Had| ->]; [|done].
    destruct (tanc_dom T _ _ Had) as [[da Ha] [dd Hd]]. destruct (queries_ok root store D a d da dd R Ha Hd) as (_ & _ & Hnext & _).
    destruct (Hnext Had Hne) as (c & Ec & Hc & Hcd). exists c. cbn [Chain.get_next_chain_ancestor index_chain]. rewrite Ec.
    split; [done|]. split; [apply parent_spec; eauto|]. apply on_chain_tanc. by left.
Defined.

(** ** Reachability in the DAG *)
Context (Dtrans : forall a b c, known a -> known b -> known c -> D a b -> D b c -> D a c).
Context (Danti : forall a b, known a -> known b -> D a b -> D b a -> a = b).
Lemma dag_refl a : known a -> D a a.
Proof using R. intros [d Ha]. apply (ro_dag _ _ _ R a d a d Ha Ha). left. by eapply tanc_refl. Qed.
Lemma answer_dag a b : index_dag a b = true <-> known a /\ known b /\ D a b \/ a = b.
Proof using R.
  unfold index_dag. destruct (M !! a) as [da|] eqn:Ha, (M !! b) as [db|] eqn:Hb.
  1:{ destruct (is_dag_ancestor_ok a b da db R Ha Hb) as (v & -> & Hv). cbn [answer]. rewrite Hv. split.
      - intros H. left. split_and!; [by eexists..|done].
      - intros [(_ & _ & H)| <-]; [done|]. apply dag_refl. by eexists. }
  all: unfold Reachability.is_dag_ancestor_of, Reachability.is_chain_ancestor_of, get_interval, get_data; rewrite Ha, ?Hb;
    cbn [ok_or mbind res_bind answer]; rewrite bool_decide_eq_true; (split; [by right|]); intros [([? ?] & [? ?] & _)|H]; congruence.
Qed.
Lemma index_dag_laws : @ReachabilityLaws index_dag.
Proof using R Dtrans Danti.
  split.
  - intros a. apply answer_dag. by right.
  - intros a b c. change (index_dag a b = true -> index_dag b c = true -> index_dag a c = true). rewrite !answer_dag.
    intros [(Ka & Kb & H)| ->] [(Kb' & Kc & H')| ->]; [left; split_and!; [done..|by apply (Dtrans a b c)]|left; by split_and!|left; by split_and!|by right].
  - intros a b. change (index_dag a b = true -> index_dag b a = true -> a = b). rewrite !answer_dag.
    intros [(Ka & Kb & H)|E] [(_ & _ & H')|E']; try done. by apply Danti.
Qed.

(** C27. The reachability index implements the interfaces of the protocols: when
    the store represents the DAG [D], its answers satisfy the laws of the chain
    service (ancestors, parents and next chain blocks of one tree, with heights
    as the termination measure) and of the DAG service (a partial order), they
    decide [D] on the stored blocks, and a chain ancestor is a DAG ancestor. *)
Theorem index_implements_services :
  inhabited ChainLaws /\ @ReachabilityLaws index_dag /\
  (forall a b, known a -> known b -> index_dag a b = true <-> D a b) /\ (forall a b, on_chain a b -> index_dag a b = true).
Proof using R Dtrans Danti.
  split; [exact (inhabits index_chain_laws)|]. split; [exact index_dag_laws|]. split.
  - intros a b Ka Kb. rewrite answer_dag. split; [|intros H; left; by split_and!]. intros [(_ & _ & H)| <-]; [done|by apply dag_refl].
  - intros a b H. apply answer_dag. apply on_chain_tanc in H as [H|H]; [left|by right].
    destruct (tanc_dom (ro_tree _ _ _ R) _ _ H) as [[da Ha] [db Hb]]. split_and!; [by eexists..|]. apply (ro_dag _ _ _ R a da b db Ha Hb). by left.
Qed.
End service.

(** A store with one block above the origin. *)
Lemma index_implements_services_witness : exists s s', init new_store = Ok s /\ add_block_with_params s 1 Reachability.ORIGIN [] None = Ok s' /\
  inhabited (@ChainLaws (index_chain Reachability.ORIGIN s')) /\ @ReachabilityLaws (index_dag s').
Proof.
  destruct init_reach_ok as (s & Hs & R & Hm). exists s.
  destruct (add_block_ok Reachability.ORIGIN s (fun x y => x = Reachability.ORIGIN /\ y = Reachability.ORIGIN) 1 Reachability.ORIGIN
    (new_data NONE maximal 0) [] None) as (s' & H1 & H2 & H3); [exact R|rewrite Hm; apply lookup_insert_eq|rewrite Hm; reflexivity|done|
    rewrite Hm; vm_compute; reflexivity|vm_compute; reflexivity|constructor|by intros x ?%elem_of_nil|by apply origin_space|].
  exists s'. split; [exact Hs|]. split; [exact H1|].
  destruct (index_implements_services Reachability.ORIGIN s' _ H2) as (L1 & L2 & _).
  - intros a b c _ _ _. unfold dag_add. naive_solver.
  - intros a b _ _. unfold dag_add. naive_solver.
  - exact (conj L1 L2).
Defined.
