(* ===== verification/HeaderProc.v ===== *)
(** * The header processor

    [consensus/src/pipeline/header_processor]: the checks of a header
    ([pre_ghostdag_validation.rs], [pre_pow_validation.rs],
    [post_pow_validation.rs]) and its commit to the stores ([processor.rs]).

    The stores are the maps they hold.  The managers are those of [Ghostdag],
    [Window], [BlockDepth] and [Parents], built over the current stores; the
    queries of the checks go to the reachability index of [Reachability], and
    panic on blocks without reachability data.  The writes of a commit are one
    database batch: they are all made or none.  RandomX, keyed by the epoch of
    the header's DAA score, and the clock are parameters. *)
From S2P Require Import Prelude Search Cache Encode Tx Header Uint Target Interval Reachability Dag Chain Parents Ghostdag Relations Difficulty BlockDepth Coinbase BlockBody Window ReachService.

(** [randomx_hash seed input]; the hash has 32 bytes. *)
Class RandomX := randomx_hash : bytes -> bytes -> bytes.
Definition EPOCH_LENGTH : u64 := 2048.
Definition BLOCK_VERSION : u16 := 1.

Record HeaderProcessor := mkHeaderProcessor {
  hp_genesis : Header;
  timestamp_deviation_tolerance : u64;
  max_block_parents : u8;
  mergeset_size_limit : u64;
  skip_proof_of_work : bool;
  max_block_level : u8;
  min_chain_work : BlueWorkType;
  hp_k : KType;
  hp_merge_depth : u64;
  hp_finality_depth : u64;
  hp_max_difficulty_target : limbs;
  hp_target_time_per_block : u64;
  hp_difficulty_window_size : usize;
  hp_min_difficulty_window_size : usize;
  hp_difficulty_sample_rate : u64;
  hp_past_median_time_window_size : usize;
  hp_past_median_time_sample_rate : u64;
}.
Record HeaderStores := mkHeaderStores {
  relations_store : Relations;
  reachability_relations_store : Relations;
  reachability_store : MemoryReachabilityStore;
  ghostdag_store : GhostdagStore;
  statuses_store : gmap Hash BlockStatus;
  pruning_point_store : option Hash;
  window_caches : WindowCaches;
  daa_excluded_store : gmap Hash (gset Hash);
  headers_store : gmap Hash HeaderWithBlockLevel;
  headers_selected_tip_store : option SortableBlock;
  max_chain_work_seen_store : BlueWorkType;
  depth_store : gmap Hash (Hash * Hash);
}.
Record HeaderProcessingContext := mkContext {
  ctx_hash : Hash;
  ctx_header : Header;
  ctx_pruning_point : Hash;
  block_level : u8;
  known_direct_parents : list Hash;
  ctx_ghostdag_data : option GhostdagData;
  block_window_for_difficulty : option BlockWindowHeap;
  block_window_for_past_median_time : option BlockWindowHeap;
  mergeset_non_daa : option (gset Hash);
  merge_depth_root : option Hash;
  finality_point : option Hash;
}.
Definition context_new (hash : Hash) (header : Header) (block_level : u8) (pruning_point : Hash) (known_direct_parents : list Hash) : HeaderProcessingContext :=
  mkContext hash header pruning_point block_level known_direct_parents None None None None None None.
Definition ghostdag_data {E} (ctx : HeaderProcessingContext) : res E GhostdagData := unwrap (ctx_ghostdag_data ctx).

(** [impl From<&Header> for CompactHeaderData] *)
Definition compact_header (h : HeaderWithBlockLevel) : CompactHeaderData :=
  mkCompactHeader (Header.h_daa_score (hl_header h)) (Header.h_timestamp (hl_header h)) (Header.h_bits (hl_header h)) (Header.h_blue_score (hl_header h)).

Section processor.
Context `{HB : Blake2b} `{RX : RandomX} `{EC : !EvictChoice Hash (list SortableBlock)}.
Context `{!SetIter Hash, !HashIter Hash KType, !HashIter Hash (list Hash)}.
Context (self : HeaderProcessor).
Abbreviation R A := (res RuleError A).
Abbreviation genesis_hash := (h_hash (hp_genesis self)).

(** ** The services over the stores *)
Definition difficulty_manager (st : HeaderStores) : SampledDifficultyManager :=
  mkDifficultyManager (compact_header <$> headers_store st) genesis_hash (Header.h_bits (hp_genesis self)) (hp_max_difficulty_target self)
    (hp_difficulty_window_size self) (Z.min (hp_min_difficulty_window_size self) (hp_difficulty_window_size self))
    (hp_difficulty_sample_rate self) (hp_target_time_per_block self).
Definition window_manager (st : HeaderStores) : SampledWindowManager :=
  mkWindowManager genesis_hash (ghostdag_store st) (compact_header <$> headers_store st) (hp_difficulty_window_size self)
    (hp_difficulty_sample_rate self) (hp_past_median_time_window_size self) (hp_past_median_time_sample_rate self) (difficulty_manager st).
Definition depth_manager (st : HeaderStores) : BlockDepthManager :=
  mkDepthManager (hp_merge_depth self) (hp_finality_depth self) genesis_hash (fst <$> depth_store st) (snd <$> depth_store st) (ghostdag_store st).
Definition ghostdag_manager (st : HeaderStores) : GhostdagManager :=
  manager_new genesis_hash (hp_k self) (ghostdag_store st) (rel_parents (relations_store st))
    ((fun h => Header.h_bits (hl_header h)) <$> headers_store st).
Definition parents_manager (st : HeaderStores) : ParentsManager :=
  mkParentsManager (max_block_level self) genesis_hash (headers_store st) (rel_children (relations_store st)).
(** The chain of a block is no longer than the number of stored blocks. *)
Definition window_fuel (st : HeaderStores) : nat := S (S (size (ghostdag_store st))).
Definition depth_fuel (st : HeaderStores) : nat := S (S (size (reach_map (reachability_store st)))).
Definition dag_ancestor (st : HeaderStores) (this queried : Hash) : R bool :=
  Reachability.unwrap_res (Reachability.is_dag_ancestor_of (reachability_store st) this queried).
Fixpoint dag_ancestor_of_any (st : HeaderStores) (this : Hash) (l : list Hash) : R bool :=
  match l with
  | [] => Ok false
  | h :: l => b ← dag_ancestor st this h; if b : bool then Ok true else dag_ancestor_of_any st this l
  end.

(** ** Validation in isolation *)
Definition check_header_version (header : Header) : R unit :=
  fail_if (negb (h_version header =? BLOCK_VERSION)) (WrongBlockVersion (h_version header)).
Definition check_block_timestamp_in_isolation (now : u64) (header : Header) : R unit :=
  tolerance ← chk 64 (timestamp_deviation_tolerance self * 1000);
  max_block_time ← u64_add now tolerance;
  fail_if (max_block_time <? Header.h_timestamp header) (TimeTooFarIntoTheFuture (Header.h_timestamp header) max_block_time).
Definition check_parents_limit (header : Header) : R unit :=
  parents ← direct_parents header;
  _ ← fail_if (bool_decide (parents = [])) NoParents;
  fail_if (max_block_parents self <? zlen parents) (TooManyParents (zlen parents) (max_block_parents self)).
Definition check_parents_not_origin (header : Header) : R unit :=
  parents ← direct_parents header;
  fail_if (existsb (fun p => bool_decide (p = ORIGIN)) parents) OriginParent.
Definition check_daa_score_pre_pow (st : HeaderStores) (header : Header) : R unit :=
  match headers_selected_tip_store st with
  | None => Ok tt
  | Some tip =>
      match headers_store st !! sb_hash tip with
      | None => Ok tt
      | Some tip_header =>
          let tip_daa := Header.h_daa_score (hl_header tip_header) in
          let min_daa := Z.max 0 (tip_daa - EPOCH_LENGTH * 22) in
          let max_daa := Z.min (2 ^ 64 - 1) (tip_daa + EPOCH_LENGTH * 2) in
          fail_if ((Header.h_daa_score header <? min_daa) || (max_daa <? Header.h_daa_score header))
            (DaaScoreOutOfPlausibleRange (Header.h_daa_score header) min_daa max_daa)
      end
  end.
(** [State::new] and [State::check_pow]. *)
Definition calculate_pow (header : Header) : R limbs :=
  pre_pow_hash ← hash_override_nonce_time header 0 0;
  let seed := write_u64 (Header.h_daa_score header / EPOCH_LENGTH) in
  let hash := randomx_hash seed (as_bytes pre_pow_hash ++ write_u64 (Header.h_timestamp header) ++ write_u64 (h_nonce header)) in
  _ ← rassert (zlen hash =? 32);
  Ok (from_le_bytes 4 hash).
Definition check_pow_and_calc_block_level (st : HeaderStores) (header : Header) : R u8 :=
  _ ← (if skip_proof_of_work self then Ok tt else check_daa_score_pre_pow st header);
  pow ← calculate_pow header;
  let '(passed, pow) := check_pow (from_compact_target_bits (Header.h_bits header)) pow in
  if passed || skip_proof_of_work self then Ok (calc_level_from_pow pow (max_block_level self)) else Err InvalidPoW.
Definition validate_header_in_isolation (st : HeaderStores) (now : u64) (header : Header) : R u8 :=
  _ ← check_header_version header;
  _ ← check_block_timestamp_in_isolation now header;
  _ ← check_parents_limit header;
  _ ← check_parents_not_origin header;
  check_pow_and_calc_block_level st header.

(** ** Relations of the parents *)
Fixpoint missing_parents (st : HeaderStores) (missing : list Hash) (parents : list Hash) : R (list Hash) :=
  match parents with
  | [] => Ok missing
  | parent :: parents =>
      match statuses_store st !! parent with
      | None => missing_parents st (missing ++ [parent]) parents
      | Some StatusInvalid => Err (InvalidParent parent)
      | Some _ => missing_parents st missing parents
      end
  end.
Definition check_parents_exist (st : HeaderStores) (header : Header) : R unit :=
  parents ← direct_parents header;
  missing ← missing_parents st [] parents;
  fail_if (negb (bool_decide (missing = []))) (MissingParents missing).
Definition check_parents_incest (st : HeaderStores) (header : Header) : R unit :=
  parents ← direct_parents header;
  res_foldl (fun _ a => res_foldl (fun _ b =>
    if decide (a = b) then Ok tt else
    related ← dag_ancestor st a b;
    fail_if related (InvalidParentsRelation a b)) tt parents) tt parents.
Definition validate_parent_relations (st : HeaderStores) (header : Header) : R unit :=
  _ ← check_parents_exist st header;
  check_parents_incest st header.

(** ** The processing context *)
Definition collect_known_direct_parents (st : HeaderStores) (header : Header) : R (list Hash) :=
  parents ← direct_parents header;
  let known := filter (fun p => is_Some (rel_parents (relations_store st) !! p)) parents in
  Ok (if decide (known = []) then [ORIGIN] else known).
Definition build_processing_context (st : HeaderStores) (header : Header) (level : u8) : R HeaderProcessingContext :=
  pruning_point ← unwrap (pruning_point_store st);
  parents ← collect_known_direct_parents st header;
  Ok (context_new (h_hash header) header level pruning_point parents).
Definition run_ghostdag (st : HeaderStores) (ctx : HeaderProcessingContext) : R HeaderProcessingContext :=
  d ← match ghostdag_store st !! ctx_hash ctx with
      | Some d => Ok d
      | None => @ghostdag (index_dag (reachability_store st)) _ _ (ghostdag_manager st) _ (known_direct_parents ctx)
      end;
  Ok (mkContext (ctx_hash ctx) (ctx_header ctx) (ctx_pruning_point ctx) (block_level ctx) (known_direct_parents ctx) (Some d)
       (block_window_for_difficulty ctx) (block_window_for_past_median_time ctx) (mergeset_non_daa ctx) (merge_depth_root ctx) (finality_point ctx)).

(** ** Checks before and after the proof of work is known to be valid *)
Definition check_pruning_violation (st : HeaderStores) (ctx : HeaderProcessingContext) : R unit :=
  b ← dag_ancestor_of_any st (ctx_pruning_point ctx) (known_direct_parents ctx);
  fail_if (negb b) (PruningViolation (ctx_pruning_point ctx)).
Definition check_difficulty_and_daa_score (st : HeaderStores) (ctx : HeaderProcessingContext) (header : Header) : R HeaderProcessingContext :=
  d ← ghostdag_data ctx;
  daa_window ← block_daa_window (window_manager st) (window_fuel st) (window_caches st) d;
  _ ← fail_if (negb (dw_daa_score daa_window =? Header.h_daa_score header)) (UnexpectedHeaderDaaScore (dw_daa_score daa_window) (Header.h_daa_score header));
  expected_bits ← window_difficulty_bits (window_manager st) d daa_window;
  _ ← fail_if (negb (Header.h_bits header =? expected_bits)) (UnexpectedDifficulty (h_hash header) (Header.h_bits header) expected_bits);
  Ok (mkContext (ctx_hash ctx) (ctx_header ctx) (ctx_pruning_point ctx) (block_level ctx) (known_direct_parents ctx) (ctx_ghostdag_data ctx)
       (Some (dw_window daa_window)) (block_window_for_past_median_time ctx) (Some (dw_mergeset_non_daa daa_window)) (merge_depth_root ctx) (finality_point ctx)).
Definition pre_pow_validation (st : HeaderStores) (ctx : HeaderProcessingContext) (header : Header) : R HeaderProcessingContext :=
  _ ← check_pruning_violation st ctx;
  check_difficulty_and_daa_score st ctx header.

Definition check_blue_score (ctx : HeaderProcessingContext) (header : Header) : R unit :=
  d ← ghostdag_data ctx;
  fail_if (negb (blue_score d =? Header.h_blue_score header)) (UnexpectedHeaderBlueScore (blue_score d) (Header.h_blue_score header)).
Definition check_blue_work (ctx : HeaderProcessingContext) (header : Header) : R unit :=
  d ← ghostdag_data ctx;
  fail_if (negb (blue_work d =? h_blue_work header)) (UnexpectedHeaderBlueWork (blue_work d) (h_blue_work header)).
Definition check_median_timestamp (st : HeaderStores) (ctx : HeaderProcessingContext) (header : Header) : R HeaderProcessingContext :=
  d ← ghostdag_data ctx;
  '(past_median_time, window) ← window_past_median_time (window_manager st) (window_fuel st) (window_caches st) d;
  _ ← fail_if (Header.h_timestamp header <=? past_median_time) (TimeTooOld (Header.h_timestamp header) past_median_time);
  Ok (mkContext (ctx_hash ctx) (ctx_header ctx) (ctx_pruning_point ctx) (block_level ctx) (known_direct_parents ctx) (ctx_ghostdag_data ctx)
       (block_window_for_difficulty ctx) (Some window) (mergeset_non_daa ctx) (merge_depth_root ctx) (finality_point ctx)).
Definition check_mergeset_size_limit (ctx : HeaderProcessingContext) : R unit :=
  d ← ghostdag_data ctx;
  fail_if (mergeset_size_limit self <? mergeset_size d) (MergeSetTooBig (mergeset_size d) (mergeset_size_limit self)).
(** The loop over the reds; the kosherizing blues are computed on first use. *)
Definition check_red (st : HeaderStores) (d : GhostdagData) (root : Hash) (red : Hash) : R unit :=
  above ← dag_ancestor st root red;
  if above : bool then Ok tt else
  kosher ← dag_ancestor_of_any st red (kosherizing_blues (CS := index_chain ORIGIN (reachability_store st)) d root);
  fail_if (negb kosher) ViolatingBoundedMergeDepth.
Definition check_bounded_merge_depth (st : HeaderStores) (ctx : HeaderProcessingContext) : R HeaderProcessingContext :=
  let CS := index_chain ORIGIN (reachability_store st) in
  d ← ghostdag_data ctx;
  root ← calc_merge_depth_root (CS := CS) (depth_manager st) (depth_fuel st) d (ctx_pruning_point ctx);
  fp ← calc_finality_point (CS := CS) (depth_manager st) (depth_fuel st) d (ctx_pruning_point ctx);
  _ ← res_foldl (fun _ red => check_red st d root red) tt (mergeset_reds d);
  Ok (mkContext (ctx_hash ctx) (ctx_header ctx) (ctx_pruning_point ctx) (block_level ctx) (known_direct_parents ctx) (ctx_ghostdag_data ctx)
       (block_window_for_difficulty ctx) (block_window_for_past_median_time ctx) (mergeset_non_daa ctx) (Some root) (Some fp)).
Definition same_level (expected got : list Hash) : bool :=
  (length got =? length expected)%nat &&
  (bool_decide (got = expected) || bool_decide ((list_to_set got : gset Hash) = list_to_set expected)).
Definition check_indirect_parents (st : HeaderStores) (ctx : HeaderProcessingContext) (header : Header) : R unit :=
  parents ← direct_parents header;
  expected ← @calc_block_parents _ (index_dag (reachability_store st)) _ _ (store_has (reachability_store st)) (parents_manager st) (ctx_pruning_point ctx) parents;
  expected_levels ← expanded_iter expected;
  levels ← expanded_iter (parents_by_level header);
  fail_if (negb (expanded_len (parents_by_level header) =? expanded_len expected)
    || negb (forallb (fun p => same_level p.1 p.2) (zip expected_levels levels))) (UnexpectedIndirectParents expected_levels levels).
Definition post_pow_validation (st : HeaderStores) (ctx : HeaderProcessingContext) (header : Header) : R HeaderProcessingContext :=
  _ ← check_blue_score ctx header;
  _ ← check_blue_work ctx header;
  ctx ← check_median_timestamp st ctx header;
  _ ← check_mergeset_size_limit ctx;
  ctx ← check_bounded_merge_depth st ctx;
  _ ← check_indirect_parents st ctx header;
  Ok ctx.

Definition set_status (st : HeaderStores) (h : Hash) (s : BlockStatus) : HeaderStores :=
  mkHeaderStores (relations_store st) (reachability_relations_store st) (reachability_store st) (ghostdag_store st) (<[h := s]> (statuses_store st))
    (pruning_point_store st) (window_caches st) (daa_excluded_store st) (headers_store st) (headers_selected_tip_store st)
    (max_chain_work_seen_store st) (depth_store st).
(** The floor the virtual processor raises with each virtual state. *)
Definition update_max_batch (st : HeaderStores) (candidate : BlueWorkType) : HeaderStores :=
  mkHeaderStores (relations_store st) (reachability_relations_store st) (reachability_store st) (ghostdag_store st) (statuses_store st)
    (pruning_point_store st) (window_caches st) (daa_excluded_store st) (headers_store st) (headers_selected_tip_store st)
    (if max_chain_work_seen_store st <? candidate then candidate else max_chain_work_seen_store st) (depth_store st).
(** A computation that only reads the stores. *)
Definition reading {A} (f : HeaderStores -> R A) : stm HeaderStores RuleError A := fun st => (f st, st).
(** A header that fails after its proof of work is marked invalid. *)
Definition post_pow_or_invalid (ctx : HeaderProcessingContext) (header : Header) : stm HeaderStores RuleError HeaderProcessingContext := fun st =>
  match post_pow_validation st ctx header with
  | Err e => (Err e, set_status st (ctx_hash ctx) StatusInvalid)
  | r => (r, st)
  end.
Definition validate_header (now : u64) (header : Header) : stm HeaderStores RuleError HeaderProcessingContext :=
  level ← reading (fun st => validate_header_in_isolation st now header);
  _ ← reading (fun st => validate_parent_relations st header);
  ctx ← reading (fun st => build_processing_context st header level);
  ctx ← reading (fun st => run_ghostdag st ctx);
  ctx ← reading (fun st => pre_pow_validation st ctx header);
  post_pow_or_invalid ctx header.
Definition validate_trusted_header (now : u64) (header : Header) : stm HeaderStores RuleError HeaderProcessingContext :=
  level ← reading (fun st => validate_header_in_isolation st now header);
  ctx ← reading (fun st => build_processing_context st header level);
  reading (fun st => run_ghostdag st ctx).

(** ** Commit

    [insert_batch] of a store refuses a hash that is already present. *)
Definition insert_new {V} (m : gmap Hash V) (h : Hash) (v : V) : R (gmap Hash V) :=
  match m !! h with Some _ => Panic | None => Ok (<[h := v]> m) end.
Definition insert_relations (r : Relations) (h : Hash) (parents : list Hash) : R Relations :=
  match insert_with_writer h parents r with (Ok _, r) => Ok r | (_, _) => Panic end.
Definition insert_window (c : DbCache Hash (list SortableBlock)) (h : Hash) (w : option BlockWindowHeap) : R (DbCache Hash (list SortableBlock)) :=
  match w with Some w => db_cache_insert c h w | None => Ok c end.
(** The reachability index and the headers selected tip after the new block. *)
Definition promote (st : HeaderStores) (index : MemoryReachabilityStore) (ctx : HeaderProcessingContext) (header : Header)
    : R (MemoryReachabilityStore * option SortableBlock) :=
  let block := mkSortable (ctx_hash ctx) (h_blue_work header) in
  prev_hst ← unwrap (headers_selected_tip_store st);
  match sortable_cmp block prev_hst with
  | Gt =>
      above ← Reachability.unwrap_res (Reachability.is_chain_ancestor_of index (ctx_pruning_point ctx) (ctx_hash ctx));
      if negb above then Ok (index, Some prev_hst)
      else if h_blue_work header <? min_chain_work self then Ok (index, Some prev_hst)
      else if h_blue_work header <? max_chain_work_seen_store st then Ok (index, Some prev_hst)
      else
        index ← Reachability.unwrap_res (hint_virtual_selected_parent index (ctx_hash ctx));
        Ok (index, Some block)
  | _ => Ok (index, Some prev_hst)
  end.
Definition commit_header (ctx : HeaderProcessingContext) (header : Header) (st : HeaderStores) : R HeaderStores :=
  d ← ghostdag_data ctx;
  gd ← insert_new (ghostdag_store st) (ctx_hash ctx) d;
  difficulty_cache ← insert_window (block_window_cache_for_difficulty (window_caches st)) (ctx_hash ctx) (block_window_for_difficulty ctx);
  median_cache ← insert_window (block_window_cache_for_past_median_time (window_caches st)) (ctx_hash ctx) (block_window_for_past_median_time ctx);
  non_daa ← unwrap (mergeset_non_daa ctx);
  daa_excluded ← insert_new (daa_excluded_store st) (ctx_hash ctx) non_daa;
  headers ← insert_new (headers_store st) (ctx_hash ctx) (mkLevelHeader (ctx_header ctx) (block_level ctx));
  root ← unwrap (merge_depth_root ctx);
  fp ← unwrap (finality_point ctx);
  depth ← insert_new (depth_store st) (ctx_hash ctx) (root, fp);
  index ← Reachability.unwrap_res (add_block (reachability_store st) (ctx_hash ctx) (selected_parent d) (data_unordered_mergeset_without_selected_parent d));
  '(index, hst) ← promote st index ctx header;
  relations ← insert_relations (relations_store st) (ctx_hash ctx) (known_direct_parents ctx);
  reach_relations ← insert_relations (reachability_relations_store st) (ctx_hash ctx) (known_direct_parents ctx);
  Ok (mkHeaderStores relations reach_relations index gd (<[ctx_hash ctx := StatusHeaderOnly]> (statuses_store st)) (pruning_point_store st)
       (mkCaches difficulty_cache median_cache) daa_excluded headers hst (max_chain_work_seen_store st) depth).
(** The data may have been written already by a pruning proof. *)
Definition commit_trusted_header (ctx : HeaderProcessingContext) (header : Header) (st : HeaderStores) : R HeaderStores :=
  d ← ghostdag_data ctx;
  let gd := match ghostdag_store st !! ctx_hash ctx with Some _ => ghostdag_store st | None => <[ctx_hash ctx := d]> (ghostdag_store st) end in
  let relations := (insert_with_writer (ctx_hash ctx) (known_direct_parents ctx) (relations_store st)).2 in
  Ok (mkHeaderStores relations (reachability_relations_store st) (reachability_store st) gd (<[ctx_hash ctx := StatusHeaderOnly]> (statuses_store st))
       (pruning_point_store st) (window_caches st) (daa_excluded_store st) (headers_store st) (headers_selected_tip_store st)
       (max_chain_work_seen_store st) (depth_store st)).
(** A database batch is written as a whole. *)
Definition writing (f : HeaderStores -> R HeaderStores) : stm HeaderStores RuleError unit := fun st =>
  match f st with Ok st' => (Ok tt, st') | Err e => (Err e, st) | Panic => (Panic, st) | NoFuel => (NoFuel, st) end.

Inductive BlockTask := Ordinary (header : Header) | Trusted (header : Header).
Definition task_header (task : BlockTask) : Header := match task with Ordinary h | Trusted h => h end.
Definition process_header (now : u64) (task : BlockTask) : stm HeaderStores RuleError BlockStatus := fun st =>
  let header := task_header task in
  match statuses_store st !! h_hash header with
  | Some StatusInvalid => (Err KnownInvalid, st)
  | Some status => (Ok status, st)
  | None =>
      (_ ← match task with
           | Ordinary header => ctx ← validate_header now header; writing (commit_header ctx header)
           | Trusted header => ctx ← validate_trusted_header now header; writing (commit_trusted_header ctx header)
           end;
       mret StatusHeaderOnly) st
  end.
Definition process_genesis (st : HeaderStores) : R HeaderStores :=
  let st := mkHeaderStores (relations_store st) (reachability_relations_store st) (reachability_store st) (ghostdag_store st) (statuses_store st)
    (pruning_point_store st) (window_caches st) (daa_excluded_store st) (headers_store st) (Some (mkSortable genesis_hash 0))
    (max_chain_work_seen_store st) (depth_store st) in
  commit_header (mkContext genesis_hash (hp_genesis self) genesis_hash (max_block_level self) [ORIGIN] (Some genesis_ghostdag_data) None None
    (Some ∅) (Some ORIGIN) (Some ORIGIN)) (hp_genesis self) st.
Definition processor_init (st : HeaderStores) : R HeaderStores :=
  if decide (is_Some (rel_parents (relations_store st) !! ORIGIN)) then Ok st else
  relations ← insert_relations (relations_store st) ORIGIN [];
  gd ← insert_new (ghostdag_store st) ORIGIN origin_ghostdag_data;
  Ok (mkHeaderStores relations (reachability_relations_store st) (reachability_store st) gd (statuses_store st) (pruning_point_store st)
       (window_caches st) (daa_excluded_store st) (headers_store st) (Some (mkSortable ORIGIN 0)) (max_chain_work_seen_store st) (depth_store st)).
End processor.
