(* ===== verification/HeaderInv.v ===== *)
(** * Header processing keeps the stores consistent

    The invariant of the stores behind the header processor ([HeaderProc]): the
    reachability index represents the DAG of the relations, the GHOSTDAG data is
    well coloured for it, and the stores know the same blocks.  A header that
    validates is committed without a panic and keeps the invariant; the
    composition of the results on relations, reachability and GHOSTDAG. *)
From S2P Require Import Prelude Cache Encode Tx Header Uint Target Interval Reachability ReachTree Reindex ReachOps ReachHint Dag Chain Parents Ghostdag Relations Difficulty BlockDepth Coinbase BlockBody Window ReachService HeaderProc.

(** ** Two services that agree on the stored blocks *)
Section transfer.
Context (RS RS' : ReachabilityService) (g : Hash) (k : KType) (S : GhostdagStore).
Context (Hsame : forall a b, a ∈ dom S -> b ∈ dom S -> RS' a b = RS a b) (Hcl : forall a b, b ∈ dom S -> RS a b = true -> a ∈ dom S).
Lemma acount_transfer b l : b ∈ dom S -> (forall x, x ∈ l -> x ∈ dom S) -> @acount RS' b l = @acount RS b l.
Proof using Hsame.
  intros Hb Hl. unfold acount. f_equal. induction l as [|x l IH]; [done|]. assert (x ∈ dom S) as Hx by (apply Hl; left).
  assert (@anticone RS' x b = @anticone RS x b) as Ha by (unfold anticone, is_dag_ancestor_of; by rewrite !Hsame).
  rewrite !filter_cons, IH by (intros; apply Hl; by right). repeat case_decide; congruence.
Qed.
Lemma coloured_transfer d l : (forall b, b ∈ all_blues S d l -> b ∈ dom S) -> @coloured RS g k S d l -> @coloured RS' g k S d l.
Proof using Hsame. intros Hd [Hn Hb]. split; [done|]. intros b Hin. rewrite acount_transfer by auto. by apply Hb. Qed.
Lemma good_blues h d b : @good RS g k S -> S !! h = Some d -> b ∈ mergeset_blues d -> b ∈ dom S.
Proof using Hcl. intros HG Hd Hb. apply (Hcl b h); [by apply elem_of_dom|]. by apply (@good_past RS g k S HG h d b). Qed.
Lemma chain_blues_dom l b : @good RS g k S -> b ∈ chain_blues S l -> b ∈ dom S.
Proof using Hcl.
  intros HG. unfold chain_blues. rewrite list_elem_of_In, in_concat. intros (bs & (h & <- & _)%in_map_iff & Hb). unfold blues_of in Hb.
  destruct (S !! h) as [d|] eqn:Hd; [|done]. apply list_elem_of_In in Hb. by eapply good_blues.
Qed.
Lemma good_transfer : @good RS g k S -> @good RS' g k S.
Proof using Hsame Hcl.
  intros HG. split.
  - intros r d Hr Hd. destruct (@good_root RS g k S HG r d Hr Hd) as [Hb Hall]. split; [done|]. intros x Hx Ho. unfold is_dag_ancestor_of.
    rewrite Hsame; [by apply Hall|by apply elem_of_dom|done].
  - intros h d. apply (@good_chain RS g k S HG).
  - intros h d b Hd Hb. destruct (@good_past RS g k S HG h d b Hd Hb) as [Hr Hne]. split; [|done]. unfold is_dag_ancestor_of.
    rewrite Hsame; [done|by apply (good_blues h d b)|by apply elem_of_dom].
  - intros h d Hd Hr. destruct (@good_sp RS g k S HG h d Hd Hr) as [Hs Hne]. split; [|done]. unfold is_dag_ancestor_of.
    assert (h ∈ dom S) as Hh by (by apply elem_of_dom). rewrite Hsame; [done|by apply (Hcl _ h)|done].
  - intros h d l Hd Hr Hl. apply coloured_transfer; [|by eapply (@good_coloured RS)]. intros b. unfold all_blues. intros [Hb|Hb]%elem_of_app.
    + by eapply good_blues.
    + by eapply chain_blues_dom.
  - intros a b da db Ha Hb Hao. unfold is_dag_ancestor_of. rewrite Hsame by (by apply elem_of_dom). by apply (@good_work RS g k S HG a b da db).
Qed.
Context (Hcl' : forall a b, b ∈ dom S -> RS' a b = true -> a ∈ dom S).
Lemma merged_transfer sp ps x : sp ∈ dom S -> (forall p, p ∈ ps -> p ∈ dom S) -> @merged RS sp ps x <-> @merged RS' sp ps x.
Proof using Hsame Hcl Hcl'.
  intros Hsp Hps. unfold merged, is_dag_ancestor_of. split; intros [H1 (p & Hp & H2)].
  - assert (x ∈ dom S) by (apply (Hcl x p); auto). split; [by rewrite Hsame|]. exists p. rewrite Hsame; auto.
  - assert (x ∈ dom S) by (apply (Hcl' x p); auto). split; [by rewrite <- Hsame|]. exists p. rewrite <- Hsame; auto.
Qed.
End transfer.

(** ** The service after a block was added to the index *)
Section extended.
Abbreviation knows s h := (is_Some (reach_map s !! h)).
Lemma dag_closed r s D a b (R : reach_ok r s D) : knows s b -> index_dag s a b = true -> knows s a.
Proof. intros Hb H%(answer_dag r s D R). destruct H as [(? & _)|H]; [done|by subst]. Qed.

Context (r : Hash) (s s' : MemoryReachabilityStore) (D : Hash -> Hash -> Prop) (n sp : Hash) (ms ps : list Hash).
Context (R : reach_ok r s D) (R' : reach_ok r s' (dag_add D n sp ms)).
Context (Hdom : dom (reach_map s') = {[n]} ∪ dom (reach_map s)) (Hn : reach_map s !! n = None).
Context (Dtrans : forall a b c, knows s a -> knows s b -> knows s c -> D a b -> D b c -> D a c).
Context (Danti : forall a b, knows s a -> knows s b -> D a b -> D b a -> a = b).
Context (Hps : forall p, p ∈ ps -> knows s p) (Hsp : sp ∈ ps) (Hms : forall x, x ∈ ms <-> @merged (index_dag s) sp ps x).
Abbreviation D' := (dag_add D n sp ms).

Lemma knows_new h : knows s' h <-> h = n \/ knows s h.
Proof using Hdom. by rewrite <- !elem_of_dom, Hdom, elem_of_union, elem_of_singleton. Qed.
Lemma knows_ne h : knows s h -> h <> n.
Proof using Hn. intros [d Hd] ->. congruence. Qed.
Lemma dag_iff a b : knows s a -> knows s b -> index_dag s a b = true <-> D a b.
Proof using R.
  intros Ha Hb. rewrite (answer_dag r s D R). split; [|by left]. intros [(_ & _ & ?)| ->]; [done|]. by apply (dag_refl r s D R).
Qed.
Lemma dag_past_new a : knows s a -> D' a n <-> exists p, p ∈ ps /\ D a p.
Proof using R Hn Hps Hsp Hms.
  intros Ha. pose proof (knows_ne a Ha) as Hne. unfold dag_add. split.
  - intros [(_ & ? & _)|(_ & [?|[H|H]])]; [done|done|by exists sp|]. apply Hms in H as [_ (p & Hp & H)]. exists p. split; [done|]. apply dag_iff; auto.
  - intros (p & Hp & H). right. split; [done|]. right. destruct (index_dag s a sp) eqn:E; [left; apply dag_iff; auto|right].
    apply Hms. split; [done|]. exists p. split; [done|]. apply dag_iff; auto.
Qed.
Lemma dag_old a b : knows s a -> knows s b -> D' a b <-> D a b.
Proof using Hn. intros Ha Hb. pose proof (knows_ne a Ha). pose proof (knows_ne b Hb). unfold dag_add. split; [by intros [(_ & _ & ?)|[? _]]|by left]. Qed.
Lemma dag_new_self : D' n n.
Proof. right. auto. Qed.
Lemma dag_new_future b : knows s b -> ~ D' n b.
Proof using Hn. intros Hb. pose proof (knows_ne b Hb). unfold dag_add. by intros [[? _]|[? _]]. Qed.

Lemma ext_same a b : knows s a -> knows s b -> index_dag s' a b = index_dag s a b.
Proof using R R' Hdom Hn.
  intros Ha Hb. apply eq_true_iff_eq. rewrite dag_iff by done. rewrite (answer_dag r s' D' R'), !knows_new, dag_old by done.
  split; [|by left; auto]. intros [(_ & _ & ?)| ->]; [done|]. by apply (dag_refl r s D R).
Qed.
Lemma ext_future x : knows s x -> index_dag s' n x = false.
Proof using R R' Hn.
  intros Hx. apply not_true_is_false. rewrite (answer_dag r s' D' R'). intros [(_ & _ & H)|H]; [by apply (dag_new_future x)|]. by apply (knows_ne x).
Qed.
Lemma ext_closed a b : knows s b -> index_dag s' a b = true -> knows s a.
Proof using R R' Hdom Hn.
  intros Hb H. pose proof (dag_closed r s' D' a b R') as Hc. rewrite !knows_new in Hc. destruct (Hc ltac:(auto) H) as [->|?]; [|done].
  by rewrite ext_future in H.
Qed.
Lemma ext_past a : index_dag s' a n = true <-> a = n \/ exists p, p ∈ ps /\ index_dag s' a p = true.
Proof using R R' Hdom Hn Hps Hsp Hms.
  rewrite (answer_dag r s' D' R'), !knows_new. split.
  - intros [(Ka & _ & H)|H]; [|by left]. destruct Ka as [?|Ka]; [by left|]. right. apply dag_past_new in H as (p & Hp & H); [|done].
    exists p. split; [done|]. rewrite ext_same by auto. apply dag_iff; auto.
  - intros [->|(p & Hp & H)]; [by right|]. left. pose proof (ext_closed a p (Hps p Hp) H) as Ka. split_and!; [by right|by left|].
    apply dag_past_new; [done|]. exists p. split; [done|]. rewrite ext_same in H by auto. apply dag_iff; auto.
Qed.
Lemma ext_trans a b c : knows s' a -> knows s' b -> knows s' c -> D' a b -> D' b c -> D' a c.
Proof using R Hdom Hn Dtrans Hps Hsp Hms.
  rewrite !knows_new. intros [->|Ka] [->|Kb] [->|Kc] Hab Hbc; try done; try (by destruct (dag_new_future _ ltac:(eassumption) ltac:(eassumption))).
  - by destruct (dag_new_future b Kb).
  - apply dag_past_new in Hbc as (p & Hp & Hbc); [|done]. apply dag_past_new; [done|]. exists p. split; [done|].
    apply dag_old in Hab; [|done..]. apply (Dtrans a b p); auto.
  - apply dag_old in Hab, Hbc; [|done..]. apply dag_old; [done..|]. by apply (Dtrans a b c).
Qed.
Lemma ext_anti a b : knows s' a -> knows s' b -> D' a b -> D' b a -> a = b.
Proof using Hdom Hn Danti.
  rewrite !knows_new. intros [->|Ka] [->|Kb] Hab Hba; [done|by destruct (dag_new_future b Kb)|by destruct (dag_new_future a Ka)|].
  apply dag_old in Hab, Hba; [|done..]. by apply Danti.
Qed.
(** Relations extended by the new block. *)
Lemma relations_extended rel : reach_relations (index_dag s) rel -> (forall h, is_Some (rel_parents rel !! h) <-> knows s h) ->
  (forall a b, a ∈ ps -> b ∈ ps -> a <> b -> index_dag s a b = false) ->
  exists rel', insert_with_writer n ps rel = (Ok tt, rel') /\ reach_relations (index_dag s') rel' /\ dom (rel_parents rel') = {[n]} ∪ dom (rel_parents rel).
Proof using R R' Hdom Hn Hps Hsp Hms.
  intros [W Hdec Hanti] Hk Hinc. destruct (relations_insert_ok rel n ps W) as (rel' & qs & E & Hp & Hq & _ & W').
  { apply eq_None_not_Some. rewrite Hk. intros [? ?]. congruence. }
  { intros p Hp. by apply Hk, Hps. }
  exists rel'. split; [done|]. split; [|by rewrite Hp, dom_insert_L].
  assert (forall c cs, c <> n -> rel_parents rel' !! c = Some cs -> rel_parents rel !! c = Some cs /\ knows s c /\ forall p, p ∈ cs -> knows s p) as Hold.
  { intros c cs Hc Hcs. rewrite Hp, lookup_insert_ne in Hcs by congruence. split; [done|]. split; [apply Hk; by eexists|].
    intros p Hin. apply Hk. by apply (wf_parents _ W c cs p). }
  split; [done| |].
  - intros c cs a Hcs. destruct (decide (c = n)) as [->|Hc].
    + rewrite Hp, lookup_insert_eq in Hcs. injection Hcs as <-. rewrite ext_past. setoid_rewrite Hq. done.
    + destruct (Hold c cs Hc Hcs) as (Hcs' & Kc & Kp). split.
      * intros H. pose proof (ext_closed a c Kc H) as Ka. rewrite ext_same in H by done. apply (Hdec c cs a Hcs') in H as [->|(p & Hin & H)]; [by left|].
        right. exists p. rewrite ext_same by auto. done.
      * intros [->|(p & Hin & H)]; [apply (answer_dag r s' D' R'); by right|]. pose proof (ext_closed a p (Kp p Hin) H) as Ka.
        rewrite ext_same in H |- * by auto. apply (Hdec c cs a Hcs'). right. by exists p.
  - intros c cs p q Hcs Hpc Hqc. destruct (decide (c = n)) as [->|Hc].
    + rewrite Hp, lookup_insert_eq in Hcs. injection Hcs as <-. apply Hq in Hpc, Hqc. rewrite ext_same by auto. intros H.
      destruct (decide (p = q)); [done|]. by rewrite (Hinc p q) in H.
    + destruct (Hold c cs Hc Hcs) as (Hcs' & Kc & Kp). rewrite ext_same by auto. by apply (Hanti c cs).
Qed.
(** The GHOSTDAG store extended by the new block. *)
Lemma good_extended `{!HashIter Hash KType, !SetIter Hash} (gm : GhostdagManager) d l cs bl (HG : @good (index_dag s) (genesis_hash gm) (gd_k gm) (Ghostdag.ghostdag_store gm)) :
  0 <= gd_k gm -> inW 16 (gd_k gm + 1) -> (forall h, h ∈ dom (Ghostdag.ghostdag_store gm) <-> knows s h) ->
  @relations_ok (index_dag s) (Ghostdag.ghostdag_store gm) (Ghostdag.relations_store gm) ->
  ps <> [] -> (forall p q, p ∈ ps -> q ∈ ps -> p <> q -> index_dag s p q = false) ->
  @ghostdag_result (index_dag s) gm ps d l cs bl -> selected_parent d = sp ->
  (selected_parent d <> ORIGIN -> exists spd, Ghostdag.ghostdag_store gm !! selected_parent d = Some spd /\ blue_work spd < blue_work d) ->
  ORIGIN ∉ ps -> ~ is_root (genesis_hash gm) n ->
  @good (index_dag s') (genesis_hash gm) (gd_k gm) (<[n := d]> (Ghostdag.ghostdag_store gm)).
Proof using R R' Hdom Hn Hps Hsp Hms Dtrans Danti.
  intros Hk0 Hk16 Hk Hrel Hne Hinc HR Hd Hw Ho Hroot. set (S := Ghostdag.ghostdag_store gm) in *.
  assert (forall a b, a ∈ dom S -> b ∈ dom S -> index_dag s' a b = index_dag s a b) as Hsame by (intros a b Ha%Hk Hb%Hk; by apply ext_same).
  assert (forall a b, b ∈ dom S -> index_dag s a b = true -> a ∈ dom S) as Hcl by (intros a b Hb%Hk H; apply Hk; by eapply dag_closed).
  assert (forall a b, b ∈ dom S -> index_dag s' a b = true -> a ∈ dom S) as Hcl' by (intros a b Hb%Hk H; apply Hk; by eapply ext_closed).
  assert (forall p, p ∈ ps -> p ∈ dom S) as Hpd by (intros p Hp; by apply Hk, Hps).
  assert (@good (index_dag s') (genesis_hash gm) (gd_k gm) S) as HG' by (by apply (good_transfer (index_dag s))).
  assert (forall h, h ∈ dom S -> exists cs, Ghostdag.relations_store gm !! h = Some cs) as Hrd by (intros h Hh; destruct (Hrel h Hh) as (c & ? & _); eauto).
  pose proof (index_dag_laws r s' D' R' ext_trans ext_anti) as L'.
  assert (@relations_ok (index_dag s') S (Ghostdag.relations_store gm)) as Hrel'.
  { intros h Hh. destruct (Hrel h Hh) as (cs' & Hcs & Hin & Hiff). exists cs'. split; [done|]. split; [done|]. intros a. unfold is_dag_ancestor_of in *. split.
    - intros H. pose proof (Hcl' a h Hh H) as Ha. rewrite Hsame in H by done. apply Hiff in H as [->|(p & Hp & H)]; [by left|]. right. exists p.
      rewrite Hsame; [done|done|by apply Hin].
    - intros [->|(p & Hp & H)]; [apply (answer_dag r s' D' R'); by right|]. destruct (Hin p Hp) as [Hpd' _]. pose proof (Hcl' a p Hpd' H) as Ha.
      rewrite Hsame in H |- * by done. apply Hiff. right. by exists p. }
  eapply (@good_insert (index_dag s') L' gm HG' ps Hrel' Hpd) with (l := l) (cs := cs) (bl := bl).
  - intros p q Hp Hq Hpq. unfold is_dag_ancestor_of. rewrite Hsame by auto. by apply Hinc.
  - intros [? ?]%Hk. congruence.
  - done.
  - destruct HR as [H1 H2 H3 H4 H5 H6 H7 H8 H9 H10 H11 H12]. split; try done.
    + apply (coloured_transfer (index_dag s)); [done| |done]. intros b [Hb|Hb]%elem_of_app; [|by eapply chain_blues_dom].
      rewrite H5 in Hb. apply elem_of_cons in Hb as [->|Hb]; [auto|]. assert (b ∈ cs) as [_ (p & Hp & H)]%H10 by (rewrite <- H8; apply elem_of_app; by left).
      by apply (Hcl b p); [auto|].
    + intros x. rewrite H10. apply (merged_transfer (index_dag s) (index_dag s') S); auto.
  - done.
  - by intros ?%Ho.
  - intros x Hx%Hk. by apply ext_future.
  - apply ext_past.
Qed.
End extended.

(** ** What an accepted header satisfies *)
Section processor.
Context `{HB : Blake2b} `{RX : RandomX} `{EC : !EvictChoice Hash (list SortableBlock)}.
Context `{!SetIter Hash, !HashIter Hash KType, !HashIter Hash (list Hash)}.
Context (self : HeaderProcessor).
Implicit Types (st : HeaderStores) (header : Header) (ctx : HeaderProcessingContext) (d : GhostdagData).

Record isolated st (now : u64) header (ps : list Hash) (level : u8) : Prop := {
  is_version : h_version header = BLOCK_VERSION;
  is_time : Header.h_timestamp header <= now + timestamp_deviation_tolerance self * 1000;
  is_parents : direct_parents (E:=RuleError) header = Ok ps;
  is_nonempty : ps <> [];
  is_limit : zlen ps <= max_block_parents self;
  is_origin : ORIGIN ∉ ps;
  is_pow : exists pow, calculate_pow header = Ok pow /\ level = calc_level_from_pow pow (max_block_level self) /\
    (skip_proof_of_work self = true \/ cmp pow (from_compact_target_bits (Header.h_bits header)) <> Gt);
}.
Lemma isolation_inv st now header level : validate_header_in_isolation self st now header = Ok level -> exists ps, isolated st now header ps level.
Proof.
  unfold validate_header_in_isolation. intros H. apply bind_ok in H as (u1 & H1 & H). apply bind_ok in H as (u2 & H2 & H).
  apply bind_ok in H as (u3 & H3 & H). apply bind_ok in H as (u4 & H4 & H5).
  apply fail_if_ok in H1. apply bind_ok in H2 as (tol & T1 & H2). apply bind_ok in H2 as (mx & T2 & H2). apply fail_if_ok in H2.
  apply bind_ok in H3 as (ps & Hps & H3). apply bind_ok in H3 as (u5 & N1 & H3). apply fail_if_ok in N1, H3.
  apply bind_ok in H4 as (ps' & Hps' & H4). rewrite Hps in Hps'. injection Hps' as <-. apply fail_if_ok in H4.
  apply bind_ok in H5 as (u6 & _ & H5). apply bind_ok in H5 as (pow & Hpow & H5). exists ps.
  apply chk_inv in T1 as [-> _], T2 as [-> _].
  split; [lia|lia|done|by apply bool_decide_eq_false in N1|lia| |].
  - intros Ho. apply not_true_iff_false in H4. apply H4, existsb_exists. exists ORIGIN. split; [by apply list_elem_of_In|by apply bool_decide_eq_true].
  - exists pow. split; [done|]. unfold check_pow in H5. destruct (cmp pow _), (skip_proof_of_work self); cbn [orb] in H5; simplify_eq; auto.
Qed.

Abbreviation index st := (reachability_store st).
Record related st header (ps : list Hash) : Prop := {
  re_known p : p ∈ ps -> exists s, statuses_store st !! p = Some s /\ s <> StatusInvalid;
  re_incest a b : a ∈ ps -> b ∈ ps -> a <> b -> Reachability.is_dag_ancestor_of (index st) a b = Ok false;
}.
Lemma missing_inv st ps : forall missing l, missing_parents st missing ps = Ok l ->
  exists l', l = missing ++ l' /\ (l' = [] -> forall p, p ∈ ps -> exists s, statuses_store st !! p = Some s /\ s <> StatusInvalid).
Proof.
  induction ps as [|p ps IH]; intros missing l; cbn [missing_parents].
  { intros [= <-]. exists []. rewrite app_nil_r. split; [done|]. by intros _ p ?%elem_of_nil. }
  destruct (statuses_store st !! p) as [s|] eqn:Hs.
  - intros H. assert (s <> StatusInvalid /\ missing_parents st missing ps = Ok l) as [Hne H'] by (by destruct s).
    destruct (IH _ _ H') as (l' & -> & Hl). exists l'. split; [done|]. intros He q [->|Hq]%elem_of_cons; eauto.
  - intros H. destruct (IH _ _ H) as (l' & -> & Hl). exists (p :: l'). rewrite <- app_assoc. done.
Qed.
Lemma res_for_inv {E A} (f : A -> res E unit) l : res_foldl (fun _ x => f x) tt l = Ok tt -> forall x, x ∈ l -> f x = Ok tt.
Proof.
  induction l as [|y l IH]; [by intros _ x ?%elem_of_nil|]. cbn [res_foldl]. intros H. apply bind_ok in H as ([] & Hy & H).
  intros x [->|Hx]%elem_of_cons; auto.
Qed.
Lemma relations_inv st header ps u : direct_parents (E:=RuleError) header = Ok ps -> validate_parent_relations st header = Ok u -> related st header ps.
Proof.
  intros Hps H. apply bind_ok in H as (u1 & H1 & H2). apply bind_ok in H1 as (ps' & Hps' & H1). rewrite Hps in Hps'. injection Hps' as <-.
  apply bind_ok in H1 as (l & Hl & H1). apply fail_if_ok, negb_false_iff, bool_decide_eq_true in H1. subst l.
  apply missing_inv in Hl as (l' & Hl & Hk). destruct l'; [|done]. apply bind_ok in H2 as (ps' & Hps' & H2). rewrite Hps in Hps'. injection Hps' as <-.
  destruct u. split; [by apply Hk|]. intros a b Ha Hb Hne. pose proof (res_for_inv _ _ H2 a Ha) as H. pose proof (res_for_inv _ _ H b Hb) as H'.
  cbv beta in H'. rewrite decide_False in H' by done. apply bind_ok in H' as (v & Hv & H'). apply fail_if_ok in H'. subst v.
  unfold dag_ancestor in Hv. by destruct (Reachability.is_dag_ancestor_of (index st) a b); simplify_eq/=.
Qed.

Abbreviation chain st := (index_chain ORIGIN (index st)).
Record placed st header (ps : list Hash) d (level : u8) ctx : Prop := {
  pl_hash : ctx_hash ctx = h_hash header;
  pl_header : ctx_header ctx = header;
  pl_level : block_level ctx = level;
  pl_pp : pruning_point_store st = Some (ctx_pruning_point ctx);
  pl_parents : collect_known_direct_parents st header = Ok (known_direct_parents ctx);
  pl_data : ctx_ghostdag_data ctx = Some d;
  pl_ghostdag : match ghostdag_store st !! h_hash header with
    | Some d' => d' = d
    | None => @ghostdag (index_dag (index st)) _ _ (ghostdag_manager self st) RuleError (known_direct_parents ctx) = Ok d
    end;
  pl_pruning : exists p, p ∈ known_direct_parents ctx /\ Reachability.is_dag_ancestor_of (index st) (ctx_pruning_point ctx) p = Ok true;
  pl_daa : exists w, block_daa_window (window_manager self st) (window_fuel st) (window_caches st) d = Ok w /\
    dw_daa_score w = Header.h_daa_score header /\ window_difficulty_bits (window_manager self st) d w = Ok (Header.h_bits header) /\
    block_window_for_difficulty ctx = Some (dw_window w) /\ mergeset_non_daa ctx = Some (dw_mergeset_non_daa w);
  pl_score : blue_score d = Header.h_blue_score header;
  pl_work : blue_work d = h_blue_work header;
  pl_median : exists t w, window_past_median_time (window_manager self st) (window_fuel st) (window_caches st) d = Ok (t, w) /\
    t < Header.h_timestamp header /\ block_window_for_past_median_time ctx = Some w;
  pl_size : mergeset_size d <= mergeset_size_limit self;
  pl_depth : exists root fp, calc_merge_depth_root (E:=RuleError) (CS:=chain st) (depth_manager self st) (depth_fuel st) d (ctx_pruning_point ctx) = Ok root /\
    calc_finality_point (E:=RuleError) (CS:=chain st) (depth_manager self st) (depth_fuel st) d (ctx_pruning_point ctx) = Ok fp /\
    merge_depth_root ctx = Some root /\ finality_point ctx = Some fp /\
    forall red, red ∈ mergeset_reds d -> dag_ancestor st root red = Ok true \/
      exists blue, blue ∈ kosherizing_blues (CS:=chain st) d root /\ dag_ancestor st red blue = Ok true;
  pl_levels : exists expected expected_levels levels,
    @calc_block_parents RuleError (index_dag (index st)) _ _ (store_has (index st)) (parents_manager self st) (ctx_pruning_point ctx) ps = Ok expected /\
    expanded_iter (E:=RuleError) expected = Ok expected_levels /\ expanded_iter (E:=RuleError) (parents_by_level header) = Ok levels /\
    expanded_len (parents_by_level header) = expanded_len expected /\
    forall i e l, expected_levels !! i = Some e -> levels !! i = Some l -> same_level e l = true;
}.
Lemma dag_ancestor_inv st a b v : dag_ancestor st a b = Ok v -> Reachability.is_dag_ancestor_of (index st) a b = Ok v.
Proof. unfold dag_ancestor. by destruct (Reachability.is_dag_ancestor_of (index st) a b); intros; simplify_eq/=. Qed.
Lemma ancestor_of_any_inv st a l : dag_ancestor_of_any st a l = Ok true -> exists b, b ∈ l /\ dag_ancestor st a b = Ok true.
Proof.
  induction l as [|b l IH]; [done|]. cbn [dag_ancestor_of_any]. intros H. apply bind_ok in H as (v & Hv & H). destruct v.
  - exists b. split; [left|done].
  - destruct (IH H) as (c & Hc & ?). exists c. split; [by right|done].
Qed.
Lemma forallb_zip {A B} (f : A * B -> bool) : forall (l : list A) (k : list B), forallb f (zip l k) = true ->
  forall i a b, l !! i = Some a -> k !! i = Some b -> f (a, b) = true.
Proof.
  induction l as [|x l IH]; intros [|y k] H i a b; try (by rewrite lookup_nil). cbn [zip zip_with forallb] in H.
  apply andb_true_iff in H as [H1 H2]. destruct i as [|i]; cbn [lookup list_lookup]; [by intros [= <-] [= <-]|]. by apply (IH k).
Qed.
Lemma validate_header_inv st now header ctx st' : validate_header self now header st = (Ok ctx, st') ->
  st' = st /\ exists ps level d, isolated st now header ps level /\ related st header ps /\ placed st header ps d level ctx.
Proof.
  unfold validate_header, mbind, stm_bind, reading, post_pow_or_invalid.
  destruct (validate_header_in_isolation self st now header) as [level| | |] eqn:H1; [|done..].
  destruct (validate_parent_relations st header) as [u| | |] eqn:H2; [|done..].
  destruct (build_processing_context st header level) as [c1| | |] eqn:H3; [|done..].
  destruct (run_ghostdag self st c1) as [c2| | |] eqn:H4; [|done..].
  destruct (pre_pow_validation self st c2 header) as [c3| | |] eqn:H5; [|done..].
  destruct (post_pow_validation self st c3 header) as [c4| | |] eqn:H6; [|done..]. intros [= -> <-]. split; [done|].
  destruct (isolation_inv _ _ _ _ H1) as [ps Hps]. pose proof (relations_inv st header ps u (is_parents _ _ _ _ _ Hps) H2) as Hrel.
  apply bind_ok in H3 as (pp & Hpp & H3). apply bind_ok in H3 as (kps & Hkps & H3). injection H3 as <-. apply unwrap_ok in Hpp.
  apply bind_ok in H4 as (d & Hd & H4). injection H4 as <-. exists ps, level, d. split; [done|]. split; [done|].
  apply bind_ok in H5 as (u1 & P1 & H5). apply bind_ok in P1 as (v & P1 & P2). apply fail_if_ok, negb_false_iff in P2. subst v.
  apply ancestor_of_any_inv in P1 as (p0 & Hp0 & P1%dag_ancestor_inv). cbn [ctx_pruning_point known_direct_parents context_new] in *.
  apply bind_ok in H5 as (d' & [= <-] & H5). apply bind_ok in H5 as (w & Hw & H5). apply bind_ok in H5 as (u2 & W1 & H5).
  apply bind_ok in H5 as (bits & W2 & H5). apply bind_ok in H5 as (u3 & W3 & H5). injection H5 as <-. apply fail_if_ok, negb_false_iff, Z.eqb_eq in W1, W3.
  apply bind_ok in H6 as (u4 & Q1 & H6). apply bind_ok in Q1 as (d' & [= <-] & Q1). apply fail_if_ok, negb_false_iff, Z.eqb_eq in Q1.
  apply bind_ok in H6 as (u5 & Q2 & H6). apply bind_ok in Q2 as (d' & [= <-] & Q2). apply fail_if_ok, negb_false_iff, Z.eqb_eq in Q2.
  apply bind_ok in H6 as (c5 & Q3 & H6). apply bind_ok in Q3 as (d' & [= <-] & Q3). apply bind_ok in Q3 as ([t w'] & Q3 & Q4).
  apply bind_ok in Q4 as (u6 & Q4 & Q5). apply fail_if_ok in Q4. injection Q5 as <-.
  apply bind_ok in H6 as (u7 & Q5 & H6). apply bind_ok in Q5 as (d' & [= <-] & Q5). apply fail_if_ok in Q5.
  apply bind_ok in H6 as (c6 & Q6 & H6). apply bind_ok in H6 as (u8 & Q7 & [= <-]).
  apply bind_ok in Q6 as (d' & [= <-] & Q6). apply bind_ok in Q6 as (root & D1 & Q6). apply bind_ok in Q6 as (fp & D2 & Q6).
  apply bind_ok in Q6 as ([] & D3 & Q6). injection Q6 as <-. cbn [ctx_pruning_point known_direct_parents context_new] in *.
  apply bind_ok in Q7 as (ps' & L0 & Q7). rewrite (is_parents _ _ _ _ _ Hps) in L0. injection L0 as <-.
  apply bind_ok in Q7 as (ex & L1 & Q7). apply bind_ok in Q7 as (els & L2 & Q7). apply bind_ok in Q7 as (ls & L3 & Q7).
  apply fail_if_ok, orb_false_iff in Q7 as [L4 L5]. apply negb_false_iff in L4, L5. apply Z.eqb_eq in L4.
  split; cbn; try done.
  - cbn [ctx_hash context_new] in Hd. destruct (ghostdag_store st !! h_hash header); [by injection Hd|done].
  - exists p0. done.
  - exists w. rewrite W3. done.
  - exists t, w'. split_and!; [done|lia|done].
  - lia.
  - exists root, fp. split_and!; [done..|]. intros red Hred. pose proof (res_for_inv _ _ D3 red Hred) as H. unfold check_red in H.
    apply bind_ok in H as ([] & Ha & H); [by left|]. right. apply bind_ok in H as (kb & Hk & H). apply fail_if_ok, negb_false_iff in H. subst kb.
    by apply ancestor_of_any_inv.
  - exists ex, els, ls. split_and!; [done..|]. intros i e l He Hl. by apply (forallb_zip _ _ _ L5 i e l).
Qed.

(** ** The invariant *)
Definition cache_usable (c : DbCache Hash (list SortableBlock)) : Prop := exists f, db_cache_ok (E:=RuleError) (fun _ => True) 0 c f.
Record headers_inv st (D : Hash -> Hash -> Prop) : Prop := {
  hi_index : index_ok ORIGIN (index st) D DEFAULT_REINDEX_SLACK;
  hi_trans a b c : is_Some (reach_map (index st) !! a) -> is_Some (reach_map (index st) !! b) -> is_Some (reach_map (index st) !! c) ->
    D a b -> D b c -> D a c;
  hi_anti a b : is_Some (reach_map (index st) !! a) -> is_Some (reach_map (index st) !! b) -> D a b -> D b a -> a = b;
  hi_good : @good (index_dag (index st)) (h_hash (hp_genesis self)) (hp_k self) (ghostdag_store st);
  hi_relations : reach_relations (index_dag (index st)) (relations_store st);
  hi_reach_relations : reach_relations (index_dag (index st)) (reachability_relations_store st);
  hi_index_dom : dom (reach_map (index st)) = dom (ghostdag_store st);
  hi_relations_dom : dom (rel_parents (relations_store st)) = dom (ghostdag_store st);
  hi_reach_relations_dom : dom (rel_parents (reachability_relations_store st)) = dom (ghostdag_store st);
  hi_headers : dom (ghostdag_store st) = {[ORIGIN]} ∪ dom (headers_store st);
  hi_origin : ORIGIN ∉ dom (headers_store st);
  hi_daa : dom (daa_excluded_store st) = dom (headers_store st);
  hi_depth : dom (depth_store st) = dom (headers_store st);
  hi_status h : h ∈ dom (headers_store st) -> is_Some (statuses_store st !! h);
  hi_valid h s : statuses_store st !! h = Some s -> s <> StatusInvalid -> h ∈ dom (headers_store st);
  hi_tip : exists tip, headers_selected_tip_store st = Some tip /\ sb_hash tip ∈ dom (headers_store st);
  hi_pp : exists pp, pruning_point_store st = Some pp /\ pp ∈ dom (ghostdag_store st);
  hi_caches : cache_usable (block_window_cache_for_difficulty (window_caches st)) /\ cache_usable (block_window_cache_for_past_median_time (window_caches st));
}.
(** Room for one more block: the scores and works of the stored blocks, and the
    capacity of the index. *)
Record headers_room st (W : Z) : Prop := {
  ro_k : 0 <= hp_k self /\ inW 16 (hp_k self + 1);
  ro_works h hh : headers_store st !! h = Some hh -> exists w, calc_work (E:=RuleError) (Header.h_bits (hl_header hh)) = Ok w /\ 0 < val w <= W;
  ro_scores h d : ghostdag_store st !! h = Some d -> 0 <= blue_score d /\ blue_score d + hp_k self + 1 < 2 ^ 64 /\
    0 <= blue_work d /\ blue_work d + (hp_k self + 1) * W < 2 ^ 192;
  ro_capacity h dh : reach_map (index st) !! h = Some dh -> Z.of_nat (size (reach_map (index st))) + 2 ^ 15 * (height dh + 2) < CAPACITY;
}.

(** ** Commit *)
(** There is interval space below [p]: of its own, or that of the subtree of the
    reindex root. *)
Definition interval_space st (p : Hash) : Prop :=
  (exists i, interval_remaining_after (index st) p = Ok i /\ 0 < iv_len i) \/
  (exists root, reindex_root (index st) = Some root /\ tanc (reach_map (index st)) root p).
(** The selected tip after a header: the old one, or the new block when it has
    more work than the tip and as much as both floors. *)
Definition tip_updated st header (old new : SortableBlock) : Prop := new = old \/
  new = mkSortable (h_hash header) (h_blue_work header) /\ sortable_cmp new old = Gt /\
  min_chain_work self <= h_blue_work header /\ max_chain_work_seen_store st <= h_blue_work header.
Lemma promote_ok st s1 D ctx header tip dn : index_ok ORIGIN s1 D DEFAULT_REINDEX_SLACK -> headers_selected_tip_store st = Some tip ->
  ctx_hash ctx = h_hash header -> is_Some (reach_map s1 !! ctx_pruning_point ctx) -> reach_map s1 !! ctx_hash ctx = Some dn ->
  reindex_root s1 <> Some (ctx_hash ctx) -> Z.of_nat (size (reach_map s1)) + 2 ^ 15 * (height dn + 1) <= CAPACITY ->
  exists s2 tip', promote self st s1 ctx header = Ok (s2, Some tip') /\ index_ok ORIGIN s2 D DEFAULT_REINDEX_SLACK /\
    dom (reach_map s2) = dom (reach_map s1) /\ tip_updated st header tip tip'.
Proof.
  intros I Ht Hh [dp Hpp] Hdn Hroot Hcap. unfold promote. rewrite Ht. cbn [unwrap mbind res_bind].
  assert (forall t, t = tip -> tip_updated st header tip t) as Hsame by (by left).
  destruct (sortable_cmp _ tip) eqn:Hc; [eauto 7..|]. rewrite (is_chain_ancestor_eval s1 _ _ _ _ Hpp Hdn). cbn [Reachability.unwrap_res mbind res_bind].
  destruct (negb _); [eauto 7|]. destruct (Z.ltb_spec (h_blue_work header) (min_chain_work self)); [eauto 7|].
  destruct (Z.ltb_spec (h_blue_work header) (max_chain_work_seen_store st)); [eauto 7|].
  destruct (advance_ok ORIGIN s1 D DEFAULT_REINDEX_SLACK DEFAULT_REINDEX_DEPTH (ctx_hash ctx) dn I Hdn Hroot) as (s2 & H2 & I2 & Hsh & _);
    [done|done|change DEFAULT_REINDEX_SLACK with (2 ^ 14); lia|].
  unfold hint_virtual_selected_parent. rewrite H2. cbn [Reachability.unwrap_res mbind res_bind]. eexists s2, _. split; [done|]. split; [done|].
  split; [apply (same_shape_size _ _ Hsh)|]. right. rewrite <- Hh. split_and!; [done|done|lia|lia].
Qed.
Lemma insert_window_ok c h w : cache_usable c -> exists c', insert_window c h w = Ok c' /\ cache_usable c'.
Proof.
  intros [f Hf]. destruct w as [w|]; [|exists c; split; [done|by exists f]].
  destruct (Cache.insert_ok (E:=RuleError) (fun _ => True) 0 c f h w I Hf) as (c' & E & Hc' & _). exists c'. split; [done|]. eexists. done.
Qed.

Section commit.
Context st (D : Hash -> Hash -> Prop) (W : Z) header (now : u64) (ps : list Hash) (level : u8) d ctx.
Context (HI : headers_inv st D) (HR : headers_room st W).
Context (Hiso : isolated st now header ps level) (Hrel : related st header ps) (Hpl : placed st header ps d level ctx).
Context (Hnew : statuses_store st !! h_hash header = None) (Hroot : ~ is_root (h_hash (hp_genesis self)) (h_hash header)) (HnN : h_hash header <> NONE).
Abbreviation n := (h_hash header).
Abbreviation RS := (index_dag (index st)).
Abbreviation gm := (ghostdag_manager self st).
Abbreviation knows h := (is_Some (reach_map (index st) !! h)).

Lemma inv_laws : @ReachabilityLaws RS.
Proof using HI. apply (index_dag_laws ORIGIN (index st) D (ix_reach _ _ _ _ (hi_index _ _ HI))); [apply (hi_trans _ _ HI)|apply (hi_anti _ _ HI)]. Qed.
Lemma gd_knows h : h ∈ dom (ghostdag_store st) <-> knows h.
Proof using HI. by rewrite <- (hi_index_dom _ _ HI), elem_of_dom. Qed.
Lemma new_header : n ∉ dom (headers_store st).
Proof using HI Hnew. intros H%(hi_status _ _ HI). rewrite Hnew in H. by destruct H. Qed.
Lemma new_gd : n ∉ dom (ghostdag_store st).
Proof using HI Hnew Hroot.
  rewrite (hi_headers _ _ HI), elem_of_union, elem_of_singleton. intros [H|H]; [|by apply new_header]. apply Hroot. by right.
Qed.
Lemma parents_headers p : p ∈ ps -> p ∈ dom (headers_store st).
Proof using HI Hrel. intros Hp. destruct (re_known _ _ _ Hrel p Hp) as (s & Hs & Hv). by apply (hi_valid _ _ HI p s). Qed.
Lemma parents_gd p : p ∈ ps -> p ∈ dom (ghostdag_store st).
Proof using HI Hrel. intros Hp. rewrite (hi_headers _ _ HI), elem_of_union. right. by apply parents_headers. Qed.
Lemma parents_known : known_direct_parents ctx = ps.
Proof using HI Hiso Hrel Hpl.
  pose proof (pl_parents _ _ _ _ _ _ Hpl) as H. unfold collect_known_direct_parents in H. rewrite (is_parents _ _ _ _ _ Hiso) in H. cbn [mbind res_bind] in H.
  assert (filter (fun p : Hash => is_Some (rel_parents (relations_store st) !! p)) ps = ps) as E.
  { assert (forall l : list Hash, (forall p, p ∈ l -> p ∈ ps) -> filter (fun p => is_Some (rel_parents (relations_store st) !! p)) l = l) as E; [|by apply E].
    induction l as [|p l IH]; intros Hl; [done|]. rewrite filter_cons_True, IH; [done|intros; apply Hl; by right|].
    apply elem_of_dom. rewrite (hi_relations_dom _ _ HI). apply parents_gd, Hl. left. }
  rewrite E in H. rewrite decide_False in H by apply (is_nonempty _ _ _ _ _ Hiso). by injection H.
Qed.
Lemma parents_apart a b : a ∈ ps -> b ∈ ps -> a <> b -> RS a b = false.
Proof using Hrel. intros Ha Hb Hne. unfold index_dag. by rewrite (re_incest _ _ _ Hrel a b Ha Hb Hne). Qed.
Lemma inv_relations_ok : @relations_ok RS (ghostdag_store st) (rel_parents (relations_store st)).
Proof using HI.
  intros h Hh. pose proof Hh as Hh'. rewrite <- (hi_relations_dom _ _ HI) in Hh. apply elem_of_dom in Hh as [cs Hcs]. exists cs. split; [done|].
  destruct (hi_relations _ _ HI) as [Wf Hdec _]. split; [|intros a; by apply Hdec]. intros p Hp.
  destruct (wf_parents _ Wf h cs p Hcs Hp) as [Hk Hne]. split; [|done]. rewrite <- (hi_relations_dom _ _ HI). by apply elem_of_dom.
Qed.
Lemma inv_works h : h ∈ dom (ghostdag_store st) -> h <> ORIGIN -> exists w, block_work (E:=RuleError) gm h = Ok w /\ 0 < w <= W.
Proof using HI HR.
  rewrite (hi_headers _ _ HI), elem_of_union, elem_of_singleton. intros [?|[hh Hh]%elem_of_dom] Ho; [done|].
  destruct (ro_works _ _ HR h hh Hh) as (w & Hw & Hw0). exists (Z.max (val w) 0). unfold block_work. cbn [Ghostdag.headers_store manager_new ghostdag_manager].
  rewrite lookup_fmap, Hh. cbn [fmap option_fmap option_map unwrap mbind res_bind]. rewrite Hw. cbn [mbind res_bind gd_level_work]. split; [done|lia].
Qed.
(** GHOSTDAG on the parents of the header. *)
Lemma ghostdag_placed : exists l cs bl, @ghostdag_result RS gm ps d l cs bl /\
  (selected_parent d <> ORIGIN -> exists spd, ghostdag_store st !! selected_parent d = Some spd /\ blue_work spd < blue_work d).
Proof using HI HR Hiso Hrel Hpl Hnew Hroot.
  destruct (ro_k _ _ HR) as [Hk0 Hk16]. pose proof (pl_ghostdag _ _ _ _ _ _ Hpl) as H. rewrite (not_elem_of_dom_1 _ _ new_gd), parents_known in H.
  destruct (@ghostdag_ok RS inv_laws _ _ gm RuleError Hk0 Hk16 (hi_good _ _ HI) ps inv_relations_ok (is_nonempty _ _ _ _ _ Hiso) parents_gd parents_apart W inv_works (ro_scores _ _ HR))
    as (d' & l & cs & bl & Hd & Hres & Hw). rewrite Hd in H. injection H as ->. exists l, cs, bl. split; [done|]. intros Ho.
  destruct (Hw Ho) as (spd & Hs & _ & Hlt). eauto.
Qed.

Abbreviation sp := (selected_parent d).
Abbreviation ms := (data_unordered_mergeset_without_selected_parent d).
Lemma mergeset_placed : sp ∈ ps /\ NoDup ms /\ forall x, x ∈ ms <-> @merged RS sp ps x.
Proof using HI HR Hiso Hrel Hpl Hnew Hroot.
  destruct ghostdag_placed as (l & cs & bl & H & _). split; [apply H|].
  assert (ms ≡ₚ cs) as E by (unfold data_unordered_mergeset_without_selected_parent; rewrite (gr_blues _ _ _ _ _ _ H); apply H).
  split; [rewrite E; apply H|]. intros x. rewrite E. apply H.
Qed.
Context (Hspace : interval_space st sp).
Lemma index_placed : exists s1 dn, add_block (index st) n sp ms = Ok s1 /\ index_ok ORIGIN s1 (dag_add D n sp ms) DEFAULT_REINDEX_SLACK /\
  dom (reach_map s1) = {[n]} ∪ dom (reach_map (index st)) /\ reach_map s1 !! n = Some dn /\ reindex_root s1 <> Some n /\
  Z.of_nat (size (reach_map s1)) + 2 ^ 15 * (height dn + 1) <= CAPACITY.
Proof using HI HR Hiso Hrel Hpl Hnew Hroot HnN Hspace.
  destruct mergeset_placed as (Hsp & Hnd & Hms). pose proof (hi_index _ _ HI) as I. pose proof (ix_reach _ _ _ _ I) as R.
  assert (knows sp) as [dp Hdp] by (by apply gd_knows, parents_gd). pose proof (ro_capacity _ _ HR sp dp Hdp) as Hcap.
  pose proof (to_height _ _ (ro_tree _ _ _ R) _ _ Hdp) as Hh.
  assert (reach_map (index st) !! n = None) as Hn by (apply eq_None_not_Some; rewrite <- gd_knows; apply new_gd).
  destruct (index_add_ok ORIGIN (index st) D DEFAULT_REINDEX_SLACK n sp dp ms I Hdp Hn HnN) as (s1 & H1 & I1 & Hdom & B).
  { done. } { change DEFAULT_REINDEX_SLACK with (2 ^ 14). lia. } { unfold CAPACITY in Hcap. lia. } { done. }
  { intros x Hx%Hms. destruct Hx as [Hx (p & Hp & Hxp)]. assert (knows x) as Kx by (eapply dag_closed; [exact R|apply gd_knows, (parents_gd p Hp)|exact Hxp]).
    split; [by destruct Kx as [dx ?]; exists dx|]. rewrite <- (dag_iff ORIGIN (index st) D R x sp Kx) by (by eexists). by rewrite (Hx : RS x sp = false). }
  { exact Hspace. }
  destruct (ba_new _ _ _ _ _ B) as (dn & Hdn & Hhn). exists s1, dn. split_and!; [done..| |].
  - rewrite (ba_root _ _ _ _ _ B). destruct (ix_root _ _ _ _ I) as (root & droot & -> & Hr & _). congruence.
  - assert (Z.of_nat (size (reach_map s1)) = Z.of_nat (size (reach_map (index st))) + 1) as ->; [|rewrite Hhn; lia].
    rewrite <- !size_dom, Hdom, size_union, size_singleton; [lia|]. intros y ->%elem_of_singleton Hy%elem_of_dom. destruct Hy. congruence.
Qed.
Lemma insert_new_ok {V} (m : gmap Hash V) h v : h ∉ dom m -> insert_new m h v = Ok (<[h := v]> m).
Proof. intros Hh%not_elem_of_dom_1. unfold insert_new. by rewrite Hh. Qed.

Record committed st' : Prop := {
  cm_inv : headers_inv st' (dag_add D n sp ms);
  cm_ghostdag : ghostdag_store st' = <[n := d]> (ghostdag_store st);
  cm_headers : headers_store st' = <[n := mkLevelHeader header level]> (headers_store st);
  cm_statuses : statuses_store st' = <[n := StatusHeaderOnly]> (statuses_store st);
  cm_tip : exists tip tip', headers_selected_tip_store st = Some tip /\ headers_selected_tip_store st' = Some tip' /\ tip_updated st header tip tip';
  cm_kept : pruning_point_store st' = pruning_point_store st /\ max_chain_work_seen_store st' = max_chain_work_seen_store st;
}.
(** The stores after the commit satisfy the invariant. *)
Lemma committed_inv s2 tip tip' rel rrel c1 c2 nd rt fp : index_ok ORIGIN s2 (dag_add D n sp ms) DEFAULT_REINDEX_SLACK ->
  dom (reach_map s2) = {[n]} ∪ dom (reach_map (index st)) -> headers_selected_tip_store st = Some tip -> tip_updated st header tip tip' ->
  insert_with_writer n ps (relations_store st) = (Ok tt, rel) -> insert_with_writer n ps (reachability_relations_store st) = (Ok tt, rrel) ->
  cache_usable c1 -> cache_usable c2 ->
  headers_inv (mkHeaderStores rel rrel s2 (<[n := d]> (ghostdag_store st)) (<[n := StatusHeaderOnly]> (statuses_store st)) (pruning_point_store st) (mkCaches c1 c2)
    (<[n := nd]> (daa_excluded_store st)) (<[n := mkLevelHeader header level]> (headers_store st)) (Some tip') (max_chain_work_seen_store st)
    (<[n := (rt, fp)]> (depth_store st))) (dag_add D n sp ms).
Proof using HI HR Hiso Hrel Hpl Hnew Hroot.
  intros I2 Hdom Htip Htip' E1 E2 C1 C2. destruct mergeset_placed as (Hsp & Hnd & Hms). pose proof (ix_reach _ _ _ _ (hi_index _ _ HI)) as R.
  pose proof (ix_reach _ _ _ _ I2) as R2. assert (reach_map (index st) !! n = None) as Hn by (apply eq_None_not_Some; rewrite <- gd_knows; apply new_gd).
  assert (forall p, p ∈ ps -> knows p) as Hpk by (intros p Hp; by apply gd_knows, parents_gd). destruct ghostdag_placed as (l & cs & bl & Hres & Hw).
  destruct (ro_k _ _ HR) as [Hk0 Hk16].
  assert (forall r, reach_relations RS r -> dom (rel_parents r) = dom (ghostdag_store st) -> forall r', insert_with_writer n ps r = (Ok tt, r') ->
    reach_relations (index_dag s2) r' /\ dom (rel_parents r') = {[n]} ∪ dom (ghostdag_store st)) as Hins.
  { intros r Hr Hd r' Er. destruct (relations_extended ORIGIN (index st) s2 D n sp ms ps R R2 Hdom Hn Hpk Hsp Hms r Hr) as (r1 & Er1 & Hr1 & Hd1).
    - intros h. by rewrite <- elem_of_dom, Hd, gd_knows.
    - apply parents_apart.
    - rewrite Er in Er1. injection Er1 as <-. by rewrite <- Hd. }
  destruct (Hins _ (hi_relations _ _ HI) (hi_relations_dom _ _ HI) _ E1) as [Hr1 Hd1].
  destruct (Hins _ (hi_reach_relations _ _ HI) (hi_reach_relations_dom _ _ HI) _ E2) as [Hr2 Hd2].
  split; cbn [reachability_store ghostdag_store relations_store reachability_relations_store headers_store daa_excluded_store depth_store statuses_store
    headers_selected_tip_store pruning_point_store window_caches block_window_cache_for_difficulty block_window_cache_for_past_median_time]; rewrite ?dom_insert_L.
  - done.
  - by apply (ext_trans ORIGIN (index st) s2 D n sp ms ps R Hdom Hn (hi_trans _ _ HI) Hpk Hsp Hms).
  - by apply (ext_anti (index st) s2 D n sp ms Hdom Hn (hi_anti _ _ HI)).
  - apply (good_extended ORIGIN (index st) s2 D n sp ms ps R R2 Hdom Hn (hi_trans _ _ HI) (hi_anti _ _ HI) Hpk Hsp Hms gm d l cs bl (hi_good _ _ HI) Hk0 Hk16);
      [intros h; apply gd_knows|apply inv_relations_ok|apply (is_nonempty _ _ _ _ _ Hiso)|apply parents_apart|done|done|done|apply (is_origin _ _ _ _ _ Hiso)|done].
  - done.
  - done.
  - by rewrite Hdom, (hi_index_dom _ _ HI).
  - done.
  - done.
  - rewrite (hi_headers _ _ HI). apply set_eq. intros x. rewrite !elem_of_union. tauto.
  - rewrite elem_of_union, elem_of_singleton. intros [H|H]; [|by apply (hi_origin _ _ HI)]. apply Hroot. by right.
  - by rewrite (hi_daa _ _ HI).
  - by rewrite (hi_depth _ _ HI).
  - intros h. rewrite elem_of_union, elem_of_singleton. destruct (decide (h = n)) as [->|Hne]; [rewrite lookup_insert_eq; by eexists|].
    rewrite lookup_insert_ne by done. intros [?|Hh]; [done|by apply (hi_status _ _ HI)].
  - intros h s. rewrite elem_of_union, elem_of_singleton. intros [[<- _]|[? Hs]]%lookup_insert_Some Hv; [by left|right; by apply (hi_valid _ _ HI h s)].
  - exists tip'. split; [done|]. rewrite elem_of_union, elem_of_singleton. destruct Htip' as [->|[-> _]]; [right|by left].
    destruct (hi_tip _ _ HI) as (tip0 & Ht & Hin). congruence.
  - destruct (hi_pp _ _ HI) as (pp & Hp & Hin). exists pp. split; [done|]. rewrite elem_of_union. by right.
  - done.
Qed.

Lemma header_commit_ok : exists st', commit_header self ctx header st = Ok st' /\ committed st'.
Proof using HI HR Hiso Hrel Hpl Hnew Hroot HnN Hspace.
  destruct index_placed as (s1 & dn & H1 & I1 & Hdom1 & Hdn & Hr1 & Hcap). destruct (hi_tip _ _ HI) as (tip & Htip & _).
  destruct (hi_pp _ _ HI) as (pp & Hpp & Hppd). pose proof (pl_pp _ _ _ _ _ _ Hpl) as Hpp'. rewrite Hpp in Hpp'. injection Hpp' as Hpp'.
  assert (ctx_hash ctx = n) as Hch by apply Hpl. destruct (promote_ok st s1 _ ctx header tip dn I1 Htip Hch) as (s2 & tip' & H2 & I2 & Hdom2 & Htip').
  { rewrite <- elem_of_dom, Hdom1, elem_of_union, (hi_index_dom _ _ HI), <- Hpp'. by right. }
  { by rewrite Hch. } { by rewrite Hch. } { done. }
  pose proof (ix_reach _ _ _ _ (hi_index _ _ HI)) as R. destruct mergeset_placed as (Hsp & Hnd & Hms).
  assert (reach_map (index st) !! n = None) as Hn by (apply eq_None_not_Some; rewrite <- gd_knows; apply new_gd). rewrite Hdom1 in Hdom2.
  assert (forall p, p ∈ ps -> knows p) as Hpk by (intros p Hp; by apply gd_knows, parents_gd).
  assert (forall r, reach_relations RS r -> dom (rel_parents r) = dom (ghostdag_store st) -> exists r', insert_with_writer n ps r = (Ok tt, r')) as Hins.
  { intros r Hr Hd. destruct (relations_extended ORIGIN (index st) s2 D n sp ms ps R (ix_reach _ _ _ _ I2) Hdom2 Hn Hpk Hsp Hms r Hr) as (r1 & Er1 & _); [|apply parents_apart|eauto].
    intros h. by rewrite <- elem_of_dom, Hd, gd_knows. }
  destruct (Hins _ (hi_relations _ _ HI) (hi_relations_dom _ _ HI)) as [rel Erel].
  destruct (Hins _ (hi_reach_relations _ _ HI) (hi_reach_relations_dom _ _ HI)) as [rrel Errel].
  destruct (hi_caches _ _ HI) as [C1 C2]. destruct (insert_window_ok _ n (block_window_for_difficulty ctx) C1) as (c1 & Ec1 & C1').
  destruct (insert_window_ok _ n (block_window_for_past_median_time ctx) C2) as (c2 & Ec2 & C2').
  destruct (pl_daa _ _ _ _ _ _ Hpl) as (w & _ & _ & _ & _ & Hnd'). destruct (pl_depth _ _ _ _ _ _ Hpl) as (root & fp & _ & _ & Hmr & Hfp & _).
  pose proof new_header as Hnh. eexists. split.
  - unfold commit_header, ghostdag_data. rewrite (pl_data _ _ _ _ _ _ Hpl), Hch, Hnd', Hmr, Hfp, (pl_header _ _ _ _ _ _ Hpl), (pl_level _ _ _ _ _ _ Hpl), parents_known.
    cbn [unwrap mbind res_bind]. rewrite !insert_new_ok by (apply new_gd || rewrite ?(hi_daa _ _ HI), ?(hi_depth _ _ HI); exact Hnh). cbn [mbind res_bind].
    rewrite Ec1. cbn [mbind res_bind]. rewrite Ec2. cbn [mbind res_bind]. rewrite H1. cbn [Reachability.unwrap_res mbind res_bind]. rewrite H2. cbn [mbind res_bind].
    unfold insert_relations. rewrite Erel, Errel. cbn [mbind res_bind]. reflexivity.
  - split; [by eapply committed_inv|done..| |done]. exists tip, tip'. done.
Qed.
End commit.


(** What a header leaves in the stores. *)
Lemma validate_header_cases st now header r st1 : validate_header self now header st = (r, st1) ->
  st1 = st \/ exists e ps level, r = Err e /\ isolated st now header ps level /\ related st header ps /\
    st1 = set_status st (h_hash header) StatusInvalid.
Proof.
  unfold validate_header, mbind, stm_bind, reading, post_pow_or_invalid.
  destruct (validate_header_in_isolation self st now header) as [level| | |] eqn:H1; [|intros; simplify_eq; by left..].
  destruct (validate_parent_relations st header) as [u| | |] eqn:H2; [|intros; simplify_eq; by left..].
  destruct (build_processing_context st header level) as [c1| | |] eqn:H3; [|intros; simplify_eq; by left..].
  destruct (run_ghostdag self st c1) as [c2| | |] eqn:H4; [|intros; simplify_eq; by left..].
  destruct (pre_pow_validation self st c2 header) as [c3| | |] eqn:H5; [|intros; simplify_eq; by left..].
  destruct (post_pow_validation self st c3 header) as [c4| | |] eqn:H6; intros [= <- <-]; [by left|right|by left..].
  destruct (isolation_inv _ _ _ _ H1) as [ps Hps]. eexists _, ps, level. split_and!; [done|done|by eapply relations_inv; [apply Hps|]|].
  f_equal. apply bind_ok in H3 as (pp & _ & H3). apply bind_ok in H3 as (kps & _ & H3). injection H3 as <-.
  apply bind_ok in H4 as (d & _ & H4). injection H4 as <-. apply bind_ok in H5 as (u1 & _ & H5).
  apply bind_ok in H5 as (d' & _ & H5). apply bind_ok in H5 as (w & _ & H5). apply bind_ok in H5 as (u2 & _ & H5).
  apply bind_ok in H5 as (bits & _ & H5). apply bind_ok in H5 as (u3 & _ & H5). by injection H5 as <-.
Qed.
Lemma validate_trusted_cases st now header r st1 : validate_trusted_header self now header st = (r, st1) ->
  st1 = st /\ forall ctx, r = Ok ctx -> ctx_hash ctx = h_hash header.
Proof.
  unfold validate_trusted_header, mbind, stm_bind, reading.
  destruct (validate_header_in_isolation self st now header) as [level| | |]; [|intros; by simplify_eq..].
  destruct (build_processing_context st header level) as [c1| | |] eqn:H3; [|intros; by simplify_eq..]. intros [= <- <-]. split; [done|].
  intros ctx H4. apply bind_ok in H3 as (pp & _ & H3). apply bind_ok in H3 as (kps & _ & H3). injection H3 as <-.
  apply bind_ok in H4 as (d & _ & H4). by injection H4 as <-.
Qed.
Lemma commit_statuses ctx header st st' : commit_header self ctx header st = Ok st' \/ commit_trusted_header ctx header st = Ok st' ->
  statuses_store st' = <[ctx_hash ctx := StatusHeaderOnly]> (statuses_store st).
Proof.
  intros [H|H]; unfold commit_header, commit_trusted_header in H; repeat (apply bind_ok in H as (? & _ & H)); [|by injection H as <-].
  match type of H with match ?x with _ => _ end = _ => destruct x as [index hst] end. repeat (apply bind_ok in H as (? & _ & H)). by injection H as <-.
Qed.
Lemma process_header_cases st now task r st' : process_header self now task st = (r, st') ->
  (st' = st /\ forall s, r = Ok s -> statuses_store st !! h_hash (task_header task) = Some s) \/
  statuses_store st !! h_hash (task_header task) = None /\
  ((exists e ps level, r = Err e /\ isolated st now (task_header task) ps level /\ related st (task_header task) ps /\
      st' = set_status st (h_hash (task_header task)) StatusInvalid) \/
   (r = Ok StatusHeaderOnly /\ statuses_store st' = <[h_hash (task_header task) := StatusHeaderOnly]> (statuses_store st))).
Proof.
  unfold process_header. intros H. destruct (statuses_store st !! h_hash (task_header task)) as [s|] eqn:Hs.
  { left. destruct s; simplify_eq; (split; [done|]); by intros ? [= <-]. }
  destruct task as [header|header]; cbn [task_header] in *; unfold mbind, stm_bind at 1 2 in H.
  - destruct (validate_header self now header st) as [r1 st1] eqn:Hv. destruct (validate_header_cases _ _ _ _ _ Hv) as [->|(e & ps & level & -> & ?)].
    + destruct r1 as [ctx| | |]; [|simplify_eq; left; split; [done|discriminate]..]. unfold writing in H.
      destruct (commit_header self ctx header st) eqn:Hc; unfold mret, stm_ret in H; simplify_eq; [|left; split; [done|discriminate]..]. right. split; [done|right]. split; [done|].
      destruct (validate_header_inv _ _ _ _ _ Hv) as (_ & ps & level & d & _ & _ & Hpl). rewrite <- (pl_hash _ _ _ _ _ _ Hpl). by eapply commit_statuses; left.
    + simplify_eq. right. split; [done|left]. by exists e, ps, level.
  - destruct (validate_trusted_header self now header st) as [r1 st1] eqn:Hv. destruct (validate_trusted_cases _ _ _ _ _ Hv) as [-> Hh].
    destruct r1 as [ctx| | |]; [|simplify_eq; left; split; [done|discriminate]..]. unfold writing in H.
    destruct (commit_trusted_header ctx header st) eqn:Hc; unfold mret, stm_ret in H; simplify_eq; [|left; split; [done|discriminate]..]. right. split; [done|right]. split; [done|].
    rewrite <- (Hh _ eq_refl). by eapply commit_statuses; right.
Qed.

(** C7. A rejected header leaves the stores as they were, except that it may be
    marked invalid; and it is marked only when its proof of work and all other
    checks in isolation passed, its parents are known and unrelated, and a rule
    that needs its context failed.  So headers without proof of work cannot
    write to the stores. *)
Theorem rejected_header_state st now task e st' (H : process_header self now task st = (Err e, st')) :
  st' = st \/
  exists ps level, isolated st now (task_header task) ps level /\ related st (task_header task) ps /\
    statuses_store st !! h_hash (task_header task) = None /\ st' = set_status st (h_hash (task_header task)) StatusInvalid.
Proof.
  apply process_header_cases in H as [[-> _]|(Hs & [(e' & ps & level & _ & Hi & Hr & ->)|[H _]])]; [by left|right|done].
  by exists ps, level.
Qed.
(** When proof of work is checked, an accepted header's DAA score is within two
    epochs above and 22 epochs below the selected tip. *)
Lemma accepted_daa_range st now header level tip th : validate_header_in_isolation self st now header = Ok level -> skip_proof_of_work self = false ->
  headers_selected_tip_store st = Some tip -> headers_store st !! sb_hash tip = Some th ->
  Header.h_daa_score (hl_header th) - EPOCH_LENGTH * 22 <= Header.h_daa_score header <= Header.h_daa_score (hl_header th) + EPOCH_LENGTH * 2.
Proof.
  unfold validate_header_in_isolation. intros H Hskip Htip Hth. do 4 (apply bind_ok in H as (? & _ & H)). apply bind_ok in H as (u & Hd & _).
  rewrite Hskip in Hd. unfold check_daa_score_pre_pow in Hd. rewrite Htip, Hth in Hd. apply fail_if_ok in Hd. lia.
Qed.
End processor.
