(* ===== verification/BodyProc.v ===== *)
(** * The body stage of the block pipeline

    [consensus/src/pipeline/body_processor/processor.rs] over the body checks of
    [BlockBody.v] and the header stage of [HeaderProc.v], with the stores it
    writes ([model/stores/tips.rs], [model/stores/block_transactions.rs], the set
    item of [database/src/item.rs]) and the routing of a processed block to the
    next stage ([queue_block] of both processors).

    The block result and virtual result channels, the notification and the
    counters are left out; a stage processes one block as one step. *)
From S2P Require Import Prelude Cache Encode Tx Hashing Header Merkle Svm Mass TxIsolation Dag Ghostdag Difficulty Coinbase BlockBody Window HeaderProc HeaderInv.

(** ** Stores *)
(** [CachedDbSetItem::update] *)
Definition set_item_update (added removed : list Hash) (set : gset Hash) : gset Hash :=
  let set := foldl (fun s x => s ∖ {[x]}) set removed in
  foldl (fun s x => {[x]} ∪ s) set added.
Definition add_tip (new_tip : Hash) (new_tip_parents : list Hash) (tips : gset Hash) : gset Hash :=
  set_item_update [new_tip] new_tip_parents tips.
Definition init_tips (initial_tips : list Hash) (tips : gset Hash) : gset Hash := set_item_update initial_tips [] tips.
Definition prune_tips (pruned_tips : list Hash) (tips : gset Hash) : gset Hash :=
  if bool_decide (pruned_tips = []) then tips else set_item_update [] pruned_tips tips.
Definition delete_all_tips (tips : gset Hash) : gset Hash := set_item_update [] (elements tips) tips.

Record BodyStores := mkBodyStores {
  header_stores : HeaderStores;
  block_transactions_store : gmap Hash (list Transaction);
  body_tips_store : gset Hash;
}.
Abbreviation statuses st := (statuses_store (header_stores st)).

(** ** Tasks *)
Inductive PipelineTask := OrdinaryBlock (block : Block) | TrustedBlock (block : Block).
Definition task_block (task : PipelineTask) : Block := match task with OrdinaryBlock b | TrustedBlock b => b end.
Definition is_trusted (task : PipelineTask) : bool := match task with TrustedBlock _ => true | OrdinaryBlock _ => false end.
Definition is_ordinary (task : PipelineTask) : bool := match task with OrdinaryBlock _ => true | TrustedBlock _ => false end.
Definition requires_virtual_processing (task : PipelineTask) : bool := is_ordinary task.
Definition is_header_only (b : Block) : bool := bool_decide (transactions b = []).
Definition header_task (task : PipelineTask) : BlockTask :=
  match task with OrdinaryBlock b => Ordinary (header b) | TrustedBlock b => Trusted (header b) end.
(** What the callback of [queue_block] does with a processed block: answer the
    caller, or pass the block on. *)
Inductive Routing := Answer (r : res RuleError BlockStatus) | ToNextStage.
Definition route_header (r : res RuleError BlockStatus) (task : PipelineTask) : Routing :=
  match r with
  | Ok _ => if is_header_only (task_block task) then Answer r else ToNextStage
  | _ => Answer r
  end.
Definition route_body (r : res RuleError BlockStatus) (task : PipelineTask) : Routing :=
  match r with
  | Ok _ => if negb (requires_virtual_processing task) then Answer r else ToNextStage
  | _ => Answer r
  end.

(** ** The processor *)
Record BlockBodyProcessor := mkBodyProcessor {
  bp_max_block_mass : u64;
  bp_genesis_hash : Hash;
  bp_genesis_coinbase_payload : bytes;
  bp_coinbase_manager : CoinbaseManager;
  bp_mass_calculator : MassCalculator;
  bp_transaction_validator : TransactionValidator;
}.
Section processor.
Context `{HS : Sha3} `{HB : Blake2b} `{WP : WasmParser} `{RX : RandomX} `{EC : !EvictChoice Hash (list SortableBlock)}.
Context `{!SetIter Hash, !HashIter Hash KType, !HashIter Hash (list Hash)}.
(** The header processor shares its stores and window manager. *)
Context (hp : HeaderProcessor) (self : BlockBodyProcessor).
Abbreviation R A := (res RuleError A).

Definition transaction_new (version : u16) (inputs : list TransactionInput) (outputs : list TransactionOutput) (lock_time : u64)
    (subnetwork_id : SubnetworkId) (gas : u64) (payload : bytes) : Transaction :=
  let tx id := {| version := version; inputs := inputs; outputs := outputs; lock_time := lock_time; subnetwork_id := subnetwork_id;
                  gas := gas; payload := payload; mass := 0; id := id |} in
  tx (calc_id (tx ZERO_HASH)).
Definition build_genesis_transactions : list Transaction :=
  [transaction_new 0 [] [] 0 SUBNETWORK_ID_COINBASE 0 (bp_genesis_coinbase_payload self)].

Definition median_time_cell (st : HeaderStores) (hash : Hash) : R (u64 * WindowCaches) :=
  calc_past_median_time_for_known_hash (window_manager hp st) (window_fuel st) (window_caches st) hash.
(** Whether the lock-time loop evaluates the lazy past median time. *)
Fixpoint forces_median_time (daa_score : u64) (txs : list Transaction) : bool :=
  match txs with
  | [] => false
  | tx :: txs =>
      match get_lock_time_type tx with
      | TypeTime => true
      | TypeFinalized => match validate_tx_in_header_context tx ArgFinalized with Ok _ => forces_median_time daa_score txs | _ => false end
      | TypeDaaScore => match validate_tx_in_header_context tx (ArgDaaScore daa_score) with Ok _ => forces_median_time daa_score txs | _ => false end
      end
  end.
(** The checks in context, and the window caches after them. *)
Definition body_in_context (st : HeaderStores) (b : Block) : R unit * WindowCaches :=
  let cm := bp_coinbase_manager self in
  let cell := median_time_cell st (h_hash (header b)) in
  let before :=
    _ ← check_parent_bodies_exist (statuses_store st) b;
    _ ← check_coinbase_blue_score_and_subsidy cm b;
    check_alt_creation_per_block_cap b in
  (validate_body_in_context cm (statuses_store st) ('(t, _) ← cell; Ok t) b,
   match before, cell with
   | Ok _, Ok (_, caches) => if forces_median_time (Header.h_daa_score (header b)) (transactions b) then caches else window_caches st
   | _, _ => window_caches st
   end).
Definition with_caches (st : HeaderStores) (c : WindowCaches) : HeaderStores :=
  mkHeaderStores (relations_store st) (reachability_relations_store st) (reachability_store st) (ghostdag_store st) (statuses_store st)
    (pruning_point_store st) c (daa_excluded_store st) (headers_store st) (headers_selected_tip_store st)
    (max_chain_work_seen_store st) (depth_store st).
Definition validate_body (b : Block) (is_trusted : bool) (st : HeaderStores) : R (Z * Z * Z) * HeaderStores :=
  match validate_body_in_isolation (bp_transaction_validator self) (bp_mass_calculator self) (bp_max_block_mass self) b with
  | Ok mass =>
      if is_trusted then (Ok mass, st) else
      let '(r, caches) := body_in_context st b in
      (_ ← r; Ok mass, with_caches st caches)
  | r => (r, st)
  end.
Definition commit_body (hash : Hash) (parents : list Hash) (txs : list Transaction) (st : BodyStores) : R BodyStores :=
  bodies ← insert_new (block_transactions_store st) hash txs;
  Ok (mkBodyStores (set_status (header_stores st) hash StatusUTXOPendingVerification) bodies (add_tip hash parents (body_tips_store st))).
(** The errors that reject the body and not the block. *)
Definition rejects_body_only (e : RuleError) : bool :=
  match e with BadMerkleRoot _ _ | MissingParents _ | PrunedBlock => true | _ => false end.
Definition process_body (b : Block) (is_trusted : bool) : stm BodyStores RuleError BlockStatus := fun st =>
  let hash := h_hash (header b) in
  match statuses st !! hash with
  | None => (Panic, st)
  | Some StatusInvalid => (Err KnownInvalid, st)
  | Some StatusHeaderOnly =>
      let '(r, hs) := validate_body b is_trusted (header_stores st) in
      let st := mkBodyStores hs (block_transactions_store st) (body_tips_store st) in
      match r with
      | Err e =>
          (Err e, if negb (rejects_body_only e)
                  then mkBodyStores (set_status hs hash StatusInvalid) (block_transactions_store st) (body_tips_store st)
                  else st)
      | Panic => (Panic, st)
      | NoFuel => (NoFuel, st)
      | Ok _ =>
          match (parents ← direct_parents (header b); commit_body hash parents (transactions b) st) with
          | Ok st => (Ok StatusUTXOPendingVerification, st)
          | Err e => (Err e, st)
          | Panic => (Panic, st)
          | NoFuel => (NoFuel, st)
          end
      end
  | Some status => if has_block_body status then (Ok status, st) else (Panic, st)
  end.
Definition process_genesis_body (st : BodyStores) : R BodyStores :=
  commit_body (bp_genesis_hash self) [] build_genesis_transactions
    (mkBodyStores (header_stores st) (block_transactions_store st) (init_tips [] (body_tips_store st))).
End processor.

(** ** Tips *)
Lemma removed_spec l : forall (s : gset Hash) h, h ∈ foldl (fun s x => s ∖ {[x]}) s l <-> h ∈ s /\ h ∉ l.
Proof.
  induction l as [|x l IH]; intros s h; cbn [foldl]; [rewrite elem_of_nil; tauto|].
  rewrite IH, elem_of_difference, elem_of_singleton, elem_of_cons. tauto.
Qed.
Lemma added_spec l : forall (s : gset Hash) h, h ∈ foldl (fun s x => {[x]} ∪ s) s l <-> h ∈ s \/ h ∈ l.
Proof.
  induction l as [|x l IH]; intros s h; cbn [foldl]; [rewrite elem_of_nil; tauto|].
  rewrite IH, elem_of_union, elem_of_singleton, elem_of_cons. tauto.
Qed.
Lemma set_item_update_spec added removed s h : h ∈ set_item_update added removed s <-> (h ∈ s /\ h ∉ removed) \/ h ∈ added.
Proof. unfold set_item_update. by rewrite added_spec, removed_spec. Qed.
Lemma add_tip_spec n ps s h : h ∈ add_tip n ps s <-> (h ∈ s /\ h ∉ ps) \/ h = n.
Proof. unfold add_tip. by rewrite set_item_update_spec, list_elem_of_singleton. Qed.
Lemma delete_all_tips_empty s : delete_all_tips s = ∅.
Proof. apply set_eq. intros h. unfold delete_all_tips. rewrite set_item_update_spec, elem_of_elements, elem_of_nil, elem_of_empty. tauto. Qed.

(** ** Which blocks have a body *)
Definition has_body (m : gmap Hash BlockStatus) (h : Hash) : Prop := exists s, m !! h = Some s /\ has_block_body s = true.
Lemma has_body_insert m h s q : has_body (<[h := s]> m) q <-> (h = q /\ has_block_body s = true) \/ (h <> q /\ has_body m q).
Proof.
  unfold has_body. destruct (decide (h = q)) as [->|Hne].
  - rewrite lookup_insert_eq. split; [intros (? & [= <-] & ?); tauto|]. intros [[_ ?]|[]]; [eauto|done].
  - rewrite lookup_insert_ne by done. tauto.
Qed.
Lemma has_body_not m h s : m !! h = Some s -> has_block_body s = false -> ~ has_body m h.
Proof. intros H Hs (s' & H' & Hb). congruence. Qed.
Lemma has_body_unchanged m h s q : ~ has_body m h -> has_block_body s = false -> has_body (<[h := s]> m) q <-> has_body m q.
Proof. intros Hm Hs. rewrite has_body_insert, Hs. split; [by intros [[_ [=]]|[_ ?]]|]. intros ?. right. split; [by intros ->|done]. Qed.

Section bodies.
Context `{HS : Sha3} `{HB : Blake2b} `{WP : WasmParser} `{RX : RandomX} `{EC : !EvictChoice Hash (list SortableBlock)}.
Context `{!SetIter Hash, !HashIter Hash KType, !HashIter Hash (list Hash)}.
Context (hp : HeaderProcessor) (self : BlockBodyProcessor).
(** A block hash commits to the direct parents. *)
Context (parents_of : Hash -> list Hash).

(** Exactly the blocks with a body status have stored transactions, so have the
    parents of such a block, and the body tips are the blocks with a body that
    no block with a body has as a parent. *)
Record body_inv (st : BodyStores) : Prop := {
  bi_bodies h : is_Some (block_transactions_store st !! h) <-> has_body (statuses st) h;
  bi_closed h p : has_body (statuses st) h -> p ∈ parents_of h -> has_body (statuses st) p;
  bi_tips h : h ∈ body_tips_store st <-> has_body (statuses st) h /\ forall c, has_body (statuses st) c -> h ∉ parents_of c;
}.
(** The invariant only reads which blocks have a body. *)
Lemma body_inv_ext st st' : body_inv st -> (forall q, has_body (statuses st') q <-> has_body (statuses st) q) ->
  block_transactions_store st' = block_transactions_store st -> body_tips_store st' = body_tips_store st -> body_inv st'.
Proof using.
  intros I Hq Ht Hp. split.
  - intros h. rewrite Ht, Hq. apply I.
  - intros h p. rewrite !Hq. apply I.
  - intros h. rewrite Hp, Hq, (bi_tips _ I). by setoid_rewrite Hq.
Qed.
Lemma commit_body_inv st h ps txs : body_inv st -> parents_of h = ps -> h ∉ ps -> ~ has_body (statuses st) h ->
  (forall p, p ∈ ps -> has_body (statuses st) p) ->
  exists st', commit_body h ps txs st = Ok st' /\ body_inv st' /\
    statuses st' = <[h := StatusUTXOPendingVerification]> (statuses st) /\ block_transactions_store st' = <[h := txs]> (block_transactions_store st).
Proof using.
  intros I <- Hself Hno Hps. unfold commit_body, insert_new.
  assert (block_transactions_store st !! h = None) as -> by (apply eq_None_not_Some; by rewrite (bi_bodies _ I)).
  eexists. split; [done|]. split; [|done]. split; cbn [block_transactions_store header_stores body_tips_store statuses_store set_status].
  - intros q. rewrite has_body_insert, <- (bi_bodies _ I). destruct (decide (h = q)) as [->|]; simplify_map_eq; [split; eauto; by left|tauto].
  - intros q p. rewrite !has_body_insert. intros [[<- _]|[_ Hq]] Hp.
    + destruct (decide (h = p)) as [->|]; [by left|right]. auto.
    + destruct (decide (h = p)) as [->|]; [by left|right]. split; [done|]. by eapply bi_closed.
  - intros q. rewrite add_tip_spec, (bi_tips _ I), has_body_insert. setoid_rewrite has_body_insert. split.
    + intros [((Hq & Hc) & Hn)| ->].
      * split; [right; split; [by intros ->|done]|]. intros c [[<- _]|[_ Hb]]; auto.
      * split; [by left|]. intros c [[<- _]|[_ Hb]]; [done|]. intros Hin. by apply Hno, (bi_closed _ I c).
    + intros [[[-> _]|[Hne Hq]] Hc]; [by right|left]. split; [split; [done|]|]; [|apply Hc; by left].
      intros c Hb. apply Hc. destruct (decide (h = c)) as [->|]; auto.
Qed.
Lemma validate_body_statuses b t hs : statuses_store (validate_body hp self b t hs).2 = statuses_store hs.
Proof using.
  unfold validate_body. destruct (validate_body_in_isolation _ _ _ _); [|done..]. destruct t; [done|].
  by destruct (body_in_context _ _ _ _).
Qed.
Lemma validate_body_ok b hs m : (validate_body hp self b false hs).1 = Ok m ->
  validate_body_in_isolation (bp_transaction_validator self) (bp_mass_calculator self) (bp_max_block_mass self) b = Ok m /\
  (body_in_context hp self hs b).1 = Ok tt.
Proof using.
  unfold validate_body. destruct (validate_body_in_isolation _ _ _ _); [|done..]. destruct (body_in_context _ _ _ _) as [r c].
  cbn [fst]. intros H. apply bind_ok in H as ([] & H & Hm). split; [exact Hm|done].
Qed.
Lemma parent_bodies_inv m b ps u : direct_parents (E:=RuleError) (header b) = Ok ps -> check_parent_bodies_exist m b = Ok u ->
  forall p, p ∈ ps -> has_body m p.
Proof using.
  unfold check_parent_bodies_exist. intros Hd H p Hp. rewrite Hd in H. cbn in H. apply fail_if_ok in H.
  apply negb_false_iff, bool_decide_eq_true in H.
  destruct (m !! p) as [s|] eqn:Hs; [destruct (has_block_body s) eqn:Hb; [by exists s|]|]; exfalso;
    (assert (p ∈ filter (fun p => match m !! p with None => true | Some s => negb (has_block_body s) end = true) ps) as Hf
       by (apply list_elem_of_filter; by rewrite Hs, ?Hb)); rewrite H in Hf; by apply elem_of_nil in Hf.
Qed.
Lemma context_parents b hs ps u : direct_parents (E:=RuleError) (header b) = Ok ps -> (body_in_context hp self hs b).1 = Ok u ->
  forall p, p ∈ ps -> has_body (statuses_store hs) p.
Proof using. intros Hd H. cbn in H. unfold validate_body_in_context in H. bind_inv H. by eapply parent_bodies_inv. Qed.

(** The status a processed body leaves. *)
Definition status_after (e : RuleError) : BlockStatus := if rejects_body_only e then StatusHeaderOnly else StatusInvalid.
Lemma process_body_cases b t st :
  let h := h_hash (header b) in
  let '(r, st') := process_body hp self b t st in
  match statuses st !! h with
  | None => r = Panic /\ st' = st
  | Some StatusHeaderOnly =>
      let '(v, hs) := validate_body hp self b t (header_stores st) in
      match v with
      | Ok _ => match (parents ← direct_parents (header b); commit_body h parents (transactions b) (mkBodyStores hs (block_transactions_store st) (body_tips_store st))) with
                | Ok st1 => r = Ok StatusUTXOPendingVerification /\ st' = st1
                | _ => r <> Ok StatusUTXOPendingVerification
                end
      | Err e => r = Err e /\ statuses st' = <[h := status_after e]> (statuses st) /\
                 block_transactions_store st' = block_transactions_store st /\ body_tips_store st' = body_tips_store st
      | Panic => r = Panic
      | NoFuel => r = NoFuel
      end
  | Some StatusInvalid => r = Err KnownInvalid /\ st' = st
  | Some s => r = Ok s /\ st' = st
  end.
Proof using.
  cbn zeta. unfold process_body. destruct (statuses st !! h_hash (header b)) as [[]|] eqn:Hs; try done.
  pose proof (validate_body_statuses b t (header_stores st)) as Hst.
  destruct (validate_body hp self b t (header_stores st)) as [v hs]. cbn [snd] in Hst. destruct v as [m|e| |]; [|..|done|done].
  - by destruct (parents ← direct_parents (header b); commit_body _ parents _ _).
  - unfold status_after. destruct (rejects_body_only e); cbn; rewrite Hst; split_and!; try done. by rewrite insert_id.
Qed.

Lemma process_body_spec b st :
  let h := h_hash (header b) in
  body_inv st -> direct_parents (E:=RuleError) (header b) = Ok (parents_of h) -> h ∉ parents_of h -> is_Some (statuses st !! h) ->
  let '(r, st') := process_body hp self b false st in
  match r with
  | Ok s => body_inv st' /\ statuses st' !! h = Some s /\ has_block_body s = true /\
            exists txs, block_transactions_store st' !! h = Some txs /\ (has_body (statuses st) h \/ txs = transactions b)
  | Err e => body_inv st' /\ statuses st' !! h = Some (status_after e) /\
             block_transactions_store st' = block_transactions_store st /\ body_tips_store st' = body_tips_store st
  | Panic => (validate_body hp self b false (header_stores st)).1 = Panic
  | NoFuel => (validate_body hp self b false (header_stores st)).1 = NoFuel
  end.
Proof using.
  cbn zeta. intros I Hd Hself [s Hs]. pose proof (process_body_cases b false st) as H. cbn zeta in H.
  destruct (process_body hp self b false st) as [r st']. rewrite Hs in H.
  assert (has_block_body s = true -> exists txs, block_transactions_store st !! h_hash (header b) = Some txs /\ (has_body (statuses st) (h_hash (header b)) \/ txs = transactions b)) as Hbody.
  { intros Hb. assert (has_body (statuses st) (h_hash (header b))) as Hh by (by exists s). pose proof Hh as [txs ?]%(bi_bodies _ I). exists txs. eauto. }
  destruct s; [by destruct H as [-> ->]|destruct H as [-> ->]; eauto..|].
  assert (~ has_body (statuses st) (h_hash (header b))) as Hno by (by eapply has_body_not).
  pose proof (validate_body_statuses b false (header_stores st)) as Hst.
  pose proof (fun m => validate_body_ok b (header_stores st) m) as Hok.
  destruct (validate_body hp self b false (header_stores st)) as [v hs]. cbn [fst snd] in *. destruct v as [m|e| |]; [|..|by subst|by subst].
  - rewrite Hd in H. cbn [mbind res_bind] in H. destruct (Hok m eq_refl) as [_ Hc].
    destruct (commit_body_inv (mkBodyStores hs (block_transactions_store st) (body_tips_store st)) (h_hash (header b)) (parents_of (h_hash (header b))) (transactions b)) as (st1 & Hcm & I1 & Hs1 & Ht1);
      [|done|done|cbn; by rewrite Hst|cbn; rewrite Hst; by eapply context_parents|].
    { eapply body_inv_ext; [exact I|cbn; by rewrite Hst|done|done]. }
    rewrite Hcm in H. destruct H as [-> ->]. split; [done|]. rewrite Hs1, Ht1, !lookup_insert_eq. split_and!; [done|done|]. exists (transactions b). by split; [|right].
  - destruct H as (-> & Hs' & Ht & Hp). split_and!; [|by rewrite Hs', lookup_insert_eq|done|done].
    eapply body_inv_ext; [exact I| |done|done]. intros q. rewrite Hs'. apply has_body_unchanged; [done|]. by destruct e.
Qed.
End bodies.
