(* ===== verification/HeaderRun.v ===== *)
(** * From genesis on

    The stores a new node starts from, the genesis block, and sequences of
    headers ([consensus/src/consensus/storage.rs], [HeaderProcessor::init] and
    [process_genesis]): the invariant of [HeaderInv] holds from genesis on.
    Then the promotion of headers to selected tip, whose floor is the work of
    the virtual block. *)
From S2P Require Import Prelude Cache Encode Tx Header Uint Target Interval Reachability ReachTree Reindex ReachOps ReachHint Dag Chain Parents Ghostdag Relations Difficulty BlockDepth Coinbase BlockBody Window ReachService HeaderProc HeaderInv.

Section start.
Context `{HB : Blake2b} `{RX : RandomX} `{EC : !EvictChoice Hash (list SortableBlock)}.
Context `{!SetIter Hash, !HashIter Hash KType, !HashIter Hash (list Hash)}.
Context (self : HeaderProcessor).
Abbreviation g := (h_hash (hp_genesis self)).

(** The stores of a new node: the index and the reachability relations hold the
    origin, and the pruning point is genesis. *)
Definition initial_stores (caches : WindowCaches) : res RuleError HeaderStores :=
  index ← Reachability.unwrap_res (init new_store);
  reach_relations ← match rel_init (mkRelations ∅ ∅) with (Ok _, r) => Ok r | (_, _) => Panic end;
  Ok (mkHeaderStores (mkRelations ∅ ∅) reach_relations index ∅ ∅ (Some g) caches ∅ ∅ None 0 ∅).
Definition genesis_stores (caches : WindowCaches) : res RuleError HeaderStores :=
  st ← initial_stores caches;
  st ← processor_init st;
  process_genesis self st.

Context (Hg : g <> ORIGIN) (HgN : g <> NONE) (Hwork : h_blue_work (hp_genesis self) = 0).
Abbreviation origin_dag := (fun x y : Hash => x = ORIGIN /\ y = ORIGIN).
Abbreviation genesis_dag := (dag_add origin_dag g ORIGIN []).
Definition origin_relations : Relations := mkRelations {[ORIGIN := []]} ∅.

Lemma origin_index_dag s (R : reach_ok ORIGIN s origin_dag) a b : index_dag s a b = true <-> a = b.
Proof. rewrite (answer_dag ORIGIN s origin_dag R). naive_solver. Qed.
Lemma origin_lookup h ps : rel_parents origin_relations !! h = Some ps -> h = ORIGIN /\ ps = [].
Proof. cbn [rel_parents origin_relations]. rewrite lookup_singleton_Some. naive_solver. Qed.
Lemma origin_reach_relations s : reach_ok ORIGIN s origin_dag -> reach_relations (index_dag s) origin_relations.
Proof.
  intros R. split; [split| |].
  - intros h ps p [-> ->]%origin_lookup. by intros ?%elem_of_nil.
  - intros h ps [-> ->]%origin_lookup. constructor.
  - intros p c. unfold bucket. cbn [rel_children origin_relations]. rewrite lookup_empty. cbn [default]. rewrite elem_of_empty. split; [done|].
    intros (ps & [-> ->]%origin_lookup & ?%elem_of_nil). done.
  - intros c ps a [-> ->]%origin_lookup. rewrite (origin_index_dag s R). split; [by left|]. intros [?|(p & ?%elem_of_nil & _)]; done.
  - intros c ps p q [-> ->]%origin_lookup. by intros ?%elem_of_nil.
Qed.
Lemma genesis_block_index : exists s s1, init new_store = Ok s /\ add_block s g ORIGIN [] = Ok s1 /\
  reach_ok ORIGIN s origin_dag /\ dom (reach_map s) = {[ORIGIN]} /\
  index_ok ORIGIN s1 genesis_dag DEFAULT_REINDEX_SLACK /\ dom (reach_map s1) = {[g]} ∪ {[ORIGIN]}.
Proof using Hg HgN.
  destruct init_index_ok as (s & Hs & I & Hm). assert (dom (reach_map s) = {[ORIGIN]}) as Hd by (rewrite Hm; apply dom_singleton_L).
  destruct (index_add_ok ORIGIN s origin_dag DEFAULT_REINDEX_SLACK g ORIGIN (new_data NONE Interval.maximal 0) [] I) as (s1 & H1 & I1 & Hd1 & _).
  - rewrite Hm. apply lookup_singleton_eq.
  - rewrite Hm. by apply lookup_singleton_ne.
  - done.
  - done.
  - rewrite Hm, map_size_singleton. vm_compute. reflexivity.
  - vm_compute. reflexivity.
  - constructor.
  - by intros x ?%elem_of_nil.
  - left. exists (mkInterval 1 (2 ^ 64 - 3)). split; [|done].
    unfold interval_remaining_after, interval_children_capacity, get_interval, Reachability.get_children, get_data. rewrite Hm. reflexivity.
  - exists s, s1. split_and!; [done|done|apply I|done|done|]. by rewrite Hd1, Hd.
Qed.
Abbreviation genesis_gd := (<[g := genesis_ghostdag_data]> {[ORIGIN := origin_ghostdag_data]} : GhostdagStore).
Lemma genesis_good s (R : reach_ok ORIGIN s genesis_dag) : dom (reach_map s) = {[g]} ∪ {[ORIGIN]} -> @good (index_dag s) g (hp_k self) genesis_gd.
Proof using Hg HgN Hwork.
  intros Hd. assert (forall h d, genesis_gd !! h = Some d -> h = g /\ d = genesis_ghostdag_data \/ h = ORIGIN /\ d = origin_ghostdag_data) as Hl.
  { intros h d. rewrite lookup_insert_Some, lookup_singleton_Some. intros [[<- <-]|[_ [<- <-]]]; auto. }
  assert (forall h, h = g \/ h = ORIGIN -> is_Some (reach_map s !! h)) as Hk by (intros h Hh; rewrite <- elem_of_dom, Hd; set_solver).
  assert (forall h d, genesis_gd !! h = Some d -> is_root g h) as Hroots by (intros h d H; destruct (Hl h d H) as [[-> _]|[-> _]]; [by left|by right]).
  split.
  - intros r d Hr H. split; [by destruct (Hl r d H) as [[_ ->]|[_ ->]]|]. intros x [dx Hx]%elem_of_dom Ho. unfold is_dag_ancestor_of.
    apply (answer_dag ORIGIN s genesis_dag R). destruct (Hl x dx Hx) as [[-> _]|[-> _]], Hr as [->| ->]; [by right|left|naive_solver|by right].
    split_and!; [by apply Hk; right|by apply Hk; left|]. right. auto.
  - intros h d H Hr. by destruct (Hr (Hroots h d H)).
  - intros h d b H Hb. destruct (Hl h d H) as [[_ ->]|[_ ->]]; by apply elem_of_nil in Hb.
  - intros h d H Hr. by destruct (Hr (Hroots h d H)).
  - intros h d l H Hr. by destruct (Hr (Hroots h d H)).
  - intros a b da db Ha Hb Hao Hr Hne. exfalso. unfold is_dag_ancestor_of in Hr. apply (answer_dag ORIGIN s genesis_dag R) in Hr as [(_ & _ & H)|?]; [|done].
    destruct (Hl a da Ha) as [[-> _]|[-> _]], (Hl b db Hb) as [[-> _]|[-> _]]; unfold dag_add in H; naive_solver.
Qed.
Definition origin_stores (s : MemoryReachabilityStore) (caches : WindowCaches) : HeaderStores :=
  mkHeaderStores origin_relations origin_relations s {[ORIGIN := origin_ghostdag_data]} ∅ (Some g) caches ∅ ∅ (Some (mkSortable ORIGIN 0)) 0 ∅.
Lemma initial_origin s caches : init new_store = Ok s -> (st ← initial_stores caches; processor_init st) = Ok (origin_stores s caches).
Proof. intros Hs. unfold initial_stores. rewrite Hs. reflexivity. Qed.
Lemma process_genesis_origin s s1 rel caches : add_block s g ORIGIN [] = Ok s1 -> insert_with_writer g [ORIGIN] origin_relations = (Ok tt, rel) ->
  process_genesis self (origin_stores s caches) = Ok (mkHeaderStores rel rel s1 genesis_gd {[g := StatusHeaderOnly]} (Some g) caches {[g := ∅]}
    {[g := mkLevelHeader (hp_genesis self) (max_block_level self)]} (Some (mkSortable g 0)) 0 {[g := (ORIGIN, ORIGIN)]}).
Proof using Hg Hwork.
  intros Hs1 Er. assert (g ∉ dom ({[ORIGIN := origin_ghostdag_data]} : GhostdagStore)) as Hd by (rewrite dom_singleton_L; by intros ?%elem_of_singleton).
  unfold process_genesis, commit_header, origin_stores.
  cbn -[add_block insert_with_writer insert_new ORIGIN]. rewrite (insert_new_ok _ _ _ Hd). cbn -[add_block insert_with_writer insert_new ORIGIN].
  rewrite !insert_new_ok by (by rewrite dom_empty_L). cbn -[add_block insert_with_writer insert_new ORIGIN].
  change (data_unordered_mergeset_without_selected_parent genesis_ghostdag_data) with (@nil Hash). rewrite Hs1. cbn -[insert_with_writer ORIGIN].
  rewrite Hwork. unfold sortable_cmp. cbn -[insert_with_writer ORIGIN]. rewrite Z.compare_refl. cbn -[insert_with_writer ORIGIN].
  unfold insert_relations. rewrite Er. cbn. by destruct caches.
Qed.
(** Genesis is committed to the stores of a new node, and the invariant holds
    there. *)
Lemma genesis_relations s s1 : reach_ok ORIGIN s origin_dag -> dom (reach_map s) = {[ORIGIN]} -> reach_ok ORIGIN s1 genesis_dag ->
  dom (reach_map s1) = {[g]} ∪ {[ORIGIN]} -> exists rel, insert_with_writer g [ORIGIN] origin_relations = (Ok tt, rel) /\
    reach_relations (index_dag s1) rel /\ dom (rel_parents rel) = {[g]} ∪ {[ORIGIN]}.
Proof using Hg.
  intros R Hd R1 Hd1. assert (reach_map s !! g = None) as Hn by (apply not_elem_of_dom; rewrite Hd; by intros ?%elem_of_singleton).
  assert (forall h, is_Some (rel_parents origin_relations !! h) <-> is_Some (reach_map s !! h)) as Hk.
  { intros h. rewrite <- !elem_of_dom, Hd. cbn [rel_parents origin_relations]. by rewrite dom_singleton_L. }
  assert (forall x, x ∈ ([] : list Hash) <-> @merged (index_dag s) ORIGIN [ORIGIN] x) as Hms.
  { intros x. rewrite elem_of_nil. split; [done|]. intros [H1 (p & ->%list_elem_of_singleton & H2)]. congruence. }
  destruct (relations_extended ORIGIN s s1 origin_dag g ORIGIN [] [ORIGIN] R R1) with (rel := origin_relations) as (rel & Er & Hr & Hrd).
  - by rewrite Hd1, Hd.
  - done.
  - intros p ->%list_elem_of_singleton. rewrite <- elem_of_dom, Hd. by apply elem_of_singleton.
  - left.
  - done.
  - by apply origin_reach_relations.
  - done.
  - by intros a b ->%list_elem_of_singleton ->%list_elem_of_singleton.
  - exists rel. split_and!; [done..|]. rewrite Hrd. cbn [rel_parents origin_relations]. by rewrite dom_singleton_L.
Qed.
Lemma genesis_inv caches : cache_usable (block_window_cache_for_difficulty caches) -> cache_usable (block_window_cache_for_past_median_time caches) ->
  exists st, genesis_stores caches = Ok st /\ headers_inv self st genesis_dag /\ headers_store st = {[g := mkLevelHeader (hp_genesis self) (max_block_level self)]} /\
    ghostdag_store st = genesis_gd /\ statuses_store st = {[g := StatusHeaderOnly]}.
Proof using Hg HgN Hwork.
  intros C1 C2. destruct genesis_block_index as (s & s1 & Hs & Hs1 & R & Hd & I1 & Hd1). pose proof (ix_reach _ _ _ _ I1) as R1.
  destruct (genesis_relations s s1 R Hd R1 Hd1) as (rel & Er & Hr & Hrd). eexists. split.
  { unfold genesis_stores. pose proof (initial_origin s caches Hs) as Hi. apply bind_ok in Hi as (st0 & -> & Hi). cbn [mbind res_bind]. rewrite Hi. cbn [mbind res_bind].
    by apply (process_genesis_origin s s1). }
  split; [|done]. assert (dom genesis_gd = {[g]} ∪ {[ORIGIN]}) as Hgd by (by rewrite dom_insert_L, dom_singleton_L).
  assert (forall a, is_Some (reach_map s1 !! a) -> a = g \/ a = ORIGIN) as Hk by (intros a; rewrite <- elem_of_dom, Hd1, elem_of_union, !elem_of_singleton; done).
  split; cbn [reachability_store ghostdag_store relations_store reachability_relations_store headers_store daa_excluded_store depth_store statuses_store
    headers_selected_tip_store pruning_point_store window_caches]; rewrite ?Hgd, ?dom_singleton_L; try done.
  - intros a b c Ka%Hk Kb%Hk Kc%Hk. unfold dag_add. naive_solver.
  - intros a b Ka%Hk Kb%Hk. unfold dag_add. naive_solver.
  - by apply genesis_good.
  - by rewrite (comm_L (∪)).
  - by intros ?%elem_of_singleton.
  - intros h ->%elem_of_singleton. rewrite lookup_singleton_eq. by eexists.
  - intros h x [<- _]%lookup_singleton_Some _. by apply elem_of_singleton.
  - eexists. split; [done|]. by apply elem_of_singleton.
  - exists g. split; [done|]. rewrite elem_of_union, elem_of_singleton. by left.
Qed.
End start.

(** ** A small network

    Blocks of the lowest difficulty on one level, a proof of work that always
    succeeds, and blocks 2 and 3 on genesis. *)
Module Small.
#[export] Existing Instance toy_blake2b.
#[export] Instance zero_randomx : RandomX := fun _ _ => repeat 0 32.
#[export] Instance small_set_iter : SetIter Hash := elements_iter Hash.
#[export] Instance small_iter : HashIter Hash KType := map_to_list_iter _ _.
#[export] Instance small_refs_iter : HashIter Hash (list Hash) := map_to_list_iter _ _.
Definition small_header (hash : Hash) (parents : CompressedParents) (timestamp daa_score : u64) (blue_work : Z) (blue_score : u64) : Header :=
  mkHeader hash 1 parents 0 0 0 timestamp 0x207fffff 0 daa_score blue_work blue_score 1.
Definition processor : HeaderProcessor :=
  mkHeaderProcessor (small_header 1 [] 1000 0 0 0) 132 10 180 false 0 0 18 3600 43200 (u320_from_u256 (from_compact_target_bits 0x207fffff)) 1000 10 5 1 10 1.
Definition small_caches : WindowCaches := mkCaches (db_cache_new (Count 10)) (db_cache_new (Count 10)).
Definition header2 : Header := small_header 2 [(1, [1])] 2000 0 2 1.
Definition header3 : Header := small_header 3 [(1, [1])] 2000 0 2 1.
Definition now : u64 := 10000.
Definition at_genesis : HeaderStores := match genesis_stores processor small_caches with Ok st => st | _ => origin_stores processor new_store small_caches end.
Lemma small_caches_usable : cache_usable (block_window_cache_for_difficulty small_caches) /\ cache_usable (block_window_cache_for_past_median_time small_caches).
Proof.
  assert (cache_usable (db_cache_new (Count 10))) as H; [|done]. exists (fun _ => None). apply db_cache_new_ok. split; [done|done|]. cbn. lia.
Qed.
Lemma small_genesis : headers_inv processor at_genesis (dag_add (fun x y => x = ORIGIN /\ y = ORIGIN) 1 ORIGIN []) /\
  headers_store at_genesis = {[1 := mkLevelHeader (hp_genesis processor) 0]} /\ statuses_store at_genesis = {[1 := StatusHeaderOnly]}.
Proof.
  destruct small_caches_usable as [C1 C2]. destruct (genesis_inv processor ltac:(done) ltac:(done) eq_refl small_caches C1 C2) as (st & E & HI & Hh & _ & Hs).
  unfold at_genesis. rewrite E. exact (conj HI (conj Hh Hs)).
Qed.
Lemma small_room : headers_room processor at_genesis 2.
Proof.
  split.
  - done.
  - intros h hh. rewrite (proj1 (proj2 small_genesis)). intros [<- <-]%lookup_singleton_Some. eexists. split; [vm_compute; reflexivity|done].
  - change (map_Forall (fun (_ : Hash) d => 0 <= blue_score d /\ blue_score d + 18 + 1 < 2 ^ 64 /\ 0 <= blue_work d /\ blue_work d + (18 + 1) * 2 < 2 ^ 192)
      (ghostdag_store at_genesis)). apply (bool_decide_unpack _). vm_compute. exact I.
  - change (map_Forall (fun (_ : Hash) dh => Z.of_nat (size (reach_map (reachability_store at_genesis))) + 2 ^ 15 * (height dh + 2) < CAPACITY)
      (reach_map (reachability_store at_genesis))). apply (bool_decide_unpack _). vm_compute. exact I.
Qed.
Lemma small_space p : p ∈ dom (headers_store at_genesis) -> interval_space at_genesis p.
Proof.
  rewrite (proj1 (proj2 small_genesis)), dom_singleton_L. intros ->%elem_of_singleton. left. eexists. split; [vm_compute; reflexivity|done].
Qed.
(** A header with a wrong blue score is marked invalid. *)
Definition bad_header : Header := small_header 2 [(1, [1])] 2000 0 2 7.
Lemma rejected_header_state_witness : exists e st', process_header processor now (Ordinary bad_header) at_genesis = (Err e, st') /\
  (st' = at_genesis \/ exists ps level, isolated processor at_genesis now bad_header ps level /\ related at_genesis bad_header ps /\
    statuses_store at_genesis !! 2 = None /\ st' = set_status at_genesis 2 StatusInvalid).
Proof.
  destruct (process_header processor now (Ordinary bad_header) at_genesis) as [[s|e| |] st'] eqn:E; [vm_compute in E; discriminate E| |vm_compute in E; discriminate E..].
  exists e, st'. split; [reflexivity|]. exact (rejected_header_state processor at_genesis now (Ordinary bad_header) e st' E).
Defined.

(** ** The promotion floor

    After blocks 2 and 3 the virtual block has both as parents, and its work is
    the floor for promotions.  Block 4 extends block 3 alone. *)
Definition header4 : Header := small_header 4 [(1, [3])] 3000 1 4 2.
Definition siblings : HeaderStores :=
  (process_header processor now (Ordinary header3) (process_header processor now (Ordinary header2) at_genesis).2).2.
End Small.
